(* ===== verification/_CoqProject ===== *)
-Q . S2P
Prelude.v
ByteMap.v
Errors.v
Hex.v
KeyCodec.v
Canon.v
CanonRoundtrip.v
CanonInt.v
CanonTyped.v
CanonRecord.v
Ids.v
WireRecords.v
WireRegistry.v
WireFrame.v
WireNegotiation.v
Batch.v
BatchSpec.v
StateMonad.v
KernelTypes.v
MemKernel.v
MemKernelSpec.v
Codecs.v
Decimal.v
Rng.v
OrdMap.v
LangTypes.v
LangIr.v
Interp.v
InterpEval.v
InterpInvariants.v
InterpSpec.v
LangTyping.v
LangLower.v
RaftTypes.v
RaftStorage.v
Raft.v
RaftSpec.v
RaftSafety.v
RaftRefine.v
RaftFrame.v
RaftCluster.v
RaftSim.v
Explore.v
Fm1.v
Fm2.v
Fm3.v
StoreFormat.v
Journal.v
JournalRecovery.v
JournalDamage.v
BufferPool.v
SlotPage.v
BTree.v
BTreeShape.v
BTreeRead.v
BTreeInsert.v
BTreeValue.v
BTreeStore.v
BTreePersist.v
BTreeCheckpoint.v
BTreeScan.v
