(* ===== verification/Prelude.v ===== *)
(** * CarolinaDB: a verification library

    CarolinaDB (src/) is a database written in Rust whose crates build on one
    another: canonical encodings, keys and arithmetic (carolina-core), a Raft
    consensus core with a simulator (carolina-consensus), explicit-state
    models of its distributed protocols (carolina-models), a durable storage
    kernel (carolina-storage), and above them wire records, catalog, runtime,
    language, compiler and node.  This library translates the lower half of
    that stack, up to the wire records and the batches of the durable
    boundary, and the heart of the language, its evaluator and its expression
    type checker, into executable Rocq definitions, one file per component,
    and proves what the rest relies on.

    ** The parts and their files

    Shared: [Prelude.v] (outcomes, machine integers, bytes, record update),
    [ByteMap.v] (ordered maps keyed by bytes), [Errors.v] (error.rs).

    carolina-core.  [Hex.v] is hash.rs without SHA-256; [KeyCodec.v] is
    keycodec.rs, the order-preserving key codec; [Canon.v] is the values,
    encoder and strict decoder of canon.rs with limits.rs, [CanonInt.v] its
    decimal integers and [CanonTyped.v] its accessors, sets, object builder and
    the [Canonical] trait, with the identifier macros of ids.rs;
    [CanonRoundtrip.v] holds the proofs about the decoder.  [CanonRecord.v] is
    the [Canonical] trait for records that hold sets, with the law every such
    codec satisfies and the tactics that prove it; [Ids.v] is the composite
    identities of ids.rs.  [Decimal.v] is decimal.rs and [Rng.v] is rng.rs.

    carolina-wire.  [WireRecords.v] is records.rs, the requests, results,
    receipts, bindings and replies; [WireRegistry.v] is registry.rs and
    snapshot.rs; [WireFrame.v] is envelope.rs, the framing of a byte stream;
    [WireNegotiation.v] is negotiation.rs.

    carolina-consensus.  [RaftTypes.v] is the entries, messages and
    configuration of lib.rs with their canonical forms; [RaftStorage.v] is
    storage.rs, the storage trait as a class with laws and its memory and file
    implementations; [Raft.v] is the node, [Raft<S>] of lib.rs, every method as
    a computation that keeps the state reached when it fails.  [RaftSpec.v] is
    an abstract protocol with history variables, [RaftSafety.v] its inductive
    invariant, [RaftRefine.v] the simulation of each method by protocol steps,
    [RaftFrame.v] what the methods leave alone, and [RaftCluster.v] a cluster
    of nodes over a lossy network with crashes and restarts.  [RaftSim.v] is
    sim.rs, the seeded simulator, the checks it runs and its campaign.

    carolina-lang.  [OrdMap.v] is the BTreeMap and BTreeSet of ordered keys,
    over a class of total comparisons.  [LangTypes.v] is types.rs, types and
    values with their order and key bytes; [LangIr.v] is the data of ir.rs, the
    intermediate representation of a module; [Interp.v] is interp.rs, the
    reference evaluator: states, expressions, literal effects, invariants and
    operations.  [InterpEval.v] is what an expression reads,
    [InterpInvariants.v] the invariants as propositions, and [InterpSpec.v]
    the theorems about operations.  [LangTyping.v] is a typing judgement for
    expressions and its soundness; [LangLower.v] is the part of lower.rs that
    checks and lowers expressions.

    carolina-models.  [Explore.v] is the breadth-first explorer and the gate
    verdict of lib.rs; [Fm1.v], [Fm2.v] and [Fm3.v] are fm1.rs, fm2.rs and
    fm3.rs: escrow transfers, distributed decisions, migrations.

    carolina-storage.  [StoreFormat.v] is format.rs, the page, frame and
    manifest layouts; [Journal.v] is journal.rs with the sequential file and
    the fault points of io.rs; [JournalRecovery.v] proves recovery and
    reclamation, [JournalDamage.v] describes what recovery does to a damaged
    journal.  [Batch.v] is batch.rs, the batches and protocol records of the
    durable boundary, [BatchSpec.v] what their checks guarantee.
    [StateMonad.v] is the monad of [&mut self] methods, [KernelTypes.v] the
    types, keys and shared helpers of kernel.rs, [MemKernel.v] is memkernel.rs,
    the complete in-memory kernel, and [MemKernelSpec.v] a ledger it refines.
    [Codecs.v] collects the decoders of both crates.  [BufferPool.v] is
    buffer.rs, the page cache, over the page file of io.rs; [SlotPage.v] is the
    entries and slotted pages of btree.rs and [BTree.v] the tree itself.
    [BTreeShape.v] is the ghost tree behind the pages, [BTreeRead.v] lookups,
    [BTreeInsert.v] insertions with their splits, [BTreeValue.v] overflow
    chains, [BTreeStore.v] the tree as an ordered list of versions with the
    tree half of the store's get, [BTreePersist.v] and [BTreeCheckpoint.v]
    checkpoints, [BTreeScan.v] scans with the tree half of the store's scan.

    ** What the theorems show

    Encodings: the canonical decoder accepts exactly the encodings of values
    within its limits, is total, and its final re-encoding check is redundant;
    the same for typed decoding and for integers; the key codec round-trips,
    accepts nothing else, and orders keys as their values.  Decimal arithmetic
    is exact, with the typed error of every refusal.  Each record decoder of the wire and storage crates
    is exact: no panic on any input, one encoding per value, and every value in
    range is read back.

    Wire: a stream of frames is read back however it is cut; a handshake ends
    in the greatest common versions; a snapshot manifest accepts only the
    snapshot it describes, up to a collision of the hash.

    Batches: the reader of a batch accepts exactly the batches whose contents
    hang together; a digest binds a batch up to a collision of the hash; the
    status records of a transaction advance through at most five phases and
    never both install and abort.

    Kernel: every run of the memory kernel is a run, with the same outcomes, of
    a ledger of prepared, installed and aborted batches in which a refused
    operation changes nothing and a crash removes exactly what no barrier
    covered; a pinned snapshot reads the same whatever is installed; a commit
    the barrier covers survives every crash, and one it does not cover is taken
    away whole; the protocol keys of transactions and of request bindings never
    meet.  Two behaviours that its documentation does not intend are proved.

    Consensus: every run of a cluster of the real nodes, with messages lost,
    delayed, duplicated and reordered and nodes crashing at any point, refines
    the protocol; hence election safety, log matching, leader completeness,
    state-machine safety, and that compaction never outruns a voter.  The
    simulator's checks never fire, in its campaign or in any other use of it,
    except for one false alarm that is exhibited.  These theorems ask of a
    storage that a failed write leave the old or the new state, which the
    memory storage meets.  The file storage is shown to make the same updates,
    whatever its system calls answer, and a restart to find the result: after a
    failed append it finds a prefix of the entries, and a failed compaction is
    not repeated.

    Language: an accepted operation leaves the state its recorded effects
    replay to, in which every invariant holds, and the scoped evaluation that
    looks only at the affected invariants agrees with the full one; the checker
    of invariants decides their meaning; a transfer conserves its total and
    reservations conserve capacity; keys of values sort as the values.
    Expressions that pass the type checker evaluate without type errors, up
    to comparisons of options: one with [None] is refused whenever the option
    holds a value.

    Models: the explorer terminates, and its reports are truthful (no
    violation and no truncation mean safety; a violation is a shortest real
    path); the three machines are safe for every size, and their gates pass
    with a counterexample for every broken variant.

    Storage: the formats round-trip and a torn frame is never corruption; the
    journal recovers, after any injected failure and a power loss that keeps
    what was synced, a prefix of the acknowledged frames with every durable
    one; reclamation keeps what a checkpoint needs.  Behaviours on damaged journals are proved that the
    source's comments do not intend.

    Tree: behind the page cache, whatever it evicts, the tree is an ordered
    list of versions.  Insertion adds to it or reports a duplicate, get and
    scan read the newest visible versions from it, every loop ends within its
    guard, and none of them touches the file.  A checkpoint leaves a file that
    reopens to the same versions, less, in every leaf it collects, those below
    the newest at or under the horizon, and on every failure, torn pages
    included, leaves the previous image readable.  A scan is shown to lose rows
    exactly when more than its limit of the keys it visits are deleted; a leaf
    of large records that cannot be cut is exhibited.

    ** Modelling choices

    A [CoreResult] is [Ok], [Err] of its stable code (messages are dropped) or
    [Panic].  Unsigned arithmetic panics on overflow, as in the development
    profile.  A [&mut self] method is a function to its outcome and the state
    it leaves, also on failure.  A BTreeMap keyed by bytes is a sorted
    association list; sets and maps of node identifiers are gset and gmap.
    Checksums (crc32c) and hashes (sha2) are third-party crates: parameters of
    the definitions, a checksum with the range of [u32] as hypothesis.  Files
    are their contents, in the journal with the length known to be durable and
    a mark that the directory entry is, which syncing the file or its directory
    sets.  A power loss keeps of each file a prefix with at least its durable
    bytes and may remove unmarked files; it never extends a file with zeros.
    System calls of the journal and the tree succeed except where the fault
    injector, an arbitrary list of answers, says otherwise; the writes of the
    Raft file storage are answered by a list of successes and failures, and
    only the reads and the truncation of its [open] are taken to succeed.  The
    page file is its bytes, a torn write leaves
    half a page; the counters of the page cache and the tree are left out.  In
    [RaftCluster.v] a node whose method fails stops
    and keeps only its storage, as the repository's node treats it.

    Fuel: the canonical parser gets more fuel than its input has bytes and is
    proved never to exhaust it; the file scans get one step per byte and every
    frame takes several; rejection sampling takes [draw_fuel] samples, and
    exhausting them is a panic (the source loops, with probability below one
    half per round); the explorer gets one iteration per state of its budget,
    which is proved to suffice.  The loops of the tree have the source's own
    guards as fuel (64 levels, a million leaves or chain pages, ten million
    turns of a scan); the recursion of a checkpoint gets one level per page ever
    allocated, and a tree is proved to have no more levels than pages.

    ** Not modelled

    The file kernel of carolina-storage (of kernel.rs only what the memory
    kernel shares and the tree half of reads), and its crash campaigns;
    carolina-catalog, carolina-runtime and carolina-compiler; of carolina-lang
    the lexer and the parser, the lowering of declarations, effects, operations
    and contracts, and the canonical forms and hashes of the representation, of
    states and of effects; the node's transport and event loop, the command
    line and the qualification runner, which are input and output around the
    parts above; SHA-256 and crc32c; the report strings of the explorer and the
    simulator, and of its campaign the metrics and the comparison of two runs
    of one seed. *)

From stdpp Require Export base tactics list option decidable strings sets.
From Stdlib Require Export ZArith Lia.

#[global] Open Scope Z_scope.

(** ** Outcomes

    A Rust function that returns [CoreResult<T>] either returns [Ok], returns
    [Err] with a stable error code (src/crates/carolina-core/src/error.rs), or
    panics (an index out of bounds, a failed [unwrap], an [assert!]).  The
    three cases are the three constructors of [outcome]; error codes are a
    parameter here and are instantiated in [Errors.v]. *)
Inductive outcome (E A : Type) : Type :=
| Ok (a : A)
| Err (e : E)
| Panic.
Arguments Ok {E A} _.
Arguments Err {E A} _.
Arguments Panic {E A}.

Section outcome.
Context {E : Type}.

#[global] Instance outcome_ret : MRet (outcome E) := fun A a => Ok a.
#[global] Instance outcome_bind : MBind (outcome E) := fun A B f o =>
  match o with
  | Ok a => f a
  | Err e => Err e
  | Panic => Panic
  end.
#[global] Instance outcome_fmap : FMap (outcome E) := fun A B f o =>
  match o with
  | Ok a => Ok (f a)
  | Err e => Err e
  | Panic => Panic
  end.

(** [if !b { return Err(e) }] *)
Definition ensure (b : bool) (e : E) : outcome E unit :=
  if b then Ok tt else Err e.

(** [o.ok_or_else(|| e)?] *)
Definition ok_or {A} (o : option A) (e : E) : outcome E A :=
  match o with Some a => Ok a | None => Err e end.

(** [iter.map(f).collect::<CoreResult<Vec<_>>>()]: stops at the first error. *)
Fixpoint collect {A B} (f : A -> outcome E B) (l : list A) : outcome E (list B) :=
  match l with
  | [] => Ok []
  | x :: l' => y ← f x; ys ← collect f l'; Ok (y :: ys)
  end.

Definition is_ok {A} (o : outcome E A) : bool :=
  match o with Ok _ => true | _ => false end.

Lemma bind_ok_inv {A B} (o : outcome E A) (f : A -> outcome E B) b :
  (o ≫= f) = Ok b -> exists a, o = Ok a /\ f a = Ok b.
Proof. destruct o; cbn; intros; simplify_eq; eauto. Qed.

Lemma ensure_ok_inv b (e : E) u : ensure b e = Ok u -> b = true.
Proof. by destruct b. Qed.

Lemma ok_or_ok_inv {A} (o : option A) (e : E) a : ok_or o e = Ok a -> o = Some a.
Proof. destruct o; cbn; congruence. Qed.

Lemma collect_map {A B} (f : A -> outcome E B) (g : B -> A) l :
  (forall x, x ∈ l -> f (g x) = Ok x) -> collect f (map g l) = Ok l.
Proof.
  induction l as [|x l IH]; intros H; cbn; [done|].
  rewrite H by set_solver; cbn. rewrite IH; [done|]. set_solver.
Qed.

Lemma collect_length {A B} (f : A -> outcome E B) l r :
  collect f l = Ok r -> length r = length l.
Proof.
  revert r; induction l as [|x l IH]; intros r; cbn; [intros; by simplify_eq|].
  intros (y & _ & (ys & Hys & [= <-])%bind_ok_inv)%bind_ok_inv. cbn. by erewrite IH.
Qed.
End outcome.

(** [split_ok H]: turn [H : m ≫= k = Ok v] into its successive successful steps. *)
Ltac split_ok H :=
  repeat match type of H with
  | (_ ≫= _) = Ok _ =>
      let a := fresh "a" in let Ha := fresh "Ha" in
      apply bind_ok_inv in H as (a & Ha & H)
  | (let '(_, _) := ?p in _) = Ok _ => destruct p
  end.

(** [case_if]: split on the condition of a boolean [if] in the goal or a
    hypothesis, keeping the equation. *)
Ltac case_if :=
  match goal with
  | |- context [if ?b then _ else _] =>
      match type of b with bool => let E := fresh "E" in destruct b eqn:E end
  | H : context [if ?b then _ else _] |- _ =>
      match type of b with bool => let E := fresh "E" in destruct b eqn:E end
  end.

(** [case_in H as E]: split on the first boolean test in [H]. *)
Ltac case_in_tac H E :=
  match type of H with
  | context [if ?b then _ else _] => match type of b with bool => destruct b eqn:E end
  end.
Tactic Notation "case_in" hyp(H) "as" ident(E) := case_in_tac H E.

(** [breflect]: turn boolean comparisons in the context into propositions. *)
Ltac breflect :=
  repeat match goal with
  | H : andb _ _ = true |- _ => apply andb_true_iff in H as [? ?]
  | H : orb _ _ = false |- _ => apply orb_false_iff in H as [? ?]
  | H : andb _ _ = false |- _ => apply andb_false_iff in H
  | H : orb _ _ = true |- _ => apply orb_true_iff in H
  | H : negb _ = true |- _ => apply negb_true_iff in H
  | H : negb _ = false |- _ => apply negb_false_iff in H
  | H : bool_decide _ = true |- _ => apply bool_decide_eq_true_1 in H
  | H : bool_decide _ = false |- _ => apply bool_decide_eq_false_1 in H
  | H : (_ =? _)%Z = true |- _ => apply Z.eqb_eq in H
  | H : (_ =? _)%Z = false |- _ => apply Z.eqb_neq in H
  | H : (_ <=? _)%Z = true |- _ => apply Z.leb_le in H
  | H : (_ <=? _)%Z = false |- _ => apply Z.leb_gt in H
  | H : (_ <? _)%Z = true |- _ => apply Z.ltb_lt in H
  | H : (_ <? _)%Z = false |- _ => apply Z.ltb_ge in H
  end.

(** ** Functional record update

    [r <| f := v |>] is Rust's assignment [r.f = v] on an owned record.  A
    record type declares its eta expansion once ([Eta]); the setter of each
    projection is derived from it. *)
Class Eta (R : Type) : Type := eta : R -> R.
Class Setter {R T : Type} (p : R -> T) : Type := update : (T -> T) -> R -> R.
Arguments update {R T} p {_} f r / : simpl nomatch.

Ltac derive_setter p :=
  lazymatch type of p with
  | ?R -> ?T =>
      let e := constr:(_ : Eta R) in
      let h := eval hnf in e in
      exact (fun (the_update : T -> T) (the_record : R) => ltac:(
        let body := eval cbv beta in (h the_record) in
        lazymatch eval pattern (p the_record) in body with
        | ?g _ => let body' := eval cbv beta in (g (the_update (p the_record))) in exact body'
        end))
  end.
#[global] Hint Extern 1 (Setter ?p) => derive_setter p : typeclass_instances.

Notation "r <| p := v |>" := (update p (fun _ => v) r)
  (at level 1, left associativity, p at next level, v at level 99).
Notation "r <| p ::= f |>" := (update p f r)
  (at level 1, left associativity, p at next level, f at level 99).

(** ** Machine integers

    A [uN] value is a [Z] in [0, 2^N); an [iN] value a [Z] in [-2^(N-1), 2^(N-1)). *)
Definition in_u (w z : Z) : bool := (0 <=? z) && (z <? 2 ^ w).
Definition in_i (w z : Z) : bool := (- 2 ^ (w - 1) <=? z) && (z <? 2 ^ (w - 1)).

(** [a.checked_add(b)] and friends at a signed width: [None] on overflow. *)
Definition checked_i (w z : Z) : option Z := if in_i w z then Some z else None.
Definition checked_u (w z : Z) : option Z := if in_u w z then Some z else None.

(** [a + b] and [a - b] on an unsigned width, in a build with overflow checks:
    leaving the range panics. *)
Definition uadd {E} (w a b : Z) : outcome E Z :=
  match checked_u w (a + b) with Some z => Ok z | None => Panic end.
Definition usub {E} (w a b : Z) : outcome E Z :=
  match checked_u w (a - b) with Some z => Ok z | None => Panic end.

(** [a.saturating_sub(b)] on an unsigned width. *)
Definition saturating_sub (a b : Z) : Z := Z.max 0 (a - b).

(** A cast [x as uN] keeps the low bits; [x as iN] of a same-width unsigned
    value re-reads the top bit as a sign. *)
Definition wrap_u (w z : Z) : Z := z mod 2 ^ w.
Definition wrap_i (w z : Z) : Z := (z + 2 ^ (w - 1)) mod 2 ^ w - 2 ^ (w - 1).

Lemma in_u_spec w z : in_u w z = true <-> 0 <= z < 2 ^ w.
Proof. unfold in_u. rewrite andb_true_iff, Z.leb_le, Z.ltb_lt. lia. Qed.
Lemma in_i_spec w z : in_i w z = true <-> - 2 ^ (w - 1) <= z < 2 ^ (w - 1).
Proof. unfold in_i. rewrite andb_true_iff, Z.leb_le, Z.ltb_lt. lia. Qed.

Lemma checked_i_some w z r : checked_i w z = Some r <-> r = z /\ in_i w z = true.
Proof. unfold checked_i. destruct (in_i w z); split; intros; destruct_and?; by simplify_eq. Qed.

Lemma uadd_ok_inv {E} w a b r : @uadd E w a b = Ok r -> r = a + b /\ 0 <= r < 2 ^ w.
Proof.
  unfold uadd, checked_u. destruct (in_u w (a + b)) eqn:E1; [|done]. intros [= <-].
  by apply in_u_spec in E1.
Qed.
Lemma uadd_ok {E} w a b : in_u w (a + b) = true -> @uadd E w a b = Ok (a + b).
Proof. intros H. unfold uadd, checked_u. by rewrite H. Qed.
Lemma usub_ok_inv {E} w a b r : @usub E w a b = Ok r -> r = a - b /\ 0 <= r < 2 ^ w.
Proof.
  unfold usub, checked_u. destruct (in_u w (a - b)) eqn:E1; [|done]. intros [= <-].
  by apply in_u_spec in E1.
Qed.

Lemma wrap_i_unsigned w z :
  0 < w -> in_i w z = true -> wrap_i w (wrap_u w z) = z.
Proof.
  intros Hw Hz. apply in_i_spec in Hz. unfold wrap_i, wrap_u.
  assert (2 ^ w = 2 * 2 ^ (w - 1)).
  { rewrite <- Z.pow_succ_r by lia. f_equal. lia. }
  rewrite Zplus_mod_idemp_l, Z.mod_small; lia.
Qed.

(** Or-ing a value below [2^n] under a value shifted by [n] is an addition. *)
Lemma lor_shiftl n h l : 0 <= n -> 0 <= l < 2 ^ n -> Z.lor (Z.shiftl h n) l = h * 2 ^ n + l.
Proof.
  intros Hn Hl.
  assert (Hland : Z.land (Z.shiftl h n) l = 0).
  { rewrite <- (Z.mod_small l (2 ^ n)), <- Z.land_ones by lia.
    apply Z.bits_inj'. intros i Hi. rewrite !Z.land_spec, Z.bits_0.
    destruct (decide (i < n)).
    - by rewrite Z.shiftl_spec_low by lia.
    - rewrite (Z.ones_spec_high n i) by lia. by rewrite !andb_false_r. }
  rewrite <- Z.lxor_lor, <- Z.add_nocarry_lxor, Z.shiftl_mul_pow2 by done. done.
Qed.

(** ** Bytes *)
Abbreviation bytes := (list Z).

Definition byte_ok (b : Z) : Prop := 0 <= b < 256.
Definition bytes_ok (l : bytes) : Prop := Forall byte_ok l.

#[global] Instance byte_ok_dec b : Decision (byte_ok b).
Proof. unfold byte_ok. apply _. Defined.

(** ASCII text as its bytes: [b"..."] and [str::as_bytes] of a literal. *)
Fixpoint str (s : string) : bytes :=
  match s with
  | EmptyString => []
  | String a s' => Z.of_N (Ascii.N_of_ascii a) :: str s'
  end.

Lemma str_ok s : bytes_ok (str s).
Proof.
  induction s as [|a s IH]; cbn; constructor; [|done].
  pose proof (Ascii.N_ascii_bounded a). unfold byte_ok. lia.
Qed.

(** Fixed-width big-endian and little-endian encodings ([to_be_bytes],
    [to_le_bytes]) of an unsigned value on [n] bytes, and their inverses. *)
Fixpoint le_encode (n : nat) (z : Z) : bytes :=
  match n with
  | O => []
  | S n' => z mod 256 :: le_encode n' (z / 256)
  end.

Fixpoint le_decode (l : bytes) : Z :=
  match l with
  | [] => 0
  | b :: l' => b + 256 * le_decode l'
  end.

Definition be_encode (n : nat) (z : Z) : bytes := rev (le_encode n z).
Definition be_decode (l : bytes) : Z := le_decode (rev l).

Arguments be_encode : simpl never.
Arguments be_decode : simpl never.

Lemma le_encode_length n z : length (le_encode n z) = n.
Proof. revert z; induction n; intros; cbn; auto. Qed.
Lemma be_encode_length n z : length (be_encode n z) = n.
Proof. unfold be_encode. by rewrite length_rev, le_encode_length. Qed.

Lemma le_encode_ok n z : bytes_ok (le_encode n z).
Proof.
  revert z; induction n; intros; cbn; constructor; [|apply IHn].
  unfold byte_ok. apply Z.mod_pos_bound. lia.
Qed.
Lemma be_encode_ok n z : bytes_ok (be_encode n z).
Proof. apply Forall_rev, le_encode_ok. Qed.

Lemma le_decode_encode n z :
  0 <= z < 256 ^ Z.of_nat n -> le_decode (le_encode n z) = z.
Proof.
  revert z; induction n as [|n IH]; intros z Hz; cbn [le_encode le_decode].
  - change (256 ^ Z.of_nat 0) with 1 in Hz. lia.
  - rewrite Nat2Z.inj_succ, Z.pow_succ_r in Hz by lia.
    rewrite IH; [pose proof (Z.div_mod z 256); lia|].
    split; [apply Z.div_pos; lia|]. apply Z.div_lt_upper_bound; lia.
Qed.
Lemma be_decode_encode n z :
  0 <= z < 256 ^ Z.of_nat n -> be_decode (be_encode n z) = z.
Proof.
  intros. unfold be_decode, be_encode. rewrite rev_involutive. by apply le_decode_encode.
Qed.

Lemma le_encode_decode l : bytes_ok l -> le_encode (length l) (le_decode l) = l.
Proof.
  induction 1 as [|b l Hb _ IH]; cbn [le_encode le_decode length]; [done|].
  unfold byte_ok in Hb. f_equal.
  - rewrite Z.mul_comm, Z_mod_plus_full, Z.mod_small; lia.
  - rewrite Z.mul_comm, Z.div_add, Z.div_small, Z.add_0_l by lia. done.
Qed.
Lemma be_encode_decode l : bytes_ok l -> be_encode (length l) (be_decode l) = l.
Proof.
  intros H. unfold be_encode, be_decode. rewrite <- (length_rev l).
  rewrite le_encode_decode by by apply Forall_rev. apply rev_involutive.
Qed.

Lemma le_decode_bound l : bytes_ok l -> 0 <= le_decode l < 256 ^ Z.of_nat (length l).
Proof.
  induction 1 as [|b l Hb _ IH]; cbn [le_decode length]; [change (256 ^ Z.of_nat 0) with 1; lia|].
  unfold byte_ok in Hb. rewrite Nat2Z.inj_succ, Z.pow_succ_r by lia. lia.
Qed.
Lemma be_decode_bound l : bytes_ok l -> 0 <= be_decode l < 256 ^ Z.of_nat (length l).
Proof.
  intros H. unfold be_decode. rewrite <- (length_rev l). apply le_decode_bound.
  by apply Forall_rev.
Qed.

(** ** Lexicographic order on byte strings ([Ord] of [Vec<u8>], [&str], [[u8; N]]) *)
Fixpoint bytes_cmp (a b : bytes) : comparison :=
  match a, b with
  | [], [] => Eq
  | [], _ :: _ => Lt
  | _ :: _, [] => Gt
  | x :: a', y :: b' =>
      match x ?= y with
      | Eq => bytes_cmp a' b'
      | c => c
      end
  end.

Definition bytes_ltb (a b : bytes) : bool :=
  match bytes_cmp a b with Lt => true | _ => false end.
Definition bytes_leb (a b : bytes) : bool :=
  match bytes_cmp a b with Gt => false | _ => true end.

Notation "a <b b" := (bytes_ltb a b = true) (at level 70, no associativity) : Z_scope.

Lemma bytes_cmp_refl a : bytes_cmp a a = Eq.
Proof. induction a; cbn; [done|]. by rewrite Z.compare_refl. Qed.
Lemma bytes_cmp_eq a b : bytes_cmp a b = Eq <-> a = b.
Proof.
  split; [|intros ->; apply bytes_cmp_refl].
  revert b; induction a as [|x a IH]; intros [|y b]; cbn; try done.
  destruct (Z.compare_spec x y); try done. intros. f_equal; auto.
Qed.
Lemma bytes_cmp_antisym a b : bytes_cmp b a = CompOpp (bytes_cmp a b).
Proof.
  revert b; induction a as [|x a IH]; intros [|y b]; cbn; try done.
  rewrite (Z.compare_antisym x y). destruct (x ?= y); cbn; auto.
Qed.
Lemma bytes_ltb_trans a b c : a <b b -> b <b c -> a <b c.
Proof.
  unfold bytes_ltb. revert b c; induction a as [|x a IH]; intros [|y b] [|z c]; cbn; try done.
  destruct (Z.compare_spec x y); try done; destruct (Z.compare_spec y z); try done; subst.
  - rewrite Z.compare_refl. apply IH.
  - intros _ _. by rewrite (proj2 (Z.compare_lt_iff y z)).
  - intros _ _. by rewrite (proj2 (Z.compare_lt_iff x z)).
  - intros _ _. rewrite (proj2 (Z.compare_lt_iff x z)); [done|lia].
Qed.
Lemma bytes_ltb_irrefl a : bytes_ltb a a = false.
Proof. unfold bytes_ltb. by rewrite bytes_cmp_refl. Qed.
Lemma bytes_ltb_total a b : bytes_ltb a b = false -> bytes_ltb b a = false -> a = b.
Proof.
  unfold bytes_ltb. intros H1 H2. apply bytes_cmp_eq.
  rewrite bytes_cmp_antisym in H2. by destruct (bytes_cmp a b).
Qed.
Lemma bytes_leb_lt a b : bytes_leb a b = negb (bytes_ltb b a).
Proof.
  unfold bytes_leb, bytes_ltb. rewrite (bytes_cmp_antisym a b). by destruct (bytes_cmp a b).
Qed.
Lemma bytes_lt_le a b : a <b b -> bytes_leb a b = true.
Proof. unfold bytes_leb, bytes_ltb. by destruct (bytes_cmp a b). Qed.
Lemma bytes_leb_refl a : bytes_leb a a = true.
Proof. unfold bytes_leb. by rewrite bytes_cmp_refl. Qed.
Lemma bytes_cmp_app_same p a b : bytes_cmp (p ++ a) (p ++ b) = bytes_cmp a b.
Proof. induction p as [|x p IH]; cbn; [done|]. by rewrite Z.compare_refl. Qed.

(** Equal-length byte strings compare as their first difference; the tails
    that follow do not matter once the heads differ. *)
Lemma bytes_cmp_app_neq a b c d :
  length a = length b -> a <> b -> bytes_cmp (a ++ c) (b ++ d) = bytes_cmp a b.
Proof.
  revert b; induction a as [|x a IH]; intros [|y b] Hl Hne; cbn in *; try done; try lia.
  destruct (Z.compare_spec x y) as [->|?|?]; try done. apply IH; [lia|congruence].
Qed.

(** Big-endian encodings on the same width compare as the numbers do. *)
Lemma be_encode_S n z :
  0 <= z < 256 ^ Z.of_nat (S n) ->
  be_encode (S n) z = z / 256 ^ Z.of_nat n :: be_encode n (z mod 256 ^ Z.of_nat n).
Proof.
  intros Hz. unfold be_encode.
  assert (H : le_encode (S n) z = le_encode n (z mod 256 ^ Z.of_nat n) ++ [z / 256 ^ Z.of_nat n]).
  { revert z Hz. induction n as [|n IH]; intros z Hz.
    - change (256 ^ Z.of_nat 0) with 1. change (256 ^ Z.of_nat 1) with 256 in Hz.
      cbn. rewrite Z.div_1_r, Z.mod_small by lia. done.
    - assert (Hp : 256 ^ Z.of_nat (S n) = 256 * 256 ^ Z.of_nat n)
        by (rewrite Nat2Z.inj_succ, Z.pow_succ_r by lia; done).
      assert (Hq : 0 < 256 ^ Z.of_nat n) by (apply Z.pow_pos_nonneg; lia).
      change (le_encode (S (S n)) z) with (z mod 256 :: le_encode (S n) (z / 256)).
      rewrite IH.
      2:{ split; [apply Z.div_pos; lia|]. apply Z.div_lt_upper_bound; [lia|].
          rewrite Nat2Z.inj_succ, Z.pow_succ_r in Hz by lia. lia. }
      change (le_encode (S n) (z mod 256 ^ Z.of_nat (S n)))
        with ((z mod 256 ^ Z.of_nat (S n)) mod 256
              :: le_encode n ((z mod 256 ^ Z.of_nat (S n)) / 256)).
      rewrite Hp, Z.div_div by lia.
      assert (Hm : z mod (256 * 256 ^ Z.of_nat n) = 256 * ((z / 256) mod 256 ^ Z.of_nat n) + z mod 256)
        by (rewrite Z.rem_mul_r by lia; lia).
      rewrite Hm. rewrite (Z.add_comm (256 * _)), (Z.mul_comm 256 (_ mod _)).
      rewrite Z_mod_plus_full, Z.div_add by lia.
      rewrite Zmod_mod, (Z.div_small (z mod 256)), Z.add_0_l
        by (apply Z.mod_pos_bound; lia). done. }
  rewrite H, rev_app_distr. done.
Qed.

Lemma be_encode_cmp n x y :
  0 <= x < 256 ^ Z.of_nat n -> 0 <= y < 256 ^ Z.of_nat n ->
  bytes_cmp (be_encode n x) (be_encode n y) = (x ?= y).
Proof.
  revert x y; induction n as [|n IH]; intros x y Hx Hy.
  - change (256 ^ Z.of_nat 0) with 1 in *. replace x with 0 by lia. by replace y with 0 by lia.
  - rewrite !be_encode_S by done. cbn [bytes_cmp].
    set (p := 256 ^ Z.of_nat n). assert (Hp : 0 < p) by (apply Z.pow_pos_nonneg; lia).
    pose proof (Z.div_mod x p ltac:(lia)). pose proof (Z.div_mod y p ltac:(lia)).
    pose proof (Z.mod_pos_bound x p Hp). pose proof (Z.mod_pos_bound y p Hp).
    destruct (Z.compare_spec (x / p) (y / p)).
    + rewrite IH by (fold p; lia). destruct (Z.compare_spec (x mod p) (y mod p)); symmetry;
        rewrite ?Z.compare_eq_iff, ?Z.compare_lt_iff, ?Z.compare_gt_iff; nia.
    + symmetry. apply Z.compare_lt_iff. nia.
    + symmetry. apply Z.compare_gt_iff. nia.
Qed.
