(* ===== verification/ByteMap.v ===== *)
(** * Ordered maps with byte-string keys

    [std::collections::BTreeMap<K, V>] for the key types the code uses as maps
    keyed by bytes ([String], [Vec<u8>], [[u8; 32]]): an association list kept
    strictly sorted by the lexicographic order of its keys, so that iteration
    visits the entries in the order the source's [iter()] does. *)

From S2P Require Import Prelude.

Abbreviation bmap V := (list (bytes * V)).

Section bmap.
Context {V : Type}.
Implicit Types (m : bmap V) (k : bytes) (v : V).

Fixpoint bget (k : bytes) (m : bmap V) : option V :=
  match m with
  | [] => None
  | (k', v) :: m' =>
      match bytes_cmp k k' with
      | Lt => None
      | Eq => Some v
      | Gt => bget k m'
      end
  end.

Fixpoint binsert (k : bytes) (v : V) (m : bmap V) : bmap V :=
  match m with
  | [] => [(k, v)]
  | (k', v') :: m' =>
      match bytes_cmp k k' with
      | Lt => (k, v) :: m
      | Eq => (k, v) :: m'
      | Gt => (k', v') :: binsert k v m'
      end
  end.

Fixpoint bremove (k : bytes) (m : bmap V) : bmap V :=
  match m with
  | [] => []
  | (k', v') :: m' =>
      match bytes_cmp k k' with
      | Lt => m
      | Eq => m'
      | Gt => (k', v') :: bremove k m'
      end
  end.

Definition bkeys (m : bmap V) : list bytes := map fst m.

(** Strictly increasing keys. *)
Fixpoint bsorted (m : bmap V) : Prop :=
  match m with
  | [] => True
  | (k, _) :: m' => Forall (fun kv => k <b fst kv) m' /\ bsorted m'
  end.

Lemma bsorted_cons k v m : bsorted ((k, v) :: m) <-> Forall (fun kv => k <b fst kv) m /\ bsorted m.
Proof. done. Qed.

Lemma bcmp_lt a b : bytes_cmp a b = Lt <-> a <b b.
Proof. unfold bytes_ltb. by destruct (bytes_cmp a b). Qed.
Lemma bcmp_gt a b : bytes_cmp a b = Gt <-> b <b a.
Proof. rewrite <- bcmp_lt, (bytes_cmp_antisym a b). by destruct (bytes_cmp a b). Qed.

Lemma bget_below k m : Forall (fun kv => k <b fst kv) m -> bget k m = None.
Proof. destruct 1 as [|[k' v'] m H]; cbn; [done|]. apply bcmp_lt in H. cbn in H. by rewrite H. Qed.

Lemma binsert_Forall (P : bytes * V -> Prop) k v m :
  P (k, v) -> Forall P m -> Forall P (binsert k v m).
Proof.
  intros HP Hm. induction Hm as [|[k' v'] m Hk Hm IH]; cbn; [by constructor|].
  destruct (bytes_cmp k k'); repeat constructor; auto.
Qed.

Lemma binsert_sorted k v m : bsorted m -> bsorted (binsert k v m).
Proof.
  induction m as [|[k' v'] m IH]; cbn; [done|]. intros [Hk Hm].
  destruct (bytes_cmp k k') eqn:E; cbn.
  - apply bytes_cmp_eq in E as ->. done.
  - apply bcmp_lt in E. split; [|done]. constructor; [done|].
    eapply Forall_impl; [exact Hk|]. intros ? ?. by eapply bytes_ltb_trans.
  - apply bcmp_gt in E. split; [|auto]. by apply binsert_Forall.
Qed.

Lemma bremove_Forall (P : bytes * V -> Prop) k m : Forall P m -> Forall P (bremove k m).
Proof.
  induction 1 as [|[k' v'] m Hk Hm IH]; cbn; [done|].
  destruct (bytes_cmp k k'); auto.
Qed.

Lemma bremove_sorted k m : bsorted m -> bsorted (bremove k m).
Proof.
  induction m as [|[k' v'] m IH]; cbn; [done|]. intros [Hk Hm].
  destruct (bytes_cmp k k'); cbn; auto. split; [by apply bremove_Forall|auto].
Qed.

Lemma bget_insert_eq k v m : bget k (binsert k v m) = Some v.
Proof.
  induction m as [|[k' v'] m IH]; cbn; [by rewrite bytes_cmp_refl|].
  destruct (bytes_cmp k k') eqn:E; cbn; rewrite ?bytes_cmp_refl, ?E; done.
Qed.

Lemma bget_insert_ne k k0 v m :
  bsorted m -> k0 <> k -> bget k0 (binsert k v m) = bget k0 m.
Proof.
  intros Hs Hne. induction m as [|[k' v'] m IH]; cbn.
  - destruct (bytes_cmp k0 k) eqn:E; [by apply bytes_cmp_eq in E|done..].
  - destruct Hs as [Hk Hs]. destruct (bytes_cmp k k') eqn:E; cbn.
    + apply bytes_cmp_eq in E as ->.
      destruct (bytes_cmp k0 k') eqn:E0; [by apply bytes_cmp_eq in E0|done..].
    + destruct (bytes_cmp k0 k) eqn:E0; [by apply bytes_cmp_eq in E0| |done].
      apply bcmp_lt in E, E0. pose proof (bytes_ltb_trans _ _ _ E0 E) as E1.
      apply bcmp_lt in E1. by rewrite E1.
    + destruct (bytes_cmp k0 k'); auto.
Qed.

Lemma bget_remove_eq k m : bsorted m -> bget k (bremove k m) = None.
Proof.
  induction m as [|[k' v'] m IH]; cbn; [done|]. intros [Hk Hs].
  destruct (bytes_cmp k k') eqn:E; cbn; rewrite ?E; auto.
  apply bytes_cmp_eq in E as ->. by apply bget_below.
Qed.

Lemma bget_remove_ne k k0 m :
  bsorted m -> k0 <> k -> bget k0 (bremove k m) = bget k0 m.
Proof.
  induction m as [|[k' v'] m IH]; cbn; [done|]. intros [Hk Hs] Hne.
  destruct (bytes_cmp k k') eqn:E; cbn; [|done|by rewrite IH].
  apply bytes_cmp_eq in E as ->.
  destruct (bytes_cmp k0 k') eqn:E0; [by apply bytes_cmp_eq in E0| |done].
  apply bget_below. apply bcmp_lt in E0.
  eapply Forall_impl; [exact Hk|]. intros ? ?. by eapply bytes_ltb_trans.
Qed.

Lemma bget_In k v m : bget k m = Some v -> (k, v) ∈ m.
Proof.
  induction m as [|[k' v'] m IH]; cbn; [done|].
  destruct (bytes_cmp k k') eqn:E; intros; simplify_eq.
  - apply bytes_cmp_eq in E as ->. left.
  - right. auto.
Qed.

Lemma bIn_get k v m : bsorted m -> (k, v) ∈ m -> bget k m = Some v.
Proof.
  induction m as [|[k' v'] m IH]; cbn; [set_solver|]. intros [Hk Hs] Hin.
  apply elem_of_cons in Hin as [[= <- <-]|Hin].
  - by rewrite bytes_cmp_refl.
  - rewrite Forall_forall in Hk. specialize (Hk _ Hin). cbn in Hk.
    apply bcmp_gt in Hk. rewrite Hk. auto.
Qed.

(** Building a map by appending a key above every key already present. *)
Lemma binsert_above k v m :
  Forall (fun kv => fst kv <b k) m -> binsert k v m = m ++ [(k, v)].
Proof.
  induction 1 as [|[k' v'] m Hk Hm IH]; cbn; [done|].
  cbn in Hk. apply bcmp_gt in Hk. rewrite Hk. by rewrite IH.
Qed.

Lemma bsorted_app m1 m2 :
  bsorted (m1 ++ m2) <->
  bsorted m1 /\ bsorted m2 /\ Forall (fun kv => Forall (fun kv' => fst kv <b fst kv') m2) m1.
Proof.
  induction m1 as [|[k v] m1 IH]; cbn; [rewrite Forall_nil; tauto|].
  rewrite Forall_app, IH, Forall_cons. cbn. tauto.
Qed.

(** Retaining the entries a predicate selects ([BTreeMap::retain]). *)
Lemma bsorted_filter (P : bytes * V -> Prop) `{forall x, Decision (P x)} m :
  bsorted m -> bsorted (filter P m).
Proof.
  induction m as [|[k v] m IH]; [done|]. intros [Hk Hs]. rewrite filter_cons.
  case_decide; cbn; [|auto]. split; [|auto].
  rewrite Forall_forall in Hk |- *. intros x Hx. apply list_elem_of_filter in Hx as [_ Hx]. auto.
Qed.

Lemma bget_filter (P : bytes * V -> Prop) `{forall x, Decision (P x)} k m : bsorted m ->
  bget k (filter P m) = match bget k m with Some v => if decide (P (k, v)) then Some v else None | None => None end.
Proof.
  intros Hs. destruct (bget k m) as [v|] eqn:E.
  - apply bget_In in E as Hin. case_decide as HP.
    + apply bIn_get; [by apply bsorted_filter|]. by apply list_elem_of_filter.
    + destruct (bget k (filter P m)) as [w|] eqn:E2; [|done].
      apply bget_In, list_elem_of_filter in E2 as [? Hw]. apply bIn_get in Hw; [|done]. by simplify_eq.
  - destruct (bget k (filter P m)) as [w|] eqn:E2; [|done].
    apply bget_In, list_elem_of_filter in E2 as [_ Hw]. apply bIn_get in Hw; [|done]. by simplify_eq.
Qed.
End bmap.

(** Changing the values in place ([values_mut]). *)
Lemma bget_map {V W} (f : V -> W) k (m : bmap V) :
  bget k (map (fun kv => (fst kv, f (snd kv))) m) = f <$> bget k m.
Proof. induction m as [|[k' v] m IH]; cbn; [done|]. by destruct (bytes_cmp k k'). Qed.

Lemma bsorted_map {V W} (f : V -> W) (m : bmap V) :
  bsorted m -> bsorted (map (fun kv => (fst kv, f (snd kv))) m).
Proof. induction m as [|[k v] m IH]; cbn; [done|]. intros [Hk Hm]. split; [|auto]. by apply Forall_map. Qed.

#[export] Hint Resolve binsert_sorted bremove_sorted : core.
