(* ===== verification/Errors.v ===== *)
(** * Error codes (src/crates/carolina-core/src/error.rs)

    The stable machine-readable codes and the error value.  A [CoreError]
    carries, besides its code, a human-readable message and an optional path;
    both are diagnostics the code never branches on, so an error is modelled
    by its code. *)

From S2P Require Import Prelude.

Inductive ErrorCode : Type :=
| ParseError | DuplicateIdentity | TypeMismatch | MissingRecord | NumericOverflow
| InvalidDecimal | UnknownNormalizer | UnsupportedEffect | UnboundedFootprint
| UnevaluableInvariant | InvalidContract | UnsupportedIrVersion | NonCanonicalEncoding
| ResourceLimit | IdentityMismatch | UnsupportedSessionScope
| InvalidIr | IncompleteContract | InvalidSequentialContract | UnenforceableInvariant
| IncompleteFootprint | UnsupportedComposition | UnsatisfiableDurability
| UnmetObservationContract | MissingRuntimeCapability | InvalidEvidence | AnalysisLimit
| NoSafePlan
| Io | DiskFull | Corruption | ChecksumMismatch | UnsupportedFormat | InvalidManifest
| KeyTooLarge | ValueTooLarge | BatchTooLarge | Conflict | StaleEpoch | StalePlan
| StaleSchema | TxnAlreadyCommitted | TxnAlreadyAborted | TxnInDoubt | ReadOnly | NotReady
| RequestIdentityMismatch | IdentityConflict | IdentityExpired | ResultExpired
| OutcomeUnknown | AuthorityUnavailable | MissingDependency | InvariantRejected
| PreconditionRejected | PostconditionRejected | ArithmeticError | Unavailable
| ProtocolError | UnsupportedCodec | IncompatiblePeer | NamespaceRetired | Internal.

#[global] Instance ErrorCode_eq_dec : EqDecision ErrorCode.
Proof. solve_decision. Defined.

Abbreviation CoreResult := (outcome ErrorCode).

#[global] Instance outcome_eq_dec {A} `{EqDecision A} : EqDecision (CoreResult A).
Proof. solve_decision. Defined.
