(* ===== verification/Hex.v ===== *)
(** * Lowercase hexadecimal and 32-byte digests
      (src/crates/carolina-core/src/hash.rs)

    [hex_encode]/[hex_decode], the strict canonical text form of byte arrays,
    and [Hash256::to_hex]/[from_hex].  SHA-256 itself is the [sha2] crate. *)

From S2P Require Import Prelude Errors.

(** The table [b"0123456789abcdef"]. *)
Definition HEX : bytes := str "0123456789abcdef".

Definition hex_encode (b : bytes) : bytes :=
  b ≫= fun x => [nth (Z.to_nat (Z.shiftr x 4)) HEX 0; nth (Z.to_nat (Z.land x 15)) HEX 0].

(** The closure [nib] of [hex_decode]. *)
Definition nib (c : Z) : CoreResult Z :=
  if (48 <=? c) && (c <=? 57) then Ok (c - 48)
  else if (97 <=? c) && (c <=? 102) then Ok (c - 97 + 10)
  else Err NonCanonicalEncoding.

Fixpoint hex_pairs (s : bytes) : CoreResult bytes :=
  match s with
  | c :: d :: s' =>
      h ← nib c; l ← nib d;
      rest ← hex_pairs s';
      Ok (Z.lor (Z.shiftl h 4) l :: rest)
  | _ => Ok []
  end.

Definition hex_decode (s : bytes) : CoreResult bytes :=
  if Nat.even (length s) then hex_pairs s else Err NonCanonicalEncoding.

(** [Hash256::to_hex] and [Hash256::from_hex]; a [Hash256] is its 32 bytes. *)
Definition Hash256_to_hex (h : bytes) : bytes := hex_encode h.
Definition Hash256_from_hex (s : bytes) : CoreResult bytes :=
  b ← hex_decode s;
  if (length b =? 32)%nat then Ok b else Err NonCanonicalEncoding.

(** [domain_hash]: the digest of the domain, a zero byte and the payload.
    SHA-256 itself is the third-party crate sha2, a parameter. *)
Definition domain_hash (sha256 : bytes -> bytes) (domain : string) (payload : bytes) : bytes :=
  sha256 (str domain ++ 0 :: payload).

(** [mod domains], the ones the modelled code uses. *)
Definition REQUEST_V1 : string := "astra.request.v1".
Definition RESULT_V1 : string := "astra.result.v1".
Definition RECEIPT_V1 : string := "astra.receipt.v1".
Definition PROTOCOL_RECORD_V1 : string := "astra.protocol-record.v1".
Definition SNAPSHOT_CHUNK_V1 : string := "astra.snapshot-chunk.v1".
Definition SNAPSHOT_MANIFEST_V1 : string := "astra.snapshot-manifest.v1".
Definition NEGOTIATION_V1 : string := "astra.negotiation.v1".
Definition BATCH_V1 : string := "astra.batch.v1".

(** ** Facts *)
Lemma hex_digit n : (n < 16)%nat -> nib (nth n HEX 0) = Ok (Z.of_nat n).
Proof. intros. do 16 (destruct n as [|n]; [reflexivity|]). lia. Qed.

Lemma nib_inv c h : nib c = Ok h -> 0 <= h < 16 /\ c = nth (Z.to_nat h) HEX 0.
Proof.
  unfold nib. intros H. repeat case_if; simplify_eq; breflect.
  - split; [lia|]. assert (c - 48 ∈ seqZ 0 10) as Hin by (apply elem_of_seqZ; lia).
    assert (c = 48 + (c - 48)) as -> by lia. replace (48 + (c - 48) - 48) with (c - 48) by lia.
    revert Hin. generalize (c - 48). intros z Hz. cbn in Hz.
    repeat (apply elem_of_cons in Hz as [->|Hz]; [reflexivity|]). by apply not_elem_of_nil in Hz.
  - split; [lia|]. assert (c - 97 ∈ seqZ 0 6) as Hin by (apply elem_of_seqZ; lia).
    assert (c = 97 + (c - 97)) as -> by lia. replace (97 + (c - 97) - 97) with (c - 97) by lia.
    revert Hin. generalize (c - 97). intros z Hz. cbn in Hz.
    repeat (apply elem_of_cons in Hz as [->|Hz]; [reflexivity|]). by apply not_elem_of_nil in Hz.
Qed.

(** A byte is the join of its two nibbles, and a join of nibbles splits back. *)
Lemma byte_split x : byte_ok x -> 0 <= Z.shiftr x 4 < 16 /\ 0 <= Z.land x 15 < 16 /\
  Z.lor (Z.shiftl (Z.shiftr x 4) 4) (Z.land x 15) = x.
Proof.
  intros Hx. unfold byte_ok in Hx. change 15 with (Z.ones 4).
  rewrite Z.land_ones, Z.shiftr_div_pow2 by lia. change (2 ^ 4) with 16.
  pose proof (Z.mod_pos_bound x 16 ltac:(lia)).
  split_and!; try (apply Z.div_pos; lia); try (apply Z.div_lt_upper_bound; lia); try lia.
  rewrite lor_shiftl by lia. pose proof (Z.div_mod x 16 ltac:(lia)). lia.
Qed.

Lemma byte_join h l : 0 <= h < 16 -> 0 <= l < 16 ->
  let x := Z.lor (Z.shiftl h 4) l in byte_ok x /\ Z.shiftr x 4 = h /\ Z.land x 15 = l.
Proof.
  intros Hh Hl. cbn zeta. rewrite lor_shiftl by lia. change (2 ^ 4) with 16.
  change 15 with (Z.ones 4). rewrite Z.land_ones, Z.shiftr_div_pow2 by lia. change (2 ^ 4) with 16.
  unfold byte_ok. split_and!; [lia|lia| |].
  - rewrite Z.div_add_l, Z.div_small by lia. lia.
  - rewrite Z.add_comm, Z_mod_plus_full, Z.mod_small; lia.
Qed.

Lemma hex_encode_cons x b :
  hex_encode (x :: b) =
  nth (Z.to_nat (Z.shiftr x 4)) HEX 0 :: nth (Z.to_nat (Z.land x 15)) HEX 0 :: hex_encode b.
Proof. done. Qed.

Lemma hex_encode_length b : length (hex_encode b) = (2 * length b)%nat.
Proof. induction b as [|x b IH]; [done|]. rewrite hex_encode_cons. cbn [length]. lia. Qed.

Lemma hex_pairs_encode b : bytes_ok b -> hex_pairs (hex_encode b) = Ok b.
Proof.
  induction 1 as [|x b Hx Hb IH]; [done|]. rewrite hex_encode_cons. cbn [hex_pairs].
  destruct (byte_split x Hx) as (Hh & Hl & Hj).
  rewrite !hex_digit by lia. cbn. rewrite IH. cbn. by rewrite !Z2Nat.id, Hj by lia.
Qed.

(** Decoding inverts encoding. *)
Lemma hex_decode_encode b : bytes_ok b -> hex_decode (hex_encode b) = Ok b.
Proof.
  intros Hb. unfold hex_decode. rewrite hex_encode_length.
  replace (Nat.even (2 * length b)) with true by (rewrite Nat.even_mul; done).
  by apply hex_pairs_encode.
Qed.

(** Every accepted text is the encoding of what it decodes to: the decoder
    has no second spelling of any byte string. *)
Lemma hex_pairs_sound n s b :
  (length s <= 2 * n)%nat -> Nat.even (length s) = true -> hex_pairs s = Ok b ->
  bytes_ok b /\ hex_encode b = s.
Proof.
  revert s b; induction n as [|n IH]; intros [|c [|d s]] b Hn He; cbn in *; try lia; try done.
  1,2: intros [= <-]; split; [constructor|done].
  intros H. split_ok H. injection H as <-.
  apply nib_inv in Ha as [Hh ->], Ha0 as [Hl ->].
  destruct (IH s a1) as [Hok <-]; [lia|done|done|].
  destruct (byte_join a a0 Hh Hl) as (Hx & E1 & E2).
  split; [by constructor|]. by rewrite hex_encode_cons, E1, E2.
Qed.

Lemma hex_encode_decode s b : hex_decode s = Ok b -> bytes_ok b /\ hex_encode b = s.
Proof.
  unfold hex_decode. intros H. case_if; [|done]. eapply (hex_pairs_sound (length s)); [lia|done..].
Qed.

Lemma hex_encode_inj a b : bytes_ok a -> bytes_ok b -> hex_encode a = hex_encode b -> a = b.
Proof.
  intros Ha Hb H. apply hex_decode_encode in Ha, Hb. rewrite H in Ha. congruence.
Qed.

Lemma Hash256_from_to_hex h :
  bytes_ok h -> length h = 32%nat -> Hash256_from_hex (Hash256_to_hex h) = Ok h.
Proof.
  intros Hok Hl. unfold Hash256_from_hex, Hash256_to_hex.
  rewrite hex_decode_encode by done. cbn. by rewrite Hl.
Qed.
