(* ===== verification/KeyCodec.v ===== *)
(** * Order-preserving physical key codec
      (src/crates/carolina-core/src/keycodec.rs)

    [KeyWriter] appends self-delimiting tagged elements to a buffer and
    [KeyReader] reads them back; the B+Tree compares the resulting keys
    lexicographically.  A writer is its buffer; a reader is the unread suffix
    [src[pos..]] of its input. *)

From S2P Require Import Prelude Errors.

Inductive Namespace : Type :=
| User | Catalog | IdcMeta | Escrow | TxnStatus | Plan | Replication | System | Index
| RequestBinding | Fact.

#[global] Instance Namespace_eq_dec : EqDecision Namespace.
Proof. solve_decision. Defined.

(** The [repr(u8)] discriminant, [ns as u8]. *)
Definition Namespace_as_u8 (ns : Namespace) : Z :=
  match ns with
  | User => 1 | Catalog => 2 | IdcMeta => 3 | Escrow => 4 | TxnStatus => 5 | Plan => 6
  | Replication => 7 | System => 8 | Index => 9 | RequestBinding => 10 | Fact => 11
  end.

Definition Namespace_from_byte (b : Z) : CoreResult Namespace :=
  match b with
  | 1 => Ok User | 2 => Ok Catalog | 3 => Ok IdcMeta | 4 => Ok Escrow | 5 => Ok TxnStatus
  | 6 => Ok Plan | 7 => Ok Replication | 8 => Ok System | 9 => Ok Index
  | 10 => Ok RequestBinding | 11 => Ok Fact
  | _ => Err Corruption
  end.

Definition is_user_writable (ns : Namespace) : bool :=
  match ns with User | Index | Fact => true | _ => false end.

Definition T_U64 : Z := 16.
Definition T_I64 : Z := 17.
Definition T_BOOL : Z := 18.
Definition T_ID16 : Z := 19.
Definition T_BYTES : Z := 20.
Definition T_DEC : Z := 21.
Definition T_ENUM : Z := 22.
Definition T_OPT : Z := 23.
Definition T_TUPLE : Z := 24.

(** ** Writer *)
Module KeyWriter.
Definition new : bytes := [].
Definition namespace (buf : bytes) (ns : Namespace) : bytes := buf ++ [Namespace_as_u8 ns].
Definition u64 (buf : bytes) (v : Z) : bytes := buf ++ [T_U64] ++ be_encode 8 v.
(** [(v as u64) ^ (1u64 << 63)] *)
Definition i64 (buf : bytes) (v : Z) : bytes :=
  buf ++ [T_I64] ++ be_encode 8 (Z.lxor (wrap_u 64 v) (Z.shiftl 1 63)).
Definition bool (buf : bytes) (v : Datatypes.bool) : bytes := buf ++ [T_BOOL; if v then 1 else 0].
Definition id16 (buf : bytes) (v : bytes) : bytes := buf ++ [T_ID16] ++ v.
(** The loop of [bytes]: every byte is pushed, a zero byte followed by [0xff]. *)
Definition escape (v : bytes) : bytes := v ≫= fun b => if b =? 0 then [b; 255] else [b].
Definition bytes (buf : bytes) (v : bytes) : bytes := buf ++ [T_BYTES] ++ escape v ++ [0; 0].
Definition str (buf : Prelude.bytes) (v : Prelude.bytes) : Prelude.bytes := bytes buf v.
Definition decimal (buf : Prelude.bytes) (coefficient : Z) : Prelude.bytes :=
  buf ++ [T_DEC] ++ be_encode 16 (Z.lxor (wrap_u 128 coefficient) (Z.shiftl 1 127)).
Definition enum_variant (buf : Prelude.bytes) (idx : Z) : Prelude.bytes :=
  buf ++ [T_ENUM] ++ be_encode 4 idx.
Definition none (buf : Prelude.bytes) : Prelude.bytes := buf ++ [T_OPT; 0].
Definition some_marker (buf : Prelude.bytes) : Prelude.bytes := buf ++ [T_OPT; 1].
Definition tuple_header (buf : Prelude.bytes) (arity : Z) : Prelude.bytes :=
  buf ++ [T_TUPLE] ++ be_encode 2 arity.
Definition finish (buf : Prelude.bytes) : Prelude.bytes := buf.
End KeyWriter.

(** ** Decoded elements *)
Inductive KeyElem : Type :=
| U64 (v : Z)
| I64 (v : Z)
| Bool (b : bool)
| Id16 (v : bytes)
| Bytes (v : bytes)
| Decimal (c : Z)
| Enum (idx : Z)
| ENone
| ESome
| Tuple (arity : Z).

(** ** Reader *)
Module KeyReader.
Definition take (n : nat) (s : bytes) : CoreResult (bytes * bytes) :=
  if (length s <? n)%nat then Err Corruption else Ok (firstn n s, skipn n s).

(** [self.take(1)?[0]] *)
Definition take1 (s : bytes) : CoreResult (Z * bytes) :=
  match s with [] => Err Corruption | b :: s' => Ok (b, s') end.

Definition namespace (s : bytes) : CoreResult (Namespace * bytes) :=
  '(b, s') ← take1 s; ns ← Namespace_from_byte b; Ok (ns, s').

(** The [T_BYTES] loop; it consumes a byte per iteration, so it is
    structural on the unread suffix.  [out] is built in order. *)
Fixpoint unescape (s : bytes) : CoreResult (bytes * bytes) :=
  match s with
  | [] => Err Corruption
  | b :: s' =>
      if b =? 0 then
        match s' with
        | [] => Err Corruption
        | n :: s'' =>
            if n =? 0 then Ok ([], s'')
            else if n =? 255 then '(out, r) ← unescape s''; Ok (0 :: out, r)
            else Err Corruption
        end
      else '(out, r) ← unescape s'; Ok (b :: out, r)
  end.

Definition elem (s : bytes) : CoreResult (KeyElem * bytes) :=
  '(tag, s1) ← take1 s;
  if tag =? T_U64 then
    '(b, r) ← take 8 s1; Ok (U64 (be_decode b), r)
  else if tag =? T_I64 then
    '(b, r) ← take 8 s1; Ok (I64 (wrap_i 64 (Z.lxor (be_decode b) (Z.shiftl 1 63))), r)
  else if tag =? T_BOOL then
    '(b, r) ← take1 s1;
    match b with 0 => Ok (Bool false, r) | 1 => Ok (Bool true, r) | _ => Err Corruption end
  else if tag =? T_ID16 then
    '(b, r) ← take 16 s1; Ok (Id16 b, r)
  else if tag =? T_BYTES then
    '(b, r) ← unescape s1; Ok (Bytes b, r)
  else if tag =? T_DEC then
    '(b, r) ← take 16 s1; Ok (Decimal (wrap_i 128 (Z.lxor (be_decode b) (Z.shiftl 1 127))), r)
  else if tag =? T_ENUM then
    '(b, r) ← take 4 s1; Ok (Enum (be_decode b), r)
  else if tag =? T_OPT then
    '(b, r) ← take1 s1;
    match b with 0 => Ok (ENone, r) | 1 => Ok (ESome, r) | _ => Err Corruption end
  else if tag =? T_TUPLE then
    '(b, r) ← take 2 s1; Ok (Tuple (be_decode b), r)
  else Err Corruption.

Definition finish (s : bytes) : CoreResult unit :=
  match s with [] => Ok tt | _ => Err Corruption end.
End KeyReader.

(** ** Prefix scans *)

(** The loop [while let Some(last) = out.pop()]: on the reversed prefix. *)
Fixpoint upper_bound_rev (r : bytes) : option bytes :=
  match r with
  | [] => None
  | last :: r' => if last <? 255 then Some (rev (last + 1 :: r')) else upper_bound_rev r'
  end.
Definition prefix_upper_bound (prefix : bytes) : option bytes := upper_bound_rev (rev prefix).

(** ** The writer, element by element *)

(** The element a writer call appends, as one function of the element. *)
Definition write_elem (buf : bytes) (e : KeyElem) : bytes :=
  match e with
  | U64 v => KeyWriter.u64 buf v
  | I64 v => KeyWriter.i64 buf v
  | Bool b => KeyWriter.bool buf b
  | Id16 v => KeyWriter.id16 buf v
  | Bytes v => KeyWriter.bytes buf v
  | Decimal c => KeyWriter.decimal buf c
  | Enum i => KeyWriter.enum_variant buf i
  | ENone => KeyWriter.none buf
  | ESome => KeyWriter.some_marker buf
  | Tuple n => KeyWriter.tuple_header buf n
  end.

(** The values a Rust element of each type can hold. *)
Definition elem_ok (e : KeyElem) : Prop :=
  match e with
  | U64 v => in_u 64 v = true
  | I64 v => in_i 64 v = true
  | Bool _ | ENone | ESome => True
  | Id16 v => bytes_ok v /\ length v = 16%nat
  | Bytes v => bytes_ok v
  | Decimal c => in_i 128 c = true
  | Enum i => in_u 32 i = true
  | Tuple n => in_u 16 n = true
  end.

(** Reading [n] elements in sequence. *)
Fixpoint read_elems (n : nat) (s : bytes) : CoreResult (list KeyElem * bytes) :=
  match n with
  | O => Ok ([], s)
  | S n' => '(e, s1) ← KeyReader.elem s; '(es, r) ← read_elems n' s1; Ok (e :: es, r)
  end.

(** ** The order the codec promises: the value order within a kind, the tag
    order across kinds. *)
Definition elem_tag (e : KeyElem) : Z :=
  match e with
  | U64 _ => T_U64 | I64 _ => T_I64 | Bool _ => T_BOOL | Id16 _ => T_ID16 | Bytes _ => T_BYTES
  | Decimal _ => T_DEC | Enum _ => T_ENUM | ENone | ESome => T_OPT | Tuple _ => T_TUPLE
  end.

Definition bool_cmp (a b : bool) : comparison := ((if a then 1 else 0) ?= (if b then 1 else 0)).

Definition elem_cmp (a b : KeyElem) : comparison :=
  match a, b with
  | U64 x, U64 y | I64 x, I64 y | Decimal x, Decimal y | Enum x, Enum y | Tuple x, Tuple y => x ?= y
  | Bool x, Bool y => bool_cmp x y
  | Id16 x, Id16 y | Bytes x, Bytes y => bytes_cmp x y
  | ENone, ESome => Lt
  | ESome, ENone => Gt
  | _, _ => elem_tag a ?= elem_tag b
  end.

Fixpoint elems_cmp (a b : list KeyElem) : comparison :=
  match a, b with
  | [], [] => Eq
  | [], _ :: _ => Lt
  | _ :: _, [] => Gt
  | x :: a', y :: b' => match elem_cmp x y with Eq => elems_cmp a' b' | c => c end
  end.

(** ** Lemmas *)

(** Flipping the sign bit maps the signed range onto the unsigned one, in order. *)
Lemma flip_sign w v :
  0 < w -> in_i w v = true ->
  Z.lxor (wrap_u w v) (Z.shiftl 1 (w - 1)) = v + 2 ^ (w - 1).
Proof.
  intros Hw Hv. apply in_i_spec in Hv. unfold wrap_u.
  assert (Hp : 2 ^ w = 2 * 2 ^ (w - 1)) by (rewrite <- Z.pow_succ_r by lia; f_equal; lia).
  assert (Hpos : 0 < 2 ^ (w - 1)) by (apply Z.pow_pos_nonneg; lia).
  assert (Hadd : forall x, 0 <= x < 2 ^ (w - 1) -> Z.lxor x (Z.shiftl 1 (w - 1)) = x + 2 ^ (w - 1)).
  { intros x Hx. rewrite Z.shiftl_1_l, <- Z.add_nocarry_lxor; [done|].
    rewrite Z.land_comm. apply Z.bits_inj'. intros i Hi. rewrite Z.land_spec, Z.bits_0.
    destruct (decide (i = w - 1)) as [->|].
    - destruct (decide (x = 0)) as [->|]; [by rewrite Z.bits_0, andb_false_r|].
      rewrite (Z.bits_above_log2 x), andb_false_r; [done|lia|]. apply Z.log2_lt_pow2; lia.
    - rewrite Z.pow2_bits_false by lia. done. }
  destruct (decide (0 <= v)).
  - rewrite Z.mod_small by lia. apply Hadd. lia.
  - rewrite <- (Z_mod_plus_full v 1), Z.mod_small by lia.
    replace (v + 1 * 2 ^ w) with ((v + 2 ^ (w - 1)) + 2 ^ (w - 1)) by lia.
    rewrite <- Hadd at 1 by lia. rewrite Z.lxor_assoc, Z.lxor_nilpotent, Z.lxor_0_r. done.
Qed.

Lemma unflip_sign w u :
  0 < w -> 0 <= u < 2 ^ w ->
  in_i w (wrap_i w (Z.lxor u (Z.shiftl 1 (w - 1)))) = true /\
  Z.lxor (wrap_u w (wrap_i w (Z.lxor u (Z.shiftl 1 (w - 1))))) (Z.shiftl 1 (w - 1)) = u.
Proof.
  intros Hw Hu.
  assert (Hp : 2 ^ w = 2 * 2 ^ (w - 1)) by (rewrite <- Z.pow_succ_r by lia; f_equal; lia).
  set (v := u - 2 ^ (w - 1)). assert (Hv : in_i w v = true) by (apply in_i_spec; lia).
  assert (Hf := flip_sign w v Hw Hv).
  replace (v + 2 ^ (w - 1)) with u in Hf by lia.
  assert (E : Z.lxor u (Z.shiftl 1 (w - 1)) = wrap_u w v).
  { rewrite <- Hf, Z.lxor_assoc, Z.lxor_nilpotent, Z.lxor_0_r. done. }
  rewrite E, wrap_i_unsigned by done. done.
Qed.

Lemma pow256 n k : 8 * Z.of_nat n = k -> 256 ^ Z.of_nat n = 2 ^ k.
Proof. intros <-. rewrite Z.pow_mul_r by lia. done. Qed.

Lemma take_app n a r : length a = n -> KeyReader.take n (a ++ r) = Ok (a, r).
Proof.
  intros <-. unfold KeyReader.take. rewrite length_app.
  replace (length a + length r <? length a)%nat with false by (symmetry; apply Nat.ltb_ge; lia).
  by rewrite firstn_app, Nat.sub_diag, firstn_all, firstn_O, app_nil_r, skipn_app, Nat.sub_diag, skipn_all.
Qed.
Lemma take_inv n s a r : KeyReader.take n s = Ok (a, r) -> s = a ++ r /\ length a = n.
Proof.
  unfold KeyReader.take. intros H. destruct (Nat.ltb_spec (length s) n); simplify_eq.
  split; [symmetry; apply firstn_skipn|]. rewrite length_firstn. lia.
Qed.
Lemma take1_inv s b r : KeyReader.take1 s = Ok (b, r) -> s = b :: r.
Proof. destruct s; cbn; intros; by simplify_eq. Qed.

Lemma unescape_escape v r :
  bytes_ok v -> KeyReader.unescape (KeyWriter.escape v ++ [0; 0] ++ r) = Ok (v, r).
Proof.
  induction 1 as [|b v Hb Hv IH]; [done|]. unfold KeyWriter.escape. cbn [mbind list_bind].
  fold (KeyWriter.escape v). destruct (Z.eqb_spec b 0) as [->|Hne]; cbn in *.
  - by rewrite IH.
  - rewrite (proj2 (Z.eqb_neq b 0)) by done. by rewrite IH.
Qed.

Lemma unescape_inv n s v r :
  (length s <= n)%nat -> bytes_ok s -> KeyReader.unescape s = Ok (v, r) ->
  bytes_ok v /\ s = KeyWriter.escape v ++ [0; 0] ++ r.
Proof.
  revert s v; induction n as [|n IH]; intros [|b s] v Hn Hs; cbn in *; try lia; try done.
  apply Forall_cons in Hs as [Hb Hs].
  destruct (Z.eqb_spec b 0) as [->|Hne].
  - destruct s as [|m s]; [done|]. apply Forall_cons in Hs as [Hm Hs].
    destruct (Z.eqb_spec m 0) as [->|]; [intros [= <- <-]; split; [constructor|done]|].
    destruct (Z.eqb_spec m 255) as [->|]; [|done]. intros H.
    apply bind_ok_inv in H as ([o r'] & Ho & [= <- <-]).
    destruct (IH s o) as [Hv ->]; [cbn in *; lia|done..|].
    split; [by constructor|done].
  - intros H. apply bind_ok_inv in H as ([o r'] & Ho & [= <- <-]).
    destruct (IH s o) as [Hv ->]; [cbn in *; lia|done..|].
    split; [by constructor|]. cbn. by rewrite (proj2 (Z.eqb_neq b 0)).
Qed.

(** *** Round trip, element by element *)
Lemma write_elem_app buf e : write_elem buf e = buf ++ write_elem [] e.
Proof. by destruct e. Qed.

Lemma read_write_elem e r : elem_ok e -> KeyReader.elem (write_elem [] e ++ r) = Ok (e, r).
Proof.
  destruct e as [v|v|b|v|v|c|i| | |n]; cbn [write_elem elem_ok]; intros He.
  - unfold KeyWriter.u64. cbn -[KeyReader.take be_encode]. rewrite take_app by apply be_encode_length.
    cbn -[be_encode]. apply in_u_spec in He. by rewrite be_decode_encode by (rewrite (pow256 8 64); lia).
  - unfold KeyWriter.i64. cbn -[KeyReader.take be_encode Z.lxor Z.shiftl wrap_u].
    rewrite take_app by apply be_encode_length. cbn -[be_encode Z.lxor Z.shiftl wrap_u wrap_i].
    pose proof (flip_sign 64 v ltac:(lia) He) as Hf. pose proof He as Hi. apply in_i_spec in Hi.
    change (64 - 1) with 63 in *. rewrite be_decode_encode.
    + by rewrite Z.lxor_assoc, Z.lxor_nilpotent, Z.lxor_0_r, wrap_i_unsigned by done.
    + rewrite (pow256 8 64), Hf by lia. lia.
  - destruct b; reflexivity.
  - destruct He as [Hv Hl]. unfold KeyWriter.id16. cbn -[KeyReader.take]. by rewrite take_app.
  - unfold KeyWriter.bytes. cbn -[KeyReader.unescape]. rewrite <- !app_assoc.
    by rewrite (unescape_escape v r).
  - unfold KeyWriter.decimal. cbn -[KeyReader.take be_encode Z.lxor Z.shiftl wrap_u].
    rewrite take_app by apply be_encode_length. cbn -[be_encode Z.lxor Z.shiftl wrap_u wrap_i].
    pose proof (flip_sign 128 c ltac:(lia) He) as Hf. pose proof He as Hi. apply in_i_spec in Hi.
    change (128 - 1) with 127 in *. rewrite be_decode_encode.
    + by rewrite Z.lxor_assoc, Z.lxor_nilpotent, Z.lxor_0_r, wrap_i_unsigned by done.
    + rewrite (pow256 16 128), Hf by lia. lia.
  - unfold KeyWriter.enum_variant. cbn -[KeyReader.take be_encode]. rewrite take_app by apply be_encode_length.
    cbn -[be_encode]. apply in_u_spec in He. by rewrite be_decode_encode by (rewrite (pow256 4 32); lia).
  - done.
  - done.
  - unfold KeyWriter.tuple_header. cbn -[KeyReader.take be_encode]. rewrite take_app by apply be_encode_length.
    cbn -[be_encode]. apply in_u_spec in He. by rewrite be_decode_encode by (rewrite (pow256 2 16); lia).
Qed.

(** A fixed-width payload read by [take n] is the encoding of its value. *)
Lemma fixed_inv n k b : bytes_ok b -> length b = n -> 8 * Z.of_nat n = k ->
  be_encode n (be_decode b) = b /\ 0 <= be_decode b < 2 ^ k.
Proof.
  intros Hb <- <-. split; [by apply be_encode_decode|].
  pose proof (be_decode_bound b Hb). by rewrite (pow256 _ _ eq_refl) in H.
Qed.

Lemma read_elem_inv s e r :
  bytes_ok s -> KeyReader.elem s = Ok (e, r) -> elem_ok e /\ s = write_elem [] e ++ r.
Proof.
  intros Hs H. unfold KeyReader.elem in H. split_ok H. apply take1_inv in Ha as ->.
  apply Forall_cons in Hs as [_ Hs].
  repeat match type of H with
  | (if ?t =? ?k then _ else _) = _ => destruct (Z.eqb_spec t k) as [->|]
  end; try done; split_ok H.
  1,2,4,6,7,9: apply take_inv in Ha as [-> Hl]; apply Forall_app in Hs as [Hl0 _]; simplify_eq;
    cbn [elem_ok write_elem].
  - destruct (fixed_inv 8 64 l0 Hl0) as [E Hb]; [done..|]. split; [by apply in_u_spec|].
    unfold KeyWriter.u64. by rewrite E.
  - destruct (fixed_inv 8 64 l0 Hl0) as [E Hb]; [done..|].
    destruct (unflip_sign 64 (be_decode l0)) as [Hi Hf]; [lia..|]. split; [done|].
    unfold KeyWriter.i64. change (64 - 1) with 63 in Hf. by rewrite Hf, E.
  - done.
  - destruct (fixed_inv 16 128 l0 Hl0) as [E Hb]; [done..|].
    destruct (unflip_sign 128 (be_decode l0)) as [Hi Hf]; [lia..|]. split; [done|].
    unfold KeyWriter.decimal. change (128 - 1) with 127 in Hf. by rewrite Hf, E.
  - destruct (fixed_inv 4 32 l0 Hl0) as [E Hb]; [done..|]. split; [by apply in_u_spec|].
    unfold KeyWriter.enum_variant. by rewrite E.
  - destruct (fixed_inv 2 16 l0 Hl0) as [E Hb]; [done..|]. split; [by apply in_u_spec|].
    unfold KeyWriter.tuple_header. by rewrite E.
  - apply take1_inv in Ha as ->. destruct z as [|[]|]; by simplify_eq/=.
  - apply (unescape_inv (length l)) in Ha as [Hv ->]; [|done..]. simplify_eq. split; [done|].
    cbn [write_elem]. unfold KeyWriter.bytes. cbn. by rewrite <- !app_assoc.
  - apply take1_inv in Ha as ->. destruct z as [|[]|]; by simplify_eq/=.
Qed.

(** *** Order *)
Definition cmp_then (c d : comparison) : comparison := match c with Eq => d | _ => c end.

Lemma bytes_cmp_app a b x y :
  length a = length b -> bytes_cmp (a ++ x) (b ++ y) = cmp_then (bytes_cmp a b) (bytes_cmp x y).
Proof.
  intros Hl. destruct (decide (a = b)) as [->|Hne].
  - by rewrite bytes_cmp_app_same, bytes_cmp_refl.
  - rewrite bytes_cmp_app_neq by done. destruct (bytes_cmp a b) eqn:E; cbn; [|done..].
    by apply bytes_cmp_eq in E.
Qed.

Lemma be_cmp_app n k u v x y :
  8 * Z.of_nat n = k -> 0 <= u < 2 ^ k -> 0 <= v < 2 ^ k ->
  bytes_cmp (be_encode n u ++ x) (be_encode n v ++ y) = cmp_then (u ?= v) (bytes_cmp x y).
Proof.
  intros Hk Hu Hv. rewrite bytes_cmp_app by by rewrite !be_encode_length.
  by rewrite be_encode_cmp by by rewrite (pow256 n k Hk).
Qed.

Lemma flip_cmp_app n w u v x y :
  8 * Z.of_nat n = w -> 0 < w -> in_i w u = true -> in_i w v = true ->
  bytes_cmp (be_encode n (Z.lxor (wrap_u w u) (Z.shiftl 1 (w - 1))) ++ x)
            (be_encode n (Z.lxor (wrap_u w v) (Z.shiftl 1 (w - 1))) ++ y)
  = cmp_then (u ?= v) (bytes_cmp x y).
Proof.
  intros Hn Hw Hu Hv. rewrite !flip_sign by done.
  assert (Hp : 2 ^ w = 2 * 2 ^ (w - 1)) by (rewrite <- Z.pow_succ_r by lia; f_equal; lia).
  apply in_i_spec in Hu, Hv. rewrite (be_cmp_app n w) by lia.
  by rewrite (Z.add_comm u), (Z.add_comm v), Z.add_compare_mono_l.
Qed.

Lemma escape_cmp v w x y :
  bytes_ok v -> bytes_ok w ->
  bytes_cmp (KeyWriter.escape v ++ [0; 0] ++ x) (KeyWriter.escape w ++ [0; 0] ++ y)
  = cmp_then (bytes_cmp v w) (bytes_cmp x y).
Proof.
  intros Hv. revert w; induction Hv as [|b v Hb Hv IH]; intros w Hw; destruct Hw as [|c w Hc Hw].
  - done.
  - unfold byte_ok in Hc. cbn. destruct (Z.eqb_spec c 0) as [->|]; [done|].
    by destruct c; try lia.
  - unfold byte_ok in Hb. cbn. destruct (Z.eqb_spec b 0) as [->|]; [done|].
    by destruct b; try lia.
  - unfold byte_ok in *. specialize (IH w Hw). cbn in IH |- *.
    destruct (Z.eqb_spec b 0) as [->|], (Z.eqb_spec c 0) as [->|]; cbn.
    + apply IH.
    + by destruct c; try lia.
    + by destruct b; try lia.
    + destruct (b ?= c); [apply IH|done..].
Qed.

Lemma elem_cmp_app a b x y :
  elem_ok a -> elem_ok b ->
  bytes_cmp (write_elem [] a ++ x) (write_elem [] b ++ y)
  = cmp_then (elem_cmp a b) (bytes_cmp x y).
Proof.
  destruct a, b; cbn [elem_ok]; intros Ha Hb; try reflexivity; cbn [write_elem elem_cmp].
  - apply (be_cmp_app 8 64); by rewrite <- ?in_u_spec.
  - by apply (flip_cmp_app 8 64).
  - by destruct b, b0.
  - destruct Ha, Hb. unfold KeyWriter.id16. cbn. apply bytes_cmp_app. congruence.
  - unfold KeyWriter.bytes. cbn. rewrite <- !app_assoc. by apply escape_cmp.
  - by apply (flip_cmp_app 16 128).
  - apply (be_cmp_app 4 32); by rewrite <- ?in_u_spec.
  - apply (be_cmp_app 2 16); by rewrite <- ?in_u_spec.
Qed.

Lemma write_elems_cons e es : foldl write_elem [] (e :: es) = write_elem [] e ++ foldl write_elem [] es.
Proof.
  cbn. generalize (write_elem [] e) as buf. induction es as [|e' es IH] using rev_ind; intros buf.
  - cbn. by rewrite app_nil_r.
  - rewrite !foldl_app. cbn [foldl]. rewrite (write_elem_app (foldl _ buf _)), IH.
    by rewrite (write_elem_app (foldl _ [] _)), app_assoc.
Qed.

(** *** Prefix scans *)
Lemma upper_bound_rev_spec r :
  match upper_bound_rev r with
  | Some u => exists p last n, rev r = p ++ last :: replicate n 255 /\ last < 255 /\ u = p ++ [last + 1]
              \/ Exists (fun b => 255 < b) r
  | None => Forall (fun b => 255 <= b) r
  end.
Proof.
  induction r as [|b r IH]; cbn; [constructor|].
  destruct (Z.ltb_spec b 255).
  - exists (rev r), b, 0%nat. left. done.
  - destruct (upper_bound_rev r) as [u|]; [|by constructor].
    destruct IH as (p & last & n & [(E & Hl & ->)|Hex]).
    + destruct (decide (b = 255)) as [->|].
      * exists p, last, (S n). left. split_and!; try done. rewrite E, <- app_assoc. cbn.
        by rewrite <- replicate_cons_app.
      * exists p, last, n. right. constructor. lia.
    + exists p, last, n. right. by constructor.
Qed.

Lemma prefix_of_replicate_ff n k :
  bytes_ok k -> bytes_leb (replicate n 255) k = true -> replicate n 255 `prefix_of` k.
Proof.
  revert k; induction n as [|n IH]; intros k Hk; cbn; [intros; apply prefix_nil|].
  destruct Hk as [|b k Hb Hk]; [done|]. unfold bytes_leb, byte_ok in *. cbn [bytes_cmp].
  destruct (Z.compare_spec 255 b) as [<-|?|?]; [|lia|done].
  intros. by apply prefix_cons, IH.
Qed.

Lemma prefix_range p last n k :
  last < 255 -> bytes_ok k ->
  bytes_leb (p ++ last :: replicate n 255) k = true -> k <b p ++ [last + 1] ->
  p ++ last :: replicate n 255 `prefix_of` k.
Proof.
  intros Hl Hk. revert k Hk. induction p as [|x p IH]; intros k Hk; cbn.
  - destruct Hk as [|b k Hb Hk]; [done|]. unfold bytes_leb, bytes_ltb. cbn.
    destruct (Z.compare_spec last b) as [<-|?|?]; [| |done].
    + intros Hle _. by apply prefix_cons, prefix_of_replicate_ff.
    + intros _. destruct (Z.compare_spec b (last + 1)); try lia; try done. by destruct k.
  - destruct Hk as [|b k Hb Hk]; [done|]. unfold bytes_leb, bytes_ltb in *. cbn.
    destruct (Z.compare_spec x b) as [->|?|?]; try done.
    + rewrite Z.compare_refl. intros. by apply prefix_cons, IH.
    + intros _. by destruct (Z.compare_spec b x); try lia.
Qed.

Lemma bytes_leb_app p t : bytes_leb p (p ++ t) = true.
Proof.
  unfold bytes_leb. rewrite <- (app_nil_r p) at 1. rewrite bytes_cmp_app_same. by destruct t.
Qed.

(** ** Properties *)

(** Any sequence of key elements written one after the other is read
    back as the same sequence, and the reader's [finish] then accepts exactly
    the end of the key. *)
Theorem key_elems_roundtrip (es : list KeyElem) (H : Forall elem_ok es) :
  read_elems (length es) (foldl write_elem KeyWriter.new es) = Ok (es, []).
Proof.
  unfold KeyWriter.new. induction H as [|e es He Hes IH]; [done|].
  rewrite write_elems_cons. cbn [read_elems length]. rewrite read_write_elem by done.
  cbn. by rewrite IH.
Qed.

Lemma key_elems_roundtrip_witness :
  read_elems 4 (foldl write_elem KeyWriter.new [Tuple 3; Bytes [97; 0; 98]; I64 (-5); Decimal 7])
  = Ok ([Tuple 3; Bytes [97; 0; 98]; I64 (-5); Decimal 7], []).
Proof.
  apply (key_elems_roundtrip [Tuple 3; Bytes [97; 0; 98]; I64 (-5); Decimal 7]).
  repeat constructor; cbn; (reflexivity || (unfold byte_ok; lia)).
Defined.

(** The reader accepts only what the writer produces: whenever [n]
    elements can be read from a key, the bytes consumed are exactly the
    writer's encoding of those elements (so no key has two spellings), every
    element is in its type's range, and the rest is what remains. *)
Theorem key_reader_accepts_only_canonical (n : nat) (s r : bytes) (es : list KeyElem)
  (Hs : bytes_ok s) (H : read_elems n s = Ok (es, r)) :
  Forall elem_ok es /\ length es = n /\ s = foldl write_elem KeyWriter.new es ++ r.
Proof.
  unfold KeyWriter.new. revert s es Hs H; induction n as [|n IH]; intros s es Hs H; cbn in H.
  - simplify_eq. split_and!; try done.
  - apply bind_ok_inv in H as ([e s1] & He & H). apply bind_ok_inv in H as ([es' r'] & Hes & [= <- <-]).
    apply read_elem_inv in He as [Hok ->]; [|done]. apply Forall_app in Hs as [_ Hs].
    destruct (IH _ _ Hs Hes) as (? & <- & ->).
    split_and!; [by constructor|done|]. by rewrite write_elems_cons, <- app_assoc.
Qed.

Lemma key_reader_accepts_only_canonical_witness :
  Forall elem_ok [Bool true; ESome] /\ length [Bool true; ESome] = 2%nat /\
  [18; 1; 23; 1; 9] = foldl write_elem KeyWriter.new [Bool true; ESome] ++ [9].
Proof.
  apply (key_reader_accepts_only_canonical 2 [18; 1; 23; 1; 9] [9] [Bool true; ESome]);
    [repeat constructor; unfold byte_ok; lia | reflexivity].
Defined.

Lemma elems_bytes_cmp (a b : list KeyElem) : Forall elem_ok a -> Forall elem_ok b ->
  bytes_cmp (foldl write_elem KeyWriter.new a) (foldl write_elem KeyWriter.new b) = elems_cmp a b.
Proof.
  intros Ha. unfold KeyWriter.new. revert b; induction Ha as [|x a Hx Ha IH]; intros b Hb; destruct Hb as [|y b Hy Hb].
  - done.
  - rewrite write_elems_cons. by destruct y.
  - rewrite write_elems_cons. by destruct x.
  - rewrite !write_elems_cons, elem_cmp_app, IH by done. cbn. by destruct (elem_cmp x y).
Qed.

(** The codec preserves order: the bytewise comparison of two encoded
    keys is the lexicographic comparison of their elements, each compared by
    value within a kind (signed integers and decimals numerically, byte strings
    lexicographically, [None] before [Some]) and by tag across kinds. *)
Theorem key_order_preserved (a b : list KeyElem)
  (Ha : Forall elem_ok a) (Hb : Forall elem_ok b) :
  bytes_cmp (foldl write_elem KeyWriter.new a) (foldl write_elem KeyWriter.new b) = elems_cmp a b.
Proof. by apply elems_bytes_cmp. Qed.

Lemma key_order_preserved_witness :
  bytes_cmp (foldl write_elem KeyWriter.new [Bytes [97]; I64 9])
            (foldl write_elem KeyWriter.new [Bytes [97; 0]; I64 (-9)])
  = elems_cmp [Bytes [97]; I64 9] [Bytes [97; 0]; I64 (-9)].
Proof.
  apply (key_order_preserved [Bytes [97]; I64 9] [Bytes [97; 0]; I64 (-9)]);
    repeat constructor; cbn; (reflexivity || (unfold byte_ok; lia)).
Defined.

(** [prefix_upper_bound] gives the exact scan range: a key has the prefix
    if and only if it is at or above the prefix and below the bound; with no
    bound (the prefix is all [0xff]) being at or above the prefix is enough. *)
Theorem prefix_scan_exact (prefix k : bytes) (Hp : bytes_ok prefix) (Hk : bytes_ok k) :
  prefix `prefix_of` k <->
  bytes_leb prefix k = true /\
  match prefix_upper_bound prefix with Some u => k <b u | None => True end.
Proof.
  unfold prefix_upper_bound. pose proof (upper_bound_rev_spec (rev prefix)) as Hu.
  rewrite rev_involutive in Hu. destruct (upper_bound_rev (rev prefix)) as [u|].
  - destruct Hu as (p & last & n & [(-> & Hl & ->)|Hex]).
    + split.
      * intros [t ->]. split; [apply bytes_leb_app|]. rewrite <- app_assoc. unfold bytes_ltb.
        rewrite bytes_cmp_app_same. cbn. by rewrite (proj2 (Z.compare_lt_iff _ _)) by lia.
      * intros [??]. by apply prefix_range.
    + exfalso. apply Exists_exists in Hex as (b & Hin & Hb).
      apply list_elem_of_In, in_rev, list_elem_of_In in Hin.
      unfold bytes_ok in Hp. rewrite Forall_forall in Hp. specialize (Hp _ Hin). unfold byte_ok in Hp. lia.
  - assert (E : prefix = replicate (length prefix) 255).
    { apply Forall_rev in Hu. rewrite rev_involutive in Hu. clear Hk.
      induction Hp as [|b prefix Hb Hp IH]; [done|]. apply Forall_cons in Hu as [Hb' Hu].
      cbn. f_equal; [unfold byte_ok in Hb; lia|auto]. }
    split.
    + intros [t ->]. split; [apply bytes_leb_app|done].
    + intros [Hle _]. rewrite E in Hle |- *. by apply prefix_of_replicate_ff.
Qed.

Lemma prefix_scan_exact_witness :
  [1; 255] `prefix_of` [1; 255; 7] <->
  bytes_leb [1; 255] [1; 255; 7] = true /\
  match prefix_upper_bound [1; 255] with Some u => [1; 255; 7] <b u | None => True end.
Proof. apply (prefix_scan_exact [1; 255] [1; 255; 7]); repeat constructor; unfold byte_ok; lia. Defined.
