(* ===== verification/Canon.v ===== *)
(** * Restricted canonical JSON: values, encoder and strict decoder
      (src/crates/carolina-core/src/canon.rs, limits.rs)

    A Rust [String] is its UTF-8 bytes; a [BTreeMap<String, _>] is an
    association list sorted by key ([ByteMap.v]).  The parser is modelled on
    the unread suffix [src[pos..]] of its input with the nesting depth as an
    argument; its mutual recursion takes fuel, and running out of fuel is
    [Panic] (shown unreachable in [CanonRoundtrip.v]). *)

From S2P Require Import Prelude ByteMap Errors Hex.

(** ** Limits *)
Record Limits : Type := {
  limits_version : Z;
  max_payload_bytes : Z;
  max_depth : Z;
  max_collection_len : Z;
  max_scalar_bytes : Z;
  max_source_bytes : Z;
  max_declarations : Z;
  max_expr_depth : Z;
  max_set_cardinality : Z;
  analysis_budget : Z;
  max_frame_payload : Z;
  max_arguments_bytes : Z;
  max_result_bytes : Z;
  max_token_bytes : Z;
  max_snapshot_chunk_bytes : Z;
}.

Definition Limits_v1 : Limits := {|
  limits_version := 1;
  max_payload_bytes := 16 * 1024 * 1024;
  max_depth := 64;
  max_collection_len := 65536;
  max_scalar_bytes := 1024 * 1024;
  max_source_bytes := 4 * 1024 * 1024;
  max_declarations := 4096;
  max_expr_depth := 64;
  max_set_cardinality := 65536;
  analysis_budget := 5000000;
  max_frame_payload := 16 * 1024 * 1024;
  max_arguments_bytes := 1024 * 1024;
  max_result_bytes := 1024 * 1024;
  max_token_bytes := 64 * 1024;
  max_snapshot_chunk_bytes := 4 * 1024 * 1024;
|}.

Definition Limits_tiny : Limits := {|
  limits_version := 1;
  max_payload_bytes := 4096;
  max_depth := 8;
  max_collection_len := 16;
  max_scalar_bytes := 256;
  max_source_bytes := 4096;
  max_declarations := 32;
  max_expr_depth := 8;
  max_set_cardinality := 16;
  analysis_budget := 10000;
  max_frame_payload := 4096;
  max_arguments_bytes := 1024;
  max_result_bytes := 1024;
  max_token_bytes := 512;
  max_snapshot_chunk_bytes := 2048;
|}.

(** ** UTF-8: [std::str::from_utf8] (Unicode table 3-7, no overlong forms, no
    surrogates, nothing above U+10FFFF) *)
Definition utf8_cont (b : Z) : bool := (128 <=? b) && (b <=? 191).

Fixpoint utf8_valid (s : bytes) : bool :=
  match s with
  | [] => true
  | b0 :: s1 =>
      if b0 <? 128 then utf8_valid s1
      else if (194 <=? b0) && (b0 <=? 223) then
        match s1 with
        | b1 :: s2 => utf8_cont b1 && utf8_valid s2
        | _ => false
        end
      else if (224 <=? b0) && (b0 <=? 239) then
        match s1 with
        | b1 :: b2 :: s3 =>
            (if b0 =? 224 then (160 <=? b1) && (b1 <=? 191)
             else if b0 =? 237 then (128 <=? b1) && (b1 <=? 159)
             else utf8_cont b1) && utf8_cont b2 && utf8_valid s3
        | _ => false
        end
      else if (240 <=? b0) && (b0 <=? 244) then
        match s1 with
        | b1 :: b2 :: b3 :: s4 =>
            (if b0 =? 240 then (144 <=? b1) && (b1 <=? 191)
             else if b0 =? 244 then (128 <=? b1) && (b1 <=? 143)
             else utf8_cont b1) && utf8_cont b2 && utf8_cont b3 && utf8_valid s4
        | _ => false
        end
      else false
  end.

Definition is_ascii (s : bytes) : bool := forallb (fun b => b <? 128) s.
Definition is_ascii_digit (b : Z) : bool := (48 <=? b) && (b <=? 57).

(** ** Values *)
Unset Elimination Schemes.
Inductive CanonValue : Type :=
| Null
| Bool (b : bool)
| Str (s : bytes)
| Array (a : list CanonValue)
| Object (o : bmap CanonValue).
Set Elimination Schemes.

(** Structural induction with hypotheses for the elements of arrays and the
    values of objects. *)
Definition CanonValue_ind (P : CanonValue -> Prop)
    (Hn : P Null) (Hb : forall b, P (Bool b)) (Hs : forall s, P (Str s))
    (Ha : forall a, Forall P a -> P (Array a))
    (Ho : forall o, Forall (fun kv => P (snd kv)) o -> P (Object o)) : forall v, P v :=
  fix F v :=
    match v with
    | Null => Hn
    | Bool b => Hb b
    | Str s => Hs s
    | Array a =>
        Ha a ((fix G l : Forall P l :=
          match l with [] => List.Forall_nil _ | x :: l' => List.Forall_cons _ _ _ (F x) (G l') end) a)
    | Object o =>
        Ho o ((fix G l : Forall (fun kv => P (snd kv)) l :=
          match l with
          | [] => List.Forall_nil _
          | x :: l' => List.Forall_cons _ _ _ (F (snd x)) (G l')
          end) o)
    end.

Definition CanonValue_eq_dec_ : forall x y : CanonValue, {x = y} + {x <> y}.
Proof.
  fix IH 1. intros x y. destruct x as [|b|s|a|o], y as [|b'|s'|a'|o']; try (right; discriminate).
  - by left.
  - destruct (decide (b = b')); [left|right]; congruence.
  - destruct (decide (s = s')); [left|right]; congruence.
  - destruct (List.list_eq_dec IH a a'); [left|right]; congruence.
  - assert (Hp : forall p q : bytes * CanonValue, {p = q} + {p <> q}).
    { intros [k v] [k' v']. destruct (decide (k = k')) as [->|]; [|right; congruence].
      destruct (IH v v') as [->|]; [left|right]; congruence. }
    destruct (List.list_eq_dec Hp o o'); [left|right]; congruence.
Defined.
#[global] Instance CanonValue_eq_dec : EqDecision CanonValue := CanonValue_eq_dec_.

(** ** Encoding *)

(** One byte of [write_string]'s output.  The source matches on [char]s; a
    multi-byte character has only bytes at or above [0x80], which are copied. *)
Definition write_byte (b : Z) : bytes :=
  if b =? 34 then [92; 34]
  else if b =? 92 then [92; 92]
  else if b <? 32 then
    [92; 117; 48; 48; nth (Z.to_nat (Z.shiftr b 4)) HEX 0; nth (Z.to_nat (Z.land b 15)) HEX 0]
  else [b].

Definition write_string (s : bytes) : bytes := 34 :: (s ≫= write_byte) ++ [34].

(** [if i > 0 { out.push(',') }] between the items of a loop. *)
Fixpoint commas (l : list bytes) : bytes :=
  match l with
  | [] => []
  | [x] => x
  | x :: l' => x ++ 44 :: commas l'
  end.

(** [CanonValue::write_to] and [CanonValue::encode]. *)
Fixpoint encode (v : CanonValue) : bytes :=
  match v with
  | Null => str "null"
  | Bool true => str "true"
  | Bool false => str "false"
  | Str s => write_string s
  | Array a => 91 :: commas (map encode a) ++ [93]
  | Object o => 123 :: commas (map (fun kv => write_string (fst kv) ++ 58 :: encode (snd kv)) o) ++ [125]
  end.

(** ** Decoding *)
(** [self.peek() == Some(c)] *)
Definition peek_is (c : Z) (s : bytes) : bool :=
  match s with b :: _ => b =? c | [] => false end.

Definition starts_with (lit s : bytes) : bool := bool_decide (take (length lit) s = lit).

Definition expect_lit (lit s : bytes) : CoreResult bytes :=
  if starts_with lit s then Ok (drop (length lit) s) else Err NonCanonicalEncoding.

Definition is_lower_hex (b : Z) : bool := is_ascii_digit b || ((97 <=? b) && (b <=? 102)).

(** [u32::from_str_radix(h, 16)] on digits already checked to be lowercase hex. *)
Definition hex_digit_value (b : Z) : Z := if is_ascii_digit b then b - 48 else b - 97 + 10.
Definition from_hex4 (h1 h2 h3 h4 : Z) : Z :=
  ((hex_digit_value h1 * 16 + hex_digit_value h2) * 16 + hex_digit_value h3) * 16 + hex_digit_value h4.

(** The loop of [parse_string] after the opening quote; [k] is [pos - start].
    Returns the unescaped bytes and the suffix after the closing quote. *)
Fixpoint parse_chars (lim : Limits) (k : Z) (s : bytes) : CoreResult (bytes * bytes) :=
  match s with
  | [] => Err NonCanonicalEncoding
  | c :: s1 =>
      if max_scalar_bytes lim + 8 <? k then Err ResourceLimit
      else if c =? 34 then Ok ([], s1)
      else if c =? 92 then
        match s1 with
        | [] => Err NonCanonicalEncoding
        | e :: s2 =>
            if e =? 34 then '(out, r) ← parse_chars lim (k + 2) s2; Ok (34 :: out, r)
            else if e =? 92 then '(out, r) ← parse_chars lim (k + 2) s2; Ok (92 :: out, r)
            else if e =? 117 then
              match s2 with
              | h1 :: h2 :: h3 :: h4 :: s3 =>
                  if negb (utf8_valid [h1; h2; h3; h4]) then Err NonCanonicalEncoding
                  else if negb (forallb is_lower_hex [h1; h2; h3; h4]) then Err NonCanonicalEncoding
                  else
                    let cp := from_hex4 h1 h2 h3 h4 in
                    if 32 <=? cp then Err NonCanonicalEncoding
                    else '(out, r) ← parse_chars lim (k + 6) s3; Ok (cp :: out, r)
              | _ => Err NonCanonicalEncoding
              end
            else Err NonCanonicalEncoding
        end
      else if c <? 32 then Err NonCanonicalEncoding
      else '(out, r) ← parse_chars lim (k + 1) s1; Ok (c :: out, r)
  end.

(** [parse_string], called with the suffix that starts at the opening quote. *)
Definition parse_string (lim : Limits) (s : bytes) : CoreResult (bytes * bytes) :=
  '(out, r) ← parse_chars lim 0 (drop 1 s);
  if utf8_valid out then Ok (out, r) else Err NonCanonicalEncoding.

(** [enter]: the new depth, if it is allowed. *)
Definition enter (lim : Limits) (depth : Z) : CoreResult Z :=
  if max_depth lim <? depth + 1 then Err ResourceLimit else Ok (depth + 1).

Fixpoint parse_value (fuel : nat) (lim : Limits) (depth : Z) (s : bytes)
  : CoreResult (CanonValue * bytes) :=
  match fuel with
  | O => Panic
  | S fuel =>
      match s with
      | [] => Err NonCanonicalEncoding
      | c :: _ =>
          if c =? 110 then r ← expect_lit (str "null") s; Ok (Null, r)
          else if c =? 116 then r ← expect_lit (str "true") s; Ok (Bool true, r)
          else if c =? 102 then r ← expect_lit (str "false") s; Ok (Bool false, r)
          else if c =? 34 then '(t, r) ← parse_string lim s; Ok (Str t, r)
          else if c =? 91 then
            (* parse_array *)
            d ← enter lim depth;
            let s1 := drop 1 s in
            if peek_is 93 s1 then Ok (Array [], drop 1 s1)
            else '(items, r) ← parse_items fuel lim d [] s1; Ok (Array items, r)
          else if c =? 123 then
            (* parse_object *)
            d ← enter lim depth;
            let s1 := drop 1 s in
            if peek_is 125 s1 then Ok (Object [], drop 1 s1)
            else '(m, r) ← parse_members fuel lim d [] None s1; Ok (Object m, r)
          else Err NonCanonicalEncoding
      end
  end
(** The [loop] of [parse_array]. *)
with parse_items (fuel : nat) (lim : Limits) (depth : Z) (items : list CanonValue) (s : bytes)
  : CoreResult (list CanonValue * bytes) :=
  match fuel with
  | O => Panic
  | S fuel =>
      '(v, s1) ← parse_value fuel lim depth s;
      let items' := items ++ [v] in
      if max_collection_len lim <? Z.of_nat (length items') then Err ResourceLimit
      else if peek_is 44 s1 then parse_items fuel lim depth items' (drop 1 s1)
      else if peek_is 93 s1 then Ok (items', drop 1 s1)
      else Err NonCanonicalEncoding
  end
(** The [loop] of [parse_object]. *)
with parse_members (fuel : nat) (lim : Limits) (depth : Z) (m : bmap CanonValue)
    (last_key : option bytes) (s : bytes) : CoreResult (bmap CanonValue * bytes) :=
  match fuel with
  | O => Panic
  | S fuel =>
      if negb (peek_is 34 s) then Err NonCanonicalEncoding
      else
        '(key, s1) ← parse_string lim s;
        if negb (is_ascii key) then Err NonCanonicalEncoding
        else if match last_key with Some prev => bytes_leb key prev | None => false end
        then Err NonCanonicalEncoding
        else if negb (peek_is 58 s1) then Err NonCanonicalEncoding
        else
          '(v, s2) ← parse_value fuel lim depth (drop 1 s1);
          let m' := binsert key v m in
          if max_collection_len lim <? Z.of_nat (length m') then Err ResourceLimit
          else if peek_is 44 s2 then parse_members fuel lim depth m' (Some key) (drop 1 s2)
          else if peek_is 125 s2 then Ok (m', drop 1 s2)
          else Err NonCanonicalEncoding
  end.

(** Two calls per consumed byte at most: [parse_value] and a loop body. *)
Definition parse_fuel (s : bytes) : nat := (2 * length s + 2)%nat.

Definition decode (lim : Limits) (bs : bytes) : CoreResult CanonValue :=
  if max_payload_bytes lim <? Z.of_nat (length bs) then Err ResourceLimit
  else
    '(v, r) ← parse_value (parse_fuel bs) lim 0 bs;
    match r with
    | _ :: _ => Err NonCanonicalEncoding
    | [] => if bool_decide (encode v = bs) then Ok v else Err NonCanonicalEncoding
    end.
