(* ===== verification/CanonRoundtrip.v ===== *)
(** * Canonical JSON: the decoder accepts exactly the canonical encodings

    Soundness (every accepted input is the encoding of the value it yields),
    completeness (the encoding of every value within the limits is accepted)
    and totality (the decoder never runs out of fuel) of the decoder of
    [Canon.v]. *)

From S2P Require Import Prelude ByteMap Errors Hex Canon.

(** ** Which values the decoder can yield *)

(** A string within the scalar limit: the limit is on the escaped form, with
    eight bytes of slack. *)
Definition str_fits (lim : Limits) (s : bytes) : Prop :=
  bytes_ok s /\ utf8_valid s = true /\
  Z.of_nat (length (s ≫= write_byte)) <= max_scalar_bytes lim + 8.

Definition key_fits (lim : Limits) (k : bytes) : Prop := str_fits lim k /\ is_ascii k = true.

(** [canon_ok lim d v]: [v] may stand at nesting depth [d]. *)
Inductive canon_ok (lim : Limits) : Z -> CanonValue -> Prop :=
| ok_null d : canon_ok lim d Null
| ok_bool d b : canon_ok lim d (Bool b)
| ok_str d s : str_fits lim s -> canon_ok lim d (Str s)
| ok_array d a :
    d + 1 <= max_depth lim -> Z.of_nat (length a) <= max_collection_len lim ->
    Forall (canon_ok lim (d + 1)) a -> canon_ok lim d (Array a)
| ok_object d o :
    d + 1 <= max_depth lim -> Z.of_nat (length o) <= max_collection_len lim ->
    bsorted o -> Forall (fun kv => key_fits lim (fst kv) /\ canon_ok lim (d + 1) (snd kv)) o ->
    canon_ok lim d (Object o).

Definition encode_member (kv : bytes * CanonValue) : bytes :=
  write_string (fst kv) ++ 58 :: encode (snd kv).

(** ** Strings *)

(** The escape of a control character, checked for all 32 of them. *)
Lemma write_control_parse :
  forallb (fun b =>
    match write_byte b with
    | [92; 117; h1; h2; h3; h4] =>
        utf8_valid [h1; h2; h3; h4] && forallb is_lower_hex [h1; h2; h3; h4]
        && (from_hex4 h1 h2 h3 h4 =? b)
    | _ => false
    end) (seqZ 0 32) = true.
Proof. vm_compute. reflexivity. Qed.

Lemma write_control b : 0 <= b < 32 -> exists h1 h2 h3 h4,
  write_byte b = [92; 117; h1; h2; h3; h4] /\ utf8_valid [h1; h2; h3; h4] = true /\
  forallb is_lower_hex [h1; h2; h3; h4] = true /\ from_hex4 h1 h2 h3 h4 = b.
Proof.
  intros Hb. pose proof write_control_parse as H. rewrite forallb_forall in H.
  specialize (H b ltac:(apply list_elem_of_In, elem_of_seqZ; lia)).
  repeat match type of H with
  | match ?x with _ => _ end = true => destruct x eqn:?; try done
  end.
  apply andb_true_iff in H as [[? ?]%andb_true_iff ?%Z.eqb_eq]. naive_solver.
Qed.

Lemma hex_digit_inv h : is_lower_hex h = true ->
  0 <= hex_digit_value h < 16 /\ h = nth (Z.to_nat (hex_digit_value h)) HEX 0.
Proof.
  intros H. apply nib_inv. unfold nib, hex_digit_value, is_lower_hex, is_ascii_digit in *.
  destruct ((48 <=? h) && (h <=? 57)); [done|]. cbn in H. by rewrite H.
Qed.

(** The only lowercase [\u] escape below U+0020 of a code point is the one the writer uses. *)
Lemma control_unique h1 h2 h3 h4 :
  forallb is_lower_hex [h1; h2; h3; h4] = true -> from_hex4 h1 h2 h3 h4 < 32 ->
  0 <= from_hex4 h1 h2 h3 h4 /\
  write_byte (from_hex4 h1 h2 h3 h4) = [92; 117; h1; h2; h3; h4].
Proof.
  cbn [forallb]. rewrite andb_true_r, !andb_true_iff. intros (H1 & H2 & H3 & H4) Hcp.
  apply hex_digit_inv in H1 as [? E1], H2 as [? E2], H3 as [? E3], H4 as [? E4].
  unfold from_hex4 in *.
  assert (V1 : hex_digit_value h1 = 0) by lia. assert (V2 : hex_digit_value h2 = 0) by lia.
  rewrite V1 in E1. rewrite V2 in E2. vm_compute in E1, E2. subst h1 h2.
  change (hex_digit_value 48) with 0 in *. set (a := hex_digit_value h3) in *. set (b := hex_digit_value h4) in *.
  replace (((0 * 16 + 0) * 16 + a) * 16 + b) with (a * 16 + b) in * by lia.
  split; [lia|]. unfold write_byte.
  rewrite (proj2 (Z.eqb_neq _ 34)), (proj2 (Z.eqb_neq _ 92)), (proj2 (Z.ltb_lt _ 32)) by lia.
  destruct (byte_join a b) as (_ & Ea & Eb); [lia..|].
  rewrite lor_shiftl in Ea, Eb by lia. change (2 ^ 4) with 16 in *. by rewrite Ea, Eb, <- E3, <- E4.
Qed.

Lemma write_byte_plain b : b <> 34 -> b <> 92 -> 32 <= b -> write_byte b = [b].
Proof.
  intros. unfold write_byte.
  by rewrite (proj2 (Z.eqb_neq b 34)), (proj2 (Z.eqb_neq b 92)), (proj2 (Z.ltb_ge b 32)) by lia.
Qed.

Lemma parse_chars_write lim s k r :
  bytes_ok s -> k + Z.of_nat (length (s ≫= write_byte)) <= max_scalar_bytes lim + 8 ->
  parse_chars lim k ((s ≫= write_byte) ++ 34 :: r) = Ok (s, r).
Proof.
  intros Hs. revert k; induction Hs as [|b s Hb Hs IH]; intros k Hk.
  - cbn in *. rewrite (proj2 (Z.ltb_ge _ k)) by lia. done.
  - rewrite bind_cons, length_app in Hk. rewrite bind_cons, <- app_assoc.
    assert (Hlim : (max_scalar_bytes lim + 8 <? k) = false) by (apply Z.ltb_ge; lia).
    destruct (decide (b < 32)) as [Hlt|Hge].
    + destruct (write_control b) as (h1 & h2 & h3 & h4 & E & Hu & Hh & Hcp);
        [unfold byte_ok in Hb; lia|].
      rewrite E in *. cbn [app parse_chars]. cbn in Hk. rewrite Hlim, Hu, Hh. cbn -[parse_chars from_hex4].
      rewrite (proj2 (Z.leb_gt 32 _)) by lia. rewrite IH by lia. cbn. by rewrite Hcp.
    + destruct (decide (b = 34)) as [->|]; [|destruct (decide (b = 92)) as [->|]].
      1,2: cbn [app parse_chars write_byte Z.eqb Pos.eqb] in *; cbn in Hk; rewrite Hlim;
        cbn -[parse_chars Z.add]; by rewrite IH by lia.
      assert (E : write_byte b = [b]) by (apply write_byte_plain; lia).
      rewrite E in *. cbn in Hk. cbn [app parse_chars].
      rewrite Hlim, (proj2 (Z.eqb_neq b 34)), (proj2 (Z.eqb_neq b 92)), (proj2 (Z.ltb_ge b 32)) by lia.
      rewrite IH by lia. done.
Qed.

Lemma parse_chars_inv lim n s k out r :
  (length s <= n)%nat -> bytes_ok s -> parse_chars lim k s = Ok (out, r) ->
  s = (out ≫= write_byte) ++ 34 :: r /\ bytes_ok out /\
  k + Z.of_nat (length (out ≫= write_byte)) <= max_scalar_bytes lim + 8.
Proof.
  revert s k out; induction n as [|n IH]; intros s k out Hn Hs H.
  { by destruct s; [|cbn in Hn; lia]. }
  destruct Hs as [|c s Hc Hs]; [done|]. cbn [parse_chars] in H.
  destruct (Z.ltb_spec (max_scalar_bytes lim + 8) k) as [|Hk]; [done|].
  destruct (Z.eqb_spec c 34) as [->|N34].
  { simplify_eq. cbn. split_and!; [done|constructor|lia]. }
  destruct (Z.eqb_spec c 92) as [->|N92].
  - destruct Hs as [|e s He Hs]; [done|]. cbn in Hn.
    destruct (Z.eqb_spec e 34) as [->|].
    { apply bind_ok_inv in H as ([o r'] & Ho & [= <- <-]).
      apply IH in Ho as (-> & Hok & Hl); [|lia|done]. cbn in *. split_and!; [done| |lia]. by constructor. }
    destruct (Z.eqb_spec e 92) as [->|].
    { apply bind_ok_inv in H as ([o r'] & Ho & [= <- <-]).
      apply IH in Ho as (-> & Hok & Hl); [|lia|done]. cbn in *. split_and!; [done| |lia]. by constructor. }
    destruct (Z.eqb_spec e 117) as [->|]; [|done].
    destruct s as [|h1 [|h2 [|h3 [|h4 s]]]]; try done.
    destruct (utf8_valid [h1; h2; h3; h4]); [|done]. cbn [negb] in H.
    destruct (forallb is_lower_hex [h1; h2; h3; h4]) eqn:Hh; [|done]. cbn [negb] in H.
    destruct (Z.leb_spec 32 (from_hex4 h1 h2 h3 h4)) as [|Hcp]; [done|].
    apply bind_ok_inv in H as ([o r'] & Ho & [= <- <-]).
    destruct (control_unique _ _ _ _ Hh Hcp) as [Hpos E].
    apply IH in Ho as (-> & Hok & Hl); [|cbn in Hn; lia|by repeat apply Forall_cons in Hs as [_ Hs]].
    rewrite bind_cons, E, length_app. cbn [app length].
    split_and!; [done| |lia]. constructor; [unfold byte_ok; lia|done].
  - destruct (Z.ltb_spec c 32) as [|H32]; [done|].
    apply bind_ok_inv in H as ([o r'] & Ho & [= <- <-]).
    apply IH in Ho as (-> & Hok & Hl); [|cbn in Hn; lia|done].
    assert (E : write_byte c = [c]) by by apply write_byte_plain.
    rewrite bind_cons, E, length_app. cbn [app length].
    split_and!; [done| |lia]. by constructor.
Qed.

Lemma parse_string_write lim s r :
  str_fits lim s -> parse_string lim (write_string s ++ r) = Ok (s, r).
Proof.
  intros (Hok & Hu & Hl). unfold parse_string, write_string.
  change (drop 1 ((34 :: ?x) ++ r)) with (x ++ r). rewrite <- app_assoc. cbn [app].
  rewrite parse_chars_write by (done || lia). cbn. by rewrite Hu.
Qed.

Lemma parse_string_inv lim s t r :
  bytes_ok s -> parse_string lim (34 :: s) = Ok (t, r) ->
  str_fits lim t /\ 34 :: s = write_string t ++ r.
Proof.
  intros Hs H. unfold parse_string in H. apply bind_ok_inv in H as ([o r'] & Ho & H).
  change (drop 1 (34 :: s)) with s in Ho. apply (parse_chars_inv _ (length s)) in Ho as (-> & Hok & Hl); [|done..].
  case_if; [|done]. simplify_eq. unfold str_fits, write_string. split_and!; try done.
  cbn. by rewrite <- app_assoc.
Qed.

(** ** Soundness *)
Lemma commas_cons x l : l <> [] -> commas (x :: l) = x ++ 44 :: commas l.
Proof. by destruct l. Qed.

Lemma peek_is_inv c s : peek_is c s = true -> exists t, s = c :: t.
Proof. destruct s; cbn; [done|]. intros ->%Z.eqb_eq. eauto. Qed.

Lemma enter_inv lim d d' : enter lim d = Ok d' -> d' = d + 1 /\ d + 1 <= max_depth lim.
Proof. unfold enter. destruct (Z.ltb_spec (max_depth lim) (d + 1)); intros; by simplify_eq. Qed.

Lemma expect_lit_inv lit s r : expect_lit lit s = Ok r -> s = lit ++ r.
Proof.
  unfold expect_lit, starts_with. intros H. case_if; simplify_eq. breflect.
  rewrite <- E at 1. by rewrite take_drop.
Qed.

(** Keys already in the object stay at or below the last key read. *)
Definition keys_below (m : bmap CanonValue) (last : option bytes) : Prop :=
  match last with
  | None => m = []
  | Some k => Forall (fun kv => bytes_leb (fst kv) k = true) m
  end.

Lemma keys_below_lt m last k :
  keys_below m last -> match last with Some prev => bytes_leb k prev | None => false end = false ->
  Forall (fun kv => fst kv <b k) m.
Proof.
  destruct last as [prev|]; cbn; [|by intros -> _].
  intros Hm Hk. eapply Forall_impl; [exact Hm|]. intros [k' v] Hle. cbn in *.
  rewrite bytes_leb_lt in Hk, Hle. breflect.
  destruct (bytes_ltb k' prev) eqn:E; [by eapply bytes_ltb_trans|].
  by rewrite (bytes_ltb_total k' prev).
Qed.

Definition value_sound lim d s v r : Prop := s = encode v ++ r /\ canon_ok lim d v.

Lemma parse_sound lim fuel : 0 <= max_collection_len lim ->
  (forall d s v r, bytes_ok s -> parse_value fuel lim d s = Ok (v, r) -> value_sound lim d s v r) /\
  (forall d items s out r, bytes_ok s -> parse_items fuel lim d items s = Ok (out, r) ->
     exists new, out = items ++ new /\ new <> [] /\ s = commas (map encode new) ++ 93 :: r /\
       Forall (canon_ok lim d) new /\ Z.of_nat (length out) <= max_collection_len lim) /\
  (forall d m last s out r, bytes_ok s -> bsorted m -> keys_below m last ->
     parse_members fuel lim d m last s = Ok (out, r) ->
     exists new, out = m ++ new /\ new <> [] /\ s = commas (map encode_member new) ++ 125 :: r /\
       bsorted out /\ Forall (fun kv => key_fits lim (fst kv) /\ canon_ok lim d (snd kv)) new /\
       Z.of_nat (length out) <= max_collection_len lim).
Proof.
  intros Hmax. induction fuel as [|fuel (IHv & IHi & IHm)]; [done|]. split_and!.
  - intros d s v r Hs H. cbn [parse_value] in H. destruct s as [|c s]; [done|].
    assert (Hs' := Hs). apply Forall_cons in Hs' as [_ Hs']. unfold value_sound.
    repeat match type of H with
    | (if ?t =? ?k then _ else _) = _ => destruct (Z.eqb_spec t k) as [->|]
    end; try done.
    1-3: apply bind_ok_inv in H as (r' & Hl & [= <- <-]); apply expect_lit_inv in Hl as ->;
      split; [done|constructor].
    + apply bind_ok_inv in H as ([t r'] & Hl & [= <- <-]).
      apply parse_string_inv in Hl as [Hf ->]; [|done]. split; [done|by constructor].
    + apply bind_ok_inv in H as (d' & Hd & H). apply enter_inv in Hd as [-> Hd].
      change (drop 1 (91 :: s)) with s in H. cbn zeta in H. case_in H as E0.
      { apply peek_is_inv in E0 as [t ->]. simplify_eq. split; [done|].
        constructor; [lia|cbn; lia|constructor]. }
      apply bind_ok_inv in H as ([items r'] & Hi & [= <- <-]).
      apply IHi in Hi as (new & -> & Hnn & -> & Hall & Hlen); [|done].
      split; [cbn; by rewrite <- app_assoc|]. by constructor; [lia|..].
    + apply bind_ok_inv in H as (d' & Hd & H). apply enter_inv in Hd as [-> Hd].
      change (drop 1 (123 :: s)) with s in H. cbn zeta in H. case_in H as E0.
      { apply peek_is_inv in E0 as [t ->]. simplify_eq. split; [done|].
        constructor; [lia|cbn; lia|done|constructor]. }
      apply bind_ok_inv in H as ([m r'] & Hi & [= <- <-]).
      apply IHm in Hi as (new & -> & Hnn & -> & Hsort & Hall & Hlen); [|done..].
      split; [cbn; by rewrite <- app_assoc|]. by constructor; [lia|..].
  - intros d items s out r Hs H. cbn [parse_items] in H.
    apply bind_ok_inv in H as ([v s1] & Hv & H). apply IHv in Hv as [-> Hok]; [|done].
    apply Forall_app in Hs as [_ Hs]. cbn zeta in H. case_in H as E; [done|]. breflect.
    case_in H as E0; [|case_in H as E1; [|done]].
    + apply peek_is_inv in E0 as [t ->]. change (drop 1 (44 :: t)) with t in H.
      apply Forall_cons in Hs as [_ Hs]. apply IHi in H as (new & -> & Hnn & -> & Hall & Hlen); [|done].
      exists (v :: new). rewrite <- app_assoc in *. split_and!; try done; [|by constructor].
      cbn [map]. rewrite commas_cons by by destruct new. by rewrite <- app_assoc.
    + apply peek_is_inv in E1 as [t ->]. simplify_eq. exists [v]. split_and!; try done; by constructor.
  - intros d m last s out r Hs Hsort Hkeys H. cbn [parse_members] in H.
    case_in H as E; [done|]. breflect. apply peek_is_inv in E as [t ->]. apply Forall_cons in Hs as [_ Hs].
    apply bind_ok_inv in H as ([key s1] & Hk & H). apply parse_string_inv in Hk as [Hf E]; [|done].
    assert (Hs1 : bytes_ok (34 :: t)) by (constructor; [unfold byte_ok; lia|done]).
    rewrite E in *. clear E Hs. apply Forall_app in Hs1 as [_ Hs].
    case_in H as E; [done|]. breflect. case_in H as E0; [done|]. case_in H as E1; [done|]. breflect.
    assert (Hkf : key_fits lim key) by done.
    apply peek_is_inv in E1 as [t1 ->]. change (drop 1 (58 :: t1)) with t1 in H.
    apply Forall_cons in Hs as [_ Hs].
    apply bind_ok_inv in H as ([v s2] & Hv & H). apply IHv in Hv as [-> Hok]; [|done].
    apply Forall_app in Hs as [_ Hs]. cbn zeta in H.
    pose proof (keys_below_lt _ _ _ Hkeys E0) as Hlt.
    pose proof (binsert_sorted key v m Hsort) as Hsort'.
    rewrite binsert_above in * by done. case_in H as E4; [done|]. breflect.
    case_in H as E2; [|case_in H as E3; [|done]].
    + apply peek_is_inv in E2 as [t2 ->]. change (drop 1 (44 :: t2)) with t2 in H.
      apply Forall_cons in Hs as [_ Hs].
      apply IHm in H as (new & -> & Hnn & -> & Hs' & Hall & Hlen); [|done..|].
      2:{ cbn. apply Forall_app. split.
          - eapply Forall_impl; [exact Hlt|]. intros kv. apply bytes_lt_le.
          - constructor; [apply bytes_leb_refl|done]. }
      exists ((key, v) :: new). rewrite <- app_assoc in *. split_and!; try done; [|by constructor].
      cbn [map]. rewrite commas_cons by by destruct new. unfold encode_member at 1. cbn.
      by rewrite <- !app_assoc.
    + apply peek_is_inv in E3 as [t2 ->]. simplify_eq. exists [(key, v)].
      split_and!; try done; [|by constructor].
      cbn [map commas]. unfold encode_member. cbn [fst snd]. by rewrite <- app_assoc.
Qed.

(** ** Completeness *)
Lemma encode_head v : exists c t, encode v = c :: t /\ c <> 93 /\ c <> 125.
Proof. destruct v as [|[]|s|a|o]; do 2 eexists; (split; [reflexivity|done]). Qed.

Lemma peek_is_head c t r v : encode v = c :: t -> forall k, k <> c -> peek_is k (encode v ++ r) = false.
Proof. intros -> k Hk. cbn. apply Z.eqb_neq. congruence. Qed.

Definition value_complete lim v : Prop :=
  forall fuel d r, canon_ok lim d v -> (2 * length (encode v) < fuel)%nat ->
  parse_value fuel lim d (encode v ++ r) = Ok (v, r).

Lemma parse_items_complete lim a d items fuel r :
  a <> [] -> Forall (value_complete lim) a -> Forall (canon_ok lim d) a ->
  Z.of_nat (length items + length a) <= max_collection_len lim ->
  (2 * length (commas (map encode a)) + 1 < fuel)%nat ->
  parse_items fuel lim d items (commas (map encode a) ++ 93 :: r) = Ok (items ++ a, r).
Proof.
  intros Hne Hc. revert items fuel Hne. induction Hc as [|v a Hv Hc IH]; intros items fuel Hne Hok Hlen Hf; [done|].
  apply Forall_cons in Hok as [Hokv Hok]. destruct fuel as [|fuel]; [lia|]. cbn [parse_items].
  cbn [length] in Hlen. destruct (decide (a = [])) as [->|Ha].
  - cbn [map commas] in *. rewrite Hv by (done || lia). cbn [mbind outcome_bind]. cbn zeta.
    rewrite length_app, (proj2 (Z.ltb_ge _ _)) by (cbn; lia). done.
  - cbn [map] in *. rewrite commas_cons in * by by destruct a. rewrite <- app_assoc.
    rewrite length_app in Hf. cbn [length] in Hf. rewrite Hv by (done || lia). cbn [mbind outcome_bind]. cbn zeta.
    rewrite length_app, (proj2 (Z.ltb_ge _ _)) by (cbn; lia). cbn [app peek_is Z.eqb Pos.eqb].
    change (drop 1 (44 :: ?x)) with x.
    rewrite IH, <- app_assoc; try done; [|lia]. rewrite length_app. cbn. lia.
Qed.

Lemma parse_members_complete lim o d m last fuel r :
  o <> [] -> Forall (fun kv => value_complete lim (snd kv)) o ->
  Forall (fun kv => key_fits lim (fst kv) /\ canon_ok lim d (snd kv)) o ->
  bsorted (m ++ o) -> match last with Some k => exists v m0, m = m0 ++ [(k, v)] | None => m = [] end ->
  Z.of_nat (length m + length o) <= max_collection_len lim ->
  (2 * length (commas (map encode_member o)) + 1 < fuel)%nat ->
  parse_members fuel lim d m last (commas (map encode_member o) ++ 125 :: r) = Ok (m ++ o, r).
Proof.
  intros Hne Hc. revert m last fuel Hne.
  induction Hc as [|[k v] o Hv Hc IH]; intros m last fuel Hne Hok Hsort Hlast Hlen Hf; [done|].
  apply Forall_cons in Hok as [[[Hstr Hasc] Hokv] Hok]. cbn [fst snd] in *.
  destruct fuel as [|fuel]; [lia|].
  assert (Habove : Forall (fun kv => fst kv <b k) m).
  { apply bsorted_app in Hsort as (_ & _ & H). eapply Forall_impl; [exact H|].
    intros kv Hkv. by apply Forall_cons in Hkv as [? _]. }
  assert (Hlt : match last with Some prev => bytes_leb k prev | None => false end = false).
  { destruct last as [prev|]; [|done]. destruct Hlast as (v0 & m0 & ->).
    apply Forall_app in Habove as [_ H]. apply Forall_cons in H as [H _]. cbn in H.
    by rewrite bytes_leb_lt, H. }
  assert (Hhd : exists t, encode_member (k, v) = 34 :: t) by (eexists; reflexivity).
  assert (Hstep : forall rest, (2 * length (encode v) < fuel)%nat ->
    parse_members (S fuel) lim d m last (encode_member (k, v) ++ rest) =
    if peek_is 44 rest then parse_members fuel lim d (m ++ [(k, v)]) (Some k) (drop 1 rest)
    else if peek_is 125 rest then Ok (m ++ [(k, v)], drop 1 rest) else Err NonCanonicalEncoding).
  { intros rest Hfv. cbn [parse_members]. destruct Hhd as [t Ht].
    replace (peek_is 34 (encode_member (k, v) ++ rest)) with true by (rewrite Ht; done). cbn [negb].
    unfold encode_member. cbn [fst snd]. rewrite <- app_assoc. rewrite parse_string_write by done.
    cbn [mbind outcome_bind]. rewrite Hasc, Hlt. cbn [negb peek_is app Z.eqb Pos.eqb].
    change (drop 1 (58 :: ?x)) with x.
    rewrite Hv by done. cbn [mbind outcome_bind]. cbn zeta. rewrite binsert_above by done.
    rewrite length_app, (proj2 (Z.ltb_ge _ _)) by (cbn in *; lia). done. }
  destruct (decide (o = [])) as [->|Ho].
  - cbn [map commas] in *. rewrite Hstep; [done|]. unfold encode_member in Hf. cbn in Hf.
    rewrite length_app in Hf. cbn in Hf. lia.
  - cbn [map] in *. rewrite commas_cons in * by by destruct o. rewrite <- app_assoc.
    rewrite length_app in Hf. cbn [length] in Hf.
    rewrite Hstep by (unfold encode_member in Hf; cbn in Hf; rewrite length_app in Hf; cbn in Hf; lia).
    cbn [app peek_is Z.eqb Pos.eqb]. change (drop 1 (44 :: ?x)) with x.
    rewrite IH, <- app_assoc; try done; [by rewrite <- app_assoc|eauto| |lia].
    rewrite length_app. cbn in *. lia.
Qed.

Lemma parse_complete lim v : value_complete lim v.
Proof.
  induction v as [|b|s|a IH|o IH] using CanonValue_ind; intros fuel d r Hok Hf; (destruct fuel as [|fuel]; [lia|]).
  - reflexivity.
  - by destruct b.
  - inversion Hok; subst. cbn [encode]. pose proof (parse_string_write lim s r ltac:(done)) as E.
    unfold write_string in E |- *. cbn [app] in E |- *. cbn [parse_value Z.eqb Pos.eqb]. by rewrite E.
  - inversion Hok as [| | |? ? Hd Hl Hall|]; subst.
    cbn [encode] in *. rewrite <- app_comm_cons, <- app_assoc.
    cbn [parse_value Z.eqb Pos.eqb]. unfold enter. rewrite (proj2 (Z.ltb_ge _ _)) by lia. cbn [mbind outcome_bind].
    change (drop 1 (91 :: ?x)) with x. cbn zeta.
    destruct a as [|v a]; [done|].
    assert (Hpk : peek_is 93 (commas (map encode (v :: a)) ++ [93] ++ r) = false).
    { destruct (encode_head v) as (c & t & E & ? & ?). cbn [map commas].
      destruct (map encode a); rewrite E; cbn; by apply Z.eqb_neq. }
    rewrite Hpk. cbn [length] in Hf. rewrite length_app in Hf.
    change ([93] ++ r) with (93 :: r). rewrite (parse_items_complete lim (v :: a) (d + 1) [] fuel r); try done.
    cbn [length] in Hf. lia.
  - inversion Hok as [| | | |? ? Hd Hl Hs Hall]; subst.
    cbn [encode] in *. rewrite <- app_comm_cons, <- app_assoc.
    cbn [parse_value Z.eqb Pos.eqb]. unfold enter. rewrite (proj2 (Z.ltb_ge _ _)) by lia. cbn [mbind outcome_bind].
    change (drop 1 (123 :: ?x)) with x. cbn zeta.
    destruct o as [|[k v] o]; [done|].
    change (map (fun kv => write_string kv.1 ++ 58 :: encode kv.2)) with (map encode_member) in *.
    assert (Hpk : peek_is 125 (commas (map encode_member ((k, v) :: o)) ++ [125] ++ r) = false).
    { cbn [map commas]. by destruct (map encode_member o). }
    rewrite Hpk. cbn [length] in Hf. rewrite length_app in Hf.
    change ([125] ++ r) with (125 :: r).
    rewrite (parse_members_complete lim ((k, v) :: o) (d + 1) [] None fuel r); try done.
    cbn [length] in Hf. lia.
Qed.

(** ** Totality *)
Lemma bind_no_panic {A B} (o : CoreResult A) (f : A -> CoreResult B) :
  o <> Panic -> (forall a, o = Ok a -> f a <> Panic) -> (o ≫= f) <> Panic.
Proof. destruct o; cbn; auto. Qed.

Lemma parse_chars_no_panic lim n s k : (length s <= n)%nat -> parse_chars lim k s <> Panic.
Proof.
  revert s k; induction n as [|n IH]; intros [|c s] k Hn; cbn in Hn; try done; try lia.
  cbn [parse_chars].
  repeat match goal with
  | |- (if ?b then _ else _) <> Panic => destruct b; try done
  | |- match ?l with [] => _ | _ :: _ => _ end <> Panic =>
      destruct l; try done; cbn [length] in Hn
  | |- (let cp := _ in _) <> Panic => cbn zeta
  | |- (_ ≫= _) <> Panic => apply bind_no_panic; [apply IH; lia|intros [??] _; done]
  end.
Qed.

Lemma parse_string_no_panic lim s : parse_string lim s <> Panic.
Proof.
  apply bind_no_panic; [by eapply parse_chars_no_panic|]. intros [??] _. by destruct (utf8_valid _).
Qed.

Lemma encode_length v : (1 <= length (encode v))%nat.
Proof. destruct (encode_head v) as (c & t & -> & _). cbn. lia. Qed.

Lemma parse_no_panic lim fuel : 0 <= max_collection_len lim ->
  (forall d s, bytes_ok s -> (2 * length s < fuel)%nat -> parse_value fuel lim d s <> Panic) /\
  (forall d items s, bytes_ok s -> (2 * length s + 1 < fuel)%nat ->
     parse_items fuel lim d items s <> Panic) /\
  (forall d m last s, bytes_ok s -> (2 * length s + 1 < fuel)%nat ->
     parse_members fuel lim d m last s <> Panic).
Proof.
  intros Hmax. induction fuel as [|fuel (IHv & IHi & IHm)]; [split_and!; intros; lia|].
  destruct (parse_sound lim fuel Hmax) as (Sv & _ & _). split_and!.
  - intros d s Hs Hf. cbn [parse_value]. destruct s as [|c s]; [done|]. cbn [length] in Hf.
    assert (Hs' := Hs). apply Forall_cons in Hs' as [_ Hs'].
    repeat match goal with |- (if ?t =? ?k then _ else _) <> Panic => destruct (t =? k) end; try done.
    1-3: apply bind_no_panic; [unfold expect_lit; by destruct (starts_with _ _)|done].
    + apply bind_no_panic; [apply parse_string_no_panic|by intros [??]].
    + apply bind_no_panic; [unfold enter; by case_if|]. intros d' _. change (drop 1 (c :: s)) with s.
      cbn zeta. case_if; [done|]. apply bind_no_panic; [apply IHi; [done|lia]|by intros [??]].
    + apply bind_no_panic; [unfold enter; by case_if|]. intros d' _. change (drop 1 (c :: s)) with s.
      cbn zeta. case_if; [done|]. apply bind_no_panic; [apply IHm; [done|lia]|by intros [??]].
  - intros d items s Hs Hf. cbn [parse_items]. apply bind_no_panic; [apply IHv; [done|lia]|].
    intros [v s1] Hv. apply Sv in Hv as [-> _]; [|done]. apply Forall_app in Hs as [_ Hs].
    rewrite length_app in Hf. pose proof (encode_length v). cbn zeta.
    case_if; [done|]. case_if; [|by case_if].
    apply peek_is_inv in E0 as [t ->]. change (drop 1 (44 :: t)) with t. apply Forall_cons in Hs as [_ Hs].
    cbn in Hf. apply IHi; [done|lia].
  - intros d m last s Hs Hf. cbn [parse_members]. case_if; [done|]. breflect.
    apply peek_is_inv in E as [t ->]. apply Forall_cons in Hs as [_ Hs].
    apply bind_no_panic; [apply parse_string_no_panic|]. intros [key s1] Hk.
    apply parse_string_inv in Hk as [_ E]; [|done].
    assert (Hs1 : bytes_ok (34 :: t)) by (constructor; [unfold byte_ok; lia|done]).
    rewrite E in *. clear E Hs. apply Forall_app in Hs1 as [_ Hs].
    rewrite length_app in Hf. unfold write_string in Hf. cbn in Hf.
    case_if; [done|]. case_if; [done|]. case_if; [done|]. breflect.
    apply peek_is_inv in E1 as [t1 ->]. change (drop 1 (58 :: t1)) with t1.
    apply Forall_cons in Hs as [_ Hs]. cbn in Hf.
    apply bind_no_panic; [apply IHv; [done|lia]|]. intros [v s2] Hv.
    apply Sv in Hv as [-> _]; [|done]. apply Forall_app in Hs as [_ Hs]. rewrite !length_app in Hf.
    cbn zeta. case_if; [done|]. case_if; [|by case_if].
    apply peek_is_inv in E2 as [t2 ->]. change (drop 1 (44 :: t2)) with t2.
    apply Forall_cons in Hs as [_ Hs]. cbn in Hf. apply IHm; [done|lia].
Qed.

(** The encoding of a value within the limits is a byte string. *)
Lemma HEX_byte n : byte_ok (nth n HEX 0).
Proof. unfold byte_ok. do 16 (destruct n as [|n]; [cbn; lia|]). destruct n; cbn; lia. Qed.

Lemma write_string_bytes s : bytes_ok s -> bytes_ok (write_string s).
Proof.
  assert (Hlit : forall z, 0 <= z < 256 -> byte_ok z) by (intros; done).
  intros Hs. unfold write_string, bytes_ok. constructor; [apply Hlit; lia|].
  apply Forall_app. split; [|constructor; [apply Hlit; lia|constructor]].
  induction Hs as [|b s Hb _ IH]; [constructor|].
  change ((b :: s) ≫= write_byte) with (write_byte b ++ (s ≫= write_byte)).
  apply Forall_app. split; [|done]. unfold write_byte.
  repeat case_if; rewrite ?Forall_cons, Forall_nil; split_and!; try done;
    first [apply HEX_byte | apply Hlit; lia].
Qed.

Lemma commas_bytes l : Forall bytes_ok l -> bytes_ok (commas l).
Proof.
  unfold bytes_ok. induction 1 as [|x l Hx Hl IH]; [constructor|]. destruct l as [|y l]; [done|].
  change (commas (x :: y :: l)) with (x ++ 44 :: commas (y :: l)).
  apply Forall_app. split; [done|]. constructor; [unfold byte_ok; lia|done].
Qed.

Lemma canon_ok_bytes lim v : forall d, canon_ok lim d v -> bytes_ok (encode v).
Proof.
  unfold bytes_ok. induction v as [|[]|s|a IH|o IH]; intros d H; cbn [encode]; try apply str_ok.
  - inversion H as [| |? ? Hfit|? ? _ _ Ha|? ? _ _ _ Ho]; subst. apply write_string_bytes. by destruct Hfit.
  - inversion H as [| |? ? Hfit|? ? _ _ Ha|? ? _ _ _ Ho]; subst. constructor; [unfold byte_ok; lia|].
    apply Forall_app. split; [|repeat constructor; unfold byte_ok; lia].
    apply commas_bytes, Forall_map. rewrite Forall_forall in *. intros x Hx. eapply IH; eauto.
  - inversion H as [| |? ? Hfit|? ? _ _ Ha|? ? _ _ _ Ho]; subst. constructor; [unfold byte_ok; lia|].
    apply Forall_app. split; [|repeat constructor; unfold byte_ok; lia].
    apply commas_bytes, Forall_map. rewrite Forall_forall in *. intros [k x] Hx.
    destruct (Ho _ Hx) as [[Hk _] Hv]. cbn [fst snd] in *. unfold bytes_ok. apply Forall_app. split.
    + apply write_string_bytes. by destruct Hk.
    + constructor; [unfold byte_ok; lia|]. eapply (IH _ Hx); eauto.
Qed.

(** Widening the limits keeps a value within them. *)
Lemma canon_ok_mono lim lim' v :
  max_depth lim <= max_depth lim' -> max_collection_len lim <= max_collection_len lim' ->
  max_scalar_bytes lim <= max_scalar_bytes lim' -> forall d, canon_ok lim d v -> canon_ok lim' d v.
Proof.
  intros Hd Hc Hs.
  assert (Hfit : forall s, str_fits lim s -> str_fits lim' s) by (intros s (? & ? & ?); split_and!; (done || lia)).
  induction v as [|b|s|a IH|o IH]; intros d H; try constructor;
    inversion H as [| |? ? Hf|? ? ? ? Ha|? ? ? ? Hsrt Ho]; subst; auto; try lia;
    rewrite Forall_forall in *; intros x Hx.
  - eapply IH; eauto.
  - destruct (Ho x Hx) as [[Hk1 Hk2] Hv]. split; [split; auto|]. eapply IH; eauto.
Qed.

(** ** Properties *)

Definition parse_top (lim : Limits) (bs : bytes) : CoreResult CanonValue :=
  if max_payload_bytes lim <? Z.of_nat (length bs) then Err ResourceLimit
  else
    '(v, r) ← parse_value (parse_fuel bs) lim 0 bs;
    match r with _ :: _ => Err NonCanonicalEncoding | [] => Ok v end.

Lemma decode_parse_top lim bs :
  0 <= max_collection_len lim -> bytes_ok bs -> decode lim bs = parse_top lim bs.
Proof.
  intros Hmax Hbs. unfold decode, parse_top. case_if; [done|].
  destruct (parse_value (parse_fuel bs) lim 0 bs) as [[v r]|e|] eqn:Hp; cbn; [|done..].
  apply (proj1 (parse_sound lim _ Hmax)) in Hp as [-> _]; [|done].
  destruct r; [|done]. rewrite app_nil_r. by rewrite bool_decide_eq_true_2.
Qed.

Lemma decode_sound lim bs v :
  0 <= max_collection_len lim -> bytes_ok bs -> decode lim bs = Ok v ->
  bs = encode v /\ canon_ok lim 0 v /\ Z.of_nat (length bs) <= max_payload_bytes lim.
Proof.
  intros Hmax Hbs. rewrite decode_parse_top by done. unfold parse_top.
  destruct (Z.ltb_spec (max_payload_bytes lim) (Z.of_nat (length bs))); [done|].
  intros H1. apply bind_ok_inv in H1 as ([v' r] & Hp & H1).
  apply (proj1 (parse_sound lim _ Hmax)) in Hp as [-> Hok]; [|done].
  destruct r; simplify_eq. by rewrite app_nil_r in *.
Qed.

Lemma decode_canonical lim v :
  0 <= max_collection_len lim -> bytes_ok (encode v) -> canon_ok lim 0 v ->
  Z.of_nat (length (encode v)) <= max_payload_bytes lim -> decode lim (encode v) = Ok v.
Proof.
  intros Hmax Hbs Hok Hl. rewrite decode_parse_top by done. unfold parse_top.
  rewrite (proj2 (Z.ltb_ge _ _)) by done. rewrite <- (app_nil_r (encode v)) at 2.
  rewrite (parse_complete lim v (parse_fuel (encode v)) 0 []); [done|done|unfold parse_fuel; lia].
Qed.

(** The encoding determines the value. *)
Lemma encode_inj lim v w :
  0 <= max_collection_len lim -> Z.of_nat (length (encode v)) <= max_payload_bytes lim ->
  canon_ok lim 0 v -> canon_ok lim 0 w -> encode v = encode w -> v = w.
Proof.
  intros Hm Hl Hv Hw E. assert (D : decode lim (encode v) = Ok v)
    by (apply decode_canonical; [done|by eapply canon_ok_bytes|done|done]).
  rewrite E in D, Hl. rewrite decode_canonical in D; [congruence|done|by eapply canon_ok_bytes|done|done].
Qed.

(** C17. The strict decoder accepts exactly the canonical encodings: an input
    decodes to [v] if and only if it is the byte-for-byte encoding of [v], it
    is within the payload limit, and [v] respects the nesting, collection and
    scalar limits with sorted ASCII object keys and valid UTF-8 strings. *)
Theorem decode_exact (lim : Limits) (bs : bytes) (v : CanonValue)
  (Hmax : 0 <= max_collection_len lim) (Hbs : bytes_ok bs) :
  decode lim bs = Ok v <->
  bs = encode v /\ canon_ok lim 0 v /\ Z.of_nat (length bs) <= max_payload_bytes lim.
Proof.
  split; [by apply decode_sound|]. intros (-> & Hok & Hl). by apply decode_canonical.
Qed.

Lemma decode_exact_witness :
  decode Limits_v1 (encode (Object [(str "a", Array [Null; Str (str "x")])]))
  = Ok (Object [(str "a", Array [Null; Str (str "x")])]).
Proof.
  apply (proj2 (decode_exact Limits_v1 (encode (Object [(str "a", Array [Null; Str (str "x")])]))
    (Object [(str "a", Array [Null; Str (str "x")])])
    ltac:(vm_compute; discriminate)
    ltac:(apply (bool_decide_eq_true_1 (Forall byte_ok _)); vm_compute; reflexivity))).
  split_and!; [reflexivity| |vm_compute; discriminate].
  repeat first
    [ constructor
    | match goal with |- str_fits _ _ => split_and! | |- bytes_ok _ => apply str_ok end
    | match goal with |- (_ <= _)%Z => vm_compute; discriminate | |- _ = true => reflexivity end ].
Defined.

(** The decoder is total: on any input and under any limits it returns a value
    or a typed error. *)
Lemma decode_total (lim : Limits) (bs : bytes) :
  0 <= max_collection_len lim -> bytes_ok bs -> decode lim bs <> Panic.
Proof.
  intros Hmax Hbs. rewrite decode_parse_top by done. unfold parse_top. case_if; [done|].
  apply bind_no_panic; [|by intros [? []]].
  apply (proj1 (parse_no_panic lim _ Hmax)); [done|]. unfold parse_fuel. lia.
Qed.

(** The final "re-encode and compare" step of the decoder never rejects
    an input: the parser already accepts canonical text only, so the decoder
    equals the parser followed by the trailing-bytes check. *)
Theorem reencode_check_redundant (lim : Limits) (bs : bytes)
  (Hmax : 0 <= max_collection_len lim) (Hbs : bytes_ok bs) : decode lim bs = parse_top lim bs.
Proof. by apply decode_parse_top. Qed.

Lemma reencode_check_redundant_witness :
  decode Limits_tiny [91; 93] = parse_top Limits_tiny [91; 93].
Proof.
  apply (reencode_check_redundant Limits_tiny [91; 93]); [vm_compute; discriminate|].
  repeat constructor; unfold byte_ok; lia.
Defined.
