(* ===== verification/CanonInt.v ===== *)
(** * Canonical decimal integers
      (src/crates/carolina-core/src/canon.rs, [parse_canonical_int])

    Integers travel as decimal strings: optional minus sign, no plus sign, no
    redundant leading zero, no negative zero.  [dec_text] is [i128::to_string]
    (and [u64]/[u32]'s, on their ranges). *)

From S2P Require Import Prelude Errors Canon.

(** ** [to_string] *)
Fixpoint digits (fuel : nat) (z : Z) (acc : bytes) : bytes :=
  match fuel with
  | O => acc
  | S f =>
      let acc' := 48 + z mod 10 :: acc in
      if z <? 10 then acc' else digits f (z / 10) acc'
  end.

(** A value has at most as many decimal digits as binary ones. *)
Definition nat_text (z : Z) : bytes := digits (S (Z.to_nat (Z.log2 z))) z [].

Arguments nat_text : simpl never.

Definition dec_text (z : Z) : bytes := if z <? 0 then 45 :: nat_text (- z) else nat_text z.

(** ** [parse_canonical_int] *)

(** The accumulation loop: [checked_mul(10)] then [checked_add], at [i128]. *)
Fixpoint accumulate (v : Z) (l : bytes) : CoreResult Z :=
  match l with
  | [] => Ok v
  | c :: l' =>
      x ← ok_or (checked_i 128 (v * 10)) NumericOverflow;
      y ← ok_or (checked_i 128 (x + (c - 48))) NumericOverflow;
      accumulate y l'
  end.

Definition parse_canonical_int (s : bytes) : CoreResult Z :=
  match s with
  | [] => Err NonCanonicalEncoding
  | b0 :: rest =>
      let '(neg, ds) := if b0 =? 45 then (true, rest) else (false, s) in
      if match ds with [] => true | _ => false end || negb (forallb is_ascii_digit ds)
      then Err NonCanonicalEncoding
      else if (1 <? Z.of_nat (length ds)) && peek_is 48 ds then Err NonCanonicalEncoding
      else if neg && bool_decide (ds = [48]) then Err NonCanonicalEncoding
      else if 39 <? Z.of_nat (length ds) then Err NumericOverflow
      else v ← accumulate 0 ds; Ok (if neg : bool then - v else v)
  end.

(** ** Facts about decimal text *)
Definition dval (l : bytes) : Z := foldl (fun a d => a * 10 + (d - 48)) 0 l.

Lemma dval_app l d : dval (l ++ [d]) = dval l * 10 + (d - 48).
Proof. unfold dval. by rewrite foldl_app. Qed.

Lemma digits_acc f z acc : digits f z acc = digits f z [] ++ acc.
Proof.
  revert z acc; induction f as [|f IH]; intros z acc; [done|]. cbn -[Z.modulo Z.div Z.ltb].
  destruct (z <? 10); [done|]. rewrite IH, (IH _ [_]), <- app_assoc. done.
Qed.

Lemma digits_fuel f g z :
  0 <= z -> z < 2 ^ Z.of_nat f -> z < 2 ^ Z.of_nat g -> (0 < f)%nat -> (0 < g)%nat ->
  digits f z [] = digits g z [].
Proof.
  revert g z; induction f as [|f IH]; intros [|g] z Hz Hf Hg ??; try lia.
  cbn -[Z.modulo Z.div Z.ltb]. destruct (Z.ltb_spec z 10); [done|].
  rewrite digits_acc, (digits_acc g). f_equal.
  rewrite Nat2Z.inj_succ, Z.pow_succ_r in Hf, Hg by lia.
  assert (z / 10 < 2 ^ Z.of_nat f) by (apply Z.div_lt_upper_bound; lia).
  assert (z / 10 < 2 ^ Z.of_nat g) by (apply Z.div_lt_upper_bound; lia).
  assert (1 <= z / 10) by (apply Z.div_le_lower_bound; lia).
  apply IH; try lia.
  - destruct f; [|lia]. change (2 ^ Z.of_nat 0) with 1 in *. lia.
  - destruct g; [|lia]. change (2 ^ Z.of_nat 0) with 1 in *. lia.
Qed.

Lemma log2_fuel z : 0 <= z -> z < 2 ^ Z.of_nat (S (Z.to_nat (Z.log2 z))).
Proof.
  intros Hz. rewrite Nat2Z.inj_succ, Z2Nat.id by apply Z.log2_nonneg.
  destruct (decide (z = 0)) as [->|]; [reflexivity|]. apply Z.log2_spec. lia.
Qed.

(** The recursive equation of [nat_text]. *)
Lemma nat_text_eq z : 0 <= z ->
  nat_text z = if z <? 10 then [48 + z] else nat_text (z / 10) ++ [48 + z mod 10].
Proof.
  intros Hz. unfold nat_text at 1. cbn -[Z.modulo Z.div Z.ltb]. destruct (Z.ltb_spec z 10).
  - by rewrite Z.mod_small by lia.
  - rewrite digits_acc. f_equal.
    assert (Hq : 1 <= z / 10) by (apply Z.div_le_lower_bound; lia).
    pose proof (log2_fuel z Hz) as Hl. rewrite Nat2Z.inj_succ, Z.pow_succ_r in Hl by lia.
    assert (z / 10 < 2 ^ Z.of_nat (Z.to_nat (Z.log2 z))) by (apply Z.div_lt_upper_bound; lia).
    apply (digits_fuel _ (S (Z.to_nat (Z.log2 (z / 10)))) (z / 10)); [lia|done|apply log2_fuel; lia| |lia].
    destruct (Z.to_nat (Z.log2 z)); [|lia]. change (2 ^ Z.of_nat 0) with 1 in *. lia.
Qed.

(** Canonical digit strings: digits only, and a leading zero only for zero itself. *)
Definition canonical_digits (l : bytes) : Prop :=
  l <> [] /\ forallb is_ascii_digit l = true /\ (length l = 1%nat \/ peek_is 48 l = false).

Lemma dval_nonneg l : forallb is_ascii_digit l = true -> 0 <= dval l.
Proof.
  induction l as [|d l IH] using rev_ind; intros H; [done|].
  rewrite forallb_app in H. cbn in H. breflect. rewrite dval_app. unfold is_ascii_digit in *.
  specialize (IH ltac:(done)). breflect. lia.
Qed.

Lemma canonical_init l d :
  l <> [] -> canonical_digits (l ++ [d]) -> canonical_digits l /\ 1 <= dval l.
Proof.
  intros Hne (_ & Hd & Hz). rewrite forallb_app in Hd. apply andb_true_iff in Hd as [Hd _].
  assert (Hpk : peek_is 48 l = false).
  { destruct Hz as [Hz|Hz].
    - rewrite length_app in Hz. cbn in Hz. destruct l; [done|cbn in Hz; lia].
    - by destruct l. }
  split; [split_and!; auto|].
  clear Hz. induction l as [|x l IH] using rev_ind; [done|].
  rewrite forallb_app in Hd. cbn in Hd. breflect. rewrite dval_app.
  destruct (decide (l = [])) as [->|].
  - cbn in *. unfold is_ascii_digit in *. breflect. lia.
  - assert (1 <= dval l) by (apply IH; [done|done|by destruct l]). unfold is_ascii_digit in *. breflect. lia.
Qed.

(** Canonical digit strings are exactly the texts of the naturals. *)
Lemma nat_text_dval l : canonical_digits l -> nat_text (dval l) = l.
Proof.
  induction l as [|d l IH] using rev_ind; intros H; [by destruct H|].
  assert (Hd : 0 <= d - 48 <= 9).
  { destruct H as (_ & Hd & _). rewrite forallb_app in Hd. cbn in Hd. unfold is_ascii_digit in Hd.
    breflect. lia. }
  rewrite dval_app. destruct (decide (l = [])) as [->|Hne].
  - cbn [dval foldl app]. rewrite nat_text_eq by (cbn; lia).
    replace (dval [] * 10 + (d - 48)) with (d - 48) by (cbn; lia).
    rewrite (proj2 (Z.ltb_lt _ _)) by lia. f_equal. lia.
  - destruct (canonical_init l d Hne H) as [Hc Hpos].
    rewrite nat_text_eq, (proj2 (Z.ltb_ge _ _)) by lia.
    rewrite Z.div_add_l, (Z.div_small (d - 48)), Z.add_0_r, IH by (done || lia).
    rewrite (Z.add_comm (dval l * 10)), Z_mod_plus_full, Z.mod_small by lia. do 2 f_equal. lia.
Qed.

Lemma nat_text_canonical z : 0 <= z -> canonical_digits (nat_text z) /\ dval (nat_text z) = z.
Proof.
  intros Hz. induction (Z.lt_wf 0 z) as [z _ IH]. rewrite nat_text_eq by done.
  destruct (Z.ltb_spec z 10).
  - split; [|unfold dval; cbn; lia]. unfold canonical_digits. cbn. unfold is_ascii_digit.
    split_and!; [done| |by left]. rewrite (proj2 (Z.leb_le _ _)), (proj2 (Z.leb_le _ _)) by lia. done.
  - assert (Hq : 1 <= z / 10) by (apply Z.div_le_lower_bound; lia).
    destruct (IH (z / 10)) as [(Hne & Hd & Hp) Hv];
      [split; [lia|apply Z.div_lt; lia]|lia|].
    pose proof (Z.mod_pos_bound z 10 ltac:(lia)). pose proof (Z.div_mod z 10 ltac:(lia)).
    split; [|rewrite dval_app, Hv; lia]. split_and!.
    + by destruct (nat_text (z / 10)).
    + rewrite forallb_app, Hd. cbn. unfold is_ascii_digit.
      rewrite (proj2 (Z.leb_le _ _)), (proj2 (Z.leb_le _ _)) by lia. done.
    + right. destruct Hp as [Hp|Hp]; [|by destruct (nat_text (z / 10))].
      destruct (nat_text (z / 10)) as [|d [|]] eqn:E; try done. cbn. unfold dval in Hv. cbn in Hv.
      apply Z.eqb_neq. lia.
Qed.

Lemma nat_text_length z n : 0 <= z < 10 ^ Z.of_nat n -> (0 < n)%nat -> (length (nat_text z) <= n)%nat.
Proof.
  revert z; induction n as [|n IH]; intros z Hz Hn; [lia|]. rewrite nat_text_eq by lia.
  destruct (Z.ltb_spec z 10); [cbn; lia|]. rewrite length_app. cbn.
  rewrite Nat2Z.inj_succ, Z.pow_succ_r in Hz by lia.
  assert (Hq : 1 <= z / 10) by (apply Z.div_le_lower_bound; lia).
  destruct n as [|n]; [change (10 ^ Z.of_nat 0) with 1 in Hz; lia|].
  assert (length (nat_text (z / 10)) <= S n)%nat; [|lia].
  apply IH; [split; [lia|apply Z.div_lt_upper_bound; lia]|lia].
Qed.

(** ** The accumulation loop *)
Lemma accumulate_spec l v :
  0 <= v -> forallb is_ascii_digit l = true ->
  let r := foldl (fun a d => a * 10 + (d - 48)) v l in
  v <= r /\ accumulate v l = if r <? 2 ^ 127 then Ok r else
    match l with [] => Ok v | _ => Err NumericOverflow end.
Proof.
  cbn zeta. revert v; induction l as [|c l IH]; intros v Hv Hd.
  { cbn [foldl accumulate]. split; [lia|]. by destruct (v <? 2 ^ 127). }
  cbn [forallb] in Hd. apply andb_true_iff in Hd as [Hc Hd].
  assert (Hc' : 0 <= c - 48 <= 9) by (unfold is_ascii_digit in Hc; breflect; lia).
  destruct (IH (v * 10 + (c - 48)) ltac:(lia) Hd) as [Hle Heq]. cbn [foldl].
  set (r := foldl _ _ l) in *. split; [lia|]. cbn [accumulate]. unfold checked_i.
  destruct (in_i 128 (v * 10)) eqn:E1.
  2:{ cbn. rewrite (proj2 (Z.ltb_ge _ _)); [done|].
      assert (~ v * 10 < 2 ^ 127); [|lia]. intros Hx.
      rewrite (proj2 (in_i_spec 128 (v * 10))) in E1; [done|]. change (128 - 1) with 127. lia. }
  cbn [ok_or mbind outcome_bind]. destruct (in_i 128 (v * 10 + (c - 48))) eqn:E2.
  2:{ cbn. rewrite (proj2 (Z.ltb_ge _ _)); [done|].
      assert (~ v * 10 + (c - 48) < 2 ^ 127); [|lia]. intros Hx.
      rewrite (proj2 (in_i_spec 128 (v * 10 + (c - 48)))) in E2; [done|]. change (128 - 1) with 127. lia. }
  cbn [ok_or mbind outcome_bind]. rewrite Heq. destruct (Z.ltb_spec r (2 ^ 127)); [done|].
  destruct l; [|done]. apply in_i_spec in E2. change (128 - 1) with 127 in E2. cbn in r. lia.
Qed.

Lemma accumulate_dval l :
  forallb is_ascii_digit l = true -> l <> [] ->
  accumulate 0 l = if dval l <? 2 ^ 127 then Ok (dval l) else Err NumericOverflow.
Proof.
  intros Hd Hne. destruct (accumulate_spec l 0 ltac:(lia) Hd) as [_ H].
  fold (dval l) in H. rewrite H. destruct (dval l <? 2 ^ 127); [done|]. by destruct l.
Qed.

Lemma length_le_39 z : 0 <= z < 2 ^ 127 -> (39 <? Z.of_nat (length (nat_text z))) = false.
Proof.
  intros Hz. apply Z.ltb_ge. pose proof (nat_text_length z 39).
  assert (2 ^ 127 < 10 ^ Z.of_nat 39) by (vm_compute; reflexivity). lia.
Qed.

(** The digits part of the parser, on canonical digits. *)
Lemma canonical_checks l :
  canonical_digits l ->
  (match l with [] => true | _ => false end || negb (forallb is_ascii_digit l)) = false /\
  ((1 <? Z.of_nat (length l)) && peek_is 48 l) = false.
Proof.
  intros (Hne & Hd & Hz). rewrite Hd. split; [by destruct l|].
  destruct Hz as [->| ->]; [done|apply andb_false_r].
Qed.

Lemma nat_text_head z : 0 <= z -> exists c t, nat_text z = c :: t /\ c <> 45.
Proof.
  intros Hz. destruct (nat_text_canonical z Hz) as [(Hne & Hd & _) _].
  destruct (nat_text z) as [|c t]; [done|]. exists c, t. split; [done|].
  cbn in Hd. unfold is_ascii_digit in Hd. breflect. lia.
Qed.

Lemma parse_dec_text v :
  - 2 ^ 127 < v < 2 ^ 127 -> parse_canonical_int (dec_text v) = Ok v.
Proof.
  intros Hv. unfold dec_text. destruct (Z.ltb_spec v 0) as [Hn|Hn].
  - destruct (nat_text_canonical (- v) ltac:(lia)) as [Hc Hval].
    destruct (canonical_checks _ Hc) as [C1 C2]. cbn [parse_canonical_int Z.eqb Pos.eqb].
    rewrite C1, C2, length_le_39 by lia. cbn [andb].
    rewrite bool_decide_eq_false_2.
    2:{ intros E. rewrite E in Hval. cbn in Hval. unfold dval in Hval. cbn in Hval. lia. }
    destruct Hc as (Hne & Hd & _). rewrite accumulate_dval, Hval by done.
    rewrite (proj2 (Z.ltb_lt _ _)) by lia. cbn. f_equal. lia.
  - destruct (nat_text_canonical v ltac:(lia)) as [Hc Hval].
    destruct (canonical_checks _ Hc) as [C1 C2]. destruct (nat_text_head v Hn) as (c & t & E & H45).
    unfold parse_canonical_int. rewrite E at 1. rewrite (proj2 (Z.eqb_neq c 45)) by done.
    rewrite C1, C2, length_le_39 by lia. cbn [andb].
    destruct Hc as (Hne & Hd & _). rewrite accumulate_dval, Hval by done.
    by rewrite (proj2 (Z.ltb_lt _ _)) by lia.
Qed.

Lemma parse_canonical_int_inv s v :
  parse_canonical_int s = Ok v -> - 2 ^ 127 < v < 2 ^ 127 /\ s = dec_text v.
Proof.
  intros H. destruct s as [|b0 rest]; [done|]. unfold parse_canonical_int in H.
  set (p := if b0 =? 45 then _ else _) in H. destruct p as [neg ds] eqn:Ep. subst p.
  case_in H as C1; [done|]. case_in H as C2; [done|]. case_in H as C3; [done|].
  case_in H as C4; [done|].
  apply bind_ok_inv in H as (x & Hx & [= <-]).
  assert (Hc : canonical_digits ds).
  { apply orb_false_iff in C1 as [N D]. breflect. split_and!; [by destruct ds|done|].
    destruct C2 as [L|P]; [|by right]. left. apply Z.ltb_ge in L. destruct ds as [|? [|]]; cbn in *; done || lia. }
  assert (Hval := nat_text_dval ds Hc). destruct Hc as (Hne & Hd & _).
  pose proof (dval_nonneg ds Hd). rewrite accumulate_dval in Hx by done. case_in Hx as E; [|done].
  simplify_eq. breflect. destruct (Z.eqb_spec b0 45) as [->|]; simplify_eq.
  - assert (dval ds <> 0).
    { intros E0. rewrite E0 in Hval. destruct C3 as [C3|C3]; [done|].
      rewrite <- Hval in C3. by vm_compute in C3. }
    split; [lia|]. unfold dec_text. rewrite (proj2 (Z.ltb_lt _ _)) by lia.
    by rewrite Z.opp_involutive, Hval.
  - split; [lia|]. unfold dec_text. by rewrite (proj2 (Z.ltb_ge _ _)), Hval by lia.
Qed.

(** ** Properties *)

(** The canonical integer parser accepts exactly the texts [to_string]
    prints for the integers strictly between [-2^127] and [2^127], each as its
    value: no second spelling of an integer is accepted. *)
Theorem canonical_int_exact (s : bytes) (v : Z) :
  parse_canonical_int s = Ok v <-> - 2 ^ 127 < v < 2 ^ 127 /\ s = dec_text v.
Proof.
  split; [apply parse_canonical_int_inv|]. intros [Hv ->]. by apply parse_dec_text.
Qed.

(** The most negative [i128] does not survive the round trip: the text
    that [CanonValue::int] prints for it is refused with [NumericOverflow],
    because the magnitude is accumulated as a positive [i128]. *)
Theorem canonical_int_min_refused :
  parse_canonical_int (dec_text (- 2 ^ 127)) = Err NumericOverflow.
Proof. vm_compute. reflexivity. Qed.
