(* ===== verification/CanonTyped.v ===== *)
(** * Typed access to canonical values
      (src/crates/carolina-core/src/canon.rs: accessors, sets, [ObjBuilder],
      the [Canonical] trait and its implementations; ids.rs: the [id128] and
      [epoch64] newtypes)

    The trait [Canonical] is the record [codec] of its two methods; the law a
    type's implementation promises, that projecting and reading back is the
    identity on the type's values, is the class [CodecLaw]. *)

From S2P Require Import Prelude ByteMap Errors Hex Canon CanonRoundtrip CanonInt.
From Stdlib Require Import Sorting.Permutation.

(** ** Constructors *)
Definition cint (v : Z) : CanonValue := Str (dec_text v).
Definition cuint (v : Z) : CanonValue := Str (dec_text v).
Definition cu32 (v : Z) : CanonValue := Str (dec_text v).
Definition cbytes (b : bytes) : CanonValue := Str (hex_encode b).

(** ** Accessors *)
Definition as_str (v : CanonValue) : CoreResult bytes :=
  match v with Str s => Ok s | _ => Err NonCanonicalEncoding end.
Definition as_bool (v : CanonValue) : CoreResult bool :=
  match v with Bool b => Ok b | _ => Err NonCanonicalEncoding end.
Definition as_i128 (v : CanonValue) : CoreResult Z := s ← as_str v; parse_canonical_int s.
Definition as_i64 (v : CanonValue) : CoreResult Z :=
  x ← as_i128 v; ok_or (checked_i 64 x) NumericOverflow.
Definition as_u64 (v : CanonValue) : CoreResult Z :=
  s ← as_str v; x ← parse_canonical_int s;
  if x <? 0 then Err NonCanonicalEncoding else ok_or (checked_u 64 x) NumericOverflow.
Definition as_u32 (v : CanonValue) : CoreResult Z :=
  x ← as_u64 v; ok_or (checked_u 32 x) NumericOverflow.
Definition as_u16 (v : CanonValue) : CoreResult Z :=
  x ← as_u64 v; ok_or (checked_u 16 x) NumericOverflow.
Definition as_bytes (v : CanonValue) : CoreResult bytes := s ← as_str v; hex_decode s.
Definition as_array (v : CanonValue) : CoreResult (list CanonValue) :=
  match v with Array a => Ok a | _ => Err NonCanonicalEncoding end.
Definition as_object (v : CanonValue) : CoreResult (bmap CanonValue) :=
  match v with Object o => Ok o | _ => Err NonCanonicalEncoding end.
Definition is_null (v : CanonValue) : bool := match v with Null => true | _ => false end.
Definition field (name : bytes) (v : CanonValue) : CoreResult CanonValue :=
  o ← as_object v; ok_or (bget name o) NonCanonicalEncoding.
Definition opt_field (name : bytes) (v : CanonValue) : CoreResult (option CanonValue) :=
  o ← as_object v;
  Ok (match bget name o with Some x => if is_null x then None else Some x | None => None end).

Definition expect_fields (fields : list bytes) (v : CanonValue) : CoreResult unit :=
  o ← as_object v;
  ensure (forallb (fun kv => bool_decide (fst kv ∈ fields)) o) NonCanonicalEncoding ≫= fun _ =>
  ensure (forallb (fun f => match bget f o with Some _ => true | None => false end) fields)
    NonCanonicalEncoding.

(** ** Sets *)

(** [sort_by(|a, b| a.0.cmp(&b.0))]: a stable sort of the (encoding, value) pairs. *)
Fixpoint insert_pair (p : bytes * CanonValue) (l : list (bytes * CanonValue)) :=
  match l with
  | [] => [p]
  | q :: l' => if bytes_leb (fst p) (fst q) then p :: l else q :: insert_pair p l'
  end.
Definition sort_pairs (l : list (bytes * CanonValue)) : list (bytes * CanonValue) :=
  foldr insert_pair [] l.

(** [windows(2)] with an equal pair. *)
Fixpoint adjacent_dup (l : list (bytes * CanonValue)) : bool :=
  match l with
  | p :: ((q :: _) as l') => bool_decide (fst p = fst q) || adjacent_dup l'
  | _ => false
  end.

Definition set (items : list CanonValue) : CoreResult CanonValue :=
  let encoded := sort_pairs (map (fun v => (encode v, v)) items) in
  if adjacent_dup encoded then Err NonCanonicalEncoding else Ok (Array (map snd encoded)).

(** The loop of [as_set]. *)
Fixpoint set_ordered (prev : option bytes) (a : list CanonValue) : bool :=
  match a with
  | [] => true
  | v :: a' =>
      let e := encode v in
      negb (match prev with Some p => bytes_leb e p | None => false end) && set_ordered (Some e) a'
  end.

Definition as_set (v : CanonValue) : CoreResult (list CanonValue) :=
  a ← as_array v; if set_ordered None a then Ok a else Err NonCanonicalEncoding.

(** ** Builder: [ObjBuilder::f] inserts into the map ([debug_assert!]s apart). *)
Definition obj : bmap CanonValue := [].
Definition fput (key : string) (v : CanonValue) (o : bmap CanonValue) : bmap CanonValue :=
  binsert (str key) v o.
Definition build (o : bmap CanonValue) : CanonValue := Object o.

(** ** Typed codecs *)
Record codec (A : Type) : Type := Codec {
  to_canon : A -> CanonValue;
  from_canon : CanonValue -> CoreResult A;
}.
Arguments Codec {A} _ _.
Arguments to_canon {A} _ _.
Arguments from_canon {A} _ _.

(** [Canonical::encode] and [Canonical::decode]: a decoded value must project
    back to exactly the decoded canonical value. *)
Definition encode_typed {A} (c : codec A) (a : A) : bytes := encode (to_canon c a).
Definition decode_typed {A} (c : codec A) (lim : Limits) (bs : bytes) : CoreResult A :=
  v ← decode lim bs;
  t ← from_canon c v;
  if bool_decide (to_canon c t = v) then Ok t else Err NonCanonicalEncoding.

Definition canon_codec : codec CanonValue := Codec (fun v => v) (fun v => Ok v).
Definition string_codec : codec bytes := Codec Str as_str.
Definition bool_codec : codec bool := Codec Bool as_bool.
Definition u64_codec : codec Z := Codec cuint as_u64.
Definition u32_codec : codec Z := Codec cu32 as_u32.
Definition i64_codec : codec Z := Codec cint as_i64.
Definition bytes_codec : codec bytes := Codec cbytes as_bytes.
Definition vec_codec {A} (c : codec A) : codec (list A) :=
  Codec (fun l => Array (map (to_canon c) l)) (fun v => a ← as_array v; collect (from_canon c) a).
Definition option_codec {A} (c : codec A) : codec (option A) :=
  Codec (fun o => match o with Some x => to_canon c x | None => Null end)
        (fun v => if is_null v then Ok None else x ← from_canon c v; Ok (Some x)).

(** [id128]: 16 bytes as 32 lowercase hex characters. *)
Definition id128_from_hex (s : bytes) : CoreResult bytes :=
  b ← hex_decode s; if (length b =? 16)%nat then Ok b else Err NonCanonicalEncoding.
Definition id128_codec : codec bytes :=
  Codec (fun b => Str (hex_encode b)) (fun v => s ← as_str v; id128_from_hex s).

(** [epoch64]: a [u64] newtype; the successor refuses to wrap. *)
Definition epoch64_codec : codec Z := u64_codec.
Definition checked_next (v : Z) : CoreResult Z := ok_or (checked_u 64 (v + 1)) NumericOverflow.

(** ** Laws *)
Class CodecLaw {A} (c : codec A) (valid : A -> Prop) : Prop :=
  from_to : forall a, valid a -> from_canon c (to_canon c a) = Ok a.

Lemma in_u64_i128 v w : 0 <= w <= 64 -> in_u w v = true -> - 2 ^ 127 < v < 2 ^ 127.
Proof.
  intros Hw Hv. apply in_u_spec in Hv.
  pose proof (Z.pow_le_mono_r 2 w 64 ltac:(lia) ltac:(lia)).
  assert (2 ^ 64 < 2 ^ 127) by (vm_compute; reflexivity). lia.
Qed.

Lemma in_u_mono w w' v : w <= w' -> in_u w v = true -> in_u w' v = true.
Proof.
  intros Hw Hv. rewrite in_u_spec in *. pose proof (Z.pow_le_mono_r 2 w w' ltac:(lia) Hw). lia.
Qed.

Lemma as_u64_cuint v : in_u 64 v = true -> as_u64 (cuint v) = Ok v.
Proof.
  intros Hv. unfold as_u64, cuint. cbn [as_str mbind outcome_bind].
  rewrite parse_dec_text by by eapply (in_u64_i128 v 64).
  cbn [mbind outcome_bind]. unfold checked_u. rewrite Hv. apply in_u_spec in Hv.
  by rewrite (proj2 (Z.ltb_ge v 0)) by lia.
Qed.

#[global] Instance canon_codec_law : CodecLaw canon_codec (fun _ => True).
Proof. intros a _. done. Qed.
#[global] Instance string_codec_law : CodecLaw string_codec (fun _ => True).
Proof. intros a _. done. Qed.
#[global] Instance bool_codec_law : CodecLaw bool_codec (fun _ => True).
Proof. intros a _. done. Qed.
#[global] Instance u64_codec_law : CodecLaw u64_codec (fun v => in_u 64 v = true).
Proof. intros v Hv. by apply as_u64_cuint. Qed.
#[global] Instance u32_codec_law : CodecLaw u32_codec (fun v => in_u 32 v = true).
Proof.
  intros v Hv. unfold u32_codec. cbn [from_canon to_canon]. unfold as_u32. change (cu32 v) with (cuint v).
  rewrite as_u64_cuint by (eapply in_u_mono; [|done]; lia). cbn. unfold checked_u. by rewrite Hv.
Qed.
#[global] Instance i64_codec_law : CodecLaw i64_codec (fun v => in_i 64 v = true).
Proof.
  intros v Hv. unfold i64_codec. cbn [from_canon to_canon]. unfold as_i64, as_i128, cint. cbn [as_str mbind outcome_bind].
  assert (Hi := Hv). apply in_i_spec in Hi.
  assert (2 ^ (64 - 1) < 2 ^ 127) by (vm_compute; reflexivity).
  rewrite parse_dec_text by lia. cbn [mbind outcome_bind]. unfold checked_i. by rewrite Hv.
Qed.
#[global] Instance bytes_codec_law : CodecLaw bytes_codec bytes_ok.
Proof. intros b Hb. cbn. unfold as_bytes, cbytes. cbn [as_str mbind outcome_bind]. by apply hex_decode_encode. Qed.
#[global] Instance vec_codec_law {A} (c : codec A) valid `{!CodecLaw c valid} :
  CodecLaw (vec_codec c) (Forall valid).
Proof.
  intros l Hl. cbn. apply collect_map. intros x Hx. apply from_to.
  rewrite Forall_forall in Hl. auto.
Qed.

(** An option round-trips when no value of the inner type projects to [null]. *)
#[global] Instance option_codec_law {A} (c : codec A) valid `{!CodecLaw c valid} :
  CodecLaw (option_codec c)
    (fun o => match o with Some x => valid x /\ to_canon c x <> Null | None => True end).
Proof.
  intros [x|] H; [|done]. destruct H as [Hv Hn]. cbn. rewrite from_to by done.
  by destruct (to_canon c x).
Qed.
#[global] Instance id128_codec_law : CodecLaw id128_codec (fun b => bytes_ok b /\ length b = 16%nat).
Proof.
  intros b [Hb Hl]. cbn. unfold id128_from_hex. rewrite hex_decode_encode by done. cbn. by rewrite Hl.
Qed.

(** ** Plain text: printable ASCII without quote and backslash *)
Definition plain_byte (b : Z) : bool :=
  (32 <=? b) && (b <=? 126) && negb (b =? 34) && negb (b =? 92).
Abbreviation plain := (forallb plain_byte).

Lemma plain_byte_inv b : plain_byte b = true -> 32 <= b <= 126 /\ b <> 34 /\ b <> 92.
Proof. unfold plain_byte. intros. breflect. lia. Qed.

Lemma plain_write s : plain s = true -> s ≫= write_byte = s.
Proof.
  induction s as [|b s IH]; cbn [forallb]; intros H; [done|].
  apply andb_true_iff in H as [Hb H]. apply plain_byte_inv in Hb.
  change ((b :: s) ≫= write_byte) with (write_byte b ++ (s ≫= write_byte)).
  rewrite IH, write_byte_plain by (done || lia). done.
Qed.

Lemma plain_ok s : plain s = true -> bytes_ok s /\ utf8_valid s = true.
Proof.
  induction s as [|b s IH]; cbn [forallb]; intros H; [by split; [constructor|]|].
  apply andb_true_iff in H as [Hb H]. apply plain_byte_inv in Hb. destruct (IH H) as [IH1 IH2].
  split; [constructor; [unfold byte_ok; lia|done]|]. cbn [utf8_valid].
  by rewrite (proj2 (Z.ltb_lt _ _)) by lia.
Qed.

Lemma plain_fits lim s :
  plain s = true -> Z.of_nat (length s) <= max_scalar_bytes lim + 8 -> str_fits lim s.
Proof.
  intros Hp Hl. destruct (plain_ok s Hp) as [Ho Hu]. split_and!; try done. by rewrite plain_write.
Qed.

Lemma write_string_plain s : plain s = true -> write_string s = 34 :: s ++ [34].
Proof. intros H. unfold write_string. by rewrite plain_write. Qed.

Lemma digits_plain l : forallb is_ascii_digit l = true -> plain l = true.
Proof.
  induction l as [|d l IH]; [done|]. cbn [forallb]. intros [Hd H]%andb_true_iff.
  rewrite IH by done. unfold is_ascii_digit in Hd. breflect. unfold plain_byte.
  rewrite (proj2 (Z.leb_le 32 d)), (proj2 (Z.leb_le d 126)) by lia.
  by rewrite (proj2 (Z.eqb_neq d 34)), (proj2 (Z.eqb_neq d 92)) by lia.
Qed.

(** A [u64] prints as at most twenty plain characters. *)
Lemma dec_text_u64 z :
  in_u 64 z = true -> plain (dec_text z) = true /\ (length (dec_text z) <= 20)%nat.
Proof.
  intros Hz. apply in_u_spec in Hz. unfold dec_text. rewrite (proj2 (Z.ltb_ge z 0)) by lia. split.
  - apply digits_plain. by destruct (nat_text_canonical z ltac:(lia)) as [(_ & ? & _) _].
  - apply nat_text_length; [|lia]. assert (2 ^ 64 < 10 ^ Z.of_nat 20) by (vm_compute; reflexivity). lia.
Qed.

Lemma hex_plain b : bytes_ok b -> plain (hex_encode b) = true.
Proof.
  assert (HH : forall n, (n < 16)%nat -> plain_byte (nth n HEX 0) = true).
  { intros n Hn. do 16 (destruct n as [|n]; [reflexivity|]). lia. }
  induction 1 as [|x b Hx _ IH]; [done|]. rewrite hex_encode_cons. cbn [forallb].
  rewrite IH. destruct (byte_split x Hx) as (H1 & H2 & _). rewrite !HH by lia. done.
Qed.

(** ** Sets: sorting facts *)
Lemma insert_pair_perm p l : Permutation (p :: l) (insert_pair p l).
Proof.
  induction l as [|q l IH]; cbn; [done|]. destruct (bytes_leb _ _); [done|].
  rewrite perm_swap. by rewrite IH.
Qed.
Lemma sort_pairs_perm l : Permutation l (sort_pairs l).
Proof. induction l as [|p l IH]; cbn; [done|]. rewrite <- insert_pair_perm. by constructor. Qed.

(** Sorted by encoding, not necessarily strictly. *)
Fixpoint pairs_sorted (l : list (bytes * CanonValue)) : Prop :=
  match l with
  | p :: l' => Forall (fun q => bytes_leb (fst p) (fst q) = true) l' /\ pairs_sorted l'
  | [] => True
  end.

Lemma bytes_leb_trans a b c :
  bytes_leb a b = true -> bytes_leb b c = true -> bytes_leb a c = true.
Proof.
  rewrite !bytes_leb_lt, !negb_true_iff. intros H1 H2.
  destruct (bytes_ltb c a) eqn:E; [|done]. destruct (bytes_ltb c b) eqn:E2; [done|].
  destruct (bytes_ltb b c) eqn:E3.
  - pose proof (bytes_ltb_trans _ _ _ E3 E). congruence.
  - pose proof (bytes_ltb_total _ _ E2 E3). subst. congruence.
Qed.
Lemma bytes_leb_total a b : bytes_leb a b = false -> bytes_leb b a = true.
Proof. rewrite bytes_leb_lt, negb_false_iff. apply bytes_lt_le. Qed.
Lemma bytes_leb_antisym a b : bytes_leb a b = true -> bytes_leb b a = true -> a = b.
Proof. rewrite !bytes_leb_lt, !negb_true_iff. intros. by apply bytes_ltb_total. Qed.

Lemma insert_pair_sorted p l : pairs_sorted l -> pairs_sorted (insert_pair p l).
Proof.
  induction l as [|q l IH]; cbn; [done|]. intros [Hq Hl].
  destruct (bytes_leb p.1 q.1) eqn:E; cbn.
  - split_and!; try done. constructor; [done|]. eapply Forall_impl; [exact Hq|].
    intros x Hx. by eapply bytes_leb_trans.
  - split; [|auto]. rewrite <- insert_pair_perm. constructor; [by apply bytes_leb_total|done].
Qed.
Lemma sort_pairs_sorted l : pairs_sorted (sort_pairs l).
Proof. induction l; cbn; [done|]. by apply insert_pair_sorted. Qed.

(** On a sorted list, no adjacent duplicate means strictly increasing. *)
Lemma adjacent_dup_strict l :
  pairs_sorted l -> adjacent_dup l = false <-> NoDup (map fst l).
Proof.
  induction l as [|p l IH]; [cbn; intros; split; [constructor|done]|].
  intros [Hp Hl]. specialize (IH Hl). cbn [map]. rewrite NoDup_cons. destruct l as [|q l].
  - cbn. split; [|done]. intros _. split; [set_solver|constructor].
  - cbn [adjacent_dup]. rewrite orb_false_iff, IH, bool_decide_eq_false. split.
    + intros [Hne Hnd]. split; [|done]. intros (r & Hr & Hin)%list_elem_of_fmap.
      apply elem_of_cons in Hin as [->|Hin]; [done|].
      apply Forall_cons in Hp as [Hpq _]. destruct Hl as [Hq _]. rewrite Forall_forall in Hq.
      specialize (Hq _ Hin). rewrite <- Hr in Hq. by apply Hne, bytes_leb_antisym.
    + intros [Hni Hnd]. split; [|done]. intros E. apply Hni. rewrite E. by left.
Qed.

(** Two sorted duplicate-free lists with the same elements are equal. *)
Lemma pairs_sorted_unique l1 l2 :
  Permutation l1 l2 -> pairs_sorted l1 -> pairs_sorted l2 -> NoDup (map fst l1) -> l1 = l2.
Proof.
  revert l2; induction l1 as [|p l1 IH]; intros l2 HP S1 S2 Hnd.
  { symmetry. by apply Permutation_nil. }
  destruct l2 as [|q l2]; [by apply Permutation_sym, Permutation_nil in HP|].
  assert (p = q) as ->.
  { assert (Hpq : p ∈ q :: l2) by (rewrite <- HP; by left).
    assert (Hqp : q ∈ p :: l1) by (rewrite HP; by left).
    apply elem_of_cons in Hpq as [|Hpq]; [done|]. apply elem_of_cons in Hqp as [|Hqp]; [done|].
    destruct S1 as [S1 _], S2 as [S2 _]. rewrite Forall_forall in S1, S2.
    pose proof (bytes_leb_antisym _ _ (S1 _ Hqp) (S2 _ Hpq)) as E.
    cbn in Hnd. apply NoDup_cons in Hnd as [Hni _]. exfalso. apply Hni. rewrite E.
    apply list_elem_of_fmap. eauto. }
  apply Permutation_cons_inv in HP. cbn in Hnd. apply NoDup_cons in Hnd as [_ Hnd].
  destruct S1, S2. f_equal. by apply IH.
Qed.

Definition enc_pairs (items : list CanonValue) := map (fun v => (encode v, v)) items.

Lemma enc_pairs_fst items : map fst (enc_pairs items) = map encode items.
Proof. unfold enc_pairs. rewrite map_map. done. Qed.
Lemma enc_pairs_perm_form l items : Permutation (enc_pairs items) l -> l = enc_pairs (map snd l).
Proof.
  intros HP. assert (H : Forall (fun p => fst p = encode (snd p)) l).
  { rewrite <- HP. unfold enc_pairs. apply Forall_forall. intros p (v & -> & _)%list_elem_of_fmap. done. }
  clear HP. induction H as [|[e v] l He _ IH]; cbn in *; [done|]. subst. by f_equal.
Qed.

Lemma set_ordered_strict prev a :
  set_ordered prev a = true <->
  pairs_sorted (enc_pairs a) /\ NoDup (map encode a) /\
  match prev with Some p => Forall (fun v => p <b encode v) a | None => True end.
Proof.
  revert prev; induction a as [|v a IH]; intros prev.
  { cbn. split; [|done]. intros _. split_and!; try done; [constructor|by destruct prev]. }
  cbn [set_ordered]. cbn zeta. rewrite andb_true_iff, IH. cbn [enc_pairs map pairs_sorted fst].
  fold (enc_pairs a). rewrite NoDup_cons. split.
  - intros (Hp & Hs & Hnd & Hv). split_and!; try done.
    + unfold enc_pairs. apply Forall_map. eapply Forall_impl; [exact Hv|]. cbn. intros x. apply bytes_lt_le.
    + intros (x & Hx & Hin)%list_elem_of_fmap. rewrite Forall_forall in Hv. specialize (Hv _ Hin).
      rewrite <- Hx, bytes_ltb_irrefl in Hv. done.
    + destruct prev as [p|]; [|done]. rewrite bytes_leb_lt, negb_involutive in Hp.
      constructor; [done|]. eapply Forall_impl; [exact Hv|]. intros x Hx. by eapply bytes_ltb_trans.
  - intros ([Hle Hs] & [Hni Hnd] & Hp). split_and!; try done.
    + destruct prev as [p|]; [|done]. apply Forall_cons in Hp as [Hp _].
      by rewrite bytes_leb_lt, negb_involutive.
    + unfold enc_pairs in Hle. apply Forall_map in Hle. apply Forall_forall. intros x Hx.
      rewrite Forall_forall in Hle. specialize (Hle _ Hx). cbn in Hle.
      destruct (bytes_ltb (encode v) (encode x)) eqn:E; [done|].
      rewrite bytes_leb_lt, negb_true_iff in Hle. exfalso. apply Hni.
      rewrite (bytes_ltb_total _ _ E Hle). apply list_elem_of_fmap. eauto.
Qed.

(** Elements with distinct encodings form a set. *)
Lemma set_distinct items : NoDup (map encode items) ->
  exists a, set items = Ok (Array a) /\ Permutation items a /\ as_set (Array a) = Ok a.
Proof.
  intros Hnd. unfold set. fold (enc_pairs items).
  pose proof (sort_pairs_perm (enc_pairs items)) as HP.
  pose proof (sort_pairs_sorted (enc_pairs items)) as HS.
  assert (HN : NoDup (map fst (sort_pairs (enc_pairs items)))) by by rewrite <- HP, enc_pairs_fst.
  rewrite (proj2 (adjacent_dup_strict _ HS) HN). eexists. split_and!; [done| |].
  - rewrite <- HP. unfold enc_pairs. rewrite map_map. cbn. by rewrite map_id.
  - unfold as_set. cbn [as_array mbind outcome_bind].
    rewrite (proj2 (set_ordered_strict None _)); [done|].
    rewrite <- (enc_pairs_perm_form _ _ HP). split_and!; try done.
    by rewrite <- enc_pairs_fst, <- (enc_pairs_perm_form _ _ HP).
Qed.

(** ** Properties *)

(** [CanonValue::set] builds the canonical form of a mathematical set: it
    succeeds exactly when no two elements have the same encoding, the result
    is a rearrangement of the elements that [as_set] accepts, and every
    ordering of the same elements gives the same result. *)
Theorem canonical_set_spec (items : list CanonValue) :
  (set items = Err NonCanonicalEncoding <-> ~ NoDup (map encode items)) /\
  (forall v, set items = Ok v ->
     exists a, v = Array a /\ Permutation items a /\ as_set v = Ok a) /\
  (forall items', Permutation items items' -> set items' = set items).
Proof.
  unfold set. fold (enc_pairs items).
  pose proof (sort_pairs_perm (enc_pairs items)) as HP.
  pose proof (sort_pairs_sorted (enc_pairs items)) as HS.
  pose proof (adjacent_dup_strict _ HS) as HD.
  assert (HN : NoDup (map fst (sort_pairs (enc_pairs items))) <-> NoDup (map encode items)).
  { rewrite <- HP, enc_pairs_fst. done. }
  rewrite HN in HD. split_and!.
  - destruct (adjacent_dup _) eqn:E; split; try done; intros; [|intuition congruence].
    intros Hnd. apply HD in Hnd. congruence.
  - intros v Hv. destruct (adjacent_dup _) eqn:E; [done|]. simplify_eq.
    destruct (set_distinct items) as (a & Ha & ? & ?); [by apply HD|].
    unfold set in Ha. fold (enc_pairs items) in Ha. rewrite E in Ha. exists a. by simplify_eq.
  - intros items' Hperm. cbn zeta. fold (enc_pairs items').
    assert (HP' : Permutation (sort_pairs (enc_pairs items)) (sort_pairs (enc_pairs items'))).
    { rewrite <- HP, <- sort_pairs_perm. by apply Permutation_map. }
    pose proof (sort_pairs_sorted (enc_pairs items')) as HS'.
    pose proof (adjacent_dup_strict _ HS') as HD'.
    assert (HN' : NoDup (map fst (sort_pairs (enc_pairs items'))) <-> NoDup (map encode items))
      by (rewrite <- HP'; done).
    rewrite HN' in HD'.
    destruct (adjacent_dup (sort_pairs (enc_pairs items))) eqn:E.
    + destruct (adjacent_dup (sort_pairs (enc_pairs items'))) eqn:E'; [done|].
      assert (true = false); [|done]. apply HD. by apply HD'.
    + rewrite (proj2 HD') by (by apply HD). do 2 f_equal. symmetry. f_equal.
      apply pairs_sorted_unique; try done. apply HN. by apply HD.
Qed.

Lemma decode_typed_encode {A} (c : codec A) (valid : A -> Prop) {L : CodecLaw c valid} lim a :
  0 <= max_collection_len lim -> valid a -> canon_ok lim 0 (to_canon c a) ->
  bytes_ok (encode_typed c a) -> Z.of_nat (length (encode_typed c a)) <= max_payload_bytes lim ->
  decode_typed c lim (encode_typed c a) = Ok a.
Proof.
  intros Hmax Hv Hok Hb Hl. unfold decode_typed, encode_typed in *.
  rewrite decode_canonical by done. cbn [mbind outcome_bind]. rewrite from_to by done.
  cbn [mbind outcome_bind]. by rewrite bool_decide_eq_true_2.
Qed.

Lemma decode_typed_sound {A} (c : codec A) lim bs a :
  0 <= max_collection_len lim -> bytes_ok bs -> decode_typed c lim bs = Ok a ->
  bs = encode_typed c a /\ canon_ok lim 0 (to_canon c a).
Proof.
  intros Hmax Hb H. unfold decode_typed in H. apply bind_ok_inv in H as (v & Hd & H).
  apply bind_ok_inv in H as (t & Ht & H). case_in H as E; [|done]. simplify_eq. breflect.
  apply decode_sound in Hd as (-> & Hok & _); [|done..]. unfold encode_typed. by rewrite E.
Qed.

(** The strict typed decoder inverts the typed encoder on every type whose
    codec obeys the law, and accepts nothing but the encoder's output: for a
    value in range whose projection is within the limits, decoding its bytes
    gives it back; conversely accepted bytes are the encoding of the result. *)
Theorem typed_decode_exact {A} (c : codec A) (valid : A -> Prop) (L : CodecLaw c valid)
  (lim : Limits) (Hmax : 0 <= max_collection_len lim) :
  (forall a, valid a -> canon_ok lim 0 (to_canon c a) -> bytes_ok (encode_typed c a) ->
     Z.of_nat (length (encode_typed c a)) <= max_payload_bytes lim ->
     decode_typed c lim (encode_typed c a) = Ok a) /\
  (forall bs a, bytes_ok bs -> decode_typed c lim bs = Ok a -> bs = encode_typed c a).
Proof.
  split; [intros; by eapply decode_typed_encode|].
  intros bs a Hb H. by apply decode_typed_sound in H as [? _].
Qed.

Lemma typed_decode_exact_witness :
  decode_typed (vec_codec u64_codec) Limits_v1 (encode_typed (vec_codec u64_codec) [7; 0]) = Ok [7; 0].
Proof.
  apply (proj1 (typed_decode_exact (vec_codec u64_codec) (Forall (fun v => in_u 64 v = true))
    _ Limits_v1 ltac:(vm_compute; discriminate))).
  - repeat constructor.
  - repeat first
      [ constructor
      | match goal with |- str_fits _ _ => split_and! | |- bytes_ok _ =>
          apply (bool_decide_eq_true_1 (Forall byte_ok _)); vm_compute; reflexivity end
      | match goal with |- (_ <= _)%Z => vm_compute; discriminate | |- _ = true => reflexivity end ].
  - apply (bool_decide_eq_true_1 (Forall byte_ok _)); vm_compute; reflexivity.
  - vm_compute; discriminate.
Defined.
