(* ===== verification/CanonRecord.v ===== *)
(** * Records with a canonical form
      (src/crates/carolina-core/src/canon.rs: [ObjBuilder], [decode_set],
      the [Canonical] trait for types that hold sets)

    [ObjBuilder::fset] panics when two elements of a set field have the same
    encoding, so the projection of a type that holds sets is partial.  A
    [pcodec] is such an implementation of [Canonical]; [Lawful] states what it
    promises to its clients: the values in range project and are read back,
    and reading an arbitrary value never panics and yields a value in range.
    Everything the decoders of the upper crates need follows from that law,
    once, at the end of this file. *)

From S2P Require Import Prelude ByteMap Errors Hex Canon CanonRoundtrip CanonInt CanonTyped.
From stdpp Require Import sorting.
#[local] Open Scope Z_scope.

Record pcodec (A : Type) : Type := PCodec {
  project : A -> CoreResult CanonValue;
  recover : CanonValue -> CoreResult A;
}.
Arguments PCodec {A} _ _.
Arguments project {A} _ _.
Arguments recover {A} _ _.

(** ** Builder and accessors *)

(** [ObjBuilder::f], its [debug_assert!]s included: a key that is not ASCII or
    already present panics. *)
Definition f_ (m : bmap CanonValue) (key : string) (v : CanonValue) : CoreResult (bmap CanonValue) :=
  if negb (is_ascii (str key)) then Panic
  else match bget (str key) m with
       | Some _ => Panic
       | None => Ok (binsert (str key) v m)
       end.

Fixpoint f_all (m : bmap CanonValue) (l : list (string * CoreResult CanonValue)) :
    CoreResult (bmap CanonValue) :=
  match l with
  | [] => Ok m
  | (k, ov) :: l' => v ← ov; m' ← f_ m k v; f_all m' l'
  end.

(** [CanonValue::obj().f(k1, v1)...build()] *)
Definition robj (l : list (string * CoreResult CanonValue)) : CoreResult CanonValue :=
  m ← f_all [] l; Ok (Object m).

(** [v.expect_fields(&[..])?] *)
Definition expect (names : list string) (v : CanonValue) : CoreResult unit :=
  expect_fields (map str names) v.

(** [T::from_canon(v.field(k)?)?] *)
Definition get {A} (k : string) (c : pcodec A) (v : CanonValue) : CoreResult A :=
  x ← field (str k) v; recover c x.

(** A string literal as a field value. *)
Definition lit (s : string) : CoreResult CanonValue := Ok (Str (str s)).

(** ** Codecs of the standard types *)
Definition total {A} (c : codec A) : pcodec A := PCodec (fun a => Ok (to_canon c a)) (from_canon c).
Definition p_canon : pcodec CanonValue := total canon_codec.
Definition p_string : pcodec bytes := total string_codec.
Definition p_bool : pcodec bool := total bool_codec.
Definition p_u64 : pcodec Z := total u64_codec.
Definition p_u32 : pcodec Z := total u32_codec.
Definition p_bytes : pcodec bytes := total bytes_codec.
Definition p_id128 : pcodec bytes := total id128_codec.
(** [Hash256] and the [hash_newtype] macro of ids.rs: 64 lowercase hex characters. *)
Definition p_hash : pcodec bytes :=
  PCodec (fun h => Ok (Str (Hash256_to_hex h))) (fun v => s ← as_str v; Hash256_from_hex s).

Definition p_option {A} (c : pcodec A) : pcodec (option A) :=
  PCodec (fun o => match o with Some x => project c x | None => Ok Null end)
         (fun v => if is_null v then Ok None else x ← recover c v; Ok (Some x)).
Definition p_vec {A} (c : pcodec A) : pcodec (list A) :=
  PCodec (fun l => vs ← collect (project c) l; Ok (Array vs))
         (fun v => a ← as_array v; collect (recover c) a).

(** A field-less enum as its label: [.fstr(k, x.label())] and
    [T::from_label(v.field(k)?.as_str()?)]. *)
Definition p_label {A} (label : A -> string) (from_label : bytes -> CoreResult A) : pcodec A :=
  PCodec (fun a => lit (label a)) (fun v => s ← as_str v; from_label s).

(** ** Derived orders

    [#[derive(PartialOrd, Ord)]] compares the fields of a struct in the order of
    their declaration.  Every type kept in a set field is a tuple of integers
    and byte strings: its order is the lexicographic order of its [key], the
    list of its fields with an integer [n] as [[n]]. *)
Fixpoint keys_leb (a b : list bytes) : bool :=
  match a, b with
  | [], _ => true
  | _ :: _, [] => false
  | x :: a', y :: b' =>
      match bytes_cmp x y with
      | Lt => true
      | Eq => keys_leb a' b'
      | Gt => false
      end
  end.

Definition key_le {A} (key : A -> list bytes) (x y : A) : Prop := keys_leb (key x) (key y) = true.
#[global] Instance key_le_dec {A} (key : A -> list bytes) x y : Decision (key_le key x y).
Proof. unfold key_le. apply _. Defined.

(** [out.sort()] *)
Definition sort_by {A} (key : A -> list bytes) (l : list A) : list A := merge_sort (key_le key) l.

(** [ObjBuilder::fset] and [decode_set]. *)
Definition p_set {A} (c : pcodec A) (key : A -> list bytes) : pcodec (list A) :=
  PCodec (fun l => vs ← collect (project c) l;
                   match set vs with Ok s => Ok s | _ => Panic end)
         (fun v => a ← as_set v; out ← collect (recover c) a; Ok (sort_by key out)).

(** ** [Canonical::encode] and [Canonical::decode] *)
Definition encode_p {A} (c : pcodec A) (a : A) : CoreResult bytes := v ← project c a; Ok (encode v).
Definition decode_p {A} (c : pcodec A) (lim : Limits) (bs : bytes) : CoreResult A :=
  v ← decode lim bs;
  t ← recover c v;
  w ← project c t;
  if bool_decide (w = v) then Ok t else Err NonCanonicalEncoding.

(** ** Well-formed values

    What the Rust types of a [CanonValue] guarantee: strings are UTF-8 and the
    keys of an object are increasing; keys are ASCII by the builder's and the
    parser's checks. *)
Definition text_ok (s : bytes) : Prop := bytes_ok s /\ utf8_valid s = true.

Inductive canon_wf : CanonValue -> Prop :=
| wf_null : canon_wf Null
| wf_bool b : canon_wf (Bool b)
| wf_str s : text_ok s -> canon_wf (Str s)
| wf_array a : Forall canon_wf a -> canon_wf (Array a)
| wf_object o :
    bsorted o -> Forall (fun kv => (text_ok (fst kv) /\ is_ascii (fst kv) = true) /\ canon_wf (snd kv)) o ->
    canon_wf (Object o).

Lemma canon_ok_wf lim v : forall d, canon_ok lim d v -> canon_wf v.
Proof.
  induction v as [|b|s|a IH|o IH]; intros d H; constructor;
    inversion H as [| |? ? Hf|? ? ? ? Ha|? ? ? ? Hs Ho]; subst; try done.
  - by destruct Hf as (? & ? & ?).
  - rewrite Forall_forall in *. eauto.
  - rewrite Forall_forall in *. intros x Hx. destruct (Ho x Hx) as [[(? & ? & ?) ?] ?].
    split; [done|]. by eapply IH.
Qed.

(** Limits that leave room for everything up to size [n]. *)
Definition wide (n : Z) : Limits := {|
  limits_version := 1; max_payload_bytes := n; max_depth := n; max_collection_len := n;
  max_scalar_bytes := n; max_source_bytes := n; max_declarations := n; max_expr_depth := n;
  max_set_cardinality := n; analysis_budget := n; max_frame_payload := n; max_arguments_bytes := n;
  max_result_bytes := n; max_token_bytes := n; max_snapshot_chunk_bytes := n |}.

Lemma Forall_bound {A} (P : Z -> A -> Prop) l :
  (forall (n m : Z) x, n <= m -> P n x -> P m x) -> Forall (fun x => exists n : Z, P n x) l ->
  exists n : Z, Forall (P n) l.
Proof.
  intros Hmono. induction 1 as [|x l [n Hn] _ [m Hm]]; [by exists 0|].
  exists (Z.max n m). constructor; [eapply Hmono; [|done]; lia|].
  eapply Forall_impl; [done|]. intros y Hy. eapply Hmono; [|done]. lia.
Qed.

Definition fits (n : Z) (v : CanonValue) : Prop := forall d, 0 <= d -> canon_ok (wide (n + d)) d v.

Lemma fits_mono (n m : Z) v : n <= m -> fits n v -> fits m v.
Proof. intros Hn H d Hd. eapply canon_ok_mono; [..|by apply H]; cbn; lia. Qed.

Lemma fits_sub (n d : Z) v : 0 <= d -> fits n v -> canon_ok (wide (n + 1 + d)) (d + 1) v.
Proof. intros Hd H. eapply canon_ok_mono; [..|apply (H (d + 1)); lia]; cbn; lia. Qed.

Lemma text_fits s : text_ok s -> exists n : Z, 0 <= n /\ forall m, n <= m -> str_fits (wide m) s.
Proof.
  intros [Hb Hu]. exists (Z.of_nat (length (s ≫= write_byte))). split; [lia|].
  intros m Hm. split_and!; [done..|]. cbn. lia.
Qed.

Lemma canon_wf_fits v : canon_wf v -> exists n : Z, 0 <= n /\ fits n v.
Proof.
  induction v as [|b|s|a IH|o IH]; intros H; inversion H as [| |? Ht|? Ha|? Hs Ho]; subst.
  - exists 0. split; [lia|]. constructor.
  - exists 0. split; [lia|]. constructor.
  - destruct (text_fits s Ht) as (n & Hn & Hf). exists n. split; [done|]. intros d Hd. constructor.
    apply Hf. lia.
  - destruct (Forall_bound fits a) as [n Hn]; [intros; by eapply fits_mono|..].
    { rewrite Forall_forall in *. intros x Hx. destruct (IH x Hx (Ha x Hx)) as (n & _ & ?). eauto. }
    exists (Z.max n 0 + Z.of_nat (length a) + 1). split; [lia|]. intros d Hd. constructor; cbn; [lia..|].
    eapply Forall_impl; [exact Hn|]. intros x Hx.
    eapply canon_ok_mono; [..|eapply fits_sub; [|done]; done]; cbn; lia.
  - destruct (Forall_bound (fun (n : Z) kv => (forall m, n <= m -> str_fits (wide m) (fst kv)) /\ fits n (snd kv)) o)
      as [n Hn].
    { intros n m x Hnm [H1 H2]. split; [intros; apply H1; lia|by eapply fits_mono]. }
    { rewrite Forall_forall in *. intros x Hx. destruct (Ho x Hx) as [[Ht _] Hv].
      destruct (IH x Hx Hv) as (n & ? & Hf). destruct (text_fits _ Ht) as (k & ? & Hk).
      exists (Z.max n k). split; [intros; apply Hk; lia|]. eapply fits_mono; [|done]. lia. }
    exists (Z.max n 0 + Z.of_nat (length o) + 1). split; [lia|]. intros d Hd. constructor; cbn; [lia..|done|].
    rewrite Forall_forall in *. intros x Hx. destruct (Hn x Hx) as [H1 H2]. destruct (Ho x Hx) as [[_ Has] _].
    split; [split; [apply H1; lia|done]|].
    eapply canon_ok_mono; [..|eapply fits_sub; [|done]; done]; cbn; lia.
Qed.

(** The encoding determines a well-formed value. *)
Lemma wf_encode_inj v w : canon_wf v -> canon_wf w -> encode v = encode w -> v = w.
Proof.
  intros (n & Hn & Hv)%canon_wf_fits (m & Hm & Hw)%canon_wf_fits E.
  set (L := Z.max n m + Z.of_nat (length (encode v))).
  apply (encode_inj (wide L)); try done; try (unfold wide; cbn; lia).
  - eapply canon_ok_mono; [..|apply (Hv 0); lia]; cbn; lia.
  - eapply canon_ok_mono; [..|apply (Hw 0); lia]; cbn; lia.
Qed.

(** ** Laws *)

(** [lawful_out valid o]: a computation that does not panic and yields a value
    in range when it succeeds. *)
Definition safe {A} (valid : A -> Prop) (o : CoreResult A) : Prop :=
  match o with Ok a => valid a | Err _ => True | Panic => False end.

Class Lawful {A} (c : pcodec A) (valid : A -> Prop) : Prop := {
  law_project : forall a, valid a -> exists v, project c a = Ok v /\ canon_wf v /\ recover c v = Ok a;
  law_recover : forall v, canon_wf v -> safe valid (recover c v);
}.
#[global] Hint Mode Lawful + + - : typeclass_instances.
Arguments law_project {A} c {valid _} a _.
Arguments law_recover {A} c {valid _} v _.

(** The codec never projects a value to [null], so that an option of it is
    unambiguous. *)
Class NonNull {A} (c : pcodec A) : Prop :=
  non_null : forall a v, project c a = Ok v -> v <> Null.

(** Reading is strict: only the projection of the result is accepted. *)
Class Exact {A} (c : pcodec A) : Prop :=
  exact_recover : forall v a, canon_wf v -> recover c v = Ok a -> project c a = Ok v.
Arguments non_null {A} c {_} a v _.
Arguments exact_recover {A} c {_} v a _ _.

Lemma safe_bind {A B} (P : A -> Prop) (Q : B -> Prop) (o : CoreResult A) (f : A -> CoreResult B) :
  safe P o -> (forall a, o = Ok a -> P a -> safe Q (f a)) -> safe Q (o ≫= f).
Proof. destruct o; cbn; auto. Qed.

Lemma collect_safe {A B} (P : A -> Prop) (Q : B -> Prop) (f : A -> CoreResult B) l :
  Forall P l -> (forall x, P x -> safe Q (f x)) -> safe (Forall Q) (collect f l).
Proof.
  intros Hl Hf. induction Hl as [|x l Hx _ IH]; cbn [collect]; [constructor|].
  eapply safe_bind; [by apply Hf|]. intros y _ Hy. eapply safe_bind; [exact IH|].
  intros ys _ Hys. by constructor.
Qed.

Lemma collect_Ok {A B} (f : A -> CoreResult B) l ys :
  collect f l = Ok ys <-> Forall2 (fun x y => f x = Ok y) l ys.
Proof.
  revert ys; induction l as [|x l IH]; intros ys; cbn [collect].
  - split; [intros [= <-]; constructor|]. by inversion 1.
  - split.
    + intros (y & Hy & (zs & Hzs & [= <-])%bind_ok_inv)%bind_ok_inv. constructor; [done|]. by apply IH.
    + inversion 1 as [|? y ? zs Hy Hzs]; subst. rewrite Hy. cbn. apply IH in Hzs. by rewrite Hzs.
Qed.

(** *** Standard types *)
#[global] Instance p_canon_law : Lawful p_canon canon_wf.
Proof. split; [eauto|done]. Qed.
#[global] Instance p_string_law : Lawful p_string text_ok.
Proof.
  split; [intros s Hs; exists (Str s); split_and!; [done|by constructor|done]|].
  intros [| |s| |] H; cbn; try done. by inversion H.
Qed.
#[global] Instance p_bool_law : Lawful p_bool (fun _ => True).
Proof. split; [intros b _; exists (Bool b); split_and!; [done|constructor|done]|]. by intros [| | | |]. Qed.

Lemma plain_text s : plain s = true -> text_ok s.
Proof. intros H. by apply plain_ok. Qed.

Lemma as_u64_inv v n : as_u64 v = Ok n -> in_u 64 n = true /\ v = cuint n.
Proof.
  unfold as_u64. intros (s & Hs & (x & Hx & H)%bind_ok_inv)%bind_ok_inv.
  destruct v; try done. cbn in Hs. simplify_eq. apply parse_canonical_int_inv in Hx as [_ ->].
  case_in H as E; [done|]. apply ok_or_ok_inv in H. unfold checked_u in H.
  case_in H as E2; [|done]. by simplify_eq.
Qed.

Lemma cuint_wf n : in_u 64 n = true -> canon_wf (cuint n).
Proof. intros H. constructor. apply plain_text. by apply dec_text_u64. Qed.

Lemma accumulate_no_panic l : forall v, accumulate v l <> Panic.
Proof.
  induction l as [|c l IH]; intros v; cbn; [done|].
  destruct (checked_i 128 (v * 10)); cbn; [|done]. destruct (checked_i 128 _); cbn; [apply IH|done].
Qed.
Lemma parse_int_no_panic s : parse_canonical_int s <> Panic.
Proof.
  destruct s as [|b l]; [done|]. unfold parse_canonical_int. destruct (if b =? 45 then _ else _) as [neg ds].
  pose proof (accumulate_no_panic ds 0).
  repeat case_if; try done; by destruct (accumulate 0 ds).
Qed.

Lemma as_u64_safe v : safe (fun n => in_u 64 n = true) (as_u64 v).
Proof.
  destruct (as_u64 v) as [n|e|] eqn:E; cbn [safe]; [by apply as_u64_inv in E as [? _]|done|].
  unfold as_u64 in E. destruct v; cbn in E; try done.
  pose proof (parse_int_no_panic s). destruct (parse_canonical_int s); cbn in E; [|done..]. case_in E as E1; [done|].
  by destruct (checked_u 64 a).
Qed.

#[global] Instance p_u64_law : Lawful p_u64 (fun n => in_u 64 n = true).
Proof.
  split; [|intros; apply as_u64_safe]. intros n Hn. exists (cuint n). split_and!; [done|by apply cuint_wf|].
  by apply as_u64_cuint.
Qed.
#[global] Instance p_u32_law : Lawful p_u32 (fun n => in_u 32 n = true).
Proof.
  split.
  - intros n Hn. exists (cuint n). split_and!; [done| |by apply (u32_codec_law n Hn)].
    apply cuint_wf. eapply in_u_mono; [|done]. lia.
  - intros v _. change (recover p_u32 v) with (as_u32 v). unfold as_u32.
    eapply safe_bind; [apply as_u64_safe|]. intros n _ Hn. unfold checked_u. by destruct (in_u 32 n) eqn:E.
Qed.

Lemma hex_wf b : bytes_ok b -> canon_wf (Str (hex_encode b)).
Proof. intros H. constructor. apply plain_text. by apply hex_plain. Qed.

Lemma hex_decode_safe s : safe bytes_ok (hex_decode s).
Proof.
  destruct (hex_decode s) eqn:E; cbn [safe]; [by apply hex_encode_decode in E as [? _]|done|].
  unfold hex_decode in E. case_in E as E1; [|done]. clear E1. revert E.
  assert (Hn : forall c, nib c <> Panic) by (intros c; unfold nib; by repeat case_if).
  enough (forall n s, (length s <= n)%nat -> hex_pairs s <> Panic) as H by (by apply (H (length s))).
  clear s. induction n as [|n IH]; intros s Hl; [by destruct s; cbn in *; [|lia]|].
  destruct s as [|a [|b s]]; cbn; try done. pose proof (Hn a). pose proof (Hn b).
  destruct (nib a), (nib b); cbn; try done. cbn in Hl. specialize (IH s ltac:(lia)).
  by destruct (hex_pairs s).
Qed.

#[global] Instance p_bytes_law : Lawful p_bytes bytes_ok.
Proof.
  split.
  - intros b Hb. exists (cbytes b). split_and!; [done|by apply hex_wf|by apply bytes_codec_law].
  - intros v _. change (recover p_bytes v) with (as_bytes v). unfold as_bytes.
    destruct v; cbn; try done. apply hex_decode_safe.
Qed.

(** Fixed-width hexadecimal identities, [id128] and the hashes. *)
Definition id_sized (n : nat) (b : bytes) : Prop := bytes_ok b /\ length b = n.

#[global] Instance p_id128_law : Lawful p_id128 (id_sized 16).
Proof.
  split.
  - intros b [Hb Hl]. exists (cbytes b). split_and!; [done|by apply hex_wf|by apply id128_codec_law].
  - intros v _. destruct v; cbn; try done. unfold id128_from_hex.
    eapply safe_bind; [apply hex_decode_safe|]. intros b _ Hb. case_if; [|done]. split; [done|].
    by apply Nat.eqb_eq.
Qed.
#[global] Instance p_hash_law : Lawful p_hash (id_sized 32).
Proof.
  split.
  - intros b [Hb Hl]. exists (cbytes b). split_and!; [done|by apply hex_wf|]. by apply Hash256_from_to_hex.
  - intros v _. destruct v; cbn; try done. unfold Hash256_from_hex.
    eapply safe_bind; [apply hex_decode_safe|]. intros b _ Hb. case_if; [|done]. split; [done|].
    by apply Nat.eqb_eq.
Qed.

#[global] Instance p_string_nonnull : NonNull p_string.
Proof. by intros a v [= <-]. Qed.
#[global] Instance p_u64_nonnull : NonNull p_u64.
Proof. by intros a v [= <-]. Qed.
#[global] Instance p_hash_nonnull : NonNull p_hash.
Proof. by intros a v [= <-]. Qed.

#[global] Instance p_string_exact : Exact p_string.
Proof. by intros [|b|s|l|o] x _ [= <-]. Qed.
#[global] Instance p_u64_exact : Exact p_u64.
Proof. intros v n _ H. apply as_u64_inv in H as [_ ->]. done. Qed.
#[global] Instance p_u32_exact : Exact p_u32.
Proof.
  intros v n _ H. change (recover p_u32 v) with (as_u32 v) in H. unfold as_u32 in H.
  apply bind_ok_inv in H as (m & Hm & H). apply as_u64_inv in Hm as [_ ->].
  apply ok_or_ok_inv in H. unfold checked_u in H. case_in H as E; [|done]. by simplify_eq.
Qed.
#[global] Instance p_bytes_exact : Exact p_bytes.
Proof.
  intros v b _ H. change (recover p_bytes v) with (as_bytes v) in H. unfold as_bytes in H.
  destruct v; cbn in H; try done. apply hex_encode_decode in H as [_ <-]. done.
Qed.
#[global] Instance p_id128_exact : Exact p_id128.
Proof.
  intros v b _ H. destruct v; cbn in H; try done. unfold id128_from_hex in H.
  apply bind_ok_inv in H as (x & Hx & H). case_in H as E; [|done]. simplify_eq.
  apply hex_encode_decode in Hx as [_ <-]. done.
Qed.
#[global] Instance p_hash_exact : Exact p_hash.
Proof.
  intros v b _ H. destruct v; cbn in H; try done. unfold Hash256_from_hex in H.
  apply bind_ok_inv in H as (x & Hx & H). case_in H as E; [|done]. simplify_eq.
  apply hex_encode_decode in Hx as [_ <-]. done.
Qed.

Lemma ascii_text s : bytes_ok s -> is_ascii s = true -> text_ok s.
Proof.
  intros Hb Ha. split; [done|]. induction Hb as [|b s Hb _ IH]; [done|]. cbn in *.
  apply andb_true_iff in Ha as [-> Ha]. auto.
Qed.

Lemma lit_wf s : is_ascii (str s) = true -> canon_wf (Str (str s)).
Proof. intros. constructor. apply ascii_text; [apply str_ok|done]. Qed.

(** The labels of an enum are read back, and anything else is an error. *)
Class LabelOk {A} (label : A -> string) (from_label : bytes -> CoreResult A) : Prop := {
  label_ascii : forall a, is_ascii (str (label a)) = true;
  label_back : forall a, from_label (str (label a)) = Ok a;
  label_total : forall s, from_label s <> Panic;
}.

#[global] Instance p_label_law {A} (label : A -> string) from_label `{!LabelOk label from_label} :
  Lawful (p_label label from_label) (fun _ => True).
Proof.
  split.
  - intros a _. exists (Str (str (label a))). split_and!; [done|by apply lit_wf, (label_ascii a)|].
    cbn. apply label_back.
  - intros v _. destruct v; cbn; try done. pose proof (label_total s). by destruct (from_label s).
Qed.

(** Every table of labels is checked by computation. *)
Ltac label_ok :=
  split; [intros []; reflexivity|intros []; reflexivity
         |intros s; match goal with |- ?f s <> _ => unfold f end; repeat case_if; done].

(** *** Options and sequences *)
Definition opt_ok {A} (P : A -> Prop) (o : option A) : Prop :=
  match o with Some x => P x | None => True end.
#[global] Instance p_option_law {A} (c : pcodec A) valid `{!Lawful c valid} `{!NonNull c} :
  Lawful (p_option c) (opt_ok valid).
Proof.
  split.
  - intros [x|] Hx; [|exists Null; split_and!; [done|constructor|done]].
    destruct (law_project c x Hx) as (v & Hp & Hw & Hr). exists v. split_and!; [done..|].
    pose proof (non_null c x v Hp). cbn. rewrite Hr. by destruct v.
  - intros v Hv. cbn. destruct (is_null v); [done|].
    eapply safe_bind; [by apply (law_recover c)|]. by intros.
Qed.

#[global] Instance p_vec_law {A} (c : pcodec A) valid `{!Lawful c valid} : Lawful (p_vec c) (Forall valid).
Proof.
  split.
  - intros l Hl. assert (Hc : exists vs, Forall2 (fun a v => project c a = Ok v) l vs /\
        Forall canon_wf vs /\ Forall2 (fun v a => recover c v = Ok a) vs l).
    { induction Hl as [|a l Ha _ (vs & H1 & H2 & H3)]; [exists []; split_and!; constructor|].
      destruct (law_project c a Ha) as (v & ? & ? & ?). exists (v :: vs). split_and!; by constructor. }
    destruct Hc as (vs & H1 & H2 & H3). exists (Array vs). cbn.
    rewrite (proj2 (collect_Ok _ _ _) H1). split_and!; [done|by constructor|by apply collect_Ok].
  - intros v Hv. cbn. destruct v; cbn; try done. inversion Hv.
    eapply collect_safe; [done|]. intros. by apply (law_recover c).
Qed.

#[global] Instance p_vec_nonnull {A} (c : pcodec A) : NonNull (p_vec c).
Proof. intros l v H. cbn in H. apply bind_ok_inv in H as (? & _ & [= <-]). done. Qed.

(** *** Sets *)
Class KeyInj {A} (key : A -> list bytes) : Prop := key_inj :: Inj (=) (=) key.

Lemma keys_leb_refl a : keys_leb a a = true.
Proof. induction a; cbn; [done|]. by rewrite bytes_cmp_refl. Qed.
Lemma keys_leb_total a b : keys_leb a b = true \/ keys_leb b a = true.
Proof.
  revert b; induction a as [|x a IH]; intros [|y b]; cbn; auto.
  rewrite (bytes_cmp_antisym x y). destruct (bytes_cmp x y); cbn; auto.
Qed.
Lemma keys_leb_antisym a b : keys_leb a b = true -> keys_leb b a = true -> a = b.
Proof.
  revert b; induction a as [|x a IH]; intros [|y b]; cbn; try done.
  rewrite (bytes_cmp_antisym x y). destruct (bytes_cmp x y) eqn:E; cbn; try done.
  apply bytes_cmp_eq in E as ->. intros. f_equal. auto.
Qed.
Lemma keys_leb_trans a b c : keys_leb a b = true -> keys_leb b c = true -> keys_leb a c = true.
Proof.
  revert b c; induction a as [|x a IH]; intros [|y b] [|z c]; cbn; try done.
  destruct (bytes_cmp x y) eqn:E1; try done; destruct (bytes_cmp y z) eqn:E2; try done.
  - apply bytes_cmp_eq in E1 as ->, E2 as ->. rewrite bytes_cmp_refl. apply IH.
  - apply bytes_cmp_eq in E1 as ->. by rewrite E2.
  - apply bytes_cmp_eq in E2 as ->. by rewrite E1.
  - apply bcmp_lt in E1, E2. pose proof (bytes_ltb_trans _ _ _ E1 E2) as E. apply bcmp_lt in E. by rewrite E.
Qed.

#[global] Instance key_le_trans {A} (key : A -> list bytes) : Transitive (key_le key).
Proof. intros x y z. apply keys_leb_trans. Qed.
#[global] Instance key_le_total {A} (key : A -> list bytes) : Total (key_le key).
Proof. intros x y. apply keys_leb_total. Qed.
#[global] Instance key_le_antisym {A} (key : A -> list bytes) `{!KeyInj key} : AntiSymm (=) (key_le key).
Proof. intros x y H1 H2. apply (inj key). by apply keys_leb_antisym. Qed.

(** The sets of a type: its values in range, each once, in increasing order. *)
Definition set_ok {A} (valid : A -> Prop) (key : A -> list bytes) (l : list A) : Prop :=
  Forall valid l /\ NoDup l /\ Sorted (key_le key) l.

Lemma sort_by_perm {A} (key : A -> list bytes) l : sort_by key l ≡ₚ l.
Proof. apply merge_sort_Permutation. Qed.
Lemma sort_by_sorted {A} (key : A -> list bytes) l : Sorted (key_le key) (sort_by key l).
Proof. apply Sorted_merge_sort, _. Qed.
Lemma sort_by_unique {A} (key : A -> list bytes) `{!KeyInj key} l l' :
  l ≡ₚ l' -> Sorted (key_le key) l' -> sort_by key l = l'.
Proof.
  intros HP HS. apply (Sorted_unique (key_le key)); [apply sort_by_sorted|done|].
  by rewrite sort_by_perm.
Qed.

Lemma project_inj {A} (c : pcodec A) valid `{!Lawful c valid} a b v :
  valid a -> valid b -> project c a = Ok v -> project c b = Ok v -> a = b.
Proof.
  intros (v1 & H1 & _ & R1)%(law_project c) (v2 & H2 & _ & R2)%(law_project c) Ha Hb. congruence.
Qed.

(** Related elements of a duplicate-free list are distinct. *)
Lemma Forall2_distinct {A B K} (R : A -> B -> Prop) (k : B -> K) l ys :
  (forall a b v w, R a v -> R b w -> k v = k w -> a = b) ->
  Forall2 R l ys -> NoDup l -> NoDup (map k ys).
Proof.
  intros Hk H. induction H as [|a y l ys Hay H IH]; cbn; intros Hnd; [constructor|].
  apply NoDup_cons in Hnd as [Hni Hnd]. constructor; [|auto].
  intros (z & Hz & Hin)%list_elem_of_fmap. destruct (list_elem_of_lookup_1 _ _ Hin) as [i Hi].
  destruct (Forall2_lookup_r _ _ _ _ _ H Hi) as (b & Hb & Hbz).
  apply Hni. rewrite (Hk a b y z) by done. by eapply list_elem_of_lookup_2.
Qed.

Lemma set_project {A} (c : pcodec A) key valid `{!Lawful c valid} `{!KeyInj key} l :
  set_ok valid key l ->
  exists v, project (p_set c key) l = Ok v /\ canon_wf v /\ recover (p_set c key) v = Ok l.
Proof.
  intros (Hl & Hnd & Hs).
  assert (Hc : exists vs, Forall2 (fun a v => project c a = Ok v /\ canon_wf v /\ recover c v = Ok a) l vs).
  { clear Hnd Hs. induction Hl as [|a l Ha _ [vs IH]]; [by exists []|].
    destruct (law_project c a Ha) as (v & ?). exists (v :: vs). by constructor. }
  destruct Hc as [vs Hvs].
  assert (Hw : Forall canon_wf vs) by (eapply Forall2_Forall_r; [done|]; by apply Forall_true; intros ? ? (? & ? & ?)).
  destruct (set_distinct vs) as (a & Ea & HP & Has).
  { eapply Forall2_distinct; [|done|done]. intros x y v w (_ & Hv & Rv) (_ & Hw' & Rw) E.
    apply wf_encode_inj in E; [|done..]. congruence. }
  exists (Array a). cbn [project recover p_set].
  rewrite (proj2 (collect_Ok _ _ _) (Forall2_impl _ _ _ _ Hvs (fun _ _ H => proj1 H))).
  cbn [mbind outcome_bind]. rewrite Ea. split_and!; [done|constructor; by rewrite <- HP|]. rewrite Has. cbn [mbind outcome_bind].
  assert (Hr : Forall2 (fun v x => recover c v = Ok x) vs l)
    by (apply Forall2_flip; eapply Forall2_impl; [done|]; by intros ? ? (? & ? & ?)).
  destruct (Permutation_Forall2 HP Hr) as (l' & HP' & Hl').
  rewrite (proj2 (collect_Ok _ _ _) Hl'). cbn. f_equal. by apply sort_by_unique.
Qed.

Lemma set_recover {A} (c : pcodec A) key valid `{!Lawful c valid} `{!Exact c} v :
  canon_wf v -> safe (set_ok valid key) (recover (p_set c key) v).
Proof.
  intros Hv. cbn. unfold as_set. destruct v as [| | |a|]; cbn; try done.
  destruct (set_ordered None a) eqn:Ho; cbn; [|done]. inversion Hv as [| | |? Ha|]; subst.
  apply set_ordered_strict in Ho as (_ & Hnd & _).
  eapply safe_bind; [eapply (collect_safe canon_wf valid); [done|]; intros; by apply (law_recover c)|].
  intros out Hout Hvalid. cbn. split_and!.
  - by rewrite sort_by_perm.
  - rewrite sort_by_perm. apply collect_Ok in Hout. rewrite <- (map_id out).
    eapply (Forall2_distinct (fun v x => canon_wf v /\ recover c v = Ok x)); [| |by eapply NoDup_fmap_1].
    + intros v w x y [Wv Hx] [Ww Hy] <-. apply (exact_recover c) in Hx, Hy; [|done..]. congruence.
    + clear -Ha Hout. induction Hout as [|v x a out Hx _ IH]; [constructor|].
      apply Forall_cons in Ha as [? ?]. constructor; auto.
  - apply sort_by_sorted.
Qed.

#[global] Instance p_set_law {A} (c : pcodec A) key valid `{!Lawful c valid} `{!Exact c} `{!KeyInj key} :
  Lawful (p_set c key) (set_ok valid key).
Proof. split; [intros; by eapply set_project|intros; by eapply set_recover]. Qed.

#[global] Instance p_set_nonnull {A} (c : pcodec A) key : NonNull (p_set c key).
Proof.
  intros l v H. cbn in H. apply bind_ok_inv in H as (vs & _ & H). unfold set in H.
  case_in H as E; by simplify_eq.
Qed.

(** ** Objects built from fields *)
Lemma robj_nonnull l v : robj l = Ok v -> v <> Null.
Proof. unfold robj. by intros (m & _ & [= <-])%bind_ok_inv. Qed.

Definition assoc (k : string) (l : list (string * CanonValue)) : option CanonValue :=
  snd <$> List.find (fun kv => String.eqb k (fst kv)) l.

Lemma assoc_cons k k' v l : assoc k ((k', v) :: l) = if String.eqb k k' then Some v else assoc k l.
Proof. unfold assoc. cbn. by destruct (String.eqb k k'). Qed.

(** Literal field names: ASCII, each once. *)
Fixpoint names_ok (l : list string) : bool :=
  match l with
  | [] => true
  | k :: l' => is_ascii (str k) && negb (existsb (String.eqb k) l') && names_ok l'
  end.

Lemma str_inj a b : str a = str b -> a = b.
Proof.
  revert b; induction a as [|c a IH]; intros [|d b] H; try done. cbn in H. injection H as Hc H.
  f_equal; [|auto]. apply N2Z.inj in Hc.
  by rewrite <- (Ascii.ascii_N_embedding c), <- (Ascii.ascii_N_embedding d), Hc.
Qed.

(** [is_obj kvs v]: [v] is the object with exactly the fields [kvs]. *)
Definition is_obj (kvs : list (string * CanonValue)) (v : CanonValue) : Prop :=
  exists m, v = Object m /\ bsorted m /\
    (forall k, bget (str k) m = assoc k kvs) /\
    Forall (fun kv => exists k, k ∈ map fst kvs /\ fst kv = str k) m.

Definition oks (kvs : list (string * CanonValue)) : list (string * CoreResult CanonValue) :=
  map (fun kv => (fst kv, Ok (snd kv))) kvs.

Lemma assoc_None k kvs : existsb (String.eqb k) (map fst kvs) = false -> assoc k kvs = None.
Proof.
  induction kvs as [|[k' v] kvs IH]; cbn [map existsb fst]; [done|]. intros [H1 H2]%orb_false_iff.
  rewrite assoc_cons, H1. auto.
Qed.

Lemma f_all_spec kvs : forall m, names_ok (map fst kvs) = true -> bsorted m ->
  Forall (fun kv => bget (str (fst kv)) m = None) kvs ->
  exists m', f_all m (oks kvs) = Ok m' /\ bsorted m' /\
    (forall k, bget (str k) m' = match assoc k kvs with Some v => Some v | None => bget (str k) m end) /\
    (forall P, Forall P m -> Forall (fun kv => P (str (fst kv), snd kv)) kvs -> Forall P m').
Proof.
  induction kvs as [|[k v] kvs IH]; intros m Hn Hs Hf.
  { exists m. by cbn. }
  cbn [map names_ok fst] in Hn. apply andb_true_iff in Hn as [[Ha Hk]%andb_true_iff Hn].
  apply negb_true_iff in Hk. apply Forall_cons in Hf as [Hm Hf]. cbn [fst] in Hm.
  cbn [oks map f_all fst snd mbind outcome_bind]. unfold f_. rewrite Ha, Hm. cbn [negb mbind outcome_bind].
  fold (oks kvs). destruct (IH (binsert (str k) v m)) as (m' & E & Hs' & Hg & HP); [done|auto|..].
  { rewrite Forall_forall in *. intros [k' v'] Hin. cbn. rewrite bget_insert_ne; [by apply (Hf _ Hin)|done|].
    intros <-%str_inj. assert (X : existsb (String.eqb k') (map fst kvs) = true); [|congruence].
    apply existsb_exists. exists k'. split; [|by apply String.eqb_eq].
    apply list_elem_of_In. apply list_elem_of_fmap. by exists (k', v'). }
  exists m'. split_and!; [done..| |].
  - intros k0. rewrite Hg, assoc_cons. destruct (String.eqb_spec k0 k) as [->|Hne].
    + rewrite assoc_None by done. by rewrite bget_insert_eq.
    + destruct (assoc k0 kvs); [done|]. rewrite bget_insert_ne; [done|done|]. by intros ?%str_inj.
  - intros P Pm [Pk Pkvs]%Forall_cons. apply HP; [|done]. by apply binsert_Forall.
Qed.

Lemma names_ascii l k : names_ok l = true -> k ∈ l -> is_ascii (str k) = true.
Proof.
  induction l as [|k' l IH]; cbn; [set_solver|]. intros [[Ha _]%andb_true_iff H]%andb_true_iff.
  intros [->|?]%elem_of_cons; auto.
Qed.

Lemma robj_is_obj kvs :
  names_ok (map fst kvs) = true -> Forall (fun kv => canon_wf (snd kv)) kvs ->
  exists v, robj (oks kvs) = Ok v /\ is_obj kvs v /\ canon_wf v.
Proof.
  intros Hn Hw. destruct (f_all_spec kvs [] Hn) as (m & E & Hs & Hg & HP); [done|by apply Forall_true|].
  exists (Object m). unfold robj. rewrite E. split_and!; [done|exists m; split_and!; [done..| |]|].
  - intros k. rewrite Hg. by destruct (assoc k kvs).
  - apply HP; [done|]. apply Forall_forall. intros [k v] Hin. exists k. split; [|done].
    apply list_elem_of_fmap. by exists (k, v).
  - constructor; [done|]. apply HP; [done|]. rewrite Forall_forall in *. intros [k v] Hin. cbn.
    assert (Ha : is_ascii (str k) = true).
    { eapply names_ascii; [done|]. apply list_elem_of_fmap. by exists (k, v). }
    split; [|by apply (Hw _ Hin)]. split; [|done]. apply ascii_text; [apply str_ok|done].
Qed.

Lemma robj_total kvs : names_ok (map fst kvs) = true -> exists v, robj (oks kvs) = Ok v.
Proof.
  intros Hn. destruct (f_all_spec kvs [] Hn) as (m & E & _); [done|by apply Forall_true|].
  exists (Object m). unfold robj. by rewrite E.
Qed.

(** A field added to a built object: [as_object().unwrap().clone()], [insert]. *)
Lemma obj_insert kvs v k x :
  is_obj kvs v -> is_ascii (str k) = true -> canon_wf x -> canon_wf v ->
  exists o, v = Object o /\ is_obj ((k, x) :: kvs) (Object (binsert (str k) x o)) /\
    canon_wf (Object (binsert (str k) x o)).
Proof.
  intros (o & -> & Hs & Hg & Hk) Ha Hx Hv. exists o. split; [done|].
  inversion Hv as [| | | |? _ Ho]; subst. split.
  - exists (binsert (str k) x o). split_and!; [done|by apply binsert_sorted| |].
    + intros k0. rewrite assoc_cons. destruct (String.eqb_spec k0 k) as [->|Hne]; [by rewrite bget_insert_eq|].
      rewrite bget_insert_ne; [apply Hg|done|]. by intros ?%str_inj.
    + apply binsert_Forall; [exists k; split; [left|done]|]. eapply Forall_impl; [exact Hk|].
      intros kv (k0 & ? & ?). exists k0. split; [by right|done].
  - constructor; [by apply binsert_sorted|]. apply binsert_Forall; [|done]. cbn.
    split; [|done]. split; [|done]. apply ascii_text; [apply str_ok|done].
Qed.

(** The names a reader expects are those the object has. *)
Definition names_match (names have : list string) : bool :=
  forallb (fun n => existsb (String.eqb n) have) names && forallb (fun k => existsb (String.eqb k) names) have.

Lemma assoc_Some k kvs : existsb (String.eqb k) (map fst kvs) = true -> exists v, assoc k kvs = Some v.
Proof.
  induction kvs as [|[k' v] kvs IH]; cbn [map existsb fst]; [done|]. rewrite assoc_cons.
  destruct (String.eqb k k'); cbn; eauto.
Qed.

Lemma existsb_eqb k l : existsb (String.eqb k) l = true <-> k ∈ l.
Proof.
  rewrite existsb_exists. split.
  - intros (x & Hx & <-%String.eqb_eq). by apply list_elem_of_In.
  - intros H. exists k. split; [by apply list_elem_of_In|by apply String.eqb_eq].
Qed.

Lemma expect_obj kvs v names :
  is_obj kvs v -> names_match names (map fst kvs) = true -> expect names v = Ok tt.
Proof.
  intros (m & -> & _ & Hg & Hk) [H1 H2]%andb_true_iff. unfold expect, expect_fields. cbn [as_object mbind outcome_bind].
  rewrite forallb_forall in H1, H2.
  rewrite (proj2 (forallb_forall _ m)); cbn [ensure mbind outcome_bind].
  - rewrite (proj2 (forallb_forall _ _)); [done|]. intros x (n & <- & Hn)%in_map_iff.
    rewrite Hg. destruct (assoc_Some n kvs) as [v ->]; [by apply H1|done].
  - intros kv Hin. apply bool_decide_eq_true_2. rewrite Forall_forall in Hk.
    destruct (Hk kv) as (k & Hk' & ->); [by apply list_elem_of_In|].
    apply list_elem_of_In, H2, existsb_eqb in Hk'. apply list_elem_of_fmap. eauto.
Qed.

Lemma get_obj {A} (c : pcodec A) kvs v k x a :
  is_obj kvs v -> assoc k kvs = Some x -> recover c x = Ok a -> get k c v = Ok a.
Proof.
  intros (m & -> & _ & Hg & _) Ha Hr. unfold get, field. cbn [as_object mbind outcome_bind].
  rewrite Hg, Ha. cbn. done.
Qed.

Lemma field_safe k v : canon_wf v -> safe canon_wf (field k v).
Proof.
  intros Hv. unfold field. destruct v as [| | | |o]; cbn; try done. inversion Hv as [| | | |? Hs Ho]; subst.
  destruct (bget k o) as [x|] eqn:E; cbn; [|done]. apply bget_In in E. rewrite Forall_forall in Ho.
  by apply Ho in E as [_ ?].
Qed.

Lemma get_safe {A} (c : pcodec A) valid `{!Lawful c valid} k v : canon_wf v -> safe valid (get k c v).
Proof.
  intros Hv. unfold get. eapply safe_bind; [by apply field_safe|]. intros x _ Hx. by apply law_recover.
Qed.

Lemma expect_safe names v : safe (fun _ => True) (expect names v).
Proof.
  unfold expect, expect_fields. destruct v; cbn; try done.
  destruct (forallb _ o); cbn; [|done]. by destruct (forallb _ _).
Qed.

Lemma bmap_ext {V} (m1 m2 : bmap V) :
  bsorted m1 -> bsorted m2 -> (forall k, bget k m1 = bget k m2) -> m1 = m2.
Proof.
  revert m2; induction m1 as [|[k v] m1 IH]; intros [|[k' v'] m2] H1 H2 Hg; [done|..].
  - specialize (Hg k'). cbn in Hg. by rewrite bytes_cmp_refl in Hg.
  - specialize (Hg k). cbn in Hg. by rewrite bytes_cmp_refl in Hg.
  - destruct H1 as [L1 S1], H2 as [L2 S2].
    assert (k = k' /\ v = v') as [<- <-].
    { pose proof (Hg k) as G1. pose proof (Hg k') as G2. cbn in G1, G2. rewrite bytes_cmp_refl in G1, G2.
      rewrite (bytes_cmp_antisym k k') in G2. destruct (bytes_cmp k k') eqn:E; cbn in G2; try done.
      apply bytes_cmp_eq in E. by simplify_eq. }
    f_equal. apply IH; [done..|]. intros k0. specialize (Hg k0). cbn in Hg.
    destruct (bytes_cmp k0 k) eqn:E; [|clear Hg|done].
    + apply bytes_cmp_eq in E as ->. by rewrite !bget_below.
    + apply bcmp_lt in E. rewrite !bget_below; [done|..]; (eapply Forall_impl; [eassumption|]);
        intros ? ?; by eapply bytes_ltb_trans.
Qed.

(** A strict reader accepts one spelling: an object whose names are those
    expected is rebuilt from its fields. *)
Lemma robj_exact names v kvs :
  canon_wf v -> expect names v = Ok tt ->
  names_ok (map fst kvs) = true -> names_match names (map fst kvs) = true ->
  Forall (fun kv => field (str (fst kv)) v = Ok (snd kv)) kvs -> robj (oks kvs) = Ok v.
Proof.
  intros Hw He Hn Hm Hf. destruct v as [| | | |o]; try done. inversion Hw as [| | | |? Hs _]; subst.
  destruct (f_all_spec kvs [] Hn) as (m & E & Hs' & Hg & HP); [done|by apply Forall_true|].
  unfold robj. rewrite E. cbn [mbind outcome_bind]. do 2 f_equal. apply bmap_ext; [done..|]. intros k.
  unfold expect, expect_fields in He. cbn [as_object mbind outcome_bind] in He.
  apply bind_ok_inv in He as (u & Ho%ensure_ok_inv & _).
  assert (HK : Forall (fun kv => exists n, n ∈ map fst kvs /\ fst kv = str n) m).
  { apply HP; [done|]. apply Forall_forall. intros [n x] Hin. exists n. split; [|done].
    apply list_elem_of_fmap. by exists (n, x). }
  apply andb_true_iff in Hm as [Hm1 Hm2]. rewrite forallb_forall in Hm1, Ho.
  assert (Hfind : forall n, n ∈ map fst kvs -> exists x, assoc n kvs = Some x /\ bget (str n) o = Some x).
  { clear -Hf. induction Hf as [|[n x] kvs Hx _ IH]; intros n0; cbn [map fst]; [set_solver|].
    intros Hin. rewrite assoc_cons. destruct (String.eqb_spec n0 n) as [->|Hne].
    - exists x. split; [done|]. unfold field in Hx. cbn in Hx. by apply ok_or_ok_inv in Hx.
    - apply elem_of_cons in Hin as [|Hin]; [done|]. by apply IH. }
  destruct (decide (k ∈ map str (map fst kvs))) as [Hin|Hno].
  - apply list_elem_of_fmap in Hin as (n & -> & Hin). destruct (Hfind n Hin) as (x & Hx & ->). by rewrite Hg, Hx.
  - assert (H1 : bget k m = None).
    { destruct (bget k m) as [x|] eqn:Ek; [|done]. apply bget_In in Ek. rewrite Forall_forall in HK.
      destruct Hno, (HK _ Ek) as (n & ? & ?). apply list_elem_of_fmap. eauto. }
    rewrite H1. destruct (bget k o) as [x|] eqn:Ek; [|done]. apply bget_In, list_elem_of_In in Ek.
    specialize (Ho _ Ek). apply bool_decide_eq_true_1, list_elem_of_fmap in Ho as (n & Hk & Hin%list_elem_of_In).
    destruct Hno. apply list_elem_of_fmap. exists n. split; [exact Hk|].
    apply existsb_eqb. by apply Hm1.
Qed.

Lemma get_exact {A} (c : pcodec A) `{!Exact c} k v a :
  canon_wf v -> get k c v = Ok a -> exists x, field (str k) v = Ok x /\ project c a = Ok x.
Proof.
  intros Hw (x & Hf & Hr)%bind_ok_inv. exists x. split; [done|]. apply (exact_recover c x); [|done].
  pose proof (field_safe (str k) v Hw) as H. by rewrite Hf in H.
Qed.

(** ** Proof automation for record types

    [project_law] proves the first half of [Lawful] for a struct or an enum
    whose definitions have been unfolded, [recover_law] the second,
    [exact_law] proves [Exact]. *)
Ltac oks_of l :=
  lazymatch l with
  | nil => constr:(@nil (string * CanonValue))
  | cons (?k, Ok ?v) ?l' => let r := oks_of l' in constr:(cons (k, v) r)
  | cons (?k, lit ?s) ?l' => let r := oks_of l' in constr:(cons (k, Str (str s)) r)
  end.

Ltac project_fields :=
  repeat match goal with
  | |- context [project ?c ?x] =>
      let v := fresh "v" in let Hp := fresh "Hp" in let Hw := fresh "Hw" in let Hr := fresh "Hr" in
      destruct (law_project c x) as (v & Hp & Hw & Hr); [solve [assumption | done]|]; rewrite Hp; clear Hp
  end.

Ltac build_obj :=
  match goal with
  | |- exists v, robj ?l = Ok v /\ _ =>
      let kvs := oks_of l in
      let v := fresh "v" in let E := fresh "E" in let O := fresh "O" in let W := fresh "W" in
      destruct (robj_is_obj kvs) as (v & E & O & W);
      [ reflexivity
      | repeat apply Forall_cons_2; try apply Forall_nil_2; cbn [snd];
        first [assumption | apply lit_wf; reflexivity | constructor; done]
      | exists v; split; [exact E|split; [exact W|]]; clear E W ]
  end.

Ltac read_obj :=
  repeat match goal with
  | O : is_obj ?kvs ?v |- context [expect ?names ?v] =>
      rewrite (expect_obj kvs v names O eq_refl); cbn [mbind outcome_bind]
  | O : is_obj ?kvs ?v |- context [get ?k ?c ?v] =>
      erewrite (get_obj c kvs v k) by first [exact O | eassumption | reflexivity]; cbn [mbind outcome_bind]
  end.

Ltac project_law := project_fields; build_obj; read_obj.

Ltac recover_law :=
  repeat match goal with
  | |- safe _ (Ok _) => cbn [safe]
  | |- safe _ (Err _) => exact I
  | |- safe _ (let _ := _ in _) => cbv zeta
  | |- safe _ (expect _ _ ≫= _) => eapply safe_bind; [apply expect_safe|intros _ _ _]
  | W : canon_wf ?v |- safe _ (get _ ?c ?v ≫= _) =>
      eapply safe_bind; [eapply (get_safe c _); exact W|];
      let a := fresh "a" in let Ha := fresh "Ha" in intros a _ Ha
  end.

(** [record_law p to from ok]: [Lawful p ok] for a struct ([destruct] its range
    predicate) or an enum (first the case of its constructor). *)
Ltac head t := lazymatch t with ?f _ => head f | _ => t end.

Ltac start_project p to from ok :=
  let a := fresh "a" in let H := fresh "H" in
  intros a H; change (project p a) with (to a); change (recover p) with from;
  let t := head to in let f := head from in let o := head ok in unfold t, f; unfold o in H.

Ltac kind_tests :=
  repeat match goal with
  | |- context [bool_decide (str ?x = str ?y)] =>
      let r := eval vm_compute in (bool_decide (str x = str y)) in
      change (bool_decide (str x = str y)) with r; cbv iota
  | |- context [get "kind" p_string _] => progress read_obj
  end.

Ltac struct_law p to from ok :=
  split;
  [ start_project p to from ok;
    match goal with |- exists v, _ = _ /\ _ /\ _ = Ok ?a => destruct_and?; project_law; by destruct a end
  | let v := fresh "v" in let W := fresh "W" in
    intros v W; change (recover p) with from; let f := head from in unfold f; recover_law;
    let o := head ok in unfold o; split_and?; first [assumption | exact I] ].

(** The same for a record whose reader ends with [r.verify()?], the last
    conjunct of its range; [total] shows that the check does not panic. *)
Ltac checked_law p to from ok verify total :=
  split;
  [ start_project p to from ok;
    match goal with |- exists v, _ = _ /\ _ /\ _ = Ok ?a =>
      destruct_and?; project_law; cbv zeta;
      match goal with Hv : verify a = Ok tt |- context [verify ?r] =>
        replace r with a by (by destruct a); rewrite Hv; reflexivity
      end
    end
  | let v := fresh "v" in let W := fresh "W" in
    intros v W; change (recover p) with from; let f := head from in unfold f; recover_law;
    let u := fresh "u" in let Hu := fresh "Hu" in
    eapply (safe_bind (fun _ => True)); [apply total|intros u Hu _];
    destruct u; cbn [safe]; let o := head ok in unfold o; split_and?; first [assumption | exact I] ].

Ltac enum_law p to from ok :=
  split;
  [ start_project p to from ok;
    match goal with |- exists v, _ = _ /\ _ /\ _ = Ok ?a =>
      destruct a; cbv iota in *; destruct_and?; project_fields; build_obj; kind_tests; read_obj; reflexivity
    end
  | let v := fresh "v" in let W := fresh "W" in
    intros v W; change (recover p) with from; let f := head from in unfold f;
    repeat (recover_law; match goal with |- safe _ (if ?b then _ else _) => destruct b end); recover_law; let o := head ok in cbn [o]; split_and?; first [assumption | exact I] ].

Ltac exact_law p to from :=
  let v := fresh "v" in let a := fresh "a" in let W := fresh "W" in let H := fresh "H" in
  intros v a W H; change (recover p v) with (from v) in H; change (project p a) with (to a);
  let t := head to in let f := head from in unfold f in H; unfold t;
  repeat match type of H with
  | (expect ?names v ≫= _) = Ok _ =>
      let u := fresh "u" in let He := fresh "He" in
      apply bind_ok_inv in H as (u & He & H); destruct u
  | (get ?k ?c v ≫= _) = Ok _ =>
      let x := fresh "x" in let Hx := fresh "Hx" in let y := fresh "y" in
      let Hf := fresh "Hf" in let Hp := fresh "Hp" in
      apply bind_ok_inv in H as (x & Hx & H);
      apply (get_exact c k v x W) in Hx as (y & Hf & Hp)
  end;
  injection H as <-;
  repeat match goal with
  | Hp : project ?c ?x = Ok _ |- context [project ?c ?t] => change (project c t) with (project c x); rewrite Hp; clear Hp
  end;
  match goal with
  | He : expect ?names v = Ok tt |- robj ?l = Ok v =>
      let kvs := oks_of l in
      apply (robj_exact names v kvs W He eq_refl eq_refl);
      repeat apply Forall_cons_2; try apply Forall_nil_2; cbn [fst snd]; assumption
  end.

(** ** Decoding *)

(** What the law gives to every decoder: bytes from outside never make it
    panic, an accepted input is the encoding of a value in range. *)
Lemma decode_p_safe {A} (c : pcodec A) valid `{!Lawful c valid} lim bs :
  0 <= max_collection_len lim -> bytes_ok bs ->
  safe (fun a => valid a /\ encode_p c a = Ok bs) (decode_p c lim bs).
Proof.
  intros Hm Hb. pose proof (decode_total lim bs Hm Hb). unfold decode_p, encode_p.
  destruct (decode lim bs) as [v|e|] eqn:E; cbn; [|done|done].
  apply decode_sound in E as (-> & Hok & _); [|done..]. apply canon_ok_wf in Hok.
  eapply safe_bind; [by apply (law_recover c)|]. intros a _ Ha.
  destruct (law_project c a Ha) as (w & Hp & _). rewrite Hp. cbn.
  destruct (bool_decide (w = v)) eqn:Ew; cbn; [|done]. apply bool_decide_eq_true_1 in Ew as ->.
  split; [done|]. by rewrite Hp.
Qed.

(** A value in range survives encoding and decoding, under limits its
    projection respects. *)
Lemma decode_p_encode {A} (c : pcodec A) valid `{!Lawful c valid} lim a :
  0 <= max_collection_len lim -> valid a ->
  exists v, project c a = Ok v /\ encode_p c a = Ok (encode v) /\
    (canon_ok lim 0 v -> Z.of_nat (length (encode v)) <= max_payload_bytes lim ->
     decode_p c lim (encode v) = Ok a).
Proof.
  intros Hm Ha. destruct (law_project c a Ha) as (v & Hp & Hw & Hr). exists v.
  unfold encode_p, decode_p. rewrite Hp. split_and!; [done..|]. intros Hok Hl.
  rewrite decode_canonical; [|done|by eapply canon_ok_bytes|done|done]. cbn. rewrite Hr. cbn.
  rewrite Hp. cbn. by rewrite bool_decide_eq_true_2.
Qed.

(** Two different values in range have different encodings: a digest of the
    encoding commits to the value. *)
Lemma encode_p_inj {A} (c : pcodec A) valid `{!Lawful c valid} a b bs :
  valid a -> valid b -> encode_p c a = Ok bs -> encode_p c b = Ok bs -> a = b.
Proof.
  intros Ha Hb (v & Hv & [= Ev])%bind_ok_inv (w & Hw & [= Ew])%bind_ok_inv.
  destruct (law_project c a Ha) as (v' & Hp & Wv & Rv), (law_project c b Hb) as (w' & Hq & Ww & Rw).
  assert (v = w) by (apply wf_encode_inj; congruence). congruence.
Qed.
