(* ===== verification/Ids.v ===== *)
(** * Composite identities (src/crates/carolina-core/src/ids.rs)

    The 128-bit identities, the 64-bit generations and epochs and the hashes
    are newtypes over byte arrays and integers; here they are [bytes] and [Z]
    with the codecs [p_id128], [p_u64] and [p_hash].  The composite identities
    are records; the order in which they are kept in sets is the derived order
    of their fields, given by a key per type. *)

From S2P Require Import Prelude ByteMap Errors Hex Canon CanonRoundtrip CanonInt CanonTyped CanonRecord.

(** ** [RequestKey] *)
Record RequestKey : Type := MkRequestKey {
  rk_tenant_id : bytes;
  rk_request_namespace : bytes;
  rk_stable_request_id : bytes;
}.
#[global] Instance RequestKey_eq_dec : EqDecision RequestKey.
Proof. solve_decision. Defined.

Definition RequestKey_to_canon (k : RequestKey) : CoreResult CanonValue :=
  robj [("request_namespace", project p_id128 (rk_request_namespace k));
        ("stable_request_id", project p_id128 (rk_stable_request_id k));
        ("tenant_id", project p_id128 (rk_tenant_id k))].
Definition RequestKey_from_canon (v : CanonValue) : CoreResult RequestKey :=
  expect ["request_namespace"; "stable_request_id"; "tenant_id"] v ≫= fun _ =>
  t ← get "tenant_id" p_id128 v;
  n ← get "request_namespace" p_id128 v;
  r ← get "stable_request_id" p_id128 v;
  Ok (MkRequestKey t n r).
Definition p_RequestKey : pcodec RequestKey := PCodec RequestKey_to_canon RequestKey_from_canon.

(** ** [TxnId]: home, epoch and sequence, concatenated big-endian *)
Definition TxnId_new (home : bytes) (epoch seq : Z) : bytes :=
  home ++ be_encode 8 epoch ++ be_encode 8 seq.
Definition TxnId_home (t : bytes) : bytes := firstn 16 t.
Definition TxnId_epoch (t : bytes) : Z := be_decode (firstn 8 (skipn 16 t)).
Definition TxnId_seq (t : bytes) : Z := be_decode (firstn 8 (skipn 24 t)).
Definition TxnId_to_hex (t : bytes) : bytes := hex_encode t.
Definition TxnId_from_hex (s : bytes) : CoreResult bytes :=
  b ← hex_decode s; if (length b =? 32)%nat then Ok b else Err NonCanonicalEncoding.
Definition p_TxnId : pcodec bytes :=
  PCodec (fun t => Ok (Str (TxnId_to_hex t))) (fun v => s ← as_str v; TxnId_from_hex s).

(** ** [OperationRef] *)
Record OperationRef : Type := MkOperationRef {
  op_operation_id : Z;
  op_version : Z;
}.
#[global] Instance OperationRef_eq_dec : EqDecision OperationRef.
Proof. solve_decision. Defined.

Definition OperationRef_to_canon (o : OperationRef) : CoreResult CanonValue :=
  robj [("operation_id", project p_u64 (op_operation_id o));
        ("version", project p_u32 (op_version o))].
Definition OperationRef_from_canon (v : CanonValue) : CoreResult OperationRef :=
  expect ["operation_id"; "version"] v ≫= fun _ =>
  i ← get "operation_id" p_u64 v;
  n ← get "version" p_u32 v;
  Ok (MkOperationRef i n).
Definition p_OperationRef : pcodec OperationRef := PCodec OperationRef_to_canon OperationRef_from_canon.

(** ** [IdcBinding] *)
Record IdcBinding : Type := MkIdcBinding {
  idc_id : bytes;
  idc_generation : Z;
  idc_authority_epoch : Z;
}.
#[global] Instance IdcBinding_eq_dec : EqDecision IdcBinding.
Proof. solve_decision. Defined.

Definition IdcBinding_to_canon (b : IdcBinding) : CoreResult CanonValue :=
  robj [("authority_epoch", project p_u64 (idc_authority_epoch b));
        ("idc_generation", project p_u64 (idc_generation b));
        ("idc_id", project p_id128 (idc_id b))].
Definition IdcBinding_from_canon (v : CanonValue) : CoreResult IdcBinding :=
  expect ["authority_epoch"; "idc_generation"; "idc_id"] v ≫= fun _ =>
  i ← get "idc_id" p_id128 v;
  g ← get "idc_generation" p_u64 v;
  e ← get "authority_epoch" p_u64 v;
  Ok (MkIdcBinding i g e).
Definition p_IdcBinding : pcodec IdcBinding := PCodec IdcBinding_to_canon IdcBinding_from_canon.
Definition IdcBinding_key (b : IdcBinding) : list bytes :=
  [idc_id b; [idc_generation b]; [idc_authority_epoch b]].

(** ** [PlanRef] *)
Record PlanRef : Type := MkPlanRef {
  pl_plan_id : bytes;
  pl_generation : Z;
  pl_hash : bytes;
}.
#[global] Instance PlanRef_eq_dec : EqDecision PlanRef.
Proof. solve_decision. Defined.

Definition PlanRef_to_canon (p : PlanRef) : CoreResult CanonValue :=
  robj [("generation", project p_u64 (pl_generation p));
        ("hash", project p_hash (pl_hash p));
        ("plan_id", project p_id128 (pl_plan_id p))].
Definition PlanRef_from_canon (v : CanonValue) : CoreResult PlanRef :=
  expect ["generation"; "hash"; "plan_id"] v ≫= fun _ =>
  i ← get "plan_id" p_id128 v;
  g ← get "generation" p_u64 v;
  h ← get "hash" p_hash v;
  Ok (MkPlanRef i g h).
Definition p_PlanRef : pcodec PlanRef := PCodec PlanRef_to_canon PlanRef_from_canon.
Definition PlanRef_key (p : PlanRef) : list bytes := [pl_plan_id p; [pl_generation p]; pl_hash p].

(** ** [OriginId] *)
Record OriginId : Type := MkOriginId {
  or_node_id : bytes;
  or_origin_epoch : Z;
  or_origin_seq : Z;
}.
#[global] Instance OriginId_eq_dec : EqDecision OriginId.
Proof. solve_decision. Defined.

Definition OriginId_to_canon (o : OriginId) : CoreResult CanonValue :=
  robj [("node_id", project p_id128 (or_node_id o));
        ("origin_epoch", project p_u64 (or_origin_epoch o));
        ("origin_seq", project p_u64 (or_origin_seq o))].
Definition OriginId_from_canon (v : CanonValue) : CoreResult OriginId :=
  expect ["node_id"; "origin_epoch"; "origin_seq"] v ≫= fun _ =>
  n ← get "node_id" p_id128 v;
  e ← get "origin_epoch" p_u64 v;
  s ← get "origin_seq" p_u64 v;
  Ok (MkOriginId n e s).
Definition p_OriginId : pcodec OriginId := PCodec OriginId_to_canon OriginId_from_canon.
Definition OriginId_key (o : OriginId) : list bytes :=
  [or_node_id o; [or_origin_epoch o]; [or_origin_seq o]].

(** ** [ResourceRef] and [HolderRef] *)
Record ResourceRef : Type := MkResourceRef {
  rr_invariant_id : Z;
  rr_resource_key : bytes;
  rr_resource_generation : Z;
}.
Definition ResourceRef_to_canon (r : ResourceRef) : CoreResult CanonValue :=
  robj [("invariant_id", project p_u64 (rr_invariant_id r));
        ("resource_generation", project p_u64 (rr_resource_generation r));
        ("resource_key", project p_bytes (rr_resource_key r))].
Definition ResourceRef_from_canon (v : CanonValue) : CoreResult ResourceRef :=
  expect ["invariant_id"; "resource_generation"; "resource_key"] v ≫= fun _ =>
  i ← get "invariant_id" p_u64 v;
  k ← get "resource_key" p_bytes v;
  g ← get "resource_generation" p_u64 v;
  Ok (MkResourceRef i k g).
Definition p_ResourceRef : pcodec ResourceRef := PCodec ResourceRef_to_canon ResourceRef_from_canon.

Record HolderRef : Type := MkHolderRef {
  hr_holder_id : bytes;
  hr_authority_epoch : Z;
}.
Definition HolderRef_to_canon (h : HolderRef) : CoreResult CanonValue :=
  robj [("authority_epoch", project p_u64 (hr_authority_epoch h));
        ("holder_id", project p_id128 (hr_holder_id h))].
Definition HolderRef_from_canon (v : CanonValue) : CoreResult HolderRef :=
  expect ["authority_epoch"; "holder_id"] v ≫= fun _ =>
  i ← get "holder_id" p_id128 v;
  e ← get "authority_epoch" p_u64 v;
  Ok (MkHolderRef i e).
Definition p_HolderRef : pcodec HolderRef := PCodec HolderRef_to_canon HolderRef_from_canon.

(** ** [AuthorityBinding] *)
Inductive AuthorityBinding : Type :=
| ABIdc (authority_id : bytes) (idc : IdcBinding)
| ABHolder (resource : ResourceRef) (escrow_epoch : Z) (holder_id : bytes) (epoch : Z)
| ABRequestHome (home_id : bytes) (epoch : Z).

Definition AuthorityBinding_to_canon (a : AuthorityBinding) : CoreResult CanonValue :=
  match a with
  | ABIdc authority_id idc =>
      robj [("authority_id", project p_id128 authority_id);
            ("idc", project p_IdcBinding idc);
            ("kind", lit "idc")]
  | ABHolder resource escrow_epoch holder_id epoch =>
      robj [("epoch", project p_u64 epoch);
            ("escrow_epoch", project p_u64 escrow_epoch);
            ("holder_id", project p_id128 holder_id);
            ("kind", lit "holder");
            ("resource", project p_ResourceRef resource)]
  | ABRequestHome home_id epoch =>
      robj [("epoch", project p_u64 epoch);
            ("home_id", project p_id128 home_id);
            ("kind", lit "request_home")]
  end.
Definition AuthorityBinding_from_canon (v : CanonValue) : CoreResult AuthorityBinding :=
  k ← get "kind" p_string v;
  if bool_decide (k = str "idc") then
    expect ["authority_id"; "idc"; "kind"] v ≫= fun _ =>
    a ← get "authority_id" p_id128 v;
    i ← get "idc" p_IdcBinding v;
    Ok (ABIdc a i)
  else if bool_decide (k = str "holder") then
    expect ["epoch"; "escrow_epoch"; "holder_id"; "kind"; "resource"] v ≫= fun _ =>
    r ← get "resource" p_ResourceRef v;
    ee ← get "escrow_epoch" p_u64 v;
    h ← get "holder_id" p_id128 v;
    e ← get "epoch" p_u64 v;
    Ok (ABHolder r ee h e)
  else if bool_decide (k = str "request_home") then
    expect ["epoch"; "home_id"; "kind"] v ≫= fun _ =>
    h ← get "home_id" p_id128 v;
    e ← get "epoch" p_u64 v;
    Ok (ABRequestHome h e)
  else Err NonCanonicalEncoding.
Definition p_AuthorityBinding : pcodec AuthorityBinding :=
  PCodec AuthorityBinding_to_canon AuthorityBinding_from_canon.

(** ** [ProtocolRecordRef] *)
Record ProtocolRecordRef : Type := MkProtocolRecordRef {
  pr_record_kind : bytes;
  pr_record_version : Z;
  pr_record_key : bytes;
  pr_payload_hash : bytes;
}.
#[global] Instance ProtocolRecordRef_eq_dec : EqDecision ProtocolRecordRef.
Proof. solve_decision. Defined.

Definition ProtocolRecordRef_to_canon (r : ProtocolRecordRef) : CoreResult CanonValue :=
  robj [("payload_hash", project p_hash (pr_payload_hash r));
        ("record_key", project p_bytes (pr_record_key r));
        ("record_kind", project p_string (pr_record_kind r));
        ("record_version", project p_u32 (pr_record_version r))].
Definition ProtocolRecordRef_from_canon (v : CanonValue) : CoreResult ProtocolRecordRef :=
  expect ["payload_hash"; "record_key"; "record_kind"; "record_version"] v ≫= fun _ =>
  k ← get "record_kind" p_string v;
  n ← get "record_version" p_u32 v;
  b ← get "record_key" p_bytes v;
  h ← get "payload_hash" p_hash v;
  Ok (MkProtocolRecordRef k n b h).
Definition p_ProtocolRecordRef : pcodec ProtocolRecordRef :=
  PCodec ProtocolRecordRef_to_canon ProtocolRecordRef_from_canon.
Definition ProtocolRecordRef_key (r : ProtocolRecordRef) : list bytes :=
  [pr_record_kind r; [pr_record_version r]; pr_record_key r; pr_payload_hash r].

(** ** [ConsistencyClass] *)
Inductive ConsistencyClass : Type :=
| C0Local | C1Commutative | C2Causal | C3Escrow | C4Certified | C5Serial.
#[global] Instance ConsistencyClass_eq_dec : EqDecision ConsistencyClass.
Proof. solve_decision. Defined.

Definition ConsistencyClass_label (c : ConsistencyClass) : string :=
  match c with
  | C0Local => "C0_LOCAL" | C1Commutative => "C1_COMMUTATIVE" | C2Causal => "C2_CAUSAL"
  | C3Escrow => "C3_ESCROW" | C4Certified => "C4_CERTIFIED" | C5Serial => "C5_SERIAL"
  end.
Definition ConsistencyClass_from_label (s : bytes) : CoreResult ConsistencyClass :=
  if bool_decide (s = str "C0_LOCAL") then Ok C0Local
  else if bool_decide (s = str "C1_COMMUTATIVE") then Ok C1Commutative
  else if bool_decide (s = str "C2_CAUSAL") then Ok C2Causal
  else if bool_decide (s = str "C3_ESCROW") then Ok C3Escrow
  else if bool_decide (s = str "C4_CERTIFIED") then Ok C4Certified
  else if bool_decide (s = str "C5_SERIAL") then Ok C5Serial
  else Err NonCanonicalEncoding.
Definition p_ConsistencyClass : pcodec ConsistencyClass :=
  p_label ConsistencyClass_label ConsistencyClass_from_label.

(** ** Ranges *)
Abbreviation u64_in := (fun n => in_u 64 n = true).
Abbreviation u32_in := (fun n => in_u 32 n = true).

Definition RequestKey_ok (k : RequestKey) : Prop :=
  id_sized 16 (rk_tenant_id k) /\ id_sized 16 (rk_request_namespace k) /\
  id_sized 16 (rk_stable_request_id k).
Definition OperationRef_ok (o : OperationRef) : Prop :=
  in_u 64 (op_operation_id o) = true /\ in_u 32 (op_version o) = true.
Definition IdcBinding_ok (b : IdcBinding) : Prop :=
  id_sized 16 (idc_id b) /\ in_u 64 (idc_generation b) = true /\ in_u 64 (idc_authority_epoch b) = true.
Definition PlanRef_ok (p : PlanRef) : Prop :=
  id_sized 16 (pl_plan_id p) /\ in_u 64 (pl_generation p) = true /\ id_sized 32 (pl_hash p).
Definition OriginId_ok (o : OriginId) : Prop :=
  id_sized 16 (or_node_id o) /\ in_u 64 (or_origin_epoch o) = true /\ in_u 64 (or_origin_seq o) = true.
Definition ResourceRef_ok (r : ResourceRef) : Prop :=
  in_u 64 (rr_invariant_id r) = true /\ bytes_ok (rr_resource_key r) /\
  in_u 64 (rr_resource_generation r) = true.
Definition HolderRef_ok (h : HolderRef) : Prop :=
  id_sized 16 (hr_holder_id h) /\ in_u 64 (hr_authority_epoch h) = true.
Definition AuthorityBinding_ok (a : AuthorityBinding) : Prop :=
  match a with
  | ABIdc i b => id_sized 16 i /\ IdcBinding_ok b
  | ABHolder r ee h e => ResourceRef_ok r /\ in_u 64 ee = true /\ id_sized 16 h /\ in_u 64 e = true
  | ABRequestHome h e => id_sized 16 h /\ in_u 64 e = true
  end.
Definition ProtocolRecordRef_ok (r : ProtocolRecordRef) : Prop :=
  text_ok (pr_record_kind r) /\ in_u 32 (pr_record_version r) = true /\
  bytes_ok (pr_record_key r) /\ id_sized 32 (pr_payload_hash r).

(** ** Laws *)

#[global] Instance p_RequestKey_law : Lawful p_RequestKey RequestKey_ok.
Proof. struct_law p_RequestKey RequestKey_to_canon RequestKey_from_canon RequestKey_ok. Qed.
#[global] Instance p_OperationRef_law : Lawful p_OperationRef OperationRef_ok.
Proof. struct_law p_OperationRef OperationRef_to_canon OperationRef_from_canon OperationRef_ok. Qed.
#[global] Instance p_IdcBinding_law : Lawful p_IdcBinding IdcBinding_ok.
Proof. struct_law p_IdcBinding IdcBinding_to_canon IdcBinding_from_canon IdcBinding_ok. Qed.
#[global] Instance p_PlanRef_law : Lawful p_PlanRef PlanRef_ok.
Proof. struct_law p_PlanRef PlanRef_to_canon PlanRef_from_canon PlanRef_ok. Qed.
#[global] Instance p_OriginId_law : Lawful p_OriginId OriginId_ok.
Proof. struct_law p_OriginId OriginId_to_canon OriginId_from_canon OriginId_ok. Qed.
#[global] Instance p_ResourceRef_law : Lawful p_ResourceRef ResourceRef_ok.
Proof. struct_law p_ResourceRef ResourceRef_to_canon ResourceRef_from_canon ResourceRef_ok. Qed.
#[global] Instance p_HolderRef_law : Lawful p_HolderRef HolderRef_ok.
Proof. struct_law p_HolderRef HolderRef_to_canon HolderRef_from_canon HolderRef_ok. Qed.
#[global] Instance p_ProtocolRecordRef_law : Lawful p_ProtocolRecordRef ProtocolRecordRef_ok.
Proof. struct_law p_ProtocolRecordRef ProtocolRecordRef_to_canon ProtocolRecordRef_from_canon ProtocolRecordRef_ok. Qed.
#[global] Instance p_AuthorityBinding_law : Lawful p_AuthorityBinding AuthorityBinding_ok.
Proof. enum_law p_AuthorityBinding AuthorityBinding_to_canon AuthorityBinding_from_canon AuthorityBinding_ok. Qed.
#[global] Instance ConsistencyClass_label_ok : LabelOk ConsistencyClass_label ConsistencyClass_from_label.
Proof. label_ok. Qed.
#[global] Instance p_TxnId_law : Lawful p_TxnId (id_sized 32).
Proof. exact p_hash_law. Qed.

#[global] Instance p_TxnId_nonnull : NonNull p_TxnId.
Proof. by intros a v [= <-]. Qed.
#[global] Instance p_PlanRef_nonnull : NonNull p_PlanRef.
Proof. intros a v. apply robj_nonnull. Qed.
#[global] Instance p_OriginId_nonnull : NonNull p_OriginId.
Proof. intros a v. apply robj_nonnull. Qed.
#[global] Instance p_ProtocolRecordRef_nonnull : NonNull p_ProtocolRecordRef.
Proof. intros a v. apply robj_nonnull. Qed.

#[global] Instance p_IdcBinding_exact : Exact p_IdcBinding.
Proof. exact_law p_IdcBinding IdcBinding_to_canon IdcBinding_from_canon. Qed.
#[global] Instance IdcBinding_key_inj : KeyInj IdcBinding_key.
Proof. intros [] [] H. cbn in H. by simplify_eq. Qed.
#[global] Instance p_PlanRef_exact : Exact p_PlanRef.
Proof. exact_law p_PlanRef PlanRef_to_canon PlanRef_from_canon. Qed.
#[global] Instance PlanRef_key_inj : KeyInj PlanRef_key.
Proof. intros [] [] H. cbn in H. by simplify_eq. Qed.
#[global] Instance p_OriginId_exact : Exact p_OriginId.
Proof. exact_law p_OriginId OriginId_to_canon OriginId_from_canon. Qed.
#[global] Instance OriginId_key_inj : KeyInj OriginId_key.
Proof. intros [] [] H. cbn in H. by simplify_eq. Qed.
#[global] Instance p_ProtocolRecordRef_exact : Exact p_ProtocolRecordRef.
Proof. exact_law p_ProtocolRecordRef ProtocolRecordRef_to_canon ProtocolRecordRef_from_canon. Qed.
#[global] Instance ProtocolRecordRef_key_inj : KeyInj ProtocolRecordRef_key.
Proof. intros [] [] H. cbn in H. by simplify_eq. Qed.
