(* ===== verification/WireRecords.v ===== *)
(** * Client protocol records (src/crates/carolina-wire/src/records.rs)

    The requests, results, receipts, bindings and replies that cross the
    network and the disk, each with its canonical form and the checks its
    reader performs.  SHA-256 is a parameter of the section. *)

From S2P Require Import Prelude ByteMap Errors Hex Canon CanonRoundtrip CanonInt CanonTyped CanonRecord.
From S2P Require Import Ids.

(** Keys of the sets of identities, hashes, record ids and strings. *)
Definition bytes_key (b : bytes) : list bytes := [b].
Definition u64_key (n : Z) : list bytes := [[n]].
#[global] Instance bytes_key_inj : KeyInj bytes_key.
Proof. intros a b H. by injection H. Qed.
#[global] Instance u64_key_inj : KeyInj u64_key.
Proof. intros a b H. by injection H. Qed.

(** ** Read contracts and observation tokens *)
Inductive Visibility : Type := VLocalSnapshot | VCausal | VCertified | VSerial.
Inductive SessionGuarantee : Type := ReadYourWrites | MonotonicReads | CausalDependencies.
Inductive SessionScope : Type :=
| ScopeNone
| ScopeReplicationGroup (group : bytes)
| ScopeComposite (records : list Z).

Record ReadContractV1 : Type := MkReadContract {
  rc_visibility : Visibility;
  rc_scope : list Z;
  rc_session_guarantees : list SessionGuarantee;
  rc_session_scope : SessionScope;
}.

#[global] Instance Visibility_eq_dec : EqDecision Visibility.
Proof. solve_decision. Defined.
#[global] Instance SessionGuarantee_eq_dec : EqDecision SessionGuarantee.
Proof. solve_decision. Defined.
#[global] Instance SessionScope_eq_dec : EqDecision SessionScope.
Proof. solve_decision. Defined.
#[global] Instance ReadContractV1_eq_dec : EqDecision ReadContractV1.
Proof. solve_decision. Defined.

Definition operation_default (v : Visibility) : ReadContractV1 := MkReadContract v [] [] ScopeNone.

Definition Visibility_label (v : Visibility) : string :=
  match v with
  | VLocalSnapshot => "LocalSnapshot" | VCausal => "Causal" | VCertified => "Certified" | VSerial => "Serial"
  end.
Definition Visibility_from_label (s : bytes) : CoreResult Visibility :=
  if bool_decide (s = str "LocalSnapshot") then Ok VLocalSnapshot
  else if bool_decide (s = str "Causal") then Ok VCausal
  else if bool_decide (s = str "Certified") then Ok VCertified
  else if bool_decide (s = str "Serial") then Ok VSerial
  else Err NonCanonicalEncoding.
Definition p_Visibility : pcodec Visibility := p_label Visibility_label Visibility_from_label.

Definition sg_label (g : SessionGuarantee) : string :=
  match g with
  | ReadYourWrites => "ReadYourWrites"
  | MonotonicReads => "MonotonicReads"
  | CausalDependencies => "CausalDependencies"
  end.
Definition sg_from_label (s : bytes) : CoreResult SessionGuarantee :=
  if bool_decide (s = str "ReadYourWrites") then Ok ReadYourWrites
  else if bool_decide (s = str "MonotonicReads") then Ok MonotonicReads
  else if bool_decide (s = str "CausalDependencies") then Ok CausalDependencies
  else Err NonCanonicalEncoding.

(** The guarantees are projected as the set of their labels ([set(..).expect])
    and read back from the sorted set of strings. *)
Definition p_guarantees : pcodec (list SessionGuarantee) :=
  PCodec (fun l => project (p_set p_string bytes_key) (map (fun g => str (sg_label g)) l))
         (fun v => ss ← recover (p_set p_string bytes_key) v; collect sg_from_label ss).

Definition SessionScope_to_canon (s : SessionScope) : CoreResult CanonValue :=
  match s with
  | ScopeNone => robj [("kind", lit "none")]
  | ScopeReplicationGroup g =>
      robj [("group", project p_id128 g); ("kind", lit "replication_group")]
  | ScopeComposite r =>
      robj [("kind", lit "composite_scope"); ("records", project (p_set p_u64 u64_key) r)]
  end.
Definition SessionScope_from_canon (v : CanonValue) : CoreResult SessionScope :=
  k ← get "kind" p_string v;
  if bool_decide (k = str "none") then Ok ScopeNone
  else if bool_decide (k = str "replication_group") then
    g ← get "group" p_id128 v; Ok (ScopeReplicationGroup g)
  else if bool_decide (k = str "composite_scope") then
    r ← get "records" (p_set p_u64 u64_key) v; Ok (ScopeComposite r)
  else Err NonCanonicalEncoding.
Definition p_SessionScope : pcodec SessionScope := PCodec SessionScope_to_canon SessionScope_from_canon.

Definition ReadContractV1_to_canon (r : ReadContractV1) : CoreResult CanonValue :=
  robj [("scope", project (p_set p_u64 u64_key) (rc_scope r));
        ("session_guarantees", project p_guarantees (rc_session_guarantees r));
        ("session_scope", project p_SessionScope (rc_session_scope r));
        ("visibility", project p_Visibility (rc_visibility r))].
Definition ReadContractV1_from_canon (v : CanonValue) : CoreResult ReadContractV1 :=
  expect ["scope"; "session_guarantees"; "session_scope"; "visibility"] v ≫= fun _ =>
  vis ← get "visibility" p_Visibility v;
  gs ← get "session_guarantees" p_guarantees v;
  ss ← get "session_scope" p_SessionScope v;
  sc ← get "scope" (p_set p_u64 u64_key) v;
  Ok (MkReadContract vis sc gs ss).
Definition p_ReadContractV1 : pcodec ReadContractV1 := PCodec ReadContractV1_to_canon ReadContractV1_from_canon.

Inductive ObservationTokenV1 : Type :=
| TokGroup (group : bytes) (membership_generation : Z) (payload : bytes)
| TokCertified (authority : bytes) (idc_bindings : list IdcBinding) (frontier : Z)
| TokSerial (authority : bytes) (idc_binding : IdcBinding) (position : Z)
| TokComposite (payload : bytes).
#[global] Instance ObservationTokenV1_eq_dec : EqDecision ObservationTokenV1.
Proof. solve_decision. Defined.

Abbreviation p_idcs := (p_set p_IdcBinding IdcBinding_key).

Definition ObservationTokenV1_kind (t : ObservationTokenV1) : string :=
  match t with
  | TokGroup _ _ _ => "group" | TokCertified _ _ _ => "certified"
  | TokSerial _ _ _ => "serial" | TokComposite _ => "composite"
  end.
Definition ObservationTokenV1_to_canon (t : ObservationTokenV1) : CoreResult CanonValue :=
  match t with
  | TokGroup group membership_generation payload =>
      robj [("group", project p_id128 group);
            ("kind", lit "group");
            ("membership_generation", project p_u64 membership_generation);
            ("payload", project p_bytes payload)]
  | TokCertified authority idc_bindings frontier =>
      robj [("authority", project p_id128 authority);
            ("frontier", project p_u64 frontier);
            ("idc_bindings", project p_idcs idc_bindings);
            ("kind", lit "certified")]
  | TokSerial authority idc_binding position =>
      robj [("authority", project p_id128 authority);
            ("idc_binding", project p_IdcBinding idc_binding);
            ("kind", lit "serial");
            ("position", project p_u64 position)]
  | TokComposite payload =>
      robj [("kind", lit "composite"); ("payload", project p_bytes payload)]
  end.
Definition ObservationTokenV1_from_canon (v : CanonValue) : CoreResult ObservationTokenV1 :=
  k ← get "kind" p_string v;
  if bool_decide (k = str "group") then
    expect ["group"; "kind"; "membership_generation"; "payload"] v ≫= fun _ =>
    g ← get "group" p_id128 v;
    m ← get "membership_generation" p_u64 v;
    p ← get "payload" p_bytes v;
    Ok (TokGroup g m p)
  else if bool_decide (k = str "certified") then
    expect ["authority"; "frontier"; "idc_bindings"; "kind"] v ≫= fun _ =>
    a ← get "authority" p_id128 v;
    b ← get "idc_bindings" p_idcs v;
    f ← get "frontier" p_u64 v;
    Ok (TokCertified a b f)
  else if bool_decide (k = str "serial") then
    expect ["authority"; "idc_binding"; "kind"; "position"] v ≫= fun _ =>
    a ← get "authority" p_id128 v;
    b ← get "idc_binding" p_IdcBinding v;
    p ← get "position" p_u64 v;
    Ok (TokSerial a b p)
  else if bool_decide (k = str "composite") then
    expect ["kind"; "payload"] v ≫= fun _ =>
    p ← get "payload" p_bytes v;
    Ok (TokComposite p)
  else Err UnsupportedSessionScope.
Definition p_ObservationTokenV1 : pcodec ObservationTokenV1 :=
  PCodec ObservationTokenV1_to_canon ObservationTokenV1_from_canon.

(** ** Request content and identity *)
Record RequestContentV1 : Type := MkRequestContent {
  ct_request_key : RequestKey;
  ct_operation : OperationRef;
  ct_operation_hash : bytes;
  ct_schema_hash : bytes;
  ct_contract_hash : bytes;
  ct_arguments : CanonValue;
  ct_read_contract : ReadContractV1;
  ct_initial_session : option ObservationTokenV1;
}.

Definition RequestContentV1_to_canon (c : RequestContentV1) : CoreResult CanonValue :=
  robj [("arguments", project p_canon (ct_arguments c));
        ("contract_hash", project p_hash (ct_contract_hash c));
        ("initial_session", project (p_option p_ObservationTokenV1) (ct_initial_session c));
        ("operation", project p_OperationRef (ct_operation c));
        ("operation_hash", project p_hash (ct_operation_hash c));
        ("read_contract", project p_ReadContractV1 (ct_read_contract c));
        ("request_key", project p_RequestKey (ct_request_key c));
        ("schema_hash", project p_hash (ct_schema_hash c))].
Definition RequestContentV1_from_canon (v : CanonValue) : CoreResult RequestContentV1 :=
  expect ["arguments"; "contract_hash"; "initial_session"; "operation"; "operation_hash";
          "read_contract"; "request_key"; "schema_hash"] v ≫= fun _ =>
  rk ← get "request_key" p_RequestKey v;
  op ← get "operation" p_OperationRef v;
  oh ← get "operation_hash" p_hash v;
  sh ← get "schema_hash" p_hash v;
  ch ← get "contract_hash" p_hash v;
  ar ← get "arguments" p_canon v;
  rc ← get "read_contract" p_ReadContractV1 v;
  se ← get "initial_session" (p_option p_ObservationTokenV1) v;
  Ok (MkRequestContent rk op oh sh ch ar rc se).
Definition p_RequestContentV1 : pcodec RequestContentV1 :=
  PCodec RequestContentV1_to_canon RequestContentV1_from_canon.

Record RouteHint : Type := MkRouteHint {
  rh_home : bytes;
  rh_epoch : Z;
}.
Definition RouteHint_to_canon (h : RouteHint) : CoreResult CanonValue :=
  robj [("epoch", project p_u64 (rh_epoch h)); ("home", project p_id128 (rh_home h))].
Definition RouteHint_from_canon (v : CanonValue) : CoreResult RouteHint :=
  expect ["epoch"; "home"] v ≫= fun _ =>
  h ← get "home" p_id128 v;
  e ← get "epoch" p_u64 v;
  Ok (MkRouteHint h e).
Definition p_RouteHint : pcodec RouteHint := PCodec RouteHint_to_canon RouteHint_from_canon.

Record InvokeV1 : Type := MkInvoke {
  iv_content : RequestContentV1;
  iv_request_hash : bytes;
  iv_attempt_id : bytes;
  iv_deadline_budget_ms : Z;
  iv_route_hint : option RouteHint;
  iv_accepted_result_codecs : list bytes;
}.
Abbreviation p_strings := (p_set p_string bytes_key).

Definition InvokeV1_to_canon (i : InvokeV1) : CoreResult CanonValue :=
  robj [("accepted_result_codecs", project p_strings (iv_accepted_result_codecs i));
        ("attempt_id", project p_id128 (iv_attempt_id i));
        ("content", project p_RequestContentV1 (iv_content i));
        ("deadline_budget_ms", project p_u64 (iv_deadline_budget_ms i));
        ("request_hash", project p_hash (iv_request_hash i));
        ("route_hint", project (p_option p_RouteHint) (iv_route_hint i))].
Definition InvokeV1_from_canon (v : CanonValue) : CoreResult InvokeV1 :=
  expect ["accepted_result_codecs"; "attempt_id"; "content"; "deadline_budget_ms"; "request_hash";
          "route_hint"] v ≫= fun _ =>
  c ← get "content" p_RequestContentV1 v;
  rh ← get "request_hash" p_hash v;
  a ← get "attempt_id" p_id128 v;
  d ← get "deadline_budget_ms" p_u64 v;
  h ← get "route_hint" (p_option p_RouteHint) v;
  cs ← get "accepted_result_codecs" p_strings v;
  Ok (MkInvoke c rh a d h cs).
Definition p_InvokeV1 : pcodec InvokeV1 := PCodec InvokeV1_to_canon InvokeV1_from_canon.

(** ** Results and receipts *)
Inductive Outcome : Type := Committed | Rejected.
#[global] Instance Outcome_eq_dec : EqDecision Outcome.
Proof. solve_decision. Defined.
Definition Outcome_label (o : Outcome) : string :=
  match o with Committed => "COMMITTED" | Rejected => "REJECTED" end.
Definition Outcome_from_label (s : bytes) : CoreResult Outcome :=
  if bool_decide (s = str "COMMITTED") then Ok Committed
  else if bool_decide (s = str "REJECTED") then Ok Rejected
  else Err NonCanonicalEncoding.
Definition p_Outcome : pcodec Outcome := p_label Outcome_label Outcome_from_label.

Record AcceptedResultV1 : Type := MkAcceptedResult {
  ar_outcome : Outcome;
  ar_result_codec : bytes;
  ar_result_type_hash : bytes;
  ar_exact_result_bytes : bytes;
  ar_result_digest : bytes;
  ar_commitments : CanonValue;
  ar_accepted_observation : option ObservationTokenV1;
}.
#[global] Instance AcceptedResultV1_eq_dec : EqDecision AcceptedResultV1.
Proof. solve_decision. Defined.

Record PolicyRef : Type := MkPolicyRef {
  po_name : bytes;
  po_policy_hash : bytes;
}.
#[global] Instance PolicyRef_eq_dec : EqDecision PolicyRef.
Proof. solve_decision. Defined.
Definition PolicyRef_to_canon (p : PolicyRef) : CoreResult CanonValue :=
  robj [("name", project p_string (po_name p)); ("policy_hash", project p_hash (po_policy_hash p))].
Definition PolicyRef_from_canon (v : CanonValue) : CoreResult PolicyRef :=
  expect ["name"; "policy_hash"] v ≫= fun _ =>
  n ← get "name" p_string v;
  h ← get "policy_hash" p_hash v;
  Ok (MkPolicyRef n h).
Definition p_PolicyRef : pcodec PolicyRef := PCodec PolicyRef_to_canon PolicyRef_from_canon.

Record FinalReceiptV1 : Type := MkFinalReceipt {
  fr_receipt_version : Z;
  fr_cluster_id : bytes;
  fr_request_key : RequestKey;
  fr_request_hash : bytes;
  fr_txn_id : bytes;
  fr_operation : OperationRef;
  fr_operation_hash : bytes;
  fr_schema_hash : bytes;
  fr_contract_hash : bytes;
  fr_plan : PlanRef;
  fr_idc_bindings : list IdcBinding;
  fr_origin_ids : list OriginId;
  fr_outcome : Outcome;
  fr_result_codec : bytes;
  fr_result_type_hash : bytes;
  fr_exact_result_bytes : bytes;
  fr_result_digest : bytes;
  fr_commitments : CanonValue;
  fr_observation_token : option ObservationTokenV1;
  fr_durability_policy : PolicyRef;
  fr_durability_evidence : list ProtocolRecordRef;
  fr_decision_ref : ProtocolRecordRef;
  fr_completion_ref : option ProtocolRecordRef;
}.
#[global] Instance FinalReceiptV1_eq_dec : EqDecision FinalReceiptV1.
Proof. solve_decision. Defined.
Definition RECEIPT_VERSION : Z := 1.

Definition FinalReceiptV1_accepted_result (r : FinalReceiptV1) : AcceptedResultV1 :=
  MkAcceptedResult (fr_outcome r) (fr_result_codec r) (fr_result_type_hash r)
    (fr_exact_result_bytes r) (fr_result_digest r) (fr_commitments r) (fr_observation_token r).

Abbreviation p_refs := (p_set p_ProtocolRecordRef ProtocolRecordRef_key).
Abbreviation p_origins := (p_set p_OriginId OriginId_key).

Inductive BindingState : Type := BBound | BAdmitted | BTerminal | BResultExpired.
#[global] Instance BindingState_eq_dec : EqDecision BindingState.
Proof. solve_decision. Defined.
Definition BindingState_label (s : BindingState) : string :=
  match s with
  | BBound => "BOUND" | BAdmitted => "ADMITTED" | BTerminal => "TERMINAL"
  | BResultExpired => "RESULT_EXPIRED"
  end.
Definition BindingState_from_label (s : bytes) : CoreResult BindingState :=
  if bool_decide (s = str "BOUND") then Ok BBound
  else if bool_decide (s = str "ADMITTED") then Ok BAdmitted
  else if bool_decide (s = str "TERMINAL") then Ok BTerminal
  else if bool_decide (s = str "RESULT_EXPIRED") then Ok BResultExpired
  else Err NonCanonicalEncoding.
Definition p_BindingState : pcodec BindingState := p_label BindingState_label BindingState_from_label.
Definition BindingState_can_advance_to (s next : BindingState) : bool :=
  match s, next with
  | BBound, BAdmitted | BBound, BTerminal | BAdmitted, BTerminal | BTerminal, BResultExpired => true
  | _, _ => false
  end.

Record ResultTombstoneV1 : Type := MkResultTombstone {
  rt_request_key : RequestKey;
  rt_request_hash : bytes;
  rt_txn_id : bytes;
  rt_outcome : Outcome;
  rt_receipt_digest : bytes;
  rt_decision_ref : ProtocolRecordRef;
}.
Definition ResultTombstoneV1_to_canon (t : ResultTombstoneV1) : CoreResult CanonValue :=
  robj [("decision_ref", project p_ProtocolRecordRef (rt_decision_ref t));
        ("outcome", project p_Outcome (rt_outcome t));
        ("receipt_digest", project p_hash (rt_receipt_digest t));
        ("request_hash", project p_hash (rt_request_hash t));
        ("request_key", project p_RequestKey (rt_request_key t));
        ("txn_id", project p_TxnId (rt_txn_id t))].
Definition ResultTombstoneV1_from_canon (v : CanonValue) : CoreResult ResultTombstoneV1 :=
  expect ["decision_ref"; "outcome"; "receipt_digest"; "request_hash"; "request_key"; "txn_id"] v ≫= fun _ =>
  k ← get "request_key" p_RequestKey v;
  h ← get "request_hash" p_hash v;
  t ← get "txn_id" p_TxnId v;
  o ← get "outcome" p_Outcome v;
  d ← get "receipt_digest" p_hash v;
  r ← get "decision_ref" p_ProtocolRecordRef v;
  Ok (MkResultTombstone k h t o d r).
Definition p_ResultTombstoneV1 : pcodec ResultTombstoneV1 :=
  PCodec ResultTombstoneV1_to_canon ResultTombstoneV1_from_canon.
#[global] Instance ResultTombstoneV1_eq_dec : EqDecision ResultTombstoneV1.
Proof. solve_decision. Defined.

(** ** Request binding *)
Record RequestBindingV1 : Type := MkRequestBinding {
  rb_request_key : RequestKey;
  rb_request_hash : bytes;
  rb_txn_id : bytes;
  rb_allocation_home : bytes;
  rb_allocation_epoch : Z;
  rb_allocation_seq : Z;
  rb_record_revision : Z;
  rb_state : BindingState;
  rb_admitted_plan : option PlanRef;
  rb_decision_authority : option ProtocolRecordRef;
  rb_terminal_receipt : option FinalReceiptV1;
  rb_tombstone : option ResultTombstoneV1;
}.

Definition is_some {A} (o : option A) : bool := match o with Some _ => true | None => false end.

Definition RequestBindingV1_verify (b : RequestBindingV1) : CoreResult unit :=
  let expected := TxnId_new (rb_allocation_home b) (rb_allocation_epoch b) (rb_allocation_seq b) in
  if negb (bool_decide (expected = rb_txn_id b)) then Err Corruption
  else match rb_state b with
       | BTerminal => if negb (is_some (rb_terminal_receipt b)) then Err Corruption else Ok tt
       | BResultExpired => if negb (is_some (rb_tombstone b)) then Err Corruption else Ok tt
       | BBound | BAdmitted => if is_some (rb_terminal_receipt b) then Err Corruption else Ok tt
       end.

(** ** Replies without digests *)
Record RefusalV1 : Type := MkRefusal {
  rf_code : bytes;
  rf_detail : bytes;
  rf_possibly_admitted : bool;
}.
Definition RefusalV1_to_canon (r : RefusalV1) : CoreResult CanonValue :=
  robj [("code", project p_string (rf_code r));
        ("detail", project p_string (rf_detail r));
        ("possibly_admitted", project p_bool (rf_possibly_admitted r))].
Definition RefusalV1_from_canon (v : CanonValue) : CoreResult RefusalV1 :=
  expect ["code"; "detail"; "possibly_admitted"] v ≫= fun _ =>
  c ← get "code" p_string v;
  d ← get "detail" p_string v;
  p ← get "possibly_admitted" p_bool v;
  Ok (MkRefusal c d p).
Definition p_RefusalV1 : pcodec RefusalV1 := PCodec RefusalV1_to_canon RefusalV1_from_canon.

Record ResolutionHintV1 : Type := MkResolutionHint {
  hi_request_key : RequestKey;
  hi_request_hash : bytes;
  hi_txn_id : option bytes;
  hi_resolver : option RouteHint;
}.
Definition ResolutionHintV1_to_canon (h : ResolutionHintV1) : CoreResult CanonValue :=
  robj [("request_hash", project p_hash (hi_request_hash h));
        ("request_key", project p_RequestKey (hi_request_key h));
        ("resolver", project (p_option p_RouteHint) (hi_resolver h));
        ("txn_id", project (p_option p_TxnId) (hi_txn_id h))].
Definition ResolutionHintV1_from_canon (v : CanonValue) : CoreResult ResolutionHintV1 :=
  expect ["request_hash"; "request_key"; "resolver"; "txn_id"] v ≫= fun _ =>
  k ← get "request_key" p_RequestKey v;
  h ← get "request_hash" p_hash v;
  t ← get "txn_id" (p_option p_TxnId) v;
  r ← get "resolver" (p_option p_RouteHint) v;
  Ok (MkResolutionHint k h t r).
Definition p_ResolutionHintV1 : pcodec ResolutionHintV1 :=
  PCodec ResolutionHintV1_to_canon ResolutionHintV1_from_canon.

Inductive ClientReplyV1 : Type :=
| ReplyCommitted (r : FinalReceiptV1)
| ReplyRejected (r : FinalReceiptV1)
| ReplyUnavailable (x : RefusalV1)
| ReplyOutcomeUnknown (h : ResolutionHintV1)
| ReplyRequestIdentityMismatch
| ReplyResultExpired (t : ResultTombstoneV1)
| ReplyIdentityExpired (namespace : bytes) (retirement_ref : ProtocolRecordRef)
| ReplyProtocolError (code detail : bytes).

Definition ClientReplyV1_kind (r : ClientReplyV1) : string :=
  match r with
  | ReplyCommitted _ => "Committed"
  | ReplyRejected _ => "Rejected"
  | ReplyUnavailable _ => "Unavailable"
  | ReplyOutcomeUnknown _ => "OutcomeUnknown"
  | ReplyRequestIdentityMismatch => "RequestIdentityMismatch"
  | ReplyResultExpired _ => "ResultExpired"
  | ReplyIdentityExpired _ _ => "IdentityExpired"
  | ReplyProtocolError _ _ => "ProtocolError"
  end.
Definition retry_same_identity (r : ClientReplyV1) : bool :=
  match r with ReplyUnavailable _ | ReplyOutcomeUnknown _ => true | _ => false end.
Definition ClientReplyV1_receipt (r : ClientReplyV1) : option FinalReceiptV1 :=
  match r with ReplyCommitted x | ReplyRejected x => Some x | _ => None end.

Record ResolveRequestV1 : Type := MkResolveRequest {
  rq_request_key : RequestKey;
  rq_expected_request_hash : bytes;
}.
Definition ResolveRequestV1_to_canon (r : ResolveRequestV1) : CoreResult CanonValue :=
  robj [("expected_request_hash", project p_hash (rq_expected_request_hash r));
        ("request_key", project p_RequestKey (rq_request_key r))].
Definition ResolveRequestV1_from_canon (v : CanonValue) : CoreResult ResolveRequestV1 :=
  expect ["expected_request_hash"; "request_key"] v ≫= fun _ =>
  k ← get "request_key" p_RequestKey v;
  h ← get "expected_request_hash" p_hash v;
  Ok (MkResolveRequest k h).
Definition p_ResolveRequestV1 : pcodec ResolveRequestV1 :=
  PCodec ResolveRequestV1_to_canon ResolveRequestV1_from_canon.

Inductive ResolveReplyV1 : Type :=
| ResTerminal (r : ClientReplyV1)
| ResPending (txn_id phase : bytes) (original_plan : PlanRef) (resolver_ref : ProtocolRecordRef)
| ResAbsentAtBarrier (catalog_generation : Z) (home : bytes) (home_epoch record_revision : Z)
| ResUnavailable (r : RefusalV1).

(** ** Records whose readers check digests *)
Section digests.
Context (sha256 : bytes -> bytes).

(** [RequestContentV1::request_hash], [InvokeV1::verify_hash] *)
Definition request_hash (c : RequestContentV1) : CoreResult bytes :=
  b ← encode_p p_RequestContentV1 c; Ok (domain_hash sha256 REQUEST_V1 b).
Definition verify_hash (i : InvokeV1) : CoreResult unit :=
  h ← request_hash (iv_content i);
  if negb (bool_decide (h = iv_request_hash i)) then Err RequestIdentityMismatch else Ok tt.

Definition result_digest (result_codec result_type_hash exact_result_bytes : bytes) : CoreResult bytes :=
  payload ← robj [("exact_result_bytes", project p_bytes exact_result_bytes);
                  ("result_codec", project p_string result_codec);
                  ("result_type_hash", project p_hash result_type_hash)];
  Ok (domain_hash sha256 RESULT_V1 (encode payload)).

Definition AcceptedResultV1_new (outcome : Outcome) (result_codec result_type_hash exact_result_bytes : bytes)
    (commitments : CanonValue) (accepted_observation : option ObservationTokenV1) : CoreResult AcceptedResultV1 :=
  d ← result_digest result_codec result_type_hash exact_result_bytes;
  Ok (MkAcceptedResult outcome result_codec result_type_hash exact_result_bytes d commitments
        accepted_observation).

Definition verify_digest (r : AcceptedResultV1) : CoreResult unit :=
  d ← result_digest (ar_result_codec r) (ar_result_type_hash r) (ar_exact_result_bytes r);
  if negb (bool_decide (d = ar_result_digest r)) then Err Corruption else Ok tt.

Definition AcceptedResultV1_to_canon (r : AcceptedResultV1) : CoreResult CanonValue :=
  robj [("accepted_observation", project (p_option p_ObservationTokenV1) (ar_accepted_observation r));
        ("commitments", project p_canon (ar_commitments r));
        ("exact_result_bytes", project p_bytes (ar_exact_result_bytes r));
        ("outcome", project p_Outcome (ar_outcome r));
        ("result_codec", project p_string (ar_result_codec r));
        ("result_digest", project p_hash (ar_result_digest r));
        ("result_type_hash", project p_hash (ar_result_type_hash r))].
Definition AcceptedResultV1_from_canon (v : CanonValue) : CoreResult AcceptedResultV1 :=
  expect ["accepted_observation"; "commitments"; "exact_result_bytes"; "outcome"; "result_codec";
          "result_digest"; "result_type_hash"] v ≫= fun _ =>
  o ← get "outcome" p_Outcome v;
  rc ← get "result_codec" p_string v;
  th ← get "result_type_hash" p_hash v;
  eb ← get "exact_result_bytes" p_bytes v;
  rd ← get "result_digest" p_hash v;
  cm ← get "commitments" p_canon v;
  ob ← get "accepted_observation" (p_option p_ObservationTokenV1) v;
  let r := MkAcceptedResult o rc th eb rd cm ob in
  verify_digest r ≫= fun _ => Ok r.
Definition p_AcceptedResultV1 : pcodec AcceptedResultV1 :=
  PCodec AcceptedResultV1_to_canon AcceptedResultV1_from_canon.

Definition FinalReceiptV1_verify (r : FinalReceiptV1) : CoreResult unit :=
  if negb (fr_receipt_version r =? RECEIPT_VERSION) then Err UnsupportedCodec
  else verify_digest (FinalReceiptV1_accepted_result r).

Definition FinalReceiptV1_to_canon (r : FinalReceiptV1) : CoreResult CanonValue :=
  robj [("cluster_id", project p_id128 (fr_cluster_id r));
        ("commitments", project p_canon (fr_commitments r));
        ("completion_ref", project (p_option p_ProtocolRecordRef) (fr_completion_ref r));
        ("contract_hash", project p_hash (fr_contract_hash r));
        ("decision_ref", project p_ProtocolRecordRef (fr_decision_ref r));
        ("durability_evidence", project p_refs (fr_durability_evidence r));
        ("durability_policy", project p_PolicyRef (fr_durability_policy r));
        ("exact_result_bytes", project p_bytes (fr_exact_result_bytes r));
        ("idc_bindings", project p_idcs (fr_idc_bindings r));
        ("operation", project p_OperationRef (fr_operation r));
        ("operation_hash", project p_hash (fr_operation_hash r));
        ("observation_token", project (p_option p_ObservationTokenV1) (fr_observation_token r));
        ("origin_ids", project p_origins (fr_origin_ids r));
        ("outcome", project p_Outcome (fr_outcome r));
        ("plan", project p_PlanRef (fr_plan r));
        ("receipt_version", project p_u32 (fr_receipt_version r));
        ("request_hash", project p_hash (fr_request_hash r));
        ("request_key", project p_RequestKey (fr_request_key r));
        ("result_codec", project p_string (fr_result_codec r));
        ("result_digest", project p_hash (fr_result_digest r));
        ("result_type_hash", project p_hash (fr_result_type_hash r));
        ("schema_hash", project p_hash (fr_schema_hash r));
        ("txn_id", project p_TxnId (fr_txn_id r))].
Definition FinalReceiptV1_from_canon (v : CanonValue) : CoreResult FinalReceiptV1 :=
  expect ["cluster_id"; "commitments"; "completion_ref"; "contract_hash"; "decision_ref";
          "durability_evidence"; "durability_policy"; "exact_result_bytes"; "idc_bindings";
          "operation"; "operation_hash"; "observation_token"; "origin_ids"; "outcome"; "plan";
          "receipt_version"; "request_hash"; "request_key"; "result_codec"; "result_digest";
          "result_type_hash"; "schema_hash"; "txn_id"] v ≫= fun _ =>
  rv ← get "receipt_version" p_u32 v;
  ci ← get "cluster_id" p_id128 v;
  rk ← get "request_key" p_RequestKey v;
  rh ← get "request_hash" p_hash v;
  tx ← get "txn_id" p_TxnId v;
  op ← get "operation" p_OperationRef v;
  oh ← get "operation_hash" p_hash v;
  sh ← get "schema_hash" p_hash v;
  ch ← get "contract_hash" p_hash v;
  pl ← get "plan" p_PlanRef v;
  ib ← get "idc_bindings" p_idcs v;
  oi ← get "origin_ids" p_origins v;
  oc ← get "outcome" p_Outcome v;
  rc ← get "result_codec" p_string v;
  th ← get "result_type_hash" p_hash v;
  eb ← get "exact_result_bytes" p_bytes v;
  rd ← get "result_digest" p_hash v;
  cm ← get "commitments" p_canon v;
  ob ← get "observation_token" (p_option p_ObservationTokenV1) v;
  dp ← get "durability_policy" p_PolicyRef v;
  de ← get "durability_evidence" p_refs v;
  dr ← get "decision_ref" p_ProtocolRecordRef v;
  cr ← get "completion_ref" (p_option p_ProtocolRecordRef) v;
  let r := MkFinalReceipt rv ci rk rh tx op oh sh ch pl ib oi oc rc th eb rd cm ob dp de dr cr in
  FinalReceiptV1_verify r ≫= fun _ => Ok r.
Definition p_FinalReceiptV1 : pcodec FinalReceiptV1 :=
  PCodec FinalReceiptV1_to_canon FinalReceiptV1_from_canon.

Definition receipt_digest (r : FinalReceiptV1) : CoreResult bytes :=
  b ← encode_p p_FinalReceiptV1 r; Ok (domain_hash sha256 RECEIPT_V1 b).

Definition RequestBindingV1_to_canon (b : RequestBindingV1) : CoreResult CanonValue :=
  robj [("admitted_plan", project (p_option p_PlanRef) (rb_admitted_plan b));
        ("allocation_epoch", project p_u64 (rb_allocation_epoch b));
        ("allocation_home", project p_id128 (rb_allocation_home b));
        ("allocation_seq", project p_u64 (rb_allocation_seq b));
        ("decision_authority", project (p_option p_ProtocolRecordRef) (rb_decision_authority b));
        ("record_revision", project p_u64 (rb_record_revision b));
        ("request_hash", project p_hash (rb_request_hash b));
        ("request_key", project p_RequestKey (rb_request_key b));
        ("state", project p_BindingState (rb_state b));
        ("terminal_receipt", project (p_option p_FinalReceiptV1) (rb_terminal_receipt b));
        ("tombstone", project (p_option p_ResultTombstoneV1) (rb_tombstone b));
        ("txn_id", project p_TxnId (rb_txn_id b))].
Definition RequestBindingV1_from_canon (v : CanonValue) : CoreResult RequestBindingV1 :=
  expect ["admitted_plan"; "allocation_epoch"; "allocation_home"; "allocation_seq";
          "decision_authority"; "record_revision"; "request_hash"; "request_key"; "state";
          "terminal_receipt"; "tombstone"; "txn_id"] v ≫= fun _ =>
  rk ← get "request_key" p_RequestKey v;
  rh ← get "request_hash" p_hash v;
  tx ← get "txn_id" p_TxnId v;
  ah ← get "allocation_home" p_id128 v;
  ae ← get "allocation_epoch" p_u64 v;
  as_ ← get "allocation_seq" p_u64 v;
  rr ← get "record_revision" p_u64 v;
  st ← get "state" p_BindingState v;
  ap ← get "admitted_plan" (p_option p_PlanRef) v;
  da ← get "decision_authority" (p_option p_ProtocolRecordRef) v;
  tr ← get "terminal_receipt" (p_option p_FinalReceiptV1) v;
  to ← get "tombstone" (p_option p_ResultTombstoneV1) v;
  let b := MkRequestBinding rk rh tx ah ae as_ rr st ap da tr to in
  RequestBindingV1_verify b ≫= fun _ => Ok b.
Definition p_RequestBindingV1 : pcodec RequestBindingV1 :=
  PCodec RequestBindingV1_to_canon RequestBindingV1_from_canon.

Definition ClientReplyV1_to_canon (r : ClientReplyV1) : CoreResult CanonValue :=
  match r with
  | ReplyCommitted r => robj [("kind", lit "Committed"); ("receipt", project p_FinalReceiptV1 r)]
  | ReplyRejected r => robj [("kind", lit "Rejected"); ("receipt", project p_FinalReceiptV1 r)]
  | ReplyUnavailable x => robj [("kind", lit "Unavailable"); ("refusal", project p_RefusalV1 x)]
  | ReplyOutcomeUnknown h => robj [("hint", project p_ResolutionHintV1 h); ("kind", lit "OutcomeUnknown")]
  | ReplyRequestIdentityMismatch => robj [("kind", lit "RequestIdentityMismatch")]
  | ReplyResultExpired t => robj [("kind", lit "ResultExpired"); ("tombstone", project p_ResultTombstoneV1 t)]
  | ReplyIdentityExpired namespace retirement_ref =>
      robj [("kind", lit "IdentityExpired"); ("namespace", project p_id128 namespace);
            ("retirement_ref", project p_ProtocolRecordRef retirement_ref)]
  | ReplyProtocolError code detail =>
      robj [("code", project p_string code); ("detail", project p_string detail);
            ("kind", lit "ProtocolError")]
  end.
Definition ClientReplyV1_from_canon (v : CanonValue) : CoreResult ClientReplyV1 :=
  k ← get "kind" p_string v;
  if bool_decide (k = str "Committed") then
    expect ["kind"; "receipt"] v ≫= fun _ => r ← get "receipt" p_FinalReceiptV1 v; Ok (ReplyCommitted r)
  else if bool_decide (k = str "Rejected") then
    expect ["kind"; "receipt"] v ≫= fun _ => r ← get "receipt" p_FinalReceiptV1 v; Ok (ReplyRejected r)
  else if bool_decide (k = str "Unavailable") then
    expect ["kind"; "refusal"] v ≫= fun _ => r ← get "refusal" p_RefusalV1 v; Ok (ReplyUnavailable r)
  else if bool_decide (k = str "OutcomeUnknown") then
    expect ["hint"; "kind"] v ≫= fun _ => h ← get "hint" p_ResolutionHintV1 v; Ok (ReplyOutcomeUnknown h)
  else if bool_decide (k = str "RequestIdentityMismatch") then
    expect ["kind"] v ≫= fun _ => Ok ReplyRequestIdentityMismatch
  else if bool_decide (k = str "ResultExpired") then
    expect ["kind"; "tombstone"] v ≫= fun _ => t ← get "tombstone" p_ResultTombstoneV1 v; Ok (ReplyResultExpired t)
  else if bool_decide (k = str "IdentityExpired") then
    expect ["kind"; "namespace"; "retirement_ref"] v ≫= fun _ =>
    n ← get "namespace" p_id128 v;
    r ← get "retirement_ref" p_ProtocolRecordRef v;
    Ok (ReplyIdentityExpired n r)
  else if bool_decide (k = str "ProtocolError") then
    expect ["code"; "detail"; "kind"] v ≫= fun _ =>
    c ← get "code" p_string v;
    d ← get "detail" p_string v;
    Ok (ReplyProtocolError c d)
  else Err NonCanonicalEncoding.
Definition p_ClientReplyV1 : pcodec ClientReplyV1 := PCodec ClientReplyV1_to_canon ClientReplyV1_from_canon.

Definition ResolveReplyV1_to_canon (r : ResolveReplyV1) : CoreResult CanonValue :=
  match r with
  | ResTerminal r => robj [("kind", lit "Terminal"); ("reply", project p_ClientReplyV1 r)]
  | ResPending txn_id phase original_plan resolver_ref =>
      robj [("kind", lit "Pending"); ("original_plan", project p_PlanRef original_plan);
            ("phase", project p_string phase); ("resolver_ref", project p_ProtocolRecordRef resolver_ref);
            ("txn_id", project p_TxnId txn_id)]
  | ResAbsentAtBarrier catalog_generation home home_epoch record_revision =>
      robj [("catalog_generation", project p_u64 catalog_generation); ("home", project p_id128 home);
            ("home_epoch", project p_u64 home_epoch); ("kind", lit "AbsentAtBarrier");
            ("record_revision", project p_u64 record_revision)]
  | ResUnavailable r => robj [("kind", lit "Unavailable"); ("refusal", project p_RefusalV1 r)]
  end.
Definition ResolveReplyV1_from_canon (v : CanonValue) : CoreResult ResolveReplyV1 :=
  k ← get "kind" p_string v;
  if bool_decide (k = str "Terminal") then
    r ← get "reply" p_ClientReplyV1 v; Ok (ResTerminal r)
  else if bool_decide (k = str "Pending") then
    t ← get "txn_id" p_TxnId v;
    p ← get "phase" p_string v;
    pl ← get "original_plan" p_PlanRef v;
    r ← get "resolver_ref" p_ProtocolRecordRef v;
    Ok (ResPending t p pl r)
  else if bool_decide (k = str "AbsentAtBarrier") then
    c ← get "catalog_generation" p_u64 v;
    h ← get "home" p_id128 v;
    e ← get "home_epoch" p_u64 v;
    r ← get "record_revision" p_u64 v;
    Ok (ResAbsentAtBarrier c h e r)
  else if bool_decide (k = str "Unavailable") then
    r ← get "refusal" p_RefusalV1 v; Ok (ResUnavailable r)
  else Err NonCanonicalEncoding.
Definition p_ResolveReplyV1 : pcodec ResolveReplyV1 := PCodec ResolveReplyV1_to_canon ResolveReplyV1_from_canon.
End digests.

(** ** Ranges *)
Abbreviation idcs_ok := (set_ok IdcBinding_ok IdcBinding_key).
Abbreviation refs_ok := (set_ok ProtocolRecordRef_ok ProtocolRecordRef_key).
Abbreviation origins_ok := (set_ok OriginId_ok OriginId_key).
Abbreviation records_ok := (set_ok (fun n => in_u 64 n = true) u64_key).
Abbreviation strings_ok := (set_ok text_ok bytes_key).

(** The guarantees are listed in the order of their labels, each once. *)
Definition guarantees_ok (l : list SessionGuarantee) : Prop :=
  strings_ok (map (fun g => str (sg_label g)) l).
Definition SessionScope_ok (s : SessionScope) : Prop :=
  match s with
  | ScopeNone => True
  | ScopeReplicationGroup g => id_sized 16 g
  | ScopeComposite r => records_ok r
  end.
Definition ReadContractV1_ok (r : ReadContractV1) : Prop :=
  records_ok (rc_scope r) /\ guarantees_ok (rc_session_guarantees r) /\ SessionScope_ok (rc_session_scope r).
Definition ObservationTokenV1_ok (t : ObservationTokenV1) : Prop :=
  match t with
  | TokGroup g m p => id_sized 16 g /\ in_u 64 m = true /\ bytes_ok p
  | TokCertified a b f => id_sized 16 a /\ idcs_ok b /\ in_u 64 f = true
  | TokSerial a b p => id_sized 16 a /\ IdcBinding_ok b /\ in_u 64 p = true
  | TokComposite p => bytes_ok p
  end.
Definition RequestContentV1_ok (c : RequestContentV1) : Prop :=
  RequestKey_ok (ct_request_key c) /\ OperationRef_ok (ct_operation c) /\
  id_sized 32 (ct_operation_hash c) /\ id_sized 32 (ct_schema_hash c) /\ id_sized 32 (ct_contract_hash c) /\
  canon_wf (ct_arguments c) /\ ReadContractV1_ok (ct_read_contract c) /\
  opt_ok ObservationTokenV1_ok (ct_initial_session c).
Definition RouteHint_ok (h : RouteHint) : Prop := id_sized 16 (rh_home h) /\ in_u 64 (rh_epoch h) = true.
Definition InvokeV1_ok (i : InvokeV1) : Prop :=
  RequestContentV1_ok (iv_content i) /\ id_sized 32 (iv_request_hash i) /\ id_sized 16 (iv_attempt_id i) /\
  in_u 64 (iv_deadline_budget_ms i) = true /\ opt_ok RouteHint_ok (iv_route_hint i) /\
  strings_ok (iv_accepted_result_codecs i).
Definition PolicyRef_ok (p : PolicyRef) : Prop := text_ok (po_name p) /\ id_sized 32 (po_policy_hash p).
Definition ResultTombstoneV1_ok (t : ResultTombstoneV1) : Prop :=
  RequestKey_ok (rt_request_key t) /\ id_sized 32 (rt_request_hash t) /\ id_sized 32 (rt_txn_id t) /\
  id_sized 32 (rt_receipt_digest t) /\ ProtocolRecordRef_ok (rt_decision_ref t).
Definition RefusalV1_ok (r : RefusalV1) : Prop := text_ok (rf_code r) /\ text_ok (rf_detail r).
Definition ResolutionHintV1_ok (h : ResolutionHintV1) : Prop :=
  RequestKey_ok (hi_request_key h) /\ id_sized 32 (hi_request_hash h) /\
  opt_ok (id_sized 32) (hi_txn_id h) /\ opt_ok RouteHint_ok (hi_resolver h).
Definition ResolveRequestV1_ok (r : ResolveRequestV1) : Prop :=
  RequestKey_ok (rq_request_key r) /\ id_sized 32 (rq_expected_request_hash r).

(** ** Laws *)
#[global] Instance Visibility_label_ok : LabelOk Visibility_label Visibility_from_label.
Proof. label_ok. Qed.
#[global] Instance sg_label_ok : LabelOk sg_label sg_from_label.
Proof. label_ok. Qed.
#[global] Instance Outcome_label_ok : LabelOk Outcome_label Outcome_from_label.
Proof. label_ok. Qed.
#[global] Instance BindingState_label_ok : LabelOk BindingState_label BindingState_from_label.
Proof. label_ok. Qed.

Lemma sg_from_label_inv s g : sg_from_label s = Ok g -> s = str (sg_label g).
Proof.
  unfold sg_from_label. intros H. repeat case_bool_decide; by simplify_eq.
Qed.

#[global] Instance p_guarantees_law : Lawful p_guarantees guarantees_ok.
Proof.
  split.
  - intros l H. destruct (law_project (p_set p_string bytes_key) _ H) as (v & Hp & Hw & Hr).
    exists v. split_and!; [done..|]. cbn [recover p_guarantees]. rewrite Hr. cbn [mbind outcome_bind].
    apply collect_map. intros g _. by destruct g.
  - intros v Hv. cbn [recover p_guarantees].
    eapply safe_bind; [apply (law_recover (p_set p_string bytes_key) v Hv)|]. intros ss _ Hss.
    destruct (collect sg_from_label ss) as [l|e|] eqn:E; cbn; [|done|].
    + apply collect_Ok in E. unfold guarantees_ok. replace (map _ l) with ss; [done|].
      clear -E. induction E as [|s g ss l Hs _ IH]; [done|]. cbn. by rewrite (sg_from_label_inv s g Hs), IH.
    + exfalso. clear -E. induction ss as [|s ss IH]; cbn [collect] in E; [done|].
      pose proof (label_total (LabelOk := sg_label_ok) s).
      destruct (sg_from_label s); cbn [mbind outcome_bind] in E; [|done..].
      destruct (collect sg_from_label ss); cbn [mbind outcome_bind] in E; [done|done|by apply IH].
Qed.

#[global] Instance p_SessionScope_law : Lawful p_SessionScope SessionScope_ok.
Proof. enum_law p_SessionScope SessionScope_to_canon SessionScope_from_canon SessionScope_ok. Qed.
#[global] Instance p_ReadContractV1_law : Lawful p_ReadContractV1 ReadContractV1_ok.
Proof. struct_law p_ReadContractV1 ReadContractV1_to_canon ReadContractV1_from_canon ReadContractV1_ok. Qed.
#[global] Instance p_ObservationTokenV1_law : Lawful p_ObservationTokenV1 ObservationTokenV1_ok.
Proof.
  enum_law p_ObservationTokenV1 ObservationTokenV1_to_canon ObservationTokenV1_from_canon ObservationTokenV1_ok.
Qed.
#[global] Instance p_ObservationTokenV1_nonnull : NonNull p_ObservationTokenV1.
Proof. intros [] v; apply robj_nonnull. Qed.
#[global] Instance p_RequestContentV1_law : Lawful p_RequestContentV1 RequestContentV1_ok.
Proof. struct_law p_RequestContentV1 RequestContentV1_to_canon RequestContentV1_from_canon RequestContentV1_ok. Qed.
#[global] Instance p_RouteHint_law : Lawful p_RouteHint RouteHint_ok.
Proof. struct_law p_RouteHint RouteHint_to_canon RouteHint_from_canon RouteHint_ok. Qed.
#[global] Instance p_RouteHint_nonnull : NonNull p_RouteHint.
Proof. intros a v. apply robj_nonnull. Qed.
#[global] Instance p_InvokeV1_law : Lawful p_InvokeV1 InvokeV1_ok.
Proof. struct_law p_InvokeV1 InvokeV1_to_canon InvokeV1_from_canon InvokeV1_ok. Qed.
#[global] Instance p_PolicyRef_law : Lawful p_PolicyRef PolicyRef_ok.
Proof. struct_law p_PolicyRef PolicyRef_to_canon PolicyRef_from_canon PolicyRef_ok. Qed.
#[global] Instance p_ResultTombstoneV1_law : Lawful p_ResultTombstoneV1 ResultTombstoneV1_ok.
Proof. struct_law p_ResultTombstoneV1 ResultTombstoneV1_to_canon ResultTombstoneV1_from_canon ResultTombstoneV1_ok. Qed.
#[global] Instance p_RefusalV1_law : Lawful p_RefusalV1 RefusalV1_ok.
Proof. struct_law p_RefusalV1 RefusalV1_to_canon RefusalV1_from_canon RefusalV1_ok. Qed.
#[global] Instance p_ResolutionHintV1_law : Lawful p_ResolutionHintV1 ResolutionHintV1_ok.
Proof. struct_law p_ResolutionHintV1 ResolutionHintV1_to_canon ResolutionHintV1_from_canon ResolutionHintV1_ok. Qed.
#[global] Instance p_ResolveRequestV1_law : Lawful p_ResolveRequestV1 ResolveRequestV1_ok.
Proof. struct_law p_ResolveRequestV1 ResolveRequestV1_to_canon ResolveRequestV1_from_canon ResolveRequestV1_ok. Qed.
#[global] Instance p_ResultTombstoneV1_nonnull : NonNull p_ResultTombstoneV1.
Proof. intros a v. apply robj_nonnull. Qed.

Section laws.
Context (sha256 : bytes -> bytes).

Definition AcceptedResultV1_ok (r : AcceptedResultV1) : Prop :=
  text_ok (ar_result_codec r) /\ id_sized 32 (ar_result_type_hash r) /\ bytes_ok (ar_exact_result_bytes r) /\
  id_sized 32 (ar_result_digest r) /\ canon_wf (ar_commitments r) /\
  opt_ok ObservationTokenV1_ok (ar_accepted_observation r) /\ verify_digest sha256 r = Ok tt.
Definition FinalReceiptV1_ok (r : FinalReceiptV1) : Prop :=
  in_u 32 (fr_receipt_version r) = true /\ id_sized 16 (fr_cluster_id r) /\ RequestKey_ok (fr_request_key r) /\
  id_sized 32 (fr_request_hash r) /\ id_sized 32 (fr_txn_id r) /\ OperationRef_ok (fr_operation r) /\
  id_sized 32 (fr_operation_hash r) /\ id_sized 32 (fr_schema_hash r) /\ id_sized 32 (fr_contract_hash r) /\
  PlanRef_ok (fr_plan r) /\ idcs_ok (fr_idc_bindings r) /\ origins_ok (fr_origin_ids r) /\
  text_ok (fr_result_codec r) /\ id_sized 32 (fr_result_type_hash r) /\ bytes_ok (fr_exact_result_bytes r) /\
  id_sized 32 (fr_result_digest r) /\ canon_wf (fr_commitments r) /\
  opt_ok ObservationTokenV1_ok (fr_observation_token r) /\ PolicyRef_ok (fr_durability_policy r) /\
  refs_ok (fr_durability_evidence r) /\ ProtocolRecordRef_ok (fr_decision_ref r) /\
  opt_ok ProtocolRecordRef_ok (fr_completion_ref r) /\ FinalReceiptV1_verify sha256 r = Ok tt.
Definition RequestBindingV1_ok (b : RequestBindingV1) : Prop :=
  RequestKey_ok (rb_request_key b) /\ id_sized 32 (rb_request_hash b) /\ id_sized 32 (rb_txn_id b) /\
  id_sized 16 (rb_allocation_home b) /\ in_u 64 (rb_allocation_epoch b) = true /\
  in_u 64 (rb_allocation_seq b) = true /\ in_u 64 (rb_record_revision b) = true /\
  opt_ok PlanRef_ok (rb_admitted_plan b) /\ opt_ok ProtocolRecordRef_ok (rb_decision_authority b) /\
  opt_ok FinalReceiptV1_ok (rb_terminal_receipt b) /\ opt_ok ResultTombstoneV1_ok (rb_tombstone b) /\
  RequestBindingV1_verify b = Ok tt.
Definition ClientReplyV1_ok (r : ClientReplyV1) : Prop :=
  match r with
  | ReplyCommitted x | ReplyRejected x => FinalReceiptV1_ok x
  | ReplyUnavailable x => RefusalV1_ok x
  | ReplyOutcomeUnknown h => ResolutionHintV1_ok h
  | ReplyRequestIdentityMismatch => True
  | ReplyResultExpired t => ResultTombstoneV1_ok t
  | ReplyIdentityExpired n r => id_sized 16 n /\ ProtocolRecordRef_ok r
  | ReplyProtocolError c d => text_ok c /\ text_ok d
  end.
Definition ResolveReplyV1_ok (r : ResolveReplyV1) : Prop :=
  match r with
  | ResTerminal r => ClientReplyV1_ok r
  | ResPending t p pl r => id_sized 32 t /\ text_ok p /\ PlanRef_ok pl /\ ProtocolRecordRef_ok r
  | ResAbsentAtBarrier c h e r =>
      in_u 64 c = true /\ id_sized 16 h /\ in_u 64 e = true /\ in_u 64 r = true
  | ResUnavailable r => RefusalV1_ok r
  end.

Lemma result_digest_total c t b : exists d, result_digest sha256 c t b = Ok d.
Proof.
  unfold result_digest. destruct (robj_total [("exact_result_bytes", cbytes b); ("result_codec", Str c);
    ("result_type_hash", Str (Hash256_to_hex t))] eq_refl) as [v Hv].
  change (robj _) with (robj (oks [("exact_result_bytes", cbytes b); ("result_codec", Str c);
    ("result_type_hash", Str (Hash256_to_hex t))])). rewrite Hv. cbn. eauto.
Qed.
Lemma verify_digest_safe r : safe (fun _ => True) (verify_digest sha256 r).
Proof.
  unfold verify_digest. destruct (result_digest_total (ar_result_codec r) (ar_result_type_hash r)
    (ar_exact_result_bytes r)) as [d ->]. cbn. by destruct (negb _).
Qed.
Lemma FinalReceiptV1_verify_safe r : safe (fun _ => True) (FinalReceiptV1_verify sha256 r).
Proof. unfold FinalReceiptV1_verify. case_if; [done|]. apply verify_digest_safe. Qed.
Lemma RequestBindingV1_verify_safe b : safe (fun _ => True) (RequestBindingV1_verify b).
Proof. unfold RequestBindingV1_verify. cbv zeta. case_if; [done|]. by destruct (rb_state b); case_if. Qed.

#[global] Instance p_AcceptedResultV1_law : Lawful (p_AcceptedResultV1 sha256) AcceptedResultV1_ok.
Proof.
  checked_law (p_AcceptedResultV1 sha256) AcceptedResultV1_to_canon (AcceptedResultV1_from_canon sha256)
    AcceptedResultV1_ok (verify_digest sha256) verify_digest_safe.
Qed.
#[global] Instance p_FinalReceiptV1_law : Lawful (p_FinalReceiptV1 sha256) FinalReceiptV1_ok.
Proof.
  checked_law (p_FinalReceiptV1 sha256) FinalReceiptV1_to_canon (FinalReceiptV1_from_canon sha256)
    FinalReceiptV1_ok (FinalReceiptV1_verify sha256) FinalReceiptV1_verify_safe.
Qed.
#[global] Instance p_FinalReceiptV1_nonnull : NonNull (p_FinalReceiptV1 sha256).
Proof. intros a v. apply robj_nonnull. Qed.
#[global] Instance p_RequestBindingV1_law : Lawful (p_RequestBindingV1 sha256) RequestBindingV1_ok.
Proof.
  checked_law (p_RequestBindingV1 sha256) (RequestBindingV1_to_canon sha256)
    (RequestBindingV1_from_canon sha256)
    RequestBindingV1_ok RequestBindingV1_verify RequestBindingV1_verify_safe.
Qed.
#[global] Instance p_ClientReplyV1_law : Lawful (p_ClientReplyV1 sha256) ClientReplyV1_ok.
Proof.
  enum_law (p_ClientReplyV1 sha256) (ClientReplyV1_to_canon sha256) (ClientReplyV1_from_canon sha256)
    ClientReplyV1_ok.
Qed.
#[global] Instance p_ResolveReplyV1_law : Lawful (p_ResolveReplyV1 sha256) ResolveReplyV1_ok.
Proof.
  enum_law (p_ResolveReplyV1 sha256) (ResolveReplyV1_to_canon sha256) (ResolveReplyV1_from_canon sha256)
    ResolveReplyV1_ok.
Qed.
End laws.
