(* ===== verification/WireRegistry.v ===== *)
(** * Registered records and snapshot interchange
      (src/crates/carolina-wire/src/registry.rs and snapshot.rs)

    The closed registry of record kinds, the wrapper that carries a record
    with its kind and version, references to records by hash, and the
    manifests and chunks by which a snapshot travels. *)

From S2P Require Import Prelude ByteMap Errors Hex Canon CanonRoundtrip CanonInt CanonTyped CanonRecord.
From S2P Require Import Ids WireRecords.

Definition REGISTERED_KINDS : list (string * Z * string) :=
  [("request_content", 1, "SPEC-012"); ("invoke", 1, "SPEC-012"); ("client_reply", 1, "SPEC-012");
   ("resolve_request", 1, "SPEC-012"); ("resolve_reply", 1, "SPEC-012"); ("request_binding", 1, "SPEC-012");
   ("accepted_result", 1, "SPEC-012"); ("final_receipt", 1, "SPEC-012"); ("result_tombstone", 1, "SPEC-012");
   ("observation_token", 1, "SPEC-012"); ("read_contract", 1, "SPEC-012"); ("hello", 1, "SPEC-012");
   ("hello_ack", 1, "SPEC-012"); ("snapshot_manifest", 1, "SPEC-012"); ("snapshot_chunk", 1, "SPEC-012");
   ("codec_manifest", 1, "SPEC-012"); ("compiled_batch", 1, "SPEC-002"); ("protocol_only_batch", 1, "SPEC-002");
   ("txn_status", 1, "SPEC-002"); ("local_decision", 1, "SPEC-002"); ("namespace_retirement", 1, "SPEC-011");
   ("authority_grant", 1, "SPEC-011"); ("request_home_state", 1, "SPEC-012"); ("catalog_command", 1, "SPEC-011");
   ("catalog_commit", 1, "SPEC-011"); ("migration_record", 1, "SPEC-009"); ("close_certificate", 1, "SPEC-009");
   ("semantic_commit", 1, "SPEC-005"); ("causal_context", 1, "SPEC-005"); ("session_token", 1, "SPEC-005");
   ("holder_state", 1, "SPEC-006"); ("transfer_terms", 1, "SPEC-006"); ("transfer_decision", 1, "SPEC-006");
   ("txn_begin", 1, "SPEC-008"); ("prepare_vote", 1, "SPEC-008"); ("decision_certificate", 1, "SPEC-008");
   ("installed", 1, "SPEC-008"); ("publication_certificate", 1, "SPEC-008"); ("publish_seen", 1, "SPEC-008");
   ("completion_certificate", 1, "SPEC-008")].

Definition is_registered (kind : bytes) (version : Z) : bool :=
  existsb (fun '(k, v, _) => bool_decide (str k = kind) && (v =? version)) REGISTERED_KINDS.

Record CanonicalRecord : Type := MkCanonicalRecord {
  cr_record_kind : bytes;
  cr_record_version : Z;
  cr_body : CanonValue;
}.
#[global] Instance CanonicalRecord_eq_dec : EqDecision CanonicalRecord.
Proof. solve_decision. Defined.

Definition wrap {A} (c : pcodec A) (kind : bytes) (body : A) : CoreResult CanonicalRecord :=
  if negb (is_registered kind 1) then Err UnsupportedCodec
  else v ← project c body; Ok (MkCanonicalRecord kind 1 v).
Definition body {A} (c : pcodec A) (r : CanonicalRecord) : CoreResult A := recover c (cr_body r).

Definition CanonicalRecord_to_canon (r : CanonicalRecord) : CoreResult CanonValue :=
  robj [("body", project p_canon (cr_body r));
        ("record_kind", project p_string (cr_record_kind r));
        ("record_version", project p_u32 (cr_record_version r))].
Definition CanonicalRecord_from_canon (v : CanonValue) : CoreResult CanonicalRecord :=
  expect ["body"; "record_kind"; "record_version"] v ≫= fun _ =>
  k ← get "record_kind" p_string v;
  n ← get "record_version" p_u32 v;
  b ← get "body" p_canon v;
  Ok (MkCanonicalRecord k n b).
Definition p_CanonicalRecord : pcodec CanonicalRecord :=
  PCodec CanonicalRecord_to_canon CanonicalRecord_from_canon.

Definition decode_checked (bs : bytes) (lim : Limits) : CoreResult CanonicalRecord :=
  r ← decode_p p_CanonicalRecord lim bs;
  if negb (is_registered (cr_record_kind r) (cr_record_version r)) then Err UnsupportedCodec else Ok r.

(** ** Snapshot chunks and manifests *)
Inductive SnapshotKind : Type := SnapLocalStorage | SnapSemanticGroup | SnapCatalog.
Definition SnapshotKind_label (k : SnapshotKind) : string :=
  match k with
  | SnapLocalStorage => "LocalStorage" | SnapSemanticGroup => "SemanticGroup" | SnapCatalog => "Catalog"
  end.
Definition SnapshotKind_from_label (s : bytes) : CoreResult SnapshotKind :=
  if bool_decide (s = str "LocalStorage") then Ok SnapLocalStorage
  else if bool_decide (s = str "SemanticGroup") then Ok SnapSemanticGroup
  else if bool_decide (s = str "Catalog") then Ok SnapCatalog
  else Err NonCanonicalEncoding.
Definition p_SnapshotKind : pcodec SnapshotKind := p_label SnapshotKind_label SnapshotKind_from_label.

Record ChunkDescriptor : Type := MkChunkDescriptor {
  cd_index : Z;
  cd_record_count : Z;
  cd_byte_length : Z;
  cd_chunk_hash : bytes;
}.
Definition ChunkDescriptor_to_canon (d : ChunkDescriptor) : CoreResult CanonValue :=
  robj [("byte_length", project p_u32 (cd_byte_length d));
        ("chunk_hash", project p_hash (cd_chunk_hash d));
        ("index", project p_u32 (cd_index d));
        ("record_count", project p_u32 (cd_record_count d))].
Definition ChunkDescriptor_from_canon (v : CanonValue) : CoreResult ChunkDescriptor :=
  expect ["byte_length"; "chunk_hash"; "index"; "record_count"] v ≫= fun _ =>
  i ← get "index" p_u32 v;
  n ← get "record_count" p_u32 v;
  l ← get "byte_length" p_u32 v;
  h ← get "chunk_hash" p_hash v;
  Ok (MkChunkDescriptor i n l h).
Definition p_ChunkDescriptor : pcodec ChunkDescriptor :=
  PCodec ChunkDescriptor_to_canon ChunkDescriptor_from_canon.

(** [v.field("snapshot_id")?.as_bytes()?] with its length check. *)
Definition p_sid : pcodec bytes :=
  PCodec (project p_bytes)
    (fun v => b ← recover p_bytes v; if negb (length b =? 16)%nat then Err NonCanonicalEncoding else Ok b).

Record SnapshotManifestV1 : Type := MkSnapshotManifest {
  sm_snapshot_id : bytes;
  sm_snapshot_version : Z;
  sm_cluster_id : bytes;
  sm_tenant_scope : list bytes;
  sm_kind : SnapshotKind;
  sm_source_identity : bytes;
  sm_source_storage_epoch : Z;
  sm_catalog_generation : Z;
  sm_plan_refs : list PlanRef;
  sm_idc_bindings : list IdcBinding;
  sm_membership_generation : Z;
  sm_semantic_cut_with_holes : CanonValue;
  sm_required_codec_manifest : bytes;
  sm_required_artifact_refs : list bytes;
  sm_request_namespace_retirements : list bytes;
  sm_retained_result_horizons : CanonValue;
  sm_unresolved_protocol_refs : list ProtocolRecordRef;
  sm_authority_fences : list ProtocolRecordRef;
  sm_chunks : list ChunkDescriptor;
}.
Abbreviation p_ids := (p_set p_id128 bytes_key).
Abbreviation p_hashes := (p_set p_hash bytes_key).
Abbreviation p_plans := (p_set p_PlanRef PlanRef_key).

Definition SnapshotManifestV1_to_canon (m : SnapshotManifestV1) : CoreResult CanonValue :=
  robj [("authority_fences", project p_refs (sm_authority_fences m));
        ("catalog_generation", project p_u64 (sm_catalog_generation m));
        ("chunks", project (p_vec p_ChunkDescriptor) (sm_chunks m));
        ("cluster_id", project p_id128 (sm_cluster_id m));
        ("idc_bindings", project p_idcs (sm_idc_bindings m));
        ("kind", project p_SnapshotKind (sm_kind m));
        ("membership_generation", project p_u64 (sm_membership_generation m));
        ("plan_refs", project p_plans (sm_plan_refs m));
        ("request_namespace_retirements", project p_ids (sm_request_namespace_retirements m));
        ("required_artifact_refs", project p_hashes (sm_required_artifact_refs m));
        ("required_codec_manifest", project p_hash (sm_required_codec_manifest m));
        ("retained_result_horizons", project p_canon (sm_retained_result_horizons m));
        ("semantic_cut_with_holes", project p_canon (sm_semantic_cut_with_holes m));
        ("snapshot_id", project p_sid (sm_snapshot_id m));
        ("snapshot_version", project p_u32 (sm_snapshot_version m));
        ("source_identity", project p_id128 (sm_source_identity m));
        ("source_storage_epoch", project p_u64 (sm_source_storage_epoch m));
        ("tenant_scope", project p_ids (sm_tenant_scope m));
        ("unresolved_protocol_refs", project p_refs (sm_unresolved_protocol_refs m))].
Definition SnapshotManifestV1_from_canon (v : CanonValue) : CoreResult SnapshotManifestV1 :=
  expect ["authority_fences"; "catalog_generation"; "chunks"; "cluster_id"; "idc_bindings"; "kind";
          "membership_generation"; "plan_refs"; "request_namespace_retirements"; "required_artifact_refs";
          "required_codec_manifest"; "retained_result_horizons"; "semantic_cut_with_holes"; "snapshot_id";
          "snapshot_version"; "source_identity"; "source_storage_epoch"; "tenant_scope";
          "unresolved_protocol_refs"] v ≫= fun _ =>
  sid ← get "snapshot_id" p_sid v;
  sv ← get "snapshot_version" p_u32 v;
  ci ← get "cluster_id" p_id128 v;
  ts ← get "tenant_scope" p_ids v;
  ki ← get "kind" p_SnapshotKind v;
  si ← get "source_identity" p_id128 v;
  se ← get "source_storage_epoch" p_u64 v;
  cg ← get "catalog_generation" p_u64 v;
  pr ← get "plan_refs" p_plans v;
  ib ← get "idc_bindings" p_idcs v;
  mg ← get "membership_generation" p_u64 v;
  sc ← get "semantic_cut_with_holes" p_canon v;
  rm ← get "required_codec_manifest" p_hash v;
  ra ← get "required_artifact_refs" p_hashes v;
  nr ← get "request_namespace_retirements" p_ids v;
  rr ← get "retained_result_horizons" p_canon v;
  up ← get "unresolved_protocol_refs" p_refs v;
  af ← get "authority_fences" p_refs v;
  ch ← get "chunks" (p_vec p_ChunkDescriptor) v;
  Ok (MkSnapshotManifest sid sv ci ts ki si se cg pr ib mg sc rm ra nr rr up af ch).
Definition p_SnapshotManifestV1 : pcodec SnapshotManifestV1 :=
  PCodec SnapshotManifestV1_to_canon SnapshotManifestV1_from_canon.

Record SnapshotChunkV1 : Type := MkSnapshotChunk {
  sc_snapshot_id : bytes;
  sc_index : Z;
  sc_records : list CanonicalRecord;
}.
Definition SnapshotChunkV1_to_canon (c : SnapshotChunkV1) : CoreResult CanonValue :=
  robj [("index", project p_u32 (sc_index c));
        ("records", project (p_vec p_CanonicalRecord) (sc_records c));
        ("snapshot_id", project p_sid (sc_snapshot_id c))].
Definition SnapshotChunkV1_from_canon (v : CanonValue) : CoreResult SnapshotChunkV1 :=
  expect ["index"; "records"; "snapshot_id"] v ≫= fun _ =>
  sid ← get "snapshot_id" p_sid v;
  i ← get "index" p_u32 v;
  r ← get "records" (p_vec p_CanonicalRecord) v;
  Ok (MkSnapshotChunk sid i r).
Definition p_SnapshotChunkV1 : pcodec SnapshotChunkV1 :=
  PCodec SnapshotChunkV1_to_canon SnapshotChunkV1_from_canon.

(** [SnapshotChunkV1::check_size] *)
Definition check_size (c : SnapshotChunkV1) (lim : Limits) : CoreResult unit :=
  b ← encode_p p_SnapshotChunkV1 c;
  if max_snapshot_chunk_bytes lim <? Z.of_nat (length b) then Err ResourceLimit else Ok tt.

(** ** Codec manifest *)
Record CodecManifestEntry : Type := MkCodecManifestEntry {
  ce_record_kind : bytes;
  ce_record_version : Z;
  ce_owner : bytes;
  ce_hash_domain : bytes;
  ce_golden_fixture_hash : option bytes;
}.
Definition CodecManifestEntry_to_canon (e : CodecManifestEntry) : CoreResult CanonValue :=
  robj [("golden_fixture_hash", project (p_option p_hash) (ce_golden_fixture_hash e));
        ("hash_domain", project p_string (ce_hash_domain e));
        ("owner", project p_string (ce_owner e));
        ("record_kind", project p_string (ce_record_kind e));
        ("record_version", project p_u32 (ce_record_version e))].
Definition CodecManifestEntry_from_canon (v : CanonValue) : CoreResult CodecManifestEntry :=
  expect ["golden_fixture_hash"; "hash_domain"; "owner"; "record_kind"; "record_version"] v ≫= fun _ =>
  k ← get "record_kind" p_string v;
  n ← get "record_version" p_u32 v;
  o ← get "owner" p_string v;
  d ← get "hash_domain" p_string v;
  g ← get "golden_fixture_hash" (p_option p_hash) v;
  Ok (MkCodecManifestEntry k n o d g).
Definition p_CodecManifestEntry : pcodec CodecManifestEntry :=
  PCodec CodecManifestEntry_to_canon CodecManifestEntry_from_canon.

Record CodecManifest : Type := MkCodecManifest {
  cm_manifest_version : Z;
  cm_wire_version : bytes;
  cm_entries : list CodecManifestEntry;
  cm_limits_version : Z;
}.
Definition CodecManifest_to_canon (m : CodecManifest) : CoreResult CanonValue :=
  robj [("entries", project (p_vec p_CodecManifestEntry) (cm_entries m));
        ("kind", lit "codec-manifest.v1");
        ("limits_version", project p_u32 (cm_limits_version m));
        ("manifest_version", project p_u32 (cm_manifest_version m));
        ("wire_version", project p_string (cm_wire_version m))].
Definition CodecManifest_from_canon (v : CanonValue) : CoreResult CodecManifest :=
  expect ["entries"; "kind"; "limits_version"; "manifest_version"; "wire_version"] v ≫= fun _ =>
  n ← get "manifest_version" p_u32 v;
  w ← get "wire_version" p_string v;
  e ← get "entries" (p_vec p_CodecManifestEntry) v;
  l ← get "limits_version" p_u32 v;
  Ok (MkCodecManifest n w e l).
Definition p_CodecManifest : pcodec CodecManifest := PCodec CodecManifest_to_canon CodecManifest_from_canon.

(** [CodecManifest::v1] *)
Definition kind_domain (k : string) : string :=
  if String.eqb k "request_content" then REQUEST_V1
  else if String.eqb k "final_receipt" then RECEIPT_V1
  else if String.eqb k "snapshot_manifest" then SNAPSHOT_MANIFEST_V1
  else if String.eqb k "snapshot_chunk" then SNAPSHOT_CHUNK_V1
  else if String.eqb k "hello" || String.eqb k "hello_ack" then NEGOTIATION_V1
  else PROTOCOL_RECORD_V1.
Definition CodecManifest_v1 : CodecManifest :=
  MkCodecManifest 1 (str "1.0")
    (map (fun '(k, v, owner) => MkCodecManifestEntry (str k) v (str owner) (str (kind_domain k)) None)
       REGISTERED_KINDS)
    (limits_version Limits_v1).

Section hashes.
Context (sha256 : bytes -> bytes).

Definition record_hash (r : CanonicalRecord) : CoreResult bytes :=
  b ← encode_p p_CanonicalRecord r; Ok (domain_hash sha256 PROTOCOL_RECORD_V1 b).
Definition CanonicalRecord_reference (r : CanonicalRecord) (record_key : bytes) : CoreResult ProtocolRecordRef :=
  h ← record_hash r; Ok (MkProtocolRecordRef (cr_record_kind r) (cr_record_version r) record_key h).
Definition verify_reference (r : ProtocolRecordRef) (record : CanonicalRecord) : CoreResult unit :=
  if negb (bool_decide (pr_record_kind r = cr_record_kind record)) ||
     negb (pr_record_version r =? cr_record_version record)
  then Err InvalidEvidence
  else h ← record_hash record;
       if negb (bool_decide (pr_payload_hash r = h)) then Err InvalidEvidence else Ok tt.

Definition chunk_hash (c : SnapshotChunkV1) : CoreResult bytes :=
  b ← encode_p p_SnapshotChunkV1 c; Ok (domain_hash sha256 SNAPSHOT_CHUNK_V1 b).
(** The casts [as u32] keep the low 32 bits. *)
Definition descriptor (c : SnapshotChunkV1) : CoreResult ChunkDescriptor :=
  b ← encode_p p_SnapshotChunkV1 c;
  h ← chunk_hash c;
  Ok (MkChunkDescriptor (sc_index c) (wrap_u 32 (Z.of_nat (length (sc_records c))))
        (wrap_u 32 (Z.of_nat (length b))) h).
Definition manifest_hash (m : SnapshotManifestV1) : CoreResult bytes :=
  b ← encode_p p_SnapshotManifestV1 m; Ok (domain_hash sha256 SNAPSHOT_MANIFEST_V1 b).

(** One iteration of the loop of [validate_chunks]. *)
Definition validate_chunk (snapshot_id : bytes) (i : Z) (d : ChunkDescriptor) (c : SnapshotChunkV1)
    (lim : Limits) : CoreResult unit :=
  if negb (cd_index d =? wrap_u 32 i) || negb (sc_index c =? wrap_u 32 i) then Err Corruption
  else if negb (bool_decide (sc_snapshot_id c = snapshot_id)) then Err Corruption
  else if negb (wrap_u 32 (Z.of_nat (length (sc_records c))) =? cd_record_count d) then Err Corruption
  else
    b ← encode_p p_SnapshotChunkV1 c;
    if negb (wrap_u 32 (Z.of_nat (length b)) =? cd_byte_length d) then Err Corruption
    else
      h ← chunk_hash c;
      if negb (bool_decide (h = cd_chunk_hash d)) then Err Corruption
      else
        check_size c lim ≫= fun _ =>
        if forallb (fun r => is_registered (cr_record_kind r) (cr_record_version r)) (sc_records c)
        then Ok tt else Err UnsupportedCodec.

Fixpoint validate_from (snapshot_id : bytes) (i : Z) (ds : list ChunkDescriptor) (cs : list SnapshotChunkV1)
    (lim : Limits) : CoreResult unit :=
  match ds, cs with
  | d :: ds', c :: cs' =>
      validate_chunk snapshot_id i d c lim ≫= fun _ => validate_from snapshot_id (i + 1) ds' cs' lim
  | _, _ => Ok tt
  end.
Definition validate_chunks (m : SnapshotManifestV1) (cs : list SnapshotChunkV1) (lim : Limits) :
    CoreResult unit :=
  if negb (length cs =? length (sm_chunks m))%nat then Err Corruption
  else validate_from (sm_snapshot_id m) 0 (sm_chunks m) cs lim.
End hashes.

(** ** Ranges and laws *)
Definition CanonicalRecord_ok (r : CanonicalRecord) : Prop :=
  text_ok (cr_record_kind r) /\ in_u 32 (cr_record_version r) = true /\ canon_wf (cr_body r).
Definition ChunkDescriptor_ok (d : ChunkDescriptor) : Prop :=
  in_u 32 (cd_index d) = true /\ in_u 32 (cd_record_count d) = true /\ in_u 32 (cd_byte_length d) = true /\
  id_sized 32 (cd_chunk_hash d).
Abbreviation ids_ok := (set_ok (id_sized 16) bytes_key).
Abbreviation hashes_ok := (set_ok (id_sized 32) bytes_key).
Abbreviation plans_ok := (set_ok PlanRef_ok PlanRef_key).
Definition SnapshotManifestV1_ok (m : SnapshotManifestV1) : Prop :=
  id_sized 16 (sm_snapshot_id m) /\ in_u 32 (sm_snapshot_version m) = true /\ id_sized 16 (sm_cluster_id m) /\
  ids_ok (sm_tenant_scope m) /\ id_sized 16 (sm_source_identity m) /\
  in_u 64 (sm_source_storage_epoch m) = true /\ in_u 64 (sm_catalog_generation m) = true /\
  plans_ok (sm_plan_refs m) /\ idcs_ok (sm_idc_bindings m) /\ in_u 64 (sm_membership_generation m) = true /\
  canon_wf (sm_semantic_cut_with_holes m) /\ id_sized 32 (sm_required_codec_manifest m) /\
  hashes_ok (sm_required_artifact_refs m) /\ ids_ok (sm_request_namespace_retirements m) /\
  canon_wf (sm_retained_result_horizons m) /\ refs_ok (sm_unresolved_protocol_refs m) /\
  refs_ok (sm_authority_fences m) /\ Forall ChunkDescriptor_ok (sm_chunks m).
Definition SnapshotChunkV1_ok (c : SnapshotChunkV1) : Prop :=
  id_sized 16 (sc_snapshot_id c) /\ in_u 32 (sc_index c) = true /\ Forall CanonicalRecord_ok (sc_records c).
Definition CodecManifestEntry_ok (e : CodecManifestEntry) : Prop :=
  text_ok (ce_record_kind e) /\ in_u 32 (ce_record_version e) = true /\ text_ok (ce_owner e) /\
  text_ok (ce_hash_domain e) /\ opt_ok (id_sized 32) (ce_golden_fixture_hash e).
Definition CodecManifest_ok (m : CodecManifest) : Prop :=
  in_u 32 (cm_manifest_version m) = true /\ text_ok (cm_wire_version m) /\
  Forall CodecManifestEntry_ok (cm_entries m) /\ in_u 32 (cm_limits_version m) = true.

#[global] Instance SnapshotKind_label_ok : LabelOk SnapshotKind_label SnapshotKind_from_label.
Proof. label_ok. Qed.
#[global] Instance p_sid_law : Lawful p_sid (id_sized 16).
Proof.
  split.
  - intros b [Hb Hl]. destruct (law_project p_bytes b Hb) as (v & Hp & Hw & Hr). exists v.
    split_and!; [done..|]. cbn [recover p_sid]. rewrite Hr. cbn. by rewrite Hl.
  - intros v Hv. cbn [recover p_sid]. eapply safe_bind; [apply (law_recover p_bytes v Hv)|].
    intros b _ Hb. destruct (Nat.eqb_spec (length b) 16); cbn; [|done]. by split.
Qed.
#[global] Instance p_CanonicalRecord_law : Lawful p_CanonicalRecord CanonicalRecord_ok.
Proof. struct_law p_CanonicalRecord CanonicalRecord_to_canon CanonicalRecord_from_canon CanonicalRecord_ok. Qed.
#[global] Instance p_ChunkDescriptor_law : Lawful p_ChunkDescriptor ChunkDescriptor_ok.
Proof. struct_law p_ChunkDescriptor ChunkDescriptor_to_canon ChunkDescriptor_from_canon ChunkDescriptor_ok. Qed.
#[global] Instance p_SnapshotManifestV1_law : Lawful p_SnapshotManifestV1 SnapshotManifestV1_ok.
Proof. struct_law p_SnapshotManifestV1 SnapshotManifestV1_to_canon SnapshotManifestV1_from_canon SnapshotManifestV1_ok. Qed.
#[global] Instance p_SnapshotChunkV1_law : Lawful p_SnapshotChunkV1 SnapshotChunkV1_ok.
Proof. struct_law p_SnapshotChunkV1 SnapshotChunkV1_to_canon SnapshotChunkV1_from_canon SnapshotChunkV1_ok. Qed.
#[global] Instance p_CodecManifestEntry_law : Lawful p_CodecManifestEntry CodecManifestEntry_ok.
Proof. struct_law p_CodecManifestEntry CodecManifestEntry_to_canon CodecManifestEntry_from_canon CodecManifestEntry_ok. Qed.
#[global] Instance p_CodecManifest_law : Lawful p_CodecManifest CodecManifest_ok.
Proof. struct_law p_CodecManifest CodecManifest_to_canon CodecManifest_from_canon CodecManifest_ok. Qed.

(** ** Digests bind what they cover *)

(** Two inputs of the hash function with the same digest. *)
Definition collision (sha256 : bytes -> bytes) : Prop := exists x y, x <> y /\ sha256 x = sha256 y.

Lemma domain_hash_binds {A} (c : pcodec A) valid `{!Lawful c valid} sha256 d a b x y :
  valid a -> valid b -> encode_p c a = Ok x -> encode_p c b = Ok y ->
  domain_hash sha256 d x = domain_hash sha256 d y -> a = b \/ collision sha256.
Proof.
  intros Ha Hb Ex Ey H. destruct (decide (x = y)) as [->|Hne].
  - left. by eapply (encode_p_inj c).
  - right. unfold domain_hash in H. exists (str d ++ 0 :: x), (str d ++ 0 :: y). split; [|done].
    intros [= E]%(inj (app (str d))). done.
Qed.

Section snapshot.
Context (sha256 : bytes -> bytes) (lim : Limits).

Lemma chunk_encodes c : SnapshotChunkV1_ok c -> exists b, encode_p p_SnapshotChunkV1 c = Ok b.
Proof.
  intros Hc. destruct (law_project p_SnapshotChunkV1 c Hc) as (v & Hp & _). unfold encode_p.
  rewrite Hp. cbn. eauto.
Qed.

(** What a receiver requires of the chunk at position [i]. *)
Definition chunk_fits (sid : bytes) (i : Z) (c : SnapshotChunkV1) : Prop :=
  sc_index c = wrap_u 32 i /\ sc_snapshot_id c = sid /\
  forallb (fun r => is_registered (cr_record_kind r) (cr_record_version r)) (sc_records c) = true /\
  (forall b, encode_p p_SnapshotChunkV1 c = Ok b -> Z.of_nat (length b) <= max_snapshot_chunk_bytes lim).

Lemma validate_chunk_spec sid i d c : SnapshotChunkV1_ok c ->
  validate_chunk sha256 sid i d c lim = Ok tt <-> chunk_fits sid i c /\ descriptor sha256 c = Ok d.
Proof.
  intros Hc. destruct (chunk_encodes c Hc) as [b Hb].
  unfold validate_chunk, chunk_fits, descriptor, chunk_hash, check_size. rewrite Hb.
  cbn [mbind outcome_bind]. split.
  - intros H. case_in H as E1; [done|]. case_in H as E2; [done|]. case_in H as E3; [done|].
    case_in H as E4; [done|]. case_in H as E5; [done|]. destruct (_ <? _) eqn:E6 in H; [done|].
    cbn [mbind outcome_bind] in H. case_in H as E7; [|done]. breflect.
    split; [split_and!; try done|].
    + intros b' [= <-]. lia.
    + destruct d; cbn in *. congruence.
  - intros [(Hi & Hs & Hr & Hl) [= <-]]. specialize (Hl b eq_refl).
    cbn [cd_index cd_record_count cd_byte_length cd_chunk_hash].
    rewrite Hi, Hs, !Z.eqb_refl, !bool_decide_eq_true_2 by done. cbn [negb orb].
    rewrite (proj2 (Z.ltb_ge _ _)) by lia. cbn [mbind outcome_bind]. by rewrite Hr.
Qed.

(** The chunks fit at the positions from [i] on. *)
Fixpoint chunks_fit (sid : bytes) (i : Z) (cs : list SnapshotChunkV1) : Prop :=
  match cs with
  | [] => True
  | c :: cs' => chunk_fits sid i c /\ chunks_fit sid (i + 1) cs'
  end.

Lemma validate_from_spec sid cs : forall i ds, Forall SnapshotChunkV1_ok cs -> length cs = length ds ->
  validate_from sha256 sid i ds cs lim = Ok tt <->
  chunks_fit sid i cs /\ collect (descriptor sha256) cs = Ok ds.
Proof.
  induction cs as [|c cs IH]; intros i [|d ds] Hcs Hl; cbn in Hl; try lia; [cbn; naive_solver|].
  apply Forall_cons in Hcs as [Hc Hcs]. cbn [validate_from chunks_fit collect].
  pose proof (validate_chunk_spec sid i d c Hc) as H1. specialize (IH (i + 1) ds Hcs ltac:(lia)).
  split.
  - intros ([] & Hv & Hr)%bind_ok_inv. apply H1 in Hv as [? ->]. apply IH in Hr as [? ->]. done.
  - intros [[Hf Hfs] (d' & Hd & (ds' & Hds & [= <- <-])%bind_ok_inv)%bind_ok_inv].
    rewrite (proj2 H1) by done. cbn. by apply IH.
Qed.

Lemma descriptor_binds c c' d :
  SnapshotChunkV1_ok c -> SnapshotChunkV1_ok c' -> descriptor sha256 c = Ok d -> descriptor sha256 c' = Ok d ->
  c = c' \/ collision sha256.
Proof.
  intros Hc Hc' H H'. destruct (chunk_encodes c Hc) as [b Hb], (chunk_encodes c' Hc') as [b' Hb'].
  unfold descriptor, chunk_hash in H, H'. rewrite Hb in H. rewrite Hb' in H'. cbn in H, H'.
  apply (domain_hash_binds p_SnapshotChunkV1 SnapshotChunkV1_ok sha256 SNAPSHOT_CHUNK_V1 c c' b b');
    [done|done|done|done|]. congruence.
Qed.
End snapshot.

(** C33. A snapshot manifest accepts exactly the snapshot it describes: for a
    manifest that lists the descriptors of the chunks [cs0], [validate_chunks]
    accepts a list of chunks only if it is [cs0] itself (or two inputs of the
    hash function collide), and accepts [cs0] exactly when every chunk stands
    at its index, belongs to this snapshot, respects the size limit and
    carries registered kinds only. *)
Theorem snapshot_validation (sha256 : bytes -> bytes) (lim : Limits) (m : SnapshotManifestV1)
  (cs0 cs : list SnapshotChunkV1)
  (H0 : Forall SnapshotChunkV1_ok cs0) (H : Forall SnapshotChunkV1_ok cs)
  (Hm : collect (descriptor sha256) cs0 = Ok (sm_chunks m)) :
  (validate_chunks sha256 m cs lim = Ok tt -> cs = cs0 \/ collision sha256) /\
  (validate_chunks sha256 m cs0 lim = Ok tt <-> chunks_fit lim (sm_snapshot_id m) 0 cs0).
Proof.
  pose proof (collect_length _ _ _ Hm) as Hl0. unfold validate_chunks. split.
  - intros Hv. destruct (Nat.eqb_spec (length cs) (length (sm_chunks m))) as [Hl|]; cbn in Hv; [|done].
    apply validate_from_spec in Hv as [_ Hd]; [|done..]. apply collect_Ok in Hd, Hm.
    clear Hl0 Hl. revert cs H Hd. induction Hm as [|c0 d cs0 ds Hc0 Hm IH]; intros cs H Hd.
    { inversion Hd; subst. by left. }
    inversion Hd as [|c d' cs' ds' Hc Hd']; subst. apply Forall_cons in H0 as [? ?], H as [? ?].
    destruct (descriptor_binds sha256 c c0 d) as [->|]; [done..| |by right].
    destruct (IH ltac:(done) cs' ltac:(done) Hd') as [->|]; [by left|by right].
  - rewrite <- Hl0, Nat.eqb_refl. cbn [negb]. rewrite validate_from_spec; [|done..]. naive_solver.
Qed.

Lemma snapshot_validation_witness :
  let sha := fun b : bytes => be_encode 32 (Z.of_nat (length b)) in
  let c := MkSnapshotChunk (replicate 16 3) 0 [MkCanonicalRecord (str "txn_status") 1 Null] in
  let d := match descriptor sha c with Ok d => d | _ => MkChunkDescriptor 0 0 0 [] end in
  let m := MkSnapshotManifest (replicate 16 3) 1 (replicate 16 3) [] SnapCatalog [] 0 0 [] [] 0 Null
             (replicate 32 3) [] [] Null [] [] [d] in
  validate_chunks sha m [c] Limits_v1 = Ok tt <-> chunks_fit Limits_v1 (replicate 16 3) 0 [c].
Proof.
  intros sha c d m.
  assert (Hc : Forall SnapshotChunkV1_ok [c]).
  { constructor; [|constructor]. split; [split; [by apply Forall_replicate|reflexivity]|].
    split; [reflexivity|]. constructor; [|constructor]. split; [split; [apply str_ok|reflexivity]|].
    split; [reflexivity|constructor]. }
  apply (snapshot_validation sha Limits_v1 m [c] [c] Hc Hc). vm_compute. reflexivity.
Defined.
