(* ===== verification/WireFrame.v ===== *)
(** * Binary frames (src/crates/carolina-wire/src/envelope.rs)

    A frame is a 32-byte little-endian header and its payload.  [FrameReader]
    reassembles frames from an ordered byte stream that arrives in arbitrary
    pieces; [feed] is its one operation, a function from a reader and a piece
    to the frames it completes (or the error) and the reader it leaves. *)

From S2P Require Import Prelude Errors Hex Canon.

Definition MAGIC : bytes := str "ASTR".
Definition WIRE_MAJOR : Z := 1.
Definition WIRE_MINOR : Z := 0.
Definition HEADER_LEN : nat := 32.

Inductive MessageKind : Type :=
| MHello | MHelloAck | MInvoke | MReply | MResolveRequest | MResolveReply | MRead | MReadReply
| MProtocolRecord | MSnapshotManifest | MSnapshotChunk | MConsensus | MAdmin | MAdminReply.
#[global] Instance MessageKind_eq_dec : EqDecision MessageKind.
Proof. solve_decision. Defined.

(** [kind as u16] *)
Definition MessageKind_as_u16 (k : MessageKind) : Z :=
  match k with
  | MHello => 1 | MHelloAck => 2 | MInvoke => 3 | MReply => 4 | MResolveRequest => 5 | MResolveReply => 6
  | MRead => 7 | MReadReply => 8 | MProtocolRecord => 9 | MSnapshotManifest => 10 | MSnapshotChunk => 11
  | MConsensus => 12 | MAdmin => 13 | MAdminReply => 14
  end.
Definition MessageKind_from_u16 (v : Z) : CoreResult MessageKind :=
  match v with
  | 1 => Ok MHello | 2 => Ok MHelloAck | 3 => Ok MInvoke | 4 => Ok MReply | 5 => Ok MResolveRequest
  | 6 => Ok MResolveReply | 7 => Ok MRead | 8 => Ok MReadReply | 9 => Ok MProtocolRecord
  | 10 => Ok MSnapshotManifest | 11 => Ok MSnapshotChunk | 12 => Ok MConsensus | 13 => Ok MAdmin
  | 14 => Ok MAdminReply
  | _ => Err ProtocolError
  end.
Definition expected_record_kind (k : MessageKind) : option string :=
  match k with
  | MHello => Some "hello" | MHelloAck => Some "hello_ack" | MInvoke => Some "invoke"
  | MReply => Some "client_reply" | MResolveRequest => Some "resolve_request"
  | MResolveReply => Some "resolve_reply" | MSnapshotManifest => Some "snapshot_manifest"
  | MSnapshotChunk => Some "snapshot_chunk"
  | MRead | MReadReply | MProtocolRecord | MConsensus | MAdmin | MAdminReply => None
  end.
(** [matches!(kind, Hello | HelloAck)] *)
Definition is_negotiation (k : MessageKind) : bool :=
  match k with MHello | MHelloAck => true | _ => false end.

Record FrameHeader : Type := MkFrameHeader {
  fh_kind : MessageKind;
  fh_payload_length : Z;
  fh_stream_id : Z;
  fh_sequence : Z;
}.

Definition FrameHeader_encode (h : FrameHeader) : bytes :=
  MAGIC ++ le_encode 2 WIRE_MAJOR ++ le_encode 2 WIRE_MINOR ++ le_encode 2 (MessageKind_as_u16 (fh_kind h)) ++
  le_encode 2 0 ++ le_encode 4 (fh_payload_length h) ++ le_encode 8 (fh_stream_id h) ++
  le_encode 8 (fh_sequence h).

(** [bytes[a..a + n]], read as a little-endian integer *)
Definition le_at (a n : nat) (b : bytes) : Z := le_decode (firstn n (skipn a b)).

Definition FrameHeader_decode (b : bytes) (lim : Limits) : CoreResult FrameHeader :=
  if (length b <? HEADER_LEN)%nat then Err ProtocolError
  else if negb (bool_decide (firstn 4 b = MAGIC)) then Err ProtocolError
  else
    let major := le_at 4 2 b in
    let minor := le_at 6 2 b in
    if negb (major =? WIRE_MAJOR) || negb (minor =? WIRE_MINOR) then Err IncompatiblePeer
    else
      kind ← MessageKind_from_u16 (le_at 8 2 b);
      let flags := le_at 10 2 b in
      if negb (flags =? 0) then Err ProtocolError
      else
        let payload_length := le_at 12 4 b in
        if max_frame_payload lim <? payload_length then Err ResourceLimit
        else Ok (MkFrameHeader kind payload_length (le_at 16 8 b) (le_at 24 8 b)).

(** The cast [payload.len() as u32] keeps the low 32 bits. *)
Definition encode_frame (kind : MessageKind) (stream_id sequence : Z) (payload : bytes) (lim : Limits) :
    CoreResult bytes :=
  if max_frame_payload lim <? Z.of_nat (length payload) then Err ResourceLimit
  else if (if is_negotiation kind then negb (stream_id =? 0) else stream_id =? 0) then Err ProtocolError
  else
    let header := MkFrameHeader kind (wrap_u 32 (Z.of_nat (length payload))) stream_id sequence in
    Ok (FrameHeader_encode header ++ payload).

Record FrameReader : Type := MkFrameReader {
  buf : bytes;
  next_sequence : Z;
  negotiated : bool;
  failed : bool;
}.
#[global] Instance FrameReader_eta : Eta FrameReader :=
  fun r => MkFrameReader (buf r) (next_sequence r) (negotiated r) (failed r).
Definition FrameReader_new : FrameReader := MkFrameReader [] 0 false false.

Record Frame : Type := MkFrame {
  fr_header : FrameHeader;
  fr_payload : bytes;
}.

(** One iteration of the loop of [feed]: it stops, fails or emits a frame
    ([Crash], a panic of the header decoder, does not happen). *)
Inductive feed_step : Type :=
| Wait
| Crash
| Refuse (e : ErrorCode) (r : FrameReader)
| Emit (f : Frame) (r : FrameReader).

Definition feed_once (lim : Limits) (r : FrameReader) : feed_step :=
  let poisoned := r <| failed := true |> in
  if (length (buf r) <? HEADER_LEN)%nat then Wait
  else
    match FrameHeader_decode (firstn HEADER_LEN (buf r)) lim with
    | Ok header =>
        if negb (fh_sequence header =? next_sequence r) then Refuse ProtocolError poisoned
        else if negb (negotiated r) && negb (is_negotiation (fh_kind header)) then Refuse ProtocolError poisoned
        else if (is_negotiation (fh_kind header) && negb (fh_stream_id header =? 0)) ||
                (negb (is_negotiation (fh_kind header)) && (fh_stream_id header =? 0))
        then Refuse ProtocolError poisoned
        else
          let total := (HEADER_LEN + Z.to_nat (fh_payload_length header))%nat in
          if (length (buf r) <? total)%nat then Wait
          else
            let payload := skipn HEADER_LEN (firstn total (buf r)) in
            let rest := skipn total (buf r) in
            match checked_u 64 (next_sequence r + 1) with
            | None => Refuse ProtocolError (r <| buf := rest |>)
            | Some n =>
                Emit (MkFrame header payload)
                  (MkFrameReader rest n (negotiated r || is_negotiation (fh_kind header)) (failed r))
            end
    | Err e => Refuse e poisoned
    | Panic => Crash
    end.

(** The loop; every iteration but the last removes a header from the buffer. *)
Fixpoint feed_loop (fuel : nat) (lim : Limits) (r : FrameReader) (out : list Frame) :
    CoreResult (list Frame) * FrameReader :=
  match fuel with
  | O => (Panic, r)
  | S fuel' =>
      match feed_once lim r with
      | Wait => (Ok out, r)
      | Crash => (Panic, r)
      | Refuse e r' => (Err e, r')
      | Emit f r' => feed_loop fuel' lim r' (out ++ [f])
      end
  end.

Definition feed (r : FrameReader) (b : bytes) (lim : Limits) : CoreResult (list Frame) * FrameReader :=
  if failed r then (Err ProtocolError, r)
  else
    let r1 := r <| buf := buf r ++ b |> in
    feed_loop (S (length (buf r1))) lim r1 [].

Definition mark_negotiated (r : FrameReader) : FrameReader := r <| negotiated := true |>.

(** A connection: the pieces of the stream in the order they arrive. *)
Fixpoint feed_all (r : FrameReader) (pieces : list bytes) (lim : Limits) :
    CoreResult (list Frame) * FrameReader :=
  match pieces with
  | [] => (Ok [], r)
  | b :: pieces' =>
      match feed r b lim with
      | (Ok fs, r1) =>
          match feed_all r1 pieces' lim with
          | (Ok fs', r2) => (Ok (fs ++ fs'), r2)
          | other => other
          end
      | other => other
      end
  end.

(** ** Headers *)
Definition header_ok (h : FrameHeader) : Prop :=
  in_u 32 (fh_payload_length h) = true /\ in_u 64 (fh_stream_id h) = true /\ in_u 64 (fh_sequence h) = true.

Lemma header_length h : length (FrameHeader_encode h) = HEADER_LEN.
Proof. unfold FrameHeader_encode. rewrite !length_app, !le_encode_length. done. Qed.

Lemma message_kind_roundtrip k : MessageKind_from_u16 (MessageKind_as_u16 k) = Ok k.
Proof. by destruct k. Qed.
Lemma kind_inv v k : MessageKind_from_u16 v = Ok k -> v = MessageKind_as_u16 k.
Proof.
  unfold MessageKind_from_u16. intros H.
  repeat match type of H with match ?x with _ => _ end = _ => destruct x; try discriminate H end;
    by injection H as <-.
Qed.
Lemma kind_no_panic v : MessageKind_from_u16 v <> Panic.
Proof.
  unfold MessageKind_from_u16.
  repeat match goal with |- match ?x with _ => _ end <> _ => destruct x end; discriminate.
Qed.

Lemma u_bound_pow w n z : 2 ^ w = 256 ^ Z.of_nat n -> in_u w z = true -> 0 <= z < 256 ^ Z.of_nat n.
Proof. intros <- H. by apply in_u_spec. Qed.

Lemma header_decode_encode h lim rest : header_ok h -> fh_payload_length h <= max_frame_payload lim ->
  FrameHeader_decode (FrameHeader_encode h ++ rest) lim = Ok h.
Proof.
  intros (Hp & Hs & Hq) Hl. unfold FrameHeader_decode. rewrite length_app, header_length.
  change (firstn 4 (FrameHeader_encode h ++ rest)) with MAGIC. rewrite bool_decide_eq_true_2 by done.
  change (le_at 4 2 _) with 1. change (le_at 6 2 _) with 0.
  change (le_at 8 2 _) with (le_decode (le_encode 2 (MessageKind_as_u16 (fh_kind h)))).
  change (le_at 10 2 _) with 0.
  change (le_at 12 4 _) with (le_decode (le_encode 4 (fh_payload_length h))).
  change (le_at 16 8 _) with (le_decode (le_encode 8 (fh_stream_id h))).
  change (le_at 24 8 _) with (le_decode (le_encode 8 (fh_sequence h))).
  rewrite !le_decode_encode by first
    [by apply (u_bound_pow 32) | by apply (u_bound_pow 64) | destruct (fh_kind h); vm_compute; by split].
  rewrite message_kind_roundtrip, (proj2 (Z.ltb_ge _ _)) by done. by destruct h.
Qed.

Lemma le_at_slice a n b : bytes_ok b -> (a + n <= length b)%nat ->
  le_encode n (le_at a n b) ++ skipn (a + n) b = skipn a b.
Proof.
  intros Hb Hl. unfold le_at. set (x := firstn n (skipn a b)).
  assert (Hx : length x = n) by (subst x; rewrite firstn_length_le; [done|rewrite length_skipn; lia]).
  rewrite <- Hx at 1. rewrite le_encode_decode.
  - subst x. rewrite Nat.add_comm, <- skipn_skipn. apply firstn_skipn.
  - subst x. by apply Forall_take, Forall_drop.
Qed.

Lemma header_encode_decode b lim h : bytes_ok b -> FrameHeader_decode b lim = Ok h ->
  firstn HEADER_LEN b = FrameHeader_encode h /\ header_ok h /\ fh_payload_length h <= max_frame_payload lim /\
  (HEADER_LEN <= length b)%nat.
Proof.
  intros Hb H. unfold FrameHeader_decode in H. cbv zeta in H.
  case_in H as E1; [done|]. case_in H as E2; [done|]. case_in H as E3; [done|].
  apply bind_ok_inv in H as (k & Hk & H). case_in H as E4; [done|]. case_in H as E5; [done|].
  injection H as <-. breflect. apply Nat.ltb_ge in E1. apply kind_inv in Hk.
  assert (Hrange : forall a n, (a + n <= length b)%nat -> 0 <= le_at a n b < 256 ^ Z.of_nat n).
  { intros a n Hl. unfold le_at. assert (Hx : length (firstn n (skipn a b)) = n)
      by (rewrite firstn_length_le; [done|rewrite length_skipn; lia]).
    rewrite <- Hx at 3. apply le_decode_bound. by apply Forall_take, Forall_drop. }
  unfold HEADER_LEN in *. split_and!; [| |cbn; lia|done].
  - assert (E : FrameHeader_encode (MkFrameHeader k (le_at 12 4 b) (le_at 16 8 b) (le_at 24 8 b)) ++ skipn 32 b = b).
    { unfold FrameHeader_encode. cbn [fh_kind fh_payload_length fh_stream_id fh_sequence].
      rewrite <- !app_assoc, <- Hk. rewrite <- E2 at 1.
      match goal with E3 : le_at 4 2 b = _, E3' : le_at 6 2 b = _, E4 : le_at 10 2 b = _ |- _ =>
        rewrite <- E3, <- E3', <- E4 end.
      rewrite (le_at_slice 24 8), (le_at_slice 16 8), (le_at_slice 12 4), (le_at_slice 10 2),
        (le_at_slice 8 2), (le_at_slice 6 2), (le_at_slice 4 2) by (done || lia).
      apply firstn_skipn. }
    rewrite <- E at 1. rewrite take_app_le by (rewrite header_length; unfold HEADER_LEN; lia).
    apply firstn_all2. rewrite header_length. unfold HEADER_LEN. lia.
  - split_and!; cbn; apply in_u_spec; apply Hrange; lia.
Qed.

(** ** The loop *)
Definition ext (r : FrameReader) (b : bytes) : FrameReader := r <| buf := buf r ++ b |>.

Section loop.
Context (lim : Limits).

Lemma take_ext n (a b : bytes) : (n <= length a)%nat -> firstn n (a ++ b) = firstn n a.
Proof. intros. by rewrite take_app_le. Qed.
Lemma drop_ext n (a b : bytes) : (n <= length a)%nat -> skipn n (a ++ b) = skipn n a ++ b.
Proof. intros. by rewrite drop_app_le. Qed.

(** More bytes at the end of the buffer do not change a decided iteration. *)
Lemma feed_once_ext r b :
  match feed_once lim r with
  | Wait => True
  | Crash => feed_once lim (ext r b) = Crash
  | Refuse e r' => feed_once lim (ext r b) = Refuse e (ext r' b)
  | Emit f r' => feed_once lim (ext r b) = Emit f (ext r' b)
  end.
Proof.
  unfold feed_once. cbv zeta. change (buf (ext r b)) with (buf r ++ b).
  destruct (Nat.ltb_spec (length (buf r)) HEADER_LEN) as [|Hl]; [done|].
  rewrite (proj2 (Nat.ltb_ge _ _)) by (rewrite length_app; lia). rewrite take_ext by done.
  destruct (FrameHeader_decode _ _) as [h|e|]; [|done|done]. cbn [next_sequence negotiated failed ext update].
  repeat (case_if; [done|]). destruct (Nat.ltb_spec (length (buf r)) (HEADER_LEN + Z.to_nat (fh_payload_length h)))
    as [|Ht]; [done|].
  rewrite (proj2 (Nat.ltb_ge _ _)) by (rewrite length_app; lia). rewrite take_ext, drop_ext by done.
  by destruct (checked_u 64 _).
Qed.

Lemma feed_once_shrinks r f r' : feed_once lim r = Emit f r' -> (length (buf r') < length (buf r))%nat.
Proof.
  unfold feed_once. cbv zeta. intros H. destruct (Nat.ltb_spec (length (buf r)) HEADER_LEN) as [|Hl]; [done|].
  destruct (FrameHeader_decode _ _) as [h|e|]; [|done|done].
  repeat (case_in H as E; [done|clear E]). destruct (checked_u 64 _); [|done].
  injection H as <- <-. cbn [buf]. rewrite length_skipn. unfold HEADER_LEN in *. lia.
Qed.

Lemma feed_once_no_crash r : feed_once lim r <> Crash.
Proof.
  unfold feed_once. cbv zeta. case_if; [done|].
  assert (Hd : FrameHeader_decode (firstn HEADER_LEN (buf r)) lim <> Panic).
  { unfold FrameHeader_decode. cbv zeta. case_if; [done|]. case_if; [done|]. case_if; [done|].
    pose proof (kind_no_panic (le_at 8 2 (firstn HEADER_LEN (buf r)))) as Hk.
    destruct (MessageKind_from_u16 _); cbn; [|done|done]. by repeat case_if. }
  destruct (FrameHeader_decode _ _); [|done|done].
  repeat (case_if; [done|]). by destruct (checked_u 64 _).
Qed.

(** The fuel [feed] gives is enough. *)
Lemma feed_loop_fuel n m r out :
  (length (buf r) < n)%nat -> (length (buf r) < m)%nat -> feed_loop n lim r out = feed_loop m lim r out.
Proof.
  revert m r out; induction n as [|n IH]; intros [|m] r out Hn Hm; try lia. cbn.
  destruct (feed_once lim r) as [| |e r'|f r'] eqn:E; try done.
  apply feed_once_shrinks in E. apply IH; lia.
Qed.

Lemma feed_loop_no_panic n r out : (length (buf r) < n)%nat -> fst (feed_loop n lim r out) <> Panic.
Proof.
  revert r out; induction n as [|n IH]; intros r out Hn; [lia|]. cbn.
  pose proof (feed_once_no_crash r). destruct (feed_once lim r) as [| |e r'|f r'] eqn:E; try done.
  apply feed_once_shrinks in E. apply IH. lia.
Qed.

Definition prepend (out : list Frame) (x : CoreResult (list Frame) * FrameReader) :=
  match x with (Ok fs, r) => (Ok (out ++ fs), r) | other => other end.

Lemma feed_loop_out n r out out' :
  feed_loop n lim r (out ++ out') = prepend out (feed_loop n lim r out').
Proof.
  revert r out'; induction n as [|n IH]; intros r out'; cbn; [done|].
  destruct (feed_once lim r) as [| |e r'|f r']; try done. by rewrite <- app_assoc, IH.
Qed.

Lemma feed_loop_ext n r out fs r1 b : (length (buf r) < n)%nat ->
  feed_loop n lim r out = (Ok fs, r1) -> forall m, (length (buf r ++ b) < m)%nat ->
  feed_loop m lim (ext r b) out = feed_loop m lim (ext r1 b) fs /\ (length (buf r1) <= length (buf r))%nat.
Proof.
  revert r out; induction n as [|n IH]; intros r out Hn H m Hm; [lia|]. cbn in H.
  pose proof (feed_once_ext r b) as Hx. destruct (feed_once lim r) as [| |e r'|f r'] eqn:E; try done.
  { by simplify_eq. }
  apply feed_once_shrinks in E. rewrite length_app in Hm. destruct m as [|m]; [lia|].
  destruct (IH r' _ ltac:(lia) H m) as [H1 H2]; [rewrite length_app; lia|].
  split; [|lia].
  assert (feed_loop (S m) lim (ext r b) out = feed_loop m lim (ext r' b) (out ++ [f])) as ->
    by (cbn [feed_loop]; by rewrite Hx).
  rewrite H1. apply feed_loop_fuel; cbn; rewrite length_app; lia.
Qed.

Lemma feed_loop_failed n r out fs r1 : feed_loop n lim r out = (Ok fs, r1) -> failed r1 = failed r.
Proof.
  revert r out; induction n as [|n IH]; intros r out H; [done|]. cbn in H.
  destruct (feed_once lim r) as [| |e r'|f r'] eqn:E; try done; [by simplify_eq|].
  rewrite (IH _ _ H). unfold feed_once in E. cbv zeta in E. case_in E as E1; [done|].
  destruct (FrameHeader_decode _ _); [|done|done]. repeat (case_in E as E2; [done|clear E2]).
  destruct (checked_u 64 _); [|done]. by injection E as <- <-.
Qed.

(** Feeding two pieces is feeding their concatenation. *)
Lemma feed_app r a b fs r1 : feed r a lim = (Ok fs, r1) ->
  feed r (a ++ b) lim = prepend fs (feed r1 b lim).
Proof.
  unfold feed. destruct (failed r) eqn:Ef; [done|]. cbv zeta. fold (ext r a). fold (ext r (a ++ b)).
  fold (ext r1 b). intros H. rewrite (feed_loop_failed _ _ _ _ _ H). change (failed (ext r a)) with (failed r).
  rewrite Ef. assert (E : ext r (a ++ b) = ext (ext r a) b) by (unfold ext; cbn; by rewrite app_assoc).
  rewrite E. destruct (feed_loop_ext _ (ext r a) [] fs r1 b (Nat.lt_succ_diag_r _) H
    (S (length (buf (ext (ext r a) b))))) as [-> Hl]; [cbn; lia|].
  rewrite <- (app_nil_r fs) at 1. rewrite feed_loop_out. f_equal. apply feed_loop_fuel; cbn; [|lia].
  cbn in Hl. rewrite !length_app in *. lia.
Qed.

(** A refusal of a piece is a refusal of every longer piece. *)
Lemma feed_loop_err n r out e r1 b : (length (buf r) < n)%nat ->
  feed_loop n lim r out = (Err e, r1) -> forall m, (length (buf r ++ b) < m)%nat ->
  fst (feed_loop m lim (ext r b) out) = Err e.
Proof.
  revert r out; induction n as [|n IH]; intros r out Hn H m Hm; [lia|]. cbn in H.
  pose proof (feed_once_ext r b) as Hx. rewrite length_app in Hm. destruct m as [|m]; [lia|]. cbn [feed_loop].
  destruct (feed_once lim r) as [| |e' r'|f r'] eqn:E; try done; rewrite Hx; [by simplify_eq|].
  apply feed_once_shrinks in E. eapply IH; [|done|rewrite length_app]; lia.
Qed.

Lemma feed_prefix_ok r a b fs r2 : feed r (a ++ b) lim = (Ok fs, r2) ->
  exists f1 r1, feed r a lim = (Ok f1, r1).
Proof.
  unfold feed. destruct (failed r); [done|]. cbv zeta. fold (ext r a) (ext r (a ++ b)).
  assert (E : ext r (a ++ b) = ext (ext r a) b) by (unfold ext; cbn; by rewrite app_assoc).
  rewrite E. intros H. pose proof (feed_loop_no_panic _ (ext r a) [] (Nat.lt_succ_diag_r _)) as Hp.
  destruct (feed_loop _ lim (ext r a) []) as [[f1|e|] r1] eqn:E1; [eauto| |done].
  pose proof (feed_loop_err _ _ _ _ _ b (Nat.lt_succ_diag_r _) E1 _ (Nat.lt_succ_diag_r _)) as He.
  cbn in He, H. by rewrite H in He.
Qed.

Lemma feed_all_concat pieces : forall r fs r', pieces <> [] ->
  feed r (concat pieces) lim = (Ok fs, r') -> feed_all r pieces lim = (Ok fs, r').
Proof.
  induction pieces as [|a pieces IH]; intros r fs r' Hne H; [done|]. cbn [concat feed_all] in *.
  destruct pieces as [|b pieces].
  - cbn [concat] in H. rewrite app_nil_r in H. rewrite H. cbn. by rewrite app_nil_r.
  - destruct (feed_prefix_ok _ _ _ _ _ H) as (f1 & r1 & H1). rewrite H1. rewrite (feed_app _ _ _ _ _ H1) in H.
    destruct (feed r1 (concat (b :: pieces)) lim) as [[f2|e|] r2] eqn:E; cbn in H; try done.
    by rewrite (IH r1 f2 r2).
Qed.

(** ** Streams *)

(** What a sender writes: each message framed with the next sequence number. *)
Fixpoint send (seq : Z) (msgs : list (MessageKind * Z * bytes)) : CoreResult bytes :=
  match msgs with
  | [] => Ok []
  | (k, s, p) :: msgs' => b ← encode_frame k s seq p lim; bs ← send (seq + 1) msgs'; Ok (b ++ bs)
  end.
(** What its peer should see. *)
Fixpoint frames_of (seq : Z) (msgs : list (MessageKind * Z * bytes)) : list Frame :=
  match msgs with
  | [] => []
  | (k, s, p) :: msgs' =>
      MkFrame (MkFrameHeader k (Z.of_nat (length p)) s seq) p :: frames_of (seq + 1) msgs'
  end.

Lemma encode_frame_inv k s n p b :
  max_frame_payload lim < 2 ^ 32 -> encode_frame k s n p lim = Ok b ->
  b = FrameHeader_encode (MkFrameHeader k (Z.of_nat (length p)) s n) ++ p /\
  Z.of_nat (length p) <= max_frame_payload lim /\ is_negotiation k = (s =? 0).
Proof.
  intros Hm H. unfold encode_frame in H. case_in H as E1; [done|]. breflect.
  destruct (if is_negotiation k then _ else _) eqn:E2; [done|]. cbv zeta in H.
  match type of H with Ok ?x = Ok _ => assert (b = x) as -> by congruence end.
  unfold wrap_u. rewrite Z.mod_small by lia. split_and!; [done|done|].
  destruct (is_negotiation k), (s =? 0); done.
Qed.

Lemma feed_once_frame k s n p rest g :
  header_ok (MkFrameHeader k (Z.of_nat (length p)) s n) -> Z.of_nat (length p) <= max_frame_payload lim ->
  is_negotiation k = (s =? 0) -> (g = false -> is_negotiation k = true) -> in_u 64 (n + 1) = true ->
  feed_once lim (MkFrameReader
    (FrameHeader_encode (MkFrameHeader k (Z.of_nat (length p)) s n) ++ p ++ rest) n g false) =
  Emit (MkFrame (MkFrameHeader k (Z.of_nat (length p)) s n) p)
       (MkFrameReader rest (n + 1) (g || is_negotiation k) false).
Proof.
  intros Hok Hl Hk Hg Hn. set (h := MkFrameHeader k (Z.of_nat (length p)) s n) in *.
  unfold feed_once. cbv zeta. cbn [buf next_sequence negotiated failed].
  pose proof (header_length h) as Hh.
  rewrite (proj2 (Nat.ltb_ge _ _)) by (rewrite length_app; lia).
  rewrite (take_ext _ (FrameHeader_encode h)), firstn_all2 by lia.
  rewrite <- (app_nil_r (FrameHeader_encode h)) at 1.
  rewrite header_decode_encode by done. cbn [fh_kind fh_payload_length fh_stream_id fh_sequence h].
  rewrite Z.eqb_refl. cbn [negb].
  replace (negb g && negb (is_negotiation k)) with false
    by (destruct g; [done|]; by rewrite Hg).
  replace (_ || _) with false by (rewrite Hk; by destruct (s =? 0)).
  rewrite Nat2Z.id, (proj2 (Nat.ltb_ge _ _)) by (rewrite !length_app; lia).
  unfold checked_u. rewrite Hn. rewrite app_assoc, <- Hh.
  f_equal; [f_equal|f_equal].
  - rewrite take_app_le by (rewrite length_app; lia). rewrite firstn_all2 by (rewrite length_app; lia).
    rewrite drop_app_le, skipn_all by lia. done.
  - rewrite drop_app_le by (rewrite length_app; lia). rewrite skipn_all2 by (rewrite length_app; lia). done.
Qed.

Lemma feed_loop_stream msgs : forall n g bs out fuel,
  max_frame_payload lim < 2 ^ 32 -> send n msgs = Ok bs ->
  0 <= n -> n + Z.of_nat (length msgs) < 2 ^ 64 ->
  Forall (fun '(k, s, p) => in_u 64 s = true) msgs ->
  (g = false -> match msgs with (k, _, _) :: _ => is_negotiation k = true | [] => True end) ->
  (length bs < fuel)%nat ->
  feed_loop fuel lim (MkFrameReader bs n g false) out =
  (Ok (out ++ frames_of n msgs),
   MkFrameReader [] (n + Z.of_nat (length msgs)) (g || negb (length msgs =? 0)%nat) false).
Proof.
  induction msgs as [|[[k s] p] msgs IH]; intros n g bs out fuel Hm Hs Hn Hlen Hst Hg Hf.
  { injection Hs as <-. destruct fuel as [|fuel]; [cbn in Hf; lia|]. cbn.
    by rewrite app_nil_r, Z.add_0_r, orb_false_r. }
  cbn [send] in Hs. apply bind_ok_inv in Hs as (b & Hb & (bs' & Hs & [= <-])%bind_ok_inv).
  apply encode_frame_inv in Hb as (-> & Hl & Hk); [|done]. apply Forall_cons in Hst as [Hsi Hst].
  destruct fuel as [|fuel]; [lia|]. cbn [length] in Hlen. cbn [feed_loop frames_of length].
  rewrite <- app_assoc, feed_once_frame; try done.
  - rewrite IH with (bs := bs'); try done; try lia.
    + rewrite <- app_assoc. f_equal. f_equal; [lia|].
      destruct g; [done|]. rewrite (Hg eq_refl). done.
    + intros [-> E]%orb_false_iff. by rewrite (Hg eq_refl) in E.
    + rewrite !length_app, header_length in Hf. unfold HEADER_LEN in Hf. lia.
  - split_and!; cbn; [apply in_u_spec; lia|done|apply in_u_spec; lia].
  - apply in_u_spec. lia.
Qed.
End loop.

(** C31. A stream of frames survives any fragmentation: whatever a sender writes
    with consecutive sequence numbers, its negotiation first, the reader at the
    other end returns exactly those frames in that order, with an empty buffer
    left, however the bytes were cut into pieces on the way. *)
Theorem frame_stream (lim : Limits) (n : Z) (g : bool) (msgs : list (MessageKind * Z * bytes))
  (bs : bytes) (pieces : list bytes)
  (Hlim : max_frame_payload lim < 2 ^ 32) (Hsend : send lim n msgs = Ok bs)
  (Hn : 0 <= n) (Hlen : n + Z.of_nat (length msgs) < 2 ^ 64)
  (Hstreams : Forall (fun '(k, s, p) => in_u 64 s = true) msgs)
  (Hopen : g = false -> match msgs with (k, _, _) :: _ => is_negotiation k = true | [] => True end)
  (Hne : pieces <> []) (Hcut : concat pieces = bs) :
  feed_all (MkFrameReader [] n g false) pieces lim =
  (Ok (frames_of n msgs),
   MkFrameReader [] (n + Z.of_nat (length msgs)) (g || negb (length msgs =? 0)%nat) false).
Proof.
  apply feed_all_concat; [done|]. rewrite Hcut. unfold feed. cbn [failed buf app update].
  rewrite (feed_loop_stream lim msgs n g bs []); try done. lia.
Qed.

Definition frame_bytes (f : Frame) : bytes := FrameHeader_encode (fr_header f) ++ fr_payload f.

(** The frames numbered from [n] on, each well placed on its stream. *)
Fixpoint numbered (n : Z) (fs : list Frame) : Prop :=
  match fs with
  | [] => True
  | f :: fs' =>
      fh_sequence (fr_header f) = n /\ fh_payload_length (fr_header f) = Z.of_nat (length (fr_payload f)) /\
      is_negotiation (fh_kind (fr_header f)) = (fh_stream_id (fr_header f) =? 0) /\ numbered (n + 1) fs'
  end.

Lemma feed_once_exact lim r f r' : bytes_ok (buf r) -> feed_once lim r = Emit f r' ->
  buf r = frame_bytes f ++ buf r' /\ next_sequence r' = next_sequence r + 1 /\
  fh_sequence (fr_header f) = next_sequence r /\
  fh_payload_length (fr_header f) = Z.of_nat (length (fr_payload f)) /\
  is_negotiation (fh_kind (fr_header f)) = (fh_stream_id (fr_header f) =? 0).
Proof.
  intros Hb H. unfold feed_once in H. cbv zeta in H.
  destruct (Nat.ltb_spec (length (buf r)) HEADER_LEN) as [|Hl]; [done|].
  destruct (FrameHeader_decode _ _) as [h|e|] eqn:Hd; [|done|done].
  apply header_encode_decode in Hd as (He & (Hp & _ & _) & _ & _); [|by apply Forall_take].
  rewrite firstn_firstn, Nat.min_id in He. apply in_u_spec in Hp.
  case_in H as E1; [done|]. case_in H as E2; [done|]. case_in H as E3; [done|].
  destruct (Nat.ltb_spec (length (buf r)) (HEADER_LEN + Z.to_nat (fh_payload_length h))) as [|Ht]; [done|].
  unfold checked_u in H. destruct (in_u 64 (next_sequence r + 1)); [|done].
  match type of H with Emit ?x ?y = _ =>
    assert (f = x) as -> by congruence; assert (r' = y) as -> by congruence end. clear H.
  cbn [fr_header fr_payload buf next_sequence frame_bytes]. breflect.
  assert (Hpl : length (skipn HEADER_LEN (firstn (HEADER_LEN + Z.to_nat (fh_payload_length h)) (buf r))) =
    Z.to_nat (fh_payload_length h)) by (rewrite length_skipn, firstn_length_le by done; lia).
  split_and!; [|done|done|rewrite Hpl; lia|].
  - unfold frame_bytes. cbn [fr_header fr_payload]. rewrite <- He.
    rewrite <- (firstn_skipn (HEADER_LEN + Z.to_nat (fh_payload_length h)) (buf r)) at 1. f_equal.
    rewrite <- (firstn_skipn HEADER_LEN (firstn _ (buf r))) at 1. f_equal.
    by rewrite firstn_firstn, Nat.min_l by lia.
  - destruct (is_negotiation (fh_kind h)), (fh_stream_id h =? 0); cbn in *; naive_solver.
Qed.

Lemma feed_loop_exact lim n : forall r out fs r1, bytes_ok (buf r) ->
  feed_loop n lim r out = (Ok fs, r1) ->
  exists gs, fs = out ++ gs /\ buf r = concat (map frame_bytes gs) ++ buf r1 /\
    next_sequence r1 = next_sequence r + Z.of_nat (length gs) /\ numbered (next_sequence r) gs.
Proof.
  induction n as [|n IH]; intros r out fs r1 Hb H; [done|]. cbn in H.
  destruct (feed_once lim r) as [| |e r'|f r'] eqn:E; try done.
  { simplify_eq. exists []. cbn. rewrite app_nil_r. split_and!; try done. lia. }
  apply feed_once_exact in E as (Hbuf & Hn & Hs & Hp & Hk); [|done].
  destruct (IH _ _ _ _ ltac:(rewrite Hbuf in Hb; by apply Forall_app in Hb as [_ ?]) H)
    as (gs & -> & Hg & Hng & Hnum).
  exists (f :: gs). cbn [map concat length numbered]. rewrite <- app_assoc, Hbuf, Hg, <- app_assoc.
  split_and!; [done|done|lia|done..|]. by rewrite <- Hn.
Qed.

(** The reader invents nothing: when it accepts a piece, the bytes it held
    and the piece are exactly the encodings of the frames it returns followed
    by what it still holds; the frames carry the expected sequence numbers
    without gap or reuse, their declared lengths, and stream zero exactly for
    negotiation.  It never panics. *)
Theorem feed_exact (lim : Limits) (r : FrameReader) (piece : bytes)
  (Hb : bytes_ok (buf r ++ piece)) :
  match feed r piece lim with
  | (Ok fs, r1) =>
      buf r ++ piece = concat (map frame_bytes fs) ++ buf r1 /\
      next_sequence r1 = next_sequence r + Z.of_nat (length fs) /\ numbered (next_sequence r) fs
  | (Err _, _) => True
  | (Panic, _) => False
  end.
Proof.
  unfold feed. destruct (failed r); [done|]. cbv zeta. fold (ext r piece).
  pose proof (feed_loop_no_panic lim _ (ext r piece) [] (Nat.lt_succ_diag_r _)) as Hp.
  destruct (feed_loop _ lim (ext r piece) []) as [[fs|e|] r1] eqn:E; [|done|done].
  apply feed_loop_exact in E as (gs & -> & ? & ? & ?); [|done]. done.
Qed.

Lemma frame_stream_witness :
  feed_all FrameReader_new [[65]; [83; 84]; skipn 3 (FrameHeader_encode (MkFrameHeader MHello 2 0 0) ++ [123; 125])]
    Limits_v1 =
  (Ok [MkFrame (MkFrameHeader MHello 2 0 0) [123; 125]], MkFrameReader [] 1 true false).
Proof.
  refine (frame_stream Limits_v1 0 false [(MHello, 0, [123; 125])]
    (FrameHeader_encode (MkFrameHeader MHello 2 0 0) ++ [123; 125]) _ _ _ _ _ _ _ _ _).
  - vm_compute. reflexivity.
  - vm_compute. reflexivity.
  - lia.
  - vm_compute. reflexivity.
  - repeat constructor.
  - reflexivity.
  - discriminate.
  - vm_compute. reflexivity.
Defined.

Lemma feed_exact_witness :
  match feed FrameReader_new [65; 83] Limits_v1 with
  | (Ok fs, r1) =>
      [65; 83] = concat (map frame_bytes fs) ++ buf r1 /\
      next_sequence r1 = 0 + Z.of_nat (length fs) /\ numbered 0 fs
  | (Err _, _) => True
  | (Panic, _) => False
  end.
Proof.
  apply (feed_exact Limits_v1 FrameReader_new [65; 83]).
  apply (bool_decide_eq_true_1 (Forall byte_ok _)). vm_compute. reflexivity.
Defined.
