(* ===== verification/WireNegotiation.v ===== *)
(** * Negotiation (src/crates/carolina-wire/src/negotiation.rs)

    Hello and HelloAck with their canonical forms, the answer a peer gives to a
    Hello and the check its sender makes of the answer. *)

From S2P Require Import Prelude ByteMap Errors Hex Canon CanonRoundtrip CanonInt CanonTyped CanonRecord.
From S2P Require Import Ids WireRecords WireRegistry.
From stdpp Require Import sorting.
#[local] Open Scope Z_scope.

Inductive EndpointRole : Type := RoleClient | RoleNode | RoleAdmin.
Definition EndpointRole_label (r : EndpointRole) : string :=
  match r with RoleClient => "client" | RoleNode => "node" | RoleAdmin => "admin" end.
Definition EndpointRole_from_label (s : bytes) : CoreResult EndpointRole :=
  if bool_decide (s = str "client") then Ok RoleClient
  else if bool_decide (s = str "node") then Ok RoleNode
  else if bool_decide (s = str "admin") then Ok RoleAdmin
  else Err NonCanonicalEncoding.
Definition p_EndpointRole : pcodec EndpointRole := p_label EndpointRole_label EndpointRole_from_label.

Record AdvertisedLimits : Type := MkAdvertisedLimits {
  al_max_frame_payload : Z;
  al_max_arguments_bytes : Z;
  al_max_result_bytes : Z;
  al_max_token_bytes : Z;
}.
Definition AdvertisedLimits_from_limits (l : Limits) : AdvertisedLimits :=
  MkAdvertisedLimits (max_frame_payload l) (max_arguments_bytes l) (max_result_bytes l) (max_token_bytes l).
Definition AdvertisedLimits_min (a b : AdvertisedLimits) : AdvertisedLimits :=
  MkAdvertisedLimits (Z.min (al_max_frame_payload a) (al_max_frame_payload b))
    (Z.min (al_max_arguments_bytes a) (al_max_arguments_bytes b))
    (Z.min (al_max_result_bytes a) (al_max_result_bytes b))
    (Z.min (al_max_token_bytes a) (al_max_token_bytes b)).
Definition AdvertisedLimits_to_canon (l : AdvertisedLimits) : CoreResult CanonValue :=
  robj [("max_arguments_bytes", project p_u64 (al_max_arguments_bytes l));
        ("max_frame_payload", project p_u64 (al_max_frame_payload l));
        ("max_result_bytes", project p_u64 (al_max_result_bytes l));
        ("max_token_bytes", project p_u64 (al_max_token_bytes l))].
Definition AdvertisedLimits_from_canon (v : CanonValue) : CoreResult AdvertisedLimits :=
  expect ["max_arguments_bytes"; "max_frame_payload"; "max_result_bytes"; "max_token_bytes"] v ≫= fun _ =>
  f ← get "max_frame_payload" p_u64 v;
  a ← get "max_arguments_bytes" p_u64 v;
  r ← get "max_result_bytes" p_u64 v;
  t ← get "max_token_bytes" p_u64 v;
  Ok (MkAdvertisedLimits f a r t).
Definition p_AdvertisedLimits : pcodec AdvertisedLimits :=
  PCodec AdvertisedLimits_to_canon AdvertisedLimits_from_canon.

Record HelloV1 : Type := MkHello {
  he_cluster_id : bytes;
  he_role : EndpointRole;
  he_nonce : bytes;
  he_wire_versions : list bytes;
  he_record_codecs : list bytes;
  he_ir_versions : list bytes;
  he_plan_versions : list bytes;
  he_protocol_capabilities : list bytes;
  he_limits : AdvertisedLimits;
  he_capability_manifest_ref : bytes;
  he_minimum_security_profile : bytes;
}.
Definition HelloV1_to_canon (h : HelloV1) : CoreResult CanonValue :=
  robj [("capability_manifest_ref", project p_hash (he_capability_manifest_ref h));
        ("cluster_id", project p_id128 (he_cluster_id h));
        ("ir_versions", project p_strings (he_ir_versions h));
        ("limits", project p_AdvertisedLimits (he_limits h));
        ("minimum_security_profile", project p_string (he_minimum_security_profile h));
        ("nonce", project p_bytes (he_nonce h));
        ("plan_versions", project p_strings (he_plan_versions h));
        ("protocol_capabilities", project p_strings (he_protocol_capabilities h));
        ("record_codecs", project p_strings (he_record_codecs h));
        ("role", project p_EndpointRole (he_role h));
        ("wire_versions", project p_strings (he_wire_versions h))].
Definition HelloV1_from_canon (v : CanonValue) : CoreResult HelloV1 :=
  expect ["capability_manifest_ref"; "cluster_id"; "ir_versions"; "limits"; "minimum_security_profile";
          "nonce"; "plan_versions"; "protocol_capabilities"; "record_codecs"; "role"; "wire_versions"] v ≫= fun _ =>
  ci ← get "cluster_id" p_id128 v;
  ro ← get "role" p_EndpointRole v;
  no ← get "nonce" p_bytes v;
  wv ← get "wire_versions" p_strings v;
  rc ← get "record_codecs" p_strings v;
  iv ← get "ir_versions" p_strings v;
  pv ← get "plan_versions" p_strings v;
  pc ← get "protocol_capabilities" p_strings v;
  li ← get "limits" p_AdvertisedLimits v;
  cm ← get "capability_manifest_ref" p_hash v;
  ms ← get "minimum_security_profile" p_string v;
  Ok (MkHello ci ro no wv rc iv pv pc li cm ms).
Definition p_HelloV1 : pcodec HelloV1 := PCodec HelloV1_to_canon HelloV1_from_canon.

Record HelloAckV1 : Type := MkHelloAck {
  ha_cluster_id : bytes;
  ha_role : EndpointRole;
  ha_nonce : bytes;
  ha_peer_nonce : bytes;
  ha_selected_wire_version : bytes;
  ha_selected_record_codecs : list bytes;
  ha_selected_ir_version : bytes;
  ha_selected_plan_version : bytes;
  ha_selected_capabilities : list bytes;
  ha_limits : AdvertisedLimits;
  ha_capability_manifest_ref : bytes;
  ha_security_profile : bytes;
}.
Definition HelloAckV1_to_canon (h : HelloAckV1) : CoreResult CanonValue :=
  robj [("capability_manifest_ref", project p_hash (ha_capability_manifest_ref h));
        ("cluster_id", project p_id128 (ha_cluster_id h));
        ("limits", project p_AdvertisedLimits (ha_limits h));
        ("nonce", project p_bytes (ha_nonce h));
        ("peer_nonce", project p_bytes (ha_peer_nonce h));
        ("role", project p_EndpointRole (ha_role h));
        ("security_profile", project p_string (ha_security_profile h));
        ("selected_capabilities", project p_strings (ha_selected_capabilities h));
        ("selected_ir_version", project p_string (ha_selected_ir_version h));
        ("selected_plan_version", project p_string (ha_selected_plan_version h));
        ("selected_record_codecs", project p_strings (ha_selected_record_codecs h));
        ("selected_wire_version", project p_string (ha_selected_wire_version h))].
Definition HelloAckV1_from_canon (v : CanonValue) : CoreResult HelloAckV1 :=
  expect ["capability_manifest_ref"; "cluster_id"; "limits"; "nonce"; "peer_nonce"; "role";
          "security_profile"; "selected_capabilities"; "selected_ir_version"; "selected_plan_version";
          "selected_record_codecs"; "selected_wire_version"] v ≫= fun _ =>
  ci ← get "cluster_id" p_id128 v;
  ro ← get "role" p_EndpointRole v;
  no ← get "nonce" p_bytes v;
  pn ← get "peer_nonce" p_bytes v;
  wv ← get "selected_wire_version" p_string v;
  rc ← get "selected_record_codecs" p_strings v;
  iv ← get "selected_ir_version" p_string v;
  pv ← get "selected_plan_version" p_string v;
  sc ← get "selected_capabilities" p_strings v;
  li ← get "limits" p_AdvertisedLimits v;
  cm ← get "capability_manifest_ref" p_hash v;
  sp ← get "security_profile" p_string v;
  Ok (MkHelloAck ci ro no pn wv rc iv pv sc li cm sp).
Definition p_HelloAckV1 : pcodec HelloAckV1 := PCodec HelloAckV1_to_canon HelloAckV1_from_canon.

(** ** Local capabilities *)
Record LocalCapabilities : Type := MkLocalCapabilities {
  lc_cluster_id : bytes;
  lc_role : EndpointRole;
  lc_wire_versions : list bytes;
  lc_record_codecs : list bytes;
  lc_ir_versions : list bytes;
  lc_plan_versions : list bytes;
  lc_protocol_capabilities : list bytes;
  lc_limits : AdvertisedLimits;
  lc_capability_manifest_ref : bytes;
  lc_security_profile : bytes;
  lc_minimum_security_profile : bytes;
}.

(** [format!("{k}:{v}")] *)
Definition codec_name (k : string) (v : Z) : bytes := str k ++ 58 :: dec_text v.

Definition LocalCapabilities_v1 (cluster_id : bytes) (role : EndpointRole) (limits : Limits)
    (security_profile : bytes) : LocalCapabilities :=
  MkLocalCapabilities cluster_id role [str "1.0"]
    (sort_by bytes_key (map (fun '(k, v, _) => codec_name k v) REGISTERED_KINDS))
    [str "1"] [str "1"] [str "C0_LOCAL_V1:1"; str "C5_SERIAL_V1:1"; str "resolve:1"]
    (AdvertisedLimits_from_limits limits) (replicate 32 0) security_profile security_profile.

Definition hello (c : LocalCapabilities) (nonce : bytes) : HelloV1 :=
  MkHello (lc_cluster_id c) (lc_role c) nonce (lc_wire_versions c) (lc_record_codecs c) (lc_ir_versions c)
    (lc_plan_versions c) (lc_protocol_capabilities c) (lc_limits c) (lc_capability_manifest_ref c)
    (lc_minimum_security_profile c).

(** [rank] and [security_profile_at_least] *)
Definition rank (p : bytes) : Z :=
  if bool_decide (p = str "DEV_LOCAL") then 0
  else if bool_decide (p = str "ENCRYPTED_HOST_V1") then 1
  else -1.
Definition security_profile_at_least (actual minimum : bytes) : bool :=
  (0 <=? rank actual) && (0 <=? rank minimum) && (rank minimum <=? rank actual).

(** [mine.iter().filter(|m| theirs.contains(m))] *)
Definition common (mine theirs : list bytes) : list bytes := filter (fun m => m ∈ theirs) mine.
Definition pick_common (mine theirs : list bytes) : CoreResult (list bytes) :=
  match common mine theirs with [] => Err UnsupportedCodec | l => Ok l end.
(** [iter().max()]: the last of the maximal elements *)
Fixpoint max_text (l : list bytes) : option bytes :=
  match l with
  | [] => None
  | x :: l' =>
      match max_text l' with
      | None => Some x
      | Some y => if bytes_leb x y then Some y else Some x
      end
  end.
(** [.iter().max().cloned().unwrap()] *)
Definition max_unwrap (l : list bytes) : CoreResult bytes :=
  match max_text l with Some x => Ok x | None => Panic end.

Definition answer (c : LocalCapabilities) (h : HelloV1) (nonce : bytes) : CoreResult HelloAckV1 :=
  if negb (bool_decide (he_cluster_id h = lc_cluster_id c)) then Err IncompatiblePeer
  else
    wire ← pick_common (lc_wire_versions c) (he_wire_versions h);
    ir ← pick_common (lc_ir_versions c) (he_ir_versions h);
    plan ← pick_common (lc_plan_versions c) (he_plan_versions h);
    codecs ← pick_common (lc_record_codecs c) (he_record_codecs h);
    let caps := common (lc_protocol_capabilities c) (he_protocol_capabilities h) in
    if negb (bool_decide (he_minimum_security_profile h = lc_security_profile c)) &&
       negb (security_profile_at_least (lc_security_profile c) (he_minimum_security_profile h))
    then Err IncompatiblePeer
    else
      w ← max_unwrap wire;
      i ← max_unwrap ir;
      p ← max_unwrap plan;
      Ok (MkHelloAck (lc_cluster_id c) (lc_role c) nonce (he_nonce h) w codecs i p caps
            (AdvertisedLimits_min (lc_limits c) (he_limits h)) (lc_capability_manifest_ref c)
            (lc_security_profile c)).

(** [v.contains(&x)] *)
Definition contains (l : list bytes) (x : bytes) : bool := bool_decide (x ∈ l).

Definition verify_ack (c : LocalCapabilities) (sent : HelloV1) (ack : HelloAckV1) : CoreResult unit :=
  if negb (bool_decide (ha_cluster_id ack = lc_cluster_id c)) ||
     negb (bool_decide (ha_peer_nonce ack = he_nonce sent)) then Err IncompatiblePeer
  else if negb (contains (he_wire_versions sent) (ha_selected_wire_version ack)) then Err UnsupportedCodec
  else if negb (contains (he_ir_versions sent) (ha_selected_ir_version ack)) ||
          negb (contains (he_plan_versions sent) (ha_selected_plan_version ack)) then Err UnsupportedCodec
  else if existsb (fun x => negb (contains (he_record_codecs sent) x)) (ha_selected_record_codecs ack)
       then Err UnsupportedCodec
  else if existsb (fun x => negb (contains (he_protocol_capabilities sent) x)) (ha_selected_capabilities ack)
       then Err UnsupportedCodec
  else
    let l := ha_limits ack in
    let s := he_limits sent in
    if (al_max_frame_payload s <? al_max_frame_payload l) ||
       (al_max_arguments_bytes s <? al_max_arguments_bytes l) ||
       (al_max_result_bytes s <? al_max_result_bytes l) ||
       (al_max_token_bytes s <? al_max_token_bytes l) then Err ProtocolError
    else if negb (security_profile_at_least (ha_security_profile ack) (he_minimum_security_profile sent))
    then Err IncompatiblePeer
    else Ok tt.

Definition transcript_hash (sha256 : bytes -> bytes) (h : HelloV1) (ack : HelloAckV1) : CoreResult bytes :=
  t ← robj [("ack", project p_HelloAckV1 ack); ("hello", project p_HelloV1 h); ("kind", lit "negotiation.v1")];
  Ok (domain_hash sha256 NEGOTIATION_V1 (encode t)).

(** ** Ranges and laws *)
Definition AdvertisedLimits_ok (l : AdvertisedLimits) : Prop :=
  in_u 64 (al_max_frame_payload l) = true /\ in_u 64 (al_max_arguments_bytes l) = true /\
  in_u 64 (al_max_result_bytes l) = true /\ in_u 64 (al_max_token_bytes l) = true.
Definition HelloV1_ok (h : HelloV1) : Prop :=
  id_sized 16 (he_cluster_id h) /\ bytes_ok (he_nonce h) /\ strings_ok (he_wire_versions h) /\
  strings_ok (he_record_codecs h) /\ strings_ok (he_ir_versions h) /\ strings_ok (he_plan_versions h) /\
  strings_ok (he_protocol_capabilities h) /\ AdvertisedLimits_ok (he_limits h) /\
  id_sized 32 (he_capability_manifest_ref h) /\ text_ok (he_minimum_security_profile h).
Definition HelloAckV1_ok (h : HelloAckV1) : Prop :=
  id_sized 16 (ha_cluster_id h) /\ bytes_ok (ha_nonce h) /\ bytes_ok (ha_peer_nonce h) /\
  text_ok (ha_selected_wire_version h) /\ strings_ok (ha_selected_record_codecs h) /\
  text_ok (ha_selected_ir_version h) /\ text_ok (ha_selected_plan_version h) /\
  strings_ok (ha_selected_capabilities h) /\ AdvertisedLimits_ok (ha_limits h) /\
  id_sized 32 (ha_capability_manifest_ref h) /\ text_ok (ha_security_profile h).
#[global] Instance EndpointRole_label_ok : LabelOk EndpointRole_label EndpointRole_from_label.
Proof. label_ok. Qed.
#[global] Instance p_AdvertisedLimits_law : Lawful p_AdvertisedLimits AdvertisedLimits_ok.
Proof. struct_law p_AdvertisedLimits AdvertisedLimits_to_canon AdvertisedLimits_from_canon AdvertisedLimits_ok. Qed.
#[global] Instance p_HelloV1_law : Lawful p_HelloV1 HelloV1_ok.
Proof. struct_law p_HelloV1 HelloV1_to_canon HelloV1_from_canon HelloV1_ok. Qed.
#[global] Instance p_HelloAckV1_law : Lawful p_HelloAckV1 HelloAckV1_ok.
Proof. struct_law p_HelloAckV1 HelloAckV1_to_canon HelloAckV1_from_canon HelloAckV1_ok. Qed.

(** ** Agreement *)
Definition capabilities_ok (c : LocalCapabilities) : Prop :=
  id_sized 16 (lc_cluster_id c) /\ strings_ok (lc_wire_versions c) /\ strings_ok (lc_record_codecs c) /\
  strings_ok (lc_ir_versions c) /\ strings_ok (lc_plan_versions c) /\
  strings_ok (lc_protocol_capabilities c) /\ AdvertisedLimits_ok (lc_limits c) /\
  id_sized 32 (lc_capability_manifest_ref c) /\ text_ok (lc_security_profile c) /\
  text_ok (lc_minimum_security_profile c).

Lemma common_elem mine theirs x : x ∈ common mine theirs <-> x ∈ mine /\ x ∈ theirs.
Proof. unfold common. rewrite list_elem_of_filter. tauto. Qed.

Lemma Sorted_filter_le {A} (R : relation A) `{!Transitive R} (P : A -> Prop) `{!forall x, Decision (P x)} l :
  Sorted R l -> Sorted R (filter P l).
Proof.
  intros HS%Sorted_StronglySorted; [|done]. apply StronglySorted_Sorted.
  induction HS as [|x l Hl IH Hx]; [constructor|]. rewrite filter_cons. case_decide; [|done].
  constructor; [done|]. rewrite Forall_forall in *. intros y [_ Hy]%list_elem_of_filter. auto.
Qed.

Lemma common_ok mine theirs : strings_ok mine -> strings_ok (common mine theirs).
Proof.
  intros (H1 & H2 & H3). split_and!.
  - rewrite Forall_forall in *. intros x [? _]%common_elem. auto.
  - by apply NoDup_filter.
  - apply Sorted_filter_le; [apply _|done].
Qed.

Lemma pick_common_safe mine theirs :
  safe (fun l => l = common mine theirs /\ l <> []) (pick_common mine theirs).
Proof. unfold pick_common. destruct (common mine theirs); [done|]. by split. Qed.

Lemma max_text_spec l : l <> [] -> exists x, max_text l = Some x /\ x ∈ l /\ forall y, y ∈ l -> bytes_leb y x = true.
Proof.
  induction l as [|x l IH]; intros Hne; [done|]. clear Hne. cbn [max_text]. destruct l as [|z l].
  - exists x. cbn. split_and!; [done|set_solver|]. intros y ->%list_elem_of_singleton. apply bytes_leb_refl.
  - destruct IH as (y & -> & Hy & Hmax); [done|]. destruct (bytes_leb x y) eqn:E.
    + exists y. split_and!; [done|set_solver|]. intros w [->|Hw]%elem_of_cons; auto.
    + exists x. split_and!; [done|set_solver|]. intros w [->|Hw]%elem_of_cons; [apply bytes_leb_refl|].
      eapply bytes_leb_trans; [by apply Hmax|]. by apply bytes_leb_total.
Qed.

(** The greatest version both sides offer. *)
Definition greatest_common (mine theirs : list bytes) (x : bytes) : Prop :=
  x ∈ mine /\ x ∈ theirs /\ forall y, y ∈ mine -> y ∈ theirs -> bytes_leb y x = true.

Lemma max_unwrap_safe mine theirs : common mine theirs <> [] ->
  safe (greatest_common mine theirs) (max_unwrap (common mine theirs)).
Proof.
  intros H. unfold max_unwrap. destruct (max_text_spec _ H) as (x & -> & Hx & Hmax). cbn.
  apply common_elem in Hx as [? ?]. split_and!; [done..|]. intros y ? ?. apply Hmax. by apply common_elem.
Qed.

(** What an answer contains. *)
Lemma answer_spec s h ns :
  safe (fun ack =>
    he_cluster_id h = lc_cluster_id s /\
    (he_minimum_security_profile h = lc_security_profile s \/
     security_profile_at_least (lc_security_profile s) (he_minimum_security_profile h) = true) /\
    exists w i p,
    greatest_common (lc_wire_versions s) (he_wire_versions h) w /\
    greatest_common (lc_ir_versions s) (he_ir_versions h) i /\
    greatest_common (lc_plan_versions s) (he_plan_versions h) p /\
    ack = MkHelloAck (lc_cluster_id s) (lc_role s) ns (he_nonce h) w
      (common (lc_record_codecs s) (he_record_codecs h)) i p
      (common (lc_protocol_capabilities s) (he_protocol_capabilities h)) (AdvertisedLimits_min (lc_limits s) (he_limits h)) (lc_capability_manifest_ref s) (lc_security_profile s))
    (answer s h ns).
Proof.
  unfold answer. destruct (bool_decide (he_cluster_id h = _)) eqn:E1; cbn [negb]; [|done].
  eapply safe_bind; [apply pick_common_safe|intros wire _ [-> Hw]].
  eapply safe_bind; [apply pick_common_safe|intros ir _ [-> Hi]].
  eapply safe_bind; [apply pick_common_safe|intros plan _ [-> Hp]].
  eapply safe_bind; [apply pick_common_safe|intros codecs _ [-> _]]. cbv zeta.
  destruct (negb _ && negb _) eqn:E2; [done|].
  eapply safe_bind; [by apply max_unwrap_safe|intros w _ Gw].
  eapply safe_bind; [by apply max_unwrap_safe|intros i _ Gi].
  eapply safe_bind; [by apply max_unwrap_safe|intros p _ Gp]. breflect.
  split; [done|]. split; [destruct E2 as [E2|E2]; breflect; auto|]. exists w, i, p. by split_and!.
Qed.

Lemma min_ok a b : in_u 64 a = true -> in_u 64 b = true -> in_u 64 (Z.min a b) = true.
Proof. rewrite !in_u_spec. lia. Qed.

Lemma greatest_text mine theirs x : strings_ok mine -> greatest_common mine theirs x -> text_ok x.
Proof. intros (H & _) (Hx & _). rewrite Forall_forall in H. auto. Qed.

Lemma existsb_not_contains l sel :
  existsb (fun x => negb (contains l x)) sel = false <-> forall x, x ∈ sel -> x ∈ l.
Proof.
  rewrite <- not_true_iff_false, existsb_exists. split.
  - intros H x Hx. destruct (decide (x ∈ l)) as [|Hn]; [done|]. destruct H. exists x.
    split; [by apply list_elem_of_In|]. unfold contains. by rewrite bool_decide_eq_false_2.
  - intros H (x & Hx%list_elem_of_In & Hn). unfold contains in Hn.
    rewrite bool_decide_eq_true_2 in Hn by auto. done.
Qed.

(** What the sender of a Hello checks of the answer. *)
Lemma verify_ack_spec c sent ack :
  verify_ack c sent ack = Ok tt <->
  ha_cluster_id ack = lc_cluster_id c /\ ha_peer_nonce ack = he_nonce sent /\
  ha_selected_wire_version ack ∈ he_wire_versions sent /\ ha_selected_ir_version ack ∈ he_ir_versions sent /\
  ha_selected_plan_version ack ∈ he_plan_versions sent /\
  (forall x, x ∈ ha_selected_record_codecs ack -> x ∈ he_record_codecs sent) /\
  (forall x, x ∈ ha_selected_capabilities ack -> x ∈ he_protocol_capabilities sent) /\
  al_max_frame_payload (ha_limits ack) <= al_max_frame_payload (he_limits sent) /\
  al_max_arguments_bytes (ha_limits ack) <= al_max_arguments_bytes (he_limits sent) /\
  al_max_result_bytes (ha_limits ack) <= al_max_result_bytes (he_limits sent) /\
  al_max_token_bytes (ha_limits ack) <= al_max_token_bytes (he_limits sent) /\
  security_profile_at_least (ha_security_profile ack) (he_minimum_security_profile sent) = true.
Proof.
  unfold verify_ack. cbv zeta. rewrite <- !existsb_not_contains. unfold contains.
  repeat match goal with
  | |- context [bool_decide ?P] => destruct (bool_decide_reflect P); cbn [negb orb]
  | |- context [existsb ?f ?l] => destruct (existsb f l)
  | |- context [?a <? ?b] => destruct (Z.ltb_spec a b); cbn [orb]
  | |- context [security_profile_at_least ?a ?b] => destruct (security_profile_at_least a b); cbn [negb]
  end; split; intros; destruct_and?; split_and?; (done || lia).
Qed.

(** C32. Negotiation terminates in agreement: to the Hello of a peer with
    well-formed capabilities, [answer] never panics; an answer it gives is
    well formed (so encoding it does not panic), selects for each of wire, IR
    and plan the greatest version both sides offer, and is accepted by the
    sender of the Hello exactly when its minimum security profile is one of
    the known profiles. *)
Theorem negotiation_agreement (s c : LocalCapabilities) (nc ns : bytes)
  (Hs : capabilities_ok s) (Hc : capabilities_ok c) (Hnc : bytes_ok nc) (Hns : bytes_ok ns) :
  match answer s (hello c nc) ns with
  | Ok ack =>
      HelloAckV1_ok ack /\
      greatest_common (lc_wire_versions s) (lc_wire_versions c) (ha_selected_wire_version ack) /\
      greatest_common (lc_ir_versions s) (lc_ir_versions c) (ha_selected_ir_version ack) /\
      greatest_common (lc_plan_versions s) (lc_plan_versions c) (ha_selected_plan_version ack) /\
      (verify_ack c (hello c nc) ack = Ok tt <-> 0 <= rank (lc_minimum_security_profile c))
  | Err _ => True
  | Panic => False
  end.
Proof.
  pose proof (answer_spec s (hello c nc) ns) as H. destruct (answer s (hello c nc) ns) as [ack|e|]; [|done|done].
  destruct H as (Hcl & Hprof & w & i & p & Hw & Hi & Hp & ->). cbn in Hcl, Hprof, Hw, Hi, Hp.
  destruct Hs as (Hs1 & Hs2 & Hs3 & Hs4 & Hs5 & Hs6 & Hs7 & Hs8 & Hs9 & _).
  split; [|split; [done|split; [done|split; [done|]]]].
  - unfold HelloAckV1_ok. cbn.
    destruct Hs7 as (? & ? & ? & ?), Hc as (_ & _ & _ & _ & _ & _ & (? & ? & ? & ?) & _).
    repeat match goal with |- _ /\ _ => split end; try done; try (by apply common_ok);
      try (eapply greatest_text; [|eassumption]; done); unfold AdvertisedLimits_min, AdvertisedLimits_ok; cbn; split_and!;
      by apply min_ok.
  - rewrite verify_ack_spec. cbn. split.
    + intros H. destruct_and?. unfold security_profile_at_least in *. breflect. lia.
    + intros Hr. destruct Hw as (_ & ? & _), Hi as (_ & ? & _), Hp as (_ & ? & _).
      split_and!; try done; try (intros x [_ ?]%common_elem; done); try lia.
      destruct Hprof as [<-|]; [|done]. unfold security_profile_at_least.
      by rewrite (proj2 (Z.leb_le _ _) Hr), Z.leb_refl.
Qed.

(** The capabilities of a running endpoint are well formed. *)
Lemma strings_sorted l : forallb (fun s => bool_decide (bytes_ok s) && utf8_valid s) l = true ->
  bool_decide (NoDup l) = true -> strings_ok (sort_by bytes_key l).
Proof.
  intros Ht Hn. apply bool_decide_eq_true_1 in Hn. split_and!.
  - rewrite sort_by_perm. rewrite forallb_forall in Ht. apply Forall_forall. intros x Hx%list_elem_of_In.
    specialize (Ht x Hx). breflect. done.
  - by rewrite sort_by_perm.
  - apply sort_by_sorted.
Qed.

Lemma v1_capabilities_ok cluster role profile :
  id_sized 16 cluster -> text_ok profile -> capabilities_ok (LocalCapabilities_v1 cluster role Limits_v1 profile).
Proof.
  intros Hc Hp. unfold capabilities_ok, LocalCapabilities_v1. cbn [lc_cluster_id lc_wire_versions lc_record_codecs
    lc_ir_versions lc_plan_versions lc_protocol_capabilities lc_limits lc_capability_manifest_ref
    lc_security_profile lc_minimum_security_profile].
  change [str "1.0"] with (sort_by bytes_key [str "1.0"]). change [str "1"] with (sort_by bytes_key [str "1"]).
  change [str "C0_LOCAL_V1:1"; str "C5_SERIAL_V1:1"; str "resolve:1"]
    with (sort_by bytes_key [str "C0_LOCAL_V1:1"; str "C5_SERIAL_V1:1"; str "resolve:1"]).
  repeat match goal with |- _ /\ _ => split end; try done;
    try (apply strings_sorted; vm_compute; reflexivity).
  split; [|done]. apply (bool_decide_eq_true_1 (Forall byte_ok _)). vm_compute. reflexivity.
Qed.

Lemma negotiation_agreement_witness :
  let caps r := LocalCapabilities_v1 (replicate 16 1) r Limits_v1 (str "DEV_LOCAL") in
  exists ack, answer (caps RoleNode) (hello (caps RoleClient) [1]) [2] = Ok ack /\
    verify_ack (caps RoleClient) (hello (caps RoleClient) [1]) ack = Ok tt.
Proof.
  intros caps.
  assert (Hcl : id_sized 16 (replicate 16 1))
    by (split; [apply (bool_decide_eq_true_1 (Forall byte_ok _)); vm_compute; reflexivity|reflexivity]).
  assert (Hdev : text_ok (str "DEV_LOCAL")) by (split; [apply str_ok|reflexivity]).
  assert (Hb : forall n, 0 <= n < 256 -> bytes_ok [n]) by (intros n Hn; by constructor).
  pose proof (negotiation_agreement (caps RoleNode) (caps RoleClient) [1] [2]
    (v1_capabilities_ok _ _ _ Hcl Hdev) (v1_capabilities_ok _ _ _ Hcl Hdev)
    (Hb 1 ltac:(lia)) (Hb 2 ltac:(lia))) as H.
  destruct (answer (caps RoleNode) (hello (caps RoleClient) [1]) [2]) as [ack|e|] eqn:E.
  - exists ack. split; [reflexivity|]. destruct H as (_ & _ & _ & _ & H). apply H. vm_compute. discriminate.
  - exfalso. vm_compute in E. discriminate E.
  - destruct H.
Defined.
