(* ===== verification/Batch.v ===== *)
(** * Batches of the durable boundary (src/crates/carolina-storage/src/batch.rs)

    A [CompiledBatch] carries the business mutations and the protocol
    mutations of one transaction across the commit journal; a
    [ProtocolOnlyBatch] carries protocol records alone.  Both are sealed by a
    digest of their canonical form and checked by their reader. *)

From S2P Require Import Prelude ByteMap Errors Hex KeyCodec Canon CanonRoundtrip CanonInt CanonTyped.
From S2P Require Import CanonRecord Ids WireRecords WireRegistry.

Definition BATCH_VERSION : Z := 1.

(** [LogicalKey] is a byte string. *)
Definition LogicalKey_namespace (k : bytes) : CoreResult Namespace :=
  '(ns, _) ← KeyReader.namespace k; Ok ns.

(** ** Mutations *)
Record SemanticMeta : Type := MkSemanticMeta {
  me_flags : Z;
  me_bytes : bytes;
}.
Definition FLAG_TOMBSTONE : Z := 1.
Definition FLAG_SYSTEM : Z := 2.
Definition FLAG_HAS_CAUSAL_META : Z := 4.
Definition FLAG_HAS_SERIAL_META : Z := 8.
Definition FLAG_HAS_ESCROW_META : Z := 16.

Definition SemanticMeta_to_canon (m : SemanticMeta) : CoreResult CanonValue :=
  robj [("bytes", project p_bytes (me_bytes m));
        ("flags", project p_u32 (me_flags m))].
(** The cast [as u8] keeps the low eight bits. *)
Definition SemanticMeta_from_canon (v : CanonValue) : CoreResult SemanticMeta :=
  expect ["bytes"; "flags"] v ≫= fun _ =>
  f ← get "flags" p_u32 v;
  b ← get "bytes" p_bytes v;
  Ok (MkSemanticMeta (wrap_u 8 f) b).
Definition p_SemanticMeta : pcodec SemanticMeta := PCodec SemanticMeta_to_canon SemanticMeta_from_canon.

Inductive StorageMutation : Type :=
| SPut (key value : bytes) (semantic_meta : SemanticMeta)
| SDelete (key : bytes) (semantic_meta : SemanticMeta).

Definition StorageMutation_key (m : StorageMutation) : bytes :=
  match m with SPut key _ _ | SDelete key _ => key end.

Definition StorageMutation_to_canon (m : StorageMutation) : CoreResult CanonValue :=
  match m with
  | SPut key value meta =>
      robj [("key", project p_bytes key);
            ("kind", lit "put");
            ("semantic_meta", project p_SemanticMeta meta);
            ("value", project p_bytes value)]
  | SDelete key meta =>
      robj [("key", project p_bytes key);
            ("kind", lit "delete");
            ("semantic_meta", project p_SemanticMeta meta)]
  end.
Definition StorageMutation_from_canon (v : CanonValue) : CoreResult StorageMutation :=
  k ← get "kind" p_string v;
  if bool_decide (k = str "put") then
    expect ["key"; "kind"; "semantic_meta"; "value"] v ≫= fun _ =>
    key ← get "key" p_bytes v;
    value ← get "value" p_bytes v;
    meta ← get "semantic_meta" p_SemanticMeta v;
    Ok (SPut key value meta)
  else if bool_decide (k = str "delete") then
    expect ["key"; "kind"; "semantic_meta"] v ≫= fun _ =>
    key ← get "key" p_bytes v;
    meta ← get "semantic_meta" p_SemanticMeta v;
    Ok (SDelete key meta)
  else Err NonCanonicalEncoding.
Definition p_StorageMutation : pcodec StorageMutation :=
  PCodec StorageMutation_to_canon StorageMutation_from_canon.

(** ** Protocol records *)
Inductive ExpectedRecordRevision : Type := Absent | Exactly (revision : Z).

Definition ExpectedRecordRevision_to_canon (e : ExpectedRecordRevision) : CoreResult CanonValue :=
  match e with
  | Absent => robj [("kind", lit "absent")]
  | Exactly r => robj [("kind", lit "exact"); ("revision", project p_u64 r)]
  end.
Definition ExpectedRecordRevision_from_canon (v : CanonValue) : CoreResult ExpectedRecordRevision :=
  k ← get "kind" p_string v;
  if bool_decide (k = str "absent") then Ok Absent
  else if bool_decide (k = str "exact") then r ← get "revision" p_u64 v; Ok (Exactly r)
  else Err NonCanonicalEncoding.
Definition p_ExpectedRecordRevision : pcodec ExpectedRecordRevision :=
  PCodec ExpectedRecordRevision_to_canon ExpectedRecordRevision_from_canon.

Record ProtocolRecordKey : Type := MkProtocolRecordKey {
  pk_record_kind : bytes;
  pk_scope_key : bytes;
  pk_record_id : bytes;
}.

(** The match of [ProtocolRecordKey::logical_key]. *)
Definition kind_in (k : bytes) (l : list string) : bool := existsb (fun s => bool_decide (k = str s)) l.
Definition kind_namespace (k : bytes) : Namespace :=
  if kind_in k ["txn_status"; "local_decision"] then TxnStatus
  else if kind_in k ["request_binding"; "namespace_retirement"; "final_receipt"] then RequestBinding
  else if kind_in k ["holder_state"; "transfer_terms"; "transfer_decision"] then Escrow
  else if kind_in k ["semantic_commit"; "causal_context"; "outbox"; "inbox"] then Replication
  else if kind_in k ["plan"; "artifact"] then Plan
  else if kind_in k ["authority_grant"; "catalog_command"; "catalog_commit"; "migration_record";
                     "close_certificate"] then Catalog
  else System.
Definition logical_key (k : ProtocolRecordKey) : bytes :=
  let w := KeyWriter.namespace KeyWriter.new (kind_namespace (pk_record_kind k)) in
  let w := KeyWriter.str w (pk_record_kind k) in
  let w := KeyWriter.bytes w (pk_scope_key k) in
  let w := KeyWriter.bytes w (pk_record_id k) in
  KeyWriter.finish w.

Definition ProtocolRecordKey_to_canon (k : ProtocolRecordKey) : CoreResult CanonValue :=
  robj [("record_id", project p_bytes (pk_record_id k));
        ("record_kind", project p_string (pk_record_kind k));
        ("scope_key", project p_bytes (pk_scope_key k))].
Definition ProtocolRecordKey_from_canon (v : CanonValue) : CoreResult ProtocolRecordKey :=
  expect ["record_id"; "record_kind"; "scope_key"] v ≫= fun _ =>
  k ← get "record_kind" p_string v;
  s ← get "scope_key" p_bytes v;
  i ← get "record_id" p_bytes v;
  Ok (MkProtocolRecordKey k s i).
Definition p_ProtocolRecordKey : pcodec ProtocolRecordKey :=
  PCodec ProtocolRecordKey_to_canon ProtocolRecordKey_from_canon.

Record VersionedProtocolRecord : Type := MkVersionedRecord {
  vr_record_kind : bytes;
  vr_record_version : Z;
  vr_canonical_payload : bytes;
}.
#[global] Instance VersionedProtocolRecord_eq_dec : EqDecision VersionedProtocolRecord.
Proof. solve_decision. Defined.

Definition VersionedProtocolRecord_validate (r : VersionedProtocolRecord) : CoreResult unit :=
  if negb (is_registered (vr_record_kind r) (vr_record_version r)) then Err UnsupportedCodec
  else decode Limits_v1 (vr_canonical_payload r) ≫= fun _ => Ok tt.
Definition VersionedProtocolRecord_reference (sha256 : bytes -> bytes) (r : VersionedProtocolRecord)
    (key : ProtocolRecordKey) : ProtocolRecordRef :=
  MkProtocolRecordRef (vr_record_kind r) (vr_record_version r) (logical_key key)
    (domain_hash sha256 PROTOCOL_RECORD_V1 (vr_canonical_payload r)).

Definition VersionedProtocolRecord_to_canon (r : VersionedProtocolRecord) : CoreResult CanonValue :=
  robj [("canonical_payload", project p_bytes (vr_canonical_payload r));
        ("record_kind", project p_string (vr_record_kind r));
        ("record_version", project p_u32 (vr_record_version r))].
Definition VersionedProtocolRecord_from_canon (v : CanonValue) : CoreResult VersionedProtocolRecord :=
  expect ["canonical_payload"; "record_kind"; "record_version"] v ≫= fun _ =>
  k ← get "record_kind" p_string v;
  n ← get "record_version" p_u32 v;
  p ← get "canonical_payload" p_bytes v;
  Ok (MkVersionedRecord k n p).
Definition p_VersionedProtocolRecord : pcodec VersionedProtocolRecord :=
  PCodec VersionedProtocolRecord_to_canon VersionedProtocolRecord_from_canon.

Record ProtocolRecordWrite : Type := MkProtocolRecordWrite {
  pw_key : ProtocolRecordKey;
  pw_expected : ExpectedRecordRevision;
  pw_next : VersionedProtocolRecord;
}.
Definition ProtocolRecordWrite_to_canon (w : ProtocolRecordWrite) : CoreResult CanonValue :=
  robj [("expected", project p_ExpectedRecordRevision (pw_expected w));
        ("key", project p_ProtocolRecordKey (pw_key w));
        ("next", project p_VersionedProtocolRecord (pw_next w))].
Definition ProtocolRecordWrite_from_canon (v : CanonValue) : CoreResult ProtocolRecordWrite :=
  expect ["expected"; "key"; "next"] v ≫= fun _ =>
  k ← get "key" p_ProtocolRecordKey v;
  e ← get "expected" p_ExpectedRecordRevision v;
  n ← get "next" p_VersionedProtocolRecord v;
  Ok (MkProtocolRecordWrite k e n).
Definition p_ProtocolRecordWrite : pcodec ProtocolRecordWrite :=
  PCodec ProtocolRecordWrite_to_canon ProtocolRecordWrite_from_canon.

(** ** Transaction status *)
Inductive TxnPhase : Type := PhBound | PhAdmitted | PhPrepared | PhInstalled | PhAborted | PhTerminal.
#[global] Instance TxnPhase_eq_dec : EqDecision TxnPhase.
Proof. solve_decision. Defined.

Definition TxnPhase_label (p : TxnPhase) : string :=
  match p with
  | PhBound => "BOUND" | PhAdmitted => "ADMITTED" | PhPrepared => "PREPARED"
  | PhInstalled => "INSTALLED" | PhAborted => "ABORTED" | PhTerminal => "TERMINAL"
  end.
Definition TxnPhase_from_label (s : bytes) : CoreResult TxnPhase :=
  if bool_decide (s = str "BOUND") then Ok PhBound
  else if bool_decide (s = str "ADMITTED") then Ok PhAdmitted
  else if bool_decide (s = str "PREPARED") then Ok PhPrepared
  else if bool_decide (s = str "INSTALLED") then Ok PhInstalled
  else if bool_decide (s = str "ABORTED") then Ok PhAborted
  else if bool_decide (s = str "TERMINAL") then Ok PhTerminal
  else Err NonCanonicalEncoding.
Definition p_TxnPhase : pcodec TxnPhase := p_label TxnPhase_label TxnPhase_from_label.

Definition TxnPhase_can_advance_to (p next : TxnPhase) : bool :=
  match p, next with
  | PhBound, PhAdmitted | PhAdmitted, PhPrepared | PhAdmitted, PhTerminal | PhPrepared, PhInstalled
  | PhPrepared, PhAborted | PhInstalled, PhTerminal | PhAborted, PhTerminal => true
  | _, _ => false
  end.

Inductive TerminalOutcome : Type := TCommitted (r : FinalReceiptV1) | TRejected (r : FinalReceiptV1).
#[global] Instance TerminalOutcome_eq_dec : EqDecision TerminalOutcome.
Proof. solve_decision. Defined.
Definition TerminalOutcome_receipt (t : TerminalOutcome) : FinalReceiptV1 :=
  match t with TCommitted r | TRejected r => r end.

Record TxnStatusRecord : Type := MkTxnStatus {
  ts_revision : Z;
  ts_phase : TxnPhase;
  ts_plan : PlanRef;
  ts_idc_bindings : list IdcBinding;
  ts_prepared_digest : option bytes;
  ts_decision_ref : option ProtocolRecordRef;
  ts_accepted_result : option AcceptedResultV1;
  ts_terminal_outcome : option TerminalOutcome;
}.
#[global] Instance TxnStatusRecord_eq_dec : EqDecision TxnStatusRecord.
Proof. solve_decision. Defined.

Definition TxnStatusRecord_validate (s : TxnStatusRecord) : CoreResult unit :=
  match ts_phase s, is_some (ts_terminal_outcome s) with
  | PhTerminal, false => Err InvalidEvidence
  | PhTerminal, true => Ok tt
  | _, true => Err InvalidEvidence
  | _, false => Ok tt
  end.

(** [p.revision.0 + 1] overflows at [u64::MAX]. *)
Definition validate_transition (prev : option TxnStatusRecord) (next : TxnStatusRecord) : CoreResult unit :=
  TxnStatusRecord_validate next ≫= fun _ =>
  match prev with
  | None => if negb (ts_revision next =? 1) then Err Conflict else Ok tt
  | Some p =>
      r ← uadd 64 (ts_revision p) 1;
      if negb (ts_revision next =? r) then Err Conflict
      else if bool_decide (ts_phase p = ts_phase next) && bool_decide (p = next) then Ok tt
      else if negb (TxnPhase_can_advance_to (ts_phase p) (ts_phase next)) then Err Conflict
      else if negb (bool_decide (ts_plan p = ts_plan next)) ||
              negb (bool_decide (ts_idc_bindings p = ts_idc_bindings next)) then Err IdentityMismatch
      else match ts_terminal_outcome p, ts_terminal_outcome next with
           | Some a, Some b => if negb (bool_decide (a = b)) then Err IdentityMismatch else Ok tt
           | _, _ => Ok tt
           end
  end.

Record TxnStatusTransition : Type := MkTxnStatusTransition {
  tt_txn_id : bytes;
  tt_request_key : RequestKey;
  tt_request_hash : bytes;
  tt_expected_revision : ExpectedRecordRevision;
  tt_next : TxnStatusRecord;
}.

Inductive ProtocolMutation : Type :=
| PutRecord (w : ProtocolRecordWrite)
| SetTxnStatus (t : TxnStatusTransition).

(** ** Batches *)
Record CompiledBatch : Type := MkCompiledBatch {
  cb_batch_version : Z;
  cb_txn_id : bytes;
  cb_request_key : RequestKey;
  cb_request_hash : bytes;
  cb_operation : OperationRef;
  cb_operation_hash : bytes;
  cb_contract_hash : bytes;
  cb_schema_hash : bytes;
  cb_plan : PlanRef;
  cb_idc_bindings : list IdcBinding;
  cb_consistency_class : ConsistencyClass;
  cb_origin : option OriginId;
  cb_semantic_evidence : list ProtocolRecordRef;
  cb_captured_inputs : bytes;
  cb_mutations : list StorageMutation;
  cb_protocol_mutations : list ProtocolMutation;
  cb_terminal_outcome : option TerminalOutcome;
  cb_semantic_digest : bytes;
}.

Record ProtocolOnlyBatch : Type := MkProtocolOnlyBatch {
  po_internal_record_id : ProtocolRecordKey;
  po_authorizing_evidence : list ProtocolRecordRef;
  po_writes : list ProtocolRecordWrite;
}.

Section digests.
Context (sha256 : bytes -> bytes).

Definition TerminalOutcome_to_canon (t : TerminalOutcome) : CoreResult CanonValue :=
  match t with
  | TCommitted r => robj [("kind", lit "committed"); ("receipt", project (p_FinalReceiptV1 sha256) r)]
  | TRejected r => robj [("kind", lit "rejected"); ("receipt", project (p_FinalReceiptV1 sha256) r)]
  end.
Definition TerminalOutcome_from_canon (v : CanonValue) : CoreResult TerminalOutcome :=
  expect ["kind"; "receipt"] v ≫= fun _ =>
  k ← get "kind" p_string v;
  if bool_decide (k = str "committed") then r ← get "receipt" (p_FinalReceiptV1 sha256) v; Ok (TCommitted r)
  else if bool_decide (k = str "rejected") then r ← get "receipt" (p_FinalReceiptV1 sha256) v; Ok (TRejected r)
  else Err NonCanonicalEncoding.
Definition p_TerminalOutcome : pcodec TerminalOutcome :=
  PCodec TerminalOutcome_to_canon TerminalOutcome_from_canon.

Definition TxnStatusRecord_to_canon (s : TxnStatusRecord) : CoreResult CanonValue :=
  robj [("accepted_result", project (p_option (p_AcceptedResultV1 sha256)) (ts_accepted_result s));
        ("decision_ref", project (p_option p_ProtocolRecordRef) (ts_decision_ref s));
        ("idc_bindings", project p_idcs (ts_idc_bindings s));
        ("phase", project p_TxnPhase (ts_phase s));
        ("plan", project p_PlanRef (ts_plan s));
        ("prepared_digest", project (p_option p_hash) (ts_prepared_digest s));
        ("revision", project p_u64 (ts_revision s));
        ("terminal_outcome", project (p_option p_TerminalOutcome) (ts_terminal_outcome s))].
Definition TxnStatusRecord_from_canon (v : CanonValue) : CoreResult TxnStatusRecord :=
  expect ["accepted_result"; "decision_ref"; "idc_bindings"; "phase"; "plan"; "prepared_digest";
          "revision"; "terminal_outcome"] v ≫= fun _ =>
  rv ← get "revision" p_u64 v;
  ph ← get "phase" p_TxnPhase v;
  pl ← get "plan" p_PlanRef v;
  ib ← get "idc_bindings" p_idcs v;
  pd ← get "prepared_digest" (p_option p_hash) v;
  dr ← get "decision_ref" (p_option p_ProtocolRecordRef) v;
  ar ← get "accepted_result" (p_option (p_AcceptedResultV1 sha256)) v;
  ou ← get "terminal_outcome" (p_option p_TerminalOutcome) v;
  let r := MkTxnStatus rv ph pl ib pd dr ar ou in
  TxnStatusRecord_validate r ≫= fun _ => Ok r.
Definition p_TxnStatusRecord : pcodec TxnStatusRecord :=
  PCodec TxnStatusRecord_to_canon TxnStatusRecord_from_canon.

Definition TxnStatusTransition_to_canon (t : TxnStatusTransition) : CoreResult CanonValue :=
  robj [("expected_revision", project p_ExpectedRecordRevision (tt_expected_revision t));
        ("next", project p_TxnStatusRecord (tt_next t));
        ("request_hash", project p_hash (tt_request_hash t));
        ("request_key", project p_RequestKey (tt_request_key t));
        ("txn_id", project p_TxnId (tt_txn_id t))].
Definition TxnStatusTransition_from_canon (v : CanonValue) : CoreResult TxnStatusTransition :=
  expect ["expected_revision"; "next"; "request_hash"; "request_key"; "txn_id"] v ≫= fun _ =>
  tx ← get "txn_id" p_TxnId v;
  rk ← get "request_key" p_RequestKey v;
  rh ← get "request_hash" p_hash v;
  er ← get "expected_revision" p_ExpectedRecordRevision v;
  nx ← get "next" p_TxnStatusRecord v;
  Ok (MkTxnStatusTransition tx rk rh er nx).
Definition p_TxnStatusTransition : pcodec TxnStatusTransition :=
  PCodec TxnStatusTransition_to_canon TxnStatusTransition_from_canon.

Definition ProtocolMutation_to_canon (m : ProtocolMutation) : CoreResult CanonValue :=
  match m with
  | PutRecord w => robj [("kind", lit "put_record"); ("write", project p_ProtocolRecordWrite w)]
  | SetTxnStatus t => robj [("kind", lit "set_txn_status"); ("transition", project p_TxnStatusTransition t)]
  end.
Definition ProtocolMutation_from_canon (v : CanonValue) : CoreResult ProtocolMutation :=
  k ← get "kind" p_string v;
  if bool_decide (k = str "put_record") then w ← get "write" p_ProtocolRecordWrite v; Ok (PutRecord w)
  else if bool_decide (k = str "set_txn_status") then
    t ← get "transition" p_TxnStatusTransition v; Ok (SetTxnStatus t)
  else Err NonCanonicalEncoding.
Definition p_ProtocolMutation : pcodec ProtocolMutation :=
  PCodec ProtocolMutation_to_canon ProtocolMutation_from_canon.

Definition semantic_payload (b : CompiledBatch) : CoreResult CanonValue :=
  robj [("batch_version", project p_u32 (cb_batch_version b));
        ("captured_inputs", project p_bytes (cb_captured_inputs b));
        ("consistency_class", project p_ConsistencyClass (cb_consistency_class b));
        ("contract_hash", project p_hash (cb_contract_hash b));
        ("idc_bindings", project p_idcs (cb_idc_bindings b));
        ("kind", lit "batch.v1");
        ("mutations", project (p_vec p_StorageMutation) (cb_mutations b));
        ("operation", project p_OperationRef (cb_operation b));
        ("operation_hash", project p_hash (cb_operation_hash b));
        ("origin", project (p_option p_OriginId) (cb_origin b));
        ("plan", project p_PlanRef (cb_plan b));
        ("protocol_mutations", project (p_vec p_ProtocolMutation) (cb_protocol_mutations b));
        ("request_hash", project p_hash (cb_request_hash b));
        ("request_key", project p_RequestKey (cb_request_key b));
        ("schema_hash", project p_hash (cb_schema_hash b));
        ("semantic_evidence", project p_refs (cb_semantic_evidence b));
        ("terminal_outcome", project (p_option p_TerminalOutcome) (cb_terminal_outcome b));
        ("txn_id", project p_TxnId (cb_txn_id b))].
Definition compute_digest (b : CompiledBatch) : CoreResult bytes :=
  v ← semantic_payload b; Ok (domain_hash sha256 BATCH_V1 (encode v)).
Definition seal (b : CompiledBatch) : CoreResult CompiledBatch :=
  d ← compute_digest b;
  Ok (MkCompiledBatch (cb_batch_version b) (cb_txn_id b) (cb_request_key b) (cb_request_hash b)
        (cb_operation b) (cb_operation_hash b) (cb_contract_hash b) (cb_schema_hash b) (cb_plan b)
        (cb_idc_bindings b) (cb_consistency_class b) (cb_origin b) (cb_semantic_evidence b)
        (cb_captured_inputs b) (cb_mutations b) (cb_protocol_mutations b) (cb_terminal_outcome b) d).

(** The first loop of [CompiledBatch::verify]; [seen] is the set of keys met. *)
Fixpoint verify_mutations (seen : list bytes) (ms : list StorageMutation) : CoreResult unit :=
  match ms with
  | [] => Ok tt
  | m :: ms' =>
      ns ← LogicalKey_namespace (StorageMutation_key m);
      if negb (is_user_writable ns) then Err ReadOnly
      else if bool_decide (StorageMutation_key m ∈ seen) then Err ProtocolError
      else verify_mutations (StorageMutation_key m :: seen) ms'
  end.

(** The second loop. *)
Definition verify_protocol_mutation (b : CompiledBatch) (pm : ProtocolMutation) : CoreResult unit :=
  match pm with
  | PutRecord w => VersionedProtocolRecord_validate (pw_next w)
  | SetTxnStatus t =>
      if negb (bool_decide (tt_txn_id t = cb_txn_id b)) ||
         negb (bool_decide (tt_request_key t = cb_request_key b)) ||
         negb (bool_decide (tt_request_hash t = cb_request_hash b))
      then Err IdentityMismatch
      else TxnStatusRecord_validate (tt_next t)
  end.
Fixpoint verify_protocol_mutations (b : CompiledBatch) (pms : list ProtocolMutation) : CoreResult unit :=
  match pms with
  | [] => Ok tt
  | pm :: pms' => verify_protocol_mutation b pm ≫= fun _ => verify_protocol_mutations b pms'
  end.

Definition verify_terminal (b : CompiledBatch) : CoreResult unit :=
  match cb_terminal_outcome b with
  | None => Ok tt
  | Some t =>
      let r := TerminalOutcome_receipt t in
      if negb (bool_decide (fr_txn_id r = cb_txn_id b)) ||
         negb (bool_decide (fr_request_key r = cb_request_key b)) ||
         negb (bool_decide (fr_request_hash r = cb_request_hash b)) ||
         negb (bool_decide (fr_plan r = cb_plan b))
      then Err IdentityMismatch
      else Ok tt
  end.

Definition CompiledBatch_verify (b : CompiledBatch) : CoreResult unit :=
  if negb (cb_batch_version b =? BATCH_VERSION) then Err UnsupportedFormat
  else
    d ← compute_digest b;
    if negb (bool_decide (d = cb_semantic_digest b)) then Err Corruption
    else
      verify_mutations [] (cb_mutations b) ≫= fun _ =>
      verify_protocol_mutations b (cb_protocol_mutations b) ≫= fun _ =>
      verify_terminal b.

(** [as_object().unwrap()] *)
Definition CompiledBatch_to_canon (b : CompiledBatch) : CoreResult CanonValue :=
  v ← semantic_payload b;
  match as_object v with
  | Ok o => d ← project p_hash (cb_semantic_digest b); Ok (Object (binsert (str "semantic_digest") d o))
  | _ => Panic
  end.
Definition CompiledBatch_from_canon (v : CanonValue) : CoreResult CompiledBatch :=
  expect ["batch_version"; "captured_inputs"; "consistency_class"; "contract_hash"; "idc_bindings"; "kind";
          "mutations"; "operation"; "operation_hash"; "origin"; "plan"; "protocol_mutations"; "request_hash";
          "request_key"; "schema_hash"; "semantic_digest"; "semantic_evidence"; "terminal_outcome";
          "txn_id"] v ≫= fun _ =>
  bv ← get "batch_version" p_u32 v;
  tx ← get "txn_id" p_TxnId v;
  rk ← get "request_key" p_RequestKey v;
  rh ← get "request_hash" p_hash v;
  op ← get "operation" p_OperationRef v;
  oh ← get "operation_hash" p_hash v;
  ch ← get "contract_hash" p_hash v;
  sh ← get "schema_hash" p_hash v;
  pl ← get "plan" p_PlanRef v;
  ib ← get "idc_bindings" p_idcs v;
  cc ← get "consistency_class" p_ConsistencyClass v;
  og ← get "origin" (p_option p_OriginId) v;
  se ← get "semantic_evidence" p_refs v;
  ci ← get "captured_inputs" p_bytes v;
  mu ← get "mutations" (p_vec p_StorageMutation) v;
  pm ← get "protocol_mutations" (p_vec p_ProtocolMutation) v;
  ou ← get "terminal_outcome" (p_option p_TerminalOutcome) v;
  sd ← get "semantic_digest" p_hash v;
  let b := MkCompiledBatch bv tx rk rh op oh ch sh pl ib cc og se ci mu pm ou sd in
  CompiledBatch_verify b ≫= fun _ => Ok b.
Definition p_CompiledBatch : pcodec CompiledBatch := PCodec CompiledBatch_to_canon CompiledBatch_from_canon.
End digests.

Definition ProtocolOnlyBatch_to_canon (b : ProtocolOnlyBatch) : CoreResult CanonValue :=
  robj [("authorizing_evidence", project p_refs (po_authorizing_evidence b));
        ("internal_record_id", project p_ProtocolRecordKey (po_internal_record_id b));
        ("kind", lit "protocol-batch.v1");
        ("writes", project (p_vec p_ProtocolRecordWrite) (po_writes b))].
Definition ProtocolOnlyBatch_from_canon (v : CanonValue) : CoreResult ProtocolOnlyBatch :=
  expect ["authorizing_evidence"; "internal_record_id"; "kind"; "writes"] v ≫= fun _ =>
  i ← get "internal_record_id" p_ProtocolRecordKey v;
  a ← get "authorizing_evidence" p_refs v;
  w ← get "writes" (p_vec p_ProtocolRecordWrite) v;
  Ok (MkProtocolOnlyBatch i a w).
Definition p_ProtocolOnlyBatch : pcodec ProtocolOnlyBatch :=
  PCodec ProtocolOnlyBatch_to_canon ProtocolOnlyBatch_from_canon.
Definition ProtocolOnlyBatch_digest (sha256 : bytes -> bytes) (b : ProtocolOnlyBatch) : CoreResult bytes :=
  e ← encode_p p_ProtocolOnlyBatch b; Ok (domain_hash sha256 "astra.protocol-batch.v1" e).

(** ** Ranges *)
Definition SemanticMeta_ok (m : SemanticMeta) : Prop := in_u 8 (me_flags m) = true /\ bytes_ok (me_bytes m).
Definition StorageMutation_ok (m : StorageMutation) : Prop :=
  match m with
  | SPut key value meta => bytes_ok key /\ bytes_ok value /\ SemanticMeta_ok meta
  | SDelete key meta => bytes_ok key /\ SemanticMeta_ok meta
  end.
Definition ExpectedRecordRevision_ok (e : ExpectedRecordRevision) : Prop :=
  match e with Absent => True | Exactly r => in_u 64 r = true end.
Definition ProtocolRecordKey_ok (k : ProtocolRecordKey) : Prop :=
  text_ok (pk_record_kind k) /\ bytes_ok (pk_scope_key k) /\ bytes_ok (pk_record_id k).
Definition VersionedProtocolRecord_ok (r : VersionedProtocolRecord) : Prop :=
  text_ok (vr_record_kind r) /\ in_u 32 (vr_record_version r) = true /\ bytes_ok (vr_canonical_payload r).
Definition ProtocolRecordWrite_ok (w : ProtocolRecordWrite) : Prop :=
  ProtocolRecordKey_ok (pw_key w) /\ ExpectedRecordRevision_ok (pw_expected w) /\
  VersionedProtocolRecord_ok (pw_next w).
Definition ProtocolOnlyBatch_ok (b : ProtocolOnlyBatch) : Prop :=
  ProtocolRecordKey_ok (po_internal_record_id b) /\ refs_ok (po_authorizing_evidence b) /\
  Forall ProtocolRecordWrite_ok (po_writes b).

#[global] Instance p_SemanticMeta_law : Lawful p_SemanticMeta SemanticMeta_ok.
Proof.
  split.
  - start_project p_SemanticMeta SemanticMeta_to_canon SemanticMeta_from_canon SemanticMeta_ok.
    destruct H as [Hf Hb]. assert (in_u 32 (me_flags a) = true) by (eapply in_u_mono; [|done]; lia).
    project_law. destruct a. cbn [me_flags me_bytes] in *. unfold wrap_u.
    rewrite Z.mod_small; [done|]. unfold in_u in Hf. lia.
  - intros v W. change (recover p_SemanticMeta) with SemanticMeta_from_canon. unfold SemanticMeta_from_canon.
    recover_law. split; [|done]. cbn [me_flags]. unfold in_u, wrap_u. pose proof (Z.mod_pos_bound a (2 ^ 8)). lia.
Qed.
#[global] Instance p_StorageMutation_law : Lawful p_StorageMutation StorageMutation_ok.
Proof.
  enum_law p_StorageMutation StorageMutation_to_canon StorageMutation_from_canon StorageMutation_ok.
Qed.
#[global] Instance p_ExpectedRecordRevision_law : Lawful p_ExpectedRecordRevision ExpectedRecordRevision_ok.
Proof.
  enum_law p_ExpectedRecordRevision ExpectedRecordRevision_to_canon ExpectedRecordRevision_from_canon
    ExpectedRecordRevision_ok.
Qed.
#[global] Instance p_ProtocolRecordKey_law : Lawful p_ProtocolRecordKey ProtocolRecordKey_ok.
Proof.
  struct_law p_ProtocolRecordKey ProtocolRecordKey_to_canon ProtocolRecordKey_from_canon ProtocolRecordKey_ok.
Qed.
#[global] Instance p_VersionedProtocolRecord_law : Lawful p_VersionedProtocolRecord VersionedProtocolRecord_ok.
Proof.
  struct_law p_VersionedProtocolRecord VersionedProtocolRecord_to_canon VersionedProtocolRecord_from_canon
    VersionedProtocolRecord_ok.
Qed.
#[global] Instance p_ProtocolRecordWrite_law : Lawful p_ProtocolRecordWrite ProtocolRecordWrite_ok.
Proof.
  struct_law p_ProtocolRecordWrite ProtocolRecordWrite_to_canon ProtocolRecordWrite_from_canon
    ProtocolRecordWrite_ok.
Qed.
#[global] Instance p_ProtocolOnlyBatch_law : Lawful p_ProtocolOnlyBatch ProtocolOnlyBatch_ok.
Proof.
  struct_law p_ProtocolOnlyBatch ProtocolOnlyBatch_to_canon ProtocolOnlyBatch_from_canon ProtocolOnlyBatch_ok.
Qed.
#[global] Instance TxnPhase_label_ok : LabelOk TxnPhase_label TxnPhase_from_label.
Proof. label_ok. Qed.

Section laws.
Context (sha256 : bytes -> bytes).

Definition TerminalOutcome_ok (t : TerminalOutcome) : Prop :=
  match t with TCommitted r | TRejected r => FinalReceiptV1_ok sha256 r end.
Definition TxnStatusRecord_ok (s : TxnStatusRecord) : Prop :=
  in_u 64 (ts_revision s) = true /\ PlanRef_ok (ts_plan s) /\ idcs_ok (ts_idc_bindings s) /\
  opt_ok (id_sized 32) (ts_prepared_digest s) /\ opt_ok ProtocolRecordRef_ok (ts_decision_ref s) /\
  opt_ok (AcceptedResultV1_ok sha256) (ts_accepted_result s) /\
  opt_ok TerminalOutcome_ok (ts_terminal_outcome s) /\ TxnStatusRecord_validate s = Ok tt.
Definition TxnStatusTransition_ok (t : TxnStatusTransition) : Prop :=
  id_sized 32 (tt_txn_id t) /\ RequestKey_ok (tt_request_key t) /\ id_sized 32 (tt_request_hash t) /\
  ExpectedRecordRevision_ok (tt_expected_revision t) /\ TxnStatusRecord_ok (tt_next t).
Definition ProtocolMutation_ok (m : ProtocolMutation) : Prop :=
  match m with PutRecord w => ProtocolRecordWrite_ok w | SetTxnStatus t => TxnStatusTransition_ok t end.

Lemma TxnStatusRecord_validate_safe s : safe (fun _ => True) (TxnStatusRecord_validate s).
Proof. unfold TxnStatusRecord_validate. by destruct (ts_phase s), (is_some _). Qed.

#[global] Instance p_AcceptedResultV1_nonnull : NonNull (p_AcceptedResultV1 sha256).
Proof. intros a v. apply robj_nonnull. Qed.
#[global] Instance p_TerminalOutcome_law : Lawful (p_TerminalOutcome sha256) TerminalOutcome_ok.
Proof.
  enum_law (p_TerminalOutcome sha256) (TerminalOutcome_to_canon sha256) (TerminalOutcome_from_canon sha256)
    TerminalOutcome_ok.
Qed.
#[global] Instance p_TerminalOutcome_nonnull : NonNull (p_TerminalOutcome sha256).
Proof. intros a v. destruct a; apply robj_nonnull. Qed.
#[global] Instance p_TxnStatusRecord_law : Lawful (p_TxnStatusRecord sha256) TxnStatusRecord_ok.
Proof.
  checked_law (p_TxnStatusRecord sha256) (TxnStatusRecord_to_canon sha256) (TxnStatusRecord_from_canon sha256)
    TxnStatusRecord_ok TxnStatusRecord_validate TxnStatusRecord_validate_safe.
Qed.
#[global] Instance p_TxnStatusTransition_law : Lawful (p_TxnStatusTransition sha256) TxnStatusTransition_ok.
Proof.
  struct_law (p_TxnStatusTransition sha256) (TxnStatusTransition_to_canon sha256)
    (TxnStatusTransition_from_canon sha256) TxnStatusTransition_ok.
Qed.
#[global] Instance p_ProtocolMutation_law : Lawful (p_ProtocolMutation sha256) ProtocolMutation_ok.
Proof.
  enum_law (p_ProtocolMutation sha256) (ProtocolMutation_to_canon sha256) (ProtocolMutation_from_canon sha256)
    ProtocolMutation_ok.
Qed.

(** What the types of a [CompiledBatch] guarantee; [CompiledBatch_ok] adds
    what its reader checks. *)
Definition batch_typed (b : CompiledBatch) : Prop :=
  in_u 32 (cb_batch_version b) = true /\ id_sized 32 (cb_txn_id b) /\ RequestKey_ok (cb_request_key b) /\
  id_sized 32 (cb_request_hash b) /\ OperationRef_ok (cb_operation b) /\ id_sized 32 (cb_operation_hash b) /\
  id_sized 32 (cb_contract_hash b) /\ id_sized 32 (cb_schema_hash b) /\ PlanRef_ok (cb_plan b) /\
  idcs_ok (cb_idc_bindings b) /\ opt_ok OriginId_ok (cb_origin b) /\ refs_ok (cb_semantic_evidence b) /\
  bytes_ok (cb_captured_inputs b) /\ Forall StorageMutation_ok (cb_mutations b) /\
  Forall ProtocolMutation_ok (cb_protocol_mutations b) /\ opt_ok TerminalOutcome_ok (cb_terminal_outcome b) /\
  id_sized 32 (cb_semantic_digest b).
Definition CompiledBatch_ok (b : CompiledBatch) : Prop :=
  batch_typed b /\ CompiledBatch_verify sha256 b = Ok tt.

Lemma payload_wf b : batch_typed b -> exists v, semantic_payload sha256 b = Ok v /\ canon_wf v /\ v <> Null.
Proof.
  intros H. unfold batch_typed in H. destruct_and?. unfold semantic_payload. project_fields. build_obj.
  by destruct O as (m & -> & _).
Qed.

Lemma VersionedProtocolRecord_validate_safe r : VersionedProtocolRecord_ok r ->
  safe (fun _ => True) (VersionedProtocolRecord_validate r).
Proof.
  intros (_ & _ & Hb). unfold VersionedProtocolRecord_validate. case_if; [done|].
  pose proof (decode_total Limits_v1 (vr_canonical_payload r) ltac:(done) Hb).
  by destruct (decode _ _).
Qed.

Lemma verify_mutations_safe ms : forall seen, safe (fun _ => True) (verify_mutations seen ms).
Proof.
  induction ms as [|m ms IH]; intros seen; cbn [verify_mutations]; [done|].
  eapply (safe_bind (fun _ => True)); [|intros ns _ _; repeat case_if; auto; done].
  unfold LogicalKey_namespace, KeyReader.namespace. destruct (StorageMutation_key m) as [|b k]; [done|].
  cbn. unfold Namespace_from_byte. by repeat case_match.
Qed.

Lemma verify_protocol_mutations_safe b pms : Forall ProtocolMutation_ok pms ->
  safe (fun _ => True) (verify_protocol_mutations b pms).
Proof.
  induction 1 as [|pm pms Hp _ IH]; cbn [verify_protocol_mutations]; [done|].
  eapply (safe_bind (fun _ => True)); [|auto]. destruct pm as [w|t]; cbn [verify_protocol_mutation].
  - apply VersionedProtocolRecord_validate_safe. apply Hp.
  - case_if; [done|apply TxnStatusRecord_validate_safe].
Qed.

Lemma CompiledBatch_verify_safe b : batch_typed b -> safe (fun _ => True) (CompiledBatch_verify sha256 b).
Proof.
  intros Hb. unfold CompiledBatch_verify. case_if; [done|]. unfold compute_digest.
  destruct (payload_wf b Hb) as (v & -> & _). cbn [mbind outcome_bind]. case_if; [done|].
  eapply safe_bind; [apply verify_mutations_safe|intros _ _ _].
  eapply safe_bind; [apply verify_protocol_mutations_safe; apply Hb|intros _ _ _].
  unfold verify_terminal. destruct (cb_terminal_outcome b); [|done]. cbv zeta. by case_if.
Qed.

#[global] Instance p_CompiledBatch_law : Lawful (p_CompiledBatch sha256) CompiledBatch_ok.
Proof.
  split.
  - start_project (p_CompiledBatch sha256) (CompiledBatch_to_canon sha256) (CompiledBatch_from_canon sha256)
      CompiledBatch_ok. destruct H as [Hb Hv].
    pose proof Hb as Hb'. unfold batch_typed in Hb'. destruct_and?.
    unfold semantic_payload. project_fields.
    match goal with |- context [robj ?l] => let kvs := oks_of l in
      destruct (robj_is_obj kvs) as (w & E & O & W); [reflexivity| |change (robj _) with (robj (oks kvs)); rewrite E]
    end.
    { repeat apply Forall_cons_2; try apply Forall_nil_2; cbn [snd];
        first [assumption | apply lit_wf; reflexivity]. }
    cbn [mbind outcome_bind]. clear E.
    eapply (obj_insert _ _ "semantic_digest") in O as (o & -> & O & W'); [|reflexivity|exact Hw|exact W].
    cbn [as_object mbind outcome_bind]. eexists. split; [reflexivity|]. split; [exact W'|].
    read_obj. cbv zeta. replace (MkCompiledBatch _ _ _ _ _ _ _ _ _ _ _ _ _ _ _ _ _ _) with a by (by destruct a).
    by rewrite Hv.
  - intros v W. change (recover (p_CompiledBatch sha256)) with (CompiledBatch_from_canon sha256).
    unfold CompiledBatch_from_canon. recover_law.
    match goal with |- safe _ (CompiledBatch_verify _ ?b ≫= _) => assert (Hb : batch_typed b) end.
    { unfold batch_typed. cbn. split_and?; assumption. }
    eapply (safe_bind (fun _ => True)); [by apply CompiledBatch_verify_safe|]. intros [] Hv _.
    cbn [safe]. by split.
Qed.
End laws.
