(* ===== verification/BatchSpec.v ===== *)
(** * What a sealed batch guarantees (src/crates/carolina-storage/src/batch.rs)

    The checks of [CompiledBatch::verify] as an exact specification, the
    binding of a batch by its digest, and the life cycle of a transaction
    status under [TxnStatusRecord::validate_transition]. *)

From S2P Require Import Prelude ByteMap Errors Hex KeyCodec Canon CanonRoundtrip CanonInt CanonTyped.
From S2P Require Import CanonRecord Ids WireRecords WireRegistry Batch.
From stdpp Require Import sorting.
#[local] Open Scope Z_scope.

(** ** Specification *)

(** The namespace byte of a business key. *)
Definition user_key (k : bytes) : Prop :=
  exists b k', k = b :: k' /\ (b = 1 \/ b = 9 \/ b = 11).

Definition mutation_keys (b : CompiledBatch) : list bytes := map StorageMutation_key (cb_mutations b).

(** A protocol mutation that belongs to the batch that carries it. *)
Definition owned (b : CompiledBatch) (pm : ProtocolMutation) : Prop :=
  match pm with
  | PutRecord w => VersionedProtocolRecord_validate (pw_next w) = Ok tt
  | SetTxnStatus t =>
      tt_txn_id t = cb_txn_id b /\ tt_request_key t = cb_request_key b /\ tt_request_hash t = cb_request_hash b /\
      (ts_phase (tt_next t) = PhTerminal <-> ts_terminal_outcome (tt_next t) <> None)
  end.

Definition receipt_matches (b : CompiledBatch) (r : FinalReceiptV1) : Prop :=
  fr_txn_id r = cb_txn_id b /\ fr_request_key r = cb_request_key b /\
  fr_request_hash r = cb_request_hash b /\ fr_plan r = cb_plan b.

(** ** Lemmas *)
Lemma namespace_user k :
  (exists ns, LogicalKey_namespace k = Ok ns /\ is_user_writable ns = true) <-> user_key k.
Proof.
  unfold LogicalKey_namespace, user_key. destruct k as [|b k]; cbn.
  - split; [by intros (? & ? & _)|by intros (? & ? & ? & _)].
  - unfold Namespace_from_byte. split.
    + intros (ns & H & Hu). exists b, k. split; [done|]. repeat case_match; cbn in *; simplify_eq; auto.
    + intros (b' & k' & [= <- <-] & [->|[->| ->]]); eauto.
Qed.

Lemma verify_mutations_spec ms : forall seen,
  verify_mutations seen ms = Ok tt <->
  Forall (fun m => user_key (StorageMutation_key m)) ms /\ NoDup (map StorageMutation_key ms) /\
  Forall (fun k => k ∉ seen) (map StorageMutation_key ms).
Proof.
  induction ms as [|m ms IH]; intros seen; cbn [verify_mutations map].
  { split; [|done]. intros _. split_and!; constructor. }
  pose proof (namespace_user (StorageMutation_key m)) as Hns. rewrite !Forall_cons, NoDup_cons. split.
  - intros (ns & E & H)%bind_ok_inv. case_in H as E1; [done|]. case_in H as E2; [done|].
    apply negb_false_iff in E1. apply bool_decide_eq_false_1 in E2.
    apply IH in H as (H1 & H2 & H3). rewrite Forall_forall in H3.
    assert (user_key (StorageMutation_key m)) by (apply Hns; eauto).
    split_and!; try done.
    + intros Hin. apply (H3 _ Hin). set_solver.
    + apply Forall_forall. intros k Hk. specialize (H3 k Hk). set_solver.
  - intros ([Hu Hf] & [Hn Hd] & Hm & Hs). apply Hns in Hu as (ns & E & Hw). rewrite E. cbn [mbind outcome_bind].
    rewrite Hw. cbn [negb]. rewrite bool_decide_eq_false_2 by done. apply IH. split_and!; [done..|].
    rewrite Forall_forall in *. intros k Hk. rewrite not_elem_of_cons. split; [|by apply Hs].
    intros ->. done.
Qed.

Lemma status_validate_spec s :
  TxnStatusRecord_validate s = Ok tt <-> (ts_phase s = PhTerminal <-> ts_terminal_outcome s <> None).
Proof.
  unfold TxnStatusRecord_validate.
  destruct (ts_phase s), (ts_terminal_outcome s); cbn; split; try done; try tauto; intros [H1 H2];
    (try (specialize (H2 ltac:(done)))); (try (specialize (H1 ltac:(done)))); done.
Qed.

Lemma verify_protocol_spec b pms :
  verify_protocol_mutations b pms = Ok tt <-> Forall (owned b) pms.
Proof.
  induction pms as [|pm pms IH]; cbn [verify_protocol_mutations]; [by split|].
  rewrite Forall_cons, <- IH.
  assert (verify_protocol_mutation b pm = Ok tt <-> owned b pm) as <-.
  { destruct pm as [w|t]; cbn [verify_protocol_mutation owned]; [done|]. rewrite <- status_validate_spec.
    repeat case_bool_decide; cbn; naive_solver. }
  split; [by intros ([] & ? & ?)%bind_ok_inv|]. intros [-> H]. done.
Qed.

Lemma verify_terminal_spec b :
  verify_terminal b = Ok tt <->
  forall t, cb_terminal_outcome b = Some t -> receipt_matches b (TerminalOutcome_receipt t).
Proof.
  unfold verify_terminal, receipt_matches. destruct (cb_terminal_outcome b) as [t|]; [|naive_solver].
  cbv zeta. repeat case_bool_decide; cbn; naive_solver.
Qed.

(** C29. [CompiledBatch::verify] accepts exactly the batches whose contents hang
    together: for any batch whose fields have their types it never panics, and
    it accepts if and only if the version is 1, the digest is the digest of the
    semantic payload, every business mutation addresses a user, index or fact
    key and no key twice, every record written is registered and canonical,
    every status transition carries the identity of the batch and a terminal
    outcome exactly in the terminal phase, and a terminal receipt names the
    transaction, request and plan of the batch. *)
Theorem batch_verify_exact (sha256 : bytes -> bytes) (b : CompiledBatch) (H : batch_typed sha256 b) :
  CompiledBatch_verify sha256 b <> Panic /\
  (CompiledBatch_verify sha256 b = Ok tt <->
   cb_batch_version b = 1 /\ compute_digest sha256 b = Ok (cb_semantic_digest b) /\
   Forall user_key (mutation_keys b) /\ NoDup (mutation_keys b) /\
   Forall (owned b) (cb_protocol_mutations b) /\
   (forall t, cb_terminal_outcome b = Some t -> receipt_matches b (TerminalOutcome_receipt t))).
Proof.
  split.
  { pose proof (CompiledBatch_verify_safe sha256 b H). by destruct (CompiledBatch_verify sha256 b). }
  rewrite <- verify_terminal_spec, <- verify_protocol_spec. unfold mutation_keys. rewrite Forall_map.
  pose proof (verify_mutations_spec (cb_mutations b) []) as Hm.
  assert (Forall (λ k, k ∉ []) (map StorageMutation_key (cb_mutations b)))
    by (apply Forall_forall; set_solver).
  unfold CompiledBatch_verify, BATCH_VERSION. destruct (Z.eqb_spec (cb_batch_version b) 1); cbn [negb];
    [|by split; [|intros (? & _)]].
  destruct (compute_digest sha256 b) as [d|err|]; cbn [mbind outcome_bind]; [|by split; [|intros (_ & ? & _)]..].
  case_bool_decide; cbn [negb]; [|by split; [|intros (_ & ? & _); simplify_eq]]. subst d. split.
  - intros ([] & H1 & ([] & H2 & H3)%bind_ok_inv)%bind_ok_inv. apply Hm in H1. naive_solver.
  - intros (_ & _ & H1 & H2 & H3 & H4). rewrite (proj2 Hm) by done. cbn. by rewrite H3.
Qed.

(** The digest of a verified batch binds the whole batch: two verified
    batches with the same digest are equal in every field, or two inputs of the
    hash function collide. *)
Theorem batch_digest_binds (sha256 : bytes -> bytes) (b c : CompiledBatch)
  (Hb : CompiledBatch_ok sha256 b) (Hc : CompiledBatch_ok sha256 c)
  (Hd : cb_semantic_digest b = cb_semantic_digest c) :
  b = c \/ collision sha256.
Proof.
  assert (Hx : forall x, CompiledBatch_ok sha256 x -> exists v,
    semantic_payload sha256 x = Ok v /\ canon_wf v /\
    domain_hash sha256 BATCH_V1 (encode v) = cb_semantic_digest x).
  { intros x [Ht Hv]. destruct (payload_wf sha256 x Ht) as (v & Ev & Wv & _). exists v. split_and!; try done.
    unfold CompiledBatch_verify, compute_digest in Hv. rewrite Ev in Hv. cbn [mbind outcome_bind] in Hv.
    case_in Hv as E1; [done|]. case_in Hv as E2; [done|].
    apply negb_false_iff, bool_decide_eq_true_1 in E2. done. }
  destruct (Hx b Hb) as (v & Ev & Wv & Dv), (Hx c Hc) as (w & Ew & Ww & Dw).
  destruct (decide (encode v = encode w)) as [E|Hne].
  - left. apply wf_encode_inj in E as <-; [|done..].
    destruct (law_project (p_CompiledBatch sha256) b Hb) as (x & Px & _ & Rx).
    destruct (law_project (p_CompiledBatch sha256) c Hc) as (y & Py & _ & Ry).
    cbn [project p_CompiledBatch] in Px, Py. unfold CompiledBatch_to_canon in Px, Py.
    rewrite Ev, Hd in Px. rewrite Ew in Py. congruence.
  - right. exists (str BATCH_V1 ++ 0 :: encode v), (str BATCH_V1 ++ 0 :: encode w). unfold domain_hash in Dv, Dw. split; [|congruence].
    intros [= ?]%(inj (app (str BATCH_V1))). done.
Qed.

(** ** Histories of a transaction status *)

(** The records of one transaction, newest first, each validated against its
    predecessor. *)
Inductive status_history : list TxnStatusRecord -> Prop :=
| history_first n : validate_transition None n = Ok tt -> status_history [n]
| history_next p n h :
    status_history (p :: h) -> validate_transition (Some p) n = Ok tt -> status_history (n :: p :: h).

Definition phase_rank (p : TxnPhase) : Z :=
  match p with
  | PhBound => 0 | PhAdmitted => 1 | PhPrepared => 2 | PhInstalled | PhAborted => 3 | PhTerminal => 4
  end.

Definition later_phase (n p : TxnStatusRecord) : Prop := phase_rank (ts_phase p) < phase_rank (ts_phase n).

Lemma transition_step p n : validate_transition (Some p) n = Ok tt ->
  ts_revision n = ts_revision p + 1 /\ later_phase n p /\
  ts_plan n = ts_plan p /\ ts_idc_bindings n = ts_idc_bindings p.
Proof.
  unfold validate_transition, later_phase. intros ([] & _ & (r & Hr & H)%bind_ok_inv)%bind_ok_inv.
  apply uadd_ok_inv in Hr as [-> _]. case_in H as E1; [done|]. apply negb_false_iff, Z.eqb_eq in E1.
  rewrite (bool_decide_eq_false_2 (p = n)), andb_false_r in H by (intros ->; lia).
  case_in H as E2; [done|]. case_in H as E3; [done|]. clear H. apply negb_false_iff in E2.
  apply orb_false_iff in E3 as [E3%negb_false_iff%bool_decide_eq_true_1 E4%negb_false_iff%bool_decide_eq_true_1].
  split_and!; [done| |done..]. by destruct (ts_phase p), (ts_phase n).
Qed.

Lemma history_sorted h : status_history h -> StronglySorted later_phase h.
Proof.
  induction 1 as [n _|p n h _ IH H]; [repeat constructor|]. apply transition_step in H as (_ & Hl & _).
  constructor; [done|]. apply StronglySorted_inv in IH as [_ Hf]. constructor; [done|].
  eapply Forall_impl; [exact Hf|]. unfold later_phase in *. intros x Hx. lia.
Qed.

Lemma history_revisions h : status_history h -> map ts_revision h = reverse (seqZ 1 (Z.of_nat (length h))).
Proof.
  assert (Hs : forall n : nat, reverse (seqZ 1 (Z.of_nat (S n))) = (Z.of_nat n + 1) :: reverse (seqZ 1 (Z.of_nat n))).
  { intros n. rewrite seqZ_S, reverse_snoc. f_equal. lia. }
  assert (Hh : forall n h, status_history (n :: h) -> ts_revision n = Z.of_nat (length h) + 1).
  { intros n h'. revert n. induction h' as [|p h' IH]; intros n H; inversion H as [? H1|? ? ? H1 H2]; subst.
    - unfold validate_transition in H1. apply bind_ok_inv in H1 as ([] & _ & H1). case_in H1 as E; [done|].
      apply negb_false_iff, Z.eqb_eq in E. done.
    - apply transition_step in H2 as (-> & _). rewrite (IH p H1). cbn [length]. lia. }
  intros H. induction H as [n H|p n h H IH Ht].
  - cbn. by rewrite (Hh n [] (history_first n H)).
  - cbn [map length]. rewrite Hs, (Hh n (p :: h)) by (by constructor). cbn [length] in *. by rewrite <- IH.
Qed.

Lemma sorted_rank_inj l s t : StronglySorted later_phase l -> s ∈ l -> t ∈ l ->
  phase_rank (ts_phase s) = phase_rank (ts_phase t) -> s = t.
Proof.
  unfold later_phase. induction 1 as [|n l _ IH Hn]; [set_solver|]. rewrite Forall_forall in Hn.
  intros [->|Hs]%elem_of_cons [->|Ht]%elem_of_cons E; [done| | |auto].
  - specialize (Hn t Ht). lia.
  - specialize (Hn s Hs). lia.
Qed.

Lemma ranks_length h (lo hi : Z) : StronglySorted later_phase h ->
  Forall (fun s => lo <= phase_rank (ts_phase s) <= hi) h -> Z.of_nat (length h) <= Z.max 0 (hi - lo + 1).
Proof.
  revert hi. induction h as [|n h IH]; intros hi Hs Hf; cbn [length]; [lia|].
  apply StronglySorted_inv in Hs as [Hs Hn]. apply Forall_cons in Hf as [Hb Hf].
  specialize (IH (phase_rank (ts_phase n) - 1) Hs).
  assert (Hx : Forall (fun s => lo <= phase_rank (ts_phase s) <= phase_rank (ts_phase n) - 1) h).
  { rewrite Forall_forall in *. intros s Hin. specialize (Hn s Hin). specialize (Hf s Hin).
    unfold later_phase in Hn. lia. }
  specialize (IH Hx). lia.
Qed.

(** C30. The life cycle of a transaction status: in any history of records each
    of which [validate_transition] accepted after its predecessor, the
    revisions count up from one, there are at most five records, the plan and
    the IDC bindings never change, no record follows a terminal one, and no
    transaction is both installed and aborted. *)
Theorem txn_status_history (n : TxnStatusRecord) (h : list TxnStatusRecord) (H : status_history (n :: h)) :
  map ts_revision (n :: h) = reverse (seqZ 1 (Z.of_nat (length (n :: h)))) /\
  (length (n :: h) <= 5)%nat /\
  Forall (fun s => ts_plan s = ts_plan n /\ ts_idc_bindings s = ts_idc_bindings n) h /\
  Forall (fun s => ts_phase s <> PhTerminal) h /\
  (forall s t, s ∈ n :: h -> t ∈ n :: h -> ts_phase s = PhInstalled -> ts_phase t <> PhAborted).
Proof.
  pose proof (history_sorted _ H) as Hs. split_and!.
  - by apply history_revisions.
  - assert (Z.of_nat (length (n :: h)) <= Z.max 0 (4 - 0 + 1)); [|cbn in *; lia].
    apply ranks_length; [done|]. apply Forall_forall. intros s _. destruct (ts_phase s); cbn; lia.
  - clear Hs. remember (n :: h) as l eqn:El. revert n h El.
    induction H as [x _|p x l H IH Ht]; intros n h [= <- <-]; [constructor|].
    apply transition_step in Ht as (_ & _ & -> & ->). constructor; [done|]. by apply IH.
  - apply StronglySorted_inv in Hs as [_ Hn]. eapply Forall_impl; [exact Hn|]. intros s Hlt E.
    unfold later_phase in Hlt. rewrite E in Hlt. destruct (ts_phase n); cbn in Hlt; lia.
  - intros s t Hin Hit Es Et. assert (s = t) as <-; [|congruence].
    apply (sorted_rank_inj (n :: h)); [done..|]. by rewrite Es, Et.
Qed.

(** ** A concrete batch *)
Module Demo.
Definition sha (b : bytes) : bytes := be_encode 32 (Z.of_nat (length b)).
Definition id (n : nat) : bytes := replicate n 7.
Definition plan : PlanRef := MkPlanRef (id 16) 1 (id 32).
Definition status (rev : Z) (ph : TxnPhase) : TxnStatusRecord := MkTxnStatus rev ph plan [] None None None None.
Definition draft (txn key : bytes) : CompiledBatch :=
  let rk := MkRequestKey (id 16) (id 16) (id 16) in
  MkCompiledBatch 1 txn rk (id 32) (MkOperationRef 1 1) (id 32) (id 32) (id 32) plan [] C0Local None [] []
    [SPut key [5] (MkSemanticMeta 0 [])]
    [SetTxnStatus (MkTxnStatusTransition txn rk (id 32) Absent (status 1 PhAdmitted))] None (id 32).
Definition sealed (txn key : bytes) : CompiledBatch :=
  match Batch.seal sha (draft txn key) with Ok b => b | _ => draft txn key end.
Definition batch : CompiledBatch := sealed (id 32) [1; 42].
End Demo.

Lemma demo_id n : id_sized n (Demo.id n).
Proof. split; [apply Forall_replicate; cbv; split; congruence|apply length_replicate]. Qed.

Lemma demo_typed : batch_typed Demo.sha Demo.batch.
Proof.
  assert (E : Demo.batch = match compute_digest Demo.sha (Demo.draft (Demo.id 32) [1; 42]) with
    | Ok d => let b := Demo.draft (Demo.id 32) [1; 42] in
      MkCompiledBatch (cb_batch_version b) (cb_txn_id b) (cb_request_key b) (cb_request_hash b)
        (cb_operation b) (cb_operation_hash b) (cb_contract_hash b) (cb_schema_hash b) (cb_plan b)
        (cb_idc_bindings b) (cb_consistency_class b) (cb_origin b) (cb_semantic_evidence b)
        (cb_captured_inputs b) (cb_mutations b) (cb_protocol_mutations b) (cb_terminal_outcome b) d
    | _ => Demo.draft (Demo.id 32) [1; 42] end).
  { unfold Demo.batch, Demo.sealed, Batch.seal. by destruct (compute_digest _ _). }
  pose proof (demo_id 32) as H32. pose proof (demo_id 16) as H16.
  assert (Hpl : PlanRef_ok Demo.plan) by (split_and!; [exact H16|reflexivity|exact H32]).
  assert (Hrk : RequestKey_ok (MkRequestKey (Demo.id 16) (Demo.id 16) (Demo.id 16))) by (split_and!; exact H16).
  assert (Hnil : forall A (P : A -> Prop) k, set_ok P k []) by (intros; split_and!; constructor).
  assert (Hst : TxnStatusRecord_ok Demo.sha (Demo.status 1 PhAdmitted)).
  { split_and!; try done; apply Hnil. }
  assert (Hdig : id_sized 32 (cb_semantic_digest Demo.batch)).
  { rewrite E. unfold compute_digest. destruct (semantic_payload _ _); cbn; [|exact H32..].
    unfold domain_hash, Demo.sha. split; [apply be_encode_ok|apply be_encode_length]. }
  assert (Hb : forall l, forallb (fun b => (0 <=? b) && (b <? 256)) l = true -> bytes_ok l).
  { intros l Hl. apply Forall_forall. intros x Hx. rewrite forallb_forall in Hl.
    apply list_elem_of_In in Hx. apply Hl in Hx. unfold byte_ok. lia. }
  unfold batch_typed. revert Hdig. rewrite E. destruct (compute_digest _ _); intros Hdig;
    cbv zeta; cbn [Demo.draft cb_batch_version cb_txn_id cb_request_key cb_request_hash cb_operation cb_operation_hash
      cb_contract_hash cb_schema_hash cb_plan cb_idc_bindings cb_consistency_class cb_origin cb_semantic_evidence
      cb_captured_inputs cb_mutations cb_protocol_mutations cb_terminal_outcome cb_semantic_digest] in *.
  all: repeat match goal with |- _ /\ _ => split end;
    try first [assumption | exact I | apply Hnil | reflexivity].
  all: try (apply (Hb []); reflexivity).
  all: repeat constructor; try done; try (apply Hb; reflexivity).
Qed.

Lemma demo_ok : CompiledBatch_ok Demo.sha Demo.batch.
Proof. split; [apply demo_typed|vm_compute; reflexivity]. Qed.

Lemma batch_verify_exact_witness :
  CompiledBatch_verify Demo.sha Demo.batch <> Panic /\
  Forall user_key (mutation_keys Demo.batch).
Proof.
  destruct (batch_verify_exact Demo.sha Demo.batch demo_typed) as [H1 H2].
  split; [exact H1|]. apply H2. vm_compute. reflexivity.
Defined.

Lemma batch_digest_binds_witness : Demo.batch = Demo.batch \/ collision Demo.sha.
Proof. apply (batch_digest_binds Demo.sha Demo.batch Demo.batch demo_ok demo_ok). reflexivity. Defined.

Lemma txn_status_history_witness :
  (length [Demo.status 2 PhAdmitted; Demo.status 1 PhBound] <= 5)%nat.
Proof.
  apply (txn_status_history (Demo.status 2 PhAdmitted) [Demo.status 1 PhBound]).
  apply history_next; [apply history_first|]; vm_compute; reflexivity.
Defined.
