(* ===== verification/StateMonad.v ===== *)
(** * Methods with mutable state

    A [&mut self] method that returns [CoreResult<T>] is a function from the
    state to its outcome and the state it leaves behind, which is kept also
    when the outcome is an error: a caller that goes on after an error sees the
    changes made before it. *)

From S2P Require Import Prelude Errors.

Definition stM (S A : Type) : Type := S -> CoreResult A * S.

#[global] Instance stM_ret S : MRet (stM S) := fun A a s => (Ok a, s).
#[global] Instance stM_bind S : MBind (stM S) := fun A B k m s =>
  match m s with
  | (Ok a, s') => k a s'
  | (Err e, s') => (Err e, s')
  | (Panic, s') => (Panic, s')
  end.

Section ops.
Context {S : Type}.
(** A computation that does not touch the state. *)
Definition lift {A} (o : CoreResult A) : stM S A := fun s => (o, s).
Definition reads {A} (f : S -> A) : stM S A := fun s => (Ok (f s), s).
Definition update_st (f : S -> S) : stM S unit := fun s => (Ok tt, f s).
Definition fail {A} (e : ErrorCode) : stM S A := fun s => (Err e, s).

(** Inversion of a successful run. *)
Lemma bind_run {A B} (m : stM S A) (k : A -> stM S B) s b s' :
  (m ≫= k) s = (Ok b, s') <-> exists a s1, m s = (Ok a, s1) /\ k a s1 = (Ok b, s').
Proof.
  unfold mbind, stM_bind. split.
  - intros H. destruct (m s) as [[a|e|] s1]; [eauto|done..].
  - by intros (a & s1 & -> & H).
Qed.

Lemma lift_run {A} (o : CoreResult A) s a s' : lift o s = (Ok a, s') <-> o = Ok a /\ s' = s.
Proof. unfold lift. split; [by intros [= -> ->]|by intros [-> ->]]. Qed.

(** [keeps P m]: whatever its outcome, [m] leaves the state in [P]. *)
Definition keeps {A} (P : S -> Prop) (m : stM S A) : Prop := forall s, P s -> P (snd (m s)).

Lemma st_keeps_bind {A B} (P : S -> Prop) (m : stM S A) (k : A -> stM S B) :
  keeps P m -> (forall a, keeps P (k a)) -> keeps P (m ≫= k).
Proof.
  intros Hm Hk s Hs. unfold mbind, stM_bind. specialize (Hm s Hs).
  destruct (m s) as [[a|e|] s1]; cbn in *; [by apply Hk|done..].
Qed.
Lemma st_keeps_lift {A} P (o : CoreResult A) : keeps P (lift o).
Proof. by intros s. Qed.
Lemma st_keeps_reads {A} P (f : S -> A) : keeps P (reads f).
Proof. by intros s. Qed.
Lemma st_keeps_fail {A} P e : keeps P (fail (A := A) e).
Proof. by intros s. Qed.
Lemma st_keeps_update P f : (forall s, P s -> P (f s)) -> keeps P (update_st f).
Proof. intros H s. apply H. Qed.
End ops.

(** *** Weakest preconditions

    [wp m s Q E]: run from [s], [m] does not panic, establishes [Q] when it
    succeeds and [E] when it fails. *)
Section wp.
Context {S : Type}.
Definition wp {A} (m : stM S A) (s : S) (Q : A -> S -> Prop) (E : ErrorCode -> S -> Prop) : Prop :=
  match m s with
  | (Ok a, s') => Q a s'
  | (Err e, s') => E e s'
  | (Panic, _) => False
  end.

Lemma st_wp_bind {A B} (m : stM S A) (k : A -> stM S B) s Q E :
  wp m s (fun a s' => wp (k a) s' Q E) E -> wp (m ≫= k) s Q E.
Proof. unfold wp, mbind, stM_bind. by destruct (m s) as [[a|e|] s']. Qed.
Lemma st_wp_mono {A} (m : stM S A) s (Q Q' : A -> S -> Prop) (E E' : ErrorCode -> S -> Prop) :
  wp m s Q E -> (forall a s', Q a s' -> Q' a s') -> (forall e s', E e s' -> E' e s') -> wp m s Q' E'.
Proof. unfold wp. destruct (m s) as [[a|e|] s']; auto. Qed.
Lemma st_wp_ok {A} (m : stM S A) s a s' (Q : A -> S -> Prop) E : m s = (Ok a, s') -> Q a s' -> wp m s Q E.
Proof. unfold wp. by intros ->. Qed.
Lemma st_wp_ret {A} (a : A) s (Q : A -> S -> Prop) E : Q a s -> wp (mret a) s Q E.
Proof. done. Qed.
Lemma st_wp_reads {A} (f : S -> A) s (Q : A -> S -> Prop) E : Q (f s) s -> wp (reads f) s Q E.
Proof. done. Qed.
Lemma st_wp_update (f : S -> S) s (Q : unit -> S -> Prop) E : Q tt (f s) -> wp (update_st f) s Q E.
Proof. done. Qed.
Lemma st_wp_lift {A} (o : CoreResult A) a s (Q : A -> S -> Prop) E : o = Ok a -> Q a s -> wp (lift o) s Q E.
Proof. by intros ->. Qed.
Lemma st_wp_fail {A} e s (Q : A -> S -> Prop) E : E e s -> wp (fail e) s Q E.
Proof. done. Qed.
End wp.
Arguments lift : simpl never.
Arguments fail : simpl never.

(** Computations that never return an error (they may still panic). *)
Definition no_err {S A} (m : stM S A) : Prop := forall s, match m s with (Err _, _) => False | _ => True end.

Lemma no_err_bind {S A B} (m : stM S A) (k : A -> stM S B) : no_err m -> (forall a, no_err (k a)) -> no_err (m ≫= k).
Proof.
  intros Hm Hk s. unfold mbind, stM_bind. specialize (Hm s). destruct (m s) as [[a|e|] s1]; [apply Hk|done..].
Qed.
Lemma no_err_ret {S A} (a : A) : no_err (S := S) (mret a).
Proof. done. Qed.
Lemma no_err_reads {S A} (f : S -> A) : no_err (reads f).
Proof. done. Qed.
Lemma no_err_update {S} (f : S -> S) : no_err (update_st f).
Proof. done. Qed.
Lemma no_err_uadd {S} w a b : no_err (S := S) (lift (uadd w a b)).
Proof. intros s. unfold lift, uadd. by destruct (checked_u w (a + b)). Qed.

Create HintDb st.
#[export] Hint Resolve no_err_bind no_err_ret no_err_reads no_err_update no_err_uadd : st.

(** ** Loops

    [l.iter().map(f).collect::<CoreResult<_>>()] and
    [for x in l { acc = f(x, acc)?; }] over a stateful body. *)
Section collect.
Context {S A B : Type} (f : A -> stM S B).
Fixpoint st_collect (l : list A) : stM S (list B) :=
  match l with
  | [] => mret []
  | x :: l' => y ← f x; ys ← st_collect l'; mret (y :: ys)
  end.
End collect.

Section st_fold.
Context {S A B : Type} (f : A -> B -> stM S B).
Fixpoint st_fold (l : list A) (acc : B) : stM S B :=
  match l with
  | [] => mret acc
  | x :: l' => f x acc ≫= fun acc' => st_fold l' acc'
  end.
End st_fold.
