(* ===== verification/KernelTypes.v ===== *)
(** * The durable boundary (src/crates/carolina-storage/src/kernel.rs)

    The types of the [DurableStorageKernel] trait, the keys under which
    protocol state is stored, the stored form of a protocol record and the
    status record that decides a prepared transaction. *)

From S2P Require Import Prelude ByteMap Errors Hex KeyCodec Canon CanonRoundtrip CanonInt CanonTyped.
From S2P Require Import CanonRecord Ids WireRecords WireRegistry Batch BatchSpec.

Record LocalSnapshot : Type := MkLocalSnapshot { ls_epoch : Z; ls_visible_seq : Z }.
Record VersionStamp : Type := MkVersionStamp { vs_epoch : Z; vs_seq : Z }.
Inductive DurabilityState : Type := LocalDurable | Unsafe.
Record CommitResult : Type := MkCommitResult {
  cr_txn_id : option bytes;
  cr_local_version : VersionStamp;
  cr_journal_lsn : Z;
  cr_local_durability : DurabilityState;
  cr_stored_evidence : list ProtocolRecordRef;
}.
Record PreparedToken : Type := MkPreparedToken { pt_txn_id : bytes; pt_lsn : Z; pt_digest : bytes }.
Record CommitDecision : Type := MkCommitDecision { cd_decision_ref : ProtocolRecordRef }.
Record AbortDecision : Type := MkAbortDecision { ad_decision_ref : ProtocolRecordRef }.
Record LocalRequestEvidence : Type := MkLocalRequestEvidence {
  le_binding : option RequestBindingV1;
  le_status : option TxnStatusRecord;
  le_in_doubt : bool;
}.
Inductive Readiness : Type :=
| Opening | RecoveringLocal | WaitingProtocolReconciliation | Ready | DegradedStorage | ReadOnlySafety | Failed.
#[global] Instance Readiness_eq_dec : EqDecision Readiness.
Proof. solve_decision. Defined.
Inductive VerifyMode : Type := Quick | Full.
Record VerifyReport : Type := MkVerifyReport {
  vp_pages : Z; vp_leaves : Z; vp_entries : Z; vp_journal_frames : Z; vp_prepared_in_doubt : Z;
}.
Record CheckpointInfo : Type := MkCheckpointInfo {
  ci_checkpoint_lsn : Z; ci_checkpoint_commit_seq : Z; ci_root_page_id : Z;
  ci_manifest_generation : Z; ci_pages_written : Z;
}.
Record KernelCapabilities : Type := MkKernelCapabilities {
  kc_durable_prepare : bool; kc_atomic_metadata_and_result : bool; kc_recoverable_semantic_records : bool;
  kc_registered_snapshots : bool; kc_retained_references : bool; kc_local_crash_durability : bool;
}.

(** ** Keys of protocol state *)
Definition txn_status_key (txn : bytes) : bytes :=
  let w := KeyWriter.namespace KeyWriter.new TxnStatus in
  let w := KeyWriter.str w (str "txn_status") in
  let w := KeyWriter.bytes w txn in
  KeyWriter.finish w.
Definition request_binding_record_key (k : RequestKey) : ProtocolRecordKey :=
  MkProtocolRecordKey (str "request_binding") (rk_tenant_id k ++ rk_request_namespace k)
    (rk_stable_request_id k).

(** ** Stored records *)
Definition encode_record_value (rev : Z) (rec : VersionedProtocolRecord) : CoreResult bytes :=
  b ← encode_p p_VersionedProtocolRecord rec; Ok (le_encode 8 rev ++ b).
Definition decode_record_value (bs : bytes) : CoreResult (Z * VersionedProtocolRecord) :=
  if (length bs <? 8)%nat then Err Corruption
  else
    rec ← decode_p p_VersionedProtocolRecord Limits_v1 (skipn 8 bs);
    Ok (le_decode (firstn 8 bs), rec).

(** ** Decisions *)
Fixpoint status_template (txn : bytes) (pms : list ProtocolMutation) : option TxnStatusRecord :=
  match pms with
  | [] => None
  | SetTxnStatus t :: pms' => if bool_decide (tt_txn_id t = txn) then Some (tt_next t) else status_template txn pms'
  | PutRecord _ :: pms' => status_template txn pms'
  end.
Definition decision_status (b : CompiledBatch) (decision_ref : ProtocolRecordRef) (aborted : bool) :
    TxnStatusRecord :=
  let rec := match status_template (cb_txn_id b) (cb_protocol_mutations b) with
             | Some r => r
             | None => MkTxnStatus 1 PhPrepared (cb_plan b) (cb_idc_bindings b) (Some (cb_semantic_digest b))
                         None None None
             end in
  let '(phase, outcome) :=
    if aborted then (PhAborted, None)
    else match cb_terminal_outcome b with
         | Some t => (PhTerminal, Some t)
         | None => (PhInstalled, None)
         end in
  MkTxnStatus (ts_revision rec) phase (ts_plan rec) (ts_idc_bindings rec) (ts_prepared_digest rec)
    (Some decision_ref) (ts_accepted_result rec) outcome.

(** ** Keys never collide *)
Lemma bytes_field_inj v w x y : bytes_ok v -> bytes_ok w ->
  KeyWriter.bytes [] v ++ x = KeyWriter.bytes [] w ++ y -> v = w /\ x = y.
Proof.
  intros Hv Hw H. unfold KeyWriter.bytes in H. cbn [app] in H. injection H as H.
  rewrite <- !app_assoc in H. pose proof (unescape_escape v x Hv) as E1. pose proof (unescape_escape w y Hw) as E2.
  rewrite H, E2 in E1. by simplify_eq.
Qed.

Lemma cons_tl {A} (a b : A) x y : a :: x = b :: y -> x = y.
Proof. congruence. Qed.

Lemma key_bytes_app buf v : KeyWriter.bytes buf v = buf ++ KeyWriter.bytes [] v.
Proof. done. Qed.

Lemma logical_key_eq k : logical_key k =
  Namespace_as_u8 (kind_namespace (pk_record_kind k)) :: KeyWriter.bytes [] (pk_record_kind k) ++
  KeyWriter.bytes [] (pk_scope_key k) ++ KeyWriter.bytes [] (pk_record_id k).
Proof.
  unfold logical_key, KeyWriter.finish, KeyWriter.str. cbv zeta.
  rewrite (key_bytes_app _ (pk_record_id k)), (key_bytes_app _ (pk_scope_key k)), (key_bytes_app _ (pk_record_kind k)).
  unfold KeyWriter.namespace, KeyWriter.new. by rewrite <- !app_assoc.
Qed.

Lemma txn_status_key_eq t :
  txn_status_key t = 5 :: KeyWriter.bytes [] (str "txn_status") ++ KeyWriter.bytes [] t.
Proof.
  unfold txn_status_key, KeyWriter.finish, KeyWriter.str. cbv zeta.
  rewrite (key_bytes_app _ t), (key_bytes_app _ (str "txn_status")). unfold KeyWriter.namespace, KeyWriter.new.
  by rewrite <- !app_assoc.
Qed.

Lemma kind_namespace_protocol k : is_user_writable (kind_namespace k) = false.
Proof. unfold kind_namespace. by repeat case_if. Qed.

(** Protocol state has keys of its own: the stored key of a protocol record
    determines its kind, scope and identifier, the stored key of a transaction
    status determines the transaction, no record shares a key with a status,
    and neither is ever a key that a business mutation of a verified batch can
    address. *)
Theorem protocol_keys_isolated (k k' : ProtocolRecordKey) (t t' : bytes)
  (Hk : ProtocolRecordKey_ok k) (Hk' : ProtocolRecordKey_ok k') (Ht : bytes_ok t) (Ht' : bytes_ok t') :
  (logical_key k = logical_key k' -> k = k') /\
  (txn_status_key t = txn_status_key t' -> t = t') /\
  logical_key k <> txn_status_key t /\
  ~ user_key (logical_key k) /\ ~ user_key (txn_status_key t).
Proof.
  destruct Hk as ([Hk1 _] & Hk2 & Hk3), Hk' as ([Hk1' _] & Hk2' & Hk3').
  rewrite !logical_key_eq, !txn_status_key_eq. split_and!.
  - intros H%cons_tl. apply bytes_field_inj in H as [E1 H]; [|done..]. apply bytes_field_inj in H as [E2 H]; [|done..].
    assert (E3 : pk_record_id k = pk_record_id k').
    { apply (bytes_field_inj _ _ [] []); [done..|]. by rewrite !app_nil_r. }
    destruct k, k'. cbn in *. by subst.
  - intros H%cons_tl. apply bytes_field_inj in H as [_ H]; [|apply str_ok..].
    apply (bytes_field_inj _ _ [] []); [done..|]. by rewrite !app_nil_r.
  - intros H%cons_tl. apply bytes_field_inj in H as [_ H]; [|done|apply str_ok].
    rewrite <- (app_nil_r (KeyWriter.bytes [] t)) in H. by apply bytes_field_inj in H as [_ H].
  - intros (b & k0 & E & Hb). injection E as <- _. pose proof (kind_namespace_protocol (pk_record_kind k)) as Hu.
    destruct (kind_namespace (pk_record_kind k)); cbn in *; (done || lia).
  - intros (b & k0 & E & Hb). injection E as <- _. lia.
Qed.

Lemma protocol_keys_isolated_witness :
  logical_key (request_binding_record_key (MkRequestKey [1] [2] [3])) <> txn_status_key [7].
Proof.
  assert (H : forall b, 0 <= b < 256 -> bytes_ok [b]) by (intros; by constructor).
  apply (protocol_keys_isolated (request_binding_record_key (MkRequestKey [1] [2] [3]))
    (request_binding_record_key (MkRequestKey [1] [2] [3])) [7] [7]); try (apply H; lia).
  all: split; [split; [apply str_ok|reflexivity]|split; [repeat constructor; lia|apply H; cbn; lia]].
Defined.

(** ** Decisions are well formed *)
Lemma decision_status_valid b d aborted : TxnStatusRecord_validate (decision_status b d aborted) = Ok tt.
Proof.
  unfold decision_status. cbv zeta. destruct aborted; [done|]. by destruct (cb_terminal_outcome b).
Qed.

