(* ===== verification/MemKernel.v ===== *)
(** * The reference kernel (src/crates/carolina-storage/src/memkernel.rs)

    An in-memory [DurableStorageKernel] whose durability is simulated: every
    change carries a flag that the barrier [sync] sets and [crash] consults. *)

From S2P Require Import Prelude ByteMap Errors Hex KeyCodec Canon CanonRoundtrip CanonInt CanonTyped.
From S2P Require Import CanonRecord Ids WireRecords WireRegistry Batch BatchSpec StateMonad KernelTypes.

Record Version : Type := MkVersion { v_seq : Z; v_value : option bytes; v_durable : bool }.

Record MemKernel : Type := MkMemKernel {
  mk_versions : bmap (list Version);
  mk_records : bmap (Z * VersionedProtocolRecord * bool);
  mk_statuses : bmap (TxnStatusRecord * bool);
  mk_prepared : bmap (CompiledBatch * bool);
  mk_next_seq : Z;
  mk_durable_seq : Z;
  mk_sync_each_commit : bool;
  mk_commits : Z;
}.
#[global] Instance MemKernel_eta : Eta MemKernel := fun k =>
  MkMemKernel (mk_versions k) (mk_records k) (mk_statuses k) (mk_prepared k) (mk_next_seq k) (mk_durable_seq k)
    (mk_sync_each_commit k) (mk_commits k).

Definition MemKernel_new : MemKernel := MkMemKernel [] [] [] [] 1 0 true 0.

(** [for v in m.values_mut()] *)
Definition map_values {V W} (f : V -> W) (m : bmap V) : bmap W := map (fun kv => (fst kv, f (snd kv))) m.
Arguments map_values : simpl never.

Definition sync : stM MemKernel unit := fun k =>
  let k1 := k <| mk_versions := map_values (map (fun v => MkVersion (v_seq v) (v_value v) true)) (mk_versions k) |>
              <| mk_records := map_values (fun '(r, x, _) => (r, x, true)) (mk_records k) |>
              <| mk_statuses := map_values (fun '(s, _) => (s, true)) (mk_statuses k) |>
              <| mk_prepared := map_values (fun '(b, _) => (b, true)) (mk_prepared k) |> in
  match (usub 64 (mk_next_seq k) 1 : CoreResult Z) with
  | Ok d => (Ok tt, k1 <| mk_durable_seq := d |>)
  | _ => (Panic, k1)
  end.

Definition crash : stM MemKernel unit := fun k =>
  let vs := map_values (filter (fun v => v_durable v = true)) (mk_versions k) in
  let k1 := k <| mk_versions := filter (fun kv => snd kv <> []) vs |>
              <| mk_records := filter (fun kv => snd (snd kv) = true) (mk_records k) |>
              <| mk_statuses := filter (fun kv => snd (snd kv) = true) (mk_statuses k) |>
              <| mk_prepared := filter (fun kv => snd (snd kv) = true) (mk_prepared k) |> in
  match (uadd 64 (mk_durable_seq k) 1 : CoreResult Z) with
  | Ok n => (Ok tt, k1 <| mk_next_seq := n |>)
  | _ => (Panic, k1)
  end.

(** [.iter().rev().find(|v| v.seq <= visible)] *)
Definition newest (visible : Z) (vs : list Version) : option Version :=
  List.find (fun v => v_seq v <=? visible) (rev vs).
Definition newest_visible (k : MemKernel) (key : bytes) (visible : Z) : option Version :=
  vs ← bget key (mk_versions k); newest visible vs.

Definition current_record (k : MemKernel) (lk : bytes) : option (Z * VersionedProtocolRecord * bool) :=
  bget lk (mk_records k).

(** One iteration of [validate]. *)
Definition validate_one (k : MemKernel) (pm : ProtocolMutation) : CoreResult unit :=
  match pm with
  | PutRecord w =>
      match pw_expected w, current_record k (logical_key (pw_key w)) with
      | Absent, None => Ok tt
      | Absent, Some (_, ex, _) => if bool_decide (ex = pw_next w) then Ok tt else Err Conflict
      | Exactly r, Some (rev, _, _) => if r =? rev then Ok tt else Err Conflict
      | Exactly _, None => Err Conflict
      end
  | SetTxnStatus t =>
      let prev := fst <$> bget (tt_txn_id t) (mk_statuses k) in
      match tt_expected_revision t, prev with
      | Absent, None => validate_transition prev (tt_next t)
      | Absent, Some p => if bool_decide (p = tt_next t) then Ok tt else Err Conflict
      | Exactly r, Some p => if r =? ts_revision p then validate_transition prev (tt_next t) else Err Conflict
      | Exactly _, None => Err Conflict
      end
  end.
Fixpoint validate (k : MemKernel) (pms : list ProtocolMutation) : CoreResult unit :=
  match pms with
  | [] => Ok tt
  | pm :: pms' => validate_one k pm ≫= fun _ => validate k pms'
  end.

(** [self.versions.entry(k).or_default().push(v)] *)
Definition push_version (seq : Z) (m : StorageMutation) (vs : bmap (list Version)) : bmap (list Version) :=
  let v := match m with SPut _ value _ => Some value | SDelete _ _ => None end in
  binsert (StorageMutation_key m)
    (default [] (bget (StorageMutation_key m) vs) ++ [MkVersion seq v false]) vs.

Definition install_mutation (seq : Z) (m : StorageMutation) (k : MemKernel) : MemKernel :=
  k <| mk_versions := push_version seq m (mk_versions k) |>.

Definition next_revision (k : MemKernel) (w : ProtocolRecordWrite) : CoreResult Z :=
  match pw_expected w with
  | Absent => match current_record k (logical_key (pw_key w)) with
              | Some (r, ex, _) => if bool_decide (ex = pw_next w) then Ok r else Ok 1
              | None => Ok 1
              end
  | Exactly r => uadd 64 r 1
  end.
Definition install_protocol (pm : ProtocolMutation) : stM MemKernel unit :=
  match pm with
  | PutRecord w =>
      k ← reads (fun k => k);
      rev ← lift (next_revision k w);
      update_st (fun k => k <| mk_records := binsert (logical_key (pw_key w)) (rev, pw_next w, false) (mk_records k) |>)
  | SetTxnStatus t =>
      update_st (fun k => k <| mk_statuses := binsert (tt_txn_id t) (tt_next t, false) (mk_statuses k) |>)
  end.
Fixpoint install_protocols (pms : list ProtocolMutation) : stM MemKernel unit :=
  match pms with
  | [] => mret tt
  | pm :: pms' => install_protocol pm ≫= fun _ => install_protocols pms'
  end.
Definition install (b : CompiledBatch) (seq : Z) : stM MemKernel unit :=
  update_st (fun k => fold_left (fun k m => install_mutation seq m k) (cb_mutations b) k) ≫= fun _ =>
  install_protocols (cb_protocol_mutations b).

Definition record_decision (b : CompiledBatch) (d : ProtocolRecordRef) (aborted : bool) : stM MemKernel unit :=
  update_st (fun k =>
    k <| mk_statuses := binsert (cb_txn_id b) (decision_status b d aborted, false) (mk_statuses k) |>).

Definition phase_of (k : MemKernel) (txn : bytes) : option TxnPhase :=
  (fun s => ts_phase (fst s)) <$> bget txn (mk_statuses k).
Definition decided_error (k : MemKernel) (txn : bytes) : ErrorCode :=
  match phase_of k txn with
  | Some PhInstalled | Some PhTerminal => TxnAlreadyCommitted
  | Some PhAborted => TxnAlreadyAborted
  | _ => TxnInDoubt
  end.

(** The bytes that [digest] hashes; the casts [as u32] keep the low 32 bits. *)
Definition digest_row (durable : Z) (kv : bytes * list Version) : bytes :=
  match newest durable (snd kv) with
  | Some (MkVersion _ (Some val) _) =>
      le_encode 4 (wrap_u 32 (Z.of_nat (length (fst kv)))) ++ fst kv ++
      le_encode 4 (wrap_u 32 (Z.of_nat (length val))) ++ val
  | _ => []
  end.
Definition mk_digest (sha256 : bytes -> bytes) (k : MemKernel) : bytes :=
  sha256 (mk_versions k ≫= digest_row (mk_durable_seq k)).

(** ** The trait *)
Definition capabilities : KernelCapabilities := MkKernelCapabilities true true true true true false.
Definition readiness (k : MemKernel) : Readiness :=
  match mk_prepared k with [] => Ready | _ => WaitingProtocolReconciliation end.
Definition snapshot (k : MemKernel) : LocalSnapshot := MkLocalSnapshot 1 (mk_durable_seq k).
Definition get (k : MemKernel) (key : bytes) (snap : LocalSnapshot) : option bytes :=
  v ← newest_visible k key (ls_visible_seq snap); v_value v.

(** The loop of [scan] over [self.versions.range(start..)]. *)
Fixpoint scan_loop (k : MemKernel) (end_ : option bytes) (snap : LocalSnapshot) (limit : Z)
    (out : list (bytes * bytes)) (rows : bmap (list Version)) : list (bytes * bytes) :=
  match rows with
  | [] => out
  | (key, _) :: rows' =>
      if match end_ with Some e => bytes_leb e key | None => false end then out
      else match get k key snap with
           | Some v =>
               let out' := out ++ [(key, v)] in
               if limit <=? Z.of_nat (length out') then out' else scan_loop k end_ snap limit out' rows'
           | None => scan_loop k end_ snap limit out rows'
           end
  end.
Definition scan (k : MemKernel) (start : bytes) (end_ : option bytes) (snap : LocalSnapshot) (limit : Z) :
    list (bytes * bytes) :=
  scan_loop k end_ snap limit [] (filter (fun kv => bytes_leb start (fst kv) = true) (mk_versions k)).

(** [let seq = self.next_seq; self.next_seq += 1;] *)
Definition take_seq : stM MemKernel Z :=
  seq ← reads mk_next_seq;
  n ← lift (uadd 64 seq 1);
  update_st (fun k => k <| mk_next_seq := n |>) ≫= fun _ => mret seq.
Definition sync_if : stM MemKernel unit :=
  s ← reads mk_sync_each_commit; if (s : bool) then sync else mret tt.
Definition unsafe_result (txn : option bytes) (seq : Z) : CommitResult :=
  MkCommitResult txn (MkVersionStamp 1 seq) seq Unsafe [].

Section kernel.
Context (sha256 : bytes -> bytes).

Definition commit (b : CompiledBatch) : stM MemKernel CommitResult :=
  lift (CompiledBatch_verify sha256 b) ≫= fun _ =>
  k ← reads (fun k => k);
  match phase_of k (cb_txn_id b) with
  | Some PhAborted => fail TxnAlreadyAborted
  | Some PhInstalled | Some PhTerminal => fail TxnAlreadyCommitted
  | _ =>
      lift (validate k (cb_protocol_mutations b)) ≫= fun _ =>
      seq ← take_seq;
      install b seq ≫= fun _ =>
      sync_if ≫= fun _ =>
      c ← reads mk_commits;
      n ← lift (uadd 64 c 1);
      update_st (fun k => k <| mk_commits := n |>) ≫= fun _ =>
      mret (unsafe_result (Some (cb_txn_id b)) seq)
  end.

(** [commit_protocol] installs a batch that carries nothing but the writes. *)
Definition protocol_carrier (pms : list ProtocolMutation) : CompiledBatch :=
  MkCompiledBatch 1 (replicate 32 0) (MkRequestKey (replicate 16 0) (replicate 16 0) (replicate 16 0))
    (replicate 32 0) (MkOperationRef 0 0) (replicate 32 0) (replicate 32 0) (replicate 32 0)
    (MkPlanRef (replicate 16 0) 0 (replicate 32 0)) [] C0Local None [] [] [] pms None (replicate 32 0).
Definition commit_protocol (b : ProtocolOnlyBatch) : stM MemKernel CommitResult :=
  let pms := map PutRecord (po_writes b) in
  k ← reads (fun k => k);
  lift (validate k pms) ≫= fun _ =>
  seq ← take_seq;
  install (protocol_carrier pms) seq ≫= fun _ =>
  sync_if ≫= fun _ =>
  mret (unsafe_result None seq).

Definition prepare (b : CompiledBatch) : stM MemKernel PreparedToken :=
  lift (CompiledBatch_verify sha256 b) ≫= fun _ =>
  k ← reads (fun k => k);
  lift (validate k (cb_protocol_mutations b)) ≫= fun _ =>
  update_st (fun k => k <| mk_prepared := binsert (cb_txn_id b) (b, false) (mk_prepared k) |>) ≫= fun _ =>
  sync_if ≫= fun _ =>
  n ← reads mk_next_seq;
  mret (MkPreparedToken (cb_txn_id b) n (cb_semantic_digest b)).

(** [self.prepared.remove(&token.txn_id)] and the digest check both decisions
    begin with; a mismatch puts the batch back. *)
Definition take_prepared (token : PreparedToken) : stM MemKernel CompiledBatch :=
  k ← reads (fun k => k);
  match bget (pt_txn_id token) (mk_prepared k) with
  | None => fail (decided_error k (pt_txn_id token))
  | Some (b, _) =>
      update_st (fun k => k <| mk_prepared := bremove (pt_txn_id token) (mk_prepared k) |>) ≫= fun _ =>
      if bool_decide (cb_semantic_digest b = pt_digest token) then mret b
      else
        update_st (fun k => k <| mk_prepared := binsert (pt_txn_id token) (b, false) (mk_prepared k) |>) ≫= fun _ =>
        fail IdentityMismatch
  end.

Definition commit_prepared (token : PreparedToken) (d : CommitDecision) : stM MemKernel CommitResult :=
  b ← take_prepared token;
  seq ← take_seq;
  install b seq ≫= fun _ =>
  record_decision b (cd_decision_ref d) false ≫= fun _ =>
  sync_if ≫= fun _ =>
  mret (unsafe_result (Some (pt_txn_id token)) seq).

Definition abort_prepared (token : PreparedToken) (d : AbortDecision) : stM MemKernel unit :=
  b ← take_prepared token;
  take_seq ≫= fun _ =>
  record_decision b (ad_decision_ref d) true ≫= fun _ =>
  sync_if.

Definition in_doubt (k : MemKernel) : list PreparedToken :=
  map (fun '(t, (b, _)) => MkPreparedToken t 0 (cb_semantic_digest b)) (mk_prepared k).

Definition resolve (k : MemKernel) (request : RequestKey) : CoreResult LocalRequestEvidence :=
  binding ← match bget (logical_key (request_binding_record_key request)) (mk_records k) with
            | Some (_, rec, _) =>
                b ← decode_p (p_RequestBindingV1 sha256) Limits_v1 (vr_canonical_payload rec); Ok (Some b)
            | None => Ok None
            end;
  Ok match binding with
     | Some b => MkLocalRequestEvidence binding (fst <$> bget (rb_txn_id b) (mk_statuses k))
                   (is_some (bget (rb_txn_id b) (mk_prepared k)))
     | None => MkLocalRequestEvidence binding None false
     end.
End kernel.

Definition read_protocol_record (k : MemKernel) (key : ProtocolRecordKey) : option (Z * VersionedProtocolRecord) :=
  fst <$> bget (logical_key key) (mk_records k).
Definition txn_status (k : MemKernel) (txn : bytes) : option TxnStatusRecord := fst <$> bget txn (mk_statuses k).
Definition checkpoint (k : MemKernel) : CheckpointInfo :=
  MkCheckpointInfo (mk_durable_seq k) (mk_durable_seq k) 0 0 0.
Definition verify (k : MemKernel) (mode : VerifyMode) : VerifyReport :=
  MkVerifyReport 0 0 (Z.of_nat (length (mjoin (map snd (mk_versions k))))) 0 (Z.of_nat (length (mk_prepared k))).
