(* ===== verification/MemKernelSpec.v ===== *)
(** * The reference kernel refines a ledger of committed batches

    The abstract specification of the [DurableStorageKernel] boundary: a
    ledger holds the committed batches in commit order with their sequence
    numbers, the barrier up to which they are durable, the prepared batches
    that await a decision, each with whether it is durable, and whether every
    operation ends with a barrier.  A read at a snapshot is the last effect on the key
    among the batches the snapshot covers. *)

From S2P Require Import Prelude ByteMap Errors Hex KeyCodec Canon CanonRoundtrip CanonInt CanonTyped.
From S2P Require Import CanonRecord Ids WireRecords WireRegistry Batch BatchSpec StateMonad KernelTypes MemKernel.

(** ** The ledger *)
Record Ledger : Type := MkLedger {
  committed : list (Z * CompiledBatch);
  barrier : Z;
  pending : bmap (CompiledBatch * bool);
  auto_sync : bool;
}.

Definition mutation_value (m : StorageMutation) : option bytes :=
  match m with SPut _ v _ => Some v | SDelete _ _ => None end.
(** The effects of a batch on a key, in order, with the batch's number. *)
Definition batch_effects (key : bytes) (x : Z * CompiledBatch) : list (Z * option bytes) :=
  omap (fun m => if bool_decide (StorageMutation_key m = key) then Some (fst x, mutation_value m) else None)
    (cb_mutations (snd x)).
Definition effects (key : bytes) (h : list (Z * CompiledBatch)) : list (Z * option bytes) :=
  h ≫= batch_effects key.
Definition covered (s : Z) (e : Z * option bytes) : Prop := fst e <= s.
#[global] Instance covered_dec s e : Decision (covered s e).
Proof. unfold covered. apply _. Defined.
Definition ledger_read (l : Ledger) (key : bytes) (s : Z) : option bytes :=
  e ← last (filter (covered s) (effects key (committed l))); snd e.

(** ** Operations *)
Inductive op : Type :=
| OpCommit (b : CompiledBatch)
| OpCommitProtocol (b : ProtocolOnlyBatch)
| OpPrepare (b : CompiledBatch)
| OpCommitPrepared (t : PreparedToken) (d : CommitDecision)
| OpAbortPrepared (t : PreparedToken) (d : AbortDecision)
| OpSync
| OpCrash
| OpSetSync (b : bool).

Section spec.
Context (sha256 : bytes -> bytes).

Definition run_op (o : op) : stM MemKernel unit :=
  match o with
  | OpCommit b => commit sha256 b ≫= fun _ => mret tt
  | OpCommitProtocol b => commit_protocol b ≫= fun _ => mret tt
  | OpPrepare b => prepare sha256 b ≫= fun _ => mret tt
  | OpCommitPrepared t d => commit_prepared t d ≫= fun _ => mret tt
  | OpAbortPrepared t d => abort_prepared t d
  | OpSync => sync
  | OpCrash => crash
  | OpSetSync s => update_st (fun k => k <| mk_sync_each_commit := s |>)
  end.

(** A run of the kernel; a caller goes on after an error, not after a panic. *)
Fixpoint exec (os : list op) (k : MemKernel) : option MemKernel :=
  match os with
  | [] => Some k
  | o :: os' => match run_op o k with (Panic, _) => None | (_, k') => exec os' k' end
  end.

(** The outcomes of a run. *)
Fixpoint outcomes (os : list op) (k : MemKernel) : list (CoreResult unit) :=
  match os with
  | [] => []
  | o :: os' => match run_op o k with (Panic, _) => [] | (r, k') => r :: outcomes os' k' end
  end.

(** A batch enters the ledger with a number above every number in it and above
    the barrier. *)
Definition fresh (n : Z) (l : Ledger) : Prop :=
  Forall (fun x => fst x < n) (committed l) /\ barrier l < n.

(** [covers d l]: [d] can be the barrier of [l]. *)
Definition covers (d : Z) (l : Ledger) : Prop := Forall (fun x => fst x <= d) (committed l) /\ barrier l <= d.

(** A barrier at [d]: everything in the ledger is durable. *)
Definition synced (d : Z) (l : Ledger) : Ledger :=
  MkLedger (committed l) d (map_values (fun '(b, _) => (b, true)) (pending l)) (auto_sync l).
Definition settle (d : Z) (l : Ledger) : Ledger := if auto_sync l then synced d l else l.

Definition add (n : Z) (b : CompiledBatch) (l : Ledger) : Ledger :=
  MkLedger (committed l ++ [(n, b)]) (barrier l) (pending l) (auto_sync l).
Definition put_pending (t : bytes) (b : CompiledBatch) (l : Ledger) : Ledger :=
  MkLedger (committed l) (barrier l) (binsert t (b, false) (pending l)) (auto_sync l).
Definition drop_pending (t : bytes) (l : Ledger) : Ledger :=
  MkLedger (committed l) (barrier l) (bremove t (pending l)) (auto_sync l).

(** A decision takes a token. *)
Definition decision_of (o : op) : option PreparedToken :=
  match o with OpCommitPrepared t _ | OpAbortPrepared t _ => Some t | _ => None end.

(** What an operation with a given outcome does to the ledger.  A refused
    operation changes nothing, except that a decision whose token carries the
    wrong digest leaves the prepared batch waiting but no longer durable. *)
Inductive ledger_step : op -> CoreResult unit -> Ledger -> Ledger -> Prop :=
| step_commit b n d l : fresh n l -> CompiledBatch_verify sha256 b = Ok tt -> covers d (add n b l) ->
    ledger_step (OpCommit b) (Ok tt) l (settle d (add n b l))
| step_protocol b d l : covers d l -> ledger_step (OpCommitProtocol b) (Ok tt) l (settle d l)
| step_prepare b d l : CompiledBatch_verify sha256 b = Ok tt -> covers d l ->
    ledger_step (OpPrepare b) (Ok tt) l (settle d (put_pending (cb_txn_id b) b l))
| step_decide t dec b f n d l : fresh n l -> bget (pt_txn_id t) (pending l) = Some (b, f) ->
    cb_semantic_digest b = pt_digest t -> covers d (add n b l) ->
    ledger_step (OpCommitPrepared t dec) (Ok tt) l (settle d (add n b (drop_pending (pt_txn_id t) l)))
| step_abort t dec b f d l : bget (pt_txn_id t) (pending l) = Some (b, f) -> cb_semantic_digest b = pt_digest t ->
    covers d l ->
    ledger_step (OpAbortPrepared t dec) (Ok tt) l (settle d (drop_pending (pt_txn_id t) l))
| step_sync d l : covers d l -> ledger_step OpSync (Ok tt) l (synced d l)
| step_set s l : ledger_step (OpSetSync s) (Ok tt) l (MkLedger (committed l) (barrier l) (pending l) s)
| step_crash l :
    ledger_step OpCrash (Ok tt) l
      (MkLedger (filter (fun x => fst x <= barrier l) (committed l)) (barrier l)
         (filter (fun kv => snd (snd kv) = true) (pending l)) (auto_sync l))
| step_refused o e l : ledger_step o (Err e) l l
| step_mismatch o t b f l : decision_of o = Some t -> bget (pt_txn_id t) (pending l) = Some (b, f) ->
    cb_semantic_digest b <> pt_digest t ->
    ledger_step o (Err IdentityMismatch) l (put_pending (pt_txn_id t) b (drop_pending (pt_txn_id t) l)).

Inductive ledger_run : list op -> list (CoreResult unit) -> Ledger -> Ledger -> Prop :=
| run_nil l : ledger_run [] [] l l
| run_cons o r os rs l1 l2 l3 : ledger_step o r l1 l2 -> ledger_run os rs l2 l3 -> ledger_run (o :: os) (r :: rs) l1 l3.

(** ** The relation *)
Definition view (key : bytes) (vs : bmap (list Version)) : list (Z * option bytes) :=
  map (fun v => (v_seq v, v_value v)) (default [] (bget key vs)).

Definition all_versions (P : Version -> Prop) (vs : bmap (list Version)) : Prop :=
  Forall (fun kv => Forall P (snd kv)) vs.

Record rel (k : MemKernel) (l : Ledger) : Prop := {
  rel_sorted : bsorted (mk_versions k);
  rel_view key : view key (mk_versions k) = effects key (committed l);
  rel_flags : all_versions (fun v => v_durable v = (v_seq v <=? mk_durable_seq k)) (mk_versions k);
  rel_below : Forall (fun x => fst x < mk_next_seq k) (committed l);
  rel_vbelow : all_versions (fun v => v_seq v < mk_next_seq k) (mk_versions k);
  rel_barrier : barrier l = mk_durable_seq k;
  rel_next : mk_durable_seq k < mk_next_seq k;
  rel_psorted : bsorted (mk_prepared k);
  rel_pending : mk_prepared k = pending l;
  rel_sync : mk_sync_each_commit k = auto_sync l;
}.
End spec.
Arguments view : simpl never.
Arguments effects : simpl never.

(** ** Reads *)
Lemma find_rev {A} (P : A -> bool) l : List.find P (rev l) = last (filter (fun x => P x = true) l).
Proof.
  induction l as [|x l IH] using rev_ind; [done|]. rewrite rev_app_distr, filter_app. cbn [rev app List.find].
  rewrite filter_cons, filter_nil. destruct (P x) eqn:E; case_decide; try done.
  - by rewrite last_snoc.
  - by rewrite app_nil_r.
Qed.

Lemma last_filter_map {A B} (f : A -> B) (P : A -> Prop) (Q : B -> Prop)
    `{forall x, Decision (P x)} `{forall x, Decision (Q x)} l :
  (forall x, P x <-> Q (f x)) -> last (filter Q (map f l)) = f <$> last (filter P l).
Proof.
  intros HPQ. assert (filter Q (map f l) = map f (filter P l)) as ->.
  { induction l as [|x l IH]; [done|]. cbn [map]. rewrite !filter_cons, IH.
    destruct (decide (P x)), (decide (Q (f x))); try done; by apply HPQ in p || apply HPQ in q. }
  induction (filter P l) as [|x l' IH] using rev_ind; [done|]. rewrite map_app. cbn. by rewrite !last_snoc.
Qed.

Lemma get_view k key snap :
  get k key snap =
  (e ← last (filter (covered (ls_visible_seq snap)) (view key (mk_versions k))); snd e).
Proof.
  unfold get, newest_visible, newest, view. destruct (bget key (mk_versions k)) as [vs|]; [|done]. cbn [mbind option_bind default].
  rewrite find_rev, (last_filter_map (fun v => (v_seq v, v_value v))
    (fun v => (v_seq v <=? ls_visible_seq snap) = true) (covered (ls_visible_seq snap))).
  - by destruct (last _).
  - intros v. unfold covered. cbn. lia.
Qed.

Lemma rel_read k l key snap : rel k l -> get k key snap = ledger_read l key (ls_visible_seq snap).
Proof. intros H. rewrite get_view, (rel_view _ _ H). done. Qed.

(** ** Frame of the relation *)
Lemma bget_map_values {V W} (f : V -> W) k m : bget k (map_values f m) = f <$> bget k m.
Proof. apply bget_map. Qed.
Lemma bsorted_map_values {V W} (f : V -> W) m : bsorted m -> bsorted (map_values f m).
Proof. apply bsorted_map. Qed.

Lemma rel_ext k k' l :
  mk_versions k' = mk_versions k -> mk_prepared k' = mk_prepared k -> mk_next_seq k' = mk_next_seq k ->
  mk_durable_seq k' = mk_durable_seq k -> mk_sync_each_commit k' = mk_sync_each_commit k -> rel k l -> rel k' l.
Proof. intros E1 E2 E3 E4 E5 []. split; rewrite ?E1, ?E2, ?E3, ?E4, ?E5; done. Qed.
Lemma rel_covers k l : rel k l -> covers (mk_next_seq k - 1) l.
Proof.
  intros [Hs Hv Hf Hb Hvb Hbar Hn Hp1 Hp Hy]. split; [|lia]. eapply Forall_impl; [exact Hb|]. cbn. lia.
Qed.

Lemma all_versions_impl (P Q : Version -> Prop) vs : (forall v, P v -> Q v) -> all_versions P vs -> all_versions Q vs.
Proof. intros H. unfold all_versions. intros Hv. eapply Forall_impl; [exact Hv|]. intros kv Hkv. eapply Forall_impl; [exact Hkv|exact H]. Qed.

Lemma all_versions_get P vs key v : all_versions P vs -> v ∈ default [] (bget key vs) -> P v.
Proof.
  unfold all_versions. rewrite Forall_forall. intros H. destruct (bget key vs) as [l|] eqn:E; cbn; [|set_solver].
  apply bget_In in E. specialize (H _ E). cbn in H. rewrite Forall_forall in H. auto.
Qed.

Lemma all_versions_map P (f : Version -> Version) vs : (forall v, P (f v)) -> all_versions P (map_values (map f) vs).
Proof.
  intros H. unfold all_versions, map_values. apply Forall_map, Forall_forall. intros kv _. cbn.
  apply Forall_map, Forall_forall. auto.
Qed.

Lemma view_map (f : Version -> Version) key vs : (forall v, v_seq (f v) = v_seq v /\ v_value (f v) = v_value v) ->
  view key (map_values (map f) vs) = view key vs.
Proof.
  intros Hf. unfold view. rewrite bget_map_values. destruct (bget key vs) as [l|]; [|done]. cbn.
  rewrite map_map. apply map_ext. intros v. by destruct (Hf v) as [-> ->].
Qed.

(** *** [sync] *)
Lemma mem_sync_spec k l k' : rel k l -> sync k = (Ok tt, k') ->
  rel k' (synced (mk_next_seq k - 1) l) /\ mk_next_seq k' = mk_next_seq k.
Proof.
  intros [Hs Hv Hf Hb Hvb Hbar Hn Hp1 Hp Hy] H. unfold sync in H.
  destruct (usub 64 (mk_next_seq k) 1 : CoreResult Z) as [d|e|] eqn:E; [|done..]. apply usub_ok_inv in E as [-> _].
  injection H as <-. split; [|done]. split; cbn; try done.
  - by apply bsorted_map_values.
  - intros key. rewrite view_map; [apply Hv|done].
  - apply Forall_map. eapply Forall_impl; [exact Hvb|]. intros kv Hkv. cbn. apply Forall_map.
    eapply Forall_impl; [exact Hkv|]. intros v Hlt. cbn in *. symmetry. lia.
  - apply Forall_map. eapply Forall_impl; [exact Hvb|]. intros kv Hkv. cbn. by apply Forall_map.
  - lia.
  - by apply bsorted_map_values.
  - by rewrite Hp.
Qed.

Lemma sync_if_spec k l k' : rel k l -> sync_if k = (Ok tt, k') -> rel k' (settle (mk_next_seq k - 1) l).
Proof.
  intros Hr H. unfold sync_if in H. apply bind_run in H as (s & k1 & [= <- <-] & H).
  unfold settle. rewrite <- (rel_sync _ _ Hr). destruct (mk_sync_each_commit k).
  - by apply (mem_sync_spec k l) in H as [H _].
  - by injection H as <-.
Qed.

(** *** [crash] *)
Lemma effects_filter key h s :
  effects key (filter (fun x => fst x <= s) h) = filter (covered s) (effects key h).
Proof.
  induction h as [|[n b] h IH]; [done|]. rewrite filter_cons. unfold effects in *. cbn [mbind list_bind].
  rewrite filter_app.
  assert (Hb : filter (covered s) (batch_effects key (n, b)) = if decide (n <= s) then batch_effects key (n, b) else []).
  { unfold batch_effects. cbn [fst snd]. induction (cb_mutations b) as [|m ms IHm]; [by case_decide|].
    cbn [omap list_omap]. case_bool_decide; [|done]. rewrite filter_cons, IHm. unfold covered. cbn [fst].
    by repeat case_decide. }
  rewrite Hb. cbn [fst]. case_decide; cbn [mbind list_bind]; by rewrite IH.
Qed.

Lemma view_filter key vs d : bsorted vs ->
  all_versions (fun v => v_durable v = (v_seq v <=? d)) vs ->
  view key (filter (fun kv => snd kv <> []) (map_values (filter (fun v => v_durable v = true)) vs)) =
  filter (covered d) (view key vs).
Proof.
  intros Hs Hf. unfold view. rewrite bget_filter by (by apply bsorted_map_values). rewrite bget_map_values.
  destruct (bget key vs) as [l|] eqn:E; cbn [fmap option_fmap option_map default]; [|done]. cbn [snd].
  assert (Hl : Forall (fun v => v_durable v = (v_seq v <=? d)) l).
  { apply bget_In in E. unfold all_versions in Hf. rewrite Forall_forall in Hf. by apply (Hf _ E). }
  assert (El : map (fun v => (v_seq v, v_value v)) (filter (fun v => v_durable v = true) l) =
               filter (covered d) (map (fun v => (v_seq v, v_value v)) l)).
  { clear E. induction Hl as [|v l Hv _ IH]; [done|]. cbn [map]. rewrite !filter_cons, <- IH. unfold covered. cbn [fst].
    repeat case_decide; try done; rewrite Hv in *; lia. }
  unfold id. rewrite <- El. case_decide as Hne; [done|]. by rewrite Hne.
Qed.

Lemma crash_spec sha256 k l k' : rel k l -> crash k = (Ok tt, k') ->
  exists l', ledger_step sha256 OpCrash (Ok tt) l l' /\ rel k' l'.
Proof.
  intros [Hs Hv Hf Hb Hvb Hbar Hn Hp1 Hp Hy] H. unfold crash in H.
  destruct (uadd 64 (mk_durable_seq k) 1 : CoreResult Z) as [d|e|] eqn:E; [|done..]. apply uadd_ok_inv in E as [-> _].
  injection H as <-. eexists. split; [apply step_crash|].
  assert (Hvd : all_versions (fun v => v_durable v = true /\ v_seq v <= mk_durable_seq k)
    (filter (fun kv => snd kv <> []) (map_values (filter (fun v => v_durable v = true)) (mk_versions k)))).
  { apply Forall_forall. intros kv [_ Hin]%list_elem_of_filter. apply list_elem_of_fmap in Hin as (kv0 & -> & Hin).
    cbn. unfold all_versions in Hf. rewrite Forall_forall in Hf. specialize (Hf _ Hin).
    apply Forall_forall. intros v [Hd Hv0]%list_elem_of_filter. rewrite Forall_forall in Hf. specialize (Hf v Hv0).
    split; [done|]. rewrite Hd in Hf. lia. }
  split; cbn [committed barrier pending]; cbn; try done.
  - by apply bsorted_filter, bsorted_map_values.
  - intros key. rewrite view_filter with (d := mk_durable_seq k), Hv by done. by rewrite effects_filter, Hbar.
  - eapply all_versions_impl; [|exact Hvd]. intros v [-> Hle]. symmetry. lia.
  - apply Forall_forall. intros x [Hx _]%list_elem_of_filter. lia.
  - eapply all_versions_impl; [|exact Hvd]. intros v [_ Hle]. cbn. lia.
  - lia.
  - by apply bsorted_filter.
  - by rewrite Hp.
Qed.

(** *** Installing a batch *)
Lemma view_push key seq m vs : bsorted vs ->
  view key (push_version seq m vs) =
  view key vs ++ (if bool_decide (StorageMutation_key m = key) then [(seq, mutation_value m)] else []).
Proof.
  intros Hs. unfold view, push_version. case_bool_decide as E.
  - subst key. rewrite bget_insert_eq. cbn [default]. unfold id. rewrite map_app. cbn. by destruct m.
  - rewrite bget_insert_ne by (done || congruence). by rewrite app_nil_r.
Qed.

Lemma all_versions_push (P : Version -> Prop) seq m vs : P (MkVersion seq (mutation_value m) false) ->
  all_versions P vs -> all_versions P (push_version seq m vs).
Proof.
  intros Hp Hv. unfold push_version. apply binsert_Forall; [|done]. cbn. apply Forall_app. split.
  - apply Forall_forall. intros v Hin. by eapply all_versions_get.
  - constructor; [|constructor]. by destruct m.
Qed.

(** What an installation leaves alone. *)
Definition same_rest (k k' : MemKernel) : Prop :=
  mk_prepared k' = mk_prepared k /\ mk_next_seq k' = mk_next_seq k /\ mk_durable_seq k' = mk_durable_seq k /\
  mk_sync_each_commit k' = mk_sync_each_commit k.

Lemma install_mutations_spec seq ms : forall k, bsorted (mk_versions k) ->
  let k' := fold_left (fun k m => install_mutation seq m k) ms k in
  same_rest k k' /\ bsorted (mk_versions k') /\
  (forall key, view key (mk_versions k') = view key (mk_versions k) ++
     omap (fun m => if bool_decide (StorageMutation_key m = key) then Some (seq, mutation_value m) else None) ms) /\
  (forall P : Version -> Prop, (forall v, P (MkVersion seq v false)) -> all_versions P (mk_versions k) ->
     all_versions P (mk_versions k')).
Proof.
  induction ms as [|m ms IH]; intros k Hs; cbn [fold_left].
  { split_and!; try done. intros key. by rewrite app_nil_r. }
  destruct (IH (install_mutation seq m k)) as (Hr & Hs' & Hv & Hp); [cbn; by apply binsert_sorted|].
  split_and!; try done.
  - intros key. rewrite Hv. cbn [install_mutation mk_versions update]. rewrite view_push by done.
    rewrite <- app_assoc. f_equal. cbn [omap list_omap]. by case_bool_decide.
  - intros P HP Hall. apply Hp; [done|]. cbn. by apply all_versions_push.
Qed.

Lemma install_protocol_spec pm k k' : install_protocol pm k = (Ok tt, k') ->
  same_rest k k' /\ mk_versions k' = mk_versions k.
Proof.
  destruct pm as [w|t]; cbn [install_protocol]; intros H.
  - apply bind_run in H as (k0 & k1 & [= <- <-] & H). apply bind_run in H as (r & k2 & H1 & H).
    apply lift_run in H1 as [_ ->]. injection H as <-. by split.
  - injection H as <-. by split.
Qed.

Lemma install_protocols_spec pms : forall k k', install_protocols pms k = (Ok tt, k') ->
  same_rest k k' /\ mk_versions k' = mk_versions k.
Proof.
  induction pms as [|pm pms IH]; intros k k' H; cbn [install_protocols] in H; [injection H as <-; by split|].
  apply bind_run in H as ([] & k1 & H1 & H). apply install_protocol_spec in H1 as [(E1 & E2 & E3 & E4) E].
  apply IH in H as [(F1 & F2 & F3 & F4) F]. split; [split_and!|]; congruence.
Qed.

Lemma install_spec b seq k l k' : rel k l -> barrier l < seq < mk_next_seq k ->
  install b seq k = (Ok tt, k') ->
  rel k' (add seq b l) /\ same_rest k k'.
Proof.
  intros [Hs Hv Hf Hb Hvb Hbar Hn Hp1 Hp Hy] Hseq H. unfold install in H.
  apply bind_run in H as ([] & k1 & [= <-] & H). apply install_protocols_spec in H as [(E1 & E2 & E3 & E4) E].
  pose proof (install_mutations_spec seq (cb_mutations b) k Hs) as Hm. cbv zeta in Hm.
  set (k1 := fold_left _ (cb_mutations b) k) in *. destruct Hm as ((F1 & F2 & F3 & F4) & Hs1 & Hv1 & HP).
  split; [|split_and!; congruence].
  split; cbn [add committed barrier pending auto_sync]; rewrite ?E, ?E1, ?E2, ?E3, ?E4, ?F1, ?F2, ?F3, ?F4; try done.
  - intros key. rewrite Hv1, Hv. unfold effects. rewrite bind_app. cbn [mbind list_bind]. by rewrite app_nil_r.
  - apply HP; [|done]. intros v. cbn. symmetry. lia.
  - apply Forall_app. split; [done|]. constructor; [cbn; lia|constructor].
  - apply HP; [|done]. intros v. cbn. lia.
Qed.

Lemma take_seq_spec k l n k' : rel k l -> take_seq k = (Ok n, k') ->
  n = mk_next_seq k /\ rel k' l /\ mk_next_seq k' = n + 1 /\ fresh n l /\
  mk_sync_each_commit k' = mk_sync_each_commit k.
Proof.
  intros [Hs Hv Hf Hb Hvb Hbar Hn Hp1 Hp Hy] H. unfold take_seq in H. apply bind_run in H as (s & k1 & [= <- <-] & H).
  apply bind_run in H as (m & k2 & [Hm ->]%lift_run & H). apply uadd_ok_inv in Hm as [-> _].
  apply bind_run in H as ([] & k3 & [= <-] & H). injection H as <- <-.
  split_and!; [done| |done|split; [done|lia]|done]. split; cbn; try done.
  - eapply Forall_impl; [exact Hb|]. intros x Hx. cbn in Hx. lia.
  - eapply all_versions_impl; [|exact Hvb]. intros v Hx. cbn in *. lia.
  - lia.
Qed.

(** *** After the checks nothing fails with an error *)
Lemma no_err_sync : no_err sync.
Proof. intros k. unfold sync. by destruct (usub 64 (mk_next_seq k) 1) eqn:E. Qed.
Lemma no_err_crash : no_err crash.
Proof. intros k. unfold crash. by destruct (uadd 64 (mk_durable_seq k) 1) eqn:E. Qed.
Lemma no_err_sync_if : no_err sync_if.
Proof. apply no_err_bind; [done|]. intros []; [apply no_err_sync|done]. Qed.
Lemma no_err_take_seq : no_err take_seq.
Proof. unfold take_seq. eauto with st. Qed.
Lemma no_err_install b n : no_err (install b n).
Proof.
  apply no_err_bind; [done|]. intros _. induction (cb_protocol_mutations b) as [|pm pms IH]; [done|].
  apply no_err_bind; [|done]. destruct pm as [w|t]; cbn [install_protocol]; [|done].
  apply no_err_bind; [done|]. intros k. apply no_err_bind; [|done]. intros s. unfold lift, next_revision.
  destruct (pw_expected w) as [|r]; [|apply (no_err_uadd (S := MemKernel) 64 r 1 s)].
  destruct (current_record k _) as [[[r ex] ?]|]; [|done]. by case_bool_decide.
Qed.
#[export] Hint Resolve no_err_sync_if no_err_take_seq no_err_install : st.

(** [stepped o l m]: started in a state related to [l], the run [m] of the
    operation [o] panics, or is matched by a step of the ledger with its
    outcome. *)
Definition outcome_unit {A} (r : CoreResult A) : CoreResult unit :=
  match r with Ok _ => Ok tt | Err e => Err e | Panic => Panic end.
Definition stepped (sha256 : bytes -> bytes) {A} (o : op) (l : Ledger) (r : CoreResult A * MemKernel) : Prop :=
  match r with
  | (Panic, _) => True
  | (x, k') => exists l', ledger_step sha256 o (outcome_unit x) l l' /\ rel k' l'
  end.

Lemma stepped_refused sha256 {A} o l e k : rel k l -> stepped sha256 (A := A) o l (Err e, k).
Proof. intros Hr. exists l. split; [apply step_refused|done]. Qed.

Lemma stepped_ok sha256 {A} o l (m : stM MemKernel A) k :
  stepped sha256 o l (m k) -> stepped sha256 o l ((m ≫= fun _ => mret tt) k).
Proof. unfold mbind, stM_bind. by destruct (m k) as [[]]. Qed.

(** A run that cannot fail: it is enough to look at its successes. *)
Lemma stepped_success sha256 {A} o l (m : stM MemKernel A) k : no_err m ->
  (forall a k', m k = (Ok a, k') -> exists l', ledger_step sha256 o (Ok tt) l l' /\ rel k' l') -> stepped sha256 o l (m k).
Proof.
  intros Hn H. specialize (Hn k). unfold stepped. destruct (m k) as [[a|e|] k'] eqn:E; [by apply (H a)|done|done].
Qed.

(** What a commit does once its checks have passed. *)
Definition commit_tail (b : CompiledBatch) : stM MemKernel CommitResult :=
  seq ← take_seq; install b seq ≫= fun _ => sync_if ≫= fun _ => c ← reads mk_commits; n ← lift (uadd 64 c 1);
  update_st (fun k => k <| mk_commits := n |>) ≫= fun _ => mret (unsafe_result (Some (cb_txn_id b)) seq).

Lemma commit_tail_spec b k l r k' : rel k l -> commit_tail b k = (Ok r, k') ->
  let n := mk_next_seq k in
  fresh n l /\
  cr_journal_lsn r = n /\ covers n (add n b l) /\ rel k' (settle n (add n b l)).
Proof.
  intros Hr H. cbv zeta. unfold commit_tail in H.
  apply bind_run in H as (n & k1 & H1 & H). apply (take_seq_spec k l) in H1 as (-> & Hr1 & Hn1 & Hfr & Hy1); [|done].
  apply bind_run in H as ([] & k2 & H2 & H).
  destruct (install_spec b (mk_next_seq k) k1 l k2 Hr1 ltac:(destruct Hfr; lia) H2) as [Hr2 (_ & Hn2 & _ & Hy2)].
  apply bind_run in H as ([] & k3 & H3 & H). apply (sync_if_spec k2 _ k3 Hr2) in H3.
  apply bind_run in H as (c & k4 & [= <- <-] & H). apply bind_run in H as (c' & k5 & [_ ->]%lift_run & H).
  apply bind_run in H as ([] & k6 & [= <-] & H). injection H as <- <-. split_and!; [done|done| |].
  - pose proof (rel_covers _ _ Hr2) as Hcv. rewrite Hn2, Hn1 in Hcv.
    by replace (mk_next_seq k + 1 - 1) with (mk_next_seq k) in Hcv by lia.
  - rewrite Hn2, Hn1 in H3. replace (mk_next_seq k + 1 - 1) with (mk_next_seq k) in H3 by lia.
    eapply rel_ext; [..|exact H3]; done.
Qed.

(** The two ways through [commit]. *)
Lemma commit_cases sha256 b k :
  (exists e, commit sha256 b k = (Err e, k)) \/ (exists k', commit sha256 b k = (Panic, k')) \/
  (CompiledBatch_verify sha256 b = Ok tt /\ commit sha256 b k = commit_tail b k).
Proof.
  remember (commit sha256 b k) as r eqn:E. unfold commit in E. unfold mbind at 1, stM_bind at 1, lift at 1 in E.
  destruct (CompiledBatch_verify sha256 b) as [[]|e|]; [|by eauto..].
  unfold mbind at 1, stM_bind at 1, reads at 1 in E.
  assert (Hv : r = (lift (validate k (cb_protocol_mutations b)) ≫= fun _ => commit_tail b) k ->
    (exists e, r = (Err e, k)) \/ (exists k', r = (Panic, k')) \/ (Ok tt = Ok (E := ErrorCode) tt /\ r = commit_tail b k)).
  { unfold mbind at 1, stM_bind at 1, lift. destruct (validate k _) as [[]|e|]; eauto. }
  destruct (phase_of k (cb_txn_id b)) as [[]|]; first [exact (Hv E) | left; eexists; exact E].
Qed.

Lemma commit_stepped sha256 b k l : rel k l -> stepped sha256 (OpCommit b) l (commit sha256 b k).
Proof.
  intros Hr. destruct (commit_cases sha256 b k) as [[e ->]|[[k' ->]|[Hv ->]]]; [by apply stepped_refused|done|].
  apply stepped_success; [unfold commit_tail; eauto 12 with st|]. intros r k' H.
  apply (commit_tail_spec b k l) in H as (Hfr & _ & Hcv & H); [|done]. eexists. split; [|exact H].
  by apply step_commit.
Qed.

Lemma commit_protocol_stepped sha256 b k l : rel k l ->
  stepped sha256 (OpCommitProtocol b) l (commit_protocol b k).
Proof.
  intros Hr. unfold commit_protocol. cbv zeta. unfold mbind at 1, stM_bind at 1, reads at 1.
  unfold mbind at 1, stM_bind at 1, lift at 1. destruct (validate k _) as [[]|e|]; [|by apply stepped_refused|done].
  apply stepped_success; [eauto 12 with st|]. intros a k' H.
  apply bind_run in H as (n & k1 & H1 & H). apply (take_seq_spec k l) in H1 as (-> & Hr1 & Hn1 & Hfr & _); [|done].
  apply bind_run in H as ([] & k2 & H2 & H). unfold install in H2. cbn [protocol_carrier cb_mutations fold_left] in H2.
  apply bind_run in H2 as ([] & k3 & [= <-] & H2). apply install_protocols_spec in H2 as [(E1 & E2 & E3 & E4) E].
  assert (Hr2 : rel k2 l) by (by eapply rel_ext).
  apply bind_run in H as ([] & k4 & H3 & H). apply (sync_if_spec k2 l k4 Hr2) in H3.
  injection H as <- <-. eexists. split; [|exact H3]. by apply step_protocol, rel_covers.
Qed.

Lemma prepare_stepped sha256 b k l : rel k l -> stepped sha256 (OpPrepare b) l (prepare sha256 b k).
Proof.
  intros Hr. unfold prepare. unfold mbind at 1, stM_bind at 1, lift at 1.
  destruct (CompiledBatch_verify sha256 b) as [[]|e|] eqn:Ev; [|by apply stepped_refused|done].
  unfold mbind at 1, stM_bind at 1, reads at 1. unfold mbind at 1, stM_bind at 1, lift at 1.
  destruct (validate k _) as [[]|e|]; [|by apply stepped_refused|done].
  apply stepped_success; [eauto 12 with st|]. intros a k' H. apply bind_run in H as ([] & k1 & [= <-] & H).
  set (k1 := MkMemKernel (mk_versions k) _ _ _ _ _ _ _) in H.
  assert (Hr1 : rel k1 (put_pending (cb_txn_id b) b l)).
  { destruct Hr as [Hs Hv Hf Hb Hvb Hbar Hn Hp1 Hp Hy]. split; cbn; try done; [by apply binsert_sorted|by rewrite Hp]. }
  apply bind_run in H as ([] & k2 & H2 & H). apply (sync_if_spec k1 _ k2 Hr1) in H2.
  apply bind_run in H as (n & k3 & [= <- <-] & H). injection H as <- <-.
  eexists. split; [|exact H2]. apply step_prepare; [done|]. apply (rel_covers _ _ Hr1).
Qed.

(** *** Decisions *)
Lemma take_prepared_spec token k l b k' : rel k l -> take_prepared token k = (Ok b, k') ->
  (exists f, bget (pt_txn_id token) (pending l) = Some (b, f)) /\ cb_semantic_digest b = pt_digest token /\
  rel k' (drop_pending (pt_txn_id token) l) /\ mk_next_seq k' = mk_next_seq k /\
  mk_prepared k' = bremove (pt_txn_id token) (mk_prepared k).
Proof.
  intros [Hs Hv Hf Hb Hvb Hbar Hn Hp1 Hp Hy] H. unfold take_prepared in H.
  apply bind_run in H as (k0 & k1 & [= <- <-] & H). destruct (bget (pt_txn_id token) (mk_prepared k)) as [[b0 f]|] eqn:E; [|done].
  apply bind_run in H as ([] & k1 & [= <-] & H). case_bool_decide as Hd; [|by apply bind_run in H as (? & ? & _ & ?)].
  injection H as <- <-. split_and!; [exists f; by rewrite <- Hp|done| |done|done]. split; cbn; try done.
  - by apply bremove_sorted.
  - by rewrite Hp.
Qed.

(** The error paths of a decision: the batch stays prepared, and is no longer
    durable when the digest was wrong. *)
Lemma take_prepared_err sha256 token k l e k' o :
  decision_of o = Some token -> rel k l -> take_prepared token k = (Err e, k') ->
  exists l', ledger_step sha256 o (Err e) l l' /\ rel k' l'.
Proof.
  intros Ho Hr H. pose proof Hr as [Hs Hv Hf Hb Hvb Hbar Hn Hp1 Hp Hy]. unfold take_prepared in H.
  unfold mbind at 1, stM_bind at 1, reads at 1 in H.
  destruct (bget (pt_txn_id token) (mk_prepared k)) as [[b0 f]|] eqn:E.
  2:{ injection H as _ <-. exists l. split; [apply step_refused|done]. }
  unfold mbind at 1, stM_bind at 1, update_st at 1 in H. case_bool_decide as Hd; [done|].
  unfold mbind at 1, stM_bind at 1, update_st at 1 in H. injection H as <- <-.
  eexists. split; [eapply (step_mismatch sha256 o token b0 f); [done|by rewrite <- Hp|done]|].
  split; cbn; try done; [|by rewrite Hp]. by apply binsert_sorted, bremove_sorted.
Qed.

Lemma take_prepared_panic token k k' : take_prepared token k <> (Panic, k').
Proof.
  unfold take_prepared. unfold mbind at 1, stM_bind at 1, reads at 1.
  destruct (bget (pt_txn_id token) (mk_prepared k)) as [[b0 f]|]; [|done].
  unfold mbind at 1, stM_bind at 1, update_st at 1. by case_bool_decide.
Qed.

Lemma commit_prepared_stepped sha256 t d k l : rel k l ->
  stepped sha256 (OpCommitPrepared t d) l (commit_prepared t d k).
Proof.
  intros Hr. unfold commit_prepared. unfold mbind at 1, stM_bind at 1.
  destruct (take_prepared t k) as [[b|e|] k1] eqn:Et; [| |done].
  2:{ by eapply take_prepared_err. }
  apply (take_prepared_spec t k l) in Et as ([f Hb] & Hdig & Hr1 & Hn1 & _); [|done].
  apply stepped_success; [eauto 12 with st|]. intros a k' H.
  apply bind_run in H as (n & k2 & H1 & H). apply (take_seq_spec k1 _ n k2 Hr1) in H1 as (-> & Hr2 & Hn2 & Hfr & _).
  apply bind_run in H as ([] & k3 & H2 & H).
  assert (Hfr' : barrier l < mk_next_seq k1 < mk_next_seq k2) by (destruct Hfr; cbn [drop_pending barrier] in *; lia).
  destruct (install_spec b _ k2 _ k3 Hr2 Hfr' H2) as [Hr3 (_ & Hn3 & _)].
  apply bind_run in H as ([] & k4 & Hk4 & H).
  unfold record_decision, update_st in Hk4. injection Hk4 as <-. apply bind_run in H as ([] & k5 & H4 & H).
  eapply sync_if_spec in H4; [|eapply rel_ext; [..|exact Hr3]; done].
  injection H as <- <-. eexists. split; [|exact H4].
  apply (step_decide sha256 t d b f); [exact Hfr|done..|]. exact (rel_covers _ _ Hr3).
Qed.

Lemma abort_prepared_stepped sha256 t d k l : rel k l ->
  stepped sha256 (OpAbortPrepared t d) l (abort_prepared t d k).
Proof.
  intros Hr. unfold abort_prepared. unfold mbind at 1, stM_bind at 1.
  destruct (take_prepared t k) as [[b|e|] k1] eqn:Et; [| |done].
  2:{ by eapply take_prepared_err. }
  apply (take_prepared_spec t k l) in Et as ([f Hb] & Hdig & Hr1 & Hn1 & _); [|done].
  apply stepped_success; [eauto 12 with st|]. intros a k' H.
  apply bind_run in H as (n & k2 & H1 & H). apply (take_seq_spec k1 _ n k2 Hr1) in H1 as (-> & Hr2 & Hn2 & Hfr & _).
  apply bind_run in H as ([] & k4 & Hk4 & H). destruct a.
  unfold record_decision, update_st in Hk4. injection Hk4 as <-.
  eapply sync_if_spec in H; [|eapply rel_ext; [..|exact Hr2]; done].
  eexists. split; [|exact H].
  apply (step_abort sha256 t d b f); [done..|]. exact (rel_covers _ _ Hr2).
Qed.

Lemma op_stepped sha256 o k l : rel k l -> stepped sha256 o l (run_op sha256 o k).
Proof.
  intros Hr. destruct o; cbn [run_op].
  - apply stepped_ok. by apply commit_stepped.
  - apply stepped_ok. by apply commit_protocol_stepped.
  - apply stepped_ok. by apply prepare_stepped.
  - apply stepped_ok. by apply commit_prepared_stepped.
  - by apply abort_prepared_stepped.
  - apply stepped_success; [apply no_err_sync|]. intros [] k' H.
    apply (mem_sync_spec k l) in H as [H _]; [|done]. eexists. split; [|exact H]. by apply step_sync, rel_covers.
  - apply stepped_success; [apply no_err_crash|]. intros [] k' H. by apply (crash_spec sha256 k l).
  - eexists. split; [apply step_set|]. destruct Hr. by split.
Qed.

Lemma exec_rel sha256 os : forall k l k', rel k l -> exec sha256 os k = Some k' ->
  exists l', ledger_run sha256 os (outcomes sha256 os k) l l' /\ rel k' l'.
Proof.
  induction os as [|o os IH]; intros k l k' Hr H; cbn [exec outcomes] in *.
  { injection H as <-. exists l. split; [constructor|done]. }
  pose proof (op_stepped sha256 o k l Hr) as Hst.
  destruct (run_op sha256 o k) as [[[]|e|] k1]; [| |done];
    destruct Hst as (l1 & Hl1 & Hr1); destruct (IH k1 l1 k' Hr1 H) as (l' & Hl' & Hr');
    exists l'; (split; [by econstructor|done]).
Qed.

Definition ledger_empty : Ledger := MkLedger [] 0 [] true.
Lemma rel_new : rel MemKernel_new ledger_empty.
Proof. by repeat constructor. Qed.

(** ** Scans *)
Definition visible_rows (k : MemKernel) (snap : LocalSnapshot) (vs : bmap (list Version)) : bmap bytes :=
  omap (fun kv => (fun v => (fst kv, v)) <$> get k (fst kv) snap) vs.
Definition in_range (start : bytes) (end_ : option bytes) (kv : bytes * bytes) : Prop :=
  bytes_leb start (fst kv) = true /\ match end_ with Some e => bytes_leb e (fst kv) = false | None => True end.
#[global] Instance in_range_dec start end_ kv : Decision (in_range start end_ kv).
Proof. unfold in_range. destruct end_; apply _. Defined.

Lemma visible_sorted k snap vs : bsorted vs -> bsorted (visible_rows k snap vs).
Proof.
  induction vs as [|[key l] vs IH]; [done|]. intros [Hk Hs]. unfold visible_rows. cbn [omap list_omap fst].
  fold (visible_rows k snap vs). destruct (get k key snap) as [v|]; cbn; [|auto]. split; [|auto].
  apply Forall_forall. intros kv Hin. unfold visible_rows in Hin. apply list_elem_of_omap in Hin as ([key' l'] & Hin & E).
  rewrite Forall_forall in Hk. specialize (Hk _ Hin). cbn in *. destruct (get k key' snap); simplify_eq/=. done.
Qed.

Lemma visible_get k snap key : bsorted (mk_versions k) ->
  bget key (visible_rows k snap (mk_versions k)) = get k key snap.
Proof.
  intros Hs. destruct (get k key snap) as [v|] eqn:E.
  - apply bIn_get; [by apply visible_sorted|]. unfold visible_rows. apply list_elem_of_omap.
    unfold get, newest_visible in E. destruct (bget key (mk_versions k)) as [l|] eqn:El; [|done].
    exists (key, l). split; [by apply bget_In|]. cbn. unfold get, newest_visible. by rewrite El, E.
  - destruct (bget key (visible_rows k snap (mk_versions k))) as [w|] eqn:Ew; [|done].
    apply bget_In in Ew. unfold visible_rows in Ew. apply list_elem_of_omap in Ew as ([key' l'] & _ & Ew).
    cbn in Ew. by destruct (get k key' snap) eqn:E'; simplify_eq/=.
Qed.

Lemma filter_rejects {A} (P : A -> Prop) `{forall x, Decision (P x)} l : Forall (fun x => ~ P x) l -> filter P l = [].
Proof. induction 1 as [|x l Hx _ IH]; [done|]. rewrite filter_cons. by case_decide. Qed.

Lemma bytes_leb_nil k : bytes_leb [] k = true.
Proof. by destruct k. Qed.

Lemma scan_loop_spec k end_ snap limit vs : forall out, bsorted vs ->
  let n := Z.to_nat (Z.max 1 limit) in (length out < n)%nat ->
  scan_loop k end_ snap limit out vs =
  take n (out ++ filter (in_range [] end_) (visible_rows k snap vs)).
Proof.
  cbv zeta. induction vs as [|[key l] vs IH]; intros out Hs Hl; cbn [scan_loop].
  { cbn. rewrite app_nil_r, take_ge by lia. done. }
  destruct Hs as [Hk Hs].
  assert (Hin : in_range [] end_ (key, []) <-> (match end_ with Some e => bytes_leb e key | None => false end) = false).
  { unfold in_range. cbn [fst]. rewrite bytes_leb_nil. destruct end_; naive_solver. }
  assert (Hcons : visible_rows k snap ((key, l) :: vs) =
    match get k key snap with Some v => (key, v) :: visible_rows k snap vs | None => visible_rows k snap vs end).
  { unfold visible_rows. cbn [omap list_omap fst]. by destruct (get k key snap). }
  destruct (match end_ with Some e => bytes_leb e key | None => false end) eqn:Ee.
  - destruct end_ as [e|]; [|done].
    rewrite filter_rejects, app_nil_r, take_ge; [done|lia|].
    apply Forall_forall. intros kv Hkv [_ Hlt]. cbn in Hlt. unfold visible_rows in Hkv.
    apply list_elem_of_omap in Hkv as ([key' l'] & Hin' & E). cbn in E.
    destruct (get k key' snap); simplify_eq/=. apply elem_of_cons in Hin' as [Heq|Hin'].
    { injection Heq as -> ->. congruence. }
    rewrite Forall_forall in Hk. specialize (Hk _ Hin'). cbn in Hk.
    rewrite bytes_leb_lt in Ee, Hlt. apply negb_true_iff in Ee. apply negb_false_iff in Hlt.
    by rewrite (bytes_ltb_trans _ _ _ Hk Hlt) in Ee.
  - rewrite Hcons. destruct (get k key snap) as [v|] eqn:E; [|by apply IH].
    rewrite filter_cons. case_decide as Hd; [|by destruct Hd; apply Hin].
    rewrite length_app. cbn [length]. destruct (Z.leb_spec limit (Z.of_nat (length out + 1))).
    + replace (Z.to_nat (Z.max 1 limit)) with (length (out ++ [(key, v)])) by (rewrite length_app; cbn; lia).
      rewrite (cons_middle (key, v) out (filter _ _)), app_assoc. by rewrite take_app_length.
    + rewrite IH by (try rewrite length_app; cbn; lia || done). by rewrite <- app_assoc.
Qed.

Lemma in_range_start start end_ kv :
  in_range start end_ kv <-> bytes_leb start (fst kv) = true /\ in_range [] end_ kv.
Proof. unfold in_range. pose proof (bytes_leb_nil (fst kv)). tauto. Qed.

Lemma scan_spec k start end_ snap limit : bsorted (mk_versions k) ->
  scan k start end_ snap limit =
  take (Z.to_nat (Z.max 1 limit)) (filter (in_range start end_) (visible_rows k snap (mk_versions k))).
Proof.
  intros Hs. unfold scan. rewrite scan_loop_spec; [|by apply bsorted_filter|cbn; lia]. cbn [app]. f_equal.
  induction (mk_versions k) as [|[key l] vs IH] in |- *; [done|].
  unfold visible_rows in *. rewrite filter_cons. cbn [fst omap list_omap].
  destruct (decide (bytes_leb start key = true)) as [Hst|Hst]; cbn [omap list_omap fst];
    destruct (get k key snap) as [v|]; cbn [fmap option_fmap option_map]; rewrite ?filter_cons, ?IH; try done.
  - destruct (decide (in_range [] end_ (key, v))) as [Hi|Hi], (decide (in_range start end_ (key, v))) as [Hj|Hj];
      rewrite in_range_start in Hj; naive_solver.
  - destruct (decide (in_range start end_ (key, v))) as [Hj|Hj]; rewrite in_range_start in Hj; naive_solver.
Qed.

(** ** Main theorems *)


Lemma settle_fields d l : committed (settle d l) = committed l /\
  barrier (settle d l) = (if auto_sync l then d else barrier l) /\ auto_sync (settle d l) = auto_sync l.
Proof. unfold settle. destruct (auto_sync l) eqn:E; by split_and!. Qed.

(** What a step adds to the committed batches, and how the barrier moves. *)
Lemma step_extends sha256 o r l l' : ledger_step sha256 o r l l' -> o <> OpCrash ->
  barrier l <= barrier l' /\
  exists h, committed l' = committed l ++ h /\ Forall (fun x => fresh (fst x) l) h.
Proof.
  intros Hst Ho.
  assert (Hset : forall d m, covers d m -> barrier l <= barrier m ->
    (exists h, committed m = committed l ++ h /\ Forall (fun x => fresh (fst x) l) h) ->
    barrier l <= barrier (settle d m) /\
    exists h, committed (settle d m) = committed l ++ h /\ Forall (fun x => fresh (fst x) l) h).
  { intros d m [_ Hd] Hb Hm. destruct (settle_fields d m) as (-> & -> & _). split; [|done].
    destruct (auto_sync m); lia. }
  assert (Hnone : forall h : list (Z * CompiledBatch), h = committed l ->
    exists h', h = committed l ++ h' /\ Forall (fun x => fresh (fst x) l) h').
  { intros h ->. exists []. by rewrite app_nil_r. }
  destruct Hst as [b n d l Hfr _ Hcv|b d l Hcv|b d l _ Hcv|t dec b f n d l Hfr _ _ Hcv|t dec b f d l _ _ Hcv
    |d l [_ Hd]|s l|l|o e l|o t b f l]; try done; cbn [synced put_pending drop_pending committed barrier].
  1-5: apply Hset; try done; try (by apply Hnone); exists [(n, b)]; (split; [done|by constructor]).
  - split; [done|by apply Hnone].
  - split; [done|by apply Hnone].
  - split; [done|by apply Hnone].
  - split; [done|by apply Hnone].
Qed.

Lemma effects_above key s h : Forall (fun x => s < fst x) h -> filter (covered s) (effects key h) = [].
Proof.
  intros Hh. rewrite <- effects_filter. replace (filter _ h) with (@nil (Z * CompiledBatch)); [done|].
  symmetry. apply filter_rejects. eapply Forall_impl; [exact Hh|]. cbn. lia.
Qed.
Lemma effects_app key a b : effects key (a ++ b) = effects key a ++ effects key b.
Proof. unfold effects. by rewrite bind_app. Qed.

Lemma step_stable sha256 o r l l' key s : ledger_step sha256 o r l l' -> s <= barrier l ->
  s <= barrier l' /\
  filter (covered s) (effects key (committed l')) = filter (covered s) (effects key (committed l)).
Proof.
  intros Hst Hs. assert (o = OpCrash \/ o <> OpCrash) as [->|Ho] by (destruct o; by auto).
  - inversion Hst; subst; cbn [committed barrier]; try done. split; [done|].
    rewrite effects_filter, list_filter_filter. apply list_filter_iff. intros e. unfold covered. lia.
  - destruct (step_extends sha256 o r l l' Hst Ho) as (Hb & h & -> & Hh). split; [lia|].
    rewrite effects_app, filter_app, (effects_above key s h), app_nil_r; [done|].
    eapply Forall_impl; [exact Hh|]. intros x [_ Hx]. lia.
Qed.

Lemma run_stable sha256 os rs l l' key s : ledger_run sha256 os rs l l' -> s <= barrier l ->
  filter (covered s) (effects key (committed l')) = filter (covered s) (effects key (committed l)).
Proof.
  induction 1 as [l|o r os rs l1 l2 l3 Hst _ IH]; [done|]. intros Hs.
  destruct (step_stable sha256 o r l1 l2 key s Hst Hs) as [Hs2 <-]. auto.
Qed.

(** Without a crash the committed batches only grow, above all that were there. *)
Lemma run_extends sha256 os rs l l' : ledger_run sha256 os rs l l' -> OpCrash ∉ os ->
  barrier l <= barrier l' /\
  exists h, committed l' = committed l ++ h /\ Forall (fun x => Forall (fun y => fst y < fst x) (committed l)) h.
Proof.
  induction 1 as [l|o r os rs l1 l2 l3 Hst _ IH]; intros Ho.
  { split; [done|]. exists []. by rewrite app_nil_r. }
  apply not_elem_of_cons in Ho as [Ho Hos]. destruct (IH Hos) as (Hb2 & h2 & E2 & Hh2).
  destruct (step_extends sha256 o r l1 l2 Hst ltac:(done)) as (Hb1 & h1 & E1 & Hh1).
  split; [lia|]. exists (h1 ++ h2). split; [by rewrite E2, E1, app_assoc|]. apply Forall_app. split.
  - eapply Forall_impl; [exact Hh1|]. by intros x [Hx _].
  - eapply Forall_impl; [exact Hh2|]. intros x Hx. rewrite E1 in Hx. by apply Forall_app in Hx as [? _].
Qed.

(** Two related states whose ledgers agree below a snapshot answer it alike. *)
Lemma same_answers k l k' l' snap : rel k l -> rel k' l' ->
  (forall key, filter (covered (ls_visible_seq snap)) (effects key (committed l')) =
               filter (covered (ls_visible_seq snap)) (effects key (committed l))) ->
  (forall key, get k' key snap = get k key snap) /\
  (forall start end_ limit, scan k' start end_ snap limit = scan k start end_ snap limit).
Proof.
  intros Hr Hr' Hf. assert (Hg : forall key, get k' key snap = get k key snap).
  { intros key. rewrite (rel_read k l), (rel_read k' l') by done. unfold ledger_read. by rewrite Hf. }
  split; [done|]. intros start end_ limit. rewrite !scan_spec by (apply Hr || apply Hr'). do 2 f_equal.
  apply bmap_ext; [apply visible_sorted, Hr'|apply visible_sorted, Hr|]. intros key.
  rewrite !visible_get by (apply Hr || apply Hr'). apply Hg.
Qed.

(** C20. A snapshot is stable: once taken, every read and every scan at it
    returns the same rows for ever, whatever is committed, prepared, decided,
    synced or lost in a crash afterwards. *)
Theorem snapshot_stable (sha256 : bytes -> bytes) (os os' : list op) (k k' : MemKernel)
  (H : exec sha256 os MemKernel_new = Some k) (H' : exec sha256 os' k = Some k') :
  (forall key, get k' key (snapshot k) = get k key (snapshot k)) /\
  (forall start end_ limit, scan k' start end_ (snapshot k) limit = scan k start end_ (snapshot k) limit).
Proof.
  destruct (exec_rel sha256 os _ _ _ rel_new H) as (l & _ & Hr).
  destruct (exec_rel sha256 os' _ _ _ Hr H') as (l' & Hl' & Hr').
  apply (same_answers k l k' l'); [done..|]. intros key. eapply run_stable; [exact Hl'|].
  rewrite (rel_barrier _ _ Hr). cbn. lia.
Qed.

Lemma batch_effects_none key n b : key ∉ mutation_keys b -> batch_effects key (n, b) = [].
Proof.
  unfold mutation_keys, batch_effects. cbn [fst snd]. induction (cb_mutations b) as [|m ms IH]; [done|].
  cbn [map omap list_omap]. rewrite not_elem_of_cons. intros [Hne Hn].
  rewrite bool_decide_eq_false_2 by congruence. auto.
Qed.

Lemma batch_effects_one m n b : NoDup (mutation_keys b) -> m ∈ cb_mutations b ->
  batch_effects (StorageMutation_key m) (n, b) = [(n, mutation_value m)].
Proof.
  unfold mutation_keys, batch_effects. cbn [fst snd]. induction (cb_mutations b) as [|m' ms IH]; [set_solver|].
  cbn [map omap list_omap]. rewrite NoDup_cons. intros [Hn Hd] [->|Hin]%elem_of_cons.
  - rewrite bool_decide_eq_true_2 by done. f_equal. clear IH Hd. induction ms as [|m2 ms IH]; [done|].
    cbn [map omap list_omap] in *. apply not_elem_of_cons in Hn as [H1 H2].
    rewrite bool_decide_eq_false_2 by congruence. auto.
  - rewrite bool_decide_eq_false_2; [auto|]. intros E. apply Hn. rewrite E. apply list_elem_of_fmap. eauto.
Qed.

Lemma effects_covered key n h : Forall (fun x => fst x <= n) h -> filter (covered n) (effects key h) = effects key h.
Proof.
  intros H. rewrite <- effects_filter. f_equal. induction H as [|x h Hx _ IH]; [done|]. rewrite filter_cons.
  case_decide; [by rewrite IH|done].
Qed.

Lemma verify_keys_nodup sha256 b : CompiledBatch_verify sha256 b = Ok tt -> NoDup (mutation_keys b).
Proof.
  unfold CompiledBatch_verify. intros H. case_in H as E1; [done|]. apply bind_ok_inv in H as (d & _ & H).
  case_in H as E2; [done|]. apply bind_ok_inv in H as ([] & H & _).
  by apply verify_mutations_spec in H as (_ & ? & _).
Qed.

(** C19. When an acknowledged commit is durable, and when it is not.  Let a
    commit of [b] succeed with sequence number [n], and let further operations
    follow without a crash.  If the barrier covers [n] by then, as it does at
    once when the kernel syncs each commit and after any later [sync], the
    batch is atomic and durable: through any later operations and crashes a
    read at [n] shows every mutation of the batch and every other key as it was
    before the commit.  If the barrier does not cover [n], which needs the sync
    of each commit switched off, a crash takes the whole batch away: every read
    afterwards is the one of the last durable snapshot. *)
Theorem commit_durable (sha256 : bytes -> bytes) (os os1 : list op) (k k1 k2 : MemKernel) (b : CompiledBatch)
  (r : CommitResult)
  (H : exec sha256 os MemKernel_new = Some k) (Hc : commit sha256 b k = (Ok r, k1))
  (H1 : exec sha256 os1 k1 = Some k2) (Hos : OpCrash ∉ os1) :
  let n := cr_journal_lsn r in
  (n <= mk_durable_seq k2 -> forall os2 k3, exec sha256 os2 k2 = Some k3 ->
     Forall (fun m => get k3 (StorageMutation_key m) (MkLocalSnapshot 1 n) = mutation_value m) (cb_mutations b) /\
     (forall key, key ∉ mutation_keys b -> get k3 key (MkLocalSnapshot 1 n) = get k key (MkLocalSnapshot 1 n))) /\
  (mk_sync_each_commit k = true -> n <= mk_durable_seq k1) /\
  (forall k3, sync k2 = (Ok tt, k3) -> n <= mk_durable_seq k3) /\
  (mk_durable_seq k2 < n -> forall k3 key s, crash k2 = (Ok tt, k3) -> mk_durable_seq k2 <= s ->
     get k3 key (MkLocalSnapshot 1 s) = get k key (snapshot k2)).
Proof.
  destruct (exec_rel sha256 os _ _ _ rel_new H) as (l & _ & Hr).
  destruct (commit_cases sha256 b k) as [[e E]|[[k0 E]|[Hv E]]]; rewrite E in Hc; [done..|].
  apply (commit_tail_spec b k l) in Hc as (Hfr & -> & Hcv & Hr1); [|done]. set (n := mk_next_seq k) in *. cbv zeta.
  destruct (settle_fields n (add n b l)) as (Ec1 & Eb1 & _). cbn [add committed barrier auto_sync] in Ec1, Eb1.
  destruct (exec_rel sha256 os1 _ _ _ Hr1 H1) as (l2 & Hl2 & Hr2).
  destruct (run_extends sha256 os1 _ _ _ Hl2 Hos) as (Hb2 & h & E2 & Hh). rewrite Ec1 in E2, Hh.
  assert (Hafter : Forall (fun x => n < fst x) h).
  { eapply Forall_impl; [exact Hh|]. intros x Hx. apply Forall_app in Hx as [_ Hx]. by apply Forall_cons in Hx as [? _]. }
  assert (Hle : Forall (fun x => fst x <= n) (committed l)).
  { eapply Forall_impl; [apply Hfr|]. intros x Hx. cbn in Hx. lia. }
  split_and!.
  - intros Hn os2 k3 H3. destruct (exec_rel sha256 os2 _ _ _ Hr2 H3) as (l3 & Hl3 & Hr3).
    assert (Hg : forall key, get k3 key (MkLocalSnapshot 1 n) =
      (e ← last (effects key (committed l) ++ batch_effects key (n, b)); snd e)).
    { intros key. rewrite (rel_read k3 l3) by done. unfold ledger_read. cbn [ls_visible_seq].
      rewrite (run_stable sha256 os2 _ _ l3 key n Hl3) by (rewrite (rel_barrier _ _ Hr2); done).
      rewrite E2, effects_app, filter_app, (effects_above key n h Hafter), app_nil_r.
      rewrite effects_covered by (apply Forall_app; split; [done|constructor; [cbn; lia|constructor]]).
      unfold effects. rewrite bind_app. cbn [mbind list_bind]. by rewrite app_nil_r. }
    apply verify_keys_nodup in Hv. split.
    + apply Forall_forall. intros m Hm. rewrite Hg, batch_effects_one by done. by rewrite last_snoc.
    + intros key Hk. rewrite Hg, batch_effects_none, app_nil_r by done.
      rewrite (rel_read k l) by done. unfold ledger_read. cbn [ls_visible_seq]. by rewrite effects_covered.
  - intros Hs. rewrite <- (rel_barrier _ _ Hr1), Eb1, <- (rel_sync _ _ Hr), Hs. done.
  - intros k3 H3. apply (mem_sync_spec k2 l2) in H3 as [Hr3 _]; [|done]. rewrite <- (rel_barrier _ _ Hr3). cbn [synced barrier].
    pose proof (rel_below _ _ Hr2) as Hbel. rewrite E2 in Hbel. apply Forall_app in Hbel as [Hbel _].
    apply Forall_app in Hbel as [_ Hbel]. apply Forall_cons in Hbel as [Hbel _]. cbn in Hbel. lia.
  - intros Hn k3 key s H3 Hs. destruct (crash_spec sha256 k2 l2 k3 Hr2 H3) as (l3 & Hl3 & Hr3).
    inversion Hl3; subst. rewrite (rel_read k3 _ _ _ Hr3), (rel_read k l) by done. unfold ledger_read. cbn [committed ls_visible_seq snapshot].
    rewrite <- (rel_barrier _ _ Hr2) in *.
    rewrite effects_filter, E2, !effects_app, !filter_app. rewrite (effects_above key (barrier l2) h) by (eapply Forall_impl; [exact Hafter|cbn; lia]).
    rewrite (effects_above key (barrier l2) [(n, b)]) by (constructor; [cbn; lia|constructor]). rewrite !app_nil_r.
    rewrite list_filter_filter. f_equal. f_equal. apply list_filter_iff. intros e. unfold covered. lia.
Qed.

(** ** Statuses *)
(** The status map stays sorted. *)
Abbreviation statuses_ok := (fun k => bsorted (mk_statuses k)).
Lemma keeps_same {A} (m : stM MemKernel A) :
  (forall k, mk_statuses (snd (m k)) = mk_statuses k) -> keeps statuses_ok m.
Proof. intros H k. cbn. by rewrite H. Qed.
Lemma sync_statuses : keeps statuses_ok sync.
Proof. intros k Hk. unfold sync. destruct (usub 64 (mk_next_seq k) 1) eqn:E; cbn; by apply bsorted_map_values. Qed.
Lemma crash_statuses : keeps statuses_ok crash.
Proof. intros k Hk. unfold crash. destruct (uadd 64 (mk_durable_seq k) 1) eqn:E; cbn; by apply bsorted_filter. Qed.
Lemma install_statuses b n : keeps statuses_ok (install b n).
Proof.
  unfold install. apply st_keeps_bind.
  - apply keeps_same. intros k. unfold update_st. cbn [snd]. revert k.
    induction (cb_mutations b) as [|m ms IH]; intros k; [done|]. cbn [fold_left]. by rewrite IH.
  - intros _. induction (cb_protocol_mutations b) as [|pm pms IH]; [by intros k|].
    apply st_keeps_bind; [|by intros _]. destruct pm as [w|t]; cbn [install_protocol].
    + apply st_keeps_bind; [apply st_keeps_reads|]. intros k0. apply st_keeps_bind; [apply st_keeps_lift|].
      intros rev. by apply keeps_same.
    + apply st_keeps_update. intros k Hk. by apply binsert_sorted.
Qed.
Lemma sync_if_statuses : keeps statuses_ok sync_if.
Proof. apply st_keeps_bind; [apply st_keeps_reads|]. intros []; [apply sync_statuses|by intros k]. Qed.
Lemma take_seq_statuses : keeps statuses_ok take_seq.
Proof.
  apply st_keeps_bind; [apply st_keeps_reads|]. intros q. apply st_keeps_bind; [apply st_keeps_lift|]. intros n.
  by apply keeps_same.
Qed.
Lemma record_statuses b d a : keeps statuses_ok (record_decision b d a).
Proof. apply st_keeps_update. intros k Hk. by apply binsert_sorted. Qed.
Lemma ret_statuses {A} (a : A) : keeps statuses_ok (mret a).
Proof. by intros k. Qed.
Lemma take_prepared_statuses t : keeps statuses_ok (take_prepared t).
Proof.
  apply keeps_same. intros k. unfold take_prepared. unfold mbind at 1, stM_bind at 1, reads at 1.
  destruct (bget (pt_txn_id t) (mk_prepared k)) as [[b f]|]; [|done].
  unfold mbind at 1, stM_bind at 1, update_st at 1. by case_bool_decide.
Qed.
Create HintDb statuses.
#[export] Hint Resolve sync_statuses crash_statuses install_statuses sync_if_statuses take_seq_statuses record_statuses
  ret_statuses take_prepared_statuses : statuses.
#[export] Hint Resolve st_keeps_lift st_keeps_reads st_keeps_fail : statuses.

Ltac keep_statuses := repeat first [progress eauto with statuses | apply st_keeps_bind; [|intros ?] | by apply keeps_same].

Lemma run_statuses sha256 o : keeps statuses_ok (run_op sha256 o).
Proof.
  destruct o; cbn [run_op]; unfold commit, commit_protocol, prepare, commit_prepared, abort_prepared; keep_statuses.
  destruct (phase_of _ _) as [[]|]; keep_statuses.
Qed.
Lemma exec_statuses sha256 os : forall k k', bsorted (mk_statuses k) -> exec sha256 os k = Some k' -> bsorted (mk_statuses k').
Proof.
  induction os as [|o os IH]; intros k k' Hk H; cbn [exec] in H; [by injection H as <-|].
  pose proof (run_statuses sha256 o k Hk) as Hk1. destruct (run_op sha256 o k) as [[]]; by eauto.
Qed.

Lemma crash_fields k k' : crash k = (Ok tt, k') ->
  mk_prepared k' = filter (fun kv => snd (snd kv) = true) (mk_prepared k) /\
  mk_statuses k' = filter (fun kv => snd (snd kv) = true) (mk_statuses k).
Proof. unfold crash. destruct (uadd 64 (mk_durable_seq k) 1) as [n|e|] eqn:E; [|done..]. by intros [= <-]. Qed.

(** A decision that is not synced. *)
Lemma commit_prepared_fields t d k l r k' b f :
  rel k l -> bsorted (mk_statuses k) -> mk_sync_each_commit k = false -> bget (pt_txn_id t) (mk_prepared k) = Some (b, f) ->
  commit_prepared t d k = (Ok r, k') ->
  exists n st, barrier l < n /\ rel k' (add n b (drop_pending (pt_txn_id t) l)) /\
    mk_prepared k' = bremove (pt_txn_id t) (mk_prepared k) /\ bsorted st /\
    mk_statuses k' = binsert (cb_txn_id b) (decision_status b (cd_decision_ref d) false, false) st.
Proof.
  intros Hr Hst Hs Hp H. unfold commit_prepared in H. apply bind_run in H as (b' & k1 & Ht & H).
  pose proof (take_prepared_statuses t k Hst) as Hst1. rewrite Ht in Hst1.
  destruct (take_prepared_spec t k l b' k1 Hr Ht) as ([f' Hb] & _ & Hr1 & _ & Ep1).
  rewrite <- (rel_pending _ _ Hr), Hp in Hb. injection Hb as <- <-.
  apply bind_run in H as (n & k2 & H2 & H). pose proof (take_seq_statuses k1 Hst1) as Hst2. rewrite H2 in Hst2.
  assert (Ep2 : mk_prepared k2 = mk_prepared k1).
  { unfold take_seq in H2. apply bind_run in H2 as (q & ? & [= <- <-] & H2). apply bind_run in H2 as (m & ? & [_ ->]%lift_run & H2).
    apply bind_run in H2 as ([] & ? & [= <-] & H2). by injection H2 as _ <-. }
  apply (take_seq_spec k1 _ n k2 Hr1) in H2 as (-> & Hr2 & Hn2 & [_ Hfr] & Hy2).
  apply bind_run in H as ([] & k3 & H3 & H). pose proof (install_statuses b (mk_next_seq k1) k2 Hst2) as Hst3. rewrite H3 in Hst3.
  destruct (install_spec b (mk_next_seq k1) k2 _ k3 Hr2 ltac:(lia) H3) as [Hr3 (E3 & _ & _ & Hy3)].
  apply bind_run in H as ([] & k4 & [= <-] & H). apply bind_run in H as ([] & k5 & H5 & H). injection H as _ <-.
  unfold sync_if in H5. apply bind_run in H5 as (s & k6 & [= <- <-] & H5). cbn [mk_sync_each_commit] in H5.
  pose proof (rel_sync _ _ Hr3) as Hy. cbn [add drop_pending auto_sync] in Hy. rewrite <- (rel_sync _ _ Hr), Hs in Hy.
  rewrite Hy in H5. injection H5 as <-. exists (mk_next_seq k1), (mk_statuses k3). split_and!; [done| |..].
  - eapply rel_ext; [..|exact Hr3]; done.
  - cbn. by rewrite E3, Ep2, Ep1.
  - exact Hst3.
  - done.
Qed.

(** ** Concrete runs *)
Module Runs.
Definition dref : ProtocolRecordRef := MkProtocolRecordRef (str "local_decision") 1 [1] (Demo.id 32).
Definition token : PreparedToken := MkPreparedToken (Demo.id 32) 0 (cb_semantic_digest Demo.batch).
Definition run (os : list op) : option MemKernel := exec Demo.sha os MemKernel_new.
(** The demonstration batch without a status transition. *)
Definition bare : CompiledBatch :=
  let b := Demo.draft (Demo.id 32) [1; 42] in
  match Batch.seal Demo.sha (MkCompiledBatch (cb_batch_version b) (cb_txn_id b) (cb_request_key b) (cb_request_hash b)
    (cb_operation b) (cb_operation_hash b) (cb_contract_hash b) (cb_schema_hash b) (cb_plan b)
    (cb_idc_bindings b) (cb_consistency_class b) (cb_origin b) (cb_semantic_evidence b)
    (cb_captured_inputs b) (cb_mutations b) [] None (Demo.id 32)) with Ok b => b | _ => b end.
Definition bare_token : PreparedToken := MkPreparedToken (Demo.id 32) 0 (cb_semantic_digest bare).
(** A durably prepared transaction, its decision, and the crashes. *)
Definition prepared_k : MemKernel :=
  default MemKernel_new (run [OpSetSync false; OpPrepare Demo.batch; OpSync]).
Definition decision : CommitDecision := MkCommitDecision dref.
Definition decided_k : MemKernel := (commit_prepared token decision prepared_k).2.
Definition decided_r : CommitResult := unsafe_result (Some (Demo.id 32)) 1.
End Runs.

(** C37. A crash can lose a prepared transaction that was durable.  In any
    state the kernel reaches with the sync of each commit off, let a
    transaction be durably prepared.  A crash keeps it in doubt; but if it is
    committed and the crash comes before the next barrier, it is neither in
    doubt nor decided afterwards, and every read shows what was durable before
    the decision: the prepared batch itself is lost. *)
Theorem crash_forgets_prepared (sha256 : bytes -> bytes) (os : list op) (k k1 k2 kc : MemKernel)
  (t : PreparedToken) (d : CommitDecision) (b : CompiledBatch) (r : CommitResult)
  (H : exec sha256 os MemKernel_new = Some k) (Hs : mk_sync_each_commit k = false)
  (Hp : bget (pt_txn_id t) (mk_prepared k) = Some (b, true)) (Ht : cb_txn_id b = pt_txn_id t)
  (H1 : commit_prepared t d k = (Ok r, k1)) (H2 : crash k1 = (Ok tt, k2)) (Hc : crash k = (Ok tt, kc)) :
  bget (pt_txn_id t) (mk_prepared kc) = Some (b, true) /\
  bget (pt_txn_id t) (mk_prepared k2) = None /\ txn_status k2 (pt_txn_id t) = None /\
  (forall key s, mk_durable_seq k <= s -> get k2 key (MkLocalSnapshot 1 s) = get k key (snapshot k)).
Proof.
  destruct (exec_rel sha256 os _ _ _ rel_new H) as (l & _ & Hr).
  destruct (crash_fields k kc Hc) as (Epc & _). destruct (crash_fields k1 k2 H2) as (Ep2 & Es2).
  assert (Hst : bsorted (mk_statuses k)) by (by eapply exec_statuses; [|exact H]).
  destruct (commit_prepared_fields t d k l r k1 b true Hr Hst Hs Hp H1) as (n & st & Hn & Hr1 & Ep1 & Hst1 & Es1).
  split_and!.
  - rewrite Epc, bget_filter by apply Hr. rewrite Hp. cbn. by case_decide.
  - rewrite Ep2, bget_filter by apply Hr1. by rewrite Ep1, bget_remove_eq by apply Hr.
  - unfold txn_status. rewrite Es2, Es1, Ht, bget_filter by by apply binsert_sorted. by rewrite bget_insert_eq.
  - intros key s Hks. destruct (crash_spec sha256 k1 _ k2 Hr1 H2) as (l2 & Hl2 & Hr2).
    inversion Hl2; subst. rewrite (rel_read k2 _ _ _ Hr2), (rel_read k l) by done. unfold ledger_read.
    cbn [add drop_pending committed barrier ls_visible_seq snapshot].
    rewrite effects_filter, effects_app, filter_app, (effects_above key (barrier l) [(n, b)]), app_nil_r
      by (constructor; [cbn; lia|constructor]).
    rewrite <- (rel_barrier _ _ Hr) in *. rewrite list_filter_filter. f_equal. f_equal.
    apply list_filter_iff. intros e. unfold covered. lia.
Qed.

(** A decided transaction can be decided again: after a durable abort, a
    batch of the same transaction without a status transition is prepared and
    committed, which replaces the abort record by an installed one and makes
    the writes visible. *)
Theorem aborted_then_installed :
  exists k1 k2,
    Runs.run [OpPrepare Runs.bare; OpAbortPrepared Runs.bare_token (MkAbortDecision Runs.dref)] = Some k1 /\
    ts_phase <$> txn_status k1 (Demo.id 32) = Some PhAborted /\
    exec Demo.sha [OpPrepare Runs.bare; OpCommitPrepared Runs.bare_token (MkCommitDecision Runs.dref)] k1 = Some k2 /\
    ts_phase <$> txn_status k2 (Demo.id 32) = Some PhInstalled /\
    get k2 [1; 42] (snapshot k2) = Some [5].
Proof. eexists _, _. split; [vm_compute; reflexivity|]. vm_compute. repeat split. Qed.


Lemma snapshot_stable_witness :
  exists k k', exec Demo.sha [OpCommit Demo.batch] MemKernel_new = Some k /\ exec Demo.sha [OpCrash] k = Some k' /\
    get k' [1; 42] (snapshot k) = get k [1; 42] (snapshot k).
Proof.
  eexists _, _. split; [vm_compute; reflexivity|]. split; [vm_compute; reflexivity|].
  apply (snapshot_stable Demo.sha [OpCommit Demo.batch] [OpCrash]); vm_compute; reflexivity.
Defined.

(** Synced at once, the commit survives a crash; with the sync off and no
    barrier, the crash takes it. *)
Lemma commit_durable_witness :
  (exists r k' k'', commit Demo.sha Demo.batch MemKernel_new = (Ok r, k') /\ exec Demo.sha [OpCrash] k' = Some k'' /\
     get k'' [2] (MkLocalSnapshot 1 1) = get MemKernel_new [2] (MkLocalSnapshot 1 1)) /\
  (exists k r k' k'', exec Demo.sha [OpSetSync false] MemKernel_new = Some k /\
     commit Demo.sha Demo.batch k = (Ok r, k') /\ crash k' = (Ok tt, k'') /\
     get k'' [1; 42] (MkLocalSnapshot 1 9) = get k [1; 42] (snapshot k')).
Proof.
  assert (Ho : forall l : list op, l = [] -> OpCrash ∉ l) by (intros l ->; apply not_elem_of_nil).
  split.
  - eexists _, _, _. split; [vm_compute; reflexivity|]. split; [vm_compute; reflexivity|].
    refine (proj2 (proj1 (commit_durable Demo.sha [] [] MemKernel_new _ _ Demo.batch _ eq_refl
      ltac:(vm_compute; reflexivity) eq_refl (Ho [] eq_refl)) _ [OpCrash] _ _) [2] _).
    + vm_compute. discriminate.
    + vm_compute. reflexivity.
    + replace (mutation_keys Demo.batch) with [[1; 42]] by (vm_compute; reflexivity).
      rewrite elem_of_cons, elem_of_nil. intros [|]; [discriminate|done].
  - eexists _, _, _, _. split; [vm_compute; reflexivity|]. split; [vm_compute; reflexivity|].
    split; [vm_compute; reflexivity|].
    refine (proj2 (proj2 (proj2 (commit_durable Demo.sha [OpSetSync false] [] _ _ _ Demo.batch _
      ltac:(vm_compute; reflexivity) ltac:(vm_compute; reflexivity) eq_refl (Ho [] eq_refl)))) _ _ [1; 42] 9 _ _).
    + vm_compute. reflexivity.
    + vm_compute. reflexivity.
    + vm_compute. discriminate.
Defined.

Lemma crash_forgets_prepared_witness :
  bget (Demo.id 32) (mk_prepared (crash Runs.prepared_k).2) = Some (Demo.batch, true) /\
  bget (Demo.id 32) (mk_prepared (crash Runs.decided_k).2) = None /\
  txn_status (crash Runs.decided_k).2 (Demo.id 32) = None.
Proof.
  assert (E1 : exec Demo.sha [OpSetSync false; OpPrepare Demo.batch; OpSync] MemKernel_new = Some Runs.prepared_k)
    by (vm_compute; reflexivity).
  assert (E2 : mk_sync_each_commit Runs.prepared_k = false) by (vm_compute; reflexivity).
  assert (E3 : bget (pt_txn_id Runs.token) (mk_prepared Runs.prepared_k) = Some (Demo.batch, true)) by (vm_compute; reflexivity).
  assert (E4 : cb_txn_id Demo.batch = pt_txn_id Runs.token) by (vm_compute; reflexivity).
  assert (E5 : commit_prepared Runs.token Runs.decision Runs.prepared_k = (Ok Runs.decided_r, Runs.decided_k))
    by (vm_compute; reflexivity).
  assert (E6 : crash Runs.decided_k = (Ok tt, (crash Runs.decided_k).2)) by (vm_compute; reflexivity).
  assert (E7 : crash Runs.prepared_k = (Ok tt, (crash Runs.prepared_k).2)) by (vm_compute; reflexivity).
  destruct (crash_forgets_prepared Demo.sha [OpSetSync false; OpPrepare Demo.batch; OpSync] Runs.prepared_k Runs.decided_k
    (crash Runs.decided_k).2 (crash Runs.prepared_k).2 Runs.token Runs.decision Demo.batch Runs.decided_r
    E1 E2 E3 E4 E5 E6 E7) as (A & B & C & _).
  split; [exact A|]. split; [exact B|exact C].
Defined.
