(* ===== verification/Codecs.v ===== *)
(** * The codecs that read bytes from the network and the disk

    Every record type that [Canonical::decode] is applied to in the wire and
    storage crates, with the range of its values, and what the decoder
    promises for all of them. *)

From S2P Require Import Prelude ByteMap Errors Hex Canon CanonRoundtrip CanonInt CanonTyped CanonRecord.
From S2P Require Import Ids WireRecords WireRegistry WireNegotiation Batch.

(** The record types of carolina-wire (records.rs, registry.rs, snapshot.rs,
    negotiation.rs) and of carolina-storage (batch.rs). *)
Inductive record_codec (sha256 : bytes -> bytes) : forall A : Type, pcodec A -> (A -> Prop) -> Prop :=
| rc_read_contract : record_codec sha256 _ p_ReadContractV1 ReadContractV1_ok
| rc_observation_token : record_codec sha256 _ p_ObservationTokenV1 ObservationTokenV1_ok
| rc_request_content : record_codec sha256 _ p_RequestContentV1 RequestContentV1_ok
| rc_invoke : record_codec sha256 _ p_InvokeV1 InvokeV1_ok
| rc_accepted_result : record_codec sha256 _ (p_AcceptedResultV1 sha256) (AcceptedResultV1_ok sha256)
| rc_final_receipt : record_codec sha256 _ (p_FinalReceiptV1 sha256) (FinalReceiptV1_ok sha256)
| rc_tombstone : record_codec sha256 _ p_ResultTombstoneV1 ResultTombstoneV1_ok
| rc_request_binding : record_codec sha256 _ (p_RequestBindingV1 sha256) (RequestBindingV1_ok sha256)
| rc_client_reply : record_codec sha256 _ (p_ClientReplyV1 sha256) (ClientReplyV1_ok sha256)
| rc_resolve_request : record_codec sha256 _ p_ResolveRequestV1 ResolveRequestV1_ok
| rc_resolve_reply : record_codec sha256 _ (p_ResolveReplyV1 sha256) (ResolveReplyV1_ok sha256)
| rc_hello : record_codec sha256 _ p_HelloV1 HelloV1_ok
| rc_hello_ack : record_codec sha256 _ p_HelloAckV1 HelloAckV1_ok
| rc_canonical_record : record_codec sha256 _ p_CanonicalRecord CanonicalRecord_ok
| rc_snapshot_manifest : record_codec sha256 _ p_SnapshotManifestV1 SnapshotManifestV1_ok
| rc_snapshot_chunk : record_codec sha256 _ p_SnapshotChunkV1 SnapshotChunkV1_ok
| rc_codec_manifest : record_codec sha256 _ p_CodecManifest CodecManifest_ok
| rc_authority_binding : record_codec sha256 _ p_AuthorityBinding AuthorityBinding_ok
| rc_versioned_record : record_codec sha256 _ p_VersionedProtocolRecord VersionedProtocolRecord_ok
| rc_txn_status : record_codec sha256 _ (p_TxnStatusRecord sha256) (TxnStatusRecord_ok sha256)
| rc_compiled_batch : record_codec sha256 _ (p_CompiledBatch sha256) (CompiledBatch_ok sha256)
| rc_protocol_only_batch : record_codec sha256 _ p_ProtocolOnlyBatch ProtocolOnlyBatch_ok.

Lemma record_codec_lawful sha256 A c (valid : A -> Prop) : record_codec sha256 A c valid -> Lawful c valid.
Proof. intros []; apply _. Qed.

(** C28. Every decoder of the wire and storage records is exact: whatever bytes
    arrive and whatever the limits, decoding does not panic; an input it
    accepts is the one encoding of a value in range that passed its checks; and
    every value in range encodes, and decodes back to itself when its encoding
    fits the limits. *)
Theorem record_codecs_exact (sha256 : bytes -> bytes) (A : Type) (c : pcodec A) (valid : A -> Prop)
  (lim : Limits) (bs : bytes)
  (Hc : record_codec sha256 A c valid) (Hl : 0 <= max_collection_len lim) (Hb : bytes_ok bs) :
  decode_p c lim bs <> Panic /\
  (forall a, decode_p c lim bs = Ok a -> valid a /\ encode_p c a = Ok bs) /\
  (forall a, valid a -> exists v, project c a = Ok v /\ encode_p c a = Ok (encode v) /\
     (canon_ok lim 0 v -> Z.of_nat (length (encode v)) <= max_payload_bytes lim ->
      decode_p c lim (encode v) = Ok a)).
Proof.
  apply record_codec_lawful in Hc. pose proof (decode_p_safe c valid lim bs Hl Hb) as Hs. split_and!.
  - by destruct (decode_p c lim bs).
  - intros a E. by rewrite E in Hs.
  - intros a Ha. by apply (decode_p_encode c valid).
Qed.

Lemma record_codecs_exact_witness :
  decode_p p_HelloV1 Limits_v1 (str "{}") <> Panic.
Proof.
  apply (record_codecs_exact (fun b => b) HelloV1 p_HelloV1 HelloV1_ok Limits_v1 (str "{}"));
    [apply rc_hello|cbn; lia|apply str_ok].
Defined.
