(* ===== verification/Decimal.v ===== *)
(** * Checked fixed-scale decimals (src/crates/carolina-core/src/decimal.rs)

    [Decimal(precision, scale)] with an [i128] coefficient.  Operations are
    checked: the result is exact or an error.  The theorems state that the
    validity invariant is preserved and that each operation succeeds exactly
    when the mathematical result is representable. *)

From S2P Require Import Prelude Errors ByteMap Canon CanonRoundtrip CanonInt CanonTyped.

Record Decimal : Type := MkDecimal {
  coefficient : Z;
  precision : Z;
  scale : Z;
}.

#[global] Instance Decimal_eq_dec : EqDecision Decimal.
Proof. solve_decision. Defined.

(** The table [POW10: [i128; 39]]: indexing past its end panics. *)
Definition POW10 : list Z := map (fun i => 10 ^ Z.of_nat i) (seq 0 39).
Definition pow10_at (i : Z) : CoreResult Z :=
  match POW10 !! Z.to_nat i with Some x => Ok x | None => Panic end.

Definition check_range (d : Decimal) : CoreResult unit :=
  bound ← pow10_at (precision d);
  if (coefficient d <=? - bound) || (bound <=? coefficient d) then Err NumericOverflow else Ok tt.

Definition new (c p s : Z) : CoreResult Decimal :=
  if (p =? 0) || (38 <? p) then Err InvalidDecimal
  else if p <? s then Err InvalidDecimal
  else
    let d := MkDecimal c p s in
    check_range d ≫= fun _ => Ok d.

Definition zero (p s : Z) : CoreResult Decimal := new 0 p s.
Definition is_negative (d : Decimal) : bool := coefficient d <? 0.

Definition same_type (a b : Decimal) : CoreResult unit :=
  if negb (scale a =? scale b) || negb (precision a =? precision b) then Err TypeMismatch else Ok tt.

Definition checked_add (a b : Decimal) : CoreResult Decimal :=
  same_type a b ≫= fun _ =>
  c ← ok_or (checked_i 128 (coefficient a + coefficient b)) NumericOverflow;
  new c (precision a) (scale a).

Definition checked_sub (a b : Decimal) : CoreResult Decimal :=
  same_type a b ≫= fun _ =>
  c ← ok_or (checked_i 128 (coefficient a - coefficient b)) NumericOverflow;
  new c (precision a) (scale a).

Definition checked_mul_int (a : Decimal) (k : Z) : CoreResult Decimal :=
  c ← ok_or (checked_i 128 (coefficient a * k)) NumericOverflow;
  new c (precision a) (scale a).

Definition checked_neg (a : Decimal) : CoreResult Decimal :=
  c ← ok_or (checked_i 128 (- coefficient a)) NumericOverflow;
  new c (precision a) (scale a).

(** [%] and [/] on [i128] truncate towards zero. *)
Definition rescale (a : Decimal) (p s : Z) : CoreResult Decimal :=
  if scale a <=? s then
    f ← pow10_at (s - scale a);
    c ← ok_or (checked_i 128 (coefficient a * f)) NumericOverflow;
    new c p s
  else
    f ← pow10_at (scale a - s);
    if negb (Z.rem (coefficient a) f =? 0) then Err InvalidDecimal
    else new (Z.quot (coefficient a) f) p s.

Definition cmp_exact (a b : Decimal) : CoreResult comparison :=
  let s := Z.max (scale a) (scale b) in
  a' ← rescale a 38 s;
  b' ← rescale b 38 s;
  Ok (coefficient a' ?= coefficient b').

Definition partial_cmp (a b : Decimal) : option comparison :=
  if (scale a =? scale b) && (precision a =? precision b)
  then Some (coefficient a ?= coefficient b) else None.

(** ** Text *)

(** [str::split_once('.')]. *)
Fixpoint split_once_dot (s : bytes) : option (bytes * bytes) :=
  match s with
  | [] => None
  | c :: s' =>
      if c =? 46 then Some ([], s')
      else '(a, b) ← split_once_dot s'; Some (c :: a, b)
  end.

(** [parse] after the sign: [body] is not empty and does not start with [+]. *)
Definition parse_body (neg : bool) (body : bytes) (p s : Z) : CoreResult Decimal :=
  let '(int_part, frac_part) :=
    match split_once_dot body with Some pr => pr | None => (body, []) end in
  if match int_part with [] => true | _ => false end
     || negb (forallb is_ascii_digit int_part) || negb (forallb is_ascii_digit frac_part)
  then Err InvalidDecimal
  else if (1 <? Z.of_nat (length int_part)) && peek_is 48 int_part then Err InvalidDecimal
  else if s <? Z.of_nat (length frac_part) then Err InvalidDecimal
  else
    let ds := int_part ++ frac_part ++ replicate (Z.to_nat s - length frac_part) 48 in
    if 39 <? Z.of_nat (length ds) then Err NumericOverflow
    else
      c ← accumulate 0 ds;
      let c' := if neg : bool then - c else c in
      if neg && (c' =? 0) then Err InvalidDecimal else new c' p s.

(** [match text.strip_prefix('-')]. *)
Definition strip_minus (text : bytes) : bool * bytes :=
  if peek_is 45 text then (true, drop 1 text) else (false, text).

Definition parse (text : bytes) (p s : Z) : CoreResult Decimal :=
  let '(neg, body) := strip_minus text in
  if match body with [] => true | _ => false end || peek_is 43 body then Err InvalidDecimal
  else parse_body neg body p s.

Definition to_text (d : Decimal) : bytes :=
  let s := nat_text (Z.abs (coefficient d)) in
  let sc := Z.to_nat (scale d) in
  (if coefficient d <? 0 then [45] else []) ++
  if (sc =? 0)%nat then s
  else if (length s <=? sc)%nat then [48; 46] ++ replicate (sc - length s) 48 ++ s
  else take (length s - sc) s ++ [46] ++ drop (length s - sc) s.

(** ** Canonical form *)
Definition decimal_codec : codec Decimal := Codec
  (fun d => build (fput "scale" (cu32 (scale d)) (fput "precision" (cu32 (precision d))
     (fput "coefficient" (cint (coefficient d)) (fput "kind" (Str (str "decimal.v1")) obj)))))
  (fun v =>
     expect_fields [str "coefficient"; str "kind"; str "precision"; str "scale"] v ≫= fun _ =>
     k ← field (str "kind") v;
     ks ← as_str k;
     if negb (bool_decide (ks = str "decimal.v1")) then Err NonCanonicalEncoding else
     cv ← field (str "coefficient") v;
     c ← as_i128 cv;
     pv ← field (str "precision") v;
     p ← as_u32 pv;
     sv ← field (str "scale") v;
     s ← as_u32 sv;
     if (38 <? p) || (38 <? s) then Err InvalidDecimal else new c p s).

(** ** The validity invariant *)
Definition dec_type_ok (p s : Z) : Prop := 1 <= p <= 38 /\ 0 <= s <= p.
Definition dec_valid (d : Decimal) : Prop :=
  dec_type_ok (precision d) (scale d) /\ Z.abs (coefficient d) < 10 ^ precision d.

Lemma pow10_at_ok i : 0 <= i <= 38 -> pow10_at i = Ok (10 ^ i).
Proof.
  intros Hi. unfold pow10_at, POW10. rewrite list_lookup_fmap.
  rewrite lookup_seq_lt by lia. cbn. f_equal. f_equal. lia.
Qed.

Lemma pow10_at_panic i : 38 < i -> pow10_at i = Panic.
Proof.
  intros Hi. unfold pow10_at, POW10. by rewrite lookup_ge_None_2 by (rewrite length_map, length_seq; lia).
Qed.

Lemma pow10_mono a b : 0 <= a <= b -> 10 ^ a <= 10 ^ b.
Proof. intros. apply Z.pow_le_mono_r; lia. Qed.

Lemma pow38_i128 : 10 ^ 38 < 2 ^ 127.
Proof. vm_compute. reflexivity. Qed.

(** [new] accepts exactly the valid decimals (for an unsigned scale). *)
Lemma new_ok c p s d :
  0 <= p -> 0 <= s -> new c p s = Ok d <-> d = MkDecimal c p s /\ dec_valid (MkDecimal c p s).
Proof.
  intros Hp Hs. unfold new, dec_valid, dec_type_ok. cbn [precision scale coefficient].
  destruct (Z.eqb_spec p 0) as [->|]; cbn [orb]; [split; [done|lia]|].
  destruct (Z.ltb_spec 38 p); [split; [done|lia]|].
  destruct (Z.ltb_spec p s); [split; [done|lia]|].
  unfold check_range. cbn [precision coefficient]. rewrite pow10_at_ok by lia. cbn [mbind outcome_bind].
  destruct (Z.leb_spec c (- 10 ^ p)); cbn; [split; [done|lia]|].
  destruct (Z.leb_spec (10 ^ p) c); cbn; split; try done; try lia.
  - intros [= <-]. split_and!; (done || lia).
  - by intros [-> _].
Qed.

Lemma new_no_panic c p s : 0 <= p -> new c p s <> Panic.
Proof.
  intros Hp. unfold new. destruct (Z.eqb_spec p 0); cbn [orb]; [done|].
  destruct (Z.ltb_spec 38 p); [done|]. destruct (p <? s); [done|].
  unfold check_range. cbn [precision]. rewrite pow10_at_ok by lia. cbn. by case_if.
Qed.

(** A checked coefficient followed by [new]: the intermediate [i128] overflow
    never hides a representable result. *)
Lemma checked_new_ok z p s d :
  0 <= p -> 0 <= s ->
  (c ← ok_or (checked_i 128 z) NumericOverflow; new c p s) = Ok d <->
  d = MkDecimal z p s /\ dec_valid (MkDecimal z p s).
Proof.
  intros Hp Hs. unfold checked_i. destruct (in_i 128 z) eqn:E; cbn [ok_or mbind outcome_bind].
  - by apply new_ok.
  - split; [done|]. intros [-> [[[? ?] ?] Hv]]. cbn in *.
    rewrite (proj2 (in_i_spec 128 z)) in E; [done|].
    pose proof pow38_i128. pose proof (pow10_mono p 38 ltac:(lia)). change (128 - 1) with 127. lia.
Qed.

(** The exact result, or the overflow error where it does not fit. *)
Definition representable (z p s : Z) : CoreResult Decimal :=
  if Z.abs z <? 10 ^ p then Ok (MkDecimal z p s) else Err NumericOverflow.

Lemma new_representable z p s : dec_type_ok p s -> new z p s = representable z p s.
Proof.
  intros [Hp Hs]. unfold new, representable, check_range. cbn [precision coefficient].
  rewrite (proj2 (Z.eqb_neq p 0)), (proj2 (Z.ltb_ge 38 p)), (proj2 (Z.ltb_ge p s)) by lia. cbn [orb].
  rewrite pow10_at_ok by lia. cbn [mbind outcome_bind].
  destruct (Z.leb_spec z (- 10 ^ p)), (Z.leb_spec (10 ^ p) z), (Z.ltb_spec (Z.abs z) (10 ^ p));
    cbn [orb mbind outcome_bind]; (done || lia).
Qed.

Lemma checked_new_representable z p s :
  dec_type_ok p s ->
  (c ← ok_or (checked_i 128 z) NumericOverflow; new c p s) = representable z p s.
Proof.
  intros Ht. unfold checked_i. destruct (in_i 128 z) eqn:E; cbn [ok_or mbind outcome_bind].
  - by apply new_representable.
  - unfold representable. destruct (Z.ltb_spec (Z.abs z) (10 ^ p)) as [Hz|]; [|done].
    rewrite (proj2 (in_i_spec 128 z)) in E; [done|]. destruct Ht.
    pose proof pow38_i128. pose proof (pow10_mono p 38 ltac:(lia)). change (128 - 1) with 127. lia.
Qed.

Lemma representable_valid z p s d : dec_type_ok p s -> representable z p s = Ok d -> dec_valid d.
Proof.
  intros Ht. unfold representable. destruct (Z.ltb_spec (Z.abs z) (10 ^ p)); [|done].
  by intros [= <-].
Qed.

Lemma same_decimal_type (a b : Decimal) {A} (o : CoreResult A) :
  (same_type a b ≫= fun _ => o) =
  if decide (scale a = scale b /\ precision a = precision b) then o else Err TypeMismatch.
Proof.
  unfold same_type. destruct (Z.eqb_spec (scale a) (scale b)), (Z.eqb_spec (precision a) (precision b));
    cbn [negb orb mbind outcome_bind]; case_decide; (done || tauto).
Qed.

Lemma checked_add_eq a b :
  dec_type_ok (precision a) (scale a) ->
  checked_add a b =
  if decide (scale a = scale b /\ precision a = precision b)
  then representable (coefficient a + coefficient b) (precision a) (scale a) else Err TypeMismatch.
Proof. intros Ht. unfold checked_add. by rewrite same_decimal_type, checked_new_representable. Qed.

Lemma checked_sub_eq a b :
  dec_type_ok (precision a) (scale a) ->
  checked_sub a b =
  if decide (scale a = scale b /\ precision a = precision b)
  then representable (coefficient a - coefficient b) (precision a) (scale a) else Err TypeMismatch.
Proof. intros Ht. unfold checked_sub. by rewrite same_decimal_type, checked_new_representable. Qed.

(** ** Rescaling *)
Lemma rescale_exact_iff a p s d :
  dec_valid a -> 0 <= p -> 0 <= s <= 38 + scale a ->
  rescale a p s = Ok d <->
  precision d = p /\ scale d = s /\ dec_valid d /\
  coefficient d * 10 ^ scale a = coefficient a * 10 ^ s.
Proof.
  intros [[Hp Hs] Hc] Hp' Hs'. unfold rescale.
  assert (Hpow : forall i, 0 <= i -> 0 < 10 ^ i) by (intros; apply Z.pow_pos_nonneg; lia).
  destruct (Z.leb_spec (scale a) s).
  - rewrite pow10_at_ok by lia. cbn [mbind outcome_bind].
    rewrite checked_new_ok by lia.
    assert (E : 10 ^ s = 10 ^ (s - scale a) * 10 ^ scale a) by (rewrite <- Z.pow_add_r by lia; f_equal; lia).
    pose proof (Hpow (scale a) ltac:(lia)). split.
    + intros [-> Hv]. cbn. split_and!; try done. rewrite E. ring.
    + intros (<- & <- & Hv & Heq). destruct d as [c p' s']. cbn in *.
      assert (c = coefficient a * 10 ^ (s' - scale a)) as ->; [|done].
      rewrite E in Heq. apply (Z.mul_reg_r _ _ (10 ^ scale a)); [lia|]. rewrite Heq. ring.
  - rewrite pow10_at_ok by lia. cbn [mbind outcome_bind].
    set (f := 10 ^ (scale a - s)). pose proof (Hpow (scale a - s) ltac:(lia)). fold f in H0.
    pose proof (Hpow s ltac:(lia)).
    assert (E : 10 ^ scale a = f * 10 ^ s) by (unfold f; rewrite <- Z.pow_add_r by lia; f_equal; lia).
    pose proof (Z.quot_rem (coefficient a) f ltac:(lia)) as HQ.
    destruct (Z.eqb_spec (Z.rem (coefficient a) f) 0) as [R|R]; cbn [negb].
    + rewrite new_ok by lia. split.
      * intros [-> Hv]. cbn. split_and!; try done. rewrite E. rewrite HQ at 2. rewrite R. ring.
      * intros (<- & <- & Hv & Heq). destruct d as [c p' s']. cbn in *.
        assert (c = Z.quot (coefficient a) f) as ->; [|done].
        assert (c * f = Z.quot (coefficient a) f * f) by (apply (Z.mul_reg_r _ _ (10 ^ s')); [lia|]; nia).
        nia.
    + split; [done|]. intros (<- & <- & Hv & Heq). exfalso. apply R.
      assert (coefficient a = coefficient d * f) as -> by (apply (Z.mul_reg_r _ _ (10 ^ scale d)); [lia|]; nia).
      apply Z.rem_mul. lia.
Qed.

Lemma rescale_no_panic a p s :
  dec_valid a -> 0 <= p -> 0 <= s <= 38 + scale a -> rescale a p s <> Panic.
Proof.
  intros [[Hp Hs] Hc] Hp' Hs'. unfold rescale. destruct (Z.leb_spec (scale a) s).
  - rewrite pow10_at_ok by lia. cbn [mbind outcome_bind]. unfold checked_i. case_if; cbn; [|done].
    by apply new_no_panic.
  - rewrite pow10_at_ok by lia. cbn [mbind outcome_bind]. case_if; [done|]. by apply new_no_panic.
Qed.

(** ** Literals *)
Lemma dval_shift l acc :
  foldl (fun a d => a * 10 + (d - 48)) acc l = acc * 10 ^ Z.of_nat (length l) + dval l.
Proof.
  induction l as [|d l IH] using rev_ind; [cbn; lia|].
  rewrite foldl_app, dval_app, length_app. cbn [foldl length]. rewrite IH.
  rewrite Nat2Z.inj_add, Z.pow_add_r by lia. change (10 ^ Z.of_nat 1) with 10. ring.
Qed.

Lemma dval_app_list l1 l2 : dval (l1 ++ l2) = dval l1 * 10 ^ Z.of_nat (length l2) + dval l2.
Proof. unfold dval at 1. by rewrite foldl_app, dval_shift. Qed.

Lemma dval_zeros n : dval (replicate n 48) = 0.
Proof.
  induction n as [|n IH]; [done|]. change (replicate (S n) 48) with ([48] ++ replicate n 48).
  rewrite dval_app_list, IH. cbn. lia.
Qed.

Lemma dval_digits_bound l :
  forallb is_ascii_digit l = true -> 0 <= dval l < 10 ^ Z.of_nat (length l).
Proof.
  induction l as [|d l IH] using rev_ind; intros H; [done|].
  rewrite forallb_app in H. cbn in H. breflect. unfold is_ascii_digit in *. breflect.
  rewrite dval_app, length_app. cbn [length]. rewrite Nat2Z.inj_add, Z.pow_add_r by lia.
  change (10 ^ Z.of_nat 1) with 10. specialize (IH ltac:(done)). lia.
Qed.

Lemma replicate_digits n : forallb is_ascii_digit (replicate n 48) = true.
Proof. by induction n. Qed.

(** A canonical digit string other than ["0"] has a non-zero leading digit. *)
Lemma canonical_lower l :
  canonical_digits l -> dval l = 0 \/ 10 ^ (Z.of_nat (length l) - 1) <= dval l.
Proof.
  intros (Hne & Hd & Hz). destruct l as [|c l]; [done|]. cbn [forallb] in Hd.
  apply andb_true_iff in Hd as [Hc Hd]. pose proof (dval_digits_bound l Hd) as Hb.
  change (c :: l) with ([c] ++ l). rewrite dval_app_list.
  replace (dval [c]) with (c - 48) by (cbn; lia).
  replace (Z.of_nat (length ([c] ++ l)) - 1) with (Z.of_nat (length l)) by (cbn [length app]; lia).
  unfold is_ascii_digit in Hc. breflect.
  destruct (Z.eqb_spec c 48) as [->|Hnz]; [|right; nia].
  destruct Hz as [Hl|Hp]; [|done]. destruct l; [|done]. left. done.
Qed.

(** The literals [parse] accepts: an optional sign, a canonical integer part
    and, after an optional dot, the fractional digits. *)
Definition literal (neg : bool) (i f : bytes) (dot : bool) : bytes :=
  (if neg then [45] else []) ++ i ++ (if dot then 46 :: f else []).
Definition literal_ok (neg : bool) (i f : bytes) (dot : bool) (s : Z) : Prop :=
  canonical_digits i /\ forallb is_ascii_digit f = true /\ (dot = false -> f = []) /\
  Z.of_nat (length f) <= s /\ (neg = true -> dval (i ++ f) <> 0).
Definition literal_value (neg : bool) (i f : bytes) (s : Z) : Z :=
  (if neg then -1 else 1) * (dval (i ++ f) * 10 ^ (s - Z.of_nat (length f))).

Lemma split_once_dot_spec s :
  match split_once_dot s with
  | Some (a, b) => s = a ++ 46 :: b /\ 46 ∉ a
  | None => 46 ∉ s
  end.
Proof.
  induction s as [|c s IH]; cbn [split_once_dot]; [set_solver|].
  destruct (Z.eqb_spec c 46) as [->|Hne]; [split; [done|set_solver]|].
  destruct (split_once_dot s) as [[a b]|]; cbn.
  - destruct IH as [-> Hn]. split; [done|]. set_solver.
  - set_solver.
Qed.

Lemma digits_no_dot l : forallb is_ascii_digit l = true -> 46 ∉ l.
Proof.
  induction l as [|c l IH]; cbn; intros H Hin; [set_solver|]. breflect.
  assert (46 = c \/ 46 ∈ l) as [<-|Hin'] by set_solver; [done|]. by apply IH.
Qed.

Lemma split_once_dot_app i f : 46 ∉ i -> split_once_dot (i ++ 46 :: f) = Some (i, f).
Proof.
  induction i as [|c i IH]; intros H; cbn [app split_once_dot]; [done|].
  rewrite (proj2 (Z.eqb_neq c 46)) by set_solver. rewrite IH by set_solver. done.
Qed.

Lemma split_once_dot_none i : 46 ∉ i -> split_once_dot i = None.
Proof.
  intros H. pose proof (split_once_dot_spec i) as S. destruct (split_once_dot i) as [[a b]|]; [|done].
  destruct S as [-> _]. set_solver.
Qed.

Lemma literal_lower i f s :
  canonical_digits i -> forallb is_ascii_digit f = true -> Z.of_nat (length f) <= s ->
  10 ^ (Z.of_nat (length i) - 1) <= dval i ->
  10 ^ (Z.of_nat (length i) - 1 + s) <= dval (i ++ f) * 10 ^ (s - Z.of_nat (length f)).
Proof.
  intros (Hne & _ & _) Hf Hl Hlow. assert (0 < length i)%nat by (destruct i; [done|cbn; lia]).
  pose proof (dval_nonneg f Hf). rewrite dval_app_list.
  replace (Z.of_nat (length i) - 1 + s)
    with ((Z.of_nat (length i) - 1 + Z.of_nat (length f)) + (s - Z.of_nat (length f))) by lia.
  rewrite Z.pow_add_r, Z.pow_add_r by lia.
  apply Z.mul_le_mono_nonneg_r; [apply Z.pow_nonneg; lia|].
  assert (10 ^ (Z.of_nat (length i) - 1) * 10 ^ Z.of_nat (length f) <= dval i * 10 ^ Z.of_nat (length f))
    by (apply Z.mul_le_mono_nonneg_r; [apply Z.pow_nonneg; lia|done]).
  lia.
Qed.

Lemma parse_digits_iff neg i f p s d :
  canonical_digits i -> forallb is_ascii_digit f = true -> Z.of_nat (length f) <= s -> 0 <= p ->
  let ds := i ++ f ++ replicate (Z.to_nat s - length f) 48 in
  (if 39 <? Z.of_nat (length ds) then Err NumericOverflow
   else
     c ← accumulate 0 ds;
     let c' := if neg : bool then - c else c in
     if neg && (c' =? 0) then Err InvalidDecimal else new c' p s) = Ok d <->
  (neg = true -> dval (i ++ f) <> 0) /\
  d = MkDecimal (literal_value neg i f s) p s /\ dec_valid d.
Proof.
  intros Hi Hf Hl Hp ds.
  assert (Hds : forallb is_ascii_digit ds = true).
  { unfold ds. rewrite !forallb_app, Hf, replicate_digits. by destruct Hi as (_ & -> & _). }
  set (v := dval (i ++ f)). set (m := 10 ^ (s - Z.of_nat (length f))).
  assert (Hval : dval ds = v * m).
  { unfold ds, v, m. rewrite app_assoc, dval_app_list, dval_zeros, length_replicate.
    rewrite Nat2Z.inj_sub, Z2Nat.id by lia. lia. }
  assert (Hm : 0 < m) by (apply Z.pow_pos_nonneg; lia).
  assert (Hlv : literal_value neg i f s = if neg then - (v * m) else v * m)
    by (unfold literal_value; fold v m; destruct neg; lia).
  assert (Hlen : Z.of_nat (length ds) = Z.of_nat (length i) + s)
    by (unfold ds; rewrite !length_app, length_replicate; lia).
  assert (Hv0 : 0 <= v) by (apply dval_nonneg; rewrite forallb_app, Hf; by destruct Hi as (_ & -> & _)).
  assert (Hshort : dec_valid (MkDecimal (literal_value neg i f s) p s) ->
                   Z.of_nat (length ds) <= 39 /\ v * m < 2 ^ 127).
  { intros [[Hp1 Hs1] Hc]. cbn in *. rewrite Hlv in Hc.
    pose proof pow38_i128. pose proof (pow10_mono p 38 ltac:(lia)).
    assert (v * m < 10 ^ 38) by (destruct neg; lia). split; [|lia].
    destruct (canonical_lower i Hi) as [Hz|Hlow].
    - assert (nat_text 0 = i) as <- by (rewrite <- Hz; by apply nat_text_dval).
      rewrite Hlen. change (length (nat_text 0)) with 1%nat. lia.
    - destruct (Z.le_gt_cases (Z.of_nat (length ds)) 39); [done|exfalso].
      pose proof (literal_lower i f s Hi Hf Hl Hlow). fold v m in H2.
      pose proof (pow10_mono 38 (Z.of_nat (length i) - 1 + s) ltac:(lia)). lia. }
  assert (Hnd : ds <> []) by (unfold ds; destruct Hi as (Hne & _); by destruct i).
  rewrite accumulate_dval, Hval by done. split.
  - intros H. destruct (39 <? _); [done|]. destruct (v * m <? 2 ^ 127); [|done].
    cbn [mbind outcome_bind] in H. cbn zeta in H. rewrite <- Hlv in H. case_in H as E3; [done|].
    apply new_ok in H as [-> Hv]; [|lia..]. split_and!; try done.
    intros -> Hz. rewrite Hlv in E3. cbn [andb] in E3. breflect. apply E3. fold v in Hz. lia.
  - intros (Hz & -> & Hv). destruct (Hshort Hv) as [HL HV].
    rewrite (proj2 (Z.ltb_ge _ _)) by done. rewrite (proj2 (Z.ltb_lt _ _)) by done.
    cbn [mbind outcome_bind]. cbn zeta. rewrite <- Hlv.
    replace (neg && (literal_value neg i f s =? 0)) with false.
    + apply new_ok; [lia..|]. done.
    + destruct neg; [|done]. symmetry. apply Z.eqb_neq. rewrite Hlv. fold v in Hz.
      specialize (Hz eq_refl). nia.
Qed.

Lemma canonical_first i : canonical_digits i -> exists c t, i = c :: t /\ 48 <= c <= 57.
Proof.
  intros (Hne & Hd & _). destruct i as [|c t]; [done|]. exists c, t. split; [done|].
  cbn in Hd. unfold is_ascii_digit in Hd. breflect. lia.
Qed.

Lemma parse_body_iff neg body p s d :
  0 <= p -> 0 <= s ->
  parse_body neg body p s = Ok d <->
  exists i f dot, body = i ++ (if dot : bool then 46 :: f else []) /\ literal_ok neg i f dot s /\
    d = MkDecimal (literal_value neg i f s) p s /\ dec_valid d.
Proof.
  intros Hp Hs. unfold parse_body. split.
  - pose proof (split_once_dot_spec body) as Hsp.
    set (pr := match split_once_dot body with Some _ => _ | None => _ end).
    destruct pr as [i f] eqn:Epr. intros H.
    case_in H as C1; [done|]. case_in H as C2; [done|]. case_in H as C3; [done|].
    apply orb_false_iff in C1 as [C1 Cf]. apply orb_false_iff in C1 as [C1 Ci].
    rewrite negb_false_iff in Ci, Cf. apply Z.ltb_ge in C3.
    assert (Hi : canonical_digits i).
    { split_and!; [by destruct i|done|]. apply andb_false_iff in C2 as [L|P]; [|by right].
      left. apply Z.ltb_ge in L. destruct i as [|? [|]]; cbn in *; done || lia. }
    apply parse_digits_iff in H as (Hz & -> & Hv); [|done..].
    exists i, f, (match split_once_dot body with Some _ => true | None => false end).
    unfold pr in Epr. split_and!; try done.
    + destruct (split_once_dot body) as [[a b]|]; simplify_eq; [tauto|by rewrite app_nil_r].
    + destruct (split_once_dot body) as [[a b]|]; simplify_eq; done.
  - intros (i & f & dot & -> & (Hi & Hf & Hdot & Hl & Hz) & -> & Hv).
    assert (Hid : forallb is_ascii_digit i = true) by (by destruct Hi as (_ & ? & _)).
    assert (E : match split_once_dot (i ++ (if dot then 46 :: f else [])) with
                | Some pr => pr | None => (i ++ (if dot then 46 :: f else []), []) end = (i, f)).
    { destruct dot.
      - by rewrite split_once_dot_app by by apply digits_no_dot.
      - rewrite app_nil_r, split_once_dot_none by by apply digits_no_dot. by rewrite Hdot. }
    rewrite E. destruct (canonical_checks i Hi) as [C1 C2]. rewrite C1, C2, Hf. cbn [orb negb].
    rewrite (proj2 (Z.ltb_ge _ _)) by done. by apply parse_digits_iff.
Qed.

Lemma parse_iff text p s d :
  0 <= p -> 0 <= s ->
  parse text p s = Ok d <->
  exists neg i f dot, text = literal neg i f dot /\ literal_ok neg i f dot s /\
    d = MkDecimal (literal_value neg i f s) p s /\ dec_valid d.
Proof.
  intros Hp Hs. unfold parse. split.
  - destruct (strip_minus text) as [neg body] eqn:Epr. intros H. case_in H as C; [done|].
    apply parse_body_iff in H as (i & f & dot & -> & Hok & Hd); [|done..].
    exists neg, i, f, dot. split_and!; try tauto. unfold strip_minus, literal in *.
    destruct text as [|c rest]; cbn in Epr; simplify_eq; [done|].
    destruct (Z.eqb_spec c 45) as [->|]; simplify_eq; [|done].
    match goal with H : drop 0 rest = _ |- _ => rewrite drop_0 in H; by rewrite H end.
  - intros (neg & i & f & dot & -> & Hok & Hd). unfold literal.
    destruct (canonical_first i) as (c & t & -> & Hc); [by destruct Hok|].
    assert (E : strip_minus ((if neg then [45] else []) ++ (c :: t) ++ (if dot then 46 :: f else []))
                = (neg, (c :: t) ++ (if dot then 46 :: f else []))).
    { unfold strip_minus. destruct neg; cbn [app peek_is]; [done|].
      by rewrite (proj2 (Z.eqb_neq c 45)) by lia. }
    rewrite E. cbn [app peek_is orb]. rewrite (proj2 (Z.eqb_neq c 43)) by lia.
    apply parse_body_iff; [done..|]. exists (c :: t), f, dot. tauto.
Qed.

(** [to_text] prints a literal that [parse] accepts, with its own value. *)
Lemma to_text_literal d :
  dec_valid d ->
  exists i f dot, to_text d = literal (coefficient d <? 0) i f dot /\
    canonical_digits i /\ forallb is_ascii_digit f = true /\ (dot = false -> f = []) /\
    Z.of_nat (length f) = scale d /\ dval (i ++ f) = Z.abs (coefficient d).
Proof.
  intros [[Hp Hs] Hc]. unfold to_text, literal.
  destruct (nat_text_canonical (Z.abs (coefficient d)) ltac:(lia)) as [Hcan Hval].
  set (s := nat_text (Z.abs (coefficient d))) in *. assert (Hcan' := Hcan).
  destruct Hcan as (Hne & Hd & Hz). destruct (Nat.eqb_spec (Z.to_nat (scale d)) 0) as [E0|E0].
  - exists s, [], false. rewrite !app_nil_r. split_and!; try done. cbn. lia.
  - destruct (Nat.leb_spec (length s) (Z.to_nat (scale d))) as [Hl|Hl].
    + exists [48], (replicate (Z.to_nat (scale d) - length s) 48 ++ s), true. split_and!.
      * done.
      * by split_and!; [| |left].
      * by rewrite forallb_app, replicate_digits, Hd.
      * done.
      * rewrite length_app, length_replicate. lia.
      * rewrite dval_app_list, dval_app_list, dval_zeros. cbn. lia.
    + set (k := (length s - Z.to_nat (scale d))%nat).
      exists (take k s), (drop k s), true. rewrite <- (take_drop k s), forallb_app in Hd. breflect.
      split_and!; try done.
      * split_and!; [|done|].
        -- intros E. apply (f_equal length) in E. rewrite length_take in E. cbn in E. lia.
        -- destruct Hz as [Hz|Hz]; [exfalso; lia|]. right. destruct s; [done|].
           destruct k eqn:Ek; [lia|]. done.
      * rewrite length_drop. lia.
      * by rewrite take_drop.
Qed.

Lemma decimal_field_law d :
  dec_valid d -> from_canon decimal_codec (to_canon decimal_codec d) = Ok d.
Proof.
  intros Hv. destruct d as [c p s]. assert (Hv' := Hv). destruct Hv' as [[Hp Hs] Hc]. cbn in Hp, Hs, Hc.
  pose proof pow38_i128. pose proof (pow10_mono p 38 ltac:(lia)).
  assert (Hu : forall x, 0 <= x <= 38 -> as_u32 (cu32 x) = Ok x).
  { intros x Hx. apply (u32_codec_law x). apply in_u_spec. lia. }
  assert (Hi : as_i128 (cint c) = Ok c) by (apply parse_dec_text; lia).
  cbn [decimal_codec from_canon to_canon].
  set (v := build _). change (expect_fields _ v) with (Ok tt : CoreResult unit).
  change (field (str "kind") v) with (Ok (Str (str "decimal.v1")) : CoreResult CanonValue).
  change (field (str "coefficient") v) with (Ok (cint c) : CoreResult CanonValue).
  change (field (str "precision") v) with (Ok (cu32 p) : CoreResult CanonValue).
  change (field (str "scale") v) with (Ok (cu32 s) : CoreResult CanonValue).
  cbn [mbind outcome_bind as_str]. rewrite bool_decide_eq_true_2 by done. cbn [negb].
  rewrite Hi. cbn [mbind outcome_bind]. rewrite !Hu by lia. cbn [mbind outcome_bind].
  rewrite (proj2 (Z.ltb_ge 38 p)), (proj2 (Z.ltb_ge 38 s)) by lia. cbn [orb].
  apply (proj2 (new_ok c p s _ ltac:(lia) ltac:(lia))). split; [reflexivity|exact Hv].
Qed.

#[global] Instance decimal_codec_law : CodecLaw decimal_codec dec_valid.
Proof. exact decimal_field_law. Qed.

(** ** Properties *)

(** C36. Decimal arithmetic is exact and checked: on valid operands every
    operation is the equation [representable] gives.  Operands of different
    types are refused as a type mismatch; operands of one type give the
    mathematical result with their type when its magnitude is below ten to the
    precision, and a numeric overflow otherwise; negation always succeeds.
    Nothing panics, the overflow of the 128-bit intermediate included, and
    every success is again a valid decimal. *)
Theorem decimal_arith_exact (a b : Decimal) (k : Z) (Ha : dec_valid a) (Hb : dec_valid b) :
  (checked_add a b =
     if decide (scale a = scale b /\ precision a = precision b)
     then representable (coefficient a + coefficient b) (precision a) (scale a)
     else Err TypeMismatch) /\
  (checked_sub a b =
     if decide (scale a = scale b /\ precision a = precision b)
     then representable (coefficient a - coefficient b) (precision a) (scale a)
     else Err TypeMismatch) /\
  checked_mul_int a k = representable (coefficient a * k) (precision a) (scale a) /\
  checked_neg a = Ok (MkDecimal (- coefficient a) (precision a) (scale a)) /\
  (forall d, checked_add a b = Ok d \/ checked_sub a b = Ok d \/ checked_mul_int a k = Ok d \/
     checked_neg a = Ok d -> dec_valid d).
Proof.
  destruct Ha as [Ht Hc].
  assert (Hn : checked_neg a = representable (- coefficient a) (precision a) (scale a))
    by (by apply checked_new_representable).
  assert (Hm : checked_mul_int a k = representable (coefficient a * k) (precision a) (scale a))
    by (by apply checked_new_representable).
  rewrite checked_add_eq, checked_sub_eq, Hm, Hn by done. split_and!; try done.
  - unfold representable. by rewrite (proj2 (Z.ltb_lt _ _)) by lia.
  - intros d Hd. repeat (destruct Hd as [Hd|Hd]); try case_decide; try done;
      by eapply representable_valid.
Qed.

Lemma decimal_arith_exact_witness :
  checked_add (MkDecimal 1050 10 2) (MkDecimal 5 10 2) = Ok (MkDecimal 1055 10 2) /\
  checked_mul_int (MkDecimal 1050 10 2) (10 ^ 7) = Err NumericOverflow.
Proof.
  assert (H : forall c, Z.abs c < 10 ^ 10 -> dec_valid (MkDecimal c 10 2)).
  { intros c Hc. split; [split; cbn; lia|]. done. }
  destruct (decimal_arith_exact (MkDecimal 1050 10 2) (MkDecimal 5 10 2) (10 ^ 7)
    (H 1050 eq_refl) (H 5 eq_refl)) as (E1 & _ & E2 & _).
  split; [rewrite E1|rewrite E2]; reflexivity.
Defined.

(** Rescaling is exact: whenever the scale difference is at most 38 (the
    size of the power table) it never panics, and it succeeds exactly with the
    valid decimal of the requested type that denotes the same rational number;
    beyond that difference the table access is out of bounds and it panics. *)
Theorem rescale_exact (a d : Decimal) (p s : Z) (Ha : dec_valid a) (Hp : 0 <= p) (Hs : 0 <= s) :
  (s <= 38 + scale a ->
    (rescale a p s = Ok d <->
       precision d = p /\ scale d = s /\ dec_valid d /\
       coefficient d * 10 ^ scale a = coefficient a * 10 ^ s) /\
    rescale a p s <> Panic) /\
  (38 + scale a < s -> rescale a p s = Panic).
Proof.
  split.
  - intros H. split; [by apply rescale_exact_iff|by apply rescale_no_panic].
  - intros H. unfold rescale. rewrite (proj2 (Z.leb_le _ _)) by lia. by rewrite pow10_at_panic by lia.
Qed.

Lemma rescale_exact_witness : rescale (MkDecimal 1 1 0) 38 39 = Panic.
Proof.
  apply (rescale_exact (MkDecimal 1 1 0) (MkDecimal 1 1 0) 38 39); [|lia..|cbn; lia].
  split; [split; cbn; lia|done].
Defined.

(** The decimal literal parser accepts exactly the literals (an optional
    minus sign, an integer part without redundant leading zero, optionally a
    dot and at most [scale] digits, no negative zero) whose value fits the
    type, each with its exact value.  The dot may be left without digits. *)
Theorem parse_decimal_exact (text : bytes) (p s : Z) (d : Decimal) (Hp : 0 <= p) (Hs : 0 <= s) :
  parse text p s = Ok d <->
  exists neg i f dot, text = literal neg i f dot /\ literal_ok neg i f dot s /\
    d = MkDecimal (literal_value neg i f s) p s /\ dec_valid d.
Proof. by apply parse_iff. Qed.

Lemma parse_decimal_exact_witness : parse (str "1.") 10 2 = Ok (MkDecimal 100 10 2).
Proof.
  apply (proj2 (parse_decimal_exact (str "1.") 10 2 _ ltac:(lia) ltac:(lia))).
  exists false, [49], [], true. unfold literal_ok, canonical_digits, dec_valid, dec_type_ok.
  split_and!; first [reflexivity | by left | vm_compute; congruence | done].
Defined.

(** Printing then parsing a valid decimal at its own type gives it back. *)
Theorem decimal_text_roundtrip (d : Decimal) (Hd : dec_valid d) :
  parse (to_text d) (precision d) (scale d) = Ok d.
Proof.
  destruct (to_text_literal d Hd) as (i & f & dot & -> & Hi & Hf & Hdot & Hl & Hv).
  assert (Hd' := Hd). destruct Hd' as [[Hp Hs] Hc].
  assert (E : literal_value (coefficient d <? 0) i f (scale d) = coefficient d).
  { unfold literal_value. rewrite Hv, Hl, Z.sub_diag. destruct (Z.ltb_spec (coefficient d) 0); lia. }
  apply parse_iff; [lia..|]. exists (coefficient d <? 0), i, f, dot. rewrite E. split_and!; try done.
  - split_and!; try done; [lia|]. intros Hn. rewrite Hv. breflect. lia.
  - by destruct d.
Qed.

Lemma decimal_text_roundtrip_witness : parse (to_text (MkDecimal (-5) 5 2)) 5 2 = Ok (MkDecimal (-5) 5 2).
Proof.
  apply (decimal_text_roundtrip (MkDecimal (-5) 5 2)). split; [split; cbn; lia|done].
Defined.

(** Cross-scale comparison compares the denoted rational numbers, and
    never panics on valid operands. *)
Theorem cmp_exact_spec (a b : Decimal) (o : comparison) (Ha : dec_valid a) (Hb : dec_valid b) :
  cmp_exact a b <> Panic /\
  (cmp_exact a b = Ok o ->
     o = (coefficient a * 10 ^ scale b ?= coefficient b * 10 ^ scale a)).
Proof.
  assert (Hab := conj Ha Hb). destruct Hab as [[[Hpa Hsa] Hca] [[Hpb Hsb] Hcb]].
  unfold cmp_exact. set (s := Z.max (scale a) (scale b)).
  pose proof (rescale_no_panic a 38 s Ha ltac:(lia) ltac:(lia)).
  pose proof (rescale_no_panic b 38 s Hb ltac:(lia) ltac:(lia)). split.
  - destruct (rescale a 38 s); [|done..]. by destruct (rescale b 38 s).
  - intros (a' & Ea & (b' & Eb & [= <-])%bind_ok_inv)%bind_ok_inv.
    apply rescale_exact_iff in Ea as (_ & Sa & _ & Ea); [|done||lia..].
    apply rescale_exact_iff in Eb as (_ & Sb & _ & Eb); [|done||lia..].
    assert (0 < 10 ^ s) by (apply Z.pow_pos_nonneg; lia).
    assert (0 < 10 ^ scale a * 10 ^ scale b)
      by (apply Z.mul_pos_pos; apply Z.pow_pos_nonneg; lia).
    rewrite (Zmult_compare_compat_r (coefficient a') (coefficient b') (10 ^ scale a * 10 ^ scale b)) by lia.
    rewrite (Zmult_compare_compat_r (coefficient a * _) (coefficient b * _) (10 ^ s)) by lia.
    f_equal; [rewrite Z.mul_assoc, Ea; ring|].
    rewrite (Z.mul_comm (10 ^ scale a)), Z.mul_assoc, Eb. ring.
Qed.

Lemma cmp_exact_spec_witness : cmp_exact (MkDecimal 10 10 1) (MkDecimal 100 10 2) <> Panic.
Proof.
  apply (cmp_exact_spec (MkDecimal 10 10 1) (MkDecimal 100 10 2) Eq); (split; [split; cbn; lia|done]).
Defined.
