(* ===== verification/Rng.v ===== *)
(** * Deterministic generator (src/crates/carolina-core/src/rng.rs)

    SplitMix64 seeding and xoshiro256**.  [below] loops until a sample falls
    under the rejection zone; the model takes the number of samples it may draw
    as fuel and returns [None] when they are all rejected. *)

From S2P Require Import Prelude.

Definition wadd (a b : Z) : Z := wrap_u 64 (a + b).
Definition wmul (a b : Z) : Z := wrap_u 64 (a * b).
Definition rotate_left (x k : Z) : Z := wrap_u 64 (Z.lor (Z.shiftl x k) (Z.shiftr x (64 - k))).

Record DetRng : Type := MkRng { s0 : Z; s1 : Z; s2 : Z; s3 : Z }.

Definition splitmix64 (state : Z) : Z * Z :=
  let state := wadd state 0x9E3779B97F4A7C15 in
  let z := state in
  let z := wmul (Z.lxor z (Z.shiftr z 30)) 0xBF58476D1CE4E5B9 in
  let z := wmul (Z.lxor z (Z.shiftr z 27)) 0x94D049BB133111EB in
  (Z.lxor z (Z.shiftr z 31), state).

Definition rng_new (seed : Z) : DetRng :=
  let '(a, st) := splitmix64 seed in
  let '(b, st) := splitmix64 st in
  let '(c, st) := splitmix64 st in
  let '(d, st) := splitmix64 st in
  MkRng a b c d.

Definition next_u64 (r : DetRng) : Z * DetRng :=
  let result := wmul (rotate_left (wmul (s1 r) 5) 7) 9 in
  let t := wrap_u 64 (Z.shiftl (s1 r) 17) in
  let x2 := Z.lxor (s2 r) (s0 r) in
  let x3 := Z.lxor (s3 r) (s1 r) in
  let x1 := Z.lxor (s1 r) x2 in
  let x0 := Z.lxor (s0 r) x3 in
  let x2 := Z.lxor x2 t in
  let x3 := rotate_left x3 45 in
  (result, MkRng x0 x1 x2 x3).

Definition U64_MAX : Z := 2 ^ 64 - 1.
Definition zone (n : Z) : Z := U64_MAX - U64_MAX mod n.

(** The rejection loop of [below]. *)
Fixpoint below_loop (fuel : nat) (n : Z) (r : DetRng) : option (Z * DetRng) :=
  match fuel with
  | O => None
  | S f =>
      let '(v, r') := next_u64 r in
      if v <? zone n then Some (v mod n, r') else below_loop f n r'
  end.

(** [assert!(n > 0)] panics, hence the outcome. *)
Definition below (fuel : nat) (r : DetRng) (n : Z) : outcome unit (option (Z * DetRng)) :=
  if 0 <? n then Ok (below_loop fuel n r) else Panic.

Definition range_i64 (fuel : nat) (r : DetRng) (lo hi : Z) : outcome unit (option (Z * DetRng)) :=
  if lo <=? hi then
    let span := wrap_u 64 (hi - lo + 1) in
    o ← below fuel r span;
    Ok ('(v, r') ← o; Some (wrap_i 64 (lo + wrap_i 64 v), r'))
  else Panic.

Definition chance (fuel : nat) (r : DetRng) (num den : Z) : outcome unit (option (bool * DetRng)) :=
  o ← below fuel r den; Ok ('(v, r') ← o; Some (v <? num, r')).

(** [bytes(n)]: eight bytes per sample, the last sample cut short. *)
Fixpoint rng_bytes_loop (fuel : nat) (n : nat) (r : DetRng) : bytes * DetRng :=
  match fuel, n with
  | _, O => ([], r)
  | O, _ => ([], r)
  | S f, _ =>
      let '(x, r') := next_u64 r in
      let chunk := take n (le_encode 8 x) in
      let '(rest, r'') := rng_bytes_loop f (n - length chunk) r' in
      (chunk ++ rest, r'')
  end.
Definition rng_bytes (r : DetRng) (n : nat) : bytes * DetRng := rng_bytes_loop n n r.

Definition fork (r : DetRng) : DetRng * DetRng :=
  let '(x, r') := next_u64 r in (rng_new x, r').

(** ** Facts *)

(** The state after [k] samples and the [k]-th sample. *)
Fixpoint rng_iter (k : nat) (r : DetRng) : DetRng :=
  match k with O => r | S k' => rng_iter k' (snd (next_u64 r)) end.
Definition sample (k : nat) (r : DetRng) : Z := fst (next_u64 (rng_iter k r)).

Lemma wrap_u_bound w z : 0 <= w -> 0 <= wrap_u w z < 2 ^ w.
Proof. intros. apply Z.mod_pos_bound, Z.pow_pos_nonneg; lia. Qed.

Lemma zone_bounds n : 0 < n -> 0 <= zone n <= U64_MAX /\ (zone n) mod n = 0.
Proof.
  intros Hn. unfold zone. assert (0 < U64_MAX) by done.
  pose proof (Z.mod_pos_bound U64_MAX n Hn). pose proof (Z.mod_le U64_MAX n ltac:(lia) Hn).
  split; [lia|]. rewrite Zminus_mod, Zmod_mod, Z.sub_diag. done.
Qed.

Lemma below_loop_first n k fuel r :
  (k < fuel)%nat -> (forall j, (j < k)%nat -> zone n <= sample j r) -> sample k r < zone n ->
  below_loop fuel n r = Some (sample k r mod n, rng_iter (S k) r).
Proof.
  revert r fuel; induction k as [|k IH]; intros r [|fuel] Hk Hrej Hacc; try lia; cbn [below_loop];
    destruct (next_u64 r) as [v r'] eqn:E.
  - unfold sample in *. cbn [rng_iter] in *. rewrite E in *. cbn in *.
    by rewrite (proj2 (Z.ltb_lt _ _)).
  - pose proof (Hrej 0%nat ltac:(lia)) as H0. unfold sample in H0. cbn [rng_iter] in H0. rewrite E in H0.
    cbn [fst] in H0. rewrite (proj2 (Z.ltb_ge _ _)) by done.
    assert (Hs : forall j, sample (S j) r = sample j r') by (intros; unfold sample; cbn [rng_iter]; by rewrite E).
    rewrite (IH r' fuel); [| lia | | by rewrite <- Hs].
    + rewrite Hs. cbn [rng_iter]. by rewrite E.
    + intros j Hj. rewrite <- Hs. apply Hrej. lia.
Qed.

Lemma below_loop_range n fuel r v r' : 0 < n -> below_loop fuel n r = Some (v, r') -> 0 <= v < n.
Proof.
  intros Hn. revert r; induction fuel as [|f IH]; intros r; cbn [below_loop]; [done|].
  destruct (next_u64 r) as [x r1]. case_if; [|apply IH]. intros [= <- <-].
  by apply Z.mod_pos_bound.
Qed.

(** ** Properties *)

(** Rejection sampling: [below] returns the first sample under the zone,
    reduced modulo [n]; the result lies in [0, n); and the zone is a multiple
    of [n], so that the accepted samples with residue [v] are exactly
    [v + n * q] for [q < zone / n]: every result has equally many samples. *)
Theorem below_unbiased (n : Z) (Hn : 0 < n <= U64_MAX) (r : DetRng) :
  (forall k fuel, (k < fuel)%nat -> (forall j, (j < k)%nat -> zone n <= sample j r) ->
     sample k r < zone n ->
     below fuel r n = Ok (Some (sample k r mod n, rng_iter (S k) r))) /\
  (forall fuel v r', below fuel r n = Ok (Some (v, r')) -> 0 <= v < n) /\
  (forall v x, 0 <= v < n ->
     (0 <= x < zone n /\ x mod n = v <-> exists q, 0 <= q < zone n / n /\ x = v + n * q)).
Proof.
  destruct (zone_bounds n ltac:(lia)) as [Hz Hzm]. unfold below.
  rewrite (proj2 (Z.ltb_lt 0 n)) by lia. split_and!.
  - intros. by erewrite below_loop_first.
  - intros fuel v r' [= H]. eapply below_loop_range; [lia|done].
  - intros v x Hv. assert (Hd : zone n = n * (zone n / n)) by (apply Z_div_exact_2; lia). split.
    + intros [Hx <-]. exists (x / n). split; [|rewrite Z.add_comm; apply Z.div_mod; lia].
      split; [apply Z.div_pos; lia|]. apply Z.div_lt_upper_bound; lia.
    + intros (q & Hq & ->). split; [nia|]. rewrite Z.mul_comm, Z_mod_plus_full. by apply Z.mod_small.
Qed.

Lemma below_unbiased_witness :
  below 5 (rng_new 1) 7 =
  Ok (Some (sample 0 (rng_new 1) mod 7, rng_iter 1 (rng_new 1))).
Proof.
  apply (proj1 (below_unbiased 7 ltac:(unfold U64_MAX; lia) (rng_new 1))); [lia|lia|].
  vm_compute. reflexivity.
Defined.

(** [range_i64] stays within its bounds, and panics on the full [i64]
    range, whose span does not fit a [u64]. *)
Theorem range_i64_bounds (r : DetRng) (fuel : nat) (lo hi : Z)
  (Hlo : in_i 64 lo = true) (Hhi : in_i 64 hi = true) (Hle : lo <= hi) :
  (hi - lo + 1 < 2 ^ 64 -> exists o, range_i64 fuel r lo hi = Ok o /\
     forall v r', o = Some (v, r') -> lo <= v <= hi) /\
  (hi - lo + 1 = 2 ^ 64 -> range_i64 fuel r lo hi = Panic).
Proof.
  rewrite in_i_spec in Hlo, Hhi. change (64 - 1) with 63 in *.
  assert (2 ^ 64 = 2 * 2 ^ 63) by reflexivity.
  unfold range_i64. rewrite (proj2 (Z.leb_le lo hi)) by done. split.
  - intros Hs. unfold wrap_u. rewrite Z.mod_small by lia. unfold below.
    rewrite (proj2 (Z.ltb_lt _ _)) by lia. cbn [mbind outcome_bind]. eexists. split; [done|].
    intros v r'. destruct (below_loop fuel _ r) as [[x r1]|] eqn:E; cbn; [|done].
    apply below_loop_range in E; [|lia]. intros [= <- <-].
    assert (Hw : wrap_i 64 (lo + wrap_i 64 x) = lo + x); [|lia].
    unfold wrap_i. change (64 - 1) with 63.
    replace (lo + ((x + 2 ^ 63) mod 2 ^ 64 - 2 ^ 63) + 2 ^ 63) with (lo + (x + 2 ^ 63) mod 2 ^ 64) by lia.
    rewrite Zplus_mod_idemp_r, Z.mod_small; lia.
  - intros Hs. rewrite Hs. done.
Qed.

Lemma range_i64_bounds_witness : range_i64 1 (rng_new 1) (- 2 ^ 63) (2 ^ 63 - 1) = Panic.
Proof. apply (range_i64_bounds (rng_new 1) 1); [reflexivity|reflexivity|lia|reflexivity]. Defined.
