(* ===== verification/OrdMap.v ===== *)
(** * Ordered maps and sets

    [std::collections::BTreeMap<K, V>] and [BTreeSet<K>] for the key types that
    are not byte strings: lists kept strictly sorted by the [Ord] instance of
    their keys, so that iteration visits the entries in the order of the
    source's [iter()].  [TotalCmp] is the contract of Rust's [Ord]: a total
    order that agrees with equality.  Maps and sets share one implementation,
    a list of items sorted by a projection to their keys. *)

From S2P Require Import Prelude.

Class TotalCmp (K : Type) : Type := {
  kcmp : K -> K -> comparison;
  kcmp_eq a b : kcmp a b = Eq <-> a = b;
  kcmp_opp a b : kcmp b a = CompOpp (kcmp a b);
  kcmp_trans a b c : kcmp a b = Lt -> kcmp b c = Lt -> kcmp a c = Lt;
}.

Lemma Zcmp_opp a b : (b ?= a) = CompOpp (a ?= b).
Proof. by rewrite Z.compare_antisym. Qed.
Lemma Zcmp_trans a b c : (a ?= b) = Lt -> (b ?= c) = Lt -> (a ?= c) = Lt.
Proof. rewrite !Z.compare_lt_iff. lia. Qed.
Lemma bytes_cmp_trans a b c : bytes_cmp a b = Lt -> bytes_cmp b c = Lt -> bytes_cmp a c = Lt.
Proof.
  intros H1 H2. pose proof (bytes_ltb_trans a b c) as H. unfold bytes_ltb in H.
  rewrite H1, H2 in H. specialize (H eq_refl eq_refl). by destruct (bytes_cmp a c).
Qed.

#[global] Instance Z_total : TotalCmp Z :=
  {| kcmp := Z.compare; kcmp_eq := Z.compare_eq_iff; kcmp_opp := Zcmp_opp; kcmp_trans := Zcmp_trans |}.
#[global] Instance bytes_total : TotalCmp bytes :=
  {| kcmp := bytes_cmp; kcmp_eq := bytes_cmp_eq; kcmp_opp := bytes_cmp_antisym; kcmp_trans := bytes_cmp_trans |}.

(** Comparing in sequence: [c.then_with(|| d)]. *)
Definition then_cmp (c d : comparison) : comparison := match c with Eq => d | _ => c end.

(** [Iterator::cmp]: the derived order of vectors, sets and maps. *)
Section lex.
Context {A : Type} (f : A -> A -> comparison).
Fixpoint lex_cmp (xs ys : list A) : comparison :=
  match xs, ys with
  | [], [] => Eq
  | [], _ :: _ => Lt
  | _ :: _, [] => Gt
  | x :: xs', y :: ys' => then_cmp (f x y) (lex_cmp xs' ys')
  end.

Lemma lex_eq xs ys : (forall x y, x ∈ xs -> f x y = Eq <-> x = y) -> lex_cmp xs ys = Eq <-> xs = ys.
Proof.
  revert ys; induction xs as [|x xs IH]; intros [|y ys] H; cbn; try done.
  pose proof (H x y ltac:(set_solver)) as Hx. specialize (IH ys ltac:(set_solver)).
  unfold then_cmp. destruct (f x y); [|split; [done|intros [= <- <-]]; naive_solver..].
  rewrite IH. destruct Hx as [Hx _]. rewrite (Hx eq_refl). split; [by intros ->|by intros [= ->]].
Qed.

Lemma lex_opp xs ys : (forall x y, x ∈ xs -> f y x = CompOpp (f x y)) -> lex_cmp ys xs = CompOpp (lex_cmp xs ys).
Proof.
  revert ys; induction xs as [|x xs IH]; intros [|y ys] H; cbn; try done.
  rewrite (H x y), IH by set_solver. by destruct (f x y).
Qed.

Lemma lex_trans xs ys zs :
  (forall x y, f x y = Eq <-> x = y) ->
  (forall x y z, x ∈ xs -> f x y = Lt -> f y z = Lt -> f x z = Lt) ->
  lex_cmp xs ys = Lt -> lex_cmp ys zs = Lt -> lex_cmp xs zs = Lt.
Proof.
  intros He. revert ys zs; induction xs as [|x xs IH]; intros [|y ys] [|z zs] H; cbn; try done.
  specialize (IH ys zs ltac:(set_solver)). pose proof (H x y z ltac:(set_solver)) as Hx. unfold then_cmp.
  destruct (f x y) eqn:E1, (f y z) eqn:E2; try done; intros H1 H2.
  - apply He in E1 as ->, E2 as ->. assert (f z z = Eq) as -> by by apply He. auto.
  - apply He in E1 as ->. by rewrite E2.
  - apply He in E2 as ->. by rewrite E1.
  - by rewrite Hx.
Qed.
End lex.

(** Two of the three laws follow from being a total order on a pair. *)
Lemma then_cmp_lt c d : then_cmp c d = Lt <-> c = Lt \/ (c = Eq /\ d = Lt).
Proof. destruct c; cbn; naive_solver. Qed.
Lemma then_cmp_eq c d : then_cmp c d = Eq <-> c = Eq /\ d = Eq.
Proof. destruct c; cbn; naive_solver. Qed.
Lemma then_cmp_opp c d : CompOpp (then_cmp c d) = then_cmp (CompOpp c) (CompOpp d).
Proof. by destruct c. Qed.

Section cmp.
Context {K : Type} `{TotalCmp K}.
Implicit Types a b c : K.

Lemma kcmp_refl a : kcmp a a = Eq.
Proof. by apply kcmp_eq. Qed.
Lemma kcmp_gt a b : kcmp a b = Gt <-> kcmp b a = Lt.
Proof. rewrite (kcmp_opp b a). by destruct (kcmp b a). Qed.

#[global] Instance total_eq_dec : EqDecision K | 100.
Proof.
  intros a b. destruct (kcmp a b) eqn:E; [left|right..]; [by apply kcmp_eq|intros ->; by rewrite kcmp_refl in E..].
Defined.
End cmp.

(** The derived order of [Option<K>]: [None] first. *)
Definition option_cmp {K} `{TotalCmp K} (a b : option K) : comparison :=
  match a, b with
  | None, None => Eq
  | None, Some _ => Lt
  | Some _, None => Gt
  | Some x, Some y => kcmp x y
  end.
#[global] Instance option_total {K} `{TotalCmp K} : TotalCmp (option K).
Proof.
  refine {| kcmp := option_cmp |}.
  - intros [a|] [b|]; cbn; rewrite ?kcmp_eq; naive_solver.
  - intros [a|] [b|]; cbn; [apply kcmp_opp|done..].
  - intros [a|] [b|] [c|]; cbn; [apply kcmp_trans|done..].
Defined.

(** ** Sorted lists of items *)
Section items.
Context {K A : Type} `{TotalCmp K} (key : A -> K).
Implicit Types (l : list A) (x y : A) (k : K).

Fixpoint item_get k l : option A :=
  match l with
  | [] => None
  | x :: l' => match kcmp k (key x) with Lt => None | Eq => Some x | Gt => item_get k l' end
  end.
Fixpoint item_insert x l : list A :=
  match l with
  | [] => [x]
  | y :: l' => match kcmp (key x) (key y) with Lt => x :: l | Eq => x :: l' | Gt => y :: item_insert x l' end
  end.
Fixpoint item_remove k l : list A :=
  match l with
  | [] => []
  | x :: l' => match kcmp k (key x) with Lt => l | Eq => l' | Gt => x :: item_remove k l' end
  end.
Fixpoint item_sorted l : Prop :=
  match l with
  | [] => True
  | x :: l' => Forall (fun y => kcmp (key x) (key y) = Lt) l' /\ item_sorted l'
  end.

Lemma item_get_below k l : Forall (fun y => kcmp k (key y) = Lt) l -> item_get k l = None.
Proof. destruct 1 as [|x l Hx]; cbn; [done|]. by rewrite Hx. Qed.

Lemma item_insert_Forall (P : A -> Prop) x l : P x -> Forall P l -> Forall P (item_insert x l).
Proof.
  intros Hx. induction 1 as [|y l Hy Hl IH]; cbn; [by constructor|].
  destruct (kcmp (key x) (key y)); by repeat constructor.
Qed.
Lemma item_remove_Forall (P : A -> Prop) k l : Forall P l -> Forall P (item_remove k l).
Proof. induction 1 as [|y l Hy Hl IH]; cbn; [done|]. destruct (kcmp k (key y)); by repeat constructor. Qed.

Lemma item_insert_sorted x l : item_sorted l -> item_sorted (item_insert x l).
Proof.
  induction l as [|y l IH]; cbn; [by repeat constructor|]. intros [Hf Hs]. destruct (kcmp (key x) (key y)) eqn:E; cbn.
  - apply kcmp_eq in E. split; [by rewrite E|done].
  - split_and!; [|done..]. constructor; [done|]. eapply Forall_impl; [done|]. cbn. intros z Hz. by eapply kcmp_trans.
  - split; [|auto]. apply item_insert_Forall; [|done]. by apply kcmp_gt.
Qed.
Lemma item_remove_sorted k l : item_sorted l -> item_sorted (item_remove k l).
Proof.
  induction l as [|y l IH]; cbn; [done|]. intros [Hf Hs]. destruct (kcmp k (key y)) eqn:E; cbn; [done..|].
  split; [by apply item_remove_Forall|auto].
Qed.

Lemma item_get_insert_eq x l : item_get (key x) (item_insert x l) = Some x.
Proof.
  induction l as [|y l IH]; cbn; [by rewrite kcmp_refl|].
  destruct (kcmp (key x) (key y)) eqn:E; cbn; [by rewrite kcmp_refl..|]. by rewrite E.
Qed.
Lemma item_get_insert_ne k x l : k <> key x -> item_sorted l -> item_get k (item_insert x l) = item_get k l.
Proof.
  intros Hk. induction l as [|y l IH]; cbn.
  - intros _. destruct (kcmp k (key x)) eqn:E; [by apply kcmp_eq in E|done..].
  - intros [Hf Hs]. destruct (kcmp (key x) (key y)) eqn:E; cbn.
    + apply kcmp_eq in E. rewrite <-E. destruct (kcmp k (key x)) eqn:E2; [by apply kcmp_eq in E2|done..].
    + destruct (kcmp k (key x)) eqn:E2; [by apply kcmp_eq in E2| |done].
      by rewrite (kcmp_trans _ _ _ E2 E).
    + by rewrite IH.
Qed.

Lemma item_get_remove_eq k l : item_sorted l -> item_get k (item_remove k l) = None.
Proof.
  induction l as [|y l IH]; cbn; [done|]. intros [Hf Hs]. destruct (kcmp k (key y)) eqn:E; cbn.
  - apply kcmp_eq in E as ->. by apply item_get_below.
  - by rewrite E.
  - rewrite E. auto.
Qed.
Lemma item_get_remove_ne k k0 l : k <> k0 -> item_sorted l -> item_get k (item_remove k0 l) = item_get k l.
Proof.
  intros Hk. induction l as [|y l IH]; cbn; [done|]. intros [Hf Hs].
  destruct (kcmp k0 (key y)) eqn:E; cbn; [|done|by rewrite IH].
  apply kcmp_eq in E as ->. destruct (kcmp k (key y)) eqn:E2; [by apply kcmp_eq in E2| |done].
  apply item_get_below. eapply Forall_impl; [done|]. cbn. intros z Hz. by eapply kcmp_trans.
Qed.

Lemma item_get_key k l x : item_get k l = Some x -> key x = k.
Proof.
  induction l as [|y l IH]; cbn; [done|]. destruct (kcmp k (key y)) eqn:E; [|done|done].
  intros [= ->]. by apply kcmp_eq in E.
Qed.
Lemma item_get_In k l x : item_get k l = Some x -> x ∈ l.
Proof.
  induction l as [|y l IH]; cbn; [done|]. destruct (kcmp k (key y)); [intros [= ->]|done|intros ?%IH]; set_solver.
Qed.
Lemma item_In_get l x : item_sorted l -> x ∈ l -> item_get (key x) l = Some x.
Proof.
  induction l as [|y l IH]; cbn; [set_solver|]. intros [Hf Hs] [->|Hx]%elem_of_cons; [by rewrite kcmp_refl|].
  rewrite Forall_forall in Hf. rewrite (proj2 (kcmp_gt (key x) (key y)) (Hf x Hx)). auto.
Qed.

Lemma item_ext l1 l2 : item_sorted l1 -> item_sorted l2 -> (forall k, item_get k l1 = item_get k l2) -> l1 = l2.
Proof.
  revert l2; induction l1 as [|x l1 IH]; intros [|y l2]; cbn [item_sorted]; intros Hs1 Hs2 Hg; [done| | |].
  - specialize (Hg (key y)). cbn in Hg. by rewrite kcmp_refl in Hg.
  - specialize (Hg (key x)). cbn in Hg. by rewrite kcmp_refl in Hg.
  - destruct Hs1 as [Hf1 Hs1], Hs2 as [Hf2 Hs2].
    assert (x = y) as <-.
    { pose proof (Hg (key x)) as Hx. pose proof (Hg (key y)) as Hy. cbn in Hx, Hy. rewrite kcmp_refl in Hx, Hy.
      destruct (kcmp (key x) (key y)) eqn:E; [congruence|done|].
      apply kcmp_gt in E. by rewrite E in Hy. }
    f_equal. apply IH; [done..|]. intros k. specialize (Hg k). cbn in Hg.
    destruct (kcmp k (key x)) eqn:E; [| |done].
    + apply kcmp_eq in E as ->. by rewrite !item_get_below.
    + rewrite !item_get_below; [done|..]; (eapply Forall_impl; [done|]; cbn; intros; by eapply kcmp_trans).
Qed.
End items.

(** ** Maps *)
Abbreviation omap K V := (list (K * V)).

Section omap.
Context {K V : Type} `{TotalCmp K}.
Implicit Types (m : omap K V) (k : K) (v : V).

Definition oget k m : option V := snd <$> item_get fst k m.
Definition oinsert k v m : omap K V := item_insert fst (k, v) m.
Definition oremove k m : omap K V := item_remove fst k m.
Definition osorted m : Prop := item_sorted fst m.

Lemma oget_insert_eq k v m : oget k (oinsert k v m) = Some v.
Proof. unfold oget, oinsert. by rewrite (item_get_insert_eq fst (k, v)). Qed.
Lemma oget_insert_ne k k0 v m : k <> k0 -> osorted m -> oget k (oinsert k0 v m) = oget k m.
Proof. intros. unfold oget, oinsert. by rewrite item_get_insert_ne. Qed.
Lemma oget_remove_eq k m : osorted m -> oget k (oremove k m) = None.
Proof. intros. unfold oget, oremove. by rewrite item_get_remove_eq. Qed.
Lemma oget_remove_ne k k0 m : k <> k0 -> osorted m -> oget k (oremove k0 m) = oget k m.
Proof. intros. unfold oget, oremove. by rewrite item_get_remove_ne. Qed.
Lemma oinsert_sorted k v m : osorted m -> osorted (oinsert k v m).
Proof. apply item_insert_sorted. Qed.
Lemma oremove_sorted k m : osorted m -> osorted (oremove k m).
Proof. apply item_remove_sorted. Qed.

Lemma oget_In k v m : oget k m = Some v -> (k, v) ∈ m.
Proof.
  unfold oget. destruct (item_get fst k m) as [[k' v']|] eqn:E; [|done]. intros [= <-].
  pose proof (item_get_key _ _ _ _ E) as Hk. cbn in Hk. subst. by eapply item_get_In.
Qed.
Lemma oIn_get k v m : osorted m -> (k, v) ∈ m -> oget k m = Some v.
Proof. intros Hs Hi. unfold oget. by rewrite (item_In_get fst m (k, v)). Qed.
Lemma oget_In_iff k v m : osorted m -> (k, v) ∈ m <-> oget k m = Some v.
Proof. split; [by apply oIn_get|apply oget_In]. Qed.

Lemma omap_ext m1 m2 : osorted m1 -> osorted m2 -> (forall k, oget k m1 = oget k m2) -> m1 = m2.
Proof.
  intros H1 H2 Hg. apply (item_ext fst); [done..|]. intros k. specialize (Hg k). unfold oget in Hg.
  destruct (item_get fst k m1) as [[k1 v1]|] eqn:E1, (item_get fst k m2) as [[k2 v2]|] eqn:E2; cbn in Hg; try done.
  apply item_get_key in E1, E2. cbn in E1, E2. congruence.
Qed.

Lemma osorted_nil : osorted [].
Proof. done. Qed.
End omap.
#[export] Hint Resolve oinsert_sorted oremove_sorted osorted_nil : core.
Arguments oget : simpl never.
Arguments oinsert : simpl never.
Arguments oremove : simpl never.

(** ** Sets *)
Section oset.
Context {K : Type} `{TotalCmp K}.
Implicit Types (s : list K) (x : K).

Definition smem x s : bool := match item_get (fun y => y) x s with Some _ => true | None => false end.
Definition sinsert x s : list K := item_insert (fun y => y) x s.
Definition sremove x s : list K := item_remove (fun y => y) x s.
Definition ssorted s : Prop := item_sorted (fun y => y) s.

Lemma smem_In x s : ssorted s -> smem x s = true <-> x ∈ s.
Proof.
  intros Hs. unfold smem. split.
  - destruct (item_get _ x s) as [y|] eqn:E; [|done]. intros _.
    pose proof (item_get_key _ _ _ _ E) as Hk. cbn in Hk. subst. by eapply item_get_In.
  - intros Hx. by rewrite (item_In_get (fun y => y) s x).
Qed.
Lemma sinsert_sorted x s : ssorted s -> ssorted (sinsert x s).
Proof. apply item_insert_sorted. Qed.
Lemma sremove_sorted x s : ssorted s -> ssorted (sremove x s).
Proof. apply item_remove_sorted. Qed.

Lemma smem_insert x y s : ssorted s -> smem x (sinsert y s) = bool_decide (x = y) || smem x s.
Proof.
  intros Hs. unfold smem, sinsert. case_bool_decide as E; cbn.
  - subst. by rewrite (item_get_insert_eq (fun y => y) y).
  - by rewrite item_get_insert_ne.
Qed.
Lemma smem_remove x y s : ssorted s -> smem x (sremove y s) = negb (bool_decide (x = y)) && smem x s.
Proof.
  intros Hs. unfold smem, sremove. case_bool_decide as E; cbn.
  - subst. by rewrite item_get_remove_eq.
  - by rewrite item_get_remove_ne.
Qed.
Lemma In_sinsert x y s : ssorted s -> x ∈ sinsert y s <-> x = y \/ x ∈ s.
Proof.
  intros Hs. rewrite <-!smem_In, smem_insert by auto using sinsert_sorted.
  case_bool_decide; cbn; naive_solver.
Qed.
End oset.
#[export] Hint Resolve sinsert_sorted sremove_sorted : core.
