(* ===== verification/LangTypes.v ===== *)
(** * Types and values of the language
      (src/crates/carolina-lang/src/types.rs)

    [Type] and [Value] of the restricted language, the total order of values
    (they are set elements and map keys), the check of a value against its
    declared type, and the order-preserving key bytes of a value.  A
    [BTreeSet<Value>] is a list sorted by the value order; a
    [BTreeMap<String, Value>] is a list sorted by the bytes of its keys. *)

From S2P Require Import Prelude Errors ByteMap OrdMap Canon CanonRecord KeyCodec Decimal.

#[local] Open Scope Z_scope.

Inductive Type_ : Type :=
| TBool | TI64 | TU64 | TUuid
| TBytes (n : Z)
| TString (n : Z)
| TDecimal (p s : Z)
| TEnum (e : Z)
| TOption (t : Type_)
| TSet (t : Type_)
| TTuple (ts : list Type_)
| TRow (r : Z)
| TStruct (fs : list (bytes * Type_))
| TUnit.

Inductive Value : Type :=
| VBool (b : bool)
| VI64 (v : Z)
| VU64 (v : Z)
| VUuid (u : bytes)
| VBytes (b : bytes)
| VStr (s : bytes)
| VDecimal (d : Decimal.Decimal)
| VEnum (enum_id variant : Z)
| VNone
| VSome (v : Value)
| VSet (items : list Value)
| VTuple (items : list Value)
| VRow (record : Z) (fields : bmap Value)
| VStruct (fields : bmap Value)
| VUnit.

(** ** Predicates on types *)
Definition is_numeric (t : Type_) : bool :=
  match t with TI64 | TU64 | TDecimal _ _ => true | _ => false end.

Fixpoint is_comparable (t : Type_) : bool :=
  match t with
  | TOption inner => is_comparable inner
  | TTuple items => forallb is_comparable items
  | TSet _ | TRow _ | TStruct _ | TUnit => false
  | _ => true
  end.

Fixpoint is_result_type (t : Type_) : bool :=
  match t with
  | TOption inner => is_result_type inner
  | TTuple items => forallb is_result_type items
  | TStruct fields => forallb (fun '(_, ty) => is_result_type ty) fields
  | TRow _ | TSet _ => false
  | _ => true
  end.

(** ** The order of values *)
Definition rank (v : Value) : Z :=
  match v with
  | VUnit => 0 | VBool _ => 1 | VI64 _ => 2 | VU64 _ => 3 | VUuid _ => 4 | VBytes _ => 5 | VStr _ => 6
  | VDecimal _ => 7 | VEnum _ _ => 8 | VNone => 9 | VSome _ => 10 | VSet _ => 11 | VTuple _ => 12
  | VRow _ _ => 13 | VStruct _ => 14
  end.

Definition decimal_cmp (a b : Decimal.Decimal) : comparison :=
  then_cmp (scale a ?= scale b) (then_cmp (precision a ?= precision b) (coefficient a ?= coefficient b)).

(** [impl Ord for Value]; vectors, sets and maps compare lexicographically. *)
Fixpoint value_cmp (a b : Value) {struct a} : comparison :=
  match a, b with
  | VBool x, VBool y => bool_cmp x y
  | VI64 x, VI64 y | VU64 x, VU64 y => x ?= y
  | VUuid x, VUuid y | VBytes x, VBytes y | VStr x, VStr y => bytes_cmp x y
  | VDecimal x, VDecimal y => decimal_cmp x y
  | VEnum e1 v1, VEnum e2 v2 => then_cmp (e1 ?= e2) (v1 ?= v2)
  | VSome x, VSome y => value_cmp x y
  | VSet x, VSet y | VTuple x, VTuple y => lex_cmp value_cmp x y
  | VRow r1 f1, VRow r2 f2 =>
      then_cmp (r1 ?= r2)
        (lex_cmp (fun '(k1, x) '(k2, y) => then_cmp (bytes_cmp k1 k2) (value_cmp x y)) f1 f2)
  | VStruct f1, VStruct f2 =>
      lex_cmp (fun '(k1, x) '(k2, y) => then_cmp (bytes_cmp k1 k2) (value_cmp x y)) f1 f2
  | _, _ => rank a ?= rank b
  end.

(** ** Accessors *)
Definition type_of (v : Value) : option Type_ :=
  match v with
  | VBool _ => Some TBool
  | VI64 _ => Some TI64
  | VU64 _ => Some TU64
  | VUuid _ => Some TUuid
  | VDecimal d => Some (TDecimal (precision d) (scale d))
  | VEnum e _ => Some (TEnum e)
  | VUnit => Some TUnit
  | VRow r _ => Some (TRow r)
  | _ => None
  end.

Definition as_bool (v : Value) : CoreResult bool :=
  match v with VBool b => Ok b | _ => Err TypeMismatch end.

(** ** Keys *)

(** [for x in l { acc = f(x, acc)?; }] *)
Section fold.
Context {A S : Type} (f : A -> S -> CoreResult S).
Fixpoint try_fold (l : list A) (s : S) : CoreResult S :=
  match l with
  | [] => Ok s
  | x :: l' => f x s ≫= fun s' => try_fold l' s'
  end.
End fold.

Fixpoint write_key (v : Value) (w : bytes) : CoreResult bytes :=
  match v with
  | VBool b => Ok (KeyWriter.bool w b)
  | VI64 v => Ok (KeyWriter.i64 w v)
  | VU64 v => Ok (KeyWriter.u64 w v)
  | VUuid u => Ok (KeyWriter.id16 w u)
  | VBytes b => Ok (KeyWriter.bytes w b)
  | VStr s => Ok (KeyWriter.str w s)
  | VDecimal d => Ok (KeyWriter.decimal w (coefficient d))
  | VEnum _ variant => Ok (KeyWriter.enum_variant w variant)
  | VNone => Ok (KeyWriter.none w)
  | VSome v => write_key v (KeyWriter.some_marker w)
  | VTuple items => try_fold write_key items (KeyWriter.tuple_header w (wrap_u 16 (Z.of_nat (length items))))
  | VSet _ | VRow _ _ | VStruct _ | VUnit => Err TypeMismatch
  end.

Definition key_bytes (v : Value) : CoreResult bytes := w ← write_key v KeyWriter.new; Ok (KeyWriter.finish w).

(** ** Checking a value against its declared type *)

(** [iter.try_for_each(f)] and [a.iter().zip(b).try_for_each(f)] *)
Section each.
Context {A B : Type} (f : A -> CoreResult unit) (g : A -> B -> CoreResult unit).
Fixpoint try_each (l : list A) : CoreResult unit :=
  match l with
  | [] => Ok tt
  | x :: l' => f x ≫= fun _ => try_each l'
  end.
Fixpoint try_zip (l : list A) (r : list B) {struct r} : CoreResult unit :=
  match l, r with
  | x :: l', y :: r' => g x y ≫= fun _ => try_zip l' r'
  | _, _ => Ok tt
  end.
End each.

Fixpoint check_type (v : Value) (ty : Type_) {struct ty} : CoreResult unit :=
  match v, ty with
  | VBool _, TBool | VI64 _, TI64 | VU64 _, TU64 | VUuid _, TUuid | VUnit, TUnit => Ok tt
  | VBytes b, TBytes n => if n <? Z.of_nat (length b) then Err TypeMismatch else Ok tt
  | VStr s, TString n => if n <? Z.of_nat (length s) then Err TypeMismatch else Ok tt
  | VDecimal d, TDecimal p s => if (precision d =? p) && (scale d =? s) then Ok tt else Err TypeMismatch
  | VEnum e _, TEnum e' => if e =? e' then Ok tt else Err TypeMismatch
  | VNone, TOption _ => Ok tt
  | VSome v, TOption t => check_type v t
  | VSet items, TSet t => try_each (fun v => check_type v t) items
  | VTuple items, TTuple ts =>
      if negb (Nat.eqb (length items) (length ts)) then Err TypeMismatch else try_zip check_type items ts
  | VRow r _, TRow r' => if r =? r' then Ok tt else Err TypeMismatch
  | VStruct fs, TStruct ts =>
      if negb (Nat.eqb (length fs) (length ts)) then Err TypeMismatch
      else try_each (fun '(n, t) => match bget n fs with
                                    | Some v => check_type v t
                                    | None => Err TypeMismatch
                                    end) ts
  | _, _ => Err TypeMismatch
  end.

(** ** Induction principles *)
Section type_ind.
Context (P : Type_ -> Prop).
Context (Hbase : forall t, match t with TOption _ | TSet _ | TTuple _ | TStruct _ => False | _ => True end -> P t).
Context (Hopt : forall t, P t -> P (TOption t)) (Hset : forall t, P t -> P (TSet t)).
Context (Htup : forall ts, Forall P ts -> P (TTuple ts)).
Context (Hstruct : forall fs, Forall (fun kv => P (snd kv)) fs -> P (TStruct fs)).

Fixpoint Type_nested_ind (t : Type_) : P t :=
  match t with
  | TOption t => Hopt t (Type_nested_ind t)
  | TSet t => Hset t (Type_nested_ind t)
  | TTuple ts => Htup ts ((fix go l : Forall P l := match l with
      | [] => @Forall_nil_2 _ P
      | x :: l' => @Forall_cons_2 _ P x l' (Type_nested_ind x) (go l') end) ts)
  | TStruct fs => Hstruct fs ((fix go l : Forall (fun kv => P (snd kv)) l := match l with
      | [] => @Forall_nil_2 _ _
      | (k, x) :: l' => @Forall_cons_2 _ (fun kv => P (snd kv)) (k, x) l' (Type_nested_ind x) (go l') end) fs)
  | t => Hbase t I
  end.
End type_ind.

Section value_ind.
Context (P : Value -> Prop).
Context (Hbase : forall v,
  match v with VSome _ | VSet _ | VTuple _ | VRow _ _ | VStruct _ => False | _ => True end -> P v).
Context (Hsome : forall v, P v -> P (VSome v)) (Hset : forall l, Forall P l -> P (VSet l)).
Context (Htup : forall l, Forall P l -> P (VTuple l)).
Context (Hrow : forall r fs, Forall (fun kv => P (snd kv)) fs -> P (VRow r fs)).
Context (Hstruct : forall fs, Forall (fun kv => P (snd kv)) fs -> P (VStruct fs)).

Fixpoint Value_nested_ind (v : Value) : P v :=
  let list_all := fix go l : Forall P l := match l with
      | [] => @Forall_nil_2 _ P
      | x :: l' => @Forall_cons_2 _ P x l' (Value_nested_ind x) (go l') end in
  let map_all := fix go l : Forall (fun kv : bytes * Value => P (snd kv)) l := match l with
      | [] => @Forall_nil_2 _ _
      | (k, x) :: l' => @Forall_cons_2 _ (fun kv => P (snd kv)) (k, x) l' (Value_nested_ind x) (go l') end in
  match v with
  | VSome v => Hsome v (Value_nested_ind v)
  | VSet l => Hset l (list_all l)
  | VTuple l => Htup l (list_all l)
  | VRow r fs => Hrow r fs (map_all fs)
  | VStruct fs => Hstruct fs (map_all fs)
  | v => Hbase v I
  end.
End value_ind.

(** ** The order is total and agrees with equality *)

Definition entry_cmp (p q : bytes * Value) : comparison :=
  then_cmp (bytes_cmp (fst p) (fst q)) (value_cmp (snd p) (snd q)).

Lemma lex_cmp_ext {A} (f g : A -> A -> comparison) xs ys :
  (forall x y, f x y = g x y) -> lex_cmp f xs ys = lex_cmp g xs ys.
Proof. intros H. revert ys; induction xs as [|x xs IH]; intros [|y ys]; cbn; [done..|]. by rewrite H, IH. Qed.

Lemma value_cmp_row r1 r2 f1 f2 :
  value_cmp (VRow r1 f1) (VRow r2 f2) = then_cmp (r1 ?= r2) (lex_cmp entry_cmp f1 f2).
Proof. cbn. f_equal. apply lex_cmp_ext. by intros [] []. Qed.
Lemma value_cmp_struct f1 f2 : value_cmp (VStruct f1) (VStruct f2) = lex_cmp entry_cmp f1 f2.
Proof. cbn. apply lex_cmp_ext. by intros [] []. Qed.

Lemma bool_cmp_eq x y : bool_cmp x y = Eq <-> x = y.
Proof. by destruct x, y. Qed.
Lemma bool_cmp_opp x y : bool_cmp y x = CompOpp (bool_cmp x y).
Proof. by destruct x, y. Qed.
Lemma bool_cmp_trans x y z : bool_cmp x y = Lt -> bool_cmp y z = Lt -> bool_cmp x z = Lt.
Proof. by destruct x, y, z. Qed.
Lemma decimal_cmp_eq a b : decimal_cmp a b = Eq <-> a = b.
Proof.
  unfold decimal_cmp. rewrite !then_cmp_eq, !Z.compare_eq_iff. destruct a, b; cbn. naive_solver.
Qed.
Lemma decimal_cmp_opp a b : decimal_cmp b a = CompOpp (decimal_cmp a b).
Proof. unfold decimal_cmp. by rewrite !then_cmp_opp, <-!Z.compare_antisym. Qed.
Lemma decimal_cmp_trans a b c : decimal_cmp a b = Lt -> decimal_cmp b c = Lt -> decimal_cmp a c = Lt.
Proof.
  unfold decimal_cmp. rewrite !then_cmp_lt, !Z.compare_lt_iff, !Z.compare_eq_iff. lia.
Qed.

Lemma value_cmp_rank a b : rank a <> rank b -> value_cmp a b = (rank a ?= rank b).
Proof. destruct a, b; cbn; done. Qed.

Lemma value_cmp_eq a b : value_cmp a b = Eq <-> a = b.
Proof.
  revert b; induction a as [a Ha|a IH|l IH|l IH|r fs IH|fs IH] using Value_nested_ind; intros b.
  - destruct a, b; cbn; try done; rewrite ?bool_cmp_eq, ?Z.compare_eq_iff, ?bytes_cmp_eq, ?decimal_cmp_eq,
      ?then_cmp_eq, ?Z.compare_eq_iff; naive_solver.
  - destruct b; cbn; try done. rewrite IH. naive_solver.
  - destruct b; cbn; try done. rewrite lex_eq; [naive_solver|]. rewrite Forall_forall in IH. eauto.
  - destruct b; cbn; try done. rewrite lex_eq; [naive_solver|]. rewrite Forall_forall in IH. eauto.
  - destruct b; try done. rewrite value_cmp_row, then_cmp_eq, Z.compare_eq_iff, lex_eq; [naive_solver|].
    rewrite Forall_forall in IH. intros [k x] [k' y] Hx. unfold entry_cmp. rewrite then_cmp_eq, bytes_cmp_eq, IH by done.
    cbn. naive_solver.
  - destruct b; try done. rewrite value_cmp_struct, lex_eq; [naive_solver|].
    rewrite Forall_forall in IH. intros [k x] [k' y] Hx. unfold entry_cmp. rewrite then_cmp_eq, bytes_cmp_eq, IH by done.
    cbn. naive_solver.
Qed.

Lemma entry_cmp_eq p q : entry_cmp p q = Eq <-> p = q.
Proof.
  unfold entry_cmp. rewrite then_cmp_eq, bytes_cmp_eq, value_cmp_eq. destruct p, q; cbn. naive_solver.
Qed.
Lemma entry_cmp_opp p q :
  value_cmp (snd q) (snd p) = CompOpp (value_cmp (snd p) (snd q)) -> entry_cmp q p = CompOpp (entry_cmp p q).
Proof. intros H. unfold entry_cmp. by rewrite then_cmp_opp, <-bytes_cmp_antisym, H. Qed.
Lemma entry_cmp_trans p q r :
  (value_cmp (snd p) (snd q) = Lt -> value_cmp (snd q) (snd r) = Lt -> value_cmp (snd p) (snd r) = Lt) ->
  entry_cmp p q = Lt -> entry_cmp q r = Lt -> entry_cmp p r = Lt.
Proof.
  unfold entry_cmp. rewrite !then_cmp_lt, !bytes_cmp_eq. intros H [Hk|[Ek Hv]] [Hk'|[Ek' Hv']].
  - left. by eapply bytes_cmp_trans.
  - left. by rewrite <-Ek'.
  - left. by rewrite Ek.
  - right. rewrite Ek, Ek'. auto.
Qed.

Lemma value_cmp_opp a b : value_cmp b a = CompOpp (value_cmp a b).
Proof.
  revert b; induction a as [a Ha|a IH|l IH|l IH|r fs IH|fs IH] using Value_nested_ind; intros b;
    try rewrite Forall_forall in IH.
  - destruct a; try done; destruct b; cbn; rewrite ?then_cmp_opp, <-?Z.compare_antisym;
      auto using bool_cmp_opp, bytes_cmp_antisym, decimal_cmp_opp.
  - destruct b; cbn; auto.
  - destruct b; cbn; try done. apply lex_opp. eauto.
  - destruct b; cbn; try done. apply lex_opp. eauto.
  - destruct b; try done. rewrite !value_cmp_row, then_cmp_opp, <-Z.compare_antisym. f_equal.
    apply lex_opp. eauto using entry_cmp_opp.
  - destruct b; try done. rewrite !value_cmp_struct. apply lex_opp. eauto using entry_cmp_opp.
Qed.

Lemma value_cmp_lt_rank a b : value_cmp a b = Lt -> rank a <= rank b.
Proof.
  destruct (Z.eq_dec (rank a) (rank b)) as [->|H]; [done|]. rewrite value_cmp_rank, Z.compare_lt_iff by done. lia.
Qed.

(** Transitivity needs a look at values of one kind only. *)
Lemma value_cmp_trans_kind a b c :
  (rank a = rank b -> rank b = rank c -> value_cmp a b = Lt -> value_cmp b c = Lt -> value_cmp a c = Lt) ->
  value_cmp a b = Lt -> value_cmp b c = Lt -> value_cmp a c = Lt.
Proof.
  intros H H1 H2. pose proof (value_cmp_lt_rank _ _ H1). pose proof (value_cmp_lt_rank _ _ H2).
  destruct (Z.eq_dec (rank a) (rank c)) as [E|E]; [apply H; done || lia|].
  rewrite value_cmp_rank, Z.compare_lt_iff by done. lia.
Qed.

Lemma value_cmp_trans a b c : value_cmp a b = Lt -> value_cmp b c = Lt -> value_cmp a c = Lt.
Proof.
  revert b c; induction a as [a Ha|a IH|l IH|l IH|r fs IH|fs IH] using Value_nested_ind; intros b c;
    try rewrite Forall_forall in IH; apply value_cmp_trans_kind; intros Hb Hc.
  - destruct a; try done; destruct b; try done; destruct c; try done; cbn;
      rewrite ?then_cmp_lt, ?Z.compare_lt_iff, ?Z.compare_eq_iff; try lia;
      eauto using bool_cmp_trans, bytes_cmp_trans, decimal_cmp_trans.
  - destruct b; try done; destruct c; cbn in *; eauto; done.
  - destruct b; try done; destruct c; try done. apply lex_trans; eauto using value_cmp_eq.
  - destruct b; try done; destruct c; try done. apply lex_trans; eauto using value_cmp_eq.
  - destruct b; try done; destruct c; try done.
    rewrite !value_cmp_row, !then_cmp_lt, !Z.compare_lt_iff, !Z.compare_eq_iff.
    intros [H1|[-> H1]] [H2|[-> H2]]; [left; lia..|right]. split; [done|].
    eapply lex_trans; [apply entry_cmp_eq| |exact H1|exact H2]. eauto using entry_cmp_trans.
  - destruct b; try done; destruct c; try done. rewrite !value_cmp_struct.
    apply lex_trans; [apply entry_cmp_eq|]. eauto using entry_cmp_trans.
Qed.

#[global] Instance Value_total : TotalCmp Value :=
  {| kcmp := value_cmp; kcmp_eq := value_cmp_eq; kcmp_opp := value_cmp_opp; kcmp_trans := value_cmp_trans |}.
#[global] Instance Value_eq_dec : EqDecision Value := total_eq_dec.

(** ** Values a Rust program can hold

    The ranges of the machine integers, the lengths of arrays, UTF-8 strings,
    the invariant of [Decimal], and sorted sets and maps. *)
Inductive value_ok : Value -> Prop :=
| ok_bool b : value_ok (VBool b)
| ok_i64 v : in_i 64 v = true -> value_ok (VI64 v)
| ok_u64 v : in_u 64 v = true -> value_ok (VU64 v)
| ok_uuid u : bytes_ok u -> length u = 16%nat -> value_ok (VUuid u)
| ok_bytes b : bytes_ok b -> value_ok (VBytes b)
| ok_str s : text_ok s -> value_ok (VStr s)
| ok_decimal d : dec_valid d -> value_ok (VDecimal d)
| ok_enum e v : in_u 64 e = true -> in_u 32 v = true -> value_ok (VEnum e v)
| ok_none : value_ok VNone
| ok_some v : value_ok v -> value_ok (VSome v)
| ok_set l : ssorted l -> Forall value_ok l -> value_ok (VSet l)
| ok_tuple l : Forall value_ok l -> value_ok (VTuple l)
| ok_row r fs : in_u 64 r = true -> bsorted fs -> Forall (fun kv => text_ok (fst kv)) fs ->
    Forall (fun kv => value_ok (snd kv)) fs -> value_ok (VRow r fs)
| ok_struct fs : bsorted fs -> Forall (fun kv => text_ok (fst kv)) fs ->
    Forall (fun kv => value_ok (snd kv)) fs -> value_ok (VStruct fs)
| ok_unit : value_ok VUnit.

(** ** Keys *)

(** The elements [write_key] appends. *)
Fixpoint key_elems (v : Value) : list KeyElem :=
  match v with
  | VBool b => [Bool b]
  | VI64 v => [I64 v]
  | VU64 v => [U64 v]
  | VUuid u => [Id16 u]
  | VBytes b | VStr b => [Bytes b]
  | VDecimal d => [KeyCodec.Decimal (coefficient d)]
  | VEnum _ i => [Enum i]
  | VNone => [ENone]
  | VSome v => ESome :: key_elems v
  | VTuple l => Tuple (wrap_u 16 (Z.of_nat (length l))) :: flat_map key_elems l
  | _ => []
  end.

Lemma dec_valid_i128 d : dec_valid d -> in_i 128 (coefficient d) = true.
Proof.
  intros [[? ?] ?]. rewrite in_i_spec. pose proof (pow10_mono (precision d) 38 ltac:(lia)). pose proof pow38_i128. lia.
Qed.

Lemma key_elems_ok v : value_ok v -> Forall elem_ok (key_elems v).
Proof.
  induction v as [v Hv|v IH|l IH|l IH|r fs IH|fs IH] using Value_nested_ind; intros H.
  - destruct v; try (by destruct Hv); inversion H as [| | | | |? [??]| | | | | | | | |]; subst; repeat constructor; auto.
    by apply dec_valid_i128.
  - inversion H; subst. constructor; [done|auto].
  - done.
  - inversion H as [| | | | | | | | | | |? Hl| | |]; subst. constructor.
    { cbn. rewrite in_u_spec. unfold wrap_u. apply Z.mod_pos_bound. lia. }
    clear H. induction IH as [|x l Hx _ IHl]; cbn; [done|]. inversion Hl; subst. apply Forall_app; auto.
  - done.
  - done.
Qed.

Lemma foldl_write_elem_app w es : foldl write_elem w es = w ++ foldl write_elem [] es.
Proof.
  revert w; induction es as [|e es IH]; intros w; cbn; [by rewrite app_nil_r|].
  rewrite IH, (IH (write_elem [] e)), (write_elem_app w e). by rewrite <-app_assoc.
Qed.

Lemma check_decimal d p s : check_type (VDecimal d) (TDecimal p s) = Ok tt <-> precision d = p /\ scale d = s.
Proof. cbn. destruct (Z.eqb_spec (precision d) p), (Z.eqb_spec (scale d) s); cbn; naive_solver. Qed.
Lemma check_enum e i e' : check_type (VEnum e i) (TEnum e') = Ok tt <-> e = e'.
Proof. cbn. destruct (Z.eqb_spec e e'); naive_solver. Qed.

(** Values of a comparable type have a key, which is the sequence of their elements. *)
Lemma check_tuple items ts :
  check_type (VTuple items) (TTuple ts) = Ok tt <-> Forall2 (fun v t => check_type v t = Ok tt) items ts.
Proof.
  cbn. destruct (Nat.eqb_spec (length items) (length ts)) as [El|El]; cbn.
  - revert ts El; induction items as [|v items IH]; intros [|t ts] El; [split; [constructor|done]|done..|].
    cbn in El |- *. rewrite Forall2_cons, <-IH by lia. destruct (check_type v t) as [[]|e|]; cbn; naive_solver.
  - split; [done|]. intros H%Forall2_length. done.
Qed.

Lemma write_key_elems ty : is_comparable ty = true -> forall v w, check_type v ty = Ok tt ->
  write_key v w = Ok (foldl write_elem w (key_elems v)).
Proof.
  induction ty as [ty Hb|ty IH|ty IH|ts IH|fs IH] using Type_nested_ind; intros Hc v w Hv; try done.
  - destruct ty, v; try done.
  - destruct v; try done. cbn in *. by rewrite (IH Hc).
  - destruct v as [| | | | | | | | | | |items| | |]; try done. apply check_tuple in Hv. cbn [write_key key_elems].
    cbn [foldl]. change (write_elem w (Tuple ?n)) with (KeyWriter.tuple_header w n).
    generalize (KeyWriter.tuple_header w (wrap_u 16 (Z.of_nat (length items)))). clear w.
    cbn in Hc. rewrite forallb_forall in Hc. induction Hv as [|v t items ts Hv _ IHl]; intros w; cbn [try_fold flat_map]; [done|].
    inversion IH as [|? ? Ht Hts]; subst.
    rewrite Ht; [|by apply Hc; left|done]. cbn. rewrite IHl; [by rewrite foldl_app|done|].
    intros x Hx. apply Hc. by right.
Qed.

Lemma elems_cmp_tuple items items' :
  Forall2 (fun v v' => forall xs ys, elems_cmp (key_elems v ++ xs) (key_elems v' ++ ys)
                        = then_cmp (value_cmp v v') (elems_cmp xs ys)) items items' ->
  forall xs ys, elems_cmp (flat_map key_elems items ++ xs) (flat_map key_elems items' ++ ys)
    = then_cmp (lex_cmp value_cmp items items') (elems_cmp xs ys).
Proof.
  induction 1 as [|v v' items items' Hv _ IH]; intros xs ys; cbn; [done|].
  rewrite <-!app_assoc, Hv, IH. by destruct (value_cmp v v').
Qed.

(** Among values of one comparable type the elements compare as the values. *)
Lemma elems_cmp_value ty : is_comparable ty = true -> forall v v', check_type v ty = Ok tt -> check_type v' ty = Ok tt ->
  forall xs ys, elems_cmp (key_elems v ++ xs) (key_elems v' ++ ys) = then_cmp (value_cmp v v') (elems_cmp xs ys).
Proof.
  induction ty as [ty Hb|ty IH|ty IH|ts IH|fs IH] using Type_nested_ind; intros Hc v v' Hv Hv' xs ys; try done.
  - destruct ty, v; try done; destruct v'; try done.
    all: try (cbn; match goal with |- _ = then_cmp ?c _ => by destruct c end).
    + apply check_decimal in Hv as [Hp Hs], Hv' as [Hp' Hs']. cbn. unfold decimal_cmp.
      rewrite Hp, Hs, Hp', Hs', !Z.compare_refl. cbn. by destruct (_ ?= _).
    + apply check_enum in Hv as ->, Hv' as ->. cbn. rewrite Z.compare_refl. cbn. by destruct (_ ?= _).
  - destruct v; try done; destruct v'; try done. cbn in *. by rewrite (IH Hc).
  - destruct v as [| | | | | | | | | | |items| | |]; try done.
    destruct v' as [| | | | | | | | | | |items'| | |]; try done.
    apply check_tuple in Hv, Hv'. cbn [key_elems value_cmp].
    replace (length items') with (length items) by (apply Forall2_length in Hv, Hv'; congruence).
    cbn [app elems_cmp elem_cmp]. rewrite Z.compare_refl. apply elems_cmp_tuple.
    cbn in Hc. rewrite forallb_forall in Hc. revert items' Hv'.
    induction Hv as [|v t items ts Hv _ IHl]; intros items' Hv'; inversion Hv' as [|? v' ? ? Hv'' Hl]; subst; constructor.
    + inversion IH; subst. intros. apply H1; try done. by apply Hc; left.
    + inversion IH; subst. apply IHl; [done| |done]. intros t' Ht'. apply Hc. by right.
Qed.

(** C27. Logical order is physical order: two values of one comparable type
    have key bytes, and comparing the bytes gives exactly the order of the
    values, so that distinct keys never collide and a scan of the store meets
    the rows in the order of the logical state. *)
Theorem value_keys_ordered (ty : Type_) (a b : Value) (Hc : is_comparable ty = true)
  (Ha : value_ok a) (Hb : value_ok b) (Ta : check_type a ty = Ok tt) (Tb : check_type b ty = Ok tt) :
  exists ka kb, key_bytes a = Ok ka /\ key_bytes b = Ok kb /\ bytes_cmp ka kb = value_cmp a b /\ (ka = kb <-> a = b).
Proof.
  exists (foldl write_elem KeyWriter.new (key_elems a)), (foldl write_elem KeyWriter.new (key_elems b)).
  unfold key_bytes. rewrite !(write_key_elems ty) by done. split; [done|]. split; [done|].
  assert (E : bytes_cmp (foldl write_elem KeyWriter.new (key_elems a)) (foldl write_elem KeyWriter.new (key_elems b))
              = value_cmp a b).
  { rewrite elems_bytes_cmp by (by apply key_elems_ok).
    pose proof (elems_cmp_value ty Hc a b Ta Tb [] []) as E. rewrite !app_nil_r in E. rewrite E.
    by destruct (value_cmp a b). }
  split; [done|]. by rewrite <-bytes_cmp_eq, E, value_cmp_eq.
Qed.

Lemma value_keys_ordered_witness :
  exists ka kb, key_bytes (VTuple [VStr [97]; VI64 (-1)]) = Ok ka /\ key_bytes (VTuple [VStr [97]; VI64 5]) = Ok kb /\
    bytes_cmp ka kb = Lt.
Proof.
  destruct (value_keys_ordered (TTuple [TString 4; TI64]) (VTuple [VStr [97]; VI64 (-1)]) (VTuple [VStr [97]; VI64 5]))
    as (ka & kb & Ha & Hb & Hk & _); try reflexivity.
  - repeat constructor; unfold byte_ok; try lia; reflexivity.
  - repeat constructor; unfold byte_ok; try lia; reflexivity.
  - exists ka, kb. split; [exact Ha|]. split; [exact Hb|]. rewrite Hk. reflexivity.
Defined.
