(* ===== verification/LangIr.v ===== *)
(** * The typed intermediate representation
      (src/crates/carolina-lang/src/ir.rs, operators of ast.rs)

    Modules, records, invariants, operations, expressions, contracts and
    footprints as the lowering produces them and the interpreter reads them.
    Identifiers are their numbers and names their UTF-8 bytes.  Expressions are
    a type together with a node, nested in lists; [Expr_ind] is the induction
    over them. *)

From S2P Require Import Prelude Errors ByteMap Ids LangTypes.

Inductive AggregateOp : Type := AggSum | AggCount.
Inductive CmpOp : Type := CEq | CNe | CLt | CLe | CGt | CGe.
Inductive BinOp : Type := BAdd | BSub | BMul | BAnd | BOr | BCmp (c : CmpOp) | BIn.

Inductive StateRef : Type := Pre | Candidate_.
#[global] Instance StateRef_eq_dec : EqDecision StateRef.
Proof. solve_decision. Defined.

(** ** Expressions *)
Inductive ExprIR : Type :=
| MkExpr (ty : Type_) (node : ExprNodeIR)
with ExprNodeIR : Type :=
| ELit (v : Value)
| EParam (i : Z)
| EBinding (b : Z)
| EGroupKey
| EField (base : ExprIR) (field : Z) (name : bytes)
| EStructField (base : ExprIR) (name : bytes)
| ERowLookup (record : Z) (key : ExprIR) (state : StateRef)
| EExists (record : Z) (key : ExprIR) (state : StateRef)
| ETuple (items : list ExprIR)
| EStruct (fields : list (bytes * ExprIR))
| ESetLit (items : list ExprIR)
| ESomeOf (inner : ExprIR)
| ENeg (inner : ExprIR)
| ENot (inner : ExprIR)
| EBin (op : BinOp) (lhs rhs : ExprIR)
| EIsNone (inner : ExprIR)
| EIsSome (inner : ExprIR)
| EUnwrapOr (value default : ExprIR)
| ESize (inner : ExprIR)
| ESumOver (var : Z) (set value : ExprIR).

Definition expr_ty (e : ExprIR) : Type_ := match e with MkExpr ty _ => ty end.
Definition expr_node (e : ExprIR) : ExprNodeIR := match e with MkExpr _ n => n end.

(** The immediate subexpressions, and the induction over them. *)
Definition children (n : ExprNodeIR) : list ExprIR :=
  match n with
  | ELit _ | EParam _ | EBinding _ | EGroupKey => []
  | EField e _ _ | EStructField e _ | ERowLookup _ e _ | EExists _ e _ | ESomeOf e | ENeg e | ENot e
  | EIsNone e | EIsSome e | ESize e => [e]
  | ETuple l | ESetLit l => l
  | EStruct l => map snd l
  | EBin _ e1 e2 | EUnwrapOr e1 e2 | ESumOver _ e1 e2 => [e1; e2]
  end.

Section expr_ind.
Context (P : ExprIR -> Prop).
Context (H : forall ty n, Forall P (children n) -> P (MkExpr ty n)).
#[local] Notation one p := (@Forall_cons_2 _ P _ _ p (@Forall_nil_2 _ P)).

Fixpoint Expr_ind (e : ExprIR) : P e :=
  let all := fix go l : Forall P l := match l with
      | [] => @Forall_nil_2 _ P
      | x :: l' => @Forall_cons_2 _ P x l' (Expr_ind x) (go l') end in
  match e with
  | MkExpr ty n => H ty n
      match n return Forall P (children n) with
      | ELit _ | EParam _ | EBinding _ | EGroupKey => @Forall_nil_2 _ P
      | EField e _ _ | EStructField e _ | ERowLookup _ e _ | EExists _ e _ | ESomeOf e | ENeg e | ENot e
      | EIsNone e | EIsSome e | ESize e => one (Expr_ind e)
      | ETuple l | ESetLit l => all l
      | EStruct l => (fix go l : Forall P (map snd l) := match l with
          | [] => @Forall_nil_2 _ P
          | (k, x) :: l' => @Forall_cons_2 _ P x (map snd l') (Expr_ind x) (go l') end) l
      | EBin _ e1 e2 | EUnwrapOr e1 e2 | ESumOver _ e1 e2 =>
          @Forall_cons_2 _ P _ _ (Expr_ind e1) (one (Expr_ind e2))
      end
  end.
End expr_ind.

(** ** Declarations *)
Record FieldIR : Type := MkField { f_id : Z; f_name : bytes; f_ty : Type_ }.
Record RecordIR : Type := MkRecord {
  r_id : Z; r_name : bytes; r_immutable : bool; r_fields : list FieldIR; r_primary_key : Z;
}.
Record EnumIR : Type := MkEnum { en_id : Z; en_name : bytes; en_variants : list bytes }.
Record IndexIR : Type := MkIndex { ix_id : Z; ix_name : bytes; ix_record : Z; ix_fields : list Z }.
Record ResourceIR : Type := MkResource {
  rs_id : Z; rs_name : bytes; rs_record : Z; rs_available : Z; rs_reserved : Z; rs_reservation_record : Z;
}.

(** ** Footprints *)
Inductive Purpose : Type := ValueRead | Write | Membership | Absence | ResultRead | Authority.
Inductive KeySet : Type := Point (key : ExprIR) (static_key : bool) | All.
Record DomainSelector : Type := MkDomainSelector {
  ds_record : Z; ds_key_set : KeySet; ds_fields : list Z; ds_purpose : Purpose;
}.
Record FactSelector : Type := MkFactSelector { fs_record : Z; fs_key : ExprIR }.
Record OperationFootprint : Type := MkFootprint {
  fp_reads : list DomainSelector; fp_writes : list DomainSelector; fp_predicates : list DomainSelector;
  fp_facts : list FactSelector; fp_atomic_groups : list (list Z);
}.

(** ** Invariants *)
Inductive InvariantKind : Type :=
| KLowerBound | KUpperBound | KUnique | KReferential | KAggregateLowerBound | KAggregateUpperBound
| KConservation | KMonotonic | KStateTransition | KCausalPrerequisite | KArbitrary.

Inductive ScopeExpr : Type :=
| ScPerKey (record : Z)
| ScPerGroup (record : Z) (group_by : ExprIR)
| ScGlobal (records : list Z).

Inductive PredicateIR : Type :=
| PForAll (record var : Z) (filter : option ExprIR) (predicate : ExprIR)
| PUnique (record var : Z) (filter : option ExprIR) (key : ExprIR)
| PExistsReference (child var : Z) (parent_key : ExprIR) (parent : Z)
| PAggregate (op : AggregateOp) (record var : Z) (filter group_by : option ExprIR) (value : ExprIR)
    (comparison : CmpOp) (bound : ExprIR)
| PTransitionPredicate (record field enum_id : Z) (edges : list (Z * Z))
| PRequiresFact (operation : Z) (key_params : list Z) (fact : Z).

Record InvariantIR : Type := MkInvariant {
  inv_id : Z; inv_name : bytes; inv_version : Z; inv_scope : ScopeExpr; inv_kind : InvariantKind;
  inv_predicate : PredicateIR; inv_dependencies : list DomainSelector; inv_evaluator_version : Z;
}.

(** ** Contracts *)
Inductive InputVisibility : Type := LocalSnapshot_ | CausalContext | CertifiedScope | SerialScope.
Inductive ResultSemantics : Type := Receipt_ | SnapshotValue | ExactOrderedValue.
Inductive SessionGuarantee : Type := ReadYourWrites | MonotonicReads | CausalDependencies.
Inductive SessionScope : Type := SsNone | SsReplicationGroup (g : bytes) | SsCompositeScope (rs : list Z).
Inductive Durability : Type := LocalStable | ReplicatedStable (g : bytes).
Inductive PartitionOutcome : Type := PoWait | PoUnavailable | PoAuthorityUnavailable.
Inductive RefusalSemantics : Type := RfBusinessPredicate | RfMissingAuthority | RfMissingDependency.
Inductive ResultScope : Type :=
| RsPerKey (record param : Z) | RsPerGroup (record param : Z) | RsGlobal (records : list Z).

Record ContractIR : Type := MkContract {
  c_input_visibility : InputVisibility; c_result_semantics : ResultSemantics; c_result_scope : ResultScope;
  c_session : list SessionGuarantee; c_session_scope : SessionScope; c_durability : Durability;
  c_partition_outcomes : list PartitionOutcome; c_authority_requirements : list bytes;
  c_refusal_semantics : RefusalSemantics; c_request_namespace : bytes;
}.

(** ** Operations *)
Record ParameterIR : Type := MkParameter { p_name : bytes; p_ty : Type_ }.
Inductive ReadKind : Type :=
| RKRow (record : Z) (key : ExprIR)
| RKOptionalRow (record : Z) (key : ExprIR)
| RKExists (record : Z) (key : ExprIR)
| RKScan (record var : Z) (filter : ExprIR).
Record ReadBindingIR : Type := MkReadBinding { rb_binding : Z; rb_name : bytes; rb_kind : ReadKind; rb_ty : Type_ }.
Record PathIR : Type := MkPath { pa_record : Z; pa_key : ExprIR; pa_field : Z }.

Inductive EffectKind : Type :=
| EfAssign (path : PathIR) (value : ExprIR)
| EfIncrement (path : PathIR) (amount : ExprIR)
| EfDecrement (path : PathIR) (amount : ExprIR)
| EfInsert (record : Z) (key : ExprIR) (fields : list (Z * ExprIR))
| EfDelete (record : Z) (key : ExprIR)
| EfAddToSet (path : PathIR) (value : ExprIR)
| EfRemoveFromSet (path : PathIR) (value : ExprIR)
| EfCompareAndSwap (path : PathIR) (expected value : ExprIR)
| EfReserve (resource : Z) (key reservation_id amount : ExprIR)
| EfRelease (resource : Z) (key reservation_id amount : ExprIR)
| EfTransferQuantity (source destination : PathIR) (amount : ExprIR)
| EfAdvanceState (path : PathIR) (enum_id expected next : Z)
| EfEmitFact (fact : Z) (key : ExprIR) (fields : list (Z * ExprIR)).
Record EffectIR : Type := MkEffect {
  ef_effect_id : Z; ef_guard : option ExprIR; ef_kind : EffectKind; ef_read_dependencies : list Z;
}.

Record OperationIR : Type := MkOperation {
  o_identity : OperationRef; o_name : bytes; o_parameters : list ParameterIR; o_pre : ExprIR;
  o_reads : list ReadBindingIR; o_effects : list EffectIR; o_post : ExprIR; o_result : ExprIR;
  o_contract : ContractIR; o_footprint : OperationFootprint;
}.

(** ** Modules *)
Definition IR_VERSION : Z := 1.
Definition LANGUAGE_VERSION : Z := 1.

Record ModuleIR : Type := MkModule {
  m_ir_version : Z; m_language_version : Z; m_key_codec_version : Z;
  m_records : list RecordIR; m_enums : list EnumIR; m_indexes : list IndexIR; m_resources : list ResourceIR;
  m_invariants : list InvariantIR; m_operations : list OperationIR;
}.

(** [iter().find(..).ok_or_else(|| InvalidIr)] *)
Definition find_ir {A} (p : A -> bool) (l : list A) : CoreResult A := ok_or (List.find p l) InvalidIr.

Definition module_record (m : ModuleIR) (id : Z) : CoreResult RecordIR := find_ir (fun r => r_id r =? id) (m_records m).
Definition module_enum_def (m : ModuleIR) (id : Z) : CoreResult EnumIR := find_ir (fun e => en_id e =? id) (m_enums m).
Definition module_resource (m : ModuleIR) (id : Z) : CoreResult ResourceIR :=
  find_ir (fun r => rs_id r =? id) (m_resources m).
Definition module_operation (m : ModuleIR) (r : OperationRef) : CoreResult OperationIR :=
  find_ir (fun o => bool_decide (o_identity o = r)) (m_operations m).
Definition module_invariant (m : ModuleIR) (id : Z) : CoreResult InvariantIR :=
  find_ir (fun i => inv_id i =? id) (m_invariants m).
Definition operation_by_name (m : ModuleIR) (name : bytes) : option OperationIR :=
  List.find (fun o => bool_decide (o_name o = name)) (m_operations m).
Definition record_by_name (m : ModuleIR) (name : bytes) : option RecordIR :=
  List.find (fun r => bool_decide (r_name r = name)) (m_records m).

Lemma find_ir_ok {A} (p : A -> bool) l x : find_ir p l = Ok x -> x ∈ l /\ p x = true.
Proof.
  intros H%ok_or_ok_inv. apply List.find_some in H as [H1 H2]. split; [|done]. by apply list_elem_of_In.
Qed.
