(* ===== verification/Interp.v ===== *)
(** * The reference interpreter
      (src/crates/carolina-lang/src/interp.rs)

    [evaluate] runs one invocation of an operation against a logical state and
    yields a rejection or a private candidate: the post-state, the literal
    effects that lead to it, the result, the captured reads and the guard
    decisions.  [apply_effects] replays literal effects, [check_invariants]
    evaluates the declared invariants over a pair of states.

    [Env] is its mutable part, the bindings, threaded through [eval]; the
    module, the arguments, the group key and the two states are parameters.
    Rejections keep their code and stage and violations their invariant and
    instance; the texts of both are dropped. *)

From S2P Require Import Prelude Errors ByteMap StateMonad OrdMap Decimal Ids LangTypes LangIr.

(** ** State *)

(** One row: field to value.  The state: record to primary key to row. *)
Abbreviation Row := (omap Z Value).
Abbreviation State := (omap Z (omap Value Row)).
Abbreviation Bindings := (omap Z Value).

Module St.
Definition get (st : State) (record : Z) (key : Value) : option Row :=
  t ← oget record st; oget key t.

(** Writing through [get_mut]: does nothing when the row is absent. *)
Definition set_row (st : State) (record : Z) (key : Value) (row : Row) : State :=
  match oget record st with
  | Some t => match oget key t with Some _ => oinsert record (oinsert key row t) st | None => st end
  | None => st
  end.

Definition insert (st : State) (record : Z) (key : Value) (row : Row) : bool * State :=
  let t := default [] (oget record st) in
  match oget key t with
  | Some _ => (false, oinsert record t st)
  | None => (true, oinsert record (oinsert key row t) st)
  end.

Definition remove (st : State) (record : Z) (key : Value) : option Row * State :=
  match oget record st with
  | Some t => (oget key t, oinsert record (oremove key t) st)
  | None => (None, st)
  end.

Definition table (st : State) (record : Z) : list (Value * Row) := default [] (oget record st).
End St.

(** [if !st.insert(record, key, row) { return Err(DuplicateIdentity) }] *)
Definition insert_new (record : Z) (key : Value) (row : Row) : stM State unit := fun st =>
  match St.insert st record key row with
  | (true, st') => (Ok tt, st')
  | (false, st') => (Err DuplicateIdentity, st')
  end.

(** Test and fixture helpers of [State]. *)
Definition put_row (m : ModuleIR) (record_name : bytes) (fields : list (bytes * Value)) : stM State unit :=
  rec ← lift (ok_or (record_by_name m record_name) MissingRecord);
  row ← lift (try_fold (fun '(n, v) row =>
      f ← ok_or (List.find (fun f => bool_decide (f_name f = n)) (r_fields rec)) MissingRecord;
      check_type v (f_ty f) ≫= fun _ => Ok (oinsert (f_id f) v row)) fields []);
  if negb (forallb (fun f => bool_decide (is_Some (oget (f_id f) row))) (r_fields rec)) then fail InvalidIr
  else match oget (r_primary_key rec) row with
       | None => lift Panic
       | Some key => insert_new (r_id rec) key row
       end.

Definition state_field (m : ModuleIR) (st : State) (record_name : bytes) (key : Value) (name : bytes) : option Value :=
  rec ← record_by_name m record_name;
  f ← List.find (fun f => bool_decide (f_name f = name)) (r_fields rec);
  row ← St.get st (r_id rec) key;
  oget (f_id f) row.

(** ** Outcomes *)
Inductive Stage : Type :=
| Definedness | Precondition | Read | Effect (id : Z) | Postcondition | Invariant (id : Z) | Result.

Record Rejection : Type := MkRejection { rj_code : ErrorCode; rj_stage : Stage }.

Inductive AppliedKind : Type :=
| Assign (record : Z) (key : Value) (field : Z) (value : Value)
| Increment (record : Z) (key : Value) (field : Z) (amount : Value)
| Decrement (record : Z) (key : Value) (field : Z) (amount : Value)
| Insert (record : Z) (key : Value) (fields : Row)
| Delete (record : Z) (key : Value)
| AddToSet (record : Z) (key : Value) (field : Z) (value : Value)
| RemoveFromSet (record : Z) (key : Value) (field : Z) (value : Value)
| CompareAndSwap (record : Z) (key : Value) (field : Z) (expected value : Value)
| Reserve (resource : Z) (key reservation_id amount : Value)
| Release (resource : Z) (key reservation_id amount : Value)
| Transfer (source destination : Z * Value * Z) (amount : Value)
| AdvanceState (record : Z) (key : Value) (field expected next : Z)
| EmitFact (fact : Z) (key : Value) (fields : Row).

Record AppliedEffect : Type := MkApplied { ae_effect_id : Z; ae_kind : AppliedKind }.

Record Candidate : Type := MkCandidate {
  cd_post_state : State;
  cd_effects : list AppliedEffect;
  cd_result : Value;
  cd_captured_reads : Bindings;
  cd_guard_decisions : list (Z * bool);
}.

Inductive Outcome : Type := Rejected (r : Rejection) | Accepted (c : Candidate).

Definition is_accepted (o : Outcome) : bool := match o with Accepted _ => true | Rejected _ => false end.
Definition rejection (o : Outcome) : option Rejection := match o with Rejected r => Some r | Accepted _ => None end.
Definition candidate (o : Outcome) : option Candidate := match o with Accepted c => Some c | Rejected _ => None end.

Record Violation : Type := MkViolation { vi_invariant : Z; vi_instance : option Value }.

(** ** Evaluation *)

(** [module.record(record).expect("record")]; the key is not part of the value. *)
Definition row_value (m : ModuleIR) (record : Z) (row : Row) : CoreResult Value :=
  match module_record m record with
  | Ok rec =>
      Ok (VRow record (fold_left (fun fs f => match oget (f_id f) row with
                                              | Some v => binsert (f_name f) v fs
                                              | None => fs
                                              end) (r_fields rec) []))
  | _ => Panic
  end.

Definition int_arith (op : BinOp) (x y : Z) : option Z :=
  match op with
  | BAdd => Some (x + y)
  | BSub => Some (x - y)
  | BMul => Some (x * y)
  | _ => None
  end.

(** [int_of]: the integer a decimal denotes, if it is one; [10i128.pow(scale)]
    panics when it overflows. *)
Definition int_of (d : Decimal.Decimal) : CoreResult (option Z) :=
  match checked_i 128 (10 ^ scale d) with
  | None => Panic
  | Some f => Ok (if Z.rem (coefficient d) f =? 0 then Some (Z.quot (coefficient d) f) else None)
  end.

Definition decimal_mul (x y : Decimal.Decimal) : CoreResult Decimal.Decimal :=
  ky ← int_of y;
  kx ← int_of x;
  match ky, kx with
  | Some k, _ => checked_mul_int x k
  | _, Some k => checked_mul_int y k
  | _, _ => Err UnsupportedEffect
  end.

(** [_ => unreachable!()] for the operators that are not arithmetic. *)
Definition checked_arith (op : BinOp) (a b : Value) : CoreResult Value :=
  match a, b with
  | VI64 x, VI64 y =>
      match int_arith op x y with
      | Some z => z ← ok_or (checked_i 64 z) NumericOverflow; Ok (VI64 z)
      | None => Panic
      end
  | VU64 x, VU64 y =>
      match int_arith op x y with
      | Some z => z ← ok_or (checked_u 64 z) NumericOverflow; Ok (VU64 z)
      | None => Panic
      end
  | VDecimal x, VDecimal y =>
      d ← match op with
          | BAdd => checked_add x y
          | BSub => checked_sub x y
          | BMul => decimal_mul x y
          | _ => Panic
          end;
      Ok (VDecimal d)
  | _, _ => Err TypeMismatch
  end.

Definition cmp_holds (op : CmpOp) (c : comparison) : bool :=
  match op, c with
  | CEq, Eq | CNe, (Lt | Gt) | CLt, Lt | CLe, (Lt | Eq) | CGt, Gt | CGe, (Gt | Eq) => true
  | _, _ => false
  end.

(** [std::mem::discriminant] distinguishes the constructors, as [rank] does. *)
Definition compare (op : CmpOp) (a b : Value) : CoreResult bool :=
  if negb (rank a =? rank b) then Err TypeMismatch
  else match a, b with
       | VDecimal x, VDecimal y =>
           if negb (scale x =? scale y) || negb (precision x =? precision y) then Err TypeMismatch
           else Ok (cmp_holds op (value_cmp a b))
       | _, _ => Ok (cmp_holds op (value_cmp a b))
       end.

Definition zero_of (ty : Type_) : CoreResult Value :=
  match ty with
  | TI64 => Ok (VI64 0)
  | TU64 => Ok (VU64 0)
  | TDecimal p s => d ← Decimal.zero p s; Ok (VDecimal d)
  | _ => Err TypeMismatch
  end.

Section eval.
Context (m : ModuleIR) (args : list Value) (group_key : option Value) (pre cand : State).

Definition pick (s : StateRef) : State := if bool_decide (s = Pre) then pre else cand.

(** The cases of [BinOp]; the right operand is evaluated on demand. *)
Definition eval_bin (op : BinOp) (lhs rhs : stM Bindings Value) : stM Bindings Value :=
  match op with
  | BAnd =>
      l ← lhs; b ← lift (as_bool l);
      match b with true => r ← rhs; c ← lift (as_bool r); mret (VBool c) | false => mret (VBool false) end
  | BOr =>
      l ← lhs; b ← lift (as_bool l);
      match b with true => mret (VBool true) | false => r ← rhs; c ← lift (as_bool r); mret (VBool c) end
  | BAdd | BSub | BMul => l ← lhs; r ← rhs; lift (checked_arith op l r)
  | BCmp c => l ← lhs; r ← rhs; b ← lift (compare c l r); mret (VBool b)
  | BIn =>
      l ← lhs; r ← rhs;
      match r with
      | VSet s => mret (VBool (smem l s))
      | _ => fail TypeMismatch
      end
  end.

Fixpoint eval (e : ExprIR) : stM Bindings Value :=
  match e with
  | MkExpr _ node =>
    match node with
    | ELit v => mret v
    | EParam i => lift (ok_or (args !! Z.to_nat i) InvalidIr)
    | EBinding b => env ← reads (fun env => env); lift (ok_or (oget b env) InvalidIr)
    | EGroupKey => lift (ok_or group_key InvalidIr)
    | EField base _ name =>
        v ← eval base;
        match v with VRow _ fields => lift (ok_or (bget name fields) InvalidIr) | _ => fail TypeMismatch end
    | EStructField base name =>
        v ← eval base;
        match v with VStruct fields => lift (ok_or (bget name fields) InvalidIr) | _ => fail TypeMismatch end
    | ERowLookup record key state =>
        k ← eval key;
        match St.get (pick state) record k with
        | Some row => lift (row_value m record row)
        | None => fail MissingRecord
        end
    | EExists record key state =>
        k ← eval key;
        mret (VBool (bool_decide (is_Some (St.get (pick state) record k))))
    | ETuple items => vs ← st_collect eval items; mret (VTuple vs)
    | EStruct fields =>
        fs ← st_fold (fun '(n, fe) fs => v ← eval fe; mret (binsert n v fs)) fields [];
        mret (VStruct fs)
    | ESetLit items =>
        s ← st_fold (fun i s => v ← eval i; mret (sinsert v s)) items [];
        mret (VSet s)
    | ESomeOf inner => v ← eval inner; mret (VSome v)
    | ENeg inner =>
        v ← eval inner;
        match v with
        | VI64 x => lift (z ← ok_or (checked_i 64 (- x)) NumericOverflow; Ok (VI64 z))
        | VDecimal d => lift (d' ← checked_neg d; Ok (VDecimal d'))
        | _ => fail TypeMismatch
        end
    | ENot inner => v ← eval inner; b ← lift (as_bool v); mret (VBool (negb b))
    | EBin op lhs rhs => eval_bin op (eval lhs) (eval rhs)
    | EIsNone inner => v ← eval inner; mret (VBool (match v with VNone => true | _ => false end))
    | EIsSome inner => v ← eval inner; mret (VBool (match v with VSome _ => true | _ => false end))
    | EUnwrapOr value dflt =>
        v ← eval value;
        match v with VSome x => mret x | VNone => eval dflt | _ => fail TypeMismatch end
    | ESize inner =>
        v ← eval inner;
        match v with VSet s => mret (VU64 (Z.of_nat (length s))) | _ => fail TypeMismatch end
    | ESumOver var set value =>
        v ← eval set;
        match v with
        | VSet items =>
            zero ← lift (zero_of (expr_ty value));
            acc ← st_fold (fun it acc =>
                update_st (oinsert var it) ≫= fun _ =>
                v ← eval value;
                lift (checked_arith BAdd acc v)) items zero;
            update_st (oremove var) ≫= fun _ =>
            mret acc
        | _ => fail TypeMismatch
        end
    end
  end.

(** The operands of an effect, evaluated in source order. *)
Definition eval_fields (fields : list (Z * ExprIR)) : stM Bindings Row :=
  st_fold (fun '(f, e) fs => v ← eval e; mret (oinsert f v fs)) fields [].

Definition eval_effect (k : EffectKind) : stM Bindings AppliedKind :=
  match k with
  | EfAssign path value =>
      key ← eval (pa_key path); v ← eval value; mret (Assign (pa_record path) key (pa_field path) v)
  | EfIncrement path amount =>
      key ← eval (pa_key path); a ← eval amount; mret (Increment (pa_record path) key (pa_field path) a)
  | EfDecrement path amount =>
      key ← eval (pa_key path); a ← eval amount; mret (Decrement (pa_record path) key (pa_field path) a)
  | EfInsert record key fields => k ← eval key; fs ← eval_fields fields; mret (Insert record k fs)
  | EfDelete record key => k ← eval key; mret (Delete record k)
  | EfAddToSet path value =>
      key ← eval (pa_key path); v ← eval value; mret (AddToSet (pa_record path) key (pa_field path) v)
  | EfRemoveFromSet path value =>
      key ← eval (pa_key path); v ← eval value; mret (RemoveFromSet (pa_record path) key (pa_field path) v)
  | EfCompareAndSwap path expected value =>
      key ← eval (pa_key path); x ← eval expected; v ← eval value;
      mret (CompareAndSwap (pa_record path) key (pa_field path) x v)
  | EfReserve resource key reservation_id amount =>
      k ← eval key; i ← eval reservation_id; a ← eval amount; mret (Reserve resource k i a)
  | EfRelease resource key reservation_id amount =>
      k ← eval key; i ← eval reservation_id; a ← eval amount; mret (Release resource k i a)
  | EfTransferQuantity source destination amount =>
      ks ← eval (pa_key source); kd ← eval (pa_key destination); a ← eval amount;
      mret (Transfer (pa_record source, ks, pa_field source) (pa_record destination, kd, pa_field destination) a)
  | EfAdvanceState path _ expected next =>
      key ← eval (pa_key path); mret (AdvanceState (pa_record path) key (pa_field path) expected next)
  | EfEmitFact fact key fields => k ← eval key; fs ← eval_fields fields; mret (EmitFact fact k fs)
  end.
End eval.

(** ** Literal effects *)
Definition field_type (m : ModuleIR) (record field : Z) : CoreResult Type_ :=
  rec ← module_record m record;
  f ← find_ir (fun f => f_id f =? field) (r_fields rec);
  Ok (f_ty f).

Definition positive (v : Value) : CoreResult unit :=
  ensure (match v with
          | VI64 x | VU64 x => 0 <? x
          | VDecimal d => 0 <? coefficient d
          | _ => false
          end) ArithmeticError.

(** [get_field_mut], read and written: [*slot = g(slot)?]. *)
Definition get_field (st : State) (record : Z) (key : Value) (field : Z) : CoreResult Value :=
  match St.get st record key with
  | None => Err MissingRecord
  | Some row => ok_or (oget field row) InvalidIr
  end.
Definition set_field (st : State) (record : Z) (key : Value) (field : Z) (v : Value) : State :=
  match St.get st record key with
  | None => st
  | Some row => St.set_row st record key (oinsert field v row)
  end.
Definition update_field (record : Z) (key : Value) (field : Z) (g : Value -> CoreResult Value) : stM State unit :=
  st ← reads (fun st => st);
  slot ← lift (get_field st record key field);
  v ← lift (g slot);
  update_st (fun st => set_field st record key field v).

(** [variants.iter().position(|v| v == name).unwrap() as u32] *)
Fixpoint position (name : bytes) (l : list bytes) : option nat :=
  match l with
  | [] => None
  | x :: l' => if bool_decide (x = name) then Some O else S <$> position name l'
  end.
Definition variant_of (name : string) (e : EnumIR) : CoreResult Z :=
  match position (str name) (en_variants e) with
  | Some i => Ok (wrap_u 32 (Z.of_nat i))
  | None => Panic
  end.

(** The row an insert stores: every field of the record, checked. *)
Definition build_row (rec : RecordIR) (fields : Row) : CoreResult Row :=
  try_fold (fun f row =>
    v ← ok_or (oget (f_id f) fields) InvalidIr;
    check_type v (f_ty f) ≫= fun _ => Ok (oinsert (f_id f) v row)) (r_fields rec) [].

(** An identical fact is accepted once more, anything else that exists is an error. *)
Definition store_row (is_fact : bool) (record : Z) (key : Value) (row : Row) : stM State unit := fun st =>
  match St.get st record key with
  | Some existing =>
      if is_fact && bool_decide (existing = row) then (Ok tt, st) else (Err DuplicateIdentity, st)
  | None => (Ok tt, snd (St.insert st record key row))
  end.

Definition apply_insert (m : ModuleIR) (is_fact : bool) (record : Z) (key : Value) (fields : Row) : stM State unit :=
  rec ← lift (module_record m record);
  row ← lift (build_row rec fields);
  match oget (r_primary_key rec) row with
  | None => lift Panic
  | Some k =>
      if negb (bool_decide (k = key)) then fail IdentityMismatch
      else store_row is_fact record key row
  end.

(** The row of a new reservation; [_ => unreachable!()] for a state field that
    is not an enum. *)
Definition reservation_row (m : ModuleIR) (resv : RecordIR) (key reservation_id amount : Value) : CoreResult Row :=
  try_fold (fun f row =>
    v ← if bool_decide (f_name f = str "resource") then Ok key
        else if bool_decide (f_name f = str "amount") then Ok amount
        else if bool_decide (f_name f = str "state") then
          match f_ty f with
          | TEnum e => en ← module_enum_def m e; i ← variant_of "Active" en; Ok (VEnum e i)
          | _ => Panic
          end
        else if f_id f =? r_primary_key resv then Ok reservation_id
        else Err InvalidIr;
    Ok (oinsert (f_id f) v row)) (r_fields resv) [].

Definition apply_reserve (m : ModuleIR) (resource : Z) (key reservation_id amount : Value) : stM State unit :=
  lift (positive amount) ≫= fun _ =>
  rs ← lift (module_resource m resource);
  update_field (rs_record rs) key (rs_available rs) (fun avail => checked_arith BSub avail amount) ≫= fun _ =>
  update_field (rs_record rs) key (rs_reserved rs) (fun held => checked_arith BAdd held amount) ≫= fun _ =>
  resv ← lift (module_record m (rs_reservation_record rs));
  row ← lift (reservation_row m resv key reservation_id amount);
  insert_new (rs_reservation_record rs) reservation_id row.

(** [row[&fid]] *)
Definition index_row (row : Row) (fid : Z) : CoreResult Value :=
  match oget fid row with Some v => Ok v | None => Panic end.

(** The checks of [Release] on the reservation it names. *)
Definition check_reservation (row : Row) (res_fid amt_fid state_fid active : Z) (key amount : Value) : CoreResult unit :=
  r ← index_row row res_fid;
  if negb (bool_decide (r = key)) then Err IdentityMismatch
  else a ← index_row row amt_fid;
       if negb (bool_decide (a = amount)) then Err UnsupportedEffect
       else s ← index_row row state_fid;
            match s with
            | VEnum _ variant => if variant =? active then Ok tt else Err Conflict
            | _ => Err Conflict
            end.

(** [resv.fields.iter().find(|f| f.name == n).map(|f| f.id).unwrap()] *)
Definition fid (resv : RecordIR) (n : string) : CoreResult Z :=
  match List.find (fun f => bool_decide (f_name f = str n)) (r_fields resv) with
  | Some f => Ok (f_id f)
  | None => Panic
  end.

Definition apply_release (m : ModuleIR) (resource : Z) (key reservation_id amount : Value) : stM State unit :=
  lift (positive amount) ≫= fun _ =>
  rs ← lift (module_resource m resource);
  resv ← lift (module_record m (rs_reservation_record rs));
  state_fid ← lift (fid resv "state");
  res_fid ← lift (fid resv "resource");
  amt_fid ← lift (fid resv "amount");
  ty ← lift (field_type m (r_id resv) state_fid);
  match ty with
  | TEnum enum_id =>
      en ← lift (module_enum_def m enum_id);
      active ← lift (variant_of "Active" en);
      released ← lift (variant_of "Released" en);
      st ← reads (fun st => st);
      row ← lift (ok_or (St.get st (r_id resv) reservation_id) MissingRecord);
      lift (check_reservation row res_fid amt_fid state_fid active key amount) ≫= fun _ =>
      update_field (r_id resv) reservation_id state_fid (fun _ => Ok (VEnum enum_id released)) ≫= fun _ =>
      update_field (rs_record rs) key (rs_reserved rs) (fun held => checked_arith BSub held amount) ≫= fun _ =>
      update_field (rs_record rs) key (rs_available rs) (fun avail => checked_arith BAdd avail amount)
  | _ => lift Panic
  end.

Definition apply_transfer (source destination : Z * Value * Z) (amount : Value) : stM State unit :=
  lift (positive amount) ≫= fun _ =>
  if bool_decide (source = destination) then fail UnsupportedEffect
  else
    let '(r1, k1, f1) := source in
    let '(r2, k2, f2) := destination in
    update_field r1 k1 f1 (fun s => checked_arith BSub s amount) ≫= fun _ =>
    update_field r2 k2 f2 (fun d => checked_arith BAdd d amount).

Definition apply_literal (m : ModuleIR) (ef : AppliedEffect) : stM State unit :=
  match ae_kind ef with
  | Assign record key field value =>
      ty ← lift (field_type m record field);
      lift (check_type value ty) ≫= fun _ =>
      update_field record key field (fun _ => Ok value)
  | Increment record key field amount =>
      lift (positive amount) ≫= fun _ =>
      update_field record key field (fun slot => checked_arith BAdd slot amount)
  | Decrement record key field amount =>
      lift (positive amount) ≫= fun _ =>
      update_field record key field (fun slot => checked_arith BSub slot amount)
  | Insert record key fields => apply_insert m false record key fields
  | EmitFact fact key fields => apply_insert m true fact key fields
  | Delete record key => fun st =>
      match St.remove st record key with
      | (Some _, st') => (Ok tt, st')
      | (None, st') => (Err MissingRecord, st')
      end
  | AddToSet record key field value =>
      update_field record key field (fun slot => match slot with
        | VSet s => Ok (VSet (sinsert value s)) | _ => Err TypeMismatch end)
  | RemoveFromSet record key field value =>
      update_field record key field (fun slot => match slot with
        | VSet s => Ok (VSet (sremove value s)) | _ => Err TypeMismatch end)
  | CompareAndSwap record key field expected value =>
      update_field record key field (fun slot =>
        if negb (bool_decide (slot = expected)) then Err Conflict else Ok value)
  | Reserve resource key reservation_id amount => apply_reserve m resource key reservation_id amount
  | Release resource key reservation_id amount => apply_release m resource key reservation_id amount
  | Transfer source destination amount => apply_transfer source destination amount
  | AdvanceState record key field expected next =>
      update_field record key field (fun slot => match slot with
        | VEnum enum_id variant => if variant =? expected then Ok (VEnum enum_id next) else Err Conflict
        | _ => Err Conflict end)
  end.

Fixpoint apply_all (m : ModuleIR) (effects : list AppliedEffect) : stM State unit :=
  match effects with
  | [] => mret tt
  | e :: effects' => apply_literal m e ≫= fun _ => apply_all m effects'
  end.

(** [let mut work = state.clone(); ...; *state = work;] *)
Definition apply_effects (m : ModuleIR) (effects : list AppliedEffect) : stM State unit := fun st =>
  match apply_all m effects st with
  | (Ok _, work) => (Ok tt, work)
  | (Err e, _) => (Err e, st)
  | (Panic, _) => (Panic, st)
  end.

Definition apply_effect_ir (m : ModuleIR) (args : list Value) (pre : State) (ef : EffectIR) :
    stM (Bindings * State) AppliedEffect := fun '(env, cand) =>
  match eval_effect m args None pre cand (ef_kind ef) env with
  | (Ok kind, env') =>
      let applied := MkApplied (ef_effect_id ef) kind in
      match apply_literal m applied cand with
      | (Ok _, cand') => (Ok applied, (env', cand'))
      | (Err e, cand') => (Err e, (env', cand'))
      | (Panic, cand') => (Panic, (env', cand'))
      end
  | (Err e, env') => (Err e, (env', cand))
  | (Panic, env') => (Panic, (env', cand))
  end.

(** ** Invariants *)

(** The local state of [check_invariant_inner]: the bindings of its
    environment and the violations found so far. *)
Abbreviation Chk := (Bindings * list Violation)%type.
Definition in_env {A} (c : stM Bindings A) : stM Chk A := fun '(env, out) =>
  let '(r, env') := c env in (r, (env', out)).
Definition bind_var (var : Z) (v : Value) : stM Chk unit := in_env (update_st (oinsert var v)).
Definition push_violation (inv : Z) (inst : option Value) : stM Chk unit :=
  update_st (fun '(env, out) => (env, out ++ [MkViolation inv inst])).

Section invariants.
Context (m : ModuleIR) (inv : Z) (pre post : State).
#[local] Notation ev gk e := (in_env (eval m [] gk post post e)).

(** [env.eval(e)?.as_bool()?] *)
Definition ev_bool (e : ExprIR) : stM Chk bool := v ← ev None e; lift (as_bool v).

(** The loop over the rows of a record with the row bound to [var]; rows that
    fail the filter are skipped. *)
Definition each_row {A} (record var : Z) (filter : option ExprIR) (body : Value -> A -> stM Chk A) (acc : A) :
    stM Chk A :=
  st_fold (fun '(k, row) acc =>
    rv ← lift (row_value m record row);
    bind_var var rv ≫= fun _ =>
    keep ← match filter with Some f => ev_bool f | None => mret true end;
    match keep with true => body k acc | false => mret acc end) (St.table post record) acc.

Definition check_forall (record var : Z) (filter : option ExprIR) (predicate : ExprIR) : stM Chk unit :=
  each_row record var filter (fun k (_ : unit) =>
    ok ← ev_bool predicate;
    match ok with true => mret tt | false => push_violation inv (Some k) end) tt.

Definition check_unique (record var : Z) (filter : option ExprIR) (key : ExprIR) : stM Chk unit :=
  each_row record var filter (fun k (seen : omap Value Value) =>
    uk ← ev None key;
    match oget uk seen with
    | Some _ => push_violation inv (Some uk) ≫= fun _ => mret (oinsert uk k seen)
    | None => mret (oinsert uk k seen)
    end) [] ≫= fun _ => mret tt.

Definition check_reference (child var : Z) (parent_key : ExprIR) (parent : Z) : stM Chk unit :=
  each_row child var None (fun k (_ : unit) =>
    pk ← ev None parent_key;
    match St.get post parent pk with Some _ => mret tt | None => push_violation inv (Some k) end) tt.

Definition aggregate_zero (op : AggregateOp) (value : ExprIR) : CoreResult Value :=
  match op with AggSum => zero_of (expr_ty value) | AggCount => Ok (VU64 0) end.

(** One row added to the total of its group. *)
Definition aggregate_row (op : AggregateOp) (group_by : option ExprIR) (value : ExprIR) (zero : Value) (_ : Value)
    (groups : omap (option Value) Value) : stM Chk (omap (option Value) Value) :=
  g ← match group_by with Some ge => x ← ev None ge; mret (Some x) | None => mret None end;
  contrib ← match op with AggSum => ev None value | AggCount => mret (VU64 1) end;
  total ← lift (checked_arith BAdd (default zero (oget g groups)) contrib);
  mret (oinsert g total groups).

Definition check_aggregate (op : AggregateOp) (record var : Z) (filter group_by : option ExprIR) (value : ExprIR)
    (comparison : CmpOp) (bound : ExprIR) : stM Chk unit :=
  zero ← lift (aggregate_zero op value);
  groups ← each_row record var filter (aggregate_row op group_by value zero) [];
  let groups := match group_by with
                | None => oinsert None (default zero (oget None groups)) groups
                | Some _ => groups
                end in
  st_fold (fun '(g, total) (_ : unit) =>
    b ← ev g bound;
    ok ← lift (compare comparison total b);
    match ok with true => mret tt | false => push_violation inv g end) groups tt.

(** [!edges.contains(&(ov, nv))] for two enum values that differ. *)
Definition bad_transition (edges : list (Z * Z)) (o n : Value) : bool :=
  negb (bool_decide (o = n)) &&
  match o, n with
  | VEnum _ ov, VEnum _ nv => negb (bool_decide ((ov, nv) ∈ edges))
  | _, _ => false
  end.

Definition check_transition (record field : Z) (edges : list (Z * Z)) : stM Chk unit :=
  st_fold (fun '(k, new_row) (_ : unit) =>
    match St.get pre record k with
    | None => mret tt
    | Some old_row =>
        o ← lift (index_row old_row field);
        n ← lift (index_row new_row field);
        if bad_transition edges o n then push_violation inv (Some k) else mret tt
    end) (St.table post record) tt.

Definition check_invariant_inner (p : PredicateIR) : stM Chk unit :=
  match p with
  | PForAll record var filter predicate => check_forall record var filter predicate
  | PUnique record var filter key => check_unique record var filter key
  | PExistsReference child var parent_key parent => check_reference child var parent_key parent
  | PAggregate op record var filter group_by value comparison bound =>
      check_aggregate op record var filter group_by value comparison bound
  | PTransitionPredicate record field _ edges => check_transition record field edges
  | PRequiresFact _ _ _ => mret tt
  end.
End invariants.

Definition check_invariant (m : ModuleIR) (inv : InvariantIR) (pre post : State) : stM (list Violation) unit := fun out =>
  match check_invariant_inner m (inv_id inv) pre post (inv_predicate inv) ([], out) with
  | (Err NumericOverflow, (_, out')) | (Err MissingRecord, (_, out')) =>
      (Ok tt, out' ++ [MkViolation (inv_id inv) None])
  | (r, (_, out')) => (r, out')
  end.

Fixpoint check_each (m : ModuleIR) (pre post : State) (invs : list InvariantIR) : stM (list Violation) unit :=
  match invs with
  | [] => mret tt
  | inv :: invs' => check_invariant m inv pre post ≫= fun _ => check_each m pre post invs'
  end.

Definition check_invariants (m : ModuleIR) (pre post : State) : CoreResult (list Violation) :=
  match check_each m pre post (m_invariants m) [] with
  | (Ok _, out) => Ok out
  | (Err e, _) => Err e
  | (Panic, _) => Panic
  end.

Definition state_valid (m : ModuleIR) (st : State) : CoreResult (list Violation) := check_invariants m st st.

(** ** Operations *)

(** A phase of [evaluate_with_scope] continues with a value, returns
    [Ok(Outcome::Rejected(..))], returns [Err], or panics. *)
Inductive phase (A : Type) : Type :=
| Go (a : A)
| Reject (r : Rejection)
| Fault (e : ErrorCode)
| Crash.
Arguments Go {A} _.
Arguments Reject {A} _.
Arguments Fault {A} _.
Arguments Crash {A}.
#[global] Instance phase_ret : MRet phase := fun A a => Go a.
#[global] Instance phase_bind : MBind phase := fun A B k p =>
  match p with Go a => k a | Reject r => Reject r | Fault e => Fault e | Crash => Crash end.

(** [o?] and [match env.eval(..) { Ok(v) => v, Err(e) => return rejected(e.code, stage) }] *)
Definition propagate {A} (o : CoreResult A) : phase A :=
  match o with Ok a => Go a | Err e => Fault e | Panic => Crash end.
Definition run_eval {S A} (stage : Stage) (c : stM S A) (s : S) : phase (A * S) :=
  match c s with
  | (Ok a, s') => Go (a, s')
  | (Err e, _) => Reject (MkRejection e stage)
  | (Panic, _) => Crash
  end.

Section phases.
Context (m : ModuleIR) (args : list Value) (pre : State).

Definition check_args (params : list ParameterIR) : phase unit :=
  if negb (Nat.eqb (length args) (length params)) then Reject (MkRejection TypeMismatch Definedness)
  else match try_zip (fun a p => check_type a (p_ty p)) args params with
       | Ok _ => Go tt
       | Err _ => Reject (MkRejection TypeMismatch Definedness)
       | Panic => Crash
       end.

(** [REQUIRE] and [ENSURE]: only [true] lets the invocation go on. *)
Definition require (stage : Stage) (code : ErrorCode) (e : ExprIR) (cand : State) (env : Bindings) : phase Bindings :=
  '(v, env') ← run_eval stage (eval m args None pre cand e) env;
  match v with VBool true => Go env' | _ => Reject (MkRejection code stage) end.

Definition scan_rows (record var : Z) (filter : ExprIR) : stM Bindings (list Value) :=
  st_fold (fun '(_, row) out =>
    rv ← lift (row_value m record row);
    update_st (oinsert var rv) ≫= fun _ =>
    v ← eval m args None pre pre filter;
    match v with VBool true => mret (sinsert rv out) | _ => mret out end) (St.table pre record) [].

Definition eval_read (k : ReadKind) : stM Bindings Value :=
  match k with
  | RKRow record key =>
      k ← eval m args None pre pre key;
      match St.get pre record k with
      | Some row => lift (row_value m record row)
      | None => fail MissingRecord
      end
  | RKOptionalRow record key =>
      k ← eval m args None pre pre key;
      match St.get pre record k with
      | Some row => rv ← lift (row_value m record row); mret (VSome rv)
      | None => mret VNone
      end
  | RKExists record key =>
      k ← eval m args None pre pre key;
      mret (VBool (bool_decide (is_Some (St.get pre record k))))
  | RKScan record var filter =>
      out ← scan_rows record var filter;
      update_st (oremove var) ≫= fun _ =>
      mret (VSet out)
  end.

(** The bindings and the captured reads after the [READ] block. *)
Fixpoint run_reads (reads : list ReadBindingIR) (env captured : Bindings) : phase (Bindings * Bindings) :=
  match reads with
  | [] => Go (env, captured)
  | rd :: reads' =>
      '(v, env') ← run_eval Read (eval_read (rb_kind rd)) env;
      run_reads reads' (oinsert (rb_binding rd) v env') (oinsert (rb_binding rd) v captured)
  end.

(** Candidate state, applied effects and guard decisions while effects run. *)
Record Progress : Type := MkProgress {
  pg_env : Bindings; pg_cand : State; pg_applied : list AppliedEffect; pg_guards : list (Z * bool);
}.

Definition run_effect (ef : EffectIR) (p : Progress) : phase Progress :=
  '(a, (env', cand')) ← run_eval (Effect (ef_effect_id ef)) (apply_effect_ir m args pre ef) (pg_env p, pg_cand p);
  Go (MkProgress env' cand' (pg_applied p ++ [a]) (pg_guards p)).

Definition guarded_effect (ef : EffectIR) (p : Progress) : phase Progress :=
  match ef_guard ef with
  | None => run_effect ef p
  | Some g =>
      '(v, env') ← run_eval (Effect (ef_effect_id ef)) (eval m args None pre (pg_cand p) g) (pg_env p);
      match v with
      | VBool true => run_effect ef (MkProgress env' (pg_cand p) (pg_applied p) (pg_guards p ++ [(ef_effect_id ef, true)]))
      | _ => Go (MkProgress env' (pg_cand p) (pg_applied p) (pg_guards p ++ [(ef_effect_id ef, false)]))
      end
  end.

Fixpoint run_effects (efs : list EffectIR) (p : Progress) : phase Progress :=
  match efs with
  | [] => Go p
  | ef :: efs' => p' ← guarded_effect ef p; run_effects efs' p'
  end.

(** [args[i as usize]] *)
Definition index_arg (i : Z) : CoreResult Value :=
  match args !! Z.to_nat i with Some v => Ok v | None => Panic end.
Definition fact_key (key_params : list Z) : CoreResult Value :=
  match key_params with
  | [i] => index_arg i
  | _ => vs ← collect index_arg key_params; Ok (VTuple vs)
  end.

Definition in_scope (scope : option (list Z)) (inv : InvariantIR) : bool :=
  match scope with Some s => smem (inv_id inv) s | None => true end.

(** Causal prerequisites, against the pre-state. *)
Fixpoint check_facts (op : Z) (invs : list InvariantIR) : phase unit :=
  match invs with
  | [] => Go tt
  | inv :: invs' =>
      match inv_predicate inv with
      | PRequiresFact operation key_params fact =>
          if operation =? op then
            match fact_key key_params with
            | Ok key => match St.get pre fact key with
                        | Some _ => check_facts op invs'
                        | None => Reject (MkRejection MissingDependency (Invariant (inv_id inv)))
                        end
            | Err e => Fault e
            | Panic => Crash
            end
          else check_facts op invs'
      | _ => check_facts op invs'
      end
  end.

Definition reject_violation (out : list Violation) : phase unit :=
  match out with
  | [] => Go tt
  | v :: _ => _ ← propagate (module_invariant m (vi_invariant v));
              Reject (MkRejection InvariantRejected (Invariant (vi_invariant v)))
  end.

Definition scoped (scope : option (list Z)) : list InvariantIR := filter (fun inv => in_scope scope inv = true) (m_invariants m).

Definition check_scope (scope : option (list Z)) (post : State) : phase unit :=
  match check_each m pre post (scoped scope) [] with
  | (Ok _, out) => reject_violation out
  | (Err e, _) => Fault e
  | (Panic, _) => Crash
  end.

Definition run_operation (op : OperationIR) (op_id : Z) (scope : option (list Z)) : phase Candidate :=
  _ ← check_args (o_parameters op);
  env ← require Precondition PreconditionRejected (o_pre op) pre [];
  '(env, captured) ← run_reads (o_reads op) env [];
  p ← run_effects (o_effects op) (MkProgress env pre [] []);
  env ← require Postcondition PostconditionRejected (o_post op) (pg_cand p) (pg_env p);
  _ ← check_facts op_id (scoped scope);
  _ ← check_scope scope (pg_cand p);
  '(result, _) ← run_eval Result (eval m args None pre (pg_cand p) (o_result op)) env;
  Go (MkCandidate (pg_cand p) (pg_applied p) result captured (pg_guards p)).
End phases.

Definition evaluate_with_scope (m : ModuleIR) (op_ref : OperationRef) (args : list Value) (pre : State)
    (scope : option (list Z)) : CoreResult Outcome :=
  op ← module_operation m op_ref;
  match run_operation m args pre op (op_operation_id op_ref) scope with
  | Go c => Ok (Accepted c)
  | Reject r => Ok (Rejected r)
  | Fault e => Err e
  | Crash => Panic
  end.

Definition evaluate (m : ModuleIR) (op_ref : OperationRef) (args : list Value) (pre : State) : CoreResult Outcome :=
  evaluate_with_scope m op_ref args pre None.

Definition evaluate_scoped (m : ModuleIR) (op_ref : OperationRef) (args : list Value) (pre : State) (invariants : list Z) :
    CoreResult Outcome :=
  try_each (fun id => _ ← module_invariant m id; Ok tt) invariants ≫= fun _ =>
  evaluate_with_scope m op_ref args pre (Some invariants).
