(* ===== verification/InterpEval.v ===== *)
(** * Evaluation and the environment

    The interpreter evaluates the rows of a record one after the other in one
    environment.  These lemmas say that the environment never carries anything
    from one row to the next: a successful evaluation adds no binding (the
    variable of a sum is removed again), and the result depends only on the
    bindings the expression mentions. *)

From S2P Require Import Prelude Errors ByteMap StateMonad OrdMap Decimal LangTypes LangIr Interp.

(** ** No new bindings *)
Definition tame {A} (c : stM Bindings A) : Prop := forall env a env', osorted env -> c env = (Ok a, env') ->
  osorted env' /\ forall b, oget b env = None -> oget b env' = None.

Lemma tame_ret {A} (a : A) : tame (mret a).
Proof. by intros env a' env' Hs [= <- <-]. Qed.
Lemma tame_lift {A} (o : CoreResult A) : tame (lift o).
Proof. intros env a env' Hs [_ ->]%lift_run. done. Qed.
Lemma tame_fail {A} e : tame (fail (A := A) e).
Proof. done. Qed.
Lemma tame_reads {A} (f : Bindings -> A) : tame (reads f).
Proof. by intros env a env' Hs [= <- <-]. Qed.
Lemma tame_bind {A B} (c : stM Bindings A) (k : A -> stM Bindings B) :
  tame c -> (forall a, tame (k a)) -> tame (c ≫= k).
Proof.
  intros Hc Hk env b env' Hs (a & e1 & H1 & H2)%bind_run.
  destruct (Hc _ _ _ Hs H1) as [Hs1 Hn1]. destruct (Hk _ _ _ _ Hs1 H2) as [Hs2 Hn2]. auto.
Qed.
Lemma tame_collect {A B} (f : A -> stM Bindings B) l : Forall (fun x => tame (f x)) l -> tame (st_collect f l).
Proof. induction 1 as [|x l Hx _ IH]; cbn; auto using tame_ret, tame_bind. Qed.
Lemma tame_fold {A B} (f : A -> B -> stM Bindings B) l acc :
  Forall (fun x => forall acc, tame (f x acc)) l -> tame (st_fold f l acc).
Proof. intros Hl. revert acc. induction Hl as [|x l Hx _ IH]; intros acc; cbn; auto using tame_ret, tame_bind. Qed.
Create HintDb tame.
#[export] Hint Resolve tame_ret tame_lift tame_fail tame_reads tame_bind tame_collect tame_fold : tame.

(** A loop that binds [var] in every round and removes it at the end. *)
Lemma tame_sum {A B} var (f : A -> B -> stM Bindings B) (key : A -> Value) items acc :
  (forall x acc, tame (f x acc)) ->
  tame (st_fold (fun x acc => update_st (oinsert var (key x)) ≫= fun _ => f x acc) items acc ≫= fun r =>
        update_st (oremove var) ≫= fun _ => mret r).
Proof.
  intros Hf env r env' Hs (r' & e1 & H1 & (? & e2 & [= <- <-] & [= <- <-])%bind_run)%bind_run.
  enough (osorted e1 /\ forall b, b <> var -> oget b env = None -> oget b e1 = None) as [Hs1 Hn].
  { split; [auto|]. intros b Hb. destruct (decide (b = var)) as [->|Hne]; [by apply oget_remove_eq|].
    rewrite oget_remove_ne by done. auto. }
  revert env acc Hs H1. induction items as [|x items IH]; intros env acc Hs; cbn.
  - by intros [= <- <-].
  - intros (acc' & e2 & ([] & e3 & [= <-] & Hx)%bind_run & Hr)%bind_run.
    destruct (Hf _ _ _ _ _ (oinsert_sorted var (key x) _ Hs) Hx) as [Hs2 Hn2].
    destruct (IH _ _ Hs2 Hr) as [Hs1 Hn1]. split; [done|]. intros b Hb He. apply Hn1; [done|]. apply Hn2.
    by rewrite oget_insert_ne.
Qed.

Lemma eval_bin_tame op l r : tame l -> tame r -> tame (eval_bin op l r).
Proof.
  intros Hl Hr. destruct op; cbn; auto 6 with tame.
  all: apply tame_bind; [done|]; intros a; apply tame_bind; [auto with tame|]; intros b; try destruct b; auto 6 with tame.
Qed.

Lemma eval_tame m args gk pre cand e : tame (eval m args gk pre cand e).
Proof.
  induction e as [ty n IH] using Expr_ind. destruct n; cbn [children] in IH; cbn [eval];
    repeat match goal with H : Forall _ (_ :: _) |- _ => apply Forall_cons in H as [? H] end; auto with tame.
  - apply tame_bind; [done|]. intros []; auto with tame.
  - apply tame_bind; [done|]. intros []; auto with tame.
  - apply tame_bind; [done|]. intros v. destruct (St.get _ _ _); auto with tame.
  - apply tame_bind; [|auto with tame]. apply tame_fold. rewrite Forall_fmap in IH. eapply Forall_impl; [done|].
    intros [k e] He acc. auto with tame.
  - apply tame_bind; [|auto with tame]. apply tame_fold. eapply Forall_impl; [done|]. auto with tame.
  - apply tame_bind; [done|]. intros []; auto with tame.
  - by apply eval_bin_tame.
  - apply tame_bind; [done|]. intros []; auto with tame.
  - apply tame_bind; [done|]. intros []; auto with tame.
  - apply tame_bind; [done|]. intros []; auto with tame. apply tame_bind; [auto with tame|]. intros zero.
    apply (tame_sum var (fun _ acc => _) (fun it => it)). intros x acc. auto with tame.
Qed.
#[export] Hint Resolve eval_tame eval_bin_tame : tame.

(** ** Mentioned bindings *)
Fixpoint mentions (b : Z) (e : ExprIR) : bool :=
  match e with
  | MkExpr _ n =>
    match n with
    | ELit _ | EParam _ | EGroupKey => false
    | EBinding b' => b' =? b
    | EField e _ _ | EStructField e _ | ERowLookup _ e _ | EExists _ e _ | ESomeOf e | ENeg e | ENot e
    | EIsNone e | EIsSome e | ESize e => mentions b e
    | ETuple l | ESetLit l => existsb (mentions b) l
    | EStruct l => existsb (fun '(_, e) => mentions b e) l
    | EBin _ e1 e2 | EUnwrapOr e1 e2 => mentions b e1 || mentions b e2
    | ESumOver var e1 e2 => (var =? b) || mentions b e1 || mentions b e2
    end
  end.

(** Two environments that agree on [X] give the same outcome, and go on agreeing. *)
Definition agree (X : Z -> Prop) (e1 e2 : Bindings) : Prop :=
  osorted e1 /\ osorted e2 /\ forall b, X b -> oget b e1 = oget b e2.
Definition uses {A} (X : Z -> Prop) (c : stM Bindings A) : Prop :=
  forall Y e1 e2, (forall b, X b -> Y b) -> agree Y e1 e2 -> fst (c e1) = fst (c e2) /\ agree Y (snd (c e1)) (snd (c e2)).

Lemma uses_ret {A} X (a : A) : uses X (mret a).
Proof. by intros Y e1 e2 _ H. Qed.
Lemma uses_lift {A} X (o : CoreResult A) : uses X (lift o).
Proof. by intros Y e1 e2 _ H. Qed.
Lemma uses_fail {A} X e : uses X (fail (A := A) e).
Proof. by intros Y e1 e2 _ H. Qed.
Lemma uses_bind {A B} X (c : stM Bindings A) (k : A -> stM Bindings B) :
  uses X c -> (forall a, uses X (k a)) -> uses X (c ≫= k).
Proof.
  intros Hc Hk Y e1 e2 HX Ha. destruct (Hc Y e1 e2 HX Ha) as [Hf Hs]. unfold mbind, stM_bind.
  destruct (c e1) as [r1 s1], (c e2) as [r2 s2]; cbn in *. subst r2. destruct r1; [by apply Hk|done..].
Qed.
Lemma uses_weaken {A} (X X' : Z -> Prop) (c : stM Bindings A) : (forall b, X b -> X' b) -> uses X c -> uses X' c.
Proof. intros H Hc Y e1 e2 HX. apply Hc. auto. Qed.
Lemma uses_insert X var v : uses X (update_st (oinsert var v)).
Proof.
  intros Y e1 e2 HX (H1 & H2 & Hb). split; [done|]. cbn. split_and!; [auto..|]. intros b Hy.
  destruct (decide (b = var)) as [->|]; [by rewrite !oget_insert_eq|]. rewrite !oget_insert_ne by done. auto.
Qed.
Lemma uses_remove X var : uses X (update_st (oremove var)).
Proof.
  intros Y e1 e2 HX (H1 & H2 & Hb). split; [done|]. cbn. split_and!; [auto..|]. intros b Hy.
  destruct (decide (b = var)) as [->|]; [by rewrite !oget_remove_eq|]. rewrite !oget_remove_ne by done. auto.
Qed.
Lemma uses_collect {A B} X (f : A -> stM Bindings B) l : Forall (fun x => uses X (f x)) l -> uses X (st_collect f l).
Proof. induction 1 as [|x l Hx _ IH]; cbn; auto using uses_ret, uses_bind. Qed.
Lemma uses_fold {A B} X (f : A -> B -> stM Bindings B) l acc :
  Forall (fun x => forall acc, uses X (f x acc)) l -> uses X (st_fold f l acc).
Proof. intros Hl. revert acc. induction Hl as [|x l Hx _ IH]; intros acc; cbn; auto using uses_ret, uses_bind. Qed.
Create HintDb uses.
#[export] Hint Resolve uses_ret uses_lift uses_fail uses_bind uses_insert uses_remove uses_collect uses_fold : uses.

Lemma eval_bin_uses X op l r : uses X l -> uses X r -> uses X (eval_bin op l r).
Proof.
  intros Hl Hr. destruct op; cbn; auto 6 with uses.
  all: apply uses_bind; [done|]; intros a; apply uses_bind; [auto with uses|]; intros b; try destruct b; auto 6 with uses.
Qed.

Lemma eval_uses m args gk pre cand e X : (forall b, mentions b e = true -> X b) -> uses X (eval m args gk pre cand e).
Proof.
  induction e as [ty n IH] using Expr_ind. intros HX. destruct n; cbn [children] in IH; cbn [eval mentions] in *;
    repeat match goal with H : Forall _ (_ :: _) |- _ => apply Forall_cons in H as [? H] end;
    try setoid_rewrite orb_true_iff in HX; auto with uses.
  - intros Y e1 e2 HY Ha. unfold mbind, stM_bind, reads, lift. cbn. split; [|done].
    destruct Ha as (_ & _ & Ha). rewrite Ha; [done|]. apply HY, HX, Z.eqb_refl.
  - apply uses_bind; [auto|]. intros []; auto with uses.
  - apply uses_bind; [auto|]. intros []; auto with uses.
  - apply uses_bind; [auto|]. intros v. destruct (St.get _ _ _); auto with uses.
  - apply uses_bind; [|auto with uses]. apply uses_collect. rewrite Forall_forall in IH |- *. intros x Hx.
    apply IH; [done|]. intros b Hb. apply HX. apply existsb_exists. exists x. split; [by apply list_elem_of_In|done].
  - apply uses_bind; [|auto with uses]. apply uses_fold. rewrite Forall_fmap, Forall_forall in IH.
    apply Forall_forall. intros [k x] Hx acc. apply uses_bind; [|auto with uses]. apply (IH (k, x) Hx).
    intros b Hb. apply HX. apply existsb_exists. exists (k, x). split; [by apply list_elem_of_In|done].
  - apply uses_bind; [|auto with uses]. apply uses_fold. rewrite Forall_forall in IH |- *. intros x Hx acc.
    apply uses_bind; [|auto with uses]. apply IH; [done|]. intros b Hb. apply HX. apply existsb_exists. exists x.
    split; [by apply list_elem_of_In|done].
  - apply uses_bind; [auto|]. intros []; auto with uses.
  - apply eval_bin_uses; auto.
  - apply uses_bind; [auto|]. intros []; auto with uses.
  - apply uses_bind; [auto|]. intros []; auto with uses.
  - setoid_rewrite orb_true_iff in HX. apply uses_bind; [auto|]. intros []; auto with uses.
    apply uses_bind; [auto with uses|]. intros zero. apply uses_bind; [|auto with uses]. apply uses_fold.
    apply Forall_forall. intros x _ acc. auto 6 with uses.
Qed.

(** ** Environments that hold nothing but the row variable *)
Definition only (var : Z) (env : Bindings) : Prop := osorted env /\ forall b, b <> var -> oget b env = None.

Lemma only_nil var : only var [].
Proof. done. Qed.
Lemma only_bound var v : only var [(var, v)].
Proof.
  split; [by repeat constructor|]. intros b Hb. unfold oget. cbn. destruct (b ?= var) eqn:E; [|done..].
  by apply Z.compare_eq_iff in E.
Qed.
Lemma only_insert var v env : only var env -> oinsert var v env = [(var, v)].
Proof.
  intros [Hs Hn]. apply omap_ext; [auto|by repeat constructor|]. intros b.
  destruct (decide (b = var)) as [->|Hb].
  - rewrite oget_insert_eq. unfold oget. cbn. by rewrite Z.compare_refl.
  - rewrite oget_insert_ne, Hn by done. by rewrite (proj2 (only_bound var v)).
Qed.
Lemma only_tame {A} var (c : stM Bindings A) env a env' : tame c -> only var env -> c env = (Ok a, env') -> only var env'.
Proof. intros Hc [Hs Hn] H. destruct (Hc _ _ _ Hs H). split; auto. Qed.

(** An expression that does not mention the row variable sees an empty environment. *)
Lemma eval_only m args gk pre cand e var env : mentions var e = false -> only var env ->
  fst (eval m args gk pre cand e env) = fst (eval m args gk pre cand e []).
Proof.
  intros Hm [Hs Hn]. apply (eval_uses m args gk pre cand e (fun b => b <> var)) with (Y := fun b => b <> var); [|done|].
  - intros b Hb ->. congruence.
  - split_and!; [done..|]. intros b Hb. by rewrite Hn.
Qed.
