(* ===== verification/InterpInvariants.v ===== *)
(** * The meaning of invariants

    [holds] states what each kind of invariant says about a pair of states, row
    by row and without an environment that is carried along.  The checker of
    the interpreter reports no violation exactly when it holds
    ([check_each_nil]). *)

From S2P Require Import Prelude Errors ByteMap StateMonad OrdMap Decimal LangTypes LangIr Interp InterpEval.

(** ** Rows on their own *)

(** A row on its own: the filter, then the computation [calc], in an
    environment that binds only the row variable. *)
Definition row_calc {X} (m : ModuleIR) (post : State) (filter : option ExprIR) (calc : stM Bindings X) :
    stM Bindings (option X) :=
  keep ← match filter with Some f => v ← eval m [] None post post f; lift (as_bool v) | None => mret true end;
  match keep with true => x ← calc; mret (Some x) | false => mret None end.

(** [row_yields row x]: the row is defined and yields [x]; [None] when the
    filter leaves it out. *)
Definition row_yields {X} (m : ModuleIR) (post : State) (record var : Z) (filter : option ExprIR)
    (calc : stM Bindings X) (row : Row) (x : option X) : Prop :=
  exists rv, row_value m record row = Ok rv /\ fst (row_calc m post filter calc [(var, rv)]) = Ok x.

(** What one row does to the accumulator and which instances it reports. *)
Definition judged {X A} (inv : Z) (calc : stM Bindings X) (judge : Value -> X -> A -> CoreResult (A * list (option Value)))
    (k : Value) (acc : A) : stM Chk A :=
  x ← in_env calc;
  o ← lift (judge k x acc);
  update_st (fun '(env, out) => (env, out ++ map (MkViolation inv) (snd o))) ≫= fun _ =>
  mret (fst o).

Fixpoint judge_all {X A} (judge : Value -> X -> A -> CoreResult (A * list (option Value)))
    (l : list (Value * option X)) (acc : A) : CoreResult (A * list (option Value)) :=
  match l with
  | [] => Ok (acc, [])
  | (k, None) :: l' => judge_all judge l' acc
  | (k, Some x) :: l' =>
      '(acc1, vs1) ← judge k x acc;
      '(acc2, vs2) ← judge_all judge l' acc1;
      Ok (acc2, vs1 ++ vs2)
  end.

Lemma in_env_run {A} (c : stM Bindings A) env out r s :
  in_env c (env, out) = (r, s) <-> exists env', c env = (r, env') /\ s = (env', out).
Proof. cbn. destruct (c env) as [r' env']. naive_solver. Qed.

Lemma st_fold_ext {S A B} (f g : A -> B -> stM S B) l acc s :
  (forall x acc s, f x acc s = g x acc s) -> st_fold f l acc s = st_fold g l acc s.
Proof.
  intros H. revert acc s; induction l as [|x l IH]; intros acc s; cbn; [done|].
  unfold mbind, stM_bind. rewrite H. by destruct (g x acc s) as [[]?].
Qed.

Section each_row.
Context (m : ModuleIR) (post : State) (record var : Z) (filter : option ExprIR) (inv : Z).
Context {X A : Type} (calc : stM Bindings X) (judge : Value -> X -> A -> CoreResult (A * list (option Value))).
Context (Htame : tame calc).

Lemma row_calc_tame : tame (row_calc m post filter calc).
Proof.
  unfold row_calc. apply tame_bind; [destruct filter; auto with tame|]. intros []; auto with tame.
Qed.

(** One round of the loop. *)
Definition round (kr : Value * Row) (acc : A) : stM Chk A :=
  rv ← lift (row_value m record (snd kr));
  bind_var var rv ≫= fun _ =>
  x ← in_env (row_calc m post filter calc);
  match x with
  | None => mret acc
  | Some x =>
      o ← lift (judge (fst kr) x acc);
      update_st (fun '(env, out) => (env, out ++ map (MkViolation inv) (snd o))) ≫= fun _ =>
      mret (fst o)
  end.

Lemma each_row_rounds body acc s :
  (forall k acc s, body k acc s = judged inv calc judge k acc s) ->
  each_row m post record var filter body acc s = st_fold round (St.table post record) acc s.
Proof.
  intros Hb. apply st_fold_ext. clear acc s. intros [k row] acc [env out].
  unfold round, row_calc, ev_bool, bind_var, in_env, lift, update_st, mret, stM_ret, mbind, stM_bind. cbn [fst snd].
  destruct (row_value m record row) as [rv| |]; [|done..]. destruct filter as [f|].
  - destruct (eval _ _ _ _ _ f _) as [[v| |] e1]; [|done..]. destruct (as_bool v) as [[]| |]; [|done..].
    rewrite Hb. unfold judged, in_env, lift, update_st, mret, stM_ret, mbind, stM_bind.
    by destruct (calc e1) as [[x| |] e2].
  - rewrite Hb. unfold judged, in_env, lift, update_st, mret, stM_ret, mbind, stM_bind.
    by destruct (calc _) as [[x| |] e2].
Qed.

Lemma round_ok k row acc env out acc' env' out' : only var env ->
  round (k, row) acc (env, out) = (Ok acc', (env', out')) -> only var env' /\
  exists x vs, row_yields m post record var filter calc row x /\ judge_all judge [(k, x)] acc = Ok (acc', vs) /\
    out' = out ++ map (MkViolation inv) vs.
Proof.
  intros Ho (rv & s1 & [Hrv ->]%lift_run & ([] & s2 & Hb & (x & s3 & Hx & H)%bind_run)%bind_run)%bind_run.
  apply in_env_run in Hb as (e1 & [= <-] & ->). apply in_env_run in Hx as (e2 & Hx & ->).
  rewrite only_insert in Hx by done. cbn [snd] in Hrv.
  assert (only var e2) as Ho2 by (eapply only_tame; [apply row_calc_tame|apply only_bound|exact Hx]).
  destruct x as [x|]; cbn [fst] in H.
  - apply bind_run in H as ([acc1 vs] & s4 & [Hj ->]%lift_run & ([] & s5 & [= <-] & [= <- <- <-])%bind_run).
    split; [done|]. exists (Some x), vs. split; [exists rv; by rewrite Hx|]. cbn. rewrite Hj. cbn. by rewrite app_nil_r.
  - injection H as <- <- <-. split; [done|]. exists None, []. split; [exists rv; by rewrite Hx|]. by rewrite app_nil_r.
Qed.

Lemma round_run k row acc env out x acc' vs : only var env ->
  row_yields m post record var filter calc row x -> judge_all judge [(k, x)] acc = Ok (acc', vs) ->
  exists env', only var env' /\
    round (k, row) acc (env, out) = (Ok acc', (env', out ++ map (MkViolation inv) vs)).
Proof.
  intros Ho (rv & Hrv & Hx) Hj. destruct (row_calc m post filter calc [(var, rv)]) as [r e2] eqn:E. cbn in Hx. subst r.
  exists e2. split; [eapply only_tame; [apply row_calc_tame|apply only_bound|exact E]|].
  unfold round. apply bind_run. exists rv, (env, out). split; [by apply lift_run|].
  apply bind_run. exists tt, ([(var, rv)], out).
  split; [apply in_env_run; exists [(var, rv)]; split; [by rewrite <-(only_insert var rv env)|done]|].
  apply bind_run. exists x, (e2, out). split; [apply in_env_run; eauto|]. destruct x as [x|].
  - cbn in Hj. apply bind_ok_inv in Hj as ([acc1 vs1] & Hj & [= <- <-]). rewrite app_nil_r.
    apply bind_run. eexists _, _. split; [by apply lift_run|]. done.
  - cbn in Hj. injection Hj as <- <-. by rewrite app_nil_r.
Qed.

Lemma judge_all_cons k x l acc acc' vs :
  judge_all judge ((k, x) :: l) acc = Ok (acc', vs) <->
  exists acc1 vs1 vs2, judge_all judge [(k, x)] acc = Ok (acc1, vs1) /\ judge_all judge l acc1 = Ok (acc', vs2) /\ vs = vs1 ++ vs2.
Proof.
  destruct x as [x|]; cbn.
  - destruct (judge k x acc) as [[acc1 vs1]| |]; cbn; [|by split; [|intros (? & ? & ? & ? & _)]..].
    rewrite app_nil_r. split.
    + intros ([acc2 vs2] & H & [= <- <-])%bind_ok_inv. eauto 10.
    + intros (? & ? & ? & [= <- <-] & H & ->). by rewrite H.
  - split; [intros H; exists acc, [], vs; done|]. intros (? & ? & ? & [= <- <-] & H & ->). done.
Qed.

(** The loop goes through exactly when every row yields something, and then
    folds the judgement over what the rows yield. *)
Lemma each_row_ok body acc env out acc' env' out' :
  (forall k acc s, body k acc s = judged inv calc judge k acc s) -> only var env ->
  each_row m post record var filter body acc (env, out) = (Ok acc', (env', out')) -> only var env' /\
  exists xs vs, Forall2 (fun kr x => row_yields m post record var filter calc (snd kr) x) (St.table post record) xs /\
    judge_all judge (zip (map fst (St.table post record)) xs) acc = Ok (acc', vs) /\
    out' = out ++ map (MkViolation inv) vs.
Proof.
  intros Hb. rewrite (each_row_rounds body) by done. generalize (St.table post record) as t. intros t.
  revert acc env out; induction t as [|[k row] t IH]; intros acc env out Ho; cbn [st_fold].
  - intros [= <- <- <-]. split; [done|]. exists [], []. split_and!; [constructor|done|by rewrite app_nil_r].
  - intros (acc1 & [e1 out1] & H1 & H2)%bind_run.
    apply round_ok in H1 as (Ho1 & x & vs1 & Hx & Hj & ->); [|done].
    apply IH in H2 as (Ho2 & xs & vs2 & Hxs & Hjs & ->); [|done]. split; [done|].
    exists (x :: xs), (vs1 ++ vs2). split_and!; [by constructor| |by rewrite map_app, app_assoc].
    cbn [map fst zip zip_with]. apply judge_all_cons. eauto 10.
Qed.

Lemma each_row_run body acc env out xs acc' vs :
  (forall k acc s, body k acc s = judged inv calc judge k acc s) -> only var env ->
  Forall2 (fun kr x => row_yields m post record var filter calc (snd kr) x) (St.table post record) xs ->
  judge_all judge (zip (map fst (St.table post record)) xs) acc = Ok (acc', vs) ->
  exists env', only var env' /\
    each_row m post record var filter body acc (env, out) = (Ok acc', (env', out ++ map (MkViolation inv) vs)).
Proof.
  intros Hb Ho Hxs Hj. setoid_rewrite (each_row_rounds body); [|done].
  revert acc env out vs Ho Hj; induction Hxs as [|[k row] x t xs Hx _ IH]; intros acc env out vs Ho Hj.
  - cbn in Hj. injection Hj as <- <-. exists env. split; [done|]. by rewrite app_nil_r.
  - cbn [map fst zip zip_with] in Hj. apply judge_all_cons in Hj as (acc1 & vs1 & vs2 & Hj1 & Hj2 & ->).
    destruct (round_run k row acc env out x acc1 vs1 Ho Hx Hj1) as (e1 & Ho1 & E1).
    destruct (IH acc1 e1 (out ++ map (MkViolation inv) vs1) vs2 Ho1 Hj2) as (e2 & Ho2 & E2).
    exists e2. split; [done|]. cbn [st_fold]. apply bind_run. eexists _, _. split; [exact E1|].
    by rewrite E2, map_app, app_assoc.
Qed.
End each_row.

Fixpoint somes {X} (l : list (option X)) : list X :=
  match l with
  | [] => []
  | Some x :: l' => x :: somes l'
  | None :: l' => somes l'
  end.
Lemma somes_In {X} (l : list (option X)) x : x ∈ somes l <-> Some x ∈ l.
Proof.
  induction l as [|[y|] l IH]; cbn; [set_solver| |]; rewrite !elem_of_cons, ?IH; naive_solver.
Qed.

Section meaning.
Context (m : ModuleIR) (pre post : State).
#[local] Notation ev e := (eval m [] None post post e).

(** What the rows of a record yield, in the order of their keys. *)
Definition rows_yield {X} (record var : Z) (filter : option ExprIR) (calc : stM Bindings X) (xs : list (option X)) : Prop :=
  Forall2 (fun kr x => row_yields m post record var filter calc (snd kr) x) (St.table post record) xs.

Definition forall_calc (predicate : ExprIR) : stM Bindings bool := v ← ev predicate; lift (as_bool v).
Definition aggregate_calc (op : AggregateOp) (group_by : option ExprIR) (value : ExprIR) :
    stM Bindings (option Value * Value) :=
  g ← match group_by with Some ge => x ← ev ge; mret (Some x) | None => mret None end;
  c ← match op with AggSum => ev value | AggCount => mret (VU64 1) end;
  mret (g, c).

(** The checked sum of the contributions of one group, in row order. *)
Fixpoint group_total (g : option Value) (cs : list (option Value * Value)) (acc : Value) : CoreResult Value :=
  match cs with
  | [] => Ok acc
  | (g', c) :: cs' => if bool_decide (g = g') then acc' ← checked_arith BAdd acc c; group_total g cs' acc'
                      else group_total g cs' acc
  end.

Definition legal_transition (edges : list (Z * Z)) (o n : Value) : Prop :=
  match o, n with
  | VEnum _ ov, VEnum _ nv => o = n \/ (ov, nv) ∈ edges
  | _, _ => True
  end.

Definition holds (p : PredicateIR) : Prop :=
  match p with
  | PForAll record var filter predicate =>
      exists xs, rows_yield record var filter (forall_calc predicate) xs /\ false ∉ somes xs
  | PUnique record var filter key =>
      exists xs, rows_yield record var filter (ev key) xs /\ NoDup (somes xs)
  | PExistsReference child var parent_key parent =>
      exists xs, rows_yield child var None (ev parent_key) xs /\
        forall pk, pk ∈ somes xs -> is_Some (St.get post parent pk)
  | PAggregate op record var filter group_by value comparison bound =>
      exists xs zero, rows_yield record var filter (aggregate_calc op group_by value) xs /\
        aggregate_zero op value = Ok zero /\
        forall g, g ∈ map fst (somes xs) \/ (group_by = None /\ g = None) ->
          exists total b, group_total g (somes xs) zero = Ok total /\
            fst (eval m [] g post post bound []) = Ok b /\ compare comparison total b = Ok true
  | PTransitionPredicate record field _ edges =>
      forall k old new, (k, new) ∈ St.table post record -> St.get pre record k = Some old ->
        exists o n, oget field old = Some o /\ oget field new = Some n /\ legal_transition edges o n
  | PRequiresFact _ _ _ => True
  end.
End meaning.

(** The bound of an aggregate is outside the scope of the row variable. *)
Definition bound_closed (p : PredicateIR) : bool :=
  match p with
  | PAggregate _ _ var _ _ _ _ bound => negb (mentions var bound)
  | _ => true
  end.

(** *** Judgements *)
Lemma judge_simple {X} (bad : X -> bool) (l : list (Value * option X)) :
  exists vs, judge_all (fun k x (_ : unit) => Ok (tt, if bad x then [Some k] else [])) l tt = Ok (tt, vs) /\
    (vs = [] <-> forall x, x ∈ somes (map snd l) -> bad x = false).
Proof.
  induction l as [|[k [x|]] l (vs & E & IH)]; cbn; [exists []; split; [done|]; split; [set_solver|done]| |].
  - rewrite E. cbn. eexists. split; [done|]. setoid_rewrite elem_of_cons. destruct (bad x) eqn:Eb; cbn.
    + split; [done|]. intros H. specialize (H x). rewrite Eb in H. naive_solver.
    + rewrite IH. naive_solver.
  - eauto.
Qed.

Definition unique_judge (k u : Value) (seen : omap Value Value) : CoreResult (omap Value Value * list (option Value)) :=
  Ok (oinsert u k seen, match oget u seen with Some _ => [Some u] | None => [] end).
Arguments unique_judge : simpl never.

Lemma judge_unique (l : list (Value * option Value)) : forall seen, osorted seen ->
  exists acc vs, judge_all unique_judge l seen = Ok (acc, vs) /\
    (vs = [] <-> NoDup (somes (map snd l)) /\ forall u, u ∈ somes (map snd l) -> oget u seen = None).
Proof.
  induction l as [|[k [u|]] l IH]; intros seen Hs.
  - exists seen, []. cbn. split; [done|]. split; [|done]. split; [constructor|set_solver].
  - destruct (IH (oinsert u k seen) (oinsert_sorted u k seen Hs)) as (acc & vs & E & H).
    exists acc. eexists. cbn [judge_all map snd somes]. unfold unique_judge at 2. cbn. rewrite E. cbn. split; [done|].
    rewrite NoDup_cons. setoid_rewrite elem_of_cons. destruct (oget u seen) as [k'|] eqn:Eu; cbn.
    { split; [done|]. intros [_ Hn]. specialize (Hn u). rewrite Eu in Hn. naive_solver. }
    rewrite H. split.
    + intros [Hd Hn]. split; [split; [|done]|].
      * intros Hi. specialize (Hn u Hi). by rewrite oget_insert_eq in Hn.
      * intros u' [->|Hi]; [done|]. specialize (Hn u' Hi). destruct (decide (u' = u)) as [->|Hne]; [done|].
        by rewrite oget_insert_ne in Hn.
    + intros [[Hu Hd] Hn]. split; [done|]. intros u' Hi. rewrite oget_insert_ne; [auto|by intros ->|done].
  - cbn. by apply IH.
Qed.

Definition aggregate_judge (zero k : Value) (gc : option Value * Value) (groups : omap (option Value) Value) :
    CoreResult (omap (option Value) Value * list (option Value)) :=
  t ← checked_arith BAdd (default zero (oget (fst gc) groups)) (snd gc);
  Ok (oinsert (fst gc) t groups, []).
Arguments aggregate_judge : simpl never.

Lemma group_total_absent g cs acc : g ∉ map fst cs -> group_total g cs acc = Ok acc.
Proof.
  induction cs as [|[g' c] cs IH]; cbn; [done|]. rewrite not_elem_of_cons. intros [Hg Hc].
  rewrite bool_decide_false by done. auto.
Qed.

Lemma judge_aggregate_ok zero (l : list (Value * option (option Value * Value))) : forall groups groups' vs,
  osorted groups -> judge_all (aggregate_judge zero) l groups = Ok (groups', vs) ->
  vs = [] /\ osorted groups' /\ forall g,
    (exists t, group_total g (somes (map snd l)) (default zero (oget g groups)) = Ok t /\
      oget g groups' = if bool_decide (g ∈ map fst (somes (map snd l))) then Some t else oget g groups).
Proof.
  induction l as [|[k [[g c]|]] l IH]; intros groups groups' vs Hs.
  - cbn. intros [= <- <-]. split_and!; [done..|]. intros g. exists (default zero (oget g groups)).
    split; [done|]. by rewrite bool_decide_false by set_solver.
  - cbn [judge_all map snd somes]. unfold aggregate_judge at 2. cbn [fst snd].
    intros ([gs1 vs1] & (t & Ht & [= <- <-])%bind_ok_inv & ([gs2 vs2] & H & [= <- <-])%bind_ok_inv)%bind_ok_inv.
    apply IH in H as (-> & Hs' & H); [|auto]. split_and!; [done..|]. intros g'. specialize (H g') as (t' & Ht' & Hg).
    cbn [group_total map fst]. destruct (decide (g' = g)) as [->|Hne].
    + rewrite bool_decide_true, Ht by done. cbn. rewrite oget_insert_eq in Ht', Hg. cbn in Ht'. exists t'. split; [done|].
      rewrite (bool_decide_true (g ∈ _ :: _)) by set_solver. rewrite Hg. case_bool_decide as Ei; [done|].
      rewrite group_total_absent in Ht' by done. congruence.
    + rewrite bool_decide_false by done. rewrite oget_insert_ne in Ht', Hg by done. exists t'. split; [done|]. rewrite Hg.
      destruct (decide (g' ∈ map fst (somes (map snd l)))); [by rewrite !bool_decide_true by set_solver|].
      by rewrite !bool_decide_false by set_solver.
  - cbn. by apply IH.
Qed.

Lemma judge_aggregate_run zero (l : list (Value * option (option Value * Value))) : forall groups, osorted groups ->
  (forall g, g ∈ map fst (somes (map snd l)) ->
     exists t, group_total g (somes (map snd l)) (default zero (oget g groups)) = Ok t) ->
  exists groups', judge_all (aggregate_judge zero) l groups = Ok (groups', []).
Proof.
  induction l as [|[k [[g c]|]] l IH]; intros groups Hs Ht; [by eexists| |by apply IH].
  cbn [judge_all map snd somes fst] in *. unfold aggregate_judge at 2. cbn [fst snd].
  destruct (Ht g ltac:(set_solver)) as (t0 & Hg). cbn [group_total] in Hg. rewrite bool_decide_true in Hg by done.
  apply bind_ok_inv in Hg as (t1 & Ht1 & Hg). rewrite Ht1. cbn.
  destruct (IH (oinsert g t1 groups)) as (gs & ->); [auto| |by eexists].
  intros g' Hi. destruct (decide (g' = g)) as [->|Hne]; [rewrite oget_insert_eq; eauto|].
  rewrite oget_insert_ne by done. destruct (Ht g' ltac:(set_solver)) as (t' & Ht').
  cbn [group_total] in Ht'. rewrite bool_decide_false in Ht' by done. eauto.
Qed.

(** *** Violations accumulate *)
Definition appends {A} (c : stM Chk A) : Prop := forall env out,
  c (env, out) = let '(r, (env', o)) := c (env, []) in (r, (env', out ++ o)).

Lemma appends_ret {A} (a : A) : appends (mret a).
Proof. intros env out. cbn. by rewrite app_nil_r. Qed.
Lemma appends_lift {A} (o : CoreResult A) : appends (lift o).
Proof. intros env out. unfold lift. by rewrite app_nil_r. Qed.
Lemma appends_in_env {A} (c : stM Bindings A) : appends (in_env c).
Proof. intros env out. cbn. destruct (c env). by rewrite app_nil_r. Qed.
Lemma appends_push inv inst : appends (push_violation inv inst).
Proof. by intros env out. Qed.
Lemma appends_bind {A B} (c : stM Chk A) (k : A -> stM Chk B) : appends c -> (forall a, appends (k a)) -> appends (c ≫= k).
Proof.
  intros Hc Hk env out. unfold mbind, stM_bind. rewrite Hc. destruct (c (env, [])) as [[a| |] [e1 o1]]; [|done..].
  rewrite Hk, (Hk a e1 o1). destruct (k a (e1, [])) as [r [e2 o2]]. by rewrite app_assoc.
Qed.
Lemma appends_fold {A B} (f : A -> B -> stM Chk B) l acc : (forall x acc, appends (f x acc)) -> appends (st_fold f l acc).
Proof. intros Hf. revert acc. induction l as [|x l IH]; intros acc; cbn; auto using appends_ret, appends_bind. Qed.
Create HintDb appends.
#[export] Hint Resolve appends_ret appends_lift appends_in_env appends_push appends_bind appends_fold : appends.

Lemma appends_bind_nil {A B} (c : stM Chk A) (k : A -> stM Chk B) env b env' : (forall a, appends (k a)) ->
  (c ≫= k) (env, []) = (Ok b, (env', [])) <->
  exists a e1, c (env, []) = (Ok a, (e1, [])) /\ k a (e1, []) = (Ok b, (env', [])).
Proof.
  intros Hk. rewrite bind_run. split; [|naive_solver]. intros (a & [e1 o1] & H1 & H2). exists a, e1.
  rewrite Hk in H2. destruct (k a (e1, [])) as [r [e2 o2]]. injection H2 as -> -> [-> ->]%app_eq_nil. done.
Qed.

Lemma each_row_appends {A} m post record var filter (body : Value -> A -> stM Chk A) acc :
  (forall k acc, appends (body k acc)) -> appends (each_row m post record var filter body acc).
Proof.
  intros Hb. apply appends_fold. intros [k row] acc'. apply appends_bind; [auto with appends|]. intros rv.
  apply appends_bind; [apply appends_in_env|]. intros []. apply appends_bind.
  { destruct filter; [|auto with appends]. unfold ev_bool. auto with appends. }
  intros []; auto with appends.
Qed.

Lemma inner_appends m inv pre post p : appends (check_invariant_inner m inv pre post p).
Proof.
  destruct p as [record var f e|record var f e|child var e parent|op record var f g v c b|record field en edges|]; cbn.
  - apply each_row_appends. intros k []. unfold ev_bool. apply appends_bind; [auto with appends|]. intros []; auto with appends.
  - apply appends_bind; [|auto with appends]. apply each_row_appends. intros k seen. apply appends_bind; [auto with appends|].
    intros u. destruct (oget u seen); auto with appends.
  - apply each_row_appends. intros k []. apply appends_bind; [auto with appends|]. intros pk.
    destruct (St.get post parent pk); auto with appends.
  - apply appends_bind; [auto with appends|]. intros zero. apply appends_bind.
    + apply each_row_appends. intros k gs. unfold aggregate_row. apply appends_bind; [destruct g; auto with appends|]. intros g'.
      apply appends_bind; [destruct op; auto with appends|]. auto with appends.
    + intros gs. apply appends_fold. intros [g' t] []. apply appends_bind; [auto with appends|]. intros x.
      apply appends_bind; [auto with appends|]. intros []; auto with appends.
  - apply appends_fold. intros [k new] []. destruct (St.get pre record k); [|auto with appends].
    apply appends_bind; [auto with appends|]. intros o. apply appends_bind; [auto with appends|]. intros n.
    destruct (bad_transition edges o n); auto with appends.
  - auto with appends.
Qed.

(** *** The checker decides the meaning *)
Section decided.
Context (m : ModuleIR) (inv : Z) (pre post : State).

(** Every check runs in an environment that binds at most the row variable,
    and reports nothing exactly when the invariant holds. *)
Definition decides (p : PredicateIR) : Prop :=
  (exists env', check_invariant_inner m inv pre post p ([], []) = (Ok tt, (env', []))) <-> holds m pre post p.

Lemma map_snd_zip {X} record (xs : list (option X)) P : Forall2 P (St.table post record) xs ->
  map snd (zip (map fst (St.table post record)) xs) = xs.
Proof. intros H%Forall2_length. apply snd_zip. rewrite length_map. lia. Qed.

Lemma no_violations (vs : list (option Value)) : [] = [] ++ map (MkViolation inv) vs -> vs = [].
Proof. by destruct vs. Qed.

(** Checks whose rows are judged one by one. *)
Lemma simple_decided {X} record var filter (calc : stM Bindings X) (bad : X -> bool) body :
  tame calc ->
  (forall k acc s, body k acc s = judged inv calc (fun k x (_ : unit) => Ok (tt, if bad x then [Some k] else [])) k acc s) ->
  (exists env', each_row m post record var filter body tt ([], []) = (Ok tt, (env', []))) <->
  (exists xs, rows_yield m post record var filter calc xs /\ forall x, x ∈ somes xs -> bad x = false).
Proof.
  intros Ht Hb. split.
  - intros (env' & H). eapply each_row_ok in H as (_ & xs & vs & Hxs & Hj & ->%no_violations); [|done..|apply only_nil].
    exists xs. split; [done|].
    destruct (judge_simple bad (zip (map fst (St.table post record)) xs)) as (vs & E & [Hv _]).
    rewrite Hj in E. injection E as <-. specialize (Hv eq_refl). by erewrite map_snd_zip in Hv.
  - intros (xs & Hxs & Hv).
    destruct (judge_simple bad (zip (map fst (St.table post record)) xs)) as (vs & E & [_ Hn]).
    rewrite Hn in E by (by erewrite map_snd_zip).
    destruct (each_row_run m post record var filter inv calc _ Ht body tt [] [] xs tt [] Hb (only_nil var) Hxs E)
      as (env' & _ & H). eauto.
Qed.

Lemma forall_decided record var filter predicate : decides (PForAll record var filter predicate).
Proof.
  unfold decides. cbn [check_invariant_inner holds]. unfold check_forall.
  rewrite (simple_decided record var filter (forall_calc m post predicate) negb).
  - split; intros (xs & Hxs & H); exists xs; (split; [done|]).
    + intros Hi. by specialize (H false Hi).
    + intros [] Hi; [done|by destruct H].
  - unfold forall_calc. auto with tame.
  - intros k [] [env out]. unfold judged, forall_calc, ev_bool, in_env, lift, push_violation, update_st, mret, stM_ret, mbind, stM_bind.
    destruct (eval _ _ _ _ _ predicate env) as [[v| |] e1]; [|done..]. destruct (as_bool v) as [[]| |]; cbn; [|done..].
    by rewrite app_nil_r.
Qed.

Lemma reference_decided child var parent_key parent : decides (PExistsReference child var parent_key parent).
Proof.
  unfold decides. cbn [check_invariant_inner holds]. unfold check_reference.
  rewrite (simple_decided child var None (eval m [] None post post parent_key)
    (fun pk => match St.get post parent pk with Some _ => false | None => true end)).
  - split; intros (xs & Hxs & H); exists xs; (split; [done|]); intros pk Hi; specialize (H pk Hi).
    + by destruct (St.get post parent pk).
    + by destruct H as [? ->].
  - auto with tame.
  - intros k [] [env out]. unfold judged, in_env, lift, push_violation, update_st, mret, stM_ret, mbind, stM_bind.
    destruct (eval _ _ _ _ _ parent_key env) as [[pk| |] e1]; [|done..]. destruct (St.get post parent pk); cbn; [|done].
    by rewrite app_nil_r.
Qed.

Lemma unique_decided record var filter key : decides (PUnique record var filter key).
Proof.
  unfold decides. cbn [check_invariant_inner holds]. unfold check_unique.
  set (body := fun (k : Value) (seen : omap Value Value) => _).
  assert (Hb : forall k acc s, body k acc s = judged inv (eval m [] None post post key) unique_judge k acc s).
  { intros k seen [env out]. unfold body, judged, unique_judge, in_env, lift, push_violation, update_st, mret, stM_ret, mbind, stM_bind.
    destruct (eval _ _ _ _ _ key env) as [[u| |] e1]; [|done..]. destruct (oget u seen); cbn; [done|]. by rewrite app_nil_r. }
  split.
  - intros (env' & (seen & s & H & [= ->])%bind_run).
    eapply each_row_ok in H as (_ & xs & vs & Hxs & Hj & ->%no_violations); [|auto with tame|exact Hb|apply only_nil].
    exists xs. split; [done|].
    destruct (judge_unique (zip (map fst (St.table post record)) xs) [] osorted_nil) as (acc & vs & E & [Hv _]).
    rewrite Hj in E. injection E as <- <-. specialize (Hv eq_refl) as [Hv _]. by erewrite map_snd_zip in Hv.
  - intros (xs & Hxs & Hd).
    destruct (judge_unique (zip (map fst (St.table post record)) xs) [] osorted_nil) as (acc & vs & E & [_ Hn]).
    rewrite Hn in E by (erewrite map_snd_zip; [done|exact Hxs]).
    destruct (each_row_run m post record var filter inv _ unique_judge (eval_tame m [] None post post key)
      body [] [] [] xs acc [] Hb (only_nil var) Hxs E) as (env' & _ & H).
    exists env'. apply bind_run. eauto.
Qed.

(** A loop without accumulator reports nothing when no round does. *)
Lemma fold_decided {A} (P : Bindings -> Prop) (f : A -> unit -> stM Chk unit) (Q : A -> Prop) l :
  (forall x, appends (f x tt)) ->
  (forall x env, P env -> (exists env', f x tt (env, []) = (Ok tt, (env', [])) /\ P env') <-> Q x) ->
  (forall x env r, P env -> f x tt (env, []) = (Ok tt, (r, [])) -> P r) ->
  forall env, P env -> (exists env', st_fold f l tt (env, []) = (Ok tt, (env', []))) <-> Forall Q l.
Proof.
  intros Ha Hq Hp. assert (Ha' : forall x acc, appends (f x acc)) by by intros x [].
  induction l as [|x l IH]; intros env He; cbn [st_fold].
  - split; [constructor|]. intros _. by exists env.
  - setoid_rewrite appends_bind_nil; [|auto with appends]. rewrite Forall_cons. split.
    + intros (env' & [] & e1 & H1 & H2). assert (P e1) by by eapply Hp. split; [apply (Hq x env He); eauto|].
      apply (IH e1); eauto.
    + intros [Hx Hl]. apply (Hq x env He) in Hx as (e1 & H1 & He1). apply (IH e1 He1) in Hl as (env' & H2). eauto 10.
Qed.

Lemma legal_transition_spec edges o n : bad_transition edges o n = false <-> legal_transition edges o n.
Proof.
  unfold bad_transition, legal_transition. rewrite andb_false_iff, negb_false_iff, bool_decide_eq_true.
  destruct o, n; try naive_solver. rewrite negb_false_iff, bool_decide_eq_true. done.
Qed.

Lemma transition_decided record field en edges : decides (PTransitionPredicate record field en edges).
Proof.
  unfold decides. cbn [check_invariant_inner holds]. unfold check_transition.
  rewrite (fold_decided (fun _ => True) _ (fun kr => forall old, St.get pre record (fst kr) = Some old ->
    exists o n, oget field old = Some o /\ oget field (snd kr) = Some n /\ legal_transition edges o n)); [| | |done|done].
  - rewrite Forall_forall. split; [intros H k old new Hi; by apply (H (k, new))|intros H [k new] Hi old; by apply H].
  - intros [k new]. destruct (St.get pre record k); [|auto with appends]. apply appends_bind; [auto with appends|].
    intros o. apply appends_bind; [auto with appends|]. intros n. destruct (bad_transition edges o n); auto with appends.
  - intros [k new] env _. cbn [fst snd]. destruct (St.get pre record k) as [old|]; [|naive_solver].
    unfold index_row, lift, mbind, stM_bind, push_violation, update_st, mret, stM_ret.
    split.
    + intros (env' & H & _) old' [= <-]. destruct (oget field old) as [o|]; [|done]. destruct (oget field new) as [n|]; [|done].
      destruct (bad_transition edges o n) eqn:E; [done|]. apply legal_transition_spec in E. eauto.
    + intros H. destruct (H old eq_refl) as (o & n & -> & -> & ->%legal_transition_spec). eauto.
Qed.

(** The bounds of the groups, evaluated after the rows. *)
Lemma bounds_decided var comparison bound groups env : mentions var bound = false -> only var env ->
  (exists env', st_fold (fun '(g, total) (_ : unit) =>
      b ← in_env (eval m [] g post post bound);
      ok ← lift (compare comparison total b);
      match ok with true => mret tt | false => push_violation inv g end) groups tt (env, []) = (Ok tt, (env', []))) <->
  Forall (fun '(g, total) => exists b, fst (eval m [] g post post bound []) = Ok b /\ compare comparison total b = Ok true) groups.
Proof.
  intros Hm Ho. rewrite (fold_decided (only var) _ (fun gt => exists b, fst (eval m [] (fst gt) post post bound []) = Ok b /\
    compare comparison (snd gt) b = Ok true)); [| | | |done].
  - by apply Forall_iff; intros [g t].
  - intros [g t]. apply appends_bind; [auto with appends|]. intros b. apply appends_bind; [auto with appends|].
    intros []; auto with appends.
  - intros [g t] e He. cbn [fst snd]. rewrite <-(eval_only m [] g post post bound var e) by done.
    unfold in_env, lift, mbind, stM_bind, push_violation, update_st, mret, stM_ret.
    destruct (eval m [] g post post bound e) as [[b| |] e1] eqn:E; cbn; [|naive_solver..]. split.
    + intros (env' & H & _). exists b. split; [done|]. by destruct (compare comparison t b) as [[]| |].
    + intros (b' & [= <-] & ->). exists e1. split; [done|]. eapply only_tame; [|exact He|exact E]. auto with tame.
  - intros [g t] e r He H. apply appends_bind_nil in H as (b & e1 & H1 & H2).
    + apply in_env_run in H1 as (e2 & H1 & [= ->]). apply bind_run in H2 as (ok & s1 & [_ ->]%lift_run & H2).
      destruct ok; [|done]. injection H2 as <-. eapply only_tame; [|exact He|exact H1]. auto with tame.
    + intros b. apply appends_bind; [auto with appends|]. intros []; auto with appends.
Qed.

Lemma aggregate_calc_tame op group_by value : tame (aggregate_calc m post op group_by value).
Proof.
  unfold aggregate_calc. apply tame_bind; [destruct group_by; auto with tame|]. intros g.
  apply tame_bind; [destruct op; auto with tame|]. auto with tame.
Qed.

Lemma aggregate_row_judged op group_by value zero k gs s :
  aggregate_row m post op group_by value zero k gs s
  = judged inv (aggregate_calc m post op group_by value) (aggregate_judge zero) k gs s.
Proof.
  destruct s as [env out]. unfold aggregate_row, judged, aggregate_calc, aggregate_judge, in_env, lift, update_st, mret, stM_ret,
    mbind, stM_bind, outcome_bind.
  destruct group_by as [ge|], op; cbn;
    repeat (destruct (eval _ _ _ _ _ _ _) as [[?| |] ?]; cbn; [|done..]);
    (destruct (checked_arith _ _ _); cbn; [by rewrite app_nil_r|done..]).
Qed.

(** The groups that are checked: without [GROUP BY] there is one, also when no row is in scope. *)
Definition all_groups (group_by : option ExprIR) (zero : Value) (groups : omap (option Value) Value) :
    omap (option Value) Value :=
  match group_by with None => oinsert None (default zero (oget None groups)) groups | Some _ => groups end.

Lemma all_groups_spec group_by zero (l : list (Value * option (option Value * Value))) groups xs :
  map snd l = xs -> judge_all (aggregate_judge zero) l [] = Ok (groups, []) ->
  forall g t, (g, t) ∈ all_groups group_by zero groups <->
    (g ∈ map fst (somes xs) \/ (group_by = None /\ g = None)) /\ group_total g (somes xs) zero = Ok t.
Proof.
  intros Hl Hj g t. apply judge_aggregate_ok in Hj as (_ & Hs & Hj); [|done].
  rewrite Hl in Hj. destruct (Hj g) as (t' & Ht' & Hg). unfold all_groups.
  change (default zero (oget g [])) with zero in Ht'. change (oget g []) with (@None Value) in Hg.
  destruct group_by as [ge|].
  - rewrite oget_In_iff, Hg by done. case_bool_decide; rewrite Ht'; naive_solver.
  - rewrite oget_In_iff by auto. destruct (decide (g = None)) as [->|Hn].
    + rewrite oget_insert_eq, Ht', Hg. case_bool_decide as Ei; cbn; [naive_solver|].
      rewrite group_total_absent in Ht' by done. naive_solver.
    + rewrite oget_insert_ne, Hg by done. case_bool_decide; rewrite Ht'; naive_solver.
Qed.

Lemma aggregate_decided op record var filter group_by value comparison bound :
  mentions var bound = false -> decides (PAggregate op record var filter group_by value comparison bound).
Proof.
  intros Hm. unfold decides. cbn [check_invariant_inner holds]. unfold check_aggregate.
  pose proof (aggregate_calc_tame op group_by value) as Ht. split.
  - intros (env' & (zero & s0 & [Hz ->]%lift_run & (groups & [e1 o1] & H1 & H2)%bind_run)%bind_run).
    destruct (each_row_ok m post record var filter inv _ _ Ht _ _ _ _ _ _ _
      (aggregate_row_judged op group_by value zero) (only_nil var) H1) as (Ho & xs & vs & Hxs & Hj & Eo).
    pose proof (judge_aggregate_ok zero _ _ _ _ osorted_nil Hj) as (-> & _ & Hjt). cbn in Eo. subst o1.
    rewrite (map_snd_zip record xs _ Hxs) in Hjt. exists xs, zero. split_and!; [done..|].
    pose proof (ex_intro (fun e => _ = (Ok tt, (e, []))) env' H2) as H3. cbv beta in H3.
    apply (bounds_decided var) in H3; [|done..]. rewrite Forall_forall in H3. intros g Hgi.
    destruct (Hjt g) as (t & Ht' & _). exists t. destruct (H3 (g, t)) as (b & Hb1 & Hb2); [|eauto].
    apply (all_groups_spec group_by zero _ _ xs (map_snd_zip record xs _ Hxs) Hj). eauto.
  - intros (xs & zero & Hxs & Hz & H). pose proof (map_snd_zip record xs _ Hxs) as Hl.
    destruct (judge_aggregate_run zero (zip (map fst (St.table post record)) xs) [] osorted_nil) as (groups & Hj).
    { rewrite Hl. intros g Hgi. destruct (H g (or_introl Hgi)) as (t & b & Ht' & _). eauto. }
    destruct (each_row_run m post record var filter inv _ _ Ht _ [] [] [] xs groups []
      (aggregate_row_judged op group_by value zero) (only_nil var) Hxs Hj) as (e1 & Ho & E).
    destruct (proj2 (bounds_decided var comparison bound (all_groups group_by zero groups) e1 Hm Ho)) as (env' & E2).
    + apply Forall_forall. intros [g t] [Hgi Ht']%(all_groups_spec group_by zero _ _ xs Hl Hj).
      destruct (H g Hgi) as (t' & b & Ht'' & Hb1 & Hb2). rewrite Ht' in Ht''. injection Ht'' as <-. eauto.
    + exists env'. apply bind_run. exists zero, ([], []). split; [by apply lift_run|]. apply bind_run.
      exists groups, (e1, []). split; [exact E|]. exact E2.
Qed.

Lemma inner_decided p : bound_closed p = true -> decides p.
Proof.
  destruct p as [record var f e|record var f e|child var e parent|op record var f g v c b|record field en edges|]; intros Hc.
  - apply forall_decided.
  - apply unique_decided.
  - apply reference_decided.
  - apply aggregate_decided. by apply negb_true_iff.
  - apply transition_decided.
  - split; [done|]. intros _. by exists [].
Qed.
End decided.

Lemma check_invariant_out m inv pre post out :
  check_invariant m inv pre post out =
  let '(r, o) := check_invariant m inv pre post [] in (r, out ++ o).
Proof.
  unfold check_invariant. rewrite (inner_appends m (inv_id inv) pre post (inv_predicate inv) [] out).
  destruct (check_invariant_inner _ _ _ _ _ ([], [])) as [[[]|e|] [env o]]; try done.
  destruct e; try done; by rewrite app_assoc.
Qed.

Lemma check_invariant_nil m inv pre post : bound_closed (inv_predicate inv) = true ->
  check_invariant m inv pre post [] = (Ok tt, []) <-> holds m pre post (inv_predicate inv).
Proof.
  intros Hc. pose proof (inner_decided m (inv_id inv) pre post _ Hc) as Hd. unfold decides in Hd. rewrite <-Hd.
  unfold check_invariant. split.
  - destruct (check_invariant_inner _ _ _ _ _ ([], [])) as [[[]|e|] [env o]].
    + intros [= ->]. eauto.
    + destruct e; intros [= H]; by destruct o.
    + done.
  - by intros (env' & ->).
Qed.

Lemma check_each_nil m pre post invs : Forall (fun i => bound_closed (inv_predicate i) = true) invs ->
  check_each m pre post invs [] = (Ok tt, []) <-> Forall (fun i => holds m pre post (inv_predicate i)) invs.
Proof.
  intros Hc.
  assert (Hout : forall invs out, check_each m pre post invs out
    = let '(r, o) := check_each m pre post invs [] in (r, out ++ o)).
  { clear invs Hc. induction invs as [|i invs IH]; intros out; cbn; [by rewrite app_nil_r|].
    unfold mbind, stM_bind. rewrite check_invariant_out. destruct (check_invariant m i pre post []) as [[[]| |] o]; [|done..].
    rewrite IH, (IH o). destruct (check_each m pre post invs []) as [r o']. by rewrite app_assoc. }
  induction Hc as [|i invs Hi _ IH]; cbn [check_each]; [split; [constructor|done]|].
  rewrite Forall_cons, <-IH, <-check_invariant_nil by done. rewrite bind_run. split; [|naive_solver].
  intros ([] & o & H1 & H2). rewrite Hout in H2. destruct (check_each m pre post invs []) as [r o'].
  injection H2 as -> [-> ->]%app_eq_nil. done.
Qed.

