(* ===== verification/InterpSpec.v ===== *)
(** * What an accepted invocation guarantees

    Theorems about the interpreter of [Interp.v]: the literal effects of an
    accepted candidate replay to its post-state, the candidate satisfies the
    invariants, the facts and the conditions of the operation, and transfers
    and reservations conserve quantities. *)

From S2P Require Import Prelude Errors ByteMap StateMonad OrdMap Decimal Ids LangTypes LangIr Interp InterpEval InterpInvariants.

(** ** Phases *)
Lemma phase_bind_go {A B} (p : phase A) (k : A -> phase B) b :
  (p ≫= k) = Go b <-> exists a, p = Go a /\ k a = Go b.
Proof. destruct p; cbn; naive_solver. Qed.

Lemma run_eval_go {S A} stage (c : stM S A) s a s' : run_eval stage c s = Go (a, s') <-> c s = (Ok a, s').
Proof. unfold run_eval. destruct (c s) as [[]?]; naive_solver. Qed.

(** What is known once every phase has gone through. *)
Record accepted_run (m : ModuleIR) (args : list Value) (pre : State) (op : OperationIR) (op_id : Z)
    (scope : option (list Z)) (c : Candidate) : Prop := {
  ar_args : check_args args (o_parameters op) = Go tt;
  ar_env : exists env1 env2 env3 env4 p,
    require m args pre Precondition PreconditionRejected (o_pre op) pre [] = Go env1 /\
    run_reads m args pre (o_reads op) env1 [] = Go (env2, cd_captured_reads c) /\
    run_effects m args pre (o_effects op) (MkProgress env2 pre [] []) = Go p /\
    require m args pre Postcondition PostconditionRejected (o_post op) (pg_cand p) (pg_env p) = Go env3 /\
    eval m args None pre (pg_cand p) (o_result op) env3 = (Ok (cd_result c), env4) /\
    cd_post_state c = pg_cand p /\ cd_effects c = pg_applied p /\ cd_guard_decisions c = pg_guards p;
  ar_facts : check_facts args pre op_id (scoped m scope) = Go tt;
  ar_scope : check_scope m pre scope (cd_post_state c) = Go tt;
}.

Lemma run_operation_go m args pre op op_id scope c :
  run_operation m args pre op op_id scope = Go c -> accepted_run m args pre op op_id scope c.
Proof.
  unfold run_operation.
  intros ([] & Ha & (env1 & H1 & ([env2 cap] & H2 & (p & H3 & (env3 & H4 & ([] & H5 & ([] & H6 & H)%phase_bind_go)%phase_bind_go)%phase_bind_go)%phase_bind_go)%phase_bind_go)%phase_bind_go)%phase_bind_go.
  apply phase_bind_go in H as ([r env4] & H7%run_eval_go & [= <-]). by split; [|exists env1, env2, env3, env4, p|..].
Qed.

Lemma run_operation_accepted m args pre op op_id scope c :
  accepted_run m args pre op op_id scope c -> run_operation m args pre op op_id scope = Go c.
Proof.
  intros [Ha (env1 & env2 & env3 & env4 & p & H1 & H2 & H3 & H4 & H5 & Ep & Ee & Eg) Hf Hs]. unfold run_operation.
  rewrite Ep in Hs. rewrite Ha. cbn. rewrite H1. cbn. rewrite H2. cbn. rewrite H3. cbn. rewrite H4. cbn. rewrite Hf. cbn.
  rewrite Hs. cbn. unfold run_eval. rewrite H5. cbn. rewrite <-Ep, <-Ee, <-Eg. by destruct c.
Qed.

Lemma evaluate_accepted m op_ref args pre scope c :
  evaluate_with_scope m op_ref args pre scope = Ok (Accepted c) <->
  exists op, module_operation m op_ref = Ok op /\ accepted_run m args pre op (op_operation_id op_ref) scope c.
Proof.
  split.
  - intros (op & Hop & H)%bind_ok_inv. exists op. split; [done|].
    destruct (run_operation _ _ _ _ _ _) eqn:E; simplify_eq. by apply run_operation_go.
  - intros (op & Hop & H%run_operation_accepted). unfold evaluate_with_scope. rewrite Hop. cbn. by rewrite H.
Qed.

(** ** Replay *)
Lemma apply_all_app m l1 l2 st st1 st2 :
  apply_all m l1 st = (Ok tt, st1) -> apply_all m l2 st1 = (Ok tt, st2) -> apply_all m (l1 ++ l2) st = (Ok tt, st2).
Proof.
  revert st; induction l1 as [|e l1 IH]; intros st; cbn [apply_all app]; [by intros [= <-]|].
  intros ([] & s1 & He & H)%bind_run H2. apply bind_run. exists tt, s1. split; [done|]. by apply (IH s1).
Qed.

Lemma apply_effect_ir_ok m args pre ef env cand a env' cand' :
  apply_effect_ir m args pre ef (env, cand) = (Ok a, (env', cand')) ->
  eval_effect m args None pre cand (ef_kind ef) env = (Ok (ae_kind a), env') /\
  ae_effect_id a = ef_effect_id ef /\ apply_literal m a cand = (Ok tt, cand').
Proof.
  unfold apply_effect_ir. destruct (eval_effect _ _ _ _ _ _ _) as [[k| |] e1] eqn:E1; [|done..].
  destruct (apply_literal _ _ _) as [[[]| |] c1] eqn:E2; [|done..]. intros [= <- <- <-]. done.
Qed.

(** The effects applied so far lead from the pre-state to the candidate. *)
Definition replays (m : ModuleIR) (pre : State) (p : Progress) : Prop :=
  apply_all m (pg_applied p) pre = (Ok tt, pg_cand p).

Lemma run_effect_replays m args pre ef p p' :
  run_effect m args pre ef p = Go p' -> replays m pre p -> replays m pre p'.
Proof.
  unfold run_effect. intros ([a [env' cand']] & H%run_eval_go & [= <-])%phase_bind_go Hp.
  apply apply_effect_ir_ok in H as (_ & _ & H). eapply apply_all_app; [exact Hp|]. cbn.
  apply bind_run. by exists tt, cand'.
Qed.

Lemma guarded_effect_replays m args pre ef p p' :
  guarded_effect m args pre ef p = Go p' -> replays m pre p -> replays m pre p'.
Proof.
  unfold guarded_effect. destruct (ef_guard ef); [|apply run_effect_replays].
  intros ([v env'] & _ & H)%phase_bind_go Hp.
  destruct v as [[]| | | | | | | | | | | | | |]; try (by injection H as <-). by eapply run_effect_replays.
Qed.

Lemma run_effects_replays m args pre efs p p' :
  run_effects m args pre efs p = Go p' -> replays m pre p -> replays m pre p'.
Proof.
  revert p; induction efs as [|ef efs IH]; intros p; cbn [run_effects]; [by intros [= <-]|].
  intros (p1 & H1 & H)%phase_bind_go Hp. eauto using guarded_effect_replays.
Qed.

(** ** Conditions *)
Lemma check_args_go args params :
  check_args args params = Go tt <-> Forall2 (fun a p => check_type a (p_ty p) = Ok tt) args params.
Proof.
  unfold check_args. destruct (Nat.eqb_spec (length args) (length params)) as [El|El]; cbn.
  - revert params El; induction args as [|a args IH]; intros [|p params] El; [split; [constructor|done]|done..|].
    cbn in El |- *. rewrite Forall2_cons, <-IH by lia. destruct (check_type a (p_ty p)) as [[]| |]; cbn; naive_solver.
  - split; [done|]. by intros ?%Forall2_length.
Qed.

Lemma require_go m args pre stage code e cand env env' :
  require m args pre stage code e cand env = Go env' <-> eval m args None pre cand e env = (Ok (VBool true), env').
Proof.
  unfold require. rewrite phase_bind_go. split.
  - intros ([v env1] & H%run_eval_go & H2). destruct v as [[]| | | | | | | | | | | | | |]; naive_solver.
  - intros H%(run_eval_go stage). eauto.
Qed.

(** The fact an invariant asks of the operation is in the pre-state. *)
Definition fact_present (args : list Value) (pre : State) (op : Z) (p : PredicateIR) : Prop :=
  match p with
  | PRequiresFact operation kp fact =>
      operation = op -> exists key row, fact_key args kp = Ok key /\ St.get pre fact key = Some row
  | _ => True
  end.

Lemma check_facts_go args pre op invs :
  check_facts args pre op invs = Go tt <-> Forall (fun i => fact_present args pre op (inv_predicate i)) invs.
Proof.
  induction invs as [|inv invs IH]; cbn [check_facts]; [split; [constructor|done]|]. rewrite Forall_cons.
  destruct (inv_predicate inv) as [| | | | |o kp fact]; cbn [fact_present]; try (rewrite IH; naive_solver).
  destruct (Z.eqb_spec o op) as [->|Hn]; [|rewrite IH; naive_solver].
  destruct (fact_key args kp) as [key| |]; [|naive_solver..]. destruct (St.get pre fact key) as [row|] eqn:E.
  - rewrite IH. naive_solver.
  - split; [done|]. intros [H _]. destruct (H eq_refl) as (? & ? & [= <-] & ?). congruence.
Qed.

Lemma reject_violation_go m out : reject_violation m out = Go tt <-> out = [].
Proof.
  destruct out as [|v out]; cbn; [done|]. split; [|done].
  by intros (? & _ & H)%phase_bind_go.
Qed.

Lemma scoped_all m : scoped m None = m_invariants m.
Proof.
  unfold scoped. induction (m_invariants m) as [|i l IH]; [done|]. rewrite filter_cons_True by done. by rewrite IH.
Qed.

Lemma Forall_scoped m scope (P : InvariantIR -> Prop) :
  Forall P (scoped m scope) <-> Forall (fun i => in_scope scope i = true -> P i) (m_invariants m).
Proof.
  unfold scoped. rewrite !Forall_forall. setoid_rewrite list_elem_of_filter. naive_solver.
Qed.

Lemma check_scope_go m pre scope post : Forall (fun i => bound_closed (inv_predicate i) = true) (m_invariants m) ->
  check_scope m pre scope post = Go tt <-> Forall (fun i => holds m pre post (inv_predicate i)) (scoped m scope).
Proof.
  intros Hc. rewrite <-check_each_nil by (apply Forall_scoped; by eapply Forall_impl). unfold check_scope.
  destruct (check_each _ _ _ _ _) as [[[]| |] out]; [|naive_solver..]. rewrite reject_violation_go. naive_solver.
Qed.

(** ** The lens of a field *)
Definition state_sorted (st : State) : Prop :=
  osorted st /\ forall r t, oget r st = Some t -> osorted t /\ forall k row, oget k t = Some row -> osorted row.

Lemma get_field_ok st r k f v : get_field st r k f = Ok v <->
  exists t row, oget r st = Some t /\ oget k t = Some row /\ oget f row = Some v.
Proof.
  unfold get_field, St.get. destruct (oget r st) as [t|]; cbn; [|naive_solver].
  destruct (oget k t) as [row|] eqn:Ek; cbn; [|naive_solver]. unfold ok_or. destruct (oget f row) eqn:E; naive_solver.
Qed.

Lemma set_field_eq st r k f v t row : oget r st = Some t -> oget k t = Some row ->
  set_field st r k f v = oinsert r (oinsert k (oinsert f v row) t) st.
Proof. intros Ht Hk. unfold set_field, St.set_row, St.get. rewrite Ht. cbn. by rewrite Hk. Qed.

Lemma set_field_sorted st r k f v v0 : state_sorted st -> get_field st r k f = Ok v0 -> state_sorted (set_field st r k f v).
Proof.
  intros [Hs Ht] (t & row & Er & Ek & _)%get_field_ok. rewrite (set_field_eq st r k f v t row) by done.
  destruct (Ht r t Er) as [Hst Hrow]. split; [auto|]. intros r' t'. destruct (decide (r' = r)) as [->|Hr].
  - rewrite oget_insert_eq. intros [= <-]. split; [auto|]. intros k' row'. destruct (decide (k' = k)) as [->|Hk].
    + rewrite oget_insert_eq. intros [= <-]. eauto.
    + rewrite oget_insert_ne by done. apply Hrow.
  - rewrite oget_insert_ne by done. apply Ht.
Qed.

Lemma get_set_eq st r k f v v0 : get_field st r k f = Ok v0 -> get_field (set_field st r k f v) r k f = Ok v.
Proof.
  intros (t & row & Er & Ek & _)%get_field_ok. rewrite (set_field_eq st r k f v t row) by done.
  apply get_field_ok. eexists _, _. by rewrite !oget_insert_eq.
Qed.

Lemma get_set_ne st r k f v v0 r' k' f' : state_sorted st -> get_field st r k f = Ok v0 -> (r', k', f') <> (r, k, f) ->
  get_field (set_field st r k f v) r' k' f' = get_field st r' k' f'.
Proof.
  intros [Hs Ht] (t & row & Er & Ek & _)%get_field_ok Hne. rewrite (set_field_eq st r k f v t row) by done.
  destruct (Ht r t Er) as [Hst Hrow]. unfold get_field, St.get. destruct (decide (r' = r)) as [->|Hr].
  - rewrite oget_insert_eq, Er. cbn. destruct (decide (k' = k)) as [->|Hk].
    + rewrite oget_insert_eq, Ek, oget_insert_ne; [done|congruence|eauto].
    + by rewrite oget_insert_ne.
  - by rewrite oget_insert_ne.
Qed.

Lemma update_field_ok r k f g st st' : update_field r k f g st = (Ok tt, st') <->
  exists v v', get_field st r k f = Ok v /\ g v = Ok v' /\ st' = set_field st r k f v'.
Proof.
  unfold update_field. rewrite bind_run. split.
  - intros (? & ? & [= <- <-] & (v & s1 & [Hv ->]%lift_run & (v' & s2 & [Hv' ->]%lift_run & [= <-])%bind_run)%bind_run). eauto.
  - intros (v & v' & Hv & Hv' & ->). exists st, st. split; [done|]. apply bind_run. exists v, st. split; [by apply lift_run|].
    apply bind_run. exists v', st. split; [by apply lift_run|done].
Qed.

(** ** Quantities *)

(** The number a numeric value stands for, a decimal in units of its last digit. *)
Definition quantity (v : Value) : option Z :=
  match v with
  | VI64 x | VU64 x => Some x
  | VDecimal d => Some (coefficient d)
  | _ => None
  end.

Lemma new_coefficient c p s d : new c p s = Ok d -> coefficient d = c /\ precision d = p /\ scale d = s.
Proof.
  unfold new. intros H. destruct (_ || _); [done|]. destruct (_ <? _); [done|].
  by apply bind_ok_inv in H as ([] & _ & [= <-]).
Qed.

(** Addition and subtraction are exact and stay within the type. *)
Lemma checked_add_exact a b v : checked_arith BAdd a b = Ok v ->
  exists x y, quantity a = Some x /\ quantity b = Some y /\ quantity v = Some (x + y) /\ type_of v = type_of a.
Proof.
  destruct a, b; cbn; try done.
  - intros (z & H%ok_or_ok_inv & [= <-])%bind_ok_inv. apply checked_i_some in H as [-> _]. eauto 10.
  - intros (z & H%ok_or_ok_inv & [= <-])%bind_ok_inv. unfold checked_u in H. case_match; simplify_eq. eauto 10.
  - intros (d' & (? & _ & (c & H%ok_or_ok_inv & Hn)%bind_ok_inv)%bind_ok_inv & [= <-])%bind_ok_inv.
    apply checked_i_some in H as [-> _]. apply new_coefficient in Hn as (Hc & Hp & Hs). cbn. rewrite Hc, Hp, Hs. eauto 10.
Qed.
Lemma checked_sub_exact a b v : checked_arith BSub a b = Ok v ->
  exists x y, quantity a = Some x /\ quantity b = Some y /\ quantity v = Some (x - y) /\ type_of v = type_of a.
Proof.
  destruct a, b; cbn; try done.
  - intros (z & H%ok_or_ok_inv & [= <-])%bind_ok_inv. apply checked_i_some in H as [-> _]. eauto 10.
  - intros (z & H%ok_or_ok_inv & [= <-])%bind_ok_inv. unfold checked_u in H. case_match; simplify_eq. eauto 10.
  - intros (d' & (? & _ & (c & H%ok_or_ok_inv & Hn)%bind_ok_inv)%bind_ok_inv & [= <-])%bind_ok_inv.
    apply checked_i_some in H as [-> _]. apply new_coefficient in Hn as (Hc & Hp & Hs). cbn. rewrite Hc, Hp, Hs. eauto 10.
Qed.

(** Two updates of distinct fields, the first subtracting and the second adding
    one amount (transfers, reservations, releases). *)
Definition slot : Type := (Z * Value * Z)%type.
Definition get_slot (st : State) (s : slot) : CoreResult Value := let '(r, k, f) := s in get_field st r k f.

Record moved (st st' : State) (src dst : slot) (amount : Value) : Prop := {
  mv_values : exists s d s' d' x y q,
    get_slot st src = Ok s /\ get_slot st dst = Ok d /\ get_slot st' src = Ok s' /\ get_slot st' dst = Ok d' /\
    quantity amount = Some q /\ quantity s = Some x /\ quantity d = Some y /\
    quantity s' = Some (x - q) /\ quantity d' = Some (y + q) /\ type_of s' = type_of s /\ type_of d' = type_of d;
  mv_frame : forall sl, sl <> src -> sl <> dst -> get_slot st' sl = get_slot st sl;
  mv_sorted : state_sorted st';
}.

Lemma move_spec st st1 st2 r1 k1 f1 r2 k2 f2 amount : state_sorted st -> (r1, k1, f1) <> (r2, k2, f2) ->
  update_field r1 k1 f1 (fun s => checked_arith BSub s amount) st = (Ok tt, st1) ->
  update_field r2 k2 f2 (fun d => checked_arith BAdd d amount) st1 = (Ok tt, st2) ->
  moved st st2 (r1, k1, f1) (r2, k2, f2) amount.
Proof.
  intros Hs Hne (s & s' & Es & (x & q & Hx & Hq & Hs' & Ht)%checked_sub_exact & ->)%update_field_ok
    (d & d' & Ed & (y & q' & Hy & Hq' & Hd' & Ht')%checked_add_exact & ->)%update_field_ok.
  rewrite Hq in Hq'. injection Hq' as <-. pose proof (set_field_sorted st r1 k1 f1 s' s Hs Es) as Hs1.
  assert (Ed0 : get_field st r2 k2 f2 = Ok d) by (by rewrite get_set_ne with (v0 := s) in Ed by done).
  split; cbn [get_slot].
  - exists s, d, s', d', x, y, q. split_and!; try done.
    + rewrite get_set_ne with (v0 := d) by done. by eapply get_set_eq.
    + by eapply get_set_eq.
  - intros [[r k] f] H1 H2. cbn [get_slot]. rewrite get_set_ne with (v0 := d) by done. by apply get_set_ne with (v0 := s).
  - by eapply set_field_sorted.
Qed.

(** ** Theorems *)

(** C21. Replaying an accepted invocation is exact: applying its literal effects
    to the pre-state succeeds and gives the candidate's post-state, for the
    full and for the scoped evaluator. *)
Theorem accepted_replays (m : ModuleIR) (op_ref : OperationRef) (args : list Value) (pre : State) (c : Candidate)
  (H : evaluate m op_ref args pre = Ok (Accepted c) \/
       exists s, evaluate_scoped m op_ref args pre s = Ok (Accepted c)) :
  apply_effects m (cd_effects c) pre = (Ok tt, cd_post_state c).
Proof.
  assert (exists scope, evaluate_with_scope m op_ref args pre scope = Ok (Accepted c)) as (scope & H').
  { destruct H as [H|(s & (? & _ & H)%bind_ok_inv)]; eauto. }
  apply evaluate_accepted in H' as (op & _ & [_ (env1 & env2 & env3 & env4 & p & _ & _ & He & _ & _ & -> & -> & _) _ _]).
  apply run_effects_replays in He; [|done]. unfold apply_effects. by rewrite He.
Qed.

(** C22. An accepted invocation is valid: its arguments have the declared
    types, its precondition is true in the pre-state, the candidate is what its
    reads and effects lead to and makes the postcondition true, every invariant
    of the module holds of the pair of states, and every fact the operation
    depends on is in the pre-state. *)
Theorem accepted_valid (m : ModuleIR) (op_ref : OperationRef) (args : list Value) (pre : State) (c : Candidate)
  (Hc : Forall (fun i => bound_closed (inv_predicate i) = true) (m_invariants m))
  (H : evaluate m op_ref args pre = Ok (Accepted c)) :
  exists op env1 env2 env3 p, module_operation m op_ref = Ok op /\
    Forall2 (fun a p => check_type a (p_ty p) = Ok tt) args (o_parameters op) /\
    eval m args None pre pre (o_pre op) [] = (Ok (VBool true), env1) /\
    run_reads m args pre (o_reads op) env1 [] = Go (env2, cd_captured_reads c) /\
    run_effects m args pre (o_effects op) (MkProgress env2 pre [] []) = Go p /\ cd_post_state c = pg_cand p /\
    eval m args None pre (cd_post_state c) (o_post op) (pg_env p) = (Ok (VBool true), env3) /\
    Forall (fun i => holds m pre (cd_post_state c) (inv_predicate i)) (m_invariants m) /\
    Forall (fun i => fact_present args pre (op_operation_id op_ref) (inv_predicate i)) (m_invariants m).
Proof.
  apply evaluate_accepted in H as (op & Hop & [Ha (env1 & env2 & env3 & env4 & p & H1 & H3 & H4 & H2 & _ & Ep & _) Hf Hs]).
  exists op, env1, env2, env3, p. apply check_scope_go in Hs; [|done]. rewrite scoped_all in Hf, Hs.
  apply require_go in H1, H2. rewrite Ep in *. split_and!; try done; [by apply check_args_go|by apply check_facts_go in Hf].
Qed.

(** Scoped evaluation is sound and complete for a closure of invariants: a
    candidate is accepted by the full evaluator exactly when it is accepted
    with the declared invariants [s] alone and the invariants outside [s] hold
    of it and have their facts. *)
Theorem scoped_agrees (m : ModuleIR) (op_ref : OperationRef) (args : list Value) (pre : State) (s : list Z) (c : Candidate)
  (Hc : Forall (fun i => bound_closed (inv_predicate i) = true) (m_invariants m))
  (Hs : ssorted s) (Hd : Forall (fun id => exists i, module_invariant m id = Ok i) s) :
  evaluate m op_ref args pre = Ok (Accepted c) <->
  evaluate_scoped m op_ref args pre s = Ok (Accepted c) /\
  Forall (fun i => inv_id i ∉ s -> holds m pre (cd_post_state c) (inv_predicate i) /\
                   fact_present args pre (op_operation_id op_ref) (inv_predicate i)) (m_invariants m).
Proof.
  assert (Ee : evaluate_scoped m op_ref args pre s = evaluate_with_scope m op_ref args pre (Some s)).
  { unfold evaluate_scoped. replace (try_each _ s) with (Ok (E := ErrorCode) tt); [done|].
    symmetry. induction Hd as [|id s' [i Hi] _ IH]; cbn; [done|]. rewrite Hi. cbn. apply IH. by destruct Hs. }
  rewrite Ee. unfold evaluate. rewrite !evaluate_accepted.
  assert (Hsc : forall P : InvariantIR -> Prop, Forall P (scoped m None) <->
    Forall P (scoped m (Some s)) /\ Forall (fun i => inv_id i ∉ s -> P i) (m_invariants m)).
  { intros P. rewrite !Forall_scoped, <-Forall_and, !Forall_forall. cbn. setoid_rewrite (smem_In _ _ Hs).
    split; [naive_solver|]. intros H i Hi _. destruct (decide (inv_id i ∈ s)); naive_solver. }
  split.
  - intros (op & Hop & [Ha He Hf Hsp]). apply check_facts_go, Hsc in Hf as [Hf1 Hf2].
    apply check_scope_go, Hsc in Hsp as [Hs1 Hs2]; [|done]. split.
    + exists op. split; [done|]. split; [done..|by apply check_facts_go|by apply check_scope_go].
    + rewrite Forall_forall in *. eauto.
  - intros ((op & Hop & [Ha He Hf Hsp]) & Hr). apply check_facts_go in Hf. apply check_scope_go in Hsp; [|done].
    exists op. split; [done|]. split; [done..|apply check_facts_go, Hsc|apply check_scope_go, Hsc; [done|]];
      (split; [done|]); (eapply Forall_impl; [exact Hr|]); naive_solver.
Qed.

(** C23. The invariant checker decides the invariants: it returns the empty list
    of violations exactly when each invariant, taken row by row in its
    declarative meaning, holds of the pair of states. *)
Theorem invariants_decided (m : ModuleIR) (pre post : State)
  (Hc : Forall (fun i => bound_closed (inv_predicate i) = true) (m_invariants m)) :
  check_invariants m pre post = Ok [] <-> Forall (fun i => holds m pre post (inv_predicate i)) (m_invariants m).
Proof.
  rewrite <-check_each_nil by done. unfold check_invariants.
  destruct (check_each m pre post (m_invariants m) []) as [[[]| |] out]; naive_solver.
Qed.

(** C24. A transfer conserves the quantity it moves: exactly the amount, which is
    positive, leaves the source and reaches the destination, both keep their
    types, and no other field of the state changes.  With one endpoint for
    both the effect is refused. *)
Theorem transfer_conserves (m : ModuleIR) (id : Z) (src dst : Z * Value * Z) (amount : Value) (st st' : State)
  (Hs : state_sorted st) (H : apply_literal m (MkApplied id (Transfer src dst amount)) st = (Ok tt, st')) :
  src <> dst /\ (exists q, quantity amount = Some q /\ 0 < q) /\ moved st st' src dst amount.
Proof.
  destruct src as [[r1 k1] f1], dst as [[r2 k2] f2]. cbn [apply_literal ae_kind] in H. unfold apply_transfer in H.
  apply bind_run in H as ([] & s0 & [Hp ->]%lift_run & H). apply ensure_ok_inv in Hp.
  case_bool_decide as E; [done|]. apply bind_run in H as ([] & st1 & H1 & H2).
  split; [done|]. split; [|by eapply move_spec]. destruct amount; try done; apply Z.ltb_lt in Hp; cbn; eauto.
Qed.

Lemma insert_new_ok record key row st st' : insert_new record key row st = (Ok tt, st') ->
  St.get st record key = None /\ St.get st' record key = Some row.
Proof.
  unfold insert_new, St.insert, St.get. intros H. destruct (oget record st) as [t|]; cbn in *.
  - destruct (oget key t) eqn:Ek; [done|]. injection H as <-. rewrite oget_insert_eq. cbn. by rewrite oget_insert_eq.
  - injection H as <-. rewrite oget_insert_eq. cbn. by rewrite oget_insert_eq.
Qed.

(** Reservations conserve quantities: reserving moves exactly the amount
    from the available to the reserved field of the resource and then records
    a reservation that did not exist; releasing requires an active reservation
    of that resource and that amount, marks it, and moves the amount back. *)
Theorem reservations_conserve (m : ModuleIR) (id resource : Z) (rs : ResourceIR) (key rid amount : Value) (st st' : State)
  (Hs : state_sorted st) (Hr : module_resource m resource = Ok rs) (Hd : rs_available rs <> rs_reserved rs) :
  (apply_literal m (MkApplied id (Reserve resource key rid amount)) st = (Ok tt, st') ->
   exists st1 row,
     moved st st1 (rs_record rs, key, rs_available rs) (rs_record rs, key, rs_reserved rs) amount /\
     St.get st1 (rs_reservation_record rs) rid = None /\ St.get st' (rs_reservation_record rs) rid = Some row) /\
  (apply_literal m (MkApplied id (Release resource key rid amount)) st = (Ok tt, st') ->
   exists resv row e en active released fs fr fa,
     module_record m (rs_reservation_record rs) = Ok resv /\ St.get st (r_id resv) rid = Some row /\
     fid resv "state" = Ok fs /\ fid resv "resource" = Ok fr /\ fid resv "amount" = Ok fa /\
     module_enum_def m e = Ok en /\ variant_of "Active" en = Ok active /\ variant_of "Released" en = Ok released /\
     check_reservation row fr fa fs active key amount = Ok tt /\
     moved (set_field st (r_id resv) rid fs (VEnum e released)) st'
       (rs_record rs, key, rs_reserved rs) (rs_record rs, key, rs_available rs) amount).
Proof.
  split; cbn [apply_literal ae_kind]; [unfold apply_reserve|unfold apply_release];
    intros ([] & s0 & [Hp ->]%lift_run & (rs' & s1 & [Hr' ->]%lift_run & H)%bind_run)%bind_run;
    rewrite Hr in Hr'; injection Hr' as <-.
  - apply bind_run in H as ([] & st1 & H1 & ([] & st2 & H2 & (resv & s2 & [Hv ->]%lift_run & (row & s3 & [Hw ->]%lift_run & H)%bind_run)%bind_run)%bind_run).
    exists st2, row. split; [|by eapply insert_new_ok]. apply (move_spec st st1 st2); [done|congruence|done..].
  - apply bind_run in H as (resv & s2 & [Hv ->]%lift_run & H).
    apply bind_run in H as (fs & s3 & [Hfs ->]%lift_run & (fr & s4 & [Hfr ->]%lift_run & (fa & s5 & [Hfa ->]%lift_run & (ty & s6 & [Ht ->]%lift_run & H)%bind_run)%bind_run)%bind_run).
    destruct ty as [| | | | | | |e| | | | | |]; try done.
    apply bind_run in H as (en & s7 & [He ->]%lift_run & (active & s8 & [Ha ->]%lift_run & (released & s9 & [Hl ->]%lift_run & H)%bind_run)%bind_run).
    apply bind_run in H as (? & ? & [= <- <-] & (row & s10 & [Hrow%ok_or_ok_inv ->]%lift_run & ([] & s11 & [Hck ->]%lift_run & H)%bind_run)%bind_run).
    apply bind_run in H as ([] & st1 & (v & v' & Hg & [= <-] & ->)%update_field_ok & ([] & st2 & H1 & H2)%bind_run).
    exists resv, row, e, en, active, released, fs, fr, fa. split_and!; [done..|].
    eapply move_spec; [by eapply set_field_sorted|congruence|exact H1|exact H2].
Qed.

(** ** A small module *)
Module Bank.
Definition expr (ty : Type_) (n : ExprNodeIR) : ExprIR := MkExpr ty n.
Definition account : RecordIR := MkRecord 1 (str "Account") false
  [MkField 1 (str "id") TU64; MkField 2 (str "balance") TI64] 1.
Definition balance : ExprIR := expr TI64 (EField (expr (TRow 1) (EBinding 0)) 2 (str "balance")).
Definition lit_i (z : Z) : ExprIR := expr TI64 (ELit (VI64 z)).
Definition yes : ExprIR := expr TBool (ELit (VBool true)).
Definition non_negative : InvariantIR := MkInvariant 1 (str "non_negative") 1 (ScPerKey 1) KLowerBound
  (PForAll 1 0 None (expr TBool (EBin (BCmp CGe) balance (lit_i 0)))) [] 1.
Definition conserved : InvariantIR := MkInvariant 2 (str "conserved") 1 (ScGlobal [1]) KConservation
  (PAggregate AggSum 1 0 None None balance CEq (lit_i 100)) [] 1.
Definition contract : ContractIR := MkContract SerialScope Receipt_ (RsGlobal [1]) [] SsNone LocalStable [PoUnavailable] []
  RfBusinessPredicate (str "bank").
Definition pay_ref : OperationRef := MkOperationRef 1 1.
Definition path (i : Z) : PathIR := MkPath 1 (expr TU64 (EParam i)) 2.
Definition pay : OperationIR := MkOperation pay_ref (str "pay")
  [MkParameter (str "from") TU64; MkParameter (str "to") TU64; MkParameter (str "amount") TI64] yes []
  [MkEffect 0 None (EfTransferQuantity (path 0) (path 1) (expr TI64 (EParam 2))) []] yes
  (expr TUnit (ELit VUnit)) contract (MkFootprint [] [] [] [] []).
Definition bank : ModuleIR := MkModule 1 1 1 [account] [] [] [] [non_negative; conserved] [pay].
Definition row (i b : Z) : Value * Row := (VU64 i, [(1, VU64 i); (2, VI64 b)]).
Definition start : State := [(1, [row 1 60; row 2 40])].
Definition args (n : Z) : list Value := [VU64 1; VU64 2; VI64 n].

Example pays : evaluate bank pay_ref (args 25) start
  = Ok (Accepted (MkCandidate [(1, [row 1 35; row 2 65])]
      [MkApplied 0 (Transfer (1, VU64 1, 2) (1, VU64 2, 2) (VI64 25))] VUnit [] [])).
Proof. vm_compute. reflexivity. Qed.
Example overdraws : evaluate bank pay_ref (args 61) start = Ok (Rejected (MkRejection InvariantRejected (Invariant 1))).
Proof. vm_compute. reflexivity. Qed.
End Bank.

Lemma accepted_replays_witness : exists c, evaluate Bank.bank Bank.pay_ref (Bank.args 25) Bank.start = Ok (Accepted c) /\
  apply_effects Bank.bank (cd_effects c) Bank.start = (Ok tt, cd_post_state c).
Proof.
  eexists. split; [vm_compute; reflexivity|]. apply (accepted_replays Bank.bank Bank.pay_ref (Bank.args 25) Bank.start).
  left. vm_compute. reflexivity.
Defined.

Lemma accepted_valid_witness : exists c, evaluate Bank.bank Bank.pay_ref (Bank.args 25) Bank.start = Ok (Accepted c) /\
  exists op, module_operation Bank.bank Bank.pay_ref = Ok op.
Proof.
  eexists. split; [vm_compute; reflexivity|].
  destruct (accepted_valid Bank.bank Bank.pay_ref (Bank.args 25) Bank.start _ ltac:(repeat constructor)
    ltac:(vm_compute; reflexivity)) as (op & ? & ? & ? & ? & Hop & _). by exists op.
Defined.

Lemma scoped_agrees_witness : exists c, evaluate_scoped Bank.bank Bank.pay_ref (Bank.args 25) Bank.start [1; 2] = Ok (Accepted c).
Proof.
  eexists. apply (proj1 (scoped_agrees Bank.bank Bank.pay_ref (Bank.args 25) Bank.start [1; 2] _
    ltac:(repeat constructor) ltac:(repeat constructor) ltac:(repeat constructor; eexists; reflexivity))).
  vm_compute. reflexivity.
Defined.

Lemma invariants_decided_witness : check_invariants Bank.bank Bank.start Bank.start = Ok [] /\
  Forall (fun i => holds Bank.bank Bank.start Bank.start (inv_predicate i)) (m_invariants Bank.bank).
Proof.
  split; [vm_compute; reflexivity|]. apply (invariants_decided Bank.bank Bank.start Bank.start); [repeat constructor|].
  vm_compute. reflexivity.
Defined.

Lemma bank_sorted : state_sorted Bank.start.
Proof.
  split; [by repeat constructor|]. intros r t H. apply oget_In in H.
  apply elem_of_cons in H as [[= -> ->]|H]; [|set_solver]. split; [by repeat constructor|].
  intros k row H. apply oget_In in H. rewrite !elem_of_cons, elem_of_nil in H.
  destruct H as [[= -> ->]|[[= -> ->]|[]]]; by repeat constructor.
Qed.

Lemma transfer_conserves_witness : exists st', moved Bank.start st' (1, VU64 1, 2) (1, VU64 2, 2) (VI64 25).
Proof.
  eexists. apply (transfer_conserves Bank.bank 0 (1, VU64 1, 2) (1, VU64 2, 2) (VI64 25) Bank.start); [exact bank_sorted|].
  vm_compute. reflexivity.
Defined.

Module Shop.
Definition stock : RecordIR := MkRecord 2 (str "Stock") false
  [MkField 1 (str "id") TU64; MkField 2 (str "available") TI64; MkField 3 (str "reserved") TI64] 1.
Definition hold : RecordIR := MkRecord 3 (str "Hold") false
  [MkField 1 (str "id") TU64; MkField 2 (str "resource") TU64; MkField 3 (str "amount") TI64; MkField 4 (str "state") (TEnum 1)] 1.
Definition shop : ModuleIR := MkModule 1 1 1 [stock; hold] [MkEnum 1 (str "HoldState") [str "Active"; str "Released"]] []
  [MkResource 1 (str "units") 2 2 3 3] [] [].
Definition start : State := [(2, [(VU64 7, [(1, VU64 7); (2, VI64 10); (3, VI64 0)])])].

Example reserve_release :
  apply_effects shop [MkApplied 0 (Reserve 1 (VU64 7) (VU64 1) (VI64 4)); MkApplied 1 (Release 1 (VU64 7) (VU64 1) (VI64 4))] start
  = (Ok tt, start ++ [(3, [(VU64 1, [(1, VU64 1); (2, VU64 7); (3, VI64 4); (4, VEnum 1 1)])])]).
Proof. vm_compute. reflexivity. Qed.
Example double_release :
  fst (apply_effects shop [MkApplied 0 (Reserve 1 (VU64 7) (VU64 1) (VI64 4)); MkApplied 1 (Release 1 (VU64 7) (VU64 1) (VI64 4));
    MkApplied 2 (Release 1 (VU64 7) (VU64 1) (VI64 4))] start) = Err Conflict.
Proof. vm_compute. reflexivity. Qed.
End Shop.

Lemma shop_sorted : state_sorted Shop.start.
Proof.
  split; [by repeat constructor|]. intros r t H. apply oget_In in H.
  apply elem_of_cons in H as [[= -> ->]|H]; [|set_solver]. split; [by repeat constructor|].
  intros k row H. apply oget_In in H. rewrite !elem_of_cons, elem_of_nil in H.
  destruct H as [[= -> ->]|[]]; by repeat constructor.
Qed.

Lemma reservations_conserve_witness : exists st1, moved Shop.start st1 (2, VU64 7, 2) (2, VU64 7, 3) (VI64 4).
Proof.
  destruct (proj1 (reservations_conserve Shop.shop 0 1 (MkResource 1 (str "units") 2 2 3 3) (VU64 7) (VU64 1) (VI64 4) Shop.start
    (snd (apply_literal Shop.shop (MkApplied 0 (Reserve 1 (VU64 7) (VU64 1) (VI64 4))) Shop.start))
    shop_sorted eq_refl ltac:(discriminate))) as (st1 & row & H & _); [vm_compute; reflexivity|]. by exists st1.
Defined.
