(* ===== verification/LangTyping.v ===== *)
(** * Type soundness of expressions

    A typing judgement for the intermediate representation and the theorem
    that a typed expression, evaluated in a typed environment over typed
    states, never panics, never runs into malformed IR, and yields a value of
    its type or one of the errors a program can cause: overflow, a missing row,
    a multiplication outside the affine fragment.  [LangLower.v] shows that the
    lowering produces typed expressions. *)

From S2P Require Import Prelude Errors ByteMap StateMonad OrdMap Decimal LangTypes LangIr Interp InterpEval.

(** ** Typed values *)

(** Types whose decimals exist. *)
Fixpoint type_ok (t : Type_) : bool :=
  match t with
  | TDecimal p s => (1 <=? p) && (p <=? 38) && (0 <=? s) && (s <=? p)
  | TOption t | TSet t => type_ok t
  | TTuple ts => forallb type_ok ts
  | TStruct fs => forallb (fun '(_, t) => type_ok t) fs
  | _ => true
  end.

Section typed_values.
(** What is known of the fields of a row value. *)
Context (R : Z -> bmap Value -> Prop).

Fixpoint has_type (v : Value) (ty : Type_) {struct ty} : Prop :=
  match ty, v with
  | TBool, VBool _ | TI64, VI64 _ | TU64, VU64 _ | TUuid, VUuid _ | TUnit, VUnit => True
  | TBytes n, VBytes b | TString n, VStr b => Z.of_nat (length b) <= n
  | TDecimal p s, VDecimal d => dec_valid d /\ precision d = p /\ scale d = s
  | TEnum e, VEnum e' _ => e = e'
  | TOption _, VNone => True
  | TOption t, VSome v => has_type v t
  | TSet t, VSet l => Forall (fun v => has_type v t) l
  | TTuple ts, VTuple l =>
      (fix go ts l := match ts, l with
       | [], [] => True
       | t :: ts', v :: l' => has_type v t /\ go ts' l'
       | _, _ => False
       end) ts l
  | TRow r, VRow r' fs => r = r' /\ R r fs
  | TStruct ts, VStruct vs =>
      length vs = length ts /\
      (fix go ts := match ts with
       | [] => True
       | (n, t) :: ts' => match bget n vs with Some v => has_type v t | None => False end /\ go ts'
       end) ts
  | _, _ => False
  end.

Lemma has_tuple l ts : has_type (VTuple l) (TTuple ts) <-> Forall2 has_type l ts.
Proof.
  cbn. revert l; induction ts as [|t ts IH]; intros [|v l]; cbn.
  - split; [constructor|done].
  - split; [done|]. by inversion 1.
  - split; [done|]. by inversion 1.
  - rewrite Forall2_cons, <-IH. done.
Qed.
Lemma has_struct vs ts : has_type (VStruct vs) (TStruct ts) <->
  length vs = length ts /\ Forall (fun nt => exists v, bget (fst nt) vs = Some v /\ has_type v (snd nt)) ts.
Proof.
  cbn. apply and_iff_compat_l. induction ts as [|[n t] ts IH]; [split; [constructor|done]|].
  rewrite Forall_cons, <-IH. cbn. destruct (bget n vs); naive_solver.
Qed.
End typed_values.

(** The interpreter's check of arguments and stored values establishes typing
    for values without rows; the decimals of a Rust value are valid. *)
Fixpoint row_free (t : Type_) : bool :=
  match t with
  | TRow _ => false
  | TOption t | TSet t => row_free t
  | TTuple ts => forallb row_free ts
  | TStruct fs => forallb (fun '(_, t) => row_free t) fs
  | _ => true
  end.

Lemma try_each_ok {A} (f : A -> CoreResult unit) l : try_each f l = Ok tt <-> Forall (fun x => f x = Ok tt) l.
Proof.
  induction l as [|x l IH]; cbn; [split; [constructor|done]|]. rewrite Forall_cons, <-IH.
  destruct (f x) as [[]| |]; cbn; naive_solver.
Qed.

Lemma check_type_has R ty : row_free ty = true -> forall v, value_ok v -> check_type v ty = Ok tt -> has_type R v ty.
Proof.
  induction ty as [ty Hb|ty IH|ty IH|ts IH|fs IH] using Type_nested_ind; intros Hr v Hv H.
  - destruct ty; try done; destruct v; try done; cbn [check_type has_type] in H |- *; try (case_match; [done|lia]).
    + inversion Hv; subst. apply (check_decimal d p s) in H as [-> ->]. done.
    + destruct (Z.eqb_spec enum_id e); [done|discriminate].
  - destruct v; try done; cbn in H |- *. inversion Hv; subst. by apply IH.
  - destruct v as [| | | | | | | | | |l| | | |]; try done. inversion Hv as [| | | | | | | | | |? _ Hl| | | |]; subst.
    cbn in H |- *. apply try_each_ok in H. rewrite Forall_forall in *. eauto.
  - destruct v as [| | | | | | | | | | |l| | |]; try done. inversion Hv as [| | | | | | | | | | |? Hl| | |]; subst.
    apply check_tuple in H. apply has_tuple. cbn in Hr. clear Hv. revert IH Hr Hl.
    induction H as [|v t l ts Hv _ IHl]; intros IH Hr Hl; constructor; inversion IH; inversion Hl; subst;
      apply andb_true_iff in Hr as [? ?]; auto.
  - destruct v as [| | | | | | | | | | | | |vs|]; try done. inversion Hv as [| | | | | | | | | | | | |? Hs _ Hl|]; subst.
    apply has_struct. cbn in H, Hr. destruct (Nat.eqb_spec (length vs) (length fs)); [|done]. cbn in H. split; [done|].
    apply try_each_ok in H. rewrite forallb_forall in Hr. rewrite Forall_forall in *. intros [n t] Hi.
    specialize (H _ Hi). specialize (IH _ Hi). cbn in H, IH |- *. destruct (bget n vs) as [v|] eqn:E; [|done].
    exists v. split; [done|]. apply IH; [apply (Hr (n, t)); by apply list_elem_of_In| |done].
    rewrite Forall_forall in Hl. by apply (Hl (n, v)), bget_In.
Qed.

Lemma has_type_mono (R R' : Z -> bmap Value -> Prop) ty : (forall r fs, R r fs -> R' r fs) ->
  forall v, has_type R v ty -> has_type R' v ty.
Proof.
  intros HR. induction ty as [ty Hb|ty IH|ty IH|ts IH|fs IH] using Type_nested_ind; intros v H.
  - destruct ty; try done; destruct v; try done. destruct H; split; auto.
  - destruct v; try done. by apply IH.
  - destruct v; try done. cbn in *. eapply Forall_impl; [exact H|]. exact IH.
  - destruct v; try done. apply has_tuple in H. apply has_tuple.
    induction H; constructor; inversion IH; subst; auto.
  - destruct v; try done. apply has_struct in H as [Hl H]. apply has_struct. split; [done|].
    rewrite Forall_forall in *. intros nt Hi. destruct (H nt Hi) as (v & Hv & Ht). exists v. split; [done|].
    by apply (IH nt Hi).
Qed.

(** ** Typed states *)
Section typing.
Context (m : ModuleIR).

(** Stored values hold no rows. *)
Definition stored (v : Value) (ty : Type_) : Prop := has_type (fun _ _ => False) v ty.
Definition row_typed (rec : RecordIR) (row : Row) : Prop :=
  forall f, f ∈ r_fields rec -> exists v, oget (f_id f) row = Some v /\ stored v (f_ty f).
Definition state_typed (st : State) : Prop :=
  forall r k row, St.get st r k = Some row -> exists rec, module_record m r = Ok rec /\ row_typed rec row.

Definition fields_typed (r : Z) (fs : bmap Value) : Prop :=
  exists rec, module_record m r = Ok rec /\
    forall f, f ∈ r_fields rec -> exists v, bget (f_name f) fs = Some v /\ stored v (f_ty f).
Definition vtyped (v : Value) (ty : Type_) : Prop := has_type fields_typed v ty.

Lemma stored_typed v ty : stored v ty -> vtyped v ty.
Proof. by apply has_type_mono. Qed.

(** The names of the fields of a record are distinct. *)
Definition module_names_ok : Prop := forall r rec, module_record m r = Ok rec -> NoDup (map f_name (r_fields rec)).

Lemma row_fields (row : Row) (fs0 : bmap Value) : forall l, NoDup (map f_name l) -> bsorted fs0 ->
  let fs := fold_left (fun fs f => match oget (f_id f) row with
                                   | Some v => binsert (f_name f) v fs
                                   | None => fs
                                   end) l fs0 in
  (forall n, n ∉ map f_name l -> bget n fs = bget n fs0) /\
  (forall f v, f ∈ l -> oget (f_id f) row = Some v -> bget (f_name f) fs = Some v).
Proof.
  intros l. revert fs0; induction l as [|g l IH]; intros fs0 Hn Hs; cbn; [split; [done|set_solver]|].
  apply NoDup_cons in Hn as [Hg Hn].
  set (fs1 := match oget (f_id g) row with Some v => binsert (f_name g) v fs0 | None => fs0 end).
  assert (Hs1 : bsorted fs1) by (unfold fs1; case_match; auto).
  destruct (IH fs1 Hn Hs1) as [H1 H2]. split.
  - intros n [Hng Hnl]%not_elem_of_cons. rewrite H1 by done. unfold fs1. case_match; [|done].
    by rewrite bget_insert_ne.
  - intros f v [->|Hf]%elem_of_cons Hv; [|by apply H2]. rewrite H1 by done. unfold fs1. rewrite Hv.
    apply bget_insert_eq.
Qed.

Lemma row_value_typed st r k row : module_names_ok -> state_typed st -> St.get st r k = Some row ->
  exists v, row_value m r row = Ok v /\ vtyped v (TRow r).
Proof.
  intros Hn Hst Hg. destruct (Hst r k row Hg) as (rec & Hr & Hrow). unfold row_value. rewrite Hr. eexists. split; [done|].
  split; [done|]. exists rec. split; [done|]. intros f Hf. destruct (Hrow f Hf) as (v & Hv & Ht). exists v. split; [|done].
  by apply (row_fields row [] (r_fields rec) (Hn r rec Hr)).
Qed.

(** ** Operators *)
Definition arith_error (e : ErrorCode) : Prop := e = NumericOverflow \/ e = UnsupportedEffect.

(** [good Q E o]: no panic, errors in [E], values in [Q]. *)
Definition good {A} (Q : A -> Prop) (E : ErrorCode -> Prop) (o : CoreResult A) : Prop :=
  match o with Ok a => Q a | Err e => E e | Panic => False end.

Lemma good_bind {A B} (P : A -> Prop) (Q : B -> Prop) E (o : CoreResult A) (f : A -> CoreResult B) :
  good P E o -> (forall a, P a -> good Q E (f a)) -> good Q E (o ≫= f).
Proof. destruct o; cbn; auto. Qed.
Lemma good_weaken {A} (P Q : A -> Prop) (E E' : ErrorCode -> Prop) o :
  good P E o -> (forall a, P a -> Q a) -> (forall e, E e -> E' e) -> good Q E' o.
Proof. destruct o; cbn; auto. Qed.

Lemma new_good c p s : dec_type_ok p s ->
  good (fun d => dec_valid d /\ precision d = p /\ scale d = s) (fun e => e = NumericOverflow) (new c p s).
Proof.
  intros [Hp Hs]. destruct (new c p s) as [d|e|] eqn:E.
  - apply new_ok in E as [-> ?]; [|lia..]. done.
  - unfold new, check_range in E. cbn [precision coefficient] in E. rewrite pow10_at_ok in E by lia.
    destruct (Z.eqb_spec p 0); [lia|]. destruct (Z.ltb_spec 38 p); [lia|]. destruct (Z.ltb_spec p s); [lia|]. cbn in E.
    destruct (_ || _); cbn in E; [by injection E as <-|done].
  - by eapply new_no_panic; [|exact E]; lia.
Qed.

Lemma int_of_good d : dec_valid d -> good (fun _ => True) arith_error (int_of d).
Proof.
  intros [[Hp Hs] _]. unfold int_of, checked_i. replace (in_i 128 (10 ^ scale d)) with true; [done|]. symmetry.
  apply in_i_spec. pose proof (pow10_mono (scale d) 38 ltac:(lia)). pose proof pow38_i128.
  pose proof (Z.pow_nonneg 10 (scale d) ltac:(lia)). lia.
Qed.

Definition like (d d' : Decimal.Decimal) : Prop := dec_valid d' /\ precision d' = precision d /\ scale d' = scale d.

Lemma result_good d z : dec_valid d ->
  good (like d) arith_error (c ← ok_or (checked_i 128 z) NumericOverflow; new c (precision d) (scale d)).
Proof.
  intros [Hd _]. destruct (checked_i 128 z); cbn; [|by left].
  eapply good_weaken; [by apply new_good|done|]. by left.
Qed.

Definition is_arith (op : BinOp) : bool := match op with BAdd | BSub | BMul => true | _ => false end.

Lemma same_type_eq a b : precision a = precision b -> scale a = scale b -> same_type a b = Ok tt.
Proof. intros Hp Hs. unfold same_type. by rewrite Hp, Hs, !Z.eqb_refl. Qed.

Lemma arith_good op a b ty : is_arith op = true -> is_numeric ty = true -> vtyped a ty -> vtyped b ty ->
  good (fun v => vtyped v ty) arith_error (checked_arith op a b).
Proof.
  intros Ho Hn Ha Hb. destruct ty; try done; destruct a as [| | | | | |d1| | | | | | | |]; try done;
    destruct b as [| | | | | |d2| | | | | | | |]; try done.
  - destruct op; try done; cbn; (destruct (checked_i 64 _); cbn; [done|by left]).
  - destruct op; try done; cbn; (destruct (checked_u 64 _); cbn; [done|by left]).
  - destruct Ha as (Hv1 & Hp1 & Hs1), Hb as (Hv2 & Hp2 & Hs2).
    assert (Hl : forall d d', d = d1 \/ d = d2 -> like d d' -> good (fun v => vtyped v (TDecimal p s)) arith_error (Ok (VDecimal d')))
      by (intros d d' [->| ->] (Hv & Hp & Hs); split_and!; [done|congruence..]).
    destruct op; try done; cbn [checked_arith].
    + unfold checked_add. rewrite same_type_eq by congruence. eapply good_bind; [by apply result_good|]. eauto.
    + unfold checked_sub. rewrite same_type_eq by congruence. eapply good_bind; [by apply result_good|]. eauto.
    + apply good_bind with (P := fun d' => like d1 d' \/ like d2 d'); [|intros d' []; eauto]. unfold decimal_mul.
      eapply good_bind; [by apply int_of_good|]. intros ky _. eapply good_bind; [by apply int_of_good|]. intros kx _.
      destruct ky; [eapply good_weaken; [by apply (result_good d1)|by left|done]|].
      destruct kx; [eapply good_weaken; [by apply (result_good d2)|by right|done]|]. by right.
Qed.

Lemma zero_of_good ty : is_numeric ty = true -> type_ok ty = true -> good (fun v => vtyped v ty) (fun _ => False) (zero_of ty).
Proof.
  intros Hn Ht. destruct ty; try done. cbn in Ht |- *. rewrite !andb_true_iff, !Z.leb_le in Ht.
  unfold Decimal.zero. assert (Hd : new 0 p s = Ok (MkDecimal 0 p s)).
  { apply new_ok; [lia..|]. split; [done|]. split; [cbn; unfold dec_type_ok; lia|]. cbn.
    pose proof (Z.pow_pos_nonneg 10 p ltac:(lia) ltac:(lia)). lia. }
  rewrite Hd. cbn. split; [|done]. apply new_ok in Hd; [|lia..]. by destruct Hd.
Qed.

Definition is_option (t : Type_) : bool := match t with TOption _ => true | _ => false end.

Lemma compare_good c a b ty : is_comparable ty = true -> vtyped a ty -> vtyped b ty ->
  good (fun _ => True) (fun e => e = TypeMismatch /\ is_option ty = true) (compare c a b).
Proof.
  intros Hc Ha Hb. unfold compare. destruct ty; try done; destruct a; try done; destruct b; try done.
  destruct Ha as (_ & Hp1 & Hs1), Hb as (_ & Hp2 & Hs2). cbn. by rewrite Hp1, Hp2, Hs1, Hs2, !Z.eqb_refl.
Qed.

(** ** Typed expressions *)
Definition tenv : Type := Z -> option Type_.
Definition extend (var : Z) (t : Type_) (G : tenv) : tenv := fun b => if b =? var then Some t else G b.

Context (params : list Type_) (gk : option Type_).

(** The types of literals hold their values. *)
Inductive typed : tenv -> ExprIR -> Prop :=
| T_lit G ty v : vtyped v ty -> typed G (MkExpr ty (ELit v))
| T_param G ty i : params !! Z.to_nat i = Some ty -> typed G (MkExpr ty (EParam i))
| T_binding G ty b : G b = Some ty -> typed G (MkExpr ty (EBinding b))
| T_group G ty : gk = Some ty -> typed G (MkExpr ty EGroupKey)
| T_field G base fid name r rec f : typed G base -> expr_ty base = TRow r -> module_record m r = Ok rec ->
    f ∈ r_fields rec -> f_name f = name -> typed G (MkExpr (f_ty f) (EField base fid name))
| T_struct_field G base name fs ty : typed G base -> expr_ty base = TStruct fs -> (name, ty) ∈ fs ->
    typed G (MkExpr ty (EStructField base name))
| T_lookup G r key s : typed G key -> typed G (MkExpr (TRow r) (ERowLookup r key s))
| T_exists G r key s : typed G key -> typed G (MkExpr TBool (EExists r key s))
| T_tuple G items : Forall (typed G) items -> typed G (MkExpr (TTuple (map expr_ty items)) (ETuple items))
| T_struct G fields : Forall (fun f => typed G (snd f)) fields -> NoDup (map fst fields) ->
    typed G (MkExpr (TStruct (map (fun f => (fst f, expr_ty (snd f))) fields)) (EStruct fields))
| T_set G t items : Forall (fun e => typed G e /\ expr_ty e = t) items -> typed G (MkExpr (TSet t) (ESetLit items))
| T_some G e : typed G e -> typed G (MkExpr (TOption (expr_ty e)) (ESomeOf e))
| T_neg G e : typed G e -> (expr_ty e = TI64 \/ exists p s, expr_ty e = TDecimal p s) ->
    typed G (MkExpr (expr_ty e) (ENeg e))
| T_not G e : typed G e -> expr_ty e = TBool -> typed G (MkExpr TBool (ENot e))
| T_logic G op l r : op = BAnd \/ op = BOr -> typed G l -> typed G r -> expr_ty l = TBool -> expr_ty r = TBool ->
    typed G (MkExpr TBool (EBin op l r))
| T_arith G op l r : is_arith op = true -> typed G l -> typed G r -> expr_ty r = expr_ty l ->
    is_numeric (expr_ty l) = true -> typed G (MkExpr (expr_ty l) (EBin op l r))
| T_cmp G c l r : typed G l -> typed G r -> expr_ty r = expr_ty l -> is_comparable (expr_ty l) = true ->
    typed G (MkExpr TBool (EBin (BCmp c) l r))
| T_in G l r : typed G l -> typed G r -> expr_ty r = TSet (expr_ty l) -> typed G (MkExpr TBool (EBin BIn l r))
| T_is_none G e : typed G e -> typed G (MkExpr TBool (EIsNone e))
| T_is_some G e : typed G e -> typed G (MkExpr TBool (EIsSome e))
| T_unwrap G v d : typed G v -> typed G d -> expr_ty v = TOption (expr_ty d) -> typed G (MkExpr (expr_ty d) (EUnwrapOr v d))
| T_size G e t : typed G e -> expr_ty e = TSet t -> typed G (MkExpr TU64 (ESize e))
| T_sum G var set value t : typed G set -> expr_ty set = TSet t -> G var = None -> typed (extend var t G) value ->
    is_numeric (expr_ty value) = true -> type_ok (expr_ty value) = true ->
    typed G (MkExpr (expr_ty value) (ESumOver var set value)).

(** Comparisons of options, which the interpreter refuses when only one side is [None]. *)
Fixpoint compares_options (e : ExprIR) : bool :=
  match e with
  | MkExpr _ n =>
    match n with
    | ELit _ | EParam _ | EBinding _ | EGroupKey => false
    | EField e _ _ | EStructField e _ | ERowLookup _ e _ | EExists _ e _ | ESomeOf e | ENeg e | ENot e
    | EIsNone e | EIsSome e | ESize e => compares_options e
    | ETuple l | ESetLit l => existsb compares_options l
    | EStruct l => existsb (fun '(_, e) => compares_options e) l
    | EBin (BCmp _) e1 e2 => is_option (expr_ty e1) || compares_options e1 || compares_options e2
    | EBin _ e1 e2 | EUnwrapOr e1 e2 | ESumOver _ e1 e2 => compares_options e1 || compares_options e2
    end
  end.

Definition program_error (e : ErrorCode) : Prop := e = NumericOverflow \/ e = MissingRecord \/ e = UnsupportedEffect.

Section soundness.
Context (args : list Value) (group_key : option Value) (pre cand : State).
Context (Hnames : module_names_ok) (Hpre : state_typed pre) (Hcand : state_typed cand).
Context (Hargs : Forall2 vtyped args params).
Context (Hgk : forall ty, gk = Some ty -> exists v, group_key = Some v /\ vtyped v ty).
Context (co : bool).
#[local] Notation allowed := (fun e => program_error e \/ (e = TypeMismatch /\ co = true)).

Definition env_ok (G : tenv) (env : Bindings) : Prop :=
  osorted env /\ forall b ty, G b = Some ty -> exists v, oget b env = Some v /\ vtyped v ty.

Definition sound {A} (G : tenv) (Q : A -> Prop) (c : stM Bindings A) : Prop := forall env, env_ok G env ->
  match c env with
  | (Ok a, env') => Q a /\ env_ok G env'
  | (Err e, _) => allowed e
  | (Panic, _) => False
  end.

Lemma sound_ret {A} G (Q : A -> Prop) a : Q a -> sound G Q (mret a).
Proof. by intros Ha env He. Qed.
Lemma sound_lift {A} G (Q : A -> Prop) o : good Q allowed o -> sound G Q (lift o).
Proof. intros Ho env He. unfold lift. destruct o; cbn in Ho; done. Qed.
Lemma sound_fail {A} G (Q : A -> Prop) e : allowed e -> sound G Q (fail e).
Proof. by intros Ha env He. Qed.
Lemma sound_bind {A B} G (P : A -> Prop) (Q : B -> Prop) c k :
  sound G P c -> (forall a, P a -> sound G Q (k a)) -> sound G Q (c ≫= k).
Proof.
  intros Hc Hk env He. unfold mbind, stM_bind. specialize (Hc env He). destruct (c env) as [[a| |] env']; [|done..].
  destruct Hc as [Ha He']. by apply Hk.
Qed.
Lemma sound_weaken {A} G (P Q : A -> Prop) c : sound G P c -> (forall a, P a -> Q a) -> sound G Q c.
Proof. intros Hc H env He. specialize (Hc env He). destruct (c env) as [[]?]; naive_solver. Qed.
Lemma sound_collect {A B} G (P : A -> B -> Prop) (f : A -> stM Bindings B) l :
  Forall (fun x => sound G (P x) (f x)) l -> sound G (fun ys => Forall2 P l ys) (st_collect f l).
Proof.
  induction 1 as [|x l Hx _ IH]; cbn; [by apply sound_ret; constructor|].
  eapply sound_bind; [exact Hx|]. intros y Hy. eapply sound_bind; [exact IH|]. intros ys Hys.
  apply sound_ret. by constructor.
Qed.
Lemma sound_fold {A B} G (P : list A -> B -> Prop) (f : A -> B -> stM Bindings B) l : forall done acc,
  P done acc -> (forall d x l' acc, done ++ l = d ++ x :: l' -> P d acc -> sound G (P (d ++ [x])) (f x acc)) ->
  sound G (P (done ++ l)) (st_fold f l acc).
Proof.
  induction l as [|x l IH]; intros done acc Hp Hf; cbn; [apply sound_ret; by rewrite app_nil_r|].
  eapply sound_bind; [by eapply Hf|]. intros acc' Ha. specialize (IH (done ++ [x]) acc' Ha).
  rewrite <-app_assoc in IH. apply IH. intros d y l' acc2 E. apply Hf with (l' := l'). done.
Qed.

Lemma allowed_arith {A} (Q : A -> Prop) o : good Q arith_error o -> good Q allowed o.
Proof. intros H. eapply good_weaken; [exact H|done|]. unfold arith_error, program_error. naive_solver. Qed.

#[local] Notation ev e := (eval m args group_key pre cand e).

Lemma eval_bin_bool G op l r : op = BAnd \/ op = BOr ->
  sound G (fun v => vtyped v TBool) l -> sound G (fun v => vtyped v TBool) r ->
  sound G (fun v => vtyped v TBool) (eval_bin op l r).
Proof.
  intros Ho Hl Hr.
  assert (Hb : forall v, vtyped v TBool -> good (fun _ => True) (fun e => program_error e \/ (e = TypeMismatch /\ co = true)) (as_bool v))
    by (by intros []).
  destruct Ho as [->| ->]; cbn; (eapply sound_bind; [exact Hl|]); intros v Hv;
    (eapply sound_bind; [apply sound_lift, Hb, Hv|]); intros [] _; try (by apply sound_ret);
    (eapply sound_bind; [exact Hr|]); intros w Hw; (eapply sound_bind; [apply sound_lift, Hb, Hw|]); intros c _;
    by apply sound_ret.
Qed.

Lemma pick_typed s : state_typed (pick pre cand s).
Proof. unfold pick. by case_bool_decide. Qed.

Lemma eval_struct_sound G fields :
  Forall (fun f => sound G (fun v => vtyped v (expr_ty (snd f))) (ev (snd f))) fields -> NoDup (map fst fields) ->
  sound G (fun v => vtyped v (TStruct (map (fun f => (fst f, expr_ty (snd f))) fields)))
    (fs ← st_fold (fun '(n, fe) fs => v ← ev fe; mret (binsert n v fs)) fields []; mret (VStruct fs)).
Proof.
  intros Hf Hn.
  set (P := fun (d : list (bytes * ExprIR)) (fs : bmap Value) => bsorted fs /\ length fs = length d /\
    (forall n, n ∉ map fst d -> bget n fs = None) /\
    Forall (fun f => exists v, bget (fst f) fs = Some v /\ vtyped v (expr_ty (snd f))) d).
  eapply sound_bind; [apply (sound_fold G P _ fields [] [])|].
  - by repeat split.
  - intros d [n e] l' fs E (Hs & Hl & Ho & Ha). cbn in E.
    assert (He : sound G (fun v => vtyped v (expr_ty e)) (ev e)).
    { rewrite Forall_forall in Hf. apply (Hf (n, e)). rewrite E. set_solver. }
    rewrite E, map_app in Hn. apply NoDup_app in Hn as (_ & Hd & _).
    assert (Hnd : n ∉ map fst d) by (intros Hi; apply (Hd n Hi); cbn; set_solver).
    eapply sound_bind; [exact He|]. intros v Hv. apply sound_ret. split_and!; [by apply binsert_sorted|..].
    + rewrite length_app. cbn. rewrite <-Hl. clear -Hs Hnd Ho. specialize (Ho n Hnd).
      induction fs as [|[k x] fs IH]; cbn in *; [done|]. destruct (bytes_cmp n k); cbn; [done|lia|].
      rewrite IH; [lia|by destruct Hs|done].
    + intros n'. rewrite map_app, not_elem_of_app. cbn. intros [Hi Hne]. rewrite bget_insert_ne; [auto|done|set_solver].
    + apply Forall_app. split; [|constructor; [|constructor]]; cbn.
      * rewrite Forall_forall in Ha |- *. intros [n' e'] Hi. destruct (Ha _ Hi) as (v' & Hv' & Ht'). exists v'. split; [|done].
        cbn in *. rewrite bget_insert_ne; [done|done|]. intros ->. apply Hnd. apply list_elem_of_fmap. by exists (n, e').
      * exists v. split; [apply bget_insert_eq|done].
  - intros fs (Hs & Hl & _ & Ha). apply sound_ret. apply has_struct. split; [by rewrite length_map|].
    rewrite Forall_fmap. eapply Forall_impl; [exact Ha|]. done.
Qed.

(** The loop of a sum runs with the variable bound to an element of the set. *)
Lemma sum_sound G var t ty value items :
  G var = None -> is_numeric ty = true -> type_ok ty = true -> Forall (fun v => vtyped v t) items ->
  sound (extend var t G) (fun v => vtyped v ty) (ev value) ->
  sound G (fun v => vtyped v ty)
    (zero ← lift (zero_of ty);
     acc ← st_fold (fun it acc => update_st (oinsert var it) ≫= fun _ => v ← ev value; lift (checked_arith BAdd acc v)) items zero;
     update_st (oremove var) ≫= fun _ => mret acc).
Proof.
  intros Hvar Hn Ht Hi Hv. eapply sound_bind.
  { apply sound_lift. eapply good_weaken; [by apply zero_of_good|done|done]. }
  intros zero Hz env He. unfold mbind, stM_bind at 1.
  assert (Hloop : forall items acc env, Forall (fun v => vtyped v t) items -> vtyped acc ty -> env_ok G env ->
    match st_fold (fun it acc => update_st (oinsert var it) ≫= fun _ => v ← ev value; lift (checked_arith BAdd acc v)) items acc env with
    | (Ok a, env') => vtyped a ty /\ env_ok G env'
    | (Err e, _) => program_error e \/ (e = TypeMismatch /\ co = true)
    | (Panic, _) => False
    end).
  { clear items Hi zero Hz env He. induction items as [|it items IH]; intros acc env Hi Ha He; cbn [st_fold]; [done|].
    inversion Hi as [|? ? Hit Hi']; subst. unfold mbind, stM_bind at 1. unfold mbind, stM_bind, update_st at 1.
    assert (He' : env_ok (extend var t G) (oinsert var it env)).
    { destruct He as [Hs He]. split; [auto|]. intros b ty'. unfold extend. destruct (Z.eqb_spec b var) as [->|Hb].
      - intros [= <-]. exists it. by rewrite oget_insert_eq.
      - rewrite oget_insert_ne by done. apply He. }
    specialize (Hv _ He'). destruct (ev value (oinsert var it env)) as [[v| |] env1]; [|done..].
    destruct Hv as [Hv1 [Hs1 He1]]. unfold lift. pose proof (allowed_arith _ _ (arith_good BAdd acc v ty eq_refl Hn Ha Hv1)) as Hg.
    destruct (checked_arith BAdd acc v) as [acc'| |]; cbn in Hg; [|done..]. apply IH; [done..|].
    split; [done|]. intros b ty' Hb. apply He1. unfold extend. destruct (Z.eqb_spec b var) as [->|]; [congruence|done]. }
  specialize (Hloop items zero env Hi Hz He). destruct (st_fold _ _ _ _) as [[a| |] env1]; [|done..].
  destruct Hloop as [Ha [Hs1 He1]]. cbn. split; [done|]. split; [auto|]. intros b ty' Hb.
  rewrite oget_remove_ne; [auto|congruence|done].
Qed.

Lemma missing_allowed : program_error MissingRecord \/ (MissingRecord = TypeMismatch /\ co = true).
Proof. left. right. by left. Qed.

Lemma arg_good i ty : params !! Z.to_nat i = Some ty -> exists v, args !! Z.to_nat i = Some v /\ vtyped v ty.
Proof. intros Hi. destruct (Forall2_lookup_r _ _ _ _ _ Hargs Hi) as (v & Hv & Ht). eauto. Qed.

Lemma neg_good G v ty : ty = TI64 \/ (exists p s, ty = TDecimal p s) -> vtyped v ty ->
  sound G (fun v => vtyped v ty)
    match v with
    | VI64 x => lift (z ← ok_or (checked_i 64 (- x)) NumericOverflow; Ok (VI64 z))
    | VDecimal d => lift (d' ← checked_neg d; Ok (VDecimal d'))
    | _ => fail TypeMismatch
    end.
Proof.
  intros [->|(p & s & ->)] Hv; destruct v; try done; apply sound_lift, allowed_arith.
  - destruct (checked_i 64 _); cbn; [done|by left].
  - destruct Hv as (Hd & Hp & Hs). eapply good_bind; [by apply result_good|]. intros d' (Hv' & Hp' & Hs').
    split_and!; [done|congruence..].
Qed.

(** Splits a subexpression off a condition on the comparisons of the whole. *)
Ltac covered Hco := let H := fresh in intros H; apply Hco; cbn [compares_options]; rewrite ?H, ?orb_true_r; reflexivity.

Lemma covered_list (l : list ExprIR) e : (existsb compares_options l = true -> co = true) -> e ∈ l ->
  compares_options e = true -> co = true.
Proof. intros H Hi He. apply H, existsb_exists. exists e. split; [by apply list_elem_of_In|done]. Qed.

Lemma eval_sound e : forall G, typed G e -> (compares_options e = true -> co = true) ->
  sound G (fun v => vtyped v (expr_ty e)) (ev e).
Proof.
  induction e as [ty n IH] using Expr_ind. intros G Ht Hco.
  inversion Ht as [? ? v Hv|? ? i Hi|? ? b Hb|? ? Hg|? base fid name r rec f Hbt Hbty Hr Hf Hfn|? base name fs ? Hbt Hbty Hfs
    |? r key s Hk|? r key s Hk|? items Hit|? fields Hfl Hnd|? t items Hit|? e He|? e He Hety|? e He Hety
    |? op l r Hop Hl Hr Hlt Hrt|? op l r Hop Hl Hr Hrt Hnum|? c l r Hl Hr Hrt Hcmp|? l r Hl Hr Hrt|? e He|? e He|? v d Hv Hd Hvt
    |? e t He Hety|? var set value t Hs Hst Hfresh Hv Hnum Htok]; subst; cbn [children expr_ty] in *;
    repeat match goal with H : Forall _ (_ :: _) |- _ => apply Forall_cons in H as [? H] end; cbn [eval].
  - by apply sound_ret.
  - destruct (arg_good i ty Hi) as (v & -> & Hv). by apply sound_lift.
  - intros env He. unfold mbind, stM_bind, reads, lift. cbn. destruct (proj2 He b ty Hb) as (v & -> & Hv). done.
  - destruct (Hgk ty Hg) as (v & -> & Hv). by apply sound_lift.
  - eapply sound_bind; [apply H; [done|covered Hco]|]. intros v Hv. rewrite Hbty in Hv. destruct v; try done.
    destruct Hv as (-> & rec' & Hr' & Hfields). rewrite Hr in Hr'. injection Hr' as <-.
    destruct (Hfields f Hf) as (v & -> & Hv). apply sound_lift. by apply stored_typed.
  - eapply sound_bind; [apply H; [done|covered Hco]|]. intros v Hv. rewrite Hbty in Hv. destruct v; try done.
    apply has_struct in Hv as [_ Hv]. rewrite Forall_forall in Hv. destruct (Hv _ Hfs) as (v & Hg & Hvt). cbn in Hg, Hvt.
    rewrite Hg. by apply sound_lift.
  - eapply sound_bind; [apply H; [done|covered Hco]|]. intros k Hkt.
    destruct (St.get (pick pre cand s) r k) as [row|] eqn:E; [|apply sound_fail, missing_allowed].
    destruct (row_value_typed _ r k row Hnames (pick_typed s) E) as (v & -> & Hv). by apply sound_lift.
  - eapply sound_bind; [apply H; [done|covered Hco]|]. intros k Hkt. by apply sound_ret.
  - eapply sound_bind; [apply (sound_collect G (fun e v => vtyped v (expr_ty e)))|].
    + rewrite Forall_forall in IH, Hit |- *. intros e Hi. apply IH; [done|auto|]. by eapply covered_list.
    + intros vs Hvs. apply sound_ret. apply has_tuple. rewrite Forall2_fmap_r. apply Forall2_flip. exact Hvs.
  - apply eval_struct_sound; [|done]. rewrite Forall_fmap in IH. rewrite Forall_forall in IH, Hfl |- *. intros [n e] Hi.
    apply (IH (n, e) Hi); [by apply (Hfl (n, e))|]. intros He. apply Hco. cbn. apply existsb_exists. exists (n, e).
    split; [by apply list_elem_of_In|done].
  - eapply sound_bind; [apply (sound_fold G (fun _ s => Forall (fun v => vtyped v t) s) _ items []); [constructor|]|].
    + intros d e l' acc E Ha. cbn in E. assert (Hi : e ∈ items) by (rewrite E; set_solver).
      rewrite Forall_forall in IH, Hit. destruct (Hit e Hi) as [Het <-]. eapply sound_bind.
      * apply IH; [done..|]. by eapply covered_list.
      * intros v Hv. apply sound_ret. by apply item_insert_Forall.
    + intros vs Hvs. by apply sound_ret.
  - eapply sound_bind; [apply H; [done|covered Hco]|]. intros v Hv. by apply sound_ret.
  - eapply sound_bind; [apply H; [done|covered Hco]|]. intros v Hv. by apply neg_good.
  - eapply sound_bind; [apply H; [done|covered Hco]|]. intros v Hv. rewrite Hety in Hv. destruct v; try done.
  - apply eval_bin_bool; [done| |]; (eapply sound_weaken; [match goal with H : forall G, _ |- _ => apply H end;
      [eassumption|destruct Hop as [->| ->]; covered Hco]|]); intros v; by rewrite ?Hlt, ?Hrt.
  - destruct op; try done; cbn; (eapply sound_bind; [apply H; [done|covered Hco]|]); intros v Hv;
      (eapply sound_bind; [apply H0; [done|covered Hco]|]); intros w Hw; apply sound_lift, allowed_arith;
      rewrite Hrt in Hw; by apply arith_good.
  - cbn. eapply sound_bind; [apply H; [done|covered Hco]|]. intros v Hv.
    eapply sound_bind; [apply H0; [done|covered Hco]|]. intros w Hw. rewrite Hrt in Hw.
    eapply sound_bind; [apply (sound_lift G (fun _ => True))|by intros; apply sound_ret].
    eapply good_weaken; [by apply (compare_good c v w _ Hcmp)|done|]. intros e [-> Ho]. right. split; [done|].
    apply Hco. cbn. by rewrite Ho.
  - cbn. eapply sound_bind; [apply H; [done|covered Hco]|]. intros v Hv.
    eapply sound_bind; [apply H0; [done|covered Hco]|]. intros w Hw. rewrite Hrt in Hw. by destruct w.
  - eapply sound_bind; [apply H; [done|covered Hco]|]. intros v Hv. by apply sound_ret.
  - eapply sound_bind; [apply H; [done|covered Hco]|]. intros v Hv. by apply sound_ret.
  - eapply sound_bind; [apply H; [done|covered Hco]|]. intros w Hw. rewrite Hvt in Hw. destruct w; try done.
    apply H0; [done|covered Hco].
  - eapply sound_bind; [apply H; [done|covered Hco]|]. intros v Hv. rewrite Hety in Hv. by destruct v.
  - eapply sound_bind; [apply H; [done|covered Hco]|]. intros v Hv'. rewrite Hst in Hv'. destruct v; try done.
    apply (sum_sound G var t); [done..|]. apply H0; [done|covered Hco].
Qed.
End soundness.
End typing.
