(* ===== verification/LangLower.v ===== *)
(** * Lowering of expressions
      (src/crates/carolina-lang/src/lower.rs: names, scopes and [lower_expr];
      the expressions of ast.rs)

    The type checker of the language: it resolves names, infers types from the
    expected type downwards and the operands upwards, and emits the typed
    intermediate representation.  The theorems of this file tie it to
    the interpreter: whatever it accepts evaluates without panicking to a value
    of the type it inferred, or to an error a program can cause, and comparing
    an option with [None] is accepted but refused when the option holds a value.

    Source spans only serve the texts of errors and are dropped. *)

From S2P Require Import Prelude Errors ByteMap StateMonad OrdMap CanonInt Decimal LangTypes LangIr Interp InterpEval LangTyping.
From stdpp Require Import sorting.
#[local] Open Scope Z_scope.

(** ** Source expressions *)
Inductive Expr : Type :=
| XIntLit (v : Z)
| XDecimalLit (text : bytes)
| XStrLit (s : bytes)
| XBoolLit (b : bool)
| XUuidLit (u : bytes)
| XBytesLit (b : bytes)
| XUnit
| XNone
| XSome (inner : Expr)
| XVar (name : bytes)
| XEnumVariant (enum_name variant : bytes)
| XField (base : Expr) (field : bytes)
| XRowLookup (record : bytes) (key : Expr)
| XExists (record : bytes) (key : Expr)
| XTuple (items : list Expr)
| XStruct (fields : list (bytes * Expr))
| XSetLit (items : list Expr)
| XNeg (inner : Expr)
| XNot (inner : Expr)
| XBin (op : BinOp) (lhs rhs : Expr)
| XIsNone (inner : Expr)
| XIsSome (inner : Expr)
| XUnwrapOr (value default : Expr)
| XSize (inner : Expr)
| XSumOver (var : bytes) (set value : Expr).

(** ** Names *)
Record RecordInfo : Type := MkRecordInfo {
  ri_id : Z; ri_name : bytes; ri_immutable : bool; ri_fields : list (bytes * Z * Type_); ri_pk : Z; ri_pk_type : Type_;
}.
Definition ri_field (r : RecordInfo) (name : bytes) : option (Z * Type_) :=
  '(_, id, t) ← List.find (fun '(n, _, _) => bool_decide (n = name)) (ri_fields r); Some (id, t).
Definition ri_field_by_id (r : RecordInfo) (id : Z) : option (bytes * Type_) :=
  '(n, _, t) ← List.find (fun '(_, i, _) => i =? id) (ri_fields r); Some (n, t).
Definition row_type (r : RecordInfo) : Type_ := TRow (ri_id r).

Record EnumInfo : Type := MkEnumInfo { ei_id : Z; ei_variants : list bytes }.
Record OpSig : Type := MkOpSig { os_id : Z; os_params : list (bytes * Type_) }.
Record Env : Type := MkEnv {
  en_records : bmap RecordInfo; en_enums : bmap EnumInfo; en_resources : bmap ResourceIR; en_ops : bmap OpSig;
}.
Definition env_record (env : Env) (name : bytes) : CoreResult RecordInfo := ok_or (bget name (en_records env)) MissingRecord.
(** [.values().find(|r| r.id == id).expect("record id")] *)
Definition record_by_id (env : Env) (id : Z) : CoreResult RecordInfo :=
  match List.find (fun r => ri_id r =? id) (map snd (en_records env)) with Some r => Ok r | None => Panic end.

Inductive Sym : Type := SParam (i : Z) (t : Type_) | SBinding (b : Z) (t : Type_) | SGroupKey (t : Type_).
Definition scope_lookup (syms : list (bytes * Sym)) (name : bytes) : option Sym :=
  snd <$> List.find (fun s => bool_decide (fst s = name)) (rev syms).

Record Ctx : Type := MkCtx {
  cx_syms : list (bytes * Sym);
  cx_state : StateRef;
  cx_next_binding : Z;
  cx_lookups : list (Z * ExprIR * Purpose);
  cx_bindings_used : list Z;
  cx_depth : Z;
}.
Definition Ctx_new (s : StateRef) : Ctx := MkCtx [] s 0 [] [] 0.

Definition with_syms (f : list (bytes * Sym) -> list (bytes * Sym)) (c : Ctx) : Ctx :=
  MkCtx (f (cx_syms c)) (cx_state c) (cx_next_binding c) (cx_lookups c) (cx_bindings_used c) (cx_depth c).
Definition with_next (n : Z) (c : Ctx) : Ctx :=
  MkCtx (cx_syms c) (cx_state c) n (cx_lookups c) (cx_bindings_used c) (cx_depth c).
Definition with_lookup (l : Z * ExprIR * Purpose) (c : Ctx) : Ctx :=
  MkCtx (cx_syms c) (cx_state c) (cx_next_binding c) (cx_lookups c ++ [l]) (cx_bindings_used c) (cx_depth c).
Definition with_used (b : Z) (c : Ctx) : Ctx :=
  MkCtx (cx_syms c) (cx_state c) (cx_next_binding c) (cx_lookups c) (sinsert b (cx_bindings_used c)) (cx_depth c).
Definition with_depth (d : Z) (c : Ctx) : Ctx :=
  MkCtx (cx_syms c) (cx_state c) (cx_next_binding c) (cx_lookups c) (cx_bindings_used c) d.

Definition fresh_binding : stM Ctx Z :=
  b ← reads cx_next_binding;
  n ← lift (uadd 32 b 1);
  update_st (with_next n) ≫= fun _ => mret b.

(** ** Equality of types *)
Section eqb_list.
Context {A : Type} (f : A -> A -> bool).
Fixpoint list_eqb (l r : list A) : bool :=
  match l, r with
  | [], [] => true
  | x :: l', y :: r' => f x y && list_eqb l' r'
  | _, _ => false
  end.
End eqb_list.

(** The derived [PartialEq] of [Type]. *)
Fixpoint type_eqb (a b : Type_) : bool :=
  match a, b with
  | TBool, TBool | TI64, TI64 | TU64, TU64 | TUuid, TUuid | TUnit, TUnit => true
  | TBytes x, TBytes y | TString x, TString y | TEnum x, TEnum y | TRow x, TRow y => x =? y
  | TDecimal p s, TDecimal p' s' => (p =? p') && (s =? s')
  | TOption x, TOption y | TSet x, TSet y => type_eqb x y
  | TTuple x, TTuple y => list_eqb type_eqb x y
  | TStruct x, TStruct y => list_eqb (fun '(n, t) '(n', t') => bool_decide (n = n') && type_eqb t t') x y
  | _, _ => false
  end.

(** ** Lowering *)
Definition lit_expr (ty : Type_) (v : Value) : ExprIR := MkExpr ty (ELit v).
Definition is_lit (e : ExprIR) : bool := match expr_node e with ELit _ => true | _ => false end.

(** The shell of [lower_expr] around [lower_expr_inner]: the depth counter and
    the check against the expected type. *)
Definition checked_lower (expected : option Type_) (inner : stM Ctx ExprIR) : stM Ctx ExprIR := fun c =>
  let c1 := with_depth (cx_depth c + 1) c in
  if 128 <? cx_depth c1 then (Err ResourceLimit, c1)
  else
    let '(r, c2) := inner c1 in
    let c3 := with_depth (cx_depth c2 - 1) c2 in
    match r with
    | Ok ir => match expected with
               | Some t => if type_eqb (expr_ty ir) t then (Ok ir, c3) else (Err TypeMismatch, c3)
               | None => (Ok ir, c3)
               end
    | Err e => (Err e, c3)
    | Panic => (Panic, c3)
    end.

Definition lower_int (v : Z) (expected : option Type_) : CoreResult ExprIR :=
  match expected with
  | Some TU64 => u ← ok_or (checked_u 64 v) NumericOverflow; Ok (lit_expr TU64 (VU64 u))
  | Some (TDecimal p s) => d ← parse (dec_text v) p s; Ok (lit_expr (TDecimal p s) (VDecimal d))
  | _ => i ← ok_or (checked_i 64 v) NumericOverflow; Ok (lit_expr TI64 (VI64 i))
  end.
Definition lower_decimal (text : bytes) (expected : option Type_) : CoreResult ExprIR :=
  match expected with
  | Some (TDecimal p s) => d ← parse text p s; Ok (lit_expr (TDecimal p s) (VDecimal d))
  | _ => Err InvalidDecimal
  end.
Definition lower_str (s : bytes) (expected : option Type_) : CoreResult ExprIR :=
  match expected with
  | Some (TString n) =>
      if n <? Z.of_nat (length s) then Err TypeMismatch else Ok (lit_expr (TString n) (VStr s))
  | _ => Ok (lit_expr (TString (wrap_u 32 (Z.of_nat (length s)))) (VStr s))
  end.
Definition lower_bytes (b : bytes) (expected : option Type_) : CoreResult ExprIR :=
  match expected with
  | Some (TBytes n) =>
      if n <? Z.of_nat (length b) then Err TypeMismatch else Ok (lit_expr (TBytes n) (VBytes b))
  | _ => Ok (lit_expr (TBytes (wrap_u 32 (Z.of_nat (length b)))) (VBytes b))
  end.

Definition lower_var (name : bytes) : stM Ctx ExprIR :=
  c ← reads (fun c => c);
  match scope_lookup (cx_syms c) name with
  | Some (SParam i t) => mret (MkExpr t (EParam i))
  | Some (SBinding b t) => update_st (with_used b) ≫= fun _ => mret (MkExpr t (EBinding b))
  | Some (SGroupKey t) => mret (MkExpr t EGroupKey)
  | None => fail MissingRecord
  end.

Definition lower_enum (env : Env) (enum_name variant : bytes) : CoreResult ExprIR :=
  info ← ok_or (bget enum_name (en_enums env)) TypeMismatch;
  idx ← ok_or (position variant (ei_variants info)) TypeMismatch;
  Ok (lit_expr (TEnum (ei_id info)) (VEnum (ei_id info) (wrap_u 32 (Z.of_nat idx)))).

Definition lower_field (env : Env) (b : ExprIR) (field : bytes) : CoreResult ExprIR :=
  match expr_ty b with
  | TRow rid =>
      rec ← record_by_id env rid;
      '(fid, fty) ← ok_or (ri_field rec field) MissingRecord;
      Ok (MkExpr fty (EField b fid field))
  | TStruct fs =>
      '(_, t) ← ok_or (List.find (fun '(n, _) => bool_decide (n = field)) fs) MissingRecord;
      Ok (MkExpr t (EStructField b field))
  | _ => Err TypeMismatch
  end.

(** Whether a source operand adopts the type of the other one. *)
Definition is_literal (e : Expr) : bool :=
  match e with XIntLit _ | XDecimalLit _ | XStrLit _ | XNone => true | _ => false end.

Definition lower_numeric_pair (lhs rhs : Expr) (L R : option Type_ -> stM Ctx ExprIR) (expected : option Type_) :
    stM Ctx (ExprIR * ExprIR) :=
  if is_literal lhs && negb (is_literal rhs)
  then r ← R expected; l ← L (Some (expr_ty r)); mret (l, r)
  else l ← L expected; r ← R (Some (expr_ty l)); mret (l, r).

Definition is_ordering (c : CmpOp) : bool := match c with CLt | CLe | CGt | CGe => true | _ => false end.
Definition is_unordered (t : Type_) : bool := match t with TBool | TEnum _ | TOption _ => true | _ => false end.

Definition lower_bin (op : BinOp) (lhs rhs : Expr) (L R : option Type_ -> stM Ctx ExprIR) (expected : option Type_) :
    stM Ctx ExprIR :=
  match op with
  | BAnd | BOr => l ← L (Some TBool); r ← R (Some TBool); mret (MkExpr TBool (EBin op l r))
  | BAdd | BSub | BMul =>
      '(l, r) ← lower_numeric_pair lhs rhs L R expected;
      if negb (is_numeric (expr_ty l)) then fail TypeMismatch
      else if match op with BMul => true | _ => false end && negb (is_lit l) && negb (is_lit r) then fail UnsupportedEffect
      else mret (MkExpr (expr_ty l) (EBin op l r))
  | BCmp c =>
      '(l, r) ← lower_numeric_pair lhs rhs L R None;
      if negb (is_comparable (expr_ty l)) then fail TypeMismatch
      else if is_ordering c && is_unordered (expr_ty l) then fail TypeMismatch
      else mret (MkExpr TBool (EBin op l r))
  | BIn =>
      r ← R None;
      match expr_ty r with
      | TSet elem => l ← L (Some elem); mret (MkExpr TBool (EBin op l r))
      | _ => fail TypeMismatch
      end
  end.

(** The loops over the elements of tuples, structs and sets. *)
Section lists.
Context (lower : Expr -> option Type_ -> stM Ctx ExprIR).

Fixpoint lower_items (exp : option (list Type_)) (items : list Expr) : stM Ctx (list ExprIR) :=
  match items with
  | [] => mret []
  | it :: items' =>
      ir ← lower it (ts ← exp; head ts);
      irs ← lower_items (@tail Type_ <$> exp) items';
      mret (ir :: irs)
  end.

Definition expected_field (expected : option Type_) (name : bytes) : option Type_ :=
  match expected with
  | Some (TStruct fs) => snd <$> List.find (fun nt => bool_decide (fst nt = name)) fs
  | _ => None
  end.

Fixpoint lower_fields (expected : option Type_) (fields : list (bytes * Expr)) (irs : list (bytes * ExprIR)) :
    stM Ctx (list (bytes * ExprIR)) :=
  match fields with
  | [] => mret irs
  | (name, fe) :: fields' =>
      if existsb (fun ne => bool_decide (fst ne = name)) irs then fail DuplicateIdentity
      else ir ← lower fe (expected_field expected name);
           lower_fields expected fields' (irs ++ [(name, ir)])
  end.

Fixpoint lower_elems (elem_ty : option Type_) (items : list Expr) : stM Ctx (option Type_ * list ExprIR) :=
  match items with
  | [] => mret (elem_ty, [])
  | it :: items' =>
      ir ← lower it elem_ty;
      '(t, irs) ← lower_elems (Some (default (expr_ty ir) elem_ty)) items';
      mret (t, ir :: irs)
  end.
End lists.

Definition name_le (a b : bytes * ExprIR) : Prop := bytes_leb (fst a) (fst b) = true.
#[global] Instance name_le_dec a b : Decision (name_le a b).
Proof. unfold name_le. apply _. Defined.

(** A tuple of literals is a literal. *)
Definition mk_tuple (irs : list ExprIR) : ExprIR :=
  let ty := TTuple (map expr_ty irs) in
  if forallb is_lit irs
  then lit_expr ty (VTuple (map (fun e => match expr_node e with ELit v => v | _ => VUnit end) irs))
  else MkExpr ty (ETuple irs).
Definition mk_some (ir : ExprIR) : ExprIR :=
  match expr_node ir with
  | ELit v => lit_expr (TOption (expr_ty ir)) (VSome v)
  | _ => MkExpr (TOption (expr_ty ir)) (ESomeOf ir)
  end.

Fixpoint lower_expr (env : Env) (e : Expr) (expected : option Type_) : stM Ctx ExprIR :=
  checked_lower expected
    match e with
    | XIntLit v => lift (lower_int v expected)
    | XDecimalLit text => lift (lower_decimal text expected)
    | XStrLit s => lift (lower_str s expected)
    | XBoolLit b => mret (lit_expr TBool (VBool b))
    | XUuidLit u => mret (lit_expr TUuid (VUuid u))
    | XBytesLit b => lift (lower_bytes b expected)
    | XUnit => mret (lit_expr TUnit VUnit)
    | XNone => match expected with
               | Some (TOption t) => mret (lit_expr (TOption t) VNone)
               | _ => fail TypeMismatch
               end
    | XSome inner =>
        match expected with
        | Some (TOption t) => ir ← lower_expr env inner (Some t); mret (mk_some ir)
        | Some _ => fail TypeMismatch
        | None => ir ← lower_expr env inner None; mret (mk_some ir)
        end
    | XVar name => lower_var name
    | XEnumVariant enum_name variant => lift (lower_enum env enum_name variant)
    | XField base field => b ← lower_expr env base None; lift (lower_field env b field)
    | XRowLookup record key =>
        rec ← lift (env_record env record);
        k ← lower_expr env key (Some (ri_pk_type rec));
        update_st (with_lookup (ri_id rec, k, ValueRead)) ≫= fun _ =>
        c ← reads (fun c => c);
        mret (MkExpr (row_type rec) (ERowLookup (ri_id rec) k (cx_state c)))
    | XExists record key =>
        rec ← lift (env_record env record);
        k ← lower_expr env key (Some (ri_pk_type rec));
        update_st (with_lookup (ri_id rec, k, Absence)) ≫= fun _ =>
        c ← reads (fun c => c);
        mret (MkExpr TBool (EExists (ri_id rec) k (cx_state c)))
    | XTuple items =>
        irs ← lower_items (lower_expr env)
                (match expected with
                 | Some (TTuple ts) => if Nat.eqb (length ts) (length items) then Some ts else None
                 | _ => None
                 end) items;
        mret (mk_tuple irs)
    | XStruct fields =>
        irs ← lower_fields (lower_expr env) expected fields [];
        let irs := merge_sort name_le irs in
        mret (MkExpr (TStruct (map (fun ne => (fst ne, expr_ty (snd ne))) irs)) (EStruct irs))
    | XSetLit items =>
        '(t, irs) ← lower_elems (lower_expr env) (match expected with Some (TSet t) => Some t | _ => None end) items;
        match t with
        | None => fail TypeMismatch
        | Some t => if negb (is_comparable t) then fail TypeMismatch else mret (MkExpr (TSet t) (ESetLit irs))
        end
    | XNeg inner =>
        ir ← lower_expr env inner expected;
        match expr_ty ir with
        | TI64 | TDecimal _ _ => mret (MkExpr (expr_ty ir) (ENeg ir))
        | _ => fail TypeMismatch
        end
    | XNot inner => ir ← lower_expr env inner (Some TBool); mret (MkExpr TBool (ENot ir))
    | XBin op lhs rhs => lower_bin op lhs rhs (lower_expr env lhs) (lower_expr env rhs) expected
    | XIsNone inner =>
        ir ← lower_expr env inner None;
        match expr_ty ir with TOption _ => mret (MkExpr TBool (EIsNone ir)) | _ => fail TypeMismatch end
    | XIsSome inner =>
        ir ← lower_expr env inner None;
        match expr_ty ir with TOption _ => mret (MkExpr TBool (EIsSome ir)) | _ => fail TypeMismatch end
    | XUnwrapOr value dflt =>
        v ← lower_expr env value None;
        match expr_ty v with
        | TOption t => d ← lower_expr env dflt (Some t); mret (MkExpr t (EUnwrapOr v d))
        | _ => fail TypeMismatch
        end
    | XSize inner =>
        ir ← lower_expr env inner None;
        match expr_ty ir with TSet _ => mret (MkExpr TU64 (ESize ir)) | _ => fail TypeMismatch end
    | XSumOver var set value =>
        s ← lower_expr env set None;
        match expr_ty s with
        | TSet elem =>
            b ← fresh_binding;
            update_st (with_syms (fun l => l ++ [(var, SBinding b elem)])) ≫= fun _ =>
            v ← lower_expr env value (match expected with Some t => if is_numeric t then Some t else None | None => None end);
            update_st (with_syms (fun l => take (length l - 1) l)) ≫= fun _ =>
            if negb (is_numeric (expr_ty v)) then fail TypeMismatch
            else mret (MkExpr (expr_ty v) (ESumOver b s v))
        | _ => fail TypeMismatch
        end
    end.

(** ** Induction over source expressions *)
Definition subexprs (e : Expr) : list Expr :=
  match e with
  | XSome e | XField e _ | XRowLookup _ e | XExists _ e | XNeg e | XNot e | XIsNone e | XIsSome e | XSize e => [e]
  | XTuple l | XSetLit l => l
  | XStruct l => map snd l
  | XBin _ e1 e2 | XUnwrapOr e1 e2 | XSumOver _ e1 e2 => [e1; e2]
  | _ => []
  end.

Section source_ind.
Context (P : Expr -> Prop).
Context (H : forall e, Forall P (subexprs e) -> P e).

Fixpoint Source_ind (e : Expr) : P e :=
  let one x := @Forall_cons_2 _ P x [] (Source_ind x) (@Forall_nil_2 _ P) in
  let all := fix go l : Forall P l := match l with
      | [] => @Forall_nil_2 _ P
      | x :: l' => @Forall_cons_2 _ P x l' (Source_ind x) (go l') end in
  H e match e return Forall P (subexprs e) with
      | XSome e | XField e _ | XRowLookup _ e | XExists _ e | XNeg e | XNot e | XIsNone e | XIsSome e | XSize e =>
          @Forall_cons_2 _ P e [] (Source_ind e) (@Forall_nil_2 _ P)
      | XTuple l | XSetLit l => all l
      | XStruct l => (fix go l : Forall P (map snd l) := match l with
          | [] => @Forall_nil_2 _ P
          | (k, x) :: l' => @Forall_cons_2 _ P x (map snd l') (Source_ind x) (go l') end) l
      | XBin _ e1 e2 | XUnwrapOr e1 e2 | XSumOver _ e1 e2 =>
          @Forall_cons_2 _ P e1 [e2] (Source_ind e1) (@Forall_cons_2 _ P e2 [] (Source_ind e2) (@Forall_nil_2 _ P))
      | _ => @Forall_nil_2 _ P
      end.
End source_ind.

Lemma list_eqb_eq {A} (f : A -> A -> bool) l r : Forall (fun x => forall y, f x y = true <-> x = y) l ->
  list_eqb f l r = true <-> l = r.
Proof.
  intros Hf. revert r; induction Hf as [|x l Hx _ IH]; intros [|y r]; cbn; try done.
  rewrite andb_true_iff, Hx, IH. naive_solver.
Qed.

Lemma type_eqb_eq a b : type_eqb a b = true <-> a = b.
Proof.
  revert b; induction a as [a Ha|a IH|a IH|ts IH|fs IH] using Type_nested_ind; intros b.
  - destruct a; try done; destruct b; try done; cbn; rewrite ?andb_true_iff, ?Z.eqb_eq; naive_solver.
  - destruct b; try done. cbn. rewrite IH. naive_solver.
  - destruct b; try done. cbn. rewrite IH. naive_solver.
  - destruct b; try done. cbn. rewrite list_eqb_eq by done. naive_solver.
  - destruct b; try done. cbn. rewrite list_eqb_eq; [naive_solver|]. eapply Forall_impl; [exact IH|].
    intros [n t] Ht [n' t']. cbn in Ht. rewrite andb_true_iff, bool_decide_eq_true, Ht. naive_solver.
Qed.

(** ** What lowering guarantees *)

(** Literals whose length fits the [u32] of their type. *)
Fixpoint source_ok (e : Expr) : bool :=
  match e with
  | XStrLit s | XBytesLit s => Z.of_nat (length s) <? 2 ^ 32
  | XSome e | XField e _ | XRowLookup _ e | XExists _ e | XNeg e | XNot e | XIsNone e | XIsSome e | XSize e => source_ok e
  | XTuple l | XSetLit l => forallb source_ok l
  | XStruct l => forallb (fun '(_, e) => source_ok e) l
  | XBin _ e1 e2 | XUnwrapOr e1 e2 | XSumOver _ e1 e2 => source_ok e1 && source_ok e2
  | _ => true
  end.

Section lowered.
Context (m : ModuleIR) (env : Env) (params : list Type_) (gk : option Type_).

(** The names of the environment describe the module. *)
Definition env_describes : Prop := forall name ri, (name, ri) ∈ en_records env ->
  type_ok (ri_pk_type ri) = true /\
  exists rec, module_record m (ri_id ri) = Ok rec /\
    forall n fid t, (n, fid, t) ∈ ri_fields ri -> type_ok t = true /\ exists f, f ∈ r_fields rec /\ f_name f = n /\ f_ty f = t.

(** The symbols in scope have the types the evaluation will find. *)
Definition sym_ok (G : tenv) (s : Sym) : Prop :=
  match s with
  | SParam i t => params !! Z.to_nat i = Some t /\ type_ok t = true
  | SBinding b t => G b = Some t /\ type_ok t = true
  | SGroupKey t => gk = Some t /\ type_ok t = true
  end.
Definition ctx_ok (G : tenv) (c : Ctx) : Prop :=
  Forall (fun s => sym_ok G (snd s)) (cx_syms c) /\ forall b t, G b = Some t -> b < cx_next_binding c.

(** [lowers G Q l]: when [l] succeeds its result is in [Q] and the scope is as before. *)
Definition lowers {A} (G : tenv) (Q : A -> Prop) (l : stM Ctx A) : Prop := forall c a c', ctx_ok G c -> l c = (Ok a, c') ->
  Q a /\ cx_syms c' = cx_syms c /\ cx_next_binding c <= cx_next_binding c'.

Lemma ctx_ok_mono G c c' : ctx_ok G c -> cx_syms c' = cx_syms c -> cx_next_binding c <= cx_next_binding c' -> ctx_ok G c'.
Proof. intros [Hs Hb] Es Hn. split; [by rewrite Es|]. intros b t Hg. specialize (Hb b t Hg). lia. Qed.

Lemma lowers_ret {A} G (Q : A -> Prop) a : Q a -> lowers G Q (mret a).
Proof. intros Ha c a' c' Hc [= <- <-]. split_and!; [done|done|lia]. Qed.
Lemma lowers_lift {A} G (Q : A -> Prop) o : (forall a, o = Ok a -> Q a) -> lowers G Q (lift o).
Proof. intros Ho c a c' Hc [E ->]%lift_run. split_and!; [auto|done|lia]. Qed.
Lemma lowers_fail {A} G (Q : A -> Prop) e : lowers G Q (fail e).
Proof. done. Qed.
Lemma lowers_bind {A B} G (P : A -> Prop) (Q : B -> Prop) l k :
  lowers G P l -> (forall a, P a -> lowers G Q (k a)) -> lowers G Q (l ≫= k).
Proof.
  intros Hl Hk c b c' Hc (a & c1 & H1 & H2)%bind_run. destruct (Hl _ _ _ Hc H1) as (Ha & Es1 & Hn1).
  destruct (Hk a Ha _ _ _ (ctx_ok_mono _ _ _ Hc Es1 Hn1) H2) as (Hb & Es2 & Hn2). split_and!; [done|congruence|lia].
Qed.
Lemma lowers_update G (Q : unit -> Prop) f : Q tt -> (forall c, cx_syms (f c) = cx_syms c) ->
  (forall c, cx_next_binding (f c) = cx_next_binding c) -> lowers G Q (update_st f).
Proof. intros Hq Hs Hn c [] c' Hc [= <-]. rewrite Hs, Hn. split_and!; [done|done|lia]. Qed.
Lemma lowers_weaken {A} G (P Q : A -> Prop) l : lowers G P l -> (forall a, P a -> Q a) -> lowers G Q l.
Proof. intros Hl H c a c' Hc E. destruct (Hl _ _ _ Hc E) as (? & ? & ?). auto. Qed.

(** A typed expression of a type whose decimals exist, and of the expected one. *)
Definition well (G : tenv) (expected : option Type_) (e : ExprIR) : Prop :=
  typed m params gk G e /\ type_ok (expr_ty e) = true /\ match expected with Some t => expr_ty e = t | None => True end.
Definition exp_ok (expected : option Type_) : Prop := match expected with Some t => type_ok t = true | None => True end.

Lemma checked_lowers G expected inner : lowers G (well G None) inner -> lowers G (well G expected) (checked_lower expected inner).
Proof.
  intros Hi c ir c' Hc. unfold checked_lower. destruct (128 <? _); [done|].
  destruct (inner _) as [[ir'| |] c2] eqn:E; [|done..].
  destruct (Hi (with_depth (cx_depth c + 1) c) _ _ Hc E) as ((Ht & Hok & _) & Hs & Hn). cbn in Hs, Hn. destruct expected as [t|].
  - destruct (type_eqb (expr_ty ir') t) eqn:Et; [|done]. apply type_eqb_eq in Et. by intros [= <- <-].
  - by intros [= <- <-].
Qed.

Lemma well_lit G ty v : vtyped m v ty -> type_ok ty = true -> well G None (lit_expr ty v).
Proof. intros Hv Ht. split_and!; [by constructor|done|done]. Qed.

Lemma type_ok_decimal p s : type_ok (TDecimal p s) = true -> dec_type_ok p s.
Proof. cbn. rewrite !andb_true_iff, !Z.leb_le. unfold dec_type_ok. lia. Qed.

Lemma parse_typed text p s d : type_ok (TDecimal p s) = true -> parse text p s = Ok d -> vtyped m (VDecimal d) (TDecimal p s).
Proof.
  intros Ht%type_ok_decimal H. destruct Ht. apply parse_iff in H as (? & ? & ? & ? & _ & _ & -> & Hd); [|lia..]. done.
Qed.

Lemma wrap_u32_id (s : bytes) : (Z.of_nat (length s) <? 2 ^ 32) = true -> wrap_u 32 (Z.of_nat (length s)) = Z.of_nat (length s).
Proof. intros H%Z.ltb_lt. unfold wrap_u. apply Z.mod_small. lia. Qed.

Lemma literals_well G expected : exp_ok expected ->
  (forall v ir, lower_int v expected = Ok ir -> well G None ir) /\
  (forall t ir, lower_decimal t expected = Ok ir -> well G None ir) /\
  (forall s ir, (Z.of_nat (length s) <? 2 ^ 32) = true -> lower_str s expected = Ok ir -> well G None ir) /\
  (forall b ir, (Z.of_nat (length b) <? 2 ^ 32) = true -> lower_bytes b expected = Ok ir -> well G None ir).
Proof.
  intros He. split_and!.
  - intros v ir H. unfold lower_int in H.
    assert (Hd : forall i', (i ← ok_or (checked_i 64 v) NumericOverflow; Ok (lit_expr TI64 (VI64 i))) = Ok i' -> well G None i')
      by (intros i' (i & _ & [= <-])%bind_ok_inv; by apply well_lit).
    destruct expected as [[]|]; auto.
    + apply bind_ok_inv in H as (u & _ & [= <-]). by apply well_lit.
    + apply bind_ok_inv in H as (d & Hp & [= <-]). apply well_lit; [by eapply parse_typed|done].
  - intros t ir H. unfold lower_decimal in H. destruct expected as [[]|]; try done.
    apply bind_ok_inv in H as (d & Hp & [= <-]). apply well_lit; [by eapply parse_typed|done].
  - intros x ir Hl H. unfold lower_str in H. rewrite wrap_u32_id in H by done.
    destruct expected as [[]|]; try (injection H as <-; apply well_lit; [cbn; lia|done]).
    destruct (Z.ltb_spec n (Z.of_nat (length x))); [done|]. injection H as <-. by apply well_lit.
  - intros x ir Hl H. unfold lower_bytes in H. rewrite wrap_u32_id in H by done.
    destruct expected as [[]|]; try (injection H as <-; apply well_lit; [cbn; lia|done]).
    destruct (Z.ltb_spec n (Z.of_nat (length x))); [done|]. injection H as <-. by apply well_lit.
Qed.

Lemma lower_var_lowers G name : lowers G (well G None) (lower_var name).
Proof.
  intros c ir c' Hc. unfold lower_var. intros (? & ? & [= <- <-] & H)%bind_run.
  destruct (scope_lookup (cx_syms c) name) as [s|] eqn:E; [|done]. unfold scope_lookup in E.
  destruct (List.find _ (rev (cx_syms c))) as [[n' s']|] eqn:Ef; [|done]. cbn in E. injection E as <-.
  apply List.find_some in Ef as [Hi _]. apply in_rev, list_elem_of_In in Hi.
  pose proof (proj1 Hc) as Hs. rewrite Forall_forall in Hs. specialize (Hs _ Hi). cbn in Hs.
  destruct s' as [i t|b t|t]; destruct Hs as [Hs Ht].
  - injection H as <- <-. split_and!; [|done|lia]. split_and!; [by constructor|done..].
  - apply bind_run in H as (? & ? & [= <- <-] & [= <- <-]). cbn. split_and!; [|done|lia]. split_and!; [by constructor|done..].
  - injection H as <- <-. split_and!; [|done|lia]. split_and!; [by constructor|done..].
Qed.

Lemma find_In {A} (p : A -> bool) l x : List.find p l = Some x -> x ∈ l /\ p x = true.
Proof. intros [H1 H2]%List.find_some. split; [by apply list_elem_of_In|done]. Qed.

Lemma lower_field_well G b field ir : env_describes -> well G None b -> lower_field env b field = Ok ir -> well G None ir.
Proof.
  intros Hd (Hb & Hok & _) H. unfold lower_field in H. destruct (expr_ty b) as [| | | | | | | | | | |r|fs|] eqn:Et; try done.
  - apply bind_ok_inv in H as (ri & Hr & ([fid fty] & Hf%ok_or_ok_inv & [= <-])%bind_ok_inv).
    unfold record_by_id in Hr. destruct (List.find _ _) as [ri'|] eqn:E; [|done]. injection Hr as ->.
    apply find_In in E as [(name & Hi)%list_elem_of_fmap Hid%Z.eqb_eq]. destruct name as [name ri'], Hi as [-> Hi]. cbn in Hid, Hf.
    destruct (Hd _ _ Hi) as (_ & rec & Hrec & Hfs). unfold ri_field in Hf.
    destruct (List.find _ (ri_fields ri')) as [[[n i] t]|] eqn:Ef; [|done]. injection Hf as <- <-.
    apply find_In in Ef as [Hfi Hn%bool_decide_eq_true]. subst n. destruct (Hfs _ _ _ Hfi) as (Htok & f & Hff & Hfn & <-).
    split_and!; [|done..]. eapply T_field; [done|exact Et|rewrite <-Hid; exact Hrec|done|done].
  - apply bind_ok_inv in H as ([n t] & Hf%ok_or_ok_inv & [= <-]). apply find_In in Hf as [Hi Hn%bool_decide_eq_true]. subst n.
    cbn in Hok. rewrite forallb_forall in Hok. split_and!; [by eapply T_struct_field| |done].
    by apply (Hok (field, t)), list_elem_of_In.
Qed.

Lemma pair_lowers G lhs rhs L R expected : exp_ok expected ->
  (forall ex, exp_ok ex -> lowers G (well G ex) (L ex)) -> (forall ex, exp_ok ex -> lowers G (well G ex) (R ex)) ->
  lowers G (fun lr => well G None (fst lr) /\ well G None (snd lr) /\ expr_ty (snd lr) = expr_ty (fst lr))
    (lower_numeric_pair lhs rhs L R expected).
Proof.
  intros He HL HR. unfold lower_numeric_pair. case_match.
  - eapply lowers_bind; [by apply HR|]. intros r (Hr & Hrok & _). eapply lowers_bind; [by apply HL|]. intros l (Hl & Hlok & Ht).
    by apply lowers_ret.
  - eapply lowers_bind; [by apply HL|]. intros l (Hl & Hlok & _). eapply lowers_bind; [by apply HR|]. intros r (Hr & Hrok & Ht).
    by apply lowers_ret.
Qed.

Lemma bin_lowers G op lhs rhs L R expected : exp_ok expected ->
  (forall ex, exp_ok ex -> lowers G (well G ex) (L ex)) -> (forall ex, exp_ok ex -> lowers G (well G ex) (R ex)) ->
  lowers G (well G None) (lower_bin op lhs rhs L R expected).
Proof.
  intros He HL HR.
  assert (Ha : is_arith op = true -> lowers G (well G None)
    ('(l, r) ← lower_numeric_pair lhs rhs L R expected;
      if negb (is_numeric (expr_ty l)) then fail TypeMismatch
      else if match op with BMul => true | _ => false end && negb (is_lit l) && negb (is_lit r) then fail UnsupportedEffect
      else mret (MkExpr (expr_ty l) (EBin op l r)))).
  { intros Ho. eapply lowers_bind; [by apply pair_lowers|]. intros [l r] ((Hl & Hlok & _) & (Hr & Hrok & _) & Ht). cbn in *.
    destruct (is_numeric (expr_ty l)) eqn:En; cbn; [|apply lowers_fail]. case_match; [apply lowers_fail|].
    apply lowers_ret. split_and!; [by constructor|done|done]. }
  destruct op; cbn; auto.
  - eapply lowers_bind; [by apply HL|]. intros l (Hl & _ & Htl). eapply lowers_bind; [by apply HR|]. intros r (Hr & _ & Htr).
    apply lowers_ret. split_and!; [|done..]. apply T_logic; auto.
  - eapply lowers_bind; [by apply HL|]. intros l (Hl & _ & Htl). eapply lowers_bind; [by apply HR|]. intros r (Hr & _ & Htr).
    apply lowers_ret. split_and!; [|done..]. apply T_logic; auto.
  - eapply lowers_bind; [by apply pair_lowers|]. intros [l r] ((Hl & Hlok & _) & (Hr & Hrok & _) & Ht). cbn in *.
    destruct (is_comparable (expr_ty l)) eqn:Ec; cbn; [|apply lowers_fail]. case_match; [apply lowers_fail|].
    apply lowers_ret. split_and!; [by constructor|done|done].
  - eapply lowers_bind; [by apply HR|]. intros r (Hr & Hrok & _). destruct (expr_ty r) eqn:Et; try apply lowers_fail.
    eapply lowers_bind; [by apply HL|]. intros l (Hl & _ & <-). apply lowers_ret. split_and!; [by constructor|done|done].
Qed.

(** *** Lists *)
Section list_lowers.
Context (lower : Expr -> option Type_ -> stM Ctx ExprIR) (G : tenv).
#[local] Notation each l := (Forall (fun e => forall ex, exp_ok ex -> lowers G (well G ex) (lower e ex)) l).

Lemma items_lowers items : forall exp, each items -> (forall ts, exp = Some ts -> forallb type_ok ts = true) ->
  lowers G (Forall (well G None)) (lower_items lower exp items).
Proof.
  induction items as [|it items IH]; intros exp Hi He; cbn [lower_items]; [by apply lowers_ret|].
  inversion Hi as [|? ? Hit Hits]; subst. eapply lowers_bind; [apply Hit|].
  { destruct exp as [[|t ts]|]; cbn; try done. specialize (He _ eq_refl). cbn in He. by apply andb_true_iff in He as [? _]. }
  intros ir (Ht & Hok & _). eapply lowers_bind; [apply IH; [done|]|].
  - intros ts. destruct exp as [[|t ts']|]; cbn; [|intros [= <-]..|done]; [by intros [= <-]|].
    specialize (He _ eq_refl). cbn in He. by apply andb_true_iff in He as [_ ?].
  - intros irs Hirs. apply lowers_ret. by constructor.
Qed.

Lemma expected_field_ok expected name : exp_ok expected -> exp_ok (expected_field expected name).
Proof.
  destruct expected as [[]|]; try done. cbn. intros Hf. destruct (List.find _ _) as [[n t]|] eqn:E; [|done].
  apply find_In in E as [Hi _]. rewrite forallb_forall in Hf. by apply (Hf (n, t)), list_elem_of_In.
Qed.

Lemma fields_lowers expected fields : exp_ok expected -> each (map snd fields) -> forall irs,
  Forall (fun ne => well G None (snd ne)) irs -> NoDup (map fst irs) ->
  lowers G (fun irs => Forall (fun ne => well G None (snd ne)) irs /\ NoDup (map fst irs))
    (lower_fields lower expected fields irs).
Proof.
  intros He. induction fields as [|[name fe] fields IH]; intros Hf irs Hi Hn; cbn [lower_fields]; [by apply lowers_ret|].
  inversion Hf as [|? ? Hfe Hfs]; subst. destruct (existsb _ irs) eqn:Ex; [apply lowers_fail|].
  eapply lowers_bind; [by apply Hfe, expected_field_ok|]. intros ir (Ht & Hok & _). apply IH; [done|..].
  - apply Forall_app. split; [done|]. by repeat constructor.
  - rewrite map_app. apply NoDup_app. split_and!; [done| |by apply NoDup_singleton].
    intros n Hin Hn'. cbn in Hn'. apply list_elem_of_singleton in Hn' as ->. apply list_elem_of_fmap in Hin as ([n' e'] & En & Hin).
    cbn in En. subst n'. assert (existsb (fun ne => bool_decide (fst ne = name)) irs = true); [|congruence].
    apply existsb_exists. exists (name, e'). split; [by apply list_elem_of_In|by apply bool_decide_eq_true].
Qed.

Lemma elems_lowers items : forall t, each items -> exp_ok t ->
  lowers G (fun r => exp_ok (fst r) /\ (t <> None -> fst r = t) /\ Forall (well G (fst r)) (snd r))
    (lower_elems lower t items).
Proof.
  induction items as [|it items IH]; intros t Hi Ht; cbn [lower_elems]; [by apply lowers_ret|].
  inversion Hi as [|? ? Hit Hits]; subst. eapply lowers_bind; [by apply Hit|]. intros ir (Hir & Hok & Hex).
  eapply lowers_bind; [apply IH; [done|by destruct t]|]. intros [t' irs] (Ht' & Heq & Hirs). cbn in *.
  specialize (Heq ltac:(done)). subst t'. apply lowers_ret. cbn. split_and!; [done|by destruct t|]. constructor; [|done].
  split_and!; [done..|]. by destruct t.
Qed.
End list_lowers.

Lemma mk_tuple_well G irs : Forall (well G None) irs -> well G None (mk_tuple irs).
Proof.
  intros H. assert (Hok : type_ok (TTuple (map expr_ty irs)) = true).
  { cbn. apply forallb_forall. intros t (e & <- & Hi)%in_map_iff. rewrite Forall_forall in H.
    by apply (H e), list_elem_of_In. }
  unfold mk_tuple. destruct (forallb is_lit irs) eqn:El.
  - apply well_lit; [|done]. apply has_tuple. clear Hok. induction H as [|e irs (Ht & _) _ IH]; cbn in *; [constructor|].
    apply andb_true_iff in El as [He El]. constructor; [|auto]. destruct e as [ty n]. destruct n; try done.
    by inversion Ht.
  - split_and!; [|done|done]. constructor. eapply Forall_impl; [exact H|]. by intros e (? & _).
Qed.

Lemma mk_some_well G ir : well G None ir -> well G None (mk_some ir).
Proof.
  intros (Ht & Hok & _). unfold mk_some. destruct ir as [ty n]. cbn in *.
  assert (Hs : well G None (MkExpr (TOption ty) (ESomeOf (MkExpr ty n)))).
  { split_and!; [|done|done]. by apply (T_some m params gk G (MkExpr ty n)). }
  destruct n; try done. apply well_lit; [|done]. cbn. by inversion Ht.
Qed.

Lemma sum_lowers G var s elem value expected : well G None s -> expr_ty s = TSet elem -> exp_ok expected ->
  (forall G' ex, exp_ok ex -> lowers G' (well G' ex) (lower_expr env value ex)) ->
  lowers G (well G None)
    (b ← fresh_binding;
     update_st (with_syms (fun l => l ++ [(var, SBinding b elem)])) ≫= fun _ =>
     v ← lower_expr env value (match expected with Some t => if is_numeric t then Some t else None | None => None end);
     update_st (with_syms (fun l => take (length l - 1) l)) ≫= fun _ =>
     if negb (is_numeric (expr_ty v)) then fail TypeMismatch else mret (MkExpr (expr_ty v) (ESumOver b s v))).
Proof.
  intros (Hs & Hsok & _) Hst He Hv c ir c' [Hc Hb] H. rewrite Hst in Hsok. cbn in Hsok.
  apply bind_run in H as (b & c1 & Hf & H). unfold fresh_binding in Hf.
  apply bind_run in Hf as (? & ? & [= <- <-] & (n & ? & [Hu ->]%lift_run & ([] & ? & [= <-] & [= <- <-])%bind_run)%bind_run).
  apply uadd_ok_inv in Hu as [-> _]. apply bind_run in H as ([] & ? & [= <-] & (v & c2 & Hl & H)%bind_run).
  set (G' := extend (cx_next_binding c) elem G).
  assert (Hfresh : G (cx_next_binding c) = None).
  { destruct (G (cx_next_binding c)) as [t|] eqn:E; [|done]. specialize (Hb _ _ E). lia. }
  apply (Hv G') in Hl as ((Ht & Hok & _) & Es & Hn).
  - apply bind_run in H as ([] & ? & [= <-] & H). destruct (is_numeric (expr_ty v)) eqn:En; [|done]. cbn in H.
    injection H as <- <-. cbn in *. split_and!; [|by rewrite Es, length_app, take_app_length'; [|cbn; lia]|lia].
    split_and!; [|done|done]. eapply T_sum; done.
  - destruct expected as [t|]; [|done]. by destruct (is_numeric t).
  - split; cbn.
    + apply Forall_app. split.
      * eapply Forall_impl; [exact Hc|]. intros [n' s'] Hsym. destruct s' as [| b' t'|]; [done| |done].
        destruct Hsym as [Hg ?]. split; [|done]. unfold G', extend. destruct (Z.eqb_spec b' (cx_next_binding c)) as [->|]; [|done].
        congruence.
      * constructor; [|constructor]. cbn. split; [|done]. unfold G', extend. by rewrite Z.eqb_refl.
    + intros b' t'. unfold G', extend. destruct (Z.eqb_spec b' (cx_next_binding c)) as [->|]; [lia|].
      intros Hg. specialize (Hb _ _ Hg). lia.
Qed.

(** *** Every accepted expression is well typed *)
Lemma enum_well G enum_name variant ir : lower_enum env enum_name variant = Ok ir -> well G None ir.
Proof. intros (info & _ & (idx & _ & [= <-])%bind_ok_inv)%bind_ok_inv. by apply well_lit. Qed.

Lemma record_known name ri : env_describes -> env_record env name = Ok ri -> type_ok (ri_pk_type ri) = true.
Proof. intros Hd H%ok_or_ok_inv%bget_In. by apply (Hd name ri). Qed.

Lemma lower_well e : env_describes -> source_ok e = true -> forall G expected, exp_ok expected ->
  lowers G (well G expected) (lower_expr env e expected).
Proof.
  intros Hd. induction e as [e IH] using Source_ind. intros Hsrc G expected He.
  assert (Hsub : Forall (fun e => forall ex, exp_ok ex -> lowers G (well G ex) (lower_expr env e ex)) (subexprs e) /\
    forall v, v ∈ subexprs e -> forall G' ex, exp_ok ex -> lowers G' (well G' ex) (lower_expr env v ex)).
  { assert (Hs : forall v, v ∈ subexprs e -> source_ok v = true).
    { intros v Hv. destruct e; cbn in Hv, Hsrc; rewrite ?andb_true_iff in Hsrc;
        try (rewrite !list_elem_of_In in Hv; cbn in Hv; naive_solver).
      - rewrite forallb_forall in Hsrc. by apply Hsrc, list_elem_of_In.
      - apply list_elem_of_fmap in Hv as ([n x] & -> & Hi). rewrite forallb_forall in Hsrc.
        by apply (Hsrc (n, x)), list_elem_of_In.
      - rewrite forallb_forall in Hsrc. by apply Hsrc, list_elem_of_In. }
    rewrite Forall_forall in IH. split; [apply Forall_forall|]; intros v Hv; [|intros G']; intros ex Hex; by apply IH; auto. }
  destruct Hsub as [Hsub HG]. destruct (literals_well G expected He) as (Hint & Hdec & Hstr & Hbytes).
  destruct e; cbn [subexprs] in Hsub, HG; apply checked_lowers;
    repeat match goal with H : Forall _ (_ :: _) |- _ => apply Forall_cons in H as [? H] end.
  - apply lowers_lift. eauto.
  - apply lowers_lift. eauto.
  - apply lowers_lift. eauto.
  - by apply lowers_ret, well_lit.
  - by apply lowers_ret, well_lit.
  - apply lowers_lift. eauto.
  - by apply lowers_ret, well_lit.
  - destruct expected as [[]|]; try apply lowers_fail. by apply lowers_ret, well_lit.
  - destruct expected as [[]|]; try apply lowers_fail; (eapply lowers_bind; [by apply H|]); intros ir (Ht & Hok & _);
      by apply lowers_ret, mk_some_well.
  - apply lower_var_lowers.
  - apply lowers_lift. apply enum_well.
  - eapply lowers_bind; [by apply H|]. intros b Hb. apply lowers_lift. intros ir. by apply lower_field_well.
  - eapply lowers_bind; [apply (lowers_lift _ (fun ri => type_ok (ri_pk_type ri) = true)); intros ri; by apply record_known|].
    intros ri Hri. eapply lowers_bind; [by apply H|]. intros k (Hk & _ & _).
    eapply (lowers_bind _ (fun _ => True)); [by apply lowers_update|]. intros _ _.
    intros c a c' Hc (? & ? & [= <- <-] & [= <- <-])%bind_run. split_and!; [|done|lia]. split_and!; [by constructor|done..].
  - eapply lowers_bind; [apply (lowers_lift _ (fun ri => type_ok (ri_pk_type ri) = true)); intros ri; by apply record_known|].
    intros ri Hri. eapply lowers_bind; [by apply H|]. intros k (Hk & _ & _).
    eapply (lowers_bind _ (fun _ => True)); [by apply lowers_update|]. intros _ _.
    intros c a c' Hc (? & ? & [= <- <-] & [= <- <-])%bind_run. split_and!; [|done|lia]. split_and!; [by constructor|done..].
  - eapply lowers_bind; [apply items_lowers; [exact Hsub|]|].
    + intros ts. destruct expected as [[]|]; try done. case_match; [|done]. by intros [= <-].
    + intros irs Hirs. by apply lowers_ret, mk_tuple_well.
  - eapply lowers_bind; [by apply (fields_lowers (lower_expr env) G expected fields He Hsub []); [constructor|constructor]|].
    intros irs (Hirs & Hn). apply lowers_ret. pose proof (merge_sort_Permutation name_le irs) as Hp.
    assert (Hall : Forall (fun ne => well G None (snd ne)) (merge_sort name_le irs)) by (by rewrite Hp).
    split_and!; [|cbn|done].
    + constructor; [eapply Forall_impl; [exact Hall|]; by intros ne (? & _)|]. by rewrite Hp.
    + apply forallb_forall. intros [n t] ([n' e'] & [= <- <-] & Hi)%in_map_iff. rewrite Forall_forall in Hall.
      by apply (Hall (n', e')), list_elem_of_In.
  - eapply lowers_bind; [apply elems_lowers; [exact Hsub|]|].
    + destruct expected as [[]|]; done.
    + intros [t irs] (Ht & _ & Hirs). cbn in *. destruct t as [t|]; [|apply lowers_fail].
      destruct (is_comparable t); [|apply lowers_fail]. apply lowers_ret. split_and!; [|done|done]. constructor.
      eapply Forall_impl; [exact Hirs|]. intros e (? & _ & ?). done.
  - eapply lowers_bind; [by apply H|]. intros ir (Ht & Hok & _).
    destruct (expr_ty ir) eqn:Et; try apply lowers_fail; apply lowers_ret; rewrite <-Et;
      (split_and!; [constructor; [done|]; rewrite Et; eauto|by rewrite ?Et in *|done]).
  - eapply lowers_bind; [by apply H|]. intros ir (Ht & Hok & Hty). apply lowers_ret. split_and!; [by constructor|done..].
  - by apply bin_lowers.
  - eapply lowers_bind; [by apply H|]. intros ir (Ht & Hok & _). destruct (expr_ty ir); try apply lowers_fail.
    apply lowers_ret. split_and!; [by constructor|done..].
  - eapply lowers_bind; [by apply H|]. intros ir (Ht & Hok & _). destruct (expr_ty ir); try apply lowers_fail.
    apply lowers_ret. split_and!; [by constructor|done..].
  - eapply lowers_bind; [by apply H|]. intros v (Hv & Hvok & _). destruct (expr_ty v) eqn:Et; try apply lowers_fail.
    eapply lowers_bind; [by apply H0|]. intros d (Hdt & Hdok & <-). apply lowers_ret. split_and!; [by constructor|done..].
  - eapply lowers_bind; [by apply H|]. intros ir (Ht & Hok & _). destruct (expr_ty ir) eqn:Et; try apply lowers_fail.
    apply lowers_ret. split_and!; [by econstructor|done..].
  - eapply lowers_bind; [by apply H|]. intros s Hs. destruct (expr_ty s) eqn:Et; try apply lowers_fail.
    apply sum_lowers; [done..|]. apply HG. set_solver.
Qed.
End lowered.

(** ** Type safety *)

(** C25. Type safety: an expression the lowering accepts has the expected type,
    and evaluating it over typed states, with arguments that pass the
    interpreter's check and bindings of the types in scope, never panics and
    never meets malformed IR; it yields a value of the inferred type, or fails
    with an overflow, a missing row or an unsupported multiplication, or, if it
    compares options, with a type mismatch. *)
Theorem lowered_type_safe (m : ModuleIR) (env : Env) (params : list Type_) (gk : option Type_) (G : tenv) (e : Expr)
  (expected : option Type_) (c c' : Ctx) (ir : ExprIR) (args : list Value) (group_key : option Value) (pre cand : State)
  (bindings : Bindings)
  (Hm : module_names_ok m) (Hd : env_describes m env) (Hsrc : source_ok e = true) (He : exp_ok expected)
  (Hc : ctx_ok params gk G c) (Hl : lower_expr env e expected c = (Ok ir, c'))
  (Hpre : state_typed m pre) (Hcand : state_typed m cand)
  (Hargs : Forall2 (fun a t => value_ok a /\ row_free t = true /\ check_type a t = Ok tt) args params)
  (Hgk : forall ty, gk = Some ty -> exists v, group_key = Some v /\ vtyped m v ty)
  (Hb : env_ok m G bindings) :
  match expected with Some t => expr_ty ir = t | None => True end /\
  match fst (eval m args group_key pre cand ir bindings) with
  | Ok v => vtyped m v (expr_ty ir)
  | Err code => program_error code \/ (code = TypeMismatch /\ compares_options ir = true)
  | Panic => False
  end.
Proof.
  destruct (lower_well m env params gk e Hd Hsrc G expected He c ir c' Hc Hl) as ((Ht & _ & Hex) & _ & _). split; [done|].
  assert (Ha : Forall2 (vtyped m) args params).
  { eapply Forall2_impl; [exact Hargs|]. intros a t (H1 & H2 & H3). by apply check_type_has. }
  pose proof (eval_sound m params gk args group_key pre cand Hm Hpre Hcand Ha Hgk (compares_options ir) ir G Ht (fun H => H)
    bindings Hb) as Hs.
  destruct (eval _ _ _ _ _ _ _) as [[v| |] b']; [by destruct Hs|done..].
Qed.

(** *** A scope with one parameter of an option type *)
Module OptionDemo.
Definition env : Env := MkEnv [] [] [] [].
Definition ctx : Ctx := MkCtx [(str "x", SParam 0 (TOption TI64))] Candidate_ 0 [] [] 0.
Definition empty : ModuleIR := MkModule 1 1 1 [] [] [] [] [] [].
(** [x == None] and [x ?? 0 + 1] *)
Definition is_absent : Expr := XBin (BCmp CEq) (XVar (str "x")) XNone.
Definition successor : Expr := XBin BAdd (XUnwrapOr (XVar (str "x")) (XIntLit 0)) (XIntLit 1).
End OptionDemo.

Lemma lowered_type_safe_witness : exists ir, fst (lower_expr OptionDemo.env OptionDemo.successor None OptionDemo.ctx) = Ok ir /\
  match fst (eval OptionDemo.empty [VSome (VI64 41)] None [] [] ir []) with
  | Ok v => vtyped OptionDemo.empty v (expr_ty ir)
  | Err code => program_error code \/ (code = TypeMismatch /\ compares_options ir = true)
  | Panic => False
  end.
Proof.
  eexists. split; [vm_compute; reflexivity|].
  apply (lowered_type_safe OptionDemo.empty OptionDemo.env [TOption TI64] None (fun _ => None) OptionDemo.successor None
    OptionDemo.ctx (snd (lower_expr OptionDemo.env OptionDemo.successor None OptionDemo.ctx)) _ [VSome (VI64 41)] None [] [] []).
  - intros r rec H. discriminate.
  - intros name ri H. by apply not_elem_of_nil in H.
  - reflexivity.
  - exact I.
  - split; [by repeat constructor|discriminate].
  - vm_compute. reflexivity.
  - intros r k row H. discriminate.
  - intros r k row H. discriminate.
  - constructor; [|constructor]. split_and!; [|reflexivity|reflexivity]. constructor. constructor. reflexivity.
  - discriminate.
  - split; [exact I|discriminate].
Defined.

Lemma checked_ok expected inner c ir c2 :
  cx_depth c < 128 -> inner (with_depth (cx_depth c + 1) c) = (Ok ir, c2) ->
  match expected with Some t => expr_ty ir = t | None => True end ->
  checked_lower expected inner c = (Ok ir, with_depth (cx_depth c2 - 1) c2).
Proof.
  intros Hd Hi He. unfold checked_lower. change (cx_depth (with_depth (cx_depth c + 1) c)) with (cx_depth c + 1).
  destruct (Z.ltb_spec 128 (cx_depth c + 1)); [lia|]. rewrite Hi. destruct expected; [|done].
  by rewrite (proj2 (type_eqb_eq _ _) He).
Qed.

(** Both operands of a comparison of a parameter with [None]. *)
Lemma lower_option_pair env x i t c :
  scope_lookup (cx_syms c) x = Some (SParam i (TOption t)) -> cx_depth c < 128 ->
  exists c', lower_numeric_pair (XVar x) XNone (lower_expr env (XVar x)) (lower_expr env XNone) None c =
    (Ok (MkExpr (TOption t) (EParam i), lit_expr (TOption t) VNone), c').
Proof.
  intros Hx Hd. unfold lower_numeric_pair. cbn [is_literal negb andb]. unfold mbind, stM_bind.
  assert (Hv : lower_expr env (XVar x) None c = (Ok (MkExpr (TOption t) (EParam i)), with_depth (cx_depth c + 1 - 1) (with_depth (cx_depth c + 1) c))).
  { change (checked_lower None (lower_var x) c = (Ok (MkExpr (TOption t) (EParam i)), with_depth (cx_depth c + 1 - 1) (with_depth (cx_depth c + 1) c))).
    rewrite (checked_ok None _ c (MkExpr (TOption t) (EParam i)) (with_depth (cx_depth c + 1) c)); [done|done| |done].
    unfold lower_var, reads, mbind, stM_bind. change (cx_syms (with_depth (cx_depth c + 1) c)) with (cx_syms c). by rewrite Hx. }
  rewrite Hv. cbn [expr_ty]. eexists.
  change (lower_expr env XNone (Some (TOption t))) with (checked_lower (Some (TOption t)) (mret (lit_expr (TOption t) VNone))).
  erewrite (checked_ok (Some (TOption t))); [reflexivity|cbn; lia|reflexivity|reflexivity].
Qed.

(** C26. Comparing an option with [None] is accepted by the lowering and decides
    only one way at run time.  In any scope where [x] is a parameter of an option
    type with comparable elements, [x == None] and [x != None] lower to a Boolean
    expression; whatever the module, the state and the other arguments, it has its
    right value when [x] is [None], and is refused with a type mismatch, instead of
    being decided, whenever [x] holds a value. *)
Theorem option_equality_refused env x i t op c expected m args group_key pre cand bindings :
  scope_lookup (cx_syms c) x = Some (SParam i (TOption t)) -> is_comparable t = true -> op = CEq \/ op = CNe ->
  cx_depth c < 127 -> expected = None \/ expected = Some TBool ->
  exists ir, (lower_expr env (XBin (BCmp op) (XVar x) XNone) expected c).1 = Ok ir /\ expr_ty ir = TBool /\
    (args !! Z.to_nat i = Some VNone ->
      eval m args group_key pre cand ir bindings = (Ok (VBool (match op with CEq => true | _ => false end)), bindings)) /\
    (forall v, args !! Z.to_nat i = Some (VSome v) ->
      eval m args group_key pre cand ir bindings = (Err TypeMismatch, bindings)).
Proof.
  intros Hx Ht Hop Hd He.
  exists (MkExpr TBool (EBin (BCmp op) (MkExpr (TOption t) (EParam i)) (lit_expr (TOption t) VNone))). split_and!; [|done|..].
  - destruct (lower_option_pair env x i t (with_depth (cx_depth c + 1) c) Hx ltac:(cbn; lia)) as [c' Hp].
    change (lower_expr env (XBin (BCmp op) (XVar x) XNone) expected) with
      (checked_lower expected (lower_bin (BCmp op) (XVar x) XNone (lower_expr env (XVar x)) (lower_expr env XNone) expected)).
    erewrite checked_ok; [reflexivity|lia| |by destruct He as [-> | ->]].
    unfold lower_bin, mbind, stM_bind. rewrite Hp. cbn [expr_ty]. cbn [is_comparable]. rewrite Ht. by destruct Hop as [-> | ->].
  - intros Ha. cbn. rewrite Ha. by destruct Hop as [-> | ->].
  - intros v Ha. cbn. by rewrite Ha.
Qed.

Lemma option_equality_refused_witness :
  exists ir, (lower_expr OptionDemo.env OptionDemo.is_absent (Some TBool) OptionDemo.ctx).1 = Ok ir /\
    eval OptionDemo.empty [VNone] None [] [] ir [] = (Ok (VBool true), []) /\
    eval OptionDemo.empty [VSome (VI64 7)] None [] [] ir [] = (Err TypeMismatch, []).
Proof.
  destruct (option_equality_refused OptionDemo.env (str "x") 0 TI64 CEq OptionDemo.ctx (Some TBool) OptionDemo.empty [VNone]
    None [] [] [] eq_refl eq_refl (or_introl eq_refl) eq_refl (or_intror eq_refl)) as (ir & Hl & _ & Hn & _).
  destruct (option_equality_refused OptionDemo.env (str "x") 0 TI64 CEq OptionDemo.ctx (Some TBool) OptionDemo.empty [VSome (VI64 7)]
    None [] [] [] eq_refl eq_refl (or_introl eq_refl) eq_refl (or_intror eq_refl)) as (ir' & Hl' & _ & _ & Hs).
  exists ir. split; [exact Hl|]. split; [exact (Hn eq_refl)|].
  unfold OptionDemo.is_absent in *. rewrite Hl in Hl'. injection Hl' as <-. exact (Hs _ eq_refl).
Defined.
