(* ===== verification/RaftTypes.v ===== *)
(** * Raft messages (src/crates/carolina-consensus/src/lib.rs: [Entry], [Message], [Envelope])

    The data that crosses the network and the disk, with its canonical
    encoding, and the fixed-membership configuration. *)

From S2P Require Import Prelude Errors ByteMap Hex Canon CanonRoundtrip CanonInt CanonTyped.

(** A node identity: sixteen bytes. *)
Abbreviation NodeId := bytes.

Record Entry : Type := MkEntry {
  e_term : Z;
  e_index : Z;
  e_data : bytes;
}.

Inductive Message : Type :=
| RequestVote (term last_log_index last_log_term : Z)
| RequestVoteReply (term : Z) (granted : bool)
| AppendEntries (term prev_log_index prev_log_term : Z) (entries : list Entry)
    (leader_commit read_round : Z)
| AppendEntriesReply (term : Z) (success : bool) (match_index read_round applied_index : Z).

Record Envelope : Type := MkEnvelope {
  env_from : NodeId;
  env_to : NodeId;
  env_msg : Message;
}.

#[global] Instance Entry_eq_dec : EqDecision Entry.
Proof. solve_decision. Defined.
#[global] Instance Message_eq_dec : EqDecision Message.
Proof. solve_decision. Defined.
#[global] Instance Envelope_eq_dec : EqDecision Envelope.
Proof. solve_decision. Defined.

Inductive Role : Type := Follower | Candidate | Leader.
#[global] Instance Role_eq_dec : EqDecision Role.
Proof. solve_decision. Defined.

(** ** Configuration *)
Record Config : Type := MkConfig {
  members : list NodeId;
  election_ticks_min : Z;
  election_ticks_max : Z;
  heartbeat_ticks : Z;
}.

(** [members.sort(); members.dedup()]: the sorted list of the distinct ids. *)
Definition sort_dedup (l : list NodeId) : list NodeId :=
  bkeys (foldr (fun k m => binsert k tt m) [] l).

Definition Config_new (ms : list NodeId) : Config := MkConfig (sort_dedup ms) 10 20 3.
Definition quorum (c : Config) : nat := length (members c) / 2 + 1.

(** ** Canonical forms *)
Definition fu64 (key : string) (v : Z) := fput key (cuint v).
Definition fstr (key : string) (s : string) := fput key (Str (str s)).
Definition get_u64 (key : string) (v : CanonValue) : CoreResult Z := x ← field (str key) v; as_u64 x.

Definition entry_to_canon (e : Entry) : CanonValue :=
  build (fu64 "term" (e_term e) (fu64 "index" (e_index e) (fput "data" (cbytes (e_data e)) obj))).
Definition entry_from_canon (v : CanonValue) : CoreResult Entry :=
  expect_fields [str "data"; str "index"; str "term"] v ≫= fun _ =>
  t ← get_u64 "term" v;
  i ← get_u64 "index" v;
  dv ← field (str "data") v;
  d ← as_bytes dv;
  Ok (MkEntry t i d).
Definition entry_codec : codec Entry := Codec entry_to_canon entry_from_canon.

Definition message_to_canon (m : Message) : CanonValue :=
  match m with
  | RequestVote term li lt =>
      build (fu64 "term" term (fu64 "last_log_term" lt (fu64 "last_log_index" li
        (fstr "kind" "RequestVote" obj))))
  | RequestVoteReply term granted =>
      build (fu64 "term" term (fstr "kind" "RequestVoteReply" (fput "granted" (Bool granted) obj)))
  | AppendEntries term pi pt es lc rr =>
      build (fu64 "term" term (fu64 "read_round" rr (fu64 "prev_log_term" pt
        (fu64 "prev_log_index" pi (fu64 "leader_commit" lc (fstr "kind" "AppendEntries"
          (fput "entries" (Array (map entry_to_canon es)) obj)))))))
  | AppendEntriesReply term success mi rr ai =>
      build (fu64 "term" term (fput "success" (Bool success) (fu64 "read_round" rr
        (fu64 "match_index" mi (fstr "kind" "AppendEntriesReply" (fu64 "applied_index" ai obj))))))
  end.

Definition message_from_canon (v : CanonValue) : CoreResult Message :=
  kv ← field (str "kind") v;
  k ← as_str kv;
  if bool_decide (k = str "RequestVote") then
    term ← get_u64 "term" v;
    li ← get_u64 "last_log_index" v;
    lt ← get_u64 "last_log_term" v;
    Ok (RequestVote term li lt)
  else if bool_decide (k = str "RequestVoteReply") then
    term ← get_u64 "term" v;
    gv ← field (str "granted") v;
    g ← as_bool gv;
    Ok (RequestVoteReply term g)
  else if bool_decide (k = str "AppendEntries") then
    term ← get_u64 "term" v;
    pi ← get_u64 "prev_log_index" v;
    pt ← get_u64 "prev_log_term" v;
    ev ← field (str "entries") v;
    ea ← as_array ev;
    es ← collect entry_from_canon ea;
    lc ← get_u64 "leader_commit" v;
    rr ← get_u64 "read_round" v;
    Ok (AppendEntries term pi pt es lc rr)
  else if bool_decide (k = str "AppendEntriesReply") then
    term ← get_u64 "term" v;
    sv ← field (str "success") v;
    s ← as_bool sv;
    mi ← get_u64 "match_index" v;
    rr ← get_u64 "read_round" v;
    ai ← get_u64 "applied_index" v;
    Ok (AppendEntriesReply term s mi rr ai)
  else Err NonCanonicalEncoding.
Definition message_codec : codec Message := Codec message_to_canon message_from_canon.

Definition envelope_to_canon (e : Envelope) : CanonValue :=
  build (fput "to" (to_canon id128_codec (env_to e)) (fput "msg" (message_to_canon (env_msg e))
    (fput "from" (to_canon id128_codec (env_from e)) obj))).
Definition envelope_from_canon (v : CanonValue) : CoreResult Envelope :=
  expect_fields [str "from"; str "msg"; str "to"] v ≫= fun _ =>
  fv ← field (str "from") v;
  f ← from_canon id128_codec fv;
  tv ← field (str "to") v;
  t ← from_canon id128_codec tv;
  mv ← field (str "msg") v;
  m ← message_from_canon mv;
  Ok (MkEnvelope f t m).
Definition envelope_codec : codec Envelope := Codec envelope_to_canon envelope_from_canon.

(** ** Ranges *)
Definition u64_ok (z : Z) : Prop := in_u 64 z = true.
Definition entry_ok (e : Entry) : Prop := u64_ok (e_term e) /\ u64_ok (e_index e) /\ bytes_ok (e_data e).
Definition message_ok (m : Message) : Prop :=
  match m with
  | RequestVote t li lt => u64_ok t /\ u64_ok li /\ u64_ok lt
  | RequestVoteReply t _ => u64_ok t
  | AppendEntries t pi pt es lc rr =>
      u64_ok t /\ u64_ok pi /\ u64_ok pt /\ Forall entry_ok es /\ u64_ok lc /\ u64_ok rr
  | AppendEntriesReply t _ mi rr ai => u64_ok t /\ u64_ok mi /\ u64_ok rr /\ u64_ok ai
  end.
Definition id_ok (b : NodeId) : Prop := bytes_ok b /\ length b = 16%nat.
Definition envelope_ok (e : Envelope) : Prop :=
  id_ok (env_from e) /\ id_ok (env_to e) /\ message_ok (env_msg e).

(** [field_is k x]: the lookup of a field with a literal name in a built object
    is decided by computation on the names. *)
Ltac field_is key v x :=
  change (field (str key) v) with (Ok x : CoreResult CanonValue).

Lemma get_u64_field key v z :
  u64_ok z -> field (str key) v = Ok (cuint z) -> get_u64 key v = Ok z.
Proof. intros Hz Hf. unfold get_u64. rewrite Hf. by apply as_u64_cuint. Qed.

#[global] Instance entry_codec_law : CodecLaw entry_codec entry_ok.
Proof.
  intros [t i d] (Ht & Hi & Hd). cbn [from_canon to_canon entry_codec]. unfold entry_from_canon.
  set (v := entry_to_canon _). change (expect_fields _ v) with (Ok tt : CoreResult unit).
  cbn [mbind outcome_bind].
  rewrite (get_u64_field "term" v t), (get_u64_field "index" v i) by done. cbn [mbind outcome_bind].
  field_is "data" v (cbytes d). cbn [mbind outcome_bind].
  rewrite (bytes_codec_law d Hd : as_bytes (cbytes d) = Ok d). done.
Qed.

Lemma collect_entries es :
  Forall entry_ok es -> collect entry_from_canon (map entry_to_canon es) = Ok es.
Proof.
  intros H. apply collect_map. intros e He. apply entry_codec_law.
  rewrite Forall_forall in H. auto.
Qed.

#[global] Instance message_codec_law : CodecLaw message_codec message_ok.
Proof.
  intros m Hm. cbn [from_canon to_canon message_codec]. unfold message_from_canon.
  set (v := message_to_canon m).
  destruct m as [t li lt|t g|t pi pt es lc rr|t s mi rr ai]; cbn [message_ok] in Hm; destruct_and?.
  - field_is "kind" v (Str (str "RequestVote")). cbn [mbind outcome_bind as_str].
    rewrite bool_decide_eq_true_2 by done.
    by rewrite (get_u64_field "term" v t), (get_u64_field "last_log_index" v li),
      (get_u64_field "last_log_term" v lt).
  - field_is "kind" v (Str (str "RequestVoteReply")). cbn [mbind outcome_bind as_str].
    rewrite bool_decide_eq_false_2, bool_decide_eq_true_2 by done.
    rewrite (get_u64_field "term" v t) by done. cbn [mbind outcome_bind].
    by field_is "granted" v (Bool g).
  - field_is "kind" v (Str (str "AppendEntries")). cbn [mbind outcome_bind as_str].
    rewrite bool_decide_eq_false_2, bool_decide_eq_false_2, bool_decide_eq_true_2 by done.
    rewrite (get_u64_field "term" v t), (get_u64_field "prev_log_index" v pi),
      (get_u64_field "prev_log_term" v pt) by done. cbn [mbind outcome_bind].
    field_is "entries" v (Array (map entry_to_canon es)). cbn [mbind outcome_bind as_array].
    rewrite collect_entries by done. cbn [mbind outcome_bind].
    by rewrite (get_u64_field "leader_commit" v lc), (get_u64_field "read_round" v rr).
  - field_is "kind" v (Str (str "AppendEntriesReply")). cbn [mbind outcome_bind as_str].
    rewrite bool_decide_eq_false_2, bool_decide_eq_false_2, bool_decide_eq_false_2,
      bool_decide_eq_true_2 by done.
    rewrite (get_u64_field "term" v t) by done. cbn [mbind outcome_bind].
    field_is "success" v (Bool s). cbn [mbind outcome_bind as_bool].
    by rewrite (get_u64_field "match_index" v mi), (get_u64_field "read_round" v rr),
      (get_u64_field "applied_index" v ai).
Qed.

#[global] Instance envelope_codec_law : CodecLaw envelope_codec envelope_ok.
Proof.
  intros [f t m] (Hf & Ht & Hm). cbn [env_from env_to env_msg] in *.
  cbn [from_canon to_canon envelope_codec]. unfold envelope_from_canon.
  set (v := envelope_to_canon _). change (expect_fields _ v) with (Ok tt : CoreResult unit).
  cbn [mbind outcome_bind].
  field_is "from" v (to_canon id128_codec f). cbn [mbind outcome_bind].
  rewrite (id128_codec_law f Hf). cbn [mbind outcome_bind].
  field_is "to" v (to_canon id128_codec t). cbn [mbind outcome_bind].
  rewrite (id128_codec_law t Ht). cbn [mbind outcome_bind].
  field_is "msg" v (message_to_canon m). cbn [mbind outcome_bind].
  rewrite (message_codec_law m Hm : message_from_canon (message_to_canon m) = Ok m). done.
Qed.

(** Every Raft envelope survives the canonical projection: for messages
    whose fields are in range, reading back the projection of an envelope
    gives the same envelope, for all four message kinds. *)
Theorem envelope_roundtrip (e : Envelope) (He : envelope_ok e) :
  envelope_from_canon (envelope_to_canon e) = Ok e.
Proof. exact (envelope_codec_law e He). Qed.

Lemma envelope_roundtrip_witness :
  let e := MkEnvelope (replicate 16 1) (replicate 16 2)
             (AppendEntries 3 2 1 [MkEntry 3 3 [120]] 2 7) in
  envelope_from_canon (envelope_to_canon e) = Ok e.
Proof.
  apply envelope_roundtrip. unfold envelope_ok, id_ok, message_ok, entry_ok, u64_ok. cbn.
  split_and!; try reflexivity;
    apply (bool_decide_eq_true_1 (Forall _ _)) || (repeat constructor; try reflexivity; unfold byte_ok; lia);
    vm_compute; reflexivity.
Defined.
