(* ===== verification/RaftStorage.v ===== *)
(** * Durable Raft state (src/crates/carolina-consensus/src/storage.rs)

    The [RaftStorage] trait as a class of operations with its laws, the
    in-memory implementation, and the file-backed one.  A file is its contents
    as the running system sees it; every call of a write operation (create,
    write, sync, rename, open) succeeds or fails as a list of answers says, a
    failed write may leave a prefix of its bytes, and the error is returned the
    way [?] returns it, with the state changed so far.  The reads of [open] and
    [load] and the truncation of a torn tail at [open] are taken to succeed.
    The checksum is the crc32c crate, a parameter here. *)

From S2P Require Import Prelude Errors ByteMap Hex Canon CanonRoundtrip CanonInt CanonTyped RaftTypes StateMonad.

Record Persistent : Type := MkPersistent {
  p_term : Z;
  p_voted_for : option NodeId;
  p_entries : list Entry;
  p_snapshot_index : Z;
  p_snapshot_term : Z;
}.
#[global] Instance Persistent_eta : Eta Persistent := fun p =>
  MkPersistent (p_term p) (p_voted_for p) (p_entries p) (p_snapshot_index p) (p_snapshot_term p).

(** [Persistent::default()]. *)
Definition Persistent_default : Persistent := MkPersistent 0 None [] 0 0.

(** [retain(|e| e.index < from)] and [retain(|e| e.index > index)]. *)
Definition retain_below (from : Z) (l : list Entry) : list Entry :=
  filter (fun e => e_index e < from) l.
Definition retain_above (index : Z) (l : list Entry) : list Entry :=
  filter (fun e => index < e_index e) l.

(** What each write does to the persistent state. *)
Definition p_save (t : Z) (v : option NodeId) (p : Persistent) : Persistent :=
  p <| p_term := t |> <| p_voted_for := v |>.
Definition p_append (es : list Entry) (p : Persistent) : Persistent :=
  p <| p_entries := p_entries p ++ es |>.
Definition p_truncate (from : Z) (p : Persistent) : Persistent :=
  p <| p_entries := retain_below from (p_entries p) |>.
Definition p_compact (index term : Z) (p : Persistent) : Persistent :=
  p <| p_snapshot_index := index |> <| p_snapshot_term := term |>
    <| p_entries := retain_above index (p_entries p) |>.

(** ** The trait

    A write returns the storage it leaves behind also when it fails. *)
Class RaftStorage (S : Type) : Type := {
  load : S -> CoreResult Persistent;
  save_term_vote : Z -> option NodeId -> S -> CoreResult unit * S;
  append : list Entry -> S -> CoreResult unit * S;
  truncate_from : Z -> S -> CoreResult unit * S;
  compact_to : Z -> Z -> S -> CoreResult unit * S;
}.

(** A write is atomic: it either took effect or it did not, and it did when it
    reports success. *)
Definition write_law {S} `{RaftStorage S} (op : S -> CoreResult unit * S)
    (effect : Persistent -> Persistent) (s : S) (p : Persistent) : Prop :=
  load s = Ok p ->
  match op s with
  | (Ok _, s') => load s' = Ok (effect p)
  | (_, s') => load s' = Ok p \/ load s' = Ok (effect p)
  end.

(** What the consensus core relies on.  [compact_to] is called with an index
    above the current base only. *)
Class RaftStorageLaws (S : Type) `{RaftStorage S} : Prop := {
  save_law t v s p : write_law (save_term_vote t v) (p_save t v) s p;
  append_law es s p : write_law (append es) (p_append es) s p;
  truncate_law from s p : write_law (truncate_from from) (p_truncate from) s p;
  compact_law i t s p : p_snapshot_index p < i -> write_law (compact_to i t) (p_compact i t) s p;
}.

(** ** [MemRaftStorage] *)
Record MemRaftStorage : Type := MkMem {
  m_state : Persistent;
  m_writes : Z;
  m_compactions : Z;
}.
Definition mem_write (f : Persistent -> Persistent) (m : MemRaftStorage) : CoreResult unit * MemRaftStorage :=
  match (uadd 64 (m_writes m) 1 : CoreResult Z) with
  | Ok w => (Ok tt, MkMem (f (m_state m)) w (m_compactions m))
  | _ => (Panic, MkMem (f (m_state m)) (m_writes m) (m_compactions m))
  end.
Definition mem_compact (i t : Z) (m : MemRaftStorage) : CoreResult unit * MemRaftStorage :=
  match mem_write (p_compact i t) m with
  | (Ok _, m') =>
      match (uadd 64 (m_compactions m') 1 : CoreResult Z) with
      | Ok c => (Ok tt, MkMem (m_state m') (m_writes m') c)
      | _ => (Panic, m')
      end
  | r => r
  end.
Definition mem_default : MemRaftStorage := MkMem Persistent_default 0 0.

#[global] Instance MemRaftStorage_ops : RaftStorage MemRaftStorage := {|
  load m := Ok (m_state m);
  save_term_vote t v := mem_write (p_save t v);
  append es := mem_write (p_append es);
  truncate_from from := mem_write (p_truncate from);
  compact_to i t := mem_compact i t;
|}.

Lemma mem_write_law f m p : write_law (mem_write f) f m p.
Proof. intros [= <-]. unfold mem_write. destruct (uadd _ _ _); cbn; auto. Qed.

#[global] Instance MemRaftStorage_laws : RaftStorageLaws MemRaftStorage.
Proof.
  split; intros; try apply mem_write_law. intros [= <-]. cbn. unfold mem_compact, mem_write.
  destruct (uadd 64 (m_writes s) 1); cbn; auto. destruct (uadd 64 (m_compactions s) 1); cbn; auto.
Qed.

(** ** [FileRaftStorage] *)
Definition FRAME_MAGIC : bytes := str "CRFT".

Section file_storage.
Context (crc32c : bytes -> Z).

Definition frame (e : Entry) : bytes :=
  let body := encode_typed entry_codec e in
  FRAME_MAGIC ++ le_encode 4 (Z.of_nat (length body)) ++ le_encode 4 (crc32c body) ++ body.

Definition frames (es : list Entry) : bytes := concat (map frame es).

(** The loop of [open] over the log bytes that remain from [pos]; returns the
    entries and the bytes of the torn tail. *)
Fixpoint scan (fuel : nat) (base : Z) (bs : bytes) (entries : list Entry) :
    CoreResult (list Entry * bytes) :=
  match fuel with
  | O => Panic
  | S fuel' =>
      if Z.of_nat (length bs) <? 12 then Ok (entries, bs)
      else if negb (bool_decide (take 4 bs = FRAME_MAGIC)) then Err Corruption
      else
        let len := Z.to_nat (le_decode (take 4 (drop 4 bs))) in
        let crc := le_decode (take 4 (drop 8 bs)) in
        if (length bs <? 12 + len)%nat then Ok (entries, bs)
        else
          let body := take len (drop 12 bs) in
          let rest := drop (12 + len) bs in
          if negb (crc32c body =? crc) then Err ChecksumMismatch
          else
            e ← decode_typed entry_codec Limits_v1 body;
            if e_index e <=? base then scan fuel' base rest entries
            else
              expected ← match last entries with
                         | Some l => uadd 64 (e_index l) 1
                         | None => uadd 64 base 1
                         end;
              if negb (e_index e =? expected) then Err Corruption
              else scan fuel' base rest (entries ++ [e])
  end.

(** ** [raft.state] *)
Definition state_canon (base base_term term : Z) (voted_for : option NodeId) : CanonValue :=
  build (fput "voted_for" (to_canon (option_codec id128_codec) voted_for) (fu64 "term" term
    (fu64 "snapshot_term" base_term (fu64 "snapshot_index" base obj)))).

Definition read_base (state : option bytes) : CoreResult (Z * Z) :=
  match state with
  | None => Ok (0, 0)
  | Some bs =>
      v ← decode Limits_v1 bs;
      match field (str "snapshot_index") v, field (str "snapshot_term") v with
      | Ok i, Ok t => i' ← as_u64 i; t' ← as_u64 t; Ok (i', t')
      | _, _ => Ok (0, 0)
      end
  end.

Definition read_state (state : option bytes) : CoreResult (Z * option NodeId) :=
  match state with
  | None => Ok (0, None)
  | Some bs =>
      v ← decode Limits_v1 bs;
      term ← get_u64 "term" v;
      vv ← field (str "voted_for") v;
      voted ← (if is_null vv then Ok None else x ← from_canon id128_codec vv; Ok (Some x));
      Ok (term, voted)
  end.

(** What the operating system answers to one call: an error has a kind, and a
    failed [write_all] may have written a prefix of its bytes. *)
Inductive IoErrorKind : Type := StorageFull | OtherKind.
Inductive IoAnswer : Type := IoDone | IoFailed (kind : IoErrorKind) (written : nat).

(** [impl From<std::io::Error> for CoreError]. *)
Definition io_code (k : IoErrorKind) : ErrorCode :=
  match k with StorageFull => DiskFull | OtherKind => Io end.

(** [f_attached]: the handle [log] is the file now named [raft.log]; between
    the rename and the reopening in [rewrite_log] it is the replaced file.
    [f_io] are the answers to the calls to come; past its end calls succeed. *)
Record FileRaftStorage : Type := MkFile {
  f_log : bytes;                (* raft.log *)
  f_state : option bytes;       (* raft.state, when it exists *)
  f_entries : list Entry;
  f_snapshot_index : Z;
  f_snapshot_term : Z;
  f_attached : bool;
  f_io : list IoAnswer;
}.
#[global] Instance FileRaftStorage_eta : Eta FileRaftStorage := fun f =>
  MkFile (f_log f) (f_state f) (f_entries f) (f_snapshot_index f) (f_snapshot_term f)
    (f_attached f) (f_io f).

(** A call that changes no file [open] reads: creating, writing or syncing a
    temporary file, renaming it (the change follows when it succeeds), opening
    or syncing the log. *)
Definition io_call : stM FileRaftStorage unit := fun f =>
  match f_io f with
  | [] => (Ok tt, f)
  | IoDone :: r => (Ok tt, f <| f_io := r |>)
  | IoFailed k _ :: r => (Err (io_code k), f <| f_io := r |>)
  end.

(** [self.log.write_all(buf)]. *)
Definition log_put (buf : bytes) (f : FileRaftStorage) : FileRaftStorage :=
  if f_attached f then f <| f_log := f_log f ++ buf |> else f.
Definition log_write (buf : bytes) : stM FileRaftStorage unit := fun f =>
  match f_io f with
  | [] => (Ok tt, log_put buf f)
  | IoDone :: r => (Ok tt, log_put buf (f <| f_io := r |>))
  | IoFailed k n :: r => (Err (io_code k), log_put (take n buf) (f <| f_io := r |>))
  end.

(** [open]: [log] and [state] are the files found in the directory, [io] the
    answers the opened store will get. *)
Definition file_open (io : list IoAnswer) (log state : option bytes) : CoreResult FileRaftStorage :=
  '(entries, kept) ←
    match log with
    | None => Ok ([], [])
    | Some bs =>
        '(base, _) ← read_base state;
        '(entries, tail) ← scan (S (length bs)) base bs [];
        Ok (entries, take (length bs - length tail) bs)
    end;
  '(base, base_term) ← read_base state;
  Ok (MkFile kept state entries base base_term true io).

Definition file_load (f : FileRaftStorage) : CoreResult Persistent :=
  '(term, voted) ← read_state (f_state f);
  Ok (MkPersistent term voted (f_entries f) (f_snapshot_index f) (f_snapshot_term f)).

(** The file [raft.state.tmp] is created, written and synced, then renamed. *)
Definition replace_state (v : bytes) : stM FileRaftStorage unit :=
  io_call (* File::create *) ≫= fun _ =>
  io_call (* write_all *) ≫= fun _ =>
  io_call (* sync_all *) ≫= fun _ =>
  io_call (* rename *) ≫= fun _ =>
  update_st (fun f => f <| f_state := Some v |>).

Definition file_save (t : Z) (v : option NodeId) : stM FileRaftStorage unit :=
  b ← reads f_snapshot_index;
  bt ← reads f_snapshot_term;
  replace_state (encode (state_canon b bt t v)).

Definition file_append (es : list Entry) : stM FileRaftStorage unit :=
  log_write (frames es) ≫= fun _ =>
  io_call (* sync_data *) ≫= fun _ =>
  update_st (fun f => f <| f_entries := f_entries f ++ es |>).

(** [rewrite_log] writes the frames of the entries kept in memory, one call
    per entry, renames the file over [raft.log] and reopens it. *)
Definition rewrite_log : stM FileRaftStorage unit :=
  es ← reads f_entries;
  io_call (* File::create *) ≫= fun _ =>
  st_fold (fun _ (_ : unit) => io_call (* write_all *)) es tt ≫= fun _ =>
  io_call (* sync_all *) ≫= fun _ =>
  io_call (* rename *) ≫= fun _ =>
  update_st (fun f => f <| f_log := frames es |> <| f_attached := false |>) ≫= fun _ =>
  io_call (* open *) ≫= fun _ =>
  update_st (fun f => f <| f_attached := true |>) ≫= fun _ =>
  io_call (* sync_all *).

Definition file_truncate (from : Z) : stM FileRaftStorage unit :=
  update_st (fun f => f <| f_entries := retain_below from (f_entries f) |>) ≫= fun _ =>
  rewrite_log.

(** The base in memory changes before the files; the state file is replaced
    before the log. *)
Definition file_compact (index term : Z) : stM FileRaftStorage unit :=
  base ← reads f_snapshot_index;
  if index <=? base then mret tt
  else
    state ← reads f_state;
    '(cur_term, voted) ← lift (read_state state);
    update_st (fun f => f <| f_snapshot_index := index |> <| f_snapshot_term := term |>) ≫= fun _ =>
    replace_state (encode (state_canon index term cur_term voted)) ≫= fun _ =>
    update_st (fun f => f <| f_entries := retain_above index (f_entries f) |>) ≫= fun _ =>
    rewrite_log.

#[global] Instance FileRaftStorage_ops : RaftStorage FileRaftStorage := {|
  load := file_load;
  save_term_vote := file_save;
  append := file_append;
  truncate_from := file_truncate;
  compact_to := file_compact;
|}.

(** ** Reading back what was written *)
Context (crc_range : forall b, in_u 32 (crc32c b) = true).

(** An entry whose frame [open] can decode again. *)
Definition frame_ok (e : Entry) : Prop :=
  entry_ok e /\ canon_ok Limits_v1 0 (entry_to_canon e) /\
  bytes_ok (encode_typed entry_codec e) /\
  Z.of_nat (length (encode_typed entry_codec e)) <= max_payload_bytes Limits_v1.

(** Indices that continue from [k]. *)
Fixpoint contiguous (k : Z) (es : list Entry) : Prop :=
  match es with
  | [] => True
  | e :: es' => e_index e = k + 1 /\ contiguous (k + 1) es'
  end.

Lemma frame_length e : length (frame e) = (12 + length (encode_typed entry_codec e))%nat.
Proof. unfold frame. rewrite !length_app, !le_encode_length. done. Qed.

(** One turn of the loop on a complete frame: its header fields are read back. *)
Definition scan_next (fuel : nat) (base : Z) (rest : bytes) (acc : list Entry) (e : Entry) :
    CoreResult (list Entry * bytes) :=
  if e_index e <=? base then scan fuel base rest acc
  else
    expected ← match last acc with
               | Some l => uadd 64 (e_index l) 1
               | None => uadd 64 base 1
               end;
    if negb (e_index e =? expected) then Err Corruption else scan fuel base rest (acc ++ [e]).

Lemma scan_header fuel base e rest acc :
  Z.of_nat (length (encode_typed entry_codec e)) < 2 ^ 32 ->
  scan (S fuel) base (frame e ++ rest) acc =
  decode_typed entry_codec Limits_v1 (encode_typed entry_codec e) ≫= scan_next fuel base rest acc.
Proof.
  intros Hl. cbn [scan]. pose proof (frame_length e) as HL.
  set (body := encode_typed entry_codec e) in *.
  rewrite (proj2 (Z.ltb_ge _ _)) by (rewrite length_app, HL; lia).
  assert (E0 : frame e ++ rest =
    FRAME_MAGIC ++ le_encode 4 (Z.of_nat (length body)) ++ le_encode 4 (crc32c body) ++ body ++ rest).
  { unfold frame. by rewrite <- !app_assoc. }
  assert (T4 : take 4 (frame e ++ rest) = FRAME_MAGIC) by (rewrite E0; done).
  assert (D4 : take 4 (drop 4 (frame e ++ rest)) = le_encode 4 (Z.of_nat (length body))).
  { rewrite E0. change 4%nat with (length FRAME_MAGIC) at 2. rewrite drop_app_length.
    by rewrite take_app_length' by (by rewrite le_encode_length). }
  assert (D8 : take 4 (drop 8 (frame e ++ rest)) = le_encode 4 (crc32c body)).
  { rewrite E0, app_assoc. rewrite drop_app_length' by (rewrite length_app, le_encode_length; done).
    by rewrite take_app_length' by (by rewrite le_encode_length). }
  assert (D12 : drop 12 (frame e ++ rest) = body ++ rest).
  { rewrite E0, !(app_assoc _ _ (body ++ rest)), !app_assoc, <- (app_assoc _ body rest).
    apply drop_app_length'. rewrite !length_app, !le_encode_length. done. }
  rewrite T4, D4, D8, D12. rewrite bool_decide_eq_true_2 by done. cbn [negb].
  change (2 ^ 32) with (256 ^ Z.of_nat 4) in Hl.
  rewrite !le_decode_encode; [|specialize (crc_range body); apply in_u_spec in crc_range;
    change (256 ^ Z.of_nat 4) with (2 ^ 32); done|lia].
  rewrite Nat2Z.id. rewrite (proj2 (Nat.ltb_ge _ _)) by (rewrite length_app, HL; lia).
  rewrite take_app_length, Z.eqb_refl. cbn [negb].
  replace (drop (12 + length body) (frame e ++ rest)) with rest
    by (rewrite <- drop_drop, D12; by rewrite drop_app_length).
  done.
Qed.

Lemma scan_frame fuel base e rest acc :
  frame_ok e -> scan (S fuel) base (frame e ++ rest) acc = scan_next fuel base rest acc e.
Proof.
  intros (Hok & Hc & Hb & Hl).
  assert (Hp : max_payload_bytes Limits_v1 < 2 ^ 32) by (vm_compute; reflexivity).
  rewrite scan_header by lia.
  by rewrite (decode_typed_encode entry_codec entry_ok) by (done || (vm_compute; discriminate)).
Qed.

Lemma last_snoc {A} (l : list A) x : last (l ++ [x]) = Some x.
Proof. apply last_snoc. Qed.

(** The log base plus the entries accepted so far: where the next index goes. *)
Definition next_of (base : Z) (acc : list Entry) : Z :=
  match last acc with Some l => e_index l | None => base end.

Lemma scan_above fuel base es tail acc :
  Forall frame_ok es -> contiguous (next_of base acc) es -> base <= next_of base acc ->
  (length es <= fuel)%nat ->
  scan fuel base (frames es ++ tail) acc =
  scan (fuel - length es) base tail (acc ++ es).
Proof.
  revert fuel acc; induction es as [|e es IH]; intros fuel acc Hok Hc Hb Hf.
  { cbn [frames concat map app length]. by rewrite Nat.sub_0_r, app_nil_r. }
  apply Forall_cons in Hok as [He Hok]. cbn [contiguous] in Hc. destruct Hc as [Hi Hc].
  destruct fuel as [|fuel]; [cbn in Hf; lia|].
  change (frames (e :: es)) with (frame e ++ frames es). rewrite <- app_assoc, scan_frame by done. unfold scan_next.
  rewrite (proj2 (Z.leb_gt _ _)) by lia.
  assert (Hu : in_u 64 (next_of base acc + 1) = true) by (rewrite <- Hi; apply He).
  assert (Hexp : match last acc with Some l => uadd 64 (e_index l) 1 | None => uadd 64 base 1 end
                 = (Ok (next_of base acc + 1) : CoreResult Z)).
  { unfold next_of in *. destruct (last acc); by apply uadd_ok. }
  rewrite Hexp. cbn [mbind outcome_bind]. rewrite Hi, Z.eqb_refl. cbn [negb].
  assert (Hn : next_of base (acc ++ [e]) = next_of base acc + 1)
    by (unfold next_of at 1; rewrite last_snoc; done).
  rewrite IH by (rewrite ?Hn; done || lia || (cbn in Hf; lia)).
  cbn [length]. by rewrite <- app_assoc.
Qed.

(** Redundant entries at or below the base are skipped. *)
Lemma scan_skip fuel base es tail :
  Forall frame_ok es -> Forall (fun e => e_index e <= base) es -> (length es <= fuel)%nat ->
  scan fuel base (frames es ++ tail) [] = scan (fuel - length es) base tail [].
Proof.
  revert fuel; induction es as [|e es IH]; intros fuel Hok Hb Hf.
  { cbn [frames concat map app length]. by rewrite Nat.sub_0_r. }
  apply Forall_cons in Hok as [He Hok]. apply Forall_cons in Hb as [Hbe Hb].
  destruct fuel as [|fuel]; [cbn in Hf; lia|].
  change (frames (e :: es)) with (frame e ++ frames es). rewrite <- app_assoc, scan_frame by done. unfold scan_next.
  rewrite (proj2 (Z.leb_le _ _)) by done. rewrite IH by (done || (cbn in Hf; lia)). done.
Qed.

(** A tail that is a proper prefix of a frame ends the scan. *)
Lemma scan_torn fuel base e junk more acc :
  frame_ok e -> frame e = junk ++ more -> more <> [] -> (0 < fuel)%nat ->
  scan fuel base junk acc = Ok (acc, junk).
Proof.
  intros (Hok & Hc & Hb & Hl) Hj Hm Hf. destruct fuel as [|fuel]; [lia|]. cbn [scan].
  assert (HL := frame_length e). rewrite Hj, length_app in HL.
  set (body := encode_typed entry_codec e) in *.
  assert (0 < length more)%nat by (destruct more; [done|cbn; lia]).
  destruct (Z.ltb_spec (Z.of_nat (length junk)) 12); [done|].
  assert (Hpre : forall k n, (k + n <= length junk)%nat -> take n (drop k junk) = take n (drop k (frame e))).
  { intros k n Hk. rewrite Hj, drop_app_le by lia. rewrite take_app_le; [done|]. rewrite length_drop. lia. }
  assert (E0 : frame e =
    FRAME_MAGIC ++ le_encode 4 (Z.of_nat (length body)) ++ le_encode 4 (crc32c body) ++ body) by done.
  change (take 4 junk) with (take 4 (drop 0 junk)). rewrite !Hpre by lia.
  replace (take 4 (drop 0 (frame e))) with FRAME_MAGIC by (rewrite E0; done).
  rewrite bool_decide_eq_true_2 by done. cbn [negb].
  replace (take 4 (drop 4 (frame e))) with (le_encode 4 (Z.of_nat (length body))).
  2:{ rewrite E0. change 4%nat with (length FRAME_MAGIC) at 3. rewrite drop_app_length.
      by rewrite take_app_length' by (by rewrite le_encode_length). }
  assert (Hp : max_payload_bytes Limits_v1 < 256 ^ Z.of_nat 4) by (vm_compute; reflexivity).
  rewrite le_decode_encode by lia. rewrite Nat2Z.id.
  by rewrite (proj2 (Nat.ltb_lt _ _)) by lia.
Qed.

(** ** Limits: which entries can be read back *)
Lemma u64_fits lim z : u64_ok z -> 12 <= max_scalar_bytes lim -> str_fits lim (dec_text z).
Proof. intros Hz Hl. destruct (dec_text_u64 z Hz) as [Hp Hn]. apply plain_fits; [done|lia]. Qed.

Lemma id_fits lim b : id_ok b -> 24 <= max_scalar_bytes lim -> str_fits lim (hex_encode b).
Proof.
  intros [Hb Hn] Hl. apply plain_fits; [by apply hex_plain|]. rewrite hex_encode_length. lia.
Qed.

(** The length of a member with plain name and text. *)
Lemma member_length k s :
  plain k = true -> plain s = true ->
  length (write_string k ++ 58 :: encode (Str s)) = (length k + length s + 5)%nat.
Proof.
  intros Hk Hs. cbn [encode]. rewrite !write_string_plain by done.
  rewrite length_app. cbn [length]. rewrite !length_app. cbn [length]. lia.
Qed.

Definition entry_fits (e : Entry) : Prop :=
  entry_ok e /\ 2 * Z.of_nat (length (e_data e)) <= max_scalar_bytes Limits_v1 + 8.

Ltac literal_key :=
  split; [apply plain_fits; [reflexivity|vm_compute; discriminate]|reflexivity].

Lemma entry_canon_ok lim e :
  entry_ok e -> 1 <= max_depth lim -> 3 <= max_collection_len lim -> 12 <= max_scalar_bytes lim ->
  2 * Z.of_nat (length (e_data e)) <= max_scalar_bytes lim + 8 ->
  canon_ok lim 0 (entry_to_canon e).
Proof.
  destruct e as [t i d]. intros (Ht & Hi & Hd) Hdep Hcol Hsc Hl. cbn [e_data e_term e_index] in *.
  apply ok_object; [done|done| |].
  - cbn. split_and!; repeat constructor.
  - repeat apply Forall_cons_2; try apply Forall_nil_2; cbn [fst snd];
      (split; [split; [apply plain_fits; [reflexivity|cbn [length str]; lia]|reflexivity]|apply ok_str]).
    + apply plain_fits; [by apply hex_plain|]. rewrite hex_encode_length. cbn [e_data]. lia.
    + by apply u64_fits.
    + by apply u64_fits.
Qed.

Lemma entry_encode_length e :
  entry_ok e -> Z.of_nat (length (encode_typed entry_codec e)) <= 2 * Z.of_nat (length (e_data e)) + 80.
Proof.
  destruct e as [t i d]. intros (Ht & Hi & Hd). cbn [e_data e_term e_index] in *. unfold encode_typed.
  change (encode (to_canon entry_codec (MkEntry t i d))) with
    (123 :: ((write_string (str "data") ++ 58 :: encode (Str (hex_encode d))) ++ 44 ::
      (write_string (str "index") ++ 58 :: encode (Str (dec_text i))) ++ 44 ::
      (write_string (str "term") ++ 58 :: encode (Str (dec_text t)))) ++ [125]).
  destruct (dec_text_u64 t Ht) as [Pt Lt]. destruct (dec_text_u64 i Hi) as [Pi Li].
  cbn [length]. rewrite length_app. cbn [length]. rewrite length_app, member_length by (done || by apply hex_plain).
  cbn [length]. rewrite length_app, member_length by done. cbn [length]. rewrite member_length by done.
  rewrite hex_encode_length. cbn [length str] in *. lia.
Qed.

Lemma entry_frame_ok e : entry_fits e -> frame_ok e.
Proof.
  intros [He Hl]. assert (Hc : canon_ok Limits_v1 0 (entry_to_canon e))
    by (apply entry_canon_ok; first [done | vm_compute; discriminate]).
  split_and!; try done; [by eapply canon_ok_bytes|]. pose proof (entry_encode_length e He).
  change (max_scalar_bytes Limits_v1) with 1048576 in Hl.
  change (max_payload_bytes Limits_v1) with 16777216. lia.
Qed.

(** ** The state file *)
Definition vote_ok (v : option NodeId) : Prop := match v with Some b => id_ok b | None => True end.
Definition state_ok (b bt t : Z) (v : option NodeId) : Prop :=
  u64_ok b /\ u64_ok bt /\ u64_ok t /\ vote_ok v.

Lemma state_decode b bt t v :
  state_ok b bt t v -> decode Limits_v1 (encode (state_canon b bt t v)) = Ok (state_canon b bt t v).
Proof.
  intros (Hb & Hbt & Ht & Hv).
  assert (Hc : canon_ok Limits_v1 0 (state_canon b bt t v)).
  { apply ok_object; [vm_compute; discriminate|vm_compute; discriminate| |].
    - cbn. split_and!; repeat constructor.
    - repeat apply Forall_cons_2; try apply Forall_nil_2; cbn [fst snd]; (split; [literal_key|]);
        try (apply ok_str, u64_fits; [done|vm_compute; discriminate]).
      destruct v as [x|]; [|apply ok_null]. apply ok_str, id_fits; [done|vm_compute; discriminate]. }
  apply decode_canonical; [vm_compute; discriminate|by eapply canon_ok_bytes|done|].
  change (encode (state_canon b bt t v)) with
    (123 :: ((write_string (str "snapshot_index") ++ 58 :: encode (Str (dec_text b))) ++ 44 ::
      (write_string (str "snapshot_term") ++ 58 :: encode (Str (dec_text bt))) ++ 44 ::
      (write_string (str "term") ++ 58 :: encode (Str (dec_text t))) ++ 44 ::
      (write_string (str "voted_for") ++ 58 :: encode (to_canon (option_codec id128_codec) v))) ++ [125]).
  destruct (dec_text_u64 b Hb) as [Pb Lb]. destruct (dec_text_u64 bt Hbt) as [Pbt Lbt].
  destruct (dec_text_u64 t Ht) as [Pt Lt].
  assert (Lv : Z.of_nat (length (write_string (str "voted_for") ++ 58 :: encode (to_canon (option_codec id128_codec) v))) <= 50).
  { destruct v as [x|]; [|vm_compute; discriminate]. destruct Hv as [Hx Hn].
    change (to_canon (option_codec id128_codec) (Some x)) with (Str (hex_encode x)).
    rewrite member_length by (done || by apply hex_plain). rewrite hex_encode_length, Hn. cbn. lia. }
  cbn [length]. rewrite length_app. cbn [length]. rewrite length_app, member_length by done.
  cbn [length]. rewrite length_app, member_length by done. cbn [length].
  rewrite length_app, member_length by done. cbn [length str] in *.
  change (max_payload_bytes Limits_v1) with 16777216. lia.
Qed.

Lemma read_base_state b bt t v :
  state_ok b bt t v -> read_base (Some (encode (state_canon b bt t v))) = Ok (b, bt).
Proof.
  intros H. unfold read_base. rewrite state_decode by done. cbn [mbind outcome_bind].
  destruct H as (Hb & Hbt & _ & _). set (s := state_canon b bt t v).
  field_is "snapshot_index" s (cuint b). field_is "snapshot_term" s (cuint bt).
  cbv beta iota. by rewrite !as_u64_cuint.
Qed.

Lemma read_state_state b bt t v :
  state_ok b bt t v -> read_state (Some (encode (state_canon b bt t v))) = Ok (t, v).
Proof.
  intros H. unfold read_state. rewrite state_decode by done. cbn [mbind outcome_bind].
  destruct H as (_ & _ & Ht & Hv). set (s := state_canon b bt t v).
  rewrite (get_u64_field "term" s t) by done. cbn [mbind outcome_bind].
  field_is "voted_for" s (to_canon (option_codec id128_codec) v). cbn [mbind outcome_bind].
  destruct v as [x|]; [|done].
  change (to_canon (option_codec id128_codec) (Some x)) with (to_canon id128_codec x).
  rewrite (id128_codec_law x Hv). done.
Qed.

(** ** The invariant between operations *)
Definition state_file_ok (f : FileRaftStorage) : Prop :=
  match f_state f with
  | None => f_snapshot_index f = 0 /\ f_snapshot_term f = 0
  | Some bs => exists t v, bs = encode (state_canon (f_snapshot_index f) (f_snapshot_term f) t v) /\
      state_ok (f_snapshot_index f) (f_snapshot_term f) t v
  end.
(** The log file holds the entries, possibly behind redundant ones at or below
    the base that an interrupted compaction left. *)
Definition log_file_ok (f : FileRaftStorage) : Prop :=
  exists low, f_log f = frames (low ++ f_entries f) /\ Forall frame_ok low /\
    Forall (fun e => e_index e <= f_snapshot_index f) low.
Definition file_inv (f : FileRaftStorage) : Prop :=
  log_file_ok f /\ contiguous (f_snapshot_index f) (f_entries f) /\
  Forall frame_ok (f_entries f) /\ u64_ok (f_snapshot_index f) /\ u64_ok (f_snapshot_term f) /\
  state_file_ok f /\ f_attached f = true.

Lemma contiguous_app k l1 l2 :
  contiguous k (l1 ++ l2) <-> contiguous k l1 /\ contiguous (k + Z.of_nat (length l1)) l2.
Proof.
  revert k; induction l1 as [|e l1 IH]; intros k; cbn [app contiguous length].
  - rewrite Z.add_0_r. tauto.
  - rewrite IH. replace (k + Z.of_nat (S (length l1))) with (k + 1 + Z.of_nat (length l1)) by lia. tauto.
Qed.

Lemma contiguous_above k es : contiguous k es -> Forall (fun e => k < e_index e) es.
Proof.
  revert k; induction es as [|e es IH]; intros k; cbn [contiguous]; [constructor|].
  intros [He Hc]. constructor; [lia|]. eapply Forall_impl; [by apply IH|]. cbn. lia.
Qed.

(** A contiguous log splits at any index into the part at or below it and the part above. *)
Lemma contiguous_split k i es :
  contiguous k es -> k <= i ->
  exists low, es = low ++ retain_above i es /\ Forall (fun e => e_index e <= i) low /\
    contiguous i (retain_above i es).
Proof.
  unfold retain_above. revert k; induction es as [|e es IH]; intros k Hc Hk; [by exists []|].
  cbn [contiguous] in Hc. destruct Hc as [He Hc]. destruct (decide (i < e_index e)) as [Hlt|Hge].
  - exists []. assert (Hall : Forall (fun e => i < e_index e) (e :: es)).
    { constructor; [done|]. apply contiguous_above in Hc. eapply Forall_impl; [exact Hc|]. cbn. lia. }
    assert (E : filter (fun e => i < e_index e) (e :: es) = e :: es).
    { clear -Hall. induction Hall as [|x l Hx _ IHl]; [done|]. rewrite filter_cons_True by done. by f_equal. }
    rewrite E. split_and!; [done|constructor|]. cbn [contiguous]. split; [lia|].
    by replace (i + 1) with (k + 1) by lia.
  - destruct (IH (k + 1) Hc ltac:(lia)) as (low & E & Hlow & Hc'). exists (e :: low).
    rewrite filter_cons_False by done. cbn [app]. split_and!; [by f_equal|constructor; [lia|done]|done].
Qed.

Lemma contiguous_retain_below k from es :
  contiguous k es -> exists high, es = retain_below from es ++ high.
Proof.
  unfold retain_below. revert k; induction es as [|e es IH]; intros k; [by exists []|].
  cbn [contiguous]. intros [He Hc]. destruct (decide (e_index e < from)) as [Hlt|Hge].
  - rewrite filter_cons_True by done. destruct (IH _ Hc) as [high E]. exists high. cbn. by f_equal.
  - assert (E : filter (fun e => e_index e < from) (e :: es) = []).
    { rewrite filter_cons_False by done. apply contiguous_above in Hc.
      assert (Hall : Forall (fun e => ~ e_index e < from) es)
        by (eapply Forall_impl; [exact Hc|cbn; lia]).
      clear -Hall. induction Hall as [|x l Hx _ IHl]; [done|]. by rewrite filter_cons_False. }
    rewrite E. by eexists.
Qed.

Lemma read_base_inv f : file_inv f -> read_base (f_state f) = Ok (f_snapshot_index f, f_snapshot_term f).
Proof.
  intros (_ & _ & _ & _ & _ & Hs & _). unfold state_file_ok in Hs. destruct (f_state f).
  - destruct Hs as (t & v & -> & Hok). by apply read_base_state in Hok.
  - by destruct Hs as [-> ->].
Qed.

Lemma read_state_inv f :
  file_inv f -> exists t v, read_state (f_state f) = Ok (t, v) /\ u64_ok t /\ vote_ok v.
Proof.
  intros (_ & _ & _ & _ & _ & Hs & _). unfold state_file_ok in Hs. destruct (f_state f).
  - destruct Hs as (t & v & -> & Hok). exists t, v. assert (Hok' := Hok). apply read_state_state in Hok.
    destruct Hok' as (_ & _ & ? & ?). done.
  - exists 0, None. split_and!; try done.
Qed.

(** Scanning the log of a consistent store, with a torn tail. *)
Lemma scan_log base es tail fuel :
  Forall frame_ok es -> contiguous base es -> (length es + 0 < fuel)%nat ->
  (forall acc fuel', (0 < fuel')%nat -> scan fuel' base tail acc = Ok (acc, tail)) ->
  scan fuel base (frames es ++ tail) [] = Ok (es, tail).
Proof.
  intros Hok Hc Hf Ht. rewrite scan_above by (done || (cbn; lia)).
  rewrite Ht by lia. done.
Qed.

Lemma frames_length es : Forall frame_ok es -> (length es <= length (frames es))%nat.
Proof.
  induction 1 as [|e es He _ IH]; [done|]. change (frames (e :: es)) with (frame e ++ frames es).
  rewrite length_app, frame_length. cbn [length]. lia.
Qed.

Lemma frames_app a b : frames (a ++ b) = frames a ++ frames b.
Proof. unfold frames. by rewrite map_app, concat_app. Qed.

Lemma scan_nil fuel base acc : (0 < fuel)%nat -> scan fuel base [] acc = Ok (acc, []).
Proof. intros. by destruct fuel; [lia|]. Qed.

Lemma take_front {A} (l tail : list A) : take (length (l ++ tail) - length tail) (l ++ tail) = l.
Proof.
  rewrite length_app. replace (length l + length tail - length tail)%nat with (length l) by lia.
  apply take_app_length.
Qed.

Lemma file_open_scan f log :
  file_inv f -> scan (S (length log)) (f_snapshot_index f) log [] = Ok (f_entries f, drop (length (f_log f)) log) ->
  take (length (f_log f)) log = f_log f ->
  file_open (f_io f) (Some log) (f_state f) = Ok f.
Proof.
  intros Hinv Hs Ht. unfold file_open. rewrite (read_base_inv f Hinv). cbn [mbind outcome_bind].
  rewrite Hs. cbn [mbind outcome_bind]. rewrite length_drop.
  assert (length (f_log f) <= length log)%nat by (rewrite <- Ht, length_take; lia).
  replace (length log - (length log - length (f_log f)))%nat with (length (f_log f)) by lia.
  rewrite Ht. destruct Hinv as (_ & _ & _ & _ & _ & _ & Ha). destruct f. cbn in *. by subst.
Qed.

Lemma file_open_tail f junk :
  file_inv f ->
  (forall acc fuel, (0 < fuel)%nat -> scan fuel (f_snapshot_index f) junk acc = Ok (acc, junk)) ->
  file_open (f_io f) (Some (f_log f ++ junk)) (f_state f) = Ok f.
Proof.
  intros Hinv Hj. assert (Hi := Hinv). destruct Hi as ((low & HL & Hlow & Hbelow) & Hc & Hok & _).
  apply file_open_scan; [done| |apply take_app_length].
  pose proof (frames_length _ Hlow). pose proof (frames_length _ Hok).
  rewrite drop_app_length, HL, frames_app, <- app_assoc, scan_skip by (done || (rewrite !length_app; lia)).
  apply scan_log; try done. rewrite !length_app. lia.
Qed.

Ltac by_fields H :=
  let X := fresh in pose proof H as X;
  cbn [update f_log f_state f_entries f_snapshot_index f_snapshot_term f_attached f_io] in X |- *;
  exact X.

(** The store as the files say: what a restart of the process finds. *)
Definition reopens (f : FileRaftStorage) (p : Persistent) : Prop :=
  forall io, exists g, file_open io (Some (f_log f)) (f_state f) = Ok g /\ file_inv g /\ file_load g = Ok p.

(** The files of [f] are those of a consistent store [g], up to a tail the
    scan drops. *)
Lemma reopens_tail f g junk p :
  file_inv g -> f_log f = f_log g ++ junk -> f_state f = f_state g ->
  (forall acc fuel, (0 < fuel)%nat -> scan fuel (f_snapshot_index g) junk acc = Ok (acc, junk)) ->
  file_load g = Ok p -> reopens f p.
Proof.
  intros Hinv HL HS Hj Hp io. exists (g <| f_io := io |>). rewrite HL, HS.
  split; [|done]. destruct g as [gl gs ge gb gt ga gio].
  exact (file_open_tail (MkFile gl gs ge gb gt ga io) junk Hinv Hj).
Qed.

Lemma reopens_inv f g p :
  file_inv g -> f_log f = f_log g -> f_state f = f_state g -> file_load g = Ok p -> reopens f p.
Proof.
  intros Hinv HL HS Hp. apply (reopens_tail f g []); try done; [by rewrite app_nil_r|].
  intros. by apply scan_nil.
Qed.

(** A prefix of some frames is whole frames and a proper prefix of the next. *)
Lemma frames_prefix es n :
  Forall frame_ok es ->
  exists k junk, take n (frames es) = frames (take k es) ++ junk /\
    forall base acc fuel, (0 < fuel)%nat -> scan fuel base junk acc = Ok (acc, junk).
Proof.
  intros Hok. revert n; induction Hok as [|e es He Hes IH]; intros n.
  - exists 0%nat, []. split; [by destruct n|]. intros. by apply scan_nil.
  - change (frames (e :: es)) with (frame e ++ frames es).
    destruct (decide (length (frame e) <= n)%nat) as [Hle|Hgt].
    + destruct (IH (n - length (frame e))%nat) as (k & junk & E & Hj). exists (S k), junk.
      split; [|done]. rewrite take_app_ge by done. rewrite E. change (take (S k) (e :: es)) with (e :: take k es).
      change (frames (e :: take k es)) with (frame e ++ frames (take k es)). by rewrite <- app_assoc.
    + exists 0%nat, (take n (frame e)). rewrite take_app_le by lia. split; [done|].
      intros base acc fuel Hf. eapply (scan_torn fuel base e (take n (frame e)) (drop n (frame e)));
        [done|by rewrite take_drop| |done].
      intros E. apply (f_equal length) in E. rewrite length_drop in E. cbn [length] in E. lia.
Qed.

(** *** The effect of each write on consistent files *)
Lemma save_inv t v f : file_inv f -> u64_ok t -> vote_ok v ->
  file_inv (f <| f_state := Some (encode (state_canon (f_snapshot_index f) (f_snapshot_term f) t v)) |>).
Proof.
  intros (HL & Hc & Hok & Hb & Hbt & _ & Ha) Ht Hv. split_and!; try done. by exists t, v.
Qed.

Lemma append_inv es f :
  file_inv f -> Forall frame_ok es ->
  contiguous (f_snapshot_index f + Z.of_nat (length (f_entries f))) es ->
  file_inv (f <| f_log := f_log f ++ frames es |> <| f_entries := f_entries f ++ es |>).
Proof.
  intros (HL & Hc & Hok & Hb & Hbt & Hs & Ha) Hes Hce. split_and!; try done.
  - destruct HL as (low & E & Hlow). exists low. split; [|done].
    change (f_log f ++ frames es = frames (low ++ f_entries f ++ es)). by rewrite app_assoc, frames_app, E.
  - by apply contiguous_app.
  - by apply Forall_app.
Qed.

Lemma truncate_inv from f : file_inv f ->
  file_inv (f <| f_log := frames (retain_below from (f_entries f)) |>
              <| f_entries := retain_below from (f_entries f) |>).
Proof.
  intros (HL & Hc & Hok & Hb & Hbt & Hs & Ha).
  destruct (contiguous_retain_below _ from _ Hc) as [high E].
  rewrite E in Hc, Hok. apply contiguous_app in Hc as [Hc _]. apply Forall_app in Hok as [Hok _].
  split_and!; try done. by exists [].
Qed.

(** The store [compact_to] leaves: new base, entries above it. *)
Definition compacted (i t t0 : Z) (v0 : option NodeId) (f : FileRaftStorage) : FileRaftStorage :=
  MkFile (frames (retain_above i (f_entries f))) (Some (encode (state_canon i t t0 v0)))
    (retain_above i (f_entries f)) i t true (f_io f).

Lemma compact_inv i t t0 v0 f :
  file_inv f -> f_snapshot_index f < i -> state_ok i t t0 v0 -> file_inv (compacted i t t0 v0 f).
Proof.
  intros (HL & Hc & Hok & _) Hlt Hs.
  destruct (contiguous_split _ i _ Hc ltac:(lia)) as (low & Es & _ & Hc').
  assert (Hok' : Forall frame_ok (low ++ retain_above i (f_entries f))) by (by rewrite <- Es).
  apply Forall_app in Hok' as [_ Hok'].
  split_and!; try done; [by exists []|apply Hs..|]. by exists t0, v0.
Qed.

(** Old log, new base: the entries at or below it become redundant. *)
Lemma compact_base_inv i t t0 v0 f :
  file_inv f -> f_snapshot_index f < i -> state_ok i t t0 v0 ->
  file_inv ((compacted i t t0 v0 f) <| f_log := f_log f |>).
Proof.
  intros Hinv Hlt Hs. destruct (compact_inv i t t0 v0 f Hinv Hlt Hs) as (_ & Hrest).
  split; [|exact Hrest]. destruct Hinv as ((low & HL & Hlow & Hb) & Hc & Hok & _).
  destruct (contiguous_split _ i _ Hc ltac:(lia)) as (low' & Es & Hlow' & _).
  exists (low ++ low'). split_and!.
  - change (f_log f = frames ((low ++ low') ++ retain_above i (f_entries f))).
    by rewrite <- app_assoc, <- Es.
  - apply Forall_app. split; [done|]. rewrite Es in Hok. by apply Forall_app in Hok as [? _].
  - apply Forall_app. split; [|done]. eapply Forall_impl; [exact Hb|]. cbn. lia.
Qed.

(** *** Running the calls *)

(** An error is the error of a call that failed. *)
Definition from_io (io : list IoAnswer) (e : ErrorCode) : Prop :=
  exists k n, IoFailed k n ∈ io /\ e = io_code k.

Lemma from_io_sub io io' e : io' ⊆ io -> from_io io' e -> from_io io e.
Proof. intros Hs (k & n & Hin & ->). exists k, n. auto. Qed.

Lemma io_call_wp f (Q : unit -> FileRaftStorage -> Prop) E :
  (forall r, r ⊆ f_io f -> Q tt (f <| f_io := r |>)) ->
  (forall e r, r ⊆ f_io f -> from_io (f_io f) e -> E e (f <| f_io := r |>)) ->
  wp io_call f Q E.
Proof.
  intros HQ HE. unfold wp, io_call. destruct (f_io f) as [|[|k n] r] eqn:Ei.
  - replace f with (f <| f_io := [] |>) by (by destruct f; cbn in *; subst). apply HQ. set_solver.
  - apply HQ. set_solver.
  - apply HE; [set_solver|]. exists k, n. split; [left|done].
Qed.

Lemma log_write_wp buf f (Q : unit -> FileRaftStorage -> Prop) E :
  f_attached f = true ->
  (forall r, r ⊆ f_io f -> Q tt (f <| f_log := f_log f ++ buf |> <| f_io := r |>)) ->
  (forall e n r, from_io (f_io f) e -> E e (f <| f_log := f_log f ++ take n buf |> <| f_io := r |>)) ->
  wp (log_write buf) f Q E.
Proof.
  intros Ha HQ HE. destruct f as [l st es b bt a io]. cbn in Ha. subst a.
  unfold wp, log_write, log_put. cbn in *. destruct io as [|[|k n] r]; cbn.
  - apply (HQ []). set_solver.
  - apply (HQ r). set_solver.
  - apply (HE _ n r). exists k, n. split; [left|done].
Qed.

Lemma io_each_wp {A} (l : list A) f (Q : unit -> FileRaftStorage -> Prop) E :
  (forall r, r ⊆ f_io f -> Q tt (f <| f_io := r |>)) ->
  (forall e r, r ⊆ f_io f -> from_io (f_io f) e -> E e (f <| f_io := r |>)) ->
  wp (st_fold (fun _ (_ : unit) => io_call) l tt) f Q E.
Proof.
  revert f; induction l as [|x l IH]; intros f HQ HE; cbn [st_fold].
  - apply st_wp_ret. specialize (HQ (f_io f) ltac:(done)). by destruct f.
  - apply st_wp_bind, io_call_wp; [|done]. intros r Hr. apply IH.
    + intros r' Hr'. apply HQ. set_solver.
    + intros e r' Hr' He. apply HE; [set_solver|]. by eapply from_io_sub.
Qed.

(** The state file is the old one when an error comes back. *)
Lemma replace_state_wp v f (Q : unit -> FileRaftStorage -> Prop) E :
  (forall r, r ⊆ f_io f -> Q tt (f <| f_state := Some v |> <| f_io := r |>)) ->
  (forall e r, r ⊆ f_io f -> from_io (f_io f) e -> E e (f <| f_io := r |>)) ->
  wp (replace_state v) f Q E.
Proof.
  intros HQ HE. unfold replace_state.
  do 4 (apply st_wp_bind, io_call_wp;
    [intros ? ?|intros e r' Hr' He; apply HE; [set_solver|eapply from_io_sub; [|exact He]; set_solver]]).
  apply st_wp_update, HQ. set_solver.
Qed.

(** The log file is the old one, or the whole new one, when an error comes back. *)
Lemma rewrite_log_wp f (Q : unit -> FileRaftStorage -> Prop) E :
  (forall r, r ⊆ f_io f ->
     Q tt (f <| f_log := frames (f_entries f) |> <| f_attached := true |> <| f_io := r |>)) ->
  (forall e f', from_io (f_io f) e -> f_state f' = f_state f ->
     f_log f' = f_log f \/ f_log f' = frames (f_entries f) -> E e f') ->
  wp rewrite_log f Q E.
Proof.
  intros HQ HE. unfold rewrite_log. apply st_wp_bind, st_wp_reads.
  apply st_wp_bind, io_call_wp; [intros r1 H1|intros; apply HE; auto].
  apply st_wp_bind, io_each_wp; [intros r2 H2|intros; apply HE; auto; by eapply from_io_sub].
  do 2 (apply st_wp_bind, io_call_wp;
    [intros ? ?|intros e ? ? He; apply HE; auto; eapply from_io_sub; [|exact He]; set_solver]).
  apply st_wp_bind, st_wp_update.
  apply st_wp_bind, io_call_wp;
    [intros ? ?|intros e ? ? He; apply HE; auto; eapply from_io_sub; [|exact He]; set_solver].
  apply st_wp_bind, st_wp_update.
  apply io_call_wp;
    [intros ? ?|intros e ? ? He; apply HE; auto; eapply from_io_sub; [|exact He]; set_solver].
  apply HQ. set_solver.
Qed.

(** What a write must do.  On success the store is consistent, loads [q], and
    a restart finds [q]; an error is the error of a call that failed, and a
    restart finds one of the states [recovered] allows.  No write panics. *)
Definition write_result (op : stM FileRaftStorage unit) (f : FileRaftStorage) (q : Persistent)
    (recovered : Persistent -> Prop) : Prop :=
  wp op f (fun _ f' => file_inv f' /\ file_load f' = Ok q /\ reopens f' q)
    (fun e f' => from_io (f_io f) e /\ exists q', recovered q' /\ reopens f' q').

Lemma settled f q : file_inv f -> file_load f = Ok q -> file_inv f /\ file_load f = Ok q /\ reopens f q.
Proof. intros Hi Hq. split_and!; try done. by eapply reopens_inv. Qed.

Lemma file_load_inv f p :
  file_inv f -> file_load f = Ok p ->
  p_entries p = f_entries f /\ p_snapshot_index p = f_snapshot_index f /\
  p_snapshot_term p = f_snapshot_term f /\
  read_state (f_state f) = Ok (p_term p, p_voted_for p) /\ u64_ok (p_term p) /\ vote_ok (p_voted_for p).
Proof.
  intros Hinv Hp. destruct (read_state_inv f Hinv) as (t0 & v0 & E & Ht & Hv).
  unfold file_load in Hp. rewrite E in Hp. cbn in Hp. injection Hp as <-. done.
Qed.

Lemma file_save_spec f p t v :
  file_inv f -> file_load f = Ok p -> u64_ok t -> vote_ok v ->
  write_result (file_save t v) f (p_save t v p) (fun q => q = p).
Proof.
  intros Hinv Hp Ht Hv. destruct (file_load_inv f p Hinv Hp) as (He & Hb & Hbt & _).
  unfold write_result, file_save. do 2 apply st_wp_bind, st_wp_reads.
  apply replace_state_wp.
  - intros r _. pose proof (save_inv t v f Hinv Ht Hv) as Hi. apply settled; [exact Hi|].
    unfold file_load. cbn [f_state f_entries f_snapshot_index f_snapshot_term update].
    destruct Hi as (_ & _ & _ & Hu1 & Hu2 & _).
    rewrite read_state_state by done. cbn. rewrite <- He, <- Hb, <- Hbt. by destruct p.
  - intros e r _ Hio. split; [done|]. exists p. split; [done|]. by apply (reopens_inv _ f).
Qed.

Lemma append_load f p es log io :
  file_inv f -> file_load f = Ok p ->
  file_load (f <| f_log := log |> <| f_io := io |> <| f_entries := f_entries f ++ es |>) =
  Ok (p_append es p).
Proof.
  intros Hinv Hp. destruct (file_load_inv f p Hinv Hp) as (He & Hb & Hbt & E & _).
  unfold file_load. cbn [f_state f_entries f_snapshot_index f_snapshot_term update]. rewrite E. cbn.
  rewrite <- He, <- Hb, <- Hbt. by destruct p.
Qed.

(** Any prefix of the appended bytes reads back as the whole entries in it. *)
Lemma append_prefix f f' p es n :
  file_inv f -> file_load f = Ok p -> Forall frame_ok es ->
  contiguous (f_snapshot_index f + Z.of_nat (length (f_entries f))) es ->
  f_log f' = f_log f ++ take n (frames es) -> f_state f' = f_state f ->
  exists k, reopens f' (p_append (take k es) p).
Proof.
  intros Hinv Hp Hes Hc HL HS. destruct (frames_prefix es n Hes) as (k & junk & E & Hj). exists k.
  rewrite <- (take_drop k es) in Hc, Hes. apply contiguous_app in Hc as [Hc _].
  apply Forall_app in Hes as [Hes _].
  apply (reopens_tail f' (f <| f_log := f_log f ++ frames (take k es) |> <| f_io := [] |>
           <| f_entries := f_entries f ++ take k es |>) junk).
  - by_fields (append_inv (take k es) (f <| f_io := [] |>) Hinv Hes Hc).
  - cbn [f_log update]. by rewrite HL, E, app_assoc.
  - done.
  - intros. by apply Hj.
  - by apply append_load.
Qed.

Lemma file_append_spec f p es :
  file_inv f -> file_load f = Ok p -> Forall frame_ok es ->
  contiguous (p_snapshot_index p + Z.of_nat (length (p_entries p))) es ->
  write_result (file_append es) f (p_append es p) (fun q => exists k, q = p_append (take k es) p).
Proof.
  intros Hinv Hp Hes Hc. destruct (file_load_inv f p Hinv Hp) as (He & Hb & _). rewrite He, Hb in Hc.
  assert (Hrec : forall e f' n, from_io (f_io f) e -> f_log f' = f_log f ++ take n (frames es) ->
    f_state f' = f_state f ->
    from_io (f_io f) e /\ exists q, (exists k, q = p_append (take k es) p) /\ reopens f' q).
  { intros e f' n Hio HL HS. split; [done|].
    destruct (append_prefix f f' p es n Hinv Hp Hes Hc HL HS) as [k Hk]. by eauto. }
  unfold write_result, file_append. apply st_wp_bind, log_write_wp; [apply Hinv| |].
  - intros r Hr. apply st_wp_bind, io_call_wp.
    + intros r' Hr'. apply st_wp_update, settled; [by_fields (append_inv es (f <| f_io := r' |>) Hinv Hes Hc)|].
      by apply (append_load f p es _ r').
    + intros e r' _ Hio. apply (Hrec e _ (length (frames es))); [by eapply from_io_sub| |done].
      by rewrite firstn_all.
  - intros e n r Hio. by eapply Hrec.
Qed.

Lemma file_truncate_spec f p from :
  file_inv f -> file_load f = Ok p ->
  write_result (file_truncate from) f (p_truncate from p) (fun q => q = p \/ q = p_truncate from p).
Proof.
  intros Hinv Hp. destruct (file_load_inv f p Hinv Hp) as (He & Hb & Hbt & E & _).
  pose proof (truncate_inv from f Hinv) as Hi.
  assert (Hq : file_load (f <| f_log := frames (retain_below from (f_entries f)) |>
      <| f_entries := retain_below from (f_entries f) |>) = Ok (p_truncate from p)).
  { unfold file_load. cbn [f_state f_entries f_snapshot_index f_snapshot_term update]. rewrite E. cbn.
    unfold p_truncate. rewrite <- He, <- Hb, <- Hbt. by destruct p. }
  unfold write_result, file_truncate. apply st_wp_bind, st_wp_update, rewrite_log_wp.
  - intros r _. apply settled; [|exact Hq]. destruct Hi as (H1 & H2 & H3 & H4 & H5 & H6 & _). done.
  - intros e f' Hio HS [HL|HL]; (split; [exact Hio|]).
    + exists p. split; [by left|]. by apply (reopens_inv _ f).
    + eexists. split; [by right|]. eapply reopens_inv; [exact Hi|exact HL|exact HS|exact Hq].
Qed.

Lemma file_compact_spec f p i t :
  file_inv f -> file_load f = Ok p -> u64_ok i -> u64_ok t -> p_snapshot_index p < i ->
  write_result (file_compact i t) f (p_compact i t p) (fun q => q = p \/ q = p_compact i t p).
Proof.
  intros Hinv Hp Hui Hut Hlt. destruct (file_load_inv f p Hinv Hp) as (He & Hb & Hbt & E & Ht & Hv).
  rewrite Hb in Hlt. assert (Hs : state_ok i t (p_term p) (p_voted_for p)) by done.
  set (g := compacted i t (p_term p) (p_voted_for p) f).
  pose proof (compact_inv _ _ _ _ f Hinv Hlt Hs) as Hi.
  pose proof (compact_base_inv _ _ _ _ f Hinv Hlt Hs) as Hi'. fold g in Hi, Hi'.
  assert (Hq : file_load g = Ok (p_compact i t p)).
  { unfold file_load, g, compacted. cbn [f_state f_entries f_snapshot_index f_snapshot_term].
    rewrite read_state_state by done. cbn. unfold p_compact. rewrite <- He. by destruct p. }
  unfold write_result, file_compact. apply st_wp_bind, st_wp_reads. rewrite (proj2 (Z.leb_gt _ _)) by done.
  apply st_wp_bind, st_wp_reads. apply st_wp_bind. eapply st_wp_lift; [exact E|].
  apply st_wp_bind, st_wp_update. apply st_wp_bind, replace_state_wp.
  - intros r Hr. apply st_wp_bind, st_wp_update, rewrite_log_wp.
    + intros r' _. apply settled; [exact Hi|exact Hq].
    + intros e f' Hio HS HL. split; [by eapply from_io_sub|]. eexists. split; [by right|].
      destruct HL as [HL|HL].
      * eapply reopens_inv; [exact Hi'|exact HL|exact HS|exact Hq].
      * eapply reopens_inv; [exact Hi|exact HL|exact HS|exact Hq].
  - intros e r _ Hio. split; [done|]. exists p. split; [by left|]. by apply (reopens_inv _ f).
Qed.

(** Limits under which a given amount of text is readable. *)
Definition wide_limits (n : Z) : Limits :=
  Build_Limits 1 n 64 65536 (Z.max n (1024 * 1024)) 0 0 0 0 0 0 0 0 0 0.

(** An entry whose data is longer than half the scalar limit does not decode. *)
Lemma oversized_undecodable e e' :
  entry_ok e -> max_scalar_bytes Limits_v1 + 8 < 2 * Z.of_nat (length (e_data e)) ->
  decode_typed entry_codec Limits_v1 (encode_typed entry_codec e) <> Ok e'.
Proof.
  intros He Hbig Hd.
  set (body := encode_typed entry_codec e) in *.
  set (n := Z.of_nat (length body) + 2 * Z.of_nat (length (e_data e))).
  assert (Hn : 1048576 <= n)
    by (unfold n; change (max_scalar_bytes Limits_v1) with 1048576 in Hbig; lia).
  assert (Hc : canon_ok (wide_limits n) 0 (entry_to_canon e))
    by (apply entry_canon_ok; cbn [max_depth max_collection_len max_scalar_bytes wide_limits]; (done || lia)).
  assert (Hb : bytes_ok body) by (by eapply canon_ok_bytes).
  apply decode_typed_sound in Hd as [Hbody Hc']; [|vm_compute; discriminate|done].
  assert (E : entry_to_canon e = entry_to_canon e').
  { eapply (encode_inj (wide_limits n)); [cbn; lia|cbn; unfold n, body, encode_typed; cbn; lia|done| |exact Hbody].
    eapply canon_ok_mono; [..|exact Hc']; cbn [max_depth max_collection_len max_scalar_bytes wide_limits Limits_v1]; lia. }
  cbn [to_canon entry_codec] in Hc'. rewrite <- E in Hc'. destruct e as [t i d]. cbn [e_data] in *.
  inversion Hc' as [| | | |? ? _ _ _ Ho]; subst. cbn in Ho.
  apply Forall_cons in Ho as [[_ Hs] _]. cbn [snd] in Hs. inversion Hs as [| |? ? Hf| |]; subst.
  destruct Hf as (_ & _ & Hf). destruct He as (_ & _ & Hdata). cbn in Hdata.
  rewrite plain_write, hex_encode_length in Hf by by apply hex_plain. lia.
Qed.

(** ** Properties *)


(** Recovery: reopening the files of a consistent store gives back exactly
    that store, and a torn tail, any proper prefix of one more frame, is
    dropped. *)
Theorem file_recovery (f : FileRaftStorage) (Hinv : file_inv f) :
  file_open (f_io f) (Some (f_log f)) (f_state f) = Ok f /\
  (forall e junk more, frame_ok e -> frame e = junk ++ more -> more <> [] ->
     file_open (f_io f) (Some (f_log f ++ junk)) (f_state f) = Ok f).
Proof.
  split.
  - rewrite <- (app_nil_r (f_log f)). apply file_open_tail; [done|]. intros. by apply scan_nil.
  - intros e junk more He Hj Hm. apply file_open_tail; [done|]. intros. by eapply scan_torn.
Qed.

(** C39. A compaction that failed is not repeated: the base in memory moves before
    the state file is written, so when one of the four calls that replace the
    state file fails, a second [compact_to] of the same index makes no call and
    reports success, although a restart still finds the old base and the old
    entries. *)
Theorem compact_retry_skipped (f : FileRaftStorage) (p : Persistent) (i t : Z) (j : nat)
  (k : IoErrorKind) (n : nat) (r : list IoAnswer)
  (Hinv : file_inv f) (Hp : load f = Ok p) (Hi : p_snapshot_index p < i) (Hj : (j < 4)%nat)
  (Hio : f_io f = replicate j IoDone ++ IoFailed k n :: r) :
  exists f', compact_to i t f = (Err (io_code k), f') /\ compact_to i t f' = (Ok tt, f') /\ reopens f' p.
Proof.
  destruct (file_load_inv f p Hinv Hp) as (_ & Hb & _ & E & _). rewrite Hb in Hi.
  set (f' := f <| f_snapshot_index := i |> <| f_snapshot_term := t |> <| f_io := r |>).
  assert (Hrun : compact_to i t f = (Err (io_code k), f')).
  { change (compact_to i t f) with (file_compact i t f). unfold file_compact.
    unfold mbind, stM_bind, reads, lift, update_st. rewrite (proj2 (Z.leb_gt _ _)), E by done.
    unfold replace_state, mbind, stM_bind, io_call. cbn [f_io update].
    rewrite Hio. destruct j as [|[|[|[|j]]]]; try done. lia. }
  exists f'. split_and!; [exact Hrun| |by apply (reopens_inv f' f)].
  change (compact_to i t f') with (file_compact i t f'). unfold file_compact.
  unfold mbind, stM_bind, reads. cbn [f' f_snapshot_index update]. by rewrite Z.leb_refl.
Qed.

(** An entry that cannot be read back: the log accepts an entry of any
    size, but a command longer than half the scalar limit (its hexadecimal
    text exceeds it) makes the log unreadable, so reopening the store fails
    although the write was reported durable. *)
Theorem oversized_entry_unreadable (e : Entry) (f : FileRaftStorage)
  (He : entry_ok e) (Hbig : max_scalar_bytes Limits_v1 + 8 < 2 * Z.of_nat (length (e_data e)))
  (Hlen : Z.of_nat (length (encode_typed entry_codec e)) < 2 ^ 32)
  (Hf : f = MkFile [] None [] 0 0 true []) :
  fst (append [e] f) = Ok tt /\
  is_ok (file_open [] (Some (f_log (snd (append [e] f)))) (f_state (snd (append [e] f)))) = false.
Proof.
  subst f. split; [done|].
  change (f_log (snd (append [e] _))) with (frames [e]). change (f_state (snd (append [e] _))) with (@None bytes).
  unfold file_open. cbn [read_base mbind outcome_bind].
  destruct (scan _ _ _ _) as [[es tl]| |] eqn:Hscan; try done. exfalso.
  unfold frames in Hscan. cbn [map concat] in Hscan. rewrite scan_header in Hscan by done.
  apply bind_ok_inv in Hscan as (e' & Hdec & _). by eapply oversized_undecodable.
Qed.
End file_storage.

(** A concrete store for the witnesses: one vote, one entry, a fixed checksum;
    the calls to come are answered by [io]. *)
Definition demo_crc (_ : bytes) : Z := 7.
Definition demo_entry : Entry := MkEntry 1 1 [120].
Definition demo_state : bytes := encode (state_canon 0 0 1 (Some (replicate 16 3))).
Definition demo_store (io : list IoAnswer) : FileRaftStorage :=
  MkFile (frames demo_crc [demo_entry]) (Some demo_state) [demo_entry] 0 0 true io.
Definition demo_persistent : Persistent := MkPersistent 1 (Some (replicate 16 3)) [demo_entry] 0 0.

Lemma demo_entry_fits : entry_fits demo_entry.
Proof.
  split; [|vm_compute; discriminate]. split_and!; try reflexivity. constructor; [|constructor].
  unfold byte_ok. cbn. lia.
Defined.
Lemma demo_store_inv io : file_inv demo_crc (demo_store io).
Proof.
  split_and!; try reflexivity.
  - exists []. split_and!; [reflexivity|constructor..].
  - split; [reflexivity|constructor].
  - constructor; [apply entry_frame_ok, demo_entry_fits|constructor].
  - exists 1, (Some (replicate 16 3)). split; [reflexivity|]. split_and!; try reflexivity.
    split; [|reflexivity]. apply (bool_decide_eq_true_1 (Forall byte_ok _)). reflexivity.
Defined.


Lemma file_recovery_witness :
  file_open demo_crc [] (Some (frames demo_crc [demo_entry])) (Some demo_state) = Ok (demo_store []).
Proof. apply (file_recovery demo_crc (fun _ => eq_refl) (demo_store []) (demo_store_inv [])). Defined.

Lemma compact_retry_skipped_witness :
  exists f', compact_to (RaftStorage := FileRaftStorage_ops demo_crc) 1 1 (demo_store [IoDone; IoFailed OtherKind 0])
      = (Err Io, f') /\
    compact_to (RaftStorage := FileRaftStorage_ops demo_crc) 1 1 f' = (Ok tt, f').
Proof.
  destruct (compact_retry_skipped demo_crc (fun _ => eq_refl) (demo_store [IoDone; IoFailed OtherKind 0])
    demo_persistent 1 1 1 OtherKind 0 [] (demo_store_inv _) ltac:(vm_compute; reflexivity)
    ltac:(reflexivity) ltac:(lia) eq_refl) as (f' & H1 & H2 & _).
  exists f'. split; [exact H1|exact H2].
Defined.

Definition big_entry : Entry := MkEntry 1 1 (replicate (Z.to_nat 524293) 0).

Lemma oversized_entry_unreadable_witness :
  is_ok (file_open demo_crc [] (Some (frames demo_crc [big_entry])) None) = false.
Proof.
  assert (Hd : Z.of_nat (length (e_data big_entry)) = 524293)
    by (unfold big_entry; cbn [e_data]; rewrite length_replicate, Z2Nat.id by lia; reflexivity).
  assert (He : entry_ok big_entry).
  { split; [reflexivity|]. split; [reflexivity|]. apply Forall_replicate. unfold byte_ok. lia. }
  apply (oversized_entry_unreadable demo_crc (fun _ => eq_refl) big_entry (MkFile [] None [] 0 0 true [])).
  - exact He.
  - rewrite Hd. reflexivity.
  - pose proof (entry_encode_length big_entry He). lia.
  - reflexivity.
Defined.
