(* ===== verification/Raft.v ===== *)
(** * The Raft node (src/crates/carolina-consensus/src/lib.rs, [Raft<S>])

    The node's state as the source's record, and every operation of the node
    as a computation in a state monad that keeps the state reached when it
    fails, as a Rust method with [&mut self] does.  The node is generic in its
    storage through the [RaftStorage] class.

    Integer arithmetic is that of a build with overflow checks: leaving the
    range of the type panics.  The election timeout is drawn by rejection
    sampling; the number of samples a draw may take is the parameter
    [draw_fuel], and exhausting it is a panic as well (a node that never
    returns takes no further step). *)

From stdpp Require Import gmap.
From S2P Require Import Prelude Errors Rng RaftTypes RaftStorage.

Record ReadIndex : Type := MkReadIndex { ri_round : Z; ri_index : Z }.

Record Raft (S : Type) : Type := MkRaft {
  me : NodeId;
  cfg : Config;
  storage : S;
  term : Z;
  voted_for : option NodeId;
  log : list Entry;
  commit_index : Z;
  last_delivered : Z;
  role : Role;
  leader : option NodeId;
  votes : gset NodeId;
  next_index : gmap NodeId Z;
  match_index : gmap NodeId Z;
  election_elapsed : Z;
  heartbeat_elapsed : Z;
  election_timeout : Z;
  rng : DetRng;
  outbox : list Envelope;
  read_round : Z;
  snapshot_index : Z;
  snapshot_term : Z;
  applied : Z;
  peer_applied : gmap NodeId Z;
  followers_behind_snapshot : Z;
  pending_reads : list (Z * Z * gset NodeId);
  ready_reads : list ReadIndex;
  became_leader_terms : list Z;
}.
Arguments MkRaft {S}.
Arguments me {S}. Arguments cfg {S}. Arguments storage {S}. Arguments term {S}.
Arguments voted_for {S}. Arguments log {S}. Arguments commit_index {S}.
Arguments last_delivered {S}. Arguments role {S}. Arguments leader {S}. Arguments votes {S}.
Arguments next_index {S}. Arguments match_index {S}. Arguments election_elapsed {S}.
Arguments heartbeat_elapsed {S}. Arguments election_timeout {S}. Arguments rng {S}.
Arguments outbox {S}. Arguments read_round {S}. Arguments snapshot_index {S}.
Arguments snapshot_term {S}. Arguments applied {S}. Arguments peer_applied {S}.
Arguments followers_behind_snapshot {S}. Arguments pending_reads {S}.
Arguments ready_reads {S}. Arguments became_leader_terms {S}.

#[global] Instance Raft_eta S : Eta (Raft S) := fun r =>
  MkRaft (me r) (cfg r) (storage r) (term r) (voted_for r) (log r) (commit_index r)
    (last_delivered r) (role r) (leader r) (votes r) (next_index r) (match_index r)
    (election_elapsed r) (heartbeat_elapsed r) (election_timeout r) (rng r) (outbox r)
    (read_round r) (snapshot_index r) (snapshot_term r) (applied r) (peer_applied r)
    (followers_behind_snapshot r) (pending_reads r) (ready_reads r) (became_leader_terms r).

(** ** The monad of the node's methods *)
Definition M (S A : Type) : Type := Raft S -> CoreResult A * Raft S.

#[global] Instance M_ret S : MRet (M S) := fun A a r => (Ok a, r).
#[global] Instance M_bind S : MBind (M S) := fun A B k m r =>
  match m r with
  | (Ok a, r') => k a r'
  | (Err e, r') => (Err e, r')
  | (Panic, r') => (Panic, r')
  end.

Definition get {S} : M S (Raft S) := fun r => (Ok r, r).
Definition gets {S A} (f : Raft S -> A) : M S A := fun r => (Ok (f r), r).
Definition modify {S} (f : Raft S -> Raft S) : M S unit := fun r => (Ok tt, f r).
Definition lift {S A} (o : CoreResult A) : M S A := fun r => (o, r).
Definition fail {S A} (e : ErrorCode) : M S A := fun r => (Err e, r).
Notation "m ;; k" := (m ≫= fun _ => k) (at level 100, k at level 200, right associativity).

(** [for x in l { f(x) }] *)
Fixpoint for_each {S A} (f : A -> M S unit) (l : list A) : M S unit :=
  match l with
  | [] => mret tt
  | x :: l' => f x ;; for_each f l'
  end.

Section raft.
Context {S : Type} {SO : RaftStorage S} (draw_fuel : nat).

(** ** Reading the log *)
Definition last_index (r : Raft S) : Z :=
  match last (log r) with Some e => e_index e | None => snapshot_index r end.
Definition first_index (r : Raft S) : CoreResult Z := uadd 64 (snapshot_index r) 1.
Definition log_pos (index : Z) (r : Raft S) : option nat :=
  if index <=? snapshot_index r then None else Some (Z.to_nat (index - snapshot_index r - 1)).
Definition entry (index : Z) (r : Raft S) : option Entry :=
  if (index =? 0) || (last_index r <? index) then None
  else pos ← log_pos index r; log r !! pos.
Definition last_term (r : Raft S) : Z :=
  match last (log r) with Some e => e_term e | None => snapshot_term r end.
Definition term_at (index : Z) (r : Raft S) : Z :=
  if index =? snapshot_index r then snapshot_term r
  else match entry index r with Some e => e_term e | None => 0 end.
Definition is_leader (r : Raft S) : bool := bool_decide (role r = Leader).

(** ** Small pieces *)

(** A storage call: the storage it leaves is kept also on failure. *)
Definition storage_op (op : S -> CoreResult unit * S) : M S unit := fun r =>
  let '(res, s') := op (storage r) in (res, r <| storage := s' |>).

Definition rng_below (n : Z) : M S Z := fun r =>
  match below draw_fuel (rng r) n with
  | Ok (Some (v, g)) => (Ok v, r <| rng := g |>)
  | _ => (Panic, r)
  end.

Definition reset_election_timeout : M S unit :=
  c ← gets cfg;
  d ← lift (usub 32 (election_ticks_max c) (election_ticks_min c));
  v ← rng_below (Z.max d 1);
  t ← lift (uadd 32 (election_ticks_min c) (wrap_u 32 v));
  modify (fun r => r <| election_timeout := t |> <| election_elapsed := 0 |>).

Definition send (to : NodeId) (m : Message) : M S unit :=
  modify (fun r => r <| outbox := outbox r ++ [MkEnvelope (me r) to m] |>).

Definition persist_term_vote : M S unit :=
  r ← get; storage_op (save_term_vote (term r) (voted_for r)).

(** ** Construction *)
Definition Raft_new (id : NodeId) (c : Config) (s : S) (seed : Z) : CoreResult (Raft S) :=
  if negb (bool_decide (id ∈ members c)) then Err InvalidManifest
  else
    p ← load s;
    let r := MkRaft id c s (p_term p) (p_voted_for p) (p_entries p) 0 (p_snapshot_index p)
      Follower None ∅ ∅ ∅ 0 0 0 (rng_new (Z.lxor seed (le_decode (take 8 id)))) [] 0
      (p_snapshot_index p) (p_snapshot_term p) (p_snapshot_index p) ∅ 0 [] [] [] in
    match reset_election_timeout r with
    | (Ok _, r') => Ok r'
    | (Err e, _) => Err e
    | (Panic, _) => Panic
    end.

Definition into_storage (r : Raft S) : S := storage r.

(** ** Draining *)
Definition take_outbox (r : Raft S) : list Envelope * Raft S := (outbox r, r <| outbox := [] |>).
Definition take_ready_reads (r : Raft S) : list ReadIndex * Raft S :=
  (ready_reads r, r <| ready_reads := [] |>).

(** The loop of [take_committed]: at most [commit_index - last_delivered] turns. *)
Fixpoint deliver (fuel : nat) (r : Raft S) : list Entry * Raft S :=
  match fuel with
  | O => ([], r)
  | Datatypes.S fuel' =>
      if last_delivered r <? commit_index r then
        match entry (last_delivered r + 1) r with
        | Some e =>
            let '(out, r') := deliver fuel' (r <| last_delivered := last_delivered r + 1 |>) in
            (e :: out, r')
        | None => ([], r)
        end
      else ([], r)
  end.
Definition take_committed (r : Raft S) : list Entry * Raft S :=
  deliver (Z.to_nat (commit_index r - last_delivered r)) r.

Definition set_applied (a : Z) (r : Raft S) : Raft S :=
  let reported := Z.max (Z.min a (last_index r)) (snapshot_index r) in
  r <| last_delivered := Z.max (last_delivered r) reported |>
    <| applied := Z.max (applied r) reported |>.

(** ** Compaction *)
Definition compaction_horizon (r : Raft S) : Z :=
  Z.min (foldl (fun h m => if bool_decide (m = me r) then h
                           else Z.min h (default 0 (peer_applied r !! m)))
           (applied r) (members (cfg r)))
        (commit_index r).

Definition compact (up_to : Z) : M S Z :=
  r ← get;
  let target := Z.min (Z.min up_to (compaction_horizon r)) (last_index r) in
  if target <=? snapshot_index r then mret (snapshot_index r)
  else
    let t := term_at target r in
    if t =? 0 then mret (snapshot_index r)
    else
      storage_op (compact_to target t) ;;
      nxt ← lift (uadd 64 target 1);
      let keep := default (length (log r)) (log_pos nxt r) in
      modify (fun r => r <| log := drop (keep `min` length (log r)) (log r) |>
        <| snapshot_index := target |> <| snapshot_term := t |>
        <| last_delivered := Z.max (last_delivered r) target |>
        <| applied := Z.max (applied r) target |>) ;;
      mret target.

(** ** Roles *)
Definition become_follower (t : Z) (ldr : option NodeId) : M S unit :=
  r ← get;
  (if term r <? t then
     modify (fun r => r <| term := t |> <| voted_for := None |>) ;; persist_term_vote
   else mret tt) ;;
  modify (fun r => r <| role := Follower |> <| leader := ldr |> <| votes := ∅ |>
    <| pending_reads := [] |>) ;;
  reset_election_timeout.

(** [self.log[pos..].to_vec()] *)
Definition log_from (pos : nat) (l : list Entry) : CoreResult (list Entry) :=
  if (pos <=? length l)%nat then Ok (drop pos l) else Panic.

Definition send_append (to : NodeId) (round : Z) : M S unit :=
  r ← get;
  dflt ← lift (uadd 64 (snapshot_index r) 1);
  let next := default dflt (next_index r !! to) in
  if next <=? snapshot_index r then
    n ← lift (uadd 64 (followers_behind_snapshot r) 1);
    modify (fun r => r <| followers_behind_snapshot := n |>)
  else
    let prev := saturating_sub next 1 in
    es ← match log_pos next r with
         | Some pos => if next <=? last_index r then lift (log_from pos (log r)) else mret []
         | None => mret []
         end;
    send to (AppendEntries (term r) prev (term_at prev r) es (commit_index r) round).

Definition broadcast_append (round : Z) : M S unit :=
  r ← get;
  for_each (fun m => if bool_decide (m = me r) then mret tt else send_append m round)
    (members (cfg r)) ;;
  modify (fun r => r <| heartbeat_elapsed := 0 |>).

Definition append_local (data : bytes) : M S Z :=
  r ← get;
  i ← lift (uadd 64 (last_index r) 1);
  let e := MkEntry (term r) i data in
  storage_op (append [e]) ;;
  modify (fun r => r <| log := log r ++ [e] |>) ;;
  li ← gets last_index;
  modify (fun r => r <| match_index := <[me r := li]> (match_index r) |>) ;;
  mret li.

Definition become_leader : M S unit :=
  modify (fun r => r <| role := Leader |> <| leader := Some (me r) |>
    <| became_leader_terms := became_leader_terms r ++ [term r] |>) ;;
  r ← get;
  next ← lift (uadd 64 (last_index r) 1);
  for_each (fun m => modify (fun r => r <| next_index := <[m := next]> (next_index r) |>
    <| match_index := <[m := 0]> (match_index r) |>)) (members (cfg r)) ;;
  modify (fun r => r <| match_index := <[me r := last_index r]> (match_index r) |>) ;;
  append_local [] ;;
  modify (fun r => r <| heartbeat_elapsed := heartbeat_ticks (cfg r) |>) ;;
  broadcast_append 0.

Definition become_candidate : M S unit :=
  r ← get;
  t ← lift (uadd 64 (term r) 1);
  modify (fun r => r <| term := t |> <| voted_for := Some (me r) |>) ;;
  persist_term_vote ;;
  modify (fun r => r <| role := Candidate |> <| leader := None |> <| votes := {[ me r ]} |>) ;;
  reset_election_timeout ;;
  r ← get;
  for_each (fun m => if bool_decide (m = me r) then mret tt
                     else send m (RequestVote (term r) (last_index r) (last_term r)))
    (members (cfg r)) ;;
  r ← get;
  if (quorum (cfg r) <=? size (votes r))%nat then become_leader else mret tt.

(** ** Client entry points *)
Definition propose (data : bytes) : M S Z :=
  r ← get;
  if negb (is_leader r) then fail AuthorityUnavailable
  else if match data with [] => true | _ => false end then fail ProtocolError
  else
    idx ← append_local data;
    broadcast_append 0 ;;
    mret idx.

Definition read_barrier : M S Z :=
  r ← get;
  if negb (is_leader r) then fail AuthorityUnavailable
  else if negb (term_at (commit_index r) r =? term r) then fail NotReady
  else
    round ← lift (uadd 64 (read_round r) 1);
    modify (fun r => r <| read_round := round |>
      <| pending_reads := pending_reads r ++ [(round, commit_index r, {[ me r ]})] |>) ;;
    broadcast_append round ;;
    mret round.

Definition tick : M S unit :=
  r ← get;
  match role r with
  | Leader =>
      h ← lift (uadd 32 (heartbeat_elapsed r) 1);
      modify (fun r => r <| heartbeat_elapsed := h |>) ;;
      if heartbeat_ticks (cfg r) <=? h then broadcast_append 0 else mret tt
  | Follower | Candidate =>
      e ← lift (uadd 32 (election_elapsed r) 1);
      modify (fun r => r <| election_elapsed := e |>) ;;
      if election_timeout r <=? e then become_candidate else mret tt
  end.

(** ** Commit *)

(** [sort_unstable_by(|a, b| b.cmp(a))] on integers. *)
Fixpoint insert_desc (x : Z) (l : list Z) : list Z :=
  match l with
  | [] => [x]
  | y :: l' => if y <=? x then x :: l else y :: insert_desc x l'
  end.
Definition sort_desc (l : list Z) : list Z := foldr insert_desc [] l.

Definition advance_commit : M S unit :=
  r ← get;
  let indices := sort_desc (map (fun m => default 0 (match_index r !! m)) (members (cfg r))) in
  match indices !! (quorum (cfg r) - 1)%nat with
  | None => lift Panic
  | Some q =>
      if (commit_index r <? q) && (term_at q r =? term r)
      then modify (fun r => r <| commit_index := q |>) else mret tt
  end.

(** ** Messages *)
Definition step_request_vote (from : NodeId) (t last_log_index last_log_term : Z) : M S unit :=
  r ← get;
  (if term r <? t then become_follower t None else mret tt) ;;
  r ← get;
  let up_to_date := (last_term r <? last_log_term)
    || ((last_log_term =? last_term r) && (last_index r <=? last_log_index)) in
  let grant := (t =? term r) && up_to_date
    && (bool_decide (voted_for r = None) || bool_decide (voted_for r = Some from)) in
  (if grant then
     modify (fun r => r <| voted_for := Some from |>) ;;
     persist_term_vote ;;
     reset_election_timeout
   else mret tt) ;;
  r ← get;
  send from (RequestVoteReply (term r) grant).

Definition step_vote_reply (from : NodeId) (t : Z) (granted : bool) : M S unit :=
  r ← get;
  if term r <? t then become_follower t None
  else if bool_decide (role r = Candidate) && (t =? term r) && granted then
    modify (fun r => r <| votes := {[ from ]} ∪ votes r |>) ;;
    r ← get;
    if (quorum (cfg r) <=? size (votes r))%nat then become_leader else mret tt
  else mret tt.

(** The loop over the received entries: the position of the first one to append. *)
Fixpoint find_new (es : list Entry) (i : nat) : M S (option nat) :=
  match es with
  | [] => mret None
  | e :: es' =>
      r ← get;
      if e_index e <=? snapshot_index r then find_new es' (Datatypes.S i)
      else
        match entry (e_index e) r with
        | Some mine =>
            if e_term mine =? e_term e then find_new es' (Datatypes.S i)
            else if e_index e <=? commit_index r then fail Corruption
            else
              storage_op (truncate_from (e_index e)) ;;
              modify (fun r => match log_pos (e_index e) r with
                               | Some pos => r <| log := take pos (log r) |>
                               | None => r
                               end) ;;
              mret (Some i)
        | None => mret (Some i)
        end
  end.

(** [step] on [AppendEntries], after the term check and the log-matching check. *)
Definition accept_entries (from : NodeId) (prev : Z) (es : list Entry)
    (leader_commit round : Z) : M S unit :=
  first_new ← find_new es 0;
  (match first_new with
   | Some i =>
       storage_op (append (drop i es)) ;;
       modify (fun r => r <| log := log r ++ drop i es |>)
   | None => mret tt
   end) ;;
  let last_new := match last es with Some e => e_index e | None => prev end in
  modify (fun r => if commit_index r <? leader_commit
    then r <| commit_index := Z.max (Z.min leader_commit last_new) (commit_index r) |> else r) ;;
  r ← get;
  send from (AppendEntriesReply (term r) true last_new round (applied r)).

Definition step_append (from : NodeId) (t prev prev_term : Z) (es : list Entry)
    (leader_commit round : Z) : M S unit :=
  r ← get;
  if t <? term r then
    send from (AppendEntriesReply (term r) false (last_index r) round (applied r))
  else
    (if (term r <? t) || negb (bool_decide (role r = Follower))
     then become_follower t (Some from)
     else modify (fun r => r <| leader := Some from |>) ;; reset_election_timeout) ;;
    r ← get;
    if (0 <? prev) && ((last_index r <? prev) || negb (term_at prev r =? prev_term)) then
      let hint := Z.max (Z.min (last_index r) (saturating_sub prev 1)) (snapshot_index r) in
      send from (AppendEntriesReply (term r) false hint round (applied r))
    else accept_entries from prev es leader_commit round.

(** The acknowledgements of a read round: the pending reads with the new
    acknowledgement, and those that reached a quorum. *)
Definition ack_reads (from : NodeId) (round : Z) (q : nat) (ps : list (Z * Z * gset NodeId)) :
    list (Z * Z * gset NodeId) * list ReadIndex :=
  let ps' := map (fun '(rd, ix, acks) =>
    if rd <=? round then (rd, ix, {[ from ]} ∪ acks) else (rd, ix, acks)) ps in
  let done := omap (fun '(rd, ix, acks) =>
    if (rd <=? round) && (q <=? size acks)%nat then Some (MkReadIndex rd ix) else None) ps' in
  (filter (fun '(rd, _, _) => ~ Exists (fun d => ri_round d = rd) done) ps', done).

Definition step_append_reply (from : NodeId) (t : Z) (success : bool)
    (mi round applied_index : Z) : M S unit :=
  modify (fun r => r <| peer_applied :=
    <[from := Z.max (default 0 (peer_applied r !! from)) applied_index]> (peer_applied r) |>) ;;
  r ← get;
  if term r <? t then become_follower t None
  else if negb (is_leader r) || negb (t =? term r) then mret tt
  else if success then
    nxt ← lift (uadd 64 mi 1);
    modify (fun r =>
      (if default 0 (match_index r !! from) <? mi
       then r <| match_index := <[from := mi]> (match_index r) |> else r)
      <| next_index := <[from := nxt]> (next_index r) |>) ;;
    advance_commit ;;
    (if 0 <? round then
       modify (fun r =>
         let '(ps, done) := ack_reads from round (quorum (cfg r)) (pending_reads r) in
         r <| pending_reads := ps |> <| ready_reads := ready_reads r ++ done |>)
     else mret tt) ;;
    r ← get;
    if default 1 (next_index r !! from) <=? last_index r then send_append from 0 else mret tt
  else
    n ← lift (uadd 64 mi 1);
    modify (fun r => r <| next_index := <[from := Z.max n 1]> (next_index r) |>) ;;
    send_append from 0.

Definition step (env : Envelope) : M S unit :=
  r ← get;
  if negb (bool_decide (env_to env = me r)) || negb (bool_decide (env_from env ∈ members (cfg r)))
  then mret tt
  else
    match env_msg env with
    | RequestVote t li lt => step_request_vote (env_from env) t li lt
    | RequestVoteReply t g => step_vote_reply (env_from env) t g
    | AppendEntries t pi pt es lc rr => step_append (env_from env) t pi pt es lc rr
    | AppendEntriesReply t s mi rr ai => step_append_reply (env_from env) t s mi rr ai
    end.
End raft.
