(* ===== verification/RaftSpec.v ===== *)
(** * The Raft protocol, abstractly

    The protocol the node of src/crates/carolina-consensus/src/lib.rs
    implements, as a step relation over all voters at once: who votes, who
    leads, which entries are accepted, what is committed.  Logs are whole (a
    compacted node keeps its dropped prefix as history), messages are never
    lost from the history (a step may use any message ever sent, in any order
    and any number of times, so loss, duplication, delay and reordering are all
    covered), and crashes lose the volatile part.

    Three history variables record what the safety argument talks about: the
    log of the leader of each term, the highest index each voter acknowledged
    in each term, and the ballots cast, each with the voter's log at that
    moment.  Nothing in the guards of the steps depends on them. *)

From stdpp Require Import gmap functions.
From S2P Require Import Prelude RaftTypes.

(** ** Logs *)
Definition lastterm (L : list Entry) : Z := match last L with Some e => e_term e | None => 0 end.

(** The term at a one-based index; 0 when there is no entry. *)
Definition tat (L : list Entry) (i : nat) : Z :=
  match i with
  | O => 0
  | S j => match L !! j with Some e => e_term e | None => 0 end
  end.

(** Entries carry their position and a positive term. *)
Definition wf_log (L : list Entry) : Prop :=
  forall j e, L !! j = Some e -> e_index e = Z.of_nat (S j) /\ 1 <= e_term e.

(** A candidate whose log ends with [li], [lt] may lead a voter with log [L]. *)
Definition up_to_date (li : nat) (lt : Z) (L : list Entry) : Prop :=
  lastterm L < lt \/ (lt = lastterm L /\ (length L <= li)%nat).

(** ** States *)
Record anode : Type := ANode {
  a_term : Z;
  a_vote : option NodeId;
  a_log : list Entry;
  a_base : nat;
  a_role : Role;
  a_votes : gset NodeId;
  a_commit : nat;
  a_match : NodeId -> nat;
}.
#[global] Instance anode_eta : Eta anode := fun a =>
  ANode (a_term a) (a_vote a) (a_log a) (a_base a) (a_role a) (a_votes a) (a_commit a) (a_match a).

Inductive amsg : Type :=
| AVote (c n : NodeId) (t : Z) (li : nat) (lt : Z)             (* candidate [c] asks [n] *)
| AGrant (n c : NodeId) (t : Z)                                (* [n] votes for [c] *)
| AAppend (c n : NodeId) (t : Z) (P : list Entry) (prev lc : nat) (* [c]'s log was [P] *)
| AAck (n c : NodeId) (t : Z) (k : nat).                       (* [n] holds [k] entries *)

Record gstate : Type := GState {
  nodes : NodeId -> anode;
  sent : list amsg;
  llog : Z -> option (NodeId * list Entry);
  acked : NodeId -> Z -> nat;
  ballot : NodeId -> Z -> option (NodeId * list Entry);
}.
#[global] Instance gstate_eta : Eta gstate := fun g =>
  GState (nodes g) (sent g) (llog g) (acked g) (ballot g).

Definition set_node (n : NodeId) (a : anode) (g : gstate) : gstate :=
  g <| nodes := <[n := a]> (nodes g) |>.
Definition add_sent (ms : list amsg) (g : gstate) : gstate := g <| sent := ms ++ sent g |>.

Definition anode_init : anode := ANode 0 None [] 0 Follower ∅ 0 (fun _ => 0%nat).
Definition g_init : gstate := GState (fun _ => anode_init) [] (fun _ => None) (fun _ _ => 0%nat) (fun _ _ => None).

(** ** Accepting entries

    The follower with log [L] and compaction base [b] scans the entries of the
    message after [prev], from [b] on: it keeps its log when they all match in
    term, or else cuts at the first position [j] that is missing or conflicts
    (never a committed one) and takes the rest from the message.  A node that
    fails between cutting and appending is left with the cut log; it then
    acknowledges nothing. *)
Definition matches_to (L P : list Entry) (lo hi : nat) : Prop :=
  forall i, (lo <= i < hi)%nat -> exists e e', L !! i = Some e /\ P !! i = Some e' /\ e_term e = e_term e'.

Definition conflict_at (L P : list Entry) (commit j : nat) : Prop :=
  exists e e', L !! j = Some e /\ P !! j = Some e' /\ e_term e <> e_term e' /\ (commit <= j)%nat.

(** The index the follower acknowledges: the last entry sent, or [prev]. *)
Definition last_new (P : list Entry) (prev : nat) : nat := Nat.max (length P) prev.

(** [merge L P b prev commit M k]: the log becomes [M] and [k] is acknowledged. *)
Inductive merge (L P : list Entry) (b prev commit : nat) : list Entry -> nat -> Prop :=
| merge_keep :
    matches_to L P (Nat.max prev b) (length P) -> merge L P b prev commit L (last_new P prev)
| merge_extend j :
    (Nat.max prev b <= j < length P)%nat -> matches_to L P (Nat.max prev b) j ->
    j = length L \/ conflict_at L P commit j ->
    merge L P b prev commit (take j L ++ drop j P) (last_new P prev)
| merge_cut j :
    (Nat.max prev b <= j < length P)%nat -> matches_to L P (Nat.max prev b) j ->
    conflict_at L P commit j ->
    merge L P b prev commit (take j L) 0.

Definition acceptable (L P : list Entry) (b prev : nat) : Prop :=
  (prev <= b)%nat \/ ((prev <= length L)%nat /\ tat L prev = tat P prev).

Section spec.
Context (voters : list NodeId).

Definition quorum_size : nat := length voters / 2 + 1.
Definition is_quorum (Q : gset NodeId) : Prop :=
  Q ⊆ list_to_set voters /\ (quorum_size <= size Q)%nat.

(** The voters whose match index reached [q]. *)
Definition matched (a : anode) (q : nat) : gset NodeId :=
  filter (fun m => (q <= a_match a m)%nat) (list_to_set voters).

Abbreviation node g n := (nodes g n).

(** ** Steps *)
Inductive astep (g : gstate) : gstate -> Prop :=
(** A voter moves to a later term, or steps down in its term, or restarts:
    the volatile state is reset and the vote forgotten when the term changes. *)
| st_reset n t c :
    n ∈ voters -> a_term (node g n) <= t -> (c <= a_commit (node g n))%nat ->
    astep g (set_node n ((node g n) <| a_term := t |>
      <| a_vote := if t =? a_term (node g n) then a_vote (node g n) else None |>
      <| a_role := Follower |> <| a_votes := ∅ |> <| a_commit := c |>) g)
| st_candidate n :
    n ∈ voters -> 0 <= a_term (node g n) ->
    let t := a_term (node g n) + 1 in
    let L := a_log (node g n) in
    astep g (add_sent (map (fun m => AVote n m t (length L) (lastterm L)) voters)
      (set_node n ((node g n) <| a_term := t |> <| a_vote := Some n |>
        <| a_role := Candidate |> <| a_votes := {[ n ]} |>)
      (g <| ballot := <[n := <[t := Some (n, L)]> (ballot g n)]> (ballot g) |>)))
| st_grant n c li lt :
    n ∈ voters ->
    let a := node g n in
    AVote c n (a_term a) li lt ∈ sent g -> up_to_date li lt (a_log a) ->
    a_vote a = None \/ a_vote a = Some c ->
    astep g (add_sent [AGrant n c (a_term a)]
      (set_node n (a <| a_vote := Some c |>)
      (g <| ballot := match a_vote a with
                      | None => <[n := <[a_term a := Some (c, a_log a)]> (ballot g n)]> (ballot g)
                      | Some _ => ballot g
                      end |>)))
| st_vote n m :
    n ∈ voters -> m ∈ voters ->
    a_role (node g n) = Candidate -> AGrant m n (a_term (node g n)) ∈ sent g ->
    astep g (set_node n ((node g n) <| a_votes := {[ m ]} ∪ a_votes (node g n) |>) g)
| st_lead n d :
    n ∈ voters ->
    let a := node g n in
    a_role a = Candidate -> (quorum_size <= size (a_votes a))%nat ->
    let L := a_log a ++ [MkEntry (a_term a) (Z.of_nat (S (length (a_log a)))) d] in
    astep g (set_node n (a <| a_role := Leader |> <| a_log := L |>
        <| a_match := <[n := length L]> (fun _ => 0%nat) |>)
      (g <| llog := <[a_term a := Some (n, L)]> (llog g) |>
         <| acked := <[n := <[a_term a := length L]> (acked g n)]> (acked g) |>))
| st_propose n d :
    n ∈ voters ->
    let a := node g n in
    a_role a = Leader ->
    let L := a_log a ++ [MkEntry (a_term a) (Z.of_nat (S (length (a_log a)))) d] in
    astep g (set_node n (a <| a_log := L |> <| a_match := <[n := length L]> (a_match a) |>)
      (g <| llog := <[a_term a := Some (n, L)]> (llog g) |>
         <| acked := <[n := <[a_term a := length L]> (acked g n)]> (acked g) |>))
| st_send n m prev :
    n ∈ voters ->
    let a := node g n in
    a_role a = Leader ->
    astep g (add_sent [AAppend n m (a_term a) (a_log a) prev (a_commit a)] g)
| st_append n c P prev lc L' k :
    n ∈ voters ->
    let a := node g n in
    a_role a = Follower -> AAppend c n (a_term a) P prev lc ∈ sent g ->
    acceptable (a_log a) P (a_base a) prev ->
    merge (a_log a) P (a_base a) prev (a_commit a) L' k ->
    astep g (add_sent [AAck n c (a_term a) k]
      (set_node n (a <| a_log := L' |>
          <| a_commit := Nat.max (Nat.min lc k) (a_commit a) |>)
      (g <| acked := <[n := <[a_term a := Nat.max (acked g n (a_term a)) k]> (acked g n)]> (acked g) |>)))
| st_match n m k :
    n ∈ voters ->
    a_role (node g n) = Leader -> AAck m n (a_term (node g n)) k ∈ sent g ->
    astep g (set_node n ((node g n) <| a_match := <[m := k]> (a_match (node g n)) |>) g)
| st_commit n q :
    n ∈ voters ->
    let a := node g n in
    a_role a = Leader -> (quorum_size <= size (matched a q))%nat -> (q <= length (a_log a))%nat ->
    tat (a_log a) q = a_term a -> (a_commit a <= q)%nat ->
    astep g (set_node n (a <| a_commit := q |>) g)
| st_compact n b :
    n ∈ voters -> (a_base (node g n) <= b <= a_commit (node g n))%nat ->
    astep g (set_node n ((node g n) <| a_base := b |>) g).

Inductive areach : gstate -> Prop :=
| areach_init : areach g_init
| areach_step g g' : areach g -> astep g g' -> areach g'.

(** ** What the history says *)

(** [L] has an entry of term [t] at index [i]. *)
Definition has (L : list Entry) (i : nat) (t : Z) : Prop :=
  exists j e, i = S j /\ L !! j = Some e /\ e_term e = t.

(** A quorum acknowledged index [i] in term [t]; a quorum still can. *)
Definition chosen (g : gstate) (t : Z) (i : nat) : Prop :=
  exists Q, is_quorum Q /\ forall n, n ∈ Q -> (i <= acked g n t)%nat.
Definition choosable (g : gstate) (t : Z) (i : nat) : Prop :=
  exists Q, is_quorum Q /\ forall n, n ∈ Q -> (i <= acked g n t)%nat \/ a_term (node g n) <= t.

(** The first [k] entries of [L] are committed by a leader of a term up to [T]. *)
Definition committed (g : gstate) (T : Z) (L : list Entry) (k : nat) : Prop :=
  k = O \/ exists t i c L0, t <= T /\ llog g t = Some (c, L0) /\ has L0 i t /\ chosen g t i /\
    (k <= i)%nat /\ take k L = take k L0.

(** Every entry of [L] comes, with all before it, from the log of the leader of its term. *)
Definition coherent (g : gstate) (L : list Entry) : Prop :=
  forall i e, L !! i = Some e ->
    exists c L', llog g (e_term e) = Some (c, L') /\ take (S i) L = take (S i) L'.
End spec.
