(* ===== verification/RaftSafety.v ===== *)
(** * Safety of the abstract Raft protocol

    The inductive invariant of [RaftSpec.astep] and its consequences: at most
    one leader per term, log matching, leader completeness, and agreement on
    committed prefixes.  The invariant is stated over the history variables;
    [choosable] (a quorum has acknowledged or still can) is what makes leader
    completeness inductive, because it only ever shrinks. *)

From stdpp Require Import gmap functions.
From S2P Require Import Prelude RaftTypes RaftSpec.

(** ** Facts about logs *)
Lemma take_prefix {A} (L L' : list A) i :
  L `prefix_of` L' -> (i <= length L)%nat -> take i L' = take i L.
Proof. intros [k ->] Hi. by rewrite take_app_le. Qed.

Lemma take_le_eq {A} (L L' : list A) i k :
  take k L = take k L' -> (i <= k)%nat -> take i L = take i L'.
Proof.
  intros H Hi. replace i with (i `min` k)%nat by lia. by rewrite <- !take_take, H.
Qed.

Lemma take_eq_lookup {A} (L L' : list A) k j :
  take k L = take k L' -> (j < k)%nat -> L !! j = L' !! j.
Proof. intros H Hj. by rewrite <- (lookup_take_lt L k j), <- (lookup_take_lt L' k j), H. Qed.

Lemma take_eq_length {A} (L L' : list A) k :
  take k L = take k L' -> (k <= length L')%nat -> (k <= length L)%nat.
Proof. intros H Hk. apply (f_equal length) in H. rewrite !length_take in H. lia. Qed.

Lemma has_le L i t : has L i t -> (0 < i <= length L)%nat.
Proof. intros (j & e & -> & H & _). apply lookup_lt_Some in H. lia. Qed.

Lemma has_take L L' i k t : has L i t -> take k L = take k L' -> (i <= k)%nat -> has L' i t.
Proof.
  intros (j & e & -> & H & Ht) Hk Hi. exists j, e. split_and!; try done.
  by rewrite <- (take_eq_lookup L L' k j Hk ltac:(lia)).
Qed.

Lemma has_prefix L L' i t : L `prefix_of` L' -> has L i t -> has L' i t.
Proof.
  intros Hp Hh. apply (has_take L L' i i); [done| |lia]. symmetry. apply take_prefix; [done|].
  apply has_le in Hh. lia.
Qed.

Lemma has_prefix_inv L L' i t : L `prefix_of` L' -> (i <= length L)%nat -> has L' i t -> has L i t.
Proof.
  intros Hp Hi Hh. apply (has_take L' L i i); [done| |lia]. by apply take_prefix.
Qed.

Lemma tat_has L i t : 0 < t -> tat L i = t <-> has L i t.
Proof.
  intros Ht. unfold tat, has. destruct i as [|j].
  - split; [lia|]. by intros (j & e & ? & _).
  - split.
    + destruct (L !! j) as [e|] eqn:E; [|lia]. intros <-. by exists j, e.
    + intros (j' & e & [= <-] & -> & ->). done.
Qed.

Lemma prefix_snoc_inv {A} (P L : list A) x : P `prefix_of` L ++ [x] -> P `prefix_of` L \/ P = L ++ [x].
Proof.
  intros [k E]. destruct k as [|y k _] using rev_ind.
  - right. by rewrite app_nil_r in E.
  - left. exists k. rewrite app_assoc in E. by apply app_inj_tail in E as [-> _].
Qed.

Lemma lookup_snoc_Some' (L : list Entry) x j e :
  (L ++ [x]) !! j = Some e -> L !! j = Some e \/ (j = length L /\ x = e).
Proof. intros H. apply lookup_snoc_Some in H as [[_ ?]|[? ?]]; auto. Qed.

Lemma lastterm_lookup L : L <> [] -> exists e, L !! (length L - 1)%nat = Some e /\ e_term e = lastterm L.
Proof.
  intros Hne. unfold lastterm. destruct L as [|e L _] using rev_ind; [done|].
  rewrite last_snoc, length_app. cbn. exists e. split; [|done].
  rewrite lookup_app_r by lia. by replace (length L + 1 - 1 - length L)%nat with 0%nat by lia.
Qed.

Section safety.
Context (voters : list NodeId).

Local Abbreviation node g n := (nodes g n).
Local Abbreviation quorumv := (is_quorum voters).
Local Abbreviation choosablev := (choosable voters).
Local Abbreviation chosenv := (chosen voters).
Local Abbreviation committedv := (committed voters).

(** Two quorums share a voter. *)
Lemma quorum_intersect Q1 Q2 : quorumv Q1 -> quorumv Q2 -> exists n, n ∈ Q1 /\ n ∈ Q2.
Proof.
  intros [H1 S1] [H2 S2]. destruct (decide (Q1 ∩ Q2 = ∅)) as [E|E].
  - exfalso. assert (Hd : Q1 ## Q2) by set_solver.
    assert (Hu : (size (Q1 ∪ Q2) <= length voters)%nat).
    { etransitivity; [apply (subseteq_size _ (list_to_set voters)); set_solver|].
      clear. induction voters as [|v vs IH]; [done|]. cbn [list_to_set length].
      rewrite size_union_alt, size_singleton.
      assert (size (list_to_set vs ∖ {[v]} : gset NodeId) <= size (list_to_set vs : gset NodeId))%nat
        by (apply subseteq_size; set_solver). lia. }
    rewrite size_union in Hu by done. unfold quorum_size in *.
    pose proof (Nat.div_mod_eq (length voters) 2). pose proof (Nat.mod_upper_bound (length voters) 2). lia.
  - apply set_choose_L in E as [n Hn]. exists n. set_solver.
Qed.

(** ** The invariant *)

(** What a message in the history tells. *)
Definition msg_ok (g : gstate) (m : amsg) : Prop :=
  match m with
  | AVote c n t li lt => exists L, ballot g c t = Some (c, L) /\ li = length L /\ lt = lastterm L
  | AGrant n c t => exists L, ballot g n t = Some (c, L)
  | AAppend c n t P prev lc =>
      exists L, llog g t = Some (c, L) /\ P `prefix_of` L /\ committedv g t P lc
  | AAck n c t k => (k <= acked g n t)%nat
  end.

Record inv (g : gstate) : Prop := {
  i_wf n : wf_log (a_log (node g n));
  i_pos n : 0 <= a_term (node g n);
  i_logt n e : e ∈ a_log (node g n) -> e_term e <= a_term (node g n);
  i_ballot_t n t x : ballot g n t = Some x -> t <= a_term (node g n);
  i_vote n : match a_vote (node g n) with
             | Some c => exists L, ballot g n (a_term (node g n)) = Some (c, L)
             | None => ballot g n (a_term (node g n)) = None
             end;
  i_sent m : m ∈ sent g -> msg_ok g m;
  i_votes n : a_role (node g n) = Candidate -> a_votes (node g n) ⊆ list_to_set voters /\
    forall m, m ∈ a_votes (node g n) -> exists L, ballot g m (a_term (node g n)) = Some (n, L);
  i_cand n : a_role (node g n) = Candidate ->
    1 <= a_term (node g n) /\ ballot g n (a_term (node g n)) = Some (n, a_log (node g n));
  i_elected t c L : llog g t = Some (c, L) ->
    exists Q, quorumv Q /\ forall m, m ∈ Q -> exists L', ballot g m t = Some (c, L');
  i_lead_term t c L : llog g t = Some (c, L) ->
    1 <= t <= a_term (node g c) /\ (t = a_term (node g c) -> a_role (node g c) <> Candidate);
  i_leader n : a_role (node g n) = Leader -> llog g (a_term (node g n)) = Some (n, a_log (node g n));
  i_upd m t c Lm : ballot g m t = Some (c, Lm) ->
    exists Lc, ballot g c t = Some (c, Lc) /\ up_to_date (length Lc) (lastterm Lc) Lm;
  i_self c t L : ballot g c t = Some (c, L) -> forall e, e ∈ L -> e_term e < t;
  i_coh n : coherent g (a_log (node g n));
  i_coh_llog t c L : llog g t = Some (c, L) ->
    coherent g L /\ wf_log L /\ forall e, e ∈ L -> e_term e <= t;
  i_coh_ballot n t c L : ballot g n t = Some (c, L) -> coherent g L;
  i_acked n t : (0 < acked g n t)%nat -> t <= a_term (node g n) /\
    exists c L, llog g t = Some (c, L) /\ (acked g n t <= length L)%nat;
  i_ack_log n t i c L : llog g t = Some (c, L) -> has L i t -> (i <= acked g n t)%nat ->
    choosablev g t i -> take i (a_log (node g n)) = take i L;
  i_ack_ballot n t i c L t' c' Lb : llog g t = Some (c, L) -> has L i t ->
    (i <= acked g n t)%nat -> choosablev g t i -> t < t' -> ballot g n t' = Some (c', Lb) ->
    take i Lb = take i L;
  i_complete t i c L t' c' L' : llog g t = Some (c, L) -> has L i t -> choosablev g t i ->
    t < t' -> llog g t' = Some (c', L') -> take i L' = take i L;
  i_match n m : a_role (node g n) = Leader -> (a_match (node g n) m <= acked g m (a_term (node g n)))%nat;
  i_commit n : committedv g (a_term (node g n)) (a_log (node g n)) (a_commit (node g n));
  i_base n : committedv g (a_term (node g n)) (a_log (node g n)) (a_base (node g n));
}.

(** ** Growth of the history *)
Record grow (g g' : gstate) : Prop := {
  gr_llog t c L : llog g t = Some (c, L) -> exists L', llog g' t = Some (c, L') /\ L `prefix_of` L';
  gr_ballot n t x : ballot g n t = Some x -> ballot g' n t = Some x;
  gr_acked n t : (acked g n t <= acked g' n t)%nat;
  gr_term n : a_term (node g n) <= a_term (node g' n);
  gr_new n t : (acked g n t < acked g' n t)%nat -> a_term (node g n) <= t;
}.

Lemma grow_refl g : grow g g.
Proof. split; try done; [|lia]. intros t c L H. by exists L. Qed.

Lemma coherent_grow g g' L : grow g g' -> coherent g L -> coherent g' L.
Proof.
  intros Hg H i e He. destruct (H i e He) as (c & L' & Hl & Ht).
  destruct (gr_llog _ _ Hg _ _ _ Hl) as (L2 & Hl2 & Hp). exists c, L2. split; [done|].
  rewrite Ht. symmetry. apply take_prefix; [done|]. eapply take_eq_length; [symmetry; exact Ht|].
  by apply lookup_lt_Some in He.
Qed.

Lemma chosen_grow g g' t i : grow g g' -> chosenv g t i -> chosenv g' t i.
Proof.
  intros Hg (Q & HQ & H). exists Q. split; [done|]. intros n Hn.
  pose proof (gr_acked _ _ Hg n t). specialize (H n Hn). lia.
Qed.

Lemma choosable_shrink g g' t i : grow g g' -> choosablev g' t i -> choosablev g t i.
Proof.
  intros Hg (Q & HQ & H). exists Q. split; [done|]. intros n Hn.
  pose proof (gr_acked _ _ Hg n t). pose proof (gr_term _ _ Hg n).
  destruct (H n Hn) as [Ha|Ht]; [|right; lia].
  destruct (decide (i <= acked g n t)%nat); [by left|]. right. apply (gr_new _ _ Hg). lia.
Qed.

Lemma chosen_choosable g t i : chosenv g t i -> choosablev g t i.
Proof. intros (Q & HQ & H). exists Q. split; [done|]. intros. left. auto. Qed.

Lemma committed_grow g g' T T' L k :
  grow g g' -> T <= T' -> committedv g T L k -> committedv g' T' L k.
Proof.
  intros Hg HT [->|(t & i & c & L0 & Ht & Hl & Hh & Hc & Hk & Htk)]; [by left|]. right.
  destruct (gr_llog _ _ Hg _ _ _ Hl) as (L2 & Hl2 & Hp). exists t, i, c, L2.
  split_and!; try done; [lia|by eapply has_prefix|by eapply chosen_grow|].
  rewrite Htk. symmetry. apply take_prefix; [done|]. apply has_le in Hh. lia.
Qed.

Lemma committed_le g T L k k' : (k' <= k)%nat -> committedv g T L k -> committedv g T L k'.
Proof.
  intros Hk [->|(t & i & c & L0 & Ht & Hl & Hh & Hc & Hki & Htk)]; [left; lia|].
  right. exists t, i, c, L0. split_and!; try done; [lia|]. by eapply take_le_eq.
Qed.

Lemma committed_take g T L L' k : take k L = take k L' -> committedv g T L k -> committedv g T L' k.
Proof.
  intros E [->|(t & i & c & L0 & Ht & Hl & Hh & Hc & Hki & Htk)]; [by left|].
  right. exists t, i, c, L0. split_and!; try done. congruence.
Qed.

Lemma committed_length g T L k : committedv g T L k -> (k <= length L)%nat.
Proof.
  intros [->|(t & i & c & L0 & Ht & Hl & Hh & Hc & Hki & Htk)]; [lia|].
  eapply take_eq_length; [done|]. apply has_le in Hh. lia.
Qed.

(** ** Consequences of the invariant *)
Section consequences.
Context (g : gstate) (I : inv g).

(** Two candidates elected in a term are the same. *)
Lemma elected_unique t c Q c' Q' :
  quorumv Q -> (forall m, m ∈ Q -> exists L, ballot g m t = Some (c, L)) ->
  quorumv Q' -> (forall m, m ∈ Q' -> exists L, ballot g m t = Some (c', L)) -> c = c'.
Proof.
  intros HQ H HQ' H'. destruct (quorum_intersect Q Q' HQ HQ') as (n & Hn & Hn').
  destruct (H n Hn) as [L E]. destruct (H' n Hn') as [L' E']. congruence.
Qed.

Lemma coherent_sorted L i j e e' :
  coherent g L -> L !! i = Some e -> L !! j = Some e' -> (i <= j)%nat -> e_term e <= e_term e'.
Proof.
  intros Hc Hi Hj Hij. destruct (Hc j e' Hj) as (c & L' & Hl & Ht).
  destruct (i_coh_llog g I _ _ _ Hl) as (_ & _ & Hb). apply Hb.
  apply (list_elem_of_lookup_2 _ i). by rewrite <- (take_eq_lookup L L' (S j) i Ht ltac:(lia)).
Qed.

(** Two coherent logs with the same term at a position agree up to it. *)
Lemma coherent_agree L L' i e e' :
  coherent g L -> coherent g L' -> L !! i = Some e -> L' !! i = Some e' -> e_term e = e_term e' ->
  take (S i) L = take (S i) L'.
Proof.
  intros H H' Hi Hi' Ht. destruct (H i e Hi) as (c & L1 & E1 & T1).
  destruct (H' i e' Hi') as (c' & L2 & E2 & T2). rewrite Ht in E1. simplify_eq. congruence.
Qed.

(** The leader of a term has every prefix committed up to that term. *)
Lemma leader_has_committed T c L L' k :
  llog g T = Some (c, L) -> committedv g T L' k -> take k L' = take k L.
Proof.
  intros Hl [->|(t & i & c0 & L0 & Ht & Hl0 & Hh & Hc & Hki & Htk)]; [done|].
  rewrite Htk. destruct (decide (t = T)) as [->|]; [by simplify_eq|].
  symmetry. eapply take_le_eq; [|done]. eapply (i_complete g I t i); try done; [|lia].
  by apply chosen_choosable.
Qed.

(** Committed prefixes agree. *)
Lemma committed_agree T L k T' L' k' :
  committedv g T L k -> committedv g T' L' k' -> take (k `min` k') L = take (k `min` k') L'.
Proof.
  intros H H'. destruct H as [->|(t & i & c & L0 & Ht & Hl & Hh & Hc & Hki & Htk)]; [done|].
  destruct H' as [->|(t' & i' & c' & L0' & Ht' & Hl' & Hh' & Hc' & Hki' & Htk')].
  { by rewrite Nat.min_0_r. }
  rewrite (take_le_eq L L0 _ k Htk), (take_le_eq L' L0' _ k' Htk') by lia.
  destruct (Z.lt_trichotomy t t') as [Hlt|[<-|Hgt]].
  - symmetry. eapply take_le_eq; [eapply (i_complete g I t i c L0 t'); eauto using chosen_choosable|lia].
  - by simplify_eq.
  - eapply take_le_eq; [eapply (i_complete g I t' i' c' L0' t); eauto using chosen_choosable; lia|lia].
Qed.
End consequences.

Lemma msg_ok_grow g g' m : grow g g' -> msg_ok g m -> msg_ok g' m.
Proof.
  intros Hg. destruct m as [c n t li lt|n c t|c n t P prev lc|n c t k]; cbn.
  - intros (L & Hb & ?). exists L. split; [by eapply gr_ballot|done].
  - intros [L Hb]. exists L. by eapply gr_ballot.
  - intros (L & Hl & Hp & Hc). destruct (gr_llog _ _ Hg _ _ _ Hl) as (L2 & Hl2 & Hp2).
    exists L2. split_and!; [done|by etransitivity|]. eapply committed_grow; [done| |done]. lia.
  - pose proof (gr_acked _ _ Hg n t). lia.
Qed.

(** Sending messages that tell the truth keeps the invariant. *)
Lemma inv_add_sent g ms : inv g -> Forall (msg_ok g) ms -> inv (add_sent ms g).
Proof.
  intros I Hms. destruct I. split; try done.
  intros m [Hm|Hm]%elem_of_app; [|by apply i_sent0]. rewrite Forall_forall in Hms. by apply Hms.
Qed.

(** ** Steps that leave the history alone *)
Record quiet (g : gstate) (n : NodeId) (a' : anode) : Prop := {
  q_term : a_term (node g n) <= a_term a';
  q_log : a_log a' = a_log (node g n);
  q_vote : (a_term a' = a_term (node g n) /\ a_vote a' = a_vote (node g n)) \/
           (a_term (node g n) < a_term a' /\ a_vote a' = None);
  q_cand : a_role a' = Candidate -> a_role (node g n) = Candidate /\ a_term a' = a_term (node g n) /\
    a_votes a' ⊆ list_to_set voters /\
    forall m, m ∈ a_votes a' -> exists L, ballot g m (a_term a') = Some (n, L);
  q_lead : a_role a' = Leader -> a_role (node g n) = Leader /\ a_term a' = a_term (node g n) /\
    forall m, (a_match a' m <= acked g m (a_term a'))%nat;
  q_commit : committedv g (a_term a') (a_log a') (a_commit a');
  q_base : committedv g (a_term a') (a_log a') (a_base a');
}.

Ltac node_case m n :=
  destruct (decide (m = n)) as [->|];
  [rewrite ?fn_lookup_insert in *|rewrite ?fn_lookup_insert_ne in * by done].

Lemma quiet_grow g n a' : quiet g n a' -> grow g (set_node n a' g).
Proof.
  intros Q. split; cbn; try done.
  - intros t c L H. by exists L.
  - intros m. node_case m n; [apply (q_term _ _ _ Q)|lia].
  - intros m t H. lia.
Qed.

Lemma inv_quiet g n a' : inv g -> quiet g n a' -> inv (set_node n a' g).
Proof.
  intros I Q. pose proof (quiet_grow g n a' Q) as G. destruct Q.
  assert (HC : forall T L k, committedv g T L k -> committedv (set_node n a' g) T L k)
    by (intros; eapply committed_grow; [done| |done]; lia).
  split; cbn [nodes sent llog acked ballot set_node update]; intros.
  - node_case n0 n; [rewrite q_log0|]; apply I.
  - node_case n0 n; [pose proof (i_pos _ I n); lia|apply I].
  - node_case n0 n; [rewrite q_log0 in H; pose proof (i_logt _ I _ _ H); lia|by apply I].
  - pose proof (i_ballot_t _ I _ _ _ H). pose proof (gr_term _ _ G n0). cbn in H1. lia.
  - node_case n0 n; [|apply I]. destruct q_vote0 as [[-> ->]|[Hlt ->]]; [apply I|].
    destruct (ballot g n (a_term a')) eqn:E; [|done]. apply (i_ballot_t _ I) in E. lia.
  - eapply msg_ok_grow; [done|]. by apply I.
  - node_case n0 n; [by destruct (q_cand0 H) as (_ & _ & ? & ?)|by apply I].
  - node_case n0 n; [|by apply I]. destruct (q_cand0 H) as (Hr & -> & _). rewrite q_log0. by apply I.
  - by eapply (i_elected _ I).
  - destruct (i_lead_term _ I _ _ _ H) as [Ht Hr]. node_case c n; [|done]. split; [lia|].
    intros -> Hc. destruct (q_cand0 Hc) as (Hc' & Ht' & _). by apply Hr.
  - node_case n0 n; [|by apply I]. destruct (q_lead0 H) as (Hr & -> & _). rewrite q_log0. by apply I.
  - by eapply (i_upd _ I).
  - by eapply (i_self _ I).
  - eapply coherent_grow; [done|]. node_case n0 n; [rewrite q_log0|]; apply I.
  - by apply (i_coh_llog _ I) in H.
  - eapply coherent_grow; [done|]. by eapply (i_coh_ballot _ I).
  - destruct (i_acked _ I _ _ H) as [Ht Hx]. split; [|done].
    pose proof (gr_term _ _ G n0) as Hgt. cbn in Hgt. lia.
  - apply (choosable_shrink _ _ _ _ G) in H2. node_case n0 n; [rewrite q_log0|]; by eapply (i_ack_log _ I).
  - apply (choosable_shrink _ _ _ _ G) in H2. by eapply (i_ack_ballot _ I).
  - apply (choosable_shrink _ _ _ _ G) in H1. by eapply (i_complete _ I).
  - node_case n0 n; [by destruct (q_lead0 H) as (_ & _ & ?)|by apply I].
  - node_case n0 n; apply HC; [done|apply I].
  - node_case n0 n; apply HC; [done|apply I].
Qed.

(** ** Casting a ballot: a candidacy, or a vote for another candidate *)
Definition cast (n c : NodeId) (t : Z) (g : gstate) : gstate :=
  g <| ballot := <[n := <[t := Some (c, a_log (node g n))]> (ballot g n)]> (ballot g) |>.

Record casting (g : gstate) (n c : NodeId) (t : Z) (a' : anode) : Prop := {
  k_fresh : ballot g n t = None;
  k_same : a_log a' = a_log (node g n) /\ a_base a' = a_base (node g n) /\
    a_commit a' = a_commit (node g n) /\ a_match a' = a_match (node g n) /\
    a_vote a' = Some c /\ a_term a' = t;
  k_case :
    (c = n /\ a_term (node g n) < t /\ a_role a' = Candidate /\ a_votes a' = {[ n ]} /\ n ∈ voters) \/
    (c <> n /\ a_term (node g n) = t /\ a_role a' = a_role (node g n) /\ a_votes a' = a_votes (node g n) /\
     exists Lc, ballot g c t = Some (c, Lc) /\ up_to_date (length Lc) (lastterm Lc) (a_log (node g n)));
}.

Lemma cast_ballot g n c t m t' :
  ballot (cast n c t g) m t' =
  if decide (m = n /\ t' = t) then Some (c, a_log (node g n)) else ballot g m t'.
Proof.
  unfold cast. cbn. destruct (decide (m = n)) as [->|Hm].
  - rewrite fn_lookup_insert. destruct (decide (t' = t)) as [->|Ht].
    + rewrite fn_lookup_insert. by rewrite decide_True.
    + rewrite fn_lookup_insert_ne by done. by rewrite decide_False by naive_solver.
  - rewrite fn_lookup_insert_ne by done. by rewrite decide_False by naive_solver.
Qed.

Lemma cast_grow g n c t a' : casting g n c t a' -> grow g (set_node n a' (cast n c t g)).
Proof.
  intros [Hf (Hl & _ & _ & _ & _ & Ht) Hc]. split.
  - intros t0 c0 L H. by exists L.
  - intros m t0 x H. change (ballot (cast n c t g) m t0 = Some x). rewrite cast_ballot.
    destruct (decide _) as [[-> ->]|]; [congruence|done].
  - done.
  - intros m. cbn. node_case m n; [lia|done].
  - cbn. intros. lia.
Qed.

Lemma inv_cast g n c t a' : inv g -> casting g n c t a' -> inv (set_node n a' (cast n c t g)).
Proof.
  intros I K. pose proof (cast_grow _ _ _ _ _ K) as G. destruct K as [Hf (Hl & Hb & Hcm & Hm & Hv & Ht) Hc].
  set (g' := set_node n a' (cast n c t g)) in *.
  assert (EB : forall m t', ballot g' m t' = if decide (m = n /\ t' = t) then Some (c, a_log (node g n)) else ballot g m t')
    by (intros; apply cast_ballot).
  assert (HC : forall T L k, committedv g T L k -> committedv g' T L k)
    by (intros; eapply committed_grow; [done| |done]; lia).
  assert (Hold : a_term (node g n) <= t) by (destruct Hc as [(_ & ? & _)|(_ & ? & _)]; lia).
  assert (HN : forall m, m <> n -> node g' m = node g m) by (intros; cbn; by rewrite fn_lookup_insert_ne).
  assert (Hn : node g' n = a') by (cbn; by rewrite fn_lookup_insert).
  assert (Hlog : forall m, a_log (node g' m) = a_log (node g m))
    by (intros m; destruct (decide (m = n)) as [->|]; [by rewrite Hn|by rewrite HN]).
  assert (HT : forall m, a_term (node g m) <= a_term (node g' m)) by apply (gr_term _ _ G).
  assert (EL : llog g' = llog g) by done. assert (EA : acked g' = acked g) by done.
  assert (ES : sent g' = sent g) by done. clearbody g'.
  split; try rewrite EL; try rewrite EA; try rewrite ES; intros.
  - rewrite Hlog. apply I.
  - pose proof (i_pos _ I n0). specialize (HT n0). lia.
  - rewrite Hlog in H. pose proof (i_logt _ I _ _ H). specialize (HT n0). lia.
  - rewrite EB in H. destruct (decide _) as [[-> ->]|]; [rewrite Hn; lia|].
    pose proof (i_ballot_t _ I _ _ _ H). specialize (HT n0). lia.
  - destruct (decide (n0 = n)) as [->|Hne].
    + rewrite Hn, Hv, Ht. eexists. rewrite EB. by rewrite decide_True.
    + rewrite HN by done. pose proof (i_vote _ I n0) as Hvote.
      destruct (a_vote (node g n0)); [destruct Hvote as [L HL]; exists L; by apply (gr_ballot _ _ G)|].
      rewrite EB. by rewrite decide_False by naive_solver.
  - eapply msg_ok_grow; [done|]. by apply I.
  - destruct (decide (n0 = n)) as [->|Hne].
    + rewrite Hn in *. destruct Hc as [(-> & _ & _ & -> & Hin)|(_ & Et & Hr & Hvs & _)].
      * split; [set_solver|]. intros m ->%elem_of_singleton. eexists. rewrite EB, Ht.
        by rewrite decide_True.
      * rewrite Hr in H. destruct (i_votes _ I n H) as [H1 H2]. rewrite Hvs, Ht, <- Et. split; [done|].
        intros m Hm'. destruct (H2 m Hm') as [L HL]. exists L. by apply (gr_ballot _ _ G).
    + rewrite HN in * by done. destruct (i_votes _ I n0 H) as [H1 H2]. split; [done|].
      intros m Hm'. destruct (H2 m Hm') as [L HL]. exists L. by apply (gr_ballot _ _ G).
  - rewrite Hlog. destruct (decide (n0 = n)) as [->|Hne].
    + rewrite Hn in *. destruct Hc as [(-> & Hlt & _ & _ & Hin)|(_ & Et & Hr & _ & _)].
      * rewrite EB, Ht. rewrite decide_True by done. split; [|done]. pose proof (i_pos _ I n). lia.
      * rewrite Hr in H. apply (i_cand _ I) in H as [_ H]. rewrite Et in H. congruence.
    + rewrite HN in * by done. destruct (i_cand _ I _ H). split; [done|]. by apply (gr_ballot _ _ G).
  - destruct (i_elected _ I _ _ _ H) as (Q & HQ & HB). exists Q. split; [done|].
    intros m Hmq. destruct (HB m Hmq) as [L' HL']. exists L'. by apply (gr_ballot _ _ G).
  - destruct (i_lead_term _ I _ _ _ H) as [Ht0 Hr0]. destruct (decide (c0 = n)) as [->|Hne].
    + rewrite Hn, Ht. split; [lia|]. destruct Hc as [(_ & ? & _)|(_ & Et & -> & _)]; [lia|].
      intros ->. by apply Hr0.
    + by rewrite HN.
  - destruct (decide (n0 = n)) as [->|Hne].
    + rewrite Hlog. rewrite Hn in *. destruct Hc as [(_ & _ & Hr & _)|(_ & Et & Hr & _)]; [congruence|].
      rewrite Ht, <- Et. apply I. congruence.
    + rewrite HN in * by done. by apply I.
  - rewrite EB in H. destruct (decide _) as [[-> ->]|].
    + simplify_eq. destruct Hc as [(-> & _)|(_ & _ & _ & _ & Lc & HLc & Hu)].
      * eexists. rewrite EB. rewrite decide_True by done. split; [done|]. right. split; [done|lia].
      * exists Lc. split; [|done]. by apply (gr_ballot _ _ G).
    + destruct (i_upd _ I _ _ _ _ H) as (Lc & HLc & Hu). exists Lc. split; [|done]. by apply (gr_ballot _ _ G).
  - rewrite EB in H. destruct (decide _) as [[-> ->]|]; [|by eapply (i_self _ I)].
    simplify_eq. destruct Hc as [(_ & Hlt & _)|(Hne & _)]; [|done]. apply (i_logt _ I) in H0. lia.
  - rewrite Hlog. eapply coherent_grow; [done|]. apply I.
  - destruct (i_coh_llog _ I _ _ _ H) as (? & ? & ?). split; [by eapply coherent_grow|done].
  - rewrite EB in H. eapply coherent_grow; [done|]. destruct (decide _) as [[-> ->]|].
    + simplify_eq. apply I.
    + by eapply (i_coh_ballot _ I).
  - destruct (i_acked _ I _ _ H) as [Ht0 Hx]. split; [|done]. specialize (HT n0). lia.
  - apply (choosable_shrink _ _ _ _ G) in H2. rewrite Hlog. by eapply (i_ack_log _ I).
  - apply (choosable_shrink _ _ _ _ G) in H2. rewrite EB in H4. destruct (decide _) as [[-> ->]|].
    + simplify_eq. by eapply (i_ack_log _ I).
    + by eapply (i_ack_ballot _ I).
  - apply (choosable_shrink _ _ _ _ G) in H1. by eapply (i_complete _ I).
  - destruct (decide (n0 = n)) as [->|Hne].
    + rewrite Hn in *. destruct Hc as [(_ & _ & Hr & _)|(_ & Et & Hr & _)]; [congruence|].
      rewrite Hm, Ht, <- Et. apply I. congruence.
    + rewrite HN in * by done. by apply I.
  - rewrite Hlog. eapply committed_grow; [done|apply HT|]. destruct (decide (n0 = n)) as [->|Hne].
    + rewrite Hn, Hcm. apply I.
    + rewrite HN by done. apply I.
  - rewrite Hlog. eapply committed_grow; [done|apply HT|]. destruct (decide (n0 = n)) as [->|Hne].
    + rewrite Hn, Hb. apply I.
    + rewrite HN by done. apply I.
Qed.

(** ** Extending a leader's log: an election, or a proposal *)
Definition extend (n : NodeId) (t : Z) (L : list Entry) (g : gstate) : gstate :=
  g <| llog := <[t := Some (n, L)]> (llog g) |>
    <| acked := <[n := <[t := length L]> (acked g n)]> (acked g) |>.

Record extending (g : gstate) (n : NodeId) (e : Entry) (a' : anode) : Prop := {
  x_entry : e_term e = a_term (node g n) /\ e_index e = Z.of_nat (S (length (a_log (node g n))));
  x_same : a_log a' = a_log (node g n) ++ [e] /\ a_base a' = a_base (node g n) /\
    a_commit a' = a_commit (node g n) /\ a_vote a' = a_vote (node g n) /\
    a_term a' = a_term (node g n) /\ a_role a' = Leader;
  x_match : a_match a' n = length (a_log a') /\
    forall m, m <> n -> (a_match a' m <= acked g m (a_term a'))%nat;
  x_pos : 1 <= a_term (node g n);
  x_quorum : exists Q, quorumv Q /\
    forall m, m ∈ Q -> exists L, ballot g m (a_term (node g n)) = Some (n, L);
  x_case : (llog g (a_term (node g n)) = None /\
              (forall e', e' ∈ a_log (node g n) -> e_term e' < a_term (node g n))) \/
           llog g (a_term (node g n)) = Some (n, a_log (node g n));
  x_complete t i c L : t < a_term (node g n) -> llog g t = Some (c, L) -> has L i t ->
    choosablev g t i -> take i (a_log (node g n)) = take i L;
}.

Section extend.
Context (g : gstate) (I : inv g) (n : NodeId) (e : Entry) (a' : anode) (X : extending g n e a').
Let t := a_term (node g n).
Let L := a_log (node g n).
Let g' := set_node n a' (extend n t (L ++ [e]) g).

Lemma ext_llog t0 : llog g' t0 = if decide (t0 = t) then Some (n, L ++ [e]) else llog g t0.
Proof.
  unfold g', extend. cbn. destruct (decide (t0 = t)) as [->|]; [by rewrite fn_lookup_insert|].
  by rewrite fn_lookup_insert_ne.
Qed.

Lemma ext_acked m t0 :
  acked g' m t0 = if decide (m = n /\ t0 = t) then S (length L) else acked g m t0.
Proof.
  unfold g', extend. cbn. destruct (decide (m = n)) as [->|Hm].
  - rewrite fn_lookup_insert. destruct (decide (t0 = t)) as [->|Ht].
    + rewrite fn_lookup_insert, decide_True, length_app by done. cbn. lia.
    + rewrite fn_lookup_insert_ne, decide_False by naive_solver. done.
  - rewrite fn_lookup_insert_ne, decide_False by naive_solver. done.
Qed.

Lemma ext_node m : node g' m = if decide (m = n) then a' else node g m.
Proof.
  unfold g', extend. cbn. destruct (decide (m = n)) as [->|]; [by rewrite fn_lookup_insert|].
  by rewrite fn_lookup_insert_ne.
Qed.

Lemma ext_term m : a_term (node g' m) = a_term (node g m).
Proof.
  rewrite ext_node. destruct (decide (m = n)) as [->|]; [|done]. by destruct (x_same _ _ _ _ X) as (_ & _ & _ & _ & ? & _).
Qed.

(** Before the step nobody has acknowledged the new index. *)
Lemma ext_old_ack m : (acked g m t <= length L)%nat.
Proof.
  destruct (decide (acked g m t = 0)%nat) as [->|Hne]; [lia|].
  destruct (i_acked _ I m t ltac:(lia)) as (_ & c & L0 & Hl & Hle).
  destruct (x_case _ _ _ _ X) as [[Hn _]|Hs]; [fold t in Hn; congruence|].
  fold t in Hs. rewrite Hs in Hl. by simplify_eq.
Qed.

(** An entry of the term that was there before: then the term had this leader already. *)
Lemma ext_old_has i : has (L ++ [e]) i t -> (i <= length L)%nat ->
  llog g t = Some (n, L) /\ has L i t.
Proof.
  intros Hh Hi. assert (Hh' : has L i t) by (eapply has_prefix_inv; [by eexists|done|done]).
  destruct (x_case _ _ _ _ X) as [[_ Hlt]|Hs]; [|done]. exfalso.
  destruct Hh' as (j & e' & -> & He' & Ht). apply list_elem_of_lookup_2 in He'. specialize (Hlt _ He'). lia.
Qed.

Lemma ext_grow : grow g g'.
Proof.
  split.
  - intros t0 c L0 H. rewrite ext_llog. destruct (decide (t0 = t)) as [->|]; [|by exists L0].
    destruct (x_case _ _ _ _ X) as [[Hn _]|Hs]; [fold t in Hn; congruence|].
  fold t in Hs. rewrite Hs in H. simplify_eq.
    eexists. split; [done|]. by eexists.
  - done.
  - intros m t0. rewrite ext_acked. destruct (decide _) as [[-> ->]|]; [|done]. pose proof (ext_old_ack n). lia.
  - intros m. by rewrite ext_term.
  - intros m t0. rewrite ext_acked. destruct (decide _) as [[-> ->]|]; lia.
Qed.

Lemma ext_take i : (i <= length L)%nat -> take i (L ++ [e]) = take i L.
Proof. intros. by rewrite take_app_le. Qed.

(** The new index cannot be chosen against a leader of a later term. *)
Lemma ext_not_choosable t' c' L' :
  t < t' -> llog g t' = Some (c', L') -> ~ choosablev g' t (S (length L)).
Proof.
  intros Ht Hl (Q & HQ & H). destruct (i_elected _ I _ _ _ Hl) as (Q' & HQ' & HB).
  destruct (quorum_intersect _ _ HQ HQ') as (m & Hm & Hm'). destruct (HB m Hm') as [L0 HL0].
  apply (i_ballot_t _ I) in HL0. specialize (H m Hm). rewrite ext_term, ext_acked in H.
  destruct (decide _) as [[-> _]|]; [unfold t in Ht, HL0; lia|].
  pose proof (ext_old_ack m). destruct H; lia.
Qed.

Lemma ext_coherent : coherent g' (L ++ [e]).
Proof.
  intros i e' He'. destruct (decide (i < length L)%nat) as [Hi|Hi].
  - rewrite lookup_app_l in He' by done. destruct (coherent_grow _ _ _ ext_grow (i_coh _ I n) i e' He')
      as (c & L0 & Hl & Ht). exists c, L0. split; [done|]. rewrite take_app_le by lia. done.
  - assert (i = length L) as -> by (apply lookup_lt_Some in He'; rewrite length_app in He'; cbn in He'; lia).
    rewrite lookup_app_r, Nat.sub_diag in He' by lia. cbn in He'. injection He' as <-.
    destruct (x_entry _ _ _ _ X) as [-> _]. fold t. rewrite ext_llog, decide_True by done. by eexists _, _.
Qed.

Lemma inv_extend : inv g'.
Proof.
  pose proof ext_grow as G. pose proof (x_same _ _ _ _ X) as (Hl & Hb & Hcm & Hv & Ht & Hr).
  pose proof (x_entry _ _ _ _ X) as [Het Hei]. fold t in Het, Ht. fold L in Hl, Hei.
  assert (HLOG : forall m, m <> n -> a_log (node g' m) = a_log (node g m))
    by (intros m Hm; by rewrite ext_node, decide_False).
  assert (Hlogn : a_log (node g' n) = L ++ [e]) by (by rewrite ext_node, decide_True).
  assert (Hwf : wf_log (L ++ [e])).
  { intros j e' [He'|[-> Hx]]%lookup_snoc_Some'; [by apply (i_wf _ I n)|].
    subst e'. rewrite Hei, Het. split; [done|]. apply (x_pos _ _ _ _ X). }
  assert (Hbound : forall e', e' ∈ L ++ [e] -> e_term e' <= t).
  { intros e' [He'|He']%elem_of_app; [by apply (i_logt _ I n)|].
    assert (e' = e) as -> by set_solver. lia. }
  split; intros.
  - destruct (decide (n0 = n)) as [->|]; [by rewrite Hlogn|rewrite HLOG by done; apply I].
  - rewrite ext_term. apply I.
  - rewrite ext_term. destruct (decide (n0 = n)) as [->|].
    + rewrite Hlogn in H. by apply Hbound.
    + rewrite HLOG in H by done. by apply (i_logt _ I).
  - rewrite ext_term. by eapply (i_ballot_t _ I).
  - rewrite ext_term, ext_node. pose proof (i_vote _ I n0). destruct (decide (n0 = n)) as [->|]; [by rewrite Hv|done].
  - eapply msg_ok_grow; [done|]. by apply I.
  - rewrite ext_term. rewrite ext_node in *. destruct (decide (n0 = n)); [congruence|]. by apply I.
  - rewrite ext_term. rewrite ext_node in *. destruct (decide (n0 = n)); [congruence|]. by apply I.
  - rewrite ext_llog in H. destruct (decide (t0 = t)) as [->|]; [|by eapply (i_elected _ I)].
    injection H as <- <-. apply (x_quorum _ _ _ _ X).
  - rewrite ext_term. rewrite ext_llog in H. destruct (decide (t0 = t)) as [->|].
    + injection H as <- <-. split; [pose proof (x_pos _ _ _ _ X); fold t in H; lia|].
      intros _. rewrite ext_node, decide_True by done. congruence.
    + destruct (i_lead_term _ I _ _ _ H) as [H1 H2]. split; [done|]. intros Hx.
      rewrite ext_node. destruct (decide (c = n)) as [->|]; [congruence|]. by apply H2.
  - rewrite ext_term, ext_llog. destruct (decide (n0 = n)) as [->|Hne].
    + fold t. rewrite decide_True by done. by rewrite Hlogn.
    + rewrite ext_node, decide_False in H by done. rewrite HLOG by done.
      apply (i_leader _ I) in H. destruct (decide (a_term (node g n0) = t)) as [Et|]; [|done].
      rewrite Et in H. destruct (x_case _ _ _ _ X) as [[Hn _]|Hs]; [fold t in Hn; congruence|].
      fold t in Hs. congruence.
  - by eapply (i_upd _ I).
  - by eapply (i_self _ I).
  - destruct (decide (n0 = n)) as [->|]; [rewrite Hlogn; apply ext_coherent|].
    rewrite HLOG by done. eapply coherent_grow; [done|apply I].
  - rewrite ext_llog in H. destruct (decide (t0 = t)) as [->|].
    + injection H as <- <-. split_and!; [apply ext_coherent|done|done].
    + destruct (i_coh_llog _ I _ _ _ H) as (? & ? & ?). split; [by eapply coherent_grow|done].
  - eapply coherent_grow; [done|]. by eapply (i_coh_ballot _ I).
  - rewrite ext_term. rewrite ext_acked in *. destruct (decide (n0 = n /\ t0 = t)) as [[-> ->]|].
    + split; [done|]. rewrite ext_llog, decide_True by done. eexists _, _. split; [done|].
      rewrite length_app. cbn. lia.
    + destruct (i_acked _ I _ _ H) as (H1 & c & L0 & H2 & H3). split; [done|].
      destruct (gr_llog _ _ G _ _ _ H2) as (L1 & H4 & H5). exists c, L1. split; [done|].
      apply prefix_length in H5. lia.
  - apply (choosable_shrink _ _ _ _ G) in H2. rewrite ext_llog in H. rewrite ext_acked in H1.
    destruct (decide (t0 = t)) as [->|Hne].
    + injection H as <- <-. destruct (decide (n0 = n)) as [->|Hn0].
      * by rewrite Hlogn.
      * rewrite decide_False in H1 by naive_solver. pose proof (ext_old_ack n0).
        destruct (ext_old_has i H0 ltac:(lia)) as [Hs Hh]. rewrite HLOG, ext_take by (done || lia).
        by eapply (i_ack_log _ I).
    + rewrite decide_False in H1 by naive_solver.
      assert (Hold : take i (a_log (node g n0)) = take i L0) by (by eapply (i_ack_log _ I)).
      destruct (decide (n0 = n)) as [->|Hn0]; [|by rewrite HLOG].
      rewrite Hlogn, ext_take; [done|]. eapply take_eq_length; [exact Hold|]. apply has_le in H0. lia.
  - apply (choosable_shrink _ _ _ _ G) in H2. rewrite ext_llog in H. rewrite ext_acked in H1.
    destruct (decide (t0 = t)) as [->|Hne].
    + injection H as <- <-. destruct (decide (n0 = n)) as [->|Hn0].
      * apply (i_ballot_t _ I) in H4. fold t in H4. lia.
      * rewrite decide_False in H1 by naive_solver. pose proof (ext_old_ack n0).
        destruct (ext_old_has i H0 ltac:(lia)) as [Hs Hh]. rewrite ext_take by lia.
        by eapply (i_ack_ballot _ I).
    + rewrite decide_False in H1 by naive_solver. by eapply (i_ack_ballot _ I).
  - assert (H1' := choosable_shrink _ _ _ _ G H1). rewrite ext_llog in H, H3.
    destruct (decide (t' = t)) as [->|Hne'].
    + rewrite decide_False in H by lia. injection H3 as <- <-.
      assert (Ht' : take i L = take i L0) by (by eapply (x_complete _ _ _ _ X)).
      rewrite ext_take; [done|]. eapply take_eq_length; [exact Ht'|]. apply has_le in H0. lia.
    + destruct (decide (t0 = t)) as [->|Hne]; [|by eapply (i_complete _ I)].
      injection H as <- <-. destruct (decide (i <= length L)%nat) as [Hi|Hi].
      * destruct (ext_old_has i H0 Hi) as [Hs Hh]. rewrite ext_take by done. by eapply (i_complete _ I).
      * exfalso. assert (i = S (length L)) as ->.
        { apply has_le in H0. rewrite length_app in H0. cbn in H0. lia. }
        by eapply ext_not_choosable.
  - rewrite ext_term. rewrite ext_node in *. pose proof (gr_acked _ _ G m (a_term (node g n0))) as Hga.
    destruct (decide (n0 = n)) as [->|Hn0].
    + fold t in Hga |- *. destruct (x_match _ _ _ _ X) as [Hmn Hmo]. rewrite Ht in Hmo.
      destruct (decide (m = n)) as [->|Hm].
      * rewrite Hmn, Hl, ext_acked, decide_True, length_app by done. cbn. lia.
      * specialize (Hmo m Hm). lia.
    + pose proof (i_match _ I n0 m H). lia.
  - rewrite ext_term. eapply committed_grow; [done|reflexivity|]. pose proof (i_commit _ I n0) as Hc.
    destruct (decide (n0 = n)) as [->|Hn0].
    + rewrite Hlogn, ext_node, decide_True, Hcm by done. eapply committed_take; [|exact Hc].
      symmetry. apply ext_take. by eapply committed_length.
    + rewrite HLOG by done. by rewrite ext_node, decide_False.
  - rewrite ext_term. eapply committed_grow; [done|reflexivity|]. pose proof (i_base _ I n0) as Hc.
    destruct (decide (n0 = n)) as [->|Hn0].
    + rewrite Hlogn, ext_node, decide_True, Hb by done. eapply committed_take; [|exact Hc].
      symmetry. apply ext_take. by eapply committed_length.
    + rewrite HLOG by done. by rewrite ext_node, decide_False.
Qed.
End extend.

(** ** Accepting entries *)
Lemma merge_inv L P b prev cm M k :
  merge L P b prev cm M k ->
  (M = L /\ k = last_new P prev /\ matches_to L P (Nat.max prev b) (length P)) \/
  exists j, (Nat.max prev b <= j < length P)%nat /\ matches_to L P (Nat.max prev b) j /\
    (j = length L \/ conflict_at L P cm j) /\
    ((M = take j L ++ drop j P /\ k = last_new P prev) \/ (M = take j L /\ k = 0%nat)).
Proof. intros []; eauto 10. Qed.

Section accept.
Context (g : gstate) (I : inv g) (n c : NodeId) (P : list Entry) (prev lc : nat) (M : list Entry)
  (k : nat).
Let a := node g n.
Let L := a_log a.
Let t := a_term a.
Context (Hrole : a_role a = Follower) (Hmsg : AAppend c n t P prev lc ∈ sent g).
Context (Hacc : acceptable L P (a_base a) prev) (Hmerge : merge L P (a_base a) prev (a_commit a) M k).
Context (L' : list Entry) (Hl : llog g t = Some (c, L')) (Hp : P `prefix_of` L')
  (Hlc : committedv g t P lc).

Let lo := Nat.max prev (a_base a).

Lemma accept_agree_lo : take lo L = take lo L' /\ (lo <= length L')%nat.
Proof.
  pose proof (leader_has_committed g I t c L' L (a_base a) Hl (i_base _ I n)) as Hb.
  assert (Hbl : (a_base a <= length L')%nat).
  { eapply take_eq_length; [symmetry; exact Hb|]. eapply committed_length. apply (i_base _ I n). }
  destruct (decide (prev <= a_base a)%nat) as [Hle|Hgt].
  { unfold lo. by replace (Nat.max prev (a_base a)) with (a_base a) by lia. }
  destruct Hacc as [?|[Hlen Ht]]; [lia|]. unfold lo.
  replace (Nat.max prev (a_base a)) with prev by lia. destruct prev as [|j]; [lia|]. cbn [tat] in Ht.
  destruct (lookup_lt_is_Some_2 L j ltac:(lia)) as [e He]. rewrite He in Ht.
  destruct (i_wf _ I n j e He) as [_ Hpos]. destruct (P !! j) as [e'|] eqn:He'; [|lia].
  assert (He2 : L' !! j = Some e') by (by eapply prefix_lookup_Some).
  split; [|apply lookup_lt_Some in He2; lia].
  eapply (coherent_agree g L L' j e e'); try done; [apply I|]. by apply (i_coh_llog _ I _ _ _ Hl).
Qed.

Lemma accept_matches hi :
  matches_to L P lo hi -> take (Nat.max lo hi) L = take (Nat.max lo hi) L'.
Proof.
  intros Hm. destruct (decide (lo < hi)%nat) as [Hlt|Hge].
  - replace (Nat.max lo hi) with (S (hi - 1)) by lia.
    destruct (Hm (hi - 1)%nat ltac:(lia)) as (e & e' & He & He' & Ht).
    eapply (coherent_agree g L L' _ e e'); try done; [apply I| |by eapply prefix_lookup_Some].
    by apply (i_coh_llog _ I _ _ _ Hl).
  - replace (Nat.max lo hi) with lo by lia. apply accept_agree_lo.
Qed.

(** The result is the old log or a prefix of the leader's; up to the
    acknowledged index it is the leader's, and no agreement with the leader is
    lost. *)
Lemma accept_result :
  (M = L \/ M `prefix_of` P) /\ (k <= length L')%nat /\ take k M = take k L' /\
  (forall i, (i <= length L)%nat -> take i L = take i L' -> take i M = take i L').
Proof.
  destruct accept_agree_lo as [_ Hlo]. pose proof (prefix_length _ _ Hp) as HPL.
  assert (Hk : (last_new P prev <= Nat.max lo (length P))%nat) by (unfold last_new, lo; lia).
  destruct (merge_inv _ _ _ _ _ _ _ Hmerge) as [(E0 & Ek & Hm)|(j & Hj & Hm & Hcut & HM)].
  { rewrite E0, Ek. split_and!; [by left|lia| |done]. eapply take_le_eq; [apply accept_matches, Hm|done]. }
  fold lo in Hj, Hm. pose proof (accept_matches j Hm) as Ht.
  replace (Nat.max lo j) with j in Ht by lia.
  assert (Ej : take j L = take j P) by (rewrite Ht; apply take_prefix; [done|lia]).
  assert (Hcf : forall i, (i <= length L)%nat -> take i L = take i L' -> (i <= j)%nat).
  { intros i Hi Hti. destruct Hcut as [->|(e & e' & He & He' & Hne & _)]; [done|].
    destruct (decide (i <= j)%nat); [done|]. exfalso. apply Hne.
    pose proof (take_eq_lookup L L' i j Hti ltac:(lia)) as Hx. rewrite He in Hx.
    rewrite (prefix_lookup_Some _ _ _ _ He' Hp) in Hx. by simplify_eq. }
  destruct HM as [[E0 Ek]|[E0 Ek]]; rewrite E0, Ek, Ej.
  - rewrite take_drop. assert (last_new P prev = length P) as -> by (unfold last_new; unfold lo in Hj; lia).
    split_and!; [by right|lia|by rewrite (take_prefix P L')|].
    intros i Hi Hti. specialize (Hcf i Hi Hti). symmetry. apply take_prefix; [done|lia].
  - split_and!; [right; apply prefix_take|lia|done|].
    intros i Hi Hti. specialize (Hcf i Hi Hti). rewrite take_take, Nat.min_l by done.
    symmetry. apply take_prefix; [done|lia].
Qed.

Let a' := a <| a_log := M |> <| a_commit := Nat.max (Nat.min lc k) (a_commit a) |>.
Let g' := set_node n a'
  (g <| acked := <[n := <[t := Nat.max (acked g n t) k]> (acked g n)]> (acked g) |>).

Lemma acc_acked m t0 :
  acked g' m t0 = if decide (m = n /\ t0 = t) then Nat.max (acked g n t) k else acked g m t0.
Proof.
  unfold g'. cbn. destruct (decide (m = n)) as [->|Hm].
  - rewrite fn_lookup_insert. destruct (decide (t0 = t)) as [->|Ht].
    + by rewrite fn_lookup_insert, decide_True.
    + by rewrite fn_lookup_insert_ne, decide_False by naive_solver.
  - by rewrite fn_lookup_insert_ne, decide_False by naive_solver.
Qed.

Lemma acc_node m : node g' m = if decide (m = n) then a' else node g m.
Proof.
  unfold g'. cbn. destruct (decide (m = n)) as [->|]; [by rewrite fn_lookup_insert|].
  by rewrite fn_lookup_insert_ne.
Qed.

Lemma acc_term m : a_term (node g' m) = a_term (node g m).
Proof. rewrite acc_node. by destruct (decide (m = n)) as [->|]. Qed.

Lemma acc_grow : grow g g'.
Proof.
  split; try done.
  - intros t0 c0 L0 H. by exists L0.
  - intros m t0. rewrite acc_acked. destruct (decide _) as [[-> ->]|]; lia.
  - intros m. by rewrite acc_term.
  - intros m t0. rewrite acc_acked. destruct (decide _) as [[-> ->]|]; [done|lia].
Qed.

(** What was committed in the old log is in the new one. *)
Lemma acc_committed x : committedv g t L x -> committedv g' t M x.
Proof.
  intros Hc. eapply committed_grow; [apply acc_grow|reflexivity|]. eapply committed_take; [|exact Hc].
  pose proof (leader_has_committed g I t c L' L x Hl Hc) as Hx.
  destruct accept_result as (_ & _ & _ & HC). rewrite HC; [done|by eapply committed_length|done].
Qed.

Lemma inv_accept : inv g'.
Proof.
  pose proof acc_grow as G. destruct accept_result as (HM & Hk & HkM & HC).
  assert (HLOG : forall m, m <> n -> a_log (node g' m) = a_log (node g m))
    by (intros m Hm; by rewrite acc_node, decide_False).
  assert (Hlogn : a_log (node g' n) = M) by (by rewrite acc_node, decide_True).
  assert (Hrn : forall r, r <> Follower -> forall m, a_role (node g' m) = r -> a_role (node g m) = r /\ m <> n).
  { intros r Hr m. rewrite acc_node. destruct (decide (m = n)) as [->|]; [|done].
    change (a_role a') with (a_role a). rewrite Hrole. intros <-. done. }
  destruct (i_coh_llog _ I _ _ _ Hl) as (HcL & HwL & HbL).
  assert (HPL : M `prefix_of` P -> forall j e, M !! j = Some e -> L' !! j = Some e)
    by (intros; eapply prefix_lookup_Some; [done|by etransitivity]).
  split; intros.
  - destruct (decide (n0 = n)) as [->|]; [rewrite Hlogn|rewrite HLOG by done; apply I].
    destruct HM as [->|HM]; [apply I|]. intros j e He. apply HwL. by apply HPL.
  - rewrite acc_term. apply I.
  - rewrite acc_term. destruct (decide (n0 = n)) as [->|]; [|rewrite HLOG in H by done; by apply (i_logt _ I)].
    rewrite Hlogn in H. destruct HM as [E|E]; [rewrite E in H; by apply (i_logt _ I)|].
    apply HbL. apply list_elem_of_lookup in H as [j Hj]. apply HPL in Hj; [|done].
    by eapply list_elem_of_lookup_2.
  - rewrite acc_term. by eapply (i_ballot_t _ I).
  - rewrite acc_term, acc_node. pose proof (i_vote _ I n0). by destruct (decide (n0 = n)) as [->|].
  - eapply msg_ok_grow; [done|]. by apply I.
  - apply Hrn in H as [H Hne]; [|done]. rewrite acc_node, decide_False by done. by apply (i_votes _ I).
  - apply Hrn in H as [H Hne]; [|done]. rewrite acc_node, decide_False by done. by apply (i_cand _ I).
  - by eapply (i_elected _ I).
  - rewrite acc_term. destruct (i_lead_term _ I _ _ _ H) as [H1 H2]. split; [done|]. intros Hx Hy.
    apply Hrn in Hy as [Hy _]; [|done]. by apply H2.
  - apply Hrn in H as [H Hne]; [|done]. rewrite acc_term, HLOG by done. by apply (i_leader _ I).
  - by eapply (i_upd _ I).
  - by eapply (i_self _ I).
  - eapply coherent_grow; [done|]. destruct (decide (n0 = n)) as [->|]; [rewrite Hlogn|rewrite HLOG by done; apply I].
    destruct HM as [->|HM]; [apply I|]. intros j e He.
    destruct (HcL j e (HPL HM j e He)) as (c0 & L0 & H1 & H2). exists c0, L0. split; [done|].
    rewrite <- H2. symmetry. apply take_prefix; [by etransitivity|]. apply lookup_lt_Some in He. lia.
  - by apply (i_coh_llog _ I) in H.
  - by eapply (i_coh_ballot _ I).
  - rewrite acc_term. rewrite acc_acked in *. destruct (decide (n0 = n /\ t0 = t)) as [[-> ->]|]; [|by apply (i_acked _ I)].
    split; [done|]. exists c, L'. split; [done|].
    destruct (decide (acked g n t = 0)%nat) as [Hz|Hz]; [lia|].
    destruct (i_acked _ I n t ltac:(lia)) as (_ & c1 & L1 & H1 & H2). rewrite Hl in H1. simplify_eq. lia.
  - apply (choosable_shrink _ _ _ _ G) in H2. rewrite acc_acked in H1. change (llog g' t0) with (llog g t0) in H.
    destruct (decide (n0 = n)) as [->|Hn0].
    2:{ rewrite HLOG by done. rewrite decide_False in H1 by naive_solver. by eapply (i_ack_log _ I). }
    rewrite Hlogn. destruct (decide (t0 = t)) as [->|Hne].
    + rewrite decide_True in H1 by done. rewrite Hl in H. simplify_eq.
      destruct (decide (i <= k)%nat); [by eapply take_le_eq|].
      assert (Hold : take i L = take i L0) by (eapply (i_ack_log _ I); try done; lia).
      apply HC; [|done]. eapply take_eq_length; [exact Hold|]. apply has_le in H0. lia.
    + rewrite decide_False in H1 by naive_solver.
      assert (Hold : take i L = take i L0) by (by eapply (i_ack_log _ I)).
      assert (Hi : (0 < i <= length L0)%nat) by (by eapply has_le).
      destruct (i_acked _ I n t0 ltac:(lia)) as [Ht0 _]. fold a in Ht0. fold t in Ht0.
      assert (Hcp : take i L' = take i L0) by (eapply (i_complete _ I t0 i); try done; lia).
      rewrite HC; [done| |congruence]. eapply take_eq_length; [exact Hold|]. lia.
  - apply (choosable_shrink _ _ _ _ G) in H2. rewrite acc_acked in H1.
    destruct (decide (n0 = n /\ t0 = t)) as [[-> ->]|]; [|by eapply (i_ack_ballot _ I)].
    apply (i_ballot_t _ I) in H4. fold a in H4. fold t in H4. lia.
  - apply (choosable_shrink _ _ _ _ G) in H1. by eapply (i_complete _ I).
  - apply Hrn in H as [H Hne]; [|done]. rewrite acc_node, decide_False by done.
    pose proof (i_match _ I n0 m H). pose proof (gr_acked _ _ G m (a_term (node g n0))). lia.
  - rewrite acc_term, acc_node. destruct (decide (n0 = n)) as [->|];
      [|eapply committed_grow; [done|reflexivity|apply I]].
    cbn. fold a t. destruct (decide (Nat.min lc k <= a_commit a)%nat) as [Hle|Hgt].
    + replace (Nat.max (Nat.min lc k) (a_commit a)) with (a_commit a) by lia. apply acc_committed, I.
    + replace (Nat.max (Nat.min lc k) (a_commit a)) with (Nat.min lc k) by lia.
      eapply committed_grow; [done|reflexivity|]. pose proof (committed_length _ _ _ _ Hlc).
      eapply committed_take; [|eapply (committed_le _ _ P lc); [|exact Hlc]; lia].
      rewrite (take_le_eq M L' _ k HkM) by lia. symmetry. apply take_prefix; [done|lia].
  - rewrite acc_term, acc_node. destruct (decide (n0 = n)) as [->|];
      [|eapply committed_grow; [done|reflexivity|apply I]].
    cbn. fold a t. apply acc_committed, I.
Qed.
End accept.

(** ** Leader completeness at an election *)
Lemma election_complete g n t i c L :
  inv g -> a_role (node g n) = Candidate ->
  (quorum_size voters <= size (a_votes (node g n)))%nat ->
  t < a_term (node g n) -> llog g t = Some (c, L) -> has L i t -> choosablev g t i ->
  take i (a_log (node g n)) = take i L.
Proof.
  intros I Hr Hq Ht Hl Hh Hch. set (T := a_term (node g n)) in *.
  destruct (i_votes _ I n Hr) as [Hsub HV]. destruct (i_cand _ I n Hr) as [HT Hself]. fold T in HV, Hself, HT.
  set (Lc := a_log (node g n)) in *. assert (Hch' := Hch). destruct Hch' as (Q & HQ & HA).
  destruct (quorum_intersect Q (a_votes (node g n)) HQ (conj Hsub Hq)) as (m & Hm & Hm').
  destruct (HV m Hm') as [Lm HLm]. pose proof (i_ballot_t _ I _ _ _ HLm) as Htm.
  assert (Hack : (i <= acked g m t)%nat) by (destruct (HA m Hm); [done|lia]).
  assert (Em : take i Lm = take i L) by (by eapply (i_ack_ballot _ I)).
  destruct (i_upd _ I _ _ _ _ HLm) as (Lc' & E & Hup). rewrite Hself in E. injection E as <-.
  pose proof (i_coh_ballot _ I _ _ _ _ Hself) as CohC. pose proof (i_coh_ballot _ I _ _ _ _ HLm) as CohM.
  destruct (i_coh_llog _ I _ _ _ Hl) as (CohL & WfL & BndL).
  assert (HiL := has_le _ _ _ Hh).
  assert (Him : (i <= length Lm)%nat) by (eapply take_eq_length; [exact Em|lia]).
  assert (HhM : has Lm i t) by (eapply (has_take L); [exact Hh|symmetry; exact Em|lia]).
  destruct HhM as (j & em & -> & Hem & Hemt).
  destruct (lastterm_lookup Lm) as (el & Hel & Hlt); [by intros ->|].
  assert (Htl : t <= lastterm Lm).
  { rewrite <- Hemt, <- Hlt. eapply (coherent_sorted g I Lm j); [done|done|done|lia]. }
  assert (Hpos : 1 <= t) by (by destruct (i_lead_term _ I _ _ _ Hl) as [[? _] _]).
  destruct Lc as [|e0 Lc0] eqn:ELc.
  { exfalso. destruct Hup as [Hup|[Hup _]]; cbn in Hup; lia. }
  rewrite <- ELc in *. clear e0 Lc0 ELc. clearbody Lc.
  assert (Hne : Lc <> []) by (intros ->; destruct Hup as [Hup|[Hup _]]; cbn in Hup; lia).
  destruct (lastterm_lookup Lc Hne) as (ec & Hec & Hlc).
  assert (HLc0 : (0 < length Lc)%nat) by (destruct Lc; [done|cbn; lia]).
  destruct (CohC _ _ Hec) as (c1 & L1 & Hl1 & Et1).
  replace (S (length Lc - 1)) with (length Lc) in Et1 by lia. rewrite Hlc in Hl1.
  destruct Hup as [Hgt|[Heq Hlen]].
  - (* the candidate's last term is later: its leader has the entry *)
    assert (HT1 : lastterm Lc < T).
    { rewrite <- Hlc. eapply (i_self _ I n T); [exact Hself|]. by eapply list_elem_of_lookup_2. }
    assert (E1 : take (S j) L1 = take (S j) L)
      by exact (i_complete _ I t (S j) c L (lastterm Lc) c1 L1 Hl Hh Hch ltac:(lia) Hl1).
    destruct (decide (S j <= length Lc)%nat) as [Hle|Hgt'].
    + rewrite <- E1. by eapply take_le_eq.
    + exfalso. pose proof (take_eq_lookup Lc L1 _ (length Lc - 1) Et1 ltac:(lia)) as X1.
      pose proof (take_eq_lookup L1 L _ (length Lc - 1) E1 ltac:(lia)) as X2.
      rewrite Hec, X2 in X1. symmetry in X1. apply list_elem_of_lookup_2, BndL in X1. lia.
  - (* same last term: the voter's log is a prefix of the candidate's *)
    destruct (CohM _ _ Hel) as (c2 & L2 & Hl2 & Et2).
    replace (S (length Lm - 1)) with (length Lm) in Et2 by lia.
    rewrite Hlt, <- Heq, Hl1 in Hl2. injection Hl2 as <- <-.
    rewrite <- Em. rewrite (take_le_eq Lc L1 (S j) _ Et1), (take_le_eq Lm L1 (S j) _ Et2) by lia. done.
Qed.

(** ** Every step preserves the invariant *)
Lemma inv_init : inv g_init.
Proof.
  split; cbn; intros; try done; try lia; try set_solver; try (by left).
Qed.

(** Every step is one of four kinds of change to the state, possibly with
    messages sent after it. *)
Inductive change (g : gstate) : gstate -> Prop :=
| ch_none : change g g
| ch_quiet n a' : quiet g n a' -> change g (set_node n a' g)
| ch_cast n c t a' : casting g n c t a' -> change g (set_node n a' (cast n c t g))
| ch_extend n e a' : extending g n e a' ->
    change g (set_node n a' (extend n (a_term (node g n)) (a_log (node g n) ++ [e]) g))
| ch_accept n c P prev lc M k L' :
    let a := node g n in
    a_role a = Follower -> AAppend c n (a_term a) P prev lc ∈ sent g ->
    acceptable (a_log a) P (a_base a) prev ->
    merge (a_log a) P (a_base a) prev (a_commit a) M k ->
    llog g (a_term a) = Some (c, L') -> P `prefix_of` L' -> committedv g (a_term a) P lc ->
    change g (set_node n (a <| a_log := M |> <| a_commit := Nat.max (Nat.min lc k) (a_commit a) |>)
      (g <| acked := <[n := <[a_term a := Nat.max (acked g n (a_term a)) k]> (acked g n)]> (acked g) |>))
| ch_send g1 ms : change g g1 -> Forall (msg_ok g1) ms -> change g (add_sent ms g1).

Lemma step_change g g' : inv g -> astep voters g g' -> change g g'.
Proof.
  intros I [n t c Hn Ht Hc|n Hn Hpos t L|n c li lt Hn a Hm Hup Hv|n m Hn Hm Hr Hg|n d Hn a Hr Hq L
    |n d Hn a Hr L|n m prev Hn a Hr|n c P prev lc L' k Hn a Hr Hm Hacc Hmg|n m k Hn Hr Hm
    |n q Hn a Hr Hq Hlen Ht Hc|n b Hn Hb].
  - (* reset *)
    apply ch_quiet. split; cbn; try done.
    + destruct (Z.eqb_spec t (a_term (node g n))); [by left|right; split; [lia|done]].
    + eapply committed_le; [exact Hc|]. eapply committed_grow; [by apply grow_refl|exact Ht|apply I].
    + eapply committed_grow; [by apply grow_refl|exact Ht|apply I].
  - (* candidate *)
    assert (K : casting g n n t ((node g n) <| a_term := t |> <| a_vote := Some n |>
        <| a_role := Candidate |> <| a_votes := {[ n ]} |>)).
    { split; cbn; [|done|].
      - destruct (ballot g n t) eqn:E; [|done]. apply (i_ballot_t _ I) in E. unfold t in E. lia.
      - left. unfold t. split_and!; (done || lia). }
    apply ch_send; [by apply ch_cast|]. apply Forall_map, Forall_forall. intros m _. cbn.
    exists L. split; [|done]. by rewrite !fn_lookup_insert.
  - (* grant *)
    destruct (i_sent _ I _ Hm) as (Lc & HLc & -> & ->). fold a in Hm |- *.
    pose proof (i_vote _ I n) as Hvote. fold a in Hvote. destruct Hv as [Hv|Hv]; rewrite Hv in *.
    + assert (K : casting g n c (a_term a) (a <| a_vote := Some c |>)).
      { split; cbn; [done|done|]. right. split_and!; try done.
        - intros ->. congruence.
        - by exists Lc. }
      apply ch_send; [by apply ch_cast|]. repeat constructor. exists (a_log a). cbn.
      by rewrite !fn_lookup_insert.
    + destruct Hvote as [L0 HL0]. apply ch_send.
      * apply (ch_quiet g n (a <| a_vote := Some c |>)). split; cbn; try done.
        -- left. by rewrite <- Hv.
        -- intros H. split_and!; try done; by apply (i_votes _ I).
        -- intros H. split_and!; try done. intros m. by apply (i_match _ I).
        -- apply I.
        -- apply I.
      * repeat constructor. by exists L0.
  - (* a vote is counted *)
    apply ch_quiet. split; cbn; try done; try apply I; [by left| |by rewrite Hr].
    destruct (i_votes _ I n Hr) as [H1 H2]. intros _. split_and!; try done; [set_solver|].
    intros m' [->%elem_of_singleton|Hm']%elem_of_union; [|by apply H2]. by apply (i_sent _ I _ Hg).
  - (* election *)
    assert (Ia := I). destruct (i_cand _ I n Hr) as [Hp1 Hself]. fold a in Hp1, Hself.
    destruct (i_votes _ I n Hr) as [HV1 HV2].
    assert (Hnone : llog g (a_term a) = None).
    { destruct (llog g (a_term a)) as [[c0 L0]|] eqn:E; [|done]. exfalso.
      destruct (i_elected _ I _ _ _ E) as (Q & HQ & HB).
      assert (c0 = n) as -> by (eapply (elected_unique g (a_term a) c0 Q n (a_votes a)); [done|done|by split|done]).
      destruct (i_lead_term _ I _ _ _ E) as [_ Hx]. by apply Hx. }
    apply (ch_extend g n (MkEntry (a_term a) (Z.of_nat (S (length (a_log a)))) d)
      (a <| a_role := Leader |> <| a_log := L |> <| a_match := <[n := length L]> (fun _ => 0%nat) |>)).
    split; cbn; try done.
    + split; [by rewrite fn_lookup_insert|]. intros m Hm. rewrite fn_lookup_insert_ne by done. lia.
    + exists (a_votes a). split; [by split|done].
    + left. split; [done|]. by apply (i_self _ I n).
    + intros. by eapply election_complete.
  - (* proposal *)
    assert (Hlead := i_leader _ I n Hr). fold a in Hlead.
    apply (ch_extend g n (MkEntry (a_term a) (Z.of_nat (S (length (a_log a)))) d)
      (a <| a_log := L |> <| a_match := <[n := length L]> (a_match a) |>)).
    split; cbn; try done.
    + split; [by rewrite fn_lookup_insert|]. intros m Hm. rewrite fn_lookup_insert_ne by done. by apply (i_match _ I).
    + by destruct (i_lead_term _ I _ _ _ Hlead) as [[? _] _].
    + by eapply (i_elected _ I).
    + by right.
    + intros. by eapply (i_complete _ I).
  - (* send *)
    apply ch_send; [by apply ch_none|]. repeat constructor. exists (a_log a).
    split_and!; [by apply (i_leader _ I)|done|apply I].
  - (* accept *)
    destruct (i_sent _ I _ Hm) as (L0 & Hl & Hp & Hlc).
    apply ch_send; [by eapply (ch_accept g n c P prev lc L' k)|].
    repeat constructor. cbn. rewrite !fn_lookup_insert. lia.
  - (* match *)
    apply ch_quiet. split; cbn; try done; try apply I; [by left|by rewrite Hr|].
    intros _. split_and!; try done. intros m'. node_case m' m; [by apply (i_sent _ I _ Hm)|by apply (i_match _ I)].
  - (* commit *)
    assert (Hlead := i_leader _ I n Hr). fold a in Hlead.
    assert (Hpos : 1 <= a_term a) by (by destruct (i_lead_term _ I _ _ _ Hlead) as [[? _] _]).
    apply ch_quiet. split; cbn; try done; try apply I; [by left|fold a; by rewrite Hr| |].
    + intros _. split_and!; try done. intros m. by apply (i_match _ I).
    + right. exists (a_term a), q, n, (a_log a). split_and!; try done.
      * apply tat_has; [lia|done].
      * exists (matched voters a q). split; [split; [|done]|].
        -- unfold matched. set_solver.
        -- intros m [Hm _]%elem_of_filter. pose proof (i_match _ I n m Hr) as Hmm. fold a in Hmm. lia.
  - (* compact *)
    apply ch_quiet. split; cbn; try done; try apply I; [by left| | |].
    + intros H. split_and!; try done; by apply (i_votes _ I).
    + intros H. split_and!; try done. intros m. by apply (i_match _ I).
    + eapply committed_le; [|apply (i_commit _ I n)]. lia.
Qed.

Lemma inv_change g g' : inv g -> change g g' -> inv g'.
Proof.
  intros I. induction 1; [done|by apply inv_quiet|by apply inv_cast|by apply inv_extend| |by apply inv_add_sent].
  by eapply (inv_accept g I n c P prev lc M k).
Qed.

Lemma grow_change g g' : inv g -> change g g' -> grow g g'.
Proof.
  intros I. induction 1 as [| | | | |g1 ms _ IH _];
    [apply grow_refl|by apply quiet_grow|by apply cast_grow|by apply ext_grow|by apply acc_grow|by destruct IH].
Qed.

(** What a node knows to be committed stays in its log. *)
Definition kept (g g' : gstate) (n : NodeId) : Prop :=
  forall k, committedv g (a_term (node g n)) (a_log (node g n)) k ->
  take k (a_log (node g' n)) = take k (a_log (node g n)).

Lemma kept_change g g' n : inv g -> change g g' -> kept g g' n.
Proof.
  intros I. induction 1 as [|m a' Q|m c t a' K|m e a' X|m c P prev lc M k L' a Hr Hs Ha Hm Hl Hp Hlc|g1 ms _ IH _];
    [done|intros x Hx; cbn..|].
  - node_case n m; [by rewrite (q_log _ _ _ Q)|done].
  - node_case n m; [|done]. by destruct (k_same _ _ _ _ _ K) as [-> _].
  - node_case n m; [|done]. destruct (x_same _ _ _ _ X) as [-> _]. apply take_app_le. by eapply committed_length.
  - node_case n m; [|done]. cbn.
    pose proof (leader_has_committed g I _ c L' _ x Hl Hx) as Hxl.
    destruct (accept_result g I m c P prev lc M k Hs Ha Hm L' Hl Hp) as (_ & _ & _ & HC).
    rewrite HC; [done|by eapply committed_length|done].
  - exact IH.
Qed.

Lemma inv_step g g' : inv g -> astep voters g g' -> inv g'.
Proof. intros I H. by eapply inv_change, step_change. Qed.

Lemma inv_reach g : areach voters g -> inv g.
Proof. induction 1; [apply inv_init|by eapply inv_step]. Qed.
End safety.
