(* ===== verification/RaftRefine.v ===== *)
(** * The Raft node implements the protocol

    A simulation between the node of [Raft.v] and the protocol of
    [RaftSpec.v].  [up] relates a running node to its abstract counterpart;
    [wp] says that running a method, whatever its outcome, is matched by
    abstract steps of that node: on success the result is related again, on an
    error or a panic at least the storage that survives is. *)

From stdpp Require Import gmap functions relations.
From S2P Require Import Prelude Errors Rng RaftTypes RaftStorage Raft RaftSpec RaftSafety.

(** ** Logs by position *)
Definition indexed (k : nat) (l : list Entry) : Prop :=
  forall i e, l !! i = Some e -> e_index e = Z.of_nat (k + S i).

Lemma wf_indexed L : wf_log L -> indexed 0 L.
Proof. intros H i e He. by destruct (H i e He). Qed.

Lemma indexed_drop b l : indexed 0 l -> indexed b (drop b l).
Proof. intros H i e He. rewrite lookup_drop in He. rewrite (H _ _ He). f_equal. lia. Qed.

Lemma filter_all (P : Entry -> Prop) `{forall x, Decision (P x)} (l : list Entry) :
  (forall e, e ∈ l -> P e) -> filter P l = l.
Proof.
  induction l as [|x l IH]; intros Hl; [done|]. rewrite filter_cons_True by (apply Hl; set_solver).
  f_equal. apply IH. set_solver.
Qed.
Lemma filter_none (P : Entry -> Prop) `{forall x, Decision (P x)} (l : list Entry) :
  (forall e, e ∈ l -> ~ P e) -> filter P l = [].
Proof.
  induction l as [|x l IH]; intros Hl; [done|]. rewrite filter_cons_False by (apply Hl; set_solver).
  apply IH. set_solver.
Qed.

Lemma retain_below_take k l m : indexed k l -> retain_below (Z.of_nat (k + S m)) l = take m l.
Proof.
  intros H. unfold retain_below. rewrite <- (take_drop m l) at 1. rewrite filter_app.
  rewrite filter_all, filter_none, app_nil_r; [done| |].
  - intros e [i Hi]%list_elem_of_lookup. rewrite lookup_drop in Hi. rewrite (H _ _ Hi). lia.
  - intros e [i Hi]%list_elem_of_lookup. apply lookup_take_Some in Hi as [Hi ?]. rewrite (H _ _ Hi). lia.
Qed.

Lemma retain_above_drop k l m : indexed k l -> retain_above (Z.of_nat (k + m)) l = drop m l.
Proof.
  intros H. unfold retain_above. rewrite <- (take_drop m l) at 1. rewrite filter_app.
  rewrite filter_none, filter_all; [done| |].
  - intros e [i Hi]%list_elem_of_lookup. rewrite lookup_drop in Hi. rewrite (H _ _ Hi). lia.
  - intros e [i Hi]%list_elem_of_lookup. apply lookup_take_Some in Hi as [Hi ?]. rewrite (H _ _ Hi). lia.
Qed.

Section refine.
Context {S : Type} {SO : RaftStorage S} {SL : RaftStorageLaws S} (draw_fuel : nat).
Context (c0 : Config) (Hnodup : NoDup (members c0)).

Local Abbreviation voters := (members c0).
Local Abbreviation node g n := (nodes g n).

(** ** The relation *)

(** The durable part. *)
Definition disk (s : S) (a : anode) : Prop :=
  (a_base a <= length (a_log a))%nat /\
  load s = Ok (MkPersistent (a_term a) (a_vote a) (drop (a_base a) (a_log a))
    (Z.of_nat (a_base a)) (tat (a_log a) (a_base a))).

(** A message on the wire is one of the protocol's. *)
Definition env_ok (ms : list amsg) (e : Envelope) : Prop :=
  match env_msg e with
  | RequestVote t li lt => exists li', li = Z.of_nat li' /\ AVote (env_from e) (env_to e) t li' lt ∈ ms
  | RequestVoteReply t granted => granted = true -> AGrant (env_from e) (env_to e) t ∈ ms
  | AppendEntries t prev pt es lc _ =>
      exists P prev' lc', prev = Z.of_nat prev' /\ lc = Z.of_nat lc' /\ pt = tat P prev' /\
        es = drop prev' P /\ AAppend (env_from e) (env_to e) t P prev' lc' ∈ ms
  | AppendEntriesReply t success mi _ _ =>
      success = true -> exists k, mi = Z.of_nat k /\ AAck (env_from e) (env_to e) t k ∈ ms
  end.

(** The fields of the node the protocol knows, against its abstract state. *)
Record up (n : NodeId) (r : Raft S) (g : gstate) : Prop := {
  u_me : me r = n;
  u_cfg : cfg r = c0;
  u_disk : disk (storage r) (node g n);
  u_term : term r = a_term (node g n);
  u_vote : voted_for r = a_vote (node g n);
  u_log : log r = drop (a_base (node g n)) (a_log (node g n));
  u_base : snapshot_index r = Z.of_nat (a_base (node g n));
  u_baset : snapshot_term r = tat (a_log (node g n)) (a_base (node g n));
  u_commit : commit_index r = Z.of_nat (a_commit (node g n));
  u_role : role r = a_role (node g n);
  u_votes : votes r = a_votes (node g n);
  u_match : role r = Leader -> forall m, m ∈ voters ->
    default 0 (match_index r !! m) = Z.of_nat (a_match (node g n) m);
  u_out : Forall (env_ok (sent g)) (outbox r);
}.

(** Abstract steps of one node. *)
Definition nstep (n : NodeId) (g g' : gstate) : Prop :=
  astep voters g g' /\ (forall m, m <> n -> node g' m = node g m) /\ sent g ⊆ sent g'.
Abbreviation nsteps n := (rtc (nstep n)).

Lemma nsteps_other n g g' m : nsteps n g g' -> m <> n -> node g' m = node g m.
Proof. intros H Hm. induction H as [|x y z (_ & Hxy & _) _ IH]; [done|]. by rewrite IH, Hxy. Qed.
Lemma nsteps_sent n g g' : nsteps n g g' -> sent g ⊆ sent g'.
Proof. induction 1 as [|x y z (_ & _ & Hxy) _ IH]; [done|]. by etransitivity. Qed.
Lemma nsteps_reach n g g' : nsteps n g g' -> areach voters g -> areach voters g'.
Proof. induction 1 as [|x y z (Hxy & _) _ IH]; [done|]. intros. apply IH. by econstructor. Qed.

Lemma env_ok_mono ms ms' e : ms ⊆ ms' -> env_ok ms e -> env_ok ms' e.
Proof.
  intros Hs. unfold env_ok. destruct (env_msg e) as [t li lt|t gr|t pi pt es lc rr|t su mi rr ai].
  - intros (li' & ? & ?). exists li'. set_solver.
  - intros H ?. set_solver.
  - intros (P & pv & lc' & ? & ? & ? & ? & ?). exists P, pv, lc'. split_and!; try done. set_solver.
  - intros H Hsu. destruct (H Hsu) as (k & ? & ?). exists k. set_solver.
Qed.

(** A step of another node keeps a node related. *)
Lemma up_other n r g g' : up n r g -> node g' n = node g n -> sent g ⊆ sent g' -> up n r g'.
Proof.
  intros [] Hn Hs. split; rewrite ?Hn; try done.
  eapply Forall_impl; [done|]. intros e. by apply env_ok_mono.
Qed.

(** ** Running a method *)
Definition wp {A} (n : NodeId) (m : M S A) (Q : A -> Raft S -> gstate -> Prop)
    (r : Raft S) (g : gstate) : Prop :=
  match m r with
  | (Ok a, r') => exists g', nsteps n g g' /\ Q a r' g'
  | (_, r') => exists g', nsteps n g g' /\ disk (storage r') (node g' n)
  end.

Lemma wp_ret {A} n (a : A) Q r g : Q a r g -> wp n (mret a) Q r g.
Proof. intros H. exists g. by split. Qed.

Lemma wp_bind {A B} n (m : M S A) (k : A -> M S B) Q r g :
  wp n m (fun a => wp n (k a) Q) r g -> wp n (m ≫= k) Q r g.
Proof.
  unfold wp, mbind, M_bind. destruct (m r) as [[a|e|] r']; [|by intros..].
  intros (g' & Hg & H). destruct (k a r') as [[b|e|] r'']; destruct H as (g'' & Hg' & H); exists g'';
    (split; [by etransitivity|done]).
Qed.

Lemma wp_mono {A} n (m : M S A) (Q Q' : A -> Raft S -> gstate -> Prop) r g :
  wp n m Q r g -> (forall a r' g', Q a r' g' -> Q' a r' g') -> wp n m Q' r g.
Proof. unfold wp. destruct (m r) as [[a|e|] r']; [|done..]. intros (g' & Hg & H) HQ. eauto. Qed.

(** Abstract steps may be taken before going on. *)
Lemma wp_steps {A} n (m : M S A) Q r g g' : nsteps n g g' -> wp n m Q r g' -> wp n m Q r g.
Proof.
  intros Hs. unfold wp. destruct (m r) as [[a|e|] r']; intros (g'' & Hg & H); exists g'';
    (split; [by etransitivity|done]).
Qed.

Lemma wp_get n Q r g : Q r r g -> wp n get Q r g.
Proof. intros H. exists g. by split. Qed.
Lemma wp_gets {A} n (f : Raft S -> A) Q r g : Q (f r) r g -> wp n (gets f) Q r g.
Proof. intros H. exists g. by split. Qed.
Lemma wp_modify n f Q r g : Q tt (f r) g -> wp n (modify f) Q r g.
Proof. intros H. exists g. by split. Qed.
Lemma wp_lift {A} n (o : CoreResult A) Q r g :
  disk (storage r) (node g n) -> (forall a, o = Ok a -> Q a r g) -> wp n (lift o) Q r g.
Proof. intros Hd H. unfold wp, lift. destruct o; exists g; (split; [done|auto]). Qed.
Lemma wp_fail {A} n e (Q : A -> Raft S -> gstate -> Prop) r g :
  disk (storage r) (node g n) -> wp n (fail e) Q r g.
Proof. intros Hd. exists g. by split. Qed.

(** Bring the state of the goal to constructor form, so that chains of updates
    stay small. *)
Ltac nrm_in r :=
  eval cbn [update me cfg storage term voted_for log commit_index last_delivered role leader votes
    next_index match_index election_elapsed heartbeat_elapsed election_timeout rng outbox read_round
    snapshot_index snapshot_term applied peer_applied followers_behind_snapshot pending_reads
    ready_reads became_leader_terms] in r.
Ltac nrm :=
  match goal with
  | |- wp ?n ?m ?Q ?r ?g => let r' := nrm_in r in change (wp n m Q r' g)
  | |- up ?n ?r ?g => let r' := nrm_in r in change (up n r' g)
  end.

(** A write: on success the storage holds the new state and the proof goes on;
    on failure it holds the old or the new one, and abstract steps must account
    for both. *)
Lemma wp_storage n op effect Q r g p :
  write_law op effect (storage r) p -> load (storage r) = Ok p ->
  (forall s', load s' = Ok (effect p) -> Q tt (r <| storage := s' |>) g) ->
  (forall s', load s' = Ok p -> exists g', nsteps n g g' /\ disk s' (node g' n)) ->
  (forall s', load s' = Ok (effect p) -> exists g', nsteps n g g' /\ disk s' (node g' n)) ->
  wp n (storage_op op) Q r g.
Proof.
  intros Hw Hl Hok Hold Hnew. unfold wp, storage_op. specialize (Hw Hl).
  destruct (op (storage r)) as [[[]|e|] s'].
  - exists g. split; [done|]. by apply Hok.
  - destruct Hw; cbn; auto.
  - destruct Hw; cbn; auto.
Qed.

(** One abstract step of the node. *)
Lemma nsteps_one n g g' :
  astep voters g g' -> (forall m, m <> n -> node g' m = node g m) -> sent g ⊆ sent g' -> nsteps n g g'.
Proof. intros. apply rtc_once. done. Qed.

Lemma node_set n a g : node (set_node n a g) n = a.
Proof. cbn. apply fn_lookup_insert. Qed.
Lemma node_set_ne n m a g : m <> n -> node (set_node n a g) m = node g m.
Proof. cbn. intros. by apply fn_lookup_insert_ne. Qed.

(** ** Reading the log of a related node *)
Lemma tat_last L : tat L (length L) = lastterm L.
Proof.
  unfold lastterm. rewrite last_lookup. destruct L as [|e L]; [done|].
  cbn [length pred tat]. done.
Qed.

Lemma last_drop {A} (L : list A) b : (b < length L)%nat -> last (drop b L) = last L.
Proof.
  intros H. rewrite !last_lookup, lookup_drop, length_drop. f_equal. lia.
Qed.

Section reading.
Context (n : NodeId) (r : Raft S) (g : gstate) (U : up n r g) (I : inv voters g).
Let L := a_log (node g n).
Let b := a_base (node g n).

Lemma up_base_le : (b <= length L)%nat.
Proof. apply (u_disk _ _ _ U). Qed.

Lemma up_log_nil : (length L <= b)%nat -> log r = [] /\ b = length L.
Proof.
  intros H. pose proof up_base_le. rewrite (u_log _ _ _ U). fold L b. split; [|lia].
  by apply drop_ge.
Qed.

Lemma up_last : (b < length L)%nat -> exists e, last (log r) = Some e /\ last L = Some e /\
  e_index e = Z.of_nat (length L).
Proof.
  intros H. rewrite (u_log _ _ _ U). fold L b. rewrite last_drop by done. rewrite last_lookup.
  destruct (lookup_lt_is_Some_2 L (pred (length L)) ltac:(lia)) as [e He]. exists e.
  split_and!; try done. destruct (i_wf _ _ I n _ _ He) as [-> _]. f_equal. lia.
Qed.

Lemma up_last_index : last_index r = Z.of_nat (length L).
Proof.
  unfold last_index. destruct (decide (b < length L)%nat) as [Hlt|Hge].
  - by destruct (up_last Hlt) as (e & -> & _ & ->).
  - destruct (up_log_nil ltac:(lia)) as [-> Hb]. cbn. rewrite (u_base _ _ _ U). fold b. by rewrite Hb.
Qed.

Lemma up_last_term : last_term r = lastterm L.
Proof.
  unfold last_term. destruct (decide (b < length L)%nat) as [Hlt|Hge].
  - destruct (up_last Hlt) as (e & -> & He & _). unfold lastterm. by rewrite He.
  - destruct (up_log_nil ltac:(lia)) as [-> Hb]. cbn. rewrite (u_baset _ _ _ U). fold L b.
    by rewrite Hb, tat_last.
Qed.

Lemma up_log_pos i : log_pos (Z.of_nat (Datatypes.S i)) r =
  if decide (b <= i)%nat then Some (i - b)%nat else None.
Proof.
  unfold log_pos. rewrite (u_base _ _ _ U). fold b. destruct (decide (b <= i)%nat).
  - rewrite (proj2 (Z.leb_gt _ _)) by lia. f_equal. lia.
  - by rewrite (proj2 (Z.leb_le _ _)) by lia.
Qed.

Lemma up_entry i : entry (Z.of_nat (Datatypes.S i)) r =
  if decide (b <= i)%nat then L !! i else None.
Proof.
  unfold entry. rewrite up_last_index, up_log_pos, (u_log _ _ _ U). fold L b.
  rewrite (proj2 (Z.eqb_neq _ _)) by lia. cbn [orb].
  destruct (Z.ltb_spec (Z.of_nat (length L)) (Z.of_nat (Datatypes.S i))).
  - destruct (decide (b <= i)%nat); [|done]. symmetry. apply lookup_ge_None_2. lia.
  - destruct (decide (b <= i)%nat); cbn; [|done]. rewrite lookup_drop. f_equal. lia.
Qed.

Lemma up_entry_0 : entry 0 r = None.
Proof. done. Qed.

Lemma up_term_at i :
  term_at (Z.of_nat i) r = if decide (b <= i)%nat then tat L i else 0.
Proof.
  unfold term_at. rewrite (u_base _ _ _ U), (u_baset _ _ _ U). fold L b.
  destruct (Z.eqb_spec (Z.of_nat i) (Z.of_nat b)) as [E|E].
  - assert (i = b) as -> by lia. by rewrite decide_True.
  - destruct i as [|i].
    + rewrite decide_False by lia. done.
    + rewrite up_entry. destruct (decide (b <= i)%nat).
      * by rewrite decide_True by lia.
      * rewrite decide_False; [done|]. lia.
Qed.
End reading.

(** ** Timers and messages *)
Lemma wp_reset n Q r g :
  disk (storage r) (node g n) ->
  (forall x y, Q tt (r <| rng := x |> <| election_timeout := y |> <| election_elapsed := 0 |>) g) ->
  wp n (reset_election_timeout draw_fuel) Q r g.
Proof.
  intros Hd HQ. unfold reset_election_timeout. apply wp_bind, wp_gets, wp_bind, wp_lift; [done|].
  intros d _. apply wp_bind. unfold wp at 1, rng_below.
  destruct (below draw_fuel (rng r) (Z.max d 1)) as [[[v x]|]| |]; try (exists g; by split).
  exists g. split; [done|]. apply wp_bind, wp_lift; [done|]. intros y _. apply wp_modify. apply HQ.
Qed.

Lemma up_timers n r g x y z :
  up n r g -> up n (r <| rng := x |> <| election_timeout := y |> <| election_elapsed := z |>) g.
Proof. by intros []. Qed.

Lemma wp_send n to m Q r g :
  Q tt (r <| outbox := outbox r ++ [MkEnvelope (me r) to m] |>) g -> wp n (send to m) Q r g.
Proof. intros. by apply wp_modify. Qed.

Lemma up_send n r g to m :
  up n r g -> env_ok (sent g) (MkEnvelope n to m) ->
  up n (r <| outbox := outbox r ++ [MkEnvelope (me r) to m] |>) g.
Proof.
  intros [] He. split; try done. cbn. apply Forall_app. split; [done|]. rewrite u_me0.
  by constructor.
Qed.

(** A node's persistent state as its storage holds it. *)
Lemma up_load n r g : up n r g ->
  load (storage r) = Ok (MkPersistent (term r) (voted_for r) (log r) (snapshot_index r) (snapshot_term r)).
Proof.
  intros U. destruct (u_disk _ _ _ U) as [_ ->].
  by rewrite (u_term _ _ _ U), (u_vote _ _ _ U), (u_log _ _ _ U), (u_base _ _ _ U), (u_baset _ _ _ U).
Qed.

(** ** Stepping down *)
Definition reset_node (t : Z) (c : nat) (a : anode) : anode :=
  a <| a_term := t |> <| a_vote := if t =? a_term a then a_vote a else None |>
    <| a_role := Follower |> <| a_votes := ∅ |> <| a_commit := c |>.

Lemma reset_steps n t c g :
  n ∈ voters -> a_term (node g n) <= t -> (c <= a_commit (node g n))%nat ->
  nsteps n g (set_node n (reset_node t c (node g n)) g).
Proof.
  intros Hn Ht Hc. apply nsteps_one; [by apply st_reset| |done].
  intros. by apply node_set_ne.
Qed.

Lemma wp_become_follower n t ldr Q r g :
  n ∈ voters -> up n r g -> term r <= t ->
  (forall r' g', nsteps n g g' -> up n r' g' -> term r' = t -> role r' = Follower -> Q tt r' g') ->
  wp n (become_follower draw_fuel t ldr) Q r g.
Proof.
  intros Hn U Ht HQ. assert (U' := U). destruct U'. unfold become_follower.
  set (g1 := set_node n (reset_node t (a_commit (node g n)) (node g n)) g).
  assert (Hs : nsteps n g g1) by (apply reset_steps; [done|lia|done]).
  apply wp_bind, wp_get, wp_bind. destruct (Z.ltb_spec (term r) t) as [Hlt|Hge].
  - apply wp_bind, wp_modify. unfold persist_term_vote. apply wp_bind, wp_get. cbn.
    assert (Hd : forall s', load s' = Ok (p_save t None (MkPersistent (term r) (voted_for r) (log r)
      (snapshot_index r) (snapshot_term r))) -> disk s' (node g1 n)).
    { intros s' Hl. unfold g1. rewrite node_set. split; cbn; [apply u_disk0|].
      rewrite Hl, (proj2 (Z.eqb_neq _ _)) by lia. unfold p_save. cbn. congruence. }
    eapply wp_storage.
    + apply save_law.
    + cbn. by eapply up_load.
    + intros s' Hl. eapply wp_steps; [exact Hs|]. apply wp_bind, wp_modify, wp_reset; [by apply Hd|].
      intros x y. apply HQ; [done| |done|done].
      assert (Hrn : node g1 n = reset_node t (a_commit (node g n)) (node g n)) by apply node_set.
      split; try done; try (rewrite Hrn; cbn; done).
      * by apply Hd.
      * rewrite Hrn. cbn. by rewrite (proj2 (Z.eqb_neq _ _)) by lia.
    + intros s' Hl. exists g. split; [done|]. destruct u_disk0 as [? Hl0]. split; [done|].
      rewrite Hl. f_equal. cbn. congruence.
    + intros s' Hl. exists g1. split; [done|]. by apply Hd.
  - apply wp_ret. assert (t = term r) as -> by lia. eapply wp_steps; [exact Hs|].
    assert (Hrn : node g1 n = reset_node (term r) (a_commit (node g n)) (node g n)) by apply node_set.
    assert (Hd : disk (storage r) (node g1 n)).
    { rewrite Hrn. destruct u_disk0. split; cbn; [done|]. rewrite u_term0, Z.eqb_refl. done. }
    apply wp_bind, wp_modify, wp_reset; [done|]. intros x y. apply HQ; [done| |done|done].
    split; try done; try (rewrite Hrn; cbn; done).
    rewrite Hrn. cbn. by rewrite u_term0, Z.eqb_refl.
Qed.

(** ** Replication *)
Lemma up_more_sent n r g ms : up n r g -> up n r (add_sent ms g).
Proof. intros U. eapply up_other; [exact U|done|]. cbn. set_solver. Qed.

Lemma send_steps n m prev g :
  n ∈ voters -> a_role (node g n) = Leader ->
  nsteps n g (add_sent [AAppend n m (a_term (node g n)) (a_log (node g n)) prev (a_commit (node g n))] g).
Proof.
  intros Hn Hr. apply nsteps_one; [by apply st_send|done|]. cbn. set_solver.
Qed.

(** What every method of a leader that only sends leaves in place. *)
Definition still_leader (n : NodeId) (g : gstate) (r' : Raft S) (g' : gstate) : Prop :=
  nsteps n g g' /\ up n r' g' /\ role r' = Leader.

Lemma wp_send_append n to rr Q r g :
  n ∈ voters -> areach voters g -> up n r g -> role r = Leader ->
  (forall r' g', still_leader n g r' g' -> Q tt r' g') ->
  wp n (send_append to rr) Q r g.
Proof.
  intros Hn HR U Hr HQ. pose proof (inv_reach _ _ HR) as I. unfold send_append.
  apply wp_bind, wp_get, wp_bind, wp_lift; [apply U|]. intros dflt _.
  set (next := default dflt (next_index r !! to)).
  destruct (Z.leb_spec next (snapshot_index r)) as [Hle|Hgt].
  { apply wp_bind, wp_lift; [apply U|]. intros k _. apply wp_modify. apply HQ.
    split_and!; [done|by destruct U|done]. }
  pose proof (u_base _ _ _ U) as Hb. set (p := Z.to_nat (next - 1)).
  assert (Hnext : next = Z.of_nat (Datatypes.S p)) by lia.
  assert (Hprev : saturating_sub next 1 = Z.of_nat p) by (unfold saturating_sub; lia). rewrite Hprev.
  pose proof (up_base_le n r g U) as Hbl.
  assert (Hbp : (a_base (node g n) <= p)%nat) by lia.
  apply wp_bind. set (es := drop p (a_log (node g n))).
  assert (Hes : wp n (match log_pos next r with
                      | Some pos => if next <=? last_index r then lift (log_from pos (log r)) else mret []
                      | None => mret []
                      end) (fun a r' g' => a = es /\ r' = r /\ g' = g) r g).
  { rewrite Hnext, (up_log_pos n r g U), decide_True by done.
    rewrite (up_last_index n r g U I). destruct (Z.leb_spec (Z.of_nat (Datatypes.S p)) (Z.of_nat (length (a_log (node g n))))).
    - apply wp_lift; [apply U|]. intros a. unfold log_from. rewrite (u_log _ _ _ U).
      case_if; [|done]. intros [= <-]. split_and!; try done. rewrite drop_drop. unfold es. f_equal. lia.
    - apply wp_ret. split_and!; try done. unfold es. rewrite drop_ge; [done|lia]. }
  eapply wp_mono; [exact Hes|]. intros a r' g' (-> & -> & ->).
  eapply wp_steps; [apply (send_steps n to p g Hn); by rewrite <- (u_role _ _ _ U)|].
  apply wp_send, HQ. split_and!; [apply (send_steps n to p g Hn); by rewrite <- (u_role _ _ _ U)| |done].
  apply up_send; [by apply up_more_sent|]. cbn.
  exists (a_log (node g n)), p, (a_commit (node g n)). rewrite (u_commit _ _ _ U).
  rewrite (up_term_at n r g U I), decide_True by done. rewrite (u_term _ _ _ U).
  split_and!; try done. set_solver.
Qed.

Lemma wp_broadcast n rr Q r g :
  n ∈ voters -> areach voters g -> up n r g -> role r = Leader ->
  (forall r' g', still_leader n g r' g' -> Q tt r' g') ->
  wp n (broadcast_append rr) Q r g.
Proof.
  intros Hn HR U Hr HQ. unfold broadcast_append. apply wp_bind, wp_get, wp_bind.
  assert (Hloop : forall l r1 g1, still_leader n g r1 g1 ->
    wp n (for_each (fun m => if bool_decide (m = me r) then mret tt else send_append m rr) l)
      (fun _ r' g' => still_leader n g r' g') r1 g1).
  { induction l as [|m l IH]; intros r1 g1 (Hs & U1 & Hr1); [by apply wp_ret|]. cbn [for_each].
    apply wp_bind. case_bool_decide; [by apply wp_ret, IH|].
    apply wp_send_append; [done|by eapply nsteps_reach|done|done|].
    intros r' g' (Hs' & U' & Hr'). apply IH. split_and!; try done. by etransitivity. }
  eapply wp_mono; [by apply Hloop|]. intros [] r' g' (Hs & U' & Hr'). apply wp_modify, HQ.
  split_and!; [done|by destruct U'|done].
Qed.

(** ** Appending to the local log *)
Lemma drop_snoc {A} (L : list A) b x : (b <= length L)%nat -> drop b (L ++ [x]) = drop b L ++ [x].
Proof. intros. by rewrite drop_app_le. Qed.

Lemma tat_app L L' i : (i <= length L)%nat -> tat (L ++ L') i = tat L i.
Proof. intros H. destruct i as [|i]; [done|]. cbn. by rewrite lookup_app_l by lia. Qed.

Lemma wp_append_local n data Q r g g1 :
  let a := node g n in
  let e := MkEntry (term r) (Z.of_nat (Datatypes.S (length (a_log a)))) data in
  me r = n -> disk (storage r) a -> term r = a_term a -> log r = drop (a_base a) (a_log a) ->
  last_index r = Z.of_nat (length (a_log a)) ->
  nsteps n g g1 -> a_log (node g1 n) = a_log a ++ [e] -> a_base (node g1 n) = a_base a ->
  a_term (node g1 n) = a_term a -> a_vote (node g1 n) = a_vote a ->
  (forall s', disk s' (node g1 n) ->
     Q (Z.of_nat (Datatypes.S (length (a_log a))))
       (r <| storage := s' |> <| log := log r ++ [e] |>
          <| match_index := <[n := Z.of_nat (Datatypes.S (length (a_log a)))]> (match_index r) |>) g1) ->
  wp n (append_local data) Q r g.
Proof.
  intros a e Hme Hd Ht Hlog Hli Hs Hl1 Hb1 Ht1 Hv1 HQ. assert (Hbl : (a_base a <= length (a_log a))%nat) by apply Hd.
  unfold append_local. apply wp_bind, wp_get, wp_bind, wp_lift; [done|].
  intros i Hi. apply uadd_ok_inv in Hi as [-> _]. rewrite Hli.
  replace (Z.of_nat (length (a_log a)) + 1) with (Z.of_nat (Datatypes.S (length (a_log a)))) by lia. fold e.
  assert (Hnew : forall s', load s' = Ok (p_append [e] (MkPersistent (a_term a) (a_vote a)
      (drop (a_base a) (a_log a)) (Z.of_nat (a_base a)) (tat (a_log a) (a_base a)))) -> disk s' (node g1 n)).
  { intros s' Hl. split; [rewrite Hl1, Hb1, length_app; lia|]. rewrite Hl, Ht1, Hv1, Hb1, Hl1.
    unfold p_append. cbn. by rewrite drop_snoc, tat_app. }
  apply wp_bind. eapply wp_storage; [apply append_law|apply Hd| | |].
  - intros s' Hl. eapply wp_steps; [exact Hs|]. apply wp_bind, wp_modify, wp_bind, wp_gets, wp_bind, wp_modify, wp_ret.
    assert (Hlast : last_index (r <| storage := s' |> <| log := log r ++ [e] |>)
                    = Z.of_nat (Datatypes.S (length (a_log a)))).
    { unfold last_index. cbn. by rewrite last_snoc. }
    specialize (HQ s' (Hnew s' Hl)). rewrite <- Hlast, <- Hme in HQ. exact HQ.
  - intros s' Hl. exists g. split; [done|]. destruct Hd as [? Hl0]. split; [done|]. by rewrite Hl.
  - intros s' Hl. exists g1. split; [done|]. by apply Hnew.
Qed.

Lemma wp_propose n data Q r g :
  n ∈ voters -> areach voters g -> up n r g ->
  (forall i r' g', nsteps n g g' -> up n r' g' -> Q i r' g') ->
  wp n (propose data) Q r g.
Proof.
  intros Hn HR U HQ. pose proof (inv_reach _ _ HR) as I. unfold propose. apply wp_bind, wp_get.
  unfold is_leader. case_bool_decide as Hr; cbn [negb]; [|apply wp_fail, U].
  destruct data as [|d0 ds] eqn:Ed; [apply wp_fail, U|]. rewrite <- Ed.
  set (a := node g n). set (L := a_log a ++ [MkEntry (a_term a) (Z.of_nat (Datatypes.S (length (a_log a)))) data]).
  set (g1 := set_node n (a <| a_log := L |> <| a_match := <[n := length L]> (a_match a) |>)
      (g <| llog := <[a_term a := Some (n, L)]> (llog g) |>
         <| acked := <[n := <[a_term a := length L]> (acked g n)]> (acked g) |>)).
  assert (Hs : nsteps n g g1).
  { apply nsteps_one; [apply st_propose; [done|by rewrite <- (u_role _ _ _ U)]| |done].
    intros. etransitivity; [by apply node_set_ne|done]. }
  assert (Hn1 : node g1 n = a <| a_log := L |> <| a_match := <[n := length L]> (a_match a) |>) by apply node_set.
  assert (HLl : length L = Datatypes.S (length (a_log a))) by (unfold L; rewrite length_app; cbn; lia).
  assert (Hbl := up_base_le n r g U). fold a in Hbl.
  apply wp_bind. eapply (wp_append_local n data _ r g g1); rewrite ?Hn1; try done; try apply U.
  - by apply up_last_index.
  - fold a. cbn. by rewrite (u_term _ _ _ U).
  - intros s' Hd. apply wp_bind. apply wp_broadcast; [done|by eapply nsteps_reach| |done|].
    + destruct U. split; first [exact Hd | rewrite ?Hn1; cbn; try done].
      * rewrite u_log0, u_term0. fold a. unfold L. by rewrite drop_snoc.
      * rewrite u_baset0. fold a. unfold L. by rewrite tat_app.
      * intros _ m Hm. destruct (decide (m = n)) as [->|].
        -- rewrite lookup_insert_eq, fn_lookup_insert. cbn. by rewrite HLl.
        -- rewrite lookup_insert_ne, fn_lookup_insert_ne by done. by apply u_match0.
    + intros r' g' (Hs' & U' & _). apply wp_ret, HQ; [by etransitivity|done].
Qed.

(** ** Elections *)
Lemma wp_for_modify {A} n (f : A -> Raft S -> Raft S) l Q r g :
  Q tt (foldl (fun r x => f x r) r l) g -> wp n (for_each (fun x => modify (f x)) l) Q r g.
Proof.
  revert r. induction l as [|x l IH]; intros r HQ; [by apply wp_ret|].
  cbn [for_each]. apply wp_bind, wp_modify, IH. done.
Qed.

(** The loop of [become_leader] over the members. *)
Definition init_peer (next : Z) (m : NodeId) (r : Raft S) : Raft S :=
  r <| next_index := <[m := next]> (next_index r) |> <| match_index := <[m := 0]> (match_index r) |>.

Lemma init_peers next l r :
  exists ni mi, foldl (fun r m => init_peer next m r) r l = r <| next_index := ni |> <| match_index := mi |> /\
    forall m, m ∈ l -> mi !! m = Some 0.
Proof.
  assert (H : forall l r, exists ni mi,
    foldl (fun r m => init_peer next m r) r l = r <| next_index := ni |> <| match_index := mi |> /\
    (forall m, m ∈ l -> mi !! m = Some 0) /\ (forall m, match_index r !! m = Some 0 -> mi !! m = Some 0)).
  { clear. induction l as [|x l IH]; intros r; cbn [foldl].
    - exists (next_index r), (match_index r). split_and!; [by destruct r|set_solver|done].
    - destruct (IH (init_peer next x r)) as (ni & mi & -> & H1 & H2). exists ni, mi.
      assert (Hx : mi !! x = Some 0) by (apply H2; cbn; apply lookup_insert_eq).
      split_and!; [done| |].
      + intros m Hm. destruct (decide (m = x)) as [->|]; [done|]. apply H1. set_solver.
      + intros m Hm. destruct (decide (m = x)) as [->|]; [done|]. apply H2. cbn.
        by rewrite lookup_insert_ne. }
  destruct (H l r) as (ni & mi & H1 & H2 & _). eauto.
Qed.

Lemma wp_init_peers n next l Q r g :
  (forall ni mi, (forall m, m ∈ l -> mi !! m = Some 0) ->
     Q tt (r <| next_index := ni |> <| match_index := mi |>) g) ->
  wp n (for_each (fun m => modify (init_peer next m)) l) Q r g.
Proof.
  intros HQ. apply wp_for_modify. destruct (init_peers next l r) as (ni & mi & E & H).
  rewrite E. by apply HQ.
Qed.

Lemma wp_become_leader n Q r g :
  n ∈ voters -> areach voters g -> up n r g -> role r = Candidate ->
  (quorum c0 <= size (votes r))%nat ->
  (forall r' g', nsteps n g g' -> up n r' g' -> Q tt r' g') ->
  wp n become_leader Q r g.
Proof.
  intros Hn HR U Hr Hq HQ. pose proof (inv_reach _ _ HR) as I. unfold become_leader.
  apply wp_bind, wp_modify. nrm. apply wp_bind, wp_get, wp_bind, wp_lift; [apply U|]. intros next _.
  set (a := node g n).
  set (L := a_log a ++ [MkEntry (a_term a) (Z.of_nat (Datatypes.S (length (a_log a)))) []]).
  set (g1 := set_node n (a <| a_role := Leader |> <| a_log := L |>
        <| a_match := <[n := length L]> (fun _ => 0%nat) |>)
      (g <| llog := <[a_term a := Some (n, L)]> (llog g) |>
         <| acked := <[n := <[a_term a := length L]> (acked g n)]> (acked g) |>)).
  assert (Hs : nsteps n g g1).
  { apply nsteps_one; [apply st_lead; [done|by rewrite <- (u_role _ _ _ U)|]| |done].
    - rewrite <- (u_votes _ _ _ U). done.
    - intros. etransitivity; [by apply node_set_ne|done]. }
  assert (Hn1 : node g1 n = a <| a_role := Leader |> <| a_log := L |>
        <| a_match := <[n := length L]> (fun _ => 0%nat) |>) by apply node_set.
  assert (HLl : length L = Datatypes.S (length (a_log a))) by (unfold L; rewrite length_app; cbn; lia).
  assert (Hbl := up_base_le n r g U). fold a in Hbl.
  apply wp_bind. apply (wp_init_peers n next). intros ni mi Hmi. nrm.
  apply wp_bind, wp_modify. nrm. apply wp_bind.
  eapply (wp_append_local n [] _ _ g g1); rewrite ?Hn1; try done; try apply U.
  - cbn. etransitivity; [|by apply up_last_index]. done.
  - fold a. cbn. by rewrite (u_term _ _ _ U).
  - intros s' Hd. nrm. apply wp_bind, wp_modify. nrm.
    apply wp_broadcast; [exact Hn|exact (nsteps_reach _ _ _ Hs HR)| |reflexivity|].
    + destruct U. split; first [exact Hd | rewrite ?Hn1; cbn; try done].
      * rewrite u_log0, u_term0. fold a. unfold L. by rewrite drop_snoc.
      * rewrite u_baset0. fold a. unfold L. by rewrite tat_app.
      * intros _ m Hm. destruct (decide (m = n)) as [->|].
        -- rewrite lookup_insert_eq, fn_lookup_insert. cbn. by rewrite HLl.
        -- rewrite !lookup_insert_ne, fn_lookup_insert_ne by (done || congruence).
           rewrite Hmi; [done|]. cbn. by rewrite u_cfg0.
    + intros r' g' (Hs' & U' & _). apply HQ; [by etransitivity|done].
Qed.

Lemma wp_become_candidate n Q r g :
  n ∈ voters -> areach voters g -> up n r g ->
  (forall r' g', nsteps n g g' -> up n r' g' -> Q tt r' g') ->
  wp n (become_candidate draw_fuel) Q r g.
Proof.
  intros Hn HR U HQ. pose proof (inv_reach _ _ HR) as I. unfold become_candidate.
  apply wp_bind, wp_get, wp_bind, wp_lift; [apply U|]. intros t Ht. apply uadd_ok_inv in Ht as [-> _].
  set (a := node g n). set (t := a_term a + 1).
  set (g1 := add_sent (map (fun m => AVote n m t (length (a_log a)) (lastterm (a_log a))) voters)
      (set_node n (a <| a_term := t |> <| a_vote := Some n |>
        <| a_role := Candidate |> <| a_votes := {[ n ]} |>)
      (g <| ballot := <[n := <[t := Some (n, a_log a)]> (ballot g n)]> (ballot g) |>))).
  assert (Hs : nsteps n g g1).
  { apply nsteps_one; [apply st_candidate; [done|apply I]| |cbn; set_solver].
    intros. etransitivity; [by apply node_set_ne|done]. }
  assert (Hn1 : node g1 n = a <| a_term := t |> <| a_vote := Some n |>
        <| a_role := Candidate |> <| a_votes := {[ n ]} |>) by apply (node_set n).
  rewrite (u_term _ _ _ U). fold a t.
  apply wp_bind, wp_modify. unfold persist_term_vote. apply wp_bind, wp_bind, wp_get. cbn [term voted_for update].
  assert (Hd : forall s', load s' = Ok (p_save t (Some (me r)) (MkPersistent (term r) (voted_for r) (log r)
      (snapshot_index r) (snapshot_term r))) -> disk s' (node g1 n)).
  { intros s' Hl. rewrite Hn1. split; cbn; [apply U|]. rewrite Hl. unfold p_save. cbn.
    destruct U. by rewrite u_me0, u_log0, u_base0, u_baset0. }
  eapply wp_storage; [apply save_law|cbn; by eapply up_load| | |].
  2:{ intros s' Hl. exists g. split; [done|]. destruct (u_disk _ _ _ U) as [? Hl0]. split; [done|].
      rewrite Hl. destruct U. f_equal. congruence. }
  2:{ intros s' Hl. exists g1. split; [done|]. by apply Hd. }
  intros s' Hl. eapply wp_steps; [exact Hs|]. nrm.
  apply wp_bind, wp_modify. nrm. apply wp_bind, wp_reset; [by apply Hd|]. intros x y. nrm.
  match goal with |- wp _ _ _ ?r1 _ => set (r1' := r1) end.
  assert (U1 : up n r1' g1).
  { destruct U. split; first [by apply Hd | rewrite ?Hn1; cbn; try done].
    - by rewrite u_me0.
    - by rewrite u_me0.
    - eapply Forall_impl; [done|]. intros e. apply env_ok_mono. cbn. set_solver. }
  assert (R1 : areach voters g1) by (by eapply nsteps_reach).
  assert (Hc1 : role r1' = Candidate) by done. clearbody r1'.
  apply wp_bind, wp_get, wp_bind.
  assert (Hloop : forall l r2, l ⊆ voters -> up n r2 g1 -> role r2 = Candidate ->
    wp n (for_each (fun m => if bool_decide (m = me r1') then mret tt
        else send m (RequestVote (term r1') (last_index r1') (last_term r1'))) l)
      (fun _ r' g' => up n r' g' /\ g' = g1 /\ role r' = Candidate) r2 g1).
  { induction l as [|m l IH]; intros r2 Hl2 U2 Hr2; [by apply wp_ret|]. cbn [for_each].
    apply wp_bind. case_bool_decide; [apply wp_ret, IH; [set_solver|done|done]|].
    apply wp_send, IH; [set_solver| |done]. apply up_send; [done|]. cbn.
    rewrite (up_last_index n r1' g1 U1), (up_last_term n r1' g1 U1), (u_term _ _ _ U1) by (by apply inv_reach).
    rewrite Hn1. cbn. eexists. split; [done|]. apply elem_of_app. left. apply list_elem_of_fmap. exists m.
    split; [done|]. set_solver. }
  eapply wp_mono; [apply (Hloop _ r1'); [by rewrite (u_cfg _ _ _ U1)|done|done]|].
  intros [] r2 g2 (U2 & -> & Hr2). apply wp_bind, wp_get.
  case_if; [|by apply wp_ret, HQ].
  apply wp_become_leader; try done.
  - rewrite (u_cfg _ _ _ U2) in E. by apply Nat.leb_le in E.
  - intros r' g' Hs' U'. apply HQ; [by etransitivity|done].
Qed.

(** ** Votes *)
Lemma wp_request_vote n from t li lt Q r g :
  n ∈ voters -> areach voters g -> up n r g ->
  env_ok (sent g) (MkEnvelope from n (RequestVote t li lt)) ->
  (forall r' g', nsteps n g g' -> up n r' g' -> Q tt r' g') ->
  wp n (step_request_vote draw_fuel from t li lt) Q r g.
Proof.
  intros Hn HR U (li' & -> & Hask) HQ. unfold step_request_vote. cbn in Hask.
  apply wp_bind, wp_get, wp_bind.
  apply (wp_mono n _ (fun _ r' g' => nsteps n g g' /\ up n r' g')).
  { case_if; [|by apply wp_ret]. breflect. apply wp_become_follower; [done|done|lia|]. auto. }
  intros [] r1 g1 (Hs1 & U1). pose proof (nsteps_reach _ _ _ Hs1 HR) as R1.
  pose proof (inv_reach _ _ R1) as I1. pose proof (nsteps_sent _ _ _ Hs1 _ Hask) as Hask1.
  apply wp_bind, wp_get.
  rewrite (up_last_term n r1 g1 U1 I1), (up_last_index n r1 g1 U1 I1).
  set (a := node g1 n) in *. set (grant := _ && _ && _).
  apply wp_bind.
  apply (wp_mono n _ (fun _ r' g' => nsteps n g g' /\ up n r' g' /\
    (grant = true -> AGrant n from (term r') ∈ sent g'))).
  2:{ intros [] r2 g2 (Hs2 & U2 & Hg). apply wp_bind, wp_get, wp_send, HQ; [done|].
      apply up_send; [done|]. done. }
  destruct grant eqn:Eg; [|apply wp_ret; split_and!; done].
  unfold grant in Eg. apply andb_true_iff in Eg as [Eg Hvote]. apply andb_true_iff in Eg as [Et Hup].
  apply Z.eqb_eq in Et. subst t. rewrite (u_term _ _ _ U1) in Hask1. fold a in Hask1.
  assert (Hup' : up_to_date li' lt (a_log a)).
  { unfold up_to_date. apply orb_true_iff in Hup as [Hup|Hup]; breflect; [by left|]. right. split; lia. }
  assert (Hv : a_vote a = None \/ a_vote a = Some from).
  { apply orb_true_iff in Hvote. rewrite (u_vote _ _ _ U1) in Hvote. fold a in Hvote.
    destruct Hvote as [H|H]; apply bool_decide_eq_true_1 in H; auto. }
  set (g2 := add_sent [AGrant n from (a_term a)] (set_node n (a <| a_vote := Some from |>)
      (g1 <| ballot := match a_vote a with
                      | None => <[n := <[a_term a := Some (from, a_log a)]> (ballot g1 n)]> (ballot g1)
                      | Some _ => ballot g1
                      end |>))).
  assert (Hs2 : nsteps n g1 g2).
  { apply nsteps_one; [by apply (st_grant _ g1 n from li' lt)| |cbn; set_solver].
    intros. etransitivity; [by apply node_set_ne|done]. }
  assert (Hn2 : node g2 n = a <| a_vote := Some from |>) by apply (node_set n).
  assert (Hd : forall s', load s' = Ok (p_save (term r1) (Some from) (MkPersistent (term r1) (voted_for r1) (log r1)
      (snapshot_index r1) (snapshot_term r1))) -> disk s' (node g2 n)).
  { intros s' Hl. rewrite Hn2. split; cbn; [apply U1|]. rewrite Hl. unfold p_save. cbn.
    destruct U1. by rewrite u_term0, u_log0, u_base0, u_baset0. }
  apply wp_bind, wp_modify. nrm. unfold persist_term_vote. apply wp_bind, wp_bind, wp_get. cbn [term voted_for].
  eapply wp_storage; [apply save_law|cbn; by eapply up_load| | |].
  2:{ intros s' Hl. exists g1. split; [done|]. destruct (u_disk _ _ _ U1) as [? Hl0]. split; [done|].
      rewrite Hl, <- Hl0. symmetry. by eapply up_load. }
  2:{ intros s' Hl. exists g2. split; [done|]. by apply Hd. }
  intros s' Hl. eapply wp_steps; [exact Hs2|]. nrm. apply wp_reset; [by apply Hd|]. intros x y.
  split_and!; [by etransitivity| |].
  - nrm. destruct U1. split; first [by apply Hd | rewrite ?Hn2; cbn; try done].
    eapply Forall_impl; [done|]. intros e. apply env_ok_mono. cbn. set_solver.
  - intros _. cbn. rewrite (u_term _ _ _ U1). set_solver.
Qed.

Lemma wp_vote_reply n from t granted Q r g :
  n ∈ voters -> areach voters g -> up n r g -> from ∈ voters ->
  env_ok (sent g) (MkEnvelope from n (RequestVoteReply t granted)) ->
  (forall r' g', nsteps n g g' -> up n r' g' -> Q tt r' g') ->
  wp n (step_vote_reply draw_fuel from t granted) Q r g.
Proof.
  intros Hn HR U Hf Henv HQ. unfold step_vote_reply. cbn in Henv. apply wp_bind, wp_get.
  destruct (Z.ltb_spec (term r) t) as [Hlt|Hge].
  { apply wp_become_follower; [done|done|lia|]. auto. }
  case_if; [|by apply wp_ret, HQ]. apply andb_true_iff in E as [[Hr Ht]%andb_true_iff ->].
  apply bool_decide_eq_true_1 in Hr. apply Z.eqb_eq in Ht. subst t. specialize (Henv eq_refl).
  set (a := node g n). set (g1 := set_node n (a <| a_votes := {[ from ]} ∪ a_votes a |>) g).
  assert (Hs : nsteps n g g1).
  { apply nsteps_one; [apply st_vote; try done| |done].
    - by rewrite <- (u_role _ _ _ U).
    - by rewrite <- (u_term _ _ _ U).
    - intros. by apply node_set_ne. }
  assert (Hn1 : node g1 n = a <| a_votes := {[ from ]} ∪ a_votes a |>) by apply node_set.
  eapply wp_steps; [exact Hs|]. apply wp_bind, wp_modify. nrm.
  match goal with |- wp _ _ _ ?r1 _ => set (r1' := r1) end.
  assert (U1 : up n r1' g1).
  { destruct U. split; try done; rewrite ?Hn1; cbn; try done. by rewrite u_votes0. }
  assert (Hc1 : role r1' = Candidate) by done. clearbody r1'.
  apply wp_bind, wp_get. case_if; [|by apply wp_ret, HQ].
  apply wp_become_leader; try done; [by eapply nsteps_reach| |].
  - rewrite (u_cfg _ _ _ U1) in E. by apply Nat.leb_le in E.
  - intros r' g' Hs' U'. apply HQ; [by etransitivity|done].
Qed.

(** ** Accepting entries *)
Lemma matches_weaken L P lo hi hi' : (hi' <= hi)%nat -> matches_to L P lo hi -> matches_to L P lo hi'.
Proof. intros Hh H i Hi. apply H. lia. Qed.

Lemma last_new_index P prev :
  wf_log P -> match last (drop prev P) with Some e => e_index e | None => Z.of_nat prev end
              = Z.of_nat (last_new P prev).
Proof.
  intros Hw. unfold last_new. destruct (decide (prev < length P)%nat) as [Hlt|Hge].
  - rewrite last_drop by done. rewrite last_lookup.
    destruct (lookup_lt_is_Some_2 P (pred (length P)) ltac:(lia)) as [e He]. rewrite He.
    destruct (Hw _ _ He) as [-> _]. f_equal. lia.
  - rewrite drop_ge by lia. cbn. f_equal. lia.
Qed.

Section accept.
Context (n from : NodeId) (r : Raft S) (g : gstate) (P : list Entry) (prev lc : nat).
Let a := node g n.
Let L := a_log a.
Let b := a_base a.
Let lo := Nat.max prev b.
Context (Hn : n ∈ voters) (HR : areach voters g) (U : up n r g) (Hrole : role r = Follower).
Context (Hmsg : AAppend from n (a_term a) P prev lc ∈ sent g) (Hacc : acceptable L P b prev).

Definition accepted (M : list Entry) (k : nat) : gstate :=
  add_sent [AAck n from (a_term a) k]
    (set_node n (a <| a_log := M |> <| a_commit := Nat.max (Nat.min lc k) (a_commit a) |>)
    (g <| acked := <[n := <[a_term a := Nat.max (acked g n (a_term a)) k]> (acked g n)]> (acked g) |>)).

Lemma accepted_steps M k : merge L P b prev (a_commit a) M k -> nsteps n g (accepted M k).
Proof.
  intros Hm. apply nsteps_one; [apply (st_append _ g n from P prev lc M k); try done| |cbn; set_solver].
  - by rewrite <- (u_role _ _ _ U).
  - intros. etransitivity; [by apply node_set_ne|done].
Qed.

Lemma accepted_node M k :
  node (accepted M k) n = a <| a_log := M |> <| a_commit := Nat.max (Nat.min lc k) (a_commit a) |>.
Proof. apply (node_set n). Qed.

Lemma acc_inv : inv voters g.
Proof. by apply inv_reach. Qed.

Lemma acc_wf : wf_log P.
Proof.
  destruct (i_sent _ _ acc_inv _ Hmsg) as (L' & Hl & Hp & _).
  destruct (i_coh_llog _ _ acc_inv _ _ _ Hl) as (_ & Hw & _).
  intros j e He. apply Hw. by eapply prefix_lookup_Some.
Qed.

Lemma acc_lo : (lo <= length L)%nat.
Proof. pose proof (up_base_le n r g U) as Hb. unfold lo. destruct Hacc as [|[? _]]; fold a L b in Hb; lia. Qed.

(** The persistent state with the log cut or replaced. *)
Definition pers (M : list Entry) : Persistent :=
  MkPersistent (a_term a) (a_vote a) (drop b M) (Z.of_nat b) (tat L b).

Lemma acc_load : load (storage r) = Ok (pers L).
Proof. apply (u_disk _ _ _ U). Qed.

Lemma accepted_disk M k s :
  (b <= length M)%nat -> take b M = take b L -> load s = Ok (pers M) -> disk s (node (accepted M k) n).
Proof.
  intros Hb Ht Hl. rewrite accepted_node. split; cbn; [done|]. rewrite Hl. unfold pers. fold b.
  do 2 f_equal. destruct b as [|j]; [done|]. cbn.
  by rewrite (take_eq_lookup M L (Datatypes.S j) j Ht ltac:(lia)).
Qed.

Lemma cut_load j : (b <= j)%nat -> retain_below (Z.of_nat (Datatypes.S j)) (drop b L) = drop b (take j L).
Proof.
  intros Hj. replace (Datatypes.S j) with (b + Datatypes.S (j - b))%nat by lia.
  rewrite retain_below_take by (apply indexed_drop, wf_indexed, acc_inv).
  rewrite take_drop_commute. do 2 f_equal. lia.
Qed.

(** What the scan over the entries returns, and what it did to the node. *)
Definition found (o : option nat) (r' : Raft S) : Prop :=
  match o with
  | None => r' = r /\ matches_to L P lo (length P)
  | Some i =>
      let j := (prev + i)%nat in
      (lo <= j < length P)%nat /\ matches_to L P lo j /\ (j <= length L)%nat /\
      ((j = length L /\ r' = r) \/
       (conflict_at L P (a_commit a) j /\ exists s, load s = Ok (pers (take j L)) /\
          r' = r <| storage := s |> <| log := drop b (take j L) |>))
  end.

Lemma wp_find_new k :
  matches_to L P lo (prev + k) ->
  wp n (find_new (drop (prev + k) P) k) (fun o r' g' => g' = g /\ found o r') r g.
Proof.
  remember (drop (prev + k) P) as es eqn:Ees. revert k Ees.
  induction es as [|e es IH]; intros k Ees Hm.
  { apply wp_ret. split; [done|]. split; [done|]. eapply matches_weaken; [|exact Hm].
    symmetry in Ees. apply (f_equal length) in Ees. rewrite length_drop in Ees. cbn in Ees. lia. }
  assert (He : P !! (prev + k)%nat = Some e).
  { rewrite <- (Nat.add_0_r (prev + k)), <- lookup_drop, <- Ees. done. }
  assert (Ees' : es = drop (prev + Datatypes.S k) P).
  { replace (prev + Datatypes.S k)%nat with ((prev + k) + 1)%nat by lia. by rewrite <- drop_drop, <- Ees. }
  destruct (acc_wf _ _ He) as [Hidx _]. set (j := (prev + k)%nat) in *.
  assert (HjP : (j < length P)%nat) by (by eapply lookup_lt_Some).
  assert (Hnext : forall e', L !! j = Some e' -> e_term e' = e_term e -> matches_to L P lo (prev + Datatypes.S k)).
  { intros e' He' Ht i Hi. destruct (decide (i < j)%nat); [apply Hm; lia|].
    assert (i = j) as -> by lia. by exists e', e. }
  cbn [find_new]. apply wp_bind, wp_get. rewrite (u_base _ _ _ U). fold a b.
  destruct (Z.leb_spec (e_index e) (Z.of_nat b)) as [Hle|Hgt].
  { apply (IH (Datatypes.S k) Ees'). intros i Hi. unfold lo in Hi. lia. }
  rewrite Hidx, (up_entry n r g U acc_inv). fold a L b. rewrite decide_True by lia.
  destruct (L !! j) as [mine|] eqn:Emine.
  2:{ apply wp_ret. split; [done|]. unfold found. cbv zeta. fold j.
      assert (Hj : j = length L).
      { apply lookup_ge_None in Emine. destruct (decide (lo < j)%nat) as [Hlt|].
        - destruct (Hm (j - 1)%nat ltac:(lia)) as (x & _ & Hx & _). apply lookup_lt_Some in Hx. lia.
        - pose proof acc_lo. lia. }
      split_and!; [unfold lo; lia|done|done|lia|by left]. }
  destruct (Z.eqb_spec (e_term mine) (e_term e)) as [Et|Ent].
  { apply (IH (Datatypes.S k) Ees'). by eapply Hnext. }
  rewrite (u_commit _ _ _ U). fold a.
  destruct (Z.leb_spec (Z.of_nat (Datatypes.S j)) (Z.of_nat (a_commit a))) as [Hc|Hc]; [apply wp_fail, U|].
  assert (Hconf : conflict_at L P (a_commit a) j) by (exists mine, e; split_and!; (done || lia)).
  assert (HjL : (j < length L)%nat) by (by eapply lookup_lt_Some).
  assert (Hbj : (b <= j)%nat) by lia.
  assert (Hcut : forall s, load s = Ok (p_truncate (Z.of_nat (Datatypes.S j)) (pers L)) -> load s = Ok (pers (take j L))).
  { intros s Hl. rewrite Hl. unfold p_truncate, pers.
    cbn [update p_term p_voted_for p_entries p_snapshot_index p_snapshot_term]. by rewrite cut_load. }
  apply wp_bind. eapply wp_storage; [apply truncate_law|apply acc_load| | |].
  - intros s Hl. apply wp_bind, wp_modify, wp_ret. split; [done|]. unfold found. cbv zeta. fold j.
    split_and!; [unfold lo; lia|done|done|lia|]. right. split; [done|]. exists s.
    split; [by apply Hcut|]. change (log_pos (Z.of_nat (Datatypes.S j)) (r <| storage := s |>))
      with (log_pos (Z.of_nat (Datatypes.S j)) r).
    rewrite (up_log_pos n r g U). fold a b. rewrite decide_True by done.
    cbn [log update]. rewrite (u_log _ _ _ U). fold a L b.
    replace (take (j - b) (drop b L)) with (drop b (take j L)); [done|].
    rewrite take_drop_commute. do 2 f_equal. lia.
  - intros s Hl. exists g. split; [done|]. destruct (u_disk _ _ _ U) as [? Hl0]. split; [done|]. by rewrite Hl.
  - intros s Hl. exists (accepted (take j L) 0). split.
    + apply accepted_steps. apply merge_cut; [fold lo; unfold lo; lia|done|done].
    + apply accepted_disk; [rewrite length_take; lia| |by apply Hcut].
      rewrite take_take. f_equal. lia.
Qed.

(** The end of the handler: advance the commit index and acknowledge. *)
Lemma wp_accept_finish s M rr Q :
  let k := last_new P prev in
  merge L P b prev (a_commit a) M k -> (b <= length M)%nat -> take b M = take b L ->
  load s = Ok (pers M) ->
  (forall r' g', nsteps n g g' -> up n r' g' -> Q tt r' g') ->
  wp n (modify (fun r => if commit_index r <? Z.of_nat lc
          then r <| commit_index := Z.max (Z.min (Z.of_nat lc) (Z.of_nat k)) (commit_index r) |> else r) ;;
        r ← get;
        send from (AppendEntriesReply (term r) true (Z.of_nat k) rr (applied r)))
    Q (r <| storage := s |> <| log := drop b M |>) g.
Proof.
  intros k Hm Hb Ht Hl HQ. eapply wp_steps; [by apply accepted_steps|].
  apply wp_bind, wp_modify. nrm. cbn [commit_index].
  match goal with |- wp _ _ _ ?r1 _ => set (r1' := r1) end.
  assert (U1 : up n r1' (accepted M k)).
  { pose proof (accepted_disk M k s Hb Ht Hl) as Hd. pose proof U as U'. destruct U'.
    assert (Hc : commit_index r1' = Z.of_nat (Nat.max (Nat.min lc k) (a_commit a))).
    { unfold r1'. destruct (Z.ltb_spec (commit_index r) (Z.of_nat lc)); cbn;
        rewrite u_commit0 in *; unfold a; lia. }
    unfold r1' in *. clear r1'. destruct (commit_index r <? Z.of_nat lc); cbn [commit_index] in Hc;
    (split; first [exact Hd | rewrite ?accepted_node; cbn; try done]; try done);
    try (rewrite u_baset0; fold a L b; destruct b as [|j]; [done|]; cbn;
         by rewrite (take_eq_lookup M L (Datatypes.S j) j Ht ltac:(lia)));
    (eapply Forall_impl; [done|]; intros e; apply env_ok_mono; cbn; set_solver). }
  assert (Ht1 : term r1' = a_term a) by (rewrite (u_term _ _ _ U1), accepted_node; done).
  clearbody r1'. apply wp_bind, wp_get, wp_send, HQ; [by apply accepted_steps|].
  apply up_send; [done|]. cbn. intros _. exists k. split; [done|]. rewrite Ht1. set_solver.
Qed.

Lemma wp_accept_entries rr Q :
  (forall r' g', nsteps n g g' -> up n r' g' -> Q tt r' g') ->
  wp n (accept_entries from (Z.of_nat prev) (drop prev P) (Z.of_nat lc) rr) Q r g.
Proof.
  intros HQ. unfold accept_entries. rewrite (last_new_index P prev acc_wf).
  assert (Er : r = r <| storage := storage r |> <| log := drop b L |>).
  { unfold L, b, a. rewrite <- (u_log _ _ _ U). by destruct r. }
  pose proof (up_base_le n r g U) as Hbl. fold a L b in Hbl.
  apply wp_bind. rewrite <- (Nat.add_0_r prev) at 1.
  eapply wp_mono; [apply wp_find_new; intros i Hi; unfold lo in Hi; lia|].
  intros [i|] r' g' (-> & Hf); unfold found in Hf; cbv zeta in Hf.
  - destruct Hf as (Hj & Hm & HjL & Hcase). set (j := (prev + i)%nat) in *.
    assert (Hbj : (b <= j)%nat) by (unfold lo in Hj; lia).
    rewrite drop_drop. fold j. set (M := take j L ++ drop j P).
    assert (HtM : take b M = take b L).
    { unfold M. rewrite take_app_le by (rewrite length_take; lia). rewrite take_take. f_equal. lia. }
    assert (HlM : (b <= length M)%nat) by (unfold M; rewrite length_app, length_take; lia).
    assert (HdM : drop b M = drop b (take j L) ++ drop j P).
    { unfold M. rewrite drop_app_le; [done|]. rewrite length_take. lia. }
    assert (Hmg : merge L P b prev (a_commit a) M (last_new P prev)).
    { apply merge_extend; [exact Hj|exact Hm|]. destruct Hcase as [[? _]|[? _]]; auto. }
    assert (Hst : exists s0, load s0 = Ok (pers (take j L)) /\
      r' = r <| storage := s0 |> <| log := drop b (take j L) |> /\
      (forall s, load s = Ok (pers (take j L)) -> exists g', nsteps n g g' /\ disk s (node g' n))).
    { destruct Hcase as [[Hjl ->]|[Hconf (s0 & Hl0 & ->)]].
      - exists (storage r). rewrite (take_ge L j) by lia. split_and!; [apply acc_load|exact Er|].
        intros s Hl. exists g. split; [done|]. destruct (u_disk _ _ _ U) as [? Hl0]. split; [done|]. by rewrite Hl.
      - exists s0. split_and!; [done|done|]. intros s Hl. exists (accepted (take j L) 0).
        split; [by apply accepted_steps, merge_cut|]. apply accepted_disk; [rewrite length_take; lia| |done].
        rewrite take_take. f_equal. lia. }
    destruct Hst as (s0 & Hl0 & -> & Hold).
    assert (Hnew : forall s, load s = Ok (p_append (drop j P) (pers (take j L))) -> load s = Ok (pers M)).
    { intros s Hl. rewrite Hl. unfold p_append, pers. cbn [update p_term p_voted_for p_entries p_snapshot_index p_snapshot_term].
      by rewrite HdM. }
    apply wp_bind. apply wp_bind. eapply wp_storage; [apply append_law|exact Hl0| |exact Hold|].
    + intros s Hl. apply wp_modify. nrm. rewrite <- HdM. apply wp_accept_finish; try done. by apply Hnew.
    + intros s Hl. exists (accepted M (last_new P prev)). split; [by apply accepted_steps|].
      apply accepted_disk; try done. by apply Hnew.
  - destruct Hf as [-> Hm]. apply wp_bind, wp_ret. rewrite Er.
    apply wp_accept_finish; try done; [by apply merge_keep|apply acc_load].
Qed.
End accept.

Lemma wp_send_refusal n to t mi rr ai Q r g g0 :
  up n r g -> nsteps n g0 g -> (forall r' g', nsteps n g0 g' -> up n r' g' -> Q tt r' g') ->
  wp n (send to (AppendEntriesReply t false mi rr ai)) Q r g.
Proof. intros U Hs HQ. apply wp_send, HQ; [done|]. by apply up_send. Qed.

Lemma wp_step_append n from t prev pt es lc rr Q r g :
  n ∈ voters -> areach voters g -> up n r g ->
  env_ok (sent g) (MkEnvelope from n (AppendEntries t prev pt es lc rr)) ->
  (forall r' g', nsteps n g g' -> up n r' g' -> Q tt r' g') ->
  wp n (step_append draw_fuel from t prev pt es lc rr) Q r g.
Proof.
  intros Hn HR U (P & pv & lc' & -> & -> & -> & -> & Hmsg) HQ. unfold step_append. cbn [env_from env_to] in Hmsg.
  apply wp_bind, wp_get. destruct (Z.ltb_spec t (term r)) as [Hlt|Hge].
  { by eapply wp_send_refusal. }
  apply wp_bind.
  apply (wp_mono n _ (fun _ r' g' => nsteps n g g' /\ up n r' g' /\ term r' = t /\ role r' = Follower)).
  { destruct ((term r <? t) || negb (bool_decide (role r = Follower))) eqn:E.
    - apply wp_become_follower; [done|done|lia|]. auto.
    - apply orb_false_iff in E as [E1 E2]. breflect.
      apply wp_bind, wp_modify, wp_reset; [apply U|]. intros x y.
      split_and!; [done|nrm; by destruct U|cbn; lia|done]. }
  intros [] r1 g1 (Hs1 & U1 & Ht1 & Hr1). pose proof (nsteps_reach _ _ _ Hs1 HR) as R1.
  pose proof (inv_reach _ _ R1) as I1. apply (nsteps_sent _ _ _ Hs1) in Hmsg.
  apply wp_bind, wp_get. rewrite (up_last_index n r1 g1 U1 I1), (up_term_at n r1 g1 U1 I1).
  match goal with |- wp _ (if ?c then _ else _) _ _ _ => destruct c eqn:E end; [by eapply wp_send_refusal|].
  rewrite <- Ht1, (u_term _ _ _ U1) in Hmsg.
  apply wp_accept_entries; try done.
  - apply andb_false_iff in E as [E|E]; [breflect; left; lia|].
    apply orb_false_iff in E as [E1 E2]. apply negb_false_iff in E2. breflect. unfold acceptable.
    destruct (decide (a_base (node g1 n) <= pv)%nat); [right|left; lia]. split; [lia|done].
  - intros r' g' Hs' U'. apply HQ; [by etransitivity|done].
Qed.

(** ** Commit by counting *)
Lemma insert_desc_perm x l : insert_desc x l ≡ₚ x :: l.
Proof.
  induction l as [|y l IH]; cbn; [done|]. destruct (y <=? x); [done|]. rewrite IH. apply Permutation_swap.
Qed.
Lemma sort_desc_perm l : sort_desc l ≡ₚ l.
Proof. induction l as [|x l IH]; cbn; [done|]. by rewrite insert_desc_perm, IH. Qed.

Fixpoint desc (l : list Z) : Prop :=
  match l with
  | [] => True
  | x :: l' => Forall (fun y => y <= x) l' /\ desc l'
  end.
Lemma insert_desc_desc x l : desc l -> desc (insert_desc x l).
Proof.
  induction l as [|y l IH]; cbn; [done|]. intros [Hy Hl]. destruct (Z.leb_spec y x).
  - cbn. split; [|done]. constructor; [done|]. eapply Forall_impl; [exact Hy|]. cbn. lia.
  - cbn. split; [|auto]. rewrite insert_desc_perm. constructor; [lia|done].
Qed.
Lemma sort_desc_desc l : desc (sort_desc l).
Proof. induction l as [|x l IH]; cbn; [done|]. by apply insert_desc_desc. Qed.

(** The value at position [k] of a descending list is reached by [k + 1] elements. *)
Lemma desc_count (l : list Z) (k : nat) (q : Z) :
  desc l -> l !! k = Some q -> (k < length (filter (fun x => (q <= x)%Z) l))%nat.
Proof.
  revert k; induction l as [|x l IH]; intros k Hd Hk; [by rewrite lookup_nil in Hk|].
  destruct Hd as [Hx Hd]. destruct k as [|k]; cbn in Hk.
  - simplify_eq. rewrite filter_cons_True by lia. cbn. lia.
  - specialize (IH k Hd Hk). rewrite filter_cons_True; [cbn; lia|].
    rewrite Forall_forall in Hx. apply Hx. by eapply list_elem_of_lookup_2.
Qed.

Lemma count_map (f : NodeId -> Z) (h : NodeId -> nat) (q : nat) (ms : list NodeId) :
  (forall m, m ∈ ms -> f m = Z.of_nat (h m)) ->
  length (filter (fun x => (Z.of_nat q <= x)%Z) (map f ms)) = length (filter (fun m => (q <= h m)%nat) ms).
Proof.
  induction ms as [|m ms IH]; intros Hm; [done|]. cbn [map].
  specialize (Hm m ltac:(set_solver)) as Hm0. destruct (decide (q <= h m)%nat).
  - rewrite !filter_cons_True by lia. cbn. rewrite IH; [done|]. intros. apply Hm. set_solver.
  - rewrite !filter_cons_False by lia. apply IH. intros. apply Hm. set_solver.
Qed.

(** The members whose match index reached the value at the quorum position
    form a quorum. *)
Lemma quorum_matched n r g q :
  up n r g -> role r = Leader ->
  sort_desc (map (fun m => default 0 (match_index r !! m)) voters) !! (quorum c0 - 1)%nat = Some (Z.of_nat q) ->
  (quorum_size voters <= size (matched voters (node g n) q))%nat.
Proof.
  intros U Hr Hq. apply desc_count in Hq; [|apply sort_desc_desc].
  rewrite sort_desc_perm in Hq.
  rewrite (count_map _ (a_match (node g n))) in Hq by (by apply (u_match _ _ _ U)).
  assert (Hs : size (matched voters (node g n) q) = length (filter (fun m => (q <= a_match (node g n) m)%nat) voters)).
  { unfold matched. rewrite <- (size_list_to_set (C := gset NodeId)).
    - f_equal. apply set_eq. intros x.
      by rewrite elem_of_filter, !elem_of_list_to_set, list_elem_of_filter.
    - by apply NoDup_filter. }
  rewrite Hs. unfold quorum in Hq. unfold quorum_size. lia.
Qed.

Lemma wp_advance_commit n Q r g :
  n ∈ voters -> areach voters g -> up n r g -> role r = Leader ->
  (forall r' g', still_leader n g r' g' -> Q tt r' g') ->
  wp n advance_commit Q r g.
Proof.
  intros Hn HR U Hr HQ. pose proof (inv_reach _ _ HR) as I. unfold advance_commit. apply wp_bind, wp_get.
  rewrite (u_cfg _ _ _ U).
  destruct (sort_desc _ !! _) as [q|] eqn:Eq; [|apply wp_lift; [apply U|done]].
  assert (exists q', q = Z.of_nat q') as [q' ->].
  { apply list_elem_of_lookup_2 in Eq. rewrite sort_desc_perm in Eq.
    apply list_elem_of_fmap in Eq as (m & -> & Hm). rewrite (u_match _ _ _ U Hr) by done. by eexists. }
  destruct (_ && _) eqn:E; [|by apply wp_ret, HQ]. apply andb_true_iff in E as [E1 E2]. breflect.
  pose proof (quorum_matched n r g q' U Hr Eq) as HM.
  rewrite (up_term_at n r g U I), (u_term _ _ _ U) in E2. rewrite (u_commit _ _ _ U) in E1.
  assert (Hra : a_role (node g n) = Leader) by (by rewrite <- (u_role _ _ _ U)).
  destruct (i_lead_term _ _ I _ _ _ (i_leader _ _ I n Hra)) as [[Hpos _] _].
  destruct (decide (a_base (node g n) <= q')%nat); [|lia].
  assert (Hlen : (q' <= length (a_log (node g n)))%nat).
  { apply tat_has in E2; [|lia]. apply has_le in E2. lia. }
  set (g1 := set_node n ((node g n) <| a_commit := q' |>) g).
  assert (Hs : nsteps n g g1).
  { apply nsteps_one; [apply st_commit; try done; lia| |done]. intros. by apply node_set_ne. }
  assert (Hn1 : node g1 n = (node g n) <| a_commit := q' |>) by apply node_set.
  eapply wp_steps; [exact Hs|]. apply wp_modify, HQ. split_and!; [done| |done].
  nrm. destruct U. split; rewrite ?Hn1; cbn; done.
Qed.

Lemma wp_append_reply n from t success mi rr ai Q r g :
  n ∈ voters -> areach voters g -> up n r g -> from ∈ voters ->
  env_ok (sent g) (MkEnvelope from n (AppendEntriesReply t success mi rr ai)) ->
  (forall r' g', nsteps n g g' -> up n r' g' -> Q tt r' g') ->
  wp n (step_append_reply draw_fuel from t success mi rr ai) Q r g.
Proof.
  intros Hn HR U Hf Henv HQ. unfold step_append_reply. cbn in Henv.
  apply wp_bind, wp_modify. nrm. match goal with |- wp _ _ _ ?r1 _ => set (r0 := r1) end.
  assert (U0 : up n r0 g) by (by destruct U). clearbody r0. clear U.
  apply wp_bind, wp_get. destruct (Z.ltb_spec (term r0) t) as [Hlt|Hge].
  { apply wp_become_follower; [done|done|lia|]. auto. }
  destruct (negb (is_leader r0) || negb (t =? term r0)) eqn:E; [by apply wp_ret, HQ|].
  apply orb_false_iff in E as [Hr Ht]. breflect. unfold is_leader in Hr. apply bool_decide_eq_true_1 in Hr.
  subst t. assert (Hend : forall r' g', still_leader n g r' g' -> Q tt r' g') by (intros r' g' (? & ? & _); auto).
  destruct success.
  - destruct (Henv eq_refl) as (k & -> & Hack). apply wp_bind, wp_lift; [apply U0|]. intros nxt _.
    apply wp_bind, wp_modify. cbn beta.
    set (a := node g n). rewrite (u_match _ _ _ U0 Hr) by done. fold a.
    set (r1 := update _ _ _).
    assert (H1 : exists g1, still_leader n g r1 g1).
    { destruct (Z.ltb_spec (Z.of_nat (a_match a from)) (Z.of_nat k)) as [Hlt|Hle].
      - set (g1 := set_node n (a <| a_match := <[from := k]> (a_match a) |>) g).
        assert (Hn1 : node g1 n = a <| a_match := <[from := k]> (a_match a) |>) by apply node_set.
        exists g1. split_and!; [|nrm|done].
        + apply nsteps_one; [apply st_match; try done| |done].
          * by rewrite <- (u_role _ _ _ U0).
          * by rewrite <- (u_term _ _ _ U0).
          * intros. by apply node_set_ne.
        + destruct U0. split; rewrite ?Hn1; cbn; try done. intros _ m Hm. destruct (decide (m = from)) as [->|].
          * rewrite lookup_insert_eq, fn_lookup_insert. done.
          * rewrite lookup_insert_ne, fn_lookup_insert_ne by done. by apply u_match0.
      - exists g. split_and!; [done|by destruct U0|done]. }
    destruct H1 as (g1 & Hs1 & U1 & Hr1). clearbody r1. eapply wp_steps; [exact Hs1|].
    pose proof (nsteps_reach _ _ _ Hs1 HR) as R1.
    apply wp_bind, wp_advance_commit; try done. intros r2 g2 (Hs2 & U2 & Hr2).
    apply wp_bind.
    apply (wp_mono n _ (fun _ r' g' => up n r' g' /\ role r' = Leader /\ g' = g2)).
    { case_if; [|by apply wp_ret]. apply wp_modify. destruct (ack_reads _ _ _ _) as [ps done_].
      split_and!; [nrm; by destruct U2|done|done]. }
    intros [] r3 g3 (U3 & Hr3 & ->). apply wp_bind, wp_get. case_if.
    + apply wp_send_append; [done|by eapply nsteps_reach|done|done|]. intros r4 g4 (Hs4 & U4 & Hr4).
      apply HQ; [|done]. do 2 (etransitivity; [done|]). done.
    + apply wp_ret, HQ; [by etransitivity|done].
  - apply wp_bind, wp_lift; [apply U0|]. intros k _. apply wp_bind, wp_modify. nrm.
    apply wp_send_append; [done|done| |done|done]. by destruct U0.
Qed.

Lemma wp_step n env Q r g :
  n ∈ voters -> areach voters g -> up n r g -> env_ok (sent g) env ->
  (forall r' g', nsteps n g g' -> up n r' g' -> Q tt r' g') ->
  wp n (step draw_fuel env) Q r g.
Proof.
  intros Hn HR U Henv HQ. unfold step. apply wp_bind, wp_get. rewrite (u_me _ _ _ U), (u_cfg _ _ _ U).
  destruct env as [from to m]. cbn [env_from env_to env_msg].
  case_bool_decide as Hto; cbn [negb orb]; [|by apply wp_ret, HQ]. subst to.
  case_bool_decide as Hfrom; cbn [negb orb]; [|by apply wp_ret, HQ].
  destruct m.
  - by apply wp_request_vote.
  - by apply wp_vote_reply.
  - by apply wp_step_append.
  - by apply wp_append_reply.
Qed.

Lemma wp_tick n Q r g :
  n ∈ voters -> areach voters g -> up n r g ->
  (forall r' g', nsteps n g g' -> up n r' g' -> Q tt r' g') ->
  wp n (tick draw_fuel) Q r g.
Proof.
  intros Hn HR U HQ. unfold tick. apply wp_bind, wp_get.
  assert (Hel : wp n (e ← lift (uadd 32 (election_elapsed r) 1);
      modify (fun r => r <| election_elapsed := e |>) ;;
      if election_timeout r <=? e then become_candidate draw_fuel else mret tt) Q r g).
  { apply wp_bind, wp_lift; [apply U|]. intros e _. apply wp_bind, wp_modify. nrm.
    case_if; [apply wp_become_candidate; try done; by destruct U|]. apply wp_ret, HQ; [done|by destruct U]. }
  destruct (role r) eqn:Hr; [exact Hel|exact Hel|].
  apply wp_bind, wp_lift; [apply U|]. intros h _. apply wp_bind, wp_modify. nrm.
  assert (U1 : up n (r <| heartbeat_elapsed := h |>) g) by (nrm; by destruct U).
  case_if; [|by apply wp_ret, HQ].
  apply wp_broadcast; [done|done|exact U1|done|]. intros r' g' (? & ? & _). by apply HQ.
Qed.

Lemma wp_read_barrier n Q r g :
  n ∈ voters -> areach voters g -> up n r g ->
  (forall i r' g', nsteps n g g' -> up n r' g' -> Q i r' g') ->
  wp n read_barrier Q r g.
Proof.
  intros Hn HR U HQ. unfold read_barrier. apply wp_bind, wp_get. unfold is_leader.
  case_bool_decide as Hr; cbn [negb]; [|apply wp_fail, U].
  case_if; [apply wp_fail, U|]. apply wp_bind, wp_lift; [apply U|]. intros round _.
  apply wp_bind, wp_modify. nrm. apply wp_bind, wp_broadcast; [done|done|by destruct U|done|].
  intros r' g' (? & ? & _). by apply wp_ret, HQ.
Qed.

(** ** Compaction *)
Lemma wp_compact n up_to Q r g :
  n ∈ voters -> areach voters g -> up n r g ->
  (forall i r' g', nsteps n g g' -> up n r' g' -> Q i r' g') ->
  wp n (compact up_to) Q r g.
Proof.
  intros Hn HR U HQ. pose proof (inv_reach _ _ HR) as I. unfold compact. apply wp_bind, wp_get.
  set (target := Z.min (Z.min up_to (compaction_horizon r)) (last_index r)).
  destruct (Z.leb_spec target (snapshot_index r)) as [Hle|Hgt]; [by apply wp_ret, HQ|].
  assert (Hc : target <= commit_index r) by (unfold target, compaction_horizon; lia).
  assert (Hl : target <= last_index r) by (unfold target; lia).
  rewrite (u_base _ _ _ U) in Hgt. rewrite (u_commit _ _ _ U) in Hc. rewrite (up_last_index n r g U I) in Hl.
  set (a := node g n) in *. clearbody target.
  destruct (Z_of_nat_complete target) as [q ->]; [lia|]. rewrite (up_term_at n r g U I). fold a. rewrite decide_True by lia.
  destruct (tat (a_log a) q =? 0); [by apply wp_ret, HQ|].
  set (g1 := set_node n (a <| a_base := q |>) g).
  assert (Hs : nsteps n g g1).
  { apply nsteps_one; [apply st_compact; [done|fold a; lia]| |done]. intros. by apply node_set_ne. }
  assert (Hn1 : node g1 n = a <| a_base := q |>) by apply node_set.
  assert (Hdrop : drop (q - a_base a) (drop (a_base a) (a_log a)) = drop q (a_log a))
    by (rewrite drop_drop; f_equal; lia).
  assert (Hd : forall s', load s' = Ok (p_compact (Z.of_nat q) (tat (a_log a) q)
      (MkPersistent (term r) (voted_for r) (log r) (snapshot_index r) (snapshot_term r))) -> disk s' (node g1 n)).
  { intros s' Hls. rewrite Hn1. split; cbn; [lia|]. rewrite Hls. unfold p_compact.
    cbn [update p_term p_voted_for p_entries p_snapshot_index p_snapshot_term].
    destruct U. rewrite u_term0, u_vote0, u_log0. fold a. do 2 f_equal.
    replace q with (a_base a + (q - a_base a))%nat at 1 by lia.
    rewrite retain_above_drop by (apply indexed_drop, wf_indexed, I). done. }
  apply wp_bind. eapply wp_storage; [|by eapply up_load| | |].
  { apply compact_law. cbn. rewrite (u_base _ _ _ U). exact Hgt. }
  - intros s' Hls. eapply wp_steps; [exact Hs|]. apply wp_bind, wp_lift; [by apply Hd|].
    intros nxt Hnxt. apply uadd_ok_inv in Hnxt as [-> _].
    replace (Z.of_nat q + 1) with (Z.of_nat (Datatypes.S q)) by lia.
    rewrite (up_log_pos n r g U). fold a. rewrite decide_True by lia. cbn [default].
    apply wp_bind, wp_modify. nrm. apply wp_ret, HQ; [done|]. destruct U.
    split; first [by apply Hd | rewrite ?Hn1; cbn; try done].
    rewrite u_log0. fold a. rewrite <- Hdrop. generalize (drop (a_base a) (a_log a)). intros l.
    destruct (decide (q - a_base a <= length l)%nat).
    + by rewrite Nat.min_l by lia.
    + rewrite Nat.min_r by lia. rewrite !drop_ge by lia. done.
  - intros s' Hls. exists g. split; [done|]. destruct (u_disk _ _ _ U) as [? Hl0]. split; [done|].
    rewrite Hls, <- Hl0. symmetry. by eapply up_load.
  - intros s' Hls. exists g1. split; [done|]. by apply Hd.
Qed.

(** ** Start and drain *)
Lemma up_new n s seed r g :
  n ∈ voters -> disk s (node g n) -> Raft_new draw_fuel n c0 s seed = Ok r ->
  exists g', nsteps n g g' /\ up n r g'.
Proof.
  intros Hn Hd. unfold Raft_new. rewrite bool_decide_eq_true_2 by done. cbn [negb].
  destruct Hd as [Hb Hl]. rewrite Hl. cbn [mbind outcome_bind].
  match goal with |- context [reset_election_timeout _ ?x] => set (r0 := x) end. cbn beta.
  set (a := node g n) in *.
  set (g1 := set_node n (reset_node (a_term a) 0 a) g).
  assert (Hs : nsteps n g g1) by (apply reset_steps; [done|apply Z.le_refl|apply Nat.le_0_l]).
  assert (Hn1 : node g1 n = reset_node (a_term a) 0 a) by apply node_set.
  assert (Hd1 : disk (storage r0) (node g1 n)).
  { rewrite Hn1. split; cbn; [done|]. rewrite Z.eqb_refl. done. }
  assert (W : wp n (reset_election_timeout draw_fuel) (fun _ r' g' => up n r' g') r0 g1).
  { apply wp_reset; [done|]. intros x y. nrm.
    split; first [exact Hd1 | rewrite ?Hn1; cbn; try done]. by rewrite Z.eqb_refl. }
  unfold wp in W. destruct (reset_election_timeout draw_fuel r0) as [[[]|e|] r']; [|done..].
  intros [= <-]. destruct W as (g' & Hs' & U'). exists g'. split; [by etransitivity|done].
Qed.

Lemma deliver_state fuel (r : Raft S) : exists x, snd (deliver fuel r) = r <| last_delivered := x |>.
Proof.
  revert r; induction fuel as [|f IH]; intros r; cbn [deliver]; [by exists (last_delivered r); destruct r|].
  destruct (_ <? _); [|by exists (last_delivered r); destruct r].
  destruct (entry _ r); [|by exists (last_delivered r); destruct r].
  destruct (IH (r <| last_delivered := last_delivered r + 1 |>)) as [x Hx].
  destruct (deliver f _) as [out r']. cbn in Hx |- *. exists x. by rewrite Hx.
Qed.

Lemma up_take_committed n r g : up n r g -> up n (snd (take_committed r)) g.
Proof. intros U. unfold take_committed. destruct (deliver_state (Z.to_nat (commit_index r - last_delivered r)) r) as [x ->]. nrm. by destruct U. Qed.
Lemma up_set_applied n r g x : up n r g -> up n (set_applied x r) g.
Proof. intros U. unfold set_applied. nrm. by destruct U. Qed.
Lemma up_take_ready n r g : up n r g -> up n (snd (take_ready_reads r)) g.
Proof. intros U. unfold take_ready_reads. cbn [snd]. nrm. by destruct U. Qed.
Lemma up_take_outbox n r g : up n r g -> up n (snd (take_outbox r)) g.
Proof. intros U. unfold take_outbox. cbn [snd]. nrm. destruct U. by split. Qed.
End refine.
