(* ===== verification/RaftFrame.v ===== *)
(** * What the Raft node does not change

    The application's progress as the node sees it: the methods that run the
    protocol leave the delivery cursor and the applied frontier alone, move
    the compaction base only in [compact], send the node's own frontier in
    their replies and believe about other frontiers only what a reply said.
    Proved with an invariance rule per primitive of the monad, so that each
    method's proof is its syntax. *)

From stdpp Require Import gmap.
From S2P Require Import Prelude Errors Rng RaftTypes RaftStorage Raft.

Section frame.
Context {S : Type} {SO : RaftStorage S} {SL : RaftStorageLaws S} (draw_fuel : nat).

(** A reply carries at most the frontier [F] of its sender. *)
Definition report_ok (F : NodeId -> Z) (e : Envelope) : Prop :=
  match env_msg e with
  | AppendEntriesReply _ _ _ _ ai => ai <= F (env_from e)
  | _ => True
  end.

Record framed (c : Config) (n : NodeId) (A D : Z) (F : NodeId -> Z) (r : Raft S) : Prop := {
  f_me : me r = n;
  f_cfg : cfg r = c;
  f_applied : applied r = A;
  f_delivered : last_delivered r = D;
  f_peer m x : peer_applied r !! m = Some x -> x <= F m;
  f_out : Forall (report_ok F) (outbox r);
  f_base : exists p, load (storage r) = Ok p /\ forall m, m ∈ members c -> p_snapshot_index p <= F m;
}.

Section methods.
Context (c : Config) (n : NodeId) (A D : Z) (F : NodeId -> Z) (HA : A <= F n) (HF : forall m, 0 <= F m).
Local Abbreviation P := (framed c n A D F).

Definition keeps {X} (m : M S X) : Prop := forall r, P r -> P (snd (m r)).

Lemma keeps_ret {X} (x : X) : keeps (mret x).
Proof. by intros r H. Qed.
Lemma keeps_bind {X Y} (m : M S X) (k : X -> M S Y) : keeps m -> (forall x, keeps (k x)) -> keeps (m ≫= k).
Proof.
  intros Hm Hk r H. unfold mbind, M_bind. specialize (Hm r H). destruct (m r) as [[x|e|] r']; [|done..].
  by apply Hk.
Qed.
Lemma keeps_get {X} (k : Raft S -> M S X) : (forall r, P r -> keeps (k r)) -> keeps (get ≫= k).
Proof. intros Hk r H. by apply (Hk r). Qed.
Lemma keeps_lift {X} (o : CoreResult X) : keeps (lift o).
Proof. by intros r H. Qed.
Lemma keeps_gets {X} (f : Raft S -> X) : keeps (gets f).
Proof. by intros r H. Qed.
Lemma keeps_fail {X} e : keeps (fail (A := X) e).
Proof. by intros r H. Qed.
Lemma keeps_modify f : (forall r, P r -> P (f r)) -> keeps (modify f).
Proof. intros Hf r H. by apply Hf. Qed.
Lemma keeps_for {X} (f : X -> M S unit) l : (forall x, keeps (f x)) -> keeps (for_each f l).
Proof. intros Hf. induction l; cbn [for_each]; [apply keeps_ret|by apply keeps_bind]. Qed.
Lemma keeps_if {X} (b : bool) (m m' : M S X) : keeps m -> keeps m' -> keeps (if b then m else m').
Proof. by destruct b. Qed.

(** A write that obeys its law and does not move the base. *)
Lemma keeps_storage op effect :
  (forall s p, write_law op effect s p) ->
  (forall p, p_snapshot_index (effect p) = p_snapshot_index p) -> keeps (storage_op op).
Proof.
  intros Hw He r [? ? ? ? ? ? (p & Hl & Hp)]. unfold storage_op. specialize (Hw _ _ Hl).
  assert (Hp' : forall m, m ∈ members c -> p_snapshot_index (effect p) <= F m) by (by rewrite He).
  destruct (op (storage r)) as [[[]|e|] s']; cbn; split; try done; cbn; [|destruct Hw..]; eauto.
Qed.
Lemma keeps_save t v : keeps (storage_op (save_term_vote t v)).
Proof. eapply keeps_storage; [intros; apply save_law|done]. Qed.
Lemma keeps_append es : keeps (storage_op (append es)).
Proof. eapply keeps_storage; [intros; apply append_law|done]. Qed.
Lemma keeps_truncate i : keeps (storage_op (truncate_from i)).
Proof. eapply keeps_storage; [intros; apply truncate_law|done]. Qed.

Lemma keeps_rng_below k : keeps (rng_below draw_fuel k).
Proof.
  intros r H. unfold rng_below. destruct (below _ _ _) as [[[v x]|]| |]; [|done..]. by destruct H.
Qed.

Lemma keeps_send to m : report_ok F (MkEnvelope n to m) -> keeps (send to m).
Proof.
  intros Hm. apply keeps_modify. intros r []. split; try done. cbn. apply Forall_app. split; [done|].
  constructor; [|done]. by subst.
Qed.

(** The rules, by the shape of the method. *)
Ltac keep_step :=
  match goal with
  | |- keeps (mret _) => apply keeps_ret
  | |- keeps (get ≫= _) => apply keeps_get; let r := fresh "r" in let H := fresh "Hr" in intros r H
  | |- keeps (_ ≫= _) => apply keeps_bind; [|intros ?]
  | |- keeps (lift _) => apply keeps_lift
  | |- keeps (gets _) => apply keeps_gets
  | |- keeps (fail _) => apply keeps_fail
  | |- keeps (storage_op (save_term_vote _ _)) => apply keeps_save
  | |- keeps (storage_op (append _)) => apply keeps_append
  | |- keeps (storage_op (truncate_from _)) => apply keeps_truncate
  | |- keeps (rng_below _ _) => apply keeps_rng_below
  | |- keeps (send _ _) => apply keeps_send; cbn; try done
  | |- keeps (if _ then _ else _) => apply keeps_if
  | |- keeps (for_each _ _) => apply keeps_for; intros ?
  | |- keeps (modify _) => apply keeps_modify; let H := fresh in intros ? H; try (by destruct H)
  | |- keeps (match ?x with _ => _ end) => destruct x
  end.
Ltac keep := repeat (keep_step || (progress cbn beta zeta)).

Lemma keeps_reset : keeps (reset_election_timeout draw_fuel).
Proof. unfold reset_election_timeout. keep. Qed.
Lemma keeps_become_follower t l : keeps (become_follower draw_fuel t l).
Proof. unfold become_follower, persist_term_vote. keep. apply keeps_reset. Qed.
Lemma keeps_send_append to rd : keeps (send_append to rd).
Proof. unfold send_append. keep. Qed.
Lemma keeps_broadcast rd : keeps (broadcast_append rd).
Proof. unfold broadcast_append. keep. apply keeps_send_append. Qed.
Lemma keeps_append_local d : keeps (append_local d).
Proof. unfold append_local. keep. Qed.
Lemma keeps_become_leader : keeps become_leader.
Proof. unfold become_leader. keep; [apply keeps_append_local|apply keeps_broadcast]. Qed.
Lemma keeps_become_candidate : keeps (become_candidate draw_fuel).
Proof. unfold become_candidate, persist_term_vote. keep; [apply keeps_reset|apply keeps_become_leader]. Qed.
Lemma keeps_propose d : keeps (propose d).
Proof. unfold propose. keep; [apply keeps_append_local|apply keeps_broadcast]. Qed.
Lemma keeps_read_barrier : keeps read_barrier.
Proof. unfold read_barrier. keep. apply keeps_broadcast. Qed.
Lemma keeps_tick : keeps (tick draw_fuel).
Proof. unfold tick. keep; first [apply keeps_become_candidate|apply keeps_broadcast]. Qed.
Lemma keeps_advance : keeps advance_commit.
Proof. unfold advance_commit. keep. Qed.
Lemma keeps_find_new es i : keeps (find_new es i).
Proof.
  revert i; induction es as [|e es IH]; intros i; cbn [find_new]; keep; try apply IH.
  destruct (log_pos _ _); by destruct H.
Qed.

Lemma keeps_accept from prev es lc rd : keeps (accept_entries from prev es lc rd).
Proof.
  unfold accept_entries. keep; [apply keeps_find_new| |by rewrite (f_applied _ _ _ _ _ _ Hr)].
  destruct (_ <? _); by destruct H.
Qed.

Lemma keeps_step_append from t prev pt es lc rd : keeps (step_append draw_fuel from t prev pt es lc rd).
Proof.
  unfold step_append.
  keep; try first [apply keeps_become_follower|apply keeps_reset|apply keeps_accept];
    rewrite (f_applied _ _ _ _ _ _ ltac:(eassumption)); done.
Qed.

Lemma keeps_append_reply from t su mi rd ai :
  ai <= F from -> keeps (step_append_reply draw_fuel from t su mi rd ai).
Proof.
  intros Hai. unfold step_append_reply.
  keep; try first [apply keeps_become_follower|apply keeps_send_append|apply keeps_advance].
  - destruct H. split; try done. cbn. intros m x. destruct (decide (m = from)) as [->|].
    + rewrite lookup_insert_eq. intros [= <-]. specialize (HF from).
      destruct (peer_applied r !! from) eqn:E; cbn; [apply f_peer0 in E|]; lia.
    + rewrite lookup_insert_ne by done. apply f_peer0.
  - destruct (_ <? _); by destruct H.
Qed.

Lemma keeps_step env : report_ok F env -> keeps (step draw_fuel env).
Proof.
  unfold report_ok. intros He. unfold step. keep; try done.
  - unfold step_request_vote, persist_term_vote. keep; first [apply keeps_become_follower|apply keeps_reset].
  - unfold step_vote_reply. keep; first [apply keeps_become_follower|apply keeps_become_leader].
  - apply keeps_step_append.
  - by apply keeps_append_reply.
Qed.

(** ** Compaction *)
Lemma foldl_min_le (peers : NodeId -> Z) l x :
  let h := foldl (fun h m => if bool_decide (m = n) then h else Z.min h (peers m)) x l in
  h <= x /\ forall m, m ∈ l -> m <> n -> h <= peers m.
Proof.
  revert x. induction l as [|k l IH]; intros x; cbn; [split; [done|set_solver]|].
  destruct (IH (if bool_decide (k = n) then x else Z.min x (peers k))) as [H1 H2].
  split.
  - etransitivity; [exact H1|]. case_bool_decide; lia.
  - intros m [->|Hm]%elem_of_cons Hne; [|by apply H2]. etransitivity; [exact H1|].
    rewrite bool_decide_eq_false_2 by done. lia.
Qed.

(** The horizon is below every frontier. *)
Lemma horizon_le r : P r -> compaction_horizon r <= A /\ forall m, m ∈ members c -> compaction_horizon r <= F m.
Proof.
  intros []. unfold compaction_horizon. rewrite f_cfg0, f_me0, f_applied0.
  destruct (foldl_min_le (fun m => default 0 (peer_applied r !! m)) (members c) A) as [H1 H2].
  split; [lia|]. intros m Hm. destruct (decide (m = n)) as [->|Hne]; [lia|].
  specialize (H2 m Hm Hne). specialize (HF m).
  assert (default 0 (peer_applied r !! m) <= F m)
    by (destruct (peer_applied r !! m) eqn:E; cbn; [by apply f_peer0|done]). lia.
Qed.

Lemma keeps_compact up_to r :
  A <= D -> (forall p, load (storage r) = Ok p -> p_snapshot_index p = snapshot_index r) ->
  P r -> P (snd (compact up_to r)).
Proof.
  intros HAD Hsnap Hr. destruct (horizon_le r Hr) as [HhA HhF]. assert (Hr' := Hr). destruct Hr' as [? ? ? ? ? ? (p & Hl & Hp)].
  unfold compact, mbind, M_bind, get. cbv beta iota zeta.
  set (target := Z.min (Z.min up_to (compaction_horizon r)) (last_index r)).
  assert (Ht : target <= compaction_horizon r) by (unfold target; lia). clearbody target.
  destruct (Z.leb_spec target (snapshot_index r)) as [|Hgt]; [done|].
  destruct (_ =? 0); [done|]. unfold storage_op at 1. rewrite <- (Hsnap p Hl) in Hgt.
  pose proof (compact_law target (term_at target r) (storage r) p Hgt Hl) as Hw.
  assert (Hc : forall s', load s' = Ok p \/ load s' = Ok (p_compact target (term_at target r) p) ->
      exists p', load s' = Ok p' /\ forall m, m ∈ members c -> p_snapshot_index p' <= F m).
  { intros s' [Hs'|Hs']; eexists; (split; [exact Hs'|done || cbn]). intros m Hm. specialize (HhF m Hm). lia. }
  destruct (compact_to _ _ (storage r)) as [[[]|e|] s']; [|split; cbn; auto; fail..].
  unfold lift at 1. destruct (uadd 64 target 1); [|split; cbn; auto; fail..].
  split; cbn; auto; lia.
Qed.
End methods.
End frame.
