(* ===== verification/RaftCluster.v ===== *)
(** * A cluster of Raft nodes

    The nodes of a cluster, each up or down, and a network that remembers
    every message ever sent: a message may be delivered late, repeatedly, out
    of order or never.  A node fails by losing its volatile state: it crashes,
    or a method of it fails, and only its storage survives.  The state machine
    of a node is the list of the entries it applied, durable as in the
    repository's simulator (src/crates/carolina-consensus/src/sim.rs).

    Every run of the cluster is matched by the protocol of [RaftSpec.v], and
    the safety properties of Raft follow for the real nodes. *)

From stdpp Require Import gmap functions relations.
From S2P Require Import Prelude Errors Rng RaftTypes RaftStorage Raft RaftSpec RaftSafety RaftRefine.
From S2P Require Import RaftFrame.

Record Node (S : Type) : Type := MkNode {
  nd_raft : option (Raft S);
  nd_storage : option S;
  nd_applied : list Entry;
}.
Arguments MkNode {S}. Arguments nd_raft {S}. Arguments nd_storage {S}. Arguments nd_applied {S}.

Record Net (S : Type) : Type := MkNet {
  cl_nodes : list (Node S);
  cl_sent : list Envelope;
}.
Arguments MkNet {S}. Arguments cl_nodes {S}. Arguments cl_sent {S}.

Inductive event : Type :=
| EvTick (i : nat)
| EvDeliver (i k : nat)
| EvPropose (i : nat) (data : bytes)
| EvRead (i : nat)
| EvCompact (i : nat) (up_to : Z)
| EvDrain (i : nat)
| EvApply (i : nat)
| EvTakeReads (i : nat)
| EvCrash (i : nat)
| EvRestart (i : nat) (seed : Z).

Section cluster.
Context {S : Type} {SO : RaftStorage S} (draw_fuel : nat) (c0 : Config) (s0 : S).

(** ** Nodes *)

(** A method call on a live node; if it does not return [Ok] the node stops. *)
Definition call {A} (m : M S A) (nd : Node S) : Node S :=
  match nd_raft nd with
  | None => nd
  | Some r =>
      match m r with
      | (Ok _, r') => MkNode (Some r') (nd_storage nd) (nd_applied nd)
      | (_, r') => MkNode None (Some (into_storage r')) (nd_applied nd)
      end
  end.

(** A request the node refuses leaves it running. *)
Definition propose_refused (data : bytes) (r : Raft S) : bool :=
  negb (is_leader r) || match data with [] => true | _ => false end.
Definition read_refused (r : Raft S) : bool :=
  negb (is_leader r) || negb (term_at (commit_index r) r =? term r).
Definition request {A} (refused : Raft S -> bool) (m : M S A) (nd : Node S) : Node S :=
  match nd_raft nd with
  | None => nd
  | Some r => if refused r then nd else call m nd
  end.

Definition crash (nd : Node S) : Node S :=
  match nd_raft nd with
  | Some r => MkNode None (Some (into_storage r)) (nd_applied nd)
  | None => nd
  end.

Definition restart (me : NodeId) (seed : Z) (nd : Node S) : CoreResult (Node S) :=
  match nd_raft nd with
  | Some _ => Ok nd
  | None =>
      r ← Raft_new draw_fuel me c0 (default s0 (nd_storage nd)) seed;
      Ok (MkNode (Some (set_applied (Z.of_nat (length (nd_applied nd))) r)) None (nd_applied nd))
  end.

(** One node of [apply_committed]. *)
Definition apply_node (nd : Node S) : Node S :=
  match nd_raft nd with
  | None => nd
  | Some r =>
      let '(out, r') := take_committed r in
      let app := nd_applied nd ++ out in
      MkNode (Some (match last app with Some e => set_applied (e_index e) r' | None => r' end))
        (nd_storage nd) app
  end.

(** One node of [drain_outboxes]. *)
Definition drain_node (nd : Node S) : list Envelope * Node S :=
  match nd_raft nd with
  | None => ([], nd)
  | Some r => let '(out, r') := take_outbox r in (out, MkNode (Some r') (nd_storage nd) (nd_applied nd))
  end.

Definition take_reads (nd : Node S) : Node S :=
  match nd_raft nd with
  | None => nd
  | Some r => MkNode (Some (snd (take_ready_reads r))) (nd_storage nd) (nd_applied nd)
  end.

(** ** Runs *)
Definition on_node (f : Node S -> Node S) (i : nat) (c : Net S) : Net S :=
  MkNet (alter f i (cl_nodes c)) (cl_sent c).

Definition do_event (e : event) (c : Net S) : Net S :=
  match e with
  | EvTick i => on_node (call (tick draw_fuel)) i c
  | EvDeliver i k =>
      match cl_sent c !! k with
      | Some env => on_node (call (step draw_fuel env)) i c
      | None => c
      end
  | EvPropose i d => on_node (request (propose_refused d) (propose d)) i c
  | EvRead i => on_node (request read_refused read_barrier) i c
  | EvCompact i up_to => on_node (call (compact up_to)) i c
  | EvDrain i =>
      match cl_nodes c !! i with
      | Some nd =>
          let '(out, nd') := drain_node nd in
          MkNet (<[i := nd']> (cl_nodes c)) (cl_sent c ++ out)
      | None => c
      end
  | EvApply i => on_node apply_node i c
  | EvTakeReads i => on_node take_reads i c
  | EvCrash i => on_node crash i c
  | EvRestart i seed =>
      match members c0 !! i with
      | Some me => on_node (fun nd => match restart me seed nd with Ok nd' => nd' | _ => nd end) i c
      | None => c
      end
  end.

Definition exec (es : list event) (c : Net S) : Net S := foldl (flip do_event) c es.

(** All nodes down, with empty storage, and nothing sent. *)
Definition net_init : Net S := MkNet (map (fun _ => MkNode None (Some s0) []) (members c0)) [].

Lemma exec_app es es' c : exec (es ++ es') c = exec es' (exec es c).
Proof. apply foldl_app. Qed.

(** A refused request fails and changes nothing. *)
Lemma refused_unchanged d (r : Raft S) :
  (propose_refused d r = true -> exists e, propose d r = (Err e, r)) /\
  (read_refused r = true -> exists e, read_barrier r = (Err e, r)).
Proof.
  unfold propose_refused, read_refused, propose, read_barrier, get, mbind, M_bind.
  destruct (is_leader r); cbn [negb orb]; [|split; intros _; by eexists].
  split; [destruct d; [by eexists|done]|]. destruct (_ =? _); [done|]. by eexists.
Qed.
End cluster.

(** ** The history only grows *)
Section history.
Context (voters : list NodeId).
Local Abbreviation asteps := (rtc (astep voters)).

Lemma asteps_reach g g' : asteps g g' -> areach voters g -> areach voters g'.
Proof. induction 1; [done|]. intros. apply IHrtc. by econstructor. Qed.

Lemma asteps_committed g g' T L k :
  areach voters g -> asteps g g' -> committed voters g T L k -> committed voters g' T L k.
Proof.
  intros HR Hs. induction Hs as [|x y z Hxy _ IH]; [done|]. intros Hc. apply IH; [by econstructor|].
  eapply committed_grow; [|reflexivity|exact Hc]. pose proof (inv_reach _ _ HR).
  by eapply grow_change, step_change.
Qed.

Lemma asteps_llog g g' t c L :
  areach voters g -> asteps g g' -> llog g t = Some (c, L) -> exists L', llog g' t = Some (c, L').
Proof.
  intros HR Hs. revert L. induction Hs as [|x y z Hxy _ IH]; intros L HL; [by eexists|].
  pose proof (inv_reach _ _ HR) as I.
  destruct (gr_llog _ _ (grow_change _ _ _ I (step_change _ _ _ I Hxy)) _ _ _ HL) as (L' & HL' & _).
  eapply IH; [by econstructor|exact HL'].
Qed.

(** What a node knows to be committed, it keeps. *)
Lemma asteps_kept g g' n k :
  areach voters g -> asteps g g' ->
  committed voters g (a_term (nodes g n)) (a_log (nodes g n)) k ->
  committed voters g' (a_term (nodes g' n)) (a_log (nodes g' n)) k /\
  take k (a_log (nodes g' n)) = take k (a_log (nodes g n)).
Proof.
  intros HR Hs. induction Hs as [|x y z Hxy _ IH]; [done|]. intros Hc.
  pose proof (inv_reach _ _ HR) as I. pose proof (step_change _ _ _ I Hxy) as C.
  pose proof (grow_change _ _ _ I C) as G. pose proof (kept_change _ _ _ n I C k Hc) as K.
  destruct IH as [H1 H2]; [by econstructor| |split; [done|congruence]].
  eapply committed_take; [symmetry; exact K|].
  eapply committed_grow; [exact G|apply (gr_term _ _ G)|exact Hc].
Qed.
End history.

(** ** The simulation *)
Section simulation.
Context {S : Type} {SO : RaftStorage S} {SL : RaftStorageLaws S} (draw_fuel : nat).
Context (c0 : Config) (Hnodup : NoDup (members c0)) (s0 : S) (Hs0 : load s0 = Ok Persistent_default).

Local Abbreviation voters := (members c0).
Local Abbreviation node g n := (nodes g n).
Local Abbreviation zF F := (fun m => Z.of_nat (F m)).

(** A node against its abstract counterpart; [F] gives the number of entries
    each node has applied. *)
Record nrel (F : NodeId -> nat) (g : gstate) (n : NodeId) (nd : Node S) : Prop := {
  nr_len : F n = length (nd_applied nd);
  nr_app : nd_applied nd = take (F n) (a_log (node g n));
  nr_com : committed voters g (a_term (node g n)) (a_log (node g n)) (F n);
  nr_base m : m ∈ voters -> (a_base (node g n) <= F m)%nat;
  nr_state : match nd_raft nd with
    | Some r => up c0 n r g /\ framed c0 n (Z.of_nat (F n)) (Z.of_nat (F n)) (zF F) r
    | None => exists s, nd_storage nd = Some s /\ disk s (node g n)
    end;
}.

Record crel (c : Net S) (g : gstate) (F : NodeId -> nat) : Prop := {
  cr_reach : areach voters g;
  cr_nodes : Forall2 (nrel F g) voters (cl_nodes c);
  cr_sent : Forall (env_ok (sent g)) (cl_sent c);
  cr_reports : Forall (report_ok (zF F)) (cl_sent c);
}.

Lemma nsteps_asteps n g g' : rtc (nstep c0 n) g g' -> rtc (astep voters) g g'.
Proof. induction 1 as [|x y z [Hxy _] _ IH]; [done|]. by eapply rtc_l. Qed.

Lemma report_mono (F F' : NodeId -> nat) e :
  (forall m, F m <= F' m)%nat -> report_ok (zF F) e -> report_ok (zF F') e.
Proof. intros HF. unfold report_ok. destruct (env_msg e); try done. specialize (HF (env_from e)). lia. Qed.

Lemma framed_mono F F' n r A D :
  (forall m, F m <= F' m)%nat -> framed c0 n A D (zF F) r -> framed c0 n A D (zF F') r.
Proof.
  intros HF [? ? ? ? Hp ? (p & Hl & Hb)]. split; try done.
  - intros m x Hx%Hp. specialize (HF m). lia.
  - eapply Forall_impl; [done|]. intros e. by apply report_mono.
  - exists p. split; [done|]. intros m Hm. specialize (Hb m Hm). specialize (HF m). lia.
Qed.

(** A step of node [n] leaves the others related. *)
Lemma nrel_other F F' g g' n m nd :
  m <> n -> areach voters g -> rtc (nstep c0 n) g g' ->
  (forall m, F m <= F' m)%nat -> F' m = F m -> nrel F g m nd -> nrel F' g' m nd.
Proof.
  intros Hne HR Hs HF HFm []. pose proof (nsteps_other _ _ _ _ _ Hs Hne) as Hm. split; rewrite ?HFm, ?Hm; try done.
  - eapply asteps_committed; [done|by eapply nsteps_asteps|done].
  - intros k Hk. specialize (nr_base0 k Hk). specialize (HF k). lia.
  - destruct (nd_raft nd) as [r|]; [|done]. destruct nr_state0 as [U Fr].
    split; [eapply up_other; [done|done|done|by eapply nsteps_sent]|by eapply framed_mono].
Qed.

(** Node [i] changes. *)
Lemma crel_node c g F i n nd nd' g' F' :
  crel c g F -> voters !! i = Some n -> cl_nodes c !! i = Some nd ->
  rtc (nstep c0 n) g g' -> (forall m, F m <= F' m)%nat -> (forall m, m <> n -> F' m = F m) ->
  nrel F' g' n nd' -> crel (MkNet (<[i := nd']> (cl_nodes c)) (cl_sent c)) g' F'.
Proof.
  intros [HR Hn Hs Hrp] Hi Hnd Hst HF HFm Hr. split; cbn.
  - by eapply nsteps_reach.
  - apply Forall2_same_length_lookup. split.
    { rewrite length_insert. by eapply Forall2_length. }
    intros j m x Hj Hx. apply list_lookup_insert_Some in Hx as [(<- & <- & _)|[Hne Hx]]; [by simplify_eq|].
    assert (m <> n) by (intros ->; apply Hne; by eapply NoDup_lookup).
    eapply nrel_other; [done|done|done|done|by apply HFm|]. by eapply (Forall2_lookup_lr _ _ _ _ _ _ Hn).
  - eapply Forall_impl; [exact Hs|]. intros e He. eapply env_ok_mono; [..|exact He]; try done. by eapply nsteps_sent.
  - eapply Forall_impl; [exact Hrp|]. intros e. by apply report_mono.
Qed.

(** ** Method calls *)

(** What a call must satisfy to keep a node related. *)
Definition good {A} (m : M S A) (F : NodeId -> nat) (g : gstate) (n : NodeId) (r : Raft S) : Prop :=
  wp c0 n m (fun _ r' g' => up c0 n r' g') r g /\
  framed c0 n (Z.of_nat (F n)) (Z.of_nat (F n)) (zF F) (snd (m r)).

Lemma nrel_base F g n (s : S) :
  disk s (node g n) -> (exists p, load s = Ok p /\ forall m, m ∈ voters -> p_snapshot_index p <= zF F m) ->
  forall m, m ∈ voters -> (a_base (node g n) <= F m)%nat.
Proof. intros [_ Hl] (p & Hp & Hb) m Hm. rewrite Hl in Hp. injection Hp as <-. specialize (Hb m Hm). cbn in Hb. lia. Qed.

Lemma nrel_call {A} (m : M S A) F g n nd :
  areach voters g -> nrel F g n nd -> (forall r, nd_raft nd = Some r -> good m F g n r) ->
  exists g', rtc (nstep c0 n) g g' /\ nrel F g' n (call m nd).
Proof.
  intros HR R Hg. assert (R' := R). destruct R' as [Hl Ha Hc Hb Hst]. unfold call.
  destruct (nd_raft nd) as [r|] eqn:Er; [|by exists g]. destruct (Hg r eq_refl) as [W Fr].
  assert (K : forall g', rtc (nstep c0 n) g g' ->
      committed voters g' (a_term (node g' n)) (a_log (node g' n)) (F n) /\
      take (F n) (a_log (node g' n)) = take (F n) (a_log (node g n))).
  { intros g' Hs. eapply asteps_kept; [done|by eapply nsteps_asteps|done]. }
  unfold wp in W. destruct (m r) as [[a|e|] r']; destruct W as (g' & Hs & H); destruct (K g' Hs) as [K1 K2];
    exists g'; (split; [done|]); cbn in Fr.
  - split; cbn; [done|congruence|done| |done].
    eapply nrel_base; [apply (u_disk _ _ _ _ H)|apply (f_base _ _ _ _ _ _ Fr)].
  - split; cbn; [done|congruence|done| |by eexists]. eapply nrel_base; [exact H|apply (f_base _ _ _ _ _ _ Fr)].
  - split; cbn; [done|congruence|done| |by eexists]. eapply nrel_base; [exact H|apply (f_base _ _ _ _ _ _ Fr)].
Qed.

Section goods.
Context (F : NodeId -> nat) (g : gstate) (n : NodeId) (r : Raft S).
Context (Hn : n ∈ voters) (HR : areach voters g) (U : up c0 n r g)
  (Fr : framed c0 n (Z.of_nat (F n)) (Z.of_nat (F n)) (zF F) r).

Lemma good_tick : good (tick draw_fuel) F g n r.
Proof. split; [by apply wp_tick|]. by apply keeps_tick. Qed.
Lemma good_step env : env_ok (sent g) env -> report_ok (zF F) env -> good (step draw_fuel env) F g n r.
Proof. intros. split; [by apply wp_step|]. apply keeps_step; try done. intros m. lia. Qed.
Lemma good_propose d : good (propose d) F g n r.
Proof. split; [by apply wp_propose|]. by apply keeps_propose. Qed.
Lemma good_read : good read_barrier F g n r.
Proof. split; [by apply wp_read_barrier|]. by apply keeps_read_barrier. Qed.
Lemma good_compact up_to : good (compact up_to) F g n r.
Proof.
  split; [by apply wp_compact|]. apply keeps_compact; try done; [intros m; lia|].
  intros p Hp. pose proof (up_load _ _ _ _ U) as Hl. rewrite Hl in Hp. by injection Hp as <-.
Qed.
End goods.

(** ** Delivery to the state machine *)
Lemma deliver_spec n g fuel (r : Raft S) k :
  up c0 n r g -> inv voters g -> last_delivered r = Z.of_nat k -> (a_base (node g n) <= k)%nat ->
  (a_commit (node g n) <= length (a_log (node g n)))%nat ->
  deliver fuel r =
    let out := take (fuel `min` (a_commit (node g n) - k)) (drop k (a_log (node g n))) in
    (out, r <| last_delivered := Z.of_nat (k + length out) |>).
Proof.
  intros U I. revert r k U. induction fuel as [|f IH]; intros r k U Hd Hb Hc.
  { cbn. rewrite Nat.add_0_r, <- Hd. by destruct r. }
  cbn [deliver]. rewrite Hd, (u_commit _ _ _ _ U).
  destruct (Z.ltb_spec (Z.of_nat k) (Z.of_nat (a_commit (node g n)))) as [Hlt|Hge].
  2:{ replace (a_commit (node g n) - k)%nat with 0%nat by lia. rewrite Nat.min_0_r. cbn.
      rewrite Nat.add_0_r, <- Hd. by destruct r. }
  replace (Z.of_nat k + 1) with (Z.of_nat (Datatypes.S k)) by lia.
  rewrite (up_entry _ _ _ _ U I), decide_True by done.
  destruct (lookup_lt_is_Some_2 (a_log (node g n)) k ltac:(lia)) as [e He]. rewrite He.
  rewrite (IH _ (Datatypes.S k)); [|by destruct U|done|lia|done]. cbn zeta.
  rewrite (drop_S _ _ _ He).
  replace (Datatypes.S f `min` (a_commit (node g n) - k))%nat
    with (Datatypes.S (f `min` (a_commit (node g n) - Datatypes.S k))) by lia.
  cbn [firstn length]. f_equal. unfold update. cbn. do 2 f_equal. lia.
Qed.

Lemma set_applied_exact n g (r : Raft S) (k : nat) :
  up c0 n r g -> inv voters g -> last_delivered r <= Z.of_nat k -> applied r <= Z.of_nat k ->
  (a_base (node g n) <= k <= length (a_log (node g n)))%nat ->
  last_delivered (set_applied (Z.of_nat k) r) = Z.of_nat k /\ applied (set_applied (Z.of_nat k) r) = Z.of_nat k.
Proof.
  intros U I Hd Ha Hk. unfold set_applied. cbn. rewrite (up_last_index _ _ _ _ U I), (u_base _ _ _ _ U). lia.
Qed.

Lemma nrel_apply F g n nd :
  areach voters g -> n ∈ voters -> nrel F g n nd ->
  exists F', (forall m, F m <= F' m)%nat /\ (forall m, m <> n -> F' m = F m) /\ nrel F' g n (apply_node nd).
Proof.
  intros HR Hn R. pose proof (inv_reach _ _ HR) as I. assert (R' := R). destruct R' as [Hl Ha Hc Hb Hst].
  unfold apply_node. destruct (nd_raft nd) as [r|] eqn:Er; [|by exists F]. destruct Hst as [U Fr].
  pose proof (i_commit _ _ I n) as Hci. pose proof (committed_length _ _ _ _ _ Hci) as Hcl.
  pose proof (committed_length _ _ _ _ _ Hc) as Hkl.
  set (L := a_log (node g n)) in *. set (cm := a_commit (node g n)) in *.
  assert (Hd := f_delivered _ _ _ _ _ _ Fr). assert (Hap := f_applied _ _ _ _ _ _ Fr).
  unfold take_committed. rewrite (deliver_spec n g _ r (F n) U I Hd (Hb n Hn) Hcl). cbv zeta.
  rewrite Hd, (u_commit _ _ _ _ U). fold L cm.
  replace (Z.to_nat (Z.of_nat cm - Z.of_nat (F n)) `min` (cm - F n))%nat with (cm - F n)%nat by lia.
  set (k' := Nat.max (F n) cm). set (out := take (cm - F n) (drop (F n) L)).
  assert (Hout : length out = (k' - F n)%nat).
  { unfold out, k'. rewrite length_take, length_drop. lia. }
  assert (Happ : nd_applied nd ++ out = take k' L).
  { rewrite Ha. unfold out, k'. rewrite take_take_drop. f_equal. lia. }
  assert (Hk' : (k' <= length L)%nat) by (unfold k'; lia).
  set (F' := <[n := k']> F : NodeId -> nat).
  assert (HF : forall m, (F m <= F' m)%nat).
  { intros m. unfold F'. destruct (decide (m = n)) as [->|]; [rewrite fn_lookup_insert; unfold k'; lia|].
    by rewrite fn_lookup_insert_ne. }
  exists F'. split_and!; [done|intros; by apply fn_lookup_insert_ne|].
  assert (HFn : F' n = k') by apply fn_lookup_insert. rewrite Happ.
  set (r1 := r <| last_delivered := Z.of_nat (F n + length out) |>).
  assert (U1 : up c0 n r1 g) by (by destruct U).
  assert (Hd1 : last_delivered r1 = Z.of_nat k') by (cbn; rewrite Hout; f_equal; unfold k'; lia).
  assert (Fr1 : framed c0 n (Z.of_nat (F n)) (Z.of_nat k') (zF F') r1).
  { destruct (framed_mono F F' n r _ _ HF Fr). split; try done. }
  split; rewrite ?HFn; cbn.
  - rewrite length_take. lia.
  - done.
  - unfold k'. destruct (Nat.max_spec (F n) cm) as [[_ ->]|[_ ->]]; done.
  - intros m Hm. etransitivity; [by apply Hb|apply HF].
  - assert (Hlast : last (take k' L) = if decide (k' = 0)%nat then None else L !! (k' - 1)%nat).
    { rewrite last_lookup, length_take, Nat.min_l by done. destruct (decide (k' = 0)%nat) as [->|]; [done|].
      rewrite lookup_take_lt by lia. f_equal. lia. }
    rewrite Hlast. destruct (decide (k' = 0)%nat) as [E0|E0].
    + split; [done|]. rewrite E0 in *. assert (F n = 0)%nat as E1 by (unfold k' in E0; lia). by rewrite E1 in Fr1.
    + destruct (lookup_lt_is_Some_2 L (k' - 1) ltac:(lia)) as [e He]. rewrite He.
      destruct (i_wf _ _ I n _ _ He) as [-> _]. replace (Datatypes.S (k' - 1)) with k' by lia.
      pose proof (Hb n Hn). pose proof (f_applied _ _ _ _ _ _ Fr1).
      destruct (set_applied_exact n g r1 k' U1 I) as [X1 X2]; [lia|unfold k'; lia|unfold k'; fold L; lia|].
      split; [by apply up_set_applied|]. by destruct Fr1.
Qed.

(** A fresh node: nothing delivered beyond the base, nothing known of others. *)
Lemma framed_new F g n s r seed :
  n ∈ voters -> disk s (node g n) -> (forall m, m ∈ voters -> a_base (node g n) <= F m)%nat ->
  Raft_new draw_fuel n c0 s seed = Ok r ->
  framed c0 n (Z.of_nat (a_base (node g n))) (Z.of_nat (a_base (node g n))) (zF F) r.
Proof.
  intros Hn [Hb0 Hld] Hb. unfold Raft_new. rewrite bool_decide_eq_true_2 by done. cbn [negb]. rewrite Hld.
  cbn [mbind outcome_bind]. match goal with |- context [reset_election_timeout _ ?x] => set (r0 := x) end. cbn beta.
  assert (Fr0 : framed c0 n (Z.of_nat (a_base (node g n))) (Z.of_nat (a_base (node g n))) (zF F) r0).
  { split; try done. eexists. split; [exact Hld|]. cbn. intros m Hm. specialize (Hb m Hm). lia. }
  apply (keeps_reset draw_fuel) in Fr0. intros Hr.
  destruct (reset_election_timeout draw_fuel r0) as [[[]|e|] r']; [|done..]. by injection Hr as <-.
Qed.

Lemma nrel_restart F g n nd nd' seed :
  areach voters g -> n ∈ voters -> nrel F g n nd -> restart draw_fuel c0 s0 n seed nd = Ok nd' ->
  exists g', rtc (nstep c0 n) g g' /\ nrel F g' n nd'.
Proof.
  intros HR Hn R. assert (R' := R). destruct R' as [Hl Ha Hc Hb Hst]. unfold restart.
  destruct (nd_raft nd) as [r|] eqn:Er; [intros [= <-]; by exists g|].
  destruct Hst as (s & Hs & Hd). rewrite Hs. change (default s0 (Some s)) with s.
  destruct (Raft_new draw_fuel n c0 s seed) as [r|e|] eqn:Hnew; [|done..]. intros [= <-].
  destruct (up_new _ _ _ _ _ _ _ Hn Hd Hnew) as (g' & Hst & U). exists g'. split; [done|].
  pose proof (nsteps_reach _ _ _ _ Hst HR) as HR'. pose proof (inv_reach _ _ HR') as I.
  destruct (asteps_kept voters g g' n (F n) HR (nsteps_asteps _ _ _ Hst) Hc) as [K1 K2].
  pose proof (framed_new F g n s r seed Hn Hd Hb Hnew) as Fr.
  pose proof (nrel_base F g' n _ (u_disk _ _ _ _ U) (f_base _ _ _ _ _ _ Fr)) as Hb'.
  pose proof (committed_length _ _ _ _ _ K1) as Hlen. rewrite <- Hl.
  pose proof (Hb n Hn). pose proof (Hb' n Hn).
  destruct (set_applied_exact n g' r (F n) U I) as [X1 X2];
    [rewrite (f_delivered _ _ _ _ _ _ Fr); lia|rewrite (f_applied _ _ _ _ _ _ Fr); lia|lia|].
  split; cbn; [done|congruence|done|done|]. split; [by apply up_set_applied|]. by destruct Fr.
Qed.

Lemma nrel_map F g n nd (f : Raft S -> Raft S) :
  nrel F g n nd -> (forall r, up c0 n r g -> up c0 n (f r) g) ->
  (forall r, framed c0 n (Z.of_nat (F n)) (Z.of_nat (F n)) (zF F) r ->
             framed c0 n (Z.of_nat (F n)) (Z.of_nat (F n)) (zF F) (f r)) ->
  nrel F g n (MkNode (f <$> nd_raft nd) (nd_storage nd) (nd_applied nd)).
Proof. intros [] Hu Hf. split; cbn; try done. destruct (nd_raft nd) as [r|]; cbn; naive_solver. Qed.

Lemma nrel_crash F g n nd : nrel F g n nd -> nrel F g n (crash nd).
Proof.
  intros R. unfold crash. destruct (nd_raft nd) as [r|] eqn:Er; [|done]. destruct R. split; cbn; try done.
  rewrite Er in nr_state0. destruct nr_state0 as [U _]. eexists. split; [done|apply U].
Qed.

Lemma nrel_drain F g n nd :
  nrel F g n nd ->
  let '(out, nd') := drain_node nd in
  nrel F g n nd' /\ Forall (env_ok (sent g)) out /\ Forall (report_ok (zF F)) out.
Proof.
  intros R. unfold drain_node. destruct (nd_raft nd) as [r|] eqn:Er; [|by split_and!].
  pose proof (nr_state _ _ _ _ R) as Hst. rewrite Er in Hst. destruct Hst as [U Fr]. cbn. split_and!.
  - pose proof (nrel_map F g n nd (fun r => snd (take_outbox r)) R) as X. rewrite Er in X. apply X.
    + intros. by apply up_take_outbox.
    + intros r' []. by split.
  - apply (u_out _ _ _ _ U).
  - apply (f_out _ _ _ _ _ _ Fr).
Qed.

(** ** Every event is matched *)
Lemma on_node_crel c g F i (f : Node S -> Node S) :
  crel c g F ->
  (forall n nd, voters !! i = Some n -> n ∈ voters -> nrel F g n nd ->
     exists g' F', rtc (nstep c0 n) g g' /\ (forall m, F m <= F' m)%nat /\ (forall m, m <> n -> F' m = F m) /\
       nrel F' g' n (f nd)) ->
  exists g' F', rtc (astep voters) g g' /\ (forall m, F m <= F' m)%nat /\ crel (on_node f i c) g' F'.
Proof.
  intros R Hf. unfold on_node. destruct (cl_nodes c !! i) as [nd|] eqn:Hnd.
  - destruct (Forall2_lookup_r _ _ _ _ _ (cr_nodes _ _ _ R) Hnd) as (n & Hn & Hr).
    destruct (Hf n nd) as (g' & F' & Hs & HF & HFm & Hr'); [done|by eapply list_elem_of_lookup_2|done|].
    exists g', F'. split_and!; [by eapply nsteps_asteps|done|].
    assert (alter f i (cl_nodes c) = <[i := f nd]> (cl_nodes c)) as ->.
    { apply list_eq. intros j. destruct (decide (j = i)) as [->|].
      - rewrite list_lookup_alter_eq, list_lookup_insert_eq by (by eapply lookup_lt_Some). by rewrite Hnd.
      - by rewrite list_lookup_alter_ne, list_lookup_insert_ne by done. }
    by eapply crel_node.
  - exists g, F. split_and!; [done|done|]. assert (alter f i (cl_nodes c) = cl_nodes c) as ->; [|by destruct c].
    apply list_eq. intros j. destruct (decide (j = i)) as [->|]; [by rewrite list_lookup_alter_eq, Hnd|].
    by rewrite list_lookup_alter_ne.
Qed.

Lemma call_crel {A} (m : M S A) (f : Node S -> Node S) c g F i :
  crel c g F -> (forall nd, f nd = nd \/ f nd = call m nd) ->
  (forall n r, n ∈ voters -> up c0 n r g -> framed c0 n (Z.of_nat (F n)) (Z.of_nat (F n)) (zF F) r ->
     good m F g n r) ->
  exists g' F', rtc (astep voters) g g' /\ (forall m, F m <= F' m)%nat /\ crel (on_node f i c) g' F'.
Proof.
  intros R Hf Hg. apply on_node_crel; [done|]. intros n nd _ Hn Hr. destruct (Hf nd) as [->| ->]; [by exists g, F|].
  destruct (nrel_call m F g n nd (cr_reach _ _ _ R) Hr) as (g' & Hs & Hr').
  - intros r Er. pose proof (nr_state _ _ _ _ Hr) as Hst. rewrite Er in Hst. destruct Hst. by apply Hg.
  - by exists g', F.
Qed.

Lemma event_crel e c g F :
  crel c g F ->
  exists g' F', rtc (astep voters) g g' /\ (forall m, F m <= F' m)%nat /\
    crel (do_event draw_fuel c0 s0 e c) g' F'.
Proof.
  intros R. pose proof (cr_reach _ _ _ R) as HR.
  destruct e as [i|i k|i d|i|i u|i|i|i|i|i seed]; cbn [do_event].
  - apply (call_crel (tick draw_fuel)); [done|by right|]. intros. by apply good_tick.
  - destruct (cl_sent c !! k) as [env|] eqn:Hk; [|by exists g, F].
    apply (call_crel (step draw_fuel env)); [done|by right|]. intros. apply list_elem_of_lookup_2 in Hk.
    pose proof (proj1 (Forall_forall _ _) (cr_sent _ _ _ R) _ Hk).
    pose proof (proj1 (Forall_forall _ _) (cr_reports _ _ _ R) _ Hk). by apply good_step.
  - apply (call_crel (propose d)); [done| |intros; by apply good_propose].
    intros nd. unfold request. destruct (nd_raft nd) as [r|]; [|by left]. destruct (propose_refused _ _); auto.
  - apply (call_crel read_barrier); [done| |intros; by apply good_read].
    intros nd. unfold request. destruct (nd_raft nd) as [r|]; [|by left]. destruct (read_refused _); auto.
  - apply (call_crel (compact u)); [done|by right|]. intros. by apply good_compact.
  - destruct (cl_nodes c !! i) as [nd|] eqn:Hnd; [|by exists g, F].
    destruct (Forall2_lookup_r _ _ _ _ _ (cr_nodes _ _ _ R) Hnd) as (n & Hi & Hr).
    exists g, F. split_and!; [done|done|]. pose proof (nrel_drain F g n nd Hr) as X.
    destruct (drain_node nd) as [out nd'] eqn:Ed. destruct X as (Hr' & He & Hp).
    destruct (crel_node c g F i n nd _ g F R Hi Hnd ltac:(done) ltac:(done) ltac:(done) Hr') as [? ? Hs Hrp].
    split; try done; cbn; by apply Forall_app.
  - apply on_node_crel; [done|]. intros n nd _ Hn Hr.
    destruct (nrel_apply F g n nd HR Hn Hr) as (F' & ? & ? & ?). by exists g, F'.
  - apply on_node_crel; [done|]. intros n nd _ Hn Hr. exists g, F. split_and!; try done.
    pose proof (nrel_map F g n nd (fun r => snd (take_ready_reads r)) Hr) as X. unfold take_reads.
    destruct (nd_raft nd) as [r|] eqn:Er; [|done]. apply X.
    + intros. by apply up_take_ready.
    + intros r' []. by split.
  - apply on_node_crel; [done|]. intros n nd _ Hn Hr. exists g, F. split_and!; try done. by apply nrel_crash.
  - destruct (voters !! i) as [n|] eqn:Hi; [|by exists g, F].
    apply on_node_crel; [done|]. intros n' nd Hi' Hn Hr. rewrite Hi in Hi'. injection Hi' as <-.
    destruct (restart draw_fuel c0 s0 n seed nd) as [nd'|e|] eqn:Hre; [|by exists g, F..].
    destruct (nrel_restart F g n nd nd' seed HR Hn Hr Hre) as (g' & ? & ?). by exists g', F.
Qed.

Lemma exec_crel es c g F :
  crel c g F ->
  exists g' F', rtc (astep voters) g g' /\ (forall m, F m <= F' m)%nat /\ crel (exec draw_fuel c0 s0 es c) g' F'.
Proof.
  revert c g F. induction es as [|e es IH]; intros c g F R; cbn; [by exists g, F|].
  destruct (event_crel e c g F R) as (g1 & F1 & Hs1 & HF1 & R1).
  destruct (IH _ _ _ R1) as (g2 & F2 & Hs2 & HF2 & R2). exists g2, F2. split_and!; [by etransitivity| |done].
  intros m. specialize (HF1 m). specialize (HF2 m). lia.
Qed.

Lemma init_crel : crel (net_init c0 s0) g_init (fun _ => 0%nat).
Proof.
  split; cbn; [constructor| |done|done]. apply Forall2_fmap_r, Forall_Forall2_diag, Forall_forall. intros n _.
  split; cbn; try done; [by left|]. eexists. split; [done|]. split; cbn; [done|]. by rewrite Hs0.
Qed.

(** Two cuts of one run, the second later. *)
Lemma run_crel es1 es2 :
  let c1 := exec draw_fuel c0 s0 es1 (net_init c0 s0) in
  exists g1 F1 g2 F2, crel c1 g1 F1 /\ crel (exec draw_fuel c0 s0 es2 c1) g2 F2 /\
    rtc (astep voters) g1 g2 /\ (forall m, F1 m <= F2 m)%nat.
Proof.
  destruct (exec_crel es1 _ _ _ init_crel) as (g1 & F1 & _ & _ & R1).
  destruct (exec_crel es2 _ _ _ R1) as (g2 & F2 & Hs & HF & R2). by exists g1, F1, g2, F2.
Qed.

(** A live node of a related cluster. *)
Lemma crel_live c g F i nd r :
  crel c g F -> cl_nodes c !! i = Some nd -> nd_raft nd = Some r ->
  exists n, voters !! i = Some n /\ nrel F g n nd /\ up c0 n r g.
Proof.
  intros R Hnd Hr. destruct (Forall2_lookup_r _ _ _ _ _ (cr_nodes _ _ _ R) Hnd) as (n & Hi & H).
  exists n. split_and!; [done|done|]. pose proof (nr_state _ _ _ _ H) as Hst. rewrite Hr in Hst. apply Hst.
Qed.

(** ** Safety *)
Lemma up_entry_inv n r g i e :
  up c0 n r g -> inv voters g -> entry i r = Some e ->
  exists j, i = Z.of_nat (Datatypes.S j) /\ a_log (node g n) !! j = Some e.
Proof.
  intros U I He. destruct (Z_of_nat_complete i) as [k ->].
  { unfold entry, log_pos in He. rewrite (u_base _ _ _ _ U) in He. destruct (_ || _); [done|].
    destruct (Z.leb_spec i (Z.of_nat (a_base (node g n)))); [done|lia]. }
  destruct k as [|j]; [done|]. rewrite (up_entry _ _ _ _ U I) in He. destruct (decide _); [|done]. by exists j.
Qed.

Lemma leaders_agree g1 g2 n1 n2 r1 r2 :
  areach voters g1 -> rtc (astep voters) g1 g2 -> up c0 n1 r1 g1 -> up c0 n2 r2 g2 ->
  role r1 = Leader -> role r2 = Leader -> term r1 = term r2 -> n1 = n2.
Proof.
  intros HR Hs U1 U2 L1 L2 Ht. pose proof (inv_reach _ _ HR) as I1.
  pose proof (inv_reach _ _ (asteps_reach _ _ _ Hs HR)) as I2.
  rewrite (u_role _ _ _ _ U1) in L1. rewrite (u_role _ _ _ _ U2) in L2.
  rewrite (u_term _ _ _ _ U1), (u_term _ _ _ _ U2) in Ht.
  destruct (asteps_llog _ _ _ _ _ _ HR Hs (i_leader _ _ I1 _ L1)) as [L' HL'].
  rewrite Ht, (i_leader _ _ I2 _ L2) in HL'. by injection HL'.
Qed.

Lemma logs_match g n1 n2 r1 r2 i j e1 e2 x1 x2 :
  areach voters g -> up c0 n1 r1 g -> up c0 n2 r2 g ->
  entry i r1 = Some e1 -> entry i r2 = Some e2 -> e_term e1 = e_term e2 ->
  j <= i -> entry j r1 = Some x1 -> entry j r2 = Some x2 -> x1 = x2.
Proof.
  intros HR U1 U2 He1 He2 Ht Hij Hx1 Hx2. pose proof (inv_reach _ _ HR) as I.
  destruct (up_entry_inv _ _ _ _ _ U1 I He1) as (i1 & -> & H1).
  destruct (up_entry_inv _ _ _ _ _ U2 I He2) as (i2 & Ei & H2). assert (i2 = i1) as -> by lia.
  destruct (up_entry_inv _ _ _ _ _ U1 I Hx1) as (j1 & -> & H3).
  destruct (up_entry_inv _ _ _ _ _ U2 I Hx2) as (j2 & Ej & H4). assert (j2 = j1) as -> by lia.
  pose proof (coherent_agree g _ _ _ _ _ (i_coh _ _ I n1) (i_coh _ _ I n2) H1 H2 Ht) as E.
  pose proof (take_eq_lookup _ _ _ j1 E ltac:(lia)). congruence.
Qed.

Lemma take_prefix_le {A} (l : list A) i k : (i <= k)%nat -> take i l `prefix_of` take k l.
Proof. intros H. replace (take i l) with (take i (take k l)) by (rewrite take_take; f_equal; lia). apply prefix_take. Qed.

(** Applied sequences never diverge. *)
Lemma applied_agree F1 F2 g1 g2 n1 n2 nd1 nd2 :
  areach voters g1 -> rtc (astep voters) g1 g2 -> nrel F1 g1 n1 nd1 -> nrel F2 g2 n2 nd2 ->
  nd_applied nd1 `prefix_of` nd_applied nd2 \/ nd_applied nd2 `prefix_of` nd_applied nd1.
Proof.
  intros HR Hs R1 R2. pose proof (inv_reach _ _ (asteps_reach _ _ _ Hs HR)) as I2.
  pose proof (asteps_committed _ _ _ _ _ _ HR Hs (nr_com _ _ _ _ R1)) as C1.
  pose proof (committed_agree _ _ I2 _ _ _ _ _ _ C1 (nr_com _ _ _ _ R2)) as E.
  rewrite (nr_app _ _ _ _ R1), (nr_app _ _ _ _ R2).
  destruct (decide (F1 n1 <= F2 n2)%nat) as [Hle|Hgt].
  - left. rewrite Nat.min_l in E by done. rewrite E. by apply take_prefix_le.
  - right. rewrite Nat.min_r in E by lia. rewrite <- E. apply take_prefix_le. lia.
Qed.

(** The applied sequence is the log from index 1, without gaps. *)
Lemma applied_index F g n nd k e :
  areach voters g -> nrel F g n nd -> nd_applied nd !! k = Some e -> e_index e = Z.of_nat (Datatypes.S k).
Proof.
  intros HR R. rewrite (nr_app _ _ _ _ R). intros [He _]%lookup_take_Some.
  by destruct (i_wf _ _ (inv_reach _ _ HR) n _ _ He).
Qed.

(** A leader of a term no older than the applying node's has what it applied. *)
Lemma leader_has_applied F1 g1 g2 n1 nd1 n2 r2 e :
  areach voters g1 -> rtc (astep voters) g1 g2 -> nrel F1 g1 n1 nd1 -> up c0 n2 r2 g2 ->
  role r2 = Leader -> a_term (node g1 n1) <= term r2 -> e ∈ nd_applied nd1 ->
  e_index e <= snapshot_index r2 \/ entry (e_index e) r2 = Some e.
Proof.
  intros HR Hs R1 U2 L2 Ht [k Hk]%list_elem_of_lookup. pose proof (asteps_reach _ _ _ Hs HR) as HR2.
  pose proof (inv_reach _ _ HR2) as I2. rewrite (applied_index _ _ _ _ _ _ HR R1 Hk).
  rewrite (nr_app _ _ _ _ R1) in Hk. rewrite (u_role _ _ _ _ U2) in L2. rewrite (u_term _ _ _ _ U2) in Ht.
  pose proof (asteps_committed _ _ _ _ _ _ HR Hs (nr_com _ _ _ _ R1)) as C1.
  assert (C2 : committed voters g2 (a_term (node g2 n2)) (a_log (node g1 n1)) (F1 n1)).
  { destruct C1 as [->|(t & i & c & L0 & H1 & H2)]; [by left|]. right. exists t, i, c, L0. split; [lia|done]. }
  pose proof (leader_has_committed _ _ I2 _ _ _ _ _ (i_leader _ _ I2 _ L2) C2) as E.
  rewrite E in Hk. apply lookup_take_Some in Hk as [Hk _].
  rewrite (up_entry _ _ _ _ U2 I2), (u_base _ _ _ _ U2). destruct (decide _); [by right|left; lia].
Qed.
End simulation.

(** ** The properties of a cluster *)
Definition live {S} (i : nat) (c : Net S) : option (Raft S) := cl_nodes c !! i ≫= nd_raft.
Definition applied_of {S} (i : nat) (c : Net S) : list Entry :=
  match cl_nodes c !! i with Some nd => nd_applied nd | None => [] end.

(** A run of three voters: node 0 is elected and commits an entry that all
    apply, it compacts; then it crashes and restarts while node 1 is elected. *)
Module Run.
Definition c3 : Config := Config_new [repeat 1 16; repeat 2 16; repeat 3 16].
Abbreviation exec3 := (exec 100 c3 mem_default).
Abbreviation init3 := (net_init c3 mem_default).
Definition elect : list event :=
  [EvRestart 0 7; EvRestart 1 7; EvRestart 2 7] ++ repeat (EvTick 0) 20 ++
  [EvDrain 0; EvDeliver 1 0; EvDrain 1; EvDeliver 0 2; EvDrain 0].
Definition replicate : list event :=
  [EvDeliver 1 3; EvDrain 1; EvDeliver 2 4; EvDrain 2; EvDeliver 0 5; EvDeliver 0 6; EvPropose 0 [42]; EvDrain 0;
   EvDeliver 1 7; EvDrain 1; EvDeliver 2 8; EvDrain 2; EvDeliver 0 9; EvDeliver 0 10;
   EvApply 0; EvApply 1; EvApply 2] ++ repeat (EvTick 0) 3 ++
  [EvDrain 0; EvDeliver 1 11; EvDrain 1; EvDeliver 2 12; EvDrain 2; EvDeliver 0 13; EvDeliver 0 14;
   EvApply 1; EvApply 2; EvCompact 0 5].
Definition failover : list event :=
  EvCrash 0 :: repeat (EvTick 1) 20 ++
  [EvDrain 1; EvDeliver 2 16; EvDrain 2; EvDeliver 1 17; EvDrain 1; EvRestart 0 9].
Definition before : list event := elect ++ replicate.

Lemma nodup3 : NoDup (members c3).
Proof. apply (bool_decide_unpack _). vm_compute. exact I. Qed.

Lemma load3 : load mem_default = Ok Persistent_default.
Proof. reflexivity. Qed.

(** The live node of a computed cluster, as a term. *)
Definition the (i : nat) (c : Net MemRaftStorage) : Raft MemRaftStorage :=
  match cl_nodes c !! i ≫= nd_raft with
  | Some r => r
  | None => MkRaft [] c3 mem_default 0 None [] 0 0 Follower None ∅ ∅ ∅ 0 0 0 (rng_new 0) [] 0 0 0 0 ∅ 0 [] [] []
  end.
End Run.

Section properties.
Context {S : Type} {SO : RaftStorage S} {SL : RaftStorageLaws S} (draw_fuel : nat).
Context (c0 : Config) (Hnodup : NoDup (members c0)) (s0 : S) (Hs0 : load s0 = Ok Persistent_default).
Local Abbreviation run es := (exec draw_fuel c0 s0 es (net_init c0 s0)).
Local Abbreviation later es c := (exec draw_fuel c0 s0 es c).

Lemma live_nrel c g F i r :
  crel c0 c g F -> live i c = Some r ->
  exists n nd, members c0 !! i = Some n /\ cl_nodes c !! i = Some nd /\ nrel c0 F g n nd /\ up c0 n r g.
Proof.
  unfold live. intros R H. destruct (cl_nodes c !! i) as [nd|] eqn:Hnd; [|done]. cbn in H.
  destruct (crel_live c0 c g F i nd r R Hnd H) as (n & ? & ? & ?). by exists n, nd.
Qed.

Lemma applied_nrel c g F i e :
  crel c0 c g F -> e ∈ applied_of i c ->
  exists n nd, members c0 !! i = Some n /\ cl_nodes c !! i = Some nd /\ nrel c0 F g n nd.
Proof.
  unfold applied_of. intros R H. destruct (cl_nodes c !! i) as [nd|] eqn:Hnd; [|set_solver].
  destruct (Forall2_lookup_r _ _ _ _ _ (cr_nodes _ _ _ _ R) Hnd) as (n & ? & ?). by exists n, nd.
Qed.

(** C2. Election safety: over a whole run of the cluster, with messages lost, delayed,
    duplicated and reordered and nodes failing and restarting, two nodes that
    lead in the same term are the same node, even at different moments. *)
Theorem election_safety es1 es2 i1 i2 r1 r2 :
  live i1 (run es1) = Some r1 -> live i2 (later es2 (run es1)) = Some r2 ->
  role r1 = Leader -> role r2 = Leader -> term r1 = term r2 -> i1 = i2.
Proof.
  intros H1 H2 L1 L2 Ht. destruct (run_crel draw_fuel c0 Hnodup s0 Hs0 es1 es2) as (g1 & F1 & g2 & F2 & R1 & R2 & Hs & _).
  destruct (live_nrel _ _ _ _ _ R1 H1) as (n1 & nd1 & Hi1 & _ & _ & U1).
  destruct (live_nrel _ _ _ _ _ R2 H2) as (n2 & nd2 & Hi2 & _ & _ & U2).
  pose proof (leaders_agree c0 g1 g2 n1 n2 r1 r2 (cr_reach _ _ _ _ R1) Hs U1 U2 L1 L2 Ht) as ->.
  by eapply NoDup_lookup.
Qed.

(** Log matching: if the logs of two live nodes hold entries of the same term at some
    index, they hold the same entry at every index up to it that both still store. *)
Theorem log_matching es i1 i2 r1 r2 i j e1 e2 x1 x2 :
  live i1 (run es) = Some r1 -> live i2 (run es) = Some r2 ->
  entry i r1 = Some e1 -> entry i r2 = Some e2 -> e_term e1 = e_term e2 ->
  j <= i -> entry j r1 = Some x1 -> entry j r2 = Some x2 -> x1 = x2.
Proof.
  intros H1 H2. destruct (run_crel draw_fuel c0 Hnodup s0 Hs0 es []) as (g & F & _ & _ & R & _).
  destruct (live_nrel _ _ _ _ _ R H1) as (n1 & nd1 & _ & _ & _ & U1).
  destruct (live_nrel _ _ _ _ _ R H2) as (n2 & nd2 & _ & _ & _ & U2).
  by apply (logs_match c0 g n1 n2 r1 r2 i j e1 e2 x1 x2 (cr_reach _ _ _ _ R)).
Qed.

(** C1. State machine safety: what one node has applied at some moment and another at the
    same or a later moment are prefixes of one another, and each node applies
    the entries of indices 1, 2, 3, ... in order, each once. *)
Theorem state_machine_safety es1 es2 i1 i2 :
  let a1 := applied_of i1 (run es1) in
  let a2 := applied_of i2 (later es2 (run es1)) in
  (a1 `prefix_of` a2 \/ a2 `prefix_of` a1) /\
  forall k e, a1 !! k = Some e -> e_index e = Z.of_nat k + 1.
Proof.
  cbn. destruct (run_crel draw_fuel c0 Hnodup s0 Hs0 es1 es2) as (g1 & F1 & g2 & F2 & R1 & R2 & Hs & _).
  pose proof (cr_reach _ _ _ _ R1) as HR. unfold applied_of.
  destruct (cl_nodes (run es1) !! i1) as [nd1|] eqn:E1; [|split; [left; apply prefix_nil|done]].
  destruct (Forall2_lookup_r _ _ _ _ _ (cr_nodes _ _ _ _ R1) E1) as (n1 & _ & N1). split.
  - destruct (cl_nodes (later es2 (run es1)) !! i2) as [nd2|] eqn:E2; [|right; apply prefix_nil].
    destruct (Forall2_lookup_r _ _ _ _ _ (cr_nodes _ _ _ _ R2) E2) as (n2 & _ & N2).
    by eapply (applied_agree c0 F1 F2 g1 g2 n1 n2).
  - intros k e He. rewrite (applied_index c0 F1 g1 n1 nd1 k e HR N1 He). lia.
Qed.

(** C3. Leader completeness: an entry some node had applied is in the log of every leader of
    that node's term or a later one, at that moment and ever after, unless the
    leader has compacted it away. *)
Theorem leader_completeness es1 es2 i1 i2 r1 r2 e :
  live i1 (run es1) = Some r1 -> live i2 (later es2 (run es1)) = Some r2 ->
  role r2 = Leader -> term r1 <= term r2 -> e ∈ applied_of i1 (run es1) ->
  e_index e <= snapshot_index r2 \/ entry (e_index e) r2 = Some e.
Proof.
  intros H1 H2 L2 Ht He. destruct (run_crel draw_fuel c0 Hnodup s0 Hs0 es1 es2) as (g1 & F1 & g2 & F2 & R1 & R2 & Hs & _).
  destruct (live_nrel _ _ _ _ _ R1 H1) as (n1 & nd1 & _ & E1 & N1 & U1).
  destruct (live_nrel _ _ _ _ _ R2 H2) as (n2 & nd2 & _ & _ & _ & U2).
  unfold applied_of in He. rewrite E1 in He.
  eapply (leader_has_applied c0 F1 g1 g2 n1 nd1 n2 r2); try done; [apply (cr_reach _ _ _ _ R1)|].
  by rewrite <- (u_term _ _ _ _ U1).
Qed.

(** Compaction safety: no node drops a prefix of its log that some voter, up or down,
    has not applied. *)
Theorem compaction_safety es i j r :
  live i (run es) = Some r -> (j < length (members c0))%nat ->
  snapshot_index r <= Z.of_nat (length (applied_of j (run es))).
Proof.
  intros H Hj. destruct (run_crel draw_fuel c0 Hnodup s0 Hs0 es []) as (g & F & _ & _ & R & _).
  destruct (live_nrel _ _ _ _ _ R H) as (n & nd & _ & _ & N & U).
  destruct (lookup_lt_is_Some_2 (members c0) j Hj) as [m Hm].
  destruct (Forall2_lookup_l _ _ _ _ _ (cr_nodes _ _ _ _ R) Hm) as (ndm & Em & Nm).
  unfold applied_of. rewrite Em, <- (nr_len _ _ _ _ _ Nm), (u_base _ _ _ _ U).
  pose proof (nr_base _ _ _ _ _ N m ltac:(by eapply list_elem_of_lookup_2)). lia.
Qed.

(** C4. Refinement: every state a cluster reaches is a reachable state of the abstract
    protocol, in which each live node has the term, vote, log, commit index and
    role of its counterpart and only sends the protocol's messages, and the
    storage of each stopped node still holds its durable state. *)
Theorem cluster_refines_protocol es :
  exists g, areach (members c0) g /\
    forall i n nd, members c0 !! i = Some n -> cl_nodes (run es) !! i = Some nd ->
      match nd_raft nd with
      | Some r => up c0 n r g
      | None => exists s, nd_storage nd = Some s /\ disk s (nodes g n)
      end.
Proof.
  destruct (run_crel draw_fuel c0 Hnodup s0 Hs0 es []) as (g & F & _ & _ & R & _).
  exists g. split; [apply (cr_reach _ _ _ _ R)|]. intros i n nd Hi Hnd.
  pose proof (nr_state _ _ _ _ _ (Forall2_lookup_lr _ _ _ _ _ _ (cr_nodes _ _ _ _ R) Hi Hnd)) as Hst.
  destruct (nd_raft nd); [by destruct Hst|done].
Qed.
End properties.

Section witnesses.
Import Run.
Local Abbreviation run es := (exec3 es init3).

Lemma election_safety_witness :
  let c1 := run elect in let c2 := exec3 replicate c1 in
  live 0 c1 = Some (the 0 c1) /\ live 0 c2 = Some (the 0 c2) /\
  role (the 0 c1) = Leader /\ role (the 0 c2) = Leader /\ 0%nat = 0%nat.
Proof.
  cbv zeta. do 4 (split; [vm_compute; reflexivity|]).
  apply (election_safety 100 c3 nodup3 mem_default load3 elect replicate 0 0 (the 0 (run elect))
    (the 0 (exec3 replicate (run elect)))); vm_compute; reflexivity.
Defined.

Lemma log_matching_witness :
  let c := run (before ++ failover) in
  let e := MkEntry 1 2 [42] in
  entry 2 (the 1 c) = Some e /\ entry 2 (the 2 c) = Some e /\ entry 1 (the 1 c) = entry 1 (the 2 c) /\
  MkEntry 1 1 [] = MkEntry 1 1 [].
Proof.
  cbv zeta. do 3 (split; [vm_compute; reflexivity|]).
  apply (log_matching 100 c3 nodup3 mem_default load3 (before ++ failover) 1 2
    (the 1 (run (before ++ failover))) (the 2 (run (before ++ failover))) 2 1 (MkEntry 1 2 [42]) (MkEntry 1 2 [42]));
    try (vm_compute; reflexivity). lia.
Defined.

Lemma state_machine_safety_witness :
  let a1 := applied_of 0 (run before) in
  let a2 := applied_of 1 (exec3 failover (run before)) in
  a1 = [MkEntry 1 1 []; MkEntry 1 2 [42]] /\ (a1 `prefix_of` a2 \/ a2 `prefix_of` a1).
Proof.
  split; [vm_compute; reflexivity|].
  apply (state_machine_safety 100 c3 nodup3 mem_default load3 before failover 0 1).
Defined.

(** The old leader applied the entry; the new one holds it. *)
Lemma leader_completeness_witness :
  let c1 := run before in let c2 := exec3 failover c1 in
  role (the 1 c2) = Leader /\ term (the 1 c2) = 2 /\ MkEntry 1 2 [42] ∈ applied_of 0 c1 /\
  (2 <= snapshot_index (the 1 c2) \/ entry 2 (the 1 c2) = Some (MkEntry 1 2 [42])).
Proof.
  assert (He : MkEntry 1 2 [42] ∈ applied_of 0 (run before)).
  { apply (list_elem_of_lookup_2 _ 1). vm_compute. reflexivity. }
  split_and!; try (vm_compute; reflexivity); [exact He|].
  apply (leader_completeness 100 c3 nodup3 mem_default load3 before failover 0 1 (the 0 (run before))
    (the 1 (exec3 failover (run before))) (MkEntry 1 2 [42])); try (vm_compute; reflexivity); [|exact He].
  vm_compute. discriminate.
Defined.

(** Node 0 compacted index 1; node 2 has applied two entries. *)
Lemma compaction_safety_witness :
  snapshot_index (the 0 (run before)) = 1 /\
  snapshot_index (the 0 (run before)) <= Z.of_nat (length (applied_of 2 (run before))).
Proof.
  split; [vm_compute; reflexivity|].
  apply (compaction_safety 100 c3 nodup3 mem_default load3 before 0 2); vm_compute; [reflexivity|lia].
Defined.

Lemma cluster_refines_protocol_witness :
  live 1 (run (before ++ failover)) <> None /\
  exists g, areach (members c3) g /\
    forall i n nd, members c3 !! i = Some n -> cl_nodes (run (before ++ failover)) !! i = Some nd ->
      match nd_raft nd with
      | Some r => up c3 n r g
      | None => exists s, nd_storage nd = Some s /\ disk s (nodes g n)
      end.
Proof.
  split; [vm_compute; discriminate|].
  apply (cluster_refines_protocol 100 c3 nodup3 mem_default load3 (before ++ failover)).
Defined.
End witnesses.
