(* ===== verification/RaftSim.v ===== *)
(** * The cluster simulator (src/crates/carolina-consensus/src/sim.rs)

    [Cluster] with its seeded network (loss, duplication, delay, directional
    partitions), crashes and restarts, and the checks it runs after every
    delivered message.  The simulator runs the nodes of [Raft.v] on
    [MemRaftStorage]; its checks are proved never to fire, except for a false
    alarm of the leader-completeness check.

    Loops over the nodes are folds over their positions.  A returned error
    string is a constructor of [SimError]; the cluster is not used after an
    error, so an error carries no state.  [campaign] is modelled but for the
    counters it returns and its last comparison, of two runs with the same seed
    whose errors are ignored: here a run is a function of the seed. *)

From stdpp Require Import gmap functions relations sorting.
From S2P Require Import Prelude ByteMap Errors CanonInt Rng RaftTypes RaftStorage Raft RaftSpec RaftSafety.
From S2P Require Import RaftRefine RaftFrame RaftCluster.

Record NetworkModel : Type := MkNetworkModel {
  loss_permille : Z;
  dup_permille : Z;
  min_delay : Z;
  max_delay : Z;
}.
Definition NetworkModel_default : NetworkModel := MkNetworkModel 50 50 1 4.

Inductive SimError : Type :=
| NodeFailed (e : ErrorCode)
| ElectionSafety
| LogMatching
| CompactionSafety
| StateMachineSafety
| LeaderCompleteness
(* what [campaign] itself reports *)
| NoLeader
| CannotPropose
| NotAllApplied
| WrongCount
| CannotProposeCompacted
| StalledCompacted
| LostBase
| IsolatedCommitted
| IsolatedRead
| StaleApplied.

Abbreviation SimNode := (Node MemRaftStorage).
Abbreviation SimRaft := (Raft MemRaftStorage).

Record Cluster : Type := MkCluster {
  s_cfg : Config;
  s_nodes : list SimNode;
  s_rng : DetRng;
  s_seed : Z;
  s_net : NetworkModel;
  s_queue : list (Z * Envelope);
  s_now : Z;
  s_blocked : gset (NodeId * NodeId);
  s_leaders : gmap Z NodeId;
  s_delivered : Z;
  s_dropped : Z;
  s_duplicated : Z;
}.
#[global] Instance Cluster_eta : Eta Cluster := fun c =>
  MkCluster (s_cfg c) (s_nodes c) (s_rng c) (s_seed c) (s_net c) (s_queue c) (s_now c) (s_blocked c)
    (s_leaders c) (s_delivered c) (s_dropped c) (s_duplicated c).

Abbreviation SimResult := (outcome SimError).

(** A node error becomes an error of the simulation ([map_err], [unwrap]). *)
Definition of_core {A} (o : CoreResult A) : SimResult A :=
  match o with Ok a => Ok a | Err e => Err (NodeFailed e) | Panic => Panic end.

(** [for i in is { f(i)? }] *)
Fixpoint each {A B} (f : A -> B -> SimResult B) (l : list A) (b : B) : SimResult B :=
  match l with
  | [] => Ok b
  | x :: l' => b' ← f x b; each f l' b'
  end.

Section sim.
Context (draw_fuel : nat).

(** ** Construction *)

(** [Cluster::new] with the derived ids of the voters as an argument. *)
Definition Cluster_new (ids : list NodeId) (seed : Z) (net : NetworkModel) : SimResult Cluster :=
  let cfg := Config_new ids in
  nodes ← collect (fun m =>
    match Raft_new draw_fuel m cfg mem_default seed with
    | Ok r => Ok (MkNode (Some r) None [])
    | _ => Panic
    end) (members cfg);
  Ok (MkCluster cfg nodes (rng_new seed) seed net [] 0 ∅ ∅ 0 0 0).

Definition positions (c : Cluster) : list nat := seq 0 (length (s_nodes c)).

(** ** Access *)
Definition s_node (i : nat) (c : Cluster) : option SimRaft := s_nodes c !! i ≫= nd_raft.
Definition s_applied (i : nat) (c : Cluster) : list Entry :=
  match s_nodes c !! i with Some nd => nd_applied nd | None => [] end.
Definition is_up (i : nat) (c : Cluster) : bool := bool_decide (is_Some (s_node i c)).

(** The leaders with their terms, sorted; the last one is the most recent. *)
Definition lead_le (a b : Z * nat) : Prop := a.1 < b.1 \/ (a.1 = b.1 /\ (a.2 <= b.2)%nat).
#[local] Instance lead_le_dec : RelDecision lead_le.
Proof. intros a b. unfold lead_le. apply _. Defined.
Definition s_leader (c : Cluster) : option nat :=
  let leaders := omap (fun i => r ← s_node i c; if is_leader r then Some (term r, i) else None) (positions c) in
  snd <$> last (merge_sort lead_le leaders).

(** [self.nodes[i].raft] replaced. *)
Definition set_raft (i : nat) (r : SimRaft) (c : Cluster) : Cluster :=
  c <| s_nodes := alter (fun nd => MkNode (Some r) (nd_storage nd) (nd_applied nd)) i (s_nodes c) |>.

(** A method of node [i], if it is up. *)
Definition on_raft {A} (m : M MemRaftStorage A) (i : nat) (c : Cluster) : SimResult Cluster :=
  match s_nodes c !! i with
  | None => Panic
  | Some nd =>
      match nd_raft nd with
      | None => Ok c
      | Some r => match m r with (res, r') => _ ← of_core res; Ok (set_raft i r' c) end
      end
  end.

(** ** Faults *)
Definition s_crash (i : nat) (c : Cluster) : SimResult Cluster :=
  match s_nodes c !! i with
  | Some nd => Ok (c <| s_nodes := <[i := crash nd]> (s_nodes c) |>)
  | None => Panic
  end.

Definition s_restart (i : nat) (c : Cluster) : SimResult Cluster :=
  match s_nodes c !! i, members (s_cfg c) !! i with
  | Some nd, Some me =>
      nd' ← of_core (restart draw_fuel (s_cfg c) mem_default me (Z.lxor (s_seed c) (s_now c)) nd);
      Ok (c <| s_nodes := <[i := nd']> (s_nodes c) |>)
  | _, _ => Panic
  end.

Definition block (a b : nat) (c : Cluster) : SimResult Cluster :=
  match members (s_cfg c) !! a, members (s_cfg c) !! b with
  | Some x, Some y => Ok (c <| s_blocked := {[ (x, y) ]} ∪ s_blocked c |>)
  | _, _ => Panic
  end.
Definition heal (c : Cluster) : Cluster := c <| s_blocked := ∅ |>.
Definition isolate (i : nat) (c : Cluster) : SimResult Cluster :=
  each (fun j c => if bool_decide (j = i) then Ok c else c' ← block i j c; block j i c') (positions c) c.

(** ** The network *)
Definition s_below (n : Z) (c : Cluster) : SimResult (Z * Cluster) :=
  match below draw_fuel (s_rng c) n with
  | Ok (Some (v, g)) => Ok (v, c <| s_rng := g |>)
  | _ => Panic
  end.
Definition count (f : Cluster -> Z) (c : Cluster) : SimResult Z := uadd 64 (f c) 1.

Definition push_copy (env : Envelope) (c : Cluster) : SimResult Cluster :=
  d ← usub 64 (max_delay (s_net c)) (min_delay (s_net c));
  span ← uadd 64 d 1;
  '(v, c) ← s_below span c;
  delay ← uadd 64 (min_delay (s_net c)) v;
  at_ ← uadd 64 (s_now c) delay;
  Ok (c <| s_queue := s_queue c ++ [(at_, env)] |>).

Definition enqueue (env : Envelope) (c : Cluster) : SimResult Cluster :=
  if bool_decide ((env_from env, env_to env) ∈ s_blocked c) then
    n ← count s_dropped c; Ok (c <| s_dropped := n |>)
  else
    '(v, c) ← s_below 1000 c;
    if v <? loss_permille (s_net c) then n ← count s_dropped c; Ok (c <| s_dropped := n |>)
    else
      '(v, c) ← s_below 1000 c;
      '(copies, c) ← (if v <? dup_permille (s_net c)
                      then n ← count s_duplicated c; Ok (2%nat, c <| s_duplicated := n |>)
                      else Ok (1%nat, c));
      each (fun _ => push_copy env) (seq 0 copies) c.

(** The first loop of [drain_outboxes]. *)
Fixpoint drain_all (nodes : list SimNode) : list Envelope * list SimNode :=
  match nodes with
  | [] => ([], [])
  | nd :: nodes' =>
      let '(out, nd') := drain_node nd in
      let '(all, rest) := drain_all nodes' in
      (out ++ all, nd' :: rest)
  end.
Definition drain_outboxes (c : Cluster) : SimResult Cluster :=
  let '(all, nodes) := drain_all (s_nodes c) in
  each enqueue all (c <| s_nodes := nodes |>).

Definition apply_committed (c : Cluster) : Cluster := c <| s_nodes := map apply_node (s_nodes c) |>.

(** ** The checks *)
Definition record_leader (nd : SimNode) (c : Cluster) : SimResult Cluster :=
  match nd_raft nd with
  | Some r =>
      if is_leader r then
        match s_leaders c !! term r with
        | Some other => if bool_decide (other <> me r) then Err ElectionSafety
                        else Ok (c <| s_leaders := <[term r := me r]> (s_leaders c) |>)
        | None => Ok (c <| s_leaders := <[term r := me r]> (s_leaders c) |>)
        end
      else Ok c
  | None => Ok c
  end.
Definition check_election (c : Cluster) : SimResult Cluster := each record_leader (s_nodes c) c.

(** The indices [lo..=hi]. *)
Definition range_incl (lo hi : Z) : list Z := map (fun k => lo + Z.of_nat k) (seq 0 (Z.to_nat (hi - lo + 1))).

(** The last index in the range where both logs have an entry of the same term. *)
Definition agreed_upto (ra rb : SimRaft) (first common : Z) : Z :=
  match find (fun i => match entry i ra, entry i rb with
                       | Some ea, Some eb => e_term ea =? e_term eb
                       | _, _ => false
                       end) (rev (range_incl first common)) with
  | Some i => i
  | None => 0
  end.

Definition check_pair (ra rb : SimRaft) : SimResult unit :=
  fa ← of_core (first_index ra);
  fb ← of_core (first_index rb);
  let first := Z.max fa fb in
  let common := Z.min (last_index ra) (last_index rb) in
  each (fun i _ => if bool_decide (entry i ra = entry i rb) then Ok tt else Err LogMatching)
    (range_incl first (agreed_upto ra rb first common)) tt.

Fixpoint check_logs (live : list SimRaft) : SimResult unit :=
  match live with
  | [] => Ok tt
  | ra :: rest => _ ← each (fun rb _ => check_pair ra rb) rest tt; check_logs rest
  end.

Definition applied_last (nd : SimNode) : Z :=
  match last (nd_applied nd) with Some e => e_index e | None => 0 end.

Definition check_compaction (nodes : list SimNode) : SimResult unit :=
  each (fun nd _ =>
    match nd_raft nd with
    | Some r =>
        let base := snapshot_index r in
        if base =? 0 then Ok tt
        else each (fun other _ =>
          match nd_raft other with
          | Some o =>
              if bool_decide (me o <> me r) && (applied_last other <? base) && (snapshot_index o <? base)
              then Err CompactionSafety else Ok tt
          | None => Ok tt
          end) nodes tt
    | None => Ok tt
    end) nodes tt.

Definition longest (nodes : list SimNode) : option (list Entry) :=
  foldl (fun l nd => match l with
                     | Some l' => if (length l' <? length (nd_applied nd))%nat then Some (nd_applied nd) else l
                     | None => Some (nd_applied nd)
                     end) None nodes.

Definition check_state_machine (l : list Entry) (nodes : list SimNode) : SimResult unit :=
  each (fun nd _ =>
    each (fun '(i, e) _ =>
      match l !! i with
      | Some e' => if bool_decide (e' = e) then Ok tt else Err StateMachineSafety
      | None => Panic
      end) (imap pair (nd_applied nd)) tt) nodes tt.

Definition check_leader (l : list Entry) (c : Cluster) : SimResult unit :=
  match s_leader c with
  | None => Ok tt
  | Some li =>
      match s_node li c with
      | None => Panic
      | Some r =>
          each (fun e _ =>
            if e_index e <=? snapshot_index r then Ok tt
            else if bool_decide (entry (e_index e) r = Some e) then Ok tt else Err LeaderCompleteness) l tt
      end
  end.

Definition check_invariants (c : Cluster) : SimResult Cluster :=
  c ← check_election c;
  _ ← check_logs (omap nd_raft (s_nodes c));
  _ ← check_compaction (s_nodes c);
  match longest (s_nodes c) with
  | None => Ok c
  | Some l =>
      _ ← check_state_machine l (s_nodes c);
      _ ← check_leader l c;
      Ok c
  end.

(** ** One tick *)

(** [for i in (1..due.len()).rev() { let j = rng.below(i + 1); due.swap(i, j) }] *)
Definition swap_at (i j : nat) (l : list Envelope) : list Envelope :=
  match l !! i, l !! j with
  | Some x, Some y => <[i := y]> (<[j := x]> l)
  | _, _ => l
  end.
Definition shuffle (due : list Envelope) (c : Cluster) : SimResult (list Envelope * Cluster) :=
  each (fun i '(due, c) =>
    '(j, c) ← s_below (Z.of_nat i + 1) c;
    Ok (swap_at i (Z.to_nat j) due, c)) (rev (seq 1 (length due - 1))) (due, c).

(** [self.idx(id)] *)
Definition idx (id : NodeId) (c : Cluster) : option nat :=
  fst <$> list_find (fun m => m = id) (members (s_cfg c)).

Definition deliver_one (env : Envelope) (c : Cluster) : SimResult Cluster :=
  match idx (env_to env) c with
  | None => Panic
  | Some to =>
      c ← (if is_up to c
           then c ← on_raft (step draw_fuel env) to c;
                n ← count s_delivered c; Ok (c <| s_delivered := n |>)
           else n ← count s_dropped c; Ok (c <| s_dropped := n |>));
      c ← drain_outboxes c;
      check_invariants (apply_committed c)
  end.

Definition s_step (c : Cluster) : SimResult Cluster :=
  now ← uadd 64 (s_now c) 1;
  let c := c <| s_now := now |> in
  c ← each (on_raft (tick draw_fuel)) (positions c) c;
  c ← drain_outboxes c;
  let due := snd <$> filter (fun '(at_, _) => at_ <= s_now c) (s_queue c) in
  let rest := filter (fun '(at_, _) => ~ at_ <= s_now c) (s_queue c) in
  '(due, c) ← shuffle due (c <| s_queue := rest |>);
  c ← each deliver_one due c;
  check_invariants (apply_committed c).

Definition s_run (ticks : nat) (c : Cluster) : SimResult Cluster := each (fun _ => s_step) (seq 0 ticks) c.

(** The result of [propose]: the index, or nothing when there is no leader or
    it refuses. *)
Definition s_propose (data : bytes) (c : Cluster) : SimResult (option Z * Cluster) :=
  match s_leader c with
  | None => Ok (None, c)
  | Some l =>
      match s_node l c with
      | None => Ok (None, c)
      | Some r =>
          match propose data r with
          | (Ok i, r') => Ok (Some i, set_raft l r' c)
          | (Err _, r') => Ok (None, set_raft l r' c)
          | (Panic, _) => Panic
          end
      end
  end.

(** [run_until_leader] *)
Fixpoint run_until_leader (max_ticks : nat) (c : Cluster) : SimResult (option nat * Cluster) :=
  match max_ticks with
  | O => Ok (None, c)
  | Datatypes.S k =>
      c ← s_step c;
      match s_leader c ≫= fun l => pair l <$> s_node l c with
      | Some (l, r) =>
          if (0 <? commit_index r) && bool_decide (e_term <$> entry (commit_index r) r = Some (term r))
          then Ok (Some l, c) else run_until_leader k c
      | None => run_until_leader k c
      end
  end.

Definition all_applied (index : Z) (c : Cluster) : bool :=
  forallb (fun nd => index <=? Z.of_nat (length (nd_applied nd)))
    (filter (fun nd => is_Some (nd_raft nd)) (s_nodes c)).

(** [self.nodes[i].raft.as_mut().unwrap()] and a method on it, whose error does
    not end the run. *)
Definition ask {A} (m : M MemRaftStorage A) (i : nat) (c : Cluster) : SimResult (CoreResult A * Cluster) :=
  match s_node i c with
  | None => Panic
  | Some r =>
      match m r with
      | (Panic, _) => Panic
      | (res, r') => Ok (res, set_raft i r' c)
      end
  end.
Definition take_reads_at (i : nat) (c : Cluster) : SimResult (list ReadIndex * Cluster) :=
  match s_node i c with
  | None => Panic
  | Some r => let '(reads, r') := take_ready_reads r in Ok (reads, set_raft i r' c)
  end.

(** ** [campaign] *)
Definition cmd (i : nat) : bytes := str "cmd-" ++ dec_text (Z.of_nat i).

(** [loop { if let Some(idx) = c.propose(..) { break } c.run(1)?; tries += 1; if tries > 2000 { .. } }] *)
Fixpoint propose_loop (tries_left : nat) (e : SimError) (data : bytes) (c : Cluster) : SimResult (Z * Cluster) :=
  '(r, c) ← s_propose data c;
  match r with
  | Some idx => Ok (idx, c)
  | None =>
      c ← s_run 1 c;
      match tries_left with
      | O => Err e
      | Datatypes.S k => propose_loop k e data c
      end
  end.
Definition MAX_TRIES : nat := 2000.

(** [for _ in 0..n { c.run(1)?; if c.all_applied(index) { ok = true; break } }] *)
Fixpoint wait_applied (n : nat) (index : Z) (c : Cluster) : SimResult (bool * Cluster) :=
  match n with
  | O => Ok (false, c)
  | Datatypes.S k => c ← s_run 1 c; if all_applied index c then Ok (true, c) else wait_applied k index c
  end.
Definition must_apply (e : SimError) (index : Z) (c : Cluster) : SimResult Cluster :=
  '(ok, c) ← wait_applied 3000 index c; if (ok : bool) then Ok c else Err e.

(** The proposals of a seed, with a voter crashed and restarted at every seventh. *)
Definition propose_one (i : nat) (st : Z * Cluster) : SimResult (Z * Cluster) :=
  '(idx, c) ← propose_loop MAX_TRIES CannotPropose (cmd i) (snd st);
  c ← s_run 2 c;
  if (i mod 7 =? 0)%nat then
    c ← s_crash (i mod 3) c;
    c ← s_run 25 c;
    c ← s_restart (i mod 3) c;
    Ok (idx, c)
  else Ok (idx, c).

(** Compaction at the leader, commits across the new base, and a restart on it. *)
Definition across_base (l : nat) (base : Z) (proposals : nat) (last : Z) (c : Cluster) : SimResult Cluster :=
  c ← check_invariants c;
  '(tail, c) ← each (fun i st =>
      '(idx, c) ← propose_loop MAX_TRIES CannotProposeCompacted (cmd i) (snd st);
      c ← s_run 2 c; Ok (idx, c)) (seq (proposals + 1) 3) (last, c);
  c ← must_apply StalledCompacted tail c;
  c ← s_crash l c;
  c ← s_run 30 c;
  c ← s_restart l c;
  c ← s_run 60 c;
  match s_node l c with
  | None => Panic
  | Some r => if snapshot_index r =? base then check_invariants c else Err LostBase
  end.
Definition compaction_case (proposals : nat) (last : Z) (c : Cluster) : SimResult Cluster :=
  c ← s_run 40 c;
  match s_leader c with
  | None => Ok c
  | Some l =>
      match s_node l c with
      | None => Panic
      | Some r =>
          '(res, c) ← ask (compact (compaction_horizon r)) l c;
          base ← of_core res;
          if 0 <? base then across_base l base proposals last c else Ok c
      end
  end.

Definition replication_case (ids : list NodeId) (seed : Z) (proposals : nat) : SimResult Cluster :=
  c ← Cluster_new ids seed NetworkModel_default;
  '(l, c) ← run_until_leader 600 c;
  match l with
  | None => Err NoLeader
  | Some _ =>
      '(last, c) ← each propose_one (seq 1 proposals) (0, c);
      c ← must_apply NotAllApplied last c;
      if (length (filter (fun e => e_data e <> []) (s_applied 0 c)) =? proposals)%nat
      then compaction_case proposals last c else Err WrongCount
  end.

(** After the partition heals: [for _ in 0..600 { .. }] until the new entry is applied. *)
Fixpoint heal_loop (n : nat) (idx : option Z) (c : Cluster) : SimResult Cluster :=
  match n with
  | O => Ok c
  | Datatypes.S k =>
      c ← s_run 1 c;
      match idx with
      | None => '(r, c) ← s_propose (str "majority") c; heal_loop k r c
      | Some i => if all_applied i c then Ok c else heal_loop k idx c
      end
  end.
Definition commit_of (l : nat) (c : Cluster) : SimResult Z :=
  match s_node l c with Some r => Ok (commit_index r) | None => Panic end.
Definition isolated_net : NetworkModel := MkNetworkModel 0 0 1 2.
Definition isolated_run (l : nat) (c : Cluster) : SimResult Cluster :=
  c ← isolate l c;
  before ← commit_of l c;
  '(_, c) ← ask (propose (str "stale")) l c;
  c ← s_run 80 c;
  after ← commit_of l c;
  if negb (after =? before) then Err IsolatedCommitted
  else
    '(round, c) ← ask read_barrier l c;
    c ← s_run 30 c;
    c ← match round with
        | Ok r =>
            '(reads, c) ← take_reads_at l c;
            if existsb (fun x => ri_round x =? r) reads then Err IsolatedRead else Ok c
        | _ => Ok c
        end;
    c ← heal_loop 600 None (heal c);
    each (fun i c => if existsb (fun e => bool_decide (e_data e = str "stale")) (s_applied i c)
                     then Err StaleApplied else Ok c) (seq 0 3) c.
Definition isolation_case (ids : list NodeId) (seed : Z) : SimResult Cluster :=
  c ← Cluster_new ids (Z.lxor seed 20817) isolated_net;
  '(l, c) ← run_until_leader 600 c;
  match l with
  | None => Err NoLeader
  | Some l => isolated_run l c
  end.

(** Every seed in turn.  The metrics it sums up are left out, and so is its last
    check, that one run repeated with one seed gives the same history: here a run is
    a function of the seed. *)
Definition campaign (ids : list NodeId) (seeds : list Z) (proposals : nat) : SimResult unit :=
  each (fun seed _ =>
    _ ← replication_case ids seed proposals;
    _ ← isolation_case ids seed;
    Ok tt) seeds tt.

(** ** Anything a client does with a cluster, in any order *)
Inductive op : Type :=
| OpStep
| OpCrash (i : nat)
| OpRestart (i : nat)
| OpBlock (a b : nat)
| OpHeal
| OpIsolate (i : nat)
| OpPropose (data : bytes)
| OpProposeAt (i : nat) (data : bytes)
| OpReadBarrier (i : nat)
| OpTakeReads (i : nat)
| OpCompact (i : nat) (up_to : Z)
| OpCheck.

Definition do_op (o : op) (c : Cluster) : SimResult Cluster :=
  match o with
  | OpStep => s_step c
  | OpCrash i => s_crash i c
  | OpRestart i => s_restart i c
  | OpBlock a b => block a b c
  | OpHeal => Ok (heal c)
  | OpIsolate i => isolate i c
  | OpPropose d => snd <$> s_propose d c
  | OpProposeAt i d => snd <$> ask (propose d) i c
  | OpReadBarrier i => snd <$> ask read_barrier i c
  | OpTakeReads i => snd <$> take_reads_at i c
  | OpCheck => check_invariants c
  | OpCompact i up_to => on_raft (compact up_to) i c
  end.
Definition run_ops (ops : list op) (c : Cluster) : SimResult Cluster := each do_op ops c.
End sim.

(** ** Helpers *)
Lemma each_inv {A B} (f : A -> B -> SimResult B) (P : list A -> B -> Prop) (E : SimError -> Prop) l b :
  (forall x l b, P (x :: l) b ->
     match f x b with Ok b' => P l b' | Err e => E e | Panic => True end) ->
  P l b -> match each f l b with Ok b' => P [] b' | Err e => E e | Panic => True end.
Proof.
  intros Hf. revert b. induction l as [|x l IH]; intros b H; cbn; [done|].
  specialize (Hf x l b H). destruct (f x b) as [b'|e|]; cbn; [by apply IH|done|done].
Qed.

(** A loop of checks passes when every check does. *)
Lemma each_ok {A} (f : A -> unit -> SimResult unit) l :
  (forall x, x ∈ l -> f x tt = Ok tt) -> each f l tt = Ok tt.
Proof. induction l as [|x l IH]; intros H; cbn; [done|]. rewrite H by set_solver. cbn. apply IH. set_solver. Qed.

Lemma alter_id {A} (f : A -> A) (i : nat) (l : list A) x : l !! i = Some x -> f x = x -> alter f i l = l.
Proof.
  intros Hi Hx. apply list_eq. intros j. destruct (decide (j = i)) as [->|].
  - rewrite list_lookup_alter_eq, Hi. cbn. by rewrite Hx.
  - by rewrite list_lookup_alter_ne.
Qed.
Lemma alter_insert {A} (f : A -> A) (i : nat) (l : list A) x : l !! i = Some x -> alter f i l = <[i := f x]> l.
Proof.
  intros Hi. apply list_eq. intros j. destruct (decide (j = i)) as [->|].
  - rewrite list_lookup_alter_eq, list_lookup_insert_eq by (by eapply lookup_lt_Some). by rewrite Hi.
  - by rewrite list_lookup_alter_ne, list_lookup_insert_ne by done.
Qed.

(** The checks of the four safety properties. *)
Definition safety_check (e : SimError) : bool :=
  match e with
  | ElectionSafety | LogMatching | CompactionSafety | StateMachineSafety => true
  | _ => false
  end.

Section safe.
Context (draw_fuel : nat) (c0 : Config) (Hnodup : NoDup (members c0)).
Local Abbreviation voters := (members c0).
Local Abbreviation zF F := (fun m => Z.of_nat (F m)).

(** The cluster against the protocol: [ex] are messages taken off the queue
    but not yet delivered. *)
Definition leaders_ok (ls : gmap Z NodeId) (g : gstate) : Prop :=
  forall t n, ls !! t = Some n -> exists L, llog g t = Some (n, L).
Definition simrel (ex : list Envelope) (c : Cluster) : Prop :=
  s_cfg c = c0 /\ exists g F,
    crel c0 (MkNet (s_nodes c) ((snd <$> s_queue c) ++ ex)) g F /\ leaders_ok (s_leaders c) g.

Lemma crel_sent (ns : list SimNode) l l' g F :
  crel c0 (MkNet ns l) g F -> (forall e, e ∈ l' -> e ∈ l) -> crel c0 (MkNet ns l') g F.
Proof.
  intros [? ? Hs Hr] Hl. split; try done; cbn in *; rewrite Forall_forall in *; auto.
Qed.

Lemma simrel_weaken ex ex' c c' :
  simrel ex c -> s_cfg c' = s_cfg c -> s_nodes c' = s_nodes c -> s_leaders c' = s_leaders c ->
  (forall e, e ∈ (snd <$> s_queue c') ++ ex' -> e ∈ (snd <$> s_queue c) ++ ex) -> simrel ex' c'.
Proof.
  intros (Hc & g & F & R & L) E1 E2 E3 Hs. split; [by rewrite E1|]. exists g, F. rewrite E2, E3.
  split; [by eapply crel_sent|done].
Qed.

(** An event of the cluster that sends nothing. *)
Lemma simrel_event e ex c ns :
  simrel ex c ->
  do_event draw_fuel c0 mem_default e (MkNet (s_nodes c) ((snd <$> s_queue c) ++ ex)) =
    MkNet ns ((snd <$> s_queue c) ++ ex) ->
  simrel ex (c <| s_nodes := ns |>).
Proof.
  intros (Hc & g & F & R & L) He. split; [done|].
  destruct (event_crel draw_fuel c0 Hnodup mem_default e _ g F R) as (g' & F' & Hs & _ & R').
  rewrite He in R'. exists g', F'. split; [done|]. intros t n Ht. destruct (L t n Ht) as [L0 H0].
  by eapply asteps_llog; [apply (cr_reach _ _ _ _ R)| |].
Qed.

Lemma on_raft_call {A} (m : M MemRaftStorage A) i c c' :
  on_raft m i c = Ok c' -> c' = c <| s_nodes := alter (call m) i (s_nodes c) |>.
Proof.
  unfold on_raft. destruct (s_nodes c !! i) as [nd|] eqn:Hi; [|done].
  destruct (nd_raft nd) as [r|] eqn:Hr.
  - destruct (m r) as [[a|e|] r'] eqn:Hm; cbn; [|done..]. intros [= <-]. unfold set_raft. cbn.
    unfold update. cbn. f_equal. erewrite !alter_insert by done. f_equal. unfold call. by rewrite Hr, Hm.
  - intros [= <-]. erewrite alter_id; [by destruct c|done|]. unfold call. by rewrite Hr.
Qed.

Lemma simrel_on_raft {A} (m : M MemRaftStorage A) i ex c e c' :
  simrel ex c -> on_raft m i c = Ok c' ->
  (forall cl, cl_nodes cl = s_nodes c -> cl_sent cl = (snd <$> s_queue c) ++ ex ->
     do_event draw_fuel c0 mem_default e cl = on_node (call m) i cl) ->
  simrel ex c'.
Proof.
  intros R Hm He. apply on_raft_call in Hm as ->. eapply (simrel_event e); [done|]. by rewrite He.
Qed.

(** ** The network *)

Definition post {B} (o : SimResult B) (P : B -> Prop) : Prop :=
  match o with Ok b => P b | Err e => safety_check e = false | Panic => True end.

Lemma post_bind {A B} (o : SimResult A) (k : A -> SimResult B) P :
  post o (fun a => post (k a) P) -> post (o ≫= k) P.
Proof. by destruct o. Qed.
Lemma post_mono {B} (o : SimResult B) (P Q : B -> Prop) : post o P -> (forall b, P b -> Q b) -> post o Q.
Proof. destruct o; cbn; auto. Qed.
Lemma post_each {A B} (f : A -> B -> SimResult B) (P : list A -> B -> Prop) l b :
  (forall x l b, P (x :: l) b -> post (f x b) (P l)) -> P l b -> post (each f l b) (P []).
Proof. intros Hf H. by apply each_inv. Qed.
Lemma post_uadd w a b P : (forall x, P x) -> post (uadd w a b) P.
Proof. intros H. unfold uadd. destruct (checked_u w (a + b)); cbn; auto. Qed.
Lemma post_usub w a b P : (forall x, P x) -> post (usub w a b) P.
Proof. intros H. unfold usub. destruct (checked_u w (a - b)); cbn; auto. Qed.

(** [c'] differs from [c] in the network's randomness and counters, and has
    at most the messages [ms] more in flight. *)
Record quiet_net (ms : list Envelope) (c c' : Cluster) : Prop := {
  qn_cfg : s_cfg c' = s_cfg c;
  qn_nodes : s_nodes c' = s_nodes c;
  qn_leaders : s_leaders c' = s_leaders c;
  qn_queue e : e ∈ snd <$> s_queue c' -> e ∈ snd <$> s_queue c \/ e ∈ ms;
}.
Lemma quiet_refl ms c : quiet_net ms c c.
Proof. split; auto. Qed.
Lemma quiet_trans ms c1 c2 c3 : quiet_net ms c1 c2 -> quiet_net ms c2 c3 -> quiet_net ms c1 c3.
Proof. intros [] []. split; try congruence. intros e []%qn_queue1; auto. Qed.
Lemma quiet_more ms ms' c c' : quiet_net ms c c' -> (forall e, e ∈ ms -> e ∈ ms') -> quiet_net ms' c c'.
Proof. intros [] H. split; try done. intros e []%qn_queue0; auto. Qed.
Hint Resolve quiet_refl : core.

Lemma simrel_quiet ms ex c c' : simrel (ms ++ ex) c -> quiet_net ms c c' -> simrel ex c'.
Proof.
  intros R []. eapply simrel_weaken; [exact R|done..|]. intros e [H|H]%elem_of_app; [|set_solver].
  destruct (qn_queue0 e H); set_solver.
Qed.

Lemma s_below_quiet n c P : (forall v c', quiet_net [] c c' -> P (v, c')) -> post (s_below draw_fuel n c) P.
Proof. intros H. unfold s_below. destruct (below _ _ _) as [[[v x]|]| |]; cbn; try done. apply H. by split; auto. Qed.

Lemma push_copy_quiet env c : post (push_copy draw_fuel env c) (quiet_net [env] c).
Proof.
  unfold push_copy. apply post_bind, post_usub. intros d. apply post_bind, post_uadd. intros span.
  apply post_bind, s_below_quiet. intros v c' Q. apply post_bind, post_uadd. intros dl.
  apply post_bind, post_uadd. intros at_. destruct Q. split; try done. cbn. intros e.
  rewrite fmap_app. intros [H|H]%elem_of_app; [|by right]. destruct (qn_queue0 e H); [by left|set_solver].
Qed.

Lemma enqueue_quiet env c : post (enqueue draw_fuel env c) (quiet_net [env] c).
Proof.
  assert (Hd : forall c', quiet_net [env] c c' -> post (n ← count s_dropped c'; Ok (c' <| s_dropped := n |>)) (quiet_net [env] c)).
  { intros c' []. apply post_bind, post_uadd. intros n. by split. }
  unfold enqueue. case_bool_decide; [by apply Hd|]. apply post_bind, s_below_quiet. intros v c1 Q1.
  apply (quiet_more _ [env]) in Q1; [|set_solver]. destruct (v <? _); [by apply Hd|].
  apply post_bind, s_below_quiet. intros v' c2 Q2. apply (quiet_more _ [env]) in Q2; [|set_solver].
  pose proof (quiet_trans _ _ _ _ Q1 Q2) as Q. apply post_bind.
  apply (post_mono _ (fun p => quiet_net [env] c (snd p))).
  { destruct (v' <? _); [|done]. apply post_bind, post_uadd. intros n. by destruct Q. }
  intros [k c3] Q3. cbn [snd] in Q3. apply (post_each _ (fun _ => quiet_net [env] c)); [|done].
  intros _ _ c4 Q4. eapply post_mono; [apply push_copy_quiet|]. intros c5 Q5. by eapply quiet_trans.
Qed.

Lemma drain_all_crel ns l g F :
  crel c0 (MkNet ns l) g F -> crel c0 (MkNet (snd (drain_all ns)) (l ++ fst (drain_all ns))) g F.
Proof.
  intros [HR Hn Hs Hp]. cbn in *.
  assert (H : Forall2 (nrel c0 F g) voters (snd (drain_all ns)) /\ Forall (env_ok (sent g)) (fst (drain_all ns)) /\
    Forall (report_ok (zF F)) (fst (drain_all ns))).
  { clear Hs Hp. revert Hn. generalize voters. intros vs0 Hn. induction Hn as [|n nd vs ns Hnd _ IH]; cbn; [by split_and!|].
    pose proof (nrel_drain c0 F g n nd Hnd) as X. destruct (drain_node nd) as [out nd'].
    destruct (drain_all ns) as [all rest]. cbn in *. destruct X as (? & ? & ?). destruct IH as (? & ? & ?).
    split_and!; [by constructor|by apply Forall_app..]. }
  destruct H as (? & ? & ?). split; try done; cbn; by apply Forall_app.
Qed.

Lemma drain_simrel ex c : simrel ex c -> post (drain_outboxes draw_fuel c) (simrel ex).
Proof.
  intros (Hc & g & F & R & L). unfold drain_outboxes. pose proof (drain_all_crel _ _ _ _ R) as R'.
  destruct (drain_all (s_nodes c)) as [all ns]. cbn in R'.
  apply (post_mono _ (simrel ([] ++ ex))); [|done].
  apply (post_each _ (fun l c => simrel (l ++ ex) c)).
  - intros env l c1 R1. eapply post_mono; [apply enqueue_quiet|]. intros c2 Q.
    eapply (simrel_quiet [env]); [exact R1|done].
  - split; [done|]. exists g, F. cbn. split; [|done]. eapply crel_sent; [exact R'|]. set_solver.
Qed.

(** ** The state machines *)
Lemma apply_all_exec (ns1 ns2 : list SimNode) l :
  exec draw_fuel c0 mem_default (EvApply <$> seq (length ns1) (length ns2)) (MkNet (ns1 ++ ns2) l) =
  MkNet (ns1 ++ map apply_node ns2) l.
Proof.
  revert ns1. induction ns2 as [|nd ns2 IH]; intros ns1; [done|]. cbn [length seq fmap list_fmap exec foldl flip do_event].
  unfold on_node. cbn [cl_nodes cl_sent]. rewrite (alter_insert _ _ _ nd) by (by rewrite lookup_app_r, Nat.sub_diag by done).
  rewrite insert_app_r_alt, Nat.sub_diag by done. cbn [insert list_insert].
  specialize (IH (ns1 ++ [apply_node nd])). rewrite length_app, Nat.add_1_r, <- !app_assoc in IH. exact IH.
Qed.

Lemma apply_simrel ex c : simrel ex c -> simrel ex (apply_committed c).
Proof.
  intros (Hc & g & F & R & L). split; [done|].
  destruct (exec_crel draw_fuel c0 Hnodup mem_default (EvApply <$> seq 0 (length (s_nodes c))) _ g F R) as (g' & F' & Hs & _ & R').
  pose proof (apply_all_exec [] (s_nodes c)) as E. cbn [app length] in E. rewrite E in R'.
  exists g', F'. split; [done|]. intros t n Ht. destruct (L t n Ht) as [L0 H0].
  by eapply asteps_llog; [apply (cr_reach _ _ _ _ R)| |].
Qed.

(** ** The checks *)
Section checks.
Context (g : gstate) (F : NodeId -> nat) (HR : areach voters g).
Local Abbreviation rel := (nrel c0 F g).

Lemma rel_live n nd r : rel n nd -> nd_raft nd = Some r -> up c0 n r g.
Proof. intros N Hr. pose proof (nr_state _ _ _ _ _ N) as H. rewrite Hr in H. apply H. Qed.

Lemma check_election_ok ns c :
  Forall (fun nd => exists n, rel n nd) ns -> leaders_ok (s_leaders c) g ->
  exists ls, leaders_ok ls g /\ each record_leader ns c = Ok (c <| s_leaders := ls |>).
Proof.
  intros Hn. revert c. induction Hn as [|nd ns (n & N) _ IH]; intros c L; cbn [each].
  { exists (s_leaders c). split; [done|]. by destruct c. }
  assert (Hgo : forall ls, leaders_ok ls g -> exists ls', leaders_ok ls' g /\
      each record_leader ns (c <| s_leaders := ls |>) = Ok (c <| s_leaders := ls' |>)).
  { intros ls Hls. destruct (IH (c <| s_leaders := ls |>)) as (ls' & ? & E); [exact Hls|]. by exists ls'. }
  enough (Hrec : exists ls, leaders_ok ls g /\ record_leader nd c = Ok (c <| s_leaders := ls |>)).
  { destruct Hrec as (ls & Hls & ->). by apply Hgo. }
  assert (Hsame : Ok c = Ok (c <| s_leaders := s_leaders c |>) :> SimResult Cluster) by (by destruct c).
  unfold record_leader. destruct (nd_raft nd) as [r|] eqn:Hr; [|by exists (s_leaders c)].
  unfold is_leader. case_bool_decide as Hl; [|by exists (s_leaders c)].
  pose proof (rel_live _ _ _ N Hr) as U. rewrite (u_role _ _ _ _ U) in Hl.
  pose proof (i_leader _ _ (inv_reach _ _ HR) _ Hl) as Hlead.
  rewrite <- (u_term _ _ _ _ U) in Hlead. rewrite (u_me _ _ _ _ U).
  exists (<[term r := n]> (s_leaders c)). split.
  - intros t m. destruct (decide (t = term r)) as [->|].
    + rewrite lookup_insert_eq. intros [= <-]. by eexists.
    + rewrite lookup_insert_ne by done. apply L.
  - destruct (s_leaders c !! term r) as [other|] eqn:Ho; [|done].
    destruct (L _ _ Ho) as [L' HL']. rewrite Hlead in HL'. injection HL' as <- _.
    by rewrite bool_decide_eq_false_2 by (by intros []).
Qed.

(** Between the base and the last index every entry is there. *)
Lemma entry_present n r i :
  up c0 n r g -> snapshot_index r < i -> i <= last_index r -> is_Some (entry i r).
Proof.
  intros U Hlo Hhi. pose proof (inv_reach _ _ HR) as I. rewrite (up_last_index _ _ _ _ U I) in Hhi.
  rewrite (u_base _ _ _ _ U) in Hlo. destruct (Z_of_nat_complete i) as [[|j] ->]; [lia|lia|].
  rewrite (up_entry _ _ _ _ U I), decide_True by lia. apply lookup_lt_is_Some_2. lia.
Qed.

Lemma range_incl_in lo hi i : i ∈ range_incl lo hi -> lo <= i <= hi.
Proof. unfold range_incl. intros (k & -> & Hk)%list_elem_of_fmap. apply elem_of_seq in Hk. lia. Qed.

Lemma find_in {A} (f : A -> bool) l x : find f l = Some x -> x ∈ l /\ f x = true.
Proof. intros [H1 H2]%find_some. split; [|done]. by apply list_elem_of_In. Qed.

Lemma check_pair_ok n1 n2 ra rb :
  up c0 n1 ra g -> up c0 n2 rb g -> snapshot_index ra < 2 ^ 64 - 1 -> snapshot_index rb < 2 ^ 64 - 1 ->
  check_pair ra rb = Ok tt.
Proof.
  intros U1 U2 H1 H2. unfold check_pair, first_index.
  assert (0 <= snapshot_index ra) by (rewrite (u_base _ _ _ _ U1); lia).
  assert (0 <= snapshot_index rb) by (rewrite (u_base _ _ _ _ U2); lia).
  rewrite !uadd_ok by (apply in_u_spec; lia). cbn [of_core mbind outcome_bind].
  set (first := Z.max (snapshot_index ra + 1) (snapshot_index rb + 1)). apply each_ok. intros i Hi%range_incl_in.
  unfold agreed_upto in Hi. destruct (find _ _) as [k|] eqn:Hf; [|lia].
  apply find_in in Hf as [Hk Hm].
  assert (Hk' : first <= k <= Z.min (last_index ra) (last_index rb)).
  { apply range_incl_in. apply list_elem_of_In. apply in_rev. by apply list_elem_of_In. }
  destruct (entry k ra) as [ea|] eqn:Ea; [|done]. destruct (entry k rb) as [eb|] eqn:Eb; [|done].
  apply Z.eqb_eq in Hm.
  destruct (entry_present n1 ra i U1) as [xa Hxa]; [lia|lia|].
  destruct (entry_present n2 rb i U2) as [xb Hxb]; [lia|lia|].
  rewrite (logs_match c0 g n1 n2 ra rb k i ea eb xa xb HR U1 U2 Ea Eb Hm) in Hxa by (done || lia).
  by rewrite Hxa, Hxb, bool_decide_eq_true_2.
Qed.

Lemma check_logs_ok rs :
  Forall (fun r => (exists n, up c0 n r g) /\ snapshot_index r < 2 ^ 64 - 1) rs -> check_logs rs = Ok tt.
Proof.
  induction 1 as [|ra rs [(n1 & U1) H1] Hrs IH]; [done|]. cbn [check_logs]. rewrite each_ok; [done|].
  intros rb Hrb. rewrite Forall_forall in Hrs. destruct (Hrs rb Hrb) as [(n2 & U2) H2]. by eapply check_pair_ok.
Qed.

Lemma applied_last_len n nd : rel n nd -> applied_last nd = Z.of_nat (length (nd_applied nd)).
Proof.
  intros N. unfold applied_last. rewrite last_lookup. destruct (nd_applied nd) as [|e0 l] eqn:E; [done|].
  destruct (lookup_lt_is_Some_2 (e0 :: l) (pred (length (e0 :: l))) ltac:(cbn; lia)) as [e He]. rewrite He.
  rewrite <- E in He. rewrite (applied_index c0 F g n nd _ e HR N He), E. cbn. lia.
Qed.

Lemma check_compaction_ok ns : Forall2 rel voters ns -> check_compaction ns = Ok tt.
Proof.
  intros Hn. apply each_ok. intros nd [i Hi]%list_elem_of_lookup.
  destruct (Forall2_lookup_r _ _ _ _ _ Hn Hi) as (n & _ & N).
  cbv beta zeta. destruct (nd_raft nd) as [r|] eqn:Hr; [|done]. destruct (snapshot_index r =? 0); [done|]. apply each_ok.
  intros nd' [j Hj]%list_elem_of_lookup. destruct (Forall2_lookup_r _ _ _ _ _ Hn Hj) as (m & Hm & N').
  destruct (nd_raft nd') as [o|]; [|done]. rewrite (applied_last_len _ _ N'), <- (nr_len _ _ _ _ _ N').
  pose proof (nr_base _ _ _ _ _ N m ltac:(by eapply list_elem_of_lookup_2)).
  rewrite (u_base _ _ _ _ (rel_live _ _ _ N Hr)).
  destruct (Z.ltb_spec (Z.of_nat (F m)) (Z.of_nat (a_base (nodes g n)))); [lia|].
  by rewrite andb_false_r, andb_false_l.
Qed.

(** The longest applied sequence is some node's, and every other is a prefix. *)
Lemma longest_spec ns l :
  longest ns = Some l -> (exists nd, nd ∈ ns /\ nd_applied nd = l) /\
  forall nd, nd ∈ ns -> (length (nd_applied nd) <= length l)%nat.
Proof.
  unfold longest.
  enough (H : forall ns0 acc,
    (forall l0, acc = Some l0 -> exists nd, nd ∈ ns0 /\ nd_applied nd = l0) ->
    (forall nd, nd ∈ ns0 -> exists l0, acc = Some l0 /\ (length (nd_applied nd) <= length l0)%nat) ->
    foldl (fun l nd => match l with
       | Some l' => if (length l' <? length (nd_applied nd))%nat then Some (nd_applied nd) else l
       | None => Some (nd_applied nd) end) acc ns = Some l ->
    (exists nd, nd ∈ ns0 ++ ns /\ nd_applied nd = l) /\
    forall nd, nd ∈ ns0 ++ ns -> (length (nd_applied nd) <= length l)%nat).
  { apply (H [] None); [done|]. intros nd Hnd. by apply not_elem_of_nil in Hnd. }
  induction ns as [|nd ns IH]; intros ns0 acc H1 H2 Hf; cbn [foldl] in Hf.
  { rewrite app_nil_r. subst acc. split; [by apply H1|]. intros nd Hnd. destruct (H2 nd Hnd) as (l0 & [= <-] & ?). done. }
  replace (ns0 ++ nd :: ns) with ((ns0 ++ [nd]) ++ ns) by (by rewrite <- app_assoc). eapply IH; [| |exact Hf].
  - intros l0 E. destruct acc as [l'|]; [destruct (length l' <? _)%nat|]; simplify_eq;
      [exists nd; set_solver| |exists nd; set_solver].
    destruct (H1 _ eq_refl) as (x & ? & ?). exists x. set_solver.
  - intros x [Hx|Hx%list_elem_of_singleton]%elem_of_app.
    + destruct (H2 x Hx) as (l0 & -> & Hle). destruct (Nat.ltb_spec (length l0) (length (nd_applied nd))); eexists; split; eauto. lia.
    + subst x. destruct acc as [l0|]; [|by eexists].
      destruct (Nat.ltb_spec (length l0) (length (nd_applied nd))); by eexists.
Qed.

Lemma check_state_machine_ok ns l :
  Forall2 rel voters ns -> longest ns = Some l -> check_state_machine l ns = Ok tt.
Proof.
  intros Hn Hl. destruct (longest_spec ns l Hl) as ((nl & [il Hil]%list_elem_of_lookup & <-) & Hmax).
  destruct (Forall2_lookup_r _ _ _ _ _ Hn Hil) as (m & _ & M).
  apply each_ok. intros nd Hnd. specialize (Hmax nd Hnd). apply list_elem_of_lookup in Hnd as [i Hi].
  destruct (Forall2_lookup_r _ _ _ _ _ Hn Hi) as (n & _ & N).
  assert (Hp : nd_applied nd `prefix_of` nd_applied nl).
  { destruct (applied_agree c0 F F g g n m nd nl HR ltac:(done) N M) as [?|Hp]; [done|].
    pose proof (prefix_length_eq _ _ Hp Hmax) as ->. done. }
  apply each_ok. intros [k e] [j Hj]%list_elem_of_lookup. rewrite list_lookup_imap in Hj.
  destruct (nd_applied nd !! j) eqn:He; [|done]. cbn in Hj. simplify_eq.
  rewrite (prefix_lookup_Some _ _ _ _ He Hp). by rewrite bool_decide_eq_true_2.
Qed.

Lemma check_logs_noerr rs e :
  Forall (fun r => exists n, up c0 n r g) rs -> check_logs rs <> Err e.
Proof.
  intros H. induction H as [|ra rs (n1 & U1) Hrs IH]; [done|]. cbn [check_logs].
  assert (Hp : forall rb, rb ∈ rs -> check_pair ra rb = Ok tt \/ check_pair ra rb = Panic).
  { intros rb Hrb. rewrite Forall_forall in Hrs. destruct (Hrs rb Hrb) as (n2 & U2).
    destruct (decide (snapshot_index ra < 2 ^ 64 - 1 /\ snapshot_index rb < 2 ^ 64 - 1)) as [[]|Hbig];
      [left; by eapply check_pair_ok|right].
    unfold check_pair, first_index.
    destruct (uadd 64 (snapshot_index ra) 1) as [fa| |] eqn:Ea; [|by (unfold uadd in Ea; case_match)|done].
    destruct (uadd 64 (snapshot_index rb) 1) as [fb| |] eqn:Eb; [|by (unfold uadd in Eb; case_match)|done].
    apply uadd_ok_inv in Ea as [-> ?], Eb as [-> ?]. exfalso. lia. }
  assert (He : each (fun rb _ => check_pair ra rb) rs tt = Ok tt \/ each (fun rb _ => check_pair ra rb) rs tt = Panic).
  { clear IH Hrs. induction rs as [|rb rs IH]; cbn; [by left|].
    destruct (Hp rb) as [->| ->]; [set_solver|cbn|by right]. apply IH. set_solver. }
  destruct He as [->| ->]; cbn; [done|discriminate].
Qed.

(** The node the leader check consults is a live leader. *)
Lemma s_leader_spec c li :
  s_leader c = Some li -> exists r, s_node li c = Some r /\ role r = Leader.
Proof.
  unfold s_leader. intros H. apply fmap_Some in H as ([t i] & Hl & ->). cbn.
  assert (Hin : (t, i) ∈ merge_sort lead_le (omap (fun i => r ← s_node i c;
    if is_leader r then Some (term r, i) else None) (positions c))).
  { rewrite last_lookup in Hl. by eapply list_elem_of_lookup_2. }
  rewrite merge_sort_Permutation in Hin. apply list_elem_of_omap in Hin as (j & _ & Hj).
  destruct (s_node j c) as [r|] eqn:Hr; [|done]. cbn in Hj. unfold is_leader in Hj.
  case_bool_decide; [|done]. simplify_eq. by exists r.
Qed.

(** The term a node is in, up or down. *)
Definition node_term (nd : SimNode) : Z :=
  match nd_raft nd with
  | Some r => term r
  | None => match nd_storage nd with Some s => p_term (m_state s) | None => 0 end
  end.

Lemma node_term_rel n nd : rel n nd -> node_term nd = a_term (nodes g n).
Proof.
  intros N. pose proof (nr_state _ _ _ _ _ N) as H. unfold node_term.
  destruct (nd_raft nd) as [r|]; [apply H|]. destruct H as (s & -> & _ & Hl). cbn in Hl. by injection Hl as ->.
Qed.

(** The consulted leader lags behind some node. *)
Definition stale_leader (c : Cluster) : Prop :=
  exists li r nd, s_leader c = Some li /\ s_node li c = Some r /\ nd ∈ s_nodes c /\ term r < node_term nd.

Lemma check_leader_cases c l :
  Forall2 rel voters (s_nodes c) -> longest (s_nodes c) = Some l ->
  check_leader l c = Ok tt \/ (check_leader l c = Err LeaderCompleteness /\ stale_leader c).
Proof.
  intros Hn Hl. destruct (longest_spec _ l Hl) as ((nl & Hin & <-) & _). unfold check_leader.
  destruct (s_leader c) as [li|] eqn:Eli; [|by left].
  destruct (s_leader_spec c li Eli) as (r & Hr & Hrole). rewrite Hr.
  assert (Hin' := Hin). apply list_elem_of_lookup in Hin' as [il Hil].
  destruct (Forall2_lookup_r _ _ _ _ _ Hn Hil) as (m & _ & M).
  assert (U : exists n, up c0 n r g).
  { unfold s_node in Hr. destruct (s_nodes c !! li) as [nd|] eqn:Hi; [|done]. cbn in Hr.
    destruct (Forall2_lookup_r _ _ _ _ _ Hn Hi) as (n & _ & N). exists n. by eapply rel_live. }
  destruct U as [n U]. set (body := fun (e : Entry) (_ : unit) => _).
  destruct (decide (node_term nl <= term r)) as [Hle|Hgt].
  - left. apply each_ok. intros e He. unfold body.
    destruct (leader_has_applied c0 F g g m nl n r e HR ltac:(done) M U Hrole) as [Hlo|Hent]; [|done| |].
    + by rewrite <- (node_term_rel _ _ M).
    + by rewrite (proj2 (Z.leb_le _ _)).
    + rewrite Hent, bool_decide_eq_true_2 by done. by destruct (_ <=? _).
  - assert (Hst : stale_leader c) by (exists li, r, nl; split_and!; [done|done|done|lia]).
    assert (Hb : forall l, each body l tt = Ok tt \/ each body l tt = Err LeaderCompleteness).
    { assert (Hb1 : forall e, body e tt = Ok tt \/ body e tt = Err LeaderCompleteness)
        by (intros e; unfold body; repeat case_match; auto).
      induction l as [|e l IH]; cbn; [by left|]. destruct (Hb1 e) as [->| ->]; cbn; auto. }
    destruct (Hb (nd_applied nl)); auto.
Qed.
End checks.

(** ** [check_invariants] *)
Lemma check_simrel c g F ex :
  s_cfg c = c0 -> crel c0 (MkNet (s_nodes c) ((snd <$> s_queue c) ++ ex)) g F -> leaders_ok (s_leaders c) g ->
  (exists c', check_invariants c = Ok c' /\ simrel ex c') \/
  (check_invariants c = Err LeaderCompleteness /\ stale_leader c) \/
  (check_invariants c = Panic /\ exists i r, s_node i c = Some r /\ 2 ^ 64 - 1 <= snapshot_index r).
Proof.
  intros Hc R L. destruct R as [HR Hn Hs Hp]. cbn in Hn, Hs, Hp. unfold check_invariants, check_election.
  assert (Hall : Forall (fun nd => exists n, nrel c0 F g n nd) (s_nodes c)).
  { apply Forall_forall. intros nd [i Hi]%list_elem_of_lookup.
    destruct (Forall2_lookup_r _ _ _ _ _ Hn Hi) as (n & _ & N). by exists n. }
  destruct (check_election_ok g F HR (s_nodes c) c Hall L) as (ls & Hls & ->). cbn [mbind outcome_bind].
  set (c1 := c <| s_leaders := ls |>). change (s_nodes c1) with (s_nodes c).
  assert (Hup : Forall (fun r => exists n, up c0 n r g) (omap nd_raft (s_nodes c))).
  { apply Forall_forall. intros r (nd & Hnd & Hr)%list_elem_of_omap. rewrite Forall_forall in Hall.
    destruct (Hall nd Hnd) as (n & N). exists n. by eapply rel_live. }
  assert (R1 : simrel ex c1).
  { split; [done|]. exists g, F. split; [by split|done]. }
  destruct (check_logs (omap nd_raft (s_nodes c))) as [[]|e|] eqn:Elogs.
  2:{ exfalso. by eapply check_logs_noerr. }
  2:{ right. right. split; [done|].
      destruct (decide (Exists (fun r => 2 ^ 64 - 1 <= snapshot_index r) (omap nd_raft (s_nodes c)))) as [Hx|Hx].
      - apply Exists_exists in Hx as (r & (nd & [i Hi]%list_elem_of_lookup & Hr)%list_elem_of_omap & Hbig).
        exists i, r. split; [|done]. unfold s_node. by rewrite Hi.
      - exfalso. rewrite (check_logs_ok g HR) in Elogs; [done|]. apply Forall_forall. intros r Hr.
        rewrite Forall_forall in Hup. split; [by apply Hup|]. apply Z.nle_gt. intros Hbig. apply Hx, Exists_exists. by exists r. }
  cbn. rewrite (check_compaction_ok g F HR _ Hn). cbn.
  destruct (longest (s_nodes c)) as [l|] eqn:El; [|left; by eexists].
  rewrite (check_state_machine_ok g F HR _ _ Hn El). cbn.
  destruct (check_leader_cases g F HR c1 l Hn El) as [->|[-> Hst]]; [left; by eexists|right; left; by split].
Qed.

Lemma check_post ex c : simrel ex c -> post (check_invariants c) (simrel ex).
Proof.
  intros (Hc & g & F & R & L).
  destruct (check_simrel c g F ex Hc R L) as [(c' & -> & ?)|[[-> _]|[-> _]]]; done.
Qed.

(** ** One tick *)
Lemma simrel_perm ex ex' c : simrel ex c -> (forall e, e ∈ ex' -> e ∈ ex) -> simrel ex' c.
Proof. intros R H. eapply simrel_weaken; [exact R|done..|]. set_solver. Qed.

Lemma on_raft_post {A} (m : M MemRaftStorage A) i ex c e :
  simrel ex c ->
  (forall cl, cl_nodes cl = s_nodes c -> cl_sent cl = (snd <$> s_queue c) ++ ex ->
     do_event draw_fuel c0 mem_default e cl = on_node (call m) i cl) ->
  post (on_raft m i c) (simrel ex).
Proof.
  intros R He. destruct (on_raft m i c) as [c'|err|] eqn:Hm; cbn; [by eapply simrel_on_raft| |done].
  unfold on_raft in Hm. destruct (s_nodes c !! i) as [nd|]; [|done].
  destruct (nd_raft nd) as [r|]; [|done]. destruct (m r) as [[x|err'|] r']; cbn in Hm; [done| |done].
  by injection Hm as <-.
Qed.

Lemma swap_at_in i j l e : e ∈ swap_at i j l -> e ∈ l.
Proof.
  unfold swap_at. destruct (l !! i) as [x|] eqn:Hi; [|done]. destruct (l !! j) as [y|] eqn:Hj; [|done].
  intros H. apply list_elem_of_lookup in H as [k Hk]. apply list_lookup_insert_Some in Hk as [(_ & <- & _)|[_ Hk]].
  - by eapply list_elem_of_lookup_2.
  - apply list_lookup_insert_Some in Hk as [(_ & <- & _)|[_ Hk]]; by eapply list_elem_of_lookup_2.
Qed.

Lemma shuffle_post due c :
  simrel due c -> post (shuffle draw_fuel due c) (fun '(due', c') => simrel due' c').
Proof.
  intros R. unfold shuffle. apply (post_each _ (fun _ '(due', c') => simrel due' c')); [|done].
  intros i _ [due' c'] R'. apply post_bind, s_below_quiet. intros v c2 Q. cbn.
  eapply (simrel_quiet []); [|exact Q]. cbn. eapply simrel_perm; [exact R'|]. intros e. apply swap_at_in.
Qed.

Lemma deliver_one_post env ex c :
  simrel (env :: ex) c -> post (deliver_one draw_fuel env c) (simrel ex).
Proof.
  intros R. unfold deliver_one. destruct (idx (env_to env) c) as [to|]; [|done].
  assert (Hk : exists k, ((snd <$> s_queue c) ++ env :: ex) !! k = Some env) by (apply list_elem_of_lookup; set_solver).
  destruct Hk as [k Hk]. apply post_bind.
  apply (post_mono _ (simrel (env :: ex))).
  - destruct (is_up to c).
    + apply post_bind. eapply post_mono; [apply (on_raft_post _ _ _ _ (EvDeliver to k) R)|].
      * intros cl _ Hs. cbn. by rewrite Hs, Hk.
      * intros c1 R1. apply post_bind, post_uadd. intros n. by destruct R1.
    + apply post_bind, post_uadd. intros n. by destruct R.
  - intros c1 R1. apply post_bind. eapply post_mono; [apply drain_simrel|].
    { eapply (simrel_perm _ ex); [exact R1|]. set_solver. }
    intros c2 R2. by apply check_post, apply_simrel.
Qed.

Lemma tick_post c : simrel [] c -> post (each (on_raft (tick draw_fuel)) (positions c) c) (simrel []).
Proof.
  intros R. apply (post_each _ (fun _ => simrel [])); [|done].
  intros i _ c1 R1. by apply (on_raft_post _ _ _ _ (EvTick i) R1).
Qed.

Lemma step_post c : simrel [] c -> post (s_step draw_fuel c) (simrel []).
Proof.
  intros R. unfold s_step. apply post_bind, post_uadd. intros now. apply post_bind.
  eapply post_mono; [apply tick_post; by destruct R|]. intros c1 R1. apply post_bind.
  eapply post_mono; [by apply drain_simrel|]. intros c2 R2. apply post_bind.
  eapply post_mono; [apply shuffle_post|].
  - eapply simrel_weaken; [exact R2|done..|]. cbn. intros e. rewrite app_nil_r.
    intros [H|H]%elem_of_app; apply list_elem_of_fmap in H as (x & -> & [_ Hx]%list_elem_of_filter);
      by apply list_elem_of_fmap_2.
  - intros [due c3] R3. apply post_bind. eapply post_mono.
    + apply (post_each _ (fun l => simrel l)); [|exact R3]. intros env l c4 R4. by apply deliver_one_post.
    + intros c4 R4. by apply check_post, apply_simrel.
Qed.

(** ** The other operations *)
Lemma crash_post i c : simrel [] c -> post (s_crash i c) (simrel []).
Proof.
  intros R. unfold s_crash. destruct (s_nodes c !! i) as [nd|] eqn:Hi; [|done]. cbn.
  eapply (simrel_event (EvCrash i)); [done|]. cbn. unfold on_node. cbn. by erewrite alter_insert by done.
Qed.

Lemma restart_post i c : simrel [] c -> post (s_restart draw_fuel i c) (simrel []).
Proof.
  intros R. assert (Hc : s_cfg c = c0) by apply R. unfold s_restart. rewrite Hc.
  destruct (s_nodes c !! i) as [nd|] eqn:Hi; [|done]. destruct (voters !! i) as [m|] eqn:Hm; [|done].
  destruct (restart draw_fuel c0 mem_default m _ nd) as [nd'|e|] eqn:Hr; cbn; [|done|done].
  eapply (simrel_event (EvRestart i (Z.lxor (s_seed c) (s_now c)))); [done|]. cbn. rewrite Hm. unfold on_node. cbn.
  erewrite alter_insert by done. by rewrite Hr.
Qed.

Lemma block_post a b c : simrel [] c -> post (block a b c) (simrel []).
Proof. intros R. unfold block. do 2 (case_match; [|done]). by destruct R. Qed.

Lemma isolate_post i c : simrel [] c -> post (isolate i c) (simrel []).
Proof.
  intros R. unfold isolate. apply (post_each _ (fun _ => simrel [])); [|done].
  intros j _ c1 R1. case_bool_decide; [done|]. apply post_bind. eapply post_mono; [by apply block_post|].
  intros c2 R2. by apply block_post.
Qed.

(** ** A proposal fails only when it is refused *)
Definition noerr {A} (m : M MemRaftStorage A) : Prop := forall r e, fst (m r) <> Err e.
Lemma noerr_bind {A B} (m : M MemRaftStorage A) (k : A -> M MemRaftStorage B) :
  noerr m -> (forall a, noerr (k a)) -> noerr (m ≫= k).
Proof.
  intros Hm Hk r e. unfold mbind, M_bind. specialize (Hm r). destruct (m r) as [[a|e'|] r']; cbn in *; [apply Hk|by specialize (Hm e')|done].
Qed.
Lemma noerr_uadd w a b : noerr (lift (uadd w a b)).
Proof. intros r e. unfold lift, uadd. cbn. by case_match. Qed.
Lemma noerr_for {A} (f : A -> M MemRaftStorage unit) l : (forall x, noerr (f x)) -> noerr (for_each f l).
Proof. intros Hf. induction l; cbn [for_each]; [done|by apply noerr_bind]. Qed.
Lemma noerr_append es : noerr (storage_op (append es)).
Proof. intros r e. unfold storage_op. cbn. unfold mem_write. destruct (uadd _ _ _); done. Qed.
Lemma noerr_log_from pos l : noerr (lift (log_from pos l)).
Proof. intros r e. unfold lift, log_from. cbn. by case_match. Qed.

Lemma noerr_broadcast rd : noerr (broadcast_append rd).
Proof.
  unfold broadcast_append. apply noerr_bind; [done|]. intros r. apply noerr_bind; [|done].
  apply noerr_for. intros m. case_bool_decide; [done|]. unfold send_append.
  apply noerr_bind; [done|]. intros r'. apply noerr_bind; [apply noerr_uadd|]. intros d. cbv zeta.
  destruct (_ <=? snapshot_index r'); [apply noerr_bind; [apply noerr_uadd|done]|].
  apply noerr_bind; [|done]. destruct (log_pos _ r'); [|done]. destruct (_ <=? last_index r'); [apply noerr_log_from|done].
Qed.

Lemma propose_err d (r r' : SimRaft) e : propose d r = (Err e, r') -> r' = r.
Proof.
  intros H. destruct (propose_refused d r) eqn:Hr.
  - destruct (proj1 (refused_unchanged d r) Hr) as [e' E]. rewrite E in H. by injection H.
  - exfalso. unfold propose_refused in Hr. unfold propose, get, mbind at 1, M_bind at 1 in H.
    destruct (is_leader r); [|done]. destruct d as [|x d]; [done|]. cbn [negb] in H.
    assert (N : noerr (idx ← append_local (x :: d); broadcast_append 0 ;; mret idx)).
    { apply noerr_bind; [|intros; apply noerr_bind; [apply noerr_broadcast|done]]. unfold append_local.
      apply noerr_bind; [done|]. intros r1. apply noerr_bind; [apply noerr_uadd|]. intros i.
      apply noerr_bind; [apply noerr_append|]. intros _. by repeat (apply noerr_bind; [done|intros ?]). }
    specialize (N r e). by rewrite H in N.
Qed.

Lemma read_err (r r' : SimRaft) e : read_barrier r = (Err e, r') -> r' = r.
Proof.
  intros H. destruct (read_refused r) eqn:Hr.
  - destruct (proj2 (refused_unchanged [] r) Hr) as [e' E]. rewrite E in H. by injection H.
  - exfalso. unfold read_refused in Hr. unfold read_barrier, get, mbind at 1, M_bind at 1 in H.
    destruct (is_leader r); [|done]. cbn [negb orb] in H, Hr. rewrite Hr in H.
    assert (N : noerr (round ← lift (uadd 64 (read_round r) 1);
      modify (fun r => r <| read_round := round |> <| pending_reads := pending_reads r ++ [(round, commit_index r, {[ me r ]})] |>) ;;
      broadcast_append round ;; mret round)).
    { apply noerr_bind; [apply noerr_uadd|]. intros n. apply noerr_bind; [done|]. intros _. apply noerr_bind; [apply noerr_broadcast|done]. }
    specialize (N r e). by rewrite H in N.
Qed.

(** A request to one node, an error of which is ignored. *)
Lemma ask_post {A} (m : M MemRaftStorage A) refused i c ev :
  (forall r, refused r = true -> exists e, m r = (Err e, r)) -> (forall r r' e, m r = (Err e, r') -> r' = r) ->
  (forall cl, do_event draw_fuel c0 mem_default ev cl = on_node (request refused m) i cl) ->
  simrel [] c -> post (ask m i c) (fun p => simrel [] (snd p)).
Proof.
  intros Href Herr Hev R. unfold ask, s_node. destruct (s_nodes c !! i) as [nd|] eqn:Hl; [|done]. cbn.
  destruct (nd_raft nd) as [r|] eqn:Hr; [|done]. destruct (m r) as [[x|e|] r'] eqn:Hm; cbn; [| |done].
  - unfold set_raft. eapply (simrel_event ev); [done|]. rewrite Hev. unfold on_node. cbn.
    erewrite !alter_insert by done. do 2 f_equal. unfold request. rewrite Hr.
    destruct (refused r) eqn:Hf; [by destruct (Href r Hf) as [e E]; rewrite E in Hm|].
    unfold call. by rewrite Hr, Hm.
  - apply Herr in Hm as ->. unfold set_raft. erewrite alter_id; [by destruct R|exact Hl|].
    rewrite <- Hr. by destruct nd.
Qed.
Lemma ask_propose_post i d c : simrel [] c -> post (ask (propose d) i c) (fun p => simrel [] (snd p)).
Proof.
  apply (ask_post _ (propose_refused d) _ _ (EvPropose i d)); [intros r; apply (refused_unchanged d r)|by apply propose_err|done].
Qed.
Lemma ask_read_post i c : simrel [] c -> post (ask read_barrier i c) (fun p => simrel [] (snd p)).
Proof.
  apply (ask_post _ read_refused _ _ (EvRead i)); [intros r; apply (refused_unchanged [] r)|by apply read_err|done].
Qed.
Lemma take_reads_post i c : simrel [] c -> post (take_reads_at i c) (fun p => simrel [] (snd p)).
Proof.
  intros R. unfold take_reads_at, s_node. destruct (s_nodes c !! i) as [nd|] eqn:Hl; [|done]. cbn.
  destruct (nd_raft nd) as [r|] eqn:Hr; [|done]. cbn. unfold set_raft. eapply (simrel_event (EvTakeReads i)); [done|].
  cbn. unfold on_node. cbn. erewrite !alter_insert by done. do 2 f_equal. unfold take_reads. by rewrite Hr.
Qed.

Lemma propose_post d c : simrel [] c -> post (s_propose d c) (fun p => simrel [] (snd p)).
Proof.
  intros R. unfold s_propose. destruct (s_leader c) as [l|]; [|done]. pose proof (ask_propose_post l d c R) as H.
  unfold ask in H. destruct (s_node l c) as [r|]; [|done]. by destruct (propose d r) as [[x|e|] r'].
Qed.
Lemma post_snd {A} (o : SimResult (A * Cluster)) P : post o (fun p => P (snd p)) -> post (snd <$> o) P.
Proof. by destruct o as [[a c]|e|]. Qed.

Lemma op_post o c : simrel [] c -> post (do_op draw_fuel o c) (simrel []).
Proof.
  intros R. destruct o; cbn [do_op].
  - by apply step_post.
  - by apply crash_post.
  - by apply restart_post.
  - by apply block_post.
  - by destruct R.
  - by apply isolate_post.
  - by apply post_snd, propose_post.
  - by apply post_snd, ask_propose_post.
  - by apply post_snd, ask_read_post.
  - by apply post_snd, take_reads_post.
  - by apply (on_raft_post _ _ _ _ (EvCompact i up_to) R).
  - by apply check_post.
Qed.

Lemma ops_post ops c : simrel [] c -> post (run_ops draw_fuel ops c) (simrel []).
Proof. intros R. apply (post_each _ (fun _ => simrel [])); [|done]. intros o _ c1 R1. by apply op_post. Qed.

(** ** Campaigns *)
Local Abbreviation kept_rel := (fun p => simrel [] (snd p)).
Lemma run_post n c : simrel [] c -> post (s_run draw_fuel n c) (simrel []).
Proof. intros R. apply (post_each _ (fun _ => simrel [])); [|done]. intros i _ c1 R1. by apply step_post. Qed.
Lemma run_until_leader_post n c : simrel [] c -> post (run_until_leader draw_fuel n c) kept_rel.
Proof.
  revert c. induction n as [|n IH]; intros c R; cbn [run_until_leader]; [done|]. apply post_bind.
  eapply post_mono; [by apply step_post|]. intros c1 R1. destruct (_ ≫= _) as [[l r]|]; [|by apply IH].
  destruct (_ && _); [done|by apply IH].
Qed.
Lemma propose_loop_post n e d c : safety_check e = false -> simrel [] c -> post (propose_loop draw_fuel n e d c) kept_rel.
Proof.
  intros He. revert c. induction n as [|n IH]; intros c R; cbn [propose_loop]; apply post_bind.
  all: eapply post_mono; [by apply propose_post|]; intros [[i|] c1] R1; [done|]; apply post_bind.
  all: eapply post_mono; [by apply run_post|]; intros c2 R2; (done || by apply IH).
Qed.
Lemma must_apply_post e i c : safety_check e = false -> simrel [] c -> post (must_apply draw_fuel e i c) (simrel []).
Proof.
  intros He R. unfold must_apply. apply post_bind. apply (post_mono _ kept_rel); [|by intros [[] c1] R1].
  generalize 3000%nat. intros n. revert c R. induction n as [|n IH]; intros c R; cbn [wait_applied]; [done|].
  apply post_bind. eapply post_mono; [by apply run_post|]. intros c1 R1. destruct (all_applied i c1); [done|by apply IH].
Qed.
Lemma propose_one_post i st : simrel [] (snd st) -> post (propose_one draw_fuel i st) kept_rel.
Proof.
  intros R. unfold propose_one. apply post_bind. eapply post_mono; [by apply propose_loop_post|]. intros [j c1] R1.
  apply post_bind. eapply post_mono; [by apply run_post|]. intros c2 R2. destruct (_ =? _)%nat; [|done].
  apply post_bind. eapply post_mono; [by apply crash_post|]. intros c3 R3.
  apply post_bind. eapply post_mono; [by apply run_post|]. intros c4 R4.
  apply post_bind. eapply post_mono; [by apply restart_post|]. by intros c5 R5.
Qed.
Lemma across_base_post l base n last c : simrel [] c -> post (across_base draw_fuel l base n last c) (simrel []).
Proof.
  intros R. unfold across_base. apply post_bind. eapply post_mono; [by apply check_post|]. intros c1 R1.
  apply post_bind. apply (post_mono _ kept_rel).
  { apply (post_each _ (fun _ => kept_rel)); [|done]. intros i _ st Rs. apply post_bind.
    eapply post_mono; [by apply propose_loop_post|]. intros [j c2] R2. apply post_bind. eapply post_mono; [by apply run_post|done]. }
  intros [tail c2] R2. apply post_bind. eapply post_mono; [by apply must_apply_post|]. intros c3 R3.
  apply post_bind. eapply post_mono; [by apply crash_post|]. intros c4 R4.
  apply post_bind. eapply post_mono; [by apply run_post|]. intros c5 R5.
  apply post_bind. eapply post_mono; [by apply restart_post|]. intros c6 R6.
  apply post_bind. eapply post_mono; [by apply run_post|]. intros c7 R7.
  destruct (s_node l c7) as [r|]; [|done]. destruct (_ =? _); [by apply check_post|done].
Qed.
Lemma compaction_case_post n last c : simrel [] c -> post (compaction_case draw_fuel n last c) (simrel []).
Proof.
  intros R. unfold compaction_case. apply post_bind. eapply post_mono; [by apply run_post|]. intros c1 R1.
  destruct (s_leader c1) as [l|]; [|done]. destruct (s_node l c1) as [r|] eqn:Hr; [|done].
  pose proof (on_raft_post (compact (compaction_horizon r)) l [] c1 (EvCompact l (compaction_horizon r)) R1 ltac:(done)) as H.
  unfold on_raft in H. unfold ask. rewrite Hr. unfold s_node in Hr. destruct (s_nodes c1 !! l) as [nd|]; [|done]. cbn in Hr.
  rewrite Hr in H. destruct (compact (compaction_horizon r) r) as [[base|e|] r']; cbn [of_core mbind outcome_bind post] in *; [|done|done].
  destruct (0 <? base); [by apply across_base_post|exact H].
Qed.
Lemma heal_loop_post n idx c : simrel [] c -> post (heal_loop draw_fuel n idx c) (simrel []).
Proof.
  revert idx c. induction n as [|n IH]; intros idx c R; cbn [heal_loop]; [done|]. apply post_bind.
  eapply post_mono; [by apply run_post|]. intros c1 R1. destruct idx as [i|].
  - destruct (all_applied i c1); [done|by apply IH].
  - apply post_bind. eapply post_mono; [by apply propose_post|]. intros [x c2] R2. by apply IH.
Qed.
Lemma isolated_post l c : simrel [] c -> post (isolated_run draw_fuel l c) (simrel []).
Proof.
  intros R. unfold isolated_run. assert (Hc : forall l c P, (forall z, P z) -> post (commit_of l c) P) by (intros ? ? ? ?; unfold commit_of; by case_match; cbn; auto).
  apply post_bind. eapply post_mono; [by apply isolate_post|]. intros c1 R1.
  apply post_bind, Hc. intros before. apply post_bind. eapply post_mono; [by apply ask_propose_post|]. intros [x c2] R2.
  apply post_bind. eapply post_mono; [by apply run_post|]. intros c3 R3. apply post_bind, Hc. intros after.
  destruct (negb _); [done|]. apply post_bind. eapply post_mono; [by apply ask_read_post|]. intros [round c4] R4.
  apply post_bind. eapply post_mono; [by apply run_post|]. intros c5 R5. apply post_bind. apply (post_mono _ (simrel [])).
  { destruct round as [r|e|]; [|done..]. apply post_bind. eapply post_mono; [by apply take_reads_post|].
    intros [reads c6] R6. destruct (existsb _ _); done. }
  intros c6 R6. apply post_bind. eapply post_mono; [apply heal_loop_post; by destruct R6|]. intros c7 R7.
  apply (post_each _ (fun _ => simrel [])); [|done]. intros i _ c8 R8. destruct (existsb _ _); done.
Qed.
End safe.

(** ** The initial cluster *)
Lemma sorted_keys_nodup {V} (m : bmap V) : bsorted m -> NoDup (bkeys m).
Proof.
  induction m as [|[k v] m IH]; [constructor|]. intros [Hk Hm]%bsorted_cons. cbn. constructor; [|by apply IH].
  unfold bkeys. intros ([k' v'] & -> & Hin)%list_elem_of_fmap. rewrite Forall_forall in Hk. specialize (Hk _ Hin).
  cbn in Hk. apply bcmp_lt in Hk. by rewrite bytes_cmp_refl in Hk.
Qed.
Lemma config_nodup ids : NoDup (members (Config_new ids)).
Proof.
  cbn. unfold sort_dedup. apply sorted_keys_nodup. induction ids as [|k ids IH]; [done|]. by apply binsert_sorted.
Qed.

Lemma reset_state fuel (r : SimRaft) : exists x y z,
  snd (reset_election_timeout fuel r) = r <| rng := x |> <| election_timeout := y |> <| election_elapsed := z |>.
Proof.
  assert (H0 : exists x y z, r = r <| rng := x |> <| election_timeout := y |> <| election_elapsed := z |>)
    by (exists (rng r), (election_timeout r), (election_elapsed r); by destruct r).
  unfold reset_election_timeout, gets, lift, modify, rng_below, mbind, M_bind.
  destruct (usub 32 _ _) as [d| |]; [|exact H0..].
  destruct (below _ _ _) as [[[v x]|]| |]; [|exact H0..].
  destruct (uadd 32 _ _) as [t| |]; cbn; [by exists x, t, 0|exists x, (election_timeout r), (election_elapsed r); by destruct r..].
Qed.

(** Reporting an empty frontier changes nothing on a fresh node. *)
Lemma set_applied_fresh fuel m cfg seed (r : SimRaft) :
  Raft_new fuel m cfg mem_default seed = Ok r -> set_applied 0 r = r.
Proof.
  unfold Raft_new. destruct (negb _); [done|]. cbn [load MemRaftStorage_ops mem_default m_state mbind outcome_bind].
  match goal with |- context [reset_election_timeout _ ?x] => set (r0 := x) end. cbn beta.
  destruct (reset_state fuel r0) as (x & y & z & E).
  destruct (reset_election_timeout fuel r0) as [[[]|e|] r']; [|done..]. intros [= <-]. cbn in E. by rewrite E.
Qed.

Section init.
Context (draw_fuel : nat) (ids : list NodeId) (seed : Z).
Local Abbreviation c0 := (Config_new ids).

Lemma new_crel vs1 vs2 ns2 done_ :
  members c0 = vs1 ++ vs2 -> length done_ = length vs1 ->
  Forall2 (fun m nd => exists r, Raft_new draw_fuel m c0 mem_default seed = Ok r /\ nd = MkNode (Some r) None []) vs2 ns2 ->
  (exists g F, crel c0 (MkNet (done_ ++ map (fun _ => MkNode None (Some mem_default) []) vs2) []) g F) ->
  exists g F, crel c0 (MkNet (done_ ++ ns2) []) g F.
Proof.
  intros Hm Hl H2. revert vs1 done_ Hm Hl. induction H2 as [|m nd vs2 ns2 (r & Hr & ->) _ IH]; intros vs1 done_ Hm Hl (g & F & R); [by exists g, F|].
  replace (done_ ++ MkNode (Some r) None [] :: ns2) with ((done_ ++ [MkNode (Some r) None []]) ++ ns2) by (by rewrite <- app_assoc).
  apply (IH (vs1 ++ [m])); [by rewrite <- app_assoc|rewrite !length_app; cbn; lia|].
  destruct (event_crel draw_fuel c0 (config_nodup ids) mem_default (EvRestart (length vs1) seed) _ g F R) as (g' & F' & _ & _ & R').
  exists g', F'. cbn [do_event] in R'. rewrite Hm, lookup_app_r, Nat.sub_diag in R' by done. cbn [lookup list_lookup] in R'.
  unfold on_node in R'. cbn [cl_nodes cl_sent map] in R'.
  erewrite alter_insert in R' by (rewrite lookup_app_r, Hl, Nat.sub_diag by (by rewrite Hl); done).
  unfold restart in R'. cbn [nd_raft nd_storage nd_applied length] in R'. change (default mem_default (Some mem_default)) with mem_default in R'.
  rewrite Hr in R'. cbn [mbind outcome_bind] in R'. change (Z.of_nat 0) with 0 in R'. rewrite (set_applied_fresh _ _ _ _ _ Hr) in R'.
  rewrite insert_app_r_alt, Hl, Nat.sub_diag in R' by (by rewrite Hl). rewrite <- app_assoc. exact R'.
Qed.

Lemma new_simrel net c : Cluster_new draw_fuel ids seed net = Ok c -> simrel c0 [] c.
Proof.
  unfold Cluster_new. cbv zeta. intros H. apply bind_ok_inv in H as (ns & Hns & [= <-]). split; [done|]. cbn.
  assert (H2 : Forall2 (fun m nd => exists r, Raft_new draw_fuel m c0 mem_default seed = Ok r /\ nd = MkNode (Some r) None []) (members c0) ns).
  { revert ns Hns. generalize (members c0). intros vs. induction vs as [|m vs IH]; intros ns Hns; cbn in Hns; [by injection Hns as <-|].
    destruct (Raft_new draw_fuel m c0 mem_default seed) as [r| |] eqn:Hr; [|done..].
    apply bind_ok_inv in Hns as (nd & [= <-] & Hns). apply bind_ok_inv in Hns as (ns' & Hns' & [= <-]).
    constructor; [by exists r|by apply IH]. }
  destruct (new_crel [] (members c0) ns [] eq_refl eq_refl H2) as (g & F & R).
  { exists g_init, (fun _ => 0%nat). apply (init_crel c0 mem_default). done. }
  exists g, F. split; [done|]. intros t n. by rewrite lookup_empty.
Qed.
End init.

(** ** Properties *)

(** A cluster is created related to the protocol, or not at all. *)
Lemma new_post draw_fuel ids seed net : post (Cluster_new draw_fuel ids seed net) (simrel (Config_new ids) []).
Proof.
  destruct (Cluster_new draw_fuel ids seed net) as [c|e|] eqn:Hc; cbn; [by eapply new_simrel| |done]. exfalso.
  unfold Cluster_new in Hc. cbv zeta in Hc. revert Hc. generalize (members (Config_new ids)) at 1. intros ms.
  assert (H : forall ms x, collect (fun m => match Raft_new draw_fuel m (Config_new ids) mem_default seed with
      | Ok r => Ok (MkNode (Some r) None []) | _ => Panic end) ms <> (Err x : SimResult (list SimNode))).
  { clear. intros ms x. induction ms as [|m ms IH]; cbn; [done|]. destruct (Raft_new _ _ _ _ _); cbn; [|done..].
    destruct (collect _ ms) as [l|y|]; cbn in *; congruence. }
  specialize (H ms). destruct (collect _ ms) as [l|x|]; cbn in *; [done|by specialize (H x)|done].
Qed.
Lemma campaign_post draw_fuel ids seeds n : post (campaign draw_fuel ids seeds n) (fun _ => True).
Proof.
  pose proof (config_nodup ids) as Hnd. unfold campaign. apply (post_each _ (fun _ _ => True)); [|done]. intros seed _ _ _.
  apply post_bind, (post_mono _ (fun _ => True)); [|intros _ _; apply post_bind, (post_mono _ (fun _ => True)); [|done]].
  - unfold replication_case. apply post_bind. eapply post_mono; [apply new_post|]. intros c R. apply post_bind.
    eapply post_mono; [by eapply run_until_leader_post|]. intros [[l|] c1] R1; [|done]. apply post_bind.
    eapply post_mono; [apply (post_each _ (fun _ st => simrel (Config_new ids) [] (snd st))); [|exact R1]|].
    + intros i _ st Rs. by eapply propose_one_post.
    + intros [last c2] R2. apply post_bind. eapply post_mono; [by eapply must_apply_post|]. intros c3 R3.
      destruct (_ =? _)%nat; [|done]. eapply post_mono; [by eapply compaction_case_post|done].
  - unfold isolation_case. apply post_bind. eapply post_mono; [apply new_post|]. intros c R. apply post_bind.
    eapply post_mono; [by eapply run_until_leader_post|]. intros [[l|] c1] R1; [|done].
    eapply post_mono; [by eapply isolated_post|done].
Qed.

(** C34. The simulator's checks of election safety, log matching, compaction
    safety and state-machine safety never fire: neither in [campaign], for any
    voters, seeds and number of proposals, nor in any other sequence of ticks,
    crashes, restarts, partitions, proposals to the leader or to a chosen node,
    read barriers, collected reads, compactions and checks on a new cluster with
    any seed and network model. *)
Theorem sim_checks_never_fire draw_fuel ids e :
  (forall seeds proposals, campaign draw_fuel ids seeds proposals = Err e -> safety_check e = false) /\
  (forall seed net c ops, Cluster_new draw_fuel ids seed net = Ok c -> run_ops draw_fuel ops c = Err e -> safety_check e = false).
Proof.
  split.
  - intros seeds n He. pose proof (campaign_post draw_fuel ids seeds n) as H. by rewrite He in H.
  - intros seed net c ops Hc He. pose proof (ops_post draw_fuel _ (config_nodup ids) ops c (new_simrel _ _ _ _ _ Hc)) as H.
    by rewrite He in H.
Qed.

(** In every state a campaign reaches, with log positions below the top of
    [u64], [check_invariants] passes, unless the leader it consults is in an
    older term than some node: then only the leader-completeness check fires. *)
Theorem sim_check_sound draw_fuel ids seed net c ops c' :
  Cluster_new draw_fuel ids seed net = Ok c -> run_ops draw_fuel ops c = Ok c' ->
  (forall i r, s_node i c' = Some r -> snapshot_index r < 2 ^ 64 - 1) ->
  (exists c'', check_invariants c' = Ok c'') \/
  (check_invariants c' = Err LeaderCompleteness /\ stale_leader c').
Proof.
  intros Hc Hr Hb. pose proof (ops_post draw_fuel _ (config_nodup ids) ops c (new_simrel _ _ _ _ _ Hc)) as H.
  rewrite Hr in H. destruct H as (Hcfg & g & F & R & L).
  destruct (check_simrel (Config_new ids) (config_nodup ids) c' g F [] Hcfg R L) as [(c'' & ? & _)|[?|[_ (i & r & Hi & Hbig)]]]; [left; by exists c''|by right|].
  specialize (Hb i r Hi). lia.
Qed.

(** A campaign of three voters without loss: node 1 leads and is isolated, node
    2 is elected by the others and commits, and then crashes. *)
Module Alarm.
Definition ids : list NodeId := [repeat 1 16; repeat 2 16; repeat 3 16].
Definition net : NetworkModel := MkNetworkModel 0 0 1 1.
Definition before : list op := repeat OpStep 25 ++ OpIsolate 1 :: repeat OpStep 33.
Definition start : SimResult Cluster := Cluster_new 100 ids 7 net.
Definition run (ops : list op) : SimResult Cluster := c ← start; run_ops 100 ops c.

Definition get (o : SimResult Cluster) : Cluster :=
  match o with
  | Ok c => c
  | _ => MkCluster (Config_new ids) [] (rng_new 0) 0 net [] 0 ∅ ∅ 0 0 0
  end.
Lemma start_ok : Cluster_new 100 ids 7 net = Ok (get start).
Proof. vm_compute. reflexivity. Qed.
End Alarm.

(** The leader-completeness check raises a false alarm: in a correct run,
    crashing the current leader while an older one is isolated makes
    [check_invariants] consult the older one, which lacks an entry committed in
    a later term; the same run without the crash passes. *)
Theorem sim_leader_false_alarm :
  is_ok (Alarm.run (Alarm.before ++ [OpStep])) = true /\
  is_ok (Alarm.run (Alarm.before ++ [OpCrash 2])) = true /\
  Alarm.run (Alarm.before ++ [OpCrash 2; OpStep]) = Err LeaderCompleteness.
Proof. split_and!; vm_compute; reflexivity. Qed.

Lemma sim_checks_never_fire_witness :
  exists e, run_ops 100 (Alarm.before ++ [OpReadBarrier 1; OpTakeReads 1; OpProposeAt 1 [7]; OpCrash 2; OpStep]) (Alarm.get Alarm.start) = Err e /\
    safety_check e = false.
Proof.
  exists LeaderCompleteness.
  assert (Hr : run_ops 100 (Alarm.before ++ [OpReadBarrier 1; OpTakeReads 1; OpProposeAt 1 [7]; OpCrash 2; OpStep]) (Alarm.get Alarm.start) =
    Err LeaderCompleteness) by (vm_compute; reflexivity).
  split; [exact Hr|].
  exact (proj2 (sim_checks_never_fire 100 Alarm.ids LeaderCompleteness) 7 Alarm.net (Alarm.get Alarm.start) _ Alarm.start_ok Hr).
Defined.

(** The bound of the positions, as a test. *)
Lemma small_bases c :
  forallb (fun nd => match nd_raft nd with Some r => snapshot_index r <? 2 ^ 64 - 1 | None => true end) (s_nodes c) = true ->
  forall i r, s_node i c = Some r -> snapshot_index r < 2 ^ 64 - 1.
Proof.
  intros H i r Hr. unfold s_node in Hr. destruct (s_nodes c !! i) as [nd|] eqn:Hi; [|done]. cbn in Hr.
  rewrite forallb_forall in H. specialize (H nd). rewrite Hr in H. apply Z.ltb_lt, H, list_elem_of_In.
  by eapply list_elem_of_lookup_2.
Qed.

Lemma sim_check_sound_witness :
  let c := Alarm.get (Alarm.run Alarm.before) in
  (exists c', check_invariants c = Ok c') \/ (check_invariants c = Err LeaderCompleteness /\ stale_leader c).
Proof.
  apply (sim_check_sound 100 Alarm.ids 7 Alarm.net (Alarm.get Alarm.start) Alarm.before _ Alarm.start_ok).
  - vm_compute. reflexivity.
  - apply small_bases. vm_compute. reflexivity.
Defined.
