(* ===== verification/Explore.v ===== *)
(** * Explicit-state exploration (src/crates/carolina-models/src/lib.rs)

    The breadth-first search the formal gates run on, over an arbitrary state
    type with a successor function.  Proved: it terminates within its state
    budget; a clean, complete report means that every reachable state
    satisfies the invariant; a reported violation is a real path to a state
    that breaks it, and no shorter path does.

    Labels, invariant names and state descriptions are strings in the source;
    here they are arbitrary types, so that a label is an action and an
    invariant name a constructor.  The invariant returns [None] for [Ok(())]. *)

From stdpp Require Import gmap list.
From S2P Require Import Prelude.

(** [Trace] and [ModelReport], without the two header strings. *)
Record Trace (L D : Type) : Type := MkTrace { steps : list L; final_state : D }.
Arguments MkTrace {L D}. Arguments steps {L D}. Arguments final_state {L D}.

Record ModelReport (L E D : Type) : Type := MkReport {
  r_states : nat;
  r_transitions : nat;
  r_max_depth : nat;
  r_truncated : bool;
  r_violation : option (E * Trace L D);
}.
Arguments MkReport {L E D}. Arguments r_states {L E D}. Arguments r_transitions {L E D}.
Arguments r_max_depth {L E D}. Arguments r_truncated {L E D}. Arguments r_violation {L E D}.

Definition passed {L E D} (r : ModelReport L E D) : bool :=
  match r_violation r with None => negb (r_truncated r) | Some _ => false end.

(** The verdict of a gate: a clean positive run, and a counterexample for
    every negative control. *)
Record GateEvidence (L E D : Type) : Type := MkGate {
  positive : ModelReport L E D;
  controls : list (ModelReport L E D);
}.
Arguments MkGate {L E D}. Arguments positive {L E D}. Arguments controls {L E D}.
Definition verdict {L E D} (g : GateEvidence L E D) : bool :=
  match r_violation (positive g) with
  | Some _ => false
  | None =>
      if r_truncated (positive g) then false
      else forallb (fun r => match r_violation r with Some _ => true | None => false end) (controls g)
  end.

(** [if c { out.push((a, s)) }] in a successor function. *)
Definition push {A S} (c : bool) (a : A) (s : S) : list (A * S) := if c then [(a, s)] else [].
Lemma elem_of_push {A S} c (a a' : A) (s s' : S) : (a', s') ∈ push c a s <-> c = true /\ a' = a /\ s' = s.
Proof. unfold push. destruct c; rewrite ?list_elem_of_singleton, ?elem_of_nil; naive_solver. Qed.
Lemma elem_of_concat_imap {A B} (f : nat -> A -> list B) (l : list A) y :
  y ∈ concat (imap f l) <-> exists i x, l !! i = Some x /\ y ∈ f i x.
Proof.
  rewrite list_elem_of_In, in_concat. setoid_rewrite <- list_elem_of_In. split.
  - intros (ys & Hys & Hy). apply elem_of_lookup_imap_1 in Hys as (i & x & -> & Hx). by exists i, x.
  - intros (i & x & Hx & Hy). exists (f i x). split; [|done]. by apply elem_of_lookup_imap_2.
Qed.

(** What the machines use of [iter().sum()], [any] and [all]. *)
Definition sum (l : list Z) : Z := foldr Z.add 0 l.
Arguments sum : simpl never.
Lemma sum_cons x l : sum (x :: l) = x + sum l.
Proof. done. Qed.
Lemma sum_map_insert {A} (f : A -> Z) l i x x' :
  l !! i = Some x -> sum (map f (<[i := x']> l)) = sum (map f l) - f x + f x'.
Proof.
  revert i. induction l as [|u l IH]; intros [|i] Hi; [done|done|..].
  - injection Hi as ->. change (<[0%nat := x']> (x :: l)) with (x' :: l). cbn [map]. rewrite !sum_cons. lia.
  - change (<[S i := x']> (u :: l)) with (u :: <[i := x']> l). cbn [map]. rewrite !sum_cons, (IH i Hi). lia.
Qed.
Lemma existsb_none {A} (f : A -> bool) l : Forall (fun x => f x = false) l -> existsb f l = false.
Proof. induction 1 as [|x l Hx _ IH]; cbn; [done|]. by rewrite Hx, IH. Qed.
Lemma forallb_all {A} (f : A -> bool) l : forallb f l = true -> Forall (fun x => f x = true) l.
Proof. rewrite forallb_forall, Forall_forall. setoid_rewrite list_elem_of_In. auto. Qed.
Lemma forallb_elem {A} (f : A -> bool) l x : forallb f l = true -> x ∈ l -> f x = true.
Proof. intros H%forallb_all. rewrite Forall_forall in H. auto. Qed.

(** Split a step of a machine into its actions. *)
Ltac actions H :=
  rewrite ?elem_of_app, ?elem_of_push in H;
  repeat match type of H with
         | _ \/ _ => destruct H as [H|H]
         end.

(** States as lists of integers, for the index of visited states. *)
Class Coded (A : Type) : Type := {
  code : A -> list Z;
  uncode : list Z -> option A;
  uncode_code a : uncode (code a) = Some a;
}.
#[global] Instance coded_countable {A} `{EqDecision A, Coded A} : Countable A :=
  inj_countable code uncode uncode_code.

Section explore.
Context {St : Type} `{Countable St} {L E D : Type}.
Context (next : St -> list (L * St)) (invariant : St -> option E) (describe : St -> D).

(** The local variables of [explore]. *)
Record Search : Type := MkSearch {
  states : list St;
  index : gmap St nat;
  parent : list (option (nat * L));
  depth : list nat;
  queue : list nat;
  transitions : nat;
  max_depth : nat;
}.

(** [trace_of]: at most one step per recorded state. *)
Fixpoint back (fuel : nat) (cur : nat) (par : list (option (nat * L))) : list L :=
  match fuel with
  | O => []
  | S f => match par !! cur with
           | Some (Some (p, label)) => label :: back f p par
           | _ => []
           end
  end.
Definition trace_of (i : nat) (s : St) (par : list (option (nat * L))) : Trace L D :=
  MkTrace (rev (back (length par) i par)) (describe s).

(** How the loop over the successors ends. *)
Inductive Ended : Type :=
| Continue (srch : Search)
| Violated (srch : Search) (e : E) (j : nat) (s : St)
| Truncated (srch : Search).

Section inner.
Context (max_states i d : nat).

Fixpoint expand (succs : list (L * St)) (q : Search) : Ended :=
  match succs with
  | [] => Continue q
  | (label, s) :: rest =>
      let q := MkSearch (states q) (index q) (parent q) (depth q) (queue q) (S (transitions q)) (max_depth q) in
      match index q !! s with
      | Some _ => expand rest q
      | None =>
          let j := length (states q) in
          let q := MkSearch (states q ++ [s]) (<[s := j]> (index q)) (parent q ++ [Some (i, label)])
                     (depth q ++ [S d]) (queue q) (transitions q) (max_depth q `max` S d) in
          match invariant s with
          | Some e => Violated q e j s
          | None =>
              if (max_states <=? length (states q))%nat then Truncated q
              else expand rest (MkSearch (states q) (index q) (parent q) (depth q) (queue q ++ [j])
                                  (transitions q) (max_depth q))
          end
      end
  end.
End inner.

Definition report (q : Search) (t : bool) (v : option (E * Trace L D)) : ModelReport L E D :=
  MkReport (length (states q)) (transitions q) (max_depth q) t v.

(** The main loop; [None] when the fuel runs out. *)
Fixpoint search (fuel : nat) (max_states : nat) (q : Search) : option (ModelReport L E D) :=
  match queue q with
  | [] => Some (report q false None)
  | i :: rest =>
      match fuel with
      | O => None
      | S f =>
          match states q !! i, depth q !! i with
          | Some current, Some d =>
              match expand max_states i d (next current)
                      (MkSearch (states q) (index q) (parent q) (depth q) rest (transitions q) (max_depth q)) with
              | Continue q' => search f max_states q'
              | Violated q' e j s => Some (report q' false (Some (e, trace_of j s (parent q'))))
              | Truncated q' => Some (report q' true None)
              end
          | _, _ => None
          end
      end
  end.

Definition start (init : St) : Search := MkSearch [init] {[ init := 0%nat ]} [None] [0%nat] [0%nat] 0 0.

Definition explore (fuel : nat) (init : St) (max_states : nat) : option (ModelReport L E D) :=
  match invariant init with
  | Some e => Some (MkReport 1 0 0 false (Some (e, trace_of 0 init [None])))
  | None => search fuel max_states (start init)
  end.

(** ** Paths *)
Inductive path (s0 : St) : list L -> St -> Prop :=
| path_nil : path s0 [] s0
| path_snoc ls s l s' : path s0 ls s -> (l, s') ∈ next s -> path s0 (ls ++ [l]) s'.
Definition reachable (s0 s : St) : Prop := exists ls, path s0 ls s.

(** An inductive invariant holds in every reachable state. *)
Lemma reachable_ind' (P : St -> Prop) s0 :
  P s0 -> (forall s l s', P s -> (l, s') ∈ next s -> P s') -> forall s, reachable s0 s -> P s.
Proof. intros H0 HS s [ls Hp]. induction Hp; eauto. Qed.

(** ** The search's bookkeeping *)
Section search.
Context (init : St).

(** The recorded states form a tree rooted at [init] whose parents are among
    the first [h], with their depths in order. *)
Record wf (q : Search) (h : nat) : Prop := {
  w_parent_len : length (parent q) = length (states q);
  w_depth_len : length (depth q) = length (states q);
  w_index s j : index q !! s = Some j <-> states q !! j = Some s;
  w_root : states q !! 0%nat = Some init /\ parent q !! 0%nat = Some None /\ depth q !! 0%nat = Some 0%nat;
  w_step j s : states q !! S j = Some s ->
    exists p l sp d, parent q !! S j = Some (Some (p, l)) /\ (p <= j)%nat /\ (p < h)%nat /\
      states q !! p = Some sp /\ (l, s) ∈ next sp /\ depth q !! p = Some d /\ depth q !! S j = Some (S d);
  w_sorted j k a b : depth q !! j = Some a -> depth q !! k = Some b -> (j <= k)%nat -> (a <= b)%nat;
}.

(** State [s] is recorded at a depth of at most one more than that of [i]. *)
Definition recorded (q : Search) (i : nat) (s : St) : Prop :=
  exists k dk d, states q !! k = Some s /\ depth q !! k = Some dk /\ depth q !! i = Some d /\ (dk <= S d)%nat.
Definition closed (q : Search) (h : nat) : Prop :=
  forall i s l s', (i < h)%nat -> states q !! i = Some s -> (l, s') ∈ next s -> recorded q i s'.
Definition good (q : Search) : Prop := forall s, s ∈ states q -> invariant s = None.

Lemma back_path q h fuel j s :
  wf q h -> (j < fuel)%nat -> states q !! j = Some s ->
  path init (rev (back fuel j (parent q))) s /\ depth q !! j = Some (length (back fuel j (parent q))).
Proof.
  intros W. revert j s. induction fuel as [|f IH]; intros j s Hj Hs; [lia|]. destruct j as [|j]; cbn [back].
  - destruct (w_root _ _ W) as (H0 & -> & Hd). simplify_eq. split; [constructor|done].
  - destruct (w_step _ _ W j s Hs) as (p & l & sp & d & -> & Hp & _ & Hsp & Hn & Hd & Hd').
    destruct (IH p sp ltac:(lia) Hsp) as [P1 P2]. cbn. split; [by econstructor|]. congruence.
Qed.

(** States at most [d] steps away are recorded once everything at a depth
    below [d] has been expanded. *)
Lemma near_recorded q h0 h d ls s :
  wf q h0 -> closed q h ->
  (forall j dj, depth q !! j = Some dj -> (dj < d)%nat -> (j < h)%nat) ->
  path init ls s -> (length ls <= d)%nat ->
  exists j dj, states q !! j = Some s /\ depth q !! j = Some dj /\ (dj <= length ls)%nat.
Proof.
  intros W C Hexp Hp. induction Hp as [|ls s l s' Hp IH Hn]; intros Hl.
  - destruct (w_root _ _ W) as (? & _ & ?). exists 0%nat, 0%nat. by split_and!.
  - rewrite length_app in Hl |- *. cbn in Hl |- *. destruct (IH ltac:(lia)) as (j & dj & Hj & Hdj & Hle).
    assert (Hjh : (j < h)%nat) by (eapply Hexp; [done|lia]).
    destruct (C j s l s' Hjh Hj Hn) as (k & dk & d' & Hk & Hdk & Hd' & Hle'). simplify_eq.
    exists k, dk. split_and!; try done. lia.
Qed.

(** Once all recorded states are expanded, all reachable ones are recorded. *)
Lemma all_recorded q ls s :
  wf q (length (states q)) -> closed q (length (states q)) -> path init ls s -> s ∈ states q.
Proof.
  intros W C Hp. destruct (near_recorded q _ _ (length ls) ls s W C) as (j & dj & Hj & _); try done.
  - intros j dj Hj _. apply lookup_lt_Some in Hj. by rewrite (w_depth_len _ _ W) in Hj.
  - by eapply list_elem_of_lookup_2.
Qed.

(** ** Recording a state *)
Definition add (q : Search) (s : St) (p : nat) (l : L) (d : nat) : Search :=
  MkSearch (states q ++ [s]) (<[s := length (states q)]> (index q)) (parent q ++ [Some (p, l)])
    (depth q ++ [S d]) (queue q) (transitions q) (max_depth q `max` S d).

Section add.
Context (q : Search) (i : nat) (cur s : St) (l : L) (d : nat).
Context (W : wf q (S i)) (Hi : states q !! i = Some cur) (Hd : depth q !! i = Some d).
Context (Hnew : index q !! s = None) (Hn : (l, s) ∈ next cur).

(** Everything recorded so far is at most one deeper than [i]. *)
Lemma depth_bound j dj : depth q !! j = Some dj -> (dj <= S d)%nat.
Proof.
  intros Hj. destruct j as [|j]; [destruct (w_root _ _ W) as (_ & _ & ?); simplify_eq; lia|].
  assert (Hlt : (S j < length (states q))%nat) by (rewrite <- (w_depth_len _ _ W); by eapply lookup_lt_Some).
  destruct (lookup_lt_is_Some_2 _ _ Hlt) as [sj Hsj].
  destruct (w_step _ _ W j sj Hsj) as (p & l' & sp & dp & _ & _ & Hp & _ & _ & Hdp & Hdj). simplify_eq.
  pose proof (w_sorted _ _ W p i _ _ Hdp Hd ltac:(lia)). lia.
Qed.

Lemma add_old {A} (xs : list A) x k y : xs !! k = Some y -> (xs ++ [x]) !! k = Some y.
Proof. intros. by apply lookup_app_l_Some. Qed.

Lemma add_wf : wf (add q s i l d) (S i).
Proof.
  pose proof (w_parent_len _ _ W) as HP. pose proof (w_depth_len _ _ W) as HD.
  assert (Hilt : (i < length (states q))%nat) by (by eapply lookup_lt_Some).
  split; unfold add; cbn [states index parent depth].
  - by rewrite !length_app, HP.
  - by rewrite !length_app, HD.
  - intros s' j. destruct (decide (s' = s)) as [->|Hne].
    + rewrite lookup_insert_eq, lookup_snoc_Some. split.
      * intros [= <-]. by right.
      * intros [[_ Hj]|[-> _]]; [|done]. apply (w_index _ _ W) in Hj. congruence.
    + rewrite lookup_insert_ne, (w_index _ _ W), lookup_snoc_Some by done. split.
      * intros Hj. left. split; [by eapply lookup_lt_Some|done].
      * intros [[_ ?]|[_ ?]]; [done|congruence].
  - destruct (w_root _ _ W) as (? & ? & ?). split_and!; by apply add_old.
  - intros j s' Hj. apply lookup_snoc_Some in Hj as [[Hlt Hj]|[Ej <-]].
    + destruct (w_step _ _ W j s' Hj) as (p & l' & sp & dp & ? & ? & ? & ? & ? & ? & ?).
      exists p, l', sp, dp. split_and!; try done; by apply add_old.
    + exists i, l, cur, d. rewrite Ej. split_and!; try done; try lia; [| by apply add_old| by apply add_old|].
      * rewrite <- HP. by rewrite lookup_app_r, Nat.sub_diag by done.
      * rewrite <- HD. by rewrite lookup_app_r, Nat.sub_diag by done.
  - intros j k a b Ha Hb Hjk. apply lookup_snoc_Some in Ha as [[Hj Ha]|[-> <-]]; apply lookup_snoc_Some in Hb as [[Hk Hb]|[-> <-]].
    + by eapply (w_sorted _ _ W j k).
    + by eapply depth_bound.
    + lia.
    + done.
Qed.

Lemma add_recorded k x : recorded q k x -> recorded (add q s i l d) k x.
Proof.
  intros (j & dj & dk & ? & ? & ? & ?). exists j, dj, dk. unfold add; cbn. split_and!; try done; by apply add_old.
Qed.
Lemma add_recorded_new : recorded (add q s i l d) i s.
Proof.
  exists (length (states q)), (S d), d. unfold add; cbn. split_and!; try done.
  - by rewrite lookup_app_r, Nat.sub_diag.
  - rewrite <- (w_depth_len _ _ W). by rewrite lookup_app_r, Nat.sub_diag.
  - by apply add_old.
Qed.
Lemma add_closed h : closed q h -> (h <= length (states q))%nat -> closed (add q s i l d) h.
Proof.
  intros C Hh k x l' s' Hk Hx Hs'. apply add_recorded. eapply C; try done.
  cbn in Hx. by rewrite lookup_app_l in Hx by lia.
Qed.
End add.

(** ** The loop over the successors *)

(** The facts the loop maintains while it expands state [i]. *)
Record expanding (q : Search) (i : nat) (cur : St) (d : nat) (succs : list (L * St)) : Prop := {
  x_wf : wf q (S i);
  x_cur : states q !! i = Some cur;
  x_d : depth q !! i = Some d;
  x_queue : queue q = seq (S i) (length (states q) - S i);
  x_closed : closed q i;
  x_sub l s : (l, s) ∈ succs -> (l, s) ∈ next cur;
  x_done l s : (l, s) ∈ next cur -> (l, s) ∈ succs \/ recorded q i s;
  x_good : good q;
}.

Lemma expand_spec max_states i cur d succs q :
  expanding q i cur d succs ->
  match expand max_states i d succs q with
  | Continue q' => expanding q' i cur d [] /\ (length (states q') < max_states \/ states q' = states q)%nat
  | Violated q' e j s =>
      wf q' (S i) /\ states q' !! j = Some s /\ S j = length (states q') /\ depth q' !! j = Some (S d) /\
      depth q' !! i = Some d /\
      invariant s = Some e /\ closed q' i /\ (forall k x, states q' !! k = Some x -> k <> j -> invariant x = None)
  | Truncated q' => (max_states <= length (states q'))%nat
  end.
Proof.
  revert q. induction succs as [|[l s] rest IH]; intros q X; cbn [expand]; [by split; auto|]. cbn [index states].
  destruct X as [W Hc Hd Hq C Hsub Hdone G].
  destruct (index q !! s) as [k|] eqn:Hk.
  - match goal with |- context [expand _ _ _ _ ?x] => set (q1 := x) end.
    assert (Hrec : recorded q i s).
    { apply (w_index _ _ W) in Hk. assert (Hlt : (k < length (depth q))%nat)
        by (rewrite (w_depth_len _ _ W); by eapply lookup_lt_Some).
      destruct (lookup_lt_is_Some_2 _ _ Hlt) as [dk Hdk]. exists k, dk, d. split_and!; try done. by eapply depth_bound. }
    apply (IH q1). split; try done.
    + by destruct W.
    + intros l' s' H'. apply Hsub. by right.
    + intros l' s' H'. destruct (Hdone l' s' H') as [[[= -> ->]|Hin]%elem_of_cons|Hr]; auto.
  - match goal with |- context [invariant s] => idtac end.
    assert (Hn : (l, s) ∈ next cur) by (apply Hsub; by left).
    pose proof (add_wf q i cur s l d W Hc Hd Hk Hn) as W1.
    pose proof (add_recorded_new q i s l d W Hd) as Hnew.
    assert (Hilt : (i < length (states q))%nat) by (by eapply lookup_lt_Some).
    pose proof (add_closed q i s l d i C ltac:(lia)) as C1.
    destruct (invariant s) as [e|] eqn:He.
    + split_and!; try done.
      * by destruct W1.
      * cbn. by rewrite lookup_app_r, Nat.sub_diag.
      * cbn. rewrite length_app. cbn. lia.
      * cbn. rewrite <- (w_depth_len _ _ W). by rewrite lookup_app_r, Nat.sub_diag.
      * by apply add_old.
      * intros k x Hx Hne. cbn in Hx. apply lookup_snoc_Some in Hx as [[_ Hx]|[-> _]]; [|done].
        apply G. by eapply list_elem_of_lookup_2.
    + destruct (Nat.leb_spec max_states (length (states q ++ [s]))) as [Hle|Hgt]; [done|].
      match goal with |- context [expand _ _ _ _ ?x] => set (q1 := x) end.
      assert (X1 : expanding q1 i cur d rest).
      { split; try done.
        - by destruct W1.
        - by apply add_old.
        - by apply add_old.
        - cbn. rewrite Hq, length_app. cbn.
          replace (length (states q) + 1 - S i)%nat with (length (states q) - S i + 1)%nat by lia.
          rewrite seq_app. do 2 f_equal. cbn. f_equal. lia.
        - intros l' s' H'. apply Hsub. by right.
        - intros l' s' H'. destruct (Hdone l' s' H') as [[[= -> ->]|Hin]%elem_of_cons|Hr]; auto.
          right. by apply (add_recorded q i s l d).
        - intros x [Hx|Hx%list_elem_of_singleton]%elem_of_app; [by apply G|by subst]. }
      specialize (IH q1 X1). destruct (expand _ _ _ _ q1) as [q'|q' e j s'|q']; [|done|done].
      destruct IH as [IH1 [IH2|IH2]]; (split; [done|left]); [done|]. rewrite IH2. done.
Qed.

(** ** The main loop *)

(** The state between two iterations: the first [h] states are expanded and
    the queue holds the rest. *)
Record searching (q : Search) (h : nat) : Prop := {
  s_wf : wf q h;
  s_queue : queue q = seq h (length (states q) - h);
  s_h : (h <= length (states q))%nat;
  s_closed : closed q h;
  s_good : good q;
}.

Lemma start_searching : invariant init = None -> searching (start init) 0.
Proof.
  intros H0. split; [|done|cbn; lia|intros i s l s' Hi; lia|].
  - split; cbn; try done.
    + intros s j. rewrite lookup_singleton_Some. destruct j; cbn; naive_solver.
    + intros [|j] k a b; [|done]. destruct k; [|done]. intros [= <-] [= <-]. done.
  - intros s Hs. cbn in Hs. apply list_elem_of_singleton in Hs as ->. done.
Qed.

(** Popping the next state starts its expansion. *)
Lemma pop_expanding q h i rest :
  searching q h -> queue q = i :: rest ->
  i = h /\ exists cur d, states q !! i = Some cur /\ depth q !! i = Some d /\
    expanding (MkSearch (states q) (index q) (parent q) (depth q) rest (transitions q) (max_depth q)) i cur d (next cur).
Proof.
  intros [W Hq Hh C G] Hpop. rewrite Hq in Hpop.
  destruct (length (states q) - h)%nat as [|m] eqn:Hm; [done|]. cbn in Hpop. injection Hpop as <- <-. split; [done|].
  destruct (lookup_lt_is_Some_2 (states q) h ltac:(lia)) as [cur Hcur].
  destruct (lookup_lt_is_Some_2 (depth q) h ltac:(rewrite (w_depth_len _ _ W); lia)) as [d Hd].
  exists cur, d. split_and!; try done. split; cbn; try done.
  - destruct W. split; try done. intros j s Hs. destruct (w_step0 j s Hs) as (p & l & sp & dp & ? & ? & ? & ?).
    exists p, l, sp, dp. split_and!; naive_solver lia.
  - f_equal. lia.
  - by left.
Qed.

Lemma expanded_searching q i cur d : expanding q i cur d [] -> searching q (S i).
Proof.
  intros [W Hc Hd Hq C _ Hdone G]. split; [done|done| | |done].
  - apply lookup_lt_Some in Hc. lia.
  - intros k s l s' Hk Hs Hn. destruct (decide (k = i)) as [->|]; [|eapply C; try done; lia].
    rewrite Hc in Hs. injection Hs as <-. destruct (Hdone l s' Hn) as [Hx|?]; [by apply not_elem_of_nil in Hx|done].
Qed.

Lemma queue_empty q h : searching q h -> queue q = [] -> forall s, reachable init s -> invariant s = None.
Proof.
  intros [W Hq Hh C G] He s [ls Hp]. apply G. rewrite He in Hq.
  assert (h = length (states q)) as -> by (destruct (length (states q) - h)%nat eqn:?; [lia|done]).
  by eapply all_recorded.
Qed.

(** The first bad state found is at minimal depth. *)
Lemma violation_minimal q i j s d e ls s' :
  wf q (S i) -> closed q i -> depth q !! i = Some d -> depth q !! j = Some (S d) ->
  (forall k x, states q !! k = Some x -> k <> j -> invariant x = None) ->
  states q !! j = Some s -> invariant s = Some e ->
  path init ls s' -> invariant s' <> None -> (S d <= length ls)%nat.
Proof.
  intros W C Hi Hj G Hs He Hp Hbad. destruct (decide (length ls <= d)%nat) as [Hle|]; [exfalso|lia].
  destruct (near_recorded q (S i) i d ls s' W C) as (k & dk & Hk & Hdk & Hlen); try done.
  - intros k dk Hk Hlt. destruct (decide (k < i)%nat) as [|Hge]; [done|].
    pose proof (w_sorted _ _ W i k _ _ Hi Hk ltac:(lia)). lia.
  - destruct (decide (k = j)) as [->|Hne]; [simplify_eq; lia|]. apply Hbad. by eapply G.
Qed.

(** What a report means. *)
Definition truthful (r : ModelReport L E D) : Prop :=
  match r_violation r with
  | None => r_truncated r = false -> forall s, reachable init s -> invariant s = None
  | Some (e, t) => exists s, path init (steps t) s /\ invariant s = Some e /\ final_state t = describe s /\
      forall ls s', path init ls s' -> invariant s' <> None -> (length (steps t) <= length ls)%nat
  end.

Lemma search_truthful fuel max_states q h r :
  searching q h -> search fuel max_states q = Some r -> truthful r.
Proof.
  revert q h. induction fuel as [|f IH]; intros q h S; cbn [search].
  { destruct (queue q) as [|i rest] eqn:Hq; [|done]. intros [= <-] _. by eapply queue_empty. }
  destruct (queue q) as [|i rest] eqn:Hq; [intros [= <-] _; by eapply queue_empty|].
  destruct (pop_expanding q h i rest S Hq) as (-> & cur & d & Hcur & Hd & X). rewrite Hcur, Hd.
  pose proof (expand_spec max_states h cur d (next cur) _ X) as HX.
  destruct (expand _ _ _ _ _) as [q'|q' e j s|q'].
  - destruct HX as [HX _]. eapply IH. by eapply expanded_searching.
  - intros [= <-]. destruct HX as (W & Hs & Hj & Hdj & Hdi & He & C & G). exists s.
    destruct (back_path q' _ (length (parent q')) j s W) as [P1 P2]; [rewrite (w_parent_len _ _ W); lia|done|].
    cbn. split_and!; try done. intros ls s' Hp Hbad. rewrite length_rev. rewrite Hdj in P2. injection P2 as <-.
    by eapply violation_minimal.
  - by intros [= <-].
Qed.

(** Each iteration expands one more of at most [max_states] states. *)
Lemma search_terminates fuel max_states q h :
  searching q h -> (length (states q) < max_states \/ length (states q) = 1)%nat ->
  (max 1 max_states - h <= fuel)%nat -> is_Some (search fuel max_states q).
Proof.
  revert q h. induction fuel as [|f IH]; intros q h S Hlen Hf; cbn [search].
  { destruct (queue q) as [|i rest] eqn:Hq; [by eexists|]. exfalso.
    pose proof (s_queue _ _ S) as Hs. rewrite Hq in Hs. destruct (length (states q) - h)%nat eqn:?; [done|]. lia. }
  destruct (queue q) as [|i rest] eqn:Hq; [by eexists|].
  destruct (pop_expanding q h i rest S Hq) as (-> & cur & d & Hcur & Hd & X). rewrite Hcur, Hd.
  pose proof (expand_spec max_states h cur d (next cur) _ X) as HX.
  destruct (expand _ _ _ _ _) as [q'|q' e j s|q']; [|by eexists..].
  destruct HX as [HX Hlen']. eapply IH; [by eapply expanded_searching| |lia].
  destruct Hlen' as [?| ->]; [by left|done].
Qed.
End search.

Lemma explore_report fuel init max_states r :
  explore fuel init max_states = Some r -> truthful init r.
Proof.
  unfold explore. destruct (invariant init) as [e|] eqn:Hi.
  - intros [= <-]. cbn. exists init. split_and!; try done; [constructor|lia].
  - intros Hr. by eapply (search_truthful init); [apply start_searching|].
Qed.
Lemma explore_returns fuel init max_states :
  (max 1 max_states <= fuel)%nat -> is_Some (explore fuel init max_states).
Proof.
  intros Hf. unfold explore. destruct (invariant init) as [e|] eqn:Hi; [by eexists|].
  eapply search_terminates; [by apply start_searching|by right|lia].
Qed.

(** Consequences for a gate: a safe machine is never reported, and a machine
    with a bad reachable state is, unless the search was cut short. *)
Lemma report_safe fuel init max_states r :
  explore fuel init max_states = Some r -> (forall s, reachable init s -> invariant s = None) -> r_violation r = None.
Proof.
  intros Hr%explore_report Hs. unfold truthful in Hr. destruct (r_violation r) as [[e t]|]; [|done].
  destruct Hr as (s & Hp & He & _). rewrite Hs in He; [done|]. by exists (steps t).
Qed.
Lemma report_unsafe fuel init max_states r ls s :
  explore fuel init max_states = Some r -> path init ls s -> invariant s <> None ->
  r_truncated r = true \/ is_Some (r_violation r).
Proof.
  intros Hr%explore_report Hp Hs. unfold truthful in Hr. destruct (r_violation r) as [[e t]|]; [by right; eexists|].
  left. destruct (r_truncated r); [done|]. destruct Hs. apply Hr; [done|]. by exists ls.
Qed.

(** Following given labels, and the path it takes. *)
Definition follow `{EqDecision L} (init : St) (ls : list L) : option St :=
  foldl (fun o l => s ← o; snd <$> List.find (fun p => bool_decide (p.1 = l)) (next s)) (Some init) ls.
Lemma follow_path `{EqDecision L} init ls s : follow init ls = Some s -> path init ls s.
Proof.
  revert s. induction ls as [|l ls IH] using rev_ind; intros s; [intros [= <-]; constructor|].
  unfold follow in *. rewrite foldl_app. cbn. intros H'. apply bind_Some in H' as (s1 & H1 & H2).
  apply fmap_Some in H2 as ([l' s'] & H2 & ->). apply List.find_some in H2 as [Hin Hl].
  apply bool_decide_eq_true in Hl. cbn in Hl. subst. eapply path_snoc; [by apply IH|]. by apply list_elem_of_In.
Qed.

(** C5. A report of the breadth-first search is truthful: without violation and
    truncation the invariant holds in every reachable state; a violation comes
    with a path of enabled actions from the initial state to a state that
    breaks that invariant, and no shorter path reaches a bad state. *)
Theorem explore_truthful fuel init max_states r :
  explore fuel init max_states = Some r ->
  match r_violation r with
  | None => r_truncated r = false -> forall s, reachable init s -> invariant s = None
  | Some (e, t) => exists s, path init (steps t) s /\ invariant s = Some e /\ final_state t = describe s /\
      forall ls s', path init ls s' -> invariant s' <> None -> (length (steps t) <= length ls)%nat
  end.
Proof. apply explore_report. Qed.

(** The search terminates: with one iteration per state of the budget it
    always returns a report. *)
Theorem explore_terminates fuel init max_states :
  (max 1 max_states <= fuel)%nat -> is_Some (explore fuel init max_states).
Proof. apply explore_returns. Qed.
End explore.

(** ** Gates: a machine with broken variants *)
Section gate.
Context {St : Type} `{Countable St} {L E D C : Type}.
Context (next : option C -> St -> list (L * St)) (invariant : St -> option E) (describe : St -> D) (init : St).

(** The runs of a list of controls: each is caught or cut short. *)
Lemma controls_caught N cs : (1 <= N)%nat ->
  Forall (fun c => exists ls s, path (next (Some c)) init ls s /\ invariant s <> None) cs ->
  exists rs, mapM (fun c => explore (next (Some c)) invariant describe N init N) cs = Some rs /\
    Forall (fun r => r_truncated r = true \/ is_Some (r_violation r)) rs.
Proof.
  intros HN. induction 1 as [|c cs (ls & s & Hp & Hs) _ (rs & Hrs & Hall)]; [by exists []|].
  destruct (explore_returns (next (Some c)) invariant describe N init N) as [r Hr]; [lia|].
  exists (r :: rs). cbn. rewrite Hr. cbn. rewrite Hrs. split; [done|].
  constructor; [|done]. by eapply report_unsafe.
Qed.

Lemma gate_sound N cs : (1 <= N)%nat ->
  (forall s, reachable (next None) init s -> invariant s = None) ->
  Forall (fun c => exists ls s, path (next (Some c)) init ls s /\ invariant s <> None) cs ->
  exists g,
    (p ← explore (next None) invariant describe N init N;
     rs ← mapM (fun c => explore (next (Some c)) invariant describe N init N) cs; Some (MkGate p rs)) = Some g /\
    r_violation (positive g) = None /\
    (verdict g = true \/ Exists (fun r => r_truncated r = true) (positive g :: controls g)).
Proof.
  intros HN Hsafe Hbad. destruct (explore_returns (next None) invariant describe N init N) as [p Hp]; [lia|].
  destruct (controls_caught N cs HN Hbad) as (rs & Hrs & Hall).
  exists (MkGate p rs). rewrite Hp. cbn [mbind option_bind]. rewrite Hrs.
  assert (Hv : r_violation p = None) by (by eapply report_safe).
  split; [done|]. split; [done|]. unfold verdict. cbn [positive controls]. rewrite Hv.
  destruct (r_truncated p) eqn:Ht; [right; by constructor|]. clear Hrs Hp.
  induction Hall as [|r rs Hr _ IH]; [by left|]. cbn [forallb].
  destruct (r_truncated r) eqn:Hrt; [right; do 2 constructor; done|]. destruct Hr as [?|[v ->]]; [done|].
  destruct IH as [->|IH]; [by left|right]. inversion IH; subst; [congruence|]. by do 2 constructor.
Qed.
End gate.

(** A counter modulo 8 that must not reach 5. *)
Module Count.
Definition next (n : nat) : list (bool * nat) := [(true, S n mod 8)%nat; (false, n)].
Definition invariant (n : nat) : option unit := if (n =? 5)%nat then Some tt else None.
End Count.

Lemma explore_truthful_witness :
  exists s, path Count.next 0%nat [true; true; true; true; true] s /\ Count.invariant s = Some tt /\ 5%nat = s /\
    forall ls s', path Count.next 0%nat ls s' -> Count.invariant s' <> None -> (5 <= length ls)%nat.
Proof.
  apply (explore_truthful Count.next Count.invariant (fun n => n) 100 0%nat 100
    (MkReport 6 9 5 false (Some (tt, MkTrace [true; true; true; true; true] 5%nat)))).
  vm_compute. reflexivity.
Defined.
Lemma explore_terminates_witness :
  is_Some (explore Count.next Count.invariant (fun n => n) 7 0%nat 7).
Proof. apply explore_terminates. lia. Defined.
