(* ===== verification/Fm1.v ===== *)
(** * FM-1: escrow transfers (src/crates/carolina-models/src/fm1.rs)

    One resource held by a donor and a receiver, transfers between them over a
    duplicating and reordering network, spends, and the closing of the donor's
    authority.  The machine and its invariant are those the gate explores for
    a total of 3 and two transfers; here they are proved for every total and
    every list of quantities. *)

From stdpp Require Import gmap list relations.
From S2P Require Import Prelude Explore.

Inductive Donor : Type := DAbsent | DPrepared | DCommitted | DAborted.
Inductive Receiver : Type := RAbsent | RAccepted | RApplied | RAborted.
#[global] Instance Donor_eq_dec : EqDecision Donor. Proof. solve_decision. Defined.
#[global] Instance Receiver_eq_dec : EqDecision Receiver. Proof. solve_decision. Defined.

Record Transfer : Type := MkTransfer {
  q : Z;
  donor : Donor;
  receiver : Receiver;
  prepare_sent : bool;
  accept_sent : bool;
  commit_sent : bool;
  abort_sent : bool;
}.
#[global] Instance Transfer_eta : Eta Transfer := fun t =>
  MkTransfer (q t) (donor t) (receiver t) (prepare_sent t) (accept_sent t) (commit_sent t) (abort_sent t).

Record State : Type := MkState {
  total : Z;
  u_donor : Z;
  u_receiver : Z;
  consumed : Z;
  transfers : list Transfer;
  donor_closed : bool;
  replica_view : Z;
  replica_spends : Z;
  spends_after_close : Z;
  revivals : Z;
}.
#[global] Instance State_eta : Eta State := fun s =>
  MkState (total s) (u_donor s) (u_receiver s) (consumed s) (transfers s) (donor_closed s)
    (replica_view s) (replica_spends s) (spends_after_close s) (revivals s).

Inductive Control : Type :=
| RefundAfterCommit | DoubleInstall | NoReplicaFence | SpendAfterClose | LatePrepareResurrection.
#[global] Instance Control_eq_dec : EqDecision Control. Proof. solve_decision. Defined.

(** ** Hashable states *)
#[global] Instance Transfer_eq_dec : EqDecision Transfer. Proof. solve_decision. Defined.
#[global] Instance State_eq_dec : EqDecision State. Proof. solve_decision. Defined.

Definition donor_code (d : Donor) : Z := match d with DAbsent => 0 | DPrepared => 1 | DCommitted => 2 | DAborted => 3 end.
Definition receiver_code (r : Receiver) : Z := match r with RAbsent => 0 | RAccepted => 1 | RApplied => 2 | RAborted => 3 end.
Definition donor_of (z : Z) : Donor :=
  if z =? 0 then DAbsent else if z =? 1 then DPrepared else if z =? 2 then DCommitted else DAborted.
Definition receiver_of (z : Z) : Receiver :=
  if z =? 0 then RAbsent else if z =? 1 then RAccepted else if z =? 2 then RApplied else RAborted.

Fixpoint transfers_code (ts : list Transfer) : list Z :=
  match ts with
  | [] => []
  | t :: ts' =>
      q t :: donor_code (donor t) :: receiver_code (receiver t) :: Z.b2z (prepare_sent t) :: Z.b2z (accept_sent t)
        :: Z.b2z (commit_sent t) :: Z.b2z (abort_sent t) :: transfers_code ts'
  end.
Fixpoint transfers_of (l : list Z) : option (list Transfer) :=
  match l with
  | [] => Some []
  | a :: b :: c :: d :: e :: f :: g :: l' =>
      ts ← transfers_of l';
      Some (MkTransfer a (donor_of b) (receiver_of c) (d =? 1) (e =? 1) (f =? 1) (g =? 1) :: ts)
  | _ => None
  end.
Lemma transfers_of_code ts : transfers_of (transfers_code ts) = Some ts.
Proof.
  induction ts as [|[a b c d e f g] ts IH]; [done|]. cbn. rewrite IH. cbn.
  by destruct b, c, d, e, f, g.
Qed.
#[global] Instance State_coded : Coded State.
Proof.
  refine {|
    code s := total s :: u_donor s :: u_receiver s :: consumed s :: Z.b2z (donor_closed s) :: replica_view s
      :: replica_spends s :: spends_after_close s :: revivals s :: transfers_code (transfers s);
    uncode l := match l with
      | a :: b :: c :: d :: e :: f :: g :: h :: i :: l' => ts ← transfers_of l'; Some (MkState a b c d ts (e =? 1) f g h i)
      | _ => None
      end |}.
  intros [a b c d ts e f g h i]. cbn. rewrite transfers_of_code. cbn. by destruct e.
Defined.

(** ** The invariant *)
Inductive Broken : Type :=
| Conservation
| CreditWithoutCommit (i : nat)
| RefundAfterInstall (i : nat)
| ReplicaSpend
| SpentAfterClose
| Resurrected.

Definition x_of (t : Transfer) : Z :=
  match donor t with
  | DPrepared | DCommitted => if bool_decide (receiver t <> RApplied) then q t else 0
  | _ => 0
  end.

Fixpoint check_transfers (i : nat) (ts : list Transfer) : option Broken :=
  match ts with
  | [] => None
  | t :: ts' =>
      if bool_decide (receiver t = RApplied) && bool_decide (donor t <> DCommitted) then Some (CreditWithoutCommit i)
      else if bool_decide (donor t = DAborted) && bool_decide (receiver t = RApplied) then Some (RefundAfterInstall i)
      else check_transfers (S i) ts'
  end.

Definition invariant (s : State) : option Broken :=
  let x := sum (map x_of (transfers s)) in
  if negb (consumed s + u_donor s + u_receiver s + x =? total s) then Some Conservation
  else match check_transfers 0 (transfers s) with
       | Some b => Some b
       | None =>
           if 0 <? replica_spends s then Some ReplicaSpend
           else if 0 <? spends_after_close s then Some SpentAfterClose
           else if 0 <? revivals s then Some Resurrected
           else None
       end.

(** ** The actions *)
Inductive Action : Type :=
| DonorPrepare (i : nat) | SendPrepare (i : nat) | ReceiverAccept (i : nat) | LatePrepareRevives (i : nat)
| SendAccept (i : nat) | DonorCommit (i : nat) | SendCommit (i : nat) | DonorAbort (i : nat)
| SendAbort (i : nat) | ReceiverInstall (i : nat) | ReceiverAbort (i : nat)
| SpendDonor | SpendReceiver | CloseDonorAuthority | StaleReplicaSpend.

Definition at_ (i : nat) (t : Transfer) (s : State) : State := s <| transfers := <[i := t]> (transfers s) |>.

Section next.
Context (control : option Control).
Definition ctl (c : Control) : bool := bool_decide (control = Some c).

Definition next_transfer (s : State) (i : nat) (t : Transfer) : list (Action * State) :=
  push (bool_decide (donor t = DAbsent) && negb (donor_closed s) && (q t <=? u_donor s)) (DonorPrepare i)
    (at_ i (t <| donor := DPrepared |>) s <| u_donor := u_donor s - q t |>) ++
  push (bool_decide (donor t = DPrepared) && negb (prepare_sent t)) (SendPrepare i)
    (at_ i (t <| prepare_sent := true |>) s) ++
  push (prepare_sent t && bool_decide (receiver t = RAbsent)) (ReceiverAccept i)
    (at_ i (t <| receiver := RAccepted |>) s) ++
  push (ctl LatePrepareResurrection && prepare_sent t && bool_decide (receiver t = RAborted)) (LatePrepareRevives i)
    (at_ i (t <| receiver := RAccepted |>) s <| revivals := revivals s + 1 |>) ++
  push (bool_decide (receiver t = RAccepted) && negb (accept_sent t)) (SendAccept i)
    (at_ i (t <| accept_sent := true |>) s) ++
  push (accept_sent t && bool_decide (donor t = DPrepared)) (DonorCommit i)
    (at_ i (t <| donor := DCommitted |>) s) ++
  push (bool_decide (donor t = DCommitted) && negb (commit_sent t)) (SendCommit i)
    (at_ i (t <| commit_sent := true |>) s) ++
  push (bool_decide (donor t = DPrepared) || (ctl RefundAfterCommit && bool_decide (donor t = DCommitted))) (DonorAbort i)
    (at_ i (t <| donor := DAborted |>) s <| u_donor := u_donor s + q t |>) ++
  push (bool_decide (donor t = DAborted) && negb (abort_sent t)) (SendAbort i)
    (at_ i (t <| abort_sent := true |>) s) ++
  push (commit_sent t && (bool_decide (receiver t = RAccepted) ||
      (ctl DoubleInstall && bool_decide (receiver t = RApplied)))) (ReceiverInstall i)
    (at_ i (t <| receiver := RApplied |>) s <| u_receiver := u_receiver s + q t |>) ++
  push (abort_sent t && (bool_decide (receiver t = RAbsent) || bool_decide (receiver t = RAccepted))) (ReceiverAbort i)
    (at_ i (t <| receiver := RAborted |>) s).

Definition next_holders (s : State) : list (Action * State) :=
  push ((0 <? u_donor s) && (negb (donor_closed s) || ctl SpendAfterClose)) SpendDonor
    (s <| u_donor := u_donor s - 1 |> <| consumed := consumed s + 1 |>
       <| spends_after_close := if donor_closed s then spends_after_close s + 1 else spends_after_close s |>) ++
  push (0 <? u_receiver s) SpendReceiver
    (s <| u_receiver := u_receiver s - 1 |> <| consumed := consumed s + 1 |>) ++
  push (negb (donor_closed s)) CloseDonorAuthority
    (s <| donor_closed := true |> <| replica_view := u_donor s |>) ++
  push (ctl NoReplicaFence && donor_closed s && (0 <? replica_view s)) StaleReplicaSpend
    (s <| replica_view := replica_view s - 1 |> <| consumed := consumed s + 1 |>
       <| replica_spends := replica_spends s + 1 |>).

Definition next (s : State) : list (Action * State) :=
  concat (imap (next_transfer s) (transfers s)) ++ next_holders s.
End next.

Definition initial (tot : Z) (quantities : list Z) : State :=
  MkState tot tot 0 0
    (map (fun k => MkTransfer k DAbsent RAbsent false false false false) quantities) false 0 0 0 0.

Definition describe (s : State) : State := s.

Definition run (fuel : nat) (tot : Z) (quantities : list Z) (control : option Control) (max_states : nat) :
    option (ModelReport Action Broken State) :=
  explore (next control) invariant describe fuel (initial tot quantities) max_states.

(** The gate: the machine for a total of 3 and transfers of 1 and 2, and its
    five broken variants. *)
Definition all_controls : list Control :=
  [RefundAfterCommit; DoubleInstall; NoReplicaFence; SpendAfterClose; LatePrepareResurrection].
Definition evidence (max_states : nat) : option (GateEvidence Action Broken State) :=
  p ← run max_states 3 [1; 2] None max_states;
  cs ← mapM (fun c => run max_states 3 [1; 2] (Some c) max_states) all_controls;
  Some (MkGate p cs).

(** ** The inductive invariant *)
Definition t_ok (t : Transfer) : Prop :=
  0 <= q t /\ (commit_sent t = true -> donor t = DCommitted) /\ (receiver t = RApplied -> donor t = DCommitted).

Record s_ok (tot : Z) (s : State) : Prop := {
  k_total : total s = tot;
  k_sum : consumed s + u_donor s + u_receiver s + sum (map x_of (transfers s)) = tot;
  k_pos : 0 <= consumed s /\ 0 <= u_donor s /\ 0 <= u_receiver s /\ 0 <= replica_view s <= tot;
  k_clean : replica_spends s = 0 /\ spends_after_close s = 0 /\ revivals s = 0;
  k_transfers : Forall t_ok (transfers s);
}.

Lemma x_of_pos t : t_ok t -> 0 <= x_of t.
Proof. intros (Hq & _). unfold x_of. destruct (donor t); try done; case_bool_decide; lia. Qed.
Lemma fm1_sum_pos ts : Forall t_ok ts -> 0 <= sum (map x_of ts).
Proof. induction 1 as [|t ts Ht _ IH]; [done|]. pose proof (x_of_pos t Ht). cbn [map]. rewrite sum_cons. lia. Qed.

Lemma check_transfers_ok i ts : Forall t_ok ts -> check_transfers i ts = None.
Proof.
  intros H. revert i. induction H as [|t ts (_ & _ & Ht) _ IH]; intros i; cbn; [done|].
  case_bool_decide as Hr; cbn.
  - rewrite (Ht Hr). cbn. by rewrite IH.
  - by rewrite andb_false_r.
Qed.

Lemma fm1_s_ok_invariant tot s : s_ok tot s -> invariant s = None.
Proof.
  intros [Ht Hs _ (H1 & H2 & H3) Hts]. unfold invariant. rewrite Ht, Hs, Z.eqb_refl. cbn [negb].
  by rewrite check_transfers_ok, H1, H2, H3.
Qed.

Lemma fm1_initial_ok tot qs : 0 <= tot -> Forall (fun k => 0 <= k) qs -> s_ok tot (initial tot qs).
Proof.
  intros Ht Hq. split; cbn; try done; try lia.
  - assert (sum (map x_of (map (fun k => MkTransfer k DAbsent RAbsent false false false false) qs)) = 0) as ->; [|lia].
    clear. induction qs as [|k qs IH]; [done|]. cbn [map]. rewrite sum_cons, IH. done.
  - induction Hq; cbn; constructor; [|done]. by split_and!.
Qed.

(** Replacing transfer [i], with the amounts that move. *)
Lemma fm1_s_ok_at tot s i t t' ud ur :
  s_ok tot s -> transfers s !! i = Some t -> t_ok t' ->
  0 <= ud -> 0 <= ur -> ud + ur + x_of t' = u_donor s + u_receiver s + x_of t ->
  s_ok tot (at_ i t' s <| u_donor := ud |> <| u_receiver := ur |>).
Proof.
  intros [] Hi Ht' Hud Hur Hx. split; cbn; try done.
  - rewrite (sum_map_insert _ _ _ t t' Hi). lia.
  - naive_solver.
  - by apply Forall_insert.
Qed.

(** A transfer that keeps its amount. *)
Lemma s_ok_same tot s i t t' :
  s_ok tot s -> transfers s !! i = Some t -> t_ok t' -> x_of t' = x_of t -> s_ok tot (at_ i t' s).
Proof.
  intros [] Hi Ht' Hx. split; cbn; try done; [|by apply Forall_insert].
  rewrite (sum_map_insert _ _ _ t t' Hi). lia.
Qed.

Ltac t_solve :=
  unfold t_ok, x_of in *; cbn in *; repeat case_bool_decide; split_and?; intros; first [lia|naive_solver|naive_solver lia].

Lemma next_transfer_ok tot s i t a s' :
  s_ok tot s -> transfers s !! i = Some t -> (a, s') ∈ next_transfer None s i t -> s_ok tot s'.
Proof.
  intros K Hi H. assert (Ht := proj1 (Forall_lookup _ _) (k_transfers _ _ K) _ _ Hi).
  destruct (k_pos _ _ K) as (Hc & Hud & Hur & Hv). destruct Ht as (Hq & Hcs & Hap).
  destruct t as [qt dn rc ps acs cs abs]. cbn in Hq, Hcs, Hap. unfold next_transfer in H.
  cbn [donor receiver prepare_sent accept_sent commit_sent abort_sent q ctl] in H.
  actions H; destruct H as (Hg & _ & ->); cbn in Hg;
    repeat match type of Hg with
           | _ && _ = true => apply andb_true_iff in Hg as [Hg ?]
           end; rewrite ?orb_false_r, ?bool_decide_eq_true, ?Z.leb_le in *; subst; try discriminate.
  - apply (fm1_s_ok_at tot s i _ (MkTransfer qt DPrepared rc ps acs cs abs) (u_donor s - qt) (u_receiver s) K Hi); t_solve.
  - apply (s_ok_same tot s i _ (MkTransfer qt DPrepared rc true acs cs abs) K Hi); t_solve.
  - apply (s_ok_same tot s i _ (MkTransfer qt dn RAccepted true acs cs abs) K Hi); t_solve.
  - apply (s_ok_same tot s i _ (MkTransfer qt dn RAccepted ps true cs abs) K Hi); t_solve.
  - apply (s_ok_same tot s i _ (MkTransfer qt DCommitted rc ps true cs abs) K Hi); t_solve.
  - apply (s_ok_same tot s i _ (MkTransfer qt DCommitted rc ps acs true abs) K Hi); t_solve.
  - apply (fm1_s_ok_at tot s i _ (MkTransfer qt DAborted rc ps acs cs abs) (u_donor s + qt) (u_receiver s) K Hi); t_solve.
  - apply (s_ok_same tot s i _ (MkTransfer qt DAborted rc ps acs cs true) K Hi); t_solve.
  - rewrite (Hcs eq_refl) in *.
    apply (fm1_s_ok_at tot s i _ (MkTransfer qt DCommitted RApplied ps acs true abs) (u_donor s) (u_receiver s + qt) K Hi); t_solve.
  - apply (s_ok_same tot s i _ (MkTransfer qt dn RAborted ps acs cs true) K Hi); t_solve.
Qed.

Lemma fm1_next_ok tot s a s' : s_ok tot s -> (a, s') ∈ next None s -> s_ok tot s'.
Proof.
  intros K H. unfold next in H. apply elem_of_app in H as [H|H].
  { apply elem_of_concat_imap in H as (i & t & Hi & H). by eapply next_transfer_ok. }
  pose proof (fm1_sum_pos _ (k_transfers _ _ K)) as Hx. destruct K as [Ht Hs (Hc & Hud & Hur & Hv) (H1 & H2 & H3) Hts].
  unfold next_holders in H. actions H; destruct H as (Hg & _ & ->); cbn in Hg;
    repeat match type of Hg with _ && _ = true => apply andb_true_iff in Hg as [Hg ?] end;
    rewrite ?orb_false_r, ?negb_true_iff, ?Z.ltb_lt in *; try discriminate;
    split; cbn; split_and?; try done; try lia.
  by destruct (donor_closed s).
Qed.

Lemma fm1_reachable_ok tot qs s :
  0 <= tot -> Forall (fun k => 0 <= k) qs -> reachable (next None) (initial tot qs) s -> s_ok tot s.
Proof.
  intros Ht Hq. revert s. apply reachable_ind'; [by apply fm1_initial_ok|]. intros; by eapply fm1_next_ok.
Qed.

(** How each broken variant goes wrong. *)
Definition bad_run (c : Control) : list Action :=
  let committed := [DonorPrepare 0; SendPrepare 0; ReceiverAccept 0; SendAccept 0; DonorCommit 0; SendCommit 0] in
  match c with
  | RefundAfterCommit => committed ++ [DonorAbort 0; ReceiverInstall 0]
  | DoubleInstall => committed ++ [ReceiverInstall 0; ReceiverInstall 0]
  | NoReplicaFence => [CloseDonorAuthority; StaleReplicaSpend]
  | SpendAfterClose => [CloseDonorAuthority; SpendDonor]
  | LatePrepareResurrection =>
      [DonorPrepare 0; SendPrepare 0; DonorAbort 0; SendAbort 0; ReceiverAbort 0; LatePrepareRevives 0]
  end.
#[global] Instance Action_eq_dec : EqDecision Action. Proof. solve_decision. Defined.
Lemma fm1_bad_run c : exists s, path (next (Some c)) (initial 3 [1; 2]) (bad_run c) s /\ invariant s <> None.
Proof.
  destruct (follow (next (Some c)) (initial 3 [1; 2]) (bad_run c)) as [s|] eqn:H; [|by destruct c; vm_compute in H].
  exists s. split; [by eapply follow_path|]. by destruct c; vm_compute in H; injection H as <-; vm_compute.
Qed.

(** C6. FM-1 for every total and every list of transfer quantities: in every
    reachable state of the escrow machine, with messages duplicated, reordered
    and lost and the donor's authority closed at any moment, the rights are
    conserved, a receiver is credited only under an irrevocable commit, and no
    passive replica or closed authority spends; all counters fit their [u8]. *)
Theorem fm1_safe tot qs s :
  0 <= tot <= 255 -> Forall (fun k => 0 <= k <= 255) qs ->
  reachable (next None) (initial tot qs) s ->
  invariant s = None /\
  0 <= u_donor s <= 255 /\ 0 <= u_receiver s <= 255 /\ 0 <= consumed s <= 255 /\ 0 <= replica_view s <= 255.
Proof.
  intros Ht Hq HR. assert (K : s_ok tot s).
  { apply (fm1_reachable_ok tot qs); [lia| |done]. eapply Forall_impl; [exact Hq|]. cbn. lia. }
  split; [by eapply fm1_s_ok_invariant|]. pose proof (fm1_sum_pos _ (k_transfers _ _ K)). destruct K as [? ? (? & ? & ? & ?) ? ?]. lia.
Qed.

(** The FM-1 gate under any state budget: the search returns, the machine is
    never reported, and the gate passes, with a counterexample for each of its
    five broken variants, unless one of the searches was cut short. *)
Theorem fm1_gate_sound N : (1 <= N)%nat ->
  exists g, evidence N = Some g /\ r_violation (positive g) = None /\
    (verdict g = true \/ Exists (fun r => r_truncated r = true) (positive g :: controls g)).
Proof.
  intros HN. apply (gate_sound next invariant describe (initial 3 [1; 2]) N all_controls HN).
  - intros s Hs. eapply fm1_s_ok_invariant, (fm1_reachable_ok 3 [1; 2]); [lia|repeat constructor; lia|done].
  - apply Forall_forall. intros c _. exists (bad_run c). apply fm1_bad_run.
Qed.
Lemma fm1_gate_sound_witness :
  exists g, evidence 4000 = Some g /\ r_violation (positive g) = None /\
    (verdict g = true \/ Exists (fun r => r_truncated r = true) (positive g :: controls g)).
Proof. apply fm1_gate_sound. lia. Defined.

(** A state in the middle of a transfer. *)
Lemma fm1_safe_witness :
  invariant (MkState 3 2 0 0 [MkTransfer 1 DPrepared RAbsent true false false false;
                              MkTransfer 2 DAbsent RAbsent false false false false] false 0 0 0 0) = None.
Proof.
  apply (fm1_safe 3 [1; 2]).
  - lia.
  - repeat constructor; lia.
  - exists [DonorPrepare 0; SendPrepare 0].
    eapply (path_snoc _ _ [DonorPrepare 0]); [eapply (path_snoc _ _ []); [constructor|]|].
    + apply elem_of_app. left. apply elem_of_concat_imap. exists 0%nat. eexists. split; [reflexivity|]. by left.
    + apply elem_of_app. left. apply elem_of_concat_imap. exists 0%nat. eexists. split; [reflexivity|]. by left.
Defined.
