(* ===== verification/Fm2.v ===== *)
(** * FM-2: distributed decisions (src/crates/carolina-models/src/fm2.rs)

    One replicated decision authority with leader failover, and participants
    that prepare, vote, install and publish over a duplicating and reordering
    network.  The gate explores two participants; here the machine is proved
    safe for any number. *)

From stdpp Require Import gmap list relations.
From S2P Require Import Prelude Explore.

Inductive Decision : Type := Begun | Commit | Abort.
Inductive Phase : Type := Idle | Prepared | VotedNo | Installed | Published | Aborted.
#[global] Instance Decision_eq_dec : EqDecision Decision. Proof. solve_decision. Defined.
#[global] Instance Phase_eq_dec : EqDecision Phase. Proof. solve_decision. Defined.

Record Participant : Type := MkParticipant {
  phase : Phase;
  payload_present : bool;
  prepare_sent : bool;
  vote_sent : bool;
  installed_sent : bool;
  seen_sent : bool;
}.
#[global] Instance Participant_eta : Eta Participant := fun p =>
  MkParticipant (phase p) (payload_present p) (prepare_sent p) (vote_sent p) (installed_sent p) (seen_sent p).

Record State : Type := MkState {
  decision : Decision;
  ever_commit : bool;
  ever_abort : bool;
  decided_by_epoch : Z;
  stale_decision : bool;
  leader_epoch : Z;
  stale_leader_alive : bool;
  commit_sent : bool;
  abort_sent : bool;
  publication_sent : bool;
  completion_sent : bool;
  success_reported : bool;
  participants : list Participant;
  timeout_aborts : Z;
}.
#[global] Instance State_eta : Eta State := fun s =>
  MkState (decision s) (ever_commit s) (ever_abort s) (decided_by_epoch s) (stale_decision s) (leader_epoch s)
    (stale_leader_alive s) (commit_sent s) (abort_sent s) (publication_sent s) (completion_sent s)
    (success_reported s) (participants s) (timeout_aborts s).

Inductive Control : Type :=
| CommitWithoutAllVotes | ParticipantAbortsOnTimeout | StaleLeaderDecides | PublishOnInstall
| GcPreparedPayload | AbortAfterCommit.
#[global] Instance Control_eq_dec : EqDecision Control. Proof. solve_decision. Defined.

(** ** Hashable states *)
#[global] Instance Participant_eq_dec : EqDecision Participant. Proof. solve_decision. Defined.
#[global] Instance State_eq_dec : EqDecision State. Proof. solve_decision. Defined.

Definition decision_code (d : Decision) : Z := match d with Begun => 0 | Commit => 1 | Abort => 2 end.
Definition decision_of (z : Z) : Decision := if z =? 0 then Begun else if z =? 1 then Commit else Abort.
Definition phase_code (p : Phase) : Z :=
  match p with Idle => 0 | Prepared => 1 | VotedNo => 2 | Installed => 3 | Published => 4 | Aborted => 5 end.
Definition phase_of (z : Z) : Phase :=
  if z =? 0 then Idle else if z =? 1 then Prepared else if z =? 2 then VotedNo else if z =? 3 then Installed
  else if z =? 4 then Published else Aborted.
Fixpoint parts_code (ps : list Participant) : list Z :=
  match ps with
  | [] => []
  | p :: ps' => phase_code (phase p) :: Z.b2z (payload_present p) :: Z.b2z (prepare_sent p) :: Z.b2z (vote_sent p)
      :: Z.b2z (installed_sent p) :: Z.b2z (seen_sent p) :: parts_code ps'
  end.
Fixpoint parts_of (l : list Z) : option (list Participant) :=
  match l with
  | [] => Some []
  | a :: b :: c :: d :: e :: f :: l' =>
      ps ← parts_of l'; Some (MkParticipant (phase_of a) (b =? 1) (c =? 1) (d =? 1) (e =? 1) (f =? 1) :: ps)
  | _ => None
  end.
Lemma parts_of_code ps : parts_of (parts_code ps) = Some ps.
Proof.
  induction ps as [|[a b c d e f] ps IH]; [done|]. cbn. rewrite IH. cbn. by destruct a, b, c, d, e, f.
Qed.
#[global] Instance State_coded : Coded State.
Proof.
  refine {|
    code s := decision_code (decision s) :: Z.b2z (ever_commit s) :: Z.b2z (ever_abort s) :: decided_by_epoch s
      :: Z.b2z (stale_decision s) :: leader_epoch s :: Z.b2z (stale_leader_alive s) :: Z.b2z (commit_sent s)
      :: Z.b2z (abort_sent s) :: Z.b2z (publication_sent s) :: Z.b2z (completion_sent s)
      :: Z.b2z (success_reported s) :: timeout_aborts s :: parts_code (participants s);
    uncode l := match l with
      | a :: b :: c :: d :: e :: f :: g :: h :: i :: j :: k :: m :: n :: l' =>
          ps ← parts_of l';
          Some (MkState (decision_of a) (b =? 1) (c =? 1) d (e =? 1) f (g =? 1) (h =? 1) (i =? 1) (j =? 1) (k =? 1)
                  (m =? 1) ps n)
      | _ => None
      end |}.
  intros [a b c d e f g h i j k m ps n]. cbn. rewrite parts_of_code. cbn. by destruct a, b, c, e, g, h, i, j, k, m.
Defined.

(** ** The invariant *)
Inductive Broken : Type :=
| TwoDecisions | CommitWithoutYes | StaleDecided | PublishedWithoutCommit | PublishedWithoutCertificate
| PartialPublication | CertificateWithoutInstalled | SuccessBeforeCompletion | CompletionWithoutSeen
| TimeoutAborted | AbortedWithoutDecision (i : nat) | LostPayload (i : nat).

Definition is_phase (f : Phase) (p : Participant) : bool := bool_decide (phase p = f).
Definition installed_or_published (p : Participant) : bool := is_phase Installed p || is_phase Published p.

Fixpoint check_participants (d : Decision) (i : nat) (ps : list Participant) : option Broken :=
  match ps with
  | [] => None
  | p :: ps' =>
      if is_phase Aborted p && bool_decide (d <> Abort) then Some (AbortedWithoutDecision i)
      else if bool_decide (d = Commit) && is_phase Prepared p && negb (payload_present p) then Some (LostPayload i)
      else check_participants d (S i) ps'
  end.

Definition invariant (s : State) : option Broken :=
  let ps := participants s in
  if ever_commit s && ever_abort s then Some TwoDecisions
  else if bool_decide (decision s = Commit) &&
          existsb (fun p => negb (vote_sent p) || is_phase VotedNo p || is_phase Idle p) ps then Some CommitWithoutYes
  else if stale_decision s then Some StaleDecided
  else if existsb (is_phase Published) ps && bool_decide (decision s <> Commit) then Some PublishedWithoutCommit
  else if existsb (is_phase Published) ps && negb (publication_sent s) then Some PublishedWithoutCertificate
  else if existsb (is_phase Published) ps && existsb (fun p => negb (installed_or_published p)) ps
       then Some PartialPublication
  else if publication_sent s && existsb (fun p => negb (installed_or_published p)) ps
       then Some CertificateWithoutInstalled
  else if success_reported s && negb (completion_sent s) then Some SuccessBeforeCompletion
  else if completion_sent s && existsb (fun p => negb (is_phase Published p)) ps then Some CompletionWithoutSeen
  else if 0 <? timeout_aborts s then Some TimeoutAborted
  else check_participants (decision s) 0 ps.

(** ** The actions *)
Inductive Action : Type :=
| SendPrepare (i : nat) | VoteYes (i : nat) | VoteNo (i : nat) | SendVote (i : nat) | Install (i : nat)
| SendInstalled (i : nat) | Publish (i : nat) | SendPublishSeen (i : nat) | ParticipantAbort (i : nat)
| TimeoutAbort (i : nat) | GcPrepared (i : nat)
| DecideCommit | DecideAbort (no_vote : bool) | AbortReplacesCommit | StaleLeaderDecidesCommit
| SendCommit | SendAbort | IssuePublicationCertificate | IssueCompletionCertificate | ReportFinalSuccess
| LeaderFailover.

Definition at_ (i : nat) (p : Participant) (s : State) : State := s <| participants := <[i := p]> (participants s) |>.

Section next.
Context (control : option Control).
Definition ctl (c : Control) : bool := bool_decide (control = Some c).

Definition next_participant (s : State) (i : nat) (p : Participant) : list (Action * State) :=
  push (negb (prepare_sent p)) (SendPrepare i) (at_ i (p <| prepare_sent := true |>) s) ++
  push (prepare_sent p && is_phase Idle p) (VoteYes i)
    (at_ i (p <| phase := Prepared |> <| payload_present := true |>) s) ++
  push (prepare_sent p && is_phase Idle p) (VoteNo i) (at_ i (p <| phase := VotedNo |>) s) ++
  push ((is_phase Prepared p || is_phase VotedNo p) && negb (vote_sent p)) (SendVote i)
    (at_ i (p <| vote_sent := true |>) s) ++
  push (commit_sent s && is_phase Prepared p && payload_present p) (Install i)
    (at_ i (p <| phase := Installed |>) s) ++
  push (is_phase Installed p && negb (installed_sent p)) (SendInstalled i)
    (at_ i (p <| installed_sent := true |>) s) ++
  push (is_phase Installed p && (publication_sent s || ctl PublishOnInstall)) (Publish i)
    (at_ i (p <| phase := Published |>) s) ++
  push (is_phase Published p && negb (seen_sent p)) (SendPublishSeen i)
    (at_ i (p <| seen_sent := true |>) s) ++
  push (abort_sent s && (is_phase Prepared p || is_phase VotedNo p || is_phase Idle p)) (ParticipantAbort i)
    (at_ i (p <| phase := Aborted |> <| payload_present := false |>) s) ++
  push (ctl ParticipantAbortsOnTimeout && is_phase Prepared p && bool_decide (decision s = Begun)) (TimeoutAbort i)
    (at_ i (p <| phase := Aborted |> <| payload_present := false |>) s <| timeout_aborts := timeout_aborts s + 1 |>) ++
  push (ctl GcPreparedPayload && is_phase Prepared p && payload_present p && bool_decide (decision s = Begun))
    (GcPrepared i) (at_ i (p <| payload_present := false |>) s).

Definition all_yes (ps : list Participant) : bool :=
  forallb (fun p => is_phase Prepared p && vote_sent p) ps ||
  forallb (fun p => (is_phase Prepared p || is_phase Installed p || is_phase Published p) && vote_sent p) ps.
Definition some_no (ps : list Participant) : bool := existsb (fun p => is_phase VotedNo p && vote_sent p) ps.

Definition next_authority (s : State) : list (Action * State) :=
  let ps := participants s in
  push (bool_decide (decision s = Begun) &&
        (all_yes ps || (ctl CommitWithoutAllVotes && existsb (fun p => is_phase Prepared p && vote_sent p) ps)))
    DecideCommit
    (s <| decision := Commit |> <| ever_commit := true |> <| decided_by_epoch := leader_epoch s |>) ++
  push (bool_decide (decision s = Begun)) (DecideAbort (some_no ps))
    (s <| decision := Abort |> <| ever_abort := true |> <| decided_by_epoch := leader_epoch s |>) ++
  push (ctl AbortAfterCommit && bool_decide (decision s = Commit)) AbortReplacesCommit
    (s <| decision := Abort |> <| ever_abort := true |>) ++
  push (ctl StaleLeaderDecides && stale_leader_alive s && bool_decide (decision s = Begun)) StaleLeaderDecidesCommit
    (s <| decision := Commit |> <| ever_commit := true |> <| decided_by_epoch := 1 |> <| stale_decision := true |>) ++
  push (bool_decide (decision s = Commit) && negb (commit_sent s)) SendCommit (s <| commit_sent := true |>) ++
  push (bool_decide (decision s = Abort) && negb (abort_sent s)) SendAbort (s <| abort_sent := true |>) ++
  push (bool_decide (decision s = Commit) && negb (publication_sent s) && forallb installed_sent ps)
    IssuePublicationCertificate (s <| publication_sent := true |>) ++
  push (publication_sent s && negb (completion_sent s) && forallb seen_sent ps)
    IssueCompletionCertificate (s <| completion_sent := true |>) ++
  push (negb (success_reported s) && (completion_sent s || (ctl PublishOnInstall && publication_sent s)))
    ReportFinalSuccess (s <| success_reported := true |>) ++
  push (leader_epoch s =? 1) LeaderFailover (s <| leader_epoch := 2 |> <| stale_leader_alive := true |>).

Definition next (s : State) : list (Action * State) :=
  concat (imap (next_participant s) (participants s)) ++ next_authority s.
End next.

Definition initial (n : nat) : State :=
  MkState Begun false false 0 false 1 false false false false false false
    (replicate n (MkParticipant Idle false false false false false)) 0.

Definition run (fuel n : nat) (control : option Control) (max_states : nat) :
    option (ModelReport Action Broken State) :=
  explore (next control) invariant (fun s => s) fuel (initial n) max_states.

Definition all_controls : list Control :=
  [CommitWithoutAllVotes; ParticipantAbortsOnTimeout; StaleLeaderDecides; PublishOnInstall; GcPreparedPayload;
   AbortAfterCommit].
Definition evidence (max_states : nat) : option (GateEvidence Action Broken State) :=
  p ← run max_states 2 None max_states;
  cs ← mapM (fun c => run max_states 2 (Some c) max_states) all_controls;
  Some (MkGate p cs).

(** ** The inductive invariant *)

(** What a participant's record says about the decision. *)
Record p_ok (s : State) (p : Participant) : Prop := {
  p_payload : phase p = Prepared -> payload_present p = true;
  p_installed : installed_sent p = true -> phase p = Installed \/ phase p = Published;
  p_seen : seen_sent p = true -> phase p = Published;
  p_commit : phase p = Installed \/ phase p = Published -> decision s = Commit;
  p_abort : phase p = Aborted -> decision s = Abort;
  p_yes : decision s = Commit ->
    vote_sent p = true /\ (phase p = Prepared \/ phase p = Installed \/ phase p = Published);
  p_public : phase p = Published -> publication_sent s = true;
  p_certified : publication_sent s = true -> phase p = Installed \/ phase p = Published;
  p_complete : completion_sent s = true -> phase p = Published;
}.

Record s_ok (s : State) : Prop := {
  k_commit : ever_commit s = true -> decision s = Commit;
  k_abort : ever_abort s = true -> decision s = Abort;
  k_csent : commit_sent s = true -> decision s = Commit;
  k_asent : abort_sent s = true -> decision s = Abort;
  k_clean : stale_decision s = false /\ timeout_aborts s = 0;
  k_success : success_reported s = true -> completion_sent s = true;
  k_parts : Forall (p_ok s) (participants s);
}.


Lemma check_participants_ok s i ps : Forall (p_ok s) ps -> check_participants (decision s) i ps = None.
Proof.
  intros H. revert i. induction H as [|p ps [] _ IH]; intros i; cbn; [done|]. unfold is_phase.
  case_bool_decide as Ha; cbn.
  - rewrite (p_abort0 Ha) in IH |- *. rewrite Ha. apply IH.
  - destruct (decide (phase p = Prepared)) as [Hp|Hp].
    + rewrite (p_payload0 Hp), andb_false_r. apply IH.
    + rewrite (bool_decide_eq_false_2 _ Hp), andb_false_r. apply IH.
Qed.

Lemma fm2_s_ok_invariant s : s_ok s -> invariant s = None.
Proof.
  intros [Hc Ha _ _ (Hst & Hto) Hsu Hps]. unfold invariant. rewrite Hst, Hto.
  replace (ever_commit s && ever_abort s) with false
    by (destruct (ever_commit s), (ever_abort s); try done; rewrite Hc in Ha by done; by specialize (Ha eq_refl)).
  assert (Hyes : decision s = Commit ->
    existsb (fun p => negb (vote_sent p) || is_phase VotedNo p || is_phase Idle p) (participants s) = false).
  { intros Hd. apply existsb_none. eapply Forall_impl; [exact Hps|]. intros p [].
    destruct (p_yes0 Hd) as [-> Hph]. unfold is_phase. by destruct Hph as [->|[->| ->]]. }
  assert (Hcert : publication_sent s = true -> existsb (fun p => negb (installed_or_published p)) (participants s) = false).
  { intros Hp. apply existsb_none. eapply Forall_impl; [exact Hps|]. intros p [].
    unfold installed_or_published, is_phase. by destruct (p_certified0 Hp) as [->| ->]. }
  assert (Hdone : completion_sent s = true -> existsb (fun p => negb (is_phase Published p)) (participants s) = false).
  { intros Hp. apply existsb_none. eapply Forall_impl; [exact Hps|]. intros p [].
    unfold is_phase. by rewrite (p_complete0 Hp). }
  assert (Hpub : existsb (is_phase Published) (participants s) = true -> decision s = Commit /\ publication_sent s = true).
  { intros Hp%existsb_exists. destruct Hp as (p & Hin & Hp). apply list_elem_of_In in Hin.
    rewrite Forall_forall in Hps. destruct (Hps p Hin). unfold is_phase in Hp. apply bool_decide_eq_true in Hp. auto. }
  replace (bool_decide (decision s = Commit) && _) with false
    by (case_bool_decide as Hd; [by rewrite Hyes|done]). cbn [andb].
  pose proof (check_participants_ok s 0 _ Hps) as Hcp.
  replace (publication_sent s && existsb (fun p => negb (installed_or_published p)) (participants s)) with false
    by (destruct (publication_sent s); [by rewrite Hcert|done]).
  replace (success_reported s && negb (completion_sent s)) with false
    by (destruct (success_reported s); [by rewrite Hsu|done]).
  replace (completion_sent s && existsb (fun p => negb (is_phase Published p)) (participants s)) with false
    by (destruct (completion_sent s); [by rewrite Hdone|done]).
  destruct (existsb (is_phase Published) (participants s)); [|exact Hcp].
  destruct (Hpub eq_refl) as [Hd Hp]. rewrite Hd in *. by rewrite Hp, Hcert.
Qed.

(** A participant's own step leaves the others alone. *)
Lemma fm2_s_ok_at s i p p' :
  s_ok s -> participants s !! i = Some p -> (p_ok s p -> p_ok s p') -> s_ok (at_ i p' s).
Proof.
  intros [] Hi Hp. split; try done. cbn. apply Forall_insert; [by eapply Forall_impl; [exact k_parts0|]; intros x []; split|].
  destruct (Hp (proj1 (Forall_lookup _ _) k_parts0 _ _ Hi)). by split.
Qed.

Ltac guards Hg :=
  cbn in Hg;
  repeat match type of Hg with _ && _ = true => apply andb_true_iff in Hg as [Hg ?] end;
  unfold is_phase in *;
  rewrite ?orb_false_r, ?orb_true_iff, ?negb_true_iff, ?bool_decide_eq_true, ?Z.eqb_eq in *; try discriminate.

Lemma next_participant_ok s i p a s' :
  s_ok s -> participants s !! i = Some p -> (a, s') ∈ next_participant None s i p -> s_ok s'.
Proof.
  intros K Hi H. assert (Hcs := k_csent _ K). assert (Has := k_asent _ K).
  unfold next_participant in H. destruct p as [ph pl pr vo ins se].
  cbn [phase payload_present prepare_sent vote_sent installed_sent seen_sent is_phase] in H.
  actions H; destruct H as (Hg & _ & ->); guards Hg;
    repeat match goal with H : _ \/ _ |- _ => destruct H end; subst; cbn in *; subst;
    apply (fm2_s_ok_at s i _ _ K Hi); intros []; split; cbn in *; intuition (congruence || auto).
Qed.

(** An action of the authority leaves the participants' records alone. *)
Lemma parts_ok s s' :
  s_ok s -> participants s' = participants s -> (forall p, p ∈ participants s -> p_ok s p -> p_ok s' p) ->
  Forall (p_ok s') (participants s').
Proof.
  intros K -> H. pose proof (k_parts _ K) as Hps. rewrite Forall_forall in *. auto.
Qed.


Lemma all_yes_spec ps p : all_yes ps = true -> p ∈ ps ->
  vote_sent p = true /\ (phase p = Prepared \/ phase p = Installed \/ phase p = Published).
Proof.
  intros H Hp. apply orb_true_iff in H as [H|H]; apply (forallb_elem _ _ _ H) in Hp;
    apply andb_true_iff in Hp as [Hph Hv]; (split; [done|]); guards Hph; tauto.
Qed.

Lemma next_authority_ok s a s' : s_ok s -> (a, s') ∈ next_authority None s -> s_ok s'.
Proof.
  intros K H. assert (K' := K). destruct K' as [? ? ? ? [? ?] ? Hps]. unfold next_authority in H.
  actions H; destruct H as (Hg & _ & ->); guards Hg;
    (split; [cbn; intuition congruence..|]); (eapply parts_ok; [exact K|reflexivity|]); intros p Hp Kp.
  - destruct (all_yes_spec _ _ H Hp). destruct Kp; split; cbn; intuition congruence.
  - destruct Kp; split; cbn; intuition congruence.
  - destruct Kp; split; cbn; intuition congruence.
  - destruct Kp; split; cbn; intuition congruence.
  - pose proof (forallb_elem _ _ _ H Hp). destruct Kp; split; cbn; intuition congruence.
  - pose proof (forallb_elem _ _ _ H Hp). destruct Kp; split; cbn; intuition congruence.
  - destruct Kp; split; cbn; intuition congruence.
  - destruct Kp; split; cbn; intuition congruence.
Qed.

Lemma fm2_next_ok s a s' : s_ok s -> (a, s') ∈ next None s -> s_ok s'.
Proof.
  intros K H. unfold next in H. apply elem_of_app in H as [H|H]; [|by eapply next_authority_ok].
  apply elem_of_concat_imap in H as (i & p & Hi & H). by eapply next_participant_ok.
Qed.

Lemma fm2_initial_ok n : s_ok (initial n).
Proof. split; cbn; try done. apply Forall_replicate. by split; cbn; try done; intuition congruence. Qed.

(** C7. FM-2 for any number of participants: in every reachable state of the
    commit machine, with messages lost, duplicated and reordered and the leader
    failing over, at most one outcome is decided, it is commit only with every
    vote, publication is all or none behind its certificate, success is
    reported only after completion and no prepared payload is lost. *)
Theorem fm2_safe n s : reachable (next None) (initial n) s -> invariant s = None.
Proof.
  intros HR. apply fm2_s_ok_invariant. revert s HR. apply reachable_ind'; [apply fm2_initial_ok|]. intros; by eapply fm2_next_ok.
Qed.

(** The FM-2 gate passes as the repository runs it: the exhaustive search
    for two participants finds no violation and is not truncated, and each of
    the six deliberately broken variants yields a counterexample. *)
Theorem fm2_gate_passes : (verdict <$> evidence 4000) = Some true.
Proof. vm_compute. reflexivity. Qed.

(** One participant that voted yes. *)
Lemma fm2_safe_witness :
  invariant (MkState Begun false false 0 false 1 false false false false false false
    [MkParticipant Prepared true true false false false] 0) = None.
Proof.
  apply (fm2_safe 1). exists [SendPrepare 0; VoteYes 0].
  eapply (path_snoc _ _ [SendPrepare 0]); [eapply (path_snoc _ _ []); [apply path_nil|]|].
  - apply elem_of_app. left. apply elem_of_concat_imap. exists 0%nat. eexists. split; [reflexivity|]. by left.
  - apply elem_of_app. left. apply elem_of_concat_imap. exists 0%nat. eexists. split; [reflexivity|]. by left.
Defined.
