(* ===== verification/Fm3.v ===== *)
(** * FM-3: migration, fencing and plan evolution (src/crates/carolina-models/src/fm3.rs)

    One migration from source authorities to a target, driven by two workers
    that claim it through the catalog's compare-and-set revision.  The gate
    explores two sources; here the machine is proved safe for any number. *)

From stdpp Require Import gmap list relations.
From S2P Require Import Prelude Explore.

Inductive Phase : Type := Proposed | Closing | Draining | Installing | Active | Retired | Cancelled.
#[global] Instance Phase_eq_dec : EqDecision Phase. Proof. solve_decision. Defined.

Record Source : Type := MkSource {
  admitting : bool;
  fenced : bool;
  fence_epoch : Z;
  offline : bool;
  pending : Z;
  close_cert : bool;
}.
#[global] Instance Source_eta : Eta Source := fun x =>
  MkSource (admitting x) (fenced x) (fence_epoch x) (offline x) (pending x) (close_cert x).

Record State : Type := MkState {
  phase : Phase;
  catalog_revision : Z;
  worker_claims : list Z;
  sources : list Source;
  target_installed : bool;
  target_admitting : bool;
  produced_results : Z;
  retained_results : Z;
  late_admissions : Z;
  reopened_same_epoch : Z;
}.
#[global] Instance State_eta : Eta State := fun s =>
  MkState (phase s) (catalog_revision s) (worker_claims s) (sources s) (target_installed s) (target_admitting s)
    (produced_results s) (retained_results s) (late_admissions s) (reopened_same_epoch s).

Inductive Control : Type :=
| ActivateWithOfflineSource | StaleWorkerAdvances | RollbackFence | LatePacketAdmitted | RetireDropsResults.
#[global] Instance Control_eq_dec : EqDecision Control. Proof. solve_decision. Defined.

Definition MAX_PENDING : Z := 1.
Definition MAX_ADMISSIONS : Z := 2.

(** ** Hashable states *)
#[global] Instance Source_eq_dec : EqDecision Source. Proof. solve_decision. Defined.
#[global] Instance State_eq_dec : EqDecision State. Proof. solve_decision. Defined.

Definition phase_code (p : Phase) : Z :=
  match p with
  | Proposed => 0 | Closing => 1 | Draining => 2 | Installing => 3 | Active => 4 | Retired => 5 | Cancelled => 6
  end.
Definition phase_of (z : Z) : Phase :=
  if z =? 0 then Proposed else if z =? 1 then Closing else if z =? 2 then Draining else if z =? 3 then Installing
  else if z =? 4 then Active else if z =? 5 then Retired else Cancelled.
Fixpoint sources_code (xs : list Source) : list Z :=
  match xs with
  | [] => []
  | x :: xs' => Z.b2z (admitting x) :: Z.b2z (fenced x) :: fence_epoch x :: Z.b2z (offline x) :: pending x
      :: Z.b2z (close_cert x) :: sources_code xs'
  end.
Fixpoint sources_of (l : list Z) : option (list Source) :=
  match l with
  | [] => Some []
  | a :: b :: c :: d :: e :: f :: l' =>
      xs ← sources_of l'; Some (MkSource (a =? 1) (b =? 1) c (d =? 1) e (f =? 1) :: xs)
  | _ => None
  end.
Lemma sources_of_code xs : sources_of (sources_code xs) = Some xs.
Proof. induction xs as [|[a b c d e f] xs IH]; [done|]. cbn. rewrite IH. cbn. by destruct a, b, d, f. Qed.

#[global] Instance State_coded : Coded State.
Proof.
  refine {|
    code s := phase_code (phase s) :: catalog_revision s :: Z.b2z (target_installed s) :: Z.b2z (target_admitting s)
      :: produced_results s :: retained_results s :: late_admissions s :: reopened_same_epoch s
      :: Z.of_nat (length (worker_claims s)) :: worker_claims s ++ sources_code (sources s);
    uncode l := match l with
      | a :: b :: c :: d :: e :: f :: g :: h :: i :: l' =>
          xs ← sources_of (drop (Z.to_nat i) l');
          Some (MkState (phase_of a) b (take (Z.to_nat i) l') xs (c =? 1) (d =? 1) e f g h)
      | _ => None
      end |}.
  intros [a b ws xs c d e f g h]. cbn. rewrite Nat2Z.id, drop_app_length, take_app_length, sources_of_code. cbn.
  by destruct a, c, d.
Defined.

(** ** The invariant *)
Inductive Broken : Type :=
| Overlapping | ReopenedSameEpoch | ResultLost | ActiveWithoutCertificate | ActiveWithoutInstall
| ActiveUndrained | LateAdmitted | AdmitsWhileFenced (i : nat).

Fixpoint check_sources (i : nat) (xs : list Source) : option Broken :=
  match xs with
  | [] => None
  | x :: xs' => if fenced x && admitting x then Some (AdmitsWhileFenced i) else check_sources (S i) xs'
  end.

Definition is_phase (f : Phase) (s : State) : bool := bool_decide (phase s = f).

Definition invariant (s : State) : option Broken :=
  let xs := sources s in
  let active := is_phase Active s || is_phase Retired s in
  if target_admitting s && existsb admitting xs then Some Overlapping
  else if 0 <? reopened_same_epoch s then Some ReopenedSameEpoch
  else if negb (retained_results s =? produced_results s) then Some ResultLost
  else if active && existsb (fun x => negb (close_cert x)) xs then Some ActiveWithoutCertificate
  else if active && negb (target_installed s) then Some ActiveWithoutInstall
  else if active && existsb (fun x => 0 <? pending x) xs then Some ActiveUndrained
  else if 0 <? late_admissions s then Some LateAdmitted
  else check_sources 0 xs.

(** ** The actions *)
Inductive Action : Type :=
| WorkerClaim (w : nat) | StartClosing (w : nat) | Cancel (w : nat) | StartDraining (w : nat)
| CancelWithRollback (w : nat) | DrainComplete (w : nat) | InstallTarget (w : nat) | Activate (w : nat)
| Retire (w : nat) | Supersede (w : nat) | StaleActivate (w : nat)
| AdmitOld (i : nat) | LatePacket (i : nat) | ResolveOld (i : nat) | FenceSource (i : nat)
| CloseCertificate (i : nat) | SourceOffline (i : nat) | SourceBack (i : nat).

Definition claim (s : State) (w : nat) : Z := nth w (worker_claims s) 0.
Definition current (s : State) (w : nat) : bool := negb (claim s w =? 0) && (claim s w =? catalog_revision s).
Definition at_ (i : nat) (x : Source) (s : State) : State := s <| sources := <[i := x]> (sources s) |>.

Definition rollback (x : Source) : Source :=
  if fenced x then x <| fenced := false |> <| admitting := true |> else x.
Definition resume (x : Source) : Source :=
  if fenced x
  then x <| fence_epoch := fence_epoch x + 1 |> <| fenced := false |> <| admitting := true |> <| close_cert := false |>
  else x.

Section next.
Context (control : option Control).
Definition ctl (c : Control) : bool := bool_decide (control = Some c).

Definition next_claim (s : State) (w : nat) : list (Action * State) :=
  push (negb (current s w) && (catalog_revision s <? 3)) (WorkerClaim w)
    (s <| catalog_revision := catalog_revision s + 1 |>
       <| worker_claims := <[w := catalog_revision s + 1]> (worker_claims s) |>).

Definition next_phase (s : State) (w : nat) : list (Action * State) :=
  let xs := sources s in
  match phase s with
  | Proposed =>
      push true (StartClosing w) (s <| phase := Closing |>) ++
      push true (Cancel w) (s <| phase := Cancelled |>)
  | Closing =>
      push (forallb close_cert xs || (ctl ActivateWithOfflineSource && forallb (fun x => close_cert x || offline x) xs))
        (StartDraining w) (s <| phase := Draining |>) ++
      push (ctl RollbackFence) (CancelWithRollback w)
        (s <| phase := Cancelled |> <| sources := map rollback xs |>
           <| reopened_same_epoch := reopened_same_epoch s + Z.of_nat (length (filter (fun x => fenced x = true) xs)) |>)
  | Draining =>
      push (forallb (fun x => pending x =? 0) xs ||
            (ctl ActivateWithOfflineSource && forallb (fun x => (pending x =? 0) || offline x) xs))
        (DrainComplete w) (s <| phase := Installing |>)
  | Installing =>
      push (negb (target_installed s)) (InstallTarget w) (s <| target_installed := true |>) ++
      push ((target_installed s && forallb (fun x => close_cert x && (pending x =? 0)) xs) ||
            (ctl ActivateWithOfflineSource && target_installed s &&
             forallb (fun x => (close_cert x && (pending x =? 0)) || offline x) xs))
        (Activate w) (s <| phase := Active |> <| target_admitting := true |>)
  | Active =>
      push true (Retire w)
        (s <| phase := Retired |>
           <| retained_results := if ctl RetireDropsResults then 0 else retained_results s |>)
  | Retired | Cancelled => []
  end.

Definition next_worker (s : State) (w : nat) : list (Action * State) :=
  if negb (current s w) then []
  else next_phase s w ++
    push ((is_phase Closing s || is_phase Draining s || is_phase Installing s) &&
          forallb (fun x => fence_epoch x <? 2) (sources s)) (Supersede w)
      (s <| phase := Cancelled |> <| target_admitting := false |> <| sources := map resume (sources s) |>).

Definition next_stale (s : State) (w : nat) : list (Action * State) :=
  push (ctl StaleWorkerAdvances && negb (claim s w =? 0) && negb (current s w) && target_installed s &&
        is_phase Cancelled s) (StaleActivate w) (s <| phase := Active |> <| target_admitting := true |>).

Definition next_source (s : State) (i : nat) (x : Source) : list (Action * State) :=
  let admitted_total := produced_results s + sum (map pending (sources s)) in
  push (admitting x && negb (fenced x) && (pending x <? MAX_PENDING) && (admitted_total <? MAX_ADMISSIONS)) (AdmitOld i)
    (at_ i (x <| pending := pending x + 1 |>) s) ++
  push (fenced x && ctl LatePacketAdmitted && (admitted_total <? MAX_ADMISSIONS)) (LatePacket i)
    (at_ i (x <| pending := pending x + 1 |>) s <| late_admissions := late_admissions s + 1 |>) ++
  push ((0 <? pending x) && negb (offline x)) (ResolveOld i)
    (at_ i (x <| pending := pending x - 1 |>) s <| produced_results := produced_results s + 1 |>
       <| retained_results := retained_results s + 1 |>) ++
  push (is_phase Closing s && negb (fenced x) && negb (offline x)) (FenceSource i)
    (at_ i (x <| fenced := true |> <| admitting := false |>) s) ++
  push (fenced x && negb (close_cert x) && negb (offline x)) (CloseCertificate i)
    (at_ i (x <| close_cert := true |>) s) ++
  push (negb (offline x)) (SourceOffline i) (at_ i (x <| offline := true |>) s) ++
  push (offline x) (SourceBack i) (at_ i (x <| offline := false |>) s).

Definition next (s : State) : list (Action * State) :=
  concat (map (next_claim s) [0; 1]%nat) ++ concat (map (next_worker s) [0; 1]%nat) ++
  concat (map (next_stale s) [0; 1]%nat) ++ concat (imap (next_source s) (sources s)).
End next.

Definition initial (n : nat) : State :=
  MkState Proposed 0 [0; 0] (replicate n (MkSource true false 1 false 0 false)) false false 0 0 0 0.

Definition run (fuel n : nat) (control : option Control) (max_states : nat) :
    option (ModelReport Action Broken State) :=
  explore (next control) invariant (fun s => s) fuel (initial n) max_states.

Definition all_controls : list Control :=
  [ActivateWithOfflineSource; StaleWorkerAdvances; RollbackFence; LatePacketAdmitted; RetireDropsResults].
Definition evidence (max_states : nat) : option (GateEvidence Action Broken State) :=
  p ← run max_states 2 None max_states;
  cs ← mapM (fun c => run max_states 2 (Some c) max_states) all_controls;
  Some (MkGate p cs).

(** ** The inductive invariant *)

(** From Draining on, every source is closed; from Installing on, drained. *)
Definition sealed (p : Phase) : Prop := p = Draining \/ p = Installing \/ p = Active \/ p = Retired.
Definition drained (p : Phase) : Prop := p = Installing \/ p = Active \/ p = Retired.
Definition live (p : Phase) : Prop := p = Active \/ p = Retired.

Record x_ok (p : Phase) (x : Source) : Prop := {
  x_cert : close_cert x = true -> fenced x = true;
  x_fence : fenced x = true -> admitting x = false;
  x_sealed : sealed p -> close_cert x = true;
  x_drained : drained p -> pending x = 0;
  x_pending : 0 <= pending x <= 1;
  x_epoch : 1 <= fence_epoch x <= 2;
}.

Record s_ok (s : State) : Prop := {
  k_target : target_admitting s = true -> live (phase s);
  k_installed : live (phase s) -> target_installed s = true;
  k_clean : retained_results s = produced_results s /\ late_admissions s = 0 /\ reopened_same_epoch s = 0;
  k_total : 0 <= produced_results s /\ produced_results s + sum (map pending (sources s)) <= 2;
  k_revision : 0 <= catalog_revision s <= 3;
  k_claims : exists a b, worker_claims s = [a; b] /\ 0 <= a <= catalog_revision s /\ 0 <= b <= catalog_revision s /\
    (a = b -> a = 0);
  k_sources : Forall (x_ok (phase s)) (sources s);
}.

Lemma fm3_sum_pos p xs : Forall (x_ok p) xs -> 0 <= sum (map pending xs).
Proof. induction 1 as [|x xs [] _ IH]; [done|]. cbn [map]. rewrite sum_cons. lia. Qed.

Lemma check_sources_ok p i xs : Forall (x_ok p) xs -> check_sources i xs = None.
Proof.
  intros H. revert i. induction H as [|x xs [] _ IH]; intros i; cbn; [done|].
  destruct (fenced x); cbn; [|done]. by rewrite x_fence0.
Qed.

Lemma fm3_s_ok_invariant s : s_ok s -> invariant s = None.
Proof.
  intros [Ht Hi (Hr & Hl & Ho) _ _ _ Hxs]. unfold invariant. rewrite Hl, Ho, Hr, Z.eqb_refl.
  rewrite (check_sources_ok _ _ _ Hxs). cbn [negb Z.ltb Z.compare].
  assert (Hlive : live (phase s) -> Forall (fun x => admitting x = false /\ close_cert x = true /\ pending x = 0) (sources s)).
  { intros Hp. eapply Forall_impl; [exact Hxs|]. intros x []. unfold live, sealed, drained in *. intuition auto. }
  replace (target_admitting s && existsb admitting (sources s)) with false.
  2:{ destruct (target_admitting s); [|done]. rewrite existsb_none; [done|].
      eapply Forall_impl; [by apply Hlive, Ht|]. by intros x (? & _). }
  destruct (is_phase Active s || is_phase Retired s) eqn:Ha; [|done].
  assert (Hp : live (phase s)) by (unfold is_phase in Ha; apply orb_true_iff in Ha; rewrite !bool_decide_eq_true in Ha; done).
  rewrite (Hi Hp), !existsb_none; [done|..]; (eapply Forall_impl; [exact (Hlive Hp)|]); intros x (? & H1 & H2); by rewrite ?H1, ?H2.
Qed.

(** A source's own step leaves the others alone. *)
Lemma fm3_s_ok_at s i x x' :
  s_ok s -> sources s !! i = Some x -> (x_ok (phase s) x -> x_ok (phase s) x') ->
  sum (map pending (sources s)) - pending x + pending x' <= 2 - produced_results s -> s_ok (at_ i x' s).
Proof.
  intros [] Hi Hx Hsum. split; cbn; try done.
  - rewrite (sum_map_insert _ _ _ x x' Hi). lia.
  - apply Forall_insert; [done|]. apply Hx. exact (proj1 (Forall_lookup _ _) k_sources0 _ _ Hi).
Qed.

(** A change of phase that keeps the sources. *)
Lemma sources_ok s p : s_ok s ->
  (forall x, x ∈ sources s -> sealed p -> close_cert x = true) ->
  (forall x, x ∈ sources s -> drained p -> pending x = 0) -> Forall (x_ok p) (sources s).
Proof.
  intros K Hs Hd. pose proof (k_sources _ K) as Hxs. rewrite Forall_forall in *. intros x Hx. destruct (Hxs x Hx).
  split; auto.
Qed.

Ltac guards Hg :=
  cbn in Hg;
  repeat match type of Hg with _ && _ = true => apply andb_true_iff in Hg as [Hg ?] end;
  unfold is_phase, MAX_PENDING, MAX_ADMISSIONS in *;
  rewrite ?orb_false_r, ?negb_true_iff, ?bool_decide_eq_true, ?Z.ltb_lt, ?Z.eqb_eq in *; try discriminate.

Lemma next_claim_ok s w a s' : (w < 2)%nat -> s_ok s -> (a, s') ∈ next_claim s w -> s_ok s'.
Proof.
  intros Hw [] H. apply elem_of_push in H as (Hg & _ & ->). guards Hg. split; cbn; try done; [lia|].
  destruct k_claims0 as (x & y & Hxy & Hx & Hy & Hne). rewrite Hxy.
  destruct w as [|[|w]]; [..|lia]; cbn; eexists _, _; (split; [reflexivity|]); lia.
Qed.

(** Moving the phase, with what the new phase needs. *)
Lemma s_ok_phase s p ta : s_ok s -> (ta = true -> live p) -> (live p -> target_installed s = true) ->
  Forall (fun x => (sealed p -> close_cert x = true) /\ (drained p -> pending x = 0)) (sources s) ->
  s_ok (s <| phase := p |> <| target_admitting := ta |>).
Proof.
  intros K Hta Hli Hx. destruct (K). split; cbn; try done. rewrite Forall_forall in Hx.
  apply sources_ok; [done|..]; intros x Hin; by apply Hx.
Qed.

Ltac ph_solve Hxs Hg :=
  unfold live, sealed, drained in *; try (intuition congruence);
  pose proof (proj2 (Forall_and _ _) (conj Hxs Hg)) as HF;
  (eapply Forall_impl; [exact HF|]); cbn;
  intros x [[] Hx]; rewrite ?andb_true_iff, ?Z.eqb_eq in Hx; unfold sealed, drained in *; intuition (congruence || auto).

Lemma next_phase_ok s w a s' : s_ok s -> (a, s') ∈ next_phase None s w -> s_ok s'.
Proof.
  intros K H. pose proof (k_sources _ K) as Hxs. pose proof (k_target _ K) as Ht. pose proof (k_installed _ K) as Hi.
  unfold next_phase in H.
  destruct (phase s) eqn:Hp; actions H; try (by apply not_elem_of_nil in H); destruct H as (Hg & _ & ->); guards Hg;
    try (apply andb_true_iff in Hg as [Hg Hg']); repeat match goal with H : forallb _ _ = true |- _ => apply forallb_all in H end.
  - apply (s_ok_phase s Closing (target_admitting s) K); ph_solve Hxs Hxs.
  - apply (s_ok_phase s Cancelled (target_admitting s) K); ph_solve Hxs Hxs.
  - apply (s_ok_phase s Draining (target_admitting s) K); ph_solve Hxs Hg.
  - apply (s_ok_phase s Installing (target_admitting s) K); ph_solve Hxs Hg.
  - destruct K. split; cbn; rewrite ?Hp; done.
  - apply (s_ok_phase s Active true K); ph_solve Hxs Hg'.
  - destruct (s_ok_phase s Retired (target_admitting s) K) as []; [ph_solve Hxs Hxs..|]. by split.
Qed.

Lemma resume_ok p x : x_ok p x -> fence_epoch x < 2 -> x_ok Cancelled (resume x).
Proof.
  intros [] Hf. unfold resume. destruct (fenced x) eqn:E; split; cbn; unfold sealed, drained; try done; intuition (congruence || lia).
Qed.
Lemma sum_resume xs : sum (map pending (map resume xs)) = sum (map pending xs).
Proof.
  induction xs as [|x xs IH]; [done|]. cbn [map]. rewrite !sum_cons, IH. unfold resume. by destruct (fenced x).
Qed.

Lemma next_worker_ok s w a s' : s_ok s -> (a, s') ∈ next_worker None s w -> s_ok s'.
Proof.
  intros K H. unfold next_worker in H. destruct (negb (current s w)); [by apply not_elem_of_nil in H|].
  apply elem_of_app in H as [H|H]; [by eapply next_phase_ok|].
  apply elem_of_push in H as (Hg & _ & ->). apply andb_true_iff in Hg as [_ Hf].
  apply forallb_all in Hf. destruct K. split; cbn; try done.
  - unfold live. intuition congruence.
  - by rewrite sum_resume.
  - rewrite Forall_fmap. rewrite Forall_forall in *. intros x Hx. apply (resume_ok (phase s)); [auto|].
    apply Z.ltb_lt. auto.
Qed.

Lemma next_source_ok s i x a s' :
  s_ok s -> sources s !! i = Some x -> (a, s') ∈ next_source None s i x -> s_ok s'.
Proof.
  intros K Hi H. assert (Hx := proj1 (Forall_lookup _ _) (k_sources _ K) _ _ Hi). unfold next_source in H.
  destruct x as [ad fe ep off pe cc]. pose proof (k_total _ K).
  cbn [admitting fenced fence_epoch offline pending close_cert] in H.
  actions H; destruct H as (Hg & _ & ->); guards Hg; subst;
    try (eapply (fm3_s_ok_at s i _ _ K Hi); [intros []; split; cbn in *; unfold sealed, drained in *;
           intuition (congruence || lia || auto)|cbn; lia]).
  (* ResolveOld *)
  destruct K. split; cbn; try done; try lia.
  - rewrite (sum_map_insert _ _ _ _ _ Hi). cbn. lia.
  - apply Forall_insert; [done|]. destruct Hx. split; cbn in *; unfold drained in *; intuition (auto || lia).
Qed.

Lemma fm3_next_ok s a s' : s_ok s -> (a, s') ∈ next None s -> s_ok s'.
Proof.
  intros K H. unfold next in H. cbn [map concat] in H. rewrite !app_nil_r in H.
  repeat (apply elem_of_app in H as [H|H]);
    [by apply (next_claim_ok s 0 a s' ltac:(lia) K H)|by apply (next_claim_ok s 1 a s' ltac:(lia) K H)
    |by eapply next_worker_ok|by eapply next_worker_ok|apply elem_of_push in H as (H & _); discriminate H..|].
  apply elem_of_concat_imap in H as (i & x & Hi & H). by eapply next_source_ok.
Qed.

Lemma fm3_initial_ok n : s_ok (initial n).
Proof.
  split; cbn; try done.
  - by intros [|].
  - assert (sum (map pending (replicate n (MkSource true false 1 false 0 false))) = 0) as ->; [|lia].
    induction n as [|n IH]; [done|]. cbn [replicate map]. by rewrite sum_cons, IH.
  - exists 0, 0. split_and!; done.
  - apply Forall_replicate. split; cbn; unfold sealed, drained; try done; intuition (congruence || lia).
Qed.

Lemma fm3_reachable_ok n s : reachable (next None) (initial n) s -> s_ok s.
Proof. revert s. apply reachable_ind'; [apply fm3_initial_ok|]. intros; by eapply fm3_next_ok. Qed.

(** How each broken variant goes wrong. *)
Definition bad_run (c : Control) : list Action :=
  match c with
  | ActivateWithOfflineSource =>
      [WorkerClaim 0; StartClosing 0; SourceOffline 0; SourceOffline 1; StartDraining 0; DrainComplete 0;
       InstallTarget 0; Activate 0]
  | StaleWorkerAdvances =>
      [WorkerClaim 0; WorkerClaim 1; StartClosing 1; FenceSource 0; CloseCertificate 0; FenceSource 1;
       CloseCertificate 1; StartDraining 1; DrainComplete 1; InstallTarget 1; Supersede 1; StaleActivate 0]
  | RollbackFence => [WorkerClaim 0; StartClosing 0; FenceSource 0; CancelWithRollback 0]
  | LatePacketAdmitted => [WorkerClaim 0; StartClosing 0; FenceSource 0; LatePacket 0]
  | RetireDropsResults =>
      [WorkerClaim 0; StartClosing 0; AdmitOld 0; ResolveOld 0; FenceSource 0; CloseCertificate 0; FenceSource 1;
       CloseCertificate 1; StartDraining 0; DrainComplete 0; InstallTarget 0; Activate 0; Retire 0]
  end.
#[global] Instance Action_eq_dec : EqDecision Action. Proof. solve_decision. Defined.
Lemma fm3_bad_run c : exists s, path (next (Some c)) (initial 2) (bad_run c) s /\ invariant s <> None.
Proof.
  destruct (follow (next (Some c)) (initial 2) (bad_run c)) as [s|] eqn:H; [|by destruct c; vm_compute in H].
  exists s. split; [by eapply follow_path|]. by destruct c; vm_compute in H; injection H as <-; vm_compute.
Qed.

(** C8. FM-3 for any number of sources: in every reachable state of the
    migration machine, with sources going offline and back, workers superseding
    each other and late packets, no source admits while the target does, no
    closed authority reopens under its epoch, no accepted result is lost, and
    activation has every close certificate, the drain and the installation; at
    most one worker holds the current claim, and every counter stays within the
    bounds the source declares (so no [u8] overflows). *)
Theorem fm3_safe n s :
  reachable (next None) (initial n) s ->
  invariant s = None /\ (current s 0 = true -> current s 1 = false) /\
  0 <= catalog_revision s <= 3 /\ 0 <= produced_results s <= MAX_ADMISSIONS /\
  Forall (fun x => 0 <= pending x <= MAX_PENDING /\ 1 <= fence_epoch x <= 2) (sources s).
Proof.
  intros K%fm3_reachable_ok.
  pose proof (fm3_sum_pos _ _ (k_sources _ K)). pose proof (k_total _ K). unfold MAX_PENDING, MAX_ADMISSIONS.
  split; [by apply fm3_s_ok_invariant|]. split; [|split; [apply K|split; [lia|]]].
  - destruct (k_claims _ K) as (a & b & Hab & _ & _ & Hne). unfold current, claim. rewrite Hab. cbn.
    rewrite andb_true_iff, negb_true_iff, Z.eqb_neq, Z.eqb_eq. intros [Ha ->].
    destruct (Z.eqb_spec b (catalog_revision s)) as [->|]; [|by rewrite andb_false_r].
    by specialize (Hne eq_refl).
  - eapply Forall_impl; [exact (k_sources _ K)|]. by intros x [].
Qed.

(** The FM-3 gate under any state budget: the search returns, the machine is
    never reported, and the gate passes, with a counterexample for each of its
    five broken variants, unless one of the searches was cut short. *)
Theorem fm3_gate_sound N : (1 <= N)%nat ->
  exists g, evidence N = Some g /\ r_violation (positive g) = None /\
    (verdict g = true \/ Exists (fun r => r_truncated r = true) (positive g :: controls g)).
Proof.
  intros HN. apply (gate_sound next invariant (fun s => s) (initial 2) N all_controls HN).
  - intros s Hs. by apply fm3_s_ok_invariant, (fm3_reachable_ok 2).
  - apply Forall_forall. intros c _. exists (bad_run c). apply fm3_bad_run.
Qed.
Lemma fm3_gate_sound_witness :
  exists g, evidence 4000 = Some g /\ r_violation (positive g) = None /\
    (verdict g = true \/ Exists (fun r => r_truncated r = true) (positive g :: controls g)).
Proof. apply fm3_gate_sound. lia. Defined.

(** A claimed migration with one source, starting to close. *)
Lemma fm3_safe_witness :
  invariant (MkState Closing 1 [1; 0] [MkSource true false 1 false 0 false] false false 0 0 0 0) = None.
Proof.
  apply (fm3_safe 1). exists [WorkerClaim 0; StartClosing 0].
  eapply (path_snoc _ _ [WorkerClaim 0]); [eapply (path_snoc _ _ []); [apply path_nil|]|].
  - apply elem_of_app. left. by left.
  - apply elem_of_app. right. apply elem_of_app. left. by left.
Defined.
