(* ===== verification/StoreFormat.v ===== *)
(** * Persistent formats (src/crates/carolina-storage/src/format.rs)

    The page header, the journal frame and the manifest, byte for byte.  A
    buffer is the list of its bytes; [put] is [buf[off..].copy_from_slice] and
    [sub] is [&buf[a..b]].  The checksum is the crc32c crate, a parameter. *)

From S2P Require Import Prelude Errors.

(** ** Slices *)
Definition put (off : nat) (bs buf : bytes) : bytes := take off buf ++ bs ++ drop (off + length bs) buf.
Definition sub (a b : nat) (buf : bytes) : bytes := take (b - a) (drop a buf).
Definition byte_at (i : nat) (buf : bytes) : Z := nth i buf 0.
Definition zeros (n : nat) : bytes := replicate n 0.
Definition zlen (bs : bytes) : Z := Z.of_nat (length bs).

(** ** Constants *)
Definition PAGE_SIZE : Z := 8192.
Definition PAGE_FORMAT_VERSION : Z := 1.
Definition JOURNAL_FORMAT_VERSION : Z := 1.
Definition MANIFEST_FORMAT_VERSION : Z := 1.
Definition KEY_CODEC_VERSION : Z := 1.
Definition PAGE_MAGIC : bytes := str "CDBP".
Definition JOURNAL_MAGIC : bytes := str "CDBJ".
Definition MANIFEST_MAGIC : bytes := str "CDBM".
Definition PAGE_HEADER_LEN : Z := 64.
Definition FRAME_HEADER_LEN : Z := 64.
Definition FRAME_TRAILER_LEN : Z := 4.
Definition MANIFEST_LEN : Z := 160.

(** ** Page header *)
Inductive PageType : Type := Internal | Leaf | FreeList | Meta | Overflow.
#[global] Instance PageType_eq_dec : EqDecision PageType. Proof. solve_decision. Defined.
Definition page_type_u8 (t : PageType) : Z :=
  match t with Internal => 1 | Leaf => 2 | FreeList => 3 | Meta => 4 | Overflow => 5 end.
Definition page_type_from_u8 (v : Z) : CoreResult PageType :=
  if v =? 1 then Ok Internal else if v =? 2 then Ok Leaf else if v =? 3 then Ok FreeList
  else if v =? 4 then Ok Meta else if v =? 5 then Ok Overflow else Err Corruption.

Record PageHeader : Type := MkPageHeader {
  page_type : PageType;
  page_flags : Z;
  page_id : Z;
  page_generation : Z;
  page_lsn : Z;
  item_count : Z;
  free_start : Z;
  free_end : Z;
  left_sibling : Z;
  right_sibling : Z;
}.

Definition NO_PAGE : Z := 0.
Definition page_new (t : PageType) (id : Z) : PageHeader :=
  MkPageHeader t 0 id 1 0 0 PAGE_HEADER_LEN PAGE_SIZE NO_PAGE NO_PAGE.

(** ** Journal frame *)
Inductive JournalRecordKind : Type :=
| CommitBatch | PrepareBatch | CommitPrepared | AbortPrepared | CheckpointBegin | CheckpointEnd
| CatalogGeneration | StorageEpochChange.
#[global] Instance JournalRecordKind_eq_dec : EqDecision JournalRecordKind. Proof. solve_decision. Defined.
Definition kind_u8 (k : JournalRecordKind) : Z :=
  match k with
  | CommitBatch => 1 | PrepareBatch => 2 | CommitPrepared => 3 | AbortPrepared => 4 | CheckpointBegin => 5
  | CheckpointEnd => 6 | CatalogGeneration => 7 | StorageEpochChange => 8
  end.
Definition kind_from_u8 (v : Z) : CoreResult JournalRecordKind :=
  if v =? 1 then Ok CommitBatch else if v =? 2 then Ok PrepareBatch else if v =? 3 then Ok CommitPrepared
  else if v =? 4 then Ok AbortPrepared else if v =? 5 then Ok CheckpointBegin else if v =? 6 then Ok CheckpointEnd
  else if v =? 7 then Ok CatalogGeneration else if v =? 8 then Ok StorageEpochChange else Err Corruption.

Record JournalFrame : Type := MkJournalFrame {
  jf_kind : JournalRecordKind;
  jf_flags : Z;
  jf_lsn : Z;
  jf_txn_id : bytes;
  jf_payload : bytes;
}.
#[global] Instance JournalFrame_eq_dec : EqDecision JournalFrame. Proof. solve_decision. Defined.
Definition frame_total_len (f : JournalFrame) : Z := FRAME_HEADER_LEN + zlen (jf_payload f) + FRAME_TRAILER_LEN.

(** ** Manifest *)
Record Manifest : Type := MkManifest {
  manifest_generation : Z;
  storage_epoch : Z;
  root_page_id : Z;
  next_page_id : Z;
  free_list_head : Z;
  checkpoint_lsn : Z;
  checkpoint_commit_seq : Z;
  journal_segment : Z;
  storage_id : bytes;
  cluster_id : bytes;
}.

Section formats.
Context (crc : bytes -> Z).

(** [PageHeader::write]: the bytes of the page afterwards. *)
Definition page_write (h : PageHeader) (page : bytes) : CoreResult bytes :=
  if negb (zlen page =? PAGE_SIZE) then Panic
  else
    let page := put 0 PAGE_MAGIC page in
    let page := put 4 (le_encode 2 PAGE_FORMAT_VERSION) page in
    let page := put 6 [page_type_u8 (page_type h)] page in
    let page := put 7 [page_flags h] page in
    let page := put 8 (le_encode 8 (page_id h)) page in
    let page := put 16 (le_encode 8 (page_generation h)) page in
    let page := put 24 (le_encode 8 (page_lsn h)) page in
    let page := put 32 (le_encode 2 (item_count h)) page in
    let page := put 34 (le_encode 2 (free_start h)) page in
    let page := put 36 (le_encode 2 (free_end h)) page in
    let page := put 38 (le_encode 8 (left_sibling h)) page in
    let page := put 46 (le_encode 8 (right_sibling h)) page in
    let page := put 54 (zeros 6) page in
    let page := put 60 (zeros 4) page in
    let c := crc page in
    Ok (put 60 (le_encode 4 c) page).

Definition page_read (page : bytes) (expected_id : Z) : CoreResult PageHeader :=
  if negb (zlen page =? PAGE_SIZE) then Err Corruption
  else if negb (bool_decide (sub 0 4 page = PAGE_MAGIC)) then Err Corruption
  else
    let ver := le_decode [byte_at 4 page; byte_at 5 page] in
    if negb (ver =? PAGE_FORMAT_VERSION) then Err UnsupportedFormat
    else
      let stored := le_decode (sub 60 64 page) in
      let tmp := put 60 (zeros 4) page in
      if negb (crc tmp =? stored) then Err ChecksumMismatch
      else
        t ← page_type_from_u8 (byte_at 6 page);
        let h := MkPageHeader t (byte_at 7 page) (le_decode (sub 8 16 page)) (le_decode (sub 16 24 page))
          (le_decode (sub 24 32 page)) (le_decode [byte_at 32 page; byte_at 33 page])
          (le_decode [byte_at 34 page; byte_at 35 page]) (le_decode [byte_at 36 page; byte_at 37 page])
          (le_decode (sub 38 46 page)) (le_decode (sub 46 54 page)) in
        if negb (page_id h =? expected_id) then Err Corruption
        else if (free_start h <? PAGE_HEADER_LEN) || (PAGE_SIZE <? free_end h) || (free_end h <? free_start h)
        then Err Corruption
        else Ok h.

(** [JournalFrame::encode]. *)
Definition frame_encode (f : JournalFrame) : bytes :=
  let total := frame_total_len f in
  let out := zeros (Z.to_nat total) in
  let out := put 0 JOURNAL_MAGIC out in
  let out := put 4 (le_encode 2 JOURNAL_FORMAT_VERSION) out in
  let out := put 6 [kind_u8 (jf_kind f)] out in
  let out := put 7 [jf_flags f] out in
  let out := put 8 (le_encode 4 (wrap_u 32 total)) out in
  let out := put 12 (le_encode 4 (wrap_u 32 (zlen (jf_payload f)))) out in
  let out := put 16 (le_encode 8 (jf_lsn f)) out in
  let out := put 24 (jf_txn_id f) out in
  let out := put 64 (jf_payload f) out in
  let out := put (Z.to_nat (total - 4)) (le_encode 4 (wrap_u 32 total)) out in
  let c := crc out in
  put 56 (le_encode 4 c) out.

(** [JournalFrame::decode]. *)
Definition frame_decode (bs : bytes) (max_payload : Z) : CoreResult (option (JournalFrame * Z)) :=
  if zlen bs <? FRAME_HEADER_LEN then Ok None
  else if negb (bool_decide (sub 0 4 bs = JOURNAL_MAGIC)) then
    if forallb (fun b => b =? 0) (take 64 bs) then Ok None else Err Corruption
  else
    let ver := le_decode [byte_at 4 bs; byte_at 5 bs] in
    if negb (ver =? JOURNAL_FORMAT_VERSION) then Err UnsupportedFormat
    else
      let total := le_decode (sub 8 12 bs) in
      let payload_len := le_decode (sub 12 16 bs) in
      if (max_payload <? payload_len) || negb (total =? FRAME_HEADER_LEN + payload_len + FRAME_TRAILER_LEN)
      then Err Corruption
      else if zlen bs <? total then Ok None
      else
        let frame_bytes := take (Z.to_nat total) bs in
        let stored := le_decode (sub 56 60 frame_bytes) in
        let tmp := put 56 (zeros 4) frame_bytes in
        if negb (crc tmp =? stored) then Err ChecksumMismatch
        else
          let trailer := le_decode (drop (Z.to_nat (total - 4)) frame_bytes) in
          if negb (trailer =? total) then Err Corruption
          else
            kind ← kind_from_u8 (byte_at 6 frame_bytes);
            Ok (Some (MkJournalFrame kind (byte_at 7 frame_bytes) (le_decode (sub 16 24 frame_bytes))
                        (sub 24 56 frame_bytes) (sub 64 (64 + Z.to_nat payload_len) frame_bytes),
                      total)).

(** [Manifest::encode] and [Manifest::decode]. *)
Definition manifest_encode (m : Manifest) : bytes :=
  let o := zeros (Z.to_nat MANIFEST_LEN) in
  let o := put 0 MANIFEST_MAGIC o in
  let o := put 4 (le_encode 2 MANIFEST_FORMAT_VERSION) o in
  let o := put 6 (le_encode 2 PAGE_FORMAT_VERSION) o in
  let o := put 8 (le_encode 2 JOURNAL_FORMAT_VERSION) o in
  let o := put 12 (le_encode 4 KEY_CODEC_VERSION) o in
  let o := put 16 (le_encode 8 (manifest_generation m)) o in
  let o := put 24 (le_encode 8 (storage_epoch m)) o in
  let o := put 32 (le_encode 4 PAGE_SIZE) o in
  let o := put 40 (le_encode 8 (root_page_id m)) o in
  let o := put 48 (le_encode 8 (next_page_id m)) o in
  let o := put 56 (le_encode 8 (free_list_head m)) o in
  let o := put 64 (le_encode 8 (checkpoint_lsn m)) o in
  let o := put 72 (le_encode 8 (checkpoint_commit_seq m)) o in
  let o := put 80 (le_encode 8 (journal_segment m)) o in
  let o := put 88 (storage_id m) o in
  let o := put 104 (cluster_id m) o in
  let c := crc (take 156 o) in
  put 156 (le_encode 4 c) o.

Definition manifest_decode (m : bytes) : CoreResult Manifest :=
  if zlen m <? MANIFEST_LEN then Err InvalidManifest
  else
    let m := take 160 m in
    if negb (bool_decide (sub 0 4 m = MANIFEST_MAGIC)) then Err InvalidManifest
    else
      let stored := le_decode (drop 156 m) in
      if negb (crc (take 156 m) =? stored) then Err InvalidManifest
      else
        let mf := le_decode [byte_at 4 m; byte_at 5 m] in
        let pf := le_decode [byte_at 6 m; byte_at 7 m] in
        let jf := le_decode [byte_at 8 m; byte_at 9 m] in
        let kc := le_decode (sub 12 16 m) in
        if negb (mf =? MANIFEST_FORMAT_VERSION) || negb (pf =? PAGE_FORMAT_VERSION)
           || negb (jf =? JOURNAL_FORMAT_VERSION) || negb (kc =? KEY_CODEC_VERSION)
        then Err UnsupportedFormat
        else if negb (le_decode (sub 32 36 m) =? PAGE_SIZE) then Err UnsupportedFormat
        else
          Ok (MkManifest (le_decode (sub 16 24 m)) (le_decode (sub 24 32 m)) (le_decode (sub 40 48 m))
                (le_decode (sub 48 56 m)) (le_decode (sub 56 64 m)) (le_decode (sub 64 72 m))
                (le_decode (sub 72 80 m)) (le_decode (sub 80 88 m)) (sub 88 104 m) (sub 104 120 m)).
End formats.

(** ** Slice lemmas *)
Lemma put_length N off bs buf :
  length buf = N -> (off + length bs <= N)%nat -> length (put off bs buf) = N.
Proof. intros <- H. unfold put. rewrite !length_app, length_take, length_drop. lia. Qed.

Lemma sub_put_same N off b bs buf :
  length buf = N -> (off + length bs <= N)%nat -> b = (off + length bs)%nat -> sub off b (put off bs buf) = bs.
Proof.
  intros <- H ->. unfold sub, put. rewrite drop_app_length' by (rewrite length_take; lia).
  apply take_app_length'. lia.
Qed.

Lemma sub_put_other N a b off bs buf :
  length buf = N -> (off + length bs <= N)%nat -> (b <= off \/ off + length bs <= a)%nat ->
  sub a b (put off bs buf) = sub a b buf.
Proof.
  intros <- H Hd. unfold sub, put. destruct (decide (b <= a)%nat) as [|Hab].
  { replace (b - a)%nat with 0%nat by lia. done. }
  destruct Hd as [Hd|Hd].
  - rewrite <- (take_drop off buf) at 3. rewrite !drop_app_le by (rewrite length_take; lia).
    rewrite !take_app_le by (rewrite length_drop, length_take; lia). done.
  - rewrite drop_app_ge, drop_app_ge by (rewrite length_take; lia). rewrite drop_drop. do 2 f_equal.
    rewrite length_take. lia.
Qed.

Lemma put_same N off bs buf :
  length buf = N -> (off + length bs <= N)%nat -> sub off (off + length bs) buf = bs -> put off bs buf = buf.
Proof.
  intros <- H Hs. unfold put, sub in *. replace (off + length bs - off)%nat with (length bs) in Hs by lia.
  rewrite <- Hs at 1. rewrite <- drop_drop. by rewrite take_drop, take_drop.
Qed.

Lemma put_put N off bs bs' buf :
  length buf = N -> (off + length bs <= N)%nat -> length bs' = length bs ->
  put off bs' (put off bs buf) = put off bs' buf.
Proof.
  intros <- H Hl. unfold put. rewrite Hl.
  rewrite take_app_le, take_take, Nat.min_id by (rewrite length_take; lia).
  do 2 f_equal. rewrite drop_app_ge by (rewrite length_take; lia).
  rewrite drop_app_ge, drop_drop by (rewrite length_take; lia). f_equal. rewrite length_take. lia.
Qed.

Lemma sub_app_l a b buf rest : (b <= length buf)%nat -> sub a b (buf ++ rest) = sub a b buf.
Proof.
  intros H. unfold sub. destruct (decide (b <= a)%nat) as [|Hab].
  { by replace (b - a)%nat with 0%nat by lia. }
  rewrite drop_app_le by lia. by rewrite take_app_le by (rewrite length_drop; lia).
Qed.
Lemma sub_take a b n buf : (b <= n)%nat -> sub a b (take n buf) = sub a b buf.
Proof.
  intros H. unfold sub. rewrite skipn_firstn_comm, take_take. f_equal. lia.
Qed.
Lemma byte_at_sub i x buf : sub i (S i) buf = [x] -> byte_at i buf = x.
Proof.
  unfold sub, byte_at. replace (S i - i)%nat with 1%nat by lia. revert i.
  induction buf as [|y buf IH]; intros [|i]; cbn; try done; [congruence|apply IH].
Qed.
Lemma pair_sub i j b buf :
  j = S i -> b = S j -> (j < length buf)%nat -> [byte_at i buf; byte_at j buf] = sub i b buf.
Proof.
  intros -> ->. unfold sub, byte_at. replace (S (S i) - i)%nat with 2%nat by lia. revert i.
  induction buf as [|y buf IH]; intros [|i]; cbn; try lia.
  - destruct buf; cbn; [lia|done].
  - intros. apply IH. lia.
Qed.
Lemma sub_zeros a b n : (b <= n)%nat -> sub a b (zeros n) = zeros (b - a).
Proof. intros H. unfold sub, zeros. rewrite drop_replicate, take_replicate. f_equal. lia. Qed.
Lemma zeros_length n : length (zeros n) = n.
Proof. apply length_replicate. Qed.

(** Reading the slots of a buffer written by [put]s. *)
Ltac plen :=
  lazymatch goal with
  | |- length (put _ _ _) = _ => apply put_length; [plen|plen]
  | |- _ => rewrite ?le_encode_length, ?zeros_length; cbn [length]; lia
  end.
Ltac slot N :=
  lazymatch goal with
  | |- context [sub ?a ?b (put ?a ?bs ?buf)] => rewrite (sub_put_same N a b bs buf) by plen
  | |- context [sub ?a ?b (put ?off ?bs ?buf)] => rewrite (sub_put_other N a b off bs buf) by plen
  | |- context [sub ?a ?b (zeros ?n)] => rewrite (sub_zeros a b n) by plen
  end.

Lemma drop_sub n buf : drop n buf = sub n (length buf) buf.
Proof. unfold sub. by rewrite take_ge by (rewrite length_drop; lia). Qed.
Lemma le_slot n z : 0 <= z < 256 ^ Z.of_nat n -> le_decode (le_encode n z) = z.
Proof. apply le_decode_encode. Qed.
Lemma wrap_u_small w z : 0 <= z < 2 ^ w -> wrap_u w z = z.
Proof. apply Z.mod_small. Qed.

Section format_facts.
Context (crc : bytes -> Z).
Context (crc_range : forall b, in_u 32 (crc b) = true).

Lemma crc_slot b : le_decode (le_encode 4 (crc b)) = crc b.
Proof. apply le_slot. specialize (crc_range b). by apply in_u_spec in crc_range. Qed.

(** *** Journal frames *)
Definition frame_ok (max_payload : Z) (f : JournalFrame) : Prop :=
  in_u 8 (jf_flags f) = true /\ in_u 64 (jf_lsn f) = true /\ length (jf_txn_id f) = 32%nat /\
  zlen (jf_payload f) <= max_payload /\ frame_total_len f < 2 ^ 32.

Section frame.
Context (f : JournalFrame) (max_payload : Z) (Hok : frame_ok max_payload f).
Let N := Z.to_nat (frame_total_len f).

(** The frame before its checksum is filled in. *)
Definition frame_body : bytes :=
  put (Z.to_nat (frame_total_len f - 4)) (le_encode 4 (wrap_u 32 (frame_total_len f)))
    (put 64 (jf_payload f) (put 24 (jf_txn_id f) (put 16 (le_encode 8 (jf_lsn f))
      (put 12 (le_encode 4 (wrap_u 32 (zlen (jf_payload f)))) (put 8 (le_encode 4 (wrap_u 32 (frame_total_len f)))
        (put 7 [jf_flags f] (put 6 [kind_u8 (jf_kind f)] (put 4 (le_encode 2 JOURNAL_FORMAT_VERSION)
          (put 0 JOURNAL_MAGIC (zeros (Z.to_nat (frame_total_len f)))))))))))).

Lemma frame_encode_body : frame_encode crc f = put 56 (le_encode 4 (crc frame_body)) frame_body.
Proof. done. Qed.

Lemma frame_N : N = (64 + length (jf_payload f) + 4)%nat /\ Z.to_nat (frame_total_len f - 4) = (64 + length (jf_payload f))%nat.
Proof. unfold N, frame_total_len, zlen, FRAME_HEADER_LEN, FRAME_TRAILER_LEN. lia. Qed.

Ltac flen :=
  destruct frame_N as [HN HT]; destruct Hok as (Hfl & Hlsn & Htx & Hpay & Htot);
  unfold frame_body; fold N; rewrite HT;
  assert (HM : length JOURNAL_MAGIC = 4%nat) by done.

Lemma frame_body_length : length frame_body = N.
Proof. flen. plen. Qed.
Lemma frame_encode_length : length (frame_encode crc f) = N.
Proof. destruct frame_N. rewrite frame_encode_body. apply put_length; [apply frame_body_length|plen]. Qed.

Lemma frame_slot a b : (b <= 56 \/ 60 <= a)%nat -> sub a b (frame_encode crc f) = sub a b frame_body.
Proof.
  intros H. destruct frame_N. rewrite frame_encode_body, (sub_put_other N);
    [done|apply frame_body_length|plen|rewrite le_encode_length; lia].
Qed.
Lemma frame_uncrc : put 56 (zeros 4) (frame_encode crc f) = frame_body.
Proof.
  destruct frame_N. rewrite frame_encode_body, (put_put N); [|apply frame_body_length|plen|done].
  apply (put_same N); [apply frame_body_length|plen|]. flen. cbn [zeros length replicate Nat.add].
  repeat slot N. done.
Qed.
Lemma frame_stored : sub 56 60 (frame_encode crc f) = le_encode 4 (crc frame_body).
Proof. destruct frame_N. rewrite frame_encode_body. apply (sub_put_same N); [apply frame_body_length|plen|done]. Qed.

Lemma frame_slots :
  sub 0 4 frame_body = JOURNAL_MAGIC /\ sub 4 6 frame_body = le_encode 2 JOURNAL_FORMAT_VERSION /\
  sub 6 7 frame_body = [kind_u8 (jf_kind f)] /\ sub 7 8 frame_body = [jf_flags f] /\
  sub 8 12 frame_body = le_encode 4 (frame_total_len f) /\
  sub 12 16 frame_body = le_encode 4 (zlen (jf_payload f)) /\
  sub 16 24 frame_body = le_encode 8 (jf_lsn f) /\ sub 24 56 frame_body = jf_txn_id f /\
  sub 64 (64 + length (jf_payload f)) frame_body = jf_payload f /\
  sub (64 + length (jf_payload f)) N frame_body = le_encode 4 (frame_total_len f).
Proof.
  flen. assert (Hp : zlen (jf_payload f) < 2 ^ 32)
    by (unfold frame_total_len, FRAME_HEADER_LEN, FRAME_TRAILER_LEN in *; lia).
  rewrite !wrap_u_small by (unfold zlen, frame_total_len, FRAME_HEADER_LEN, FRAME_TRAILER_LEN in *; lia).
  split_and!; repeat slot N; done.
Qed.

(** The header of a buffer that starts with at least the header of the frame. *)
Lemma frame_header n rest :
  (64 <= n <= N)%nat -> rest = [] \/ n = N ->
  let bs := take n (frame_encode crc f) ++ rest in
  64 <= zlen bs /\ sub 0 4 bs = JOURNAL_MAGIC /\ le_decode [byte_at 4 bs; byte_at 5 bs] = JOURNAL_FORMAT_VERSION /\
  le_decode (sub 8 12 bs) = frame_total_len f /\ le_decode (sub 12 16 bs) = zlen (jf_payload f).
Proof.
  intros Hn _ bs. destruct frame_slots as (S0 & S4 & _ & _ & S8 & S12 & _). pose proof frame_encode_length as HL.
  destruct Hok as (_ & _ & _ & _ & Htot).
  assert (Hl : length (take n (frame_encode crc f)) = n) by (rewrite length_take; lia).
  assert (Hs : forall a b, (b <= 56)%nat -> sub a b bs = sub a b frame_body).
  { intros a b Hb. unfold bs. rewrite sub_app_l by lia. rewrite sub_take by lia. apply frame_slot. lia. }
  assert (Hb : (64 <= length bs)%nat) by (unfold bs; rewrite length_app; lia).
  split_and!; [unfold zlen; lia|by rewrite Hs by lia|..].
  - rewrite (pair_sub 4 5 6) by (done || lia). by rewrite Hs, S4 by lia.
  - rewrite Hs, S8 by lia. apply le_slot. unfold frame_total_len, zlen, FRAME_HEADER_LEN, FRAME_TRAILER_LEN in *. lia.
  - rewrite Hs, S12 by lia. apply le_slot. unfold frame_total_len, zlen, FRAME_HEADER_LEN, FRAME_TRAILER_LEN in *. lia.
Qed.

Lemma kind_roundtrip k : kind_from_u8 (kind_u8 k) = Ok k.
Proof. by destruct k. Qed.

Lemma frame_decode_encode rest :
  frame_decode crc (frame_encode crc f ++ rest) max_payload = Ok (Some (f, frame_total_len f)).
Proof.
  destruct frame_N as [HN HT]. pose proof frame_encode_length as HL.
  destruct frame_slots as (_ & _ & S6 & S7 & _ & _ & S16 & S24 & S64 & STr).
  destruct (frame_header N rest ltac:(lia) ltac:(by right)) as (H64 & H0 & H4 & H8 & H12).
  rewrite take_ge in H64, H0, H4, H8, H12 by lia.
  destruct Hok as (Hfl & Hlsn & _ & Hpay & Htot). unfold frame_decode.
  rewrite H0, H4, H8, H12. destruct (Z.ltb_spec (zlen (frame_encode crc f ++ rest)) FRAME_HEADER_LEN) as [HH|_];
    [unfold FRAME_HEADER_LEN in HH; lia|]. rewrite bool_decide_eq_true_2 by done. cbn [negb].
  rewrite Z.eqb_refl. cbn [negb]. destruct (Z.ltb_spec max_payload (zlen (jf_payload f))) as [|_]; [lia|].
  fold (frame_total_len f). rewrite Z.eqb_refl. cbn [negb orb].
  destruct (Z.ltb_spec (zlen (frame_encode crc f ++ rest)) (frame_total_len f)) as [Hx|_].
  { unfold zlen in Hx. rewrite length_app, HL in Hx. unfold N in Hx. lia. }
  fold N. rewrite take_app_length' by lia.
  rewrite frame_uncrc, frame_stored, crc_slot, Z.eqb_refl. cbn [negb].
  rewrite HT, drop_sub, HL, frame_slot, STr by lia. rewrite le_slot by (unfold frame_total_len, zlen, FRAME_HEADER_LEN, FRAME_TRAILER_LEN in *; lia).
  rewrite Z.eqb_refl. cbn [negb].
  rewrite (byte_at_sub 6 (kind_u8 (jf_kind f))), kind_roundtrip by (rewrite frame_slot by lia; done). cbn [mbind outcome_bind].
  rewrite (byte_at_sub 7 (jf_flags f)) by (rewrite frame_slot by lia; done).
  unfold zlen at 1. rewrite Nat2Z.id, !frame_slot, S16, S24, S64 by lia.
  rewrite le_slot by (by apply in_u_spec in Hlsn). by destruct f.
Qed.

(** A torn frame: any proper prefix is an incomplete tail. *)
Lemma frame_decode_torn n :
  (n < N)%nat -> frame_decode crc (take n (frame_encode crc f)) max_payload = Ok None.
Proof.
  intros Hn. pose proof frame_encode_length as HL. unfold frame_decode.
  assert (Hl : length (take n (frame_encode crc f)) = n) by (rewrite length_take; lia).
  destruct (Z.ltb_spec (zlen (take n (frame_encode crc f))) FRAME_HEADER_LEN) as [|Hge]; [done|].
  unfold FRAME_HEADER_LEN, zlen in Hge. rewrite Hl in Hge.
  destruct (frame_header n [] ltac:(lia) ltac:(by left)) as (_ & H0 & H4 & H8 & H12).
  rewrite app_nil_r in H0, H4, H8, H12. rewrite H0, H4, H8, H12.
  rewrite bool_decide_eq_true_2, Z.eqb_refl by done. cbn [negb].
  destruct Hok as (_ & _ & _ & Hpay & _). destruct (Z.ltb_spec max_payload (zlen (jf_payload f))) as [|_]; [lia|].
  fold (frame_total_len f). rewrite Z.eqb_refl. cbn [negb orb].
  destruct (Z.ltb_spec (zlen (take n (frame_encode crc f))) (frame_total_len f)) as [_|Hx]; [done|].
  unfold zlen in Hx. rewrite Hl in Hx. unfold N in Hn. lia.
Qed.
End frame.

(** *** Manifests *)
Definition manifest_ok (m : Manifest) : Prop :=
  Forall (fun z => in_u 64 z = true)
    [manifest_generation m; storage_epoch m; root_page_id m; next_page_id m; free_list_head m; checkpoint_lsn m;
     checkpoint_commit_seq m; journal_segment m] /\
  length (storage_id m) = 16%nat /\ length (cluster_id m) = 16%nat.

Lemma u64_slot z : in_u 64 z = true -> le_decode (le_encode 8 z) = z.
Proof. intros H. apply le_slot. by apply in_u_spec in H. Qed.
Lemma u16_slot z : in_u 16 z = true -> le_decode (le_encode 2 z) = z.
Proof. intros H. apply le_slot. by apply in_u_spec in H. Qed.

Lemma manifest_decode_encode m rest : manifest_ok m -> manifest_decode crc (manifest_encode crc m ++ rest) = Ok m.
Proof.
  intros (Hu & Hs & Hc). repeat rewrite Forall_cons in Hu. destruct Hu as (U1 & U2 & U3 & U4 & U5 & U6 & U7 & U8 & _).
  assert (HM : length MANIFEST_MAGIC = 4%nat) by done.
  unfold manifest_encode. change (Z.to_nat MANIFEST_LEN) with 160%nat.
  match goal with |- context [put 156 _ ?o] => set (body := o) end.
  assert (HB : length body = 160%nat) by (unfold body; plen).
  set (enc := put 156 (le_encode 4 (crc (take 156 body))) body).
  assert (HL : length enc = 160%nat) by (unfold enc; apply put_length; [done|plen]).
  assert (Hslot : forall a b, (b <= 156)%nat -> sub a b (take 160 (enc ++ rest)) = sub a b body).
  { intros a b Hb. rewrite take_app_length' by lia. unfold enc. apply (sub_put_other 160); [done|plen|lia]. }
  unfold manifest_decode. destruct (Z.ltb_spec (zlen (enc ++ rest)) MANIFEST_LEN) as [Hx|_].
  { unfold zlen, MANIFEST_LEN in Hx. rewrite length_app in Hx. lia. }
  rewrite !(pair_sub 4 5 6), !(pair_sub 6 7 8), !(pair_sub 8 9 10) by (rewrite ?length_take, ?length_app; lia).
  rewrite !Hslot by lia.
  assert (HT : take 156 (take 160 (enc ++ rest)) = take 156 body).
  { rewrite take_app_length' by lia. unfold enc, put. rewrite take_app_length' by (rewrite length_take; lia). done. }
  assert (HD : drop 156 (take 160 (enc ++ rest)) = le_encode 4 (crc (take 156 body))).
  { rewrite take_app_length', drop_sub, HL by lia. apply (sub_put_same 160); [done|plen|done]. }
  rewrite HT, HD, crc_slot, Z.eqb_refl. unfold body. repeat slot 160%nat.
  rewrite !u64_slot by done. cbn. by destruct m.
Qed.

(** *** Pages *)
Definition page_ok (h : PageHeader) : Prop :=
  in_u 8 (page_flags h) = true /\
  Forall (fun z => in_u 64 z = true) [page_id h; page_generation h; page_lsn h; left_sibling h; right_sibling h] /\
  Forall (fun z => in_u 16 z = true) [item_count h; free_start h; free_end h] /\
  PAGE_HEADER_LEN <= free_start h <= free_end h /\ free_end h <= PAGE_SIZE.

Lemma page_type_roundtrip t : page_type_from_u8 (page_type_u8 t) = Ok t.
Proof. by destruct t. Qed.

Lemma page_read_write h page : page_ok h -> zlen page = PAGE_SIZE ->
  exists page', page_write crc h page = Ok page' /\ page_read crc page' (page_id h) = Ok h /\
    zlen page' = PAGE_SIZE /\ drop 64 page' = drop 64 page.
Proof.
  intros (Hf & Hu & Hv & Hb & He) HP. repeat rewrite Forall_cons in Hu; repeat rewrite Forall_cons in Hv.
  destruct Hu as (U1 & U2 & U3 & U4 & U5 & _). destruct Hv as (V1 & V2 & V3 & _).
  assert (HM : length PAGE_MAGIC = 4%nat) by done.
  set (N := length page). assert (HN : (64 <= N)%nat) by (unfold zlen, PAGE_SIZE in HP; unfold N; lia).
  assert (HN0 : length page = N) by done.
  unfold page_write. rewrite HP, Z.eqb_refl. cbn [negb].
  match goal with |- context [put 60 _ ?o] => lazymatch o with put 60 _ _ => set (body := o) end end.
  assert (HB : length body = N) by (unfold body; plen).
  set (enc := put 60 (le_encode 4 (crc body)) body).
  assert (HL : length enc = N) by (unfold enc; apply put_length; [done|plen]).
  exists enc. split; [done|].
  assert (Hslot : forall a b, (b <= 60)%nat -> sub a b enc = sub a b body)
    by (intros a b Hab; unfold enc; apply (sub_put_other N); [done|plen|lia]).
  assert (HZ : zlen enc = PAGE_SIZE) by (unfold zlen in *; congruence).
  split; [|split; [done|]].
  - unfold page_read. rewrite HZ, Z.eqb_refl. cbn [negb].
    rewrite (pair_sub 4 5 6), (pair_sub 32 33 34), (pair_sub 34 35 36), (pair_sub 36 37 38) by (done || lia).
    assert (HC : put 60 (zeros 4) enc = body).
    { unfold enc. rewrite (put_put N); [|done|plen|done]. unfold body. apply (put_put N); [plen|plen|done]. }
    assert (HS : sub 60 64 enc = le_encode 4 (crc body)) by (apply (sub_put_same N); [done|plen|done]).
    rewrite HC, HS, crc_slot, Z.eqb_refl, !Hslot by lia.
    rewrite (byte_at_sub 6 (page_type_u8 (page_type h)) enc), page_type_roundtrip
      by (rewrite Hslot by lia; unfold body; repeat slot N; done).
    rewrite (byte_at_sub 7 (page_flags h) enc) by (rewrite Hslot by lia; unfold body; repeat slot N; done).
    unfold body. repeat slot N. rewrite !u64_slot, !u16_slot by done. cbn [mbind outcome_bind].
    rewrite bool_decide_eq_true_2 by done. change (le_decode (le_encode 2 PAGE_FORMAT_VERSION)) with 1. cbn [negb Z.eqb Pos.eqb PAGE_FORMAT_VERSION page_id free_start free_end].
    rewrite Z.eqb_refl. cbn [negb].
    destruct (Z.ltb_spec (free_start h) PAGE_HEADER_LEN); [lia|]. destruct (Z.ltb_spec PAGE_SIZE (free_end h)); [lia|].
    destruct (Z.ltb_spec (free_end h) (free_start h)); [lia|]. rewrite Z.eqb_refl. cbn [orb negb]. by destruct h.
  - rewrite !drop_sub, HL. unfold enc. rewrite (sub_put_other N) by plen. unfold body. repeat slot N. done.
Qed.
End format_facts.

(** C16. The persistent formats read back what they write: a frame decodes from
    its encoding whatever follows it and no proper prefix of it does (it is an
    incomplete tail, never corruption); a manifest decodes to itself; a page
    header is read back from the page it was written into, whose body is
    untouched. *)
Theorem formats_roundtrip (crc : bytes -> Z) (crc_range : forall b, in_u 32 (crc b) = true) :
  (forall f max_payload rest, frame_ok max_payload f ->
     frame_decode crc (frame_encode crc f ++ rest) max_payload = Ok (Some (f, frame_total_len f)) /\
     forall n, (n < length (frame_encode crc f))%nat -> frame_decode crc (take n (frame_encode crc f)) max_payload = Ok None) /\
  (forall m rest, manifest_ok m -> manifest_decode crc (manifest_encode crc m ++ rest) = Ok m) /\
  (forall h page, page_ok h -> zlen page = PAGE_SIZE ->
     exists page', page_write crc h page = Ok page' /\ page_read crc page' (page_id h) = Ok h /\
       zlen page' = PAGE_SIZE /\ drop 64 page' = drop 64 page).
Proof.
  split_and!.
  - intros f mp rest Hf. split; [by apply frame_decode_encode|]. intros n Hn.
    rewrite (frame_encode_length crc f mp Hf) in Hn. by apply frame_decode_torn.
  - intros m rest Hm. by apply manifest_decode_encode.
  - intros h page Hh Hp. by apply page_read_write.
Qed.

Lemma formats_roundtrip_witness :
  let f := MkJournalFrame PrepareBatch 0 9 (zeros 32) [1; 2; 3] in
  frame_decode (fun _ => 7) (frame_encode (fun _ => 7) f ++ [5]) 100 = Ok (Some (f, 71)) /\
  manifest_decode (fun _ => 7) (manifest_encode (fun _ => 7) (MkManifest 1 2 3 4 5 6 7 8 (zeros 16) (zeros 16))) =
    Ok (MkManifest 1 2 3 4 5 6 7 8 (zeros 16) (zeros 16)).
Proof.
  destruct (formats_roundtrip (fun _ => 7) (fun _ => eq_refl)) as (H1 & H2 & _). split.
  - apply H1. repeat split; done.
  - specialize (H2 (MkManifest 1 2 3 4 5 6 7 8 (zeros 16) (zeros 16)) []). rewrite app_nil_r in H2. apply H2.
    repeat split; repeat constructor.
Defined.
