(* ===== verification/Journal.v ===== *)
(** * The commit journal (src/crates/carolina-storage/src/journal.rs, the
    sequential file and fault points of io.rs)

    Segments of frames with increasing log sequence numbers, appends, the
    durable barrier, recovery with torn-tail truncation, and reclamation of old
    segments.  A file is its contents, the length known to be durable, and
    whether its directory entry is known to be durable, which syncing the file
    or the directory makes it; a directory lists its segments by number, which
    is what [read_dir] and the sort give.  System calls succeed; the fault
    injector is an arbitrary list of answers, one per consultation. *)

From S2P Require Import Prelude Errors StoreFormat.

Definition DEFAULT_SEGMENT_BYTES : Z := 64 * 1024 * 1024.
Definition MAX_JOURNAL_PAYLOAD : Z := 32 * 1024 * 1024.

Inductive DurabilityMode : Type := Sync | GroupSync | UnsafeNoFsync.
Inductive FaultAction : Type := NoFault | Crash | IoError.
#[global] Instance FaultAction_eq_dec : EqDecision FaultAction. Proof. solve_decision. Defined.

(** ** Files and directories *)
Record SeqFile : Type := MkSeqFile { content : bytes; synced : nat; linked : bool }.
Definition file_create : SeqFile := MkSeqFile [] 0 false.
Definition file_extend (bs : bytes) (f : SeqFile) : SeqFile := MkSeqFile (content f ++ bs) (synced f) (linked f).
(** Syncing a file makes its contents durable and, as on the journaling file
    systems of Linux, the directory entry that names it. *)
Definition file_synced (f : SeqFile) : SeqFile := MkSeqFile (content f) (length (content f)) true.
(** [SeqFile::truncate]: [set_len] and [sync_all]. *)
Definition file_truncated (len : nat) (f : SeqFile) : SeqFile := MkSeqFile (take len (content f)) len true.

Abbreviation Dir := (list (Z * SeqFile)).

Definition dir_get (seg : Z) (d : Dir) : SeqFile :=
  match find (fun x => x.1 =? seg) d with Some x => x.2 | None => file_create end.
Definition dir_update (seg : Z) (g : SeqFile -> SeqFile) (d : Dir) : Dir :=
  map (fun x => if x.1 =? seg then (x.1, g x.2) else x) d.
(** [SeqFile::open] of a segment above all others creates an empty file. *)
Definition dir_open (seg : Z) (d : Dir) : Dir :=
  if existsb (fun x => x.1 =? seg) d then d else d ++ [(seg, file_create)].

(** [sync_dir]: every directory entry becomes durable. *)
Definition sync_dir (d : Dir) : Dir := map (fun x => (x.1, MkSeqFile (content x.2) (synced x.2) true)) d.

(** ** The journal *)
Record Journal : Type := MkJournal {
  dir : Dir;
  faults : list FaultAction;
  segment_bytes : Z;
  current_segment : Z;
  next_lsn : Z;
  durable_lsn : Z;
  appended_lsn : Z;
  mode : DurabilityMode;
  fsync_count : Z;
  appended_bytes : Z;
}.
#[global] Instance Journal_eta : Eta Journal := fun j =>
  MkJournal (dir j) (faults j) (segment_bytes j) (current_segment j) (next_lsn j) (durable_lsn j)
    (appended_lsn j) (mode j) (fsync_count j) (appended_bytes j).

Record ScannedFrame : Type := MkScanned { sf_segment : Z; sf_offset : Z; sf_frame : JournalFrame }.

(** [faults.at(point)]. *)
Definition at_fault (j : Journal) : FaultAction * Journal :=
  match faults j with
  | [] => (NoFault, j)
  | a :: rest => (a, j <| faults := rest |>)
  end.
(** [fault(&faults, point)?]. *)
Definition fault (j : Journal) : CoreResult unit * Journal :=
  let '(a, j) := at_fault j in
  (match a with NoFault => Ok tt | Crash | IoError => Err Io end, j).

Section journal.
Context (crc : bytes -> Z).

(** [is_tail_frame]. *)
Definition is_tail_frame (b : bytes) : bool :=
  if zlen b <? FRAME_HEADER_LEN then true
  else
    let total := le_decode (sub 8 12 b) in
    if total <? FRAME_HEADER_LEN + FRAME_TRAILER_LEN then false
    else if zlen b <? total then true
    else
      let trailer := le_decode (sub (Z.to_nat (total - 4)) (Z.to_nat total) b) in
      negb (trailer =? total) || forallb (fun x => x =? 0) (drop (Z.to_nat total) b).

(** The loop of [open] over one segment, on the bytes that remain from [off]:
    the frames found, the last sequence number and where to truncate. *)
Fixpoint scan_segment (fuel : nat) (seg : Z) (is_last : bool) (off : Z) (bs : bytes) (max_lsn : Z) :
    CoreResult (list ScannedFrame * Z * option Z) :=
  match fuel with
  | O => Panic
  | S fuel' =>
      match bs with
      | [] => Ok ([], max_lsn, None)
      | _ =>
          match frame_decode crc bs MAX_JOURNAL_PAYLOAD with
          | Ok (Some (frame, n)) =>
              if (jf_lsn frame <=? max_lsn) && negb (max_lsn =? 0) then Err Corruption
              else
                '(fs, m, tr) ← scan_segment fuel' seg is_last (off + n) (drop (Z.to_nat n) bs) (jf_lsn frame);
                Ok (MkScanned seg off frame :: fs, m, tr)
          | Ok None => if is_last then Ok ([], max_lsn, Some off) else Err Corruption
          | Err _ => if is_last && is_tail_frame bs then Ok ([], max_lsn, Some off) else Err Corruption
          | Panic => Panic
          end
      end
  end.

(** The loop over the segments from [start_segment]. *)
Fixpoint scan_segments (start_segment : Z) (last_seg : option Z) (d : Dir) (max_lsn : Z) :
    CoreResult (list ScannedFrame * Z * Dir) :=
  match d with
  | [] => Ok ([], max_lsn, [])
  | (seg, f) :: d' =>
      if seg <? start_segment then
        '(fs, m, d2) ← scan_segments start_segment last_seg d' max_lsn;
        Ok (fs, m, (seg, f) :: d2)
      else
        '(fs1, m1, tr) ← scan_segment (S (length (content f))) seg (bool_decide (Some seg = last_seg)) 0 (content f) max_lsn;
        let f' := match tr with Some off => file_truncated (Z.to_nat off) f | None => f end in
        '(fs2, m2, d2) ← scan_segments start_segment last_seg d' m1;
        Ok (fs1 ++ fs2, m2, (seg, f') :: d2)
  end.

(** [Journal::open]. *)
Definition journal_open (d : Dir) (start_segment : Z) (fa : list FaultAction) (md : DurabilityMode) (sb : Z) :
    CoreResult (Journal * list ScannedFrame) :=
  let last_seg := last (map fst d) in
  '(fs, max_lsn, d') ← scan_segments start_segment last_seg d 0;
  let cur := Z.max (default 1 last_seg) (Z.max start_segment 1) in
  next ← uadd 64 max_lsn 1;
  Ok (MkJournal (dir_open cur d') fa sb cur next max_lsn max_lsn md 0 0, fs).

(** [SeqFile::append] on the current segment. *)
Definition file_append (bs : bytes) (j : Journal) : CoreResult unit * Journal :=
  match fault j with
  | (Ok _, j) =>
      let '(a, j) := at_fault j in
      if bool_decide (a = Crash) then
        (Err Io, j <| dir := dir_update (current_segment j) (file_extend (take (length bs / 2) bs)) (dir j) |>)
      else (Ok tt, j <| dir := dir_update (current_segment j) (file_extend bs) (dir j) |>)
  | r => r
  end.
(** [SeqFile::sync]. *)
Definition file_sync (j : Journal) : CoreResult unit * Journal :=
  match fault j with
  | (Ok _, j) => (Ok tt, j <| dir := dir_update (current_segment j) file_synced (dir j) |>)
  | r => r
  end.

Definition roll_segment (j : Journal) : CoreResult unit * Journal :=
  match file_sync j with
  | (Ok _, j) =>
      match uadd 64 (current_segment j) 1 with
      | Ok c => (Ok tt, j <| current_segment := c |> <| dir := sync_dir (dir_open c (dir j)) |>)
      | Err e => (Err e, j)
      | Panic => (Panic, j)
      end
  | r => r
  end.

Definition journal_append (kind : JournalRecordKind) (txn_id payload : bytes) (j : Journal) :
    CoreResult Z * Journal :=
  if MAX_JOURNAL_PAYLOAD <? zlen payload then (Err BatchTooLarge, j)
  else
    match (if segment_bytes j <=? zlen (content (dir_get (current_segment j) (dir j)))
           then roll_segment j else (Ok tt, j)) with
    | (Ok _, j) =>
        let lsn := next_lsn j in
        let bs := frame_encode crc (MkJournalFrame kind 0 lsn txn_id payload) in
        match file_append bs j with
        | (Ok _, j) =>
            let j := j <| appended_bytes := appended_bytes j + zlen bs |> in
            match uadd 64 (next_lsn j) 1 with
            | Ok n => (Ok lsn, j <| next_lsn := n |> <| appended_lsn := lsn |>)
            | Err e => (Err e, j)
            | Panic => (Panic, j)
            end
        | (Err e, j) => (Err e, j)
        | (Panic, j) => (Panic, j)
        end
    | (Err e, j) => (Err e, j)
    | (Panic, j) => (Panic, j)
    end.

(** [Journal::sync]. *)
Definition journal_sync (j : Journal) : CoreResult unit * Journal :=
  match mode j with
  | Sync | GroupSync =>
      match file_sync j with
      | (Ok _, j) => (Ok tt, j <| fsync_count := fsync_count j + 1 |> <| durable_lsn := appended_lsn j |>)
      | r => r
      end
  | UnsafeNoFsync => (Ok tt, j <| durable_lsn := appended_lsn j |>)
  end.

(** [segment_floors], [first_needed_segment], [reclaim_segments_below] and
    [retained_bytes]. *)
Definition segment_floors (j : Journal) : list (Z * option Z) :=
  map (fun x => (x.1, match frame_decode crc (content x.2) MAX_JOURNAL_PAYLOAD with
                      | Ok (Some (f, _)) => Some (jf_lsn f)
                      | _ => None
                      end)) (dir j).
Fixpoint needed_loop (from_lsn : Z) (fl : list (Z * option Z)) (needed : Z) : Z :=
  match fl with
  | [] => needed
  | (seg, Some first) :: fl' => if first <=? from_lsn then needed_loop from_lsn fl' (Z.max needed seg) else needed
  | (_, None) :: fl' => needed_loop from_lsn fl' needed
  end.
Definition first_needed_segment (from_lsn : Z) (j : Journal) : Z :=
  Z.min (needed_loop from_lsn (segment_floors j) 1) (current_segment j).
Definition removable (keep_from : Z) (j : Journal) (x : Z * SeqFile) : bool :=
  negb ((keep_from <=? x.1) || (x.1 =? current_segment j)).
Definition reclaim_segments_below (keep_from : Z) (j : Journal) : (Z * Z) * Journal :=
  let gone := List.filter (removable keep_from j) (dir j) in
  ((Z.of_nat (length gone), foldr Z.add 0 (map (fun x => zlen (content x.2)) gone)),
   let j := j <| dir := List.filter (fun x => negb (removable keep_from j x)) (dir j) |> in
   if 0 <? Z.of_nat (length gone) then j <| dir := sync_dir (dir j) |> else j).
Definition retained_bytes (j : Journal) : Z := foldr Z.add 0 (map (fun x => zlen (content x.2)) (dir j)).
End journal.
