(* ===== verification/JournalRecovery.v ===== *)
(** * Recovery of the commit journal

    What a disk holds after any crash, and that opening it returns exactly
    that: complete frames in order, with everything at or below the durable
    sequence number. *)

From stdpp Require Import sorting.
From S2P Require Import Prelude Errors StoreFormat Journal.

(** Losing power.  Of each file a prefix survives that has at least the bytes
    known to be durable, and a file whose directory entry is not known to be
    durable may vanish with everything in it.  Removed segments stay removed,
    and a file never shows bytes that were not written (a tail of zeros the
    file system allocated ahead is outside this model; the file on damaged
    journals says what recovery makes of one). *)
Definition lost (x y : Z * SeqFile) : Prop :=
  x.1 = y.1 /\ exists k, (synced x.2 <= k <= length (content x.2))%nat /\ y.2 = MkSeqFile (take k (content x.2)) k true.
Inductive power_loss : Dir -> Dir -> Prop :=
| loss_nil : power_loss [] []
| loss_keep x y d d' : lost x y -> power_loss d d' -> power_loss (x :: d) (y :: d')
| loss_gone x d d' : linked x.2 = false -> power_loss d d' -> power_loss (x :: d) d'.

(** Operations between an open and a crash; the first error ends the run, as
    the store fences itself off. *)
Inductive jop : Type :=
| JAppend (kind : JournalRecordKind) (txn_id payload : bytes)
| JSync.
Definition jop_ok (o : jop) : Prop := match o with JAppend _ txn _ => length txn = 32%nat | JSync => True end.
Fixpoint jrun (crc : bytes -> Z) (ops : list jop) (j : Journal) : list JournalFrame * Journal :=
  match ops with
  | [] => ([], j)
  | JAppend kind txn payload :: ops' =>
      match journal_append crc kind txn payload j with
      | (Ok lsn, j1) =>
          let '(fs, j2) := jrun crc ops' j1 in (MkJournalFrame kind 0 lsn txn payload :: fs, j2)
      | (_, j1) => ([], j1)
      end
  | JSync :: ops' =>
      match journal_sync j with
      | (Ok _, j1) => jrun crc ops' j1
      | (_, j1) => ([], j1)
      end
  end.

(** Sequence numbers increase from above [m]; the last one. *)
Fixpoint chain (m : Z) (fs : list JournalFrame) : Prop :=
  match fs with [] => True | f :: fs' => m < jf_lsn f /\ chain (jf_lsn f) fs' end.
Fixpoint last_lsn (m : Z) (fs : list JournalFrame) : Z :=
  match fs with [] => m | f :: fs' => last_lsn (jf_lsn f) fs' end.

Lemma chain_app m fs gs : chain m (fs ++ gs) <-> chain m fs /\ chain (last_lsn m fs) gs.
Proof. revert m. induction fs as [|f fs IH]; intros m; cbn; [tauto|]. rewrite IH. tauto. Qed.
Lemma last_lsn_app m fs gs : last_lsn m (fs ++ gs) = last_lsn (last_lsn m fs) gs.
Proof. revert m. induction fs as [|f fs IH]; intros m; cbn; [done|apply IH]. Qed.
Lemma chain_le m fs : chain m fs -> m <= last_lsn m fs.
Proof. revert m. induction fs as [|f fs IH]; intros m; cbn; [lia|]. intros [? H]. specialize (IH _ H). lia. Qed.
Lemma chain_bounds m fs : chain m fs -> Forall (fun f => m < jf_lsn f <= last_lsn m fs) fs.
Proof.
  revert m. induction fs as [|f fs IH]; intros m; cbn; [constructor|]. intros [Hm H].
  pose proof (chain_le _ _ H). constructor; [lia|]. eapply Forall_impl; [apply IH, H|]. cbn. lia.
Qed.

Section recovery.
Context (crc : bytes -> Z).
Context (crc_range : forall b, in_u 32 (crc b) = true).

Abbreviation fok := (frame_ok MAX_JOURNAL_PAYLOAD).
Definition seg_bytes (fs : list JournalFrame) : bytes := concat (map (frame_encode crc) fs).
Definition torn (t : bytes) : Prop :=
  exists f n, fok f /\ (n < length (frame_encode crc f))%nat /\ t = take n (frame_encode crc f).

Lemma encode_len f : fok f -> length (frame_encode crc f) = Z.to_nat (frame_total_len f) /\ (68 <= length (frame_encode crc f))%nat.
Proof.
  intros Hf. rewrite (frame_encode_length crc f _ Hf).
  unfold frame_total_len, zlen, FRAME_HEADER_LEN, FRAME_TRAILER_LEN. lia.
Qed.
Lemma seg_bytes_cons f fs : seg_bytes (f :: fs) = frame_encode crc f ++ seg_bytes fs.
Proof. done. Qed.
Lemma seg_bytes_app fs gs : seg_bytes (fs ++ gs) = seg_bytes fs ++ seg_bytes gs.
Proof. unfold seg_bytes. by rewrite map_app, concat_app. Qed.
Lemma torn_nil : torn [].
Proof.
  exists (MkJournalFrame CommitBatch 0 0 (zeros 32) []), 0%nat. split; [|split; [|done]].
  - repeat split; done.
  - destruct (encode_len (MkJournalFrame CommitBatch 0 0 (zeros 32) [])); [repeat split; done|lia].
Qed.

(** Reading one segment: the whole frames come first. *)
Lemma scan_prefix fuel seg is_last off fs t m :
  Forall fok fs -> chain m fs -> 0 <= m -> (length fs <= fuel)%nat ->
  exists ss, map sf_frame ss = fs /\
    scan_segment crc fuel seg is_last off (seg_bytes fs ++ t) m =
    ('(r, m', tr) ← scan_segment crc (fuel - length fs) seg is_last (off + zlen (seg_bytes fs)) t (last_lsn m fs);
     Ok (ss ++ r, m', tr)).
Proof.
  revert fuel off m. induction fs as [|f fs IH]; intros fuel off m Hfs Hc Hm Hfuel.
  - exists []. split; [done|]. change (seg_bytes [] ++ t) with t. change (zlen (seg_bytes [])) with 0.
    rewrite Z.add_0_r, Nat.sub_0_r. cbn [last_lsn]. by destruct (scan_segment _ _ _ _ _ _ _) as [[[? ?] ?]| |].
  - destruct fuel as [|fuel]; [cbn in Hfuel; lia|].
    apply Forall_cons in Hfs as [Hf Hfs]. destruct Hc as [Hmf Hc]. destruct (encode_len f Hf) as [HL H68].
    rewrite seg_bytes_cons, <- app_assoc in *.
    cbn [scan_segment]. destruct (frame_encode crc f ++ seg_bytes fs ++ t) as [|b bs] eqn:Ebs.
    { apply (f_equal length) in Ebs. rewrite length_app in Ebs. cbn in Ebs. lia. }
    rewrite <- Ebs. rewrite (frame_decode_encode crc crc_range f _ Hf).
    destruct (Z.leb_spec (jf_lsn f) m); [lia|]. cbn [andb].
    rewrite <- HL, drop_app_length.
    destruct (IH fuel (off + frame_total_len f) (jf_lsn f)) as (ss & Hss & ->); try done; try lia; [cbn in Hfuel; lia|].
    exists (MkScanned seg off f :: ss). split; [by cbn; rewrite Hss|].
    cbn [last_lsn length Nat.sub].
    replace (off + frame_total_len f + zlen (seg_bytes fs)) with (off + zlen (frame_encode crc f ++ seg_bytes fs))
      by (unfold zlen; rewrite length_app, HL; unfold frame_total_len, zlen, FRAME_HEADER_LEN, FRAME_TRAILER_LEN; lia).
    by destruct (scan_segment _ _ _ _ _ _ _) as [[[? ?] ?]| |].
Qed.

Lemma frames_fuel fs : Forall fok fs -> (length fs <= length (seg_bytes fs))%nat.
Proof.
  induction 1 as [|f fs Hf _ IH]; [done|]. destruct (encode_len f Hf) as [_ H68].
  rewrite seg_bytes_cons, length_app. cbn [length]. lia.
Qed.

(** Whole frames, then possibly a torn one. *)
Lemma scan_segment_frames fuel seg is_last off fs t m :
  Forall fok fs -> chain m fs -> 0 <= m -> torn t -> t = [] \/ is_last = true ->
  (length (seg_bytes fs ++ t) < fuel)%nat ->
  exists ss, map sf_frame ss = fs /\
    scan_segment crc fuel seg is_last off (seg_bytes fs ++ t) m =
    Ok (ss, last_lsn m fs, if decide (t = []) then None else Some (off + zlen (seg_bytes fs))).
Proof.
  intros Hfs Hc Hm Ht Hl Hfuel. rewrite length_app in Hfuel. pose proof (frames_fuel fs Hfs) as Hlen.
  destruct (scan_prefix fuel seg is_last off fs t m) as (ss & Hss & ->); try done; try lia.
  exists ss. split; [done|]. destruct (fuel - length fs)%nat as [|fuel'] eqn:Ef; [lia|]. cbn [scan_segment].
  destruct (decide (t = [])) as [->|Hne]; [cbn; by rewrite app_nil_r|].
  destruct Ht as (f & n & Hf & Hn & Ht). destruct t as [|b t]; [done|].
  rewrite Ht, (frame_decode_torn crc f _ Hf) by (by rewrite <- (proj1 (encode_len f Hf))).
  destruct Hl as [| ->]; [done|]. cbn. by rewrite app_nil_r.
Qed.

(** Whole frames, then bytes that do not decode but pass for a torn tail. *)
Lemma scan_segment_bad fuel seg off fs bad m e :
  Forall fok fs -> chain m fs -> 0 <= m -> bad <> [] ->
  frame_decode crc bad MAX_JOURNAL_PAYLOAD = Err e -> is_tail_frame bad = true ->
  (length (seg_bytes fs ++ bad) < fuel)%nat ->
  exists ss, map sf_frame ss = fs /\
    scan_segment crc fuel seg true off (seg_bytes fs ++ bad) m =
    Ok (ss, last_lsn m fs, Some (off + zlen (seg_bytes fs))).
Proof.
  intros Hfs Hc Hm Hne He Ht Hfuel. rewrite length_app in Hfuel. pose proof (frames_fuel fs Hfs) as Hlen.
  destruct (scan_prefix fuel seg true off fs bad m) as (ss & Hss & ->); try done; try lia.
  exists ss. split; [done|]. destruct (fuel - length fs)%nat as [|fuel'] eqn:Ef; [lia|]. cbn [scan_segment].
  destruct bad as [|b bad]; [done|]. rewrite He, Ht. cbn. by rewrite app_nil_r.
Qed.

(** ** What a directory holds

    [holds d cur dur fs t]: the segments of [d] hold the frames [fs] in order,
    [cur] is the last one and ends with the torn bytes [t]; every frame at or
    below [dur] is durable. *)
Definition whole (x : Z * SeqFile) (g : list JournalFrame) : Prop :=
  content x.2 = seg_bytes g /\ synced x.2 = length (content x.2) /\ linked x.2 = true.

Record holds (d : Dir) (cur dur : Z) (fs : list JournalFrame) (t : bytes) : Prop := {
  h_layout : exists di gi f gd gr,
    d = di ++ [(cur, f)] /\ Forall2 whole di gi /\ content f = seg_bytes (gd ++ gr) ++ t /\
    fs = concat gi ++ gd ++ gr /\ (length (seg_bytes gd) <= synced f <= length (content f))%nat /\
    Forall (fun fr => dur < jf_lsn fr) gr /\ (linked f = true \/ gd = []);
  h_sorted : StronglySorted Z.lt (map fst d);
  h_pos : Forall (fun s => 1 <= s) (map fst d);
  h_frames : Forall fok fs;
  h_chain : chain 0 fs;
  h_lsn : last_lsn 0 fs + 1 < 2 ^ 64;
  h_torn : torn t;
}.

Definition settled (d : Dir) : Prop := Forall (fun x => synced x.2 = length (content x.2) /\ linked x.2 = true) d.

(** A disk as a crash leaves it. *)
Definition disk (d : Dir) (fs : list JournalFrame) : Prop :=
  (d = [] /\ fs = []) \/ (settled d /\ exists cur t, holds d cur (last_lsn 0 fs) fs t).

(** ** Directories *)
Lemma sorted_last (l : list Z) x : StronglySorted Z.lt (l ++ [x]) -> Forall (fun y => y < x) l.
Proof.
  induction l as [|y l IH]; intros H; [constructor|]. cbn in H. apply StronglySorted_inv in H as [H1 H2].
  constructor; [|by apply IH]. rewrite Forall_app in H2. destruct H2 as [_ H2]. by inversion H2.
Qed.
Lemma sorted_front (l k : list Z) : StronglySorted Z.lt (l ++ k) -> StronglySorted Z.lt l.
Proof.
  induction l as [|y l IH]; intros H; [constructor|]. cbn in H. apply StronglySorted_inv in H as [H1 H2].
  apply Forall_app in H2 as [H2 _]. constructor; [by apply IH|done].
Qed.
Lemma sorted_snoc (l : list Z) x : StronglySorted Z.lt l -> Forall (fun y => y < x) l -> StronglySorted Z.lt (l ++ [x]).
Proof.
  induction 1 as [|y l Hl IH Hy]; intros Hx; cbn; [constructor; constructor|].
  apply Forall_cons in Hx as [Hyx Hx]. constructor; [by apply IH|]. rewrite Forall_app. split; [done|by constructor].
Qed.

Section last_file.
Context (di : Dir) (cur : Z) (f : SeqFile).
Context (Hlt : Forall (fun y => y < cur) (map fst di)).

Lemma find_above x : cur <= x -> List.find (fun y : Z * SeqFile => y.1 =? x) di = None.
Proof.
  clear f. intros Hx. revert Hlt. induction di as [|y d IH]; cbn; intros H; [done|].
  apply Forall_cons in H as [? ?]. destruct (Z.eqb_spec y.1 x); [lia|auto].
Qed.
Lemma dir_get_last : dir_get cur (di ++ [(cur, f)]) = f.
Proof.
  unfold dir_get. replace (List.find _ (di ++ [(cur, f)])) with (Some (cur, f)); [done|].
  pose proof (find_above cur ltac:(lia)) as H. revert H. clear Hlt.
  induction di as [|y d IH]; cbn; [by rewrite Z.eqb_refl|]. destruct (y.1 =? cur); [done|auto].
Qed.
Lemma dir_update_last g : dir_update cur g (di ++ [(cur, f)]) = di ++ [(cur, g f)].
Proof.
  unfold dir_update. rewrite map_app. cbn. rewrite Z.eqb_refl. f_equal.
  revert Hlt. induction di as [|y d IH]; cbn; intros H; [done|]. apply Forall_cons in H as [? ?].
  destruct (Z.eqb_spec y.1 cur); [lia|]. by rewrite IH.
Qed.
Lemma dir_open_last : dir_open cur (di ++ [(cur, f)]) = di ++ [(cur, f)].
Proof.
  unfold dir_open. replace (existsb _ _) with true; [done|]. rewrite existsb_app. cbn. by rewrite Z.eqb_refl, orb_true_r.
Qed.
Lemma dir_open_new : dir_open (cur + 1) (di ++ [(cur, f)]) = (di ++ [(cur, f)]) ++ [(cur + 1, file_create)].
Proof.
  unfold dir_open. replace (existsb _ _) with false; [done|]. rewrite existsb_app. cbn.
  destruct (Z.eqb_spec cur (cur + 1)); [lia|]. rewrite !orb_false_r.
  revert Hlt. induction di as [|y d IH]; cbn; intros H; [done|]. apply Forall_cons in H as [? ?].
  destruct (Z.eqb_spec y.1 (cur + 1)); [lia|]. by apply IH.
Qed.
End last_file.

Lemma holds_below d cur dur fs t di f : holds d cur dur fs t -> d = di ++ [(cur, f)] -> Forall (fun y => y < cur) (map fst di).
Proof. intros H ->. pose proof (h_sorted _ _ _ _ _ H) as Hs. rewrite map_app in Hs. by apply sorted_last in Hs. Qed.

(** ** Opening *)
Lemma scan_whole start last_seg di gi d m :
  Forall2 whole di gi -> Forall fok (concat gi) -> chain m (concat gi) -> 0 <= m ->
  Forall (fun s => start <= s) (map fst di) ->
  (forall s, s ∈ map fst di -> Some s <> last_seg) ->
  exists ss, map sf_frame ss = concat gi /\
    scan_segments crc start last_seg (di ++ d) m =
    ('(fs, m2, d2) ← scan_segments crc start last_seg d (last_lsn m (concat gi)); Ok (ss ++ fs, m2, di ++ d2)).
Proof.
  intros HW. revert m. induction HW as [|[seg f] g di gi [Hc _] HW IH]; intros m Hf Hch Hm Hs Hne; cbn [concat app map last_lsn] in *.
  { exists []. split; [done|]. cbn [app]. destruct (scan_segments _ _ _ _ _) as [[[? ?] ?]| |]; done. }
  cbn [fst snd] in *. rewrite Forall_app in Hf. destruct Hf as [Hg Hgi]. apply chain_app in Hch as [Hc1 Hc2].
  apply Forall_cons in Hs as [Hs1 Hs2].
  destruct (scan_segment_frames (S (length (content f))) seg false 0 g [] m) as (s1 & Hs1' & E1);
    try done; [apply torn_nil|by left|rewrite app_nil_r, Hc; lia|].
  rewrite app_nil_r, <- Hc, decide_True in E1 by done.
  destruct (IH (last_lsn m g)) as (s2 & Hs2' & E2); try done.
  { pose proof (chain_le _ _ Hc1). lia. }
  { intros s Hin. apply Hne. by right. }
  exists (s1 ++ s2). split; [by rewrite map_app, Hs1', Hs2'|].
  cbn [scan_segments]. destruct (Z.ltb_spec seg start); [lia|].
  rewrite bool_decide_eq_false_2 by (apply Hne; by left). rewrite E1. cbn [mbind outcome_bind]. rewrite E2.
  rewrite last_lsn_app. destruct (scan_segments _ _ _ d _) as [[[? ?] ?]| |]; cbn; try done. by rewrite app_assoc.
Qed.

(** What an open journal knows. *)
Record jinv (j : Journal) (fs : list JournalFrame) : Prop := {
  ji_holds : holds (dir j) (current_segment j) (durable_lsn j) fs [];
  ji_next : next_lsn j = last_lsn 0 fs + 1;
  ji_appended : appended_lsn j = last_lsn 0 fs;
  ji_mode : mode j <> UnsafeNoFsync;
  ji_dur : durable_lsn j <= last_lsn 0 fs;
}.

Lemma scan_last start cur f fs t m :
  Forall fok fs -> chain m fs -> 0 <= m -> torn t -> content f = seg_bytes fs ++ t -> start <= cur ->
  exists ss f', map sf_frame ss = fs /\
    scan_segments crc start (Some cur) [(cur, f)] m = Ok (ss, last_lsn m fs, [(cur, f')]) /\
    content f' = seg_bytes fs /\
    (synced f = length (content f) /\ linked f = true -> synced f' = length (content f') /\ linked f' = true).
Proof.
  intros Hf Hc Hm Ht Hcont Hs.
  destruct (scan_segment_frames (S (length (content f))) cur true 0 fs t m) as (ss & Hss & E); try done; [by right|rewrite Hcont; lia|].
  rewrite <- Hcont in E. cbn [scan_segments]. destruct (Z.ltb_spec cur start); [lia|].
  rewrite bool_decide_eq_true_2, E by done. cbn [mbind outcome_bind].
  destruct (decide (t = [])) as [->|Hne]; rewrite ?app_nil_r in *; exists ss.
  - exists f. done.
  - exists (file_truncated (Z.to_nat (0 + zlen (seg_bytes fs))) f). split; [done|]. split; [done|].
    unfold file_truncated, zlen. cbn [content synced]. rewrite Z.add_0_l, Nat2Z.id, Hcont, take_app_length. done.
Qed.

Lemma open_holds d cur dur fs t start fa md sb :
  holds d cur dur fs t -> settled d -> Forall (fun s => start <= s) (map fst d) -> md <> UnsafeNoFsync ->
  exists j ss, journal_open crc d start fa md sb = Ok (j, ss) /\ map sf_frame ss = fs /\ jinv j fs /\
    durable_lsn j = last_lsn 0 fs.
Proof.
  intros H Hset Hstart Hmd. destruct (h_layout _ _ _ _ _ H) as (di & gi & f & gd & gr & Hd & HW & Hc & Hfs & _).
  pose proof (holds_below _ _ _ _ _ _ _ H Hd) as Hlt. destruct H as [_ Hsort Hpos Hfr Hch Hlsn Ht].
  subst d. rewrite map_app in Hstart, Hpos, Hsort. cbn [map fst] in *. rewrite Forall_app, Forall_singleton in Hstart, Hpos.
  destruct Hstart as [Hs1 Hs2], Hpos as [Hp1 Hp2].
  unfold settled in Hset. rewrite Forall_app, Forall_singleton in Hset. destruct Hset as [Hset1 Hset2]. cbn in Hset2.
  rewrite Hfs in Hfr, Hch. rewrite Forall_app in Hfr. destruct Hfr as [Hf1 Hf2]. apply chain_app in Hch as [Hc1 Hc2].
  pose proof (chain_le _ _ Hc1) as Hm.
  destruct (scan_whole start (Some cur) di gi [(cur, f)] 0) as (s1 & Hs1' & E1); try done.
  { intros s Hin [= <-]. rewrite Forall_forall in Hlt. specialize (Hlt _ Hin). lia. }
  destruct (scan_last start cur f (gd ++ gr) t (last_lsn 0 (concat gi))) as (s2 & f' & Hs2' & E2 & Hc' & Hsy); try done; try lia.
  unfold journal_open. rewrite map_app. cbn [map fst]. rewrite last_snoc, E1, E2. cbn [mbind outcome_bind].
  rewrite <- last_lsn_app, <- Hfs.
  pose proof (chain_le 0 fs ltac:(rewrite Hfs; by apply chain_app)) as Hpos0.
  rewrite uadd_ok by (apply in_u_spec; lia). cbn [mbind outcome_bind].
  change (default 1 (Some cur)) with cur. replace (Z.max cur (Z.max start 1)) with cur by lia.
  eexists _, _. split; [reflexivity|]. split; [by rewrite map_app, Hs1', Hs2', Hfs|]. split; [|done].
  split; cbn [dir current_segment durable_lsn next_lsn appended_lsn mode]; try done.
  rewrite dir_open_last by done. split; try done.
  - destruct (Hsy Hset2) as [Hsy' Hl']. exists di, gi, f', (gd ++ gr), [].
    rewrite !app_nil_r, Hsy', Hc'. split_and!; try done. by left.
  - by rewrite map_app.
  - rewrite map_app, Forall_app. split; [done|]. by constructor.
  - rewrite Hfs, Forall_app. done.
  - rewrite Hfs. by apply chain_app.
  - apply torn_nil.
Qed.

Lemma open_empty start fa md sb : start <= 1 -> md <> UnsafeNoFsync ->
  exists j, journal_open crc [] start fa md sb = Ok (j, []) /\ jinv j [] /\ durable_lsn j = 0.
Proof.
  intros Hs Hmd. unfold journal_open. cbn [scan_segments mbind outcome_bind map last default].
  replace (Z.max 1 (Z.max start 1)) with 1 by lia. eexists. split; [reflexivity|]. split; [|done].
  split; try done. cbn. split; cbn; try done.
  - exists [], [], file_create, [], []. split_and!; try done. by right.
  - repeat constructor.
  - constructor; [lia|constructor].
  - apply torn_nil.
Qed.

(** ** Writing *)
Lemma at_fault_frame j a j' : at_fault j = (a, j') -> j' = j <| faults := faults j' |>.
Proof. unfold at_fault. destruct j as [d [|x fa] ? ? ? ? ? ? ? ?]; by intros [= <- <-]. Qed.
Lemma fault_frame j r j' : fault j = (r, j') -> j' = j <| faults := faults j' |>.
Proof.
  unfold fault. destruct (at_fault j) as [a j1] eqn:E. intros [= _ <-]. by apply at_fault_frame in E.
Qed.

Section holding.
Context (d : Dir) (cur dur : Z) (fs : list JournalFrame) (H : holds d cur dur fs []).

Lemma holds_sync : holds (dir_update cur file_synced d) cur (last_lsn 0 fs) fs [].
Proof.
  destruct (h_layout _ _ _ _ _ H) as (di & gi & f & gd & gr & Hd & HW & Hc & Hfs & _).
  pose proof (holds_below _ _ _ _ _ _ _ H Hd) as Hlt. destruct H as [_ Hsort Hpos Hfr Hch Hlsn Ht].
  subst d. rewrite dir_update_last by done. rewrite app_nil_r in Hc. split; try done.
  - exists di, gi, (file_synced f), (gd ++ gr), []. rewrite !app_nil_r. cbn. rewrite Hc. split_and!; try done. by left.
  - rewrite map_app in *. done.
  - rewrite map_app in *. done.
Qed.

Lemma holds_append fr : fok fr -> jf_lsn fr = last_lsn 0 fs + 1 -> dur <= last_lsn 0 fs -> jf_lsn fr + 1 < 2 ^ 64 ->
  holds (dir_update cur (file_extend (frame_encode crc fr)) d) cur dur (fs ++ [fr]) [].
Proof.
  intros Hok Hl Hdur Hmax.
  destruct (h_layout _ _ _ _ _ H) as (di & gi & f & gd & gr & Hd & HW & Hc & Hfs & Hsy & Hgr & Hlk).
  pose proof (holds_below _ _ _ _ _ _ _ H Hd) as Hlt. destruct H as [_ Hsort Hpos Hfr Hch Hlsn Ht].
  subst d. rewrite dir_update_last by done. rewrite app_nil_r in Hc. split; try done.
  - exists di, gi, (file_extend (frame_encode crc fr) f), gd, (gr ++ [fr]). rewrite app_nil_r. cbn [file_extend content synced].
    rewrite length_app. split_and!; try done; try lia.
    + rewrite Hc, app_assoc, (seg_bytes_app (gd ++ gr)). unfold seg_bytes at 3. cbn. by rewrite app_nil_r.
    + by rewrite Hfs, !app_assoc.
    + rewrite Forall_app. split; [done|]. constructor; [lia|done].
  - rewrite map_app in *. done.
  - rewrite map_app in *. done.
  - rewrite Forall_app. split; [done|]. by constructor.
  - apply chain_app. cbn. split; [done|lia].
  - rewrite last_lsn_app. cbn. lia.
Qed.

Lemma holds_torn fr n : fok fr -> (n < length (frame_encode crc fr))%nat ->
  holds (dir_update cur (file_extend (take n (frame_encode crc fr))) d) cur dur fs (take n (frame_encode crc fr)).
Proof.
  intros Hok Hn.
  destruct (h_layout _ _ _ _ _ H) as (di & gi & f & gd & gr & Hd & HW & Hc & Hfs & Hsy & Hgr & Hlk).
  pose proof (holds_below _ _ _ _ _ _ _ H Hd) as Hlt. destruct H as [_ Hsort Hpos Hfr Hch Hlsn Ht].
  subst d. rewrite dir_update_last by done. rewrite app_nil_r in Hc. split; try done.
  - exists di, gi, (file_extend (take n (frame_encode crc fr)) f), gd, gr. cbn [file_extend content synced].
    rewrite length_app, Hc in *. split_and!; try done; lia.
  - rewrite map_app in *. done.
  - rewrite map_app in *. done.
  - by exists fr, n.
Qed.
End holding.

(** Making the directory entries durable takes nothing away. *)
Lemma sync_dir_fst d : map fst (sync_dir d) = map fst d.
Proof. unfold sync_dir. rewrite map_map. by apply map_ext. Qed.
Lemma sync_dir_whole di gi : Forall2 whole di gi -> sync_dir di = di.
Proof.
  induction 1 as [|[n [c k l]] g di gi (_ & _ & Hl) _ IH]; [done|]. cbn in *. subst l. by rewrite <- IH at 2.
Qed.
Lemma holds_sync_dir d cur dur fs t : holds d cur dur fs t -> holds (sync_dir d) cur dur fs t.
Proof.
  intros [(di & gi & f & gd & gr & -> & HW & Hc & Hfs & Hsy & Hgr & _) Hsort Hpos ? ? ? ?].
  split; rewrite ?sync_dir_fst; try done.
  exists di, gi, (MkSeqFile (content f) (synced f) true), gd, gr. split_and!; try done; cbn [content synced]; try lia; [|by left].
  unfold sync_dir. rewrite map_app. fold (sync_dir di). by rewrite (sync_dir_whole _ _ HW).
Qed.

Lemma holds_roll d cur dur fs : holds d cur dur fs [] ->
  holds (sync_dir (dir_open (cur + 1) (dir_update cur file_synced d))) (cur + 1) (last_lsn 0 fs) fs [].
Proof.
  intros H0. apply holds_sync_dir. destruct (h_layout _ _ _ _ _ H0) as (di & gi & f & gd & gr & Hd & HW & Hc & Hfs & _).
  pose proof (holds_below _ _ _ _ _ _ _ H0 Hd) as Hlt. destruct H0 as [_ Hsort Hpos Hfr Hch Hlsn Ht].
  subst d. rewrite dir_update_last, dir_open_new by done. rewrite app_nil_r in Hc. rewrite map_app in Hsort, Hpos. cbn [map fst] in Hsort, Hpos.
  split; try done.
  - exists (di ++ [(cur, file_synced f)]), (gi ++ [gd ++ gr]), file_create, [], []. split_and!; try done.
    + apply Forall2_app; [done|]. by repeat constructor.
    + rewrite concat_app. cbn. by rewrite !app_nil_r.
    + by right.
  - rewrite !map_app. cbn. apply sorted_snoc; [done|]. rewrite Forall_app. split; [|constructor; [lia|done]].
    eapply Forall_impl; [exact Hlt|]. cbn. lia.
  - rewrite !map_app. cbn [map fst]. apply Forall_app. split; [done|]. apply Forall_app in Hpos as [_ Hp].
    rewrite Forall_singleton in Hp. constructor; [lia|done].
Qed.

(** What survives of a journal after its last operation. *)
Definition survives (j : Journal) (fs : list JournalFrame) : Prop :=
  exists t, holds (dir j) (current_segment j) (durable_lsn j) fs t.

Lemma jinv_survives j fs : jinv j fs -> survives j fs.
Proof. intros []. by exists []. Qed.
Lemma holds_weaken d cur dur dur' fs t : holds d cur dur fs t -> dur' <= dur -> holds d cur dur' fs t.
Proof.
  intros [(di & gi & f & gd & gr & ? & ? & ? & ? & ? & Hgr & ?) ? ? ? ? ? ?] Hd. split; try done.
  exists di, gi, f, gd, gr. split_and!; try done; try lia. eapply Forall_impl; [exact Hgr|]. cbn. lia.
Qed.

Lemma file_sync_spec j fs :
  holds (dir j) (current_segment j) (durable_lsn j) fs [] ->
  match file_sync j with
  | (Ok _, j') => exists fa, j' = j <| faults := fa |> <| dir := dir_update (current_segment j) file_synced (dir j) |>
  | (_, j') => exists fa, j' = j <| faults := fa |>
  end.
Proof.
  intros _. unfold file_sync. destruct (fault j) as [r j1] eqn:E. apply fault_frame in E. rewrite E.
  destruct r; by eexists.
Qed.

Lemma roll_spec j fs :
  jinv j fs ->
  match roll_segment j with
  | (Ok _, j') => jinv j' fs /\ durable_lsn j' = durable_lsn j /\ next_lsn j' = next_lsn j
  | (_, j') => survives j' fs /\ durable_lsn j' = durable_lsn j
  end.
Proof.
  intros K. pose proof (file_sync_spec j fs (ji_holds _ _ K)) as HS. unfold roll_segment.
  pose proof (holds_sync _ _ _ _ (ji_holds _ _ K)) as Hsy. pose proof (holds_roll _ _ _ _ (ji_holds _ _ K)) as Hro.
  destruct K as [Hh Hn Ha Hm Hd]. destruct (file_sync j) as [[u|e|] j1]; destruct HS as [fa ->].
  - cbn [current_segment]. destruct (uadd 64 _ 1) as [c|e|] eqn:Ec.
    + apply uadd_ok_inv in Ec as [-> _]. split; [|done]. split; try done. cbn. by eapply holds_weaken.
    + split; [|done]. exists []. cbn. by eapply holds_weaken.
    + split; [|done]. exists []. cbn. by eapply holds_weaken.
  - split; [|done]. by exists [].
  - split; [|done]. by exists [].
Qed.

Lemma append_spec j fs kind txn payload :
  jinv j fs -> length txn = 32%nat -> last_lsn 0 fs + 2 < 2 ^ 64 ->
  match journal_append crc kind txn payload j with
  | (Ok lsn, j') => jinv j' (fs ++ [MkJournalFrame kind 0 lsn txn payload]) /\ durable_lsn j' = durable_lsn j /\
      lsn = last_lsn 0 fs + 1
  | (_, j') => survives j' fs /\ durable_lsn j' = durable_lsn j
  end.
Proof.
  intros K Htx Hmax. unfold journal_append.
  destruct (Z.ltb_spec MAX_JOURNAL_PAYLOAD (zlen payload)) as [|Hpay]; [split; [by apply jinv_survives|done]|].
  set (j1r := if segment_bytes j <=? _ then roll_segment j else (Ok tt, j)).
  assert (H1 : match j1r with
    | (Ok _, j') => jinv j' fs /\ durable_lsn j' = durable_lsn j /\ next_lsn j' = next_lsn j
    | (_, j') => survives j' fs /\ durable_lsn j' = durable_lsn j
    end) by (unfold j1r; case_if; [by apply roll_spec|done]).
  destruct j1r as [[u|e|] j1]; [|done|done]. destruct H1 as (K1 & Hd1 & Hn1). clear K.
  destruct K1 as [Hh Hn Ha Hm Hd]. set (fr := MkJournalFrame kind 0 (next_lsn j1) txn payload).
  pose proof (chain_le _ _ (h_chain _ _ _ _ _ Hh)) as Hpos.
  assert (Hok : fok fr).
  { repeat split; cbn [fr jf_flags jf_lsn jf_txn_id jf_payload]; try done.
    - apply in_u_spec. lia.
    - change (frame_total_len fr) with (64 + zlen payload + 4). unfold MAX_JOURNAL_PAYLOAD in Hpay. lia. }
  destruct (encode_len fr Hok) as [_ H68].
  pose proof (holds_append _ _ _ _ Hh fr Hok ltac:(done) Hd ltac:(cbn; lia)) as HA.
  pose proof (holds_torn _ _ _ _ Hh fr (length (frame_encode crc fr) / 2) Hok
    ltac:(apply Nat.div_lt; lia)) as HT.
  unfold file_append. destruct (fault j1) as [r j2] eqn:E2. apply fault_frame in E2. rewrite E2. cbn [next_lsn].
  destruct r as [u2|e2|]; [|split; [by exists []|done]..].
  destruct (at_fault _) as [a j3] eqn:E3. apply at_fault_frame in E3. rewrite E3. case_bool_decide.
  - split; [|done]. by eexists.
  - cbn [update next_lsn current_segment dir]. rewrite uadd_ok by (apply in_u_spec; lia).
    split; [|split; [done|by cbn]]. split; cbn; try done.
    + rewrite last_lsn_app. cbn. lia.
    + rewrite last_lsn_app. cbn. lia.
    + rewrite last_lsn_app. cbn. lia.
Qed.

Lemma sync_spec j fs :
  jinv j fs ->
  match journal_sync j with
  | (Ok _, j') => jinv j' fs
  | (_, j') => survives j' fs /\ durable_lsn j' = durable_lsn j
  end.
Proof.
  intros K. pose proof (file_sync_spec j fs (ji_holds _ _ K)) as HS.
  pose proof (holds_sync _ _ _ _ (ji_holds _ _ K)) as Hsy. destruct K as [Hh Hn Ha Hm Hd]. unfold journal_sync.
  destruct (mode j) eqn:Em; [| |done]; destruct (file_sync j) as [[u|e|] j1]; destruct HS as [fa ->];
    try (split; [by exists []|done]); (split; cbn; rewrite ?Ha; try done; by rewrite Em).
Qed.

(** ** Losing power *)
Lemma take_frames k g t :
  Forall fok g -> torn t -> exists g' t', take k (seg_bytes g ++ t) = seg_bytes g' ++ t' /\ g' `prefix_of` g /\ torn t' /\
    forall g0, g0 `prefix_of` g -> (length (seg_bytes g0) <= k)%nat -> g0 `prefix_of` g'.
Proof.
  revert k. induction g as [|f g IH]; intros k Hg Ht.
  - exists [], (take k t). cbn [seg_bytes map concat app]. split_and!; try done.
    destruct Ht as (f & n & Hf & Hn & ->). exists f, (k `min` n)%nat. rewrite take_take. split_and!; [done|lia|done].
  - apply Forall_cons in Hg as [Hf Hg]. destruct (encode_len f Hf) as [_ H68]. rewrite seg_bytes_cons, <- app_assoc.
    destruct (decide (k < length (frame_encode crc f))%nat) as [Hk|Hk].
    + exists [], (take k (frame_encode crc f)). rewrite take_app_le by lia. split_and!; try done.
      * apply prefix_nil.
      * by exists f, k.
      * intros [|f0 g0] Hp Hl; [done|]. exfalso. apply prefix_cons_inv_1 in Hp as ->.
        rewrite seg_bytes_cons, length_app in Hl. lia.
    + destruct (IH (k - length (frame_encode crc f))%nat Hg Ht) as (g' & t' & E & Hp & Ht' & Hcov).
      exists (f :: g'), t'. rewrite take_app_ge, E, seg_bytes_cons, app_assoc by lia. split_and!; try done.
      * by apply prefix_cons.
      * intros [|f0 g0] Hp0 Hl; [apply prefix_nil|]. pose proof (prefix_cons_inv_1 _ _ _ _ Hp0). subst f0.
        apply prefix_cons, Hcov; [by apply prefix_cons_inv_2 in Hp0|]. rewrite seg_bytes_cons, length_app in Hl. lia.
Qed.

Lemma power_loss_app a b d' : power_loss (a ++ b) d' ->
  exists a' b', d' = a' ++ b' /\ power_loss a a' /\ power_loss b b'.
Proof.
  revert d'. induction a as [|x a IH]; intros d' H; cbn in H.
  - exists [], d'. split_and!; [done|constructor|done].
  - inversion H as [|? y ? d2 Hxy HL|? ? ? Hl HL]; subst; destruct (IH _ HL) as (a' & b' & -> & H1 & H2).
    + exists (y :: a'), b'. split_and!; [done|by constructor|done].
    + exists a', b'. split_and!; [done|by constructor|done].
Qed.

Lemma lost_whole di gi di' : Forall2 whole di gi -> power_loss di di' ->
  Forall2 whole di' gi /\ settled di' /\ map fst di' = map fst di.
Proof.
  intros HW. revert di'. induction HW as [|x g di gi (Hc & Hs & Hl) _ IH]; intros di' HL;
    inversion HL as [|? y ? dy Hxy HL'|? ? ? Hl' HL']; subst.
  { split_and!; constructor. }
  2: congruence.
  destruct (IH _ HL') as (H1 & H2 & H3). destruct Hxy as (E1 & k & Hk & E2).
  assert (k = length (content x.2)) as -> by lia. rewrite take_ge in E2 by lia. destruct y as [sy fy]. cbn in *. subst.
  split_and!; [constructor; [done|done]|by constructor|by rewrite H3].
Qed.

Lemma chain_prefix m fs' fs : fs' `prefix_of` fs -> chain m fs -> chain m fs' /\ last_lsn m fs' <= last_lsn m fs.
Proof.
  intros [k ->] H. apply chain_app in H as [H1 H2]. split; [done|]. rewrite last_lsn_app. by apply chain_le.
Qed.

(** A disk of whole segments only. *)
Lemma whole_disk di gi :
  Forall2 whole di gi -> settled di -> StronglySorted Z.lt (map fst di) -> Forall (fun s => 1 <= s) (map fst di) ->
  Forall fok (concat gi) -> chain 0 (concat gi) -> last_lsn 0 (concat gi) + 1 < 2 ^ 64 ->
  disk di (concat gi).
Proof.
  intros HW Hset Hsort Hpos Hfr Hch Hlsn.
  destruct (decide (di = [])) as [->|Hne]; [left; by inversion HW; subst|].
  right. split; [done|]. destruct (exists_last Hne) as (d1 & [c f] & ->).
  apply Forall2_app_inv_l in HW as (g1 & gl & HW1 & HW2 & ->).
  inversion HW2 as [|? g ? nil (Hc & Hs & Hl) HW3]; subst. inversion HW3; subst. cbn in Hc, Hs, Hl.
  exists c, []. split; try done; [|apply torn_nil].
  exists d1, g1, f, g, []. rewrite concat_app. cbn. rewrite !app_nil_r, Hs, Hc. split_and!; try done. by left.
Qed.

Lemma survives_power_loss j fs d' : survives j fs -> power_loss (dir j) d' ->
  exists fs', disk d' fs' /\ fs' `prefix_of` fs /\ forall f, f ∈ fs -> jf_lsn f <= durable_lsn j -> f ∈ fs'.
Proof.
  intros [t H] HL. destruct (h_layout _ _ _ _ _ H) as (di & gi & f & gd & gr & Hd & HW & Hc & Hfs & Hsy & Hgr & Hlk).
  destruct H as [_ Hsort Hpos Hfr Hch Hlsn Ht]. rewrite Hd in *. clear Hd.
  apply power_loss_app in HL as (di' & dl & -> & HL1 & HL2).
  destruct (lost_whole _ _ _ HW HL1) as (HW' & Hset & Hfst). clear HL1. rewrite Hfs in Hfr.
  apply Forall_app in Hfr as [Hf1 Hf2].
  inversion HL2 as [|? [cur' f'] ? nil (Ecur & k & Hk & Ef) HL3|? ? ? Hl HL3]; inversion HL3; subst.
  - cbn in Ecur, Ef, Hk. subst cur' f'.
    destruct (take_frames k (gd ++ gr) t Hf2 Ht) as (g' & t' & E & Hp & Ht' & Hcov).
    assert (Hpre : concat gi ++ g' `prefix_of` concat gi ++ gd ++ gr) by (by apply prefix_app).
    destruct (chain_prefix _ _ _ Hpre Hch) as [Hch' Hle].
    exists (concat gi ++ g'). split; [|split; [done|]].
    + right. split; [unfold settled; apply Forall_app; split; [done|]|].
      { constructor; [|done]. cbn. rewrite length_take. lia. }
      exists (current_segment j), t'. split; try done.
      * exists di', gi, (MkSeqFile (take k (content f)) k true), g', []. rewrite !app_nil_r. split_and!; try done.
        -- cbn. by rewrite Hc, E.
        -- cbn. apply (f_equal length) in E. rewrite length_app, length_take in E. lia.
        -- cbn. rewrite length_take. lia.
        -- by left.
      * rewrite map_app, Hfst. by rewrite map_app in Hsort.
      * rewrite map_app, Hfst. by rewrite map_app in Hpos.
      * apply Forall_app. split; [done|]. destruct Hp as [r Hr]. rewrite Hr in Hf2. by apply Forall_app in Hf2 as [? _].
      * lia.
    + intros x Hx Hdur. apply elem_of_app in Hx as [Hx|Hx]; [by apply elem_of_app; left|]. apply elem_of_app. right.
      apply elem_of_app in Hx as [Hx|Hx].
      * destruct (Hcov gd) as [r ->]; [by exists gr|lia|]. apply elem_of_app. by left.
      * rewrite Forall_forall in Hgr. specialize (Hgr x Hx). cbn in Hgr. lia.
  - (* the last segment vanishes: nothing in it was durable *)
    destruct Hlk as [Hlk| ->]; [cbn in Hl; congruence|]. cbn [app] in *. rewrite app_nil_r.
    destruct (chain_prefix 0 (concat gi) _ ltac:(by eexists) Hch) as [Hch' Hle].
    rewrite map_app in Hsort, Hpos. apply Forall_app in Hpos as [Hpos _].
    exists (concat gi). split; [|split; [by eexists|]].
    + apply whole_disk; try done; rewrite ?Hfst; try done; [|lia]. by apply sorted_front in Hsort.
    + intros x Hx Hdur. apply elem_of_app in Hx as [Hx|Hx]; [done|].
      rewrite Forall_forall in Hgr. specialize (Hgr x Hx). cbn in Hgr. lia.
Qed.

(** ** Runs *)
Lemma jrun_spec ops j fs acked j' :
  jinv j fs -> Forall jop_ok ops -> last_lsn 0 fs + Z.of_nat (length ops) + 2 < 2 ^ 64 ->
  jrun crc ops j = (acked, j') ->
  survives j' (fs ++ acked).
Proof.
  revert j fs acked. induction ops as [|o ops IH]; intros j fs acked K Hok Hmax; cbn [jrun].
  { intros [= <- <-]. rewrite app_nil_r. by apply jinv_survives. }
  apply Forall_cons in Hok as [Ho Hok]. cbn [length] in Hmax. destruct o as [kind txn payload|].
  - pose proof (append_spec j fs kind txn payload K Ho ltac:(lia)) as HA.
    destruct (journal_append _ _ _ _ j) as [[lsn|e|] j1].
    + destruct HA as (K1 & Hd & Hl). destruct (jrun crc ops j1) as [fs2 j2] eqn:E. intros [= <- <-].
      replace (fs ++ MkJournalFrame kind 0 lsn txn payload :: fs2) with ((fs ++ [MkJournalFrame kind 0 lsn txn payload]) ++ fs2)
        by (by rewrite <- app_assoc).
      eapply IH; try done. rewrite last_lsn_app. cbn. lia.
    + intros [= <- <-]. rewrite app_nil_r. by destruct HA.
    + intros [= <- <-]. rewrite app_nil_r. by destruct HA.
  - pose proof (sync_spec j fs K) as HS. destruct (journal_sync j) as [[u|e|] j1].
    + intros E. eapply IH; try done. lia.
    + intros [= <- <-]. rewrite app_nil_r. by destruct HS.
    + intros [= <- <-]. rewrite app_nil_r. by destruct HS.
Qed.

Lemma disk_opens d fs fa md sb :
  disk d fs -> md <> UnsafeNoFsync ->
  exists j ss, journal_open crc d 1 fa md sb = Ok (j, ss) /\ map sf_frame ss = fs /\ jinv j fs /\ durable_lsn j = last_lsn 0 fs.
Proof.
  intros [[-> ->]|(Hs & cur & t & H)] Hmd.
  - destruct (open_empty 1 fa md sb ltac:(lia) Hmd) as (j & E & K & Hd). by exists j, [].
  - eapply open_holds; try done. apply (h_pos _ _ _ _ _ H).
Qed.

(** ** Reclaiming old segments *)
Definition stores (x : Z * SeqFile) (g : list JournalFrame) : Prop :=
  exists t, content x.2 = seg_bytes g ++ t /\ torn t.
Abbreviation floor_of x := (match frame_decode crc (content (snd x)) MAX_JOURNAL_PAYLOAD with
                      | Ok (Some (f, _)) => Some (jf_lsn f)
                      | _ => None
                      end).

Lemma floor_first x g : stores x g -> Forall fok g -> floor_of x = head (map jf_lsn g).
Proof.
  intros (t & Hc & Ht) Hg. rewrite Hc. destruct g as [|f g]; cbn [map head].
  - destruct Ht as (f & n & Hf & Hn & ->). cbn [seg_bytes map concat app].
    by rewrite (frame_decode_torn crc f _ Hf) by (by rewrite <- (proj1 (encode_len f Hf))).
  - apply Forall_cons in Hg as [Hf Hg]. rewrite seg_bytes_cons, <- app_assoc.
    by rewrite (frame_decode_encode crc crc_range f _ Hf).
Qed.

(** The segment chosen starts at or below [from_lsn]. *)
Lemma needed_spec from d gs acc :
  Forall2 stores d gs -> Forall fok (concat gs) -> Forall (fun s => acc <= s) (map fst d) ->
  StronglySorted Z.lt (map fst d) ->
  let r := needed_loop from (map (fun x => (x.1, floor_of x)) d) acc in
  r = acc \/ exists d1 x d2 g1 fr g g2, d = d1 ++ x :: d2 /\ gs = g1 ++ (fr :: g) :: g2 /\ length d1 = length g1 /\
    r = x.1 /\ jf_lsn fr <= from.
Proof.
  intros HF. revert acc. induction HF as [|x g d gs Hx HF IH]; intros acc Hok Hacc Hs; cbn [map needed_loop]; [by left|].
  cbn [concat map] in Hok, Hacc, Hs. apply Forall_app in Hok as [Hg Hok]. apply Forall_cons in Hacc as [Hax Hacc].
  apply StronglySorted_inv in Hs as [Hs Hlt]. rewrite (floor_first x g Hx Hg).
  destruct g as [|fr g]; cbn [map head].
  - destruct (IH acc Hok Hacc Hs) as [->|(d1 & y & d2 & g1 & fr & g & g2 & -> & -> & Hl & Hr & Hfr)]; [by left|right].
    exists (x :: d1), y, d2, ([] :: g1), fr, g, g2. split_and!; try done. cbn. lia.
  - destruct (Z.leb_spec (jf_lsn fr) from) as [Hle|]; [|by left]. replace (Z.max acc x.1) with x.1 by lia. right.
    assert (Hx1 : Forall (fun s => x.1 <= s) (map fst d)) by (eapply Forall_impl; [exact Hlt|]; cbn; lia).
    destruct (IH x.1 Hok Hx1 Hs) as [->|(d1 & y & d2 & g1 & fr' & g' & g2 & -> & -> & Hl & Hr & Hfr)].
    + by exists [], x, d, [], fr, g, gs.
    + exists (x :: d1), y, d2, ((fr :: g) :: g1), fr', g', g2. split_and!; try done. cbn. lia.
Qed.

Lemma chain_lower m m' fs : m' <= m -> chain m fs -> chain m' fs.
Proof. destruct fs; cbn; [done|]. intros ? [? ?]. split; [lia|done]. Qed.
Lemma last_lsn_any m m' f fs : last_lsn m (f :: fs) = last_lsn m' (f :: fs).
Proof. done. Qed.

Lemma snoc_split {A} (l a b : list A) x : l ++ [x] = a ++ b -> b <> [] -> exists b', b = b' ++ [x] /\ l = a ++ b'.
Proof.
  intros H Hb. destruct (exists_last Hb) as (b' & y & ->). rewrite app_assoc in H.
  apply app_inj_tail in H as [-> ->]. by exists b'.
Qed.
Lemma sorted_split (a b : list Z) x : StronglySorted Z.lt (a ++ x :: b) ->
  Forall (fun y => y < x) a /\ Forall (fun y => x <= y) (x :: b) /\ StronglySorted Z.lt (x :: b).
Proof.
  induction a as [|y a IH]; cbn; intros H; apply StronglySorted_inv in H as [H1 H2].
  - split_and!; [done| |by constructor]. constructor; [lia|]. eapply Forall_impl; [exact H2|]. cbn. lia.
  - destruct (IH H1) as (IH1 & IH2 & IH3). split_and!; try done. constructor; [|done].
    apply Forall_app in H2 as [_ H2]. by apply Forall_cons in H2 as [? _].
Qed.

(** Dropping the leading segments. *)
Lemma drop_segments cur dur e1 d2 f h1 g2 gd gr :
  holds ((e1 ++ d2) ++ [(cur, f)]) cur dur (concat (h1 ++ g2) ++ gd ++ gr) [] ->
  Forall2 whole d2 g2 -> content f = seg_bytes (gd ++ gr) ++ [] ->
  (length (seg_bytes gd) <= synced f <= length (content f))%nat -> Forall (fun fr => dur < jf_lsn fr) gr ->
  linked f = true \/ gd = [] ->
  holds (d2 ++ [(cur, f)]) cur dur (concat g2 ++ gd ++ gr) [].
Proof.
  intros [_ Hsort Hpos Hfr Hch Hlsn Ht] HW Hc Hsy Hgr Hlk.
  rewrite concat_app, <- app_assoc in Hfr, Hch, Hlsn. rewrite <- app_assoc, map_app in Hsort, Hpos. apply Forall_app in Hfr as [_ Hfr], Hpos as [_ Hpos].
  apply chain_app in Hch as [Hc1 Hc2]. pose proof (chain_le _ _ Hc1) as Hm. pose proof (chain_lower _ 0 _ Hm Hc2) as Hc3.
  split; try done.
  - by exists d2, g2, f, gd, gr.
  - clear - Hsort. induction (map fst e1) as [|x l IH]; [done|]. apply IH. cbn in Hsort.
    by apply StronglySorted_inv in Hsort as [? _].
  - destruct (concat g2 ++ gd ++ gr) as [|fr l]; cbn [last_lsn]; [lia|].
    rewrite last_lsn_app in Hlsn. cbn [last_lsn] in Hlsn. done.
Qed.

(** The segments [reclaim_segments_below] keeps. *)
Lemma reclaim_dir keep j e1 d2 f :
  dir j = (e1 ++ d2) ++ [(current_segment j, f)] -> Forall (fun y => y < current_segment j) (map fst (e1 ++ d2)) ->
  Forall (fun y => y < keep) (map fst e1) -> Forall (fun y => keep <= y) (map fst d2) ->
  List.filter (fun x => negb (removable keep j x)) (dir j) = d2 ++ [(current_segment j, f)].
Proof.
  intros Ed Hlt Hlo Hhi. rewrite Ed, <- app_assoc, List.filter_app, List.filter_app.
  rewrite map_app in Hlt. apply Forall_app in Hlt as [Hlt _].
  assert (He : List.filter (fun x => negb (removable keep j x)) e1 = []).
  { clear Ed Hhi. induction e1 as [|x e1 IH]; [done|]. cbn in *. apply Forall_cons in Hlt as [? ?], Hlo as [? ?].
    unfold removable at 1. destruct (Z.leb_spec keep x.1); [lia|]. destruct (Z.eqb_spec x.1 (current_segment j)); [lia|].
    by apply IH. }
  assert (Hd : List.filter (fun x => negb (removable keep j x)) d2 = d2).
  { clear Ed. induction d2 as [|x d2 IH]; [done|]. cbn in *. apply Forall_cons in Hhi as [? ?].
    unfold removable at 1. destruct (Z.leb_spec keep x.1); [|lia]. cbn. by rewrite IH. }
  rewrite He, Hd. cbn. unfold removable. cbn. by rewrite Z.eqb_refl, orb_true_r.
Qed.

Lemma reclaim_fields keep j :
  let j' := (reclaim_segments_below keep j).2 in
  let d := List.filter (fun x => negb (removable keep j x)) (dir j) in
  (dir j' = d \/ dir j' = sync_dir d) /\ j' = j <| dir := dir j' |>.
Proof. unfold reclaim_segments_below. cbn [snd]. case_if; (split; [|done]); [by right|by left]. Qed.

(** The frames from [from_lsn] on survive the reclamation a checkpoint does. *)
Lemma reclaim_spec from j fs :
  jinv j fs ->
  let keep := first_needed_segment crc from j in
  let j' := (reclaim_segments_below keep j).2 in
  exists dropped fs', fs = dropped ++ fs' /\ Forall (fun f => jf_lsn f < from) dropped /\
    Forall (fun s => keep <= s) (map fst (dir j')) /\ jinv j' fs'.
Proof.
  intros [Hh Hn Ha Hm Hd] keep j'.
  destruct (h_layout _ _ _ _ _ Hh) as (di & gi & f & gd & gr & Edir & HW & Hc & Hfs & Hsy & Hgr & Hlk).
  pose proof (holds_below _ _ _ _ _ _ _ Hh Edir) as Hlt.
  pose proof (h_sorted _ _ _ _ _ Hh) as Hsort. pose proof (h_pos _ _ _ _ _ Hh) as Hpos.
  assert (HF : Forall2 stores (dir j) (gi ++ [gd ++ gr])).
  { rewrite Edir. apply Forall2_app; [|constructor; [exists []; split; [exact Hc|apply torn_nil]|constructor]].
    eapply Forall2_impl; [exact HW|]. intros x g [Hx _]. exists []. split; [by rewrite app_nil_r|apply torn_nil]. }
  assert (Hcc : concat (gi ++ [gd ++ gr]) = fs) by (rewrite concat_app; cbn; by rewrite app_nil_r).
  (* the kept part: [dir j = e1 ++ rest] *)
  assert (Hsplit : exists e1 rest h1 hr, dir j = e1 ++ rest /\ rest <> [] /\ gi ++ [gd ++ gr] = h1 ++ hr /\
    length e1 = length h1 /\ Forall (fun y => y < keep) (map fst e1) /\ Forall (fun y => keep <= y) (map fst rest) /\
    Forall (fun fr => jf_lsn fr < from) (concat h1) /\ last_lsn 0 (concat hr) = last_lsn 0 fs /\ hr <> []).
  { pose proof (needed_spec from _ _ 1 HF ltac:(rewrite Hcc; exact (h_frames _ _ _ _ _ Hh)) Hpos Hsort) as HN.
    cbv zeta in HN. fold (segment_floors crc j) in HN.
    assert (Hle : forall s, s ∈ map fst (dir j) -> s <= current_segment j).
    { intros s. rewrite Edir, map_app. intros [Hin|Hin%list_elem_of_singleton]%elem_of_app; [|by subst; cbn; lia].
      rewrite Forall_forall in Hlt. specialize (Hlt s Hin). cbn in Hlt. lia. }
    rewrite Forall_forall in Hpos. assert (H1 : 1 <= current_segment j).
    { apply Hpos. rewrite Edir, map_app. apply elem_of_app. right. by left. }
    unfold keep, first_needed_segment.
    destruct HN as [->|(d1 & x & d2 & g1 & fr & g & g2 & Ed & Eg & Hl & -> & Hfr)].
    - exists [], (dir j), [], (gi ++ [gd ++ gr]). replace (Z.min 1 (current_segment j)) with 1 by lia.
      split_and!; try done; [by rewrite Edir; destruct di|by apply Forall_forall|by rewrite Hcc|by destruct gi].
    - assert (Hxc : x.1 <= current_segment j).
      { apply Hle. rewrite Ed, map_app. apply elem_of_app. right. by left. }
      replace (Z.min x.1 (current_segment j)) with x.1 by lia.
      rewrite Ed, map_app in Hsort. cbn [map] in Hsort. destruct (sorted_split _ _ _ Hsort) as (Hs1 & Hs2 & _).
      exists d1, (x :: d2), g1, ((fr :: g) :: g2). rewrite Eg in Hcc. rewrite concat_app in Hcc. cbn in Hcc.
      pose proof (h_chain _ _ _ _ _ Hh) as Hch. rewrite <- Hcc in Hch. apply chain_app in Hch as [Hc1 [Hc2 _]].
      split_and!; try done.
      + eapply Forall_impl; [exact (chain_bounds _ _ Hc1)|]. cbn. lia.
      + rewrite <- Hcc, last_lsn_app. done. }
  destruct Hsplit as (e1 & rest & h1 & hr & Ed & Hne & Eg & Hlen & Hlo & Hhi & Hold & Hlast & Hhr).
  rewrite Edir in Ed. destruct (snoc_split _ _ _ _ Ed Hne) as (d2 & -> & ->).
  destruct (snoc_split _ _ _ _ Eg Hhr) as (g2 & -> & ->).
  apply Forall2_app_inv in HW as [_ HW]; [|done].
  exists (concat h1), (concat g2 ++ gd ++ gr).
  assert (Edj : List.filter (fun x => negb (removable keep j x)) (dir j) = d2 ++ [(current_segment j, f)]).
  { apply reclaim_dir with e1; try done. rewrite map_app in Hhi. by apply Forall_app in Hhi as [? _]. }
  assert (Hk : holds (d2 ++ [(current_segment j, f)]) (current_segment j) (durable_lsn j) (concat g2 ++ gd ++ gr) []).
  { apply (drop_segments _ _ e1 d2 f h1 g2 gd gr); try done. rewrite <- Edir. by rewrite <- Hfs. }
  destruct (reclaim_fields keep j) as [Hdir Hj']. cbv zeta in Hdir, Hj'. fold j' in Hdir, Hj'. rewrite Edj in Hdir.
  rewrite concat_app in Hlast. cbn in Hlast. rewrite app_nil_r in Hlast.
  split_and!; [by rewrite Hfs, concat_app, <- app_assoc|done| |].
  - by destruct Hdir as [-> | ->]; rewrite ?sync_dir_fst.
  - rewrite Hj'. split; cbn [dir current_segment durable_lsn next_lsn appended_lsn mode update]; try congruence.
    destruct Hdir as [-> | ->]; [done|by apply holds_sync_dir].
Qed.
End recovery.


Lemma power_loss_segments (P : Z -> Prop) d d' :
  power_loss d d' -> Forall P (map fst d) -> Forall P (map fst d').
Proof.
  induction 1 as [|x y d d' [E _] _ IH|x d d' _ _ IH]; intros H; [done| |].
  - cbn in *. apply Forall_cons in H as [? ?]. rewrite <- E. constructor; auto.
  - apply IH. cbn in H. by apply Forall_cons in H as [_ ?].
Qed.

Lemma open_nothing crc start fa md sb : exists j, journal_open crc [] start fa md sb = Ok (j, []).
Proof. by eexists. Qed.

(** C10. Reclaiming is safe: the segments a checkpoint at [from_lsn] removes hold
    only frames below it, the journal stays consistent, and after any later
    power loss a scan that starts at the segment named by the manifest returns
    a prefix of the frames kept, with all durable ones. *)
Theorem journal_reclaim_safe (crc : bytes -> Z) (crc_range : forall b, in_u 32 (crc b) = true) from j fs :
  jinv crc j fs ->
  let keep := first_needed_segment crc from j in
  let j' := (reclaim_segments_below keep j).2 in
  exists dropped fs', fs = dropped ++ fs' /\ Forall (fun f => jf_lsn f < from) dropped /\ jinv crc j' fs' /\
    forall d' fa md sb, power_loss (dir j') d' -> md <> UnsafeNoFsync ->
      exists j2 ss, journal_open crc d' keep fa md sb = Ok (j2, ss) /\ map sf_frame ss `prefix_of` fs' /\
        forall f, f ∈ fs' -> jf_lsn f <= durable_lsn j' -> f ∈ map sf_frame ss.
Proof.
  intros K keep j'. destruct (reclaim_spec crc crc_range from j fs K) as (dr & fs' & E & Hdr & Hk & K').
  exists dr, fs'. split_and!; try done. intros d' fa md sb HL Hmd.
  destruct (survives_power_loss crc _ fs' d' (jinv_survives _ _ _ K') HL) as (fs2 & Hd & Hp & Hdur).
  destruct Hd as [[-> ->]|(Hs & cur & t & H)].
  { destruct (open_nothing crc keep fa md sb) as [j2 Eo]. by exists j2, []. }
  destruct (open_holds crc crc_range d' cur _ fs2 t keep fa md sb H Hs) as (j2 & ss & Eo & Hss & _); [|done|].
  { by eapply power_loss_segments. }
  exists j2, ss. rewrite Hss. done.
Qed.


(** Two segments of one frame each, reclaimed at the second frame. *)
Definition demo_fr (lsn : Z) : JournalFrame := MkJournalFrame CommitBatch 0 lsn (zeros 32) [lsn].
Definition demo_file (lsn : Z) : SeqFile := file_synced (MkSeqFile (frame_encode (fun _ => 7) (demo_fr lsn)) 0 false).
Lemma demo_disk : disk (fun _ => 7) [(1, demo_file 1); (2, demo_file 2)] [demo_fr 1; demo_fr 2].
Proof.
  right. split; [by repeat constructor|]. exists 2, []. split; try done.
  - exists [(1, demo_file 1)], [[demo_fr 1]], (demo_file 2), [demo_fr 2], []. split_and!; try done; [|by left].
    constructor; [|constructor]. split; [|done]. vm_compute. reflexivity.
  - repeat first [constructor|lia].
  - repeat (constructor; [vm_compute; congruence|]). constructor.
  - by repeat constructor.
  - apply torn_nil.
Qed.
Lemma journal_reclaim_safe_witness :
  exists j, jinv (fun _ => 7) j [demo_fr 1; demo_fr 2] /\
    exists dropped fs', [demo_fr 1; demo_fr 2] = dropped ++ fs' /\ Forall (fun f => jf_lsn f < 2) dropped /\
      jinv (fun _ => 7) (reclaim_segments_below (first_needed_segment (fun _ => 7) 2 j) j).2 fs'.
Proof.
  destruct (disk_opens (fun _ => 7) (fun _ => eq_refl) _ _ [] Sync 10 demo_disk) as (j & ss & _ & _ & K & _); [done|].
  exists j. split; [done|].
  destruct (journal_reclaim_safe (fun _ => 7) (fun _ => eq_refl) 2 j _ K) as (dr & fs' & H1 & H2 & H3 & _).
  by exists dr, fs'.
Defined.
