(* ===== verification/JournalDamage.v ===== *)
(** * What recovery does to a damaged journal

    Three behaviours of [Journal::open] on journals that are not the result of
    a clean prefix loss: a damaged trailer, a torn header followed by zeros,
    and frames that were never synced. *)

From stdpp Require Import sorting.
From S2P Require Import Prelude Errors StoreFormat Journal JournalRecovery.

Section damage.
Context (crc : bytes -> Z).
Context (crc_range : forall b, in_u 32 (crc b) = true).
Abbreviation fok := (frame_ok MAX_JOURNAL_PAYLOAD).

(** A frame whose last four bytes were overwritten. *)
Definition damaged (f : JournalFrame) (tr : bytes) : bytes := take (64 + length (jf_payload f)) (frame_encode crc f) ++ tr.

Section trailer.
Context (f : JournalFrame) (tr rest : bytes).
Context (Hf : fok f) (Htr : length tr = 4%nat) (Hok : bytes_ok tr) (Hne : tr <> le_encode 4 (frame_total_len f)).

Lemma total_nat : Z.to_nat (frame_total_len f) = (68 + length (jf_payload f))%nat /\
  Z.to_nat (frame_total_len f - 4) = (64 + length (jf_payload f))%nat.
Proof. unfold frame_total_len, zlen, FRAME_HEADER_LEN, FRAME_TRAILER_LEN. lia. Qed.
Lemma damaged_length : length (damaged f tr) = (68 + length (jf_payload f))%nat.
Proof.
  unfold damaged. rewrite length_app, length_take, (frame_encode_length crc f _ Hf). destruct total_nat. lia.
Qed.
Lemma damaged_header a b : (b <= 56)%nat -> sub a b (damaged f tr ++ rest) = sub a b (frame_encode crc f).
Proof.
  intros Hb. pose proof damaged_length. rewrite sub_app_l by lia. unfold damaged.
  rewrite sub_app_l by (rewrite length_take, (frame_encode_length crc f _ Hf); destruct total_nat; lia).
  apply sub_take. lia.
Qed.
Lemma damaged_trailer : sub (64 + length (jf_payload f)) (68 + length (jf_payload f)) (damaged f tr ++ rest) = tr.
Proof.
  rewrite sub_app_l by (rewrite damaged_length; lia). unfold damaged, sub.
  rewrite drop_app_length' by (rewrite length_take, (frame_encode_length crc f _ Hf); destruct total_nat; lia).
  apply take_ge. lia.
Qed.
Lemma trailer_wrong : le_decode tr <> frame_total_len f.
Proof. intros E. apply Hne. by rewrite <- E, <- Htr, le_encode_decode. Qed.

Lemma damaged_decode : exists e, frame_decode crc (damaged f tr ++ rest) MAX_JOURNAL_PAYLOAD = Err e.
Proof.
  destruct (frame_header crc f _ Hf (Z.to_nat (frame_total_len f)) []) as (_ & H0 & H4 & H8 & H12);
    [destruct total_nat; lia|by right|].
  rewrite app_nil_r, take_ge in H0, H4, H8, H12 by (by rewrite (frame_encode_length crc f _ Hf)).
  pose proof damaged_length as HD. destruct total_nat as [HT HT4]. unfold frame_decode.
  assert (HL : zlen (damaged f tr ++ rest) = frame_total_len f + zlen rest)
    by (unfold zlen at 1; rewrite length_app, HD; unfold frame_total_len, zlen, FRAME_HEADER_LEN, FRAME_TRAILER_LEN; lia).
  assert (Hge : 68 <= frame_total_len f) by (unfold frame_total_len, zlen, FRAME_HEADER_LEN, FRAME_TRAILER_LEN; lia).
  rewrite HL. destruct (Z.ltb_spec (frame_total_len f + zlen rest) FRAME_HEADER_LEN); [unfold FRAME_HEADER_LEN, zlen in *; lia|].
  rewrite (pair_sub 4 5 6) in H4 |- * by (rewrite ?length_app, ?(frame_encode_length crc f _ Hf); lia).
  rewrite !damaged_header, H0, H4, H8, H12 by lia. rewrite bool_decide_eq_true_2, Z.eqb_refl by done. cbn [negb].
  destruct Hf as (_ & _ & _ & Hpay & _). destruct (Z.ltb_spec MAX_JOURNAL_PAYLOAD (zlen (jf_payload f))); [lia|].
  fold (frame_total_len f). rewrite Z.eqb_refl. cbn [negb orb].
  destruct (Z.ltb_spec (frame_total_len f + zlen rest) (frame_total_len f)); [unfold zlen in *; lia|].
  rewrite HT, take_app_length' by done. case_if; [by eexists|]. rewrite HT4.
  replace (drop (64 + length (jf_payload f)) (damaged f tr)) with tr.
  2:{ unfold damaged. rewrite drop_app_length'; [done|]. rewrite length_take, (frame_encode_length crc f _ Hf). lia. }
  pose proof trailer_wrong. destruct (Z.eqb_spec (le_decode tr) (frame_total_len f)); [done|]. by eexists.
Qed.

Lemma damaged_tail : is_tail_frame (damaged f tr ++ rest) = true.
Proof.
  destruct (frame_header crc f _ Hf (Z.to_nat (frame_total_len f)) []) as (_ & _ & _ & H8 & _);
    [destruct total_nat; lia|by right|].
  rewrite app_nil_r, take_ge in H8 by (by rewrite (frame_encode_length crc f _ Hf)).
  unfold is_tail_frame. case_if; [done|]. rewrite damaged_header, H8 by lia.
  destruct (Z.ltb_spec (frame_total_len f) (FRAME_HEADER_LEN + FRAME_TRAILER_LEN)) as [Hx|_].
  { unfold frame_total_len, zlen, FRAME_HEADER_LEN, FRAME_TRAILER_LEN in *. lia. }
  case_if; [done|]. destruct total_nat as [-> ->]. rewrite damaged_trailer. pose proof trailer_wrong.
  by destruct (Z.eqb_spec (le_decode tr) (frame_total_len f)).
Qed.
End trailer.

(** ** A torn header in a file extended with zeros *)
Lemma header_bytes f : fok f ->
  take 8 (frame_encode crc f) = JOURNAL_MAGIC ++ [1; 0; kind_u8 (jf_kind f); jf_flags f].
Proof.
  intros Hf. destruct (frame_slots f _ Hf) as (S0 & S4 & S6 & S7 & _).
  pose proof (encode_len crc f Hf) as [_ H68].
  rewrite <- (frame_slot crc f _ Hf) in S0, S4, S6, S7 by lia. unfold sub in *.
  change (4 - 0)%nat with 4%nat in S0. change (6 - 4)%nat with 2%nat in S4. change (7 - 6)%nat with 1%nat in S6.
  change (8 - 7)%nat with 1%nat in S7. rewrite drop_0 in S0.
  assert (Hadd : forall a b (l : bytes), take (a + b) l = take a l ++ take b (drop a l)).
  { intros a b l. rewrite <- (take_drop a l) at 1.
    destruct (decide (a <= length l)%nat).
    - rewrite take_app_add' by (rewrite length_take; lia). done.
    - rewrite (drop_ge l a), (take_ge l a), app_nil_r, take_nil, app_nil_r by lia. apply take_ge. lia. }
  change 8%nat with (4 + (2 + (1 + 1)))%nat. rewrite !Hadd, !drop_drop. cbn [Nat.add]. by rewrite S0, S4, S6, S7.
Qed.

Lemma zero_tear_decode f n k : fok f -> (1 <= n <= 8)%nat -> (64 <= n + k)%nat ->
  let bs := take n (frame_encode crc f) ++ zeros k in
  (exists e, frame_decode crc bs MAX_JOURNAL_PAYLOAD = Err e) /\ is_tail_frame bs = false /\ bs <> [].
Proof.
  intros Hf Hn Hk bs.
  assert (Hbs : bs = take n (JOURNAL_MAGIC ++ [1; 0; kind_u8 (jf_kind f); jf_flags f]) ++ zeros 56 ++ zeros (k - 56)).
  { unfold bs. rewrite <- header_bytes, take_take by done. replace (n `min` 8)%nat with n by lia. f_equal.
    unfold zeros. rewrite <- replicate_add. f_equal. lia. }
  assert (HL : (zlen bs <? FRAME_HEADER_LEN) = false).
  { apply Z.ltb_ge. unfold zlen, FRAME_HEADER_LEN. rewrite Hbs, !length_app, !zeros_length, length_take. cbn. lia. }
  unfold frame_decode, is_tail_frame. rewrite HL, Hbs. clear HL Hbs bs.
  destruct n as [|[|[|[|[|[|[|[|[|n]]]]]]]]]; try lia; cbn; (split; [by eexists|done]).
Qed.

Lemma zeros_decode k : frame_decode crc (zeros k) MAX_JOURNAL_PAYLOAD = Ok None.
Proof.
  unfold frame_decode. case_if; [done|]. breflect. unfold zlen, FRAME_HEADER_LEN in *. rewrite zeros_length in *.
  rewrite sub_zeros by lia. cbn. replace (take 64 (zeros k)) with (zeros 64); [done|].
  unfold zeros. rewrite take_replicate. f_equal. lia.
Qed.
End damage.

Lemma open_one crc file fa md sb :
  journal_open crc [(1, file)] 1 fa md sb =
  ('(fs, m, tr) ← scan_segment crc (S (length (content file))) 1 true 0 (content file) 0;
   next ← uadd 64 m 1;
   Ok (MkJournal [(1, match tr with Some off => file_truncated (Z.to_nat off) file | None => file end)] fa sb 1 next m m md 0 0, fs)).
Proof.
  unfold journal_open. cbn [map fst last scan_segments Z.ltb Z.compare Pos.compare Pos.compare_cont default].
  rewrite bool_decide_eq_true_2 by done. destruct (scan_segment _ _ _ _ _ _ _) as [[[fs m] tr]| |]; cbn; [|done|done].
  rewrite app_nil_r. done.
Qed.

(** C38. Damage to the trailer of any frame of the last segment is taken for a
    torn tail.  Whatever whole segments [di] and whole frames [g] come before
    it and whatever bytes [rest] come after it, opening the journal succeeds
    with the frames before the damage, drops the damaged frame and everything
    after it, synced frames included, and truncates the file there.  The source
    promises that an invalid frame anywhere but at the physical tail fails
    closed. *)
Theorem journal_trailer_damage (crc : bytes -> Z) (crc_range : forall b, in_u 32 (crc b) = true)
    di gi cur g f tr rest fa md sb :
  Forall2 (whole crc) di gi -> StronglySorted Z.lt (map fst di ++ [cur]) -> Forall (fun s => 1 <= s) (map fst di ++ [cur]) ->
  Forall (frame_ok MAX_JOURNAL_PAYLOAD) (concat gi ++ g) -> chain 0 (concat gi ++ g) ->
  last_lsn 0 (concat gi ++ g) + 1 < 2 ^ 64 ->
  frame_ok MAX_JOURNAL_PAYLOAD f -> length tr = 4%nat -> bytes_ok tr -> tr <> le_encode 4 (frame_total_len f) ->
  let file := seg_bytes crc g ++ damaged crc f tr ++ rest in
  exists j ss, journal_open crc (di ++ [(cur, MkSeqFile file (length file) true)]) 1 fa md sb = Ok (j, ss) /\
    map sf_frame ss = concat gi ++ g /\ durable_lsn j = last_lsn 0 (concat gi ++ g) /\
    dir j = di ++ [(cur, MkSeqFile (seg_bytes crc g) (length (seg_bytes crc g)) true)].
Proof.
  intros HW Hsort Hpos Hfr Hch Hlsn Hf Hl Hok Hne file.
  destruct (damaged_decode crc f tr rest Hf Hl Hok Hne) as [e He].
  pose proof (damaged_tail crc f tr rest Hf Hl Hok Hne) as Ht.
  assert (Hbad : damaged crc f tr ++ rest <> []).
  { intros E. apply (f_equal length) in E. rewrite length_app, (damaged_length crc f tr Hf Hl) in E. done. }
  apply Forall_app in Hfr as [Hf1 Hf2]. pose proof Hch as Hch'. apply chain_app in Hch' as [Hc1 Hc2].
  pose proof (chain_le _ _ Hc1) as Hm1. pose proof (chain_le _ _ Hch) as Hm.
  apply sorted_last in Hsort as Hlt. apply Forall_app in Hpos as [Hp1 Hp2]. rewrite Forall_singleton in Hp2.
  destruct (scan_whole crc crc_range 1 (Some cur) di gi [(cur, MkSeqFile file (length file) true)] 0)
    as (s1 & Hs1 & E1); try done.
  { intros s Hin [= <-]. rewrite Forall_forall in Hlt. specialize (Hlt _ Hin). cbn in Hlt. lia. }
  destruct (scan_segment_bad crc crc_range (S (length file)) cur 0 g (damaged crc f tr ++ rest)
    (last_lsn 0 (concat gi)) e) as (s2 & Hs2 & E2); try done; [unfold file; lia|].
  fold file in E2. unfold journal_open. rewrite map_app. cbn [map fst]. rewrite last_snoc, E1.
  cbn [scan_segments content]. destruct (Z.ltb_spec cur 1); [lia|].
  rewrite bool_decide_eq_true_2, E2 by done. cbn [mbind outcome_bind]. rewrite <- last_lsn_app.
  rewrite uadd_ok by (apply in_u_spec; lia). cbn [mbind outcome_bind].
  change (default 1 (Some cur)) with cur. replace (Z.max cur (Z.max 1 1)) with cur by lia.
  eexists _, _. split; [reflexivity|]. split; [by rewrite map_app, app_nil_r, Hs1, Hs2|]. split; [done|].
  cbn [dir]. rewrite dir_open_last. unfold file_truncated, zlen, file. cbn [content].
  by rewrite Z.add_0_l, Nat2Z.id, take_app_length.
Qed.

(** A write torn inside the first eight bytes of a frame, in a file already
    extended with zeros, makes the journal unopenable: recovery reports
    corruption instead of truncating the torn tail, although an entirely zero
    header is accepted as unwritten space. *)
Theorem journal_zero_filled_tear (crc : bytes -> Z) (crc_range : forall b, in_u 32 (crc b) = true) f n k fa md sb :
  frame_ok MAX_JOURNAL_PAYLOAD f -> (1 <= n <= 8)%nat -> (64 <= n + k)%nat ->
  let file := take n (frame_encode crc f) ++ zeros k in
  journal_open crc [(1, MkSeqFile file (length file) true)] 1 fa md sb = Err Corruption /\
  exists j, journal_open crc [(1, MkSeqFile (zeros k) k true)] 1 fa md sb = Ok (j, []).
Proof.
  intros Hf Hn Hk file. destruct (zero_tear_decode crc f n k Hf Hn Hk) as ([e He] & Ht & Hne). fold file in He, Ht, Hne.
  split.
  - rewrite open_one. cbn [content]. destruct file as [|b bs] eqn:Ef; [done|]. cbn [scan_segment]. by rewrite He, Ht.
  - rewrite open_one. cbn [content]. destruct (zeros k) as [|b bs] eqn:Ek; [destruct k; [lia|done]|].
    cbn [scan_segment]. rewrite <- Ek, zeros_decode. by eexists.
Qed.

(** Frames that were appended but never synced are reported durable by the
    next open when the process dies without a power loss, and a later power
    loss takes them away: [open] sets the durable sequence number to the last
    frame it reads without syncing the file. *)
Theorem journal_reopen_not_durable (crc : bytes -> Z) (crc_range : forall b, in_u 32 (crc b) = true) kind txn payload :
  length txn = 32%nat -> zlen payload <= MAX_JOURNAL_PAYLOAD ->
  let open d := journal_open crc d 1 [] Sync DEFAULT_SEGMENT_BYTES in
  exists j0 j1 j2 ss j3 d', open [] = Ok (j0, []) /\ journal_append crc kind txn payload j0 = (Ok 1, j1) /\
    open (dir j1) = Ok (j2, ss) /\ map sf_frame ss = [MkJournalFrame kind 0 1 txn payload] /\ durable_lsn j2 = 1 /\
    power_loss (dir j2) d' /\ open d' = Ok (j3, []).
Proof.
  intros Htx Hpay open. set (f := MkJournalFrame kind 0 1 txn payload).
  assert (Hf : frame_ok MAX_JOURNAL_PAYLOAD f).
  { repeat split; try done. change (frame_total_len f) with (64 + zlen payload + 4). unfold MAX_JOURNAL_PAYLOAD in Hpay. lia. }
  set (j1 := MkJournal [(1, MkSeqFile (frame_encode crc f) 0 false)] [] DEFAULT_SEGMENT_BYTES 1 2 0 1 Sync 0 (0 + zlen (frame_encode crc f))).
  destruct (scan_segment_frames crc crc_range (S (length (frame_encode crc f))) 1 true 0 [f] [] 0) as (ss & Hss & E).
  { constructor; [done|constructor]. }
  { cbn. lia. }
  { lia. }
  { apply torn_nil. }
  { by left. }
  { unfold seg_bytes. cbn. rewrite !app_nil_r. lia. }
  unfold seg_bytes in E. cbn [map concat] in E. rewrite !app_nil_r, decide_True in E by done.
  assert (E2 : open (dir j1) = Ok (MkJournal (dir j1) [] DEFAULT_SEGMENT_BYTES 1 2 1 1 Sync 0 0, ss)).
  { unfold open. cbn [dir j1]. rewrite open_one. cbn [content]. by rewrite E. }
  eexists (MkJournal [(1, file_create)] [] DEFAULT_SEGMENT_BYTES 1 1 0 0 Sync 0 0), j1, _, ss, _, [(1, MkSeqFile [] 0 true)].
  split; [done|]. split.
  { unfold journal_append. by destruct (Z.ltb_spec MAX_JOURNAL_PAYLOAD (zlen payload)); [lia|]. }
  split; [exact E2|]. split; [done|]. split; [done|]. split; [|reflexivity].
  cbn [dir]. constructor; [|constructor]. split; [done|]. exists 0%nat. cbn. split; [lia|done].
Qed.

(** Concrete damage: two segments; the second one holds three synced frames,
    the trailer of the middle one is zeroed. *)
Definition demo_frame (lsn : Z) : JournalFrame := MkJournalFrame CommitBatch 0 lsn (zeros 32) [104; 105].
Lemma demo_frame_ok lsn : in_u 64 lsn = true -> frame_ok MAX_JOURNAL_PAYLOAD (demo_frame lsn).
Proof. intros H. repeat split; done. Qed.

Lemma journal_trailer_damage_witness :
  let file := frame_encode (fun _ => 7) (demo_frame 2) ++ damaged (fun _ => 7) (demo_frame 3) (zeros 4) ++
    frame_encode (fun _ => 7) (demo_frame 4) in
  exists j ss, journal_open (fun _ => 7) [(1, demo_file 1); (2, MkSeqFile file (length file) true)] 1 [] Sync DEFAULT_SEGMENT_BYTES = Ok (j, ss) /\
    map sf_frame ss = [demo_fr 1; demo_frame 2] /\ durable_lsn j = 2.
Proof.
  destruct (journal_trailer_damage (fun _ => 7) (fun _ => eq_refl) [(1, demo_file 1)] [[demo_fr 1]] 2 [demo_frame 2]
    (demo_frame 3) (zeros 4) (frame_encode (fun _ => 7) (demo_frame 4)) [] Sync DEFAULT_SEGMENT_BYTES)
    as (j & ss & E & Hss & Hd & _).
  - constructor; [|constructor]. split; [vm_compute; reflexivity|done].
  - repeat first [constructor|lia].
  - repeat (constructor; [vm_compute; congruence|]). constructor.
  - repeat constructor; vm_compute; congruence.
  - repeat constructor.
  - reflexivity.
  - by apply demo_frame_ok.
  - reflexivity.
  - repeat constructor; vm_compute; congruence.
  - vm_compute. discriminate.
  - exists j, ss. split; [|split; [exact Hss|exact Hd]]. exact E.
Defined.
Lemma journal_zero_filled_tear_witness :
  let file := take 5 (frame_encode (fun _ => 7) (demo_frame 1)) ++ zeros 4091 in
  journal_open (fun _ => 7) [(1, MkSeqFile file (length file) true)] 1 [] Sync DEFAULT_SEGMENT_BYTES = Err Corruption /\
  exists j, journal_open (fun _ => 7) [(1, MkSeqFile (zeros 4091) 4091 true)] 1 [] Sync DEFAULT_SEGMENT_BYTES = Ok (j, []).
Proof.
  apply (journal_zero_filled_tear (fun _ => 7) (fun _ => eq_refl) (demo_frame 1) 5 4091).
  - by apply demo_frame_ok.
  - lia.
  - lia.
Defined.
Lemma journal_reopen_not_durable_witness :
  let open d := journal_open (fun _ => 7) d 1 [] Sync DEFAULT_SEGMENT_BYTES in
  exists j0 j1 j2 ss j3 d', open [] = Ok (j0, []) /\ journal_append (fun _ => 7) CommitBatch (zeros 32) [104] j0 = (Ok 1, j1) /\
    open (dir j1) = Ok (j2, ss) /\ map sf_frame ss = [MkJournalFrame CommitBatch 0 1 (zeros 32) [104]] /\ durable_lsn j2 = 1 /\
    power_loss (dir j2) d' /\ open d' = Ok (j3, []).
Proof. apply (journal_reopen_not_durable (fun _ => 7) (fun _ => eq_refl)); [done|vm_compute; congruence]. Defined.
