(* ===== verification/BufferPool.v ===== *)
(** * The page file and the buffer pool (src/crates/carolina-storage/src/buffer.rs,
    [FilePageIo] of io.rs)

    A cache of pages in front of the data file, with CLOCK replacement.  Dirty
    pages are never evicted.  The file is its bytes; a page past its end is a
    short read.  The statistics counters of the pool (hits, misses, evictions,
    flushes, grown) are left out: nothing reads them.  [view] is what a client
    of the pool sees, and the lemmas show the pool is transparent: fetching a
    page, whatever it evicts, changes no page's contents and loses no write. *)

From stdpp Require Import gmap.
From S2P Require Import Prelude Errors StateMonad StoreFormat Journal.

#[global] Instance PageHeader_eta : Eta PageHeader := fun h =>
  MkPageHeader (page_type h) (page_flags h) (page_id h) (page_generation h) (page_lsn h) (item_count h) (free_start h)
    (free_end h) (left_sibling h) (right_sibling h).

(** ** The page file *)
Record PageFile : Type := MkPageFile { pf_data : bytes; pf_answers : list FaultAction }.

(** [a * b] on an unsigned width. *)
Definition umul {E} (w a b : Z) : outcome E Z :=
  match checked_u w (a * b) with Some z => Ok z | None => Panic end.

(** [write_at]: a positional write, which extends the file with zeros. *)
Definition write_at (off : nat) (bs data : bytes) : bytes := put off bs (data ++ zeros (off + length bs - length data)).

(** [FilePageIo::read_page]. *)
Definition read_page (id : Z) (io : PageFile) : CoreResult bytes :=
  off ← umul 64 id PAGE_SIZE;
  let p := sub (Z.to_nat off) (Z.to_nat off + Z.to_nat PAGE_SIZE) (pf_data io) in
  if zlen p =? PAGE_SIZE then Ok p else Err Corruption.

(** ** The pool *)
Record Frame : Type := MkFrame {
  fr_page_id : Z;
  fr_dirty : bool;
  fr_page_lsn : Z;
  fr_pin : Z;
  fr_referenced : bool;
  fr_bytes : bytes;
}.
#[global] Instance Frame_eta : Eta Frame := fun f =>
  MkFrame (fr_page_id f) (fr_dirty f) (fr_page_lsn f) (fr_pin f) (fr_referenced f) (fr_bytes f).

Record BufferPool : Type := MkPool {
  frames : list Frame;
  pool_map : gmap Z nat;
  clock : nat;
  capacity : Z;
}.
#[global] Instance BufferPool_eta : Eta BufferPool := fun p => MkPool (frames p) (pool_map p) (clock p) (capacity p).

Definition pool_new (cap : Z) : BufferPool := MkPool [] ∅ 0 (Z.max cap 8).

(** The pool and the file it caches: what [TreeCtx] borrows. *)
Record Cache : Type := MkCache { pool : BufferPool; io : PageFile }.
#[global] Instance Cache_eta : Eta Cache := fun c => MkCache (pool c) (io c).

Definition on_pool (f : BufferPool -> BufferPool) : stM Cache unit := update_st (fun c => c <| pool ::= f |>).

(** [self.frames[i]], [&mut self.frames[i]]. *)
Definition frame (i : nat) : stM Cache Frame := fun c =>
  (match frames (pool c) !! i with Some f => Ok f | None => Panic end, c).
Definition frame_mut (i : nat) (g : Frame -> Frame) : stM Cache unit :=
  f ← frame i; on_pool (fun p => p <| frames ::= <[i := g f]> |>).

Definition dirty_count (p : BufferPool) : nat := length (filter (fun f => fr_dirty f = true) (frames p)).
Definition contains (id : Z) (p : BufferPool) : bool := bool_decide (is_Some (pool_map p !! id)).

(** The injector, consulted once: [faults.at(point)], [fault(faults, point)?]. *)
Definition io_at : stM Cache FaultAction := fun c =>
  match pf_answers (io c) with
  | [] => (Ok NoFault, c)
  | a :: rest => (Ok a, c <| io := MkPageFile (pf_data (io c)) rest |>)
  end.
Definition io_fault : stM Cache unit :=
  a ← io_at; match a with NoFault => mret tt | Crash | IoError => fail Io end.

(** [FilePageIo::write_page]: a crash in the middle leaves half the page. *)
Definition write_page (id : Z) (src : bytes) : stM Cache unit :=
  _ ← io_fault;
  off ← lift (umul 64 id PAGE_SIZE);
  a ← io_at;
  match a with
  | Crash =>
      _ ← update_st (fun c => c <| io := MkPageFile (write_at (Z.to_nat off) (take (length src / 2) src) (pf_data (io c)))
                                            (pf_answers (io c)) |>);
      fail Io
  | _ => update_st (fun c => c <| io := MkPageFile (write_at (Z.to_nat off) src (pf_data (io c))) (pf_answers (io c)) |>)
  end.

(** [BufferPool::evict_one]: the CLOCK hand goes round at most twice. *)
Definition clock_step (n : nat) (p : BufferPool) : BufferPool := p <| clock := ((clock p + 1) mod n)%nat |>.
Fixpoint evict_loop (fuel n : nat) : stM Cache (option nat) :=
  match fuel with
  | O => mret None
  | S fuel' =>
      i ← reads (fun c => clock (pool c));
      _ ← on_pool (clock_step n);
      f ← frame i;
      match (0 <? fr_pin f) || fr_dirty f with
      | true => evict_loop fuel' n
      | false =>
          match fr_referenced f with
          | true => _ ← frame_mut i (fun f => f <| fr_referenced := false |>); evict_loop fuel' n
          | false => mret (Some i)
          end
      end
  end.
Definition evict_one : stM Cache (option nat) :=
  n ← reads (fun c => length (frames (pool c)));
  evict_loop (2 * n + 1) n.

Section pool.
Context (crc : bytes -> Z).

Definition new_frame (id : Z) (bs : bytes) : Frame :=
  MkFrame id false (match page_read crc bs id with Ok h => page_lsn h | _ => 0 end) 0 true bs.

(** [BufferPool::place]. *)
Definition push_frame (f : Frame) : stM Cache nat :=
  i ← reads (fun c => length (frames (pool c)));
  _ ← on_pool (fun p => p <| frames ::= fun fs => fs ++ [f] |> <| pool_map ::= <[fr_page_id f := i]> |>);
  mret i.
Definition replace_frame (i : nat) (f : Frame) : stM Cache nat :=
  old ← frame i;
  _ ← on_pool (fun p => p <| frames ::= <[i := f]> |> <| pool_map ::= fun m => <[fr_page_id f := i]> (delete (fr_page_id old) m) |>);
  mret i.
Definition place (id : Z) (bs : bytes) : stM Cache nat :=
  let f := new_frame id bs in
  n ← reads (fun c => Z.of_nat (length (frames (pool c))));
  cap ← reads (fun c => capacity (pool c));
  match n <? cap with
  | true => push_frame f
  | false =>
      v ← evict_one;
      match v with
      | Some i => replace_frame i f
      | None =>
          match Z.min (cap * 16) (2 ^ 64 - 1) <=? n with
          | true => fail ResourceLimit
          | false => push_frame f
          end
      end
  end.

(** [BufferPool::fetch] and [BufferPool::insert_new]. *)
Definition fetch (id : Z) : stM Cache nat :=
  m ← reads (fun c => pool_map (pool c));
  match m !! id with
  | Some i => _ ← frame_mut i (fun f => f <| fr_referenced := true |>); mret i
  | None =>
      bs ← (fun c => (read_page id (io c), c));
      _ ← lift (page_read crc bs id);
      place id bs
  end.
Definition insert_new (id : Z) (t : PageType) (lsn : Z) : stM Cache nat :=
  bs ← lift (page_write crc ((page_new t id) <| page_lsn := lsn |>) (zeros (Z.to_nat PAGE_SIZE)));
  i ← place id bs;
  _ ← frame_mut i (fun f => f <| fr_dirty := true |> <| fr_page_lsn := lsn |>);
  mret i.

(** [BufferPool::mark_dirty], [pin], [unpin]. *)
Definition mark_dirty (i : nat) (lsn : Z) : stM Cache unit :=
  frame_mut i (fun f => f <| fr_dirty := true |> <| fr_page_lsn := Z.max (fr_page_lsn f) lsn |>).
Definition pin (i : nat) : stM Cache unit :=
  f ← frame i; p ← lift (uadd 32 (fr_pin f) 1); frame_mut i (fun f => f <| fr_pin := p |>).
Definition unpin (i : nat) : stM Cache unit := frame_mut i (fun f => f <| fr_pin := saturating_sub (fr_pin f) 1 |>).

(** [BufferPool::flush_frame], [flush_dirty_up_to], [flush_page]. *)
Definition flush_frame (i : nat) : stM Cache unit :=
  f ← frame i;
  let h := match page_read crc (fr_bytes f) (fr_page_id f) with Ok h => h | _ => page_new Leaf (fr_page_id f) end in
  bs ← lift (page_write crc (h <| page_lsn := fr_page_lsn f |>) (fr_bytes f));
  _ ← frame_mut i (fun f => f <| fr_bytes := bs |>);
  _ ← write_page (fr_page_id f) bs;
  frame_mut i (fun f => f <| fr_dirty := false |>).
Fixpoint flush_loop (durable_lsn : Z) (todo : list nat) (n : Z) : stM Cache Z :=
  match todo with
  | [] => mret n
  | i :: todo' =>
      f ← frame i;
      match fr_dirty f && (fr_page_lsn f <=? durable_lsn) with
      | true => _ ← flush_frame i; flush_loop durable_lsn todo' (n + 1)
      | false => flush_loop durable_lsn todo' n
      end
  end.
Definition flush_dirty_up_to (durable_lsn : Z) : stM Cache Z :=
  n ← reads (fun c => length (frames (pool c)));
  flush_loop durable_lsn (seq 0 n) 0.
Definition flush_page (id durable_lsn : Z) : stM Cache unit :=
  m ← reads (fun c => pool_map (pool c));
  match m !! id with
  | None => mret tt
  | Some i =>
      f ← frame i;
      match fr_dirty f with
      | false => mret tt
      | true => match durable_lsn <? fr_page_lsn f with true => fail Errors.Internal | false => flush_frame i end
      end
  end.

(** [BufferPool::stamp_dirty_lsn], [rekey], [clear]. *)
Definition stamp_dirty_lsn (lsn : Z) (p : BufferPool) : BufferPool :=
  p <| frames ::= map (fun f => if fr_dirty f && (fr_page_lsn f =? 2 ^ 64 - 1) then f <| fr_page_lsn := lsn |> else f) |>.
Definition rekey (old_id new_id : Z) (bs : bytes) : stM Cache unit :=
  m ← reads (fun c => pool_map (pool c));
  match m !! old_id with
  | None => mret tt
  | Some i =>
      _ ← frame_mut i (fun f => f <| fr_page_id := new_id |> <| fr_dirty := false |> <| fr_bytes := bs |>);
      on_pool (fun p => p <| pool_map ::= fun m => <[new_id := i]> (delete old_id m) |>)
  end.
Definition clear_pool (p : BufferPool) : BufferPool := p <| frames := [] |> <| pool_map := ∅ |> <| clock := 0%nat |>.

(** [BufferPool::shrink_to_capacity]. *)
Definition keep_frame (cap : Z) (keep : list Frame) (f : Frame) : list Frame :=
  let n := Z.of_nat (length keep) in
  if (fr_dirty f || (0 <? fr_pin f) || (n <? cap)) && negb ((fr_pin f =? 0) && negb (fr_dirty f) && (cap <=? n))
  then keep ++ [f] else keep.
Definition index_frames (fs : list Frame) : gmap Z nat :=
  foldl (fun m x => <[fr_page_id x.2 := x.1]> m) ∅ (imap (fun i f => (i, f)) fs).
Definition shrink_to_capacity (p : BufferPool) : BufferPool :=
  if Z.of_nat (length (frames p)) <=? capacity p then p
  else
    let keep := foldl (keep_frame (capacity p)) [] (frames p) in
    MkPool keep (index_frames keep) 0 (capacity p).
End pool.

(** ** What a client sees *)
Section spec.
Context (crc : bytes -> Z).

(** The page the file holds under an identifier, if its header is valid. *)
Definition on_disk (f : PageFile) (id : Z) : option bytes :=
  match read_page id f with
  | Ok p => if is_ok (page_read crc p id) then Some p else None
  | _ => None
  end.
Definition resident (c : Cache) (id : Z) : option Frame := pool_map (pool c) !! id ≫= fun i => frames (pool c) !! i.
Definition view (c : Cache) (id : Z) : option bytes :=
  match resident c id with Some f => Some (fr_bytes f) | None => on_disk (io c) id end.
Definition dirty (c : Cache) (id : Z) : bool := match resident c id with Some f => fr_dirty f | None => false end.

(** Every frame is indexed under its identifier, which is below [n]; a clean
    frame holds what the file holds. *)
Record pool_ok (n : Z) (c : Cache) : Prop := {
  po_map : forall id i, pool_map (pool c) !! id = Some i <-> exists f, frames (pool c) !! i = Some f /\ fr_page_id f = id;
  po_bound : forall id f, resident c id = Some f -> 0 <= id < n;
  po_clean : forall id f, resident c id = Some f -> fr_dirty f = false -> on_disk (io c) id = Some (fr_bytes f);
  po_length : forall id f, resident c id = Some f -> length (fr_bytes f) = Z.to_nat PAGE_SIZE;
  po_clock : (clock (pool c) = 0 \/ clock (pool c) < length (frames (pool c)))%nat;
  po_capacity : 8 <= capacity (pool c);
}.

(** Nothing a client can tell apart. *)
Record same (c c' : Cache) : Prop := {
  sm_view : forall id, view c' id = view c id;
  sm_dirty : forall id, dirty c' id = dirty c id;
  sm_io : pf_data (io c') = pf_data (io c);
}.
#[global] Instance same_preorder : PreOrder same.
Proof.
  split; [by constructor|]. intros a b c [V1 D1 I1] [V2 D2 I2]. constructor; intros; by rewrite ?V2, ?D2, ?I2, ?V1, ?D1, ?I1.
Qed.

Lemma resident_frame n c id f : pool_ok n c -> resident c id = Some f -> fr_page_id f = id.
Proof.
  intros Hp. unfold resident. intros (i & Hi & Hf)%bind_Some. apply (po_map _ _ Hp) in Hi as (f' & Hf' & <-). congruence.
Qed.
Lemma frame_resident n c i f : pool_ok n c -> frames (pool c) !! i = Some f -> resident c (fr_page_id f) = Some f.
Proof.
  intros Hp Hf. unfold resident. assert (pool_map (pool c) !! fr_page_id f = Some i) as -> by (apply (po_map _ _ Hp); eauto). done.
Qed.
Lemma pool_ok_mono n n' c : n <= n' -> pool_ok n c -> pool_ok n' c.
Proof. intros H []. constructor; eauto. intros id f Hf. specialize (po_bound0 id f Hf). lia. Qed.

(** A clean page is the one in the file. *)
Lemma clean_on_disk n c id p : pool_ok n c -> dirty c id = false -> view c id = Some p -> on_disk (io c) id = Some p.
Proof.
  intros Hp. unfold dirty, view. destruct (resident c id) as [f|] eqn:E; [|done]. intros Hd [= <-]. by eapply po_clean.
Qed.

(** *** Pools that differ in bookkeeping only *)
Definition alike (f g : Frame) : Prop :=
  fr_page_id f = fr_page_id g /\ fr_dirty f = fr_dirty g /\ fr_bytes f = fr_bytes g.

Lemma alike_same n c c' :
  pool_ok n c -> io c' = io c -> pool_map (pool c') = pool_map (pool c) ->
  Forall2 alike (frames (pool c)) (frames (pool c')) -> capacity (pool c') = capacity (pool c) ->
  (clock (pool c') = 0 \/ clock (pool c') < length (frames (pool c')))%nat -> pool_ok n c' /\ same c c'.
Proof.
  intros Hp Hio Hm HF Hcap Hck.
  assert (Hr : forall id f, resident c' id = Some f -> exists g, resident c id = Some g /\ alike g f).
  { intros id f. unfold resident. rewrite Hm. intros (i & Hi & Hf)%bind_Some. rewrite Hi. cbn.
    eapply Forall2_lookup_r in HF as (g & Hg & Ha); eauto. }
  assert (Hr' : forall id, resident c' id = None -> resident c id = None).
  { intros id. unfold resident. rewrite Hm. destruct (pool_map (pool c) !! id) as [i|]; cbn; [|done].
    intros Hn. apply lookup_ge_None in Hn. apply lookup_ge_None. by rewrite (Forall2_length _ _ _ HF). }
  split.
  - constructor.
    + intros id i. rewrite Hm, (po_map _ _ Hp). split; intros (f & Hf & <-).
      * eapply Forall2_lookup_l in HF as (g & Hg & Ha); [|done]. exists g. split; [done|]. symmetry. apply Ha.
      * eapply Forall2_lookup_r in HF as (g & Hg & Ha); [|done]. exists g. split; [done|]. apply Ha.
    + intros id f Hf. apply Hr in Hf as (g & Hg & _). by eapply po_bound.
    + intros id f Hf Hd. apply Hr in Hf as (g & Hg & (_ & Hd' & Hb)). rewrite Hio, <- Hb. eapply po_clean; eauto; congruence.
    + intros id f Hf. apply Hr in Hf as (g & Hg & (_ & _ & <-)). by eapply po_length.
    + done.
    + rewrite Hcap. apply Hp.
  - constructor; [| |by rewrite Hio]; intros id; unfold view, dirty.
    all: destruct (resident c' id) as [f|] eqn:E; [apply Hr in E as (g & -> & (_ & Hd & Hb)); congruence|].
    all: rewrite (Hr' id E), ?Hio; done.
Qed.

(** *** Placing a page

    A new frame [f] in slot [i]; every other page is as before, or was clean
    and has left the pool. *)
Record placed (c c' : Cache) (i : nat) (f : Frame) : Prop := {
  pl_io : io c' = io c;
  pl_capacity : capacity (pool c') = capacity (pool c);
  pl_clock : (clock (pool c') = 0 \/ clock (pool c') < length (frames (pool c')))%nat;
  pl_frame : frames (pool c') !! i = Some f;
  pl_map : forall id j, pool_map (pool c') !! id = Some j <-> exists g, frames (pool c') !! j = Some g /\ fr_page_id g = id;
  pl_others : forall id, id <> fr_page_id f -> match resident c' id with
    | Some g => exists g0, resident c id = Some g0 /\ alike g0 g
    | None => forall g0, resident c id = Some g0 -> fr_dirty g0 = false
    end;
}.

Lemma placed_resident c c' i f : placed c c' i f -> resident c' (fr_page_id f) = Some f.
Proof.
  intros H. unfold resident. assert (pool_map (pool c') !! fr_page_id f = Some i) as ->
    by (apply (pl_map _ _ _ _ H); exists f; split; [apply H|done]). apply H.
Qed.

Lemma placed_spec n n' c c' i f :
  pool_ok n c -> placed c c' i f -> n <= n' -> 0 <= fr_page_id f < n' -> length (fr_bytes f) = Z.to_nat PAGE_SIZE ->
  (fr_dirty f = false -> on_disk (io c) (fr_page_id f) = Some (fr_bytes f)) ->
  pool_ok n' c' /\ (forall id, view c' id = if id =? fr_page_id f then Some (fr_bytes f) else view c id) /\
  (forall id, dirty c' id = if id =? fr_page_id f then fr_dirty f else dirty c id).
Proof.
  intros Hp Hpl Hn Hid Hlen Hcl. pose proof (placed_resident _ _ _ _ Hpl) as Hf.
  assert (Ho : forall id g, resident c' id = Some g -> id = fr_page_id f /\ g = f \/
    id <> fr_page_id f /\ exists g0, resident c id = Some g0 /\ alike g0 g).
  { intros id g Hg. destruct (decide (id = fr_page_id f)) as [->|Hne]; [left; split; congruence|right].
    split; [done|]. pose proof (pl_others _ _ _ _ Hpl id Hne) as H. by rewrite Hg in H. }
  split; [|split].
  - constructor; [apply Hpl|..|apply Hpl|].
    + intros id g [[-> ->]|(_ & g0 & Hg & _)]%Ho; [done|]. pose proof (po_bound _ _ Hp _ _ Hg). lia.
    + intros id g [[-> ->]|(_ & g0 & Hg & (_ & Hd & Hb))]%Ho Hc; rewrite (pl_io _ _ _ _ Hpl); [by apply Hcl|].
      rewrite <- Hb. eapply po_clean; eauto; congruence.
    + intros id g [[-> ->]|(_ & g0 & Hg & (_ & _ & <-))]%Ho; [done|]. by eapply po_length.
    + rewrite (pl_capacity _ _ _ _ Hpl). apply Hp.
  - intros id. destruct (Z.eqb_spec id (fr_page_id f)) as [->|Hne]; unfold view; [by rewrite Hf|].
    pose proof (pl_others _ _ _ _ Hpl id Hne) as H. destruct (resident c' id) as [g|].
    + destruct H as (g0 & -> & (_ & _ & ->)). done.
    + rewrite (pl_io _ _ _ _ Hpl). destruct (resident c id) as [g0|] eqn:E; [|done].
      by rewrite (po_clean _ _ Hp _ _ E) by auto.
  - intros id. destruct (Z.eqb_spec id (fr_page_id f)) as [->|Hne]; unfold dirty; [by rewrite Hf|].
    pose proof (pl_others _ _ _ _ Hpl id Hne) as H. destruct (resident c' id) as [g|].
    + destruct H as (g0 & -> & (_ & Hd & _)). done.
    + destruct (resident c id) as [g0|] eqn:E; [|done]. symmetry. by apply H.
Qed.

(** *** Eviction *)
Record swept (c c' : Cache) : Prop := {
  sw_io : io c' = io c;
  sw_map : pool_map (pool c') = pool_map (pool c);
  sw_frames : Forall2 alike (frames (pool c)) (frames (pool c'));
  sw_capacity : capacity (pool c') = capacity (pool c);
  sw_clock : (clock (pool c') < length (frames (pool c')))%nat;
}.
Lemma alike_refl (fs : list Frame) : Forall2 alike fs fs.
Proof. induction fs; constructor; [by split_and!|done]. Qed.
Lemma alike_trans (a b c : list Frame) : Forall2 alike a b -> Forall2 alike b c -> Forall2 alike a c.
Proof.
  intros H. revert c. induction H as [|x y a b (H1 & H2 & H3) _ IH]; intros c Hc; inversion Hc as [|? z ? ? (G1 & G2 & G3) ?]; subst;
    constructor; [|by apply IH]. split_and!; congruence.
Qed.
Lemma alike_insert fs i f g : fs !! i = Some f -> alike f g -> Forall2 alike fs (<[i := g]> fs).
Proof.
  revert i. induction fs as [|x fs IH]; intros [|i] Hi Ha; try done; cbn in *.
  - simplify_eq. constructor; [done|apply alike_refl].
  - constructor; [by split_and!|]. by apply IH.
Qed.
Lemma swept_trans a b c : swept a b -> swept b c -> swept a c.
Proof.
  intros [I1 M1 F1 C1 K1] [I2 M2 F2 C2 K2]. constructor; [congruence..|by eapply alike_trans|congruence|done].
Qed.

Lemma evict_loop_spec fuel n c :
  n = length (frames (pool c)) -> (clock (pool c) < n)%nat ->
  exists r c', evict_loop fuel n c = (Ok r, c') /\ swept c c' /\
    (forall i, r = Some i -> exists f, frames (pool c') !! i = Some f /\ fr_dirty f = false).
Proof.
  intros Hn. revert c Hn. induction fuel as [|fuel IH]; intros c Hn Hc.
  { eexists _, _. split; [reflexivity|]. split; [|done]. constructor; [done..|apply alike_refl|done|lia]. }
  cbn. destruct (lookup_lt_is_Some_2 (frames (pool c)) (clock (pool c)) ltac:(lia)) as [f Hf].
  set (c1 := c <| pool ::= clock_step n |>).
  assert (Hs1 : swept c c1).
  { constructor; try done; [apply alike_refl|]. cbn. rewrite <- Hn. apply Nat.mod_upper_bound. lia. }
  unfold frame_mut, frame, mbind, stM_bind, on_pool, update_st, reads. fold c1.
  assert (Hf1 : frames (pool c1) !! clock (pool c) = Some f) by done.
  rewrite Hf1. cbn [fst]. destruct (_ || _) eqn:Ed.
  { destruct (IH c1) as (r & c' & He & Hs & Hr); [done|apply Hs1 || (cbn; apply Nat.mod_upper_bound; lia)|].
    exists r, c'. split; [done|]. split; [by eapply swept_trans|done]. }
  apply orb_false_iff in Ed as [_ Ed]. destruct (fr_referenced f) eqn:Er.
  - rewrite Hf1. cbn [fst].
    set (c2 := c1 <| pool ::= _ |>).
    assert (Hs2 : swept c c2).
    { constructor; try done; cbn; [|rewrite length_insert; apply Hs1]. by eapply alike_insert; [exact Hf|]. }
    destruct (IH c2) as (r & c' & He & Hs & Hr); [cbn; by rewrite length_insert| |].
    { assert (Hk := sw_clock _ _ Hs2). cbn in Hk |- *. rewrite length_insert in Hk. lia. }
    exists r, c'. split; [done|]. split; [by eapply swept_trans|done].
  - eexists _, _. split; [reflexivity|]. split; [done|]. intros i [= <-]. eauto.
Qed.

Lemma swept_resident c c' id : swept c c' -> match resident c' id with
  | Some g => exists g0, resident c id = Some g0 /\ alike g0 g
  | None => resident c id = None
  end.
Proof.
  intros Hs. unfold resident. rewrite (sw_map _ _ Hs). destruct (pool_map (pool c) !! id) as [i|]; cbn; [|done].
  destruct (frames (pool c') !! i) as [g|] eqn:E.
  - eapply Forall2_lookup_r in E as (g0 & Hg & Ha); [|apply Hs]. eauto.
  - apply lookup_ge_None. apply lookup_ge_None in E. by rewrite (Forall2_length _ _ _ (sw_frames _ _ Hs)).
Qed.

(** A push after a sweep (or none) places the page. *)
Lemma push_placed n c c1 f :
  pool_ok n c -> pool_ok n c1 -> swept c c1 \/ c1 = c -> resident c (fr_page_id f) = None ->
  exists i c', push_frame f c1 = (Ok i, c') /\ placed c c' i f.
Proof.
  intros Hp0 Hp Hs Hr. eexists _, _. split; [reflexivity|]. cbn.
  assert (Hr1 : pool_map (pool c1) !! fr_page_id f = None).
  { destruct (pool_map (pool c1) !! fr_page_id f) as [j|] eqn:E; [|done].
    apply (po_map _ _ Hp) in E as (g & Hg & Hid).
    assert (Hres : resident c1 (fr_page_id f) = Some g) by (rewrite <- Hid; by eapply frame_resident).
    destruct Hs as [Hs| ->]; [|congruence]. pose proof (swept_resident _ _ (fr_page_id f) Hs) as H. rewrite Hres in H.
    destruct H as (g0 & H & _). congruence. }
  constructor; cbn.
  - destruct Hs as [Hs| ->]; [apply Hs|done].
  - destruct Hs as [Hs| ->]; [apply Hs|done].
  - destruct (po_clock _ _ Hp) as [->|H]; [by left|right]. rewrite length_app. cbn. lia.
  - by rewrite lookup_app_r, Nat.sub_diag by done.
  - intros id j. destruct (decide (id = fr_page_id f)) as [->|Hne].
    + rewrite lookup_insert_eq. split.
      * intros [= <-]. exists f. by rewrite lookup_app_r, Nat.sub_diag by done.
      * intros (g & [Hg|[Hlen Hg]]%lookup_app_Some & Hid).
        -- assert (pool_map (pool c1) !! fr_page_id f = Some j) by (apply (po_map _ _ Hp); eauto). congruence.
        -- apply list_lookup_singleton_Some in Hg as [Hj _]. f_equal. lia.
    + rewrite lookup_insert_ne by done. rewrite (po_map _ _ Hp). split; intros (g & Hg & Hid); exists g; split; try done.
      * by apply lookup_app_l_Some.
      * apply lookup_app_Some in Hg as [Hg|[Hlen Hg]]; [done|]. apply list_lookup_singleton_Some in Hg as [_ <-]. done.
  - intros id Hne. unfold resident at 1. cbn. rewrite lookup_insert_ne by done.
    destruct (pool_map (pool c1) !! id) as [j|] eqn:Ej; cbn.
    + apply (po_map _ _ Hp) in Ej as (g & Hg & Hid). rewrite (lookup_app_l_Some _ _ _ _ Hg).
      assert (Hres : resident c1 id = Some g) by (rewrite <- Hid; by eapply frame_resident).
      destruct Hs as [Hs| ->]; [|exists g; split; [done|by split_and!]].
      pose proof (swept_resident _ _ id Hs) as H. by rewrite Hres in H.
    + intros g0 Hg0. exfalso. assert (resident c1 id = None) as E by (unfold resident; by rewrite Ej).
      destruct Hs as [Hs| ->]; [|congruence]. pose proof (swept_resident _ _ id Hs) as H. rewrite E in H. congruence.
Qed.

(** Replacing a clean victim after a sweep places the page. *)
Lemma replace_placed n c c1 i f old :
  pool_ok n c1 -> swept c c1 -> resident c (fr_page_id f) = None ->
  frames (pool c1) !! i = Some old -> fr_dirty old = false ->
  exists c', replace_frame i f c1 = (Ok i, c') /\ placed c c' i f.
Proof.
  intros Hp Hs Hr Hold Hcl. unfold replace_frame, frame, mbind, stM_bind. rewrite Hold. eexists. split; [reflexivity|]. cbn.
  assert (Hlt := lookup_lt_Some _ _ _ Hold).
  assert (Hmold : pool_map (pool c1) !! fr_page_id old = Some i) by (apply (po_map _ _ Hp); eauto).
  assert (Hnew : forall j g, frames (pool c1) !! j = Some g -> fr_page_id g <> fr_page_id f).
  { intros j g Hg Hid. pose proof (frame_resident _ _ _ _ Hp Hg) as Hres.
    pose proof (swept_resident _ _ (fr_page_id g) Hs) as H. rewrite Hres in H. destruct H as (g0 & H & _). congruence. }
  constructor; cbn; [apply Hs|apply Hs|right; rewrite length_insert; apply Hs|by rewrite list_lookup_insert_eq|..].
  - intros id j. destruct (decide (id = fr_page_id f)) as [->|Hne].
    + rewrite lookup_insert_eq. split.
      * intros [= <-]. exists f. by rewrite list_lookup_insert_eq.
      * intros (g & Hg & Hid). destruct (decide (j = i)) as [->|Hj]; [done|].
        rewrite list_lookup_insert_ne in Hg by done. by eapply Hnew in Hg.
    + rewrite lookup_insert_ne by done. destruct (decide (id = fr_page_id old)) as [->|Hno].
      * rewrite lookup_delete_eq. split; [done|]. intros (g & Hg & Hid). destruct (decide (j = i)) as [->|Hj].
        { rewrite list_lookup_insert_eq in Hg by done. simplify_eq. }
        rewrite list_lookup_insert_ne in Hg by done.
        assert (pool_map (pool c1) !! fr_page_id old = Some j) by (apply (po_map _ _ Hp); eauto). congruence.
      * rewrite lookup_delete_ne by done. rewrite (po_map _ _ Hp). split; intros (g & Hg & Hid); exists g; split; try done.
        -- rewrite list_lookup_insert_ne; [done|]. intros ->. congruence.
        -- rewrite list_lookup_insert_ne in Hg; [done|]. intros ->. rewrite list_lookup_insert_eq in Hg by done. congruence.
  - intros id Hne. unfold resident at 1. cbn. rewrite lookup_insert_ne by done.
    destruct (decide (id = fr_page_id old)) as [->|Hno].
    + rewrite lookup_delete_eq. cbn. intros g0 Hg0. pose proof (frame_resident _ _ _ _ Hp Hold) as Ho.
      pose proof (swept_resident _ _ (fr_page_id old) Hs) as H. rewrite Ho in H. destruct H as (g1 & H & (_ & Hd & _)). congruence.
    + rewrite lookup_delete_ne by done. pose proof (swept_resident _ _ id Hs) as H. unfold resident at 1 in H.
      destruct (pool_map (pool c1) !! id) as [j|] eqn:Ej; cbn in *; [|congruence].
      rewrite list_lookup_insert_ne; [|intros ->; apply (po_map _ _ Hp) in Ej as (g & Hg & Hid); congruence].
      destruct (frames (pool c1) !! j) eqn:E; [done|]. congruence.
Qed.

Lemma place_spec n c id bs :
  pool_ok n c -> resident c id = None ->
  (exists i c', place crc id bs c = (Ok i, c') /\ placed c c' i (new_frame crc id bs)) \/
  (exists c', place crc id bs c = (Err ResourceLimit, c') /\ pool_ok n c' /\ same c c').
Proof.
  intros Hp Hr. unfold place. cbn. unfold mbind, stM_bind. cbn.
  destruct (Z.ltb_spec (Z.of_nat (length (frames (pool c)))) (capacity (pool c))) as [Hlt|Hge].
  { left. by apply (push_placed n c c (new_frame crc id bs)); auto. }
  pose proof (po_capacity _ _ Hp) as Hcap.
  assert (Hck : (clock (pool c) < length (frames (pool c)))%nat) by (destruct (po_clock _ _ Hp); lia).
  destruct (evict_loop_spec (2 * length (frames (pool c)) + 1) _ c eq_refl Hck) as (r & c1 & He & Hs & Hv).
  assert (Hev : evict_one c = (Ok r, c1)) by exact He. rewrite Hev.
  destruct (alike_same n c c1 Hp (sw_io _ _ Hs) (sw_map _ _ Hs) (sw_frames _ _ Hs) (sw_capacity _ _ Hs)
    (or_intror (sw_clock _ _ Hs))) as [Hp1 Hsame].
  destruct r as [i|].
  - destruct (Hv i eq_refl) as (old & Hold & Hcl). left.
    destruct (replace_placed n c c1 i (new_frame crc id bs) old Hp1 Hs Hr Hold Hcl) as (c' & H1 & H2). eauto.
  - destruct (_ <=? _); [right; by exists c1|left]. by apply (push_placed n c c1 (new_frame crc id bs)); auto.
Qed.

(** *** The operations of the pool, for their clients *)
Lemma on_disk_length f id p : on_disk f id = Some p -> length p = Z.to_nat PAGE_SIZE.
Proof.
  unfold on_disk. destruct (read_page id f) as [q| |] eqn:E; [|done..]. destruct (is_ok _); [|done]. intros [= <-].
  unfold read_page in E. apply bind_ok_inv in E as (off & _ & E). case_in E as El; [|done]. simplify_eq.
  apply Z.eqb_eq in El. unfold zlen in El. lia.
Qed.
Lemma view_length n c id p : pool_ok n c -> view c id = Some p -> length p = Z.to_nat PAGE_SIZE.
Proof.
  intros Hp. unfold view. destruct (resident c id) as [f|] eqn:E; [intros [= <-]; by eapply po_length|apply on_disk_length].
Qed.

(** The frame [i] holds page [id] with contents [p]. *)
Definition holds (c : Cache) (i : nat) (id : Z) (p : bytes) : Prop :=
  exists f, frames (pool c) !! i = Some f /\ fr_page_id f = id /\ fr_bytes f = p.

Lemma holds_view n c i id p : pool_ok n c -> holds c i id p -> view c id = Some p.
Proof. intros Hp (f & Hf & <- & <-). unfold view. by rewrite (frame_resident _ _ _ _ Hp Hf). Qed.

Lemma placed_mut c c' i f g : placed c c' i f -> fr_page_id g = fr_page_id f ->
  placed c (c' <| pool ::= fun p => p <| frames ::= <[i := g]> |> |>) i g.
Proof.
  intros [I C K F M O] Hid. assert (Hlt := lookup_lt_Some _ _ _ F). constructor; cbn; try done.
  - by rewrite length_insert.
  - by rewrite list_lookup_insert_eq.
  - intros id j. rewrite M. destruct (decide (j = i)) as [->|Hj].
    + rewrite list_lookup_insert_eq by done. split; intros (h & Hh & <-); simplify_eq; eauto.
    + by rewrite list_lookup_insert_ne by done.
  - intros id Hne. rewrite Hid in Hne. specialize (O id Hne). unfold resident at 1. unfold resident at 1 in O. cbn.
    destruct (pool_map (pool c') !! id) as [j|] eqn:Ej; cbn in *; [|done].
    assert (j <> i) by (intros ->; apply M in Ej as (h & Hh & Hh'); congruence).
    by rewrite list_lookup_insert_ne by done.
Qed.

(** [fetch] of a readable page. *)
Lemma fetch_wp n c id p :
  pool_ok n c -> view c id = Some p -> 0 <= id < n ->
  wp (fetch crc id) c (fun i c' => pool_ok n c' /\ same c c' /\ holds c' i id p)
    (fun e c' => e = ResourceLimit /\ pool_ok n c' /\ same c c').
Proof.
  intros Hp Hv Hid. unfold fetch. apply st_wp_bind, st_wp_reads. destruct (pool_map (pool c) !! id) as [i|] eqn:Ei.
  - pose proof Ei as Ei'. apply (po_map _ _ Hp) in Ei' as (f & Hf & Hfid).
    assert (Hr : resident c id = Some f) by (rewrite <- Hfid; by eapply frame_resident).
    unfold view in Hv. rewrite Hr in Hv. simplify_eq.
    eapply st_wp_ok; [unfold frame_mut, frame, mbind, stM_bind; rewrite Hf; reflexivity|]. cbn.
    destruct (alike_same n c (c <| pool ::= fun p => p <| frames ::= <[i := f <| fr_referenced := true |>]> |> |>)) as [H1 H2];
      try done; cbn.
    + by eapply alike_insert.
    + rewrite length_insert. apply Hp.
    + split; [done|]. split; [done|]. eexists. cbn. rewrite list_lookup_insert_eq by by eapply lookup_lt_Some. eauto.
  - assert (Hr : resident c id = None) by (unfold resident; by rewrite Ei).
    unfold view in Hv. rewrite Hr in Hv. pose proof Hv as Hd. unfold on_disk in Hv.
    apply st_wp_bind. destruct (read_page id (io c)) as [q| |] eqn:Eq; [|done..]. destruct (is_ok _) eqn:Eok; [|done].
    simplify_eq. eapply st_wp_ok; [by rewrite Eq|]. apply st_wp_bind. destruct (page_read crc p id) as [h| |] eqn:Eh; [|done..].
    eapply st_wp_lift; [done|]. destruct (place_spec n c id p Hp Hr) as [(i & c' & He & Hpl)|(c' & He & H1 & H2)].
    + eapply st_wp_ok; [done|]. pose proof (on_disk_length _ _ _ Hd) as Hl.
      destruct (placed_spec n n c c' i _ Hp Hpl) as (H1 & H2 & H3); [lia|done|done|done|]. cbn in *.
      split; [done|]. split.
      * constructor; [|..|by rewrite (pl_io _ _ _ _ Hpl)]; intros x; rewrite ?H2, ?H3; destruct (Z.eqb_spec x id) as [->|]; [|done| |done].
        -- unfold view. by rewrite Hr.
        -- unfold dirty. by rewrite Hr.
      * eexists. split; [apply Hpl|done].
    + unfold wp. rewrite He. done.
Qed.

(** [insert_new] of a page that is not in the pool. *)
Lemma insert_new_wp n n' c id t lsn p :
  pool_ok n c -> n <= id < n' -> 0 <= id -> 
  page_write crc ((page_new t id) <| page_lsn := lsn |>) (zeros (Z.to_nat PAGE_SIZE)) = Ok p ->
  length p = Z.to_nat PAGE_SIZE ->
  wp (insert_new crc id t lsn) c
    (fun i c' => pool_ok n' c' /\ io c' = io c /\ holds c' i id p /\
       (forall x, view c' x = if x =? id then Some p else view c x) /\
       (forall x, dirty c' x = if x =? id then true else dirty c x))
    (fun e c' => e = ResourceLimit /\ pool_ok n c' /\ same c c').
Proof.
  intros Hp Hid H0 Hw Hl. unfold insert_new. apply st_wp_bind. eapply st_wp_lift; [exact Hw|]. apply st_wp_bind.
  assert (Hr : resident c id = None).
  { destruct (resident c id) as [f|] eqn:E; [|done]. pose proof (po_bound _ _ Hp _ _ E). lia. }
  destruct (place_spec n c id p Hp Hr) as [(i & c' & He & Hpl)|(c' & He & H1 & H2)]; [|unfold wp; by rewrite He].
  eapply st_wp_ok; [exact He|]. pose proof (pl_frame _ _ _ _ Hpl) as Hf. apply st_wp_bind.
  eapply st_wp_ok; [unfold frame_mut, frame, mbind, stM_bind; rewrite Hf; reflexivity|]. apply st_wp_ret.
  pose proof (placed_mut c c' i (new_frame crc id p) ((new_frame crc id p) <| fr_dirty := true |> <| fr_page_lsn := lsn |>) Hpl ltac:(done)) as Hpl'.
  destruct (placed_spec n n' c _ i _ Hp Hpl') as (H1 & H2 & H3); [lia|cbn; lia|done|done|].
  split; [exact H1|]. split; [apply Hpl|]. split; [|split; [exact H2|exact H3]].
  eexists. split; [apply Hpl'|done].
Qed.

(** Writing a page in its frame and marking it dirty. *)
Definition set_bytes (i : nat) (p : bytes) : stM Cache unit := frame_mut i (fun f => f <| fr_bytes := p |>).

Lemma store_wp n c i id p q lsn :
  pool_ok n c -> holds c i id p -> length q = Z.to_nat PAGE_SIZE ->
  wp (_ ← set_bytes i q; mark_dirty i lsn) c
    (fun _ c' => pool_ok n c' /\ io c' = io c /\ holds c' i id q /\
       (forall x, view c' x = if x =? id then Some q else view c x) /\
       (forall x, dirty c' x = if x =? id then true else dirty c x))
    (fun _ _ => False).
Proof.
  intros Hp (f & Hf & Hid & Hb) Hl. assert (Hlt := lookup_lt_Some _ _ _ Hf).
  apply st_wp_bind. eapply st_wp_ok; [unfold set_bytes, frame_mut, frame, mbind, stM_bind; rewrite Hf; reflexivity|].
  eapply st_wp_ok. { unfold mark_dirty, frame_mut, frame, mbind, stM_bind. cbn. rewrite list_lookup_insert_eq by done. reflexivity. }
  cbn. rewrite list_insert_insert, decide_True by done. set (g := MkFrame _ _ _ _ _ _).
  set (c' := MkCache _ _).
  assert (Hpl : placed c c' i g).
  { constructor; try done; cbn.
    - rewrite length_insert. apply Hp.
    - by rewrite list_lookup_insert_eq.
    - intros x j. rewrite (po_map _ _ Hp). destruct (decide (j = i)) as [->|Hj].
      + rewrite list_lookup_insert_eq by done. split; intros (h & Hh & <-); simplify_eq; eauto.
      + by rewrite list_lookup_insert_ne by done.
    - intros x Hne. unfold resident at 1. cbn. destruct (pool_map (pool c) !! x) as [j|] eqn:Ej; cbn.
      + pose proof Ej as (h & Hh & Hhid)%(po_map _ _ Hp). assert (j <> i) by (intros ->; congruence).
        rewrite list_lookup_insert_ne, Hh by done. exists h. split; [|by split_and!].
        rewrite <- Hhid. by eapply frame_resident.
      + unfold resident. rewrite Ej. done. }
  assert (Hr := frame_resident _ _ _ _ Hp Hf).
  destruct (placed_spec n n c c' i g Hp Hpl) as (H1 & H2 & H3); [lia|by eapply po_bound|done|done|].
  cbn in H2, H3. rewrite Hid in H2, H3. split; [done|]. split; [done|]. split; [|done].
  exists g. split; [apply Hpl|done].
Qed.

(** Consulting the injector changes nothing a client sees. *)
Lemma answered_same n c rest : pool_ok n c ->
  pool_ok n (c <| io := MkPageFile (pf_data (io c)) rest |>) /\ same c (c <| io := MkPageFile (pf_data (io c)) rest |>).
Proof. intros [M B C L K Q]. split; [by constructor|by constructor]. Qed.

Lemma io_at_wp c Q E : (forall a rest, Q a (c <| io := MkPageFile (pf_data (io c)) rest |>)) -> wp io_at c Q E.
Proof.
  intros HQ. unfold wp, io_at. destruct (pf_answers (io c)) as [|a rest] eqn:Ea; [|apply HQ].
  specialize (HQ NoFault []). destruct c as [p [d ans]]. cbn in *. by subst.
Qed.

Lemma io_fault_wp n c : pool_ok n c ->
  wp io_fault c (fun _ c' => pool_ok n c' /\ same c c') (fun e c' => e = Io /\ pool_ok n c' /\ same c c').
Proof.
  intros Hp. unfold io_fault. apply st_wp_bind, io_at_wp. intros a rest. destruct (answered_same n c rest Hp) as [H1 H2].
  destruct a; [by apply st_wp_ret|by apply st_wp_fail..].
Qed.

(** *** Writing to the file *)
Lemma umul_ok id : 0 <= id < 2 ^ 51 -> umul (E := ErrorCode) 64 id PAGE_SIZE = Ok (id * PAGE_SIZE).
Proof. intros H. unfold umul, checked_u. rewrite (proj2 (in_u_spec 64 (id * PAGE_SIZE))); [done|]. unfold PAGE_SIZE. lia. Qed.
Lemma umul_ok_inv id off : umul (E := ErrorCode) 64 id PAGE_SIZE = Ok off -> off = id * PAGE_SIZE /\ 0 <= id < 2 ^ 51.
Proof.
  unfold umul, checked_u. destruct (in_u 64 (id * PAGE_SIZE)) eqn:E; [|done]. intros [= <-].
  apply in_u_spec in E. unfold PAGE_SIZE in *. lia.
Qed.

Lemma write_at_length off (bs data : bytes) :
  length (data ++ zeros (off + length bs - length data)) = Nat.max (length data) (off + length bs).
Proof. rewrite length_app, zeros_length. lia. Qed.

Lemma write_at_same off bs data : sub off (off + length bs) (write_at off bs data) = bs.
Proof. unfold write_at. eapply sub_put_same; [apply write_at_length|lia|done]. Qed.
Lemma write_at_other a b off bs data :
  (b <= off \/ off + length bs <= a)%nat -> (b <= length data)%nat -> sub a b (write_at off bs data) = sub a b data.
Proof.
  intros H Hl. unfold write_at. rewrite (sub_put_other _ a b off bs _ (write_at_length off bs data)) by lia.
  by apply sub_app_l.
Qed.

Lemma sub_full_length a n (buf : bytes) : length (sub a (a + n) buf) = n -> n <> 0%nat -> (a + n <= length buf)%nat.
Proof. unfold sub. rewrite length_take, length_drop. lia. Qed.

Lemma on_disk_other f f' id id' bs :
  0 <= id' < 2 ^ 51 -> (length bs <= Z.to_nat PAGE_SIZE)%nat -> id <> id' ->
  pf_data f' = write_at (Z.to_nat (id' * PAGE_SIZE)) bs (pf_data f) ->
  forall p, on_disk f id = Some p -> on_disk f' id = Some p.
Proof.
  intros Hid' Hbs Hne Hf' p. unfold on_disk. destruct (read_page id f) as [q| |] eqn:Eq; [|done..].
  destruct (is_ok (page_read crc q id)) eqn:Eok; [|done]. intros [= <-].
  assert (read_page id f' = Ok q) as ->; [|by rewrite Eok].
  unfold read_page in *. apply bind_ok_inv in Eq as (off & Eoff & Eq). rewrite Eoff. cbn [mbind outcome_bind].
  apply umul_ok_inv in Eoff as [-> Hid]. case_in Eq as El; [|done]. simplify_eq. rewrite Hf'.
  pose proof El as El'. apply Z.eqb_eq in El'. unfold zlen in El'.
  assert (Hend : (Z.to_nat (id * PAGE_SIZE) + Z.to_nat PAGE_SIZE <= length (pf_data f))%nat) by (apply sub_full_length; [lia|done]).
  rewrite write_at_other; [by rewrite El| |done]. unfold PAGE_SIZE in *. lia.
Qed.

Lemma on_disk_same f f' id bs :
  0 <= id < 2 ^ 51 -> length bs = Z.to_nat PAGE_SIZE -> is_ok (page_read crc bs id) = true ->
  pf_data f' = write_at (Z.to_nat (id * PAGE_SIZE)) bs (pf_data f) -> on_disk f' id = Some bs.
Proof.
  intros Hid Hbs Hok Hf'. unfold on_disk, read_page. rewrite umul_ok by done. cbn [mbind outcome_bind].
  rewrite <- Hbs, Hf', write_at_same. unfold zlen. rewrite Hbs, Z2Nat.id by done. cbn. by rewrite Hok.
Qed.

(** The file after a write, or a torn write, of page [id]: every other valid
    page is intact. *)
Definition intact (id : Z) (f f' : PageFile) : Prop := forall x p, x <> id -> on_disk f x = Some p -> on_disk f' x = Some p.

Lemma write_page_wp c id src :
  0 <= id < 2 ^ 51 -> length src = Z.to_nat PAGE_SIZE ->
  wp (write_page id src) c
    (fun _ c' => pool c' = pool c /\ intact id (io c) (io c') /\
       (is_ok (page_read crc src id) = true -> on_disk (io c') id = Some src))
    (fun e c' => e = Io /\ pool c' = pool c /\ intact id (io c) (io c')).
Proof.
  intros Hid Hl. unfold write_page, io_fault.
  assert (Hi : forall d rest rest', intact id (MkPageFile d rest) (MkPageFile d rest')) by by intros d r r' x p _.
  apply st_wp_bind, st_wp_bind, io_at_wp. intros a rest. destruct c as [bp [d ans]]. cbn.
  destruct a; [|apply st_wp_fail; split_and!; [done|done|apply Hi]..].
  apply st_wp_ret, st_wp_bind. eapply st_wp_lift; [by apply umul_ok|]. apply st_wp_bind, io_at_wp. intros a rest'. cbn.
  assert (Hw : forall bs r, (length bs <= Z.to_nat PAGE_SIZE)%nat ->
    intact id (MkPageFile d ans) (MkPageFile (write_at (Z.to_nat (id * PAGE_SIZE)) bs d) r)).
  { intros bs r Hbs x p Hx. by apply (on_disk_other (MkPageFile d ans) _ x id bs). }
  assert (Hs : is_ok (page_read crc src id) = true ->
    on_disk (MkPageFile (write_at (Z.to_nat (id * PAGE_SIZE)) src d) rest') id = Some src).
  { intros Hok. by apply (on_disk_same (MkPageFile d ans) _ id src). }
  destruct a.
  - apply st_wp_update. cbn. split_and!; [done|apply Hw; lia|done].
  - apply st_wp_bind, st_wp_update, st_wp_fail. cbn. split_and!; [done|done|]. apply Hw. rewrite length_take. lia.
  - apply st_wp_update. cbn. split_and!; [done|apply Hw; lia|done].
Qed.

(** A write of a page that has no clean frame keeps the pool consistent. *)
Lemma intact_pool n c c' id :
  pool_ok n c -> pool c' = pool c -> intact id (io c) (io c') -> (resident c id = None \/ dirty c id = true) -> pool_ok n c'.
Proof.
  intros [M B C L K Q] Hp Hi Hr. assert (Hres : forall x, resident c' x = resident c x) by (intros x; unfold resident; by rewrite Hp).
  constructor; try (by rewrite Hp); try (intros x f; rewrite Hres; eauto).
  intros Hf Hd. apply Hi; [|eauto]. intros ->. unfold dirty in Hr. rewrite Hf, Hd in Hr. by destruct Hr.
Qed.
Lemma intact_view c c' id x p :
  pool c' = pool c -> intact id (io c) (io c') -> x <> id -> view c x = Some p -> view c' x = Some p.
Proof. intros Hp Hi Hx. unfold view, resident. rewrite Hp. destruct (_ ≫= _); [done|]. by apply Hi. Qed.

(** Moving a frame to the identifier under which its page was just written. *)
Lemma rekey_wp n n' c old new f bs :
  pool_ok n c -> resident c old = Some f -> new = old \/ n <= new -> 0 <= new < n' -> n <= n' ->
  length bs = Z.to_nat PAGE_SIZE -> on_disk (io c) new = Some bs ->
  wp (rekey old new bs) c
    (fun _ c' => pool_ok n' c' /\ io c' = io c /\
       (forall x, view c' x = if x =? new then Some bs else if x =? old then on_disk (io c) old else view c x) /\
       (forall x, dirty c' x = if (x =? new) || (x =? old) then false else dirty c x))
    (fun _ _ => False).
Proof.
  intros Hp Hr Hnew Hb Hn Hl Hd. unfold rekey. apply st_wp_bind, st_wp_reads.
  unfold resident in Hr. destruct (pool_map (pool c) !! old) as [i|] eqn:Ei; cbn in Hr; [|done].
  pose proof (lookup_lt_Some _ _ _ Hr) as Hlt. assert (Hfid := proj1 (po_map _ _ Hp old i) Ei). destruct Hfid as (f0 & Hf0 & Hfid).
  simplify_eq. apply st_wp_bind. eapply st_wp_ok; [unfold frame_mut, frame, mbind, stM_bind; rewrite Hr; reflexivity|].
  apply st_wp_update. cbn. set (g := MkFrame new _ _ _ _ _). set (c' := MkCache _ _).
  assert (Hfresh : forall j h, frames (pool c) !! j = Some h -> fr_page_id h = new -> new = fr_page_id f).
  { intros j h Hh Hid. destruct Hnew as [|Hge]; [done|]. pose proof (frame_resident _ _ _ _ Hp Hh) as Hx.
    apply (po_bound _ _ Hp) in Hx. lia. }
  assert (Hres : forall x, resident c' x = if x =? new then Some g else if x =? fr_page_id f then None else resident c x).
  { intros x. unfold resident. cbn. destruct (Z.eqb_spec x new) as [->|Hne].
    { rewrite lookup_insert_eq. cbn. by rewrite list_lookup_insert_eq. }
    rewrite lookup_insert_ne by done. destruct (Z.eqb_spec x (fr_page_id f)) as [->|Hne'].
    { by rewrite lookup_delete_eq. }
    rewrite lookup_delete_ne by done. destruct (pool_map (pool c) !! x) as [j|] eqn:Ej; cbn; [|done].
    rewrite list_lookup_insert_ne; [done|]. intros ->. apply (po_map _ _ Hp) in Ej as (h & Hh & Hid). congruence. }
  split; [|split_and!; [done|..]].
  - constructor.
    + intros x j. cbn. destruct (decide (x = new)) as [->|Hne].
      * rewrite lookup_insert_eq. split; [intros [= <-]; exists g; by rewrite list_lookup_insert_eq|].
        intros (h & Hh & Hid). destruct (decide (j = i)) as [->|Hj]; [done|]. rewrite list_lookup_insert_ne in Hh by done.
        pose proof (Hfresh j h Hh Hid) as ->. rewrite <- Hid in Ei.
        assert (pool_map (pool c) !! fr_page_id h = Some j) by (apply (po_map _ _ Hp); eauto). congruence.
      * rewrite lookup_insert_ne by done. destruct (decide (x = fr_page_id f)) as [->|Hne'].
        -- rewrite lookup_delete_eq. split; [done|]. intros (h & Hh & Hid). destruct (decide (j = i)) as [->|Hj].
           { rewrite list_lookup_insert_eq in Hh by done. by simplify_eq. }
           rewrite list_lookup_insert_ne in Hh by done.
           assert (pool_map (pool c) !! fr_page_id f = Some j) by (apply (po_map _ _ Hp); eauto). congruence.
        -- rewrite lookup_delete_ne, (po_map _ _ Hp) by done. split; intros (h & Hh & Hid); exists h; (split; [|done]).
           ++ rewrite list_lookup_insert_ne; [done|]. intros ->. congruence.
           ++ destruct (decide (j = i)) as [->|Hj]; [|by rewrite list_lookup_insert_ne in Hh].
              rewrite list_lookup_insert_eq in Hh by done. by simplify_eq.
    + intros x h. rewrite Hres. destruct (Z.eqb_spec x new) as [->|]; [done|]. destruct (x =? fr_page_id f); [done|].
      intros Hh%(po_bound _ _ Hp). lia.
    + intros x h. rewrite Hres. destruct (Z.eqb_spec x new) as [->|]; [by intros [= <-]|]. destruct (x =? fr_page_id f); [done|].
      apply Hp.
    + intros x h. rewrite Hres. destruct (Z.eqb_spec x new) as [->|]; [by intros [= <-]|]. destruct (x =? fr_page_id f); [done|].
      apply Hp.
    + cbn. rewrite length_insert. apply Hp.
    + apply Hp.
  - intros x. unfold view. rewrite Hres. destruct (x =? new); [done|]. by destruct (Z.eqb_spec x (fr_page_id f)) as [->|].
  - intros x. unfold dirty. rewrite Hres. destruct (x =? new); [done|]. by destruct (x =? fr_page_id f).
Qed.
End spec.
