(* ===== verification/SlotPage.v ===== *)
(** * Tree pages (src/crates/carolina-storage/src/btree.rs, entries and slotted
    pages)

    The byte form of leaf and internal entries, and the slotted page that holds
    a list of them: a slot array growing up from the header, records growing
    down from the end.  [page_is] is the abstraction: a page of a given
    identifier and type that holds a given list of records, and the lemmas say
    how reading, rewriting and the in-place insertion act on that list. *)

From S2P Require Import Prelude Errors StoreFormat BufferPool.

Definition MAX_KEY_LEN : Z := 2048.
Definition MAX_VALUE_LEN : Z := 1024 * 1024.
Definition MAX_INLINE_VALUE : Z := 1024.
Definition OVERFLOW_DATA_PER_PAGE : Z := PAGE_SIZE - PAGE_HEADER_LEN - 8.
Definition ENTRY_FLAG_TOMBSTONE : Z := 1.
Definition ENTRY_FLAG_OVERFLOW : Z := 128.

(** ** Entries *)
Record LeafEntry : Type := MkLeafEntry {
  le_key : bytes;
  le_seq : Z;
  le_txn_id : bytes;
  le_flags : Z;
  le_meta : bytes;
  le_value : bytes;
}.
#[global] Instance LeafEntry_eq_dec : EqDecision LeafEntry. Proof. solve_decision. Defined.
Definition is_tombstone (e : LeafEntry) : bool := negb (Z.land (le_flags e) ENTRY_FLAG_TOMBSTONE =? 0).
Definition is_overflow (e : LeafEntry) : bool := negb (Z.land (le_flags e) ENTRY_FLAG_OVERFLOW =? 0).

(** [LeafEntry::encode] and [LeafEntry::decode]. *)
Definition leaf_encode (e : LeafEntry) : bytes :=
  le_encode 2 (wrap_u 16 (zlen (le_key e))) ++ le_encode 8 (le_seq e) ++ le_txn_id e ++ [le_flags e]
  ++ le_encode 2 (wrap_u 16 (zlen (le_meta e))) ++ le_encode 4 (wrap_u 32 (zlen (le_value e)))
  ++ le_key e ++ le_meta e ++ le_value e.
Definition leaf_decode (b : bytes) : CoreResult LeafEntry :=
  if zlen b <? 49 then Err Corruption
  else
    let key_len := le_decode [byte_at 0 b; byte_at 1 b] in
    let seq := le_decode (sub 2 10 b) in
    let txn := sub 10 42 b in
    let flags := byte_at 42 b in
    let meta_len := le_decode [byte_at 43 b; byte_at 44 b] in
    let value_len := le_decode (sub 45 49 b) in
    let stop := 49 + key_len + meta_len + value_len in
    if (zlen b <? stop) || (MAX_KEY_LEN <? key_len) then Err Corruption
    else
      let k := Z.to_nat (49 + key_len) in
      let m := Z.to_nat (49 + key_len + meta_len) in
      Ok (MkLeafEntry (sub 49 k b) seq txn flags (sub k m b) (sub m (Z.to_nat stop) b)).

Record InternalEntry : Type := MkInternal { ie_key : bytes; ie_seq : Z; ie_child : Z }.
Definition leftmost (child : Z) : InternalEntry := MkInternal [] (2 ^ 64 - 1) child.
Definition internal_encode (e : InternalEntry) : bytes :=
  le_encode 2 (wrap_u 16 (zlen (ie_key e))) ++ le_encode 8 (ie_child e) ++ le_encode 8 (ie_seq e) ++ ie_key e.
Definition internal_decode (b : bytes) : CoreResult InternalEntry :=
  if zlen b <? 18 then Err Corruption
  else
    let key_len := le_decode [byte_at 0 b; byte_at 1 b] in
    if zlen b <? 18 + key_len then Err Corruption
    else Ok (MkInternal (sub 18 (Z.to_nat (18 + key_len)) b) (le_decode (sub 10 18 b)) (le_decode (sub 2 10 b))).

(** [leaf_cmp]: keys ascending, then sequence numbers descending. *)
Definition leaf_cmp (a_key : bytes) (a_seq : Z) (b_key : bytes) (b_seq : Z) : comparison :=
  match bytes_cmp a_key b_key with Eq => b_seq ?= a_seq | c => c end.

(** ** Slots *)
Definition slot_count (page : bytes) : Z := le_decode [byte_at 32 page; byte_at 33 page].
Definition page_free_start (page : bytes) : Z := le_decode [byte_at 34 page; byte_at 35 page].
Definition page_free_end (page : bytes) : Z := le_decode [byte_at 36 page; byte_at 37 page].
Definition free_space (page : bytes) : Z := saturating_sub (page_free_end page) (page_free_start page).
Definition type_of_page (page : bytes) : CoreResult PageType := page_type_from_u8 (byte_at 6 page).

Definition slot_off (i : Z) : Z := PAGE_HEADER_LEN + i * 4.
Definition page_slot (page : bytes) (i : Z) : CoreResult (Z * Z) :=
  let off := Z.to_nat (slot_off i) in
  if PAGE_SIZE <? slot_off i + 4 then Panic
  else Ok (le_decode [byte_at off page; byte_at (off + 1) page], le_decode [byte_at (off + 2) page; byte_at (off + 3) page]).
Definition page_record (page : bytes) (i : Z) : CoreResult bytes :=
  '(start, len) ← page_slot page i;
  if (start <? PAGE_HEADER_LEN) || (PAGE_SIZE <? start + len) then Err Corruption
  else Ok (sub (Z.to_nat start) (Z.to_nat (start + len)) page).

Definition records_size (records : list bytes) : Z := foldr (fun r n => zlen r + 4 + n) 0 records.

(** [write_records]: [None] when they do not fit, else the new page. *)
Definition set_slot (i start len : Z) (page : bytes) : bytes :=
  let off := Z.to_nat (slot_off i) in
  put (off + 2) (le_encode 2 (wrap_u 16 len)) (put off (le_encode 2 (wrap_u 16 start)) page).
Fixpoint write_slots (i stop : Z) (records : list bytes) (page : bytes) : bytes * Z :=
  match records with
  | [] => (page, stop)
  | r :: records' =>
      let stop := stop - zlen r in
      write_slots (i + 1) stop records' (set_slot i stop (zlen r) (put (Z.to_nat stop) r page))
  end.
Definition write_records (crc : bytes -> Z) (page : bytes) (header : PageHeader) (records : list bytes) :
    CoreResult (option bytes) :=
  if PAGE_SIZE <? PAGE_HEADER_LEN + records_size records then Ok None
  else
    let '(page, stop) := write_slots 0 PAGE_SIZE records page in
    let n := Z.of_nat (length records) in
    page ← page_write crc (header <| item_count := wrap_u 16 n |> <| free_start := wrap_u 16 (slot_off n) |>
                                    <| free_end := wrap_u 16 stop |>) page;
    Ok (Some page).

Definition read_records (page : bytes) : CoreResult (list bytes) :=
  collect (page_record page) (map Z.of_nat (seq 0 (Z.to_nat (slot_count page)))).

(** The fast path of [insert_version]: the record goes below [free_end], the
    slots from [pos] on shift by one. *)
Definition insert_record (crc : bytes -> Z) (id lsn pos : Z) (enc page : bytes) : CoreResult bytes :=
  header ← page_read crc page id;
  let n := slot_count page in
  let stop := page_free_end page - zlen enc in
  let page := put (Z.to_nat stop) enc page in
  let slots := sub (Z.to_nat (slot_off pos)) (Z.to_nat (slot_off n)) page in
  let page := set_slot pos stop (zlen enc) (put (Z.to_nat (slot_off pos + 4)) slots page) in
  page_write crc (header <| item_count := wrap_u 16 (n + 1) |> <| free_start := wrap_u 16 (slot_off (n + 1)) |>
                         <| free_end := wrap_u 16 stop |> <| page_lsn := lsn |>) page.

(** ** Entries read back *)
Definition entry_ok (e : LeafEntry) : Prop :=
  zlen (le_key e) <= MAX_KEY_LEN /\ in_u 64 (le_seq e) = true /\ length (le_txn_id e) = 32%nat /\
  zlen (le_meta e) < 2 ^ 16 /\ zlen (le_value e) < 2 ^ 32.
Definition internal_ok (e : InternalEntry) : Prop :=
  zlen (ie_key e) < 2 ^ 16 /\ in_u 64 (ie_seq e) = true /\ in_u 64 (ie_child e) = true.

Lemma sub_app_skip a b (l r : bytes) : (length l <= a)%nat -> sub a b (l ++ r) = sub (a - length l) (b - length l) r.
Proof. intros H. unfold sub. rewrite drop_app_ge by lia. f_equal. lia. Qed.
Lemma sub_app_here a b (l r : bytes) : a = 0%nat -> b = length l -> sub a b (l ++ r) = l.
Proof. intros -> ->. unfold sub. by rewrite drop_0, Nat.sub_0_r, take_app_length. Qed.

Lemma sub_whole a b (l : bytes) : a = 0%nat -> b = length l -> sub a b l = l.
Proof. intros -> ->. unfold sub. by rewrite drop_0, Nat.sub_0_r, firstn_all. Qed.

Lemma leaf_encode_length e : zlen (leaf_encode e) = 17 + zlen (le_txn_id e) + zlen (le_key e) + zlen (le_meta e) + zlen (le_value e).
Proof. unfold leaf_encode, zlen. rewrite !length_app, !le_encode_length. cbn [length]. lia. Qed.
Lemma internal_encode_length e : zlen (internal_encode e) = 18 + zlen (ie_key e).
Proof. unfold internal_encode, zlen. rewrite !length_app, !le_encode_length. lia. Qed.

(** [seek]: read a slice of a concatenation of pieces of known length. *)
Ltac seek :=
  repeat first
    [ rewrite sub_app_here by (rewrite ?le_encode_length; cbn [length]; lia)
    | rewrite sub_whole by (rewrite ?le_encode_length; cbn [length]; lia)
    | rewrite sub_app_skip by (rewrite ?le_encode_length; cbn [length]; lia);
      rewrite ?le_encode_length; cbn [length Nat.sub] ].

Lemma leaf_decode_encode e : entry_ok e -> leaf_decode (leaf_encode e) = Ok e.
Proof.
  intros (Hk & Hs & Ht & Hm & Hv). pose proof (leaf_encode_length e) as HL. unfold leaf_decode.
  assert (HT : zlen (le_txn_id e) = 32) by (unfold zlen; lia).
  assert (0 <= zlen (le_key e) /\ 0 <= zlen (le_meta e) /\ 0 <= zlen (le_value e)) by (unfold zlen; lia).
  destruct (Z.ltb_spec (zlen (leaf_encode e)) 49); [lia|].
  rewrite (pair_sub 0 1 2), (pair_sub 43 44 45) by (done || (unfold zlen in *; lia)).
  assert (E0 : sub 0 2 (leaf_encode e) = le_encode 2 (zlen (le_key e))).
  { unfold leaf_encode. rewrite (wrap_u_small 16 (zlen (le_key e))) by (unfold MAX_KEY_LEN in *; lia). by seek. }
  assert (E2 : sub 2 10 (leaf_encode e) = le_encode 8 (le_seq e)) by (unfold leaf_encode; by seek).
  assert (E10 : sub 10 42 (leaf_encode e) = le_txn_id e) by (unfold leaf_encode; by seek).
  assert (E42 : byte_at 42 (leaf_encode e) = le_flags e).
  { apply byte_at_sub. unfold leaf_encode. by seek. }
  assert (E43 : sub 43 45 (leaf_encode e) = le_encode 2 (zlen (le_meta e))).
  { unfold leaf_encode. rewrite (wrap_u_small 16 (zlen (le_meta e))) by lia. by seek. }
  assert (E45 : sub 45 49 (leaf_encode e) = le_encode 4 (zlen (le_value e))).
  { unfold leaf_encode. rewrite (wrap_u_small 32 (zlen (le_value e))) by lia. by seek. }
  rewrite E0, E2, E10, E42, E43, E45, !le_slot by (first [apply in_u_spec in Hs; lia|unfold MAX_KEY_LEN in *; lia]).
  destruct (Z.ltb_spec (zlen (leaf_encode e)) (49 + zlen (le_key e) + zlen (le_meta e) + zlen (le_value e))); [lia|].
  destruct (Z.ltb_spec MAX_KEY_LEN (zlen (le_key e))); [lia|]. cbn [orb].
  set (head := le_encode 2 (wrap_u 16 (zlen (le_key e))) ++ le_encode 8 (le_seq e) ++ le_txn_id e ++ [le_flags e]
    ++ le_encode 2 (wrap_u 16 (zlen (le_meta e))) ++ le_encode 4 (wrap_u 32 (zlen (le_value e)))).
  assert (Hh : leaf_encode e = head ++ le_key e ++ le_meta e ++ le_value e)
    by (unfold leaf_encode, head; by rewrite <- !app_assoc).
  assert (Hlh : length head = 49%nat) by (unfold head; rewrite !length_app, !le_encode_length, Ht; done).
  rewrite Hh. unfold zlen. seek. by destruct e.
Qed.

Lemma internal_decode_encode e : internal_ok e -> internal_decode (internal_encode e) = Ok e.
Proof.
  intros (Hk & Hs & Hc). pose proof (internal_encode_length e) as HL. unfold internal_decode.
  assert (0 <= zlen (ie_key e)) by (unfold zlen; lia).
  destruct (Z.ltb_spec (zlen (internal_encode e)) 18); [lia|].
  rewrite (pair_sub 0 1 2) by (done || (unfold zlen in *; lia)).
  assert (E0 : sub 0 2 (internal_encode e) = le_encode 2 (zlen (ie_key e))).
  { unfold internal_encode. rewrite (wrap_u_small 16 (zlen (ie_key e))) by lia. by seek. }
  assert (E2 : sub 2 10 (internal_encode e) = le_encode 8 (ie_child e)) by (unfold internal_encode; by seek).
  assert (E10 : sub 10 18 (internal_encode e) = le_encode 8 (ie_seq e)) by (unfold internal_encode; by seek).
  rewrite E0, E2, E10, !le_slot by (apply in_u_spec in Hs; apply in_u_spec in Hc; lia).
  destruct (Z.ltb_spec (zlen (internal_encode e)) (18 + zlen (ie_key e))); [lia|].
  unfold internal_encode, zlen. seek. by destruct e.
Qed.

(** ** The records of a page *)
Definition PS : nat := Z.to_nat PAGE_SIZE.

(** Slot [i] points to the record [r], at or above offset [lo]. *)
Definition slot_holds (p : bytes) (lo i : Z) (r : bytes) : Prop :=
  exists start, lo <= start /\ start + zlen r <= PAGE_SIZE /\
    sub (Z.to_nat (slot_off i)) (Z.to_nat (slot_off i) + 2) p = le_encode 2 start /\
    sub (Z.to_nat (slot_off i) + 2) (Z.to_nat (slot_off i) + 4) p = le_encode 2 (zlen r) /\
    sub (Z.to_nat start) (Z.to_nat (start + zlen r)) p = r.

Ltac plia := unfold PS, slot_off, PAGE_SIZE, PAGE_HEADER_LEN, zlen in *; rewrite ?le_encode_length in *; cbn [length] in *; lia.

Lemma slot_holds_record p lo i r :
  length p = PS -> 64 <= lo -> 0 <= i -> slot_off i + 4 <= PAGE_SIZE -> slot_holds p lo i r -> page_record p i = Ok r.
Proof.
  intros Hl Hlo Hi Hoff (start & H1 & H2 & Hs & Hn & Hr). unfold page_record, page_slot.
  destruct (Z.ltb_spec PAGE_SIZE (slot_off i + 4)); [lia|].
  rewrite (pair_sub _ _ (Z.to_nat (slot_off i) + 2)) by plia.
  rewrite (pair_sub (Z.to_nat (slot_off i) + 2) _ (Z.to_nat (slot_off i) + 4)) by plia.
  rewrite Hs, Hn. cbn [mbind outcome_bind]. rewrite !le_slot by plia.
  destruct (Z.ltb_spec start PAGE_HEADER_LEN); [plia|]. destruct (Z.ltb_spec PAGE_SIZE (start + zlen r)); [lia|]. cbn [orb].
  by rewrite Hr.
Qed.

Lemma slot_holds_other p p' lo lo' i r :
  slot_holds p lo i r -> lo' <= lo ->
  (forall a b, (Z.to_nat (slot_off i) <= a)%nat /\ (b <= Z.to_nat (slot_off i) + 4)%nat \/ (Z.to_nat lo <= a)%nat ->
     sub a b p' = sub a b p) ->
  0 <= lo -> slot_holds p' lo' i r.
Proof.
  intros (start & H1 & H2 & Hs & Hn & Hr) Hlo Hsub H0. exists start.
  split_and!; [lia|done|..]; rewrite Hsub by lia; done.
Qed.

Lemma set_slot_length i start len p : length p = PS -> 0 <= i -> slot_off i + 4 <= PAGE_SIZE -> length (set_slot i start len p) = PS.
Proof. intros H Hi Ho. unfold set_slot. rewrite (put_length PS); [done|rewrite (put_length PS); [done|done|plia]|plia]. Qed.
Lemma set_slot_other i start len p a b :
  length p = PS -> 0 <= i -> slot_off i + 4 <= PAGE_SIZE ->
  (b <= Z.to_nat (slot_off i) \/ Z.to_nat (slot_off i) + 4 <= a)%nat -> sub a b (set_slot i start len p) = sub a b p.
Proof.
  intros H Hi Ho Hab. unfold set_slot. rewrite (sub_put_other PS) by (first [apply put_length; [done|plia]|plia]).
  rewrite (sub_put_other PS) by (first [done|plia]). done.
Qed.
Lemma set_slot_holds i start r p lo :
  length p = PS -> 0 <= i -> slot_off i + 4 <= start -> lo <= start -> start + zlen r <= PAGE_SIZE ->
  sub (Z.to_nat start) (Z.to_nat (start + zlen r)) p = r -> slot_holds (set_slot i start (zlen r) p) lo i r.
Proof.
  intros H Hi Ho Hlo He Hr. exists start. split_and!; [done|done|..].
  - unfold set_slot. rewrite (sub_put_other PS) by (first [apply put_length; [done|plia]|plia]).
    rewrite (sub_put_same PS) by (first [done|plia]). by rewrite wrap_u_small by plia.
  - unfold set_slot. rewrite (sub_put_same PS) by (first [apply put_length; [done|plia]|plia]). by rewrite wrap_u_small by plia.
  - rewrite set_slot_other by plia. done.
Qed.

Lemma records_size_pos recs : 4 * Z.of_nat (length recs) <= records_size recs.
Proof. induction recs as [|r recs IH]; cbn [records_size foldr length]; [lia|]. fold (records_size recs). unfold zlen. lia. Qed.
Lemma records_size_app l r : records_size (l ++ r) = records_size l + records_size r.
Proof. induction l as [|x l IH]; cbn; [done|]. unfold records_size in *. lia. Qed.

Definition bytes_used (recs : list bytes) : Z := records_size recs - 4 * Z.of_nat (length recs).

Lemma write_slots_spec recs : forall i stop p,
  0 <= i -> length p = PS -> slot_off i + records_size recs <= stop -> stop <= PAGE_SIZE ->
  let '(p', stop') := write_slots i stop recs p in
  stop' = stop - bytes_used recs /\ length p' = PS /\
  (forall a b, (b <= Z.to_nat (slot_off i))%nat \/ (Z.to_nat stop <= a)%nat -> sub a b p' = sub a b p) /\
  (forall j r, recs !! j = Some r -> slot_holds p' stop' (i + Z.of_nat j) r).
Proof.
  induction recs as [|r recs IH]; intros i stop p Hi Hl Hfit Hs; cbn [write_slots].
  { split_and!; [unfold bytes_used; cbn; lia|done|done|done]. }
  cbn [records_size foldr] in Hfit. fold (records_size recs) in Hfit. pose proof (records_size_pos recs) as Hpos.
  assert (Hz : 0 <= zlen r) by (unfold zlen; lia).
  set (p1 := put (Z.to_nat (stop - zlen r)) r p). assert (Hl1 : length p1 = PS) by (apply put_length; [done|plia]).
  set (p2 := set_slot i (stop - zlen r) (zlen r) p1). assert (Hl2 : length p2 = PS) by (apply set_slot_length; plia).
  specialize (IH (i + 1) (stop - zlen r) p2 ltac:(lia) Hl2 ltac:(plia) ltac:(lia)).
  destruct (write_slots _ _ _ _) as [p' stop']. destruct IH as (-> & Hl' & Hsub & Hh). split_and!.
  - unfold bytes_used. cbn [records_size foldr length]. fold (records_size recs). lia.
  - done.
  - intros a b Hab. rewrite Hsub by plia. unfold p2. rewrite set_slot_other by plia. unfold p1. apply (sub_put_other PS); plia.
  - intros [|j] r' Hr.
    + cbn in Hr. simplify_eq. rewrite Z.add_0_r.
      apply (slot_holds_other p2 p' (stop - zlen r')); [|unfold bytes_used; lia|intros a b Hab; apply Hsub; plia|plia].
      apply set_slot_holds; [done|done|plia|lia|lia|]. unfold p1. apply (sub_put_same PS); plia.
    + replace (i + Z.of_nat (S j)) with (i + 1 + Z.of_nat j) by lia. by apply Hh.
Qed.

(** *** Pages as lists of records *)
Section pages.
Context (crc : bytes -> Z).
Context (crc_range : forall b, in_u 32 (crc b) = true).

(** The header of a page that holds [recs]. *)
Definition header_of (id : Z) (t : PageType) (recs : list bytes) (h : PageHeader) : Prop :=
  page_id h = id /\ page_type h = t /\ item_count h = Z.of_nat (length recs) /\
  free_start h = slot_off (Z.of_nat (length recs)) /\ free_end h = PAGE_SIZE - bytes_used recs.
Definition page_is (id : Z) (t : PageType) (recs : list bytes) (p : bytes) : Prop :=
  length p = PS /\ PAGE_HEADER_LEN + records_size recs <= PAGE_SIZE /\
  (exists h, page_read crc p id = Ok h /\ StoreFormat.page_ok h /\ header_of id t recs h) /\
  (forall j r, recs !! j = Some r -> slot_holds p (PAGE_SIZE - bytes_used recs) (Z.of_nat j) r).

Lemma page_read_fields p id h : page_read crc p id = Ok h ->
  slot_count p = item_count h /\ page_free_start p = free_start h /\ page_free_end p = free_end h /\
  type_of_page p = Ok (page_type h).
Proof.
  unfold page_read. do 4 (case_if; [done|]). intros (t & Ht & H)%bind_ok_inv. do 2 (case_if; [done|]). simplify_eq.
  unfold type_of_page. by rewrite Ht.
Qed.

Section one.
Context (id : Z) (t : PageType) (recs : list bytes) (p : bytes) (Hp : page_is id t recs p).

Lemma page_is_length : length p = PS.
Proof. apply Hp. Qed.
Lemma page_is_count : slot_count p = Z.of_nat (length recs).
Proof. destruct Hp as (_ & _ & (h & Hr & _ & (_ & _ & <- & _)) & _). by apply (page_read_fields p id). Qed.
Lemma page_is_type : type_of_page p = Ok t.
Proof. destruct Hp as (_ & _ & (h & Hr & _ & (_ & <- & _)) & _). by apply (page_read_fields p id). Qed.
Lemma page_is_free : free_space p = PAGE_SIZE - PAGE_HEADER_LEN - records_size recs.
Proof.
  destruct Hp as (_ & Hf & (h & Hr & _ & (_ & _ & _ & Hs & He)) & _).
  destruct (page_read_fields _ _ _ Hr) as (_ & Es & Ee & _). unfold free_space, saturating_sub. rewrite Es, Ee, Hs, He.
  unfold bytes_used, slot_off in *. lia.
Qed.
Lemma page_is_read : is_ok (page_read crc p id) = true.
Proof. destruct Hp as (_ & _ & (h & Hr & _) & _). by rewrite Hr. Qed.
Lemma page_is_record j r : recs !! j = Some r -> page_record p (Z.of_nat j) = Ok r.
Proof.
  intros Hj. destruct Hp as (Hl & Hf & _ & Hs). pose proof (lookup_lt_Some _ _ _ Hj) as Hlt.
  pose proof (records_size_pos recs). apply (slot_holds_record p (PAGE_SIZE - bytes_used recs)); try done.
  - unfold bytes_used. plia.
  - lia.
  - plia.
  - by apply Hs.
Qed.
Lemma page_is_records : read_records p = Ok recs.
Proof.
  unfold read_records. rewrite page_is_count, Nat2Z.id.
  assert (Hall : forall n k, (k + n = length recs)%nat ->
    collect (page_record p) (map Z.of_nat (seq k n)) = Ok (drop k recs)).
  { induction n as [|n IH]; intros k Hk; cbn.
    - by rewrite drop_ge by lia.
    - destruct (lookup_lt_is_Some_2 recs k ltac:(lia)) as [r Hr]. rewrite (page_is_record k r Hr). cbn.
      rewrite IH by lia. cbn. by rewrite (drop_S recs r k Hr). }
  rewrite Hall by lia. done.
Qed.
End one.

(** Replacing the header keeps the records. *)
Lemma page_write_is id t recs h p :
  length p = PS -> PAGE_HEADER_LEN + records_size recs <= PAGE_SIZE ->
  StoreFormat.page_ok h -> header_of id t recs h ->
  (forall j r, recs !! j = Some r -> slot_holds p (PAGE_SIZE - bytes_used recs) (Z.of_nat j) r) ->
  exists p', page_write crc h p = Ok p' /\ page_is id t recs p'.
Proof.
  intros Hl Hf Hok Hh Hs. destruct (page_read_write crc crc_range h p Hok ltac:(plia)) as (p' & Hw & Hr & Hz & Hd).
  exists p'. split; [done|]. destruct Hh as (Hid & Hh).
  assert (Hl' : length p' = PS) by plia.
  split_and!; [done|done|exists h; split_and!; [by rewrite <- Hid|done|done|apply Hh..]|].
  intros j r Hj. pose proof (lookup_lt_Some _ _ _ Hj) as Hlt. pose proof (records_size_pos recs).
  apply (slot_holds_other p p' (PAGE_SIZE - bytes_used recs)); [by apply Hs|lia| |unfold bytes_used; plia].
  intros a b Hab. assert (Ha : (64 <= a)%nat) by (unfold bytes_used in *; plia). unfold sub.
  rewrite <- (Nat.sub_add 64 a) by lia. rewrite (Nat.add_comm (a - 64)), <- !drop_drop. by rewrite Hd.
Qed.

Lemma header_update_ok h n fs fe lsn :
  StoreFormat.page_ok h -> in_u 64 lsn = true -> 0 <= n < 2 ^ 16 -> PAGE_HEADER_LEN <= fs <= fe -> fe <= PAGE_SIZE ->
  StoreFormat.page_ok (h <| item_count := n |> <| free_start := fs |> <| free_end := fe |> <| page_lsn := lsn |>).
Proof.
  intros (H1 & H2 & H3 & H4) Hlsn Hn Hfs Hfe. unfold StoreFormat.page_ok. cbn.
  repeat rewrite Forall_cons in H2. destruct_and!. unfold PAGE_SIZE, PAGE_HEADER_LEN in *.
  split_and!; try lia; repeat constructor; try done; apply in_u_spec; lia.
Qed.

(** [write_records] into a page: the new records if they fit, and otherwise
    nothing is touched. *)
Lemma write_records_is id t old h p recs lsn :
  length p = PS -> StoreFormat.page_ok h -> header_of id t old h -> in_u 64 lsn = true ->
  if PAGE_HEADER_LEN + records_size recs <=? PAGE_SIZE
  then exists p', write_records crc p (h <| page_lsn := lsn |>) recs = Ok (Some p') /\ page_is id t recs p'
  else write_records crc p (h <| page_lsn := lsn |>) recs = Ok None.
Proof.
  intros Hl Hok (Hid & Ht & _) Hlsn. unfold write_records. pose proof (records_size_pos recs).
  destruct (Z.leb_spec (PAGE_HEADER_LEN + records_size recs) PAGE_SIZE) as [Hfit|Hfit];
    destruct (Z.ltb_spec PAGE_SIZE (PAGE_HEADER_LEN + records_size recs)); try lia; [|done].
  pose proof (write_slots_spec recs 0 PAGE_SIZE p ltac:(lia) Hl ltac:(plia) ltac:(lia)) as Hw.
  destruct (write_slots _ _ _ _) as [p1 stop]. destruct Hw as (-> & Hl1 & _ & Hs).
  rewrite !wrap_u_small by (unfold bytes_used; plia).
  destruct (page_write_is id t recs (h <| page_lsn := lsn |> <| item_count := Z.of_nat (length recs) |>
    <| free_start := slot_off (Z.of_nat (length recs)) |> <| free_end := PAGE_SIZE - bytes_used recs |>) p1) as (p' & Hw & Hp').
  - done.
  - done.
  - apply (header_update_ok h (Z.of_nat (length recs)) (slot_off (Z.of_nat (length recs))) (PAGE_SIZE - bytes_used recs) lsn);
      [done|done|unfold bytes_used; plia..].
  - done.
  - apply Hs.
  - exists p'. rewrite Hw. done.
Qed.

Lemma sub_put_in a b off (bs buf : bytes) :
  (off + length bs <= length buf)%nat -> (off <= a)%nat -> (b <= off + length bs)%nat ->
  sub a b (put off bs buf) = sub (a - off) (b - off) bs.
Proof.
  intros Hl Ha Hb. unfold put. rewrite sub_app_skip by (rewrite length_take; lia).
  rewrite length_take, Nat.min_l by lia. destruct (decide (b <= a)%nat) as [|Hlt].
  { unfold sub. by replace (b - off - (a - off))%nat with 0%nat by lia. }
  apply sub_app_l. lia.
Qed.
Lemma sub_sub a b c d (buf : bytes) : (c + b <= d)%nat -> sub a b (sub c d buf) = sub (c + a) (c + b) buf.
Proof.
  intros H. unfold sub. rewrite skipn_firstn_comm, take_take, drop_drop. f_equal; lia.
Qed.

(** The fast path inserts the record at its position. *)
Lemma insert_record_is id t recs p pos enc lsn :
  page_is id t recs p -> (pos <= length recs)%nat -> zlen enc + 4 <= free_space p -> in_u 64 lsn = true ->
  exists p', insert_record crc id lsn (Z.of_nat pos) enc p = Ok p' /\
    page_is id t (take pos recs ++ enc :: drop pos recs) p'.
Proof.
  intros Hp Hpos Hfree Hlsn. rewrite (page_is_free _ _ _ _ Hp) in Hfree. pose proof (page_is_count _ _ _ _ Hp) as Hcnt.
  destruct Hp as (Hl & Hfit & (h & Hr & Hok & (Hid & Ht & Hn & Hfs & Hfe)) & Hs).
  destruct (page_read_fields _ _ _ Hr) as (_ & _ & Ee & _). unfold insert_record. rewrite Hr, Hcnt, Ee, Hfe.
  cbn [mbind outcome_bind]. set (n := length recs) in *. set (new := take pos recs ++ enc :: drop pos recs).
  assert (Hsz : records_size new = records_size recs + zlen enc + 4).
  { unfold new. rewrite records_size_app. cbn [records_size foldr]. fold (records_size (drop pos recs)).
    rewrite <- (take_drop pos recs) at 3. rewrite records_size_app. lia. }
  assert (Hlen : length new = S n) by (unfold new; rewrite length_app, length_take; cbn; rewrite length_drop; unfold n; lia).
  assert (Hused : PAGE_SIZE - bytes_used recs - zlen enc = PAGE_SIZE - bytes_used new) by (unfold bytes_used; rewrite Hsz, Hlen; lia).
  rewrite Hused. set (stop := PAGE_SIZE - bytes_used new) in *.
  pose proof (records_size_pos recs) as Hrs. fold n in Hrs. assert (Hz : 0 <= zlen enc) by (unfold zlen; lia).
  assert (Hstop : slot_off (Z.of_nat n + 1) <= stop /\ stop + zlen enc = PAGE_SIZE - bytes_used recs /\ stop + zlen enc <= PAGE_SIZE /\ 64 <= stop)
    by (unfold stop, bytes_used in *; rewrite Hsz, Hlen in *; plia).
  destruct Hstop as (Hst & Hse & Hst2 & Hst3).
  set (p1 := put (Z.to_nat stop) enc p). assert (Hl1 : length p1 = PS) by (apply put_length; [done|plia]).
  set (slots := sub (Z.to_nat (slot_off (Z.of_nat pos))) (Z.to_nat (slot_off (Z.of_nat n))) p1).
  assert (Hls : length slots = (4 * (n - pos))%nat) by (unfold slots, sub; rewrite length_take, length_drop, Hl1; plia).
  set (p2 := put (Z.to_nat (slot_off (Z.of_nat pos) + 4)) slots p1).
  assert (Hl2 : length p2 = PS) by (apply put_length; [done|rewrite Hls; plia]).
  set (p3 := set_slot (Z.of_nat pos) stop (zlen enc) p2). assert (Hl3 : length p3 = PS) by (apply set_slot_length; plia).
  rewrite !wrap_u_small by plia.
  destruct (page_write_is id t new (h <| item_count := Z.of_nat n + 1 |> <| free_start := slot_off (Z.of_nat n + 1) |>
    <| free_end := stop |> <| page_lsn := lsn |>) p3) as (p' & Hw & Hp').
  - done.
  - rewrite Hsz. plia.
  - apply (header_update_ok h (Z.of_nat n + 1) (slot_off (Z.of_nat n + 1)) stop lsn); [done|done|plia..].
  - unfold header_of. cbn. rewrite Hlen. split_and!; [done|done|lia|f_equal; lia|done].
  - fold stop. intros j r Hj.
    (* slots below, at and above the new one *)
    assert (Hfar : forall a b, (b <= Z.to_nat (slot_off (Z.of_nat pos)))%nat \/ (Z.to_nat (stop + zlen enc) <= a)%nat -> sub a b p3 = sub a b p).
    { intros a b Hab. unfold p3. rewrite set_slot_other by plia. unfold p2. rewrite (sub_put_other PS) by (rewrite ?Hls; plia).
      unfold p1. apply (sub_put_other PS); plia. }
    destruct (decide (j < pos)%nat) as [Hlt|Hge]; [|destruct (decide (j = pos)) as [->|Hne]].
    + unfold new in Hj. rewrite lookup_app_l, lookup_take_lt in Hj by (rewrite ?length_take; lia).
      apply (slot_holds_other p p3 (PAGE_SIZE - bytes_used recs)); [by apply Hs|lia| |plia].
      intros a b Hab. apply Hfar. plia.
    + unfold new in Hj. rewrite lookup_app_r, length_take, Nat.min_l, Nat.sub_diag in Hj by (rewrite ?length_take; lia).
      cbn in Hj. simplify_eq. apply set_slot_holds; [done|lia|plia|lia|lia|].
      unfold p2. rewrite (sub_put_other PS) by (rewrite ?Hls; plia). unfold p1. apply (sub_put_same PS); plia.
    + unfold new in Hj. rewrite lookup_app_r, length_take, Nat.min_l in Hj by (rewrite ?length_take; lia).
      destruct (j - pos)%nat as [|k] eqn:Ek; [lia|]. change (drop pos recs !! k = Some r) in Hj. rewrite lookup_drop in Hj.
      replace (pos + k)%nat with (j - 1)%nat in Hj by lia. pose proof (lookup_lt_Some _ _ _ Hj) as Hjl. fold n in Hjl.
      destruct (Hs _ _ Hj) as (start & S1 & S2 & S3 & S4 & S5).
      assert (Hshift : forall d e, (d <= e <= 4)%nat -> sub (Z.to_nat (slot_off (Z.of_nat j)) + d) (Z.to_nat (slot_off (Z.of_nat j)) + e) p3 =
        sub (Z.to_nat (slot_off (Z.of_nat (j - 1))) + d) (Z.to_nat (slot_off (Z.of_nat (j - 1))) + e) p).
      { intros d e Hde. unfold p3. rewrite set_slot_other by plia. unfold p2. rewrite sub_put_in by (rewrite ?Hls; plia).
        unfold slots. rewrite sub_sub by plia. unfold p1. rewrite (sub_put_other PS) by plia. f_equal; plia. }
      exists start. split_and!; [lia|done|..].
      * pose proof (Hshift 0 2 ltac:(lia))%nat as H. rewrite !Nat.add_0_r in H. by rewrite H.
      * by rewrite Hshift by lia.
      * rewrite Hfar by plia. done.
  - exists p'. split; [exact Hw|done].
Qed.

(** A fresh page, as [insert_new] formats it. *)
Lemma blank_page_is id t lsn : in_u 64 id = true -> in_u 64 lsn = true ->
  exists p, page_write crc ((page_new t id) <| page_lsn := lsn |>) (zeros (Z.to_nat PAGE_SIZE)) = Ok p /\ page_is id t [] p.
Proof.
  intros Hid Hlsn. apply page_write_is; [apply zeros_length|done|..].
  - split_and!; [done|repeat constructor; done|repeat constructor; done|done|done|done].
  - by split_and!.
  - intros j r Hj. done.
Qed.

(** The page under another identifier, as a checkpoint writes it. *)
Lemma rename_page_is id id' t recs p lsn : page_is id t recs p -> in_u 64 id' = true -> in_u 64 lsn = true ->
  exists h p', page_read crc p id = Ok h /\ page_write crc (h <| page_id := id' |> <| page_lsn := lsn |>) p = Ok p' /\ page_is id' t recs p'.
Proof.
  intros (Hl & Hfit & (h & Hr & (O1 & O2 & O3 & O4) & (Hid & Ht & Hn & Hfs & Hfe)) & Hs) Hid' Hlsn. exists h.
  destruct (page_write_is id' t recs (h <| page_id := id' |> <| page_lsn := lsn |>) p) as (p' & Hw & Hp').
  - done.
  - done.
  - repeat rewrite Forall_cons in O2. destruct_and!. split_and!; try done; repeat constructor; done.
  - by split_and!.
  - done.
  - by exists p'.
Qed.
End pages.
