(* ===== verification/BTree.v ===== *)
(** * The B+Tree (src/crates/carolina-storage/src/btree.rs, struct BTree)

    Lookup, insertion with splits, overflow chains, scans, copy-on-write
    persistence with version reclamation, and structural verification, over
    pages behind the buffer pool.  The log sequence number stamped on changed
    pages ([TreeCtx::current_lsn]) is the parameter [lsn]; [durable_lsn] is not
    used by the pool's operations that the tree calls.  The counter [splits] is
    a statistic and left out. *)

From stdpp Require Import gmap.
From S2P Require Import Prelude Errors StateMonad StoreFormat Journal BufferPool SlotPage.

Record Tree : Type := MkTree { t_root : Z; t_next : Z; t_cache : Cache }.
#[global] Instance Tree_eta : Eta Tree := fun t => MkTree (t_root t) (t_next t) (t_cache t).

(** A path from the root: page identifiers and the entries taken. *)
Abbreviation Path := (list (Z * Z)).

Definition in_cache {A} (m : stM Cache A) : stM Tree A := fun t =>
  let '(r, c) := m (t_cache t) in (r, t <| t_cache := c |>).

Definition range (n : Z) : list Z := map Z.of_nat (seq 0 (Z.to_nat n)).

(** Physical positions: a key and a sequence number. *)
Abbreviation Pos_ := (bytes * Z)%type.
Definition pos_lt (a b : Pos_) : bool := match leaf_cmp a.1 a.2 b.1 b.2 with Lt => true | _ => false end.

Section tree.
Context (crc : bytes -> Z) (lsn : Z).

(** [BTree::alloc]. *)
Definition alloc : stM Tree Z :=
  id ← reads t_next;
  next ← lift (uadd 64 id 1);
  _ ← update_st (fun t => t <| t_next := next |>);
  mret id.

(** [Self::fetch(ctx, id)?] and the bytes of the frame. *)
Definition fetch_page (id : Z) : stM Tree (nat * bytes) :=
  i ← in_cache (fetch crc id);
  f ← in_cache (frame i);
  mret (i, fr_bytes f).

(** [BTree::open] and [BTree::create]. *)
Definition tree_open (root next_page_id : Z) (c : Cache) : Tree := MkTree root next_page_id c.
Definition tree_create : stM Tree unit :=
  root ← alloc;
  _ ← in_cache (insert_new crc root Leaf lsn);
  update_st (fun t => t <| t_root := root |>).

(** ** Descent *)
(** The loop over the separators of an internal page: the last entry whose
    separator is not after [(key, seq)]. *)
Fixpoint child_index (page : bytes) (todo : list Z) (idx : Z) (key : bytes) (seq : Z) : CoreResult Z :=
  match todo with
  | [] => Ok idx
  | i :: todo' =>
      r ← page_record page i;
      e ← internal_decode r;
      match leaf_cmp (ie_key e) (ie_seq e) key seq with
      | Gt => Ok idx
      | _ => child_index page todo' i key seq
      end
  end.

Definition MAX_DEPTH : nat := 64.

Fixpoint descend_from (fuel : nat) (path : Path) (pid : Z) (key : bytes) (seq : Z) : stM Tree Path :=
  match fuel with
  | O => fail Corruption
  | S fuel' =>
      '(_, page) ← fetch_page pid;
      t ← lift (type_of_page page);
      match t with
      | Leaf => mret (path ++ [(pid, 0)])
      | Internal =>
          let n := slot_count page in
          match n =? 0 with
          | true => fail Corruption
          | false =>
              idx ← lift (child_index page (drop 1 (range n)) 0 key seq);
              e ← lift (r ← page_record page idx; internal_decode r);
              descend_from fuel' (path ++ [(pid, idx)]) (ie_child e) key seq
          end
      | _ => fail Corruption
      end
  end.
Definition descend (key : bytes) (seq : Z) : stM Tree Path :=
  root ← reads t_root; descend_from MAX_DEPTH [] root key seq.

(** [*path.last().unwrap()]. *)
Definition path_leaf (path : Path) : CoreResult Z := match last path with Some (id, _) => Ok id | None => Panic end.

(** ** Neighbours *)
Fixpoint leftmost_path (fuel : nat) (path : Path) (pid : Z) : stM Tree Path :=
  match fuel with
  | O => fail Corruption
  | S fuel' =>
      '(_, page) ← fetch_page pid;
      t ← lift (type_of_page page);
      match t with
      | Leaf => mret (path ++ [(pid, 0)])
      | Internal =>
          e ← lift (r ← page_record page 0; internal_decode r);
          leftmost_path fuel' (path ++ [(pid, 0)]) (ie_child e)
      | _ => fail Corruption
      end
  end.
(** The ancestors of the leaf, nearest first. *)
Fixpoint next_sibling (ancestors : Path) : stM Tree (option Path) :=
  match ancestors with
  | [] => mret None
  | (ppid, idx) :: rest =>
      '(_, page) ← fetch_page ppid;
      match idx + 1 <? slot_count page with
      | true =>
          e ← lift (r ← page_record page (idx + 1); internal_decode r);
          p ← leftmost_path MAX_DEPTH (rev rest ++ [(ppid, idx + 1)]) (ie_child e);
          mret (Some p)
      | false => next_sibling rest
      end
  end.
Definition right_neighbor_path (path : Path) : stM Tree (option Path) := next_sibling (rev (removelast path)).

(** ** Reading a version *)
Inductive LeafScan : Type := Found (e : LeafEntry) | Absent | Beyond (last_key : option bytes).
Fixpoint leaf_find (page : bytes) (todo : list Z) (key : bytes) (visible_seq : Z) (last_key : option bytes) : CoreResult LeafScan :=
  match todo with
  | [] => Ok (Beyond last_key)
  | i :: todo' =>
      r ← page_record page i;
      e ← leaf_decode r;
      match bytes_cmp (le_key e) key with
      | Lt => leaf_find page todo' key visible_seq (Some (le_key e))
      | Gt => Ok Absent
      | Eq => if le_seq e <=? visible_seq then Ok (Found e) else leaf_find page todo' key visible_seq (Some (le_key e))
      end
  end.
Fixpoint get_loop (fuel : nat) (path : Path) (key : bytes) (visible_seq : Z) : stM Tree (option LeafEntry) :=
  match fuel with
  | O => fail Corruption
  | S fuel' =>
      leaf ← lift (path_leaf path);
      '(_, page) ← fetch_page leaf;
      s ← lift (leaf_find page (range (slot_count page)) key visible_seq None);
      match s with
      | Found e => mret (Some e)
      | Absent => mret None
      | Beyond last_key =>
          match match last_key with Some k => bytes_ltb key k | None => false end with
          | true => mret None
          | false =>
              next ← right_neighbor_path path;
              match next with
              | Some path' => get_loop fuel' path' key visible_seq
              | None => mret None
              end
          end
      end
  end.
Definition GET_GUARD : nat := Z.to_nat 1000000.
Definition get_version (key : bytes) (visible_seq : Z) : stM Tree (option LeafEntry) :=
  path ← descend key (2 ^ 64 - 1);
  get_loop GET_GUARD path key visible_seq.

(** ** Overflow chains *)
(** [value.chunks(n)]. *)
Fixpoint chunks (fuel n : nat) (l : bytes) : list bytes :=
  match fuel with
  | O => []
  | S fuel' => match l with [] => [] | _ => take n l :: chunks fuel' n (drop n l) end
  end.
Definition overflow_page (id next : Z) (chunk page : bytes) : CoreResult bytes :=
  header ← page_read crc page id;
  let page := put (Z.to_nat PAGE_HEADER_LEN) chunk page in
  let page := put (Z.to_nat (PAGE_SIZE - 8)) (le_encode 8 next) page in
  page_write crc (header <| item_count := wrap_u 16 (zlen chunk) |>
                         <| free_start := wrap_u 16 (PAGE_HEADER_LEN + zlen chunk) |>
                         <| free_end := wrap_u 16 (PAGE_SIZE - 8) |> <| page_lsn := lsn |>) page.
(** One turn of the loop over the pieces, from the last to the first. *)
Definition write_piece (next : Z) (chunk : bytes) : stM Tree Z :=
  id ← alloc;
  i ← in_cache (insert_new crc id Overflow lsn);
  f ← in_cache (frame i);
  page ← lift (overflow_page id next chunk (fr_bytes f));
  _ ← in_cache (_ ← set_bytes i page; mark_dirty i lsn);
  mret id.
Fixpoint write_chain (cs : list bytes) (next : Z) : stM Tree Z :=
  match cs with
  | [] => mret next
  | chunk :: cs' => id ← write_piece next chunk; write_chain cs' id
  end.
Definition write_overflow (value : bytes) : stM Tree Z :=
  write_chain (rev (chunks (length value) (Z.to_nat OVERFLOW_DATA_PER_PAGE) value)) 0.

(** [BTree::read_value]. *)
Definition CHAIN_GUARD : nat := Z.to_nat 1000000.
Fixpoint read_chain (fuel : nat) (pid : Z) (out : bytes) : stM Tree bytes :=
  match pid =? 0 with
  | true => mret out
  | false =>
      match fuel with
      | O => fail Corruption
      | S fuel' =>
          '(_, page) ← fetch_page pid;
          t ← lift (type_of_page page);
          match bool_decide (t = Overflow) with
          | false => fail Corruption
          | true =>
              let len := slot_count page in
              match PAGE_SIZE <? PAGE_HEADER_LEN + len with
              | true => lift Panic
              | false =>
                  read_chain fuel' (le_decode (sub (Z.to_nat (PAGE_SIZE - 8)) (Z.to_nat PAGE_SIZE) page))
                    (out ++ sub (Z.to_nat PAGE_HEADER_LEN) (Z.to_nat (PAGE_HEADER_LEN + len)) page)
              end
          end
      end
  end.
Definition read_value (e : LeafEntry) : stM Tree bytes :=
  match is_overflow e with
  | false => mret (le_value e)
  | true =>
      match zlen (le_value e) =? 12 with
      | false => fail Corruption
      | true =>
          let pid := le_decode (sub 0 8 (le_value e)) in
          let total := le_decode (sub 8 12 (le_value e)) in
          out ← read_chain CHAIN_GUARD pid [];
          match zlen out =? total with true => mret out | false => fail Corruption end
      end
  end.

(** ** Insertion *)
(** Rewrite the page in frame [i] with the given records, if they fit. *)
Definition rewrite_frame (i : nat) (id : Z) (records : list bytes) : stM Tree bool :=
  f ← in_cache (frame i);
  header ← lift (page_read crc (fr_bytes f) id);
  w ← lift (write_records crc (fr_bytes f) (header <| page_lsn := lsn |>) records);
  match w with
  | Some page => _ ← in_cache (_ ← set_bytes i page; mark_dirty i lsn); mret true
  | None => mret false
  end.
Definition rewrite_page (id : Z) (records : list bytes) : stM Tree bool :=
  i ← in_cache (fetch crc id); rewrite_frame i id records.
Definition new_page (id : Z) (t : PageType) (records : list bytes) : stM Tree bool :=
  i ← in_cache (insert_new crc id t lsn);
  rewrite_frame i id records.

Definition split_fault : stM Tree unit := in_cache io_fault.

(** The split of a full internal page: the entry that moves up, and the new
    page. *)
Definition split_node (ppid : Z) (records : list bytes) : stM Tree (Pos_ * Z) :=
  _ ← split_fault;
  let split := (length records / 2)%nat in
  mid ← lift (match records !! split with Some r => internal_decode r | None => Panic end);
  right_id ← alloc;
  lfits ← rewrite_page ppid (take split records);
  match lfits with
  | false => fail Corruption
  | true =>
      rfits ← new_page right_id Internal (internal_encode (leftmost (ie_child mid)) :: drop (S split) records);
      match rfits with
      | false => fail Corruption
      | true => mret ((ie_key mid, ie_seq mid), right_id)
      end
  end.

(** [BTree::insert_separator], up the reversed path. *)
Fixpoint insert_separator (ancestors : Path) (key : bytes) (seq right_child : Z) : stM Tree unit :=
  match ancestors with
  | [] =>
      old_root ← reads t_root;
      new_root ← alloc;
      _ ← new_page new_root Internal [internal_encode (leftmost old_root); internal_encode (MkInternal key seq right_child)];
      update_st (fun t => t <| t_root := new_root |>)
  | (ppid, idx) :: rest =>
      '(i, page) ← fetch_page ppid;
      old ← lift (read_records page);
      records ← lift (if Z.of_nat (length old) <? idx + 1 then Panic
                      else Ok (take (Z.to_nat (idx + 1)) old ++ internal_encode (MkInternal key seq right_child)
                                 :: drop (Z.to_nat (idx + 1)) old));
      fits ← rewrite_frame i ppid records;
      match fits with
      | true => mret tt
      | false =>
          '(mid, right_id) ← split_node ppid records;
          insert_separator rest mid.1 mid.2 right_id
      end
  end.

(** The balance point of a leaf split. *)
Fixpoint balance (i acc half len : Z) (records : list bytes) (dflt : Z) : Z :=
  match records with
  | [] => dflt
  | r :: records' =>
      let acc := acc + zlen r + 4 in
      if half <=? acc then Z.max (Z.min (i + 1) (len - 1)) 1 else balance (i + 1) acc half len records' dflt
  end.
Definition split_point (records : list bytes) : nat :=
  let len := Z.of_nat (length records) in
  Z.to_nat (balance 0 0 (records_size records / 2) len records (len / 2)).

(** The split of a full leaf: the separator and the new page. *)
Definition split_leaf (leaf : Z) (records : list bytes) : stM Tree (Pos_ * Z) :=
  _ ← split_fault;
  let split := split_point records in
  right_id ← alloc;
  sep ← lift (match drop split records with r :: _ => leaf_decode r | [] => Panic end);
  lfits ← rewrite_page leaf (take split records);
  match lfits with
  | false => fail Corruption
  | true =>
      rfits ← new_page right_id Leaf (drop split records);
      match rfits with
      | false => fail ValueTooLarge
      | true => mret ((le_key sep, le_seq sep), right_id)
      end
  end.

(** [BTree::rewrite_or_split]. *)
Definition rewrite_or_split (path : Path) (records : list bytes) : stM Tree unit :=
  leaf ← lift (path_leaf path);
  fits ← rewrite_page leaf records;
  match fits with
  | true => mret tt
  | false =>
      '(sep, right_id) ← split_leaf leaf records;
      insert_separator (rev (removelast path)) sep.1 sep.2 right_id
  end.

(** The position of [(key, seq)] in a leaf; [None] when it is present. *)
Fixpoint leaf_position (page : bytes) (todo : list Z) (n : Z) (key : bytes) (seq : Z) : CoreResult (option Z) :=
  match todo with
  | [] => Ok (Some n)
  | i :: todo' =>
      r ← page_record page i;
      e ← leaf_decode r;
      match leaf_cmp (le_key e) (le_seq e) key seq with
      | Eq => Ok None
      | Gt => Ok (Some i)
      | Lt => leaf_position page todo' n key seq
      end
  end.

(** [BTree::find_version]. *)
Definition find_version (key : bytes) (seq : Z) : stM Tree bool :=
  path ← descend key seq;
  leaf ← lift (path_leaf path);
  '(_, page) ← fetch_page leaf;
  p ← lift (leaf_position page (range (slot_count page)) (slot_count page) key seq);
  mret (match p with None => true | Some _ => false end).

(** The tail of [BTree::insert_version]: the entry is built, its chain written. *)
Definition insert_entry (e : LeafEntry) : stM Tree bool :=
  let enc := leaf_encode e in
  path ← descend (le_key e) (le_seq e);
  leaf ← lift (path_leaf path);
  '(i, page) ← fetch_page leaf;
  p ← lift (leaf_position page (range (slot_count page)) (slot_count page) (le_key e) (le_seq e));
  match p with
  | None => mret false
  | Some pos =>
      match zlen enc + 4 <=? free_space page with
      | true =>
          page' ← lift (insert_record crc leaf lsn pos enc page);
          _ ← in_cache (_ ← set_bytes i page'; mark_dirty i lsn);
          mret true
      | false =>
          records ← lift (read_records page);
          _ ← rewrite_or_split path (take (Z.to_nat pos) records ++ enc :: drop (Z.to_nat pos) records);
          mret true
      end
  end.
(** The stored form of a value: inline, or a pointer to its chain. *)
Definition stored_value (flags : Z) (value : bytes) : stM Tree (Z * bytes) :=
  match MAX_INLINE_VALUE <? zlen value with
  | true =>
      first ← write_overflow value;
      mret (Z.lor flags ENTRY_FLAG_OVERFLOW, le_encode 8 first ++ le_encode 4 (wrap_u 32 (zlen value)))
  | false => mret (flags, value)
  end.
Definition insert_version (key : bytes) (seq : Z) (txn_id : bytes) (flags : Z) (meta value : bytes) : stM Tree bool :=
  match MAX_KEY_LEN <? zlen key, MAX_VALUE_LEN <? zlen value with
  | true, _ => fail KeyTooLarge
  | false, true => fail ValueTooLarge
  | false, false =>
      dup ← match MAX_INLINE_VALUE <? zlen value with true => find_version key seq | false => mret false end;
      match dup with
      | true => mret false
      | false =>
          '(flags, stored) ← stored_value flags value;
          insert_entry (MkLeafEntry key seq txn_id flags meta stored)
      end
  end.

(** ** Scans *)
Record Scan : Type := MkScan {
  sc_out : list LeafEntry;
  sc_cursor_key : bytes;
  sc_cursor_seq : Z;
  sc_current : option bytes;
  sc_advanced : bool;
}.
(** One leaf of the scan: the entries from slot [i] on; [true] when the scan is
    over ([break 'outer]). *)
Definition scan_visit (e : LeafEntry) (visible_seq limit : Z) (s : Scan) : Scan * bool :=
  let '(ck, cs) := if le_seq e =? 0 then (le_key e ++ [0], 2 ^ 64 - 1)
                   else (le_key e, saturating_sub (le_seq e) 1) in
  if bool_decide (sc_current s = Some (le_key e)) then (MkScan (sc_out s) ck cs (sc_current s) true, false)
  else if le_seq e <=? visible_seq then
    let out := sc_out s ++ [e] in
    (MkScan out ck cs (Some (le_key e)) true, limit <=? Z.of_nat (length out))
  else (MkScan (sc_out s) ck cs (sc_current s) true, false).
Fixpoint scan_leaf (page : bytes) (todo : list Z) (stop : option bytes) (visible_seq limit : Z) (s : Scan) :
    CoreResult (Scan * bool) :=
  match todo with
  | [] => Ok (s, false)
  | i :: todo' =>
      r ← page_record page i;
      e ← leaf_decode r;
      match leaf_cmp (le_key e) (le_seq e) (sc_cursor_key s) (sc_cursor_seq s) with
      | Lt => scan_leaf page todo' stop visible_seq limit s
      | _ =>
          if match stop with Some b => bytes_leb b (le_key e) | None => false end then Ok (s, true)
          else
            let '(s', over) := scan_visit e visible_seq limit s in
            if over then Ok (s', true) else scan_leaf page todo' stop visible_seq limit s'
      end
  end.
Definition unadvanced (s : Scan) : Scan :=
  MkScan (sc_out s) (sc_cursor_key s) (sc_cursor_seq s) (sc_current s) false.
Fixpoint scan_loop (fuel : nat) (path : Path) (stop : option bytes) (visible_seq limit : Z) (s : Scan) : stM Tree (list LeafEntry) :=
  match fuel with
  | O => fail Corruption
  | S fuel' =>
      leaf ← lift (path_leaf path);
      '(_, page) ← fetch_page leaf;
      '(s, over) ← lift (scan_leaf page (range (slot_count page)) stop visible_seq limit (unadvanced s));
      match over, sc_advanced s with
      | true, _ => mret (sc_out s)
      | false, false =>
          next ← right_neighbor_path path;
          match next with
          | Some path' => scan_loop fuel' path' stop visible_seq limit s
          | None => mret (sc_out s)
          end
      | false, true =>
          path' ← descend (sc_cursor_key s) (sc_cursor_seq s);
          scan_loop fuel' path' stop visible_seq limit s
      end
  end.
Definition SCAN_GUARD : nat := Z.to_nat 10000000.
Definition scan_visible (start : bytes) (stop : option bytes) (visible_seq limit : Z) : stM Tree (list LeafEntry) :=
  path ← descend start (2 ^ 64 - 1);
  scan_loop SCAN_GUARD path stop visible_seq limit (MkScan [] start (2 ^ 64 - 1) None false).

(** ** Persistence *)
(** [compact_versions]: the loops over the groups of equal keys as one pass
    that forgets the flag when the key changes. *)
Fixpoint compact_loop (horizon : Z) (group : option bytes) (kept_below : bool) (l : list (LeafEntry * bytes)) :
    list bytes * Z :=
  match l with
  | [] => ([], 0)
  | (e, r) :: l' =>
      let kept_below := kept_below && bool_decide (group = Some (le_key e)) in
      if horizon <? le_seq e then
        let '(kept, n) := compact_loop horizon (Some (le_key e)) kept_below l' in (r :: kept, n)
      else if negb kept_below then
        let '(kept, n) := compact_loop horizon (Some (le_key e)) true l' in (r :: kept, n)
      else let '(kept, n) := compact_loop horizon (Some (le_key e)) kept_below l' in (kept, n + 1)
  end.
Definition compact_versions (records : list bytes) (horizon : Z) : CoreResult (list bytes * Z) :=
  es ← collect leaf_decode records;
  Ok (compact_loop horizon None false (zip es records)).

(** The overflow chain of a persisted leaf: dirty pages are written in place. *)
Definition flush_link (opid : Z) : stM Tree Z :=
  res ← reads (fun t => contains opid (pool (t_cache t)));
  match res with
  | true =>
      i ← in_cache (fetch crc opid);
      f ← in_cache (frame i);
      _ ← match fr_dirty f with
          | true => in_cache (_ ← write_page opid (fr_bytes f); rekey opid opid (fr_bytes f))
          | false => mret tt
          end;
      mret (le_decode (sub (Z.to_nat (PAGE_SIZE - 8)) (Z.to_nat PAGE_SIZE) (fr_bytes f)))
  | false =>
      io ← reads (fun t => io (t_cache t));
      buf ← lift (read_page opid io);
      _ ← lift (page_read crc buf opid);
      mret (le_decode (sub (Z.to_nat (PAGE_SIZE - 8)) (Z.to_nat PAGE_SIZE) buf))
  end.
Fixpoint flush_chain (fuel : nat) (opid : Z) : stM Tree unit :=
  match opid =? 0 with
  | true => mret tt
  | false => match fuel with O => fail Corruption | S fuel' => next ← flush_link opid; flush_chain fuel' next end
  end.
Fixpoint flush_chains (records : list bytes) : stM Tree unit :=
  match records with
  | [] => mret tt
  | r :: records' =>
      e ← lift (leaf_decode r);
      _ ← match is_overflow e && (zlen (le_value e) =? 12) with
          | true => flush_chain CHAIN_GUARD (le_decode (sub 0 8 (le_value e)))
          | false => mret tt
          end;
      flush_chains records'
  end.

(** The branch for a compacted page that would not fit: the old records again. *)
Definition restore_page (pid : Z) (records : list bytes) : stM Tree unit :=
  '(i, page) ← fetch_page pid;
  header ← lift (page_read crc page pid);
  w ← lift (write_records crc page header records);
  match w with Some page' => in_cache (set_bytes i page') | None => mret tt end.
(** Reclaiming versions of a leaf; the result says whether the page is dirty. *)
Definition reclaim (pid : Z) (records : list bytes) (gc : option Z) (dirty : bool) (reclaimed : Z) : stM Tree (bool * Z) :=
  match gc with
  | None => mret (dirty, reclaimed)
  | Some h =>
      '(kept, dropped) ← lift (compact_versions records h);
      match (0 <? dropped) && negb (bool_decide (kept = [])) with
      | false => mret (dirty, reclaimed)
      | true =>
          fits ← rewrite_page pid kept;
          match fits with
          | true => n ← lift (uadd 64 reclaimed dropped); mret (true, n)
          | false => _ ← restore_page pid records; mret (dirty, reclaimed)
          end
      end
  end.

(** The end of [persist_page_gc]: a dirty page is written under a fresh identifier. *)
Definition persist_dirty (pid : Z) : stM Tree Z :=
  new_id ← alloc;
  '(_, page) ← fetch_page pid;
  header ← lift (page_read crc page pid);
  page ← lift (page_write crc (header <| page_id := new_id |> <| page_lsn := lsn |>) page);
  _ ← in_cache (_ ← write_page new_id page; rekey pid new_id page);
  mret new_id.

(** The page with its children's new identifiers, dirty whether or not it took them. *)
Definition overwrite_page (pid : Z) (records : list bytes) : stM Tree unit :=
  i ← in_cache (fetch crc pid);
  f ← in_cache (frame i);
  header ← lift (page_read crc (fr_bytes f) pid);
  w ← lift (write_records crc (fr_bytes f) (header <| page_lsn := lsn |>) records);
  in_cache (_ ← set_bytes i (default (fr_bytes f) w); mark_dirty i lsn).

Section children.
Context (persist : Z -> Z -> stM Tree (Z * Z)).
(** The loop over the entries of an internal page: the new records, whether a
    child moved, and the count. *)
Fixpoint persist_children (records : list bytes) (reclaimed : Z) : stM Tree (list bytes * bool * Z) :=
  match records with
  | [] => mret ([], false, reclaimed)
  | r :: records' =>
      e ← lift (internal_decode r);
      '(child, n) ← persist (ie_child e) reclaimed;
      '(rs, changed, n') ← persist_children records' n;
      mret (if child =? ie_child e then (r :: rs, changed, n')
            else (internal_encode (MkInternal (ie_key e) (ie_seq e) child) :: rs, true, n'))
  end.
End children.

(** The block that reads the page to persist: type, dirty flag, records. *)
Definition persist_read (pid : Z) : stM Tree (PageType * bool * list bytes) :=
  i ← in_cache (fetch crc pid);
  f ← in_cache (frame i);
  t ← lift (type_of_page (fr_bytes f));
  records ← lift (read_records (fr_bytes f));
  mret (t, fr_dirty f, records).

(** [persist_page_gc]; the recursion goes down the tree, which is no deeper than
    it has pages: the fuel of the caller is enough. *)
Fixpoint persist_page_gc (fuel : nat) (gc : option Z) (pid reclaimed : Z) : stM Tree (Z * Z) :=
  match fuel with
  | O => lift Panic
  | S fuel' =>
      res ← reads (fun t => contains pid (pool (t_cache t)));
      dirties ← reads (fun t => dirty_count (pool (t_cache t)));
      match negb res && (dirties =? 0)%nat with
      | true => mret (pid, reclaimed)
      | false =>
          _ ← match res with true => mret tt | false => _ ← in_cache (fetch crc pid); mret tt end;
          '(t, was_dirty, records) ← persist_read pid;
          '(dirty, n) ← match t with
            | Internal =>
                '(rs, changed, n) ← persist_children (persist_page_gc fuel' gc) records reclaimed;
                match changed with
                | true => _ ← overwrite_page pid rs; mret (true, n)
                | false => mret (was_dirty, n)
                end
            | Leaf => _ ← flush_chains records; reclaim pid records gc was_dirty reclaimed
            | _ => mret (was_dirty, reclaimed)
            end;
          match dirty with
          | false => mret (pid, n)
          | true => new_id ← persist_dirty pid; mret (new_id, n)
          end
      end
  end.
Definition persist_with_gc (gc : option Z) : stM Tree (Z * Z) :=
  root ← reads t_root;
  fuel ← reads (fun t => Z.to_nat (t_next t));
  '(new_root, n) ← persist_page_gc fuel gc root 0;
  _ ← update_st (fun t => t <| t_root := new_root |>);
  mret (new_root, n).
Definition persist : stM Tree Z := '(root, _) ← persist_with_gc None; mret root.

(** ** Verification *)
Record VerifyStats : Type := MkStats { vs_pages : Z; vs_leaves : Z; vs_internals : Z; vs_entries : Z }.
#[global] Instance VerifyStats_eta : Eta VerifyStats := fun s =>
  MkStats (vs_pages s) (vs_leaves s) (vs_internals s) (vs_entries s).
Definition below_low (low : option Pos_) (p : Pos_) : bool := match low with Some l => pos_lt p l | None => false end.
Definition above_high (high : option Pos_) (p : Pos_) : bool := match high with Some h => negb (pos_lt p h) | None => false end.
Definition out_of_order (last : option Pos_) (p : Pos_) : bool := match last with Some l => negb (pos_lt l p) | None => false end.

Fixpoint verify_leaf (page : bytes) (todo : list Z) (low high : option Pos_) (v : VerifyStats * option Pos_) :
    stM Tree (VerifyStats * option Pos_) :=
  match todo with
  | [] => mret v
  | i :: todo' =>
      e ← lift (r ← page_record page i; leaf_decode r);
      let p := (le_key e, le_seq e) in
      match below_low low p || above_high high p || out_of_order v.2 p with
      | true => fail Corruption
      | false =>
          _ ← match is_overflow e with true => _ ← read_value e; mret tt | false => mret tt end;
          verify_leaf page todo' low high (v.1 <| vs_entries ::= fun n => n + 1 |>, Some p)
      end
  end.
Definition entry_pos (e : InternalEntry) : Pos_ := (ie_key e, ie_seq e).
Definition is_leftmost (e : InternalEntry) : bool := bool_decide (ie_key e = []) && (ie_seq e =? 2 ^ 64 - 1).
(** [entries.windows(2)]: consecutive separators increase, the leftmost apart. *)
Fixpoint increasing (es : list InternalEntry) : bool :=
  match es with
  | a :: ((b :: _) as es') => (is_leftmost a || pos_lt (entry_pos a) (entry_pos b)) && increasing es'
  | _ => true
  end.
Section verify_children.
Context (verify : Z -> option Pos_ -> option Pos_ -> VerifyStats * option Pos_ -> stM Tree (VerifyStats * option Pos_)).
Fixpoint verify_children (first : bool) (es : list InternalEntry) (low high : option Pos_) (v : VerifyStats * option Pos_) :
    stM Tree (VerifyStats * option Pos_) :=
  match es with
  | [] => mret v
  | e :: es' =>
      let lo := if first then low else Some (entry_pos e) in
      let hi := match es' with e' :: _ => Some (entry_pos e') | [] => high end in
      v' ← verify (ie_child e) lo hi v;
      verify_children false es' low high v'
  end.
End verify_children.
Fixpoint verify_page (fuel : nat) (pid : Z) (low high : option Pos_) (v : VerifyStats * option Pos_) :
    stM Tree (VerifyStats * option Pos_) :=
  match fuel with
  | O => fail Corruption
  | S fuel' =>
      '(_, page) ← fetch_page pid;
      _ ← lift (page_read crc page pid);
      t ← lift (type_of_page page);
      let v := (v.1 <| vs_pages ::= fun n => n + 1 |>, v.2) in
      match t with
      | Leaf => verify_leaf page (range (slot_count page)) low high (v.1 <| vs_leaves ::= fun n => n + 1 |>, v.2)
      | Internal =>
          let v := (v.1 <| vs_internals ::= fun n => n + 1 |>, v.2) in
          match slot_count page =? 0 with
          | true => fail Corruption
          | false =>
              es ← lift (collect (fun i => r ← page_record page i; internal_decode r) (range (slot_count page)));
              match (match es with e :: _ => is_leftmost e | [] => true end) && increasing es with
              | false => fail Corruption
              | true => verify_children (verify_page fuel') true es low high v
              end
          end
      | _ => fail Corruption
      end
  end.
Definition verify_tree : stM Tree VerifyStats :=
  root ← reads t_root;
  v ← verify_page (S MAX_DEPTH) root None None (MkStats 0 0 0 0, None);
  mret v.1.
End tree.
