(* ===== verification/BTreeShape.v ===== *)
(** * The shape of a tree

    A ghost tree names the pages of a tree and what each holds.  [inorder] lists
    its entries and separators from left to right; a tree is well formed when
    that list is ordered, which splitting pages leaves unchanged.  A context is
    a tree with a hole, the ghost of a path.  [tree_ok] relates the state of the
    tree to its ghost. *)

From Stdlib Require Import Sorted.
From stdpp Require Import gmap sorting.
From S2P Require Import Prelude Errors StateMonad StoreFormat BufferPool SlotPage BTree.
#[local] Open Scope Z_scope.

(** ** Ghost trees *)
Inductive gtree : Type :=
| GLeaf (id : Z) (es : list LeafEntry)
| GNode (id : Z) (g0 : gtree) (ks : list (Pos_ * gtree)).

Section gtree_ind.
Context (P : gtree -> Prop).
Context (HL : forall id es, P (GLeaf id es)).
Context (HN : forall id g0 ks, P g0 -> Forall (fun k => P k.2) ks -> P (GNode id g0 ks)).
Fixpoint gtree_ind' (g : gtree) : P g :=
  match g with
  | GLeaf id es => HL id es
  | GNode id g0 ks => HN id g0 ks (gtree_ind' g0)
      ((fix go ks : Forall (fun k => P k.2) ks :=
          match ks with [] => Forall_nil_2 _ | k :: ks' => Forall_cons_2 _ k ks' (gtree_ind' k.2) (go ks') end) ks)
  end.
End gtree_ind.

Definition gid (g : gtree) : Z := match g with GLeaf id _ | GNode id _ _ => id end.

(** Entries and separators in order. *)
Inductive item : Type := Ent (e : LeafEntry) | Sep (p : Pos_).
Fixpoint inorder (g : gtree) : list item :=
  match g with
  | GLeaf _ es => map Ent es
  | GNode _ g0 ks => inorder g0 ++ flat_map (fun k => Sep k.1 :: inorder k.2) ks
  end.
Definition kids_order (ks : list (Pos_ * gtree)) : list item := flat_map (fun k => Sep k.1 :: inorder k.2) ks.
Definition ent (i : item) : option LeafEntry := match i with Ent e => Some e | Sep _ => None end.
Definition items_entries (l : list item) : list LeafEntry := omap ent l.
Definition entries (g : gtree) : list LeafEntry := items_entries (inorder g).

(** The pages: identifier, type, records. *)
Definition kid_record (k : Pos_ * Z) : bytes := internal_encode (MkInternal k.1.1 k.1.2 k.2).
Definition node_records (c0 : Z) (ks : list (Pos_ * Z)) : list bytes := internal_encode (leftmost c0) :: map kid_record ks.
Definition kid_ids (ks : list (Pos_ * gtree)) : list (Pos_ * Z) := map (fun k => (k.1, gid k.2)) ks.
Abbreviation gpage := (Z * PageType * list bytes)%type.
Fixpoint gpages (g : gtree) : list gpage :=
  match g with
  | GLeaf id es => [(id, Leaf, map leaf_encode es)]
  | GNode id g0 ks => (id, Internal, node_records (gid g0) (kid_ids ks)) :: gpages g0 ++ flat_map (fun k => gpages k.2) ks
  end.
Definition kids_pages (ks : list (Pos_ * gtree)) : list gpage := flat_map (fun k => gpages k.2) ks.
Definition page_ids (ps : list gpage) : list Z := map (fun x => x.1.1) ps.
Definition gids (g : gtree) : list Z := page_ids (gpages g).

Fixpoint levels (g : gtree) : nat :=
  match g with
  | GLeaf _ _ => 1
  | GNode _ g0 ks => S (foldr (fun k n => Nat.max (levels k.2) n) (levels g0) ks)
  end.
Fixpoint leaves (g : gtree) : nat :=
  match g with
  | GLeaf _ _ => 1
  | GNode _ g0 ks => foldr (fun k n => leaves k.2 + n)%nat (leaves g0) ks
  end.
Definition kids_leaves (ks : list (Pos_ * gtree)) : nat := foldr (fun k n => leaves k.2 + n)%nat 0%nat ks.

(** ** Positions *)
Definition Plt (a b : Pos_) : Prop := pos_lt a b = true.
Definition Ple (a b : Pos_) : Prop := pos_lt b a = false.
Definition epos (e : LeafEntry) : Pos_ := (le_key e, le_seq e).

Lemma leaf_cmp_eq a b : leaf_cmp a.1 a.2 b.1 b.2 = Eq <-> a = b.
Proof.
  destruct a as [k s], b as [k' s']. unfold leaf_cmp. cbn. destruct (bytes_cmp k k') eqn:E.
  - apply bytes_cmp_eq in E as ->. rewrite Z.compare_eq_iff. split; [by intros ->|by intros [= ->]].
  - split; [done|]. intros [= -> ->]. by rewrite bytes_cmp_refl in E.
  - split; [done|]. intros [= -> ->]. by rewrite bytes_cmp_refl in E.
Qed.
Lemma leaf_cmp_opp a b : leaf_cmp b.1 b.2 a.1 a.2 = CompOpp (leaf_cmp a.1 a.2 b.1 b.2).
Proof.
  unfold leaf_cmp. rewrite (bytes_cmp_antisym a.1 b.1). destruct (bytes_cmp a.1 b.1); cbn; [|done..].
  by rewrite Z.compare_antisym.
Qed.
Lemma Plt_trans a b c : Plt a b -> Plt b c -> Plt a c.
Proof.
  unfold Plt, pos_lt, leaf_cmp. destruct a as [k s], b as [k' s'], c as [k'' s'']. cbn.
  destruct (bytes_cmp k k') eqn:E1; [|destruct (bytes_cmp k' k'') eqn:E2|done]; intros H1 H2.
  - apply bytes_cmp_eq in E1 as ->. destruct (bytes_cmp k' k''); [|done..].
    destruct (Z.compare_spec s' s); [done| |done]. destruct (Z.compare_spec s'' s'); [done| |done].
    by rewrite (proj2 (Z.compare_lt_iff s'' s)) by lia.
  - apply bytes_cmp_eq in E2 as ->. by rewrite E1.
  - pose proof (bytes_ltb_trans k k' k'') as H. unfold bytes_ltb in H. rewrite E1, E2 in H. specialize (H eq_refl eq_refl).
    by destruct (bytes_cmp k k'').
  - done.
Qed.
Lemma Plt_irrefl a : ~ Plt a a.
Proof. unfold Plt, pos_lt. by rewrite (proj2 (leaf_cmp_eq a a) eq_refl). Qed.
Lemma Plt_total a b : Plt a b \/ a = b \/ Plt b a.
Proof.
  unfold Plt, pos_lt. rewrite (leaf_cmp_opp a b). destruct (leaf_cmp a.1 a.2 b.1 b.2) eqn:E; cbn; [|by auto..].
  right; left. by apply leaf_cmp_eq.
Qed.
Lemma Ple_cases a b : Ple a b <-> Plt a b \/ a = b.
Proof.
  unfold Ple. destruct (pos_lt b a) eqn:E.
  - split; [done|]. intros [H| ->]; exfalso; [|by eapply Plt_irrefl]. apply (Plt_irrefl a). by eapply Plt_trans.
  - split; [|done]. intros _. destruct (Plt_total a b) as [|[|H]]; [by left|by right|]. unfold Plt in H. congruence.
Qed.
Lemma Plt_Ple a b : Plt a b -> Ple a b.
Proof. rewrite Ple_cases. by left. Qed.
Lemma Plt_Ple_trans a b c : Plt a b -> Ple b c -> Plt a c.
Proof. rewrite Ple_cases. intros H [| <-]; [by eapply Plt_trans|done]. Qed.
Lemma Ple_Plt_trans a b c : Ple a b -> Plt b c -> Plt a c.
Proof. rewrite Ple_cases. intros [H1| ->] H2; [by eapply Plt_trans|done]. Qed.
Lemma Plt_not_Ple a b : Plt a b -> Ple b a -> False.
Proof. unfold Plt, Ple. congruence. Qed.
Lemma pos_cmp_spec (a b : Pos_) :
  match leaf_cmp a.1 a.2 b.1 b.2 with Lt => Plt a b | Eq => a = b | Gt => Plt b a end.
Proof.
  unfold Plt, pos_lt. rewrite (leaf_cmp_opp a b). destruct (leaf_cmp a.1 a.2 b.1 b.2) eqn:E; cbn; try done. by apply leaf_cmp_eq.
Qed.

(** ** Order of items *)
Definition item_lt (x y : item) : Prop :=
  match x, y with
  | Ent e, Ent e' => Plt (epos e) (epos e')
  | Ent e, Sep p => Plt (epos e) p
  | Sep p, Ent e => Ple p (epos e)
  | Sep p, Sep q => Plt p q
  end.
(** What lies left and right of a position. *)
Definition before (p : Pos_) (x : item) : Prop := match x with Ent e => Plt (epos e) p | Sep q => Ple q p end.
Definition after (p : Pos_) (x : item) : Prop := match x with Ent e => Plt p (epos e) | Sep q => Plt p q end.

Lemma item_lt_trans x y z : item_lt x y -> item_lt y z -> item_lt x z.
Proof.
  destruct x, y, z; cbn; eauto using Plt_trans, Plt_Ple_trans, Ple_Plt_trans, Plt_Ple.
Qed.
Abbreviation ordered := (StronglySorted item_lt).

Lemma ordered_app l r : ordered (l ++ r) <-> ordered l /\ ordered r /\ (forall x y, x ∈ l -> y ∈ r -> item_lt x y).
Proof. rewrite StronglySorted_app. naive_solver. Qed.
Lemma ordered_cons x l : ordered (x :: l) <-> ordered l /\ (forall y, y ∈ l -> item_lt x y).
Proof.
  split.
  - intros Hs. apply StronglySorted_inv in Hs as [H1 H2]. rewrite Forall_forall in H2. done.
  - intros [H1 H2]. constructor; [done|]. by rewrite Forall_forall.
Qed.

(** A new entry between what is before it and what is after it. *)
Lemma ordered_insert l r e : ordered (l ++ r) -> Forall (before (epos e)) l -> Forall (after (epos e)) r -> ordered (l ++ Ent e :: r).
Proof.
  rewrite !ordered_app, !ordered_cons, !Forall_forall. intros (Hl & Hr & Hlr) Hb Ha. split_and!; [done|done|..].
  - intros y Hy. specialize (Ha y Hy). destruct y; done.
  - intros x y Hx [-> |Hy]%elem_of_cons; [|by apply Hlr]. specialize (Hb x Hx). destruct x; done.
Qed.
(** A separator at the position of the entry that follows it, if an entry precedes it. *)
Lemma ordered_separate l a m e r :
  ordered (l ++ Ent a :: map Ent m ++ Ent e :: r) -> ordered (l ++ Ent a :: map Ent m ++ Sep (epos e) :: Ent e :: r).
Proof.
  intros H. assert (Hae : forall x, x ∈ l -> item_lt x (Ent a)).
  { intros x Hx. apply ordered_app in H as (_ & _ & H). apply H; [done|set_solver]. }
  revert H. replace (l ++ Ent a :: map Ent m ++ Ent e :: r) with ((l ++ Ent a :: map Ent m) ++ Ent e :: r)
    by by rewrite <- app_assoc.
  replace (l ++ Ent a :: map Ent m ++ Sep (epos e) :: Ent e :: r) with ((l ++ Ent a :: map Ent m) ++ Sep (epos e) :: Ent e :: r)
    by by rewrite <- app_assoc.
  set (L := l ++ Ent a :: map Ent m). rewrite !ordered_app, !ordered_cons. intros (HL & (Hr & He) & Hx).
  assert (Hle : Ple (epos e) (epos e)) by (apply Ple_cases; by right).
  assert (Hpe : Plt (epos a) (epos e)) by (apply (Hx (Ent a) (Ent e)); [unfold L|]; set_solver).
  split_and!; try done.
  - intros y [-> |Hy]%elem_of_cons; [done|]. specialize (He y Hy). destruct y; cbn in *; [by apply Plt_Ple|done].
  - intros x y Hxl [-> |Hy]%elem_of_cons; [|by apply Hx]. pose proof (Hx x (Ent e) Hxl ltac:(set_solver)) as Hxe.
    destruct x as [b|q]; [done|]. cbn in *. apply elem_of_app in Hxl as [Hq|Hq].
    + eapply Ple_Plt_trans; [exact (Hae _ Hq)|done].
    + apply elem_of_cons in Hq as [Hq|Hq]; [done|]. by apply list_elem_of_fmap in Hq as (? & ? & _).
Qed.

(** ** Contexts *)
Inductive gframe : Type :=
| FFirst (id : Z) (ks : list (Pos_ * gtree))
| FNext (id : Z) (g0 : gtree) (ks1 : list (Pos_ * gtree)) (p : Pos_) (ks2 : list (Pos_ * gtree)).
Abbreviation gctx := (list gframe).   (* innermost first *)

Definition f_id (f : gframe) : Z := match f with FFirst id _ | FNext id _ _ _ _ => id end.
Definition f_index (f : gframe) : Z := match f with FFirst _ _ => 0 | FNext _ _ ks1 _ _ => 1 + Z.of_nat (length ks1) end.
Definition fill (f : gframe) (g : gtree) : gtree :=
  match f with
  | FFirst id ks => GNode id g ks
  | FNext id g0 ks1 p ks2 => GNode id g0 (ks1 ++ (p, g) :: ks2)
  end.
Definition f_rest (f : gframe) : list (Pos_ * gtree) := match f with FFirst _ ks | FNext _ _ _ _ ks => ks end.
Definition f_left (f : gframe) : list item :=
  match f with FFirst _ _ => [] | FNext _ g0 ks1 p _ => inorder g0 ++ kids_order ks1 ++ [Sep p] end.
Definition f_right (f : gframe) : list item := kids_order (f_rest f).
(** The pages of a frame; its own depends on the identifier in the hole. *)
Definition f_records (f : gframe) (c : Z) : list bytes :=
  match f with
  | FFirst _ ks => node_records c (kid_ids ks)
  | FNext _ g0 ks1 p ks2 => node_records (gid g0) (kid_ids ks1 ++ (p, c) :: kid_ids ks2)
  end.
Definition f_others (f : gframe) : list gpage :=
  match f with FFirst _ ks => kids_pages ks | FNext _ g0 ks1 _ ks2 => gpages g0 ++ kids_pages ks1 ++ kids_pages ks2 end.

Fixpoint plug (ctx : gctx) (g : gtree) : gtree := match ctx with [] => g | f :: ctx' => plug ctx' (fill f g) end.
Fixpoint c_left (ctx : gctx) : list item := match ctx with [] => [] | f :: ctx' => c_left ctx' ++ f_left f end.
Fixpoint c_right (ctx : gctx) : list item := match ctx with [] => [] | f :: ctx' => f_right f ++ c_right ctx' end.
Fixpoint c_pages (ctx : gctx) (c : Z) : list gpage :=
  match ctx with [] => [] | f :: ctx' => (f_id f, Internal, f_records f c) :: f_others f ++ c_pages ctx' (f_id f) end.
Definition c_path (ctx : gctx) : Path := map (fun f => (f_id f, f_index f)) ctx.
Definition path_of (ctx : gctx) (leaf : Z) : Path := rev (c_path ctx) ++ [(leaf, 0)].
Fixpoint c_leaves (ctx : gctx) : nat := match ctx with [] => 0%nat | f :: ctx' => (kids_leaves (f_rest f) + c_leaves ctx')%nat end.

Lemma inorder_fill f g : inorder (fill f g) = f_left f ++ inorder g ++ f_right f.
Proof.
  destruct f as [id ks|id g0 ks1 p ks2]; cbn; [done|]. unfold kids_order, f_right. rewrite flat_map_app. cbn.
  by rewrite <- !app_assoc.
Qed.
Lemma inorder_plug ctx g : inorder (plug ctx g) = c_left ctx ++ inorder g ++ c_right ctx.
Proof.
  revert g. induction ctx as [|f ctx IH]; intros g; cbn; [by rewrite app_nil_r|]. rewrite IH, inorder_fill. by rewrite <- !app_assoc.
Qed.
Lemma gpages_fill f g : gpages (fill f g) ≡ₚ (f_id f, Internal, f_records f (gid g)) :: f_others f ++ gpages g.
Proof.
  destruct f as [id ks|id g0 ks1 p ks2]; cbn; unfold kids_pages.
  - apply perm_skip. apply Permutation_app_comm.
  - unfold kid_ids. rewrite map_app, flat_map_app. cbn. apply perm_skip. rewrite <- !app_assoc. do 2 apply Permutation_app_head.
    apply Permutation_app_comm.
Qed.
Lemma gid_fill f g : gid (fill f g) = f_id f.
Proof. by destruct f. Qed.
Lemma gpages_plug ctx g : gpages (plug ctx g) ≡ₚ c_pages ctx (gid g) ++ gpages g.
Proof.
  revert g. induction ctx as [|f ctx IH]; intros g; cbn; [done|]. rewrite IH, gpages_fill, gid_fill.
  rewrite (Permutation_app_comm (c_pages ctx (f_id f))). cbn. apply perm_skip. rewrite <- !app_assoc. apply Permutation_app_head.
  apply Permutation_app_comm.
Qed.
Lemma plug_app ctx ctx' g : plug (ctx ++ ctx') g = plug ctx' (plug ctx g).
Proof. revert g. induction ctx; intros; cbn; auto. Qed.
Lemma path_of_snoc ctx f leaf : path_of (ctx ++ [f]) leaf = (f_id f, f_index f) :: path_of ctx leaf.
Proof. unfold path_of, c_path. by rewrite map_app, rev_app_distr. Qed.
Lemma c_left_app ctx ctx' : c_left (ctx ++ ctx') = c_left ctx' ++ c_left ctx.
Proof. induction ctx as [|f ctx IH]; cbn; [by rewrite app_nil_r|]. by rewrite IH, app_assoc. Qed.
Lemma c_right_app ctx ctx' : c_right (ctx ++ ctx') = c_right ctx ++ c_right ctx'.
Proof. induction ctx as [|f ctx IH]; cbn; [done|]. by rewrite IH, app_assoc. Qed.
Lemma c_leaves_app ctx ctx' : c_leaves (ctx ++ ctx') = (c_leaves ctx + c_leaves ctx')%nat.
Proof. induction ctx as [|f ctx IH]; cbn; [done|]. rewrite IH. lia. Qed.
Lemma items_entries_app l r : items_entries (l ++ r) = items_entries l ++ items_entries r.
Proof. unfold items_entries. apply omap_app. Qed.
Lemma items_entries_map es : items_entries (map Ent es) = es.
Proof. unfold items_entries. induction es as [|e es IH]; cbn; [done|]. by f_equal. Qed.
Lemma entries_plug ctx g : entries (plug ctx g) = items_entries (c_left ctx) ++ entries g ++ items_entries (c_right ctx).
Proof. unfold entries. by rewrite inorder_plug, !items_entries_app. Qed.
Lemma elem_of_items_entries e l : e ∈ items_entries l <-> Ent e ∈ l.
Proof.
  unfold items_entries. rewrite list_elem_of_omap. split.
  - intros ([x|p] & Hx & Hy); simplify_eq/=; done.
  - intros H. by exists (Ent e).
Qed.

(** ** The tree a state holds *)
Section tree_ok.
Context (crc : bytes -> Z).

Definition page_at (V : Z -> option bytes) (x : gpage) : Prop :=
  exists p, V x.1.1 = Some p /\ page_is crc x.1.1 x.1.2 x.2 p.
Definition stored (V : Z -> option bytes) (ps : list gpage) : Prop := Forall (page_at V) ps.

Definition item_ok (x : item) : Prop :=
  match x with Ent e => entry_ok e | Sep p => zlen p.1 <= MAX_KEY_LEN /\ in_u 64 p.2 = true end.

Record tree_ok (t : Tree) (g : gtree) : Prop := {
  tk_pool : pool_ok crc (t_next t) (t_cache t);
  tk_root : t_root t = gid g;
  tk_stored : stored (view crc (t_cache t)) (gpages g);
  tk_nodup : NoDup (gids g);
  tk_bound : Forall (fun id => 0 < id < t_next t) (gids g);
  tk_next : 1 <= t_next t < 2 ^ 51;
  tk_ordered : ordered (inorder g);
  tk_items : Forall item_ok (inorder g);
}.

(** Reads leave the tree as a client sees it. *)
Record quiet (t t' : Tree) : Prop := {
  qt_pool : pool_ok crc (t_next t') (t_cache t');
  qt_root : t_root t' = t_root t;
  qt_next : t_next t' = t_next t;
  qt_same : same crc (t_cache t) (t_cache t');
}.
Lemma tree_quiet_refl t : pool_ok crc (t_next t) (t_cache t) -> quiet t t.
Proof. intros H. by constructor. Qed.
Lemma tree_quiet_trans a b c : quiet a b -> quiet b c -> quiet a c.
Proof. intros [P1 R1 N1 S1] [P2 R2 N2 S2]. constructor; [done|congruence|congruence|by etrans]. Qed.

Lemma stored_view V V' ps : (forall x, x ∈ page_ids ps -> V' x = V x) -> stored V ps -> stored V' ps.
Proof.
  intros HV. unfold stored. rewrite !Forall_forall. intros Hs x Hx. destruct (Hs x Hx) as (p & Hp & Hi). exists p.
  split; [|done]. rewrite HV; [done|]. apply list_elem_of_fmap. eauto.
Qed.
Lemma stored_same c c' ps : same crc c c' -> stored (view crc c) ps -> stored (view crc c') ps.
Proof. intros [Hv _ _]. by apply stored_view. Qed.
Lemma stored_app V l r : stored V (l ++ r) <-> stored V l /\ stored V r.
Proof. apply Forall_app. Qed.
Lemma stored_perm V l r : l ≡ₚ r -> stored V l -> stored V r.
Proof. intros Hp. unfold stored. by rewrite Hp. Qed.

Lemma tree_ok_quiet t t' g : quiet t t' -> tree_ok t g -> tree_ok t' g.
Proof.
  intros [P R N S] []. constructor; try done; rewrite ?R, ?N; try done. by eapply stored_same.
Qed.

Lemma wp_in_cache {A} (m : stM Cache A) t Q E :
  wp m (t_cache t) (fun a c => Q a (t <| t_cache := c |>)) (fun e c => E e (t <| t_cache := c |>)) -> wp (in_cache m) t Q E.
Proof. unfold wp, in_cache. by destruct (m (t_cache t)) as [[] c]. Qed.

(** *** Reading a page *)
Lemma fetch_raw_wp n t id p :
  pool_ok crc n (t_cache t) -> n <= t_next t -> view crc (t_cache t) id = Some p -> 0 <= id < n ->
  wp (fetch_page crc id) t (fun r t' => quiet t t' /\ pool_ok crc n (t_cache t') /\ r.2 = p /\ holds (t_cache t') r.1 id p)
    (fun e t' => e = ResourceLimit /\ quiet t t').
Proof.
  intros Hp Hn Hv Hid. pose proof (fetch_wp crc n (t_cache t) _ p Hp Hv Hid) as H.
  unfold fetch_page, wp, mbind, stM_bind, in_cache in *. destruct (fetch crc id (t_cache t)) as [[i|e|] c'].
  - destruct H as (Hp' & Hs & Hh). pose proof Hh as (f & Hf & Hfid & Hb). unfold frame. cbn. rewrite Hf. cbn.
    split; [by constructor; [eapply pool_ok_mono|..]|done].
  - destruct H as (-> & Hp' & Hs). split; [done|]. by constructor; [eapply pool_ok_mono|..].
  - done.
Qed.
Lemma fetch_page_wp t x :
  pool_ok crc (t_next t) (t_cache t) -> page_at (view crc (t_cache t)) x -> 0 <= x.1.1 < t_next t ->
  wp (fetch_page crc x.1.1) t
    (fun r t' => quiet t t' /\ page_is crc x.1.1 x.1.2 x.2 r.2 /\ holds (t_cache t') r.1 x.1.1 r.2 /\
       view crc (t_cache t) x.1.1 = Some r.2)
    (fun e t' => e = ResourceLimit /\ quiet t t').
Proof.
  intros Hp (p & Hv & Hi) Hid. eapply st_wp_mono; [by apply (fetch_raw_wp (t_next t) t x.1.1 p)| |by auto].
  intros r t' (Hq & _ & -> & Hh). done.
Qed.
End tree_ok.
