(* ===== verification/BTreeRead.v ===== *)
(** * Reading the tree

    What [descend], [right_neighbor_path], [get_version] and [scan_visible]
    return, in terms of the entries of the tree in order. *)

From Stdlib Require Import Sorted.
From stdpp Require Import gmap sorting.
From S2P Require Import Prelude Errors StateMonad StoreFormat BufferPool SlotPage BTree BTreeShape.
#[local] Open Scope Z_scope.

(** ** Choosing a child *)
Definition node_entries (c0 : Z) (ks : list (Pos_ * Z)) : list InternalEntry :=
  leftmost c0 :: map (fun k => MkInternal k.1.1 k.1.2 k.2) ks.
Lemma node_records_entries c0 ks : node_records c0 ks = map internal_encode (node_entries c0 ks).
Proof. unfold node_records, node_entries. cbn. f_equal. by rewrite map_map. Qed.

Section read.
Context (crc : bytes -> Z).

Lemma node_decode id c0 ks p j e :
  page_is crc id Internal (node_records c0 ks) p -> node_entries c0 ks !! j = Some e -> internal_ok e ->
  (r ← page_record p (Z.of_nat j); internal_decode r) = Ok e.
Proof.
  intros Hp He Hok. rewrite (page_is_record _ _ _ _ _ Hp j (internal_encode e)).
  - by apply internal_decode_encode.
  - rewrite node_records_entries, list_lookup_fmap. by rewrite He.
Qed.
Lemma leaf_record_decode id es p j e :
  page_is crc id Leaf (map leaf_encode es) p -> es !! j = Some e -> entry_ok e ->
  page_record p (Z.of_nat j) = Ok (leaf_encode e) /\ leaf_decode (leaf_encode e) = Ok e.
Proof.
  intros Hp He Hok. split; [|by apply leaf_decode_encode]. eapply page_is_record; [done|]. rewrite list_lookup_fmap. by rewrite He.
Qed.

Lemma child_index_spec p key seq_ : forall (es : list InternalEntry) k idx,
  (forall j e, es !! j = Some e -> (r ← page_record p (Z.of_nat (k + j)); internal_decode r) = Ok e) ->
  exists n, (n <= length es)%nat /\ Forall (fun e => Ple (entry_pos e) (key, seq_)) (take n es) /\
    (forall e, es !! n = Some e -> Plt (key, seq_) (entry_pos e)) /\
    child_index p (map Z.of_nat (seq k (length es))) idx key seq_ = Ok (if (n =? 0)%nat then idx else Z.of_nat (k + n) - 1).
Proof.
  induction es as [|e es IH]; intros k idx Hd; cbn.
  { exists 0%nat. split_and!; [done|constructor|done|done]. }
  pose proof (Hd 0%nat e eq_refl) as He. rewrite Nat.add_0_r in He. apply bind_ok_inv in He as (r & Hr & He). rewrite Hr. cbn. rewrite He. cbn.
  pose proof (pos_cmp_spec (entry_pos e) (key, seq_)) as Hc. cbn in Hc.
  destruct (IH (S k) (Z.of_nat k)) as (n & Hn & Hf & Hg & Hi).
  { intros j e' Hj. replace (S k + j)%nat with (k + S j)%nat by lia. by apply Hd. }
  destruct (leaf_cmp _ _ _ _).
  - exists (S n). split_and!; [lia| |done|].
    + constructor; [|done]. apply Ple_cases. by right.
    + rewrite Hi. cbn. f_equal. destruct n; cbn; lia.
  - exists (S n). split_and!; [lia| |done|].
    + constructor; [|done]. by apply Plt_Ple.
    + rewrite Hi. cbn. f_equal. destruct n; cbn; lia.
  - exists 0%nat. split_and!; [lia|constructor| |done]. intros e' [= <-]. done.
Qed.

Lemma ordered_before l p q : ordered (l ++ [Sep p]) -> Ple p q -> Forall (before q) (l ++ [Sep p]).
Proof.
  intros (Hl & _ & Hx)%ordered_app Hp. apply Forall_app. split; [|by constructor].
  apply Forall_forall. intros x Hin. specialize (Hx x (Sep p) Hin ltac:(set_solver)).
  destruct x; cbn in *; [by eapply Plt_Ple_trans|]. apply Plt_Ple. by eapply Plt_Ple_trans.
Qed.
Lemma ordered_after r p q : ordered (Sep p :: r) -> Plt q p -> Forall (after q) (Sep p :: r).
Proof.
  intros (_ & Hx)%ordered_cons Hp. constructor; [done|]. apply Forall_forall. intros y Hy. specialize (Hx y Hy).
  destruct y; cbn in *; [by eapply Plt_Ple_trans|by eapply Plt_trans].
Qed.

(** The entry of the page of a frame that points to its hole. *)
Lemma frame_entry f g id g0 ks : fill f g = GNode id g0 ks ->
  exists e, node_entries (gid g0) (kid_ids ks) !! Z.to_nat (f_index f) = Some e /\ ie_child e = gid g.
Proof.
  destruct f as [fid fks|fid h0 ks1 p ks2]; cbn [fill f_index]; intros [= <- <- <-]; [by eexists|].
  exists (MkInternal p.1 p.2 (gid g)). split; [|done]. replace (Z.to_nat (1 + Z.of_nat (length ks1))) with (S (length ks1)) by lia.
  unfold node_entries, kid_ids. cbn [lookup list_lookup]. rewrite map_map.
  change (map (fun k => MkInternal k.1.1 k.1.2 (gid k.2)) (ks1 ++ (p, g) :: ks2) !! length ks1 = Some (MkInternal p.1 p.2 (gid g))).
  rewrite map_app, lookup_app_r by by rewrite length_map. by rewrite length_map, Nat.sub_diag.
Qed.

(** The child chosen for a position, as a frame around it. *)
Lemma choose_child id g0 ks q n :
  ordered (inorder (GNode id g0 ks)) -> (n <= length ks)%nat ->
  Forall (fun k => Ple k.1 q) (take n ks) -> (forall k, ks !! n = Some k -> Plt q k.1) ->
  exists f g', fill f g' = GNode id g0 ks /\ f_id f = id /\ f_index f = Z.of_nat n /\
    Forall (before q) (f_left f) /\ Forall (after q) (f_right f).
Proof.
  intros Ho Hn Hle Hgt.
  assert (Haft : forall pre, ordered (pre ++ kids_order (drop n ks)) -> Forall (after q) (kids_order (drop n ks))).
  { intros pre (_ & Hr & _)%ordered_app. destruct (drop n ks) as [|[p g] r] eqn:Ed; [constructor|].
    apply ordered_after; [done|]. apply (Hgt (p, g)). rewrite <- (Nat.add_0_r n), <- lookup_drop, Ed. done. }
  cbn in Ho. fold (kids_order ks) in Ho. destruct n as [|m].
  - exists (FFirst id ks), g0. rewrite drop_0 in Haft. split_and!; try done. by eapply Haft.
  - destruct (lookup_lt_is_Some_2 ks m ltac:(lia)) as [[p g'] Hm].
    assert (Hks : ks = take m ks ++ (p, g') :: drop (S m) ks) by (by rewrite take_drop_middle).
    exists (FNext id g0 (take m ks) p (drop (S m) ks)), g'.
    assert (Hko : kids_order ks = kids_order (take m ks) ++ Sep p :: inorder g' ++ kids_order (drop (S m) ks)).
    { rewrite Hks at 1. unfold kids_order. rewrite flat_map_app. done. }
    rewrite Hko in Ho. split_and!.
    + cbn. by rewrite <- Hks.
    + done.
    + cbn. rewrite length_take. lia.
    + cbn. replace (inorder g0 ++ kids_order (take m ks) ++ [Sep p]) with ((inorder g0 ++ kids_order (take m ks)) ++ [Sep p]) by by rewrite <- app_assoc.
      apply ordered_before.
      * replace (inorder g0 ++ kids_order (take m ks) ++ Sep p :: inorder g' ++ kids_order (drop (S m) ks))
          with (((inorder g0 ++ kids_order (take m ks)) ++ [Sep p]) ++ inorder g' ++ kids_order (drop (S m) ks)) in Ho by by rewrite <- !app_assoc.
        by apply ordered_app in Ho as (? & _).
      * rewrite Forall_forall in Hle. apply (Hle (p, g')). apply list_elem_of_lookup. exists m. rewrite lookup_take_lt by lia. done.
    + cbn. unfold f_right. cbn. apply (Haft (inorder g0 ++ kids_order (take m ks) ++ Sep p :: inorder g')). by rewrite <- !app_assoc.
Qed.

(** Separators and identifiers are in range, so node entries read back. *)
Lemma node_entries_ok id g0 ks n :
  Forall item_ok (inorder (GNode id g0 ks)) -> Forall (fun x => 0 < x < n) (gids (GNode id g0 ks)) -> n <= 2 ^ 51 ->
  Forall internal_ok (node_entries (gid g0) (kid_ids ks)).
Proof.
  intros Hi Hb Hn. cbn in Hi, Hb. unfold gids, page_ids in Hb. cbn in Hb. rewrite map_app in Hb.
  apply Forall_cons in Hb as [_ Hb]. apply Forall_app in Hb as [Hb0 Hbk]. apply Forall_app in Hi as [_ Hik].
  assert (Hgid : forall g, Forall (fun x => 0 < x < n) (map (fun x : gpage => x.1.1) (gpages g)) -> in_u 64 (gid g) = true).
  { intros g Hg. apply in_u_spec. destruct g; cbn in *; apply Forall_cons in Hg as [Hg _]; cbn in *; lia. }
  unfold node_entries. constructor; [split_and!; [done|done|by apply Hgid]|].
  apply Forall_forall. intros e (k & -> & Hk)%list_elem_of_fmap. unfold kid_ids in Hk.
  apply list_elem_of_fmap in Hk as (k' & -> & Hk'). cbn.
  assert (Hs : item_ok (Sep k'.1)).
  { rewrite Forall_forall in Hik. apply Hik. apply list_elem_of_In, in_flat_map. exists k'. split; [by apply list_elem_of_In|by left]. }
  destruct Hs as [Hs1 Hs2]. split_and!; [cbn in *; unfold MAX_KEY_LEN in *; lia|done|]. apply Hgid.
  apply Forall_forall. intros x Hx. rewrite Forall_forall in Hbk. apply Hbk.
  apply list_elem_of_fmap in Hx as (y & -> & Hy). apply list_elem_of_fmap. exists y. split; [done|].
  apply list_elem_of_In, in_flat_map. exists k'. split; by apply list_elem_of_In.
Qed.

(** ** Descent *)
(** A subtree of a consistent state. *)
Record part_ok (t : Tree) (g : gtree) : Prop := {
  pt_pool : pool_ok crc (t_next t) (t_cache t);
  pt_stored : stored crc (view crc (t_cache t)) (gpages g);
  pt_bound : Forall (fun id => 0 < id < t_next t) (gids g);
  pt_next : 1 <= t_next t < 2 ^ 51;
  pt_ordered : ordered (inorder g);
  pt_items : Forall item_ok (inorder g);
}.
Lemma tree_part t g : tree_ok crc t g -> part_ok t g.
Proof. by intros []. Qed.
Lemma part_quiet t t' g : quiet crc t t' -> part_ok t g -> part_ok t' g.
Proof. intros [P R N S] []. constructor; [done|by eapply stored_same|by rewrite N|by rewrite N|done|done]. Qed.

Lemma gids_fill f g : gids (fill f g) ≡ₚ f_id f :: page_ids (f_others f) ++ gids g.
Proof. unfold gids, page_ids. rewrite gpages_fill. cbn. by rewrite map_app. Qed.

Lemma part_fill t f g : part_ok t (fill f g) -> part_ok t g.
Proof.
  intros [P S B N O I]. constructor; try done.
  - eapply stored_perm in S; [|apply gpages_fill]. apply Forall_cons in S as [_ S]. by apply stored_app in S as [_ S].
  - rewrite gids_fill in B. apply Forall_cons in B as [_ B]. by apply Forall_app in B as [_ B].
  - rewrite inorder_fill in O. apply ordered_app in O as (_ & O & _). by apply ordered_app in O as (O & _).
  - rewrite inorder_fill in I. apply Forall_app in I as [_ I]. by apply Forall_app in I as [I _].
Qed.
Lemma part_plug t ctx g : part_ok t (plug ctx g) -> part_ok t g.
Proof. revert g. induction ctx as [|f ctx IH]; intros g; cbn; [done|]. intros H%IH. by eapply part_fill. Qed.

Lemma part_page t g x : part_ok t g -> x ∈ gpages g -> page_at crc (view crc (t_cache t)) x /\ 0 < x.1.1 < t_next t.
Proof.
  intros Hp Hx. destruct Hp as [P S B N O I]. unfold stored in S. rewrite Forall_forall in S. split; [by apply S|].
  rewrite Forall_forall in B. apply B. apply list_elem_of_fmap. eauto.
Qed.

Lemma levels_fill f g : (levels g < levels (fill f g))%nat.
Proof.
  assert (Hf : forall ks n, (n <= foldr (fun (k : Pos_ * gtree) n => Nat.max (levels k.2) n) n ks)%nat).
  { induction ks as [|k ks IH]; intros n; cbn; [done|]. specialize (IH n). lia. }
  destruct f as [id ks|id g0 ks1 p ks2]; cbn; [specialize (Hf ks (levels g)); lia|].
  rewrite foldr_app. cbn. specialize (Hf ks1 (Nat.max (levels g) (foldr (fun k n => Nat.max (levels k.2) n) (levels g0) ks2))). lia.
Qed.

(** Fetching the root page of a subtree. *)
Lemma fetch_leaf_wp t id es :
  part_ok t (GLeaf id es) ->
  wp (fetch_page crc id) t
    (fun r t' => quiet crc t t' /\ page_is crc id Leaf (map leaf_encode es) r.2 /\ holds (t_cache t') r.1 id r.2)
    (fun e t' => e = ResourceLimit /\ quiet crc t t').
Proof.
  intros Hp. destruct (part_page t _ (id, Leaf, map leaf_encode es) Hp ltac:(cbn; set_solver)) as [Hpg Hid].
  eapply st_wp_mono; [apply (fetch_page_wp crc t (id, Leaf, map leaf_encode es) (pt_pool _ _ Hp) Hpg ltac:(cbn in *; lia))|..]; naive_solver.
Qed.
Lemma fetch_node_wp t id g0 ks :
  part_ok t (GNode id g0 ks) ->
  wp (fetch_page crc id) t
    (fun r t' => quiet crc t t' /\ page_is crc id Internal (node_records (gid g0) (kid_ids ks)) r.2 /\ holds (t_cache t') r.1 id r.2)
    (fun e t' => e = ResourceLimit /\ quiet crc t t').
Proof.
  intros Hp. set (x := (id, Internal, node_records (gid g0) (kid_ids ks))).
  destruct (part_page t _ x Hp ltac:(cbn; set_solver)) as [Hpg Hid].
  eapply st_wp_mono; [apply (fetch_page_wp crc t x (pt_pool _ _ Hp) Hpg ltac:(cbn in *; lia))|..]; naive_solver.
Qed.

(** The entry of a node at an index. *)
Lemma node_entry_at t id g0 ks p j e :
  part_ok t (GNode id g0 ks) -> page_is crc id Internal (node_records (gid g0) (kid_ids ks)) p ->
  node_entries (gid g0) (kid_ids ks) !! j = Some e -> (r ← page_record p (Z.of_nat j); internal_decode r) = Ok e.
Proof.
  intros Hp Hi He. eapply node_decode; [done|done|].
  pose proof (node_entries_ok id g0 ks (t_next t) (pt_items _ _ Hp) (pt_bound _ _ Hp) ltac:(pose proof (pt_next _ _ Hp); lia)) as Hok.
  rewrite Forall_forall in Hok. apply Hok. by eapply list_elem_of_lookup_2.
Qed.

Lemma range_drop n : drop 1 (range (Z.of_nat (S n))) = map Z.of_nat (seq 1 n).
Proof. unfold range. rewrite Nat2Z.id. done. Qed.

(** How a walk can fail: every frame is pinned or dirty, or the tree is too deep. *)
Definition read_error (deep : Prop) (t : Tree) (e : ErrorCode) (t' : Tree) : Prop :=
  (e = ResourceLimit \/ e = Corruption /\ deep) /\ quiet crc t t'.
Lemma fetch_error (deep : Prop) t e t' : e = ResourceLimit /\ quiet crc t t' -> read_error deep t e t'.
Proof. intros [-> Hq]. split; [by left|done]. Qed.
Lemma read_error_after (deep deep' : Prop) t t1 e t' : quiet crc t t1 -> (deep -> deep') -> read_error deep t1 e t' -> read_error deep' t e t'.
Proof. intros Hq Hd [He Hq1]. split; [tauto|]. by eapply tree_quiet_trans. Qed.
Lemma read_error_limit deep t e t' : ~ deep -> read_error deep t e t' -> e = ResourceLimit /\ quiet crc t t'.
Proof. unfold read_error. tauto. Qed.
Lemma levels_pos g : (0 < levels g)%nat.
Proof. destruct g; cbn; lia. Qed.

Lemma descend_from_wp key seq_ fuel : forall g path t,
  part_ok t g ->
  wp (descend_from crc fuel path (gid g) key seq_) t
    (fun p t' => quiet crc t t' /\ exists ctx id es, g = plug ctx (GLeaf id es) /\ p = path ++ path_of ctx id /\
       Forall (before (key, seq_)) (c_left ctx) /\ Forall (after (key, seq_)) (c_right ctx) /\ (length ctx < fuel)%nat)
    (read_error (fuel < levels g)%nat t).
Proof.
  induction fuel as [|fuel IH]; intros g path t Hp.
  { apply st_wp_fail. split; [right; split; [done|apply levels_pos]|apply tree_quiet_refl, Hp]. }
  cbn [descend_from]. destruct g as [id es|id g0 ks]; cbn [gid].
  - apply st_wp_bind. eapply st_wp_mono; [by apply fetch_leaf_wp| |by apply fetch_error]. intros [i p] t' (Hq & Hi & _). cbn in Hi.
    apply st_wp_bind. eapply st_wp_lift; [by eapply page_is_type|]. apply st_wp_ret. split; [done|].
    exists [], id, es. split_and!; [done|done|constructor|constructor|cbn; lia].
  - apply st_wp_bind. eapply st_wp_mono; [by eapply fetch_node_wp| |by apply fetch_error]. intros [i p] t1 (Hq & Hi & _). cbn in Hi.
    apply st_wp_bind. eapply st_wp_lift; [by eapply page_is_type|].
    pose proof (page_is_count _ _ _ _ _ Hi) as Hc. rewrite node_records_entries, length_map in Hc. cbn [node_entries length] in Hc.
    rewrite length_map in Hc. unfold kid_ids in Hc. rewrite length_map in Hc. rewrite Hc.
    destruct (Z.eqb_spec (Z.of_nat (S (length ks))) 0); [lia|]. rewrite range_drop.
    destruct (child_index_spec p key seq_ (map (fun k => MkInternal k.1.1 k.1.2 k.2) (kid_ids ks)) 1 0) as (n0 & Hn & Hle & Hgt & Hci).
    { intros j e Hj. apply (node_entry_at t id g0 ks); [done|done|]. exact Hj. }
    unfold kid_ids in Hn. rewrite !length_map in Hn. unfold kid_ids in Hci. rewrite !length_map in Hci.
    destruct (choose_child id g0 ks (key, seq_) n0) as (f & g' & Hfill & Hfid & Hfi & Hbef & Haft).
    + apply Hp.
    + done.
    + apply Forall_forall. intros k Hk. rewrite Forall_forall in Hle.
      apply (Hle (MkInternal k.1.1 k.1.2 (gid k.2))). unfold kid_ids. rewrite map_map, <- fmap_take.
      apply list_elem_of_fmap. by exists k.
    + intros k Hk. apply (Hgt (MkInternal k.1.1 k.1.2 (gid k.2))). unfold kid_ids. rewrite map_map, list_lookup_fmap, Hk. done.
    + apply st_wp_bind. eapply st_wp_lift; [exact Hci|]. apply st_wp_bind.
      assert (Hidx : (if (n0 =? 0)%nat then 0 else Z.of_nat (1 + n0) - 1) = Z.of_nat n0) by (destruct n0; cbn; lia).
      rewrite Hidx. pose proof (frame_entry f g' id g0 ks Hfill) as He. rewrite Hfi, Nat2Z.id in He.
      destruct He as (e & He & Hch). eapply st_wp_lift; [by eapply node_entry_at|]. rewrite Hch.
      rewrite <- Hfill in Hp. pose proof (levels_fill f g') as Hlv.
      eapply st_wp_mono; [apply (IH g'); apply part_fill with f; by eapply part_quiet|..].
      * intros p' t2 (Hq2 & ctx & lid & es & Hg & -> & Hb & Ha & Hlen). split; [by eapply tree_quiet_trans|].
        exists (ctx ++ [f]), lid, es. rewrite plug_app, path_of_snoc, c_left_app, c_right_app. cbn. split_and!.
        -- by rewrite <- Hg, Hfill.
        -- rewrite Hfid, Hfi. by rewrite <- app_assoc.
        -- apply Forall_app. by split.
        -- rewrite app_nil_r. apply Forall_app. by split.
        -- rewrite length_app. cbn. lia.
      * intros e' t2. apply read_error_after; [done|]. rewrite Hfill in Hlv. lia.
Qed.

Lemma descend_wp t g key seq_ :
  tree_ok crc t g ->
  wp (descend crc key seq_) t
    (fun p t' => quiet crc t t' /\ exists ctx id es, g = plug ctx (GLeaf id es) /\ p = path_of ctx id /\
       Forall (before (key, seq_)) (c_left ctx) /\ Forall (after (key, seq_)) (c_right ctx) /\ (length ctx < MAX_DEPTH)%nat)
    (read_error (MAX_DEPTH < levels g)%nat t).
Proof.
  intros Ht. unfold descend. apply st_wp_bind, st_wp_reads. rewrite (tk_root _ _ _ Ht).
  apply (descend_from_wp key seq_ MAX_DEPTH g [] t). by apply tree_part.
Qed.

(** ** Neighbours *)
Lemma leaves_node id g ks : leaves (GNode id g ks) = (leaves g + kids_leaves ks)%nat.
Proof. cbn. unfold kids_leaves. induction ks as [|k ks IH]; cbn; lia. Qed.
Lemma levels_plug ctx g : (levels g <= levels (plug ctx g))%nat.
Proof. revert g. induction ctx as [|f ctx IH]; intros g; cbn; [done|]. pose proof (levels_fill f g). specialize (IH (fill f g)). lia. Qed.

Lemma node_count id g0 ks p : page_is crc id Internal (node_records (gid g0) (kid_ids ks)) p -> slot_count p = 1 + Z.of_nat (length ks).
Proof.
  intros Hi. rewrite (page_is_count _ _ _ _ _ Hi), node_records_entries, length_map. unfold node_entries, kid_ids.
  cbn [length]. rewrite !length_map. lia.
Qed.

Lemma leftmost_path_wp fuel : forall g path t,
  part_ok t g ->
  wp (leftmost_path crc fuel path (gid g)) t
    (fun p t' => quiet crc t t' /\ exists ctx id es, g = plug ctx (GLeaf id es) /\ p = path ++ path_of ctx id /\
       c_left ctx = [] /\ leaves g = S (c_leaves ctx))
    (read_error (fuel < levels g)%nat t).
Proof.
  induction fuel as [|fuel IH]; intros g path t Hp.
  { apply st_wp_fail. split; [right; split; [done|apply levels_pos]|apply tree_quiet_refl, Hp]. }
  cbn [leftmost_path]. destruct g as [id es|id g0 ks]; cbn [gid].
  - apply st_wp_bind. eapply st_wp_mono; [by apply fetch_leaf_wp| |by apply fetch_error]. intros [i p] t' (Hq & Hi & _). cbn in Hi.
    apply st_wp_bind. eapply st_wp_lift; [by eapply page_is_type|]. apply st_wp_ret. split; [done|].
    exists [], id, es. by split_and!.
  - apply st_wp_bind. eapply st_wp_mono; [by eapply fetch_node_wp| |by apply fetch_error]. intros [i p] t1 (Hq & Hi & _). cbn in Hi.
    apply st_wp_bind. eapply st_wp_lift; [by eapply page_is_type|]. apply st_wp_bind.
    eapply st_wp_lift; [apply (node_entry_at t id g0 ks p 0 (leftmost (gid g0))); done|].
    change (GNode id g0 ks) with (fill (FFirst id ks) g0) in Hp. pose proof (levels_fill (FFirst id ks) g0) as Hlv.
    eapply st_wp_mono; [apply (IH g0); apply part_fill with (FFirst id ks); by eapply part_quiet|..].
    + intros p' t2 (Hq2 & ctx & lid & es & Hg & -> & Hb & Hlf). split; [by eapply tree_quiet_trans|].
      exists (ctx ++ [FFirst id ks]), lid, es. rewrite plug_app, path_of_snoc, c_left_app, c_leaves_app, leaves_node. cbn.
      split_and!; [by rewrite <- Hg|by rewrite <- app_assoc|done|unfold kids_leaves; lia].
    + intros e' t2. apply read_error_after; [done|]. cbn [fill] in Hlv. lia.
Qed.

(** The frame around the next sibling of a hole. *)
Lemma next_frame f g p' g' r : f_rest f = (p', g') :: r ->
  exists f', fill f' g' = fill f g /\ f_id f' = f_id f /\ f_index f' = f_index f + 1 /\
    f_left f' = f_left f ++ inorder g ++ [Sep p'] /\ f_rest f' = r.
Proof.
  destruct f as [id ks|id g0 ks1 p ks2]; cbn; intros ->.
  - exists (FNext id g [] p' r). by split_and!.
  - exists (FNext id g0 (ks1 ++ [(p, g)]) p' r). cbn. split_and!; try done.
    + by rewrite <- app_assoc.
    + rewrite length_app. cbn. lia.
    + unfold kids_order. rewrite flat_map_app. cbn. by rewrite app_nil_r, <- !app_assoc.
Qed.

Lemma next_sibling_wp t : forall ctx g,
  part_ok t (plug ctx g) ->
  wp (next_sibling crc (c_path ctx)) t
    (fun r t' => quiet crc t t' /\ match r with
       | Some p => exists ctx' id es, plug ctx g = plug ctx' (GLeaf id es) /\ p = path_of ctx' id /\
           items_entries (c_left ctx') = items_entries (c_left ctx) ++ entries g /\ (c_leaves ctx' < c_leaves ctx)%nat
       | None => items_entries (c_right ctx) = []
       end)
    (read_error (MAX_DEPTH < levels (plug ctx g))%nat t).
Proof.
  intros ctx. revert t. induction ctx as [|f ctx IH]; intros t g Hp; cbn [c_path map next_sibling].
  { apply st_wp_ret. split; [apply tree_quiet_refl, Hp|done]. }
  fold (c_path ctx). cbn [plug] in Hp |- *. pose proof (part_plug _ _ _ Hp) as Hpf.
  destruct (fill f g) as [|id g0 ks] eqn:Hfill; [by destruct f|].
  assert (Hfid : f_id f = id) by (destruct f; by simplify_eq/=). rewrite Hfid.
  apply st_wp_bind. eapply st_wp_mono; [by eapply fetch_node_wp| |by apply fetch_error]. intros [i p] t1 (Hq & Hi & _). cbn in Hi.
  rewrite (node_count _ _ _ _ Hi).
  assert (Hlen : Z.of_nat (length ks) = f_index f + Z.of_nat (length (f_rest f))).
  { destruct f; simplify_eq/=; [lia|]. rewrite length_app. cbn. lia. }
  assert (Hidx : 0 <= f_index f) by (destruct f; cbn; lia).
  destruct (f_rest f) as [|[p' g'] r] eqn:Er.
  - destruct (Z.ltb_spec (f_index f + 1) (1 + Z.of_nat (length ks))); [cbn in *; lia|].
    rewrite <- Hfill in Hp |- *. eapply st_wp_mono; [apply (IH t1 (fill f g)); by eapply part_quiet|..].
    + intros [path|] t2 [Hq2 Hr]; (split; [by eapply tree_quiet_trans|]).
      * destruct Hr as (ctx' & lid & es & Hg & -> & Hent & Hlv). exists ctx', lid, es. rewrite Hfill in Hg.
        cbn. rewrite Hfill. split_and!; [done|done| |rewrite Er; cbn; lia].
        rewrite Hent. unfold entries. rewrite inorder_fill, !items_entries_app. unfold f_right. rewrite Er. cbn. by rewrite app_nil_r, app_assoc.
      * cbn. unfold f_right. by rewrite Er.
    + intros e' t2. by apply read_error_after.
  - destruct (Z.ltb_spec (f_index f + 1) (1 + Z.of_nat (length ks))); [|cbn in *; lia].
    destruct (next_frame f g p' g' r Er) as (f' & Hf' & Hid' & Hix' & Hleft & Hrest). rewrite Hfill in Hf'.
    destruct (frame_entry f' g' id g0 ks Hf') as (e & He & Hch). rewrite Hix' in He.
    apply st_wp_bind. eapply st_wp_lift.
    { replace (f_index f + 1) with (Z.of_nat (Z.to_nat (f_index f + 1))) by lia. by eapply (node_entry_at t). }
    rewrite Hch. apply st_wp_bind. rewrite <- Hf' in Hp, Hpf |- *. pose proof (levels_fill f' g') as L1.
    pose proof (levels_plug ctx (fill f' g')) as L2.
    eapply st_wp_mono; [apply (leftmost_path_wp MAX_DEPTH g'); apply part_fill with f'; by eapply part_quiet|..].
    + intros path t2 (Hq2 & ctx1 & lid & es & Hg & -> & Hcl & Hlv). apply st_wp_ret. split; [by eapply tree_quiet_trans|].
      exists (ctx1 ++ f' :: ctx), lid, es. rewrite plug_app, c_left_app, c_leaves_app. cbn. rewrite <- Hg, Hf', <- Hfill. split_and!.
      * done.
      * unfold path_of, c_path. rewrite map_app, rev_app_distr. cbn. rewrite Hid', Hix', Hfid. by rewrite <- !app_assoc.
      * rewrite Hcl, app_nil_r, Hleft, !items_entries_app. unfold entries. cbn. by rewrite app_nil_r, app_assoc.
      * rewrite Hrest, Er. unfold kids_leaves. cbn. lia.
    + intros e' t2. apply read_error_after; [done|]. lia.
Qed.

Lemma right_neighbor_wp t ctx id es :
  part_ok t (plug ctx (GLeaf id es)) ->
  wp (right_neighbor_path crc (path_of ctx id)) t
    (fun r t' => quiet crc t t' /\ match r with
       | Some p => exists ctx' id' es', plug ctx (GLeaf id es) = plug ctx' (GLeaf id' es') /\ p = path_of ctx' id' /\
           items_entries (c_left ctx') = items_entries (c_left ctx) ++ es /\ (c_leaves ctx' < c_leaves ctx)%nat
       | None => items_entries (c_right ctx) = []
       end)
    (read_error (MAX_DEPTH < levels (plug ctx (GLeaf id es)))%nat t).
Proof.
  intros Hp. unfold right_neighbor_path, path_of. rewrite removelast_last, rev_involutive.
  pose proof (next_sibling_wp t ctx (GLeaf id es) Hp) as H. unfold entries in H. cbn [inorder] in H. rewrite items_entries_map in H.
  exact H.
Qed.

Lemma path_leaf_of ctx id : path_leaf (path_of ctx id) = Ok id.
Proof. unfold path_leaf, path_of. by rewrite last_snoc. Qed.

(** ** Reading a version *)
(** The reference: the first entry of the key at or below the sequence number,
    which is the newest, as versions of a key are listed newest first. *)
Definition matches (key : bytes) (v : Z) (e : LeafEntry) : bool := bool_decide (le_key e = key) && (le_seq e <=? v).
Definition visible (key : bytes) (v : Z) (es : list LeafEntry) : option LeafEntry := find (matches key v) es.

Lemma visible_app key v l r : Forall (fun e => matches key v e = false) l -> visible key v (l ++ r) = visible key v r.
Proof. unfold visible. induction 1 as [|e l He _ IH]; cbn; [done|]. by rewrite He. Qed.
Lemma visible_found key v l r e : visible key v l = Some e -> visible key v (l ++ r) = Some e.
Proof. unfold visible. induction l as [|x l IH]; cbn; [done|]. by destruct (matches key v x). Qed.
Lemma visible_none key v l : Forall (fun e => matches key v e = false) l -> visible key v l = None.
Proof. intros H. rewrite <- (app_nil_r l). by rewrite visible_app. Qed.

Definition sorted_entries := (StronglySorted (fun a b : LeafEntry => Plt (epos a) (epos b))).
Lemma ordered_entries l : ordered l -> sorted_entries (items_entries l).
Proof.
  induction l as [|x l IH]; intros H; [constructor|]. apply ordered_cons in H as [Ho Hx]. specialize (IH Ho).
  destruct x as [e|p]; cbn; [|done]. constructor; [done|]. apply Forall_forall. intros e' He'%elem_of_items_entries.
  apply (Hx _ He').
Qed.
Lemma Plt_key a b key : Plt a b -> bytes_cmp key a.1 = Lt -> bytes_cmp key b.1 = Lt.
Proof.
  unfold Plt, pos_lt, leaf_cmp. destruct (bytes_cmp a.1 b.1) eqn:E; intros H1 H2; [|..|done].
  - by apply bytes_cmp_eq in E as <-.
  - pose proof (bytes_ltb_trans key a.1 b.1) as H. unfold bytes_ltb in H. rewrite H2, E in H. specialize (H eq_refl eq_refl).
    by destruct (bytes_cmp key b.1).
Qed.

Definition decodes (p : bytes) (k : nat) (es : list LeafEntry) : Prop :=
  forall j e, es !! j = Some e -> page_record p (Z.of_nat (k + j)) = Ok (leaf_encode e) /\ leaf_decode (leaf_encode e) = Ok e.
Lemma decodes_cons p k e es : decodes p k (e :: es) ->
  page_record p (Z.of_nat k) = Ok (leaf_encode e) /\ leaf_decode (leaf_encode e) = Ok e /\ decodes p (S k) es.
Proof.
  intros H. pose proof (H 0%nat e eq_refl) as [H1 H2]. rewrite Nat.add_0_r in H1. split_and!; [done|done|].
  intros j e' Hj. replace (S k + j)%nat with (k + S j)%nat by lia. by apply H.
Qed.
Lemma leaf_decodes id es p : page_is crc id Leaf (map leaf_encode es) p -> Forall entry_ok es -> decodes p 0 es.
Proof.
  intros Hp Hok j e He. rewrite Forall_forall in Hok. eapply leaf_record_decode; [done|done|]. apply Hok. by eapply list_elem_of_lookup_2.
Qed.
Lemma leaf_range id es p : page_is crc id Leaf (map leaf_encode es) p -> range (slot_count p) = map Z.of_nat (seq 0 (length es)).
Proof. intros Hp. rewrite (page_is_count _ _ _ _ _ Hp), length_map. unfold range. by rewrite Nat2Z.id. Qed.

Lemma leaf_find_spec p key v : forall es k lk,
  decodes p k es -> (forall x, lk = Some x -> bytes_cmp x key <> Gt) ->
  exists r, leaf_find p (map Z.of_nat (seq k (length es))) key v lk = Ok r /\ match r with
    | Found e => visible key v es = Some e
    | Absent => exists pre e post, es = pre ++ e :: post /\ Forall (fun e => matches key v e = false) pre /\ bytes_cmp key (le_key e) = Lt
    | Beyond l => Forall (fun e => matches key v e = false) es /\ forall x, l = Some x -> bytes_cmp x key <> Gt
    end.
Proof.
  induction es as [|e es IH]; intros k lk Hd Hlk; cbn.
  { exists (Beyond lk). split_and!; [done|constructor|done]. }
  apply decodes_cons in Hd as (Hr & Hdec & Hd). rewrite Hr. cbn [mbind outcome_bind]. rewrite Hdec. cbn [mbind outcome_bind].
  destruct (bytes_cmp (le_key e) key) eqn:Ec.
  - apply bytes_cmp_eq in Ec as Ek. unfold visible, matches. cbn. rewrite bool_decide_eq_true_2 by done. cbn.
    destruct (le_seq e <=? v) eqn:Ev; [by exists (Found e)|].
    destruct (IH (S k) (Some (le_key e)) Hd) as (r & Hf & Hs); [by intros x [= <-]; rewrite Ec|]. exists r. split; [done|].
    assert (Hm : matches key v e = false) by (unfold matches; by rewrite Ev, andb_false_r).
    destruct r; [done| |].
    + destruct Hs as (pre & e' & post & -> & Hp & Hk). exists (e :: pre), e', post. split_and!; [done|by constructor|done].
    + destruct Hs as [Hs1 Hs2]. split; [by constructor|done].
  - destruct (IH (S k) (Some (le_key e)) Hd) as (r & Hf & Hs); [by intros x [= <-]; rewrite Ec|]. exists r. split; [done|].
    assert (Hm : matches key v e = false).
    { unfold matches. rewrite bool_decide_eq_false_2; [done|]. intros Hk%bytes_cmp_eq. congruence. }
    destruct r.
    + unfold visible. cbn. by rewrite Hm.
    + destruct Hs as (pre & e' & post & -> & Hp & Hk). exists (e :: pre), e', post. split_and!; [done|by constructor|done].
    + destruct Hs as [Hs1 Hs2]. split; [by constructor|done].
  - exists Absent. split; [done|]. exists [], e, es. split_and!; [done|constructor|]. by rewrite bytes_cmp_antisym, Ec.
Qed.

Lemma later_keys key v e l : sorted_entries (e :: l) -> bytes_cmp key (le_key e) = Lt -> Forall (fun e => matches key v e = false) (e :: l).
Proof.
  intros Hs Hk. assert (Hne : forall x, bytes_cmp key (le_key x) = Lt -> matches key v x = false).
  { intros x Hx. unfold matches. rewrite bool_decide_eq_false_2; [done|]. intros Heq. rewrite Heq in Hx. by rewrite bytes_cmp_refl in Hx. }
  inversion Hs as [|? ? _ HF]; subst. constructor; [by apply Hne|]. eapply Forall_impl; [exact HF|].
  intros x Hx. apply Hne. by eapply (Plt_key (epos e) (epos x)).
Qed.

Lemma leaves_pos g : (1 <= leaves g)%nat.
Proof. induction g as [id es|id g0 ks IH0 _] using gtree_ind'; [done|]. rewrite leaves_node. lia. Qed.
Lemma c_leaves_lt ctx g : (c_leaves ctx < leaves (plug ctx g))%nat.
Proof.
  assert (Hgen : forall ctx g, (c_leaves ctx + leaves g <= leaves (plug ctx g))%nat).
  { clear. induction ctx as [|f ctx IH]; intros g; cbn; [done|]. specialize (IH (fill f g)).
    assert (leaves g + kids_leaves (f_rest f) <= leaves (fill f g))%nat; [|lia].
    destruct f as [fid ks|fid g0 ks1 p ks2]; cbn [fill f_rest]; rewrite leaves_node; [lia|]. unfold kids_leaves. rewrite foldr_app. cbn.
    assert (Hge : forall l n, (n <= foldr (fun (k : Pos_ * gtree) n => leaves k.2 + n) n l)%nat)
      by (induction l as [|k l IHl]; intros n; cbn; [done|specialize (IHl n); lia]).
    specialize (Hge ks1 (leaves g + foldr (fun k n => leaves k.2 + n) 0 ks2)%nat). lia. }
  specialize (Hgen ctx g). pose proof (leaves_pos g). lia.
Qed.

Lemma get_loop_wp key v fuel : forall ctx id es t,
  part_ok t (plug ctx (GLeaf id es)) -> Forall (fun e => matches key v e = false) (items_entries (c_left ctx)) ->
  wp (get_loop crc fuel (path_of ctx id) key v) t
    (fun r t' => quiet crc t t' /\ r = visible key v (entries (plug ctx (GLeaf id es))))
    (read_error (MAX_DEPTH < levels (plug ctx (GLeaf id es)) \/ fuel <= c_leaves ctx)%nat t).
Proof.
  induction fuel as [|fuel IH]; intros ctx id es t Hp Hm.
  { apply st_wp_fail. split; [right; split; [done|right; lia]|apply tree_quiet_refl, Hp]. } cbn [get_loop].
  apply st_wp_bind. eapply st_wp_lift; [apply path_leaf_of|]. pose proof (part_plug _ _ _ Hp) as Hpl.
  apply st_wp_bind. eapply st_wp_mono; [by apply fetch_leaf_wp| |by apply fetch_error]. intros [i p] t1 (Hq & Hi & _). cbn in Hi.
  assert (Hok : Forall entry_ok es).
  { pose proof (pt_items _ _ Hpl) as Hit. cbn in Hit. apply (Forall_fmap Ent) in Hit. exact Hit. }
  rewrite (leaf_range _ _ _ Hi).
  destruct (leaf_find_spec p key v es 0 None (leaf_decodes _ _ _ Hi Hok) ltac:(done)) as (r & Hr & Hs).
  apply st_wp_bind. eapply st_wp_lift; [exact Hr|].
  pose proof (ordered_entries _ (pt_ordered _ _ Hp)) as Hso. fold (entries (plug ctx (GLeaf id es))) in Hso.
  assert (Hent : entries (plug ctx (GLeaf id es)) = items_entries (c_left ctx) ++ es ++ items_entries (c_right ctx)).
  { rewrite entries_plug. unfold entries. cbn. by rewrite items_entries_map. }
  rewrite Hent in Hso |- *. rewrite visible_app by done. destruct r as [e| |lk].
  - apply st_wp_ret. split; [done|]. symmetry. by apply visible_found.
  - destruct Hs as (pre & e & post & -> & Hpre & Hk). apply st_wp_ret. split; [done|]. rewrite <- app_assoc, visible_app by done.
    symmetry. apply visible_none. cbn. apply later_keys; [|done].
    apply StronglySorted_app in Hso as (_ & _ & Hso). rewrite <- app_assoc in Hso. by apply StronglySorted_app in Hso as (_ & _ & Hso).
  - destruct Hs as [Hnm Hlk].
    assert (match lk with Some k => bytes_ltb key k | None => false end = false) as ->.
    { destruct lk as [k|]; [|done]. specialize (Hlk k eq_refl). unfold bytes_ltb. rewrite (bytes_cmp_antisym k key). by destruct (bytes_cmp k key). }
    apply st_wp_bind. eapply st_wp_mono; [apply right_neighbor_wp; by eapply part_quiet|..].
    + intros [path|] t2 [Hq2 Hn].
      * destruct Hn as (ctx' & id' & es' & Hg & -> & Hcl & Hlv). rewrite Hg in Hp |- *.
        eapply st_wp_mono; [apply (IH ctx' id' es' t2)|..].
        -- eapply part_quiet; [|exact Hp]. by eapply tree_quiet_trans.
        -- rewrite Hcl. apply Forall_app. by split.
        -- intros r t3 [Hq3 ->]. split; [by do 2 (eapply tree_quiet_trans; [done|])|].
           rewrite <- Hg, Hent. by rewrite visible_app.
        -- intros e t3. apply read_error_after; [by eapply tree_quiet_trans|]. lia.
      * apply st_wp_ret. split; [by eapply tree_quiet_trans|]. rewrite Hn, app_nil_r. symmetry. by apply visible_none.
    + intros e t2. apply read_error_after; [done|]. by left.
Qed.

(** Depth and leaves beyond the guards of the loops. *)
Definition too_big (g : gtree) : Prop := (MAX_DEPTH < levels g \/ GET_GUARD < leaves g)%nat.

(** [get_version] returns the newest version of the key that is visible. *)
Lemma get_version_wp t g key v :
  tree_ok crc t g ->
  wp (get_version crc key v) t
    (fun r t' => quiet crc t t' /\ r = visible key v (entries g))
    (read_error (too_big g) t).
Proof.
  intros Ht. unfold get_version. apply st_wp_bind.
  eapply st_wp_mono; [by apply descend_wp|..].
  2:{ intros e t'. apply read_error_after; [apply tree_quiet_refl, Ht|by left]. }
  intros path t1 (Hq & ctx & id & es & Hg & -> & Hb & Ha & _). subst g.
  eapply st_wp_mono; [apply get_loop_wp|..].
  - eapply part_quiet; [done|]. by apply tree_part.
  - apply Forall_forall. intros e He%elem_of_items_entries. rewrite Forall_forall in Hb. specialize (Hb _ He). cbn in Hb.
    assert (Hseq : le_seq e < 2 ^ 64).
    { pose proof (tk_items _ _ _ Ht) as Hit. rewrite inorder_plug in Hit. apply Forall_app in Hit as [Hit _].
      rewrite Forall_forall in Hit. destruct (Hit _ He) as (_ & Hs & _). apply in_u_spec in Hs. lia. }
    unfold matches. apply andb_false_iff. left. apply bool_decide_eq_false. intros Heq.
    unfold Plt, pos_lt, leaf_cmp, epos in Hb. cbn [fst snd] in Hb. rewrite Heq, bytes_cmp_refl in Hb.
    destruct (Z.compare_spec (2 ^ 64 - 1) (le_seq e)); [done|lia|done].
  - intros r t2 [Hq2 ->]. split; [by eapply tree_quiet_trans|done].
  - intros e t2. apply read_error_after; [done|]. pose proof (c_leaves_lt ctx (GLeaf id es)) as Hc. unfold too_big. lia.
Qed.
End read.
