(* ===== verification/BTreeInsert.v ===== *)
(** * Inserting into the tree

    [insert_version] adds the entry to the ordered entries of the tree, through
    any number of page splits, or reports that it is already there. *)

From Stdlib Require Import Sorted.
From stdpp Require Import gmap sorting.
From S2P Require Import Prelude Errors StateMonad StoreFormat Journal BufferPool SlotPage BTree BTreeShape BTreeRead.
#[local] Open Scope Z_scope.

Definition fits (recs : list bytes) : bool := PAGE_HEADER_LEN + records_size recs <=? PAGE_SIZE.
Definition CAP : Z := PAGE_SIZE - PAGE_HEADER_LEN.

(** ** Where a full page is cut *)
Section balance.
Context (M : Z).
Lemma records_size_le recs : Forall (fun r => zlen r + 4 <= M) recs -> records_size recs <= M * Z.of_nat (length recs).
Proof. induction 1 as [|r recs Hr _ IH]; cbn [records_size foldr length]; [lia|]. fold (records_size recs). lia. Qed.
Lemma records_size_ge m recs : Forall (fun r => m <= zlen r + 4) recs -> m * Z.of_nat (length recs) <= records_size recs.
Proof. induction 1 as [|r recs Hr _ IH]; cbn [records_size foldr length]; [lia|]. fold (records_size recs). lia. Qed.

(** The balance point leaves both sides non-empty; the left side is at most one
    record past the half, and either reaches the half or leaves one record. *)
Lemma balance_spec half len dflt : forall post pre acc,
  acc = records_size pre -> acc < half \/ pre = [] -> half <= records_size (pre ++ post) -> post <> [] ->
  len = Z.of_nat (length (pre ++ post)) -> 2 <= len -> Forall (fun r => zlen r + 4 <= M) post ->
  let s := Z.to_nat (balance (Z.of_nat (length pre)) acc half len post dflt) in
  (1 <= s < length (pre ++ post))%nat /\ records_size (take s (pre ++ post)) <= Z.max half 0 + M /\
  (half <= records_size (take s (pre ++ post)) \/ S s = length (pre ++ post)).
Proof.
  induction post as [|r post IH]; intros pre acc Hacc Hlt Htot Hne Hlen H2 HM s; [done|]. subst s. cbn [balance].
  apply Forall_cons in HM as [Hr HM].
  assert (Hsz : records_size (pre ++ [r]) = acc + zlen r + 4) by (rewrite records_size_app, <- Hacc; cbn; lia).
  rewrite length_app in Hlen. cbn [length] in Hlen. rewrite length_app. cbn [length].
  destruct (Z.leb_spec half (acc + zlen r + 4)) as [Hge|Hlt'].
  - destruct post as [|r' post].
    + cbn [length] in *. replace (Z.to_nat _) with (length pre) by lia.
      rewrite take_app_length. split_and!; [lia|lia| |right; lia]. destruct Hlt as [Hacc2| ->]; [unfold zlen in *; lia|cbn in *; lia].
    + cbn [length] in *. replace (Z.to_nat _) with (S (length pre)) by lia.
      assert (Ht : take (S (length pre)) (pre ++ r :: r' :: post) = pre ++ [r]).
      { rewrite (cons_middle r), app_assoc. apply take_app_length'. rewrite length_app. cbn. lia. }
      rewrite Ht, Hsz. split_and!; [lia|lia| |left; lia]. destruct Hlt as [Hacc2| ->]; [lia|cbn in *; lia].
  - destruct post as [|r' post].
    { exfalso. rewrite Hsz in Htot. lia. }
    specialize (IH (pre ++ [r]) (acc + zlen r + 4) (eq_sym Hsz) (or_introl Hlt')). rewrite <- app_assoc in IH. cbn [app] in IH.
    rewrite length_app in IH. cbn [length] in IH.
    rewrite !length_app in IH. cbn [length] in *. replace (Z.of_nat (length pre) + 1) with (Z.of_nat (length pre + 1)) by lia.
    apply IH; try done; lia.
Qed.
End balance.

Lemma records_size_nonneg recs : 0 <= records_size recs.
Proof. pose proof (records_size_pos recs). lia. Qed.

Lemma split_point_spec recs M :
  (2 <= length recs)%nat -> Forall (fun r => zlen r + 4 <= M) recs ->
  let s := split_point recs in
  (1 <= s < length recs)%nat /\ records_size (take s recs) <= records_size recs / 2 + M /\
  (records_size recs / 2 <= records_size (take s recs) \/ S s = length recs).
Proof.
  intros Hl HM. pose proof (records_size_nonneg recs) as H0.
  assert (Hh : 0 <= records_size recs / 2 <= records_size recs).
  { split; [apply Z.div_pos; lia|apply Z.div_le_upper_bound; lia]. }
  pose proof (balance_spec M (records_size recs / 2) (Z.of_nat (length recs)) (Z.of_nat (length recs) / 2) recs [] 0) as H.
  cbn [app length] in H. specialize (H eq_refl (or_intror eq_refl) ltac:(lia) ltac:(by destruct recs; cbn in Hl; [lia|]) eq_refl ltac:(lia) HM).
  cbn zeta in H |- *. unfold split_point. rewrite Z.max_l in H by lia. exact H.
Qed.

(** Small records: both halves of a leaf split fit. *)
Lemma leaf_halves_fit recs new :
  (2 <= length recs)%nat -> Forall (fun r => zlen r + 4 <= 2709) recs -> records_size recs <= CAP + new -> 0 <= new <= 2709 ->
  fits (take (split_point recs) recs) = true /\ fits (drop (split_point recs) recs) = true.
Proof.
  intros Hl HM Hs Hn. destruct (split_point_spec recs 2709 Hl HM) as (Hb & Hle & Hge). set (s := split_point recs) in *.
  assert (Hsum : records_size recs = records_size (take s recs) + records_size (drop s recs))
    by (by rewrite <- records_size_app, take_drop).
  pose proof (Z.div_mod (records_size recs) 2 ltac:(lia)) as Hd. pose proof (Z.mod_pos_bound (records_size recs) 2 ltac:(lia)).
  unfold fits, CAP, PAGE_SIZE, PAGE_HEADER_LEN in *. split; apply Z.leb_le; [lia|].
  destruct Hge as [Hge|Hge]; [lia|]. pose proof (records_size_le 2709 (drop s recs) ltac:(by apply Forall_drop)) as Hd1.
  rewrite length_drop in Hd1. lia.
Qed.
(** Likewise for an internal split, which cuts by count. *)
Lemma node_halves_fit recs c :
  (2 <= length recs)%nat -> Forall (fun r => 22 <= zlen r + 4 <= 406) recs -> records_size recs <= CAP + 406 ->
  let s := (length recs / 2)%nat in
  fits (take s recs) = true /\ fits (internal_encode (leftmost c) :: drop (S s) recs) = true.
Proof.
  intros Hl HM Hs s. pose proof (Nat.div_mod_eq (length recs) 2) as Hd. pose proof (Nat.mod_upper_bound (length recs) 2 ltac:(lia)) as Hm.
  fold s in Hd. assert (Hsl : (1 <= s < length recs)%nat) by lia.
  assert (HMx : Forall (fun r => zlen r + 4 <= 406) recs) by (eapply Forall_impl; [exact HM|]; cbn; lia).
  assert (HMn : Forall (fun r => 22 <= zlen r + 4) recs) by (eapply Forall_impl; [exact HM|]; cbn; lia).
  assert (Hsum : records_size recs = records_size (take s recs) + records_size (drop s recs))
    by (by rewrite <- records_size_app, take_drop).
  pose proof (records_size_le 406 (take s recs) ltac:(by apply Forall_take)) as L1.
  pose proof (records_size_ge 22 (take s recs) ltac:(by apply Forall_take)) as L2.
  pose proof (records_size_le 406 (drop s recs) ltac:(by apply Forall_drop)) as R1.
  pose proof (records_size_ge 22 (drop s recs) ltac:(by apply Forall_drop)) as R2.
  rewrite length_take, length_drop in *.
  destruct (lookup_lt_is_Some_2 recs s ltac:(lia)) as [r Hr].
  assert (Hds : records_size (drop s recs) = zlen r + 4 + records_size (drop (S s) recs)) by (by rewrite (drop_S recs r s Hr)).
  rewrite Forall_forall in HM. pose proof (HM r ltac:(by eapply list_elem_of_lookup_2)).
  unfold fits, CAP, PAGE_SIZE, PAGE_HEADER_LEN in *. split; apply Z.leb_le; [lia|].
  cbn [records_size foldr]. fold (records_size (drop (S s) recs)). rewrite internal_encode_length. change (zlen (ie_key (leftmost c))) with 0. lia.
Qed.

Section insert.
Context (crc : bytes -> Z) (lsn : Z).
Context (crc_range : forall b, in_u 32 (crc b) = true) (lsn_range : in_u 64 lsn = true).

(** ** Writing pages *)
(** The page [x] was written; nothing else changed, in memory or in the file. *)
Record wrote (t t' : Tree) (x : gpage) : Prop := {
  wr_pool : pool_ok crc (t_next t') (t_cache t');
  wr_root : t_root t' = t_root t;
  wr_next : t_next t' = t_next t;
  wr_file : pf_data (io (t_cache t')) = pf_data (io (t_cache t));
  wr_page : page_at crc (view crc (t_cache t')) x;
  wr_others : forall y, y <> x.1.1 -> view crc (t_cache t') y = view crc (t_cache t) y;
  wr_dirty : forall y, y <> x.1.1 -> dirty (t_cache t') y = dirty (t_cache t) y;
}.
Lemma quiet_wrote t t1 t2 x : quiet crc t t1 -> wrote t1 t2 x -> wrote t t2 x.
Proof.
  intros [P R N [V D I]] [P2 R2 N2 F2 G2 O2 D2]. constructor; [done|congruence|congruence|rewrite F2; by rewrite I|done|..].
  - intros y Hy. by rewrite O2.
  - intros y Hy. by rewrite D2.
Qed.

(** *** The errors of an insertion

    Never a panic, and the file is as it was.  [bad] is the case where a page
    could not be cut in two halves that fit. *)
Definition failed (bad : Prop) (t : Tree) (e : ErrorCode) (t' : Tree) : Prop :=
  (e = ResourceLimit \/ e = Io \/ (e = Corruption \/ e = ValueTooLarge) /\ bad) /\
  pf_data (io (t_cache t')) = pf_data (io (t_cache t)).
Lemma quiet_failed bad t t1 e : e = ResourceLimit /\ quiet crc t t1 -> failed bad t e t1.
Proof. intros [-> [_ _ _ [_ _ I]]]. split; [by left|by rewrite I]. Qed.
Lemma quiet_file t t1 : quiet crc t t1 -> pf_data (io (t_cache t1)) = pf_data (io (t_cache t)).
Proof. intros [_ _ _ [_ _ I]]. by rewrite I. Qed.
Lemma failed_file bad t t1 e t2 : pf_data (io (t_cache t1)) = pf_data (io (t_cache t)) -> failed bad t1 e t2 -> failed bad t e t2.
Proof. intros Hf [He Hf2]. split; [done|congruence]. Qed.

Lemma store_tree_wp n t i id ty recs new p q :
  pool_ok crc n (t_cache t) -> n <= t_next t -> holds (t_cache t) i id p -> page_is crc id ty recs p -> page_is crc id ty new q ->
  wp (in_cache (_ ← set_bytes i q; mark_dirty i lsn)) t (fun _ t' => pool_ok crc n (t_cache t') /\ wrote t t' (id, ty, new)) (fun _ _ => False).
Proof.
  intros Hp Hn Hh Hi Hq. apply wp_in_cache.
  eapply st_wp_mono; [by apply (store_wp crc n (t_cache t) i id p q lsn Hp Hh (page_is_length _ _ _ _ _ Hq))| |done].
  intros u c' (Hp' & Hio & Hh' & Hv & Hd). split; [done|]. constructor; cbn; try done; [by eapply pool_ok_mono|by rewrite Hio|..].
  - exists q. split; [cbn; by rewrite Hv, Z.eqb_refl|done].
  - intros y Hy. rewrite Hv. by destruct (Z.eqb_spec y id).
  - intros y Hy. rewrite Hd. by destruct (Z.eqb_spec y id).
Qed.

Lemma rewrite_frame_wp n t i id ty recs new p :
  pool_ok crc n (t_cache t) -> n <= t_next t -> holds (t_cache t) i id p -> page_is crc id ty recs p ->
  wp (rewrite_frame crc lsn i id new) t
    (fun b t' => b = fits new /\ pool_ok crc n (t_cache t') /\ if fits new then wrote t t' (id, ty, new) else t' = t) (fun _ _ => False).
Proof.
  intros Hp Hn Hh Hi. unfold rewrite_frame. pose proof Hh as (f & Hf & Hfid & Hfb). apply st_wp_bind.
  eapply st_wp_ok with (s' := t); [unfold in_cache, frame; rewrite Hf; by destruct t|]. rewrite Hfb.
  pose proof Hi as (Hl & Hfit & (h & Hr & Hok & Hh0) & _). apply st_wp_bind. eapply st_wp_lift; [exact Hr|].
  pose proof (write_records_is crc crc_range id ty recs h p new lsn Hl Hok Hh0 lsn_range) as Hw. fold (fits new) in Hw.
  apply st_wp_bind. destruct (fits new).
  - destruct Hw as (q & Hw & Hq). eapply st_wp_lift; [exact Hw|]. apply st_wp_bind.
    eapply st_wp_mono; [by eapply store_tree_wp| |done]. intros u t' [H1 H2]. by apply st_wp_ret.
  - eapply st_wp_lift; [exact Hw|]. by apply st_wp_ret.
Qed.

Lemma rewrite_page_wp n t x new :
  pool_ok crc n (t_cache t) -> n <= t_next t -> page_at crc (view crc (t_cache t)) x -> 0 <= x.1.1 < n ->
  wp (rewrite_page crc lsn x.1.1 new) t
    (fun b t' => b = fits new /\ pool_ok crc n (t_cache t') /\ if fits new then wrote t t' (x.1.1, x.1.2, new) else quiet crc t t')
    (fun e t' => e = ResourceLimit /\ quiet crc t t').
Proof.
  intros Hp Hn (p & Hv & Hi) Hid. unfold rewrite_page. apply st_wp_bind, wp_in_cache.
  eapply st_wp_mono; [by apply (fetch_wp crc n (t_cache t) _ p Hp Hv Hid)|..].
  - intros i c' (Hp' & Hs & Hh). set (t1 := t <| t_cache := c' |>).
    assert (Hq : quiet crc t t1) by (constructor; [by eapply pool_ok_mono|done..]).
    eapply st_wp_mono; [apply (rewrite_frame_wp n t1 i x.1.1 x.1.2 x.2 new p); done| |done].
    intros b t' (-> & H1 & H). split; [done|]. split; [done|]. destruct (fits new); [by eapply quiet_wrote|by subst].
  - intros e c' (-> & Hp' & Hs). split; [done|]. constructor; [by eapply pool_ok_mono|done..].
Qed.

(** *** Allocation and new pages *)
Lemma alloc_wp t Q E : 0 <= t_next t < 2 ^ 51 -> Q (t_next t) (t <| t_next := t_next t + 1 |>) -> wp alloc t Q E.
Proof.
  intros Hn HQ. unfold alloc. apply st_wp_bind, st_wp_reads, st_wp_bind. eapply st_wp_lift; [apply uadd_ok, in_u_spec; lia|].
  apply st_wp_bind, st_wp_update, st_wp_ret. exact HQ.
Qed.

Lemma new_page_wp t id ty new :
  pool_ok crc id (t_cache t) -> t_next t = id + 1 -> 0 <= id < 2 ^ 51 ->
  wp (new_page crc lsn id ty new) t
    (fun b t' => b = fits new /\ (fits new = true -> wrote t t' (id, ty, new)) /\ pf_data (io (t_cache t')) = pf_data (io (t_cache t)))
    (fun e t' => e = ResourceLimit /\ pf_data (io (t_cache t')) = pf_data (io (t_cache t))).
Proof.
  intros Hp Hn Hid. unfold new_page.
  destruct (blank_page_is crc crc_range id ty lsn ltac:(apply in_u_spec; lia) lsn_range) as (p & Hw & Hi).
  apply st_wp_bind, wp_in_cache.
  eapply st_wp_mono; [by apply (insert_new_wp crc id (id + 1) (t_cache t) id ty lsn p Hp ltac:(lia) ltac:(lia) Hw (page_is_length _ _ _ _ _ Hi))|..].
  - intros i c' (Hp' & Hio & Hh & Hv & Hd). set (t1 := t <| t_cache := c' |>).
    eapply st_wp_mono; [apply (rewrite_frame_wp (id + 1) t1 i id ty [] new p); [done|cbn; lia|done|done]| |done].
    intros b t' (-> & _ & H). split; [done|]. destruct (fits new).
    + destruct H as [P R N F G O D]. split; [|cbn in F; by rewrite F, Hio]. intros _. cbn in F. constructor; [exact P|exact R|exact N|by rewrite F, Hio|exact G|..].
      * intros y Hy. rewrite O by done. cbn. rewrite Hv. by destruct (Z.eqb_spec y id).
      * intros y Hy. rewrite D by done. cbn. rewrite Hd. by destruct (Z.eqb_spec y id).
    + subst t'. split; [done|]. cbn. by rewrite Hio.
  - intros e c' (-> & Hp' & [_ _ Hs]). split; [done|]. cbn. by rewrite Hs.
Qed.

(** ** The pages that change *)
Lemma page_at_wrote t t' x y : wrote t t' x -> y.1.1 <> x.1.1 -> page_at crc (view crc (t_cache t)) y -> page_at crc (view crc (t_cache t')) y.
Proof. intros Hw Hne (p & Hv & Hi). exists p. by rewrite (wr_others _ _ _ Hw). Qed.
Lemma stored_wrote t t' x ps : wrote t t' x -> x.1.1 ∉ page_ids ps -> stored crc (view crc (t_cache t)) ps -> stored crc (view crc (t_cache t')) ps.
Proof.
  intros Hw Hne. apply stored_view. intros y Hy. apply (wr_others _ _ _ Hw). by intros ->.
Qed.

Lemma split_fault_wp t : pool_ok crc (t_next t) (t_cache t) ->
  wp split_fault t (fun _ t' => quiet crc t t') (fun e t' => e = Io /\ quiet crc t t').
Proof.
  intros Hp. apply wp_in_cache. eapply st_wp_mono; [by apply io_fault_wp|..].
  - intros u c' [H1 H2]. by constructor.
  - intros e c' (-> & H1 & H2). split; [done|by constructor].
Qed.

(** ** A second child next to the hole *)
Definition fill2 (f : gframe) (g1 : gtree) (sep : Pos_) (g2 : gtree) : gtree :=
  match f with
  | FFirst id ks => GNode id g1 ((sep, g2) :: ks)
  | FNext id g0 ks1 p ks2 => GNode id g0 (ks1 ++ (p, g1) :: (sep, g2) :: ks2)
  end.

Lemma fill2_spec f g1 sep g2 : exists h0 hs,
  fill2 f g1 sep g2 = GNode (f_id f) h0 hs /\ (1 <= length hs)%nat /\
  inorder h0 ++ kids_order hs = f_left f ++ inorder g1 ++ Sep sep :: inorder g2 ++ f_right f /\
  gpages h0 ++ kids_pages hs ≡ₚ f_others f ++ gpages g1 ++ gpages g2 /\
  node_records (gid h0) (kid_ids hs) = take (Z.to_nat (f_index f + 1)) (f_records f (gid g1)) ++ kid_record (sep, gid g2)
    :: drop (Z.to_nat (f_index f + 1)) (f_records f (gid g1)) /\
  (Z.to_nat (f_index f + 1) <= length (f_records f (gid g1)))%nat.
Proof.
  destruct f as [id ks|id g0 ks1 p ks2]; cbn [fill2 f_id].
  - exists g1, ((sep, g2) :: ks). split_and!; [done|cbn; lia|done| |done|cbn; lia].
    cbn. fold (kids_pages ks). rewrite (Permutation_app_comm (kids_pages ks)). by rewrite <- app_assoc.
  - exists g0, (ks1 ++ (p, g1) :: (sep, g2) :: ks2). unfold f_right. cbn [f_left f_others f_index f_records f_rest].
    replace (Z.to_nat (1 + Z.of_nat (length ks1) + 1)) with (S (length ks1 + 1)) by lia. split_and!.
    + done.
    + rewrite length_app. cbn. lia.
    + unfold kids_order. rewrite flat_map_app. cbn. by rewrite <- !app_assoc.
    + unfold kids_pages. rewrite flat_map_app. cbn. rewrite <- !app_assoc. do 2 apply Permutation_app_head.
      rewrite (Permutation_app_comm (flat_map _ ks2)). by rewrite <- app_assoc.
    + unfold node_records, kid_ids. rewrite !map_app. cbn. f_equal.
      assert (Hl : length (map kid_record (map (fun k : Pos_ * gtree => (k.1, gid k.2)) ks1) ++ [kid_record (p, gid g1)]) = (length ks1 + 1)%nat)
        by (rewrite length_app, !length_map; done).
      rewrite (cons_middle (kid_record (p, gid g1))), app_assoc.
      rewrite (cons_middle (kid_record (p, gid g1)) _ (map kid_record (map _ ks2))), app_assoc.
      by rewrite take_app_length', drop_app_length' by done.
    + unfold node_records, kid_ids. cbn. rewrite !length_map, length_app, !length_map. cbn. lia.
Qed.

(** ** Building a tree around a changed subtree *)
Lemma gid_plug ctx g g' : gid g = gid g' -> gid (plug ctx g) = gid (plug ctx g').
Proof. revert g g'. induction ctx as [|f ctx IH]; intros g g' H; cbn; [done|]. apply IH. by rewrite !gid_fill. Qed.
Lemma page_ids_app l r : page_ids (l ++ r) = page_ids l ++ page_ids r.
Proof. apply map_app. Qed.
Lemma page_ids_perm l r : l ≡ₚ r -> page_ids l ≡ₚ page_ids r.
Proof. intros H. by apply Permutation_map. Qed.

Lemma plug_tree_ok t ctx g :
  pool_ok crc (t_next t) (t_cache t) -> t_root t = gid (plug ctx g) ->
  stored crc (view crc (t_cache t)) (c_pages ctx (gid g) ++ gpages g) ->
  NoDup (page_ids (c_pages ctx (gid g) ++ gpages g)) ->
  Forall (fun id => 0 < id < t_next t) (page_ids (c_pages ctx (gid g) ++ gpages g)) -> 1 <= t_next t < 2 ^ 51 ->
  ordered (c_left ctx ++ inorder g ++ c_right ctx) -> Forall item_ok (c_left ctx ++ inorder g ++ c_right ctx) ->
  tree_ok crc t (plug ctx g).
Proof.
  intros P R S N B X O I. pose proof (gpages_plug ctx g) as Hp. pose proof (page_ids_perm _ _ Hp) as Hi.
  constructor; try done; rewrite ?inorder_plug; try done.
  - by eapply stored_perm.
  - unfold gids. by rewrite Hi.
  - unfold gids. by rewrite Hi.
Qed.

(** *** Small items

    Trees of small entries and separators never fail to split. *)
Definition small_item (x : item) : Prop :=
  match x with
  | Ent e => zlen (le_key e) <= 384 /\ zlen (leaf_encode e) + 4 <= 2709
  | Sep p => zlen p.1 <= 384
  end.

Definition small_tree (g : gtree) : Prop := Forall small_item (inorder g).
#[global] Instance small_item_dec x : Decision (small_item x).
Proof. destruct x; apply _. Defined.

Lemma node_records_small h0 hs : Forall small_item (inorder h0 ++ kids_order hs) ->
  Forall (fun r => 22 <= zlen r + 4 <= 406) (node_records (gid h0) (kid_ids hs)).
Proof.
  intros Hs. constructor; [rewrite internal_encode_length; change (zlen (ie_key (leftmost (gid h0)))) with 0; lia|]. apply Forall_forall.
  intros r (k & -> & Hk)%list_elem_of_fmap. unfold kid_ids in Hk. apply list_elem_of_fmap in Hk as (k' & -> & Hk').
  unfold kid_record. rewrite internal_encode_length. cbn [ie_key fst snd].
  assert (Hx : small_item (Sep k'.1)).
  { rewrite Forall_forall in Hs. apply Hs. apply elem_of_app. right. apply list_elem_of_In, in_flat_map.
    exists k'. split; [by apply list_elem_of_In|by left]. }
  cbn in Hx. unfold zlen in *. lia.
Qed.

(** ** A page being changed

    The context around page [id], its records, and the pages below it. *)
Record spread (t : Tree) (ctx : gctx) (id : Z) (ty : PageType) (recs : list bytes) (inner : list gpage) : Prop := {
  sp_pool : pool_ok crc (t_next t) (t_cache t);
  sp_root : t_root t = gid (plug ctx (GLeaf id []));
  sp_page : page_at crc (view crc (t_cache t)) (id, ty, recs);
  sp_rest : stored crc (view crc (t_cache t)) (inner ++ c_pages ctx id);
  sp_nodup : NoDup (id :: page_ids (inner ++ c_pages ctx id));
  sp_bound : Forall (fun x => 0 < x < t_next t) (id :: page_ids (inner ++ c_pages ctx id));
  sp_next : 1 <= t_next t < 2 ^ 51;
}.

Lemma spread_id t ctx id ty recs inner : spread t ctx id ty recs inner -> 0 < id < t_next t.
Proof. intros H. pose proof (sp_bound _ _ _ _ _ _ H) as B. by apply Forall_cons in B as [B _]. Qed.
Lemma spread_quiet t t' ctx id ty recs inner : quiet crc t t' -> spread t ctx id ty recs inner -> spread t' ctx id ty recs inner.
Proof.
  intros [P R N S] []. constructor; rewrite ?R, ?N; try done; [by rewrite <- N| |by eapply stored_same].
  destruct sp_page0 as (p & Hv & Hi). exists p. by rewrite (sm_view _ _ _ S).
Qed.
Lemma spread_wrote t t' ctx id ty recs recs' inner : wrote t t' (id, ty, recs') -> spread t ctx id ty recs inner -> spread t' ctx id ty recs' inner.
Proof.
  intros Hw [P R G S N B X]. constructor; rewrite ?(wr_root _ _ _ Hw), ?(wr_next _ _ _ Hw); try done.
  - rewrite <- (wr_next _ _ _ Hw). apply Hw.
  - apply Hw.
  - apply NoDup_cons in N as [N _]. by apply (stored_wrote _ _ _ _ Hw).
Qed.

(** The subtree at the page, put back in its context. *)
Lemma spread_tree t ctx id ty recs inner g :
  spread t ctx id ty recs inner -> gid g = id -> gpages g ≡ₚ (id, ty, recs) :: inner ->
  ordered (c_left ctx ++ inorder g ++ c_right ctx) -> Forall item_ok (c_left ctx ++ inorder g ++ c_right ctx) ->
  tree_ok crc t (plug ctx g).
Proof.
  intros [P R G S N B X] Hid Hp O I.
  assert (Hall : c_pages ctx (gid g) ++ gpages g ≡ₚ (id, ty, recs) :: inner ++ c_pages ctx id).
  { rewrite Hid, Hp, Permutation_app_comm. done. }
  apply plug_tree_ok; try done.
  - rewrite R. by apply gid_plug.
  - eapply stored_perm; [symmetry; exact Hall|]. by constructor.
  - by rewrite (page_ids_perm _ _ Hall).
  - by rewrite (page_ids_perm _ _ Hall).
Qed.
Lemma tree_spread t ctx g id ty recs inner :
  tree_ok crc t (plug ctx g) -> gid g = id -> gpages g ≡ₚ (id, ty, recs) :: inner -> spread t ctx id ty recs inner.
Proof.
  intros [P R S N B X O I] Hid Hp.
  assert (Hall : gpages (plug ctx g) ≡ₚ (id, ty, recs) :: inner ++ c_pages ctx id).
  { rewrite gpages_plug, Hid, Hp, Permutation_app_comm. done. }
  eapply stored_perm in S; [|exact Hall]. unfold gids in N, B. rewrite (page_ids_perm _ _ Hall) in N, B.
  apply Forall_cons in S as [S1 S2]. constructor; try done. rewrite R. by apply gid_plug.
Qed.

(** ** Propagating a split *)
(** The context has child [g1] in its hole, and [g2] waits to be linked after it. *)
Record split_ok (t : Tree) (ctx : gctx) (g1 : gtree) (sep : Pos_) (g2 : gtree) : Prop := {
  so_pool : pool_ok crc (t_next t) (t_cache t);
  so_root : t_root t = gid (plug ctx g1);
  so_stored : stored crc (view crc (t_cache t)) (c_pages ctx (gid g1) ++ gpages g1 ++ gpages g2);
  so_nodup : NoDup (page_ids (c_pages ctx (gid g1) ++ gpages g1 ++ gpages g2));
  so_bound : Forall (fun id => 0 < id < t_next t) (page_ids (c_pages ctx (gid g1) ++ gpages g1 ++ gpages g2));
  so_next : 1 <= t_next t /\ t_next t + Z.of_nat (length ctx) + 1 < 2 ^ 51;
  so_ordered : ordered (c_left ctx ++ inorder g1 ++ Sep sep :: inorder g2 ++ c_right ctx);
  so_items : Forall item_ok (c_left ctx ++ inorder g1 ++ Sep sep :: inorder g2 ++ c_right ctx);
}.

Lemma split_spread t f ctx g1 sep g2 h0 hs :
  split_ok t (f :: ctx) g1 sep g2 -> gpages h0 ++ kids_pages hs ≡ₚ f_others f ++ gpages g1 ++ gpages g2 ->
  spread t ctx (f_id f) Internal (f_records f (gid g1)) (gpages h0 ++ kids_pages hs).
Proof.
  intros [P R S N B X O I] Hpg. cbn [c_pages plug length] in *. set (id := f_id f) in *.
  assert (Hperm : ((id, Internal, f_records f (gid g1)) :: f_others f ++ c_pages ctx id) ++ gpages g1 ++ gpages g2 ≡ₚ
    (id, Internal, f_records f (gid g1)) :: (gpages h0 ++ kids_pages hs) ++ c_pages ctx id).
  { cbn. apply perm_skip. rewrite Hpg. rewrite <- !app_assoc. apply Permutation_app_head.
    rewrite (app_assoc (gpages g1)). apply Permutation_app_comm. }
  eapply stored_perm in S; [|exact Hperm]. rewrite (page_ids_perm _ _ Hperm) in N, B. apply Forall_cons in S as [S1 S2].
  constructor; try done; [|lia]. rewrite R. apply gid_plug. by rewrite gid_fill.
Qed.

(** The right half on a fresh page. *)
Lemma spread_split t t' ctx id ty recs recs2 inner g1 sep g2 :
  spread t ctx id ty recs inner -> wrote (t <| t_next := t_next t + 1 |>) t' (t_next t, ty, recs2) ->
  t_next t + Z.of_nat (length ctx) + 2 < 2 ^ 51 ->
  gid g1 = id -> gid g2 = t_next t -> gpages g1 ++ gpages g2 ≡ₚ (id, ty, recs) :: (t_next t, ty, recs2) :: inner ->
  ordered (c_left ctx ++ inorder g1 ++ Sep sep :: inorder g2 ++ c_right ctx) ->
  Forall item_ok (c_left ctx ++ inorder g1 ++ Sep sep :: inorder g2 ++ c_right ctx) ->
  split_ok t' ctx g1 sep g2.
Proof.
  intros [P R G S N B X] Hw Hroom Hid Hid2 Hp O I.
  assert (Hall : c_pages ctx (gid g1) ++ gpages g1 ++ gpages g2 ≡ₚ (t_next t, ty, recs2) :: (id, ty, recs) :: inner ++ c_pages ctx id).
  { rewrite Hid, Hp, Permutation_app_comm. cbn. apply perm_swap. }
  assert (Hfresh : t_next t ∉ id :: page_ids (inner ++ c_pages ctx id)).
  { intros Hin. rewrite Forall_forall in B. specialize (B _ Hin). cbn in B. lia. }
  constructor; rewrite ?(wr_next _ _ _ Hw), ?(wr_root _ _ _ Hw); cbn [t_next t_root]; try done.
  - pose proof (wr_pool _ _ _ Hw) as H. by rewrite (wr_next _ _ _ Hw) in H.
  - cbn. rewrite R. by apply gid_plug.
  - eapply stored_perm; [symmetry; exact Hall|]. constructor; [apply Hw|].
    apply (stored_wrote _ _ _ _ Hw); [exact Hfresh|]. by constructor.
  - rewrite (page_ids_perm _ _ Hall). cbn. constructor; done.
  - rewrite (page_ids_perm _ _ Hall). cbn. constructor; [lia|]. eapply Forall_impl; [exact B|]. cbn. lia.
  - cbn. lia.
Qed.

(** What an update of the pages [ps] and fresh ones leaves alone. *)
Definition frame_view (t t' : Tree) (ps : list Z) : Prop :=
  forall y, y < t_next t -> y ∉ ps -> view crc (t_cache t') y = view crc (t_cache t) y.
Lemma frame_view_trans a b c ps qs : frame_view a b ps -> frame_view b c qs -> t_next a <= t_next b ->
  (forall y, y < t_next a -> y ∈ qs -> y ∈ ps) -> frame_view a c ps.
Proof. intros H1 H2 Hn Hs y Hy Hps. rewrite H2; [by apply H1|lia|]. intros Hq. by apply Hps, Hs. Qed.
Lemma quiet_frame a b ps : quiet crc a b -> frame_view a b ps.
Proof. intros [_ _ _ [V _ _]] y _ _. apply V. Qed.
Lemma wrote_frame a b x ps : wrote a b x -> x.1.1 ∈ ps \/ t_next a <= x.1.1 -> frame_view a b ps.
Proof. intros Hw Hx y Hy Hps. apply (wr_others _ _ _ Hw). intros ->. destruct Hx; [done|lia]. Qed.

(** The state after a change that kept the file: how far the allocator moved,
    and which pages it may have touched. *)
Record changed (t t' : Tree) (n : Z) (ps : list Z) : Prop := {
  ch_next : t_next t <= t_next t' <= t_next t + n;
  ch_view : frame_view t t' ps;
  ch_file : pf_data (io (t_cache t')) = pf_data (io (t_cache t));
}.
Lemma quiet_changed t t' ps : quiet crc t t' -> changed t t' 0 ps.
Proof. intros H. constructor; [rewrite (qt_next _ _ _ H); lia|by apply quiet_frame|by apply quiet_file]. Qed.
Lemma wrote_changed t t' x ps : wrote t t' x -> x.1.1 ∈ ps \/ t_next t <= x.1.1 -> changed t t' 0 ps.
Proof. intros H Hx. constructor; [rewrite (wr_next _ _ _ H); lia|by eapply wrote_frame|apply H]. Qed.
Lemma changed_trans a b c n m ps : changed a b n ps -> changed b c m ps -> changed a c (n + m) ps.
Proof. intros [N1 V1 F1] [N2 V2 F2]. constructor; [lia|eapply frame_view_trans; eauto; lia|congruence]. Qed.
Lemma changed_sub a b n ps qs : changed a b n ps -> (forall y, y ∈ ps -> y ∈ qs) -> changed a b n qs.
Proof. intros [N V F] H. constructor; [done| |done]. intros y Hy Hq. apply V; [done|]. intros Hp. by apply Hq, H. Qed.
Lemma changed_fresh a b n qs : changed a b n [] -> changed a b n qs.
Proof. intros H. eapply changed_sub; [exact H|]. intros y Hy. by apply elem_of_nil in Hy. Qed.
Lemma changed_le a b n m ps : changed a b n ps -> n <= m -> changed a b m ps.
Proof. intros [N V F] H. constructor; [lia|done|done]. Qed.
Lemma changed_failed bad a b n ps e c : changed a b n ps -> failed bad b e c -> failed bad a e c.
Proof. intros H. apply failed_file, H. Qed.

(** A new root over the two halves. *)
Lemma root_split_wp t g1 sep g2 :
  split_ok t [] g1 sep g2 ->
  wp (insert_separator crc lsn [] sep.1 sep.2 (gid g2)) t
    (fun _ t' => exists g', tree_ok crc t' g' /\ inorder g' = inorder g1 ++ Sep sep :: inorder g2 /\ changed t t' 1 [])
    (failed False t).
Proof.
  intros [P R S N B X O I]. cbn [c_pages c_left c_right plug app length] in *. rewrite app_nil_r in O, I.
  cbn [insert_separator]. apply st_wp_bind, st_wp_reads. rewrite R. apply st_wp_bind, alloc_wp; [lia|].
  set (id := t_next t). set (g' := GNode id g1 [(sep, g2)]). apply st_wp_bind.
  assert (Hfit : fits (node_records (gid g1) (kid_ids [(sep, g2)])) = true).
  { apply Z.leb_le. cbn [node_records kid_ids map records_size foldr]. unfold kid_record. rewrite !internal_encode_length.
    change (zlen (ie_key (leftmost (gid g1)))) with 0. cbn [ie_key fst snd]. apply Forall_app in I as [_ I].
    apply Forall_cons in I as [[Hk _] _]. unfold PAGE_HEADER_LEN, PAGE_SIZE, MAX_KEY_LEN in *. lia. }
  eapply st_wp_mono; [apply (new_page_wp _ id Internal (node_records (gid g1) (kid_ids [(sep, g2)])))|..]; [done|done|cbn; lia|..].
  2:{ intros e t' [-> Hf]. split; [by left|done]. }
  intros b t' (-> & Hw & Hf). specialize (Hw Hfit). apply st_wp_update. cbn in Hf.
  assert (Hfresh : id ∉ page_ids (gpages g1 ++ gpages g2)).
  { intros Hin. rewrite Forall_forall in B. specialize (B id Hin). cbn in B. unfold id in B. lia. }
  assert (Hp : gpages g' ≡ₚ (id, Internal, node_records (gid g1) (kid_ids [(sep, g2)])) :: gpages g1 ++ gpages g2)
    by (cbn; by rewrite app_nil_r).
  exists g'. split_and!; [|cbn; by rewrite app_nil_r|].
  - constructor; cbn [t_next t_root t_cache update].
    + apply Hw.
    + done.
    + eapply stored_perm; [symmetry; exact Hp|]. constructor; [apply Hw|]. by apply (stored_wrote _ _ _ _ Hw).
    + unfold gids. rewrite (page_ids_perm _ _ Hp). constructor; done.
    + unfold gids. rewrite (page_ids_perm _ _ Hp), (wr_next _ _ _ Hw). cbn. constructor; [unfold id; lia|].
      eapply Forall_impl; [exact B|]. cbn. lia.
    + rewrite (wr_next _ _ _ Hw). cbn. lia.
    + cbn. by rewrite app_nil_r.
    + cbn. by rewrite app_nil_r.
  - constructor; [cbn; rewrite (wr_next _ _ _ Hw); cbn; lia| |done].
    intros y Hy _. cbn. rewrite (wr_others _ _ _ Hw); [done|]. cbn. unfold id. lia.
Qed.

(** Writing the two halves of a page that was cut. *)
Lemma halves_wp (bad : Prop) t ctx id ty recs inner L R e1 e2 (r : Pos_ * Z) :
  spread t ctx id ty recs inner -> (fits L = false -> bad) -> (fits R = false -> bad) ->
  e1 = Corruption -> e2 = Corruption \/ e2 = ValueTooLarge ->
  wp (lfits ← rewrite_page crc lsn id L;
      match lfits with
      | false => fail e1
      | true => rfits ← new_page crc lsn (t_next t) ty R; match rfits with false => fail e2 | true => mret r end
      end) (t <| t_next := t_next t + 1 |>)
    (fun r' t' => r' = r /\ exists ta, spread ta ctx id ty L inner /\ t_next ta = t_next t /\
       wrote (ta <| t_next := t_next ta + 1 |>) t' (t_next ta, ty, R) /\ changed t t' 1 [id])
    (failed bad t).
Proof.
  intros Hs HL HR -> He2. set (t1 := t <| t_next := t_next t + 1 |>). pose proof (spread_id _ _ _ _ _ _ Hs) as Hid.
  pose proof (sp_next _ _ _ _ _ _ Hs) as Hnx. apply st_wp_bind.
  eapply st_wp_mono; [apply (rewrite_page_wp (t_next t) t1 (id, ty, recs) L); [apply Hs|cbn; lia|apply Hs|cbn; lia]|..].
  2:{ intros e t' [-> Hq]. split; [by left|]. by rewrite (quiet_file _ _ Hq). }
  intros b t2 (-> & Hp2 & H2). destruct (fits L) eqn:EL.
  2:{ apply st_wp_fail. split; [right; right; by auto|]. by rewrite (quiet_file _ _ H2). }
  pose proof (wr_next _ _ _ H2) as Hn2. cbn in Hn2. cbn [fst snd] in *. apply st_wp_bind.
  eapply st_wp_mono; [apply (new_page_wp t2 (t_next t) ty R); [done|by rewrite Hn2|lia]|..].
  2:{ intros e t' [-> Hf]. split; [by left|]. rewrite Hf. apply H2. }
  intros b t3 (-> & Hw & Hf). destruct (fits R) eqn:ER.
  2:{ apply st_wp_fail. split; [right; right; by auto|]. rewrite Hf. apply H2. }
  specialize (Hw eq_refl). apply st_wp_ret. split; [done|].
  (* the state between the two writes, before the allocation *)
  set (ta := t2 <| t_next := t_next t |>). exists ta.
  assert (Hta : ta <| t_next := t_next ta + 1 |> = t2) by (unfold ta; cbn; rewrite <- Hn2; by destruct t2).
  assert (Hwa : wrote t ta (id, ty, L)) by (destruct H2; by constructor).
  split; [by eapply spread_wrote|]. split; [done|]. split; [by rewrite Hta|].
  constructor; [rewrite (wr_next _ _ _ Hw), Hn2; cbn; lia| |rewrite Hf; apply H2]. intros y Hy Hps.
  rewrite (wr_others _ _ _ Hw) by (cbn; lia). apply (wr_others _ _ _ H2). cbn. set_solver.
Qed.

(** Cutting a node in two around the kid at [m]. *)
Lemma node_cut h0 hs m mid gm :
  hs !! m = Some (mid, gm) ->
  let R := node_records (gid h0) (kid_ids hs) in
  R !! S m = Some (kid_record (mid, gid gm)) /\
  take (S m) R = node_records (gid h0) (kid_ids (take m hs)) /\
  internal_encode (leftmost (gid gm)) :: drop (S (S m)) R = node_records (gid gm) (kid_ids (drop (S m) hs)) /\
  inorder h0 ++ kids_order hs = (inorder h0 ++ kids_order (take m hs)) ++ Sep mid :: inorder gm ++ kids_order (drop (S m) hs) /\
  gpages h0 ++ kids_pages hs ≡ₚ (gpages h0 ++ kids_pages (take m hs)) ++ gpages gm ++ kids_pages (drop (S m) hs).
Proof.
  intros Hm R. subst R. pose proof (take_drop_middle hs m (mid, gm) Hm) as Hhs. split_and!.
  - unfold node_records, kid_ids. change (map kid_record (map (fun k : Pos_ * gtree => (k.1, gid k.2)) hs) !! m = Some (kid_record (mid, gid gm))).
    rewrite !list_lookup_fmap, Hm. done.
  - unfold node_records, kid_ids. cbn. f_equal. by rewrite <- !fmap_take.
  - unfold node_records, kid_ids. f_equal. change (drop (S m) (map kid_record (map (fun k : Pos_ * gtree => (k.1, gid k.2)) hs)) =
      map kid_record (map (fun k => (k.1, gid k.2)) (drop (S m) hs))). by rewrite <- !fmap_drop.
  - rewrite <- Hhs at 1. unfold kids_order. rewrite flat_map_app. cbn. by rewrite <- app_assoc.
  - rewrite <- Hhs at 1. unfold kids_pages. rewrite flat_map_app. cbn. by rewrite <- !app_assoc.
Qed.

(** [split_node] on a full internal page. *)
Lemma split_node_wp t ctx id old h0 hs :
  let new := node_records (gid h0) (kid_ids hs) in
  let items := c_left ctx ++ (inorder h0 ++ kids_order hs) ++ c_right ctx in
  spread t ctx id Internal old (gpages h0 ++ kids_pages hs) -> fits new = false ->
  (1 <= length hs)%nat -> records_size new <= CAP + 406 \/ ~ Forall small_item items ->
  t_next t + Z.of_nat (length ctx) + 2 < 2 ^ 51 -> ordered items -> Forall item_ok items ->
  wp (split_node crc lsn id new) t
    (fun r t' => exists g1 g2, r.2 = gid g2 /\ split_ok t' ctx g1 r.1 g2 /\ gid g1 = id /\
       c_left ctx ++ inorder g1 ++ Sep r.1 :: inorder g2 ++ c_right ctx = items /\ changed t t' 1 [id])
    (failed (~ Forall small_item items) t).
Proof.
  intros new items Hs Hfit Hlen Hsz Hroom O I. unfold split_node. apply st_wp_bind.
  eapply st_wp_mono; [apply split_fault_wp, Hs|..].
  2:{ intros e t' [-> Hq]. split; [by auto|]. by apply quiet_file. }
  intros u t1 Hq. pose proof (spread_quiet _ _ _ _ _ _ _ Hq Hs) as Hs1. pose proof (qt_next _ _ _ Hq) as Hn1.
  assert (Hlr : length new = S (length hs)) by (unfold new, node_records, kid_ids; cbn; by rewrite !length_map).
  pose proof (Nat.div_mod_eq (length new) 2) as Hdm. pose proof (Nat.mod_upper_bound (length new) 2 ltac:(lia)) as Hmb.
  assert (Hcut : ~ Forall small_item items \/ forall c, fits (take (length new / 2) new) = true /\
    fits (internal_encode (leftmost c) :: drop (S (length new / 2)) new) = true).
  { destruct Hsz as [Hsz|]; [|by left]. destruct (decide (Forall small_item items)) as [Hsm|]; [right|by left].
    intros c. apply node_halves_fit; [lia| |done]. apply node_records_small. unfold items in Hsm.
    apply Forall_app in Hsm as [_ Hsm]. by apply Forall_app in Hsm as [Hsm _]. }
  destruct (length new / 2)%nat as [|m] eqn:Em; [lia|].
  destruct (lookup_lt_is_Some_2 hs m ltac:(lia)) as [[mid gm] Hm].
  destruct (node_cut h0 hs m mid gm Hm) as (Hmid & HL & HR & Hord & Hpages). fold new in Hmid, HL, HR. rewrite Hmid.
  assert (Hmok : internal_ok (MkInternal mid.1 mid.2 (gid gm))).
  { assert (Hx : item_ok (Sep mid)).
    { rewrite Forall_forall in I. apply I. unfold items. rewrite Hord, !elem_of_app, elem_of_cons. tauto. }
    destruct Hx as [Hk Hsq]. split_and!; [cbn; unfold MAX_KEY_LEN in *; lia|done|]. apply in_u_spec. cbn.
    assert (Hg : 0 < gid gm < t_next t).
    { pose proof (sp_bound _ _ _ _ _ _ Hs) as B. rewrite Forall_forall in B. apply B.
      rewrite page_ids_app, (page_ids_perm _ _ Hpages), !page_ids_app.
      assert (gid gm ∈ page_ids (gpages gm)) by (destruct gm; left).
      rewrite elem_of_cons, !elem_of_app. tauto. }
    pose proof (sp_next _ _ _ _ _ _ Hs). lia. }
  apply st_wp_bind. eapply (st_wp_lift _ (MkInternal mid.1 mid.2 (gid gm))); [by apply internal_decode_encode|]. cbn [ie_child ie_key ie_seq].
  apply st_wp_bind, alloc_wp; [rewrite Hn1; pose proof (sp_next _ _ _ _ _ _ Hs); lia|].
  rewrite HL, HR.
  eapply st_wp_mono; [apply (halves_wp (~ Forall small_item items) t1 ctx id Internal old (gpages h0 ++ kids_pages hs)); [exact Hs1|..|reflexivity|by left]|..].
  - intros HLf. destruct Hcut as [|Hcut]; [done|]. destruct (Hcut 0) as [Hc _]. rewrite HL in Hc. congruence.
  - intros HRf. destruct Hcut as [|Hcut]; [done|]. destruct (Hcut (gid gm)) as [_ Hc]. rewrite HR in Hc. congruence.
  - intros r t' (-> & ta & Hsa & Hna & Hw & Hch). destruct mid as [mk ms]. cbn [fst snd] in *.
    assert (Hit : c_left ctx ++ inorder (GNode id h0 (take m hs)) ++ Sep (mk, ms) :: inorder (GNode (t_next ta) gm (drop (S m) hs)) ++ c_right ctx = items).
    { unfold items. rewrite Hord. cbn. rewrite <- !app_assoc. cbn. by rewrite <- !app_assoc. }
    exists (GNode id h0 (take m hs)), (GNode (t_next ta) gm (drop (S m) hs)). split_and!; [by rewrite Hna| |done|done|].
    + eapply (spread_split ta t'); [exact Hsa|exact Hw|rewrite Hna, Hn1; lia|reflexivity|reflexivity| |by rewrite Hit|by rewrite Hit].
      cbn. fold (kids_pages (take m hs)) (kids_pages (drop (S m) hs)). rewrite Hpages. by rewrite <- Permutation_middle.
    + apply (changed_trans t t1 t' 0 1); [by apply quiet_changed|done].
  - intros e t' Hf. eapply failed_file; [|exact Hf]. by apply quiet_file.
Qed.

Lemma f_records_size f c : (f_index f <= Z.of_nat (length (f_records f c)))%Z.
Proof. destruct f; cbn; [lia|]. unfold kid_ids. rewrite length_map, length_app, length_map. lia. Qed.

Lemma insert_separator_wp : forall ctx g1 sep g2 t,
  split_ok t ctx g1 sep g2 ->
  let items := c_left ctx ++ inorder g1 ++ Sep sep :: inorder g2 ++ c_right ctx in
  wp (insert_separator crc lsn (c_path ctx) sep.1 sep.2 (gid g2)) t
    (fun _ t' => exists g', tree_ok crc t' g' /\ inorder g' = items /\
       changed t t' (Z.of_nat (length ctx) + 1) (map f_id ctx))
    (failed (~ Forall small_item items) t).
Proof.
  induction ctx as [|f ctx IH]; intros g1 sep g2 t Hs items.
  { eapply st_wp_mono; [by apply root_split_wp|..].
    - intros u t' (g' & H1 & H2 & H3). exists g'. unfold items. cbn. rewrite app_nil_r. by split_and!.
    - intros e t' [[He|[He|[_ []]]] Hf]; (split; [auto|done]). }
  destruct (fill2_spec f g1 sep g2) as (h0 & hs & Hn & Hlen & Hin & Hpg & Hrec & Hidx).
  pose proof (split_spread _ _ _ _ _ _ _ _ Hs Hpg) as Hsp. pose proof Hs as [P _ _ _ _ X O I]. cbn [length] in X.
  set (id := f_id f) in *. set (new := node_records (gid h0) (kid_ids hs)) in *.
  assert (Hitems : items = c_left ctx ++ (inorder h0 ++ kids_order hs) ++ c_right ctx).
  { unfold items. cbn. rewrite Hin. rewrite <- !app_assoc. cbn. by rewrite <- !app_assoc. }
  fold items in O, I. clearbody items. subst items.
  pose proof (spread_id _ _ _ _ _ _ Hsp) as Hid.
  cbn [c_path map insert_separator]. fold (c_path ctx). fold id. apply st_wp_bind.
  eapply st_wp_mono; [apply (fetch_page_wp crc t (id, Internal, f_records f (gid g1)) P (sp_page _ _ _ _ _ _ Hsp)); cbn; lia|..]; cbn [fst snd].
  2:{ intros e t' H. by apply quiet_failed. }
  intros [i p] t1 (Hq & Hi & Hh & _). cbn [fst snd] in *. apply st_wp_bind. eapply st_wp_lift; [by eapply page_is_records|]. apply st_wp_bind.
  pose proof (f_records_size f (gid g1)) as Hfs. assert (Hi0 : 0 <= f_index f) by (destruct f; cbn; lia).
  eapply st_wp_lift.
  { destruct (Z.ltb_spec (Z.of_nat (length (f_records f (gid g1)))) (f_index f + 1)); [lia|]. reflexivity. }
  change (internal_encode (MkInternal sep.1 sep.2 (gid g2))) with (kid_record (sep, gid g2)). rewrite <- Hrec.
  apply st_wp_bind. eapply st_wp_mono; [apply (rewrite_frame_wp (t_next t1) t1 i id Internal (f_records f (gid g1)) new p); [apply Hq|done|done|done]| |done].
  intros b t2 (-> & _ & H2). destruct (fits new) eqn:Hfit.
  - apply st_wp_ret. pose proof (quiet_wrote _ _ _ _ Hq H2) as Hw. exists (plug ctx (GNode id h0 hs)). split_and!.
    + eapply spread_tree; [by eapply spread_wrote|done|done|done|done].
    + by rewrite inorder_plug.
    + eapply changed_le; [eapply wrote_changed; [exact Hw|]; left; left|cbn; lia].
  - subst t2. apply st_wp_bind. eapply st_wp_mono; [apply (split_node_wp t1 ctx id (f_records f (gid g1)) h0 hs)|..]; fold new.
    + by eapply spread_quiet.
    + done.
    + done.
    + destruct (decide (Forall small_item (c_left ctx ++ (inorder h0 ++ kids_order hs) ++ c_right ctx))) as [Hsm|]; [left|by right].
      pose proof Hi as (_ & Hfits & _). rewrite Hrec, records_size_app. cbn [records_size foldr].
      fold (records_size (drop (Z.to_nat (f_index f + 1)) (f_records f (gid g1)))).
      rewrite <- (take_drop (Z.to_nat (f_index f + 1)) (f_records f (gid g1))), records_size_app in Hfits.
      assert (Hk : zlen (kid_record (sep, gid g2)) <= 402).
      { assert (Hx : small_item (Sep sep)).
        { rewrite Forall_forall in Hsm. apply Hsm. rewrite Hin, !elem_of_app, elem_of_cons. tauto. }
        unfold kid_record. rewrite internal_encode_length. cbn in Hx |- *. lia. }
      unfold CAP. lia.
    + rewrite (qt_next _ _ _ Hq). lia.
    + done.
    + done.
    + intros [mid rid] t3 (h1 & h2 & Hr & Hso & Hg1 & Hits & Hch). cbn [fst snd] in *. subst rid.
      eapply st_wp_mono; [by apply (IH h1 mid h2 t3)|..].
      * intros u t4 (g' & H1 & H3 & H4). exists g'. split_and!; [done|congruence|].
        assert (Hc1 : changed t t3 1 (map f_id (f :: ctx))).
        { apply (changed_trans t t1 t3 0 1); [by apply quiet_changed|]. eapply changed_sub; [exact Hch|]. cbn. set_solver. }
        eapply changed_le; [eapply changed_trans; [exact Hc1|]; eapply changed_sub; [exact H4|]; cbn; set_solver|cbn; lia].
      * intros e t4 Hf. rewrite Hits in Hf. eapply changed_failed; [|exact Hf].
        apply (changed_trans t t1 t3 0 1 [id]); [by apply quiet_changed|done].
    + intros e t3 Hf. eapply failed_file; [|exact Hf]. by apply quiet_file.
Qed.

(** [split_leaf] on a full leaf. *)
Lemma split_leaf_wp t ctx id old es :
  let new := map leaf_encode es in
  let items := c_left ctx ++ map Ent es ++ c_right ctx in
  spread t ctx id Leaf old [] -> fits new = false -> (2 <= length es)%nat ->
  records_size new <= CAP + 2709 \/ ~ Forall small_item items ->
  t_next t + Z.of_nat (length ctx) + 2 < 2 ^ 51 -> ordered items -> Forall item_ok items ->
  wp (split_leaf crc lsn id new) t
    (fun r t' => exists g1 g2, r.2 = gid g2 /\ split_ok t' ctx g1 r.1 g2 /\ gid g1 = id /\
       items_entries (c_left ctx ++ inorder g1 ++ Sep r.1 :: inorder g2 ++ c_right ctx) = items_entries items /\
       (Forall small_item items -> Forall small_item (c_left ctx ++ inorder g1 ++ Sep r.1 :: inorder g2 ++ c_right ctx)) /\
       changed t t' 1 [id])
    (failed (~ Forall small_item items) t).
Proof.
  intros new items Hs Hfit Hlen Hsz Hroom O I. unfold split_leaf. apply st_wp_bind.
  eapply st_wp_mono; [apply split_fault_wp, Hs|..].
  2:{ intros e t' [-> Hq]. split; [by auto|]. by apply quiet_file. }
  intros u t1 Hq. pose proof (spread_quiet _ _ _ _ _ _ _ Hq Hs) as Hs1. pose proof (qt_next _ _ _ Hq) as Hn1.
  apply st_wp_bind, alloc_wp; [rewrite Hn1; pose proof (sp_next _ _ _ _ _ _ Hs); lia|].
  assert (Hln : length new = length es) by apply length_map. set (s := split_point new).
  assert (Hb : (1 <= s < length es)%nat).
  { destruct (split_point_spec new (records_size new + 4) ltac:(lia)) as (Hb & _); [|by rewrite <- Hln].
    apply Forall_forall. intros r Hr%list_elem_of_lookup. destruct Hr as (j & Hj). rewrite <- (take_drop_middle new j r Hj).
    rewrite records_size_app. cbn [records_size foldr]. pose proof (records_size_nonneg (take j new)).
    pose proof (records_size_nonneg (drop (S j) new)). unfold records_size in *. lia. }
  assert (Hcut : ~ Forall small_item items \/ fits (take s new) = true /\ fits (drop s new) = true).
  { destruct Hsz as [Hsz|]; [|by left]. destruct (decide (Forall small_item items)) as [Hsm|]; [right|by left].
    apply (leaf_halves_fit new 2709); [lia| |done|lia]. apply Forall_forall. intros r (e & -> & He)%list_elem_of_fmap.
    rewrite Forall_forall in Hsm. assert (Hx : small_item (Ent e)); [|apply Hx]. apply Hsm. unfold items.
    rewrite !elem_of_app. right. left. apply list_elem_of_fmap. eauto. }
  destruct (lookup_lt_is_Some_2 es 0 ltac:(lia)) as [a Ha]. destruct (lookup_lt_is_Some_2 es s ltac:(lia)) as [e He].
  assert (Hdr : drop s es = e :: drop (S s) es) by (by rewrite (drop_S es e s He)).
  assert (Hnd : drop s new = leaf_encode e :: map leaf_encode (drop (S s) es)).
  { unfold new. by rewrite <- fmap_drop, Hdr. }
  assert (Heok : entry_ok e).
  { rewrite Forall_forall in I. apply (I (Ent e)). unfold items. rewrite !elem_of_app. right. left. apply list_elem_of_fmap.
    exists e. split; [done|]. by eapply list_elem_of_lookup_2. }
  rewrite Hnd at 1. apply st_wp_bind. eapply st_wp_lift; [by apply leaf_decode_encode|].
  replace (take s new) with (map leaf_encode (take s es)) in * by (unfold new; by rewrite <- fmap_take).
  replace (drop s new) with (map leaf_encode (drop s es)) in * by (unfold new; by rewrite <- fmap_drop).
  eapply st_wp_mono; [apply (halves_wp (~ Forall small_item items) t1 ctx id Leaf old []); [exact Hs1|..|reflexivity|by right]|..].
  - intros HLf. destruct Hcut as [|[Hc _]]; [done|]. congruence.
  - intros HRf. destruct Hcut as [|[_ Hc]]; [done|]. congruence.
  - intros r t' (-> & ta & Hsa & Hna & Hw & Hch). cbn [fst snd].
    set (g1 := GLeaf id (take s es)). set (g2 := GLeaf (t_next ta) (drop s es)).
    assert (Hse : es = a :: take (s - 1) (drop 1 es) ++ e :: drop (S s) es).
    { rewrite <- Hdr. destruct es as [|a' es']; [done|]. cbn in Ha. simplify_eq. destruct s as [|s']; [lia|]. cbn.
      by rewrite Nat.sub_0_r, drop_0, take_drop. }
    assert (Hte : take s es = a :: take (s - 1) (drop 1 es)).
    { destruct es as [|a' es']; [done|]. cbn in Ha. simplify_eq. destruct s as [|s']; [lia|]. cbn. by rewrite Nat.sub_0_r. }
    assert (Hnew : c_left ctx ++ inorder g1 ++ Sep (epos e) :: inorder g2 ++ c_right ctx =
      c_left ctx ++ Ent a :: map Ent (take (s - 1) (drop 1 es)) ++ Sep (epos e) :: Ent e :: map Ent (drop (S s) es) ++ c_right ctx).
    { unfold g1, g2. cbn [inorder]. by rewrite Hte, Hdr. }
    assert (Hold : items = c_left ctx ++ Ent a :: map Ent (take (s - 1) (drop 1 es)) ++ Ent e :: map Ent (drop (S s) es) ++ c_right ctx).
    { unfold items. rewrite Hse at 1. cbn. rewrite map_app. cbn. by rewrite <- app_assoc. }
    change (le_key e, le_seq e) with (epos e). exists g1, g2. split_and!; [unfold g2; cbn; by rewrite Hna| |done|..].
    + apply (spread_split ta t' ctx id Leaf _ _ [] g1 (epos e) g2 Hsa Hw); [rewrite Hna, Hn1; lia|done|done|done|..]; rewrite Hnew.
      * rewrite Hold in O. by apply ordered_separate.
      * rewrite Hold in I. rewrite !Forall_app, !Forall_cons, !Forall_app, !Forall_cons in I |- *.
        destruct I as (I1 & I2 & I3 & I4 & I5). destruct Heok as (K1 & K2 & _). split_and!; try done. by constructor.
    + rewrite Hnew, Hold. rewrite !items_entries_app. cbn. f_equal. f_equal. rewrite !items_entries_app. done.
    + rewrite Hnew, Hold. rewrite !Forall_app, !Forall_cons, !Forall_app, !Forall_cons. intros (I1 & I2 & I3 & I4 & I5).
      split_and!; try done; apply (proj1 I4).
    + apply (changed_trans t t1 t' 0 1); [by apply quiet_changed|done].
  - intros e' t' Hf. eapply failed_file; [|exact Hf]. by apply quiet_file.
Qed.

(** ** Inserting an entry *)
Lemma c_path_ids ctx g y : y ∈ map f_id ctx -> y ∈ gids (plug ctx g).
Proof.
  unfold gids. rewrite (page_ids_perm _ _ (gpages_plug ctx g)), page_ids_app, elem_of_app. intros Hy. left.
  generalize (gid g). induction ctx as [|f ctx IH]; intros c; cbn in *; [done|].
  apply elem_of_cons in Hy as [-> |Hy]; [by left|]. right. fold (page_ids (f_others f ++ c_pages ctx (f_id f))).
  rewrite page_ids_app, elem_of_app. right. by apply IH.
Qed.
Lemma hole_id ctx g : gid g ∈ gids (plug ctx g).
Proof.
  unfold gids. rewrite (page_ids_perm _ _ (gpages_plug ctx g)), page_ids_app, elem_of_app. right. destruct g; left.
Qed.

Lemma leaf_position_spec p key seq_ n : forall es k,
  decodes p k es -> n = Z.of_nat (k + length es) ->
  match leaf_position p (map Z.of_nat (seq k (length es))) n key seq_ with
  | Ok None => exists e, e ∈ es /\ epos e = (key, seq_)
  | Ok (Some pos) => exists j, (j <= length es)%nat /\ pos = Z.of_nat (k + j) /\
      Forall (fun e => Plt (epos e) (key, seq_)) (take j es) /\ (forall e, es !! j = Some e -> Plt (key, seq_) (epos e))
  | _ => False
  end.
Proof.
  induction es as [|e es IH]; intros k Hd Hn; cbn [length seq map leaf_position].
  { exists 0%nat. split_and!; [done|by rewrite Hn|constructor|done]. }
  apply decodes_cons in Hd as (Hr & Hdec & Hd). rewrite Hr. cbn [mbind outcome_bind]. rewrite Hdec. cbn [mbind outcome_bind].
  pose proof (pos_cmp_spec (epos e) (key, seq_)) as Hc. cbn in Hc. destruct (leaf_cmp _ _ _ _).
  - exists e. split; [by left|done].
  - specialize (IH (S k) Hd ltac:(cbn in Hn; lia)). destruct (leaf_position _ _ _ _ _) as [[pos|]| |]; try done.
    + destruct IH as (j & Hj & -> & Hf & Hg). exists (S j). cbn. split_and!; [lia|lia|by constructor|done].
    + destruct IH as (e' & He' & Hp). exists e'. split; [by right|done].
  - exists 0%nat. split_and!; [lia|lia|constructor|]. intros e' [= <-]. done.
Qed.

(** [rewrite_or_split]: the entries of a leaf, all of them together too many or not. *)
Lemma rewrite_or_split_wp t ctx id old es :
  let items := c_left ctx ++ map Ent es ++ c_right ctx in
  spread t ctx id Leaf old [] -> ordered items -> Forall item_ok items ->
  fits (map leaf_encode es) = true \/ (2 <= length es)%nat ->
  records_size (map leaf_encode es) <= CAP + 2709 \/ ~ Forall small_item items ->
  t_next t + Z.of_nat (length ctx) + 2 < 2 ^ 51 ->
  wp (rewrite_or_split crc lsn (path_of ctx id) (map leaf_encode es)) t
    (fun _ t' => exists g', tree_ok crc t' g' /\ entries g' = items_entries items /\ (Forall small_item items -> small_tree g') /\
       changed t t' (Z.of_nat (length ctx) + 2) (id :: map f_id ctx))
    (failed (~ Forall small_item items) t).
Proof.
  intros items Hs O I Hlen Hsz Hroom. unfold rewrite_or_split. apply st_wp_bind. eapply st_wp_lift; [apply path_leaf_of|].
  pose proof (spread_id _ _ _ _ _ _ Hs) as Hid. apply st_wp_bind.
  eapply st_wp_mono; [apply (rewrite_page_wp (t_next t) t (id, Leaf, old)); [apply Hs|lia|apply Hs|cbn; lia]|..]; cbn [fst snd].
  2:{ intros e t' H. by apply quiet_failed. }
  intros b t1 (-> & _ & H1). destruct (fits (map leaf_encode es)) eqn:Hfit.
  - apply st_wp_ret. exists (plug ctx (GLeaf id es)). split_and!.
    + eapply spread_tree; [by eapply spread_wrote|done|done|done|done].
    + unfold entries. by rewrite inorder_plug.
    + unfold small_tree. by rewrite inorder_plug.
    + eapply changed_le; [eapply wrote_changed; [exact H1|]; left; left|lia].
  - destruct Hlen as [|Hlen]; [done|]. pose proof (qt_next _ _ _ H1) as Hn1. apply st_wp_bind.
    eapply st_wp_mono; [apply (split_leaf_wp t1 ctx id old es); [by eapply spread_quiet|done|done|done|lia|done|done]|..].
    + intros [sep rid] t2 (g1 & g2 & Hr & Hso & Hg1 & Hent & Hsm & Hch). cbn [fst snd] in *. subst rid.
      unfold path_of. rewrite removelast_last, rev_involutive.
      eapply st_wp_mono; [by apply (insert_separator_wp ctx g1 sep g2 t2)|..].
      * intros u t3 (g' & H3 & H4 & H5). exists g'. split_and!; [done|unfold entries; by rewrite H4, Hent| |].
        { intros Hx. unfold small_tree. rewrite H4. by apply Hsm. }
        assert (Hc : changed t t2 1 (id :: map f_id ctx)).
        { apply (changed_trans t t1 t2 0 1); [by apply quiet_changed|]. eapply changed_sub; [exact Hch|]. set_solver. }
        eapply changed_le; [eapply changed_trans; [exact Hc|]; eapply changed_sub; [exact H5|]; set_solver|lia].
      * intros e t3 [He Hf]. split.
        -- destruct He as [He|[He|[He Hb]]]; [by auto|by auto|]. right. right. split; [done|]. intros Hn. by apply Hb, Hsm.
        -- rewrite Hf, (ch_file _ _ _ _ Hch). by apply quiet_file.
    + intros e t2 Hf. eapply failed_file; [|exact Hf]. by apply quiet_file.
Qed.

(** The items of the tree with [e] at position [j] of the leaf in the hole. *)
Lemma leaf_insert_items ctx id es e j :
  let g := plug ctx (GLeaf id es) in
  let items := c_left ctx ++ map Ent (take j es ++ e :: drop j es) ++ c_right ctx in
  ordered (inorder g) -> Forall item_ok (inorder g) -> entry_ok e ->
  Forall (before (epos e)) (c_left ctx) -> Forall (after (epos e)) (c_right ctx) ->
  Forall (fun x => Plt (epos x) (epos e)) (take j es) -> (forall x, es !! j = Some x -> Plt (epos e) (epos x)) ->
  ordered items /\ Forall item_ok items /\ (small_tree g /\ small_item (Ent e) -> Forall small_item items) /\ Ent e ∈ items /\
  items_entries items = (items_entries (c_left ctx) ++ take j es) ++ e :: drop j es ++ items_entries (c_right ctx) /\
  entries g = (items_entries (c_left ctx) ++ take j es) ++ drop j es ++ items_entries (c_right ctx).
Proof.
  intros g items O I He Hb Ha Hbe Haf. unfold g in *. rewrite inorder_plug in O, I. cbn [inorder] in O, I.
  assert (Hmap : map Ent es = map Ent (take j es) ++ map Ent (drop j es)) by (by rewrite <- map_app, take_drop).
  assert (Hits : items = (c_left ctx ++ map Ent (take j es)) ++ Ent e :: map Ent (drop j es) ++ c_right ctx).
  { unfold items. rewrite map_app. cbn. by rewrite <- !app_assoc. }
  rewrite Hmap in O, I. rewrite Hits. split_and!.
  - apply ordered_insert.
    + by rewrite <- !app_assoc in O |- *.
    + apply Forall_app. split; [done|]. by apply Forall_fmap.
    + apply Forall_app. split; [|done]. rewrite <- !app_assoc in O. apply ordered_app in O as (_ & O & _).
      apply ordered_app in O as (_ & O & _). apply ordered_app in O as (O & _).
      destruct (drop j es) as [|x xs] eqn:Ed; [constructor|].
      assert (Hx : Plt (epos e) (epos x)) by (apply Haf; by rewrite <- (Nat.add_0_r j), <- lookup_drop, Ed).
      cbn in O. apply ordered_cons in O as [_ O]. constructor; [done|]. apply Forall_forall. intros y Hy.
      specialize (O y Hy). apply list_elem_of_fmap in Hy as (z & -> & _). cbn in *. by eapply Plt_trans.
  - rewrite <- !app_assoc in I. rewrite !Forall_app in I. destruct I as (I1 & I2 & I3 & I4).
    rewrite Forall_app, Forall_cons, !Forall_app. by split_and!.
  - intros [S1 S2]. unfold small_tree in S1. rewrite inorder_plug in S1. cbn [inorder] in S1. rewrite Hmap, <- !app_assoc, !Forall_app in S1.
    destruct S1 as (S1 & S3 & S4 & S5). rewrite Forall_app, Forall_cons, !Forall_app. by split_and!.
  - rewrite elem_of_app, elem_of_cons. tauto.
  - rewrite !items_entries_app. cbn. rewrite !items_entries_app, !items_entries_map. done.
  - rewrite entries_plug. unfold entries. cbn. rewrite items_entries_map. rewrite <- (take_drop j es) at 1. by rewrite <- !app_assoc.
Qed.

(** The entry is added in its place, or it was there. *)
Lemma insert_entry_wp t g e :
  tree_ok crc t g -> entry_ok e -> zlen (leaf_encode e) + 4 <= CAP ->
  t_next t + Z.of_nat MAX_DEPTH + 1 < 2 ^ 51 ->
  wp (insert_entry crc lsn e) t
    (fun b t' => if b then exists g' l r, tree_ok crc t' g' /\ entries g = l ++ r /\ entries g' = l ++ e :: r /\
                   (small_tree g /\ small_item (Ent e) -> small_tree g') /\
                   changed t t' (Z.of_nat MAX_DEPTH + 1) (gids g)
                 else quiet crc t t' /\ exists e0, e0 ∈ entries g /\ epos e0 = epos e)
    (failed (~ (small_tree g /\ small_item (Ent e)) \/ (MAX_DEPTH < levels g)%nat) t).
Proof.
  intros Ht He Hcap Hroom. unfold insert_entry. apply st_wp_bind.
  eapply st_wp_mono; [by apply descend_wp|..]; [|intros e' t' [He' Hq]; split; [tauto|by apply quiet_file]].
  intros path t1 (Hq & ctx & id & es & Hg & -> & Hb & Ha & Hlc). change (le_key e, le_seq e) with (epos e) in *.
  pose proof (tree_ok_quiet _ _ _ _ Hq Ht) as Ht1. subst g.
  pose proof (tree_spread _ ctx (GLeaf id es) id Leaf (map leaf_encode es) [] Ht1 eq_refl ltac:(done)) as Hsp.
  pose proof (part_plug _ _ _ _ (tree_part _ _ _ Ht1)) as Hpl. pose proof (qt_next _ _ _ Hq) as Hn1.
  apply st_wp_bind. eapply st_wp_lift; [apply path_leaf_of|]. apply st_wp_bind.
  eapply st_wp_mono; [by apply fetch_leaf_wp|..].
  2:{ intros e' t' [-> Hq']. eapply quiet_failed. split; [done|by eapply tree_quiet_trans]. }
  intros [i p] t2 (Hq2 & Hi & Hh). cbn [fst snd] in *. pose proof (tree_quiet_trans _ _ _ _ Hq Hq2) as Hq02.
  pose proof (spread_quiet _ _ _ _ _ _ _ Hq2 Hsp) as Hsp2. pose proof (qt_next _ _ _ Hq02) as Hn2.
  assert (Hok : Forall entry_ok es).
  { pose proof (pt_items _ _ _ Hpl) as Hit. cbn in Hit. by apply (Forall_fmap Ent) in Hit. }
  rewrite (leaf_range _ _ _ _ Hi), (page_is_count _ _ _ _ _ Hi), length_map.
  pose proof (leaf_position_spec p (le_key e) (le_seq e) (Z.of_nat (length es)) es 0 (leaf_decodes _ _ _ _ Hi Hok) eq_refl) as Hpos.
  destruct (leaf_position _ _ _ _ _) as [r| |] eqn:Elp; [|done..]. apply st_wp_bind. eapply st_wp_lift; [reflexivity|].
  assert (Hent : entries (plug ctx (GLeaf id es)) = items_entries (c_left ctx) ++ es ++ items_entries (c_right ctx)).
  { rewrite entries_plug. unfold entries. cbn. by rewrite items_entries_map. }
  destruct r as [pos|].
  2:{ apply st_wp_ret. split; [done|]. destruct Hpos as (e0 & He0 & Hp0). exists e0. split; [|done]. rewrite Hent, !elem_of_app. by auto. }
  destruct Hpos as (j & Hj & -> & Hbe & Haf). cbn [Nat.add].
  set (es' := take j es ++ e :: drop j es). set (items := c_left ctx ++ map Ent es' ++ c_right ctx).
  assert (Hrecs : take j (map leaf_encode es) ++ leaf_encode e :: drop j (map leaf_encode es) = map leaf_encode es').
  { unfold es'. rewrite map_app. cbn. by rewrite <- fmap_take, <- fmap_drop. }
  destruct (leaf_insert_items ctx id es e j (tk_ordered _ _ _ Ht1) (tk_items _ _ _ Ht1) He Hb Ha Hbe Haf) as (O2 & I2 & Hbad & Hin & Hiten & Hcut).
  fold es' in O2, I2, Hbad, Hin, Hiten. fold items in O2, I2, Hbad, Hin, Hiten.
  destruct (Z.leb_spec (zlen (leaf_encode e) + 4) (free_space p)) as [Hfree|Hfull].
  - (* in place *)
    destruct (insert_record_is crc crc_range id Leaf (map leaf_encode es) p j (leaf_encode e) lsn Hi ltac:(by rewrite length_map) Hfree lsn_range)
      as (q & Hins & Hqi). rewrite Hrecs in Hqi.
    apply st_wp_bind. eapply st_wp_lift; [exact Hins|]. apply st_wp_bind.
    eapply st_wp_mono; [apply (store_tree_wp (t_next t2) t2 i id Leaf (map leaf_encode es) (map leaf_encode es') p q); [apply Hsp2|lia|done|done|done]| |done].
    intros u t3 [_ Hw]. apply st_wp_ret. pose proof (quiet_wrote _ _ _ _ Hq02 Hw) as Hw0.
    exists (plug ctx (GLeaf id es')), (items_entries (c_left ctx) ++ take j es), (drop j es ++ items_entries (c_right ctx)). split_and!.
    + eapply spread_tree; [by eapply (spread_wrote t2 t3)|done|done|done|done].
    + done.
    + unfold entries. rewrite inorder_plug. exact Hiten.
    + unfold small_tree at 2. by rewrite inorder_plug.
    + eapply changed_le; [eapply wrote_changed; [exact Hw0|]|lia]. left. apply (hole_id ctx (GLeaf id es)).
  - rewrite (page_is_free _ _ _ _ _ Hi) in Hfull. pose proof Hi as (_ & Hfit0 & _).
    apply st_wp_bind. eapply st_wp_lift; [by eapply page_is_records|]. rewrite Nat2Z.id, Hrecs. apply st_wp_bind.
    assert (Hsize : records_size (map leaf_encode es') = records_size (map leaf_encode es) + zlen (leaf_encode e) + 4).
    { rewrite <- Hrecs, records_size_app. cbn [records_size foldr]. fold (records_size (drop j (map leaf_encode es))).
      rewrite <- (take_drop j (map leaf_encode es)) at 3. rewrite records_size_app. lia. }
    eapply st_wp_mono; [apply (rewrite_or_split_wp t2 ctx id (map leaf_encode es) es' Hsp2 O2 I2)|..].
    + right. unfold es'. rewrite length_app. cbn [length]. rewrite length_take, length_drop. destruct es; [|cbn; lia].
      exfalso. cbn [map records_size foldr] in Hfull. unfold CAP in Hcap. lia.
    + destruct (decide (Forall small_item items)) as [Hsm|]; [left|by right].
      assert (Hse : small_item (Ent e)).
      { rewrite Forall_forall in Hsm. by apply Hsm. }
      destruct Hse as [_ Hse]. unfold CAP. lia.
    + lia.
    + intros u t3 (g' & H1 & H2 & Hsm & H3). apply st_wp_ret.
      exists g', (items_entries (c_left ctx) ++ take j es), (drop j es ++ items_entries (c_right ctx)). split_and!; [done|done|by rewrite H2|by auto|].
      eapply changed_le; [eapply changed_sub; [apply (changed_trans t t2 t3 0); [by apply quiet_changed|exact H3]|]|lia].
      intros y [-> |Hy]%elem_of_cons; [apply (hole_id ctx (GLeaf id es))|by apply c_path_ids].
    + intros e' t3 [Hee Hf]. split; [|rewrite Hf; by apply quiet_file].
      destruct Hee as [?|[?|[? Hb2]]]; [by auto|by auto|]. right. right. split; [done|]. left. intros Hx. by apply Hb2, Hbad.
Qed.
End insert.
