(* ===== verification/BTreeValue.v ===== *)
(** * Values of the tree

    A value that does not fit beside its key is cut into a chain of overflow
    pages.  [rep] relates an entry to the version it stands for, chain followed;
    insertions and reads are then about versions.  A chain page is never a page
    of the tree, because its type says so; so an insertion, which writes pages of
    the tree and fresh ones, leaves every chain as it was. *)

From stdpp Require Import gmap.
From S2P Require Import Prelude Errors StateMonad StoreFormat Journal BufferPool SlotPage BTree BTreeShape BTreeRead BTreeInsert.

(** [Store::get] in kernel.rs, with the tree open: a tombstone reads as nothing. *)
Definition store_get (crc : bytes -> Z) (key : bytes) (visible_seq : Z) : stM Tree (option bytes) :=
  e ← get_version crc key visible_seq;
  match e with
  | Some e =>
      match is_tombstone e with
      | true => mret None
      | false => v ← read_value crc e; mret (Some v)
      end
  | None => mret None
  end.

(** ** Pieces of a value *)
Lemma chunks_concat n fuel : (1 <= n)%nat -> forall l, (length l <= fuel)%nat -> concat (chunks fuel n l) = l.
Proof.
  intros Hn. induction fuel as [|fuel IH]; intros l Hl; [by destruct l; cbn in Hl; [|lia]|].
  destruct l as [|x l]; [done|]. cbn [chunks concat]. rewrite IH; [by rewrite take_drop|]. rewrite length_drop. cbn in *. lia.
Qed.
Lemma chunks_bound n fuel l : Forall (fun c => length c <= n)%nat (chunks fuel n l).
Proof.
  revert l. induction fuel as [|fuel IH]; intros l; [constructor|]. destruct l; [constructor|]. cbn [chunks].
  constructor; [rewrite length_take; lia|done].
Qed.
Lemma chunks_length n fuel : (1 <= n)%nat -> forall l, (length (chunks fuel n l) * n <= length l + n)%nat.
Proof.
  intros Hn. induction fuel as [|fuel IH]; intros l; [cbn; lia|]. destruct l as [|x l]; [cbn; lia|]. cbn [chunks length].
  destruct (Nat.le_gt_cases (length (x :: l)) n) as [Hle|Hgt].
  - rewrite drop_ge by done. destruct fuel; cbn; lia.
  - specialize (IH (drop n (x :: l))). rewrite length_drop in IH. cbn [length] in *. lia.
Qed.

Section value.
Context (crc : bytes -> Z) (lsn : Z).
Context (crc_range : forall b, in_u 32 (crc b) = true) (lsn_range : in_u 64 lsn = true).

(** ** Overflow pages *)
Record over_page (id next : Z) (chunk p : bytes) : Prop := {
  op_length : length p = PS;
  op_read : is_ok (page_read crc p id) = true;
  op_type : type_of_page p = Ok Overflow;
  op_count : slot_count p = zlen chunk;
  op_fits : zlen chunk <= OVERFLOW_DATA_PER_PAGE;
  op_data : sub (Z.to_nat PAGE_HEADER_LEN) (Z.to_nat (PAGE_HEADER_LEN + zlen chunk)) p = chunk;
  op_next : le_decode (sub (Z.to_nat (PAGE_SIZE - 8)) (Z.to_nat PAGE_SIZE) p) = next;
}.

Lemma sub_tail n a b (p q : bytes) : drop n p = drop n q -> (n <= a)%nat -> sub a b p = sub a b q.
Proof. intros Hd Ha. unfold sub. rewrite <- (Nat.sub_add n a) by lia. rewrite (Nat.add_comm (a - n)), <- !drop_drop. by rewrite Hd. Qed.

Lemma overflow_page_is id next chunk p :
  page_is crc id Overflow [] p -> zlen chunk <= OVERFLOW_DATA_PER_PAGE -> in_u 64 next = true ->
  exists q, overflow_page crc lsn id next chunk p = Ok q /\ over_page id next chunk q.
Proof.
  intros (Hl & _ & (h & Hr & Hok & (Hid & Ht & _)) & _) Hc Hn. unfold OVERFLOW_DATA_PER_PAGE in Hc. unfold overflow_page. rewrite Hr.
  cbn [mbind outcome_bind]. rewrite !wrap_u_small by plia.
  set (p1 := put (Z.to_nat PAGE_HEADER_LEN) chunk p). set (p2 := put (Z.to_nat (PAGE_SIZE - 8)) (le_encode 8 next) p1).
  assert (Hl1 : length p1 = PS) by (apply put_length; plia). assert (Hl2 : length p2 = PS) by (apply put_length; plia).
  destruct (page_read_write crc crc_range (h <| item_count := zlen chunk |> <| free_start := PAGE_HEADER_LEN + zlen chunk |>
    <| free_end := PAGE_SIZE - 8 |> <| page_lsn := lsn |>) p2) as (q & Hw & Hrq & Hz & Hd).
  { apply header_update_ok; [done|done|plia..]. }
  { plia. }
  exists q. split; [exact Hw|]. destruct (page_read_fields _ _ _ _ Hrq) as (F1 & _ & _ & F4).
  constructor; [plia|by rewrite <- Hid; cbn in Hrq; rewrite Hrq|by rewrite F4; cbn; rewrite Ht|exact F1|done|..].
  - rewrite (sub_tail 64 _ _ q p2 Hd) by plia. unfold p2. rewrite (sub_put_other PS) by plia. apply (sub_put_same PS); plia.
  - rewrite (sub_tail 64 _ _ q p2 Hd) by plia. unfold p2. rewrite (sub_put_same PS) by plia. apply le_decode_encode. by apply in_u_spec in Hn.
Qed.

(** ** Chains *)
Inductive chain (V : Z -> option bytes) (n : Z) : nat -> Z -> bytes -> Prop :=
| chain_nil : chain V n 0 0 []
| chain_cons k id next chunk rest p :
    0 < id < n -> V id = Some p -> over_page id next chunk p -> chain V n k next rest -> chain V n (S k) id (chunk ++ rest).

(** A change elsewhere keeps a chain. *)
Lemma chain_frame V V' n n' k id v : n <= n' ->
  (forall y p, 0 < y < n -> V y = Some p -> type_of_page p = Ok Overflow -> V' y = Some p) ->
  chain V n k id v -> chain V' n' k id v.
Proof.
  intros Hn HV. induction 1 as [|k id next chunk rest p Hid Hp Ho _ IH]; [constructor|].
  econstructor; [lia| |done|done]. apply (HV id p); [done|done|apply Ho].
Qed.

Lemma read_chain_wp fuel : forall k pid v out t,
  pool_ok crc (t_next t) (t_cache t) -> chain (view crc (t_cache t)) (t_next t) k pid v -> (k <= fuel)%nat ->
  wp (read_chain crc fuel pid out) t (fun r t' => quiet crc t t' /\ r = out ++ v) (fun e t' => e = ResourceLimit /\ quiet crc t t').
Proof.
  induction fuel as [|fuel IH]; intros k pid v out t Hp Hc Hk.
  { inversion Hc; subst; [|lia]. cbn [read_chain Z.eqb]. apply st_wp_ret. split; [by apply tree_quiet_refl|by rewrite app_nil_r]. }
  inversion Hc as [|k' id next chunk rest p Hid Hv Ho Hrest]; subst; cbn [read_chain].
  { apply st_wp_ret. split; [by apply tree_quiet_refl|by rewrite app_nil_r]. }
  destruct (Z.eqb_spec pid 0); [lia|]. apply st_wp_bind.
  eapply st_wp_mono; [apply (fetch_raw_wp crc (t_next t) t pid p Hp); [lia|done|lia]| |by auto]. intros [i p'] t1 (Hq & _ & Hp' & _). cbn [fst snd] in *. subst p'.
  apply st_wp_bind. eapply st_wp_lift; [apply Ho|]. rewrite bool_decide_eq_true_2 by done. rewrite (op_count _ _ _ _ Ho).
  pose proof (op_fits _ _ _ _ Ho) as Hf. unfold OVERFLOW_DATA_PER_PAGE in Hf.
  destruct (Z.ltb_spec PAGE_SIZE (PAGE_HEADER_LEN + zlen chunk)); [lia|]. rewrite (op_next _ _ _ _ Ho), (op_data _ _ _ _ Ho).
  eapply st_wp_mono; [apply (IH k' next rest (out ++ chunk) t1)|..].
  - apply Hq.
  - eapply chain_frame; [|..|exact Hrest]; [rewrite (qt_next _ _ _ Hq); lia|]. intros y q _ Hy _.
    destruct Hq as [_ _ _ [Hsv _ _]]. by rewrite Hsv.
  - lia.
  - intros r t2 [Hq2 ->]. split; [by eapply tree_quiet_trans|by rewrite app_assoc].
  - intros e t2 [-> Hq2]. split; [done|by eapply tree_quiet_trans].
Qed.

(** Writing a chain: fresh pages in front of [next], nothing else touched. *)
Lemma write_piece_wp t next chunk :
  pool_ok crc (t_next t) (t_cache t) -> 1 <= t_next t < 2 ^ 51 - 1 -> zlen chunk <= OVERFLOW_DATA_PER_PAGE -> in_u 64 next = true ->
  wp (write_piece crc lsn next chunk) t
    (fun id t' => id = t_next t /\ t_next t' = t_next t + 1 /\ t_root t' = t_root t /\ pool_ok crc (t_next t') (t_cache t') /\
       changed crc t t' 1 [] /\ exists p, view crc (t_cache t') id = Some p /\ over_page id next chunk p)
    (failed False t).
Proof.
  intros Hp Hn Hc Hx. unfold write_piece. apply st_wp_bind, alloc_wp; [lia|]. set (id := t_next t) in *.
  destruct (blank_page_is crc crc_range id Overflow lsn ltac:(apply in_u_spec; lia) lsn_range) as (p & Hw & Hi).
  apply st_wp_bind, wp_in_cache. cbn [t_cache].
  eapply st_wp_mono; [by apply (insert_new_wp crc id (id + 1) (t_cache t) id Overflow lsn p Hp ltac:(lia) ltac:(lia) Hw (page_is_length _ _ _ _ _ Hi))|..].
  2:{ intros e c' (-> & _ & [_ _ Hs]). split; [by left|]. cbn. by rewrite Hs. }
  intros i c' (Hp' & Hio & Hh & Hv & _). pose proof Hh as (f & Hf & Hfid & Hfb). apply st_wp_bind.
  eapply st_wp_ok; [unfold in_cache, frame; cbn; rewrite Hf; reflexivity|]. rewrite Hfb.
  destruct (overflow_page_is id next chunk p Hi Hc Hx) as (q & Hq & Ho). apply st_wp_bind. eapply st_wp_lift; [exact Hq|].
  apply st_wp_bind, wp_in_cache. cbn [t_cache].
  eapply st_wp_mono; [by apply (store_wp crc (id + 1) c' i id p q lsn Hp' Hh (op_length _ _ _ _ Ho))| |done].
  intros u c2 (Hp2 & Hio2 & _ & Hv2 & _). apply st_wp_ret. cbn [t_next t_root t_cache]. split_and!; [reflexivity|reflexivity|reflexivity|exact Hp2|..].
  - constructor; [cbn; lia| |cbn; by rewrite Hio2, Hio]. intros y Hy _. cbn. rewrite Hv2, Hv. fold id in Hy. destruct (Z.eqb_spec y id); [lia|reflexivity].
  - exists q. cbn. rewrite Hv2, Z.eqb_refl. split; [reflexivity|exact Ho].
Qed.

Lemma chain_changed t t' n k pid v : changed crc t t' n [] -> chain (view crc (t_cache t)) (t_next t) k pid v ->
  chain (view crc (t_cache t')) (t_next t') k pid v.
Proof.
  intros [N V _]. apply chain_frame; [lia|]. intros y p Hy Hp _. rewrite V; [done|lia|set_solver].
Qed.

Lemma write_chain_wp : forall cs k next v t,
  pool_ok crc (t_next t) (t_cache t) -> 1 <= t_next t -> t_next t + Z.of_nat (length cs) < 2 ^ 51 - 1 ->
  Forall (fun c => zlen c <= OVERFLOW_DATA_PER_PAGE) cs -> in_u 64 next = true ->
  chain (view crc (t_cache t)) (t_next t) k next v ->
  wp (write_chain crc lsn cs next) t
    (fun id t' => t_root t' = t_root t /\ pool_ok crc (t_next t') (t_cache t') /\ changed crc t t' (Z.of_nat (length cs)) [] /\
       in_u 64 id = true /\ chain (view crc (t_cache t')) (t_next t') (length cs + k) id (concat (rev cs) ++ v))
    (failed False t).
Proof.
  induction cs as [|c cs IH]; intros k next v t Hp H1 Hn Hc Hx Hch; cbn [write_chain].
  { apply st_wp_ret. split_and!; try done. by apply quiet_changed, tree_quiet_refl. }
  apply Forall_cons in Hc as [Hc Hcs]. cbn [length] in Hn. apply st_wp_bind.
  eapply st_wp_mono; [apply write_piece_wp; [done|lia|done|done]| |by auto].
  intros id t1 (-> & Hn1 & Hr1 & Hp1 & Hch1 & p & Hv & Ho).
  eapply st_wp_mono; [apply (IH (S k) (t_next t) (c ++ v) t1)|..]; try done; try lia.
  - apply in_u_spec. lia.
  - econstructor; [lia|exact Hv|exact Ho|]. by eapply chain_changed.
  - intros id t2 (Hr2 & Hp2 & Hch2 & Hi2 & Hc2). split_and!; [congruence|done| |done|].
    + eapply changed_le; [by eapply changed_trans|cbn [length]; lia].
    + replace (length (c :: cs) + k)%nat with (length cs + S k)%nat by (cbn; lia). cbn [rev]. rewrite concat_app. cbn [concat].
      by rewrite app_nil_r, <- app_assoc.
  - intros e t2. apply (changed_failed _ _ _ _ _ _ _ _ Hch1).
Qed.

(** [write_overflow]: at most [MAX_VALUE_LEN] bytes, so at most 130 pages. *)
Definition MAX_CHAIN : Z := 131.
Lemma write_overflow_wp t value :
  pool_ok crc (t_next t) (t_cache t) -> 1 <= t_next t -> t_next t + MAX_CHAIN < 2 ^ 51 - 1 -> zlen value <= MAX_VALUE_LEN ->
  wp (write_overflow crc lsn value) t
    (fun id t' => t_root t' = t_root t /\ pool_ok crc (t_next t') (t_cache t') /\ changed crc t t' MAX_CHAIN [] /\
       in_u 64 id = true /\ exists k, (k <= CHAIN_GUARD)%nat /\ chain (view crc (t_cache t')) (t_next t') k id value)
    (failed False t).
Proof.
  intros Hp H1 Hn Hv. unfold write_overflow. set (n := Z.to_nat OVERFLOW_DATA_PER_PAGE). set (cs := chunks _ n value).
  assert (Hn1 : (1 <= n)%nat) by (unfold n, OVERFLOW_DATA_PER_PAGE; plia).
  assert (Hlen : Z.of_nat (length cs) <= MAX_CHAIN).
  { pose proof (chunks_length n (length value) Hn1 value) as H. fold cs in H. unfold MAX_CHAIN, MAX_VALUE_LEN, zlen in *.
    assert (n = Z.to_nat 8120) as En by done. rewrite En in H. lia. }
  eapply st_wp_mono; [apply (write_chain_wp (rev cs) 0 0 [] t)|..]; try done.
  - rewrite length_rev. lia.
  - apply Forall_rev. eapply Forall_impl; [apply chunks_bound|]. cbn. unfold n, zlen. intros c Hc. lia.
  - constructor.
  - intros id t' (Hr & Hp' & Hch & Hi & Hc). split_and!; [done|done| |done|].
    + eapply changed_le; [exact Hch|]. by rewrite length_rev.
    + rewrite length_rev, rev_involutive, app_nil_r in Hc. unfold cs in Hc at 2. rewrite chunks_concat in Hc by done.
      exists (length cs + 0)%nat. split; [|done]. unfold CHAIN_GUARD. unfold MAX_CHAIN in Hlen. lia.
Qed.
End value.
