(* ===== verification/BTreeStore.v ===== *)
(** * The tree as an ordered list of versions

    [add_version] and [visible] are what a reader of btree.rs expects of the
    tree: an ordered list of versions, a new one put in its place or found to be
    there already, the newest visible version of a key.  The theorems show that
    the pages implement it: through splits, overflow chains, eviction and
    injected faults. *)

From Stdlib Require Import Sorted.
From stdpp Require Import gmap sorting.
From S2P Require Import Prelude Errors StateMonad StoreFormat Journal BufferPool SlotPage BTree BTreeShape BTreeRead BTreeInsert BTreeValue.
#[local] Open Scope Z_scope.

(** ** Specification *)
Fixpoint add_version (v : LeafEntry) (vs : list LeafEntry) : option (list LeafEntry) :=
  match vs with
  | [] => Some [v]
  | x :: vs' =>
      match leaf_cmp (le_key x) (le_seq x) (le_key v) (le_seq v) with
      | Eq => None
      | Gt => Some (v :: vs)
      | Lt => cons x <$> add_version v vs'
      end
  end.

Lemma add_version_here v l r : sorted_entries (l ++ v :: r) -> add_version v (l ++ r) = Some (l ++ v :: r).
Proof.
  induction l as [|x l IH]; intros Hs; cbn [app add_version].
  - destruct r as [|y r]; [done|]. inversion Hs as [|? ? _ HF]; subst. apply Forall_cons in HF as [Hy _].
    pose proof (pos_cmp_spec (epos y) (epos v)) as Hc. cbn in *. destruct (leaf_cmp _ _ _ _); [|..|done].
    + rewrite Hc in Hy. by apply Plt_irrefl in Hy.
    + exfalso. eapply Plt_irrefl. by eapply Plt_trans.
  - inversion Hs as [|? ? Hs' HF]; subst. apply Forall_app in HF as [_ HF]. apply Forall_cons in HF as [Hx _].
    cbn [add_version]. unfold Plt, pos_lt in Hx. cbn in Hx. destruct (leaf_cmp _ _ _ _); [done| |done]. by rewrite IH.
Qed.
Lemma add_version_there v vs v0 : sorted_entries vs -> v0 ∈ vs -> epos v0 = epos v -> add_version v vs = None.
Proof.
  intros Hs Hin Hp. induction vs as [|x vs IH]; [by apply elem_of_nil in Hin|]. inversion Hs as [|? ? Hs' HF]; subst.
  cbn [add_version]. pose proof (pos_cmp_spec (epos x) (epos v)) as Hc. cbn in Hc.
  apply elem_of_cons in Hin as [-> |Hin].
  - destruct (leaf_cmp _ _ _ _); [done|exfalso; rewrite Hp in Hc; by apply Plt_irrefl in Hc..].
  - rewrite Forall_forall in HF. specialize (HF _ Hin). rewrite Hp in HF.
    destruct (leaf_cmp _ _ _ _); [done|by rewrite IH|]. exfalso. eapply Plt_irrefl. by eapply Plt_trans.
Qed.

Section store.
Context (crc : bytes -> Z) (lsn : Z).
Context (crc_range : forall b, in_u 32 (crc b) = true) (lsn_range : in_u 64 lsn = true).

(** ** Entries and the versions they stand for *)
Inductive rep (V : Z -> option bytes) (n : Z) : LeafEntry -> LeafEntry -> Prop :=
| rep_inline v : is_overflow v = false -> rep V n v v
| rep_chain v first k :
    is_overflow v = false -> in_u 64 first = true -> zlen (le_value v) < 2 ^ 32 -> (k <= CHAIN_GUARD)%nat ->
    chain crc V n k first (le_value v) ->
    rep V n (MkLeafEntry (le_key v) (le_seq v) (le_txn_id v) (Z.lor (le_flags v) ENTRY_FLAG_OVERFLOW) (le_meta v)
               (le_encode 8 first ++ le_encode 4 (zlen (le_value v)))) v.

Lemma rep_pos V n e v : rep V n e v -> epos e = epos v.
Proof. by destruct 1. Qed.
Lemma rep_tombstone V n e v : rep V n e v -> is_tombstone e = is_tombstone v.
Proof.
  destruct 1; [done|]. unfold is_tombstone. cbn [le_flags]. rewrite Z.land_lor_distr_l.
  change (Z.land ENTRY_FLAG_OVERFLOW ENTRY_FLAG_TOMBSTONE) with 0. by rewrite Z.lor_0_r.
Qed.
Lemma rep_frame V V' n n' e v : n <= n' ->
  (forall y p, 0 < y < n -> V y = Some p -> type_of_page p = Ok Overflow -> V' y = Some p) -> rep V n e v -> rep V' n' e v.
Proof. intros Hn HV. destruct 1; [by constructor|]. econstructor; [done|done|done|done|]. by eapply chain_frame. Qed.

Lemma visible_rep V n es vs key s : Forall2 (rep V n) es vs ->
  match visible key s es, visible key s vs with Some e, Some v => rep V n e v | None, None => True | _, _ => False end.
Proof.
  unfold visible. induction 1 as [|e v es vs Hr _ IH]; cbn; [done|].
  assert (matches key s e = matches key s v) as ->.
  { unfold matches. pose proof (rep_pos _ _ _ _ Hr) as [= Hk Hs]. by rewrite Hk, Hs. }
  by destruct (matches key s v).
Qed.

(** The tree of the state holds the versions [vs]. *)
Record store_ok (t : Tree) (g : gtree) (vs : list LeafEntry) : Prop := {
  so_tree : tree_ok crc t g;
  so_rep : Forall2 (rep (view crc (t_cache t)) (t_next t)) (entries g) vs;
}.

Lemma store_sorted t g vs : store_ok t g vs -> sorted_entries vs.
Proof.
  intros [Ht Hr]. pose proof (ordered_entries _ (tk_ordered _ _ _ Ht)) as Hs. fold (entries g) in Hs. revert Hs.
  induction Hr as [|e v es vs Hev Hr IH]; intros Hs; [constructor|]. inversion Hs as [|? ? Hs' HF]; subst. constructor; [by apply IH|].
  clear IH Hs Hs'. induction Hr as [|e' v' es vs Hev' _ IH]; [constructor|]. apply Forall_cons in HF as [H1 H2].
  constructor; [|by apply IH]. by rewrite <- (rep_pos _ _ _ _ Hev), <- (rep_pos _ _ _ _ Hev').
Qed.

Lemma gpages_type g : Forall (fun x : gpage => x.1.2 <> Overflow) (gpages g).
Proof.
  induction g as [id es|id g0 ks IH0 IHk] using gtree_ind'; cbn; [by repeat constructor|]. constructor; [done|].
  apply Forall_app. split; [done|]. induction IHk; cbn; [constructor|]. apply Forall_app. by split.
Qed.
(** Pages of the tree and fresh ones are not the pages of a chain. *)
Lemma rep_changed t t' g n e v : tree_ok crc t g -> changed crc t t' n (gids g) ->
  rep (view crc (t_cache t)) (t_next t) e v -> rep (view crc (t_cache t')) (t_next t') e v.
Proof.
  intros Ht [N V _]. apply rep_frame; [lia|]. intros y p Hy Hp Hty. rewrite V; [done|lia|]. intros Hin.
  apply list_elem_of_fmap in Hin as (x & -> & Hx). pose proof (tk_stored _ _ _ Ht) as Hst. unfold stored in Hst.
  rewrite Forall_forall in Hst. destruct (Hst x Hx) as (q & Hq & Hi). rewrite Hp in Hq. simplify_eq.
  pose proof (page_is_type _ _ _ _ _ Hi) as Ht2. rewrite Hty in Ht2. simplify_eq.
  pose proof (gpages_type g) as Hno. rewrite Forall_forall in Hno. specialize (Hno x Hx). congruence.
Qed.
Lemma store_quiet t t' g vs : quiet crc t t' -> store_ok t g vs -> store_ok t' g vs.
Proof.
  intros Hq [Ht Hr]. split; [by eapply tree_ok_quiet|]. eapply Forall2_impl; [exact Hr|]. intros e v.
  by eapply (rep_changed t t' g 0), quiet_changed.
Qed.

Lemma overflow_flag k s x v m y : is_overflow v = false ->
  is_overflow (MkLeafEntry k s x (Z.lor (le_flags v) ENTRY_FLAG_OVERFLOW) m y) = true.
Proof.
  unfold is_overflow. cbn [le_flags]. destruct (Z.eqb_spec (Z.land (le_flags v) ENTRY_FLAG_OVERFLOW) 0) as [Hf|]; [|done].
  intros _. by rewrite Z.land_lor_distr_l, Hf.
Qed.

(** ** Reading *)
Lemma read_value_wp t e v :
  pool_ok crc (t_next t) (t_cache t) -> rep (view crc (t_cache t)) (t_next t) e v ->
  wp (read_value crc e) t (fun r t' => quiet crc t t' /\ r = le_value v) (fun e t' => e = ResourceLimit /\ quiet crc t t').
Proof.
  intros Hp Hr. destruct Hr as [v Hov|v first k Hov Hi Hl Hk Hc]; unfold read_value.
  { rewrite Hov. apply st_wp_ret. split; [by apply tree_quiet_refl|done]. }
  rewrite overflow_flag by done. cbn [le_value]. unfold zlen at 1. rewrite length_app, !le_encode_length. cbn [Nat.add Z.of_nat Z.eqb].
  replace (_ =? 12) with true by done.
  rewrite (sub_app_here 0 8) by (by rewrite ?le_encode_length).
  rewrite (sub_app_skip 8 12) by (by rewrite le_encode_length). rewrite sub_whole by (by rewrite !le_encode_length).
  apply in_u_spec in Hi. rewrite !le_decode_encode by (unfold zlen in *; lia).
  apply st_wp_bind. eapply st_wp_mono; [by apply (read_chain_wp crc CHAIN_GUARD k)| |done].
  intros r t' [Hq ->]. cbn [app]. rewrite Z.eqb_refl. by apply st_wp_ret.
Qed.

(** What a reader of a key gets. *)
Definition lookup_version (key : bytes) (visible_seq : Z) (vs : list LeafEntry) : option bytes :=
  match visible key visible_seq vs with
  | Some v => if is_tombstone v then None else Some (le_value v)
  | None => None
  end.

Lemma store_get_wp t g vs key s :
  store_ok t g vs ->
  wp (store_get crc key s) t
    (fun r t' => quiet crc t t' /\ r = lookup_version key s vs)
    (read_error crc (too_big g) t).
Proof.
  intros [Ht Hr]. unfold store_get. apply st_wp_bind. eapply st_wp_mono; [by apply get_version_wp| |done].
  intros r t1 [Hq ->]. unfold lookup_version. pose proof (visible_rep _ _ _ _ key s Hr) as Hv.
  destruct (visible key s (entries g)) as [e|], (visible key s vs) as [v|]; try done.
  rewrite (rep_tombstone _ _ _ _ Hv). destruct (is_tombstone v); [by apply st_wp_ret|]. apply st_wp_bind.
  eapply st_wp_mono; [apply (read_value_wp t1 e v)|..].
  - apply Hq.
  - eapply (rep_changed t t1 g 0); [done|by apply quiet_changed|done].
  - intros r t2 [Hq2 ->]. apply st_wp_ret. split; [by eapply tree_quiet_trans|done].
  - intros x t2 H. eapply (read_error_after crc False); [exact Hq|intros []|by apply fetch_error].
Qed.

(** ** Inserting *)
Lemma find_version_wp t g key s :
  tree_ok crc t g ->
  wp (find_version crc key s) t
    (fun b t' => quiet crc t t' /\ if b then exists e, e ∈ entries g /\ epos e = (key, s) else True)
    (read_error crc (MAX_DEPTH < levels g)%nat t).
Proof.
  intros Ht. unfold find_version. apply st_wp_bind. eapply st_wp_mono; [by apply descend_wp| |done].
  intros path t1 (Hq & ctx & id & es & -> & -> & _). apply st_wp_bind. eapply st_wp_lift; [apply path_leaf_of|].
  pose proof (part_plug _ _ _ _ (tree_part _ _ _ (tree_ok_quiet _ _ _ _ Hq Ht))) as Hpl.
  apply st_wp_bind. eapply st_wp_mono; [by apply fetch_leaf_wp|..].
  2:{ intros e t2 H. eapply (read_error_after crc False); [exact Hq|intros []|by apply fetch_error]. }
  intros [i p] t2 (Hq2 & Hi & _). cbn [fst snd] in *.
  assert (Hok : Forall entry_ok es).
  { pose proof (pt_items _ _ _ Hpl) as Hit. cbn in Hit. by apply (Forall_fmap Ent) in Hit. }
  rewrite (leaf_range _ _ _ _ Hi), (page_is_count _ _ _ _ _ Hi), length_map.
  pose proof (leaf_position_spec p key s (Z.of_nat (length es)) es 0 (leaf_decodes _ _ _ _ Hi Hok) eq_refl) as Hpos.
  apply st_wp_bind. destruct (leaf_position _ _ _ _ _) as [r| |]; [|done..]. eapply st_wp_lift; [reflexivity|].
  apply st_wp_ret. split; [by eapply tree_quiet_trans|]. destruct r as [pos|]; [done|]. destruct Hpos as (e & He & Hp).
  exists e. split; [|done]. rewrite entries_plug, !elem_of_app. unfold entries. cbn. rewrite items_entries_map. by auto.
Qed.

(** A change that wrote fresh pages only. *)
Lemma tree_ok_fresh t t' g n : tree_ok crc t g -> changed crc t t' n [] -> t_root t' = t_root t ->
  pool_ok crc (t_next t') (t_cache t') -> t_next t' < 2 ^ 51 -> tree_ok crc t' g.
Proof.
  intros [P R S N B X O I] [Cn V _] Hr Hp Hx. constructor; try done; [congruence|..|lia].
  - eapply stored_view; [|exact S]. intros x Hx'. apply V; [|by apply not_elem_of_nil].
    rewrite Forall_forall in B. apply (B x Hx').
  - eapply Forall_impl; [exact B|]. cbn. lia.
Qed.

(** The form a value is stored in. *)
Lemma stored_value_wp t g v :
  tree_ok crc t g -> t_next t + MAX_CHAIN < 2 ^ 51 - 1 -> is_overflow v = false -> zlen (le_value v) <= MAX_VALUE_LEN ->
  wp (stored_value crc lsn (le_flags v) (le_value v)) t
    (fun r t' => tree_ok crc t' g /\ changed crc t t' MAX_CHAIN [] /\ zlen r.2 <= MAX_INLINE_VALUE /\
       rep (view crc (t_cache t')) (t_next t') (MkLeafEntry (le_key v) (le_seq v) (le_txn_id v) r.1 (le_meta v) r.2) v)
    (failed False t).
Proof.
  intros Ht Hn Hov Hlen. pose proof (tk_next _ _ _ Ht) as Hx. unfold stored_value.
  destruct (Z.ltb_spec MAX_INLINE_VALUE (zlen (le_value v))) as [Hbig|Hin].
  - apply st_wp_bind. eapply st_wp_mono; [apply (write_overflow_wp crc lsn crc_range lsn_range t); [apply Ht|lia|done|done]| |done].
    intros id t1 (Hr & Hp & Hch & Hi & k & Hk & Hc). apply st_wp_ret. cbn [fst snd]. split_and!; [|done|done|].
    + eapply tree_ok_fresh; try done. pose proof (ch_next _ _ _ _ _ Hch). lia.
    + unfold MAX_VALUE_LEN in Hlen. rewrite wrap_u_small by (unfold zlen in *; lia). econstructor; try done; lia.
  - apply st_wp_ret. cbn [fst snd]. split_and!; [done| |done|].
    + eapply changed_le; [apply quiet_changed, tree_quiet_refl, Ht|done].
    + destruct v. by constructor.
Qed.

Definition small_version (v : LeafEntry) : Prop := zlen (le_key v) <= 384 /\ zlen (le_meta v) <= 1200.
Definition insert_error (g : gtree) (v : LeafEntry) (t : Tree) (e : ErrorCode) (t' : Tree) : Prop :=
  pf_data (io (t_cache t')) = pf_data (io (t_cache t)) /\
  (e = KeyTooLarge /\ MAX_KEY_LEN < zlen (le_key v) \/ e = ValueTooLarge /\ MAX_VALUE_LEN < zlen (le_value v) \/
   e = ResourceLimit \/ e = Io \/
   (e = Corruption \/ e = ValueTooLarge) /\ (~ (small_tree g /\ small_version v) \/ (MAX_DEPTH < levels g)%nat)).
Lemma failed_insert (bad : Prop) g v t e t' :
  (bad -> ~ (small_tree g /\ small_version v) \/ (MAX_DEPTH < levels g)%nat) -> failed bad t e t' -> insert_error g v t e t'.
Proof. intros Hb [He Hf]. split; [done|]. tauto. Qed.

(** The entry of a version that is stored. *)
Lemma rep_entry v f s :
  let e := MkLeafEntry (le_key v) (le_seq v) (le_txn_id v) f (le_meta v) s in
  zlen (le_key v) <= MAX_KEY_LEN -> in_u 64 (le_seq v) = true -> length (le_txn_id v) = 32%nat -> zlen (le_meta v) <= 5000 ->
  zlen s <= MAX_INLINE_VALUE ->
  entry_ok e /\ zlen (leaf_encode e) + 4 <= CAP /\ (small_version v -> small_item (Ent e)).
Proof.
  intros e Hk Hs Ht Hm Hv. unfold MAX_KEY_LEN, MAX_INLINE_VALUE in *. split_and!.
  - unfold e. split_and!; cbn [le_key le_seq le_txn_id le_meta le_value]; unfold MAX_KEY_LEN; try done; lia.
  - rewrite leaf_encode_length. unfold e. cbn [le_key le_txn_id le_meta le_value]. unfold CAP. unfold zlen at 1. rewrite Ht. plia.
  - intros [S1 S2]. split; [done|]. rewrite leaf_encode_length. unfold e. cbn [le_key le_txn_id le_meta le_value].
    unfold zlen at 1. rewrite Ht. lia.
Qed.

(** The pages one insertion can allocate: a chain, a split on every level and a new root. *)
Definition INSERT_PAGES : Z := MAX_CHAIN + 65.
Lemma insert_pages : INSERT_PAGES = MAX_CHAIN + (Z.of_nat MAX_DEPTH + 1).
Proof. reflexivity. Qed.

Lemma insert_version_wp t g vs v :
  store_ok t g vs -> t_next t + INSERT_PAGES < 2 ^ 51 - 1 ->
  in_u 64 (le_seq v) = true -> length (le_txn_id v) = 32%nat -> is_overflow v = false -> zlen (le_meta v) <= 5000 ->
  wp (insert_version crc lsn (le_key v) (le_seq v) (le_txn_id v) (le_flags v) (le_meta v) (le_value v)) t
    (fun b t' => pf_data (io (t_cache t')) = pf_data (io (t_cache t)) /\ t_next t <= t_next t' <= t_next t + INSERT_PAGES /\
       match add_version v vs with
       | Some vs' => b = true /\ exists g', store_ok t' g' vs' /\ (small_tree g /\ small_version v -> small_tree g')
       | None => b = false /\ store_ok t' g vs
       end)
    (insert_error g v t).
Proof.
  rewrite insert_pages. intros Hso Hn Hs Htx Hov Hm. assert (Hmc : 0 <= MAX_CHAIN) by done. pose proof Hso as [Ht Hr]. pose proof (store_sorted _ _ _ Hso) as Hsort. unfold insert_version.
  destruct (Z.ltb_spec MAX_KEY_LEN (zlen (le_key v))) as [Hk|Hk]; [apply st_wp_fail; split; [done|by left]|].
  destruct (Z.ltb_spec MAX_VALUE_LEN (zlen (le_value v))) as [Hv|Hv]; [apply st_wp_fail; split; [done|by right; left]|].
  assert (Hdup : forall t' e, quiet crc t t' -> e ∈ entries g -> epos e = epos v -> add_version v vs = None).
  { intros t' e _ (i & Hi)%list_elem_of_lookup Hp. destruct (Forall2_lookup_l _ _ _ _ _ Hr Hi) as (x & Hx & Hex).
    eapply (add_version_there v vs x); [done|by eapply list_elem_of_lookup_2|]. by rewrite <- Hp, <- (rep_pos _ _ _ _ Hex). }
  apply st_wp_bind.
  assert (Hfind : wp (match MAX_INLINE_VALUE <? zlen (le_value v) with true => find_version crc (le_key v) (le_seq v) | false => mret false end) t
    (fun b t' => quiet crc t t' /\ (b = true -> add_version v vs = None)) (failed (MAX_DEPTH < levels g)%nat t)).
  { destruct (_ <? _).
    - eapply st_wp_mono; [by apply find_version_wp|..].
      + intros b t' [Hq Hb]. split; [done|]. intros ->. destruct Hb as (e & He & Hp). by eapply Hdup.
      + intros e t' [He Hq]. split; [tauto|by eapply quiet_file].
    - apply st_wp_ret. split; [by apply tree_quiet_refl, Ht|done]. }
  eapply st_wp_mono; [exact Hfind|clear Hfind|intros e t'; apply failed_insert; by right].
  intros b t1 [Hq Hb]. pose proof (quiet_file _ _ _ Hq) as Hf1. destruct b.
  { pose proof (qt_next _ _ _ Hq) as Hn1. apply st_wp_ret. split; [done|]. split; [lia|]. rewrite Hb by done. split; [done|]. by eapply store_quiet. }
  clear Hb. pose proof (qt_next _ _ _ Hq) as Hn1. pose proof (store_quiet _ _ _ _ Hq Hso) as [Ht1 Hr1].
  apply st_wp_bind. eapply st_wp_mono; [apply (stored_value_wp t1 g v Ht1); [lia|done|done]|..].
  2:{ intros e t' Hf. eapply (failed_insert False); [done|]. by eapply failed_file. }
  intros [f s] t2 (Ht2 & Hch & Hsl & Hrep). cbn [fst snd] in *. pose proof (ch_next _ _ _ _ _ Hch) as Hn2.
  set (e := MkLeafEntry (le_key v) (le_seq v) (le_txn_id v) f (le_meta v) s) in *.
  destruct (rep_entry v f s Hk Hs Htx Hm Hsl) as (Heok & Hcap & Hsmall). fold e in Heok, Hcap, Hsmall.
  eapply st_wp_mono; [apply (insert_entry_wp crc lsn crc_range lsn_range t2 g e Ht2 Heok Hcap); lia|..].
  - intros b t3 Hb. destruct b.
    + destruct Hb as (g' & l & r & Ht3 & Hlr & Hg' & Hsm & Hch3).
      split; [by rewrite (ch_file _ _ _ _ _ Hch3), (ch_file _ _ _ _ _ Hch)|]. pose proof (ch_next _ _ _ _ _ Hch3). split; [lia|].
      assert (Hall : Forall2 (rep (view crc (t_cache t3)) (t_next t3)) (l ++ r) vs).
      { rewrite <- Hlr. eapply Forall2_impl; [exact Hr1|]. intros a x Hax. eapply (rep_changed t2 t3 g); [done|exact Hch3|].
        eapply (rep_changed t1 t2 g); [done| |done]. by apply changed_fresh. }
      apply Forall2_app_inv_l in Hall as (lv & rv & Hlv & Hrv & Evs).
      assert (Hst : store_ok t3 g' (lv ++ v :: rv)).
      { split; [done|]. rewrite Hg'. apply Forall2_app; [done|]. constructor; [|done]. by eapply (rep_changed t2 t3 g). }
      pose proof (add_version_here v lv rv (store_sorted _ _ _ Hst)) as Hadd. rewrite <- Evs in Hadd. rewrite Hadd.
      split; [done|]. exists g'. split; [done|]. intros [H1 H2]. by auto.
    + destruct Hb as [Hq3 (e0 & He0 & Hp0)]. split; [by rewrite (quiet_file _ _ _ Hq3), (ch_file _ _ _ _ _ Hch)|].
      pose proof (qt_next _ _ _ Hq3). split; [lia|]. rewrite (Hdup t1 e0 Hq He0 Hp0). split; [done|]. apply (store_quiet t2); [done|]. split; [done|].
      eapply Forall2_impl; [exact Hr1|]. intros a x Hax. eapply (rep_changed t1 t2 g); [done| |done]. by apply changed_fresh.
  - intros x t3 Hf. eapply (failed_insert _ g v); [|eapply failed_file; [|exact Hf]; by rewrite (ch_file _ _ _ _ _ Hch)].
    intros [Hb|Hb]; [left|by right]. intros [H1 H2]. apply Hb. by auto.
Qed.

(** A new tree is empty. *)
Lemma tree_create_wp t :
  pool_ok crc (t_next t) (t_cache t) -> 1 <= t_next t < 2 ^ 51 - 1 ->
  wp (tree_create crc lsn) t
    (fun _ t' => store_ok t' (GLeaf (t_next t) []) [] /\ t_next t' = t_next t + 1 /\ io (t_cache t') = io (t_cache t))
    (fun e _ => e = ResourceLimit).
Proof.
  intros Hp Hn. unfold tree_create. apply st_wp_bind, alloc_wp; [lia|]. set (id := t_next t) in *.
  destruct (blank_page_is crc crc_range id Leaf lsn ltac:(apply in_u_spec; lia) lsn_range) as (p & Hw & Hi).
  apply st_wp_bind, wp_in_cache. cbn [t_cache].
  eapply st_wp_mono; [by apply (insert_new_wp crc id (id + 1) (t_cache t) id Leaf lsn p Hp ltac:(lia) ltac:(lia) Hw (page_is_length _ _ _ _ _ Hi))|..].
  2:{ by intros e c' (-> & _). }
  intros i c' (Hp' & Hio & _ & Hv & _). apply st_wp_update. cbn [t_next t_cache].
  split_and!; [|reflexivity|exact Hio]. split; [|constructor].
  constructor; [exact Hp'|reflexivity|..|cbn; lia|constructor|constructor].
  - constructor; [|constructor]. exists p. cbn. rewrite Hv, Z.eqb_refl. split; [reflexivity|exact Hi].
  - repeat constructor. by apply not_elem_of_nil.
  - repeat constructor; cbn; lia.
Qed.
End store.


(** C14. Reading a key at a sequence number gives the value of the newest version
    visible there, nothing for a tombstone or an unknown key, with overflow
    chains reassembled; the read changes neither the file nor what any other
    read sees, and can only fail when every frame of the pool is pinned or
    dirty, or the tree is beyond the guards of the loops (64 levels, a million
    leaves). *)
Theorem btree_get_refines crc t g vs key visible_seq :
  store_ok crc t g vs ->
  match store_get crc key visible_seq t with
  | (Ok r, t') => r = lookup_version key visible_seq vs /\ store_ok crc t' g vs /\ pf_data (io (t_cache t')) = pf_data (io (t_cache t))
  | (Err e, t') => (e = ResourceLimit \/ e = Corruption /\ too_big g) /\ store_ok crc t' g vs /\ pf_data (io (t_cache t')) = pf_data (io (t_cache t))
  | (Panic, _) => False
  end.
Proof.
  intros Hs. pose proof (store_get_wp crc t g vs key visible_seq Hs) as H. unfold wp in H.
  destruct (store_get _ _ _ _) as [[r|e|] t']; [..|done]; destruct H as [H1 H2];
    eauto using store_quiet, quiet_file.
Qed.

(** ** Witnesses *)
Definition crc0 (b : bytes) : Z := 0.
Definition no_tree : Tree := tree_open 0 1 (MkCache (pool_new 16) (MkPageFile [] [])).
Definition new_tree : Tree := (tree_create crc0 7 no_tree).2.
Definition a_version : LeafEntry := MkLeafEntry [104; 105] 5 (zeros 32) 0 [] [1; 2; 3].

Lemma no_tree_ok : pool_ok crc0 (t_next no_tree) (t_cache no_tree).
Proof. constructor; cbn; try done; [|by left]. intros id i. split; [done|]. by intros (f & Hf & _). Qed.
Lemma new_tree_ok : store_ok crc0 new_tree (GLeaf 1 []) [] /\ t_next new_tree = 2.
Proof.
  pose proof (tree_create_wp crc0 7 (fun _ => eq_refl) eq_refl no_tree no_tree_ok ltac:(cbn; lia)) as H.
  unfold new_tree. unfold wp in H. assert (Hr : (tree_create crc0 7 no_tree).1 = Ok tt) by (vm_compute; reflexivity).
  destruct (tree_create _ _ _) as [r t']. cbn [fst snd] in *. subst r. by destruct H as (H1 & H2 & _).
Qed.


Lemma btree_get_refines_witness :
  store_ok crc0 new_tree (GLeaf 1 []) [] /\ (store_get crc0 [104; 105] 9 new_tree).1 = Ok None.
Proof.
  split; [exact (proj1 new_tree_ok)|].
  pose proof (btree_get_refines crc0 new_tree (GLeaf 1 []) [] [104; 105] 9 (proj1 new_tree_ok)) as H.
  destruct (store_get _ _ _ _) as [[r|e|] t'] eqn:E; cbn [fst].
  - destruct H as (-> & _). reflexivity.
  - exfalso. assert (Hr : (store_get crc0 [104; 105] 9 new_tree).1 = Ok None) by (vm_compute; reflexivity). rewrite E in Hr. discriminate.
  - destruct H.
Defined.

(** ** A version that cannot be stored *)
Definition long_key (c : Z) : bytes := c :: zeros 2047.
Definition put_long (c n : Z) : stM Tree bool := insert_version crc0 7 (long_key c) 5 (zeros 32) 0 [] (zeros (Z.to_nat n)).

(** A key and a value within the limits the store checks can be impossible
    to insert: with keys of 2048 bytes and inline values, the cut that balances
    the bytes of a full leaf can leave a left half that does not fit on a page,
    and the insertion fails as corruption. *)
Theorem legal_version_refused :
  zlen (long_key 3) = MAX_KEY_LEN /\ 1024 <= MAX_VALUE_LEN /\
  ((_ ← put_long 1 699; _ ← put_long 2 699; put_long 4 399) new_tree).1 = Ok true /\
  ((_ ← put_long 1 699; _ ← put_long 2 699; _ ← put_long 4 399; put_long 3 1024) new_tree).1 = Err Corruption.
Proof. split_and!; vm_compute; done. Qed.
