(* ===== verification/BTreePersist.v ===== *)
(** * Checkpoints of the tree

    [persist_with_gc] writes every dirty page under a fresh identifier, and every
    page above it, so the previous image stays readable until the new root is
    published.  The image of a state is what its file holds of the clean pages;
    the theorems are about the image a checkpoint leaves, the old one it does not
    touch, and the versions reclaimed on the way. *)

From Stdlib Require Import Sorted.
From stdpp Require Import gmap sorting.
From S2P Require Import Prelude Errors StateMonad StoreFormat Journal BufferPool SlotPage BTree BTreeShape BTreeRead BTreeInsert BTreeValue BTreeStore.
#[local] Open Scope Z_scope.

(** ** Reclaiming versions *)
(** The pass of [compact_versions] on entries. *)
Fixpoint compact (horizon : Z) (group : option bytes) (kept_below : bool) (es : list LeafEntry) : list LeafEntry :=
  match es with
  | [] => []
  | e :: es' =>
      let kept_below := kept_below && bool_decide (group = Some (le_key e)) in
      if horizon <? le_seq e then e :: compact horizon (Some (le_key e)) kept_below es'
      else if kept_below then compact horizon (Some (le_key e)) kept_below es'
      else e :: compact horizon (Some (le_key e)) true es'
  end.

Lemma compact_loop_spec h : forall es group b,
  compact_loop h group b (zip es (map leaf_encode es)) =
    (map leaf_encode (compact h group b es), Z.of_nat (length es - length (compact h group b es))) /\
  compact h group b es `sublist_of` es.
Proof.
  induction es as [|e es IH]; intros group b; [done|]. cbn [map zip zip_with compact_loop compact].
  destruct (h <? le_seq e); [|destruct (b && _)]; cbn [negb];
    (edestruct IH as [-> Hs]; split; [|by constructor]); cbn [map length]; f_equal;
    pose proof (sublist_length _ _ Hs); lia.
Qed.
Lemma compact_versions_spec h es : Forall entry_ok es ->
  compact_versions (map leaf_encode es) h =
    Ok (map leaf_encode (compact h None false es), Z.of_nat (length es - length (compact h None false es))).
Proof.
  intros Hok. unfold compact_versions.
  assert (collect leaf_decode (map leaf_encode es) = Ok es) as ->.
  { induction Hok as [|e es He _ IH]; [done|]. cbn [map collect]. rewrite leaf_decode_encode by done. cbn [mbind outcome_bind]. by rewrite IH. }
  cbn [mbind outcome_bind]. by rewrite (proj1 (compact_loop_spec h es None false)).
Qed.

(** Every reader at or above the horizon sees what it saw. *)
Lemma compact_visible h key s : h <= s -> forall es group b, (b = true -> group <> Some key) ->
  visible key s (compact h group b es) = visible key s es.
Proof.
  intros Hs. unfold visible. induction es as [|e es IH]; intros group b Hg; [done|]. cbn [compact].
  assert (Hne : le_key e <> key -> matches key s e = false).
  { intros Hk. unfold matches. by rewrite bool_decide_eq_false_2 by congruence. }
  destruct (Z.ltb_spec h (le_seq e)) as [Hlt|Hle].
  - cbn. destruct (matches key s e); [done|]. apply IH. intros Hb [= Hk]. apply andb_true_iff in Hb as [-> Hb].
    apply bool_decide_eq_true in Hb. apply Hg; [done|congruence].
  - destruct (b && bool_decide (group = Some (le_key e))) eqn:Eb.
    + apply andb_true_iff in Eb as [-> Eb]. apply bool_decide_eq_true in Eb. subst group.
      assert (Hk : le_key e <> key) by (intros Hk; apply Hg; [done|by rewrite Hk]). cbn. rewrite (Hne Hk). apply IH. congruence.
    + cbn. destruct (decide (le_key e = key)) as [<-|Hk].
      * assert (matches (le_key e) s e = true) as -> by (unfold matches; rewrite bool_decide_eq_true_2 by done; cbn; lia). done.
      * rewrite (Hne Hk). apply IH. congruence.
Qed.

Lemma sublist_full {A} (l k : list A) : l `sublist_of` k -> length l = length k -> l = k.
Proof.
  induction 1 as [|x l k Hs IH|x l k Hs IH]; cbn; intros Hl; [done|by f_equal; apply IH; lia|].
  apply sublist_length in Hs. lia.
Qed.
Lemma compact_length h vs : length vs = length (compact h None false vs) -> compact h None false vs = vs.
Proof. intros Hl. apply sublist_full; [apply compact_loop_spec|done]. Qed.
Lemma compact_nil h vs : compact h None false vs = [] -> vs = [].
Proof. destruct vs as [|v vs]; [done|]. cbn. by destruct (h <? le_seq v). Qed.

(** The versions of a leaf a collection at the horizon leaves. *)
Definition compact_gc (gc : option Z) (vs : list LeafEntry) : list LeafEntry :=
  match gc with None => vs | Some h => compact h None false vs end.

(** *** What stays

    Of the versions [ws] of a leaf, those above the horizon and, of every key,
    the newest one at or below it, tombstone or not. *)
Definition stays (h : Z) (ws : list LeafEntry) (v : LeafEntry) : bool :=
  (h <? le_seq v) ||
  negb (existsb (fun w => bool_decide (le_key w = le_key v) && (le_seq v <? le_seq w) && (le_seq w <=? h)) ws).
Definition gc_leaf (gc : option Z) (ws : list LeafEntry) : list LeafEntry :=
  match gc with None => ws | Some h => filter (fun v => stays h ws v = true) ws end.

Lemma epos_same a b : Plt (epos a) (epos b) -> le_key a = le_key b -> le_seq b < le_seq a.
Proof.
  unfold Plt, pos_lt, epos, leaf_cmp. cbn [fst snd]. intros H E. rewrite E, bytes_cmp_refl in H.
  by destruct (Z.compare_spec (le_seq b) (le_seq a)).
Qed.
Lemma epos_between a b c : Plt (epos a) (epos b) -> Plt (epos b) (epos c) -> le_key a = le_key c -> le_key b = le_key c.
Proof.
  unfold Plt, pos_lt, epos, leaf_cmp. cbn [fst snd]. intros H1 H2 E. rewrite E in H1.
  destruct (bytes_cmp (le_key c) (le_key b)) eqn:Ec; [|..|done].
  - by apply bytes_cmp_eq in Ec.
  - rewrite bytes_cmp_antisym, Ec in H2. done.
Qed.

(** The pass over the sorted versions is that selection: the state of the loop
    says whether [pre] holds a version at or below the horizon of the key at
    hand. *)
Lemma compact_stays h : forall es pre group b,
  sorted_entries (pre ++ es) ->
  (forall e, e ∈ es -> b = true /\ group = Some (le_key e) <-> exists w, w ∈ pre /\ le_key w = le_key e /\ le_seq w <= h) ->
  compact h group b es = filter (fun v => stays h (pre ++ es) v = true) es.
Proof.
  induction es as [|e es IH]; intros pre group b Hs Hb; [done|]. cbn [compact].
  assert (Hbe := Hb e ltac:(by left)).
  assert (Hsort : forall w x, w ∈ pre -> x ∈ e :: es -> Plt (epos w) (epos x)).
  { intros w x Hw Hx. clear -Hs Hw Hx. induction pre as [|p pre IHp]; [by apply elem_of_nil in Hw|].
    cbn in Hs. apply StronglySorted_inv in Hs as [Hs1 Hs2]. apply elem_of_cons in Hw as [->|Hw]; [|by apply IHp].
    rewrite Forall_forall in Hs2. apply Hs2, elem_of_app. by right. }
  assert (Htail : forall x, x ∈ es -> Plt (epos e) (epos x)).
  { intros x Hx. clear -Hs Hx. induction pre as [|p pre IHp]; cbn in Hs; apply StronglySorted_inv in Hs as [Hs1 Hs2]; [|by apply IHp].
    rewrite Forall_forall in Hs2. by apply Hs2. }
  set (kb := b && bool_decide (group = Some (le_key e))) in *.
  assert (Hkb : kb = true <-> exists w, w ∈ pre /\ le_key w = le_key e /\ le_seq w <= h).
  { unfold kb. by rewrite <- Hbe, andb_true_iff, bool_decide_eq_true. }
  assert (Hst : stays h (pre ++ e :: es) e = (h <? le_seq e) || negb kb).
  { unfold stays. destruct (Z.ltb_spec h (le_seq e)) as [|Hle]; [done|]. cbn [orb]. f_equal.
    apply Bool.eq_iff_eq_true. rewrite existsb_exists, Hkb. split.
    - intros (w & Hw & Hc). apply list_elem_of_In in Hw. rewrite !andb_true_iff, bool_decide_eq_true, Z.ltb_lt, Z.leb_le in Hc.
      destruct Hc as [[Hk Hlt] Hwh]. exists w. split; [|done]. apply elem_of_app in Hw as [Hw|Hw]; [done|exfalso].
      apply elem_of_cons in Hw as [->|Hw]; [lia|]. pose proof (epos_same _ _ (Htail w Hw) ltac:(done)). lia.
    - intros (w & Hw & Hk & Hwh). exists w. rewrite <- list_elem_of_In, elem_of_app. split; [by left|].
      pose proof (epos_same _ _ (Hsort w e Hw ltac:(by left)) Hk).
      rewrite !andb_true_iff, bool_decide_eq_true, Z.ltb_lt, Z.leb_le. split_and!; [done|lia|done]. }
  assert (Hnext : forall b', (b' = true <-> kb = true \/ le_seq e <= h) ->
    compact h (Some (le_key e)) b' es = filter (fun v => stays h (pre ++ e :: es) v = true) es).
  { intros b' Hb'. replace (pre ++ e :: es) with ((pre ++ [e]) ++ es) by (by rewrite <- app_assoc).
    apply IH; [by rewrite <- app_assoc|]. intros x Hx. rewrite Hb', Hkb. split.
    - intros [[(w & Hw & Hk & Hwh)|Hle] [= Hkx]].
      + exists w. rewrite elem_of_app. split_and!; [by left|congruence|done].
      + exists e. rewrite elem_of_app. split_and!; [by right; left|done|done].
    - intros (w & Hw & Hk & Hwh). apply elem_of_app in Hw as [Hw|Hw].
      + assert (He : le_key e = le_key x) by (eapply epos_between; [by apply (Hsort w e); [|left]|by apply Htail|done]).
        split; [left; exists w; split_and!; [done|congruence|done]|by rewrite He].
      + apply list_elem_of_singleton in Hw as ->. split; [by right|by rewrite Hk]. }
  destruct (Z.ltb_spec h (le_seq e)) as [Hlt|Hle].
  - rewrite filter_cons_True by (by rewrite Hst). f_equal. apply Hnext. split; [by left|]. intros [?|?]; [done|lia].
  - destruct kb eqn:Ekb.
    + rewrite filter_cons_False by (by rewrite Hst). apply Hnext. split; [by left|done].
    + rewrite filter_cons_True by (by rewrite Hst). f_equal. apply Hnext. split; [by right|done].
Qed.
Lemma compact_gc_leaf gc vs : sorted_entries vs -> compact_gc gc vs = gc_leaf gc vs.
Proof.
  intros Hs. destruct gc as [h|]; [|done]. apply (compact_stays h vs [] None false Hs).
  intros e _. split; [by intros []|]. by intros (w & Hw%elem_of_nil & _).
Qed.

(** What a checkpoint does to the versions: nothing without a horizon; with one,
    only versions that no reader at or above it sees may go. *)
Record kept (gc : option Z) (vs vs' : list LeafEntry) : Prop := {
  kt_sub : vs' `sublist_of` vs;
  kt_all : gc = None -> vs' = vs;
  kt_visible : forall h key s, gc = Some h -> h <= s -> visible key s vs' = visible key s vs;
}.
Lemma kept_refl gc vs : kept gc vs vs.
Proof. by constructor. Qed.
Lemma visible_split key s l r : visible key s (l ++ r) = match visible key s l with Some e => Some e | None => visible key s r end.
Proof. unfold visible. induction l as [|e l IH]; cbn; [done|]. by destruct (matches key s e). Qed.
Lemma kept_app gc a a' b b' : kept gc a a' -> kept gc b b' -> kept gc (a ++ b) (a' ++ b').
Proof.
  intros [S1 A1 V1] [S2 A2 V2]. constructor; [by apply sublist_app|intros H; by rewrite A1, A2|].
  intros h key s Hg Hs. rewrite !visible_split. by rewrite (V1 h), (V2 h).
Qed.
Lemma kept_compact h vs : kept (Some h) vs (compact h None false vs).
Proof. constructor; [apply compact_loop_spec|done|]. intros h' key s [= <-] Hs. by apply compact_visible. Qed.

(** *** What a checkpoint leaves of each leaf

    [collected keep d ps vs vs']: along the pages [ps] of a tree, in order, the
    versions [ws] of each leaf (as many as its page has records) became
    [keep ws], or stayed [ws] on a leaf that [d] says is clean. *)
Inductive collected (keep : list LeafEntry -> list LeafEntry) (d : Z -> bool) :
    list gpage -> list LeafEntry -> list LeafEntry -> Prop :=
| col_nil : collected keep d [] [] []
| col_page x ps vs vs' : x.1.2 <> Leaf -> collected keep d ps vs vs' -> collected keep d (x :: ps) vs vs'
| col_leaf x ps ws ws' vs vs' :
    x.1.2 = Leaf -> length ws = length x.2 -> ws' = keep ws \/ (d x.1.1 = false /\ ws' = ws) ->
    collected keep d ps vs vs' -> collected keep d (x :: ps) (ws ++ vs) (ws' ++ vs').

Lemma collected_app keep d ps1 ps2 a a' b b' :
  collected keep d ps1 a a' -> collected keep d ps2 b b' -> collected keep d (ps1 ++ ps2) (a ++ b) (a' ++ b').
Proof.
  intros H1 H2. induction H1 as [|x ps vs vs' Hx _ IH|x ps ws ws' vs vs' Hx Hl Hw _ IH]; cbn [app]; [done|by constructor|].
  rewrite <- !app_assoc. by constructor.
Qed.
Lemma collected_ext keep d d' ps vs vs' :
  (forall x, x ∈ ps -> x.1.2 = Leaf -> d' x.1.1 = d x.1.1) -> collected keep d ps vs vs' -> collected keep d' ps vs vs'.
Proof.
  intros He H. induction H as [|x ps vs vs' Hx _ IH|x ps ws ws' vs vs' Hx Hl Hw _ IH]; [constructor|..];
    (constructor; [done|..]); try done.
  - apply IH. intros y Hy. apply He. by right.
  - by rewrite (He x ltac:(by left) Hx).
  - apply IH. intros y Hy. apply He. by right.
Qed.
Lemma collected_keep keep keep' d ps vs vs' :
  (forall ws, ws `sublist_of` vs -> keep' ws = keep ws) -> collected keep d ps vs vs' -> collected keep' d ps vs vs'.
Proof.
  intros Hk H. induction H as [|x ps vs vs' Hx _ IH|x ps ws ws' vs vs' Hx Hl Hw _ IH]; [constructor|constructor; auto|].
  apply col_leaf; try done.
  - rewrite Hk; [done|by apply sublist_inserts_r].
  - apply IH. intros l Hs. apply Hk. by apply sublist_inserts_l.
Qed.
Lemma collected_kept gc d ps vs vs' : collected (compact_gc gc) d ps vs vs' -> kept gc vs vs'.
Proof.
  induction 1 as [|x ps vs vs' Hx _ IH|x ps ws ws' vs vs' Hx Hl Hw _ IH]; [apply kept_refl|done|].
  apply kept_app; [|done]. destruct Hw as [->|[_ ->]]; [|apply kept_refl].
  destruct gc as [h|]; [apply kept_compact|apply kept_refl].
Qed.
Lemma sorted_sublist l k : l `sublist_of` k -> sorted_entries k -> sorted_entries l.
Proof.
  unfold sorted_entries. induction 1 as [|x l k Hs IH|x l k Hs IH]; intros Ho; [done|..]; inversion Ho as [|? ? Ho1 Ho2]; subst; [|by auto].
  constructor; [by auto|]. rewrite Forall_forall in Ho2 |- *. intros y Hy. apply Ho2. by eapply elem_of_sublist.
Qed.

Lemma compact_rep crc V n h : forall es vs, Forall2 (rep crc V n) es vs ->
  forall group b, Forall2 (rep crc V n) (compact h group b es) (compact h group b vs).
Proof.
  induction 1 as [|e v es vs Hev _ IH]; intros group b; [constructor|]. cbn [compact].
  pose proof (rep_pos _ _ _ _ _ Hev) as [= -> ->].
  destruct (h <? le_seq v); [constructor; [done|apply IH]|]. destruct (b && _); [apply IH|constructor; [done|apply IH]].
Qed.

Section persist.
Context (crc : bytes -> Z) (lsn : Z).
Context (crc_range : forall b, in_u 32 (crc b) = true) (lsn_range : in_u 64 lsn = true).

(** ** What a checkpoint writes *)
(** The clean pages: what a restart finds. *)
Definition image (c : Cache) (y : Z) : option bytes := if dirty c y then None else view crc c y.

(** Pages a checkpoint may not overwrite in the file: clean ones, and those of
    the tree, which it writes elsewhere.  The pages left are dirty overflow pages,
    which no image refers to. *)
Definition protected (c : Cache) (y : Z) : Prop :=
  dirty c y = false \/ exists p, view crc c y = Some p /\ type_of_page p <> Ok Overflow.

(** Copy on write, whatever the outcome: of the pages below [n]. *)
Record kept_pages (n : Z) (c c' : Cache) : Prop := {
  kp_disk : forall y p, y < n -> protected c y -> on_disk crc (io c) y = Some p -> on_disk crc (io c') y = Some p;
  kp_protected : forall y, y < n -> protected c y -> protected c' y;
}.
#[global] Instance kept_pages_preorder n : PreOrder (kept_pages n).
Proof. split; [by constructor|]. intros a b c [D1 P1] [D2 P2]. constructor; eauto. Qed.
Lemma kept_pages_le n m c c' : kept_pages n c c' -> m <= n -> kept_pages m c c'.
Proof. intros [D P] H. constructor; [intros y p Hy; apply D; lia|intros y Hy; apply P; lia]. Qed.

Record cow (t t' : Tree) : Prop := {
  cw_next : t_next t <= t_next t';
  cw_kept : kept_pages (t_next t) (t_cache t) (t_cache t');
}.
#[global] Instance cow_preorder : PreOrder cow.
Proof.
  split; [by constructor|]. intros a b c [N1 K1] [N2 K2]. constructor; [lia|]. etrans; [exact K1|]. by eapply kept_pages_le.
Qed.

(** A successful step on the pages [ps]: the others are as they were, those
    that were clean still are, and the pages of the tree that were dirty are. *)
Record moved (t t' : Tree) (ps : list Z) : Prop := {
  mv_pool : pool_ok crc (t_next t') (t_cache t');
  mv_root : t_root t' = t_root t;
  mv_cow : cow t t';
  mv_view : forall y p, y < t_next t -> y ∉ ps -> view crc (t_cache t) y = Some p -> view crc (t_cache t') y = Some p;
  mv_image : forall y p, y < t_next t -> y ∉ ps -> image (t_cache t) y = Some p -> image (t_cache t') y = Some p;
  mv_dirty : forall y p, y < t_next t -> y ∉ ps -> view crc (t_cache t) y = Some p -> type_of_page p <> Ok Overflow ->
    dirty (t_cache t') y = dirty (t_cache t) y;
}.
Lemma moved_trans a b c ps qs rs : moved a b ps -> moved b c qs -> (forall y, y < t_next a -> y ∈ ps \/ y ∈ qs -> y ∈ rs) -> moved a c rs.
Proof.
  intros [P1 R1 C1 V1 I1 D1] [P2 R2 C2 V2 I2 D2] Hs. pose proof (cw_next _ _ C1) as Hn.
  constructor; [done|congruence|by etrans|..]; intros y p Hy Hr Hv; assert (y ∉ ps /\ y ∉ qs) as [Hp Hq] by (split; intros ?; apply Hr, Hs; auto).
  - apply V2; [lia|done|by apply V1].
  - apply I2; [lia|done|by apply I1].
  - intros Hty. rewrite (D2 y p); [|lia|done|by apply V1|done]. by eapply D1.
Qed.
Lemma moved_step a b c : moved a b [] -> moved b c [] -> moved a c [].
Proof. intros H1 H2. eapply moved_trans; [exact H1|exact H2|]. by intros y _ []. Qed.
Lemma moved_sub a b ps qs : moved a b ps -> (forall y, y < t_next a -> y ∈ ps -> y ∈ qs) -> moved a b qs.
Proof. intros [P R C V I D] Hs. constructor; try done; intros y p Hy Hq; [apply V|apply I|apply D]; auto. Qed.
Lemma moved_nil a b ps : moved a b [] -> moved a b ps.
Proof. intros H. eapply moved_sub; [exact H|]. intros y _ Hy. by apply elem_of_nil in Hy. Qed.

Lemma on_disk_data f f' : pf_data f' = pf_data f -> forall y, on_disk crc f' y = on_disk crc f y.
Proof. intros Hd y. unfold on_disk, read_page. by rewrite Hd. Qed.
Lemma same_protected c c' y : same crc c c' -> protected c y -> protected c' y.
Proof. intros [V D _]. unfold protected. by rewrite V, D. Qed.
Lemma same_kept n c c' : same crc c c' -> kept_pages n c c'.
Proof.
  intros S. constructor; [intros y p _ _; by rewrite (on_disk_data _ _ (sm_io _ _ _ S))|intros y _; by apply same_protected].
Qed.
Lemma quiet_cow t t' : quiet crc t t' -> cow t t'.
Proof. intros [P R N S]. constructor; [lia|by apply same_kept]. Qed.
Lemma quiet_moved t t' : quiet crc t t' -> moved t t' [].
Proof.
  intros Hq. pose proof Hq as [P R N [V D I]]. constructor; [done|done|by apply quiet_cow|..]; intros y p _ _; unfold image; by rewrite ?D, ?V.
Qed.
Lemma moved_refl t : pool_ok crc (t_next t) (t_cache t) -> moved t t [].
Proof. intros Hp. by apply quiet_moved, tree_quiet_refl. Qed.
Lemma wrote_moved t t' x : wrote crc t t' x -> x.1.2 <> Overflow -> moved t t' [x.1.1].
Proof.
  intros [P R N F (q & Hq & Hi) V D] Ht. constructor; [done|done| |..].
  - constructor; [lia|]. constructor; [by intros y p _ _; rewrite (on_disk_data _ _ F)|]. intros y _ Hy. destruct (decide (y = x.1.1)) as [->|Hne].
    + right. exists q. split; [done|]. rewrite (page_is_type _ _ _ _ _ Hi). congruence.
    + unfold protected. by rewrite V, D.
  - intros y p _ Hy Hv. rewrite V; [done|]. intros ->. apply Hy. by left.
  - intros y p _ Hy. unfold image. assert (y <> x.1.1) by (intros ->; apply Hy; by left). by rewrite V, D.
  - intros y p _ Hy _ _. apply D. intros ->. apply Hy. by left.
Qed.
(** A write, or a torn one, of a page that is not protected or not below [n]. *)
Lemma intact_kept n c c' id :
  pool c' = pool c -> intact crc id (io c) (io c') -> n <= id \/ ~ protected c id -> kept_pages n c c'.
Proof.
  intros Hp Hi Hid. constructor.
  - intros y p Hy Hpr. apply Hi. intros ->. destruct Hid; [lia|done].
  - intros y Hy Hpr. unfold protected in *. assert (Hd : dirty c' y = dirty c y) by (unfold dirty, resident; by rewrite Hp).
    rewrite Hd. destruct Hpr as [|(p & Hv & Ht)]; [by left|]. destruct (dirty c y) eqn:Ed; [|by left]. right. exists p. split; [|done].
    unfold dirty in Ed. unfold view in *. assert (resident c' y = resident c y) as -> by (unfold resident; by rewrite Hp). by destruct (resident c y).
Qed.
Lemma page_at_image c x : page_at crc (image c) x -> page_at crc (view crc c) x.
Proof. intros (p & Hp & Hi). exists p. split; [|done]. unfold image in Hp. by destruct (dirty c x.1.1). Qed.

(** A page written under [new] and its frame moved there, clean. *)
Lemma publish_wp n m t old new f bs :
  pool_ok crc n (t_cache t) -> n <= t_next t < 2 ^ 51 -> resident (t_cache t) old = Some f ->
  new = old /\ dirty (t_cache t) old = true \/ n <= new -> 0 <= new < t_next t -> m <= new \/ ~ protected (t_cache t) new ->
  length bs = PS -> is_ok (page_read crc bs new) = true ->
  wp (in_cache (_ ← write_page new bs; rekey old new bs)) t
    (fun _ t' => t_next t' = t_next t /\ t_root t' = t_root t /\ pool_ok crc (t_next t') (t_cache t') /\
       kept_pages m (t_cache t) (t_cache t') /\ image (t_cache t') new = Some bs /\
       forall y p, y <> old -> y <> new -> view crc (t_cache t) y = Some p ->
         view crc (t_cache t') y = Some p /\ dirty (t_cache t') y = dirty (t_cache t) y)
    (fun _ t' => t_next t' = t_next t /\ kept_pages m (t_cache t) (t_cache t')).
Proof.
  intros Hp Hn Hr Hnew Hb Hm Hl Hok. apply wp_in_cache, st_wp_bind.
  eapply st_wp_mono; [apply (write_page_wp crc (t_cache t) new bs); [lia|exact Hl]|..].
  2:{ intros e c' (-> & Hpool & Hi). cbn. split; [done|]. by eapply intact_kept. }
  intros u c1 (Hpool & Hi & Hd). specialize (Hd Hok).
  assert (Hres : forall y, resident c1 y = resident (t_cache t) y) by (intros y; unfold resident; by rewrite Hpool).
  assert (Hp1 : pool_ok crc n c1).
  { eapply intact_pool; [exact Hp|exact Hpool|exact Hi|]. destruct Hnew as [[-> Hdir]|Hge]; [by right|left].
    destruct (resident (t_cache t) new) as [h|] eqn:E; [|done]. apply (po_bound _ _ _ Hp) in E. lia. }
  eapply st_wp_mono; [apply (rekey_wp crc n (t_next t) c1 old new f bs Hp1); [by rewrite Hres|tauto|exact Hb|lia|exact Hl|exact Hd]| |done].
  intros u2 c2 (Hp2 & Hio & Hv & Hdy). cbn. split_and!; [done|done|exact Hp2|..].
  - etrans; [by eapply intact_kept|]. constructor; [intros y p _ _; by rewrite Hio|]. intros y _ Hpr. unfold protected.
    rewrite Hdy, Hv. destruct (Z.eqb_spec y new); [by left|]. destruct (Z.eqb_spec y old); [by left|]. exact Hpr.
  - unfold image. by rewrite Hdy, Hv, Z.eqb_refl.
  - intros y p Ho Hne Hvy. rewrite Hv, Hdy. destruct (Z.eqb_spec y new); [done|]. destruct (Z.eqb_spec y old); [done|].
    split; [by eapply intact_view|]. cbn. unfold dirty. by rewrite Hres.
Qed.

(** A changed page of the tree goes to a fresh identifier. *)
Lemma persist_dirty_wp t x :
  pool_ok crc (t_next t) (t_cache t) -> page_at crc (view crc (t_cache t)) x -> 0 <= x.1.1 < t_next t -> t_next t + 1 < 2 ^ 51 ->
  x.1.2 <> Overflow ->
  wp (persist_dirty crc lsn x.1.1) t
    (fun id t' => id = t_next t /\ t_next t' = t_next t + 1 /\ page_at crc (image (t_cache t')) (id, x.1.2, x.2) /\ moved t t' [x.1.1])
    (fun _ t' => cow t t').
Proof.
  intros Hp (p & Hv & Hi) Hid Hn Hty. unfold persist_dirty. apply st_wp_bind, alloc_wp; [lia|]. set (n := t_next t) in *.
  set (t1 := t <| t_next := n + 1 |>). apply st_wp_bind.
  eapply st_wp_mono; [apply (fetch_raw_wp crc n t1 x.1.1 p Hp); [cbn; lia|exact Hv|exact Hid]|..].
  2:{ intros e t2 [-> Hq]. etrans; [|by apply quiet_cow]. constructor; [cbn; lia|reflexivity]. }
  intros [i q] t2 (Hq & Hp2 & Hqp & Hh). cbn [fst snd] in *. subst q. pose proof (qt_next _ _ _ Hq) as Hn2. cbn in Hn2.
  assert (Hk : kept_pages n (t_cache t) (t_cache t2)) by (apply same_kept; apply (qt_same _ _ _ Hq)).
  destruct (rename_page_is crc crc_range x.1.1 n x.1.2 x.2 p lsn Hi ltac:(apply in_u_spec; lia) lsn_range) as (h & q & Hrd & Hw & Hqi).
  apply st_wp_bind. eapply st_wp_lift; [exact Hrd|]. apply st_wp_bind. eapply st_wp_lift; [exact Hw|]. apply st_wp_bind.
  destruct Hh as (f & Hf & Hfid & Hfb). pose proof (frame_resident _ _ _ _ _ Hp2 Hf) as Hres. rewrite Hfid in Hres.
  eapply st_wp_mono; [apply (publish_wp n n t2 x.1.1 n f q Hp2); [lia|exact Hres|by right|lia|by left|by eapply page_is_length|by eapply page_is_read]|..].
  2:{ intros e t3 [Hn3 Hk3]. constructor; [lia|]. by etrans. }
  intros u t3 (Hn3 & Hr3 & Hp3 & Hk3 & Him & Hoth). apply st_wp_ret. split_and!; [done|lia|by exists q|].
  assert (Hvs : forall y, view crc (t_cache t2) y = view crc (t_cache t) y) by (intros y; apply (sm_view _ _ _ (qt_same _ _ _ Hq))).
  assert (Hds : forall y, dirty (t_cache t2) y = dirty (t_cache t) y) by (intros y; apply (sm_dirty _ _ _ (qt_same _ _ _ Hq))).
  constructor; [exact Hp3|by rewrite Hr3, (qt_root _ _ _ Hq)|constructor; [lia|by etrans]|..]; intros y p0 Hy Hne;
    assert (y <> x.1.1) by (intros ->; apply Hne; by left); unfold image; rewrite <- ?Hds, <- Hvs; intros Hy0.
  - apply (Hoth y p0); [done|lia|done].
  - destruct (dirty (t_cache t2) y) eqn:Ed; [done|]. destruct (Hoth y p0) as [H1 H2]; [done|lia|done|]. by rewrite H2, Ed.
  - intros _. by destruct (Hoth y p0) as [H1 H2]; [done|lia|done|].
Qed.

(** ** Overflow chains *)
(** One turn of the walk along a chain. *)
Lemma chain_moved t t' k pid v : moved t t' [] -> chain crc (image (t_cache t)) (t_next t) k pid v ->
  chain crc (image (t_cache t')) (t_next t') k pid v.
Proof.
  intros Hm. apply chain_frame; [apply (mv_cow _ _ _ Hm)|]. intros y p Hy Hp _.
  apply (mv_image _ _ _ Hm); [lia|by apply not_elem_of_nil|done].
Qed.
Lemma chain_moved_view t t' k pid v : moved t t' [] -> chain crc (view crc (t_cache t)) (t_next t) k pid v ->
  chain crc (view crc (t_cache t')) (t_next t') k pid v.
Proof.
  intros Hm. apply chain_frame; [apply (mv_cow _ _ _ Hm)|]. intros y p Hy Hp _.
  apply (mv_view _ _ _ Hm); [lia|by apply not_elem_of_nil|done].
Qed.

Lemma flush_link_wp t pid next chunk p :
  pool_ok crc (t_next t) (t_cache t) -> t_next t < 2 ^ 51 -> 0 < pid < t_next t ->
  view crc (t_cache t) pid = Some p -> over_page crc pid next chunk p ->
  wp (flush_link crc pid) t
    (fun r t' => r = next /\ moved t t' [] /\ t_next t' = t_next t /\ image (t_cache t') pid = Some p) (fun _ t' => cow t t').
Proof.
  intros Hp Hn Hid Hv Ho. unfold flush_link. apply st_wp_bind, st_wp_reads.
  destruct (contains pid (pool (t_cache t))) eqn:Ec.
  - apply st_wp_bind, wp_in_cache. eapply st_wp_mono; [apply (fetch_wp crc (t_next t) (t_cache t) pid p Hp Hv); lia|..].
    2:{ intros e c' (-> & Hp' & Hs). constructor; [done|]. by apply same_kept. }
    intros i c' (Hp' & Hs & (f & Hf & Hfid & Hfb)). set (t1 := t <| t_cache := c' |>).
    assert (Hq : quiet crc t t1) by (by constructor). apply st_wp_bind.
    eapply st_wp_ok with (s' := t1); [unfold in_cache, frame; cbn; rewrite Hf; reflexivity|]. rewrite Hfb, (op_next _ _ _ _ _ Ho).
    pose proof (frame_resident _ _ _ _ _ Hp' Hf) as Hres. rewrite Hfid in Hres.
    assert (Hdy : dirty c' pid = fr_dirty f) by (unfold dirty; by rewrite Hres).
    assert (Hvw : view crc c' pid = Some p) by (unfold view; by rewrite Hres, Hfb).
    apply st_wp_bind. destruct (fr_dirty f) eqn:Ed.
    + assert (Hnp : ~ protected c' pid).
      { intros [H|(q & Hq' & Ht)]; [congruence|]. rewrite Hvw in Hq'. simplify_eq. by rewrite (op_type _ _ _ _ _ Ho) in Ht. }
      eapply st_wp_mono; [apply (publish_wp (t_next t) (t_next t) t1 pid pid f p Hp'); [cbn; lia|exact Hres|by left|cbn; lia|by right|apply Ho|apply Ho]|..].
      2:{ intros e t2 [Hn2 Hk2]. etrans; [by apply quiet_cow|]. constructor; [cbn in *; lia|exact Hk2]. }
      intros u t2 (Hn2 & Hr2 & Hp2 & Hk2 & Him & Hoth). apply st_wp_ret. cbn in Hn2. split_and!; [done| |done|done].
      apply (moved_step t t1 t2); [by apply quiet_moved|].
      constructor; [done|done|constructor; [cbn; lia|exact Hk2]|..]; intros y p0 _ _; destruct (decide (y = pid)) as [->|Hne].
      * change (t_cache t1) with c'. rewrite Hvw. intros [= <-]. unfold image in Him. by destruct (dirty (t_cache t2) pid).
      * intros Hy. by apply Hoth.
      * change (t_cache t1) with c'. unfold image at 1. by rewrite Hdy.
      * unfold image. intros Hy. destruct (dirty (t_cache t1) y) eqn:Ey; [done|]. destruct (Hoth y p0) as [H1 H2]; [done..|]. by rewrite H2, Ey.
      * change (t_cache t1) with c'. rewrite Hvw. intros [= <-] Hty. by rewrite (op_type _ _ _ _ _ Ho) in Hty.
      * intros Hy _. by destruct (Hoth y p0) as [H1 H2]; [done..|].
    + apply st_wp_ret, st_wp_ret. split_and!; [done|by apply quiet_moved|done|]. unfold image. cbn. by rewrite Hdy.
  - assert (Hres : resident (t_cache t) pid = None).
    { unfold contains in Ec. apply bool_decide_eq_false in Ec. unfold resident. destruct (pool_map _ !! pid) eqn:E; [|done].
      exfalso. apply Ec. by eexists. }
    pose proof Hv as Hv'. unfold view in Hv'. rewrite Hres in Hv'. unfold on_disk in Hv'.
    apply st_wp_bind, st_wp_reads, st_wp_bind. destruct (read_page pid (io (t_cache t))) as [q| |] eqn:Eq; [|done..].
    destruct (page_read crc q pid) as [h| |] eqn:Eh; cbn in Hv'; [|done..]. simplify_eq.
    eapply st_wp_lift; [reflexivity|]. apply st_wp_bind. eapply st_wp_lift; [exact Eh|]. apply st_wp_ret.
    split_and!; [apply Ho|by apply moved_refl|done|]. unfold image, dirty. by rewrite Hres.
Qed.

Lemma flush_chain_wp fuel : forall k pid v t,
  pool_ok crc (t_next t) (t_cache t) -> t_next t < 2 ^ 51 ->
  chain crc (view crc (t_cache t)) (t_next t) k pid v -> (k <= fuel)%nat ->
  wp (flush_chain crc fuel pid) t
    (fun _ t' => moved t t' [] /\ t_next t' = t_next t /\ chain crc (image (t_cache t')) (t_next t') k pid v) (fun _ t' => cow t t').
Proof.
  induction fuel as [|fuel IH]; intros k pid v t Hp Hn Hc Hk.
  { inversion Hc; subst; [|lia]. cbn [flush_chain Z.eqb]. apply st_wp_ret. split_and!; [by apply moved_refl|done|constructor]. }
  inversion Hc as [|k' id next chunk rest p Hid Hv Ho Hrest]; subst; cbn [flush_chain].
  { apply st_wp_ret. split_and!; [by apply moved_refl|done|constructor]. }
  destruct (Z.eqb_spec pid 0); [lia|]. apply st_wp_bind.
  eapply st_wp_mono; [by eapply flush_link_wp| |done]. intros r t1 (-> & Hm & Hn1 & Him).
  eapply st_wp_mono; [apply (IH k' next rest t1); [apply Hm|lia|by eapply chain_moved_view|lia]|..].
  - intros u t2 (Hm2 & Hn2 & Hc2). split_and!; [by eapply moved_step|lia|].
    econstructor; [lia| |exact Ho|exact Hc2]. apply (mv_image _ _ _ Hm2); [lia|by apply not_elem_of_nil|done].
  - intros e t2 Hc2. etrans; [apply Hm|exact Hc2].
Qed.

Lemma rep_moved t t' e v : moved t t' [] -> rep crc (image (t_cache t)) (t_next t) e v -> rep crc (image (t_cache t')) (t_next t') e v.
Proof.
  intros Hm. apply rep_frame; [apply (mv_cow _ _ _ Hm)|]. intros y p Hy Hp _.
  apply (mv_image _ _ _ Hm); [lia|by apply not_elem_of_nil|done].
Qed.
Lemma rep_moved_view t t' e v : moved t t' [] -> rep crc (view crc (t_cache t)) (t_next t) e v -> rep crc (view crc (t_cache t')) (t_next t') e v.
Proof.
  intros Hm. apply rep_frame; [apply (mv_cow _ _ _ Hm)|]. intros y p Hy Hp _.
  apply (mv_view _ _ _ Hm); [lia|by apply not_elem_of_nil|done].
Qed.

Lemma flush_chains_wp : forall es vs t,
  pool_ok crc (t_next t) (t_cache t) -> t_next t < 2 ^ 51 -> Forall entry_ok es ->
  Forall2 (rep crc (view crc (t_cache t)) (t_next t)) es vs ->
  wp (flush_chains crc (map leaf_encode es)) t
    (fun _ t' => moved t t' [] /\ t_next t' = t_next t /\ Forall2 (rep crc (image (t_cache t')) (t_next t')) es vs) (fun _ t' => cow t t').
Proof.
  induction es as [|e es IH]; intros vs t Hp Hn Hok Hr; cbn [map flush_chains].
  { inversion Hr; subst. apply st_wp_ret. split_and!; [by apply moved_refl|done|constructor]. }
  inversion Hr as [|? v ? vs' Hev Hr']; subst. apply Forall_cons in Hok as [He Hok].
  apply st_wp_bind. eapply st_wp_lift; [by apply leaf_decode_encode|]. apply st_wp_bind.
  assert (Hone : wp (match is_overflow e && (zlen (le_value e) =? 12) with
      | true => flush_chain crc CHAIN_GUARD (le_decode (sub 0 8 (le_value e)))
      | false => mret tt
      end) t (fun _ t' => moved t t' [] /\ t_next t' = t_next t /\ rep crc (image (t_cache t')) (t_next t') e v) (fun _ t' => cow t t')).
  { destruct Hev as [v Hov|v first k Hov Hi Hl Hk Hc].
    - rewrite Hov. apply st_wp_ret. split_and!; [by apply moved_refl|done|by constructor].
    - rewrite overflow_flag by done. cbn [le_value]. unfold zlen at 1. rewrite length_app, !le_encode_length. cbn [andb].
      replace (_ =? 12) with true by done. rewrite (sub_app_here 0 8) by (by rewrite ?le_encode_length). apply in_u_spec in Hi as Hi'.
      rewrite le_decode_encode by lia.
      eapply st_wp_mono; [exact (flush_chain_wp CHAIN_GUARD k first (le_value v) t Hp Hn Hc Hk)| |intros x t1 Hx; exact Hx].
      intros u t1 (Hm & Hn1 & Hc1). split_and!; [exact Hm|exact Hn1|]. exact (rep_chain crc _ _ v first k Hov Hi Hl Hk Hc1). }
  eapply st_wp_mono; [exact Hone| |done]. intros u t1 (Hm & Hn1 & Hrep).
  eapply st_wp_mono; [apply (IH vs' t1); [apply Hm|lia|done|]|..].
  - eapply Forall2_impl; [exact Hr'|]. intros a b. by apply rep_moved_view.
  - intros u2 t2 (Hm2 & Hn2 & Hr2). split_and!; [by eapply moved_step|lia|].
    constructor; [by eapply rep_moved|done].
  - intros x t2 Hc. etrans; [apply Hm|exact Hc].
Qed.

Lemma sublist_map {A B} (f : A -> B) l l' : l' `sublist_of` l -> map f l' `sublist_of` map f l.
Proof. induction 1; cbn; by constructor. Qed.
(** Reclaiming: the page of a leaf without the versions that go. *)
Lemma records_size_sublist l l' : l' `sublist_of` l -> records_size l' <= records_size l.
Proof.
  induction 1 as [|x l l' _ IH|x l l' _ IH]; cbn [records_size foldr]; [done|fold (records_size l) (records_size l')..]; unfold zlen in *; lia.
Qed.
Lemma reclaim_wp gc t id es vs d n :
  pool_ok crc (t_next t) (t_cache t) -> page_at crc (view crc (t_cache t)) (id, Leaf, map leaf_encode es) -> 0 <= id < t_next t ->
  Forall entry_ok es -> Forall2 (rep crc (image (t_cache t)) (t_next t)) es vs -> 0 <= n -> n + Z.of_nat (length vs) < 2 ^ 64 ->
  wp (reclaim crc lsn id (map leaf_encode es) gc d n) t
    (fun r t' => exists es' vs', es' `sublist_of` es /\ Forall2 (rep crc (image (t_cache t')) (t_next t')) es' vs' /\ vs' = compact_gc gc vs /\
       r.2 = n + Z.of_nat (length vs) - Z.of_nat (length vs') /\ moved t t' [id] /\ t_next t' = t_next t /\
       page_at crc (view crc (t_cache t')) (id, Leaf, map leaf_encode es') /\ (r.1 = false -> t' = t /\ es' = es /\ d = false))
    (fun _ t' => cow t t').
Proof.
  intros Hp Hpg Hid Hok Hr Hn0 Hn. unfold reclaim.
  assert (Hsame : vs = compact_gc gc vs -> exists es' vs', es' `sublist_of` es /\ Forall2 (rep crc (image (t_cache t)) (t_next t)) es' vs' /\ vs' = compact_gc gc vs /\
     (d, n).2 = n + Z.of_nat (length vs) - Z.of_nat (length vs') /\ moved t t [id] /\ t_next t = t_next t /\
     page_at crc (view crc (t_cache t)) (id, Leaf, map leaf_encode es') /\ ((d, n).1 = false -> t = t /\ es' = es /\ d = false)).
  { intros Hk. exists es, vs. cbn [fst snd]. split_and!; [done|done|done|lia|by apply moved_nil, moved_refl|done|done|done]. }
  destruct gc as [h|]; [|by apply st_wp_ret, Hsame]. apply st_wp_bind. eapply st_wp_lift; [by apply compact_versions_spec|].
  set (es' := compact h None false es). pose proof (proj2 (compact_loop_spec h es None false)) as Hsub. fold es' in Hsub.
  assert (Hlen : length (compact h None false vs) = length es') by (symmetry; eapply Forall2_length, compact_rep, Hr).
  pose proof (Forall2_length _ _ _ Hr) as Hlv. pose proof (sublist_length _ _ Hsub) as Hls.
  cbn beta iota. destruct ((0 <? Z.of_nat (length es - length es')) && negb (bool_decide (map leaf_encode es' = []))) eqn:Ec.
  2:{ apply st_wp_ret, Hsame. symmetry. apply compact_length. rewrite Hlen, <- Hlv.
      apply andb_false_iff in Ec as [Ec|Ec]; [apply Z.ltb_ge in Ec; lia|].
      apply negb_false_iff, bool_decide_eq_true, map_eq_nil in Ec. by rewrite (compact_nil h es Ec), Ec. }
  apply st_wp_bind.
  eapply st_wp_mono; [apply (rewrite_page_wp crc lsn crc_range lsn_range (t_next t) t (id, Leaf, map leaf_encode es) (map leaf_encode es') Hp); [lia|exact Hpg|exact Hid]|..].
  2:{ intros e t' [_ Hq]. by apply quiet_cow. }
  cbn [fst snd]. intros b t1 (-> & _ & Hw).
  assert (Hfit : fits (map leaf_encode es') = true).
  { destruct Hpg as (p & _ & (_ & Hf & _)). cbn [fst snd] in Hf. unfold fits. apply Z.leb_le.
    assert (Hs : map leaf_encode es' `sublist_of` map leaf_encode es) by by apply sublist_map.
    apply records_size_sublist in Hs. lia. }
  rewrite Hfit in Hw |- *. pose proof (wrote_moved _ _ _ Hw ltac:(done)) as Hm. cbn [fst snd] in Hm.
  apply st_wp_bind. eapply st_wp_lift; [apply uadd_ok, in_u_spec; lia|]. apply st_wp_ret. cbn [fst snd].
  exists es', (compact h None false vs). split_and!; [done| |done|lia|done|apply Hw|apply Hw|done].
  eapply Forall2_impl; [by apply compact_rep|]. intros e v. apply rep_frame; [rewrite (wr_next _ _ _ _ Hw); lia|].
  intros y p Hy Hpy Hty. apply (mv_image _ _ _ Hm); [lia| |done]. intros Hin%list_elem_of_singleton. subst y.
  destruct Hpg as (q & Hq & Hi). cbn [fst snd] in *. pose proof (page_is_type _ _ _ _ _ Hi) as Ht2.
  unfold image in Hpy. destruct (dirty _ _); [done|]. rewrite Hq in Hpy. simplify_eq. by rewrite Hty in Ht2.
Qed.
End persist.
