(* ===== verification/BTreeCheckpoint.v ===== *)
(** * The image a checkpoint leaves

    The recursion of [persist_page_gc] over the pages of the tree.  [result] is
    what persisting a set of pages yields: clean pages with the same items, less
    reclaimed versions, and everything else as it was.  Results compose along
    the children of a page. *)

From Stdlib Require Import Sorted.
From stdpp Require Import gmap sorting.
From S2P Require Import Prelude Errors StateMonad StoreFormat Journal BufferPool SlotPage BTree BTreeShape BTreeRead BTreeInsert BTreeValue BTreeStore BTreePersist.
#[local] Open Scope Z_scope.

Section checkpoint.
Context (crc : bytes -> Z) (lsn : Z).
Context (crc_range : forall b, in_u 32 (crc b) = true) (lsn_range : in_u 64 lsn = true).

(** ** Pages to persist *)
Record ready (t : Tree) (ps : list gpage) (its : list item) (vs : list LeafEntry) : Prop := {
  rd_pool : pool_ok crc (t_next t) (t_cache t);
  rd_stored : stored crc (view crc (t_cache t)) ps;
  rd_type : Forall (fun x : gpage => x.1.2 <> Overflow) ps;
  rd_nodup : NoDup (page_ids ps);
  rd_bound : Forall (fun y => 0 < y < t_next t) (page_ids ps);
  rd_items : Forall item_ok its;
  rd_rep : Forall2 (rep crc (view crc (t_cache t)) (t_next t)) (items_entries its) vs;
  rd_room : t_next t + Z.of_nat (length ps) < 2 ^ 51;
}.
Record result (t : Tree) (ps : list gpage) (qs : list Z) (its : list item) (vs : list LeafEntry) (n : Z)
    (t' : Tree) (ps' : list gpage) (its' : list item) (vs' : list LeafEntry) (n' : Z) : Prop := {
  rs_stored : stored crc (image crc (t_cache t')) ps';
  rs_nodup : NoDup (page_ids ps');
  rs_ids : Forall (fun y => (y ∈ page_ids ps \/ t_next t <= y) /\ 0 < y < t_next t') (page_ids ps');
  rs_items : its' `sublist_of` its;
  rs_rep : Forall2 (rep crc (image crc (t_cache t')) (t_next t')) (items_entries its') vs';
  rs_count : n' = n + Z.of_nat (length vs) - Z.of_nat (length vs');
  rs_moved : moved crc t t' qs;
  rs_next : t_next t' <= t_next t + Z.of_nat (length ps);
}.

(** Chains survive steps on pages of the tree. *)
Lemma stored_not_overflow V ps y p : stored crc V ps -> Forall (fun x : gpage => x.1.2 <> Overflow) ps ->
  V y = Some p -> type_of_page p = Ok Overflow -> y ∉ page_ids ps.
Proof.
  intros Hs Ht Hy Hty (x & -> & Hx)%list_elem_of_fmap. unfold stored in Hs. rewrite Forall_forall in Hs, Ht.
  destruct (Hs x Hx) as (q & Hq & Hi). rewrite Hy in Hq. simplify_eq. pose proof (page_is_type _ _ _ _ _ Hi) as H.
  rewrite Hty in H. simplify_eq. by specialize (Ht x Hx).
Qed.
Lemma image_view c y p : image crc c y = Some p -> view crc c y = Some p.
Proof. unfold image. by destruct (dirty c y). Qed.
Lemma rep_over_view t t' ps e v : stored crc (view crc (t_cache t)) ps -> Forall (fun x : gpage => x.1.2 <> Overflow) ps ->
  moved crc t t' (page_ids ps) -> rep crc (view crc (t_cache t)) (t_next t) e v -> rep crc (view crc (t_cache t')) (t_next t') e v.
Proof.
  intros Hs Ht Hm. apply rep_frame; [apply (mv_cow _ _ _ _ Hm)|]. intros y p Hy Hp Hty. apply (mv_view _ _ _ _ Hm); [lia| |done].
  by eapply stored_not_overflow.
Qed.
Lemma rep_over_image t t' ps e v : stored crc (view crc (t_cache t)) ps -> Forall (fun x : gpage => x.1.2 <> Overflow) ps ->
  moved crc t t' (page_ids ps) -> rep crc (image crc (t_cache t)) (t_next t) e v -> rep crc (image crc (t_cache t')) (t_next t') e v.
Proof.
  intros Hs Ht Hm. apply rep_frame; [apply (mv_cow _ _ _ _ Hm)|]. intros y p Hy Hp Hty. apply (mv_image _ _ _ _ Hm); [lia| |done].
  eapply stored_not_overflow; [done|done|by apply image_view|done].
Qed.

Lemma ready_quiet t t' ps its vs : quiet crc t t' -> ready t ps its vs -> ready t' ps its vs.
Proof.
  intros Hq [P S T N B I R M]. pose proof (qt_next _ _ _ Hq) as Hn. constructor; rewrite ?Hn; try done.
  - rewrite <- Hn. apply Hq.
  - eapply stored_same; [apply Hq|done].
  - eapply Forall2_impl; [exact R|]. intros e v. rewrite <- Hn at 2. by apply rep_moved_view, quiet_moved.
Qed.

(** The pages on the right, after those on the left. *)
Lemma ready_right t t1 ps1 ps2 its1 its2 vs1 vs2 :
  ready t (ps1 ++ ps2) (its1 ++ its2) (vs1 ++ vs2) -> length (items_entries its1) = length vs1 ->
  moved crc t t1 (page_ids ps1) -> t_next t1 <= t_next t + Z.of_nat (length ps1) -> ready t1 ps2 its2 vs2.
Proof.
  intros [P S T N B I R M] Hl Hm Hn. apply stored_app in S as [S1 S2]. apply Forall_app in T as [T1 T2].
  rewrite page_ids_app in N, B. apply NoDup_app in N as (N1 & N2 & N3). apply Forall_app in B as [B1 B2]. apply Forall_app in I as [I1 I2].
  rewrite items_entries_app in R. apply Forall2_app_inv in R as [R1 R2]; [|done]. pose proof (cw_next _ _ _ (mv_cow _ _ _ _ Hm)) as Hn'.
  constructor; [apply Hm| |done|done|..|done| |rewrite length_app in M; lia].
  - unfold stored in *. rewrite Forall_forall in S2 |- *. intros x Hx. destruct (S2 x Hx) as (p & Hp & Hi). exists p. split; [|done].
    assert (Hin : x.1.1 ∈ page_ids ps2) by (apply list_elem_of_fmap; eauto). rewrite Forall_forall in B2. specialize (B2 _ Hin).
    apply (mv_view _ _ _ _ Hm); [lia| |done]. intros Hin1. by apply (N2 _ Hin1).
  - eapply Forall_impl; [exact B2|]. cbn. lia.
  - eapply Forall2_impl; [exact R2|]. intros e v. exact (rep_over_view t t1 ps1 e v S1 T1 Hm).
Qed.

(** The pages on the right are as dirty as they were. *)
Lemma moved_dirty t t1 ps1 ps2 its vs x :
  ready t (ps1 ++ ps2) its vs -> moved crc t t1 (page_ids ps1) -> x ∈ ps2 -> dirty (t_cache t1) x.1.1 = dirty (t_cache t) x.1.1.
Proof.
  intros [P S T N B I R M] Hm Hx. apply stored_app in S as [_ S]. apply Forall_app in T as [_ T].
  rewrite page_ids_app in N, B. apply NoDup_app in N as (_ & N & _). apply Forall_app in B as [_ B].
  assert (Hin : x.1.1 ∈ page_ids ps2) by (apply list_elem_of_fmap; eauto).
  unfold stored in S. rewrite Forall_forall in S, T. rewrite Forall_forall in B. destruct (S x Hx) as (p & Hp & Hi). specialize (B _ Hin).
  apply (mv_dirty _ _ _ _ Hm x.1.1 p); [lia| |done|].
  - intros Hin1. by apply (N _ Hin1).
  - rewrite (page_is_type _ _ _ _ _ Hi). intros [= H]. by apply (T x Hx).
Qed.

(** ** Results compose *)
Lemma result_app t t1 t2 ps1 ps2 its1 its2 vs1 vs2 n n1 n2 ps1' ps2' its1' its2' vs1' vs2' :
  ready t (ps1 ++ ps2) (its1 ++ its2) (vs1 ++ vs2) -> ready t1 ps2 its2 vs2 ->
  result t ps1 (page_ids ps1) its1 vs1 n t1 ps1' its1' vs1' n1 ->
  result t1 ps2 (page_ids ps2) its2 vs2 n1 t2 ps2' its2' vs2' n2 ->
  result t (ps1 ++ ps2) (page_ids (ps1 ++ ps2)) (its1 ++ its2) (vs1 ++ vs2) n t2 (ps1' ++ ps2') (its1' ++ its2') (vs1' ++ vs2') n2.
Proof.
  intros [P S T N B I R M] [P1 S1 T1 N1 B1 I1 R1 M1] [Sa Na Ia Ta Ra Ca Ma Xa] [Sb Nb Ib Tb Rb Cb Mb Xb].
  rewrite page_ids_app in N, B |- *. apply NoDup_app in N as (N0 & N2 & N3). apply Forall_app in B as [B0 B2].
  pose proof (cw_next _ _ _ (mv_cow _ _ _ _ Ma)) as Hna. pose proof (cw_next _ _ _ (mv_cow _ _ _ _ Mb)) as Hnb.
  rewrite Forall_forall in Ia, Ib, B0, B2.
  assert (Hsep : forall y, y ∈ page_ids ps1' -> y ∉ page_ids ps2).
  { intros y Hy Hy2. destruct (Ia y Hy) as [[H|H] _]; [by apply (N2 y)|]. specialize (B2 y Hy2). lia. }
  constructor; rewrite ?page_ids_app, ?items_entries_app, ?length_app.
  - apply stored_app. split; [|done]. unfold stored in *. rewrite Forall_forall in Sa |- *. intros x Hx.
    destruct (Sa x Hx) as (p & Hp & Hi). exists p. split; [|done].
    assert (Hin : x.1.1 ∈ page_ids ps1') by (apply list_elem_of_fmap; eauto). destruct (Ia _ Hin) as [_ Hlt].
    apply (mv_image _ _ _ _ Mb); [lia|by apply Hsep|done].
  - apply NoDup_app. split_and!; [done| |done]. intros y Hy Hy2. destruct (Ib y Hy2) as [[H|H] _]; [by apply (Hsep y)|].
    destruct (Ia y Hy) as [_ Hlt]. lia.
  - apply Forall_app. split; apply Forall_forall; intros y Hy.
    + destruct (Ia y Hy) as [H Hlt]. split; [rewrite elem_of_app; tauto|lia].
    + destruct (Ib y Hy) as [[H|H] Hlt]; (split; [rewrite elem_of_app|lia]); [tauto|right; lia].
  - by apply sublist_app.
  - apply Forall2_app; [|done]. eapply Forall2_impl; [exact Ra|]. intros e v. exact (rep_over_image t1 t2 ps2 e v S1 T1 Mb).
  - lia.
  - eapply moved_trans; [exact Ma|exact Mb|]. intros y _ H. by apply elem_of_app.
  - lia.
Qed.
Lemma result_sep t ps qs its vs n t' ps' its' vs' n' p :
  result t ps qs its vs n t' ps' its' vs' n' -> result t ps qs (Sep p :: its) vs n t' ps' (Sep p :: its') vs' n'.
Proof. intros []. constructor; try done. by apply sublist_skip. Qed.

(** The page itself, after what is below it. *)
Lemma result_page t t1 t2 id ty recs recs0 recs1 id' rest its vs n rest' its' vs' n' :
  ready t ((id, ty, recs) :: rest) its vs ->
  result t rest (id :: page_ids rest) its vs n t1 rest' its' vs' n' ->
  page_at crc (view crc (t_cache t1)) (id, ty, recs0) -> moved crc t1 t2 [id] -> page_at crc (image crc (t_cache t2)) (id', ty, recs1) ->
  id' = id \/ id' = t_next t1 -> id' < t_next t2 -> t_next t2 <= t_next t1 + 1 ->
  result t ((id, ty, recs) :: rest) (page_ids ((id, ty, recs) :: rest)) its vs n t2 ((id', ty, recs1) :: rest') its' vs' n'.
Proof.
  intros [P S T N B I R M] [Sa Na Ia Ta Ra Ca Ma Xa] Hpg Hm Him Hid Hlt Hn. cbn [page_ids map] in N, B. cbn [fst snd] in N, B.
  fold (page_ids rest) in N, B. apply NoDup_cons in N as [N1 N2]. apply Forall_cons in B as [B1 B2]. apply Forall_cons in T as [T1 T2].
  pose proof (cw_next _ _ _ (mv_cow _ _ _ _ Ma)) as Hna. pose proof (cw_next _ _ _ (mv_cow _ _ _ _ Hm)) as Hnb.
  rewrite Forall_forall in Ia. cbn [fst snd] in *.
  assert (Hnid : id ∉ page_ids rest') by (intros H; destruct (Ia _ H) as [[H'|H'] _]; [done|lia]).
  assert (Hnid' : id' ∉ page_ids rest') by (destruct Hid as [-> | ->]; [done|]; intros H; destruct (Ia _ H) as [_ H']; lia).
  assert (Hmap : forall r ps, page_ids ((id', ty, r) :: ps) = id' :: page_ids ps) by done.
  constructor; rewrite ?Hmap; try done.
  - constructor; [exact Him|]. unfold stored in Sa. rewrite Forall_forall in Sa |- *. intros x Hx. destruct (Sa x Hx) as (p & Hp & Hi).
    exists p. split; [|done]. assert (Hin : x.1.1 ∈ page_ids rest') by (apply list_elem_of_fmap; eauto). destruct (Ia _ Hin) as [_ Hb].
    apply (mv_image _ _ _ _ Hm); [lia| |done]. intros Hx1%list_elem_of_singleton. by rewrite Hx1 in Hin.
  - by constructor.
  - constructor.
    + split; [|destruct Hid; lia]. destruct Hid as [-> | ->]; [left; by left|right; lia].
    + apply Forall_forall. intros y Hy. destruct (Ia y Hy) as [[H|H] Hb]; (split; [|lia]); [left; by right|by right].
  - eapply Forall2_impl; [exact Ra|]. intros e v. apply (rep_over_image t1 t2 [(id, ty, recs0)]); [by constructor|by constructor|exact Hm].
  - eapply moved_trans; [exact Ma|exact Hm|]. intros y _ [H|H]; [exact H|]. apply list_elem_of_singleton in H as ->. by left.
  - cbn [length]. lia.
Qed.

(** ** One page *)
Lemma persist_read_wp t x :
  pool_ok crc (t_next t) (t_cache t) -> page_at crc (view crc (t_cache t)) x -> 0 <= x.1.1 < t_next t ->
  wp (persist_read crc x.1.1) t
    (fun r t' => quiet crc t t' /\ r = (x.1.2, dirty (t_cache t) x.1.1, x.2)) (fun _ t' => cow crc t t').
Proof.
  intros Hp (p & Hv & Hi) Hid. unfold persist_read. apply st_wp_bind, wp_in_cache.
  eapply st_wp_mono; [by apply (fetch_wp crc (t_next t) (t_cache t) x.1.1 p Hp Hv)|..].
  2:{ intros e c' (_ & Hp' & Hs). apply quiet_cow. by constructor. }
  intros i c' (Hp' & Hs & (f & Hf & Hfid & Hfb)). set (t1 := t <| t_cache := c' |>). apply st_wp_bind.
  eapply st_wp_ok with (s' := t1); [unfold in_cache, frame; cbn; rewrite Hf; reflexivity|]. rewrite Hfb.
  apply st_wp_bind. eapply st_wp_lift; [by eapply page_is_type|]. apply st_wp_bind. eapply st_wp_lift; [by eapply page_is_records|].
  apply st_wp_ret. split; [by constructor|]. rewrite <- (sm_dirty _ _ _ Hs). pose proof (frame_resident _ _ _ _ _ Hp' Hf) as Hr.
  rewrite Hfid in Hr. unfold dirty. by rewrite Hr.
Qed.

Lemma finish_wp t d x (n : Z) :
  pool_ok crc (t_next t) (t_cache t) -> page_at crc (view crc (t_cache t)) x -> 0 < x.1.1 < t_next t -> t_next t + 1 < 2 ^ 51 ->
  x.1.2 <> Overflow -> (d = false -> page_at crc (image crc (t_cache t)) x) ->
  wp (match d with false => mret (x.1.1, n) | true => id ← persist_dirty crc lsn x.1.1; mret (id, n) end) t
    (fun r t' => r.2 = n /\ page_at crc (image crc (t_cache t')) (r.1, x.1.2, x.2) /\ moved crc t t' [x.1.1] /\
       (r.1 = x.1.1 \/ r.1 = t_next t) /\ r.1 < t_next t' /\ t_next t' <= t_next t + 1)
    (fun _ t' => cow crc t t').
Proof.
  intros Hp Hv Hid Hn Hty Hd. destruct d.
  - apply st_wp_bind. eapply st_wp_mono; [apply (persist_dirty_wp crc lsn crc_range lsn_range t x); [done|done|lia|done|done]| |done].
    intros id t' (-> & Hn' & Hpg & Hm). apply st_wp_ret. cbn [fst snd]. split_and!; [done|done|done|by right|lia|lia].
  - apply st_wp_ret. cbn [fst snd]. destruct x as [[id ty] recs]. split_and!; [done|by apply Hd|by apply moved_nil, moved_refl|by left|cbn in *; lia|lia].
Qed.

Lemma overwrite_page_wp t x new :
  pool_ok crc (t_next t) (t_cache t) -> page_at crc (view crc (t_cache t)) x -> 0 <= x.1.1 < t_next t ->
  x.1.2 <> Overflow -> fits new = true ->
  wp (overwrite_page crc lsn x.1.1 new) t
    (fun _ t' => moved crc t t' [x.1.1] /\ t_next t' = t_next t /\ page_at crc (view crc (t_cache t')) (x.1.1, x.1.2, new)) (fun _ t' => cow crc t t').
Proof.
  intros Hp (p & Hv & Hi) Hid Hty Hfit. unfold overwrite_page. apply st_wp_bind, wp_in_cache.
  eapply st_wp_mono; [by apply (fetch_wp crc (t_next t) (t_cache t) x.1.1 p Hp Hv)|..].
  2:{ intros e c' (_ & Hp' & Hs). apply quiet_cow. by constructor. }
  intros i c' (Hp' & Hs & Hh). set (t1 := t <| t_cache := c' |>). assert (Hq : quiet crc t t1) by (by constructor). apply st_wp_bind.
  pose proof Hh as (f & Hf & Hfid & Hfb). eapply st_wp_ok with (s' := t1); [unfold in_cache, frame; cbn; rewrite Hf; reflexivity|]. rewrite Hfb.
  pose proof Hi as (Hl & _ & (h & Hr & Hok & Hh0) & _). apply st_wp_bind. eapply st_wp_lift; [exact Hr|].
  pose proof (write_records_is crc crc_range x.1.1 x.1.2 x.2 h p new lsn Hl Hok Hh0 lsn_range) as Hw. fold (fits new) in Hw. rewrite Hfit in Hw.
  destruct Hw as (q & Hw & Hqi). apply st_wp_bind. eapply st_wp_lift; [exact Hw|]. cbn [default].
  eapply st_wp_mono; [apply (store_tree_wp crc lsn (t_next t) t1 i x.1.1 x.1.2 x.2 new p q); [done|done|done|done|done]| |done].
  intros u t2 [_ Hwr]. pose proof (quiet_wrote _ _ _ _ _ Hq Hwr) as Hw0. split_and!; [by apply (wrote_moved crc _ _ _ Hw0)|apply Hw0|apply Hw0].
Qed.

(** ** The recursion *)
(** [m] persists the subtree [g]. *)
Definition persists (gc : option Z) (m : Z -> Z -> stM Tree (Z * Z)) (g : gtree) : Prop :=
  forall t vs n, ready t (gpages g) (inorder g) vs -> 0 <= n -> n + Z.of_nat (length vs) < 2 ^ 64 ->
  wp (m (gid g) n) t
    (fun r t' => exists g' vs', gid g' = r.1 /\ levels g' = levels g /\ leaves g' = leaves g /\
       result t (gpages g) (gids g) (inorder g) vs n t' (gpages g') (inorder g') vs' r.2 /\
       collected (compact_gc gc) (dirty (t_cache t)) (gpages g) vs vs')
    (fun _ t' => cow crc t t').

(** A leaf: its chains, then its versions, then the page. *)
Lemma leaf_body_wp gc t id es vs n :
  ready t (gpages (GLeaf id es)) (inorder (GLeaf id es)) vs -> 0 <= n -> n + Z.of_nat (length vs) < 2 ^ 64 ->
  let d := dirty (t_cache t) id in
  wp ('(d', n') ← (_ ← flush_chains crc (map leaf_encode es); reclaim crc lsn id (map leaf_encode es) gc d n);
      match d' with false => mret (id, n') | true => new_id ← persist_dirty crc lsn id; mret (new_id, n') end) t
    (fun r t' => exists es' vs',
       result t (gpages (GLeaf id es)) (gids (GLeaf id es)) (inorder (GLeaf id es)) vs n t'
         (gpages (GLeaf r.1 es')) (inorder (GLeaf r.1 es')) vs' r.2 /\
       collected (compact_gc gc) (dirty (t_cache t)) (gpages (GLeaf id es)) vs vs')
    (fun _ t' => cow crc t t').
Proof.
  intros Hrd Hn0 Hn d. pose proof Hrd as [P S T N B I R M]. cbn [gpages inorder] in *. rewrite items_entries_map in R.
  apply Forall_cons in B as [B _]. apply Forall_cons in S as [S _]. apply (Forall_fmap Ent) in I. cbn in B, M.
  apply st_wp_bind, st_wp_bind.
  eapply st_wp_mono; [apply (flush_chains_wp crc es vs t P); [lia|exact I|exact R]| |done]. intros u t1 (Hm1 & Hn1 & Hr1).
  assert (Hpg1 : page_at crc (view crc (t_cache t1)) (id, Leaf, map leaf_encode es)).
  { destruct S as (p & Hp & Hi). exists p. split; [|done]. apply (mv_view _ _ _ _ Hm1); [cbn; lia|by apply not_elem_of_nil|done]. }
  eapply st_wp_mono; [apply (reclaim_wp crc lsn crc_range lsn_range gc t1 id es vs d n (mv_pool _ _ _ _ Hm1) Hpg1); [lia|exact I|exact Hr1|done|done]|..].
  2:{ intros e t2 Hc. etrans; [apply Hm1|exact Hc]. }
  intros [d' n'] t2 (es' & vs' & Hsub & Hr2 & Hk & Hcount & Hm2 & Hn2 & Hpg2 & Hclean). cbn [fst snd] in *.
  eapply st_wp_mono; [apply (finish_wp t2 d' (id, Leaf, map leaf_encode es') n' (mv_pool _ _ _ _ Hm2) Hpg2); cbn [fst snd]; [lia|lia|done|]|..].
  - intros ->. destruct (Hclean eq_refl) as (-> & -> & Hd). destruct S as (p & Hp & Hi). exists p. split; [|done].
    apply (mv_image _ _ _ _ Hm1); [cbn; lia|by apply not_elem_of_nil|]. unfold image. cbn [fst]. fold d. by rewrite Hd.
  - cbn [fst snd]. intros r t3 (Hr & Hpg3 & Hm3 & Hid & Hlt & Hn3). exists es', vs'.
    split; [|rewrite <- (app_nil_r vs), <- (app_nil_r vs'); apply col_leaf;
      [done|cbn [snd]; by rewrite length_map, <- (Forall2_length _ _ _ R)|by left|constructor]].
    eapply (result_page t t2 t3 id Leaf (map leaf_encode es) (map leaf_encode es') (map leaf_encode es') r.1 [] (map Ent es) vs n [] (map Ent es') vs');
      [exact Hrd| |exact Hpg2|exact Hm3|exact Hpg3|exact Hid|exact Hlt|exact Hn3].
    constructor; [constructor|constructor|constructor|by apply sublist_map|by rewrite items_entries_map|lia| |cbn; lia].
    eapply moved_trans; [exact Hm1|exact Hm2|]. intros y _ [Hy|Hy]; [by apply elem_of_nil in Hy|exact Hy].
  - cbn [fst snd]. intros e t3 Hc. etrans; [apply Hm1|]. etrans; [apply Hm2|exact Hc].
Qed.

(** *** The children of a page *)
Definition kid_records (cs : list (Pos_ * gtree)) : list bytes := map kid_record (kid_ids cs).
Definition same_kid (k k' : Pos_ * gtree) : Prop := k'.1 = k.1 /\ levels k'.2 = levels k.2 /\ leaves k'.2 = leaves k.2.

Lemma kid_decode t k cs vs : ready t (kids_pages (k :: cs)) (kids_order (k :: cs)) vs ->
  internal_decode (kid_record (k.1, gid k.2)) = Ok (MkInternal k.1.1 k.1.2 (gid k.2)).
Proof.
  intros [P S T N B I R M]. cbn [kids_pages flat_map kids_order] in *. apply Forall_cons in I as [[I1 I2] _].
  assert (Hb : 0 < gid k.2 < t_next t).
  { rewrite Forall_forall in B. apply B. rewrite page_ids_app, elem_of_app. left. destruct k.2; left. }
  apply internal_decode_encode. split_and!; cbn [ie_key ie_seq ie_child]; [unfold MAX_KEY_LEN in I1; lia|done|apply in_u_spec; lia].
Qed.

Lemma persist_children_wp gc m : forall cs, Forall (fun k => persists gc m k.2) cs ->
  forall t vs n, ready t (kids_pages cs) (kids_order cs) vs -> 0 <= n -> n + Z.of_nat (length vs) < 2 ^ 64 ->
  wp (persist_children m (kid_records cs) n) t
    (fun r t' => exists cs' vs', r.1.1 = kid_records cs' /\ (r.1.2 = false -> kid_ids cs' = kid_ids cs) /\ Forall2 same_kid cs cs' /\
       result t (kids_pages cs) (page_ids (kids_pages cs)) (kids_order cs) vs n t' (kids_pages cs') (kids_order cs') vs' r.2 /\
       collected (compact_gc gc) (dirty (t_cache t)) (kids_pages cs) vs vs')
    (fun _ t' => cow crc t t').
Proof.
  induction 1 as [|k cs Hk _ IH]; intros t vs n Hrd Hn0 Hn; cbn [kid_records kid_ids map persist_children].
  { apply st_wp_ret. exists [], vs. cbn [fst snd]. pose proof Hrd as [P S T N B I R M]. inversion R; subst.
    split_and!; [done|done|constructor| |constructor].
    constructor; [apply Forall_nil_2|apply NoDup_nil_2|apply Forall_nil_2|done|constructor|cbn; lia|by apply moved_refl|cbn; lia]. }
  pose proof Hrd as [P S T N B I R M]. cbn [kids_order flat_map] in R. cbn [items_entries omap list_omap ent] in R.
  change (omap ent (inorder k.2 ++ kids_order cs)) with (items_entries (inorder k.2 ++ kids_order cs)) in R.
  rewrite items_entries_app in R. apply Forall2_app_inv_l in R as (vs1 & vs2 & R1 & R2 & ->). rewrite length_app in Hn.
  apply st_wp_bind. eapply st_wp_lift; [by eapply (kid_decode t k cs)|]. cbn [ie_child ie_key ie_seq]. apply st_wp_bind.
  change (ready t (gpages k.2 ++ kids_pages cs) ((Sep k.1 :: inorder k.2) ++ kids_order cs) (vs1 ++ vs2)) in Hrd.
  assert (Hrd1 : ready t (gpages k.2) (inorder k.2) vs1).
  { cbn [kids_pages flat_map] in *. apply stored_app in S as [S _]. apply Forall_app in T as [T _].
    rewrite page_ids_app in N, B. apply NoDup_app in N as [N _]. apply Forall_app in B as [B _].
    apply Forall_cons in I as [_ I]. apply Forall_app in I as [I _]. rewrite length_app in M. constructor; try done. lia. }
  eapply st_wp_mono; [apply (Hk t vs1 n Hrd1 Hn0); lia| |done].
  intros [c1 n1] t1 (g' & vs1' & Hg & Hlv & Hls & Hres1 & Hcol1). cbn [fst snd] in *. subst c1.
  pose proof (ready_right t t1 _ _ _ _ _ _ Hrd (Forall2_length _ _ _ R1) (rs_moved _ _ _ _ _ _ _ _ _ _ _ Hres1) (rs_next _ _ _ _ _ _ _ _ _ _ _ Hres1)) as Hrd2.
  pose proof (sublist_length _ _ (kt_sub _ _ _ (collected_kept _ _ _ _ _ Hcol1))) as Hl1.
  pose proof (rs_count _ _ _ _ _ _ _ _ _ _ _ Hres1) as Hc1. apply st_wp_bind.
  eapply st_wp_mono; [apply (IH t1 vs2 n1 Hrd2); lia|..].
  2:{ intros e t2 Hc. etrans; [apply Hres1|exact Hc]. }
  intros [[rs ch] n2] t2 (cs' & vs2' & Hrs & Hch & Hsk & Hres2 & Hcol2). cbn [fst snd] in *. subst rs. apply st_wp_ret.
  exists ((k.1, g') :: cs'), (vs1' ++ vs2').
  assert (Hres : result t (kids_pages (k :: cs)) (page_ids (kids_pages (k :: cs))) (kids_order (k :: cs)) (vs1 ++ vs2) n t2
    (kids_pages ((k.1, g') :: cs')) (kids_order ((k.1, g') :: cs')) (vs1' ++ vs2') n2).
  { apply (result_app t t1 t2 (gpages k.2) (kids_pages cs) (Sep k.1 :: inorder k.2) (kids_order cs) vs1 vs2 n n1 n2
      (gpages g') (kids_pages cs') (Sep k.1 :: inorder g') (kids_order cs') vs1' vs2' Hrd Hrd2); [by apply result_sep|exact Hres2]. }
  assert (Hcol : collected (compact_gc gc) (dirty (t_cache t)) (kids_pages (k :: cs)) (vs1 ++ vs2) (vs1' ++ vs2')).
  { apply (collected_app _ _ (gpages k.2) (kids_pages cs)); [exact Hcol1|].
    eapply collected_ext; [|exact Hcol2]. intros x Hx _. symmetry.
    exact (moved_dirty t t1 (gpages k.2) (kids_pages cs) _ _ x Hrd (rs_moved _ _ _ _ _ _ _ _ _ _ _ Hres1) Hx). }
  destruct (Z.eqb_spec (gid g') (gid k.2)) as [Heq|Hne]; cbn [fst snd]; (split_and!; [|..|by constructor|exact Hres|exact Hcol]).
  - unfold kid_records, kid_ids. cbn. by rewrite Heq.
  - intros Hf. cbn. rewrite Heq. f_equal. by apply Hch.
  - done.
  - done.
Qed.

(** *** A page of the tree *)
Definition first_pos : Pos_ := ([], 2 ^ 64 - 1).
Definition node_kids (g0 : gtree) (ks : list (Pos_ * gtree)) : list (Pos_ * gtree) := (first_pos, g0) :: ks.

Lemma ready_kids t id g0 ks vs : ready t (gpages (GNode id g0 ks)) (inorder (GNode id g0 ks)) vs ->
  ready t (kids_pages (node_kids g0 ks)) (kids_order (node_kids g0 ks)) vs.
Proof.
  intros [P S T N B I R M]. cbn [gpages inorder length] in *. apply Forall_cons in S as [_ S]. apply Forall_cons in T as [_ T].
  apply NoDup_cons in N as [_ N]. apply Forall_cons in B as [_ B]. constructor; try done; [by constructor|].
  cbn [kids_pages node_kids flat_map snd]. lia.
Qed.
Lemma same_kid_records cs cs' : Forall2 same_kid cs cs' -> records_size (kid_records cs') = records_size (kid_records cs).
Proof.
  induction 1 as [|k k' cs cs' (Hk & _) _ IH]; [done|]. unfold kid_records, kid_ids in *. cbn [map records_size foldr].
  unfold records_size in IH. rewrite IH. unfold kid_record. by rewrite !internal_encode_length, Hk.
Qed.
Lemma same_kid_shape id id' g0 ks g0' ks' : Forall2 same_kid (node_kids g0 ks) (node_kids g0' ks') ->
  levels (GNode id' g0' ks') = levels (GNode id g0 ks) /\ leaves (GNode id' g0' ks') = leaves (GNode id g0 ks).
Proof.
  intros H. inversion H as [|? ? ? ? (_ & H1 & H2) HF]; subst. cbn [fst snd levels leaves] in *.
  clear H. induction HF as [|k k' ks ks' (_ & K1 & K2) _ IH]; cbn [foldr]; [by rewrite H1, H2|].
  destruct IH as [IH1 IH2]. injection IH1 as IH1. by rewrite K1, K2, IH1, IH2.
Qed.

Lemma node_body_wp gc m t id g0 ks vs n :
  Forall (fun k => persists gc m k.2) (node_kids g0 ks) ->
  ready t (gpages (GNode id g0 ks)) (inorder (GNode id g0 ks)) vs -> 0 <= n -> n + Z.of_nat (length vs) < 2 ^ 64 ->
  let d := dirty (t_cache t) id in
  wp ('(d', n') ← ('(rs, changed, n') ← persist_children m (node_records (gid g0) (kid_ids ks)) n;
        match changed with true => _ ← overwrite_page crc lsn id rs; mret (true, n') | false => mret (d, n') end);
      match d' with false => mret (id, n') | true => new_id ← persist_dirty crc lsn id; mret (new_id, n') end) t
    (fun r t' => exists g' vs', gid g' = r.1 /\ levels g' = levels (GNode id g0 ks) /\ leaves g' = leaves (GNode id g0 ks) /\
       result t (gpages (GNode id g0 ks)) (gids (GNode id g0 ks)) (inorder (GNode id g0 ks)) vs n t' (gpages g') (inorder g') vs' r.2 /\
       collected (compact_gc gc) (dirty (t_cache t)) (gpages (GNode id g0 ks)) vs vs')
    (fun _ t' => cow crc t t').
Proof.
  intros Hm Hrd Hn0 Hn d. pose proof (ready_kids _ _ _ _ _ Hrd) as Hrk. pose proof Hrd as [P S T N B I R M].
  cbn [gpages] in S, N, B, M. apply Forall_cons in S as [S _]. apply Forall_cons in B as [B _]. apply NoDup_cons in N as [Nid _].
  cbn [fst snd length] in *. apply st_wp_bind, st_wp_bind. change (node_records (gid g0) (kid_ids ks)) with (kid_records (node_kids g0 ks)) in *.
  eapply st_wp_mono; [apply (persist_children_wp gc m _ Hm t vs n Hrk Hn0 Hn)| |done].
  intros [[rs ch] n1] t1 (cs' & vs' & Hrs & Hch & Hsk & Hres & Hcol). cbn [fst snd] in *. subst rs.
  inversion Hsk as [|? k0 ? ks' (Hk0 & _) HF Ecs Ecs']; subst. destruct k0 as [p0 g0']. cbn [fst] in Hk0. subst p0. fold (node_kids g0' ks') in *.
  destruct (same_kid_shape id id g0 ks g0' ks' Hsk) as [Hlv Hls]. pose proof Hres as [Sr Nr Ir Tr Rr Cr Mr Xr].
  pose proof (cw_next _ _ _ (mv_cow _ _ _ _ Mr)) as Hnx.
  assert (Hlen : Z.of_nat (length (kids_pages (node_kids g0 ks))) = Z.of_nat (length (gpages g0 ++ flat_map (fun k => gpages k.2) ks))) by done.
  set (old := kid_records (node_kids g0 ks)) in *. set (new := kid_records (node_kids g0' ks')).
  assert (Hpg1 : page_at crc (view crc (t_cache t1)) (id, Internal, old)).
  { destruct S as (p & Hp & Hi). exists p. split; [|done]. apply (mv_view _ _ _ _ Mr); [cbn; lia|exact Nid|done]. }
  assert (Hfit : fits new = true).
  { destruct S as (p & _ & (_ & Hf & _)). cbn [fst snd] in Hf. unfold fits, new. rewrite (same_kid_records _ _ Hsk). by apply Z.leb_le. }
  assert (Hover : wp (match ch with true => _ ← overwrite_page crc lsn id new; mret (true, n1) | false => mret (d, n1) end) t1
    (fun r t2 => r.2 = n1 /\ moved crc t1 t2 [id] /\ t_next t2 = t_next t1 /\ page_at crc (view crc (t_cache t2)) (id, Internal, new) /\
       (r.1 = false -> page_at crc (image crc (t_cache t2)) (id, Internal, new))) (fun _ t2 => cow crc t1 t2)).
  { destruct ch.
    - apply st_wp_bind. eapply st_wp_mono; [apply (overwrite_page_wp t1 (id, Internal, old) new (mv_pool _ _ _ _ Mr) Hpg1); cbn; [lia|done|exact Hfit]| |done].
      intros u t2 (H1 & H2 & H3). apply st_wp_ret. cbn [fst snd] in *. by split_and!.
    - apply st_wp_ret. cbn [fst snd]. assert (Enew : new = old) by (unfold new, old, kid_records; by rewrite Hch). rewrite Enew.
      split_and!; [done|by apply moved_nil, moved_refl, Mr|done|exact Hpg1|]. intros Hd. destruct S as (p & Hp & Hi). exists p. split; [|done].
      apply (mv_image _ _ _ _ Mr); [cbn; lia|exact Nid|]. unfold image. cbn [fst]. fold d. by rewrite Hd. }
  eapply st_wp_mono; [exact Hover|..].
  2:{ intros e t2 Hc. etrans; [apply Mr|exact Hc]. }
  intros [d' n2] t2 (Hn2 & Hm2 & Hx2 & Hpg2 & Hcl). cbn [fst snd] in *. subst n2.
  eapply st_wp_mono; [apply (finish_wp t2 d' (id, Internal, new) n1 (mv_pool _ _ _ _ Hm2) Hpg2); cbn [fst snd]; [lia|lia|done|exact Hcl]|..].
  2:{ intros e t3 Hc. etrans; [apply Mr|]. etrans; [apply Hm2|exact Hc]. }
  cbn [fst snd]. intros r t3 (Hr & Hpg3 & Hm3 & Hid & Hlt & Hn3). exists (GNode r.1 g0' ks'), vs'.
  split_and!; [done|by destruct (same_kid_shape id r.1 g0 ks g0' ks' Hsk)|by destruct (same_kid_shape id r.1 g0 ks g0' ks' Hsk)| |by apply col_page].
  apply (result_page t t1 t3 id Internal old old new r.1 (gpages g0 ++ kids_pages ks) (inorder (GNode id g0 ks)) vs n
    (gpages g0' ++ kids_pages ks') (inorder (GNode r.1 g0' ks')) vs' r.2);
    [exact Hrd| |exact Hpg1| |exact Hpg3|by rewrite <- Hx2|exact Hlt|by rewrite <- Hx2].
  - rewrite Hr. constructor; try done; [by apply (sublist_app_inv_l [Sep first_pos])|].
    eapply moved_sub; [exact Mr|]. intros y _ Hy. by right.
  - eapply moved_trans; [exact Hm2|exact Hm3|]. by intros y _ [].
Qed.

Lemma no_dirty c y : dirty_count (pool c) = 0%nat -> dirty c y = false.
Proof.
  intros H. unfold dirty, resident. destruct (pool_map (pool c) !! y) as [i|]; cbn; [|done].
  destruct (frames (pool c) !! i) as [f|] eqn:E; [|done]. destruct (fr_dirty f) eqn:Ed; [|done].
  exfalso. unfold dirty_count in H. apply nil_length_inv in H.
  assert (Hin : f ∈ filter (fun f => fr_dirty f = true) (frames (pool c))).
  { apply list_elem_of_filter. split; [done|by eapply list_elem_of_lookup_2]. }
  rewrite H in Hin. by apply elem_of_nil in Hin.
Qed.
(** Nothing is dirty: the pages are their own image. *)
Lemma clean_result t g vs n : ready t (gpages g) (inorder g) vs -> (forall y, dirty (t_cache t) y = false) ->
  result t (gpages g) (gids g) (inorder g) vs n t (gpages g) (inorder g) vs n.
Proof.
  intros [P S T N B I R M] Hd. assert (Hiv : forall y, image crc (t_cache t) y = view crc (t_cache t) y) by (intros y; unfold image; by rewrite Hd).
  constructor; try done.
  - eapply stored_view; [|exact S]. intros y _. apply Hiv.
  - apply Forall_forall. intros y Hy. rewrite Forall_forall in B. split; [by left|by apply B].
  - eapply Forall2_impl; [exact R|]. intros e v. apply rep_frame; [done|]. intros y p _ Hp _. by rewrite Hiv.
  - lia.
  - lia.
Qed.

Lemma collected_clean keep d g : forall vs, length (items_entries (inorder g)) = length vs -> (forall y, d y = false) ->
  collected keep d (gpages g) vs vs.
Proof.
  induction g as [id es|id g0 ks IH0 IHk] using gtree_ind'; intros vs Hl Hd; cbn [gpages inorder] in *.
  - rewrite items_entries_map in Hl. rewrite <- (app_nil_r vs). apply col_leaf; [done|cbn [snd]; by rewrite length_map|by right|constructor].
  - apply col_page; [done|]. rewrite items_entries_app, length_app in Hl. rewrite <- (take_drop (length (items_entries (inorder g0))) vs).
    apply collected_app; [apply IH0; [rewrite length_take; lia|done]|].
    set (ws := drop _ vs). assert (Hw : length (items_entries (kids_order ks)) = length ws)
      by (unfold ws; rewrite length_drop; unfold kids_order; lia).
    clearbody ws. clear IH0 Hl vs. revert ws Hw. induction IHk as [|k ks IH1 _ IH]; intros ws Hw; cbn in *.
    + destruct ws; [constructor|done].
    + change (omap ent (inorder k.2 ++ flat_map (fun k => Sep k.1 :: inorder k.2) ks)) with (items_entries (inorder k.2 ++ kids_order ks)) in Hw.
      rewrite items_entries_app, length_app in Hw. rewrite <- (take_drop (length (items_entries (inorder k.2))) ws).
      apply collected_app; [apply IH1; [rewrite length_take; lia|done]|]. apply IH. rewrite length_drop. unfold kids_order in *. lia.
Qed.

Lemma persist_page_wp gc fuel : forall g, (levels g <= fuel)%nat -> persists gc (persist_page_gc crc lsn fuel gc) g.
Proof.
  induction fuel as [|fuel IH]; intros g Hl t vs n Hrd Hn0 Hn; [destruct g; cbn in Hl; lia|]. cbn [persist_page_gc].
  apply st_wp_bind, st_wp_reads, st_wp_bind, st_wp_reads. destruct (negb _ && _) eqn:Ec.
  { apply andb_true_iff in Ec as [_ Ec]. apply Nat.eqb_eq in Ec. apply st_wp_ret. exists g, vs. cbn [fst snd]. split_and!; try done.
    - apply clean_result; [done|]. intros y. by apply no_dirty.
    - apply collected_clean; [exact (Forall2_length _ _ _ (rd_rep _ _ _ _ Hrd))|]. intros y. by apply no_dirty. }
  clear Ec. set (x := match g with GLeaf id es => (id, Leaf, map leaf_encode es) | GNode id g0 ks => (id, Internal, node_records (gid g0) (kid_ids ks)) end).
  assert (Hx : page_at crc (view crc (t_cache t)) x /\ 0 < x.1.1 < t_next t /\ gid g = x.1.1).
  { destruct Hrd as [_ S _ _ B _ _ _]. destruct g; apply Forall_cons in S as [S _]; apply Forall_cons in B as [B _]; exact (conj S (conj B eq_refl)). }
  destruct Hx as (Hpg & Hb & Hgx). rewrite Hgx. apply st_wp_bind.
  assert (Hpre : wp (match contains x.1.1 (pool (t_cache t)) with true => mret tt | false => _ ← in_cache (fetch crc x.1.1); mret tt end) t
    (fun _ t1 => quiet crc t t1) (fun _ t1 => cow crc t t1)).
  { destruct (contains _ _); [apply st_wp_ret, tree_quiet_refl, Hrd|]. destruct Hpg as (p & Hp & _). apply st_wp_bind, wp_in_cache.
    eapply st_wp_mono; [apply (fetch_wp crc (t_next t) (t_cache t) x.1.1 p (rd_pool _ _ _ _ Hrd) Hp); lia|..].
    - intros i c' (Hp' & Hs & _). apply st_wp_ret. by constructor.
    - intros e c' (_ & Hp' & Hs). apply quiet_cow. by constructor. }
  eapply st_wp_mono; [exact Hpre| |done]. intros u t1 Hq1. pose proof (ready_quiet _ _ _ _ _ Hq1 Hrd) as Hrd1.
  assert (Hpg1 : page_at crc (view crc (t_cache t1)) x).
  { destruct Hpg as (p & Hp & Hi). exists p. by rewrite (sm_view _ _ _ (qt_same _ _ _ Hq1)). }
  apply st_wp_bind. eapply st_wp_mono; [apply (persist_read_wp t1 x (rd_pool _ _ _ _ Hrd1) Hpg1); rewrite (qt_next _ _ _ Hq1); lia|..].
  2:{ intros e t2 Hc. etrans; [exact (quiet_cow crc t t1 Hq1)|exact Hc]. }
  intros [[ty d] recs] t2 [Hq2 [= -> -> ->]]. pose proof (ready_quiet _ _ _ _ _ Hq2 Hrd1) as Hrd2.
  rewrite <- (sm_dirty _ _ _ (qt_same _ _ _ Hq2)).
  pose proof (tree_quiet_trans _ _ _ _ Hq1 Hq2) as Hq. clear Hpre.
  assert (Hback : forall r t3 g', gid g' = r.1 /\ levels g' = levels g /\ leaves g' = leaves g /\ (exists vs',
      result t2 (gpages g) (gids g) (inorder g) vs n t3 (gpages g') (inorder g') vs' r.2 /\
      collected (compact_gc gc) (dirty (t_cache t2)) (gpages g) vs vs') ->
    exists g' vs', gid g' = r.1 /\ levels g' = levels g /\ leaves g' = leaves g /\
      result t (gpages g) (gids g) (inorder g) vs n t3 (gpages g') (inorder g') vs' r.2 /\
      collected (compact_gc gc) (dirty (t_cache t)) (gpages g) vs vs').
  { intros r t3 g' (H1 & H2 & H3 & vs' & [Sr Nr Ir Tr Rr Cr Mr Xr] & Hcol). exists g', vs'. split_and!; try done.
    2:{ eapply collected_ext; [|exact Hcol]. intros x0 _ _. symmetry. apply (sm_dirty _ _ _ (qt_same _ _ _ Hq)). }
    pose proof (qt_next _ _ _ Hq) as Hn2. constructor; try done; [by rewrite <- Hn2| |by rewrite <- Hn2].
    eapply moved_trans; [apply quiet_moved, Hq|exact Mr|]. intros y _ [Hy|Hy]; [by apply elem_of_nil in Hy|exact Hy]. }
  destruct g as [id es|id g0 ks]; cbn [fst snd] in *; subst x; cbn [fst snd].
  - eapply st_wp_mono; [apply (leaf_body_wp gc t2 id es vs n Hrd2 Hn0 Hn)|..].
    + intros r t3 (es' & vs' & Hres & Hcol). apply (Hback r t3 (GLeaf r.1 es')). split_and!; try done. by exists vs'.
    + intros e t3 Hc. etrans; [exact (quiet_cow crc t t2 Hq)|exact Hc].
  - eapply st_wp_mono; [apply (node_body_wp gc (persist_page_gc crc lsn fuel gc) t2 id g0 ks vs n); [|exact Hrd2|exact Hn0|exact Hn]|..].
    + cbn [levels] in Hl. assert (Hk : forall ks n, (foldr (fun (k : Pos_ * gtree) n => Nat.max (levels k.2) n) n ks <= fuel)%nat ->
        (n <= fuel)%nat /\ Forall (fun k => (levels k.2 <= fuel)%nat) ks).
      { clear. induction ks as [|k ks IHk]; intros n Hf; cbn in Hf; [by split; [|constructor]|]. destruct (IHk n) as [H1 H2]; [lia|].
        split; [done|]. constructor; [lia|done]. }
      destruct (Hk ks (levels g0)) as [H1 H2]; [lia|]. constructor; [by apply IH|]. eapply Forall_impl; [exact H2|]. intros k. apply IH.
    + intros r t3 (g' & vs' & H1 & H2 & H3 & Hres & Hcol). apply (Hback r t3 g'). split_and!; try done. by exists vs'.
    + intros e t3 Hc. etrans; [exact (quiet_cow crc t t2 Hq)|exact Hc].
Qed.

(** ** The tree after a checkpoint *)
Lemma ordered_sublist l l' : l' `sublist_of` l -> ordered l -> ordered l'.
Proof.
  induction 1 as [|x l l' Hs IH|x l l' Hs IH]; intros Ho; [done|..]; apply ordered_cons in Ho as [Ho Hx]; [|by auto].
  apply ordered_cons. split; [by auto|]. intros y Hy. apply Hx. by eapply elem_of_sublist.
Qed.
Lemma Forall_sublist {A} (P : A -> Prop) l l' : l' `sublist_of` l -> Forall P l -> Forall P l'.
Proof. rewrite !Forall_forall. intros Hs Hp x Hx. apply Hp. by eapply elem_of_sublist. Qed.

(** A restart: the file, an empty pool. *)
Definition reopen (cap root next : Z) (f : PageFile) : Tree := tree_open root next (MkCache (pool_new cap) f).
Lemma reopen_view cap root next f y : view crc (t_cache (reopen cap root next f)) y = on_disk crc f y.
Proof. done. Qed.
Lemma reopen_pool cap root next f : pool_ok crc next (t_cache (reopen cap root next f)).
Proof.
  constructor; cbn; try done; [|by left|lia]. intros id i. rewrite lookup_empty. split; [done|]. by intros (x & Hx & _).
Qed.

(** A tree whose pages a file holds can be opened from it. *)
Lemma reopen_ok cap t g vs f :
  tree_ok crc t g -> stored crc (on_disk crc f) (gpages g) -> Forall2 (rep crc (on_disk crc f) (t_next t)) (entries g) vs ->
  store_ok crc (reopen cap (gid g) (t_next t) f) g vs.
Proof.
  intros [P R S N B X O I] Hs Hr. split; [|exact Hr]. constructor; try done. apply reopen_pool.
Qed.

(** *** Sizes

    A tree has fewer pages than identifiers were handed out, no more levels than
    pages, and at most 2048 entries on a page. *)
Lemma levels_pages g : (levels g <= length (gpages g))%nat.
Proof.
  induction g as [id es|id g0 ks IH0 IHk] using gtree_ind'; cbn; [done|]. rewrite length_app. apply le_n_S.
  induction IHk as [|k ks IH1 _ IH]; cbn; [lia|]. rewrite length_app. lia.
Qed.
Lemma pages_bound t g : tree_ok crc t g -> Z.of_nat (length (gpages g)) < t_next t.
Proof.
  intros [P R S N B X O I]. assert (Hsub : gids g ⊆ map Z.of_nat (seq 1 (Z.to_nat (t_next t - 1)))).
  { intros y Hy. rewrite Forall_forall in B. specialize (B y Hy). apply list_elem_of_fmap. exists (Z.to_nat y). split; [lia|].
    apply elem_of_seq. lia. }
  pose proof (submseteq_length _ _ (NoDup_submseteq _ _ N Hsub)) as Hl. unfold gids, page_ids in Hl.
  rewrite !length_map, length_seq in Hl. lia.
Qed.
Lemma entries_bound t g : tree_ok crc t g -> Z.of_nat (length (entries g)) <= 2048 * Z.of_nat (length (gpages g)).
Proof.
  intros [_ _ S _ _ _ _ _]. revert S. generalize (view crc (t_cache t)). intros V. unfold entries.
  induction g as [id es|id g0 ks IH0 IHk] using gtree_ind'; cbn [gpages inorder]; intros S; apply Forall_cons in S as [Hp S].
  - destruct Hp as (p & _ & _ & Hsz & _). cbn [fst snd] in Hsz. rewrite items_entries_map. cbn [length].
    assert (4 * Z.of_nat (length es) <= records_size (map leaf_encode es)); [|unfold PAGE_SIZE, PAGE_HEADER_LEN in *; lia].
    clear. induction es as [|e es IH]; cbn [map records_size foldr length]; [lia|]. fold (records_size (map leaf_encode es)). unfold zlen. lia.
  - apply Forall_app in S as [S0 Sk]. specialize (IH0 S0). rewrite items_entries_app, length_app. cbn [length]. rewrite length_app.
    assert (Z.of_nat (length (items_entries (flat_map (fun k => Sep k.1 :: inorder k.2) ks))) <= 2048 * Z.of_nat (length (flat_map (fun k => gpages k.2) ks))); [|lia].
    clear S0 IH0 Hp. induction IHk as [|k ks IH1 _ IH]; cbn in *; [lia|]. apply Forall_app in Sk as [S1 S2]. specialize (IH1 S1). specialize (IH S2).
    rewrite items_entries_app, !length_app. lia.
Qed.

Lemma persist_with_gc_wp gc t g vs :
  store_ok crc t g vs -> 2 * t_next t < 2 ^ 51 ->
  wp (persist_with_gc crc lsn gc) t
    (fun r t' => exists g' vs', r = (gid g', Z.of_nat (length vs) - Z.of_nat (length vs')) /\ kept gc vs vs' /\
       collected (gc_leaf gc) (dirty (t_cache t)) (gpages g) vs vs' /\
       levels g' = levels g /\ leaves g' = leaves g /\ store_ok crc t' g' vs' /\
       (forall cap, store_ok crc (reopen cap (gid g') (t_next t') (io (t_cache t'))) g' vs') /\ cow crc t t' /\
       t_next t <= t_next t' <= 2 * t_next t)
    (fun _ t' => cow crc t t').
Proof.
  intros [Ht Hr] Hroom. unfold persist_with_gc. apply st_wp_bind, st_wp_reads, st_wp_bind, st_wp_reads. pose proof Ht as [P R S N B X O I].
  pose proof (pages_bound t g Ht) as Hpb. pose proof (levels_pages g) as Hlp. pose proof (entries_bound t g Ht) as Heb.
  rewrite (Forall2_length _ _ _ Hr) in Heb.
  assert (Hrd : ready t (gpages g) (inorder g) vs) by (constructor; try done; [apply gpages_type|lia]). rewrite R.
  apply st_wp_bind. eapply st_wp_mono; [apply (persist_page_wp gc (Z.to_nat (t_next t)) g ltac:(lia) t vs 0 Hrd); [done|lia]| |done].
  intros [root n] t1 (g' & vs' & Hg & Hlv & Hls & [Sr Nr Ir Tr Rr Cr Mr Xr] & Hcol). cbn [fst snd] in *. subst root.
  apply st_wp_bind, st_wp_update, st_wp_ret. set (t2 := t1 <| t_root := gid g' |>).
  assert (Hn2 : t_next t2 = t_next t1) by done. assert (Hc2 : t_cache t2 = t_cache t1) by done.
  pose proof (cw_next _ _ _ (mv_cow _ _ _ _ Mr)) as Hnx.
  assert (Ht2 : tree_ok crc t2 g').
  { constructor; rewrite ?Hn2, ?Hc2; [apply Mr|done| |exact Nr| |lia|by eapply ordered_sublist|by eapply Forall_sublist].
    - unfold stored in *. rewrite Forall_forall in Sr |- *. intros x Hx. apply (page_at_image crc). by apply Sr.
    - eapply Forall_impl; [exact Ir|]. by intros y [_ Hy]. }
  assert (Hdisk : forall y p, image crc (t_cache t1) y = Some p -> on_disk crc (io (t_cache t1)) y = Some p).
  { intros y p Hy. unfold image in Hy. destruct (dirty _ _) eqn:Ed; [done|]. by eapply clean_on_disk; [apply Mr|..]. }
  exists g', vs'. split_and!; [by rewrite Cr|by eapply collected_kept| |done|done| | | | |].
  { eapply collected_keep; [|exact Hcol]. intros ws Hws. symmetry. apply compact_gc_leaf.
    eapply sorted_sublist; [exact Hws|]. by eapply (store_sorted crc t g). }
  - split; [done|]. rewrite Hn2, Hc2. eapply Forall2_impl; [exact Rr|]. intros e v. apply rep_frame; [done|]. intros y p _ Hy _. by apply image_view.
  - intros cap. apply reopen_ok; [done|..]; rewrite ?Hn2, ?Hc2.
    + unfold stored in *. eapply Forall_impl; [exact Sr|]. intros x (p & Hp & Hi). exists p. split; [by apply Hdisk|done].
    + eapply Forall2_impl; [exact Rr|]. intros e v. apply rep_frame; [done|]. intros y p _ Hy _. by apply Hdisk.
  - destruct (mv_cow _ _ _ _ Mr) as [C1 C2]. by constructor.
  - rewrite Hn2. lia.
  - rewrite Hn2. lia.
Qed.
End checkpoint.

(** C12. A checkpoint writes the whole tree, and collects exactly what it says.
    When [persist_with_gc] succeeds, the file opened again at the new root, with
    an empty pool of any capacity, holds the versions the tree in memory holds:
    all of them without a horizon.  With a horizon, every leaf that was dirty
    when the checkpoint began keeps, of its versions, exactly those above the
    horizon and of every key the newest one at or below it (a tombstone counts
    as a version); a clean leaf keeps exactly those or, if the walk stopped
    above it, all of its versions.  The versions that went are counted, and
    every reader at or above the horizon sees what it saw.  No page is left out
    because a clean parent was evicted above it, and no chain because its leaf
    was clean. *)
Theorem checkpoint_image crc lsn gc t g vs :
  (forall b, in_u 32 (crc b) = true) -> in_u 64 lsn = true ->
  store_ok crc t g vs -> 2 * t_next t < 2 ^ 51 ->
  match persist_with_gc crc lsn gc t with
  | (Ok (root, reclaimed), t') => exists g' vs',
      collected (gc_leaf gc) (dirty (t_cache t)) (gpages g) vs vs' /\ kept gc vs vs' /\
      reclaimed = Z.of_nat (length vs) - Z.of_nat (length vs') /\ store_ok crc t' g' vs' /\
      forall cap, store_ok crc (reopen cap root (t_next t') (io (t_cache t'))) g' vs'
  | (Err _, _) => True
  | (Panic, _) => False
  end.
Proof.
  intros Hc Hl Hs Hd. pose proof (persist_with_gc_wp crc lsn Hc Hl gc t g vs Hs Hd) as H. unfold wp in H.
  destruct (persist_with_gc _ _ _ _) as [[[root n]| |] t']; [|done|done].
  destruct H as (g' & vs' & [= -> ->] & Hk & Hcol & _ & _ & H1 & H2 & _). by exists g', vs'.
Qed.

(** C13. A checkpoint leaves the previous image alone, on success and on every
    failure, torn page writes included: a tree that could be opened from the file
    before, at its own root, can be opened from it after, with the same versions.
    The pages the file holds are assumed clean or pages of the tree in memory,
    which is what earlier checkpoints leave: overflow pages are never changed once
    written. *)
Theorem checkpoint_keeps_previous crc lsn gc t g vs cap root0 next0 g0 vs0 :
  (forall b, in_u 32 (crc b) = true) -> in_u 64 lsn = true ->
  store_ok crc t g vs -> 2 * t_next t < 2 ^ 51 ->
  store_ok crc (reopen cap root0 next0 (io (t_cache t))) g0 vs0 -> next0 <= t_next t ->
  (forall y, 0 < y < next0 -> is_Some (on_disk crc (io (t_cache t)) y) -> protected crc (t_cache t) y) ->
  store_ok crc (reopen cap root0 next0 (io (t_cache (persist_with_gc crc lsn gc t).2))) g0 vs0.
Proof.
  intros Hc Hl Hs Hd [Ht0 Hr0] Hnx Hprot.
  assert (Hcow : cow crc t (persist_with_gc crc lsn gc t).2).
  { pose proof (persist_with_gc_wp crc lsn Hc Hl gc t g vs Hs Hd) as H. unfold wp in H.
    destruct (persist_with_gc _ _ _ _) as [[r|e|] t']; [|exact H|done]. by destruct H as (g' & vs' & _ & _ & _ & _ & _ & _ & _ & H & _). }
  destruct Hcow as [_ [Hdisk _]].
  assert (Hkeep : forall y p, 0 < y < next0 -> on_disk crc (io (t_cache t)) y = Some p ->
    on_disk crc (io (t_cache (persist_with_gc crc lsn gc t).2)) y = Some p).
  { intros y p Hy Hp. apply Hdisk; [lia| |done]. apply Hprot; [done|by eexists]. }
  pose proof (tk_root _ _ _ Ht0) as Hroot. cbn in Hroot. rewrite Hroot. apply (reopen_ok crc cap (reopen cap root0 next0 (io (t_cache t)))); [done|..].
  - pose proof (tk_stored _ _ _ Ht0) as S0. pose proof (proj1 (Forall_forall _ _) (tk_bound _ _ _ Ht0)) as B0.
    unfold stored in *. rewrite Forall_forall in S0 |- *. intros x Hx. destruct (S0 x Hx) as (p & Hp & Hi). exists p. split; [|done]. apply Hkeep; [|done]. apply (B0 x.1.1), list_elem_of_fmap. eauto.
  - eapply Forall2_impl; [exact Hr0|]. intros e v. apply rep_frame; [done|]. intros y p Hy Hp _. by apply Hkeep.
Qed.

(** ** Witnesses *)
Definition saved_tree : Tree := (persist_with_gc crc0 7 None new_tree).2.
Lemma saved_tree_ok : exists id, store_ok crc0 saved_tree (GLeaf id []) [] /\ store_ok crc0 (reopen 8 2 3 (io (t_cache saved_tree))) (GLeaf id []) [] /\
  t_next saved_tree = 3.
Proof.
  destruct new_tree_ok as [Hs Hn].
  pose proof (persist_with_gc_wp crc0 7 (fun _ => eq_refl) eq_refl None new_tree (GLeaf 1 []) [] Hs
    ltac:(rewrite Hn; vm_compute; reflexivity)) as H.
  assert (Hr : (persist_with_gc crc0 7 None new_tree).1 = Ok (2, 0)) by (vm_compute; reflexivity).
  assert (Hx : t_next saved_tree = 3) by (vm_compute; reflexivity). unfold saved_tree in *. unfold wp in H.
  destruct (persist_with_gc _ _ _ _) as [r t']. cbn [fst snd] in *. subst r.
  destruct H as (g' & vs' & Hg & [_ Hk _] & _ & Hlv & _ & H1 & H2 & _). rewrite (Hk eq_refl) in *. injection Hg as Hid. specialize (H2 8).
  rewrite <- Hid, Hx in H2.
  destruct g' as [id es|id g0 ks].
  - destruct H1 as [T1 R1]. pose proof (Forall2_length _ _ _ R1) as Hlen. unfold entries in Hlen. cbn in Hlen. rewrite items_entries_map in Hlen.
    destruct es; [|done]. exists id. split_and!; [by split|exact H2|done].
  - exfalso. cbn in Hlv. assert (Hf : forall l n, (n <= foldr (fun (k : Pos_ * gtree) n => Nat.max (levels k.2) n) n l)%nat).
    { induction l as [|k l IH]; intros n; cbn; [done|]. specialize (IH n). lia. }
    specialize (Hf ks (levels g0)). assert (1 <= levels g0)%nat by (destruct g0; cbn; lia). lia.
Qed.

(** One key with versions 1 and 2, collected at horizon 3: version 1 goes. *)
Definition put_hi (seq : Z) : stM Tree bool := insert_version crc0 7 [104; 105] seq (zeros 32) 0 [] [1; 2; 3].
Definition hi (seq : Z) : LeafEntry := MkLeafEntry [104; 105] seq (zeros 32) 0 [] [1; 2; 3].
Lemma put_hi_ok t g vs seq :
  store_ok crc0 t g vs -> t_next t + INSERT_PAGES < 2 ^ 51 - 1 -> in_u 64 seq = true ->
  (put_hi seq t).1 = Ok true -> exists g' vs', add_version (hi seq) vs = Some vs' /\ store_ok crc0 (put_hi seq t).2 g' vs'.
Proof.
  intros Hs Hn Hq Hr. unfold put_hi in *.
  pose proof (insert_version_wp crc0 7 (fun _ => eq_refl) eq_refl t g vs (hi seq) Hs Hn Hq eq_refl eq_refl
    ltac:(vm_compute; discriminate)) as H.
  unfold wp in H. cbn [le_key le_seq le_txn_id le_flags le_meta le_value hi] in H.
  destruct (insert_version _ _ _ _ _ _ _ _ _) as [r t']. cbn [fst snd] in *. subst r.
  destruct H as (_ & _ & H). destruct (add_version (hi seq) vs) as [vs'|]; [|by destruct H].
  destruct H as (_ & g' & Hs' & _). by exists g', vs'.
Qed.
Definition hi_tree : Tree := (put_hi 2 (put_hi 1 new_tree).2).2.
Lemma hi_tree_ok : exists g, store_ok crc0 hi_tree g [hi 2; hi 1] /\ t_next hi_tree = 2.
Proof.
  destruct new_tree_ok as [Hs Hn].
  destruct (put_hi_ok new_tree _ _ 1 Hs ltac:(rewrite Hn; vm_compute; reflexivity) eq_refl ltac:(vm_compute; reflexivity))
    as (g1 & vs1 & Hv1 & Hs1).
  assert (Hn1 : t_next (put_hi 1 new_tree).2 = 2) by (vm_compute; reflexivity).
  destruct (put_hi_ok _ _ _ 2 Hs1 ltac:(rewrite Hn1; vm_compute; reflexivity) eq_refl ltac:(vm_compute; reflexivity))
    as (g2 & vs2 & Hv2 & Hs2).
  exists g2. vm_compute in Hv1. injection Hv1 as <-. vm_compute in Hv2. injection Hv2 as <-.
  split; [exact Hs2|vm_compute; reflexivity].
Qed.

Lemma checkpoint_image_witness :
  exists g t' g' vs', store_ok crc0 hi_tree g [hi 2; hi 1] /\
    persist_with_gc crc0 7 (Some 3) hi_tree = (Ok (2, 1), t') /\
    collected (gc_leaf (Some 3)) (dirty (t_cache hi_tree)) (gpages g) [hi 2; hi 1] vs' /\ length vs' = 1%nat /\
    store_ok crc0 (reopen 8 2 (t_next t') (io (t_cache t'))) g' vs'.
Proof.
  destruct hi_tree_ok as (g & Hs & Hn).
  pose proof (checkpoint_image crc0 7 (Some 3) hi_tree g _ (fun _ => eq_refl) eq_refl Hs
    ltac:(rewrite Hn; vm_compute; reflexivity)) as H.
  assert (Hr : (persist_with_gc crc0 7 (Some 3) hi_tree).1 = Ok (2, 1)) by (vm_compute; reflexivity).
  destruct (persist_with_gc _ _ _ _) as [r t']. cbn [fst] in Hr. subst r.
  destruct H as (g' & vs' & Hc & _ & Hl & _ & H). exists g, t', g', vs'.
  split; [exact Hs|]. split; [reflexivity|]. split; [exact Hc|]. split; [cbn [length] in Hl; lia|exact (H 8)].
Defined.

Lemma checkpoint_keeps_previous_witness :
  exists id, store_ok crc0 (reopen 8 2 3 (io (t_cache (persist_with_gc crc0 7 None saved_tree).2))) (GLeaf id []) [].
Proof.
  destruct saved_tree_ok as (id & Hs & Ho & Hn). exists id.
  apply (checkpoint_keeps_previous crc0 7 None saved_tree (GLeaf id []) [] 8 2 3 (GLeaf id []) []).
  - intros b. reflexivity.
  - reflexivity.
  - exact Hs.
  - rewrite Hn. vm_compute. reflexivity.
  - exact Ho.
  - rewrite Hn. lia.
  - intros y Hy _. left. assert (Hy2 : y = 1 \/ y = 2) by lia. destruct Hy2 as [-> | ->]; vm_compute; reflexivity.
Defined.
