(* ===== verification/BTreeScan.v ===== *)
(** * Scanning the tree

    [scan_visible] walks the leaves from a cursor that moves past every entry it
    has seen, descending again from the root after each leaf.  [scan_versions] is
    what it returns: in key order, the newest visible version of each key of the
    range. *)

From Stdlib Require Import Sorted.
From stdpp Require Import gmap sorting.
From S2P Require Import Prelude Errors StateMonad StoreFormat Journal BufferPool SlotPage BTree BTreeShape BTreeRead BTreeInsert BTreeValue BTreeStore.
#[local] Open Scope Z_scope.

(** [Store::scan] in kernel.rs on the open tree: twice the limit is asked of the
    tree, then tombstones are left out. *)
Fixpoint scan_values (crc : bytes -> Z) (es : list LeafEntry) (limit : Z) (out : list (bytes * bytes)) : stM Tree (list (bytes * bytes)) :=
  match es with
  | [] => mret out
  | e :: es' =>
      match is_tombstone e with
      | true => scan_values crc es' limit out
      | false =>
          v ← read_value crc e;
          let out := out ++ [(le_key e, v)] in
          match limit <=? Z.of_nat (length out) with
          | true => mret out
          | false => scan_values crc es' limit out
          end
      end
  end.
Definition store_scan (crc : bytes -> Z) (start : bytes) (stop : option bytes) (visible_seq limit : Z) : stM Tree (list (bytes * bytes)) :=
  es ← scan_visible crc start stop visible_seq (Z.max (Z.min (limit * 2) (2 ^ 64 - 1)) limit);
  scan_values crc es limit [].

(** ** Specification *)
Definition ends_before (stop : option bytes) (v : LeafEntry) : bool :=
  match stop with Some b => negb (bytes_leb b (le_key v)) | None => true end.
Definition in_range (start : bytes) (stop : option bytes) (v : LeafEntry) : bool := bytes_leb start (le_key v) && ends_before stop v.
Definition newest (s : Z) (vs : list LeafEntry) (v : LeafEntry) : bool := bool_decide (epos <$> visible (le_key v) s vs = Some (epos v)).
Definition scan_versions (start : bytes) (stop : option bytes) (s limit : Z) (vs : list LeafEntry) : list LeafEntry :=
  take (Z.to_nat (Z.max limit 1)) (List.filter (fun v => newest s vs v && in_range start stop v) vs).

(** ** The loop over entries *)
Fixpoint scan_entries (es : list LeafEntry) (stop : option bytes) (s limit : Z) (st : Scan) : Scan * bool :=
  match es with
  | [] => (st, false)
  | e :: es' =>
      if ends_before stop e then
        let '(st', over) := scan_visit e s limit st in
        if over then (st', true) else scan_entries es' stop s limit st'
      else (st, true)
  end.
(** The versions a walk emits after it emitted one for [cur]. *)
Fixpoint emitted (cur : option bytes) (s : Z) (es : list LeafEntry) : list LeafEntry :=
  match es with
  | [] => []
  | e :: es' =>
      if bool_decide (cur = Some (le_key e)) then emitted cur s es'
      else if le_seq e <=? s then e :: emitted (Some (le_key e)) s es' else emitted cur s es'
  end.

Lemma scan_entries_app l r stop s limit st :
  scan_entries (l ++ r) stop s limit st =
    let '(st', over) := scan_entries l stop s limit st in if over then (st', true) else scan_entries r stop s limit st'.
Proof.
  revert st. induction l as [|e l IH]; intros st; cbn [app scan_entries]; [done|]. destruct (ends_before stop e); [|done].
  destruct (scan_visit e s limit st) as [st' over]. destruct over; [done|]. apply IH.
Qed.

(** The part of the entries before the end of the range. *)
Fixpoint up_to (stop : option bytes) (es : list LeafEntry) : list LeafEntry :=
  match es with [] => [] | e :: es' => if ends_before stop e then e :: up_to stop es' else [] end.

Lemma scan_entries_out stop s limit es : forall st, (Z.of_nat (length (sc_out st)) < Z.max limit 1) ->
  sc_out (scan_entries es stop s limit st).1 =
    take (Z.to_nat (Z.max limit 1)) (sc_out st ++ emitted (sc_current st) s (up_to stop es)).
Proof.
  induction es as [|e es IH]; intros st Hl; cbn [scan_entries up_to].
  { cbn. by rewrite app_nil_r, take_ge by lia. }
  destruct (ends_before stop e); cbn [emitted fst]; [|cbn; by rewrite app_nil_r, take_ge by lia].
  unfold scan_visit. destruct (if le_seq e =? 0 then _ else _) as [ck cs]. case_bool_decide as Hc; [by rewrite IH|].
  destruct (le_seq e <=? s); [|by rewrite IH].
  destruct (Z.leb_spec limit (Z.of_nat (length (sc_out st ++ [e])))) as [Hge|Hlt]; cbn [sc_out fst].
  - rewrite length_app in Hge. cbn in Hge. set (X := emitted _ _ _).
    assert (sc_out st ++ e :: X = (sc_out st ++ [e]) ++ X) as -> by by rewrite <- app_assoc.
    rewrite take_app_le by (rewrite length_app; cbn; lia). rewrite take_ge; [done|]. rewrite length_app. cbn. lia.
  - rewrite IH by (cbn [sc_out]; lia). cbn [sc_out sc_current]. by rewrite <- app_assoc.
Qed.

(** *** The walk emits the newest versions *)
Lemma visible_key key s l v : visible key s l = Some v -> le_key v = key /\ v ∈ l.
Proof.
  unfold visible. intros [Hin Hm]%find_some. unfold matches in Hm. apply andb_true_iff in Hm as [Hk _]. apply bool_decide_eq_true in Hk.
  split; [done|by apply list_elem_of_In].
Qed.
Lemma visible_cons_ne key s e l : le_key e <> key \/ s < le_seq e -> visible key s (e :: l) = visible key s l.
Proof.
  intros H. unfold visible. cbn. assert (matches key s e = false) as ->; [|done]. unfold matches. apply andb_false_iff.
  destruct H as [H|H]; [left; by apply bool_decide_eq_false|right; lia].
Qed.
Lemma filter_ext_in_Z (f g : LeafEntry -> bool) l : (forall x, x ∈ l -> f x = g x) -> List.filter f l = List.filter g l.
Proof. intros H. apply filter_ext_in. intros x Hx. apply H. by apply list_elem_of_In. Qed.

Definition fresh (cur : option bytes) (s : Z) (l : list LeafEntry) (v : LeafEntry) : bool :=
  negb (bool_decide (cur = Some (le_key v))) && newest s l v.
Lemma emitted_spec s l : sorted_entries l -> forall cur, (forall k v, cur = Some k -> v ∈ l -> bytes_cmp (le_key v) k <> Lt) ->
  emitted cur s l = List.filter (fresh cur s l) l.
Proof.
  induction l as [|e l IH]; intros Hs cur Hcur; [done|]. inversion Hs as [|? ? Hs' HF]; subst. rewrite Forall_forall in HF.
  assert (Hge : forall v, v ∈ l -> bytes_cmp (le_key v) (le_key e) <> Lt).
  { intros v Hv Hlt. specialize (HF v Hv). unfold Plt, pos_lt, leaf_cmp in HF. cbn in HF. rewrite bytes_cmp_antisym, Hlt in HF. done. }
  cbn [emitted List.filter]. unfold fresh at 1, newest at 1. case_bool_decide as Hc.
  - cbn [negb andb]. rewrite IH by (try done; intros k v H1 H2; apply (Hcur k v H1); by right).
    apply filter_ext_in_Z. intros v Hv. unfold fresh, newest. destruct (decide (cur = Some (le_key v))) as [Hcv|Hcv].
    + by rewrite bool_decide_eq_true_2.
    + rewrite bool_decide_eq_false_2 by done. cbn [negb andb]. rewrite visible_cons_ne; [done|]. left. congruence.
  - cbn [negb andb]. destruct (Z.leb_spec (le_seq e) s) as [Hle|Hgt].
    + assert (Hve : visible (le_key e) s (e :: l) = Some e).
      { unfold visible. cbn. unfold matches. rewrite bool_decide_eq_true_2 by done. cbn. by rewrite (proj2 (Z.leb_le _ _)). }
      rewrite bool_decide_eq_true_2 by by rewrite Hve. f_equal. rewrite IH by (try done; intros k v [= <-] Hv; by apply Hge).
      apply filter_ext_in_Z. intros v Hv. unfold fresh, newest. destruct (decide (le_key v = le_key e)) as [Hk|Hk].
      * rewrite bool_decide_eq_true_2 by congruence. rewrite (bool_decide_eq_false_2 (epos <$> visible _ _ (e :: l) = _)); [by rewrite andb_false_r|].
        rewrite Hk, Hve. intros [= Hpk Hps]. specialize (HF v Hv). unfold epos in HF. rewrite Hpk, Hps in HF. by apply Plt_irrefl in HF.
      * rewrite bool_decide_eq_false_2 by congruence. rewrite visible_cons_ne by (left; congruence).
        assert (bool_decide (cur = Some (le_key v)) = false) as ->; [|done]. apply bool_decide_eq_false. intros ->.
        pose proof (Hcur (le_key v) e eq_refl ltac:(by left)) as H1. pose proof (Hge v Hv) as H2.
        rewrite bytes_cmp_antisym in H2. destruct (bytes_cmp (le_key e) (le_key v)) eqn:E; [|done|done].
        apply bytes_cmp_eq in E. congruence.
    + rewrite bool_decide_eq_false_2. 2:{ rewrite visible_cons_ne by (by right). intros (v & Hv & Hpv)%fmap_Some.
        apply visible_key in Hv as [_ Hin]. specialize (HF v Hin). rewrite Hpv in HF. by apply Plt_irrefl in HF. }
      rewrite IH by (try done; intros k v H1 H2; apply (Hcur k v H1); by right).
      apply filter_ext_in_Z. intros v Hv. unfold fresh, newest. by rewrite (visible_cons_ne _ s e l) by (by right).
Qed.

(** ** The cursor *)
Definition cursor (st : Scan) : Pos_ := (sc_cursor_key st, sc_cursor_seq st).
Definition pending (st : Scan) (e : LeafEntry) : bool := negb (pos_lt (epos e) (cursor st)).
Definition next_pos (e : LeafEntry) : Pos_ := (le_key e, le_seq e - 1).

Lemma next_pos_spec e e' : pos_lt (epos e') (next_pos e) = negb (pos_lt (epos e) (epos e')).
Proof.
  unfold pos_lt, leaf_cmp, next_pos, epos. cbn [fst snd]. rewrite (bytes_cmp_antisym (le_key e) (le_key e')).
  destruct (bytes_cmp (le_key e) (le_key e')); cbn; try done.
  destruct (Z.compare_spec (le_seq e - 1) (le_seq e')), (Z.compare_spec (le_seq e') (le_seq e)); cbn; try done; lia.
Qed.
Lemma visit_cursor e s limit st : 0 < le_seq e ->
  cursor (scan_visit e s limit st).1 = next_pos e /\ sc_advanced (scan_visit e s limit st).1 = true.
Proof.
  intros He. unfold scan_visit. destruct (Z.eqb_spec (le_seq e) 0); [lia|]. unfold saturating_sub. rewrite Z.max_r by lia.
  case_bool_decide; [done|]. by destruct (le_seq e <=? s).
Qed.
Lemma scan_entries_unadvanced l stop s limit st :
  sc_out (scan_entries l stop s limit (unadvanced st)).1 = sc_out (scan_entries l stop s limit st).1.
Proof. destruct l as [|e l]; [done|]. cbn [scan_entries]. by destruct (ends_before stop e). Qed.

Abbreviation positive_seqs := (Forall (fun e : LeafEntry => 0 < le_seq e)).
(** Where a walk over some entries leaves the cursor. *)
Lemma scan_entries_cursor stop s limit : forall l st st', positive_seqs l -> scan_entries l stop s limit st = (st', false) ->
  l = [] /\ st' = st \/ exists l0 e, l = l0 ++ [e] /\ cursor st' = next_pos e /\ sc_advanced st' = true.
Proof.
  induction l as [|e l IH]; intros st st' Hp; cbn [scan_entries]; [intros [= <-]; by left|]. apply Forall_cons in Hp as [He Hp].
  destruct (ends_before stop e); [|done]. pose proof (visit_cursor e s limit st He) as [Hc Ha].
  destruct (scan_visit e s limit st) as [st1 over]. destruct over; [done|]. intros H. right.
  destruct (IH st1 st' Hp H) as [[-> ->]|(l0 & e1 & -> & H1)]; [by exists [], e|by exists (e :: l0), e1].
Qed.

Lemma entries_filter_all (f : LeafEntry -> bool) l : (forall x, x ∈ l -> f x = true) -> List.filter f l = l.
Proof.
  induction l as [|x l IH]; intros H; cbn; [done|]. rewrite H by by left. by rewrite IH by (intros y Hy; apply H; by right).
Qed.
Lemma entries_filter_none (f : LeafEntry -> bool) l : (forall x, x ∈ l -> f x = false) -> List.filter f l = [].
Proof.
  induction l as [|x l IH]; intros H; cbn; [done|]. rewrite H by by left. by rewrite IH by (intros y Hy; apply H; by right).
Qed.
Lemma pending_tail st e l : sorted_entries (e :: l) -> pending st e = true -> forall x, x ∈ l -> pending st x = true.
Proof.
  intros Hs He x Hx. inversion Hs as [|? ? _ HF]; subst. rewrite Forall_forall in HF. specialize (HF x Hx).
  unfold pending in *. apply negb_true_iff in He. apply negb_true_iff. destruct (pos_lt (epos x) (cursor st)) eqn:E; [|done].
  pose proof (Plt_trans _ _ _ HF E) as H. unfold Plt in H. congruence.
Qed.
Lemma pending_after st e l : cursor st = next_pos e -> sorted_entries (e :: l) -> forall x, x ∈ l -> pending st x = true.
Proof.
  intros Hc Hs x Hx. inversion Hs as [|? ? _ HF]; subst. rewrite Forall_forall in HF. specialize (HF x Hx).
  unfold pending. rewrite Hc, next_pos_spec. unfold Plt in HF. by rewrite HF.
Qed.

(** *** One leaf *)
Lemma scan_leaf_spec p stop s limit : forall es k st, decodes p k es -> sorted_entries es -> positive_seqs es ->
  scan_leaf p (map Z.of_nat (seq k (length es))) stop s limit st =
    Ok (scan_entries (List.filter (pending st) es) stop s limit st).
Proof.
  induction es as [|e es IH]; intros k st Hd Hs Hp; cbn [length seq map scan_leaf List.filter]; [done|].
  apply decodes_cons in Hd as (Hr & Hdec & Hd). rewrite Hr. cbn [mbind outcome_bind]. rewrite Hdec. cbn [mbind outcome_bind].
  pose proof (Forall_inv Hp) as He. pose proof (Forall_inv_tail Hp) as Hp'. inversion Hs as [|? ? Hs' _]; subst.
  destruct (pending st e) eqn:Ep.
  - assert (Hcmp : leaf_cmp (le_key e) (le_seq e) (sc_cursor_key st) (sc_cursor_seq st) <> Lt).
    { intros Hl. unfold pending, pos_lt, epos, cursor in Ep. cbn in Ep. by rewrite Hl in Ep. }
    rewrite (entries_filter_all (pending st)) by by apply (pending_tail st e). cbn [scan_entries].
    assert (Hgo : (if match stop with Some b => bytes_leb b (le_key e) | None => false end then Ok (st, true)
       else let '(s', over) := scan_visit e s limit st in
            if over then Ok (s', true) else scan_leaf p (map Z.of_nat (seq (S k) (length es))) stop s limit s') =
      Ok (if ends_before stop e then let '(st', over) := scan_visit e s limit st in
            if over then (st', true) else scan_entries es stop s limit st' else (st, true)) :> CoreResult (Scan * bool)).
    { unfold ends_before. destruct (match stop with Some b => bytes_leb b (le_key e) | None => false end) eqn:Est.
      - destruct stop as [b|]; [by rewrite Est|done].
      - assert ((match stop with Some b => negb (bytes_leb b (le_key e)) | None => true end) = true) as ->.
        { destruct stop as [b|]; [by rewrite Est|done]. }
        pose proof (visit_cursor e s limit st He) as [Hc _]. destruct (scan_visit e s limit st) as [st' over]. destruct over; [done|].
        rewrite (IH (S k) st' Hd Hs' Hp'). by rewrite (entries_filter_all (pending st')) by by apply (pending_after st' e). }
    destruct (leaf_cmp _ _ _ _); [exact Hgo|done|exact Hgo].
  - assert (leaf_cmp (le_key e) (le_seq e) (sc_cursor_key st) (sc_cursor_seq st) = Lt) as ->.
    { unfold pending, pos_lt, epos, cursor in Ep. cbn in Ep. by destruct (leaf_cmp _ _ _ _). }
    by apply IH.
Qed.

(** ** The leaves in order *)
Fixpoint leaf_list (g : gtree) : list (list LeafEntry) :=
  match g with
  | GLeaf _ es => [es]
  | GNode _ g0 ks => leaf_list g0 ++ flat_map (fun k => leaf_list k.2) ks
  end.
Definition kids_list (ks : list (Pos_ * gtree)) : list (list LeafEntry) := flat_map (fun k => leaf_list k.2) ks.
Fixpoint right_leaves (ctx : gctx) : list (list LeafEntry) :=
  match ctx with [] => [] | f :: ctx' => kids_list (f_rest f) ++ right_leaves ctx' end.

Lemma leaf_list_entries g : concat (leaf_list g) = entries g /\ length (leaf_list g) = leaves g.
Proof.
  induction g as [id es|id g0 ks [IH1 IH2] IHk] using gtree_ind'.
  { cbn. unfold entries. cbn. by rewrite app_nil_r, items_entries_map. }
  assert (Hk : concat (kids_list ks) = items_entries (kids_order ks) /\ length (kids_list ks) = kids_leaves ks).
  { induction IHk as [|k ks [K1 K2] _ [I1 I2]]; [done|]. cbn [kids_list kids_order kids_leaves flat_map foldr]. split.
    - rewrite concat_app, K1. fold (kids_list ks). rewrite I1. cbn. rewrite items_entries_app. done.
    - rewrite length_app, K2. fold (kids_list ks) (kids_leaves ks). by rewrite I2. }
  destruct Hk as [K1 K2]. rewrite leaves_node. cbn [leaf_list]. fold (kids_list ks). split.
  - rewrite concat_app, IH1, K1. unfold entries. cbn. by rewrite items_entries_app.
  - by rewrite length_app, IH2, K2.
Qed.
Lemma kids_list_entries ks : concat (kids_list ks) = items_entries (kids_order ks) /\ length (kids_list ks) = kids_leaves ks.
Proof.
  induction ks as [|k ks [I1 I2]]; [done|]. destruct (leaf_list_entries k.2) as [K1 K2].
  cbn [kids_list kids_order kids_leaves flat_map foldr]. split.
  - rewrite concat_app, K1. fold (kids_list ks). rewrite I1. cbn. rewrite items_entries_app. done.
  - rewrite length_app, K2. fold (kids_list ks) (kids_leaves ks). by rewrite I2.
Qed.
Lemma right_leaves_entries ctx : concat (right_leaves ctx) = items_entries (c_right ctx) /\ length (right_leaves ctx) = c_leaves ctx.
Proof.
  induction ctx as [|f ctx [I1 I2]]; [done|]. destruct (kids_list_entries (f_rest f)) as [K1 K2]. cbn [right_leaves c_right c_leaves].
  rewrite concat_app, length_app, items_entries_app, K1, K2, I1, I2. done.
Qed.
Lemma leaf_list_plug ctx g : exists L, leaf_list (plug ctx g) = L ++ leaf_list g ++ right_leaves ctx.
Proof.
  revert g. induction ctx as [|f ctx IH]; intros g; cbn; [exists []; by rewrite app_nil_r|]. destruct (IH (fill f g)) as [L ->].
  destruct f as [id ks|id g0 ks1 p ks2]; cbn [fill leaf_list f_rest].
  - exists L. fold (kids_list ks). by rewrite <- !app_assoc.
  - exists (L ++ leaf_list g0 ++ kids_list ks1). rewrite flat_map_app. cbn. fold (kids_list ks1) (kids_list ks2). by rewrite <- !app_assoc.
Qed.

(** Two leaves of one tree: the same, or one of them is right of the other. *)
Lemma leaf_order ctx ctx' id id' es es' : plug ctx (GLeaf id es) = plug ctx' (GLeaf id' es') ->
  (c_leaves ctx' < c_leaves ctx)%nat \/ c_leaves ctx' = c_leaves ctx /\ es' = es \/
  (forall e, e ∈ es -> e ∈ items_entries (c_right ctx')).
Proof.
  intros Hg. destruct (leaf_list_plug ctx (GLeaf id es)) as [L HL]. destruct (leaf_list_plug ctx' (GLeaf id' es')) as [L' HL'].
  rewrite Hg, HL' in HL. cbn [leaf_list app] in HL. destruct (right_leaves_entries ctx) as [_ R2]. destruct (right_leaves_entries ctx') as [R1' R2'].
  rewrite <- R1'. rewrite <- R2, <- R2'. set (R := right_leaves ctx) in *. set (R' := right_leaves ctx') in *. clearbody R R'.
  destruct (Nat.lt_trichotomy (length R') (length R)) as [H|[H|H]]; [by left|right; left|right; right].
  - split; [done|]. apply (f_equal (@rev _)) in HL. rewrite !rev_app_distr in HL. cbn in HL. rewrite <- !app_assoc in HL.
    apply app_inj_1 in HL as [_ HL]; [|by rewrite !length_rev]. cbn in HL. by simplify_eq.
  - intros e He. rewrite list_elem_of_In, in_concat. exists es. split; [|by apply list_elem_of_In].
    assert (Hi : (L' ++ es' :: R') !! length L = Some es) by (rewrite HL; by apply list_lookup_middle).
    apply (f_equal length) in HL. rewrite !length_app in HL. cbn in HL.
    rewrite lookup_app_r in Hi by lia. destruct (length L - length L')%nat as [|j] eqn:Ej; [lia|]. cbn in Hi.
    apply list_elem_of_In. by eapply list_elem_of_lookup_2.
Qed.

(** ** The walk over the leaves *)
Section scan.
Context (crc : bytes -> Z).

Definition turns (ctx : gctx) (st : Scan) (es : list LeafEntry) : nat :=
  2 * c_leaves ctx + (if existsb (pending st) es then 2 else 1).

(** The walk is at a leaf with nothing to do on its left and everything to do on its right. *)
Record at_leaf (g : gtree) (st : Scan) (ctx : gctx) (id : Z) (es : list LeafEntry) : Prop := {
  al_tree : g = plug ctx (GLeaf id es);
  al_left : Forall (fun e => pending st e = false) (items_entries (c_left ctx));
  al_right : Forall (fun e => pending st e = true) (items_entries (c_right ctx));
}.
Lemma at_leaf_entries g st ctx id es : at_leaf g st ctx id es ->
  entries g = items_entries (c_left ctx) ++ es ++ items_entries (c_right ctx) /\
  List.filter (pending st) (entries g) = List.filter (pending st) es ++ items_entries (c_right ctx).
Proof.
  intros [-> Hl Hr]. assert (He : entries (plug ctx (GLeaf id es)) = items_entries (c_left ctx) ++ es ++ items_entries (c_right ctx)).
  { rewrite entries_plug. unfold entries at 1. cbn. by rewrite items_entries_map. }
  split; [done|]. rewrite He, !List.filter_app. rewrite Forall_forall in Hl, Hr.
  rewrite (entries_filter_none _ (items_entries (c_left ctx))) by done. by rewrite (entries_filter_all _ (items_entries (c_right ctx))) by done.
Qed.
(** Where [descend] arrives. *)
Lemma descend_leaf g st ctx id es : g = plug ctx (GLeaf id es) ->
  Forall (before (cursor st)) (c_left ctx) -> Forall (after (cursor st)) (c_right ctx) -> at_leaf g st ctx id es.
Proof.
  intros Hg Hb Ha. rewrite Forall_forall in Hb, Ha. constructor; [done|..]; apply Forall_forall; intros e He%elem_of_items_entries; unfold pending.
  - specialize (Hb _ He). cbn in Hb. unfold Plt in Hb. by rewrite Hb.
  - specialize (Ha _ He). cbn in Ha. apply Plt_Ple in Ha. unfold Ple in Ha. by rewrite Ha.
Qed.

(** The walk is past the entries it has seen. *)
Lemma walked g st st' ctx id es l e :
  at_leaf g st ctx id es -> sorted_entries (entries g) -> List.filter (pending st) es = l ++ [e] -> cursor st' = next_pos e ->
  List.filter (pending st') (entries g) = items_entries (c_right ctx) /\ forall x, x ∈ es -> pending st' x = false.
Proof.
  intros Hat Hs Hf Hc. destruct (at_leaf_entries _ _ _ _ _ Hat) as [He _]. rewrite He in Hs |- *.
  assert (Hne : forall x, x ∈ items_entries (c_left ctx) ++ es -> pending st' x = false).
  { intros x Hx. unfold pending. rewrite Hc, next_pos_spec. rewrite negb_involutive.
    assert (Hin : e ∈ es) by (apply list_elem_of_In; apply (List.filter_In (pending st)); rewrite Hf; apply in_app_iff; right; by left).
    destruct (pos_lt (epos e) (epos x)) eqn:Elt; [exfalso|done]. rewrite app_assoc in Hs. apply StronglySorted_app in Hs as (_ & Hs & _).
    assert (Hpe : pending st e = true) by (apply (List.filter_In (pending st) e es); rewrite Hf; apply in_app_iff; right; by left).
    assert (Hpx : pending st x = true).
    { unfold pending in *. apply negb_true_iff in Hpe. apply negb_true_iff. destruct (pos_lt (epos x) (cursor st)) eqn:E; [|done].
      pose proof (Plt_trans _ _ _ Elt E) as H. unfold Plt in H. congruence. }
    apply elem_of_app in Hx as [Hx|Hx].
    { destruct Hat as [_ Hl _]. rewrite Forall_forall in Hl. specialize (Hl x Hx). congruence. }
    assert (Hxf : x ∈ l ++ [e]) by (rewrite <- Hf; apply list_elem_of_In, List.filter_In; split; [by apply list_elem_of_In|done]).
    assert (Hsf : sorted_entries (l ++ [e])).
    { rewrite <- Hf. apply StronglySorted_app in Hs as (_ & _ & Hs). clear -Hs. induction Hs as [|y ys _ IH HF]; cbn; [constructor|].
      destruct (pending st y); [|done]. constructor; [done|]. rewrite Forall_forall in HF |- *. intros z Hz.
      apply HF. apply list_elem_of_In in Hz. apply List.filter_In in Hz as [Hz _]. by apply list_elem_of_In. }
    apply StronglySorted_app in Hsf as (Hlt & _ & _). apply elem_of_app in Hxf as [Hxl|Hxe].
    - pose proof (Hlt x e Hxl ltac:(by left)) as H. eapply Plt_irrefl. by eapply (Plt_trans (epos e)).
    - apply list_elem_of_singleton in Hxe as ->. by eapply Plt_irrefl. }
  split; [|intros x Hx; apply Hne, elem_of_app; by right]. rewrite app_assoc, List.filter_app, (entries_filter_none _ (_ ++ es)) by done.
  apply entries_filter_all. intros x Hx. unfold pending. rewrite Hc, next_pos_spec.
  assert (Hin : e ∈ es) by (apply list_elem_of_In; apply (List.filter_In (pending st)); rewrite Hf; apply in_app_iff; right; by left).
  rewrite app_assoc in Hs. apply StronglySorted_app in Hs as (Hlt & _ & _).
  pose proof (Hlt e x ltac:(apply elem_of_app; by right) Hx) as H. unfold Plt in H. by rewrite H.
Qed.

Lemma scan_loop_wp stop s limit g : sorted_entries (entries g) -> positive_seqs (entries g) -> (levels g <= MAX_DEPTH)%nat ->
  forall fuel ctx id es st t, tree_ok crc t g -> at_leaf g st ctx id es -> (turns ctx st es <= fuel)%nat ->
  wp (scan_loop crc fuel (path_of ctx id) stop s limit st) t
    (fun r t' => quiet crc t t' /\ r = sc_out (scan_entries (List.filter (pending st) (entries g)) stop s limit st).1)
    (fun e t' => e = ResourceLimit /\ quiet crc t t').
Proof.
  intros Hsort Hpos Hlev. induction fuel as [|fuel IH]; intros ctx id es st t Ht Hat Hfuel.
  { unfold turns in Hfuel. destruct (existsb _ _); lia. }
  cbn [scan_loop]. apply st_wp_bind. eapply st_wp_lift; [apply path_leaf_of|].
  destruct (at_leaf_entries _ _ _ _ _ Hat) as [Hent Hfil]. pose proof Hat as [Hg Hleft Hright].
  assert (Hpart : part_ok crc t (plug ctx (GLeaf id es))) by (rewrite <- Hg; by apply tree_part).
  pose proof (part_plug _ _ _ _ Hpart) as Hpl. apply st_wp_bind.
  eapply st_wp_mono; [by apply fetch_leaf_wp| |by auto]. intros [i p] t1 (Hq1 & Hi & _). cbn [fst snd] in *.
  assert (Hok : Forall entry_ok es).
  { pose proof (pt_items _ _ _ Hpl) as Hit. cbn in Hit. by apply (Forall_fmap Ent) in Hit. }
  assert (Hse : sorted_entries es).
  { rewrite Hent in Hsort. apply StronglySorted_app in Hsort as (_ & _ & H). by apply StronglySorted_app in H as (_ & H & _). }
  assert (Hpe : positive_seqs es) by (rewrite Hent in Hpos; apply Forall_app in Hpos as [_ H]; by apply Forall_app in H as [H _]).
  rewrite (leaf_range _ _ _ _ Hi). apply st_wp_bind.
  eapply st_wp_lift; [apply (scan_leaf_spec p stop s limit es 0 (unadvanced st) (leaf_decodes _ _ _ _ Hi Hok) Hse Hpe)|].
  change (pending (unadvanced st)) with (pending st). set (b := List.filter (pending st) es) in *.
  rewrite <- (scan_entries_unadvanced _ _ _ _ st), Hfil, scan_entries_app.
  pose proof (fun st' => scan_entries_cursor stop s limit b (unadvanced st) st') as Hcur.
  assert (Hpb : positive_seqs b).
  { apply Forall_forall. intros x Hx%list_elem_of_In. apply List.filter_In in Hx as [Hx _]. rewrite Forall_forall in Hpe.
    apply Hpe. by apply list_elem_of_In. }
  destruct (scan_entries b stop s limit (unadvanced st)) as [st' over]. destruct over; [by apply st_wp_ret|].
  destruct (Hcur st' Hpb eq_refl) as [[Hb ->]|(l & e & Hb & Hc & Ha)]; clear Hcur.
  - cbn [sc_advanced unadvanced]. apply st_wp_bind.
    eapply st_wp_mono; [apply (right_neighbor_wp crc t1 ctx id es); by eapply part_quiet|..].
    2:{ intros x t2 [-> Hq2]%read_error_limit; [|rewrite <- Hg; lia]. split; [done|by eapply tree_quiet_trans]. }
    intros [path|] t2 [Hq2 Hn]; pose proof (tree_quiet_trans _ _ _ _ Hq1 Hq2) as Hq.
    2:{ apply st_wp_ret. split; [done|]. by rewrite Hn. }
    destruct Hn as (ctx' & id' & es' & Hg' & -> & Hcl & Hlv). rewrite <- Hg in Hg'.
    assert (Hnot : forall x, x ∈ es -> pending st x = false).
    { intros x Hx. destruct (pending st x) eqn:E; [|done]. assert (Hin : x ∈ b) by (apply list_elem_of_In, List.filter_In; split; [by apply list_elem_of_In|done]).
      rewrite Hb in Hin. by apply elem_of_nil in Hin. }
    assert (Hcr : items_entries (c_right ctx) = es' ++ items_entries (c_right ctx')).
    { assert (He' : entries g = items_entries (c_left ctx') ++ es' ++ items_entries (c_right ctx')).
      { rewrite Hg', entries_plug. unfold entries at 1. cbn. by rewrite items_entries_map. }
      rewrite Hent, Hcl, <- app_assoc in He'. by apply app_inv_head, app_inv_head in He'. }
    assert (Hat' : at_leaf g (unadvanced st) ctx' id' es').
    { constructor; [done|..]; change (pending (unadvanced st)) with (pending st).
      - rewrite Hcl. apply Forall_app. split; [done|by apply Forall_forall].
      - rewrite Hcr in Hright. by apply Forall_app in Hright as [_ H]. }
    eapply st_wp_mono; [apply (IH ctx' id' es' (unadvanced st) t2 (tree_ok_quiet _ _ _ _ Hq Ht) Hat')|..].
    + unfold turns in *. assert (existsb (pending st) es = false) as Hex.
      { destruct (existsb (pending st) es) eqn:E; [|done]. apply existsb_exists in E as (x & Hx & E). rewrite Hnot in E; [done|by apply list_elem_of_In]. }
      rewrite Hex in Hfuel. destruct (existsb _ es'); lia.
    + intros r t3 [Hq3 ->]. split; [by eapply tree_quiet_trans|]. change (pending (unadvanced st)) with (pending st).
      rewrite Hfil, Hb. done.
    + intros x t3 [-> Hq3]. split; [done|by eapply tree_quiet_trans].
  - rewrite Ha. apply st_wp_bind. eapply st_wp_mono; [apply (descend_wp crc t1 g _ _ (tree_ok_quiet _ _ _ _ Hq1 Ht))|..].
    2:{ intros x t2 [-> Hq2]%read_error_limit; [|lia]. split; [done|by eapply tree_quiet_trans]. }
    intros path t2 (Hq2 & ctx' & id' & es' & Hg' & -> & Hbef & Haft & _). pose proof (tree_quiet_trans _ _ _ _ Hq1 Hq2) as Hq.
    pose proof (descend_leaf g st' ctx' id' es' Hg' Hbef Haft) as Hat'.
    destruct (walked g st st' ctx id es l e Hat Hsort Hb Hc) as [Hrest Hdone].
    eapply st_wp_mono; [apply (IH ctx' id' es' st' t2 (tree_ok_quiet _ _ _ _ Hq Ht) Hat')|..].
    + assert (Hin : e ∈ es) by (apply list_elem_of_In; apply (List.filter_In (pending st)); fold b; rewrite Hb; apply in_app_iff; right; by left).
      assert (Hpend : existsb (pending st) es = true).
      { apply existsb_exists. exists e. split; [by apply list_elem_of_In|]. apply (List.filter_In (pending st) e es). fold b. rewrite Hb. apply in_app_iff. right. by left. }
      unfold turns in *. rewrite Hpend in Hfuel. destruct (leaf_order ctx ctx' id id' es es') as [H|[[H1 ->]|H]]; [congruence|..].
      * destruct (existsb _ es'); lia.
      * assert (existsb (pending st') es = false) as ->; [|lia]. destruct (existsb (pending st') es) eqn:E; [|done].
        apply existsb_exists in E as (x & Hx & E). rewrite Hdone in E; [done|by apply list_elem_of_In].
      * exfalso. specialize (H e Hin). destruct Hat' as [_ _ Hr']. rewrite Forall_forall in Hr'. specialize (Hr' e H). rewrite Hdone in Hr' by done. done.
    + intros r t3 [Hq3 ->]. split; [by eapply tree_quiet_trans|]. by rewrite Hrest.
    + intros x t3 [-> Hq3]. split; [done|by eapply tree_quiet_trans].
Qed.
End scan.

(** ** What a scan returns *)
Lemma up_to_filter stop l : sorted_entries l -> up_to stop l = List.filter (ends_before stop) l.
Proof.
  induction 1 as [|e l _ IH HF]; cbn; [done|]. destruct (ends_before stop e) eqn:Ee; [by rewrite IH|]. symmetry.
  apply entries_filter_none. intros x Hx. rewrite Forall_forall in HF. specialize (HF x Hx). destruct stop as [b|]; cbn in *; [|done].
  apply negb_false_iff in Ee. apply negb_false_iff. rewrite bytes_leb_lt in *. apply negb_true_iff in Ee. apply negb_true_iff.
  destruct (bytes_ltb (le_key x) b) eqn:E; [|done]. exfalso. unfold Plt, pos_lt, leaf_cmp in HF. cbn in HF.
  destruct (bytes_cmp (le_key e) (le_key x)) eqn:Ec; [apply bytes_cmp_eq in Ec; congruence| |done].
  assert (bytes_ltb (le_key e) b = true); [|congruence]. eapply bytes_ltb_trans; [|exact E]. unfold bytes_ltb. by rewrite Ec.
Qed.
Lemma visible_filter (f : LeafEntry -> bool) key s l : (forall e, le_key e = key -> f e = true) ->
  visible key s (List.filter f l) = visible key s l.
Proof.
  intros Hf. unfold visible. induction l as [|e l IH]; cbn; [done|]. destruct (f e) eqn:E; cbn; [by rewrite IH|].
  assert (matches key s e = false) as ->; [|done]. unfold matches. apply andb_false_iff. left. apply bool_decide_eq_false.
  intros Hk. rewrite Hf in E; done.
Qed.
Lemma sorted_filter (f : LeafEntry -> bool) l : sorted_entries l -> sorted_entries (List.filter f l).
Proof.
  induction 1 as [|y ys _ IH HF]; cbn; [constructor|]. destruct (f y); [|done]. constructor; [done|]. rewrite Forall_forall in HF |- *.
  intros z Hz. apply HF. apply list_elem_of_In in Hz. apply List.filter_In in Hz as [Hz _]. by apply list_elem_of_In.
Qed.
Lemma filter_andb (f g : LeafEntry -> bool) l : List.filter f (List.filter g l) = List.filter (fun x => f x && g x) l.
Proof.
  induction l as [|x l IH]; cbn; [done|]. destruct (g x) eqn:G; cbn; [|by rewrite andb_false_r]. rewrite andb_true_r. by destruct (f x); rewrite IH.
Qed.

Definition scan_start (start : bytes) : Scan := MkScan [] start (2 ^ 64 - 1) None false.
Lemma scan_entries_versions start stop s limit es :
  sorted_entries es -> Forall entry_ok es ->
  sc_out (scan_entries (List.filter (pending (scan_start start)) es) stop s limit (scan_start start)).1 = scan_versions start stop s limit es.
Proof.
  intros Hs Hok. rewrite scan_entries_out by (cbn; lia). unfold scan_versions. cbn [sc_out sc_current scan_start app]. f_equal.
  assert (Hp : List.filter (pending (scan_start start)) es = List.filter (fun e => bytes_leb start (le_key e)) es).
  { apply filter_ext_in_Z. intros e He. rewrite Forall_forall in Hok. destruct (Hok e He) as (_ & Hq & _). apply in_u_spec in Hq.
    unfold pending, cursor, scan_start, pos_lt, leaf_cmp, epos. cbn [sc_cursor_key sc_cursor_seq fst snd]. rewrite bytes_leb_lt. f_equal.
    unfold bytes_ltb. destruct (bytes_cmp (le_key e) start); [|done..]. destruct (Z.compare_spec (2 ^ 64 - 1) (le_seq e)); try done; lia. }
  rewrite Hp, up_to_filter by by apply sorted_filter. rewrite filter_andb.
  set (l := List.filter _ es). assert (Hl : l = List.filter (in_range start stop) es).
  { apply filter_ext_in_Z. intros e _. unfold in_range. apply andb_comm. }
  rewrite Hl. rewrite emitted_spec by (try done; by apply sorted_filter). rewrite <- filter_andb. apply filter_ext_in_Z. intros v Hv.
  apply list_elem_of_In, List.filter_In in Hv as [_ Hv].
  unfold fresh, newest. cbn [bool_decide negb andb]. rewrite visible_filter; [done|]. intros e He. unfold in_range, ends_before in *. by rewrite He.
Qed.

Section store_scan.
Context (crc : bytes -> Z).

Lemma scan_visible_wp t g start stop s limit :
  tree_ok crc t g -> positive_seqs (entries g) -> (levels g <= MAX_DEPTH)%nat -> (2 * leaves g <= SCAN_GUARD)%nat ->
  wp (scan_visible crc start stop s limit) t
    (fun r t' => quiet crc t t' /\ r = scan_versions start stop s limit (entries g))
    (fun e t' => e = ResourceLimit /\ quiet crc t t').
Proof.
  intros Ht Hpos Hl Hn. pose proof (ordered_entries _ (tk_ordered _ _ _ Ht)) as Hs. fold (entries g) in Hs.
  assert (Hok : Forall entry_ok (entries g)).
  { apply Forall_forall. intros e He%elem_of_items_entries. pose proof (tk_items _ _ _ Ht) as Hi. rewrite Forall_forall in Hi. exact (Hi _ He). }
  unfold scan_visible. apply st_wp_bind. eapply st_wp_mono; [by apply descend_wp| |intros x t1; apply read_error_limit; lia].
  intros path t1 (Hq & ctx & id & es & Hg & -> & Hb & Ha & _). change (MkScan [] start (2 ^ 64 - 1) None false) with (scan_start start).
  pose proof (descend_leaf g (scan_start start) ctx id es Hg Hb Ha) as Hat.
  eapply st_wp_mono; [apply (scan_loop_wp crc stop s limit g Hs Hpos Hl SCAN_GUARD ctx id es (scan_start start) t1 (tree_ok_quiet _ _ _ _ Hq Ht) Hat)|..].
  - assert (Hcl : (S (c_leaves ctx) <= leaves g)%nat).
    { destruct (leaf_list_plug ctx (GLeaf id es)) as [L HL]. rewrite <- Hg in HL. apply (f_equal length) in HL.
      rewrite (proj2 (leaf_list_entries g)), !length_app, (proj2 (right_leaves_entries ctx)) in HL. cbn in HL. lia. }
    unfold turns. destruct (existsb _ es); lia.
  - intros r t2 [Hq2 ->]. split; [by eapply tree_quiet_trans|]. by apply scan_entries_versions.
  - intros e t2 [-> Hq2]. split; [done|by eapply tree_quiet_trans].
Qed.

Lemma newest_rep V n es vs s : Forall2 (rep crc V n) es vs ->
  forall e v, rep crc V n e v -> newest s es e = newest s vs v.
Proof.
  intros Hr e v Hev. unfold newest. pose proof (rep_pos _ _ _ _ _ Hev) as Hp. rewrite Hp. assert (le_key e = le_key v) as -> by (by injection Hp).
  pose proof (visible_rep _ _ _ _ _ (le_key v) s Hr) as H.
  destruct (visible _ _ es) as [x|], (visible _ _ vs) as [y|]; try done. cbn. by rewrite (rep_pos _ _ _ _ _ H).
Qed.
Lemma scan_versions_rep V n es vs start stop s limit : Forall2 (rep crc V n) es vs ->
  Forall2 (rep crc V n) (scan_versions start stop s limit es) (scan_versions start stop s limit vs).
Proof.
  intros Hr. unfold scan_versions. apply Forall2_take. pose proof (newest_rep V n es vs s Hr) as Hn.
  assert (Hgen : forall es' vs', Forall2 (rep crc V n) es' vs' ->
    Forall2 (rep crc V n) (List.filter (fun v => newest s es v && in_range start stop v) es') (List.filter (fun v => newest s vs v && in_range start stop v) vs')).
  { induction 1 as [|e v es' vs' Hev _ IH]; cbn; [constructor|]. rewrite (Hn e v Hev).
    assert (in_range start stop e = in_range start stop v) as ->.
    { pose proof (rep_pos _ _ _ _ _ Hev) as [= Hk _]. unfold in_range, ends_before. by rewrite Hk. }
    destruct (_ && _); [by constructor|done]. }
  by apply Hgen.
Qed.

(** The rows of a scan: live versions, the limit applied after the tree's own. *)
Definition rows (vs : list LeafEntry) : list (bytes * bytes) :=
  map (fun v => (le_key v, le_value v)) (List.filter (fun v => negb (is_tombstone v)) vs).
Lemma scan_values_wp limit : forall es vs out t, pool_ok crc (t_next t) (t_cache t) ->
  Forall2 (rep crc (view crc (t_cache t)) (t_next t)) es vs -> Z.of_nat (length out) < Z.max limit 1 ->
  wp (scan_values crc es limit out) t
    (fun r t' => quiet crc t t' /\ r = take (Z.to_nat (Z.max limit 1)) (out ++ rows vs)) (fun e t' => e = ResourceLimit /\ quiet crc t t').
Proof.
  induction es as [|e es IH]; intros vs out t Hp Hr Hl; inversion Hr as [|? v ? vs' Hev Hr']; subst; cbn [scan_values].
  { apply st_wp_ret. split; [by apply tree_quiet_refl|]. cbn. by rewrite app_nil_r, take_ge by lia. }
  unfold rows. cbn [List.filter]. rewrite (rep_tombstone _ _ _ _ _ Hev). destruct (is_tombstone v); cbn [negb]; [by apply IH|].
  apply st_wp_bind. eapply st_wp_mono; [by apply (read_value_wp crc t e v)| |by auto]. intros x t1 [Hq ->].
  pose proof (rep_pos _ _ _ _ _ Hev) as [= Hk _]. rewrite Hk. cbn [map]. fold (rows vs').
  assert (Happ : out ++ (le_key v, le_value v) :: rows vs' = (out ++ [(le_key v, le_value v)]) ++ rows vs') by by rewrite <- app_assoc.
  rewrite Happ. destruct (Z.leb_spec limit (Z.of_nat (length (out ++ [(le_key v, le_value v)])))) as [Hge|Hlt].
  - apply st_wp_ret. split; [done|]. rewrite length_app in Hge. cbn in Hge. rewrite take_app_le by (rewrite length_app; cbn; lia).
    rewrite take_ge; [done|]. rewrite length_app. cbn. lia.
  - eapply st_wp_mono; [apply (IH vs' (out ++ [(le_key v, le_value v)]) t1)|..]; [apply Hq| |lia|..].
    + eapply Forall2_impl; [exact Hr'|]. intros a b. apply rep_frame; [rewrite (qt_next _ _ _ Hq); lia|]. intros y p _ Hy _.
      by rewrite (sm_view _ _ _ (qt_same _ _ _ Hq)).
    + intros r t2 [Hq2 ->]. split; [by eapply tree_quiet_trans|done].
    + intros e' t2 [-> Hq2]. split; [done|by eapply tree_quiet_trans].
Qed.

(** What the store asks of the tree. *)
Definition window (limit : Z) : Z := Z.max (Z.min (limit * 2) (2 ^ 64 - 1)) limit.

Lemma store_scan_wp t g vs start stop visible_seq limit :
  store_ok crc t g vs -> Forall (fun v => 0 < le_seq v) vs -> (levels g <= MAX_DEPTH)%nat -> (2 * leaves g <= SCAN_GUARD)%nat -> 0 <= limit ->
  wp (store_scan crc start stop visible_seq limit) t
    (fun r t' => quiet crc t t' /\ r = take (Z.to_nat (Z.max limit 1)) (rows (scan_versions start stop visible_seq (window limit) vs)))
    (fun e t' => e = ResourceLimit /\ quiet crc t t').
Proof.
  intros Hso Hpos Hl Hn Hlim. pose proof Hso as [Ht Hr].
  assert (Hpe : positive_seqs (entries g)).
  { clear -Hr Hpos. induction Hr as [|e v es vs Hev _ IH]; [constructor|]. apply Forall_cons in Hpos as [Hv Hp]. constructor; [|by apply IH].
    pose proof (rep_pos _ _ _ _ _ Hev) as [= _ ->]. done. }
  unfold store_scan. apply st_wp_bind. eapply st_wp_mono; [by apply scan_visible_wp| |by auto]. intros es t1 [Hq ->].
  destruct (store_quiet crc t t1 g vs Hq Hso) as [Ht1 Hr1].
  eapply st_wp_mono; [eapply (scan_values_wp limit); [apply Hq|by apply scan_versions_rep|cbn; lia]|..].
  - intros r t2 [Hq2 ->]. split; [by eapply tree_quiet_trans|done].
  - intros e t2 [-> Hq2]. split; [done|by eapply tree_quiet_trans].
Qed.
End store_scan.

(** C15. A scan ends, and with the right rows.  The loop of [scan_visible] takes at
    most two turns per leaf, well inside its guard of ten million, although it
    descends from the root again after every leaf; it yields, in key order, the
    newest visible version of each key of the range up to the limit it was given.
    The store's scan then gives the live rows among these, chains reassembled.
    Nothing but a pool without a frame to evict can make it fail, and nothing a
    client can see changes. *)
Theorem btree_scan_terminates crc t g vs start stop visible_seq limit :
  store_ok crc t g vs -> Forall (fun v => 0 < le_seq v) vs -> (levels g <= MAX_DEPTH)%nat -> (2 * leaves g <= SCAN_GUARD)%nat -> 0 <= limit ->
  match store_scan crc start stop visible_seq limit t with
  | (Ok r, t') => r = take (Z.to_nat (Z.max limit 1)) (rows (scan_versions start stop visible_seq (Z.max (Z.min (limit * 2) (2 ^ 64 - 1)) limit) vs)) /\
      store_ok crc t' g vs /\ pf_data (io (t_cache t')) = pf_data (io (t_cache t))
  | (Err e, t') => e = ResourceLimit /\ store_ok crc t' g vs /\ pf_data (io (t_cache t')) = pf_data (io (t_cache t))
  | (Panic, _) => False
  end.
Proof.
  intros Hso Hpos Hl Hn Hlim. pose proof (store_scan_wp crc t g vs start stop visible_seq limit Hso Hpos Hl Hn Hlim) as H.
  unfold wp in H. destruct (store_scan _ _ _ _ _ _) as [[r|e|] t']; [..|done]; destruct H as [H1 H2]; eauto using store_quiet, quiet_file.
Qed.

(** ** Witnesses *)
Definition put_at (key : bytes) (s flags : Z) (value : bytes) : stM Tree bool := insert_version crc0 7 key s (zeros 32) flags [] value.

Lemma btree_scan_terminates_witness :
  store_ok crc0 new_tree (GLeaf 1 []) [] /\ (store_scan crc0 [] None 9 5 new_tree).1 = Ok [].
Proof.
  split; [exact (proj1 new_tree_ok)|].
  pose proof (btree_scan_terminates crc0 new_tree (GLeaf 1 []) [] [] None 9 5 (proj1 new_tree_ok) ltac:(constructor) ltac:(cbn; unfold MAX_DEPTH; lia)
    ltac:(cbn; unfold SCAN_GUARD; lia) ltac:(lia)) as H.
  destruct (store_scan _ _ _ _ _ _) as [[r|e|] t'] eqn:E; cbn [fst].
  - destruct H as (-> & _). reflexivity.
  - exfalso. assert (Hr : (store_scan crc0 [] None 9 5 new_tree).1 = Ok []) by (vm_compute; reflexivity). rewrite E in Hr. discriminate.
  - destruct H.
Defined.

(** ** Rows a scan leaves out *)

(** The live rows of a range, and the deleted keys of a list of versions. *)
Definition live_rows (start : bytes) (stop : option bytes) (s : Z) (vs : list LeafEntry) : list (bytes * bytes) :=
  rows (List.filter (fun v => newest s vs v && in_range start stop v) vs).
Definition deleted (vs : list LeafEntry) : nat := length (List.filter is_tombstone vs).

Lemma rows_app a b : rows (a ++ b) = rows a ++ rows b.
Proof. unfold rows. by rewrite List.filter_app, map_app. Qed.
Lemma rows_deleted vs : (length (rows vs) + deleted vs = length vs)%nat.
Proof.
  unfold rows, deleted. rewrite length_map. induction vs as [|v vs IH]; [done|]. cbn [List.filter].
  destruct (is_tombstone v); cbn [negb length]; lia.
Qed.

(** The first [n] live rows against the live rows of the first [2 * n] versions. *)
Lemma rows_window vs n : (0 < n)%nat ->
  (length (take n (rows (take (n * 2) vs))) < Nat.min n (length (rows vs)))%nat <->
    rows (drop (n * 2) vs) <> [] /\ (n < deleted (take (n * 2) vs))%nat.
Proof.
  intros Hn. rewrite <- (take_drop (n * 2) vs) at 2. rewrite rows_app, length_app, length_take.
  pose proof (rows_deleted (take (n * 2) vs)) as Hd. rewrite length_take in Hd.
  destruct (rows (drop (n * 2) vs)) as [|x l] eqn:E; cbn [length].
  - split; [lia|by intros [? _]].
  - assert (n * 2 < length vs)%nat.
    { destruct (Nat.lt_ge_cases (n * 2) (length vs)); [done|]. by rewrite drop_ge in E. }
    split; [intros; split; [done|lia]|intros [_ ?]; lia].
Qed.

(** C40. When a scan misses rows.  The store asks the tree for twice the limit of
    visible versions, tombstones included, and leaves the tombstones out
    afterwards.  What it returns is then always a beginning of the live rows of the
    range; it has fewer rows than the limit allows, although the range has them,
    exactly when more than [limit] of the first [2 * limit] keys it visits are
    deleted and a live row lies behind those. *)
Theorem scan_misses_rows_iff crc t g vs start stop visible_seq limit :
  store_ok crc t g vs -> Forall (fun v => 0 < le_seq v) vs -> (levels g <= MAX_DEPTH)%nat -> (2 * leaves g <= SCAN_GUARD)%nat ->
  0 < limit -> limit * 2 < 2 ^ 64 ->
  let n := Z.to_nat limit in
  let found := List.filter (fun v => newest visible_seq vs v && in_range start stop v) vs in
  match (store_scan crc start stop visible_seq limit t).1 with
  | Ok r => r `prefix_of` live_rows start stop visible_seq vs /\
      ((length r < Nat.min n (length (live_rows start stop visible_seq vs)))%nat <->
        (n < deleted (take (n * 2) found))%nat /\ rows (drop (n * 2) found) <> [])
  | Err e => e = ResourceLimit
  | Panic => False
  end.
Proof.
  intros Hso Hpos Hl Hg Hlim Hmax n found.
  pose proof (store_scan_wp crc t g vs start stop visible_seq limit Hso Hpos Hl Hg ltac:(lia)) as H.
  unfold wp in H. destruct (store_scan _ _ _ _ _ _) as [[r|e|] t']; cbn [fst]; [|apply H|done]. destruct H as [_ ->].
  unfold scan_versions, window. fold found. unfold live_rows. fold found.
  replace (Z.to_nat (Z.max limit 1)) with n by (unfold n; lia).
  replace (Z.to_nat (Z.max (Z.max (Z.min (limit * 2) (2 ^ 64 - 1)) limit) 1)) with (n * 2)%nat by (unfold n; lia).
  split.
  - rewrite <- (take_drop (n * 2) found) at 2. rewrite rows_app. transitivity (rows (take (n * 2) found)); [apply prefix_take|by apply prefix_app_r].
  - rewrite rows_window by (unfold n; lia). tauto.
Qed.

(** Two deleted keys before a live one, as the tree holds them. *)
Definition version_at (key : bytes) (s flags : Z) (value : bytes) : LeafEntry := MkLeafEntry key s (zeros 32) flags [] value.
Definition graves : list LeafEntry :=
  [version_at [1] 5 ENTRY_FLAG_TOMBSTONE []; version_at [2] 5 ENTRY_FLAG_TOMBSTONE []; version_at [3] 5 0 [42]].
Definition graves_tree : Tree :=
  (put_at [3] 5 0 [42] (put_at [2] 5 ENTRY_FLAG_TOMBSTONE [] (put_at [1] 5 ENTRY_FLAG_TOMBSTONE [] new_tree).2).2).2.

Lemma put_at_ok key s flags value t g vs :
  store_ok crc0 t g vs -> t_next t = 2 -> in_u 64 s = true -> is_overflow (version_at key s flags value) = false ->
  (put_at key s flags value t).1 = Ok true ->
  exists g' vs', add_version (version_at key s flags value) vs = Some vs' /\ store_ok crc0 (put_at key s flags value t).2 g' vs'.
Proof.
  intros Hs Hn Hq Ho Hr. unfold put_at in *.
  pose proof (insert_version_wp crc0 7 (fun _ => eq_refl) eq_refl t g vs (version_at key s flags value) Hs
    ltac:(rewrite Hn; vm_compute; reflexivity) Hq eq_refl Ho ltac:(vm_compute; discriminate)) as H.
  unfold wp in H. cbn [le_key le_seq le_txn_id le_flags le_meta le_value version_at] in H.
  destruct (insert_version _ _ _ _ _ _ _ _ _) as [r t']. cbn [fst snd] in *. subst r.
  destruct H as (_ & _ & H). destruct (add_version _ vs) as [vs'|]; [|by destruct H].
  destruct H as (_ & g' & Hs' & _). by exists g', vs'.
Qed.
(** A tree of one page is a leaf. *)
Lemma one_page_leaf crc t g : tree_ok crc t g -> t_next t = 2 -> exists es, g = GLeaf 1 es.
Proof.
  intros Ht Hn. pose proof (tk_bound _ _ _ Ht) as Hb. pose proof (tk_nodup _ _ _ Ht) as Hd. rewrite Hn in Hb.
  destruct g as [id es|id g0 ks].
  - apply Forall_cons in Hb as [Hid _]. cbn in Hid. exists es. f_equal. lia.
  - exfalso. assert (Hg : gid g0 ∈ gids g0) by (destruct g0; left).
    assert (Hid : gids (GNode id g0 ks) = id :: gids g0 ++ page_ids (kids_pages ks)) by (unfold gids, page_ids; cbn; by rewrite map_app).
    rewrite Hid in Hb, Hd. apply Forall_cons in Hb as [Hi [Hb _]%Forall_app]. rewrite Forall_forall in Hb. specialize (Hb _ Hg).
    apply NoDup_cons in Hd as [Hd _]. apply Hd, elem_of_app. left. by replace id with (gid g0) by lia.
Qed.
Lemma graves_tree_ok : exists es, store_ok crc0 graves_tree (GLeaf 1 es) graves.
Proof.
  destruct new_tree_ok as [Hs Hn].
  destruct (put_at_ok [1] 5 ENTRY_FLAG_TOMBSTONE [] _ _ _ Hs Hn eq_refl eq_refl ltac:(vm_compute; reflexivity)) as (g1 & vs1 & Hv1 & Hs1).
  destruct (put_at_ok [2] 5 ENTRY_FLAG_TOMBSTONE [] _ _ _ Hs1 ltac:(vm_compute; reflexivity) eq_refl eq_refl ltac:(vm_compute; reflexivity)) as (g2 & vs2 & Hv2 & Hs2).
  destruct (put_at_ok [3] 5 0 [42] _ _ _ Hs2 ltac:(vm_compute; reflexivity) eq_refl eq_refl ltac:(vm_compute; reflexivity)) as (g3 & vs3 & Hv3 & Hs3).
  vm_compute in Hv1. injection Hv1 as <-. vm_compute in Hv2. injection Hv2 as <-. vm_compute in Hv3. injection Hv3 as <-.
  pose proof Hs3 as [Ht _]. destruct (one_page_leaf _ _ _ Ht ltac:(vm_compute; reflexivity)) as [es ->]. exists es. exact Hs3.
Qed.

(** A scan for one row finds none, although the third key is live. *)
Lemma scan_misses_rows_iff_witness :
  live_rows [] None 9 graves = [([3], [42])] /\ (exists r, (store_scan crc0 [] None 9 1 graves_tree).1 = Ok r /\ (length r < 1)%nat).
Proof.
  destruct graves_tree_ok as [es Hs]. split; [vm_compute; reflexivity|].
  pose proof (scan_misses_rows_iff crc0 graves_tree (GLeaf 1 es) graves [] None 9 1 Hs ltac:(repeat constructor)
    ltac:(cbn; unfold MAX_DEPTH; lia) ltac:(cbn; unfold SCAN_GUARD; lia) ltac:(lia) ltac:(lia)) as H.
  assert (Hr : (store_scan crc0 [] None 9 1 graves_tree).1 = Ok []) by (vm_compute; reflexivity).
  rewrite Hr in H. exists []. split; [exact Hr|]. apply H. split; [vm_compute; lia|vm_compute; discriminate].
Defined.
